(* ===== verification/_CoqProject ===== *)
-Q . S2P
Prelude.v
Heap.v
Parallel.v
NodeSet.v
Int128.v
Bitset.v
Value.v
AtomTable.v
Narrow.v
Columns.v
FinalizeColumns.v
Csr.v
RelTypes.v
InToOut.v
Snapshot.v
TypedAdj.v
Traverse.v
Builder.v
BuilderInv.v
Compaction.v
Finalize.v
FinalizeSpec.v
Thaw.v
ThawOrder.v
ThawSpec.v
SnapshotSpec.v
RcpgCursor.v
RcpgColumn.v
RcpgSection.v
RcpgDirectory.v
RcpgFile.v
RcpgLazy.v
RcpgAtoms.v
Rrsr.v
Serialize.v
SerializeSpec.v
FinalizeFits.v
ThawFinalize.v
BuildFile.v
Hops.v
SearchBfs.v
SearchBfsSpec.v
HopDistances.v
BuiltSearch.v
Cost.v
SearchDijkstra.v
DijkstraInv.v
DijkstraSpec.v
WspSpec.v
ProbeTable.v
FlatSet.v
FlatSetSpec.v
FlatMapSpec.v
FlatBytes.v
FlatBytesSpec.v
TypedQuery.v
TypedQuerySpec.v
LazyCache.v
RangeIndex.v
PropIndex.v
CheckedInt.v
Temporal.v
TemporalSpec.v
TemporalText.v
TemporalTextSpec.v
Float64.v
GqlValue.v
GqlOrder.v
GqlKey.v
GqlAgree.v
TopK.v
TopKSpec.v
Projection.v
ProjectionSpec.v
FloatOps.v
Slab.v
Aggregate.v
AggregateInv.v
AggregateFold.v
AggregateSpec.v
