(* ===== verification/Prelude.v ===== *)
(** * gochickpeas: a verification development

    gochickpeas is an in-memory property-graph engine in Go. A [Builder] stages
    nodes, relationships, labels and properties; [Finalize] turns the staging
    state into an immutable [Snapshot] (two CSR adjacency directions, per-type
    and per-label bitmaps, columnar properties, an interned string table);
    traversals and property reads run on the snapshot; [NewBuilderFromSnapshot]
    thaws a snapshot into a builder again, and the next [Finalize] shares with
    the source everything the edits left alone. Snapshots travel as RCPG files,
    which are read whole, section by section or atom by atom, next to RRSR record
    stores. This library models those parts as functions and step relations and
    proves what makes them correct.

    ** How Go is modelled

    - A function that can fail or panic returns [res]: [Ok], [Err] or [Panic].
      An index or slice expression out of range is [Panic] ([idx], [upd],
      [slice]), so "never panics" is a theorem. Code with state and errors runs
      in a monad over [res] ([RcpgCursor.cursor.M], [Builder.M]).
    - Integers are [Z]; every conversion and every operation that can leave its
      width is written out ([to_u8], [to_u32], [to_u64], [to_i32], [to_i64]).
      Lengths are [Z] ([len]). Floats are their IEEE bits, in stored columns and in the
      values of the query language: [Float64] reads the bits as integer multiples of
      the smallest float64, [FloatOps] computes on them with the Standard Library's
      [spec_float] (which NaN results, whether [x*y+z] is fused and what [int64(f)]
      gives out of range are left open, as Go leaves them). The float64 arithmetic
      of the column thresholds is [spec_float] too. The path costs of the weighted
      searches, which are never negative, are integer multiples of the smallest
      float64 with IEEE rounding written out ([Cost]).
    - A Go map is a [gmap]; where the source ranges over a map the model folds
      over [map_to_list], and the theorems characterize the result without that
      order. Iterators are loops over a [yield] function that can stop them.
    - A loop that is not structural carries fuel, and a theorem shows the fuel
      suffices: [bisect] is given the length of its range, [runEnd] what is left
      of the bucket, [walk] one round per position plus one, [scanLoop] two
      rounds per atom left plus one. A breadth-first search gets a round per queue
      entry ([searchFuel]), a weighted one a round per possible heap entry
      ([dijkstraFuel]), a path one round per reached node ([pathFuel]), a heap sift
      one per level at most, a probe of a hash table one per slot, a decimal number
      its twenty digits, the text scanners one round per byte, a candidate batch one
      per candidate.
    - A value behind a [sync.Once] is a function of the record. The locks of
      [AtomTable] and the counter of [Parallel] are step relations instead, and
      their theorems hold of every interleaving.
    - Code outside the repository is a type class: [NodeSet.RoaringSet] and its
      laws for the roaring bitmaps (instance: [gset Z]), [RcpgSection]'s codec of
      such bitmaps, [Writer] for [io.Writer], [RcpgLazy.SectionFetch] for byte
      range providers, which have a state, so a call may fail and a later one succeed.
      Of the expressions of a query plan, variables and property reads are modelled, with
      the scopes they resolve in; the others, and the reads of the graph they make, are
      classes ([Projection.Evaluator], [Projection.GraphReads]). The accumulators of the
      aggregator are handed the values of its arguments.

    ** Files

    - [Prelude]: outcomes, machine integers, indexing, folds, binary search,
      sorting and the tactics every file uses.
    - Support: [Heap] (the binary heap shared by search_dijkstra.go and the top-k
      accumulators), [Parallel] (parallel/parallel.go), [NodeSet] (nodeset/nodeset.go,
      fold.go), [Int128] (int128.go), [Bitset] (internal/bitset/bitset.go),
      [Value] (value.go, types.go), [AtomTable] (atoms.go).
    - Columns: [Narrow] (column_narrow.go), [Columns] (column.go, column_narrow.go,
      column_rank.go), [FinalizeColumns] (the columnFromPairs functions of
      finalize.go).
    - Graph: [Csr] (buildCSRDirection of finalize.go), [RelTypes] (reltypes.go and
      the filters of traverse.go), [InToOut] (computeInToOutFromCSR of
      serialize.go), [Snapshot] (snapshot.go, props.go), [TypedAdj] (typedadj.go),
      [Traverse] (traverse.go); [SnapshotSpec] holds the theorems about reads.
    - Staging: [Builder] (builder.go, removal.go, builder_read.go, the dirty marks
      of cow.go), with its invariant in [BuilderInv] and the correctness of
      compactRemovals in [Compaction].
    - Finalize and thaw: [Finalize] (finalize.go, the aliasPlan of cow.go) with
      [FinalizeSpec]; [Thaw] (thaw.go) with [ThawOrder], [ThawSpec] and
      [ThawFinalize].
    - RCPG: [RcpgCursor] (rcpg/cursor.go), [RcpgColumn] (rcpg/column.go),
      [RcpgSection] (rcpg/section.go), [RcpgDirectory], [RcpgFile] (rcpg/rcpg.go),
      [RcpgLazy] (rcpg/lazy.go), [RcpgAtoms] (rcpg/atoms_lazy.go), [Rrsr]
      (rcpg/rrsr/rrsr.go).
    - Snapshots as files: [Serialize] (serialize.go) with [SerializeSpec];
      [FinalizeFits] and [BuildFile] compose it with the build pipeline.
    - Searches: [Hops] (walks, balls and distances), [SearchBfs] (search_bfs.go)
      with [SearchBfsSpec] and [HopDistances]; [BuiltSearch] composes them with the
      build pipeline. [Cost] (float64 path costs), [SearchDijkstra]
      (search_dijkstra.go), [DijkstraInv] (its binary heap and the
      invariant of either side), [DijkstraSpec] and [WspSpec].
    - Pair queries: [TypedQuery] (typedadj_query.go) with [TypedQuerySpec].
    - Flat tables: [ProbeTable] (linear probing), [FlatSet] (flatset/flatset.go) with
      [FlatSetSpec] and [FlatMapSpec], [FlatBytes] (flatset/flatset_bytes.go) with
      [FlatBytesSpec].
    - Secondary indexes: [LazyCache] (the locking of the lazily filled caches),
      [RangeIndex] (rangeindex.go), [PropIndex] (propindex.go and the lookups of
      props.go).
    - Query values (gql/value, gql/internal/eval): [CheckedInt] (the checked operators
      of arith.go), [Temporal] and [TemporalSpec] (calendar, instants and durations of
      temporal.go and temporal_component.go), [TemporalText] and [TemporalTextSpec]
      (their ISO text), [Float64] and [FloatOps], [GqlValue] (value.go, compare.go,
      groupkey.go) with [GqlOrder], [GqlKey] and [GqlAgree].
    - Query sinks (gql/internal/exec): [TopK] (project_sort.go, project_topk.go) with
      [TopKSpec]; [Projection] (project.go, aggregate_distinct.go, the candidate
      batches of project_topk.go and the scopes of a projection) with [ProjectionSpec]; [Slab] and [Aggregate]
      (aggregate.go, aggregate_exec.go, aggregate_packedkeys.go, aggregate_chunk.go)
      with [AggregateInv] (packed keys, and the state as a list of groups),
      [AggregateFold] (what accumulators compute) and [AggregateSpec].

    ** What the theorems show

    - The build pipeline, end to end: any sequence of builder operations keeps the
      staging invariant ([BuilderInv]); compaction keeps exactly the live part
      ([Compaction]); the snapshot of a builder holds exactly the staged graph
      ([FinalizeSpec], which composes [Csr], [InToOut], [RelTypes],
      [FinalizeColumns] and [Columns]); the thaw walk ends and its order rebuilds
      the very same arrays ([ThawSpec]); thaw and finalize give the same snapshot
      again, up to the ids a dense string column covers without their being nodes
      ([ThawFinalize]); a snapshot fits the widths of the file format when what was
      staged does ([FinalizeFits], [BuildFile]).
    - Reads: every traversal route delivers the plain scan ([Traverse]); label,
      endpoint and statistics reads are exact ([SnapshotSpec]); every column
      layout reads, enumerates and counts alike ([Columns], [Narrow]); counting or
      seeking the relationships between two nodes agrees with enumerating them
      whichever end is scanned ([TypedQuerySpec]).
    - Searches: reachability, hop distances and neighborhoods are exact whatever a
      pooled scratch held ([HopDistances]), breadth-first and bidirectional searches
      return exactly the nodes in reach ([SearchBfsSpec]), and on a built graph they
      speak of paths of staged relationships ([BuiltSearch]). Dijkstra's distances
      are the least float64 costs over all walks and its paths have exactly those
      costs ([DijkstraSpec]); the bidirectional weighted search meets at a cost no
      cut of a path undercuts ([WspSpec]).
    - Flat tables: sets and maps over integers and bytes refine finite sets and maps
      for every sequence of operations, also when sets share recycled arrays.
    - Secondary indexes: a window of a range index holds exactly the ids in range, a
      property lookup finds exactly the nodes with the value and label, and a lazily
      built cache behaves as if computed at once under every interleaving.
    - Query values: the calendar is the Gregorian one, dates and instants round-trip
      through their text, durations apply exactly or report overflow; ORDER BY is a
      total order that refines [<], group keys are injective up to numeric equality,
      and canonical group keys agree with [=] on integers within 2^53 ([GqlAgree]).
    - Query sinks: the projection sink computes the plain pipeline of evaluate,
      distinct, sort, skip and limit, whether or not the gate and the typed prefilter
      run, when no early ORDER BY key reads a name an output column redefines
      ([ProjectionSpec]); the aggregator computes GROUP BY with every aggregate exact
      over its group, two rows sharing a group when their canonical keys are equal and
      both or neither of their keys pack ([AggregateSpec]), for any sequence of rows and
      candidate batches.
    - Files: writing and parsing round-trip for every choice of options, arbitrary
      bytes never panic any parser, lazy loading agrees with the eager parse, and
      the atom reader terminates and refines the materialized table, also behind a
      provider that fails now and then. A snapshot
      written and read back answers as before ([SerializeSpec]), so a staged graph
      survives build, write and read, and a thaw without edits rewrites the same
      bytes when every node with a property entry exists ([BuildFile]).
    - Concurrency: the worker pool visits every index once and ends; parallel folds
      are the sequential fold; interleaved interning keeps ids unique and ends.
    - Errors: where the code departs from its documentation a theorem shows it, in
      general where the departure is one ([AtomReader_wrong_after_error] of every section
      with an overlong atom, [ParseISO_wraps] of every run of digits,
      [first_relprop_after_thaw_misread] of every graph without relationship
      properties) and otherwise at least on a concrete input ([AddNodeWithID_counter_wraps], [alias_hides_order_key],
      [ParseLazy_loses_existence], [wide_DenseBool_lost], [full_index_lost],
      [PlanRanges_gap_overflow], [DijkstraTo_tentative], [Recycle_class_clamped],
      [grouping_splits_equal_values],
      [seek_for_zero_misses_negative_zero], [large_counts_break_pagination],
      [packed_keys_split_groups], [nan_percentile_panics]).

    Bounds: a staging state is well formed with at most 2^32-1 relationships and
    ids, as the code enforces; compaction and finalization are stated below 2^31
    staged relationships, past which the int32 renumbering of removal.go is wrong;
    type ids stay below 2^32-1, past which the counting sort of serialize.go indexes
    with a wrapped key. Flat tables are stated up to 2^32 slots, the width of their
    mask, and up to 2^25 where arrays are recycled, past which the size classes mix;
    byte arenas stay below 2^32 bytes, the width of their offsets. OFFSET stays below
    2^63 and OFFSET plus LIMIT below 2^64; an aggregation sees fewer than 2^63 rows, and
    integer keys do not meet equal float keys in one grouping.

    ** Not modelled

    carryLazyCaches and the memoizing holders only store what the modelled functions
    compute, and the banks of recycled arrays only where they are stored. Grouped
    neighbor counts (neighborgroups.go), the N-Quads reader and writer, the scalar
    functions and the matching operators of the query language are the next candidates,
    in this order. Analytics kernels and geo distances compute in floating point;
    Unicode normalization is generated tables; the front end, planner and expression
    compiler of the query language are a system of their own above this one; the LDBC
    harness and the commands are tooling. *)

From coqutil Require Export Byte Word.LittleEndianList.
From stdpp Require Export base list gmap strings numbers countable sorting.

Global Open Scope Z_scope.
#[global] Opaque le_split le_combine.

(** [dlia]: [lia] that knows [/] and [mod] by a constant. *)
Ltac dlia := Z.div_mod_to_equations; lia.

(** ** Outcomes of Go code

    A Go function of this repository either returns a value, returns an error
    value, or panics at run time (an index or slice expression out of range).
    Panics are an outcome of their own, so that their absence is a theorem
    and not a convention of the model. *)

(** The errors the modelled packages return: [corruptf] and
    [unsupportedVersionf] keep the format string and the numeric arguments of
    the call; [ErrIO] is an error of an [io.Writer] or a [SectionFetch]
    implementation, which the code only passes on. *)
Inductive goerr :=
| ErrCorrupt (fmt : string) (args : list Z)
| ErrUnsupportedVersion (fmt : string) (version : Z)
| ErrIO.

Inductive res (A : Type) :=
| Ok (a : A)
| Err (e : goerr)
| Panic.
Arguments Ok {A} _.
Arguments Err {A} _.
Arguments Panic {A}.

#[export] Instance goerr_eq_dec : EqDecision goerr.
Proof. solve_decision. Defined.
#[export] Instance res_eq_dec `{EqDecision A} : EqDecision (res A).
Proof. solve_decision. Defined.

#[export] Instance res_ret : MRet res := fun A a => Ok a.
#[export] Instance res_bind : MBind res := fun A B f m =>
  match m with Ok a => f a | Err e => Err e | Panic => Panic end.
#[export] Instance res_fmap : FMap res := fun A B f m =>
  match m with Ok a => Ok (f a) | Err e => Err e | Panic => Panic end.

Definition corruptf {A} (fmt : string) (args : list Z) : res A := Err (ErrCorrupt fmt args).
Definition unsupportedVersionf {A} (fmt : string) (version : Z) : res A :=
  Err (ErrUnsupportedVersion fmt version).

(** An outcome is safe when it is not a panic. *)
Definition safe {A} (r : res A) : Prop := match r with Panic => False | _ => True end.

(** ** Machine integers

    A [w]-bit unsigned integer is a [Z] in [0, 2^w), a signed one a [Z] in
    [-2^(w-1), 2^(w-1)). Every conversion and every operation that can leave
    the range is followed by its wrap-around. [int] is 64 bits wide. *)

Definition wrapU (w z : Z) : Z := z `mod` 2 ^ w.
Definition wrapS (w z : Z) : Z := (z + 2 ^ (w - 1)) `mod` 2 ^ w - 2 ^ (w - 1).

Abbreviation to_u8 := (wrapU 8).
Abbreviation to_u16 := (wrapU 16).
Abbreviation to_u32 := (wrapU 32).
Abbreviation to_u64 := (wrapU 64).
Abbreviation to_i32 := (wrapS 32).
Abbreviation to_i64 := (wrapS 64).

Abbreviation is_u8 z := (0 ≤ z < 256).
Abbreviation is_u16 z := (0 ≤ z < 65536).
Abbreviation is_u32 z := (0 ≤ z < 4294967296).
Abbreviation is_u64 z := (0 ≤ z < 18446744073709551616).
Abbreviation is_i32 z := (-2147483648 ≤ z < 2147483648).
Abbreviation is_i64 z := (-9223372036854775808 ≤ z < 9223372036854775808).

Abbreviation MaxUint32 := 4294967295.

Lemma wrapU_small w z : 0 ≤ z < 2 ^ w → wrapU w z = z.
Proof. apply Z.mod_small. Qed.

Lemma wrapU_range w z : 0 ≤ w → 0 ≤ wrapU w z < 2 ^ w.
Proof. intros. apply Z.mod_pos_bound, Z.pow_pos_nonneg; lia. Qed.

Lemma wrapS_small w z : 0 < w → - 2 ^ (w - 1) ≤ z < 2 ^ (w - 1) → wrapS w z = z.
Proof.
  intros Hw Hz. unfold wrapS.
  assert (2 ^ w = 2 * 2 ^ (w - 1)) as E.
  { rewrite <- Z.pow_succ_r by lia. f_equal. lia. }
  rewrite Z.mod_small by lia. lia.
Qed.

Lemma wrapS_range w z : 0 < w → - 2 ^ (w - 1) ≤ wrapS w z < 2 ^ (w - 1).
Proof.
  intros Hw. unfold wrapS.
  assert (2 ^ w = 2 * 2 ^ (w - 1)) as E.
  { rewrite <- Z.pow_succ_r by lia. f_equal. lia. }
  pose proof (Z.mod_pos_bound (z + 2 ^ (w - 1)) (2 ^ w)). lia.
Qed.

Lemma wrapS_wrapU w z : 0 < w → wrapS w (wrapU w z) = wrapS w z.
Proof.
  intros Hw. unfold wrapS, wrapU. f_equal.
  rewrite Z.add_mod_idemp_l; [done|]. apply Z.pow_nonzero; lia.
Qed.

Lemma wrapU_wrapS w z : 0 < w → wrapU w (wrapS w z) = wrapU w z.
Proof.
  intros Hw. unfold wrapS, wrapU.
  assert (2 ^ w ≠ 0) by (apply Z.pow_nonzero; lia).
  rewrite Zminus_mod_idemp_l. f_equal. lia.
Qed.

(** An unsigned word read back as signed after being stored unsigned. *)
Lemma to_i64_to_u64 z : is_i64 z → to_i64 (to_u64 z) = z.
Proof. intros. rewrite wrapS_wrapU by lia. apply wrapS_small; lia. Qed.

Lemma to_u64_to_i64 z : is_u64 z → to_u64 (to_i64 z) = z.
Proof. intros. rewrite wrapU_wrapS by lia. apply wrapU_small; lia. Qed.

(** ** Slices

    A Go slice is the list of its elements; [len], indexing and slicing keep
    Go's [int] positions. An index or slice expression out of range panics.
    (Slice capacity beyond the length is not modelled: the code never reslices
    past [len].) *)

Definition len {A} (l : list A) : Z := Z.of_nat (length l).

Definition idx {A} (l : list A) (i : Z) : res A :=
  if decide (i < 0) then Panic
  else match l !! Z.to_nat i with Some x => Ok x | None => Panic end.

Definition slice {A} (l : list A) (lo hi : Z) : res (list A) :=
  if decide (0 ≤ lo ∧ lo ≤ hi ∧ hi ≤ len l)
  then Ok (take (Z.to_nat (hi - lo)) (drop (Z.to_nat lo) l))
  else Panic.

(** [l[i] = x] *)
Definition upd {A} (l : list A) (i : Z) (x : A) : res (list A) :=
  if decide (0 ≤ i < len l) then Ok (<[Z.to_nat i := x]> l) else Panic.

Lemma len_nonneg {A} (l : list A) : 0 ≤ len l.
Proof. unfold len. lia. Qed.
Lemma to_nat_len {A} (l : list A) : Z.to_nat (len l) = length l.
Proof. unfold len. lia. Qed.
Lemma len_nil {A} : len (@nil A) = 0.
Proof. done. Qed.
Lemma len_cons {A} (x : A) l : len (x :: l) = len l + 1.
Proof. unfold len. simpl. lia. Qed.
Lemma len_app {A} (l1 l2 : list A) : len (l1 ++ l2) = len l1 + len l2.
Proof. unfold len. rewrite length_app. lia. Qed.
Lemma len_fmap {A B} (f : A → B) l : len (f <$> l) = len l.
Proof. unfold len. by rewrite length_fmap. Qed.
Lemma len_le_split n z : len (le_split n z) = Z.of_nat n.
Proof. unfold len. by rewrite length_le_split. Qed.
Lemma len_replicate {A} n (x : A) : len (replicate n x) = Z.of_nat n.
Proof. unfold len. by rewrite length_replicate. Qed.
Lemma len_insert {A} (l : list A) i x : len (<[i:=x]> l) = len l.
Proof. unfold len. by rewrite length_insert. Qed.

Create Rewrite HintDb golen.
#[export] Hint Rewrite @len_nil @len_cons @len_app @len_fmap len_le_split
  @len_replicate @len_insert : golen.

(** [lens]: normalise lengths and close the arithmetic goal. *)
Ltac pose_len l := lazymatch goal with
  | _ : 0 ≤ len l |- _ => fail
  | _ => pose proof (len_nonneg l) end.
Ltac lens := repeat (autorewrite with golen in *; simpl in *);
  repeat match goal with
  | |- context [len ?l] => pose_len l
  | _ : context [len ?l] |- _ => pose_len l
  end; try lia.

Lemma idx_lookup {A} (l : list A) i x : 0 ≤ i → l !! Z.to_nat i = Some x → idx l i = Ok x.
Proof. intros ? E. unfold idx. rewrite decide_False by lia. by rewrite E. Qed.

Lemma idx_ok {A} (l : list A) i : 0 ≤ i < len l → ∃ x, idx l i = Ok x ∧ l !! Z.to_nat i = Some x.
Proof.
  intros [? ?]. destruct (lookup_lt_is_Some_2 l (Z.to_nat i)) as [x Hx].
  { unfold len in *. lia. }
  exists x. split; [by apply idx_lookup|done].
Qed.

Lemma idx_app_mid {A} (pre : list A) x post : idx (pre ++ x :: post) (len pre) = Ok x.
Proof.
  apply idx_lookup; [apply len_nonneg|]. unfold len. rewrite Nat2Z.id.
  by rewrite lookup_app_r, Nat.sub_diag by lia.
Qed.

Lemma slice_mid {A} (pre mid post : list A) :
  slice (pre ++ mid ++ post) (len pre) (len pre + len mid) = Ok mid.
Proof.
  unfold slice. rewrite decide_True by lens.
  replace (Z.to_nat (len pre)) with (length pre) by (unfold len; lia).
  rewrite drop_app_length.
  replace (Z.to_nat (len pre + len mid - len pre)) with (length mid) by (unfold len; lia).
  by rewrite take_app_length.
Qed.

Lemma slice_prefix {A} (mid post : list A) : slice (mid ++ post) 0 (len mid) = Ok mid.
Proof. exact (slice_mid [] mid post). Qed.

Lemma slice_ok {A} (l : list A) lo hi :
  0 ≤ lo → lo ≤ hi → hi ≤ len l →
  slice l lo hi = Ok (take (Z.to_nat (hi - lo)) (drop (Z.to_nat lo) l)).
Proof. intros. unfold slice. by rewrite decide_True. Qed.

Lemma slice_range {A} (l s : list A) lo hi : slice l lo hi = Ok s → 0 ≤ lo ≤ hi ∧ hi ≤ len l.
Proof. unfold slice. case_decide as H; [|done]. lia. Qed.

Lemma slice_len {A} (l s : list A) lo hi : slice l lo hi = Ok s → len s = hi - lo.
Proof.
  unfold slice. case_decide as H; [|done]. intros [= <-].
  unfold len in *. rewrite length_take, length_drop. lia.
Qed.

Lemma slice_split {A} (l s : list A) lo hi :
  slice l lo hi = Ok s → ∃ pre post, l = pre ++ s ++ post ∧ len pre = lo.
Proof.
  unfold slice. case_decide as H; [|done]. intros [= <-].
  exists (take (Z.to_nat lo) l), (drop (Z.to_nat (hi - lo)) (drop (Z.to_nat lo) l)).
  split; [by rewrite take_drop, take_drop|].
  unfold len in *. rewrite length_take. lia.
Qed.

(** A substring of a suffix is a substring of the whole. *)
Lemma slice_drop {A} (l : list A) base lo hi :
  0 ≤ base → base ≤ lo → lo ≤ hi → hi ≤ len l →
  slice (drop (Z.to_nat base) l) (lo - base) (hi - base) = slice l lo hi.
Proof.
  intros. rewrite !slice_ok; [|lia..|unfold len in *; rewrite length_drop; lia].
  rewrite drop_drop. f_equal. f_equal; [lia|f_equal; lia].
Qed.

(** ** Reasoning on outcomes *)

Lemma res_bind_Ok {A B} (m : res A) (f : A → res B) b :
  (m ≫= f) = Ok b ↔ ∃ a, m = Ok a ∧ f a = Ok b.
Proof. destruct m; simpl; naive_solver. Qed.

Lemma safe_bind {A B} (m : res A) (f : A → res B) :
  safe m → (∀ a, m = Ok a → safe (f a)) → safe (m ≫= f).
Proof. destruct m; simpl; auto. Qed.

Lemma safe_Ok {A} (a : A) : safe (Ok a).
Proof. done. Qed.
Lemma safe_corruptf {A} f a : safe (@corruptf A f a).
Proof. done. Qed.
Lemma safe_not_panic {A} (r : res A) : safe r ↔ r ≠ Panic.
Proof. destruct r; simpl; naive_solver. Qed.

Create HintDb gosafe.
#[export] Hint Resolve safe_Ok safe_corruptf : gosafe.

Lemma Ok_inj {A} (a b : A) : Ok a = Ok b → a = b.
Proof. congruence. Qed.

(** [res_inv]: break every successful monadic computation among the
    hypotheses into its steps. *)
Ltac res_inv :=
  repeat match goal with
  | H : (_ ≫= _) = Ok _ |- _ => let a := fresh "v" in let E := fresh "E" in
      apply res_bind_Ok in H as (a & E & H); simpl in H
  | H : mret _ = Ok _ |- _ => unfold mret, res_ret in H
  | H : Ok _ = Ok _ |- _ => apply Ok_inj in H; try simplify_eq
  | H : Err _ = Ok _ |- _ => discriminate H
  | H : Panic = Ok _ |- _ => discriminate H
  | H : corruptf _ _ = Ok _ |- _ => discriminate H
  end.

(** Decidable equality and countability of bytes, hence of Go strings. *)
#[export] Instance byte_eq_dec : EqDecision byte := Byte.byte_eq_dec.
#[export] Instance byte_countable : Countable byte.
Proof.
  refine (inj_countable' byte.unsigned byte.of_Z _). apply byte.of_Z_unsigned.
Defined.

(** A Go string is the list of its bytes. *)
Abbreviation gostring := (list byte).

(** [io.Writer]: the destination's state, and an error when a write fails. *)
Class Writer (W : Type) := wwrite : list byte → W → W * option goerr.

(** A [bytes.Buffer] as destination. *)
#[export] Instance bufferWriter : Writer (list byte) := λ p w, (w ++ p, None).

(** [Z] positions of a list, [for i := range l]. *)
Definition zseq (n : Z) : list Z := Z.of_nat <$> seq 0 (Z.to_nat n).

(** [for _, x := range l] with a body that may panic. *)
Fixpoint foldM {A B} (f : B → A → res B) (l : list A) (b : B) : res B :=
  match l with
  | [] => Ok b
  | x :: l => b ← f b x; foldM f l b
  end.

Lemma foldM_app {A B} (f : B → A → res B) l1 l2 b : foldM f (l1 ++ l2) b = foldM f l1 b ≫= foldM f l2.
Proof. revert b. induction l1 as [|x l1 IH]; intros b; simpl; [done|]. destruct (f b x); simpl; auto. Qed.

(** A range loop with an invariant. *)
Lemma foldM_inv {A B} (P : nat → B → Prop) (f : B → A → res B) l b0 : P 0%nat b0 →
  (∀ k x b, l !! k = Some x → P k b → ∃ b', f b x = Ok b' ∧ P (S k) b') →
  ∃ b, foldM f l b0 = Ok b ∧ P (length l) b.
Proof.
  intros H0. induction l as [|x l IH] using rev_ind; intros Hstep; [by exists b0|].
  destruct IH as (b & E & Hb).
  { intros k y b Hk. apply Hstep. by apply lookup_app_l_Some. }
  destruct (Hstep (length l) x b) as (b' & E' & Hb'); [|done|].
  { by rewrite lookup_app_r, Nat.sub_diag by lia. }
  exists b'. rewrite foldM_app, E. simpl. rewrite E'. split; [done|].
  rewrite length_app. simpl. by rewrite Nat.add_1_r.
Qed.

(** [for i, v := range l]. *)
Definition enum {A} (l : list A) : list (Z * A) := zip (zseq (len l)) l.

Lemma lookup_enum {A} (l : list A) k i x : enum l !! k = Some (i, x) ↔ i = Z.of_nat k ∧ l !! k = Some x.
Proof.
  unfold enum. rewrite lookup_zip_with_Some. unfold zseq. rewrite to_nat_len. split.
  - intros (i' & x' & [= <- <-] & Hi & Hx). rewrite list_lookup_fmap in Hi.
    apply lookup_lt_Some in Hx as Hlt. rewrite lookup_seq_lt in Hi by done. by injection Hi as <-.
  - intros [-> Hx]. exists (Z.of_nat k), x. split_and!; [done| |done].
    rewrite list_lookup_fmap, lookup_seq_lt by (by eapply lookup_lt_Some). done.
Qed.

Lemma length_enum {A} (l : list A) : length (enum l) = length l.
Proof. unfold enum. rewrite length_zip_with. unfold zseq. rewrite length_fmap, length_seq, to_nat_len. lia. Qed.

(** A counting loop with an invariant. *)
Lemma foldM_zseq {B} (P : Z → B → Prop) (f : B → Z → res B) n b0 : 0 ≤ n → P 0 b0 →
  (∀ i b, 0 ≤ i < n → P i b → ∃ b', f b i = Ok b' ∧ P (i + 1) b') →
  ∃ b, foldM f (zseq n) b0 = Ok b ∧ P n b.
Proof.
  intros Hn H0 Hstep. rewrite <- (Z2Nat.id n) in Hstep |- * by done. unfold zseq. rewrite Nat2Z.id.
  induction (Z.to_nat n) as [|k IH]; [by exists b0|].
  rewrite seq_S, fmap_app, foldM_app. destruct IH as (b & -> & Hb).
  { intros i b Hi. apply Hstep. lia. }
  simpl. destruct (Hstep (Z.of_nat k) b) as (b' & -> & Hb'); [lia|done|].
  exists b'. split; [done|]. by replace (Z.of_nat (S k)) with (Z.of_nat k + 1) by lia.
Qed.

Lemma elem_of_zseq n i : i ∈ zseq n ↔ 0 ≤ i < n.
Proof.
  unfold zseq. rewrite list_elem_of_fmap. setoid_rewrite elem_of_seq. split.
  - intros (k & -> & ?). lia.
  - intros. exists (Z.to_nat i). lia.
Qed.

Lemma le_combine_u (n : nat) z :
  0 ≤ z < 2 ^ (Z.of_nat n * 8) → le_combine (le_split n z) = z.
Proof. intros. rewrite le_combine_split. by apply Z.mod_small. Qed.

(** [for i := range out { out[i] = f(i) }] yields [l] when every [f(i)] does. *)
Lemma mapM_zseq {B} (f : Z → res B) (l : list B) :
  (∀ i x, l !! i = Some x → f (Z.of_nat i) = Ok x) → mapM f (zseq (len l)) = Ok l.
Proof.
  intros Hf. unfold zseq, len. rewrite Nat2Z.id.
  enough (∀ n, (∀ i x, l !! i = Some x → f (Z.of_nat (n + i)) = Ok x) →
    mapM f (Z.of_nat <$> seq n (length l)) = Ok l) as H by (apply (H 0%nat); auto).
  clear Hf. induction l as [|x l IH]; intros n Hf; [done|]. simpl.
  pose proof (Hf 0%nat x eq_refl) as H0. rewrite Nat.add_0_r in H0. rewrite H0. simpl.
  rewrite IH; [done|]. intros i y Hi. rewrite <- (Hf (S i) y Hi). f_equal. lia.
Qed.

Lemma mapM_Ok {A B} (f : A → res B) l k : mapM f l = Ok k → Forall2 (λ x y, f x = Ok y) l k.
Proof.
  revert k. induction l as [|x l IH]; intros k H; simpl in H.
  { injection H as <-. constructor. }
  apply res_bind_Ok in H as (y & Ey & H). apply res_bind_Ok in H as (ys & Eys & H).
  injection H as <-. constructor; auto.
Qed.

Lemma mapM_zseq_safe {B} (f : Z → res B) n :
  (∀ i, 0 ≤ i < n → safe (f i)) → safe (mapM f (zseq n)).
Proof.
  intros Hf. assert (∀ l, (∀ i, i ∈ l → safe (f i)) → safe (mapM f l)) as H.
  { induction l as [|i l IH]; intros Hl; [done|]. simpl.
    apply safe_bind; [apply Hl; left|]. intros a _.
    apply safe_bind; [apply IH; intros; apply Hl; by right|]. done. }
  apply H. intros i Hi. by apply Hf, elem_of_zseq.
Qed.

(** Concatenations of equally long chunks. *)
Lemma len_concat_chunks {A B} (enc : A → list B) w l :
  (∀ x, x ∈ l → len (enc x) = w) → len (concat (enc <$> l)) = len l * w.
Proof.
  induction l as [|x l IH]; intros H; [done|]. rewrite fmap_cons. cbn [concat].
  rewrite len_app, len_cons, IH, (H x); [lia|left|].
  intros y Hy. apply H. by right.
Qed.

Lemma len_concat_ge {A B} (enc : A → list B) w l :
  (∀ x, w ≤ len (enc x)) → len l * w ≤ len (concat (enc <$> l)).
Proof.
  intros H. induction l as [|x l IH]; [done|]. rewrite fmap_cons. cbn [concat].
  rewrite len_app, len_cons. specialize (H x). lia.
Qed.

Lemma slice_chunk {A B} (enc : A → list B) w l i x :
  (∀ y, y ∈ l → len (enc y) = w) → l !! i = Some x →
  slice (concat (enc <$> l)) (Z.of_nat i * w) (Z.of_nat i * w + w) = Ok (enc x).
Proof.
  intros Hw Hi. pose proof (take_drop_middle l i x Hi) as E.
  assert (len (concat (enc <$> take i l)) = Z.of_nat i * w) as Hpre.
  { rewrite (len_concat_chunks _ w).
    - unfold len. rewrite length_take. apply lookup_lt_Some in Hi. lia.
    - intros y Hy. apply Hw. rewrite <- E. set_solver. }
  assert (len (enc x) = w) as Hx by (apply Hw; eapply list_elem_of_lookup_2; eauto).
  rewrite <- E at 1. rewrite fmap_app, concat_app, fmap_cons. simpl concat.
  rewrite <- Hpre. rewrite <- Hx at 1. apply slice_mid.
Qed.

(** ** Bit tests: [x & (1 << k) != 0], [x |= 1 << k], [x &^= 1 << k] *)

Lemma testbit_shiftl1 k j : 0 ≤ k → 0 ≤ j → Z.testbit (Z.shiftl 1 k) j = bool_decide (j = k).
Proof.
  intros. rewrite Z.shiftl_spec by lia. case_bool_decide as E.
  - subst. by rewrite Z.sub_diag.
  - destruct (decide (j < k)); [by rewrite Z.testbit_neg_r by lia|].
    change 1 with (2 ^ 0). by rewrite Z.pow2_bits_false by lia.
Qed.

Lemma land_shiftl1 x k : 0 ≤ k →
  bool_decide (Z.land x (Z.shiftl 1 k) ≠ 0) = Z.testbit x k.
Proof.
  intros Hk. destruct (Z.testbit x k) eqn:E.
  - apply bool_decide_eq_true_2. intros H0.
    assert (Z.testbit (Z.land x (Z.shiftl 1 k)) k = true) as H.
    { rewrite Z.land_spec, E, testbit_shiftl1 by lia. by rewrite bool_decide_true. }
    by rewrite H0, Z.bits_0 in H.
  - apply bool_decide_eq_false_2. intros H0. apply H0. apply Z.bits_inj'. intros j Hj.
    rewrite Z.land_spec, testbit_shiftl1, Z.bits_0 by lia.
    case_bool_decide; [subst; by rewrite E|by rewrite andb_false_r].
Qed.

(** A word with bit [k] set to [v], as the code writes it. *)
Definition setbit (x k : Z) (v : bool) : Z :=
  if v then Z.lor x (Z.shiftl 1 k) else Z.ldiff x (Z.shiftl 1 k).

Lemma testbit_setbit x k v j : 0 ≤ k → 0 ≤ j →
  Z.testbit (setbit x k v) j = if bool_decide (j = k) then v else Z.testbit x j.
Proof.
  intros. unfold setbit. destruct v.
  - rewrite Z.lor_spec, testbit_shiftl1 by lia. case_bool_decide; by rewrite ?orb_true_r, ?orb_false_r.
  - rewrite Z.ldiff_spec, testbit_shiftl1 by lia. case_bool_decide; by rewrite ?andb_false_r, ?andb_true_r.
Qed.

(** A bounded non-negative number has no bits above its width. *)
Lemma testbit_high x w j : 0 ≤ x < 2 ^ w → w ≤ j → Z.testbit x j = false.
Proof.
  intros Hx Hj. destruct (decide (x = 0)) as [->|]; [apply Z.bits_0|].
  apply Z.bits_above_log2; [lia|].
  assert (Z.log2 x < w); [|lia]. apply Z.log2_lt_pow2; lia.
Qed.

Lemma bits_bounded x w : 0 ≤ w → 0 ≤ x → (∀ j, w ≤ j → Z.testbit x j = false) → x < 2 ^ w.
Proof.
  intros Hw Hx H. destruct (decide (x = 0)) as [->|]; [lia|].
  apply Z.log2_lt_pow2; [lia|]. destruct (decide (Z.log2 x < w)); [done|].
  assert (Z.testbit x (Z.log2 x) = true) as Hb by (apply Z.bit_log2; lia).
  by rewrite H in Hb by lia.
Qed.

Lemma setbit_range x k v w : 0 ≤ k < w → 0 ≤ x < 2 ^ w → 0 ≤ setbit x k v < 2 ^ w.
Proof.
  intros Hk Hx. assert (0 ≤ setbit x k v) as H0.
  { unfold setbit. destruct v.
    - apply Z.lor_nonneg. rewrite Z.shiftl_nonneg. lia.
    - apply Z.ldiff_nonneg. lia. }
  split; [done|]. apply bits_bounded; [lia|done|]. intros j Hj.
  rewrite testbit_setbit by lia. rewrite bool_decide_false by lia.
  by eapply testbit_high.
Qed.

(** ** Little-endian loads and stores *)

(** [binary.LittleEndian.UintN(b)]: panics on fewer than [w] bytes. *)
Definition leUint (w : Z) (b : list byte) : res Z := s ← slice b 0 w; Ok (le_combine s).

Lemma slice_at {A} (pre mid post : list A) lo hi : len pre = lo → lo + len mid = hi →
  slice (pre ++ mid ++ post) lo hi = Ok mid.
Proof. intros <- <-. apply slice_mid. Qed.

(** [binary.LittleEndian.UintN(b[lo:])] reads the [w] bytes at [lo]. *)
Lemma leUint_tail b lo w s : 0 ≤ w → slice b lo (lo + w) = Ok s →
  (tail ← slice b lo (len b); leUint w tail) = Ok (le_combine s).
Proof.
  intros Hw Hs. pose proof (slice_range _ _ _ _ Hs). rewrite (slice_ok b lo (len b)) by lia.
  cbn [mbind res_bind]. unfold leUint.
  rewrite take_ge by (rewrite length_drop; unfold len; lia).
  pose proof (slice_drop b lo lo (lo + w)) as E. rewrite Z.sub_diag in E.
  replace (lo + w - lo) with w in E by lia. by rewrite E, Hs by lia.
Qed.

Lemma leUint_whole (w : nat) z : 0 ≤ z < 2 ^ (Z.of_nat w * 8) → leUint (Z.of_nat w) (le_split w z) = Ok z.
Proof.
  intros Hz. unfold leUint. pose proof (slice_prefix (le_split w z) []) as E.
  rewrite app_nil_r, len_le_split in E. rewrite E. cbn [mbind res_bind]. by rewrite le_combine_u.
Qed.

Lemma leUint_ok w s : 0 ≤ w ≤ len s → ∃ v, leUint w s = Ok v ∧ 0 ≤ v < 2 ^ (8 * w).
Proof.
  intros Hw. unfold leUint. rewrite slice_ok by lia. eexists. split; [done|].
  pose proof (le_combine_bound (take (Z.to_nat (w - 0)) (drop (Z.to_nat 0) s))) as Hb.
  rewrite drop_0, length_take in Hb. rewrite drop_0.
  replace (Z.of_nat (Z.to_nat (w - 0) `min` length s)) with w in Hb by (unfold len in Hw; lia). done.
Qed.

(** [binary.LittleEndian.PutUintN(b[off:], d)]: panics on fewer than [w] bytes. *)
Definition putLE (w : nat) (b : list byte) (off d : Z) : res (list byte) :=
  if decide (0 ≤ off ∧ off + Z.of_nat w ≤ len b)
  then Ok (take (Z.to_nat off) b ++ le_split w d ++ drop (Z.to_nat (off + Z.of_nat w)) b)
  else Panic.

Lemma putLE_mid w pre mid post d : len mid = Z.of_nat w →
  putLE w (pre ++ mid ++ post) (len pre) d = Ok (pre ++ le_split w d ++ post).
Proof.
  intros Hm. unfold putLE. pose proof (len_nonneg pre). pose proof (len_nonneg post).
  rewrite decide_True by (rewrite !len_app; lia). do 2 f_equal.
  { unfold len. rewrite Nat2Z.id. apply take_app_length. }
  f_equal. rewrite (assoc_L (++)). rewrite <- Hm, <- len_app, to_nat_len. apply drop_app_length.
Qed.

Lemma le_split_app n m z : le_split (n + m) z = le_split n z ++ le_split m (Z.shiftr z (8 * Z.of_nat n)).
Proof.
  rewrite <- (take_drop n (le_split (n + m) z)). f_equal; [|apply skipn_le_split'].
  apply le_combine_inj; [rewrite length_take, !length_le_split; lia|].
  rewrite le_combine_firstn, !le_combine_split. rewrite Nat2Z.inj_add, Z.mul_add_distr_r.
  rewrite Z.pow_add_r, (Z.mul_comm (Z.of_nat n)) by lia.
  rewrite Z.rem_mul_r by (apply Z.pow_nonzero || apply Z.pow_pos_nonneg; lia).
  rewrite Z.add_mod, Z.mul_mod by (apply Z.pow_nonzero; lia).
  rewrite Z.mod_same, Z.mul_0_l, Z.mod_0_l, Z.add_0_r by (apply Z.pow_nonzero; lia).
  by rewrite !Z.mod_mod by (apply Z.pow_nonzero; lia).
Qed.

(** ** Binary search

    The loop shared by [sort.Search] and the hand-written searches: [right mid]
    tells whether to go on to the right of [mid]. [hi - lo] rounds are enough,
    since every round shrinks the interval. *)

Fixpoint bisect (fuel : nat) (right : Z → res bool) (lo hi : Z) : res Z :=
  if decide (hi ≤ lo) then Ok lo
  else match fuel with
  | O => Panic
  | S fuel =>
      let mid := (lo + hi) / 2 in
      r ← right mid;
      if r : bool then bisect fuel right (mid + 1) hi else bisect fuel right lo mid
  end.

(** On a predicate that is true up to [p] and false from [p] on, it finds [p]. *)
Lemma bisect_ok fuel right lo p hi : lo ≤ p ≤ hi → hi - lo ≤ Z.of_nat fuel →
  (∀ i, lo ≤ i < hi → right i = Ok (bool_decide (i < p))) → bisect fuel right lo hi = Ok p.
Proof.
  revert lo hi. induction fuel as [|fuel IH]; intros lo hi Hp Hf Hr; cbn [bisect].
  { rewrite decide_True by lia. f_equal. lia. }
  case_decide; [f_equal; lia|].
  rewrite Hr by dlia. cbn [mbind res_bind]. case_bool_decide.
  - apply IH; [dlia|dlia|]. intros i Hi. apply Hr. dlia.
  - apply IH; [dlia|dlia|]. intros i Hi. apply Hr. dlia.
Qed.

Lemma partition_point (f : Z → bool) n : 0 ≤ n →
  (∀ i j, 0 ≤ i ≤ j → j < n → f j = true → f i = true) →
  ∃ p, 0 ≤ p ≤ n ∧ ∀ i, 0 ≤ i < n → f i = bool_decide (i < p).
Proof.
  intros Hn. rewrite <- (Z2Nat.id n) by done. induction (Z.to_nat n) as [|k IH]; intros Hf.
  { exists 0. split; [lia|]. lia. }
  destruct IH as (p & Hp & H). { intros i j Hij Hj. apply Hf; lia. }
  destruct (f (Z.of_nat k)) eqn:E.
  - exists (Z.of_nat (S k)). split; [lia|]. intros i Hi. rewrite bool_decide_eq_true_2 by lia.
    apply (Hf i (Z.of_nat k)); [lia..|done].
  - exists p. split; [lia|]. intros i Hi. destruct (decide (i = Z.of_nat k)) as [->|]; [|apply H; lia].
    rewrite bool_decide_eq_false_2 by lia. done.
Qed.

(** ** Ascending integer lists *)

Lemma sorted_NoDup (l : list Z) : StronglySorted Z.lt l → NoDup l.
Proof.
  induction 1 as [|x l Hs IH Hx]; constructor; [|done]. intros Hin.
  rewrite Forall_forall in Hx. specialize (Hx x Hin). lia.
Qed.

Lemma sorted_ext (l k : list Z) : StronglySorted Z.lt l → StronglySorted Z.lt k →
  (∀ x, x ∈ l ↔ x ∈ k) → l = k.
Proof.
  intros Hl Hk H. assert (AntiSymm (=) Z.lt) by (intros x y ? ?; lia).
  apply (StronglySorted_unique Z.lt); [done..|]. by apply NoDup_Permutation; [apply sorted_NoDup..|].
Qed.

(** [slices.Compact]: runs of equal elements collapse to their first. *)
Fixpoint Compact (l : list Z) : list Z :=
  match l with
  | x :: ((y :: _) as rest) => if decide (x = y) then Compact rest else x :: Compact rest
  | _ => l
  end.

Lemma elem_of_Compact l x : x ∈ Compact l ↔ x ∈ l.
Proof.
  induction l as [|a [|b l] IH]; [done..|]. cbn [Compact] in *. case_decide.
  - subst. rewrite IH, !elem_of_cons. naive_solver.
  - rewrite !elem_of_cons, IH, elem_of_cons. done.
Qed.

Lemma Compact_strict l : StronglySorted Z.le l → StronglySorted Z.lt (Compact l).
Proof.
  induction l as [|a [|b l] IH]; intros Hs; [constructor|repeat constructor|].
  apply StronglySorted_cons in Hs as [Ha Hs]. specialize (IH Hs). cbn [Compact] in *.
  case_decide as D; [done|]. constructor; [done|]. apply Forall_forall. intros x Hx.
  apply (elem_of_Compact (b :: l)) in Hx. apply Forall_cons in Ha as [Hab Ha].
  apply StronglySorted_cons in Hs as [Hb _]. apply elem_of_cons in Hx as [->|Hx]; [lia|].
  rewrite Forall_forall in Hb. specialize (Hb x Hx). lia.
Qed.

Lemma zseq_sorted n : StronglySorted Z.lt (zseq n).
Proof.
  unfold zseq. generalize (Z.to_nat n) as m. generalize 0%nat as a. intros a m. revert a.
  induction m as [|m IH]; intros a; simpl; [constructor|]. constructor; [apply IH|].
  apply Forall_fmap, Forall_forall. intros x Hx%elem_of_seq. simpl. lia.
Qed.

Lemma seqZ_split m n1 n2 : 0 ≤ n1 → 0 ≤ n2 → seqZ m (n1 + n2) = seqZ m n1 ++ seqZ (m + n1) n2.
Proof. intros. by apply seqZ_app. Qed.

Lemma seqZ_step lo hi : lo < hi → seqZ lo (hi - lo) = lo :: seqZ (lo + 1) (hi - (lo + 1)).
Proof. intros. rewrite seqZ_cons by lia. f_equal. f_equal; lia. Qed.

Lemma zseq_seqZ n : zseq n = seqZ 0 n.
Proof. unfold zseq, seqZ. apply list_fmap_ext. intros. lia. Qed.

Lemma zseq_S n : 0 ≤ n → zseq (n + 1) = zseq n ++ [n].
Proof. intros. rewrite !zseq_seqZ, seqZ_split by lia. f_equal. Qed.

Lemma enum_app {A} (l : list A) x : enum (l ++ [x]) = enum l ++ [(len l, x)].
Proof.
  unfold enum. rewrite len_app. change (len [x]) with 1. rewrite zseq_S by apply len_nonneg.
  rewrite zip_with_app; [done|]. unfold zseq. by rewrite length_fmap, length_seq, to_nat_len.
Qed.

(** ** Consumers

    A range-over-func consumer: [yield] threads the consumer's state and answers
    whether to go on; the result says whether the walk reached its end. *)
Fixpoint yieldAll {X A} (yield : X → A → bool * A) (xs : list X) (st : A) : bool * A :=
  match xs with
  | [] => (true, st)
  | x :: xs =>
      let '(go, st) := yield x st in
      if go : bool then yieldAll yield xs st else (false, st)
  end.

Lemma yieldAll_app {X A} (yield : X → A → bool * A) l1 l2 st :
  yieldAll yield (l1 ++ l2) st =
    let '(go, st') := yieldAll yield l1 st in if go : bool then yieldAll yield l2 st' else (false, st').
Proof.
  revert st. induction l1 as [|x l1 IH]; intros st; simpl; [done|].
  destruct (yield x st) as [[|] st']; [apply IH|done].
Qed.
