(* ===== verification/Heap.v ===== *)
(** Binary heaps in an array.

    The shortest-path search (search_dijkstra.go) and the two bounded ORDER BY
    selections (project_sort.go, project_topk.go) each carry a hand-written binary
    heap: the same sift loops, over an order of their own. The loops are written
    here once, over the test [lt] of the owner (an entry for which [lt x y] holds
    belongs nearer to the root than [y]), with the index arithmetic and the array
    accesses of the code; they never panic, keep the heap order and permute the
    array. *)

From S2P Require Import Prelude.

Section loops.
Context {A : Type} (lt : relation A) `{!RelDecision lt}.

Definition heapLess (h : list A) (i j : Z) : res bool :=
  x ← idx h i; y ← idx h j; Ok (bool_decide (lt x y)).

(** [a[i], a[j] = a[j], a[i]] *)
Definition heapSwap (a : list A) (i j : Z) : res (list A) :=
  x ← idx a i; y ← idx a j; a ← upd a i y; upd a j x.

Fixpoint heapUp (fuel : nat) (a : list A) (i : Z) : res (list A) :=
  if decide (0 < i) then
    match fuel with
    | O => Panic
    | S fuel =>
        let parent := (i - 1) / 2 in
        lt ← heapLess a i parent;
        if negb lt then Ok a else a ← heapSwap a i parent; heapUp fuel a parent
    end
  else Ok a.

Fixpoint heapDown (fuel : nat) (a : list A) (n i : Z) : res (list A) :=
  let l := 2 * i + 1 in
  if decide (n ≤ l) then Ok a
  else match fuel with
    | O => Panic
    | S fuel =>
        let r := l + 1 in
        first ← (if decide (r < n) then b ← heapLess a r l; Ok (if b : bool then r else l) else Ok l);
        lt ← heapLess a first i;
        if negb lt then Ok a else a ← heapSwap a i first; heapDown fuel a n first
    end.
End loops.

(** What a heap asks of its order: a strict weak order. *)
Class HeapOrder {A} (lt : relation A) : Prop := {
  ho_irrefl : ∀ x, ¬ lt x x;
  ho_asym : ∀ x y, lt x y → ¬ lt y x;
  ho_trans : ∀ x y z, ¬ lt y x → ¬ lt z y → ¬ lt z x;
}.

Section theory.
Context {A : Type} `{!Inhabited A} (lt : relation A) `{!RelDecision lt, !HeapOrder lt}.

Definition heapLe (x y : A) : Prop := ¬ lt y x.

Lemma heapLe_refl x : heapLe x x.
Proof. apply ho_irrefl. Qed.
Lemma heapLt_le x y : lt x y → heapLe x y.
Proof. apply ho_asym. Qed.
Lemma heapLe_trans x y z : heapLe x y → heapLe y z → heapLe x z.
Proof. apply ho_trans. Qed.

(** ** Arrays *)

Lemma idx_total (a : list A) (i : nat) : (i < length a)%nat → idx a (Z.of_nat i) = Ok (a !!! i).
Proof.
  intros Hi. destruct (lookup_lt_is_Some_2 a i Hi) as [x Hx]. rewrite (list_lookup_total_correct _ _ _ Hx). apply idx_lookup; [lia|by rewrite Nat2Z.id].
Qed.

Definition exchange (a : list A) (i j : nat) : list A := <[j := a !!! i]> (<[i := a !!! j]> a).

Lemma heapSwap_ok a i j : (i < length a)%nat → (j < length a)%nat → heapSwap a (Z.of_nat i) (Z.of_nat j) = Ok (exchange a i j).
Proof.
  intros Hi Hj. unfold heapSwap. rewrite !idx_total by done. cbn [mbind res_bind]. unfold upd, len. rewrite decide_True by lia. cbn [mbind res_bind].
  rewrite length_insert. rewrite decide_True by lia. by rewrite !Nat2Z.id.
Qed.

Lemma length_exchange a i j : length (exchange a i j) = length a.
Proof. unfold exchange. by rewrite !length_insert. Qed.

Lemma exchange_lookup a i j k : (i < length a)%nat → (j < length a)%nat →
  exchange a i j !!! k = if decide (k = j) then a !!! i else if decide (k = i) then a !!! j else a !!! k.
Proof.
  intros Hi Hj. unfold exchange. destruct (decide (k = j)) as [->|]; [by rewrite list_lookup_total_insert_eq by (by rewrite length_insert)|].
  rewrite list_lookup_total_insert_ne by done. destruct (decide (k = i)) as [->|]; [by rewrite list_lookup_total_insert_eq|]. by rewrite list_lookup_total_insert_ne.
Qed.

Lemma exchange_perm a i j : (i < length a)%nat → (j < length a)%nat → exchange a i j ≡ₚ a.
Proof.
  intros Hi Hj. destruct (lookup_lt_is_Some_2 a i Hi) as [x Hx]. destruct (lookup_lt_is_Some_2 a j Hj) as [y Hy].
  unfold exchange. rewrite (list_lookup_total_correct _ _ _ Hx), (list_lookup_total_correct _ _ _ Hy).
  apply Permutation_inj. rewrite !length_insert. split; [done|].
  exists (λ k, if decide (k = i) then j else if decide (k = j) then i else k). split.
  - intros p q. repeat case_decide; congruence.
  - intros k. destruct (decide (k = j)) as [->|Hk].
    + rewrite list_lookup_insert_eq by (by rewrite length_insert). repeat case_decide; congruence.
    + rewrite list_lookup_insert_ne by done. destruct (decide (k = i)) as [->|]; [by rewrite list_lookup_insert_eq, Hy|]. by rewrite list_lookup_insert_ne.
Qed.

Lemma heapLess_ok a i j : (i < length a)%nat → (j < length a)%nat → heapLess lt a (Z.of_nat i) (Z.of_nat j) = Ok (bool_decide (lt (a !!! i) (a !!! j))).
Proof. intros Hi Hj. unfold heapLess. by rewrite !idx_total. Qed.

(** ** Heap order *)

Definition parentOf (i : nat) : nat := (i - 1) / 2.
Definition heapOrdered (a : list A) : Prop := ∀ j, (0 < j < length a)%nat → heapLe (a !!! parentOf j) (a !!! j).

Lemma parentOf_lt i : (0 < i)%nat → (parentOf i < i)%nat.
Proof. intros. unfold parentOf. apply Nat.Div0.div_lt_upper_bound. lia. Qed.
Lemma parentOf_child i j : (0 < j)%nat → parentOf j = i ↔ (j = 2 * i + 1 ∨ j = 2 * i + 2)%nat.
Proof. intros Hj. unfold parentOf. pose proof (Nat.div_mod_eq (j - 1) 2). pose proof (Nat.mod_upper_bound (j - 1) 2 ltac:(lia)). lia. Qed.

Lemma heapOrdered_root a i : heapOrdered a → (i < length a)%nat → heapLe (a !!! 0%nat) (a !!! i).
Proof.
  intros Hh. induction i as [i IH] using lt_wf_ind. intros Hi. destruct i as [|i]; [apply heapLe_refl|].
  pose proof (parentOf_lt (S i) ltac:(lia)). eapply heapLe_trans; [apply (IH (parentOf (S i))); lia|]. apply Hh. lia.
Qed.

(** The order holds but between [i] and its parent. *)
Record upTo (a : list A) (i : nat) : Prop := {
  ut_rest : ∀ j, (0 < j < length a)%nat → j ≠ i → heapLe (a !!! parentOf j) (a !!! j);
  ut_grand : ∀ j, (0 < j < length a)%nat → parentOf j = i → (0 < i)%nat → heapLe (a !!! parentOf i) (a !!! j);
}.

Lemma heapUp_ok fuel : ∀ a i, (i ≤ fuel)%nat → (i < length a)%nat → upTo a i → ∃ a', heapUp lt fuel a (Z.of_nat i) = Ok a' ∧ heapOrdered a' ∧ a' ≡ₚ a.
Proof.
  induction fuel as [|fuel IH]; intros a i Hf Hi [Hr Hg].
  { exists a. cbn [heapUp]. rewrite decide_False by lia. split; [done|]. split; [|done]. intros j Hj. apply Hr; lia. }
  cbn [heapUp]. destruct (decide (0 < i)%nat) as [Hpos|Hz]; [rewrite decide_True by lia|rewrite decide_False by lia]; last first.
  { exists a. split; [done|]. split; [|done]. intros j Hj. apply Hr; lia. }
  pose proof (parentOf_lt i Hpos) as Hp. replace ((Z.of_nat i - 1) / 2) with (Z.of_nat (parentOf i)) by (unfold parentOf; rewrite Nat2Z.inj_div; f_equal; lia).
  rewrite heapLess_ok by lia. cbn [mbind res_bind]. case_bool_decide as Hlt; cbn [negb]; last first.
  { exists a. split; [done|]. split; [|done]. intros j Hj. destruct (decide (j = i)) as [->|]; [exact Hlt|by apply Hr]. }
  rewrite heapSwap_ok by lia. cbn [mbind res_bind]. set (p := parentOf i) in *.
  assert (∀ k, exchange a i p !!! k = if decide (k = p) then a !!! i else if decide (k = i) then a !!! p else a !!! k) as Hx by (intros; apply exchange_lookup; lia).
  destruct (IH (exchange a i p) p) as (a' & E & Hh & Hperm); [lia|rewrite length_exchange; lia| |].
  - split; rewrite length_exchange.
    + intros j Hj Hjp. rewrite !Hx. rewrite (decide_False (P := j = p)) by done. destruct (decide (j = i)) as [->|Hji].
      * fold p. rewrite decide_True by done. by apply heapLt_le.
      * destruct (decide (parentOf j = p)) as [E1|E1].
        { eapply heapLe_trans; [by apply heapLt_le|]. rewrite <- E1. by apply Hr. }
        destruct (decide (parentOf j = i)) as [E2|E2]; [by apply Hg|by apply Hr].
    + intros j Hj Hjp Hp0. pose proof (parentOf_lt p Hp0) as Hpp. rewrite !Hx. rewrite (decide_False (P := parentOf p = p)) by lia. rewrite (decide_False (P := parentOf p = i)) by lia.
      pose proof (parentOf_lt j ltac:(lia)). rewrite (decide_False (P := j = p)) by lia.
      destruct (decide (j = i)) as [->|Hji]; [apply Hr; lia|]. eapply heapLe_trans; [apply (Hr p); lia|]. rewrite <- Hjp. by apply Hr.
  - exists a'. split; [done|]. split; [done|]. rewrite Hperm. apply exchange_perm; lia.
Qed.

(** A new entry at the end of the array, sifted up. *)
Lemma heapPush_ok h s : heapOrdered h → ∃ h', heapUp lt (length (h ++ [s])) (h ++ [s]) (len (h ++ [s]) - 1) = Ok h' ∧ heapOrdered h' ∧ h' ≡ₚ s :: h.
Proof.
  intros Hh. assert (len (h ++ [s]) - 1 = Z.of_nat (length h)) as -> by (rewrite len_app; unfold len; cbn; lia).
  destruct (heapUp_ok (length (h ++ [s])) (h ++ [s]) (length h)) as (h' & E & Hh' & Hp).
  - rewrite length_app. lia.
  - rewrite length_app. cbn. lia.
  - split.
    + intros j Hj Hne. pose proof (parentOf_lt j ltac:(lia)). rewrite length_app in Hj. cbn [length] in Hj. rewrite !lookup_total_app_l by lia. apply Hh. lia.
    + intros j Hj Hp. pose proof (parentOf_lt j ltac:(lia)). rewrite length_app in Hj. cbn [length] in Hj. lia.
  - exists h'. split; [done|]. split; [done|]. rewrite Hp. symmetry. apply Permutation_cons_append.
Qed.

(** The order holds below [lo]: between every node from [lo] on and its children. *)
Definition heapFrom (lo : nat) (a : list A) : Prop :=
  ∀ j, (0 < j < length a)%nat → (lo ≤ parentOf j)%nat → heapLe (a !!! parentOf j) (a !!! j).

Lemma heapFrom_0 a : heapFrom 0 a ↔ heapOrdered a.
Proof. unfold heapFrom, heapOrdered. split; intros H j Hj; [|intros _]; apply H; lia. Qed.

(** There, but between [i] and its children. *)
Record downFrom (lo : nat) (a : list A) (i : nat) : Prop := {
  df_rest : ∀ j, (0 < j < length a)%nat → (lo ≤ parentOf j)%nat → parentOf j ≠ i → heapLe (a !!! parentOf j) (a !!! j);
  df_grand : ∀ j, (0 < j < length a)%nat → parentOf j = i → (0 < i)%nat → (lo ≤ parentOf i)%nat → heapLe (a !!! parentOf i) (a !!! j);
}.

(** The child that goes first. *)
Lemma first_ok a n i : n = length a → (2 * i + 1 < n)%nat → ∃ c, (parentOf c = i ∧ 0 < c < n ∧ i < c)%nat ∧
  (if decide (2 * Z.of_nat i + 1 + 1 < Z.of_nat n) then b ← heapLess lt a (2 * Z.of_nat i + 1 + 1) (2 * Z.of_nat i + 1); Ok (if b : bool then 2 * Z.of_nat i + 1 + 1 else 2 * Z.of_nat i + 1)
   else Ok (2 * Z.of_nat i + 1)) = Ok (Z.of_nat c) ∧ ∀ j, (0 < j < n)%nat → parentOf j = i → heapLe (a !!! c) (a !!! j).
Proof.
  intros -> Hl. replace (2 * Z.of_nat i + 1) with (Z.of_nat (2 * i + 1)) by lia. replace (Z.of_nat (2 * i + 1) + 1) with (Z.of_nat (2 * i + 2)) by lia.
  case_decide as D.
  - rewrite heapLess_ok by lia. cbn [mbind res_bind]. case_bool_decide as Hlt.
    + exists (2 * i + 2)%nat. split; [rewrite parentOf_child by lia; lia|]. split; [done|]. intros j Hj [->| ->]%parentOf_child; [by apply heapLt_le|apply heapLe_refl|lia].
    + exists (2 * i + 1)%nat. split; [rewrite parentOf_child by lia; lia|]. split; [done|]. intros j Hj [->| ->]%parentOf_child; [apply heapLe_refl|exact Hlt|lia].
  - exists (2 * i + 1)%nat. split; [rewrite parentOf_child by lia; lia|]. split; [done|]. intros j Hj [->| ->]%parentOf_child; [apply heapLe_refl|lia|lia].
Qed.

Lemma heapDown_from lo fuel : ∀ a i, (lo ≤ i)%nat → (length a ≤ fuel + i)%nat → downFrom lo a i →
  ∃ a', heapDown lt fuel a (len a) (Z.of_nat i) = Ok a' ∧ heapFrom lo a' ∧ a' ≡ₚ a.
Proof.
  assert (∀ a i, downFrom lo a i → (length a ≤ 2 * i + 1)%nat → heapFrom lo a) as Hleaf.
  { intros a i [Hr _] Hl j Hj Hlo. apply Hr; [done..|]. intros Hc%parentOf_child; lia. }
  induction fuel as [|fuel IH]; intros a i Hlo Hf Hd; cbn [heapDown].
  { rewrite decide_True by (unfold len; lia). exists a. split; [done|]. split; [|done]. eapply Hleaf; [done|lia]. }
  case_decide as Dn; [exists a; split; [done|]; split; [|done]; eapply Hleaf; [done|unfold len in Dn; lia]|].
  destruct (first_ok a (length a) i eq_refl) as (c & (Hpc & Hc & Hic) & E & Hmin); [unfold len in Dn; lia|]. fold (len a) in E. rewrite E. cbn [mbind res_bind].
  rewrite heapLess_ok by lia. cbn [mbind res_bind]. destruct Hd as [Hr Hg]. case_bool_decide as Hlt; cbn [negb]; last first.
  { exists a. split; [done|]. split; [|done]. intros j Hj Hjl. destruct (decide (parentOf j = i)) as [Ep|]; [|by apply Hr].
    rewrite Ep. eapply heapLe_trans; [exact Hlt|by apply Hmin]. }
  rewrite heapSwap_ok by lia. cbn [mbind res_bind]. assert (len a = len (exchange a i c)) as -> by (unfold len; by rewrite length_exchange).
  assert (∀ k, exchange a i c !!! k = if decide (k = c) then a !!! i else if decide (k = i) then a !!! c else a !!! k) as Hx by (intros; apply exchange_lookup; lia).
  destruct (IH (exchange a i c) c) as (a' & E' & Hh & Hperm); [lia|rewrite length_exchange; lia| |].
  - split; rewrite length_exchange.
    + intros j Hj Hjl Hjc. rewrite !Hx. rewrite (decide_False (P := parentOf j = c)) by done. destruct (decide (parentOf j = i)) as [Ep|Ep].
      * destruct (decide (j = c)) as [->|]; [by apply heapLt_le|]. rewrite decide_False by (pose proof (parentOf_lt j); lia). by apply Hmin.
      * rewrite (decide_False (P := j = c)) by congruence. destruct (decide (j = i)) as [->|]; [apply (Hg c); lia|by apply Hr].
    + intros j Hj Hjc Hc0 _. rewrite !Hx, Hpc. rewrite (decide_False (P := i = c)) by lia. rewrite (decide_True (P := i = i)) by done.
      pose proof (parentOf_lt j ltac:(lia)). rewrite (decide_False (P := j = c)) by lia. rewrite (decide_False (P := j = i)) by lia. rewrite <- Hjc. apply Hr; [done|lia..].
  - exists a'. split; [done|]. split; [done|]. rewrite Hperm. apply exchange_perm; lia.
Qed.

(** Sifting down the root. *)
Lemma heapDown_ok fuel a : (length a ≤ fuel)%nat → downFrom 0 a 0 →
  ∃ a', heapDown lt fuel a (len a) 0 = Ok a' ∧ heapOrdered a' ∧ a' ≡ₚ a.
Proof.
  intros Hf Hd. destruct (heapDown_from 0 fuel a 0) as (a' & E & Hh & Hp); [lia|lia|done|]. exists a'. by rewrite <- heapFrom_0.
Qed.

(** A new root: the rest of a heap and the new entry are a heap again. *)
Lemma replaceRoot_ok h x : heapOrdered h → h ≠ [] → ∃ h' t,
  (a ← upd h 0 x; heapDown lt (length a) a (len a) 0) = Ok h' ∧ heapOrdered h' ∧ h ≡ₚ h !!! 0%nat :: t ∧ h' ≡ₚ x :: t.
Proof.
  intros Hh Hne. destruct h as [|r t]; [done|]. unfold upd. rewrite decide_True by (unfold len; cbn; lia). cbn [mbind res_bind]. change (<[Z.to_nat 0:=x]> (r :: t)) with (x :: t).
  destruct (heapDown_ok (length (x :: t)) (x :: t)) as (h' & E & Hh' & Hp); [done| |exists h', t; done].
  split; [|lia]. intros j Hj _ Hnp. specialize (Hh j Hj). pose proof (parentOf_lt j ltac:(lia)). destruct (parentOf j) as [|p]; [done|]. by destruct j as [|j]; [lia|].
Qed.

(** Building a heap bottom up. *)
Lemma heapFrom_leaves a lo : (length a ≤ 2 * lo + 1)%nat → heapFrom lo a.
Proof. intros Hl j Hj Hlo. exfalso. pose proof (proj1 (parentOf_child (parentOf j) j ltac:(lia)) eq_refl). lia. Qed.

Lemma heapify_ok (n : nat) a : (n ≤ length a)%nat → heapFrom n a → ∃ a',
  foldM (λ h i, heapDown lt (length h) h (len h) i) (rev (zseq (Z.of_nat n))) a = Ok a' ∧ heapOrdered a' ∧ a' ≡ₚ a.
Proof.
  revert a. induction n as [|n IH]; intros a Hl Ha; [exists a; by rewrite <- heapFrom_0|].
  rewrite Nat2Z.inj_succ. unfold Z.succ. rewrite zseq_S, rev_app_distr by lia. cbn [rev app foldM mbind].
  destruct (heapDown_from n (length a) a n) as (a1 & E1 & H1 & P1); [lia|lia| |].
  - split; [|intros j Hj Hp Hn Hlo; pose proof (parentOf_lt n ltac:(lia)); lia]. intros j Hj Hlo Hne. apply Ha; lia.
  - rewrite E1. cbn [mbind res_bind]. destruct (IH a1) as (a' & E & H & P); [by rewrite P1; lia|done|]. exists a'. split; [done|]. split; [done|]. by rewrite P.
Qed.
End theory.
