(* ===== verification/Parallel.v ===== *)
(** Chunked worker pools: [src/parallel/parallel.go].

    The pool of [For] and [ForWorker] is a step relation: goroutines pull chunk
    numbers from one atomic counter and run the body on their chunk, in any
    interleaving. [Fold] and [FoldInto] give each goroutine its own slot, which
    it writes when it finishes; the order of finishing is an argument. The
    theorems: every index is visited exactly once under every schedule, every
    run ends, and a fold with a lawful merge is the sequential fold whatever
    the worker count and the finishing order. [GOMAXPROCS] is an argument
    wherever [Workers()] is called. *)

From S2P Require Import Prelude.

(** ** Chunk plans *)

Definition chunkPlan (workers n : Z) : Z * Z :=
  if decide (n ≤ 0) then (0, 0)
  else
    let target := to_i64 (Z.max workers 1 * 4) in
    let size := Z.max (n `quot` target) 1 in
    (to_i64 (n + size - 1) `quot` size, size).

Definition Chunks (workers n : Z) : Z := (chunkPlan workers n).1.

(** [body(k*size, min((k+1)*size, n))]. *)
Definition chunkRange (n size k : Z) : Z * Z := (to_i64 (k * size), Z.min (to_i64 ((k + 1) * size)) n).

(** ** The pool *)

(** A goroutine is about to pull, is about to run the body on a chunk it
    pulled, or has returned. *)
Inductive wpc := Pull | Run (k : Z) | Exit.

(** The shared counter, the goroutines, and the body calls so far: worker
    index and range. *)
Record pool := mkPool { p_next : Z; p_workers : list wpc; p_calls : list (Z * (Z * Z)) }.

Inductive poolStep (count size n : Z) : pool → pool → Prop :=
| step_pull next ws calls w : ws !! w = Some Pull →
    poolStep count size n (mkPool next ws calls)
      (mkPool (next + 1) (<[w := if decide (count ≤ next) then Exit else Run next]> ws) calls)
| step_run next ws calls w k : ws !! w = Some (Run k) →
    poolStep count size n (mkPool next ws calls)
      (mkPool next (<[w := Pull]> ws) (calls ++ [(Z.of_nat w, chunkRange n size k)])).

(** How [ForWorker] starts: the body is called directly for at most one chunk,
    and otherwise [min(count, Workers())] goroutines start on a zero counter.
    [For] is the same without the worker index. *)
Definition ForWorker (workers n : Z) : list (Z * (Z * Z)) + pool :=
  let '(count, _) := chunkPlan workers n in
  if decide (count ≤ 1) then inl (if decide (0 < n) then [(0, (0, n))] else [])
  else inr (mkPool 0 (replicate (Z.to_nat (Z.min count (Z.max workers 1))) Pull) []).

(** The body calls a complete run may make. *)
Definition poolRuns (workers n : Z) (calls : list (Z * (Z * Z))) : Prop :=
  match ForWorker workers n with
  | inl cs => calls = cs
  | inr p0 => ∃ p, rtc (poolStep (chunkPlan workers n).1 (chunkPlan workers n).2 n) p0 p ∧
      Forall (eq Exit) (p_workers p) ∧ p_calls p = calls
  end.

(** ** Folds *)

Section fold.
Context {T : Type} (fold : T → Z → T) (reduce : T → T → T).

(** [for i := lo; i < hi; i++ { acc = fold(acc, i) }]. *)
Definition foldRange (acc : T) (lo hi : Z) : T := foldl fold acc (seqZ lo (hi - lo)).

(** [lo, hi := w*size, min((w+1)*size, n)], folded from [acc]. *)
Definition workerFold (n size : Z) (acc : T) (w : Z) : T :=
  foldRange acc (to_i64 (w * size)) (Z.min (to_i64 ((w + 1) * size)) n).

(** [out := accs[0]; for _, acc := range accs[1:] { out = reduce(out, acc) }]. *)
Definition mergeAll (accs : list T) : res T :=
  match accs with [] => Panic | a :: rest => Ok (foldl reduce a rest) end.

(** [order] is the order in which the goroutines store their accumulator;
    [zero] is the zero value the slots are made with. *)
Definition Fold (workers n : Z) (zero identity : T) (order : list Z) : res T :=
  if decide (n ≤ 0) then Ok identity
  else
    let workers := Z.min n (Z.max workers 1) in
    if decide (workers ≤ 1) then Ok (foldRange identity 0 n)
    else
      let size := to_i64 (n + workers - 1) `quot` workers in
      accs ← foldM (λ accs w, upd accs w (workerFold n size identity w)) order
        (replicate (Z.to_nat workers) zero);
      mergeAll accs.

(** [FoldInto] answers the merged value and the accumulators it leaves. *)
Definition FoldInto (zero : T) (accs : list T) (n : Z) (order : list Z) : res (T * list T) :=
  if decide (n ≤ 0 ∨ accs = []) then
    match accs with [] => Ok (zero, accs) | a :: _ => Ok (a, accs) end
  else
    let workers := Z.min n (len accs) in
    if decide (workers ≤ 1) then
      acc ← idx accs 0;
      let acc := foldRange acc 0 n in
      accs ← upd accs 0 acc; Ok (acc, accs)
    else
      let size := to_i64 (n + workers - 1) `quot` workers in
      accs ← foldM (λ accs w, acc ← idx accs w; upd accs w (workerFold n size acc w)) order accs;
      used ← slice accs 0 workers;
      out ← mergeAll used;
      accs ← upd accs 0 out; Ok (out, accs).

End fold.

(** ** Lemmas: chunks tile the range *)

(** The indices of chunk [k], without the wrap-around. *)
Definition chunkIndices (n size k : Z) : list Z := seqZ (k * size) (Z.min ((k + 1) * size) n - k * size).

Lemma chunks_tile n size j : 0 < size → 0 ≤ n → 0 ≤ j →
  concat (chunkIndices n size <$> zseq j) = zseq (Z.min (j * size) n).
Proof.
  intros Hs Hn Hj. pattern j. apply natlike_ind; [|clear j Hj; intros j Hj IH|done].
  { simpl. by rewrite Z.min_l by lia. }
  unfold Z.succ. rewrite zseq_S, fmap_app, concat_app, IH by done. simpl. rewrite app_nil_r.
  unfold chunkIndices. rewrite !zseq_seqZ.
  destruct (decide (j * size ≤ n)) as [D|D].
  - rewrite (Z.min_l (j * size)) by done.
    replace (Z.min ((j + 1) * size) n) with (j * size + (Z.min ((j + 1) * size) n - j * size)) at 2 by lia.
    rewrite seqZ_split by lia. done.
  - rewrite (seqZ_nil (j * size)), app_nil_r by lia. f_equal. lia.
Qed.

(** The ranges of machine integers do not wrap below 2^61. *)
Lemma chunkRange_indices n size k : 0 ≤ k → 0 < size → k * size ≤ 2 * n → size ≤ n → n < 2305843009213693952 →
  let '(lo, hi) := chunkRange n size k in seqZ lo (hi - lo) = chunkIndices n size k.
Proof. intros. unfold chunkRange. rewrite !wrapS_small by nia. done. Qed.

(** ** The pool *)

Definition running (ws : list wpc) : list Z := omap (λ pc, match pc with Run k => Some k | _ => None end) ws.

Lemma running_insert ws w a b : ws !! w = Some a → running (<[w := b]> ws) ++ running [a] ≡ₚ running ws ++ running [b].
Proof.
  intros Ha. rewrite <- (take_drop_middle ws w a Ha) at 2. rewrite insert_take_drop by (by eapply lookup_lt_Some).
  unfold running. change (b :: drop (S w) ws) with ([b] ++ drop (S w) ws).
  change (a :: drop (S w) ws) with ([a] ++ drop (S w) ws). rewrite !omap_app. solve_Permutation.
Qed.

Record poolInv (count size n : Z) (p : pool) : Prop := {
  pi_next : 0 ≤ p_next p;
  pi_exit : Exit ∈ p_workers p → count ≤ p_next p;
  pi_calls : ∃ ks, (p_calls p).*2 = chunkRange n size <$> ks ∧
    ks ++ running (p_workers p) ≡ₚ zseq (Z.min (p_next p) count);
  pi_ids : Forall (λ c, 0 ≤ c.1 < len (p_workers p)) (p_calls p);
}.

Lemma poolStep_inv count size n p p' : poolStep count size n p p' → poolInv count size n p → poolInv count size n p'.
Proof.
  intros Hst [Hn He (ks & Hc & Hk) Hid]. destruct Hst as [next ws calls w Hw|next ws calls w k Hw]; simpl in *.
  - pose proof (running_insert ws w Pull (if decide (count ≤ next) then Exit else Run next) Hw) as Hr.
    rewrite app_nil_r in Hr. split; simpl; [lia| | |].
    + intros [i Hi]%list_elem_of_lookup. destruct (decide (i = w)) as [->|Ni].
      * rewrite list_lookup_insert_eq in Hi by (by eapply lookup_lt_Some). case_decide; [lia|done].
      * rewrite list_lookup_insert_ne in Hi by done. apply list_elem_of_lookup_2 in Hi. specialize (He Hi). lia.
    + exists ks. split; [done|]. rewrite Hr. case_decide as D; simpl.
      * rewrite app_nil_r, Hk. by replace (Z.min next count) with (Z.min (next + 1) count) by lia.
      * rewrite (Z.min_l next) in Hk by lia. rewrite app_assoc, Hk, Z.min_l by lia. by rewrite zseq_S.
    + unfold len. rewrite length_insert. exact Hid.
  - pose proof (running_insert ws w (Run k) Pull Hw) as Hr. simpl in Hr. rewrite app_nil_r in Hr.
    split; simpl; [done| | |].
    + intros [i Hi]%list_elem_of_lookup. apply list_lookup_insert_Some in Hi as [(_ & ? & _)|[_ Hi]]; [done|].
      apply He. by eapply list_elem_of_lookup_2.
    + exists (ks ++ [k]). split; [by rewrite !fmap_app, Hc|]. rewrite <- app_assoc, (Permutation_app_comm [k]).
      by rewrite Hr.
    + unfold len. rewrite length_insert. apply Forall_app. split; [exact Hid|]. repeat constructor; simpl; [lia|].
      apply lookup_lt_Some in Hw. lia.
Qed.

(** Every step brings the pool closer to its end. *)
Definition wpcWork (pc : wpc) : nat := match pc with Pull => 1 | Run _ => 2 | Exit => 0 end.
Definition poolWork (count : Z) (p : pool) : nat :=
  (2 * Z.to_nat (count - p_next p) + sum_list (wpcWork <$> p_workers p))%nat.

Lemma sum_insert ws w a b : ws !! w = Some a →
  (sum_list (wpcWork <$> <[w := b]> ws) + wpcWork a = sum_list (wpcWork <$> ws) + wpcWork b)%nat.
Proof.
  intros Ha. rewrite <- (take_drop_middle ws w a Ha) at 2. rewrite insert_take_drop by (by eapply lookup_lt_Some).
  rewrite !fmap_app, !sum_list_with_app, !fmap_cons. simpl. lia.
Qed.

Lemma poolStep_work count size n p p' : poolStep count size n p p' → (poolWork count p' < poolWork count p)%nat.
Proof.
  intros [next ws calls w Hw|next ws calls w k Hw]; unfold poolWork; simpl.
  - pose proof (sum_insert ws w Pull (if decide (count ≤ next) then Exit else Run next) Hw) as E.
    case_decide; simpl in *; lia.
  - pose proof (sum_insert ws w (Run k) Pull Hw) as E. simpl in *. lia.
Qed.

Lemma poolStep_wf count size n : well_founded (flip (poolStep count size n)).
Proof.
  apply (well_founded_lt_compat _ (poolWork count)). intros p' p Hst. by eapply poolStep_work.
Qed.

#[export] Instance wpc_eq_dec : EqDecision wpc.
Proof. solve_decision. Defined.

Lemma pool_progress count size n p : ¬ Forall (eq Exit) (p_workers p) → ∃ p', poolStep count size n p p'.
Proof.
  intros HF. destruct p as [next ws calls]. simpl in HF. apply not_Forall_Exists in HF; [|apply _].
  apply Exists_exists in HF as (pc & [w Hw]%list_elem_of_lookup & Hne). destruct pc as [|k|]; [| |done].
  - eexists. by apply step_pull with (w := w).
  - eexists. by apply step_run with (w := w) (k := k).
Qed.

Lemma pool_finishes count size n p : ∃ p', rtc (poolStep count size n) p p' ∧ Forall (eq Exit) (p_workers p').
Proof.
  induction (poolStep_wf count size n p) as [p _ IH].
  destruct (decide (Forall (eq Exit) (p_workers p))) as [D|D]; [by exists p|].
  destruct (pool_progress count size n p D) as [p1 H1]. destruct (IH p1 H1) as (p' & Hr & HF).
  exists p'. split; [|done]. by eapply rtc_l.
Qed.

Lemma ceil_div n d : 0 < d → 0 < n → let c := (n + d - 1) `quot` d in 0 < c ∧ n ≤ c * d ∧ (c - 1) * d < n.
Proof.
  intros Hd Hn c. unfold c. rewrite Z.quot_div_nonneg by lia.
  pose proof (Z.div_mod (n + d - 1) d ltac:(lia)). pose proof (Z.mod_pos_bound (n + d - 1) d Hd). nia.
Qed.

Lemma chunkPlan_ok workers n : 0 < n < 2305843009213693952 → workers < 1152921504606846976 →
  let '(count, size) := chunkPlan workers n in
  0 < size ≤ n ∧ 0 < count ∧ n ≤ count * size ∧ (count - 1) * size < n.
Proof.
  intros Hn Hw. unfold chunkPlan. rewrite decide_False by lia.
  rewrite (wrapS_small 64 (_ * 4)) by lia. set (size := Z.max _ 1).
  assert (0 < size ≤ n) as Hs.
  { unfold size. assert (0 ≤ n `quot` (Z.max workers 1 * 4) ≤ n); [|lia].
    rewrite Z.quot_div_nonneg by lia. split; [apply Z.div_pos; lia|]. apply Z.div_le_upper_bound; nia. }
  rewrite wrapS_small by lia. pose proof (ceil_div n size ltac:(lia) ltac:(lia)). simpl in *. lia.
Qed.

(** The indices a list of body calls covers. *)
Definition visited (calls : list (Z * (Z * Z))) : list Z :=
  concat ((λ c, seqZ c.2.1 (c.2.2 - c.2.1)) <$> calls).

Lemma visited_chunks count size n ks calls : 0 < size ≤ n → n < 2305843009213693952 →
  (count - 1) * size < n → n ≤ count * size → 0 ≤ count →
  calls.*2 = chunkRange n size <$> ks → ks ≡ₚ zseq count → visited calls ≡ₚ zseq n.
Proof.
  intros Hs Hn Hlo Hhi Hc0 Hc Hk.
  assert (visited calls = concat (chunkIndices n size <$> ks)) as ->.
  { unfold visited.
    transitivity (concat ((λ r, seqZ r.1 (r.2 - r.1)) <$> calls.*2)); [by rewrite <- list_fmap_compose|].
    rewrite Hc, <- list_fmap_compose. f_equal. apply list_fmap_ext. intros i k Hi. simpl.
    assert (0 ≤ k < count) as Hkr. { apply elem_of_zseq. rewrite <- Hk. by eapply list_elem_of_lookup_2. }
    apply (chunkRange_indices n size k); nia. }
  rewrite Hk, chunks_tile by lia. by rewrite Z.min_r by lia.
Qed.

(** ** Folds *)

Section fold_lemmas.
Context {T : Type} (fold : T → Z → T) (reduce : T → T → T).

Lemma upd_via_idx (accs : list T) w x : upd accs w x = (_ ← idx accs w; upd accs w x).
Proof.
  unfold idx, upd. case_decide as D; [rewrite decide_False by lia|].
  - destruct (lookup_lt_is_Some_2 accs (Z.to_nat w)) as [y ->]; [unfold len in D; lia|done].
  - case_decide; [done|]. by destruct (accs !! Z.to_nat w).
Qed.

(** Each goroutine stores into its own slot: the order does not matter. *)
Lemma slots_ok (g : T → Z → T) accs order : NoDup order → Forall (λ w, 0 ≤ w < len accs) order →
  ∃ accs', foldM (λ accs w, acc ← idx accs w; upd accs w (g acc w)) order accs = Ok accs' ∧
    length accs' = length accs ∧
    ∀ w, accs' !! w = (λ a, if decide (Z.of_nat w ∈ order) then g a (Z.of_nat w) else a) <$> accs !! w.
Proof.
  intros Hnd HF.
  pose (P := λ (k : nat) (l : list T), length l = length accs ∧
    ∀ w, l !! w = (λ a, if decide (Z.of_nat w ∈ take k order) then g a (Z.of_nat w) else a) <$> accs !! w).
  match goal with |- context [foldM ?f order accs] =>
    destruct (foldM_inv P f order accs) as (l & -> & Hl & Hlk) end.
  - split; [done|]. intros w. by destruct (accs !! w).
  - intros k w l Hw [Hl Hlk]. pose proof (Forall_lookup_1 _ _ _ _ HF Hw) as Hr. simpl in Hr.
    destruct (lookup_lt_is_Some_2 accs (Z.to_nat w)) as [a Ha]; [unfold len in Hr; lia|].
    assert (w ∉ take k order) as Hni.
    { intros [j Hj]%list_elem_of_lookup. apply lookup_take_Some in Hj as [Hj Hlt].
      pose proof (NoDup_lookup _ _ _ _ Hnd Hj Hw). lia. }
    rewrite (idx_lookup l w a); [|lia|].
    2: { rewrite Hlk, Ha. simpl. rewrite Z2Nat.id by lia. by rewrite decide_False. }
    cbn [mbind res_bind]. unfold upd. rewrite decide_True by (unfold len in *; lia). eexists. split; [done|].
    split; [by rewrite length_insert|]. intros v. rewrite (take_S_r _ _ _ Hw).
    destruct (decide (v = Z.to_nat w)) as [->|Nv].
    + rewrite list_lookup_insert_eq by (unfold len in Hr; lia). rewrite Ha. simpl. rewrite Z2Nat.id by lia.
      rewrite decide_True; [done|]. apply elem_of_app. right. by apply list_elem_of_singleton.
    + rewrite list_lookup_insert_ne by done. rewrite Hlk. destruct (accs !! v); [|done]. simpl. f_equal.
      apply decide_ext. rewrite elem_of_app, list_elem_of_singleton. split; [tauto|]. intros [?|?]; [done|lia].
  - exists l. split; [done|]. split; [done|]. intros w. rewrite Hlk. by rewrite take_ge by lia.
Qed.

Lemma slots_all (g : T → Z → T) accs order (n : Z) : order ≡ₚ zseq n → 0 ≤ n ≤ len accs →
  ∃ accs', foldM (λ accs w, acc ← idx accs w; upd accs w (g acc w)) order accs = Ok accs' ∧
    accs' = zip_with g (take (Z.to_nat n) accs) (zseq n) ++ drop (Z.to_nat n) accs.
Proof.
  intros Hp Hn. destruct (slots_ok g accs order) as (l & E & Hl & Hlk).
  { rewrite Hp. apply sorted_NoDup, zseq_sorted. }
  { rewrite Hp. apply Forall_forall. intros w Hw%elem_of_zseq. lia. }
  exists l. split; [done|]. apply list_eq. intros w. rewrite Hlk.
  assert (length (zip_with g (take (Z.to_nat n) accs) (zseq n)) = Z.to_nat n) as Hlen.
  { rewrite length_zip_with, length_take. unfold zseq. rewrite length_fmap, length_seq. unfold len in Hn. lia. }
  destruct (decide (w < Z.to_nat n)%nat) as [D|D].
  - rewrite lookup_app_l by lia. rewrite lookup_zip_with, lookup_take_lt by done. unfold zseq.
    rewrite list_lookup_fmap, lookup_seq_lt by done. destruct (accs !! w); [|done]. simpl. f_equal.
    rewrite decide_True; [done|]. rewrite Hp, elem_of_zseq. lia.
  - rewrite lookup_app_r, Hlen, lookup_drop by lia. replace (Z.to_nat n + (w - Z.to_nat n))%nat with w by lia.
    destruct (accs !! w); [|done]. simpl. rewrite decide_False; [done|]. rewrite Hp, elem_of_zseq. lia.
Qed.

(** The merge continues a fold: merging in a fold from the identity is folding on. *)
Definition continues (identity : T) : Prop :=
  ∀ a l, reduce a (foldl fold identity l) = foldl fold a l.

Lemma merge_chunks identity a ls : continues identity →
  foldl reduce a (foldl fold identity <$> ls) = foldl fold a (concat ls).
Proof.
  intros Hc. revert a. induction ls as [|l ls IH]; intros a; simpl; [done|]. by rewrite IH, Hc, foldl_app.
Qed.

(** The workers' accumulators, merged in worker order, are the whole fold. *)
Lemma merge_workers ws n identity seeds : 0 < n < 2305843009213693952 → 1 < ws ≤ n → continues identity →
  let size := (n + ws - 1) `quot` ws in length seeds = Z.to_nat ws →
  (∀ w a, seeds !! w = Some a → workerFold fold n size a (Z.of_nat w) = workerFold fold n size identity (Z.of_nat w)) →
  mergeAll reduce (zip_with (workerFold fold n size) seeds (zseq ws)) = Ok (foldl fold identity (zseq n)).
Proof.
  intros Hn Hws Hc size Hlen Hseed. pose proof (ceil_div n ws ltac:(lia) ltac:(lia)) as Hs. simpl in Hs. fold size in Hs.
  assert (zip_with (workerFold fold n size) seeds (zseq ws) = foldl fold identity <$> (chunkIndices n size <$> zseq ws)) as ->.
  { apply list_eq. intros i. rewrite <- list_fmap_compose, lookup_zip_with, list_lookup_fmap.
    destruct (zseq ws !! i) as [w|] eqn:Hi; [|by destruct (seeds !! i)].
    assert (0 ≤ w < ws) as Hw by (apply elem_of_zseq; by eapply list_elem_of_lookup_2).
    apply lookup_lt_Some in Hi as Hlt. unfold zseq in Hi, Hlt. rewrite length_fmap, length_seq in Hlt.
    rewrite list_lookup_fmap, lookup_seq_lt in Hi by done. injection Hi as <-.
    destruct (lookup_lt_is_Some_2 seeds i) as [a Ha]; [lia|]. rewrite Ha. simpl. f_equal.
    rewrite (Hseed _ _ Ha). unfold workerFold, foldRange.
    pose proof (chunkRange_indices n size (Z.of_nat i)) as E. simpl in E. rewrite E by nia. done. }
  pose proof (chunks_tile n size ws ltac:(lia) ltac:(lia) ltac:(lia)) as Ht.
  rewrite Z.min_r in Ht by lia. rewrite <- Ht, (zseq_seqZ ws), seqZ_cons, !fmap_cons by lia.
  cbn [mergeAll]. rewrite merge_chunks by done. simpl. by rewrite foldl_app.
Qed.

Lemma Fold_ok workers n zero identity order : n < 2305843009213693952 →
  continues identity → order ≡ₚ zseq (Z.min n (Z.max workers 1)) →
  Fold fold reduce workers n zero identity order = Ok (foldl fold identity (zseq n)).
Proof.
  intros Hn Hc Hp. unfold Fold. case_decide as D.
  { rewrite zseq_seqZ, seqZ_nil by lia. done. }
  set (ws := Z.min n (Z.max workers 1)) in *. case_decide as D1.
  { unfold foldRange. by rewrite zseq_seqZ, Z.sub_0_r. }
  rewrite wrapS_small by lia. set (size := (n + ws - 1) `quot` ws).
  assert (∀ accs, foldM (λ accs w, upd accs w (workerFold fold n size identity w)) order accs =
    foldM (λ accs w, acc ← idx accs w; upd accs w ((λ _ w, workerFold fold n size identity w) acc w)) order accs) as ->.
  { clear. induction order as [|w order IH]; intros accs; simpl; [done|]. rewrite upd_via_idx.
    destruct (idx accs w); simpl; [|done|done]. destruct (upd accs w _); simpl; auto. }
  destruct (slots_all (λ _ w, workerFold fold n size identity w) (replicate (Z.to_nat ws) zero) order ws Hp)
    as (l & -> & ->); [rewrite len_replicate; lia|]. cbn [mbind res_bind].
  rewrite take_ge, drop_ge, app_nil_r by (rewrite length_replicate; lia).
  rewrite <- (merge_workers ws n identity (replicate (Z.to_nat ws) identity)); [|lia|lia|done|apply length_replicate|].
  - f_equal. apply list_eq. intros i. rewrite !lookup_zip_with.
    destruct (decide (i < Z.to_nat ws)%nat); [by rewrite !lookup_replicate_2 by done|].
    by rewrite (lookup_ge_None_2 (replicate _ zero)), (lookup_ge_None_2 (replicate _ identity)) by (rewrite length_replicate; lia).
  - by intros w a [-> _]%lookup_replicate.
Qed.

Lemma FoldInto_ok zero n identity order m : n < 2305843009213693952 → (0 < m)%nat →
  continues identity → order ≡ₚ zseq (Z.min n (Z.of_nat m)) →
  ∃ accs, FoldInto fold reduce zero (replicate m identity) n order = Ok (foldl fold identity (zseq n), accs) ∧
    length accs = m ∧ head accs = Some (foldl fold identity (zseq n)).
Proof.
  intros Hn Hm Hc Hp. destruct m as [|m]; [lia|]. clear Hm. unfold FoldInto. case_decide as D.
  { simpl. destruct D as [D|]; [|done]. rewrite zseq_seqZ, seqZ_nil by lia. eexists. split; [done|].
    simpl. by rewrite length_replicate. }
  rewrite len_replicate. set (ws := Z.min n (Z.of_nat (S m))) in *. case_decide as D1.
  { simpl. unfold foldRange. rewrite zseq_seqZ, Z.sub_0_r. eexists. split; [done|]. simpl. by rewrite length_replicate. }
  rewrite wrapS_small by lia. set (size := (n + ws - 1) `quot` ws).
  destruct (slots_all (workerFold fold n size) (replicate (S m) identity) order ws Hp)
    as (l & -> & ->); [rewrite len_replicate; lia|]. cbn [mbind res_bind].
  assert (length (zip_with (workerFold fold n size) (take (Z.to_nat ws) (replicate (S m) identity)) (zseq ws)) = Z.to_nat ws) as Hl.
  { rewrite length_zip_with, length_take, length_replicate. unfold zseq. rewrite length_fmap, length_seq. lia. }
  rewrite slice_ok by (unfold len; rewrite ?length_app; lia). rewrite drop_0, Z.sub_0_r, take_app_length' by done.
  cbn [mbind res_bind]. rewrite (merge_workers ws n identity); [|lia|lia|done| |].
  2: { rewrite length_take, length_replicate. lia. }
  2: { intros w a Ha. apply lookup_take_Some in Ha as [[-> _]%lookup_replicate _]. done. }
  cbn [mbind res_bind]. unfold upd. rewrite decide_True by (unfold len; rewrite ?length_app; lia).
  cbn [mbind res_bind]. eexists. split; [done|]. split.
  - rewrite length_insert, length_app, Hl, length_drop, length_replicate. lia.
  - rewrite head_lookup, list_lookup_insert_eq; [done|]. rewrite length_app, Hl. lia.
Qed.

End fold_lemmas.

(** ** Properties *)

(** C34: The worker pool visits every index exactly once: under every
    interleaving of the goroutines that pull chunks from the shared counter, the
    ranges passed to the body cover [0, n) without overlap, every worker index
    is below the pool size, some complete run exists, and no run goes on
    forever. *)
Theorem pool_visits_once (workers n : Z) : n < 2305843009213693952 → workers < 1152921504606846976 →
  (∀ calls, poolRuns workers n calls →
    visited calls ≡ₚ zseq n ∧ Forall (λ c, 0 ≤ c.1 < Z.max workers 1) calls) ∧
  (∃ calls, poolRuns workers n calls) ∧
  ∀ count size, well_founded (flip (poolStep count size n)).
Proof.
  intros Hn Hw. split; [|split; [|intros; apply poolStep_wf]].
  - intros calls. unfold poolRuns, ForWorker. destruct (decide (0 < n)) as [Hp|Hp].
    2: { unfold chunkPlan. rewrite decide_True by lia. cbv beta iota zeta. rewrite decide_True by lia. intros ->.
         by rewrite zseq_seqZ, seqZ_nil by lia. }
    pose proof (chunkPlan_ok workers n ltac:(lia) Hw) as Hplan. destruct (chunkPlan workers n) as [count size].
    destruct Hplan as (Hs & Hc & Hhi & Hlo). simpl. case_decide as D.
    { intros ->. unfold visited. simpl. rewrite app_nil_r, zseq_seqZ, Z.sub_0_r.
      split; [done|]. repeat constructor; simpl; lia. }
    intros (p & Hr & HF & <-). set (k := Z.to_nat (Z.min count (Z.max workers 1))) in *.
    assert (poolInv count size n p ∧ length (p_workers p) = k) as [[Hnx Hex (ks & Ec & Hk) Hid] Hlen].
    { revert Hr. set (p0 := mkPool 0 _ _). assert (poolInv count size n p0 ∧ length (p_workers p0) = k) as H0.
      { split; [|apply length_replicate]. split; simpl; [lia| |exists []|done].
        - intros [? _]%elem_of_replicate. done.
        - split; [done|]. rewrite Z.min_l by lia. simpl. unfold k. clear. by induction (Z.to_nat _). }
      clearbody p0. clear HF. induction 1 as [|p0 p1 p Hst Hr IH]; [done|]. apply IH. destruct H0 as [H0 E0].
      split; [by eapply poolStep_inv|]. destruct Hst; simpl in *; by rewrite length_insert. }
    assert (running (p_workers p) = []) as Hrun.
    { clear -HF. induction HF as [|pc l <- HF IH]; [done|]. exact IH. }
    rewrite Hrun, app_nil_r in Hk. rewrite Z.min_r in Hk.
    2: { apply Hex. destruct (p_workers p) as [|pc l]; [simpl in Hlen; lia|]. apply Forall_cons in HF as [<- _]. by left. }
    split; [by eapply visited_chunks; eauto; lia|]. eapply Forall_impl; [exact Hid|]. simpl. unfold len.
    rewrite Hlen. unfold k. lia.
  - unfold poolRuns. destruct (ForWorker workers n) as [cs|p0]; [by eexists|].
    destruct (pool_finishes (chunkPlan workers n).1 (chunkPlan workers n).2 n p0) as (p & ? & ?). by exists (p_calls p), p.
Qed.

Lemma pool_visits_once_witness :
  (∀ calls, poolRuns 2 19 calls → visited calls ≡ₚ zseq 19 ∧ Forall (λ c, 0 ≤ c.1 < 2) calls) ∧
  chunkPlan 2 19 = (10, 2).
Proof.
  split; [|by vm_compute]. apply (pool_visits_once 2 19); lia.
Defined.

(** A parallel fold is the sequential one: when merging continues a fold
    (an associative merge with the identity as its unit), [Fold] returns the
    in-order fold over [0, n) for every worker count and every order in which
    the goroutines finish, and [FoldInto] over reset accumulators returns the
    same and leaves it in the first slot. *)
Theorem parallel_fold_sequential {T} (fold : T → Z → T) (reduce : T → T → T) (zero identity : T)
    (workers n : Z) (m : nat) (order order' : list Z) :
  n < 2305843009213693952 → (0 < m)%nat → continues fold reduce identity →
  order ≡ₚ zseq (Z.min n (Z.max workers 1)) → order' ≡ₚ zseq (Z.min n (Z.of_nat m)) →
  Fold fold reduce workers n zero identity order = Ok (foldl fold identity (zseq n)) ∧
  ∃ accs, FoldInto fold reduce zero (replicate m identity) n order' = Ok (foldl fold identity (zseq n), accs) ∧
    length accs = m ∧ head accs = Some (foldl fold identity (zseq n)).
Proof. intros. split; [by apply Fold_ok|by apply FoldInto_ok]. Qed.

Lemma parallel_fold_sequential_witness :
  Fold (λ l i, l ++ [i]) app 3 7 [] [] [2; 0; 1] = Ok [0; 1; 2; 3; 4; 5; 6] ∧
  ∃ accs, FoldInto (λ l i, l ++ [i]) app [] (replicate 2 []) 7 [1; 0] = Ok ([0; 1; 2; 3; 4; 5; 6], accs) ∧
    length accs = 2%nat ∧ head accs = Some [0; 1; 2; 3; 4; 5; 6].
Proof.
  apply (parallel_fold_sequential (λ l i, l ++ [i]) app [] [] 3 7 2 [2; 0; 1] [1; 0]); [lia|lia| | |].
  - intros a l. revert a. induction l as [|x l IH] using rev_ind; intros a; [apply app_nil_r|].
    rewrite !foldl_app. simpl. by rewrite <- (IH a), app_assoc.
  - exact (Permutation_app_comm [2] [0; 1]).
  - exact (Permutation_app_comm [1] [0]).
Defined.
