(* ===== verification/NodeSet.v ===== *)
(** Node-id sets: [src/nodeset/nodeset.go] and the roaring bitmaps behind it.

    The roaring library is a parameter: [RoaringSet] lists the operations the
    engine calls and [RoaringSetLaws] their documented behaviour, by a
    denotation as a finite set. [setBitmap] shows the laws can hold. The
    builder and the finalizer use the same interface. *)

From S2P Require Import Prelude Parallel.

(** ** The bitmap interface *)

Class RoaringSet (bm : Type) := {
  bmNew : bm;
  bmBitmapOf : list Z → bm;
  bmAdd : bm → Z → bm;
  bmAddMany : bm → list Z → bm;
  bmRemove : bm → Z → bm;
  bmContains : bm → Z → bool;
  bmIsEmpty : bm → bool;
  bmMinimum : bm → Z;
  bmMaximum : bm → Z;
  bmGetCardinality : bm → Z;
  bmToArray : bm → list Z;
  bmAnd : bm → bm → bm;
  bmOr : bm → bm → bm;
  bmAndNot : bm → bm → bm;
  bmEquals : bm → bm → bool;
  bmIterator : Type;
  bmManyIterator : bm → bmIterator;
  bmNextMany : bmIterator → Z → list Z * bmIterator;
}.

(** The documented behaviour. [Minimum] and [Maximum] are specified on
    non-empty bitmaps; [NextMany] delivers some of what is left, in order, and
    nothing only when nothing is left. *)
Class RoaringSetLaws (bm : Type) `{RoaringSet bm} := {
  bmSet : bm → gset Z;
  bmUnread : bmIterator → list Z;
  bm_new : bmSet bmNew = ∅;
  bm_of l : bmSet (bmBitmapOf l) = list_to_set l;
  bm_add b x : bmSet (bmAdd b x) = {[x]} ∪ bmSet b;
  bm_addMany b l : bmSet (bmAddMany b l) = list_to_set l ∪ bmSet b;
  bm_remove b x : bmSet (bmRemove b x) = bmSet b ∖ {[x]};
  bm_contains b x : bmContains b x = bool_decide (x ∈ bmSet b);
  bm_isEmpty b : bmIsEmpty b = bool_decide (bmSet b = ∅);
  bm_minimum b : bmSet b ≠ ∅ → bmMinimum b ∈ bmSet b ∧ ∀ x, x ∈ bmSet b → bmMinimum b ≤ x;
  bm_maximum b : bmSet b ≠ ∅ → bmMaximum b ∈ bmSet b ∧ ∀ x, x ∈ bmSet b → x ≤ bmMaximum b;
  bm_card b : bmGetCardinality b = Z.of_nat (size (bmSet b));
  bm_toArray b : StronglySorted Z.lt (bmToArray b) ∧ ∀ x, x ∈ bmToArray b ↔ x ∈ bmSet b;
  bm_and a b : bmSet (bmAnd a b) = bmSet a ∩ bmSet b;
  bm_or a b : bmSet (bmOr a b) = bmSet a ∪ bmSet b;
  bm_andNot a b : bmSet (bmAndNot a b) = bmSet a ∖ bmSet b;
  bm_equals a b : bmEquals a b = bool_decide (bmSet a = bmSet b);
  bm_manyIterator b : bmUnread (bmManyIterator b) = bmToArray b;
  bm_nextMany it n : 0 < n → bmUnread it = (bmNextMany it n).1 ++ bmUnread (bmNextMany it n).2 ∧
    len (bmNextMany it n).1 ≤ n ∧ ((bmNextMany it n).1 = [] → bmUnread it = []);
}.

(** ** The set *)

Record Set_ (bm : Type) := mkSet { sbm : bm }.
Arguments mkSet {bm} _.
Arguments sbm {bm} _.

Section nodeset.
Context {bm : Type} `{RoaringSet bm}.
Implicit Types (s : Set_ bm) (b : bm).

Definition New : Set_ bm := mkSet bmNew.
Definition Of (ids : list Z) : Set_ bm := mkSet (bmBitmapOf ids).
Definition FromBitmap b : Set_ bm := mkSet b.
Definition Bitmap s : bm := sbm s.
Definition Len s : Z := bmGetCardinality (sbm s).
Definition IsEmpty s : bool := bmIsEmpty (sbm s).
Definition Contains s (id : Z) : bool := bmContains (sbm s) id.
(** [CheckedAdd] and [CheckedRemove]: the operation and whether it changed the
    set. *)
Definition Insert s (id : Z) : bool * Set_ bm :=
  (negb (bmContains (sbm s) id), mkSet (bmAdd (sbm s) id)).
Definition Remove s (id : Z) : bool * Set_ bm :=
  (bmContains (sbm s) id, mkSet (bmRemove (sbm s) id)).
Definition Min s : Z * bool :=
  if bmIsEmpty (sbm s) then (0, false) else (bmMinimum (sbm s), true).
Definition Max s : Z * bool :=
  if bmIsEmpty (sbm s) then (0, false) else (bmMaximum (sbm s), true).

Definition AsRange s : Z * Z * bool :=
  let '(mn, some) := Min s in
  if negb some then (0, 0, false)
  else
    let '(mx, _) := Max s in
    let span := to_u64 (mx - mn + 1) in
    if decide (span ≠ to_u64 (Len s) ∨ mx = 4294967295) then (0, 0, false)
    else (mn, to_u32 (mx + 1), true).

Definition ToSlice s : list Z := bmToArray (sbm s).
Definition And s (other : Set_ bm) : Set_ bm := mkSet (bmAnd (sbm s) (sbm other)).
Definition Or s (other : Set_ bm) : Set_ bm := mkSet (bmOr (sbm s) (sbm other)).
Definition AndNot s (other : Set_ bm) : Set_ bm := mkSet (bmAndNot (sbm s) (sbm other)).
Definition Equals s (other : Set_ bm) : bool := bmEquals (sbm s) (sbm other).

(** [iterYield]: 64 ids at a time until none is left or [yield] stops; fuel
    bounds the number of chunks. *)
Fixpoint iterYieldLoop {A} (fuel : nat) (yield : Z → A → bool * A) (it : bmIterator) (st : A) : option A :=
  match fuel with
  | O => None
  | S fuel =>
      let '(ids, it) := bmNextMany it 64 in
      if decide (ids = []) then Some st
      else
        let '(go, st) := yieldAll yield ids st in
        if go : bool then iterYieldLoop fuel yield it st else Some st
  end.
Definition iterYield {A} s (yield : Z → A → bool * A) (st : A) : option A :=
  iterYieldLoop (S (length (bmToArray (sbm s)))) yield (bmManyIterator (sbm s)) st.

(** [IterChunks] hands out the buffer itself, [n] ids at a time. *)
Fixpoint iterChunksLoop {A} (fuel : nat) (n : Z) (yield : list Z → A → bool * A) (it : bmIterator) (st : A) : option A :=
  match fuel with
  | O => None
  | S fuel =>
      let '(ids, it) := bmNextMany it n in
      if decide (ids = []) then Some st
      else
        let '(go, st) := yield ids st in
        if go : bool then iterChunksLoop fuel n yield it st else Some st
  end.
Definition IterChunks {A} s (n : Z) (yield : list Z → A → bool * A) (st : A) : option A :=
  iterChunksLoop (S (length (bmToArray (sbm s)))) n yield (bmManyIterator (sbm s)) st.

(** [src/nodeset/fold.go]. A callback that indexes [ids] stays below its length;
    [workers], [zero] and [order] are those of [parallel.Fold]. *)
Definition ParFold {T} s (workers : Z) (zero identity : T) (fold : T → Z → T) (reduce : T → T → T)
    (order : list Z) : res T :=
  let '(lo, _, ok) := AsRange s in
  if ok : bool then
    Fold (λ acc i, fold acc (to_u32 (lo + to_u32 i))) reduce workers (Len s) zero identity order
  else
    let ids := ToSlice s in
    Fold (λ acc i, fold acc (ids !!! Z.to_nat i)) reduce workers (len ids) zero identity order.

(** ** Lemmas *)

Context `{!RoaringSetLaws bm}.

Definition elems s : gset Z := bmSet (sbm s).

Lemma iterYieldLoop_ok {A} fuel (yield : Z → A → bool * A) it st : (length (bmUnread it) < fuel)%nat →
  iterYieldLoop fuel yield it st = Some (yieldAll yield (bmUnread it) st).2.
Proof.
  revert it st. induction fuel as [|fuel IH]; intros it st Hf; [lia|]. simpl.
  destruct (bm_nextMany it 64 ltac:(lia)) as (Hsplit & _ & Hnil). destruct (bmNextMany it 64) as [ids it'].
  simpl in *. case_decide as D; [by rewrite (Hnil D)|]. rewrite Hsplit, yieldAll_app.
  destruct (yieldAll yield ids st) as [[|] st'] eqn:E; [|done]. apply IH.
  rewrite Hsplit, length_app in Hf. destruct ids; [done|]. simpl in *. lia.
Qed.

Lemma iterYield_ok {A} s (yield : Z → A → bool * A) st :
  iterYield s yield st = Some (yieldAll yield (ToSlice s) st).2.
Proof. unfold iterYield. rewrite iterYieldLoop_ok; rewrite bm_manyIterator; [done|lia]. Qed.

Lemma iterChunksLoop_ok fuel n it acc : 0 < n → (length (bmUnread it) < fuel)%nat →
  ∃ chunks, iterChunksLoop fuel n (λ c acc, (true, acc ++ [c])) it acc = Some (acc ++ chunks) ∧
    concat chunks = bmUnread it ∧ Forall (λ c, 0 < len c ≤ n) chunks.
Proof.
  intros Hn. revert it acc. induction fuel as [|fuel IH]; intros it acc Hf; [lia|]. simpl.
  destruct (bm_nextMany it n Hn) as (Hsplit & Hle & Hnil). destruct (bmNextMany it n) as [ids it'].
  simpl in *. case_decide as D.
  { exists []. rewrite app_nil_r. split; [done|]. split; [by rewrite (Hnil D)|done]. }
  assert (0 < len ids) as H0 by (destruct ids; [done|rewrite len_cons; pose proof (len_nonneg ids); lia]).
  destruct (IH it' (acc ++ [ids])) as (cs & E & Hc & HF).
  { rewrite Hsplit, length_app in Hf. unfold len in H0. lia. }
  exists (ids :: cs). rewrite E, <- app_assoc. split; [done|]. simpl. split; [by rewrite Hc|by constructor].
Qed.

Lemma elems_nonempty s : IsEmpty s = false ↔ elems s ≠ ∅.
Proof. unfold IsEmpty, elems. rewrite bm_isEmpty, bool_decide_eq_false. done. Qed.

(** A set of integers between its bounds has as many elements as the span
    exactly when it is the whole interval. *)
Lemma interval_size (X : gset Z) lo hi : (∀ x, x ∈ X → lo ≤ x ≤ hi) → lo ≤ hi →
  Z.of_nat (size X) = hi - lo + 1 ↔ ∀ x, x ∈ X ↔ lo ≤ x ≤ hi.
Proof.
  intros Hb Hle. set (I := list_to_set (seqZ lo (hi - lo + 1)) : gset Z).
  assert (∀ x, x ∈ I ↔ lo ≤ x ≤ hi) as HI.
  { intros x. unfold I. rewrite elem_of_list_to_set, elem_of_seqZ. lia. }
  assert (Z.of_nat (size I) = hi - lo + 1) as Hsz.
  { unfold I. rewrite size_list_to_set, length_seqZ by apply NoDup_seqZ. lia. }
  assert (X ⊆ I) as Hsub by (intros x Hx; by apply HI, Hb).
  split.
  - intros Hs x. rewrite <- HI. assert (X = I) as ->; [|done]. apply set_subseteq_size_eq; [done|lia].
  - intros Hx. assert (X = I) as ->; [|done]. apply set_eq. intros x. by rewrite Hx, HI.
Qed.

Lemma interval_size_le (X : gset Z) lo n : 0 ≤ n → (∀ x, x ∈ X → lo ≤ x < lo + n) → Z.of_nat (size X) ≤ n.
Proof.
  intros Hn Hb. transitivity (Z.of_nat (size (list_to_set (seqZ lo n) : gset Z))).
  - apply Nat2Z.inj_le, subseteq_size. intros x Hx. apply elem_of_list_to_set, elem_of_seqZ. by apply Hb.
  - rewrite size_list_to_set, length_seqZ by apply NoDup_seqZ. lia.
Qed.

Lemma AsRange_spec s : (∀ x, x ∈ elems s → is_u32 x) →
  (∃ lo hi, AsRange s = (lo, hi, true) ∧ lo < hi ∧ is_u32 hi ∧ ∀ x, x ∈ elems s ↔ lo ≤ x < hi) ∨
  (AsRange s = (0, 0, false) ∧ ¬ ∃ lo hi, lo < hi < 4294967296 ∧ ∀ x, x ∈ elems s ↔ lo ≤ x < hi).
Proof.
  intros Hu. unfold AsRange, Min, Max. pose proof (elems_nonempty s) as Hne. unfold IsEmpty in Hne.
  destruct (bmIsEmpty (sbm s)) eqn:E; simpl.
  { right. split; [done|]. intros (lo & hi & Hlt & Hx). rewrite bm_isEmpty, bool_decide_eq_true in E.
    specialize (Hx lo). unfold elems in Hx. rewrite E in Hx. set_solver by lia. }
  destruct Hne as [Hne _]. specialize (Hne eq_refl). unfold elems in *.
  destruct (bm_minimum (sbm s) Hne) as [Hmn Hmin]. destruct (bm_maximum (sbm s) Hne) as [Hmx Hmax].
  set (mn := bmMinimum (sbm s)) in *. set (mx := bmMaximum (sbm s)) in *.
  pose proof (Hu _ Hmn) as Umn. pose proof (Hu _ Hmx) as Umx. pose proof (Hmin _ Hmx) as Hle.
  unfold Len. rewrite bm_card.
  pose proof (interval_size (bmSet (sbm s)) mn mx ltac:(naive_solver) Hle) as Hiff.
  assert (Z.of_nat (size (bmSet (sbm s))) ≤ 4294967296) as Hsz.
  { apply (interval_size_le _ 0); [lia|]. intros x Hx. specialize (Hu x Hx). lia. }
  rewrite !(wrapU_small 64) by lia. case_decide as D.
  - right. split; [done|]. intros (lo & hi & Hlt & Hx).
    assert (mn = lo) as Elo.
    { apply Hx in Hmn as ?. assert (lo ∈ bmSet (sbm s)) as Hl by (apply Hx; lia). specialize (Hmin _ Hl). lia. }
    assert (mx = hi - 1) as Ehi.
    { apply Hx in Hmx as ?. assert (hi - 1 ∈ bmSet (sbm s)) as Hl by (apply Hx; lia). specialize (Hmax _ Hl). lia. }
    assert (Z.of_nat (size (bmSet (sbm s))) = mx - mn + 1) by (apply Hiff; intros x; rewrite Hx; lia). lia.
  - left. assert (mx - mn + 1 = Z.of_nat (size (bmSet (sbm s)))) as Es by (apply dec_stable; lia).
    rewrite (wrapU_small 32) by lia. exists mn, (mx + 1). split; [done|]. split; [lia|]. split; [lia|].
    intros x. rewrite (proj1 Hiff) by lia. lia.
Qed.

Lemma ToSlice_len s : len (ToSlice s) = Len s.
Proof.
  destruct (bm_toArray (sbm s)) as [Hs Hin]. unfold Len, ToSlice. rewrite bm_card. unfold len. f_equal.
  assert (bmSet (sbm s) = list_to_set (bmToArray (sbm s))) as -> by (apply set_eq; intros x; rewrite elem_of_list_to_set; by rewrite Hin).
  symmetry. by apply size_list_to_set, sorted_NoDup.
Qed.

Lemma foldl_reindex {T} (fold : T → Z → T) (g : Z → Z) a l :
  foldl (λ acc i, fold acc (g i)) a l = foldl fold a (g <$> l).
Proof. revert a. induction l as [|i l IH]; intros a; simpl; [done|]. apply IH. Qed.

Lemma continues_reindex {T} (fold : T → Z → T) reduce (identity : T) (g : Z → Z) :
  continues fold reduce identity → continues (λ acc i, fold acc (g i)) reduce identity.
Proof. intros Hc a l. rewrite !(foldl_reindex fold g). apply Hc. Qed.

Lemma ParFold_ok {T} s workers zero identity (fold : T → Z → T) reduce order :
  (∀ x, x ∈ elems s → is_u32 x) → continues fold reduce identity →
  order ≡ₚ zseq (Z.min (Len s) (Z.max workers 1)) →
  ParFold s workers zero identity fold reduce order = Ok (foldl fold identity (ToSlice s)).
Proof.
  intros Hu Hc Ho. unfold ParFold.
  assert (0 ≤ Len s ≤ 4294967296) as Hlen.
  { unfold Len. rewrite bm_card. split; [lia|]. apply (interval_size_le _ 0); [lia|].
    intros x Hx. pose proof (Hu x). unfold elems in *. naive_solver lia. }
  destruct (AsRange_spec s Hu) as [(lo & hi & -> & Hlt & Hhi & Hx)|[-> _]].
  - rewrite Fold_ok; [|lia|by apply (continues_reindex fold reduce identity (λ i, to_u32 (lo + to_u32 i)))|done].
    f_equal. rewrite (foldl_reindex fold (λ i, to_u32 (lo + to_u32 i))). f_equal.
    destruct (bm_toArray (sbm s)) as [Hs Hin]. assert (0 ≤ lo) as Hlo by (apply (Hu lo), Hx; lia).
    assert (ToSlice s = seqZ lo (hi - lo)) as E.
    { apply sorted_ext; [done| |].
      - rewrite <- (Z.add_0_r lo) at 1. unfold seqZ. clear. generalize (Z.to_nat (hi - lo)) as m.
        intros m. generalize 0%nat as a. induction m as [|m IH]; intros a; simpl; [constructor|].
        constructor; [apply IH|]. apply Forall_fmap, Forall_forall. intros y Hy%elem_of_seq. simpl. lia.
      - intros x. rewrite Hin, elem_of_seqZ. fold (elems s). rewrite Hx. lia. }
    assert (Len s = hi - lo) as El by (rewrite <- ToSlice_len, E; unfold len; rewrite length_seqZ; lia).
    rewrite E, El, zseq_seqZ. transitivity (Z.add lo <$> seqZ 0 (hi - lo)).
    2: { rewrite fmap_add_seqZ. f_equal. lia. }
    apply list_fmap_ext. intros j i Hj. assert (i ∈ seqZ 0 (hi - lo)) as Hi by (by eapply list_elem_of_lookup_2).
    apply elem_of_seqZ in Hi. rewrite (wrapU_small 32 i), wrapU_small by lia. done.
  - rewrite ToSlice_len, Fold_ok; [|lia|by apply (continues_reindex fold reduce identity (λ i, ToSlice s !!! Z.to_nat i))|done].
    f_equal. rewrite (foldl_reindex fold (λ i, ToSlice s !!! Z.to_nat i)). f_equal.
    rewrite <- ToSlice_len. apply list_eq. intros i. rewrite list_lookup_fmap. unfold zseq.
    rewrite list_lookup_fmap, to_nat_len. destruct (ToSlice s !! i) as [x|] eqn:E.
    + rewrite lookup_seq_lt by (by eapply lookup_lt_Some). simpl. rewrite Nat2Z.id.
      by rewrite (list_lookup_total_correct _ _ _ E).
    + apply lookup_ge_None in E. rewrite lookup_seq_ge by done. done.
Qed.

End nodeset.

(** ** A model of the interface: sets of integers *)

Definition sortedElems (s : gset Z) : list Z := merge_sort Z.le (elements s).

Lemma sorted_nodup_lt (l : list Z) : StronglySorted Z.le l → NoDup l → StronglySorted Z.lt l.
Proof.
  induction l as [|x l IH]; [constructor|]. intros Hs Hnd. apply StronglySorted_cons in Hs as [Hx Hs].
  apply NoDup_cons in Hnd as [Hn Hnd]. constructor; [auto|]. apply Forall_forall. intros y Hy.
  rewrite Forall_forall in Hx. specialize (Hx y Hy). destruct (decide (x = y)) as [->|]; [done|lia].
Qed.

Lemma sortedElems_ok s : StronglySorted Z.lt (sortedElems s) ∧ ∀ x, x ∈ sortedElems s ↔ x ∈ s.
Proof.
  assert (sortedElems s ≡ₚ elements s) as Hp by apply merge_sort_Permutation.
  split.
  - assert (StronglySorted Z.le (sortedElems s)) as Hs by apply (StronglySorted_merge_sort Z.le).
    assert (NoDup (sortedElems s)) as Hnd by (rewrite Hp; apply NoDup_elements).
    by apply sorted_nodup_lt.
  - intros x. by rewrite Hp, elem_of_elements.
Qed.

#[export] Instance setBitmap : RoaringSet (gset Z) := {|
  bmNew := ∅;
  bmBitmapOf l := list_to_set l;
  bmAdd s x := {[x]} ∪ s;
  bmAddMany s l := list_to_set l ∪ s;
  bmRemove s x := s ∖ {[x]};
  bmContains s x := bool_decide (x ∈ s);
  bmIsEmpty s := bool_decide (s = ∅);
  bmMinimum s := default 0 (head (sortedElems s));
  bmMaximum s := default 0 (last (sortedElems s));
  bmGetCardinality s := Z.of_nat (size s);
  bmToArray := sortedElems;
  bmAnd s t := s ∩ t;
  bmOr s t := s ∪ t;
  bmAndNot s t := s ∖ t;
  bmEquals s t := bool_decide (s = t);
  bmIterator := list Z;
  bmManyIterator := sortedElems;
  bmNextMany l n := (take (Z.to_nat n) l, drop (Z.to_nat n) l);
|}.

Lemma sorted_last (l : list Z) x : StronglySorted Z.lt l → x ∈ l → ∃ y, last l = Some y ∧ y ∈ l ∧ x ≤ y.
Proof.
  intros Hs Hx. induction l as [|z l IH] using rev_ind; [by apply not_elem_of_nil in Hx|].
  exists z. rewrite last_snoc. split; [done|]. split; [apply elem_of_app; right; by apply list_elem_of_singleton|].
  apply elem_of_app in Hx as [Hx|Hx%list_elem_of_singleton]; [|lia].
  pose proof (StronglySorted_app_1_elem_of _ _ _ x z Hs Hx ltac:(by apply list_elem_of_singleton)). lia.
Qed.

#[export] Instance setBitmap_laws : RoaringSetLaws (gset Z).
Proof.
  refine {| bmSet s := s; bmUnread := (λ l, l) |}; simpl; try done.
  - intros s Hne. destruct (sortedElems_ok s) as [Hs Hin]. destruct (set_choose_L s Hne) as [x Hx].
    rewrite <- Hin in Hx. destruct (sortedElems s) as [|y l] eqn:E; [by apply not_elem_of_nil in Hx|].
    simpl. split; [apply Hin; by left|]. intros z Hz%Hin. apply StronglySorted_cons in Hs as [Hy _].
    rewrite Forall_forall in Hy. apply elem_of_cons in Hz as [->|Hz]; [lia|]. specialize (Hy z Hz). lia.
  - intros s Hne. destruct (sortedElems_ok s) as [Hs Hin]. destruct (set_choose_L s Hne) as [x Hx].
    rewrite <- Hin in Hx. destruct (sorted_last _ _ Hs Hx) as (y & Ey & Hy & _). rewrite Ey. simpl.
    split; [by apply Hin|]. intros z Hz%Hin. destruct (sorted_last _ _ Hs Hz) as (y' & Ey' & _ & ?).
    assert (y' = y) as -> by congruence. done.
  - apply sortedElems_ok.
  - intros l n Hn. rewrite take_drop. split; [done|]. split.
    + unfold len. rewrite length_take. lia.
    + destruct l as [|x l]; [done|]. destruct (Z.to_nat n) eqn:E; [lia|done].
Defined.

(** ** Properties *)

(** A node set iterates completely and in order, and stops where the
    consumer says: [Iter] delivers to any consumer exactly the ascending
    enumeration of the set up to the first id the consumer refuses, whatever
    the bitmap's chunking, and [IterChunks] cuts the same enumeration into
    non-empty chunks no longer than the buffer. *)
Theorem nodeset_iteration {bm} `{RoaringSetLaws bm} {A} (s : Set_ bm) (yield : Z → A → bool * A) (st : A) (n : Z) :
  0 < n →
  iterYield s yield st = Some (yieldAll yield (ToSlice s) st).2 ∧
  StronglySorted Z.lt (ToSlice s) ∧ (∀ x, x ∈ ToSlice s ↔ Contains s x = true) ∧
  ∃ chunks, IterChunks s n (λ c acc, (true, acc ++ [c])) [] = Some chunks ∧
    concat chunks = ToSlice s ∧ Forall (λ c, 0 < len c ≤ n) chunks.
Proof.
  intros Hn. split; [apply iterYield_ok|]. destruct (bm_toArray (sbm s)) as [Hs Hin]. split; [done|]. split.
  - intros x. unfold Contains. by rewrite bm_contains, bool_decide_eq_true, <- Hin.
  - unfold IterChunks. destruct (iterChunksLoop_ok (S (length (bmToArray (sbm s)))) n (bmManyIterator (sbm s)) [])
      as (cs & E & Hc & HF); [done|rewrite bm_manyIterator; lia|]. exists cs. by rewrite Hc, bm_manyIterator.
Qed.

Lemma nodeset_iteration_witness :
  iterYield (mkSet ({[7; 3; 9]} : gset Z)) (λ x l, (bool_decide (x < 5), l ++ [x])) [] =
    Some (yieldAll (λ x l, (bool_decide (x < 5), l ++ [x])) (ToSlice (mkSet ({[7; 3; 9]} : gset Z))) []).2 ∧
  ToSlice (mkSet ({[7; 3; 9]} : gset Z)) = [3; 7; 9] ∧
  IterChunks (mkSet ({[7; 3; 9]} : gset Z)) 2 (λ c acc, (true, acc ++ [c])) [] = Some [[3; 7]; [9]].
Proof.
  split; [|by vm_compute].
  apply (nodeset_iteration (mkSet ({[7; 3; 9]} : gset Z)) (λ x l, (bool_decide (x < 5), l ++ [x])) [] 2). lia.
Defined.

(** Folding a node set in parallel is folding its ascending enumeration, on
    both paths: [AsRange] answers a range exactly when the set is a non-empty
    interval whose end fits 32 bits, and then it is that interval; and
    [ParFold], by index arithmetic over the range or over the collected ids,
    returns the sequential fold for every worker count and finishing order. *)
Theorem nodeset_ParFold {bm} `{RoaringSetLaws bm} {T} (s : Set_ bm) (workers : Z) (zero identity : T)
    (fold : T → Z → T) (reduce : T → T → T) (order : list Z) :
  (∀ x, x ∈ elems s → is_u32 x) → continues fold reduce identity →
  order ≡ₚ zseq (Z.min (Len s) (Z.max workers 1)) →
  ((∃ lo hi, AsRange s = (lo, hi, true) ∧ lo < hi ∧ is_u32 hi ∧ ∀ x, x ∈ elems s ↔ lo ≤ x < hi) ∨
   (AsRange s = (0, 0, false) ∧ ¬ ∃ lo hi, lo < hi < 4294967296 ∧ ∀ x, x ∈ elems s ↔ lo ≤ x < hi)) ∧
  ParFold s workers zero identity fold reduce order = Ok (foldl fold identity (ToSlice s)).
Proof. intros. split; [by apply AsRange_spec|by apply ParFold_ok]. Qed.

Lemma nodeset_ParFold_witness :
  ParFold (mkSet ({[7; 5; 6]} : gset Z)) 2 [] [] (λ l i, l ++ [i]) app [1; 0] =
    Ok (foldl (λ l i, l ++ [i]) [] (ToSlice (mkSet ({[7; 5; 6]} : gset Z)))) ∧
  AsRange (mkSet ({[7; 5; 6]} : gset Z)) = (5, 8, true).
Proof.
  split; [|by vm_compute].
  apply (nodeset_ParFold (mkSet ({[7; 5; 6]} : gset Z)) 2 [] [] (λ l i, l ++ [i]) app [1; 0]).
  - intros x. unfold elems. simpl. rewrite !elem_of_union, !elem_of_singleton. lia.
  - intros a l. revert a. induction l as [|x l IH] using rev_ind; intros a; [apply app_nil_r|].
    rewrite !foldl_app. simpl. by rewrite <- (IH a), app_assoc.
  - exact (Permutation_app_comm [1] [0]).
Defined.
