(* ===== verification/Int128.v ===== *)
(** The 128-bit sum accumulator: [src/int128.go] and its twin
    [src/gql/internal/exec/int128.go].

    Two 64-bit words hold a two's-complement total; [add] folds one int64 in,
    [merge] another accumulator, [int64] reads the total back with a verdict
    whether it fits. The theorem: the verdict and the value depend on the true
    total alone, whatever the partition of the summands into accumulators and
    whatever excursions past the int64 range the partial sums make. *)

From S2P Require Import Prelude.

Record acc128 := mkAcc { lo : Z; hi : Z }.

(** [bits.Add64]: sum and carry out. *)
Definition Add64 (x y carry : Z) : Z * Z := (to_u64 (x + y + carry), (x + y + carry) / 2 ^ 64).

Definition acc128_add (a : acc128) (v : Z) : acc128 :=
  let '(l, carry) := Add64 (lo a) (to_u64 v) 0 in
  mkAcc l (to_u64 (hi a + to_u64 (to_u64 (Z.shiftr v 63) + carry))).

Definition acc128_merge (a b : acc128) : acc128 :=
  let '(l, carry) := Add64 (lo a) (lo b) 0 in
  mkAcc l (to_u64 (hi a + to_u64 (hi b + carry))).

Definition acc128_int64 (a : acc128) : Z * bool :=
  let v := to_i64 (lo a) in
  (v, bool_decide (hi a = to_u64 (Z.shiftr v 63))).

Definition acc128_zero : acc128 := mkAcc 0 0.

(** ** The number an accumulator holds *)

Definition bits128 (a : acc128) : Z := lo a + 2 ^ 64 * hi a.

Record wf_acc (a : acc128) : Prop := { wa_lo : is_u64 (lo a); wa_hi : is_u64 (hi a) }.

(** The accumulator represents [z] modulo 2^128. *)
Definition holds (a : acc128) (z : Z) : Prop := wf_acc a ∧ bits128 a = wrapU 128 z.

Lemma holds_zero : holds acc128_zero 0.
Proof. by repeat split. Qed.

Lemma wrapU_split128 l h : is_u64 l →
  l + 2 ^ 64 * to_u64 h = wrapU 128 (l + 2 ^ 64 * h).
Proof.
  intros Hl. unfold wrapU. replace (2 ^ 128) with (2 ^ 64 * 2 ^ 64) by done.
  rewrite (Z.rem_mul_r (l + 2 ^ 64 * h)) by done. change (2 ^ 64) with 18446744073709551616 in *.
  rewrite (Z.mul_comm 18446744073709551616 h).
  rewrite (Z.mod_add l h), (Z.mod_small l) by lia.
  by rewrite (Z.div_add l h), (Z.div_small l), Z.add_0_l by lia.
Qed.

Lemma wrapU_eq128 x y k : x = y + 2 ^ 128 * k → wrapU 128 x = wrapU 128 y.
Proof. intros ->. unfold wrapU. by rewrite Z.mul_comm, Z.mod_add. Qed.

Lemma wrapU_decomp w z : 0 ≤ w → ∃ k, z = wrapU w z + 2 ^ w * k.
Proof.
  intros Hw. exists (z / 2 ^ w). unfold wrapU. pose proof (Z.div_mod z (2 ^ w)).
  assert (2 ^ w ≠ 0) by (apply Z.pow_nonzero; lia). lia.
Qed.

(** The word-level step both operations take. *)
Lemma add_words a y h z v : holds a z → is_u64 y → (∃ k, y + 2 ^ 64 * h = v + 2 ^ 128 * k) →
  holds (let '(l, carry) := Add64 (lo a) y 0 in mkAcc l (to_u64 (hi a + to_u64 (h + carry)))) (z + v).
Proof.
  intros [[Hl Hh] Hb] Hy [k Hk]. unfold Add64. rewrite Z.add_0_r.
  split; [split; apply (wrapU_range 64); lia|]. unfold bits128 in *. cbn [lo hi].
  rewrite wrapU_split128 by (apply (wrapU_range 64); lia).
  destruct (wrapU_decomp 64 (h + (lo a + y) / 2 ^ 64)) as [q Hq]; [lia|].
  destruct (wrapU_decomp 128 z) as [p Hp]; [lia|]. rewrite <- Hb in Hp.
  pose proof (Z.div_mod (lo a + y) (2 ^ 64) ltac:(done)) as D.
  change ((lo a + y) `mod` 2 ^ 64) with (to_u64 (lo a + y)) in D.
  apply (wrapU_eq128 _ _ (k - p - q)). clear Hb.
  change (2 ^ 128) with (2 ^ 64 * 2 ^ 64) in *. change (2 ^ 64) with 18446744073709551616 in *. lia.
Qed.

Lemma shiftr63 v : is_i64 v → Z.shiftr v 63 = if decide (v < 0) then -1 else 0.
Proof.
  intros Hv. rewrite Z.shiftr_div_pow2 by lia. change (2 ^ 63) with 9223372036854775808.
  case_decide; dlia.
Qed.

Lemma add_holds a z v : holds a z → is_i64 v → holds (acc128_add a v) (z + v).
Proof.
  intros Ha Hv. apply add_words; [done|apply (wrapU_range 64); lia|].
  rewrite shiftr63 by done. unfold wrapU. case_decide.
  - exists 1. change ((-1) `mod` 2 ^ 64) with 18446744073709551615. dlia.
  - exists 0. change (0 `mod` 2 ^ 64) with 0. rewrite Z.mod_small by lia. lia.
Qed.

Lemma merge_holds a b x y : holds a x → holds b y → holds (acc128_merge a b) (x + y).
Proof.
  intros Ha [[Hl Hh] Hb]. apply add_words; [done|done|].
  destruct (wrapU_decomp 128 y) as [p Hp]; [lia|]. exists (- p). unfold bits128 in Hb. lia.
Qed.

(** Reading a total that 128 bits can hold. *)
Lemma int64_holds a z : holds a z → - 2 ^ 127 ≤ z < 2 ^ 127 →
  acc128_int64 a = (to_i64 z, bool_decide (is_i64 z)).
Proof.
  intros [[Hl Hh] Hb] Hz. unfold acc128_int64, bits128 in *.
  destruct (wrapU_decomp 128 z) as [k Hk]; [lia|]. rewrite <- Hb in Hk.
  assert (to_i64 (lo a) = to_i64 z) as ->.
  { unfold wrapS. f_equal. rewrite Hk.
    replace (lo a + 2 ^ 64 * hi a + 2 ^ 128 * k + 2 ^ (64 - 1))
      with (lo a + 2 ^ (64 - 1) + (hi a + 2 ^ 64 * k) * 2 ^ 64) by lia.
    by rewrite Z.mod_add by done. }
  f_equal. apply bool_decide_ext. pose proof (wrapS_range 64 z ltac:(lia)) as Hr.
  rewrite shiftr63 by (split; apply Hr).
  assert (∃ m, z = to_i64 z + 2 ^ 64 * m) as [m Hm].
  { exists ((z + 2 ^ 63) / 2 ^ 64). unfold wrapS. change (64 - 1) with 63.
    pose proof (Z.div_mod (z + 2 ^ 63) (2 ^ 64) ltac:(done)). lia. }
  change (2 ^ (64 - 1)) with 9223372036854775808 in *.
  change (2 ^ 127) with 170141183460469231731687303715884105728 in *.
  change (2 ^ 128) with 340282366920938463463374607431768211456 in *.
  set (v := to_i64 z) in *. clear Hb. case_decide; split; intros; unfold wrapU in *.
  - change ((-1) `mod` 2 ^ 64) with 18446744073709551615 in *. lia.
  - change ((-1) `mod` 2 ^ 64) with 18446744073709551615 in *. lia.
  - change (0 `mod` 2 ^ 64) with 0 in *. lia.
  - change (0 `mod` 2 ^ 64) with 0 in *. lia.
Qed.

(** ** Sums *)

(** One goroutine's share, and the merge of all shares. *)
Definition sumChunk (vs : list Z) : acc128 := foldl acc128_add acc128_zero vs.
Definition sumChunks (chunks : list (list Z)) : acc128 :=
  foldl acc128_merge acc128_zero (sumChunk <$> chunks).

Definition total (vs : list Z) : Z := foldr Z.add 0 vs.

Lemma foldl_add_holds vs a z : Forall (λ v, is_i64 v) vs → holds a z →
  holds (foldl acc128_add a vs) (z + total vs).
Proof.
  intros HF. revert a z. induction HF as [|v vs Hv HF IH]; intros a z Ha; simpl.
  { by rewrite Z.add_0_r. }
  rewrite Z.add_assoc. apply IH. by apply add_holds.
Qed.

Lemma total_app l1 l2 : total (l1 ++ l2) = total l1 + total l2.
Proof. unfold total. induction l1 as [|x l1 IH]; simpl in *; lia. Qed.

Lemma sumChunks_holds chunks : Forall (Forall (λ v, is_i64 v)) chunks →
  holds (sumChunks chunks) (total (concat chunks)).
Proof.
  intros HF. unfold sumChunks.
  assert (∀ a z, holds a z →
    holds (foldl acc128_merge a (sumChunk <$> chunks)) (z + total (concat chunks))) as H.
  { induction HF as [|c cs Hc HF IH]; intros a z Ha; simpl; [by rewrite Z.add_0_r|].
    rewrite total_app, Z.add_assoc. apply IH. apply merge_holds; [done|].
    rewrite <- (Z.add_0_l (total c)). apply foldl_add_holds; [done|apply holds_zero]. }
  apply (H acc128_zero 0), holds_zero.
Qed.

Lemma total_bound vs : Forall (λ v, is_i64 v) vs →
  - (9223372036854775808 * len vs) ≤ total vs ≤ 9223372036854775807 * len vs.
Proof.
  induction 1 as [|v vs Hv HF IH]; [done|]. rewrite len_cons. simpl. lia.
Qed.

(** ** Properties *)

(** Integer sums are exact and independent of the partition: for any split
    of fewer than 2^63 int64 values into per-goroutine chunks, merging the
    chunk accumulators gives the fits-int64 verdict of the true total, and its
    value when it fits, however far the partial sums strayed. *)
Theorem sum_partition_exact (chunks : list (list Z)) :
  Forall (Forall (λ v, is_i64 v)) chunks → len (concat chunks) < 9223372036854775808 →
  acc128_int64 (sumChunks chunks) =
    (to_i64 (total (concat chunks)), bool_decide (is_i64 (total (concat chunks)))).
Proof.
  intros HF Hl. apply int64_holds; [by apply sumChunks_holds|].
  pose proof (total_bound (concat chunks)) as Hb. rewrite Forall_concat in Hb. specialize (Hb HF).
  pose proof (len_nonneg (concat chunks)).
  change (2 ^ 127) with (9223372036854775808 * 18446744073709551616). nia.
Qed.

Lemma sum_partition_exact_witness :
  acc128_int64 (sumChunks [[9223372036854775807; 1]; [-2]; [-9223372036854775808; 9223372036854775807]])
    = (9223372036854775805, true).
Proof.
  rewrite (sum_partition_exact [[9223372036854775807; 1]; [-2]; [-9223372036854775808; 9223372036854775807]]);
    [done|by repeat constructor|done].
Defined.
