(* ===== verification/Bitset.v ===== *)
(** The bit vector: [src/internal/bitset/bitset.go].

    A fixed-length vector of bits over 64-bit words, behind the dense boolean
    columns and the presence bitmaps of the rank columns. The theorems: it is
    an array of booleans, converts to and from the packed on-disk layout
    without loss, [CountRange] counts exactly the set positions of a clamped
    range, and [Ones] enumerates them in ascending order. *)

From S2P Require Import Prelude.

Record Bits := mkBits { words : list Z; bn : Z }.

(** ** [math/bits] *)

Definition OnesCount64 (w : Z) : Z := len (filter (λ k, Z.testbit w k = true) (seqZ 0 64)).

(** The lowest set bit, 64 for zero. *)
Definition TrailingZeros64 (w : Z) : Z :=
  match filter (λ k, Z.testbit w k = true) (seqZ 0 64) with k :: _ => k | [] => 64 end.

(** ** Operations *)

Definition New (n : Z) : res Bits :=
  let k := Z.quot (to_i64 (n + 63)) 64 in
  if decide (k < 0) then Panic else Ok (mkBits (replicate (Z.to_nat k) 0) n).

(** [b.words[i/64] |= 1 << (i % 64)] or its [&^=] counterpart. *)
Definition Set_ (b : Bits) (i : Z) (v : bool) : res Bits :=
  w ← idx (words b) (Z.quot i 64);
  if decide (i < 0) then Panic
  else ws ← upd (words b) (i / 64) (setbit w (i `mod` 64) v); Ok (mkBits ws (bn b)).

Definition Get (b : Bits) (i : Z) : res bool :=
  if decide (i < 0 ∨ bn b ≤ i) then Ok false
  else w ← idx (words b) (i / 64); Ok (bool_decide (Z.land w (Z.shiftl 1 (i `mod` 64)) ≠ 0)).

Definition FromPackedLSB (packed : list byte) (n : Z) : res Bits :=
  b ← New n;
  foldM (λ b i,
    x ← idx packed (i / 8);
    if bool_decide (Z.land (byte.unsigned x) (Z.shiftl 1 (i `mod` 8)) ≠ 0)
    then Set_ b i true else Ok b) (zseq n) b.

Definition ToPackedLSB (b : Bits) : res (list byte) :=
  foldM (λ out i,
    v ← Get b i;
    if v : bool then
      x ← idx out (i / 8);
      upd out (i / 8) (byte.of_Z (Z.lor (byte.unsigned x) (Z.shiftl 1 (i `mod` 8))))
    else Ok out) (zseq (bn b)) (replicate (Z.to_nat ((bn b + 7) / 8)) Byte.x00).

Definition Len (b : Bits) : Z := bn b.

Definition Count (b : Bits) : Z := foldl (λ c w, c + OnesCount64 w) 0 (words b).

Definition CountRange (b : Bits) (lo hi : Z) : res Z :=
  let lo := Z.max lo 0 in
  let hi := Z.min hi (bn b) in
  if decide (hi ≤ lo) then Ok 0
  else
    let loW := lo / 64 in
    let hiW := (hi - 1) / 64 in
    let loMask := to_u64 (Z.shiftl (2 ^ 64 - 1) (lo `mod` 64)) in
    let hiMask := Z.shiftr (2 ^ 64 - 1) (63 - (hi - 1) `mod` 64) in
    wl ← idx (words b) loW;
    if decide (loW = hiW) then Ok (OnesCount64 (Z.land (Z.land wl loMask) hiMask))
    else
      c ← foldM (λ c w, x ← idx (words b) w; Ok (c + OnesCount64 x))
            (seqZ (loW + 1) (hiW - (loW + 1))) (OnesCount64 (Z.land wl loMask));
      wh ← idx (words b) hiW;
      Ok (c + OnesCount64 (Z.land wh hiMask)).

(** The inner loop over one word, [w &= w - 1] each round; [false] ends the
    iteration at a position past the vector. *)
Fixpoint onesWord (fuel : nat) (n base w : Z) : list Z * bool :=
  match fuel with
  | O => ([], true)
  | S fuel =>
      if decide (w = 0) then ([], true)
      else
        let i := base + TrailingZeros64 w in
        if decide (n ≤ i) then ([], false)
        else let '(rest, go) := onesWord fuel n base (Z.land w (w - 1)) in (i :: rest, go)
  end.

(** What a consumer that never stops is given. 64 rounds clear any word. *)
Fixpoint onesLoop (n wi : Z) (ws : list Z) : list Z :=
  match ws with
  | [] => []
  | w :: rest =>
      let '(l, go) := onesWord 64 n (wi * 64) w in
      l ++ (if go : bool then onesLoop n (wi + 1) rest else [])
  end.

Definition Ones (b : Bits) : list Z := onesLoop (bn b) 0 (words b).

(** ** Vectors and their bits *)

(** Every word is 64 bits wide and the words cover exactly the length, with no
    bit past it. *)
Record wf_bits (b : Bits) : Prop := {
  wb_n : 0 ≤ bn b < 9223372036854775745;
  wb_len : len (words b) = (bn b + 63) / 64;
  wb_words : Forall (λ w, is_u64 w) (words b);
}.

(** Bit [i], also past the length. *)
Definition bitAt (b : Bits) (i : Z) : bool :=
  match words b !! Z.to_nat (i / 64) with Some w => Z.testbit w (i `mod` 64) | None => false end.

Definition cleanTail (b : Bits) : Prop := ∀ i, bn b ≤ i → bitAt b i = false.

Lemma Get_bitAt b i : wf_bits b → Get b i = Ok (if decide (0 ≤ i < bn b) then bitAt b i else false).
Proof.
  intros [Hn Hl Hw]. unfold Get. case_decide.
  - by rewrite decide_False by lia.
  - rewrite decide_True by lia.
    destruct (idx_ok (words b) (i / 64)) as (w & -> & Hw'); [dlia|]. simpl.
    unfold bitAt. rewrite Hw'. rewrite land_shiftl1; [done|]. by apply Z.mod_pos_bound.
Qed.

Lemma Set_bitAt b i v : wf_bits b → 0 ≤ i < bn b →
  ∃ b', Set_ b i v = Ok b' ∧ wf_bits b' ∧ bn b' = bn b ∧
    ∀ j, 0 ≤ j → bitAt b' j = if decide (j = i) then v else bitAt b j.
Proof.
  intros [Hn Hl Hw] Hi. unfold Set_.
  rewrite Z.quot_div_nonneg by lia. assert (0 ≤ i / 64 < len (words b)) as Hr by dlia.
  destruct (idx_ok (words b) (i / 64) Hr) as (w & -> & Hiw). simpl. rewrite decide_False by lia.
  unfold upd. rewrite decide_True by done. simpl. eexists. split; [done|].
  pose proof (Forall_lookup_1 _ _ _ _ Hw Hiw) as Hwr. pose proof (Z.mod_pos_bound i 64 ltac:(lia)).
  split; [|split; [done|]].
  - split; simpl; [done|by rewrite len_insert|]. apply Forall_insert; [done|].
    simpl in Hwr. by apply (setbit_range w (i `mod` 64) v 64).
  - intros j Hj. unfold bitAt. simpl. pose proof (Z.mod_pos_bound j 64 ltac:(lia)).
    destruct (decide (i / 64 = j / 64)) as [Ew|Nw].
    + rewrite <- Ew, list_lookup_insert_eq by (by eapply lookup_lt_Some). rewrite Hiw.
      rewrite testbit_setbit by lia. case_bool_decide; case_decide; [done|dlia|subst; lia|done].
    + rewrite list_lookup_insert_ne by dlia. rewrite decide_False by congruence. done.
Qed.

Lemma New_ok n : 0 ≤ n < 9223372036854775745 →
  ∃ b, New n = Ok b ∧ wf_bits b ∧ bn b = n ∧ ∀ i, bitAt b i = false.
Proof.
  intros Hn. unfold New. rewrite wrapS_small by lia. rewrite Z.quot_div_nonneg by lia.
  rewrite decide_False by dlia. eexists. split; [done|]. split; [|split; [done|]].
  - split; simpl; [lia|rewrite len_replicate; dlia|]. by apply Forall_replicate.
  - intros i. unfold bitAt. simpl. destruct (replicate _ 0 !! _) as [w|] eqn:E; [|done].
    apply lookup_replicate in E as [-> _]. apply Z.bits_0.
Qed.

(** ** Counting *)

(** Positions of [lo, hi) where [f] holds. *)
Definition positions (f : Z → bool) (lo hi : Z) : list Z :=
  filter (λ k, f k = true) (seqZ lo (hi - lo)).

Definition count (f : Z → bool) (lo hi : Z) : Z := len (positions f lo hi).

Lemma positions_split f lo mid hi : lo ≤ mid ≤ hi →
  positions f lo hi = positions f lo mid ++ positions f mid hi.
Proof.
  intros H. unfold positions. rewrite <- filter_app. f_equal.
  replace (hi - lo) with ((mid - lo) + (hi - mid)) by lia.
  rewrite seqZ_app by lia. do 2 f_equal. lia.
Qed.

Lemma count_split f lo mid hi : lo ≤ mid ≤ hi → count f lo hi = count f lo mid + count f mid hi.
Proof. intros H. unfold count. by rewrite (positions_split f lo mid hi), len_app by done. Qed.

Lemma positions_ext f g lo hi : (∀ k, lo ≤ k < hi → f k = g k) → positions f lo hi = positions g lo hi.
Proof.
  intros H. unfold positions. assert (∀ k, k ∈ seqZ lo (hi - lo) → f k = g k) as Hin.
  { intros k Hk%elem_of_seqZ. apply H. lia. }
  induction (seqZ lo (hi - lo)) as [|k l IH]; [done|]. rewrite !filter_cons.
  rewrite (Hin k) by (by left). rewrite IH; [done|]. intros j Hj. apply Hin. by right.
Qed.

Lemma positions_none f lo hi : (∀ k, lo ≤ k < hi → f k = false) → positions f lo hi = [].
Proof.
  intros H. rewrite (positions_ext f (λ _, false)) by done. unfold positions.
  by induction (seqZ lo (hi - lo)).
Qed.

Lemma positions_one f k : f k = true → positions f k (k + 1) = [k].
Proof.
  intros H. unfold positions. replace (k + 1 - k) with 1 by lia. rewrite seqZ_cons, seqZ_nil by lia.
  by rewrite filter_cons_True.
Qed.

Lemma positions_shift f d lo hi : positions f (d + lo) (d + hi) = Z.add d <$> positions (λ k, f (d + k)) lo hi.
Proof.
  unfold positions. replace (d + hi - (d + lo)) with (hi - lo) by lia. rewrite <- fmap_add_seqZ.
  induction (seqZ lo (hi - lo)) as [|k l IH]; [done|]. rewrite fmap_cons, !filter_cons.
  case_decide; simpl; by rewrite IH.
Qed.

Lemma elem_of_positions f lo hi k : k ∈ positions f lo hi ↔ lo ≤ k < hi ∧ f k = true.
Proof. unfold positions. rewrite list_elem_of_filter, elem_of_seqZ. split; intros; intuition lia. Qed.

(** Masked population counts are counts over bit ranges. *)
Lemma OnesCount64_mask w m a b : 0 ≤ a ≤ b → b ≤ 64 →
  (∀ k, 0 ≤ k < 64 → Z.testbit m k = bool_decide (a ≤ k < b)) →
  OnesCount64 (Z.land w m) = count (Z.testbit w) a b.
Proof.
  intros Ha Hb Hm. change (OnesCount64 (Z.land w m)) with (count (Z.testbit (Z.land w m)) 0 64).
  rewrite (count_split _ 0 a 64), (count_split _ a b 64) by lia.
  unfold count. rewrite (positions_none _ 0 a), (positions_none _ b 64).
  - rewrite (positions_ext (Z.testbit (Z.land w m)) (Z.testbit w) a b); [rewrite len_nil; lia|].
    intros k Hk. rewrite Z.land_spec, Hm, bool_decide_eq_true_2 by lia. by rewrite andb_true_r.
  - intros k Hk. rewrite Z.land_spec, Hm, bool_decide_eq_false_2 by lia. by rewrite andb_false_r.
  - intros k Hk. rewrite Z.land_spec, Hm, bool_decide_eq_false_2 by lia. by rewrite andb_false_r.
Qed.

Lemma ones64_testbit k : 0 ≤ k → Z.testbit (2 ^ 64 - 1) k = bool_decide (k < 64).
Proof.
  intros Hk. replace (2 ^ 64 - 1) with (Z.ones 64) by done. case_bool_decide.
  - apply Z.ones_spec_low. lia.
  - apply Z.ones_spec_high. lia.
Qed.

Lemma loMask_testbit a k : 0 ≤ a → 0 ≤ k < 64 →
  Z.testbit (to_u64 (Z.shiftl (2 ^ 64 - 1) a)) k = bool_decide (a ≤ k < 64).
Proof.
  intros Ha Hk. unfold wrapU. rewrite Z.mod_pow2_bits_low, Z.shiftl_spec by lia.
  destruct (decide (a ≤ k)).
  - rewrite ones64_testbit, !bool_decide_eq_true_2 by lia. done.
  - rewrite Z.testbit_neg_r, bool_decide_eq_false_2 by lia. done.
Qed.

Lemma hiMask_testbit b k : 0 ≤ b < 64 → 0 ≤ k < 64 →
  Z.testbit (Z.shiftr (2 ^ 64 - 1) (63 - b)) k = bool_decide (0 ≤ k < b + 1).
Proof.
  intros Hb Hk. rewrite Z.shiftr_spec, ones64_testbit by lia.
  apply bool_decide_ext. lia.
Qed.

(** The bits of one word, in place. *)
Lemma count_word b w W a c : words b !! Z.to_nat W = Some w → 0 ≤ W → 0 ≤ a ≤ c → c ≤ 64 →
  count (bitAt b) (64 * W + a) (64 * W + c) = count (Z.testbit w) a c.
Proof.
  intros Hw HW Ha Hc. unfold count. rewrite positions_shift, len_fmap. f_equal.
  apply positions_ext. intros k Hk. unfold bitAt.
  replace ((64 * W + k) / 64) with W by dlia. rewrite Hw. f_equal. dlia.
Qed.

Lemma count_fullWord w : OnesCount64 w = count (Z.testbit w) 0 64.
Proof. done. Qed.

Lemma count_words b W (k : nat) c : 0 ≤ W → W + Z.of_nat k ≤ len (words b) →
  foldM (λ c w, x ← idx (words b) w; Ok (c + OnesCount64 x)) (seqZ W (Z.of_nat k)) c =
    Ok (c + count (bitAt b) (64 * W) (64 * (W + Z.of_nat k))).
Proof.
  revert W c. induction k as [|k IH]; intros W c HW Hl.
  { rewrite seqZ_nil by done. cbn [foldM]. f_equal. unfold count. rewrite positions_none; [rewrite len_nil; lia|lia]. }
  rewrite seqZ_cons by lia. cbn [foldM].
  destruct (idx_ok (words b) W) as (w & -> & Hw); [lia|]. cbn [mbind res_bind].
  replace (Z.pred (Z.of_nat (S k))) with (Z.of_nat k) by lia. rewrite IH by lia. f_equal.
  rewrite (count_split _ (64 * W) (64 * W + 64)) by lia.
  pose proof (count_word b w W 0 64 Hw HW ltac:(lia) ltac:(lia)) as Ew. rewrite Z.add_0_r in Ew.
  rewrite Ew, count_fullWord. replace (64 * Z.succ W) with (64 * W + 64) by lia.
  replace (64 * (Z.succ W + Z.of_nat k)) with (64 * (W + Z.of_nat (S k))) by lia. lia.
Qed.

Lemma CountRange_ok b lo hi : wf_bits b →
  CountRange b lo hi = Ok (count (bitAt b) (Z.max lo 0) (Z.min hi (bn b))).
Proof.
  intros [Hn Hl Hw]. unfold CountRange. set (l := Z.max lo 0). set (h := Z.min hi (bn b)).
  case_decide as D; [f_equal; unfold count; rewrite positions_none; [done|lia]|].
  assert (0 ≤ l < h ∧ h ≤ bn b) as Hb by lia. clearbody l h.
  pose proof (Z.div_mod l 64 ltac:(lia)) as Dl. pose proof (Z.mod_pos_bound l 64 ltac:(lia)) as Ml.
  pose proof (Z.div_mod (h - 1) 64 ltac:(lia)) as Dh. pose proof (Z.mod_pos_bound (h - 1) 64 ltac:(lia)) as Mh.
  assert (0 ≤ l / 64 ≤ (h - 1) / 64 ∧ (h - 1) / 64 < len (words b)) as HW by dlia.
  set (lw := l / 64) in *. set (hw := (h - 1) / 64) in *.
  set (lb := l `mod` 64) in *. set (hb := (h - 1) `mod` 64) in *.
  destruct (idx_ok (words b) lw) as (wl & -> & Hwl); [lia|]. cbn [mbind res_bind].
  case_decide as Dw.
  - f_equal. rewrite <- Z.land_assoc, (OnesCount64_mask wl _ lb (hb + 1)); [|lia..|].
    + rewrite <- (count_word b wl lw) by (done || lia). f_equal; lia.
    + intros k Hk. rewrite Z.land_spec, loMask_testbit, hiMask_testbit by lia.
      repeat case_bool_decide; simpl; lia || done.
  - replace (hw - (lw + 1)) with (Z.of_nat (Z.to_nat (hw - (lw + 1)))) by lia.
    rewrite count_words by lia. cbn [mbind res_bind].
    destruct (idx_ok (words b) hw) as (wh & -> & Hwh); [lia|]. cbn [mbind res_bind]. f_equal.
    rewrite (OnesCount64_mask wl _ lb 64); [|lia..|intros; by apply loMask_testbit; lia].
    rewrite (OnesCount64_mask wh _ 0 (hb + 1)); [|lia..|intros; by apply hiMask_testbit; lia].
    rewrite <- (count_word b wl lw), <- (count_word b wh hw) by (done || lia).
    rewrite (count_split _ l (64 * lw + 64) h), (count_split _ (64 * lw + 64) (64 * hw) h) by lia.
    replace (64 * lw + lb) with l by lia. replace (64 * hw + (hb + 1)) with h by lia.
    rewrite Z.add_0_r. replace (64 * (lw + 1)) with (64 * lw + 64) by lia.
    replace (lw + 1 + Z.of_nat (Z.to_nat (hw - (lw + 1)))) with hw by lia. lia.
Qed.

Lemma Count_ok b : wf_bits b → cleanTail b → Count b = count (bitAt b) 0 (bn b).
Proof.
  intros [Hn Hl Hw] Hc. unfold Count.
  assert (∀ W c, 0 ≤ W ≤ len (words b) →
    foldl (λ c w, c + OnesCount64 w) c (drop (Z.to_nat W) (words b)) =
      c + count (bitAt b) (64 * W) (64 * len (words b))) as H.
  { intros W c HW. remember (Z.to_nat (len (words b) - W)) as k eqn:Ek. revert W c HW Ek.
    induction k as [|k IH]; intros W c HW Ek.
    - rewrite drop_ge by (unfold len in *; lia). simpl. unfold count.
      rewrite positions_none; [rewrite len_nil; lia|lia].
    - destruct (idx_ok (words b) W) as (w & _ & Hiw); [lia|]. rewrite (drop_S _ w) by done. simpl.
      replace (S (Z.to_nat W)) with (Z.to_nat (W + 1)) by lia. rewrite IH by lia.
      rewrite (count_split _ (64 * W) (64 * W + 64)) by lia.
      pose proof (count_word b w W 0 64 Hiw ltac:(lia) ltac:(lia) ltac:(lia)) as Ew.
      rewrite Z.add_0_r in Ew. rewrite Ew, count_fullWord.
      replace (64 * (W + 1)) with (64 * W + 64) by lia. lia. }
  specialize (H 0 0 ltac:(pose proof (len_nonneg (words b)); lia)). rewrite drop_0 in H. rewrite H.
  rewrite Z.mul_0_r, Z.add_0_l. rewrite (count_split _ 0 (bn b)) by dlia.
  assert (count (bitAt b) (bn b) (64 * len (words b)) = 0) as ->; [|lia].
  unfold count. rewrite positions_none; [done|]. intros k Hk. apply Hc. lia.
Qed.

(** ** Enumerating *)

(** The lowest set bit, cleared by [w & (w-1)]. *)
Lemma lowest_bit w : 0 < w < 2 ^ 64 →
  let t := TrailingZeros64 w in
  0 ≤ t < 64 ∧ positions (Z.testbit w) 0 64 = t :: positions (Z.testbit (Z.land w (w - 1))) 0 64 ∧
  ∀ j, 0 ≤ j < t → Z.testbit w j = false.
Proof.
  intros Hw t. unfold t, TrailingZeros64.
  change (filter _ (seqZ 0 64)) with (positions (Z.testbit w) 0 64).
  destruct (positions (Z.testbit w) 0 64) as [|k l] eqn:E.
  { assert (w = 0); [|lia]. apply Z.bits_inj_0. intros j.
    destruct (decide (0 ≤ j)); [|apply Z.testbit_neg_r; lia].
    destruct (decide (j < 64)); [|by apply (testbit_high w 64); lia].
    destruct (Z.testbit w j) eqn:Ej; [|done].
    assert (j ∈ positions (Z.testbit w) 0 64) by (apply elem_of_positions; auto).
    rewrite E in *. by destruct (not_elem_of_nil j). }
  assert (k ∈ positions (Z.testbit w) 0 64) as Hk by (rewrite E; by left).
  apply elem_of_positions in Hk as [Hk Hbk]. split; [lia|].
  rewrite (positions_split _ 0 k 64), (positions_split _ k (k + 1) 64) in E by lia.
  rewrite (positions_one _ k Hbk) in E.
  assert (positions (Z.testbit w) 0 k = []) as E0.
  { destruct (positions (Z.testbit w) 0 k) as [|j l'] eqn:E'; [done|]. simpl in E. injection E as -> _.
    assert (k ∈ positions (Z.testbit w) 0 k) as Hx by (rewrite E'; by left).
    apply elem_of_positions in Hx. lia. }
  rewrite E0 in E. simpl in E. injection E as <-.
  assert (∀ j, 0 ≤ j < k → Z.testbit w j = false) as Hlow.
  { intros j Hj. destruct (Z.testbit w j) eqn:Ej; [|done].
    assert (j ∈ positions (Z.testbit w) 0 k) as Hx by (apply elem_of_positions; auto).
    rewrite E0 in Hx. by apply not_elem_of_nil in Hx. }
  split; [f_equal|done].
  assert (w = 2 ^ (k + 1) * Z.shiftr w (k + 1) + 2 ^ k) as Ew.
  { apply Z.bits_inj'. intros j Hj.
    rewrite Z.mul_comm, <- Z.shiftl_mul_pow2 by lia.
    rewrite Z.add_nocarry_lxor, Z.lxor_spec.
    2:{ apply Z.bits_inj'. intros i Hi. rewrite Z.land_spec, Z.bits_0, Z.pow2_bits_eqb by lia.
        destruct (Z.eqb_spec k i); [|apply andb_false_r]. subst.
        by rewrite Z.shiftl_spec_low by lia. }
    rewrite Z.pow2_bits_eqb by lia. destruct (Z.eqb_spec k j).
    - subst. rewrite Z.shiftl_spec_low by lia. done.
    - rewrite xorb_false_r. destruct (decide (j < k)).
      + rewrite Z.shiftl_spec_low by lia. apply Hlow. lia.
      + rewrite Z.shiftl_spec_high, Z.shiftr_spec by lia. f_equal. lia. }
  set (q := Z.shiftr w (k + 1)) in *.
  assert (∀ r j, 0 ≤ r < 2 ^ (k + 1) → k < j → Z.testbit (2 ^ (k + 1) * q + r) j = Z.testbit q (j - (k + 1))) as Hhi.
  { intros r j Hr Hj. replace j with (j - (k + 1) + (k + 1)) at 1 by lia.
    rewrite <- Z.shiftr_spec, Z.shiftr_div_pow2 by lia.
    rewrite Z.mul_comm, Z.div_add_l, Z.div_small by lia. f_equal. lia. }
  assert (2 ^ (k + 1) = 2 * 2 ^ k) as Ep by (rewrite Z.pow_add_r; lia).
  pose proof (Z.pow_pos_nonneg 2 k ltac:(lia) ltac:(lia)).
  assert (w - 1 = 2 ^ (k + 1) * q + (2 ^ k - 1)) as Ew1 by lia.
  rewrite (positions_split _ 0 (k + 1) 64) by lia. rewrite (positions_none _ 0 (k + 1)).
  - apply positions_ext. intros j Hj. rewrite Z.land_spec, Ew1.
    rewrite Ew at 1 2. rewrite !Hhi by lia. by destruct (Z.testbit q _).
  - intros j Hj. rewrite Z.land_spec. destruct (decide (j = k)) as [->|]; [|by rewrite Hlow by lia].
    rewrite Ew1. rewrite <- (Z.mod_pow2_bits_low (2 ^ (k + 1) * q + (2 ^ k - 1)) (k + 1) k) by lia.
    replace (2 ^ (k + 1) * q + (2 ^ k - 1)) with (2 ^ k - 1 + q * 2 ^ (k + 1)) by lia.
    rewrite Z.mod_add, Z.mod_small by lia.
    rewrite (testbit_high (2 ^ k - 1) k k) by lia. apply andb_false_r.
Qed.

Lemma filter_all (P : Z → Prop) `{∀ k, Decision (P k)} l : Forall P l → filter P l = l.
Proof. induction 1 as [|k l Hk _ IH]; [done|]. by rewrite filter_cons_True, IH. Qed.

Lemma filter_none (P : Z → Prop) `{∀ k, Decision (P k)} l : Forall (λ k, ¬ P k) l → filter P l = [].
Proof. induction 1 as [|k l Hk _ IH]; [done|]. by rewrite filter_cons_False. Qed.

Lemma positions_cut f lo m hi : lo ≤ m ≤ hi → positions f lo m = filter (λ k, k < m) (positions f lo hi).
Proof.
  intros Hm. rewrite (positions_split f lo m hi), filter_app by lia.
  rewrite filter_all, filter_none; [by rewrite app_nil_r|..];
    apply Forall_forall; intros k Hk%elem_of_positions; lia.
Qed.

Lemma land_u64 w m : 0 ≤ w < 2 ^ 64 → 0 ≤ Z.land w m < 2 ^ 64.
Proof.
  intros Hw. assert (0 ≤ Z.land w m) by (apply Z.land_nonneg; lia). split; [done|].
  apply bits_bounded; [lia|done|]. intros j Hj. by rewrite Z.land_spec, (testbit_high w 64).
Qed.

Lemma onesWord_ok fuel n base w : 0 ≤ w < 2 ^ 64 →
  (length (positions (Z.testbit w) 0 64) ≤ fuel)%nat →
  onesWord fuel n base w =
    (Z.add base <$> filter (λ k, k < n - base) (positions (Z.testbit w) 0 64),
     bool_decide (Forall (λ k, k < n - base) (positions (Z.testbit w) 0 64))).
Proof.
  revert w. induction fuel as [|fuel IH]; intros w Hw Hf; cbn [onesWord].
  { by destruct (positions (Z.testbit w) 0 64); simpl in Hf; [|lia]. }
  case_decide as D.
  { subst. rewrite positions_none by (intros; apply Z.bits_0). done. }
  destruct (lowest_bit w) as (Ht & E & Hlow); [lia|]. set (t := TrailingZeros64 w) in *.
  rewrite E in Hf |- *. simpl in Hf. case_decide as Dn.
  - assert (Forall (λ k, n - base ≤ k) (positions (Z.testbit w) 0 64)) as HF.
    { apply Forall_forall. intros k [Hk Hb]%elem_of_positions.
      destruct (decide (k < t)); [|lia]. rewrite Hlow in Hb by lia. done. }
    rewrite E in HF. f_equal.
    + rewrite filter_none; [done|]. eapply Forall_impl; [exact HF|]. simpl. lia.
    + rewrite bool_decide_eq_false_2; [done|]. intros HF'. inversion HF'; lia.
  - rewrite IH by (apply land_u64 || lia; lia). rewrite filter_cons_True by lia. rewrite fmap_cons.
    f_equal. apply bool_decide_ext. rewrite Forall_cons. split; [split; [lia|done]|tauto].
Qed.

Lemma positions_u64_len f : (length (positions f 0 64) ≤ 64)%nat.
Proof. unfold positions. etrans; [apply length_filter|]. by rewrite length_seqZ. Qed.

Lemma onesLoop_ok b wi ws : Forall (λ w, is_u64 w) ws → 0 ≤ wi → drop (Z.to_nat wi) (words b) = ws →
  bn b ≤ 64 * (wi + len ws) → 64 * (wi + len ws) < bn b + 64 →
  onesLoop (bn b) wi ws = positions (bitAt b) (64 * wi) (bn b).
Proof.
  intros HF. revert wi. induction HF as [|w ws Hw HF IH]; intros wi Hwi Ed Hn1 Hn2; cbn [onesLoop].
  { rewrite len_nil in *. symmetry. apply positions_none. lia. }
  rewrite len_cons in *. pose proof (len_nonneg ws).
  assert (words b !! Z.to_nat wi = Some w) as Hlw.
  { pose proof (lookup_drop (words b) (Z.to_nat wi) 0) as L. rewrite Ed, Nat.add_0_r in L. done. }
  rewrite onesWord_ok by (done || apply positions_u64_len).
  assert (∀ m, 0 ≤ m ≤ 64 → Z.add (wi * 64) <$> positions (Z.testbit w) 0 m =
    positions (bitAt b) (64 * wi) (64 * wi + m)) as Hpos.
  { intros m Hm. replace (64 * wi) with (64 * wi + 0) at 1 by lia. rewrite positions_shift.
    replace (64 * wi) with (wi * 64) by lia. f_equal. apply positions_ext. intros k Hk. unfold bitAt.
    replace ((wi * 64 + k) / 64) with wi by dlia. rewrite Hlw. f_equal. dlia. }
  destruct (decide (64 * wi + 64 ≤ bn b)) as [Hfull|Hlast].
  - rewrite bool_decide_eq_true_2.
    2:{ apply Forall_forall. intros k Hk%elem_of_positions. lia. }
    rewrite IH by (lia || by rewrite Z2Nat.inj_add, <- drop_drop, Ed by lia).
    rewrite (positions_split _ (64 * wi) (64 * wi + 64) (bn b)) by lia. f_equal; [|f_equal; lia].
    rewrite <- Hpos by lia. f_equal. apply filter_all, Forall_forall.
    intros k Hk%elem_of_positions. lia.
  - assert (len ws = 0) as Hws by lia. destruct ws; [|rewrite len_cons in Hws; pose proof (len_nonneg ws); lia].
    cbn [onesLoop]. replace (if bool_decide _ then [] else []) with (@nil Z) by (by case_match).
    rewrite app_nil_r. pose proof (Hpos (bn b - wi * 64) ltac:(lia)) as E.
    replace (64 * wi + (bn b - wi * 64)) with (bn b) in E by lia.
    rewrite <- E. f_equal. symmetry. apply positions_cut. lia.
Qed.

Lemma Ones_ok b : wf_bits b → Ones b = positions (bitAt b) 0 (bn b).
Proof.
  intros [Hn Hl Hw]. unfold Ones. rewrite (onesLoop_ok b 0 (words b)); [done|done|lia|by rewrite drop_0|dlia..].
Qed.

(** ** The packed layout *)

Definition packedBit (packed : list byte) (i : Z) : bool :=
  match packed !! Z.to_nat (i / 8) with
  | Some x => Z.testbit (byte.unsigned x) (i `mod` 8)
  | None => false
  end.

Lemma packedBit_idx packed i : 0 ≤ i → i / 8 < len packed →
  ∃ x, idx packed (i / 8) = Ok x ∧ packed !! Z.to_nat (i / 8) = Some x ∧
    bool_decide (Z.land (byte.unsigned x) (Z.shiftl 1 (i `mod` 8)) ≠ 0) = packedBit packed i.
Proof.
  intros Hi Hl. destruct (idx_ok packed (i / 8)) as (x & -> & Hx); [dlia|]. exists x.
  split_and!; [done..|]. unfold packedBit. rewrite Hx. apply land_shiftl1. by apply Z.mod_pos_bound.
Qed.

Lemma FromPackedLSB_ok packed n : 0 ≤ n < 9223372036854775745 → (n + 7) / 8 ≤ len packed →
  ∃ b, FromPackedLSB packed n = Ok b ∧ wf_bits b ∧ bn b = n ∧
    ∀ i, 0 ≤ i → bitAt b i = if decide (i < n) then packedBit packed i else false.
Proof.
  intros Hn Hl. unfold FromPackedLSB. destruct (New_ok n Hn) as (b0 & -> & Hb0 & En & Hz).
  cbn [mbind res_bind].
  pose (P := λ (k : Z) b, wf_bits b ∧ bn b = n ∧
    ∀ i, 0 ≤ i → bitAt b i = if decide (i < k) then packedBit packed i else false).
  apply (foldM_zseq P); unfold P; [lia| |].
  - split_and!; [done..|]. intros i Hi. by rewrite Hz, decide_False by lia.
  - intros i b Hi (Hb & Ebn & Hbit).
    destruct (packedBit_idx packed i) as (x & -> & _ & Ex); [lia|dlia|].
    cbn [mbind res_bind]. rewrite Ex.
    destruct (packedBit packed i) eqn:E.
    + destruct (Set_bitAt b i true Hb) as (b' & -> & Hb' & Ebn' & Hbit'); [lia|].
      exists b'. split_and!; [done|done|congruence|]. intros j Hj. rewrite Hbit' by done.
      destruct (decide (j = i)); [subst; by rewrite decide_True by lia|]. rewrite Hbit by done.
      repeat case_decide; lia || done.
    + exists b. split_and!; [done..|]. intros j Hj. rewrite Hbit by done.
      repeat case_decide; try lia; try done. by assert (j = i) as -> by lia.
Qed.

Lemma of_Z_lor_bit x k j : 0 ≤ k < 8 → 0 ≤ j < 8 →
  Z.testbit (byte.unsigned (byte.of_Z (Z.lor (byte.unsigned x) (Z.shiftl 1 k)))) j =
    (bool_decide (j = k) || Z.testbit (byte.unsigned x) j)%bool.
Proof.
  intros Hk Hj. rewrite byte.unsigned_of_Z. unfold byte.wrap.
  rewrite Z.mod_pow2_bits_low, Z.lor_spec, testbit_shiftl1 by lia. apply orb_comm.
Qed.

Lemma ToPackedLSB_ok b : wf_bits b →
  ∃ out, ToPackedLSB b = Ok out ∧ len out = (bn b + 7) / 8 ∧
    ∀ i, 0 ≤ i → packedBit out i = if decide (i < bn b) then bitAt b i else false.
Proof.
  intros Hb. pose proof Hb as [Hn Hl Hw]. unfold ToPackedLSB.
  pose (P := λ (k : Z) out, len out = (bn b + 7) / 8 ∧
    ∀ i, 0 ≤ i → packedBit out i = if decide (i < k) then bitAt b i else false).
  apply (foldM_zseq P); unfold P; [lia| |].
  - split; [rewrite len_replicate; dlia|]. intros i Hi. rewrite decide_False by lia.
    unfold packedBit. destruct (replicate _ _ !! _) as [x|] eqn:E; [|done].
    apply lookup_replicate in E as [-> _]. apply Z.bits_0.
  - intros i out Hi (Hlen & Hbit). rewrite Get_bitAt, decide_True by (done || lia).
    cbn [mbind res_bind]. destruct (bitAt b i) eqn:E.
    + destruct (packedBit_idx out i) as (x & -> & Hx & _); [lia|dlia|]. cbn [mbind res_bind].
      unfold upd. rewrite decide_True by dlia. eexists. split; [done|].
      split; [by rewrite len_insert|]. intros j Hj.
      pose proof (Z.mod_pos_bound i 8 ltac:(lia)). pose proof (Z.mod_pos_bound j 8 ltac:(lia)).
      specialize (Hbit j Hj). unfold packedBit in *. destruct (decide (i / 8 = j / 8)) as [Eq|Ne].
      * rewrite <- Eq, list_lookup_insert_eq by (by eapply lookup_lt_Some).
        rewrite <- Eq, Hx in Hbit. rewrite of_Z_lor_bit, Hbit by lia.
        case_bool_decide; [assert (j = i) as -> by dlia; simpl; by rewrite decide_True by lia|].
        repeat case_decide; try done; dlia.
      * rewrite list_lookup_insert_ne by dlia. rewrite Hbit.
        repeat case_decide; try done; dlia.
    + exists out. split; [done|]. split; [done|]. intros j Hj. rewrite Hbit by done.
      repeat case_decide; try lia; try done. by assert (j = i) as -> by lia.
Qed.

(** Equal length and equal bits make equal byte strings. *)
Lemma packed_ext p q : len p = len q → (∀ i, 0 ≤ i < 8 * len p → packedBit p i = packedBit q i) → p = q.
Proof.
  intros Hl H. apply list_eq_same_length with (n := length p); [unfold len in Hl; lia|done|].
  intros k x y Hk Hx Hy. apply byte.unsigned_inj. apply Z.bits_inj'. intros j Hj.
  destruct (decide (j < 8)).
  - specialize (H (8 * Z.of_nat k + j) ltac:(unfold len; lia)). unfold packedBit in H.
    replace ((8 * Z.of_nat k + j) / 8) with (Z.of_nat k) in H by dlia.
    replace ((8 * Z.of_nat k + j) `mod` 8) with j in H by dlia.
    by rewrite Nat2Z.id, Hx, Hy in H.
  - rewrite !(testbit_high _ 8 j); [done|..]; pose proof (byte.unsigned_range x); pose proof (byte.unsigned_range y); lia.
Qed.

(** ** Properties *)

(** A bit vector refines an array of booleans: after a [Set] inside the
    vector, [Get] answers the new value at that index, and at every other index
    (also out of range, where it is false) what it answered before. *)
Theorem Bits_set_get (b : Bits) (i : Z) (v : bool) : wf_bits b → 0 ≤ i < bn b →
  ∃ b', Set_ b i v = Ok b' ∧ wf_bits b' ∧ Len b' = Len b ∧
    ∀ j, Get b' j = if decide (j = i) then Ok v else Get b j.
Proof.
  intros Hb Hi. destruct (Set_bitAt b i v Hb Hi) as (b' & E & Hb' & En & Hbit).
  exists b'. split_and!; [done..|]. intros j. rewrite !Get_bitAt, En by done.
  destruct (decide (j = i)) as [->|]; [rewrite decide_True by done|case_decide; [|done]];
    rewrite Hbit by lia; by case_decide.
Qed.

Definition demoBits : Bits := mkBits [9223372036854775809; 3] 66.
Lemma demoBits_wf : wf_bits demoBits.
Proof. split; [done|done|by repeat constructor]. Qed.

Lemma Bits_set_get_witness :
  ∃ b', Set_ demoBits 63 false = Ok b' ∧ wf_bits b' ∧ Len b' = Len demoBits ∧
    ∀ j, Get b' j = if decide (j = 63) then Ok false else Get demoBits j.
Proof. apply (Bits_set_get demoBits 63 false demoBits_wf). done. Defined.

(** [CountRange] is exact on every argument pair: the masked population
    counts over up to three kinds of words add up to the number of set
    positions of the range clamped to the vector. *)
Theorem CountRange_exact (b : Bits) (lo hi : Z) : wf_bits b →
  CountRange b lo hi = Ok (len (filter (λ i, bitAt b i = true)
    (seqZ (Z.max lo 0) (Z.min hi (bn b) - Z.max lo 0)))).
Proof. apply CountRange_ok. Qed.

Lemma CountRange_exact_witness : CountRange demoBits (-5) 65 = Ok 3.
Proof. rewrite (CountRange_exact demoBits (-5) 65 demoBits_wf). by vm_compute. Defined.

(** [Ones] enumerates exactly the indices where [Get] is true, once each
    and in ascending order, and terminates: 64 rounds of clearing the lowest
    bit exhaust any word. *)
Theorem Ones_enumerates (b : Bits) : wf_bits b →
  Ones b = filter (λ i, Get b i = Ok true) (seqZ 0 (bn b)).
Proof.
  intros Hb. rewrite Ones_ok by done. unfold positions. rewrite Z.sub_0_r.
  assert (Forall (λ i, 0 ≤ i < bn b) (seqZ 0 (bn b))) as HF by (apply Forall_seqZ; lia).
  induction HF as [|i l Hi _ IH]; [done|]. rewrite !filter_cons, IH.
  rewrite Get_bitAt, (decide_True (P := 0 ≤ i < bn b)) by done.
  by destruct (bitAt b i).
Qed.

Lemma Ones_enumerates_witness : Ones demoBits = [0; 63; 64; 65].
Proof. rewrite (Ones_enumerates demoBits demoBits_wf). by vm_compute. Defined.

(** Packing round-trips: a packed boolean column of the right size whose
    padding bits are clear unpacks to a vector of its bits and packs back to
    the same bytes. *)
Theorem packed_roundtrip (packed : list byte) (n : Z) :
  0 ≤ n < 9223372036854775745 → len packed = (n + 7) / 8 →
  (∀ i, n ≤ i → packedBit packed i = false) →
  ∃ b, FromPackedLSB packed n = Ok b ∧ (∀ i, 0 ≤ i < n → Get b i = Ok (packedBit packed i)) ∧
    ToPackedLSB b = Ok packed.
Proof.
  intros Hn Hl Hpad. destruct (FromPackedLSB_ok packed n Hn ltac:(lia)) as (b & E & Hb & En & Hbit).
  exists b. split; [done|]. split.
  - intros i Hi. rewrite Get_bitAt, decide_True by (done || lia). by rewrite Hbit, decide_True by lia.
  - destruct (ToPackedLSB_ok b Hb) as (out & -> & Hlo & Hbo). f_equal. rewrite En in *.
    apply packed_ext; [lia|]. intros i Hi. rewrite Hbo by lia. case_decide.
    + by rewrite Hbit, decide_True by lia.
    + symmetry. apply Hpad. lia.
Qed.

Lemma packed_roundtrip_witness :
  ∃ b, FromPackedLSB [Byte.xa5; Byte.x01] 9 = Ok b ∧
    (∀ i, 0 ≤ i < 9 → Get b i = Ok (packedBit [Byte.xa5; Byte.x01] i)) ∧
    ToPackedLSB b = Ok [Byte.xa5; Byte.x01].
Proof.
  apply (packed_roundtrip [Byte.xa5; Byte.x01] 9); [done|done|]. intros i Hi. unfold packedBit.
  destruct (Z.to_nat (i / 8)) as [|[|k]] eqn:E; [exfalso; dlia| |done]. simpl.
  rewrite Z.testbit_odd. change (byte.unsigned Byte.x01) with 1.
  rewrite Z.shiftr_div_pow2, Z.div_small; [done|..]; pose proof (Z.mod_pos_bound i 8); [|lia].
  assert (0 < i `mod` 8) by dlia. pose proof (Z.pow_gt_lin_r 2 (i `mod` 8)). lia.
Defined.
