(* ===== verification/Value.v ===== *)
(** Property values and the small shared types: [src/value.go], [src/types.go].

    A [Value] is a kind and a 64-bit payload, comparable with [==]. The
    theorem: the constructors are injective tagged unions, every accessor gives
    back what its constructor stored, and refuses the other kinds. *)

From S2P Require Import Prelude.

Inductive ValueKind := KindStr | KindI64 | KindF64 | KindBool.
#[export] Instance ValueKind_eq_dec : EqDecision ValueKind.
Proof. solve_decision. Defined.

Record Value := mkValue { vkind : ValueKind; vbits : Z }.
#[export] Instance Value_eq_dec : EqDecision Value.
Proof. solve_decision. Defined.

(** [Value{}]. *)
Definition Value0 : Value := mkValue KindStr 0.

Definition StrValue (atom : Z) : Value := mkValue KindStr (to_u64 atom).
Definition I64Value (v : Z) : Value := mkValue KindI64 (to_u64 v).
(** A float is its bit pattern. *)
Definition F64Value (v : Z) : Value := mkValue KindF64 v.
Definition BoolValue (v : bool) : Value := mkValue KindBool (if v then 1 else 0).

Definition Kind (v : Value) : ValueKind := vkind v.
Definition StrID (v : Value) : Z * bool := (to_u32 (vbits v), bool_decide (vkind v = KindStr)).
Definition I64 (v : Value) : Z * bool := (to_i64 (vbits v), bool_decide (vkind v = KindI64)).
Definition F64 (v : Value) : Z * bool := (vbits v, bool_decide (vkind v = KindF64)).
Definition Bool (v : Value) : bool * bool := (bool_decide (vbits v ≠ 0), bool_decide (vkind v = KindBool)).

Inductive Direction := Outgoing | Incoming | Both.
#[export] Instance Direction_eq_dec : EqDecision Direction.
Proof. solve_decision. Defined.
Definition Reverse (d : Direction) : Direction :=
  match d with Outgoing => Incoming | Incoming => Outgoing | Both => Both end.
Definition Direction_String (d : Direction) : string :=
  match d with Outgoing => "outgoing" | Incoming => "incoming" | Both => "both" end.

Lemma I64_I64Value v : is_i64 v → I64 (I64Value v) = (v, true).
Proof. intros Hv. unfold I64, I64Value. simpl. by rewrite to_i64_to_u64. Qed.

Lemma StrID_StrValue a : is_u32 a → StrID (StrValue a) = (a, true).
Proof. intros Ha. unfold StrID, StrValue. simpl. by rewrite (wrapU_small 64), (wrapU_small 32) by lia. Qed.

Lemma Bool_BoolValue b : Bool (BoolValue b) = (b, true).
Proof. by destruct b. Qed.

(** ** Properties *)

(** Values are a faithful tagged union: each accessor returns exactly what
    its constructor stored, with [ok], and values of different kinds or
    different payloads are different, so [==] on values is equality of kind and
    content. *)
Theorem Value_tagged_union (i j a c : Z) (b b' : bool) : is_i64 i → is_i64 j → is_u32 a → is_u32 c →
  I64 (I64Value i) = (i, true) ∧ StrID (StrValue a) = (a, true) ∧ Bool (BoolValue b) = (b, true) ∧
  (I64Value i = I64Value j ↔ i = j) ∧ (StrValue a = StrValue c ↔ a = c) ∧
  (BoolValue b = BoolValue b' ↔ b = b') ∧
  I64Value i ≠ StrValue a ∧ I64Value i ≠ BoolValue b ∧ StrValue a ≠ BoolValue b ∧
  (I64 (StrValue a)).2 = false ∧ (StrID (I64Value i)).2 = false ∧ (Bool (I64Value i)).2 = false.
Proof.
  intros Hi Hj Ha Hc. pose proof (I64_I64Value i Hi) as Ei. pose proof (I64_I64Value j Hj) as Ej.
  pose proof (StrID_StrValue a Ha) as Ea. pose proof (StrID_StrValue c Hc) as Ec.
  split_and!; try done; try apply Bool_BoolValue.
  - split; [|congruence]. intros E. rewrite E in Ei. congruence.
  - split; [|congruence]. intros E. rewrite E in Ea. congruence.
  - destruct b, b'; naive_solver.
Qed.

Lemma Value_tagged_union_witness :
  I64 (I64Value (-7)) = (-7, true) ∧ I64Value (-7) ≠ StrValue 18.
Proof.
  destruct (Value_tagged_union (-7) 3 18 4 true false) as (? & _ & _ & _ & _ & _ & ? & _); [lia..|].
  by split.
Defined.
