(* ===== verification/AtomTable.v ===== *)
(** The interned-string table: [src/atoms.go].

    [Atoms] is the frozen table of a snapshot, with a reverse index that is a
    sorted permutation built on first use; [Interner] is its build-side
    counterpart, shared between goroutines under a read-write lock. The
    theorems: [ID] finds the smallest id of a string and only that; the seeded
    interner answers like the table it came from; and under every interleaving
    of [GetOrIntern] calls equal strings get equal ids, different strings
    different ids, and every id resolves to its string. *)

From S2P Require Import Prelude.

(** ** Go's string order *)

Fixpoint strLe (a b : gostring) : bool :=
  match a, b with
  | [], _ => true
  | _ :: _, [] => false
  | x :: a, y :: b =>
      if decide (byte.unsigned x < byte.unsigned y) then true
      else if decide (byte.unsigned y < byte.unsigned x) then false
      else strLe a b
  end.

Lemma strLe_refl a : strLe a a = true.
Proof. induction a as [|x a IH]; [done|]. simpl. rewrite !decide_False by lia. done. Qed.

Lemma strLe_total a b : strLe a b = true ∨ strLe b a = true.
Proof.
  revert b. induction a as [|x a IH]; intros [|y b]; simpl; auto.
  repeat case_decide; auto; lia.
Qed.

Lemma strLe_trans a b c : strLe a b = true → strLe b c = true → strLe a c = true.
Proof.
  revert b c. induction a as [|x a IH]; intros [|y b] [|z c]; simpl; auto; [done..|].
  repeat case_decide; try done; try lia. apply IH.
Qed.

Lemma strLe_antisym a b : strLe a b = true → strLe b a = true → a = b.
Proof.
  revert b. induction a as [|x a IH]; intros [|y b]; simpl; [done..|].
  repeat case_decide; try done; try lia. intros H1 H2. f_equal; [|auto].
  apply byte.unsigned_inj. lia.
Qed.

(** ** The frozen table *)

(** [sorted] is [None] until the first reverse lookup ([sync.Once]). *)
Record Atoms := mkAtoms { strings : list gostring; sorted : option (list Z) }.

Definition NewAtoms (strings : list gostring) : Atoms := mkAtoms strings None.

(** The comparison of [sort.Slice], as a non-strict order on ids: by string,
    then by id. *)
Definition atomLe (strs : list gostring) (i j : Z) : Prop :=
  let x := strs !!! Z.to_nat i in
  let y := strs !!! Z.to_nat j in
  if decide (x ≠ y) then strLe x y = true else i ≤ j.

#[export] Instance atomLe_dec strs : RelDecision (atomLe strs).
Proof. intros i j. unfold atomLe. case_decide; apply _. Defined.

Definition sortedIndex (a : Atoms) : list Z * Atoms :=
  match sorted a with
  | Some l => (l, a)
  | None =>
      let l := merge_sort (atomLe (strings a)) (to_u32 <$> zseq (len (strings a))) in
      (l, mkAtoms (strings a) (Some l))
  end.

Definition Len (a : Atoms) : Z := len (strings a).

Definition Resolve (a : Atoms) (id : Z) : res (gostring * bool) :=
  if decide (len (strings a) ≤ id) then Ok ([], false)
  else s ← idx (strings a) id; Ok (s, true).

(** [a.strings[sorted[i]]]. *)
Definition atSorted (a : Atoms) (sorted : list Z) (i : Z) : res gostring :=
  id ← idx sorted i; idx (strings a) id.

Definition ID (a : Atoms) (s : gostring) : res (Z * bool) * Atoms :=
  let '(sorted, a) := sortedIndex a in
  (i ← bisect (length sorted) (λ i, x ← atSorted a sorted i; Ok (negb (strLe s x))) 0 (len sorted);
   if decide (i < len sorted) then
     x ← atSorted a sorted i;
     if decide (x = s) then id ← idx sorted i; Ok (id, true) else Ok (0, false)
   else Ok (0, false), a).

Definition Strings (a : Atoms) : list gostring := strings a.

(** ** The interner *)

Record Interner := mkInterner { istrings : list gostring; index : gmap gostring Z }.

Definition NewInterner : Interner := mkInterner [[]] {[ [] := 0 ]}.

(** [for id, s := range strings]: the first id of a string is kept. *)
Definition seedStep (m : gmap gostring Z) (p : Z * gostring) : gmap gostring Z :=
  match m !! p.2 with Some _ => m | None => <[p.2 := to_u32 p.1]> m end.

Definition newInternerFromAtoms (a : Atoms) : Interner :=
  let strs := strings a in
  let strs := if decide (len strs = 0) then [[]] else strs in
  mkInterner strs (foldl seedStep ∅ (zip (zseq (len strs)) strs)).

Definition Get (i : Interner) (s : gostring) : Z * bool :=
  match index i !! s with Some id => (id, true) | None => (0, false) end.

(** The section under the write lock: look again, then append. *)
Definition internLocked (i : Interner) (s : gostring) : Z * Interner :=
  match index i !! s with
  | Some id => (id, i)
  | None =>
      let id := to_u32 (len (istrings i)) in
      (id, mkInterner (istrings i ++ [s]) (<[s := id]> (index i)))
  end.

(** A whole call with nobody in between. *)
Definition GetOrIntern (i : Interner) (s : gostring) : Z * Interner :=
  match index i !! s with
  | Some id => (id, i)
  | None => internLocked i s
  end.

Definition Interner_Resolve (i : Interner) (id : Z) : res (gostring * bool) :=
  if decide (len (istrings i) ≤ id) then Ok ([], false)
  else s ← idx (istrings i) id; Ok (s, true).

Definition Interner_Len (i : Interner) : Z := len (istrings i).
Definition Interner_Atoms (i : Interner) : Atoms := NewAtoms (istrings i).

(** ** Concurrent calls

    A goroutine inside [GetOrIntern(s)] is before its read section, between
    the read section that missed and the write section, or done. Each section
    runs under the lock, so it is one step. *)

Inductive pc := Begin | Missed | Done (id : Z).
Record thread := mkThread { t_s : gostring; t_pc : pc }.
Record system := mkSystem { sy_in : Interner; sy_threads : list thread }.

Inductive step : system → system → Prop :=
| step_hit y t s id : sy_threads y !! t = Some (mkThread s Begin) → index (sy_in y) !! s = Some id →
    step y (mkSystem (sy_in y) (<[t := mkThread s (Done id)]> (sy_threads y)))
| step_miss y t s : sy_threads y !! t = Some (mkThread s Begin) → index (sy_in y) !! s = None →
    step y (mkSystem (sy_in y) (<[t := mkThread s Missed]> (sy_threads y)))
| step_write y t s id i' : sy_threads y !! t = Some (mkThread s Missed) →
    internLocked (sy_in y) s = (id, i') →
    step y (mkSystem i' (<[t := mkThread s (Done id)]> (sy_threads y))).

(** ** The reverse index *)

Section sortedness.
Context (strs : list gostring).
Implicit Types i j : Z.

#[local] Instance atomLe_total : Total (atomLe strs).
Proof.
  intros i j. unfold atomLe. destruct (decide (strs !!! Z.to_nat i = strs !!! Z.to_nat j)) as [E|N].
  - rewrite !decide_False by (rewrite E; tauto). lia.
  - rewrite !decide_True by congruence. apply strLe_total.
Qed.

#[local] Instance atomLe_trans : Transitive (atomLe strs).
Proof.
  intros i j k. unfold atomLe. set (x := strs !!! Z.to_nat i). set (y := strs !!! Z.to_nat j).
  set (z := strs !!! Z.to_nat k). clearbody x y z.
  destruct (decide (x ≠ y)) as [Nxy|Exy], (decide (y ≠ z)) as [Nyz|Eyz]; intros H1 H2.
  - case_decide as D; [by eapply strLe_trans|]. exfalso. apply Nxy.
    destruct (decide (x = z)); [subst; by apply strLe_antisym|tauto].
  - destruct (decide (y = z)); [|tauto]. subst. by rewrite decide_True.
  - destruct (decide (x = y)); [|tauto]. subst. by rewrite decide_True.
  - destruct (decide (y = z)); [|tauto]. destruct (decide (x = y)); [|tauto]. subst.
    rewrite decide_False by tauto. lia.
Qed.

Definition perm : list Z := merge_sort (atomLe strs) (to_u32 <$> zseq (len strs)).

Lemma perm_Permutation : len strs ≤ 4294967296 → perm ≡ₚ zseq (len strs).
Proof.
  intros Hl. unfold perm. rewrite merge_sort_Permutation.
  assert (to_u32 <$> zseq (len strs) = zseq (len strs)) as ->; [|done].
  rewrite <- (list_fmap_id (zseq (len strs))) at 2. apply list_fmap_ext. intros k i Hk.
  apply list_elem_of_lookup_2, elem_of_zseq in Hk. simpl. apply (wrapU_small 32). lia.
Qed.

Lemma perm_sorted : StronglySorted (atomLe strs) perm.
Proof. apply StronglySorted_merge_sort; apply _. Qed.

(** The order of the permutation, position by position. *)
Lemma perm_lookup k1 k2 i j : (k1 < k2)%nat → perm !! k1 = Some i → perm !! k2 = Some j → atomLe strs i j.
Proof.
  pose proof perm_sorted as Hs. revert k1 k2. induction Hs as [|x l Hs IH Hx]; intros k1 k2 Hk H1 H2; [done|].
  destruct k1 as [|k1], k2 as [|k2]; simplify_eq/=; [lia| |lia|by eapply IH; [|done..]; lia].
  exact (Forall_lookup_1 _ _ _ _ Hx H2).
Qed.

End sortedness.

(** What [ID] should answer: the smallest id of the string, if it has one. *)
Definition smallestID (strs : list gostring) (s : gostring) (i : Z) : Prop :=
  0 ≤ i ∧ strs !! Z.to_nat i = Some s ∧ ∀ j, 0 ≤ j → strs !! Z.to_nat j = Some s → i ≤ j.

Section lookup.
Context (strs : list gostring) (s : gostring) (Hl : len strs ≤ 4294967296).
Context (a : Atoms) (Ea : strings a = strs).

Abbreviation permuted := (perm strs).

Lemma perm_at k : 0 ≤ k < len strs → ∃ i x, permuted !! Z.to_nat k = Some i ∧ 0 ≤ i < len strs ∧
  strs !! Z.to_nat i = Some x ∧ strs !!! Z.to_nat i = x ∧ atSorted a permuted k = Ok x.
Proof using Hl Ea.
  intros Hk. assert (length permuted = length strs) as L.
  { rewrite perm_Permutation by done. unfold zseq. by rewrite length_fmap, length_seq, to_nat_len. }
  destruct (idx_ok permuted k) as (i & Ei & Hi); [unfold len in *; lia|].
  assert (i ∈ zseq (len strs)) as Hin.
  { rewrite <- perm_Permutation by done. by eapply list_elem_of_lookup_2. }
  apply elem_of_zseq in Hin. destruct (idx_ok strs i Hin) as (x & Ex & Hx).
  exists i, x. split_and!; [done|lia|lia|done|by apply list_lookup_total_correct|].
  unfold atSorted. by rewrite Ei, Ea.
Qed.

Lemma perm_of j x : 0 ≤ j → strs !! Z.to_nat j = Some x → ∃ k, 0 ≤ k < len strs ∧ permuted !! Z.to_nat k = Some j.
Proof using Hl.
  clear Ea a. intros Hj Hx. pose proof (lookup_lt_Some _ _ _ Hx).
  assert (j ∈ permuted) as Hin.
  { rewrite perm_Permutation by done. apply elem_of_zseq. unfold len. lia. }
  apply list_elem_of_lookup in Hin as [k Hk]. exists (Z.of_nat k). rewrite Nat2Z.id. split; [|done].
  apply lookup_lt_Some in Hk.
  assert (length permuted = length strs) as L.
  { rewrite perm_Permutation by done. unfold zseq. by rewrite length_fmap, length_seq, to_nat_len. }
  unfold len. lia.
Qed.

(** The strings at the permutation's positions ascend. *)
Lemma perm_ascends k1 k2 i j x y : 0 ≤ k1 ≤ k2 → permuted !! Z.to_nat k1 = Some i →
  permuted !! Z.to_nat k2 = Some j → strs !!! Z.to_nat i = x → strs !!! Z.to_nat j = y →
  strLe x y = true ∧ (x = y → i ≤ j).
Proof.
  clear Ea a Hl. intros Hk Hi Hj Hx Hy. destruct (decide (k1 = k2)) as [->|].
  { assert (i = j) as -> by congruence. assert (x = y) as -> by congruence.
    split; [apply strLe_refl|lia]. }
  pose proof (perm_lookup strs (Z.to_nat k1) (Z.to_nat k2) i j ltac:(lia) Hi Hj) as H.
  unfold atomLe in H. rewrite Hx, Hy in H. case_decide as D; [tauto|].
  destruct (decide (x = y)) as [->|]; [|tauto]. split; [apply strLe_refl|done].
Qed.

Lemma search_ok : ∃ o, (i ← bisect (length permuted) (λ i, x ← atSorted a permuted i; Ok (negb (strLe s x)))
                         0 (len permuted);
   if decide (i < len permuted) then
     x ← atSorted a permuted i;
     if decide (x = s) then id ← idx permuted i; Ok (id, true) else Ok (0, false)
   else Ok (0, false)) = Ok o ∧
  ((o.2 = true ∧ smallestID strs s o.1) ∨ (o = (0, false) ∧ s ∉ strs)).
Proof using Hl Ea.
  assert (len permuted = len strs) as L.
  { unfold len. rewrite perm_Permutation by done. unfold zseq. rewrite length_fmap, length_seq, to_nat_len. done. }
  set (right := λ k, negb (strLe s (strs !!! Z.to_nat (permuted !!! Z.to_nat k)))).
  assert (∀ k, 0 ≤ k < len strs → (x ← atSorted a permuted k; Ok (negb (strLe s x))) = Ok (right k)) as Hright.
  { intros k Hk. destruct (perm_at k Hk) as (i & x & Hi & _ & _ & Ex & ->). cbn [mbind res_bind].
    unfold right. by rewrite (list_lookup_total_correct _ _ _ Hi), Ex. }
  destruct (partition_point right (len strs)) as (p & Hp & Hpart); [apply len_nonneg|..].
  { intros k1 k2 Hk Hn H2. unfold right in *. rewrite negb_true_iff in *.
    destruct (perm_at k1 ltac:(lia)) as (i1 & x1 & E1 & _ & _ & Ex1 & _).
    destruct (perm_at k2 ltac:(lia)) as (i2 & x2 & E2 & _ & _ & Ex2 & _).
    rewrite (list_lookup_total_correct _ _ _ E2), Ex2 in H2.
    rewrite (list_lookup_total_correct _ _ _ E1), Ex1.
    destruct (perm_ascends _ _ _ _ _ _ Hk E1 E2 Ex1 Ex2) as [Hle _].
    destruct (strLe s x1) eqn:E; [|done]. by rewrite (strLe_trans _ _ _ E Hle) in H2. }
  rewrite L, (bisect_ok _ _ 0 p); [|lia|unfold len in *; lia|intros i Hi; rewrite Hright, Hpart by lia; done].
  cbn [mbind res_bind].
  (* an occurrence of [s] sits at or after [p] *)
  assert (∀ j, 0 ≤ j → strs !! Z.to_nat j = Some s → ∃ k, p ≤ k < len strs ∧ permuted !! Z.to_nat k = Some j) as Hocc.
  { intros j Hj Hs. destruct (perm_of j s Hj Hs) as (k & Hk & Ek). exists k. split; [|done].
    specialize (Hpart k Hk). unfold right in Hpart.
    rewrite (list_lookup_total_correct _ _ _ Ek), (list_lookup_total_correct _ _ _ Hs), strLe_refl in Hpart.
    simpl in Hpart. symmetry in Hpart. apply bool_decide_eq_false in Hpart. lia. }
  assert (s ∈ strs → ∃ j, 0 ≤ j ∧ strs !! Z.to_nat j = Some s) as Hin.
  { intros [j Hj]%list_elem_of_lookup. exists (Z.of_nat j). rewrite Nat2Z.id. split; [lia|done]. }
  case_decide as D; cycle 1.
  { exists (0, false). split; [done|]. right. split; [done|]. intros (j & Hj & Hs)%Hin.
    destruct (Hocc j Hj Hs) as (k & Hk & _). lia. }
  destruct (perm_at p ltac:(lia)) as (i & x & Ei & Hi & Hx & Ex & ->). cbn [mbind res_bind].
  assert (strLe s x = true) as Hsx.
  { specialize (Hpart p ltac:(lia)). unfold right in Hpart.
    rewrite bool_decide_eq_false_2, negb_false_iff, (list_lookup_total_correct _ _ _ Ei), Ex in Hpart by lia. done. }
  case_decide as Dx.
  - rewrite Dx in Hx, Ex. rewrite (idx_lookup _ _ i) by (done || lia). cbn [mbind res_bind].
    exists (i, true). split; [done|]. left. split; [done|]. split_and!; simpl; [lia|done|].
    intros j Hj Hs. destruct (Hocc j Hj Hs) as (k & Hk & Ek).
    destruct (perm_ascends p k i j s s ltac:(lia) Ei Ek) as [_ H]; [done|by apply list_lookup_total_correct|auto].
  - exists (0, false). split; [done|]. right. split; [done|]. intros (j & Hj & Hs)%Hin.
    destruct (Hocc j Hj Hs) as (k & Hk & Ek).
    destruct (perm_ascends p k i j x s ltac:(lia) Ei Ek Ex) as [Hle _]; [by apply list_lookup_total_correct|].
    apply Dx. by apply strLe_antisym.
Qed.

End lookup.

(** A table whose reverse index, if built, is the permutation. *)
Definition wf_atomTable (a : Atoms) : Prop :=
  len (strings a) ≤ 4294967296 ∧ ∀ l, sorted a = Some l → l = perm (strings a).

Lemma ID_ok a s : wf_atomTable a → ∃ o a', ID a s = (Ok o, a') ∧ wf_atomTable a' ∧ strings a' = strings a ∧
  ((o.2 = true ∧ smallestID (strings a) s o.1) ∨ (o = (0, false) ∧ s ∉ strings a)).
Proof.
  intros [Hl Hs]. unfold ID, sortedIndex. destruct (sorted a) as [l|] eqn:E.
  - rewrite (Hs l eq_refl). destruct (search_ok (strings a) s Hl a eq_refl) as (o & Eo & Ho).
    rewrite Eo. exists o, a. split_and!; [done| |done..]. split; [done|]. rewrite E. apply Hs.
  - change (merge_sort _ _) with (perm (strings a)).
    destruct (search_ok (strings a) s Hl (mkAtoms (strings a) (Some (perm (strings a)))) eq_refl) as (o & Eo & Ho).
    rewrite Eo. eexists o, _. split_and!; [done..| | done|done]. split; simpl; [done|]. by intros l [= <-].
Qed.

(** ** The interner's invariant *)

Record wf_interner (i : Interner) : Prop := {
  wn_sound : ∀ s id, index i !! s = Some id → smallestID (istrings i) s id;
  wn_complete : ∀ s, s ∈ istrings i → is_Some (index i !! s);
}.

Lemma NewInterner_wf : wf_interner NewInterner.
Proof.
  split.
  - intros s id. unfold NewInterner. simpl. rewrite lookup_singleton_Some. intros [<- <-].
    split_and!; [done..|lia].
  - intros s Hs. simpl in *. apply list_elem_of_singleton in Hs as ->. rewrite lookup_singleton_eq. eauto.
Qed.

Lemma internLocked_wf i s : wf_interner i → len (istrings i) < 4294967296 →
  let '(id, i') := internLocked i s in
  wf_interner i' ∧ istrings i `prefix_of` istrings i' ∧ index i' !! s = Some id ∧
  (∀ s' id', index i !! s' = Some id' → index i' !! s' = Some id').
Proof.
  intros [So Co] Hl. unfold internLocked. destruct (index i !! s) as [id|] eqn:E.
  { by split_and!; [split|..]. }
  assert (s ∉ istrings i) as Hnew. { intros Hin%Co. rewrite E in Hin. by destruct Hin. }
  rewrite (wrapU_small 32) by (pose proof (len_nonneg (istrings i)); lia). split_and!.
  - split; simpl.
    + intros s' id. rewrite lookup_insert. case_decide as D.
      * intros [= <-]. subst s'. split_and!; [apply len_nonneg| |].
        -- rewrite to_nat_len. by rewrite lookup_app_r, Nat.sub_diag by lia.
        -- intros j Hj [Hs|[Hs _]]%lookup_app_Some.
           ++ by apply list_elem_of_lookup_2 in Hs.
           ++ unfold len. lia.
      * intros (H0 & Hs & Hmin)%So. split_and!; [done|by apply lookup_app_l_Some|].
        intros j Hj [Hs'|[_ Hs']]%lookup_app_Some; [auto|].
        apply list_lookup_singleton_Some in Hs' as [_ ->]. done.
    + intros s' [Hs| ->%list_elem_of_singleton]%elem_of_app; rewrite lookup_insert; case_decide; eauto.
      done.
  - by exists [s].
  - simpl. by rewrite lookup_insert_eq.
  - intros s' id' Hs'. simpl. rewrite lookup_insert_ne; [done|]. intros ->. congruence.
Qed.

(** Seeding keeps the first id of every string. *)
Lemma seed_ok (strs : list gostring) k (pre : list gostring) m : len (pre ++ strs) ≤ 4294967296 →
  Z.of_nat (length pre) = Z.of_nat k →
  (∀ s id, m !! s = Some id → smallestID pre s id) → (∀ s, s ∈ pre → is_Some (m !! s)) →
  let m' := foldl seedStep m (zip (Z.of_nat <$> seq k (length strs)) strs) in
  (∀ s id, m' !! s = Some id → smallestID (pre ++ strs) s id) ∧ (∀ s, s ∈ pre ++ strs → is_Some (m' !! s)).
Proof.
  revert k pre m. induction strs as [|x strs IH]; intros k pre m Hl Hk So Co; simpl.
  { by rewrite app_nil_r. }
  rewrite (cons_middle x pre strs), (assoc_L (++)) in *. apply IH; [done|rewrite length_app; simpl; lia|..].
  - intros s id. unfold seedStep. simpl. destruct (m !! x) as [i|] eqn:E.
    + intros (H0 & Hs & Hmin)%So. split_and!; [done|by apply lookup_app_l_Some|].
      intros j Hj [Hs'|[Hge Hs']]%lookup_app_Some; [auto|].
      apply lookup_lt_Some in Hs. lia.
    + rewrite lookup_insert. case_decide as D.
      * intros [= <-]. subst s. rewrite !len_app in Hl. pose proof (len_nonneg strs).
        change (len [x]) with 1 in Hl. rewrite (wrapU_small 32) by (unfold len in Hl; lia).
        split_and!; [lia| |].
        -- rewrite Nat2Z.id, lookup_app_r by lia. by replace (k - length pre)%nat with 0%nat by lia.
        -- intros j Hj [Hs|[Hs _]]%lookup_app_Some; [|lia].
           apply list_elem_of_lookup_2, Co in Hs. rewrite E in Hs. by destruct Hs.
      * intros (H0 & Hs & Hmin)%So. split_and!; [done|by apply lookup_app_l_Some|].
        intros j Hj [Hs'|[Hge Hs']]%lookup_app_Some; [auto|]. apply lookup_lt_Some in Hs. lia.
  - intros s [Hs| ->%list_elem_of_singleton]%elem_of_app; unfold seedStep; simpl;
      destruct (m !! x) eqn:E; rewrite ?lookup_insert; try case_decide; eauto. done.
Qed.

Lemma newInternerFromAtoms_wf a : len (strings a) ≤ 4294967296 → wf_interner (newInternerFromAtoms a).
Proof.
  intros Hl. unfold newInternerFromAtoms. set (strs := if decide (len (strings a) = 0) then [[]] else strings a).
  assert (len strs ≤ 4294967296) as Hs by (unfold strs; case_decide; done).
  destruct (seed_ok strs 0 [] ∅) as [So Co]; [done..| | |].
  { intros s id. by rewrite lookup_empty. }
  { by intros s ?%not_elem_of_nil. }
  split; simpl; unfold zseq; rewrite to_nat_len; auto.
Qed.

(** ** Interleavings *)

Definition threadOK (i : Interner) (t : thread) : Prop :=
  ∀ id, t_pc t = Done id → index i !! t_s t = Some id.

(** The table only grows, the interner stays well formed and what threads were
    told stays true, as long as ids fit 32 bits. *)
Lemma step_grows y y' : step y y' → istrings (sy_in y) `prefix_of` istrings (sy_in y').
Proof.
  intros H. destruct H as [| |y t s id i' _ E]; simpl; [done..|].
  unfold internLocked in E. case_match; injection E as <- <-; simpl; [done|by exists [s]].
Qed.

Lemma step_inv y y' : step y y' → len (istrings (sy_in y')) ≤ 4294967296 →
  wf_interner (sy_in y) → Forall (threadOK (sy_in y)) (sy_threads y) →
  wf_interner (sy_in y') ∧ Forall (threadOK (sy_in y')) (sy_threads y').
Proof.
  intros H Hl Hi HF. destruct H as [y t s id Ht E|y t s Ht E|y t s id i' Ht E]; simpl in *.
  - split; [done|]. apply Forall_insert; [done|]. intros id' [= <-]. done.
  - split; [done|]. apply Forall_insert; [done|]. by intros id'.
  - pose proof (internLocked_wf (sy_in y) s Hi) as W. rewrite E in W.
    assert (len (istrings (sy_in y)) < 4294967296 ∨ index (sy_in y) !! s = Some id ∧ i' = sy_in y) as [Hlt|[E1 ->]].
    { unfold internLocked in E. destruct (index (sy_in y) !! s) eqn:E1; injection E as <- <-; [auto|left].
      simpl in Hl. rewrite len_app in Hl. change (len [s]) with 1 in Hl. lia. }
    + destruct (W Hlt) as (Hi' & _ & Es & Hmono). split; [done|]. apply Forall_insert.
      * eapply Forall_impl; [exact HF|]. intros th Hth id' Hd. auto.
      * intros id' [= <-]. done.
    + split; [done|]. apply Forall_insert; [done|]. intros id' [= <-]. done.
Qed.

Lemma steps_inv y y' : rtc step y y' → len (istrings (sy_in y')) ≤ 4294967296 →
  wf_interner (sy_in y) → Forall (threadOK (sy_in y)) (sy_threads y) →
  wf_interner (sy_in y') ∧ Forall (threadOK (sy_in y')) (sy_threads y') ∧
  istrings (sy_in y) `prefix_of` istrings (sy_in y').
Proof.
  intros H. induction H as [y|y y1 y2 H1 H2 IH]; intros Hl Hi HF; [by split_and!|].
  assert (istrings (sy_in y1) `prefix_of` istrings (sy_in y2)) as Hp.
  { clear -H2. induction H2; [done|]. etrans; [by apply step_grows|done]. }
  assert (len (istrings (sy_in y1)) ≤ 4294967296) as Hl1.
  { apply prefix_length in Hp. unfold len in *. lia. }
  destruct (step_inv _ _ H1 Hl1 Hi HF) as [Hi1 HF1].
  destruct (IH Hl Hi1 HF1) as (? & ? & ?). split_and!; [done..|].
  etrans; [by apply step_grows|done].
Qed.

(** Steps a thread has yet to take. *)
Definition threadWork (t : thread) : nat :=
  match t_pc t with Begin => 2 | Missed => 1 | Done _ => 0 end.
Definition work (ts : list thread) : nat := sum_list (threadWork <$> ts).

Lemma work_cons x ts : work (x :: ts) = (threadWork x + work ts)%nat.
Proof. done. Qed.

Lemma work_insert ts t old new : ts !! t = Some old → (threadWork new < threadWork old)%nat →
  (work (<[t := new]> ts) < work ts)%nat.
Proof.
  revert t. induction ts as [|x ts IH]; intros [|t] Ht Hw; [done..| |].
  - injection Ht as ->. change (<[0%nat := new]> (old :: ts)) with (new :: ts). rewrite !work_cons. lia.
  - specialize (IH t Ht Hw). change (<[S t := new]> (x :: ts)) with (x :: <[t := new]> ts).
    rewrite !work_cons. lia.
Qed.

Lemma step_work y y' : step y y' → (work (sy_threads y') < work (sy_threads y))%nat.
Proof. intros H. destruct H; (eapply work_insert; [done|unfold threadWork; simpl; lia]). Qed.

Lemma step_progress y t th : sy_threads y !! t = Some th → (∃ id, t_pc th = Done id) ∨ ∃ y', step y y'.
Proof.
  intros Ht. destruct th as [s [| |id]]; [right..|by left; exists id].
  - destruct (index (sy_in y) !! s) as [id|] eqn:E; eexists; [by eapply step_hit|by eapply step_miss].
  - destruct (internLocked (sy_in y) s) as [id i'] eqn:E. eexists. by eapply step_write.
Qed.

(** ** Properties *)

(** Reverse lookup finds the smallest id and only that: over any table,
    with or without its lazily built index, [ID] terminates, answers the
    smallest id at which the string occurs, or not-ok exactly when it does not
    occur, and leaves a table that answers later lookups the same way. *)
Theorem Atoms_ID_smallest (a : Atoms) (s : gostring) : wf_atomTable a →
  ∃ id ok a', ID a s = (Ok (id, ok), a') ∧ wf_atomTable a' ∧ Strings a' = Strings a ∧
    (ok = true → smallestID (strings a) s id) ∧ (ok = false → s ∉ strings a).
Proof.
  intros Hw. destruct (ID_ok a s Hw) as ([id ok] & a' & E & Hw' & Es & Ho).
  exists id, ok, a'. split_and!; [done..| |]; intros ->; simpl in Ho; naive_solver.
Qed.

Definition demoStrings : list gostring := [[]; [Byte.x62]; [Byte.x61; Byte.x63]; [Byte.x62]].

Lemma Atoms_ID_smallest_witness :
  ∃ id ok a', ID (NewAtoms demoStrings) [Byte.x62] = (Ok (id, ok), a') ∧ wf_atomTable a' ∧
    Strings a' = demoStrings ∧
    (ok = true → smallestID demoStrings [Byte.x62] id) ∧ (ok = false → [Byte.x62] ∉ demoStrings).
Proof. apply (Atoms_ID_smallest (NewAtoms demoStrings) [Byte.x62]). by split. Defined.

(** Thawing keeps every atom id: an interner seeded from a non-empty table
    answers every lookup as the table does, holds the same strings, and freezes
    back to the same table. *)
Theorem thaw_keeps_atoms (a : Atoms) (s : gostring) : wf_atomTable a → strings a ≠ [] →
  Interner_Atoms (newInternerFromAtoms a) = NewAtoms (strings a) ∧
  ∃ a', ID a s = (Ok (Get (newInternerFromAtoms a) s), a').
Proof.
  intros Hw Hne. assert (istrings (newInternerFromAtoms a) = strings a) as Es.
  { unfold newInternerFromAtoms. simpl. rewrite decide_False; [done|].
    destruct (strings a) as [|x l]; [done|]. rewrite len_cons. pose proof (len_nonneg l). lia. }
  split; [unfold Interner_Atoms; by rewrite Es|].
  destruct (newInternerFromAtoms_wf a (proj1 Hw)) as [So Co]. rewrite Es in So, Co.
  destruct (ID_ok a s Hw) as ([id ok] & a' & E & _ & _ & Ho). exists a'. rewrite E. unfold Get. simpl in Ho.
  destruct (index (newInternerFromAtoms a) !! s) as [id'|] eqn:Ei.
  - destruct (So s id' Ei) as (H0 & Hs & Hmin). destruct Ho as [[-> (H0' & Hs' & Hmin')]|[_ Hn]]; simpl in *.
    + assert (id = id') as -> by (apply Z.le_antisymm; auto). done.
    + destruct Hn. by eapply list_elem_of_lookup_2.
  - destruct Ho as [[_ (_ & Hs' & _)]|[[= -> ->] _]]; [|done]. simpl in *.
    apply list_elem_of_lookup_2, Co in Hs'. rewrite Ei in Hs'. by destruct Hs'.
Qed.

Lemma thaw_keeps_atoms_witness :
  Interner_Atoms (newInternerFromAtoms (NewAtoms demoStrings)) = NewAtoms demoStrings ∧
  ∃ a', ID (NewAtoms demoStrings) [Byte.x62] =
    (Ok (Get (newInternerFromAtoms (NewAtoms demoStrings)) [Byte.x62]), a').
Proof. apply (thaw_keeps_atoms (NewAtoms demoStrings) [Byte.x62]); by repeat split. Defined.

(** C36: Concurrent interning is linearizable in its answers: from a fresh
    interner, under every interleaving of any number of [GetOrIntern] calls
    (double-checked behind the read-write lock), as long as ids fit 32 bits,
    two finished calls got the same id exactly when they asked for the same
    string, and every id given out resolves to the string it was given for. *)
Theorem interning_interleaved (ts : list gostring) (y : system) (t1 t2 : nat) s1 s2 id1 id2 :
  rtc step (mkSystem NewInterner ((λ s, mkThread s Begin) <$> ts)) y →
  len (istrings (sy_in y)) ≤ 4294967296 →
  sy_threads y !! t1 = Some (mkThread s1 (Done id1)) → sy_threads y !! t2 = Some (mkThread s2 (Done id2)) →
  (id1 = id2 ↔ s1 = s2) ∧ Interner_Resolve (sy_in y) id1 = Ok (s1, true).
Proof.
  intros H Hl H1 H2. destruct (steps_inv _ _ H Hl NewInterner_wf) as ([So Co] & HF & _).
  { apply Forall_fmap, Forall_forall. by intros s _ id. }
  pose proof (Forall_lookup_1 _ _ _ _ HF H1 id1 eq_refl) as E1. simpl in E1.
  pose proof (Forall_lookup_1 _ _ _ _ HF H2 id2 eq_refl) as E2. simpl in E2.
  destruct (So _ _ E1) as (H01 & Hs1 & _), (So _ _ E2) as (H02 & Hs2 & _). split; [split; congruence|].
  unfold Interner_Resolve. pose proof (lookup_lt_Some _ _ _ Hs1).
  rewrite decide_False by (unfold len; lia). by rewrite (idx_lookup _ _ s1).
Qed.

Lemma interning_interleaved_witness : ∃ y,
  sy_threads y = [mkThread [Byte.x61] (Done 1); mkThread [Byte.x61] (Done 1)] ∧
  (1 = 1 ↔ [Byte.x61] = [Byte.x61]) ∧ Interner_Resolve (sy_in y) 1 = Ok ([Byte.x61], true).
Proof.
  set (i1 := mkInterner [[]; [Byte.x61]] (<[ [Byte.x61] := 1]> (index NewInterner))).
  set (y := mkSystem i1 [mkThread [Byte.x61] (Done 1); mkThread [Byte.x61] (Done 1)]).
  exists y. split; [done|].
  apply (interning_interleaved [[Byte.x61]; [Byte.x61]] y 0 1); [|done..].
  eapply rtc_l; [by apply (step_miss _ 0 [Byte.x61])|].
  eapply rtc_l; [by apply (step_miss _ 1 [Byte.x61])|].
  eapply rtc_l; [by apply (step_write _ 1 [Byte.x61] 1 i1)|].
  eapply rtc_l; [by apply (step_write _ 0 [Byte.x61] 1 i1)|]. apply rtc_refl.
Defined.

(** Every interleaving finishes: each step brings some call closer to its
    end, and while any call is unfinished some step is possible, so no schedule
    can block or run forever. *)
Theorem interning_terminates (y : system) :
  (∀ y', step y y' → (work (sy_threads y') < work (sy_threads y))%nat) ∧
  ((¬ ∃ y', step y y') ↔ Forall (λ t, ∃ id, t_pc t = Done id) (sy_threads y)).
Proof.
  split; [intros y'; apply step_work|]. split.
  - intros Hn. apply Forall_lookup. intros t th Ht.
    destruct (step_progress y t th Ht) as [|H]; [done|tauto].
  - intros HF [y' H]. destruct H as [y t s id Ht _|y t s Ht _|y t s id i' Ht _];
      destruct (Forall_lookup_1 _ _ _ _ HF Ht) as [? [=]].
Qed.
