(* ===== verification/Narrow.v ===== *)
(** Narrow integer vectors: the value store of [src/column_narrow.go].

    A vector of int64 is stored as a minimum and little-endian deltas of 1, 2,
    4 or 6 bytes. The theorem: whenever narrowing applies, every slot reads
    back the value stored there; the 6-byte class decodes with one padded
    8-byte load. *)

From S2P Require Import Prelude.

Record narrowI64Vec := mkNarrow { nmin : Z; nw : Z; nb : list byte }.

(** [len(v.b) / int(v.w)]. *)
Definition nv_n (v : narrowI64Vec) : res Z :=
  if decide (nw v = 0) then Panic else Ok (len (nb v) / nw v).

Definition narrowU48Mask : Z := 281474976710655.
Definition narrowI64MinLen : Z := 1024.

(** [binary.LittleEndian.UintN(v.b[off:])]. *)
Definition loadLE (w : Z) (b : list byte) (off : Z) : res Z :=
  tail ← slice b off (len b); leUint w tail.

Definition nv_at (v : narrowI64Vec) (i : Z) : res Z :=
  if decide (nw v = 1) then x ← idx (nb v) i; Ok (to_i64 (nmin v + byte.unsigned x))
  else if decide (nw v = 2) then d ← loadLE 2 (nb v) (i * 2); Ok (to_i64 (nmin v + d))
  else if decide (nw v = 4) then d ← loadLE 4 (nb v) (i * 4); Ok (to_i64 (nmin v + d))
  else d ← loadLE 8 (nb v) (i * 6); Ok (to_i64 (nmin v + to_i64 (Z.land d narrowU48Mask))).

(** [mn, mx := vals[0], vals[0]; for _, v := range vals { ... }]. *)
Definition minmax (v0 : Z) (vals : list Z) : Z * Z :=
  foldl (λ '(mn, mx) v, (if decide (v < mn) then v else mn, if decide (mx < v) then v else mx))
    (v0, v0) vals.

(** The switch on the span; [None] is the default arm. *)
Definition widthOf (span : Z) : option Z :=
  if decide (span ≤ 255) then Some 1
  else if decide (span ≤ 65535) then Some 2
  else if decide (span ≤ 4294967295) then Some 4
  else if decide (span ≤ 281474976710655) then Some 6
  else None.

(** The store of one delta. *)
Definition putDelta (w : Z) (b : list byte) (i d : Z) : res (list byte) :=
  if decide (w = 1) then upd b i (byte.of_Z d)
  else if decide (w = 2) then putLE 2 b (i * 2) (to_u16 d)
  else if decide (w = 4) then putLE 4 b (i * 4) (to_u32 d)
  else b ← putLE 4 b (i * 6) (to_u32 d); putLE 2 b (i * 6 + 4) (to_u16 (Z.shiftr d 32)).

(** [ok] is the option. *)
Definition narrowI64Vals (vals : list Z) : res (option narrowI64Vec) :=
  if decide (len vals < narrowI64MinLen) then Ok None
  else
    v0 ← idx vals 0;
    let '(mn, mx) := minmax v0 vals in
    let span := to_u64 (to_i64 (mx - mn)) in
    match widthOf span with
    | None => Ok None
    | Some w =>
        let pad := if decide (w = 6) then 2 else 0 in
        let b := replicate (Z.to_nat (len vals * w + pad)) Byte.x00 in
        b ← foldM (λ b '(i, v), putDelta w b i (to_u64 (to_i64 (v - mn)))) (enum vals) b;
        Ok (Some (mkNarrow mn w b))
    end.

(** ** The extremes *)

Lemma minmax_bounds v0 vals mn mx : minmax v0 vals = (mn, mx) →
  mn ≤ v0 ≤ mx ∧ (mn = v0 ∨ mn ∈ vals) ∧ (mx = v0 ∨ mx ∈ vals) ∧ Forall (λ v, mn ≤ v ≤ mx) vals.
Proof.
  revert mn mx. induction vals as [|v vals IH] using rev_ind; intros mn mx.
  { intros [= <- <-]. split_and!; [lia|lia|by left|by left|constructor]. }
  unfold minmax in *. rewrite foldl_app. simpl. destruct (foldl _ (v0, v0) vals) as [a b].
  destruct (IH a b eq_refl) as (H0 & Ha & Hb & HF).
  intros [= <- <-]. rewrite !elem_of_app, !list_elem_of_singleton, Forall_app, Forall_singleton.
  split_and!; repeat case_decide;
    first [lia|tauto|eapply Forall_impl; [exact HF|]; simpl; intros; lia|naive_solver].
Qed.

(** ** Encoding *)

Lemma widthOf_ok span w : widthOf span = Some w →
  (w = 1 ∨ w = 2 ∨ w = 4 ∨ w = 6) ∧ span < 2 ^ (8 * w).
Proof.
  unfold widthOf. repeat case_decide; intros [= <-]; (split; [tauto|]); simpl; lia.
Qed.

Lemma upd_putLE b i d : upd b i (byte.of_Z d) = putLE 1 b i d.
Proof.
  unfold upd, putLE. case_decide as D; [rewrite decide_True by lia|by rewrite decide_False by lia].
  f_equal. rewrite insert_take_drop by (unfold len in *; lia). f_equal.
  replace (Z.to_nat (i + Z.of_nat 1)) with (S (Z.to_nat i)) by lia. done.
Qed.

Lemma le_split_small w z : le_split w (z `mod` 2 ^ (Z.of_nat w * 8)) = le_split w z.
Proof. symmetry. apply le_split_mod. Qed.

(** Storing a delta in the next free slot. *)
Lemma putDelta_next (w : nat) pre rest i d :
  (w = 1 ∨ w = 2 ∨ w = 4 ∨ w = 6)%nat → len pre = i * Z.of_nat w →
  putDelta (Z.of_nat w) (pre ++ replicate w Byte.x00 ++ rest) i d = Ok (pre ++ le_split w d ++ rest).
Proof.
  intros Hw Hp. unfold putDelta. destruct Hw as [->|[->|[->| ->]]]; simpl.
  - rewrite upd_putLE. replace i with (len pre) by lia.
    by apply (putLE_mid 1 pre [Byte.x00] rest).
  - change (Z.of_nat 2) with 2 in Hp. rewrite <- (le_split_small 2), <- Hp. by apply (putLE_mid 2 pre [Byte.x00; Byte.x00] rest).
  - change (Z.of_nat 4) with 4 in Hp. rewrite <- (le_split_small 4), <- Hp. by apply (putLE_mid 4 pre (replicate 4 Byte.x00) rest).
  - change (Z.of_nat 6) with 6 in Hp. rewrite <- Hp.
    rewrite (putLE_mid 4 pre (replicate 4 Byte.x00) (Byte.x00 :: Byte.x00 :: rest)) by done.
    cbn [mbind res_bind]. rewrite (assoc_L (++)).
    assert (len (pre ++ le_split 4 (to_u32 d)) = len pre + 4) as <-.
    { by rewrite len_app, len_le_split. }
    rewrite (putLE_mid 2 _ [Byte.x00; Byte.x00] rest) by done.
    pose proof (le_split_app 4 2 d) as E6. change (4 + 2)%nat with 6%nat in E6.
    rewrite <- (assoc_L (++)), E6, <- (assoc_L (++)). do 2 f_equal.
    f_equal; [apply le_split_small|]. f_equal. apply (le_split_small 2).
Qed.

(** The loop fills the slots from left to right. *)
Lemma fill_ok (w : nat) (f : Z → Z) (vals : list Z) (pad : nat) :
  (w = 1 ∨ w = 2 ∨ w = 4 ∨ w = 6)%nat →
  foldM (λ b '(i, v), putDelta (Z.of_nat w) b i (f v)) (enum vals)
    (replicate (length vals * w + pad) Byte.x00) =
  Ok (concat (le_split w <$> (f <$> vals)) ++ replicate pad Byte.x00).
Proof.
  intros Hw. destruct (foldM_inv (λ k b, b = concat (le_split w <$> (f <$> take k vals)) ++
      replicate ((length vals - k) * w + pad) Byte.x00)
    (λ b '(i, v), putDelta (Z.of_nat w) b i (f v)) (enum vals) (replicate (length vals * w + pad) Byte.x00))
    as (b & -> & ->).
  - simpl. do 2 f_equal. lia.
  - intros k [i d] b [-> Hd]%lookup_enum ->. pose proof (lookup_lt_Some _ _ _ Hd).
    replace ((length vals - k) * w + pad)%nat with (w + ((length vals - S k) * w + pad))%nat by nia.
    rewrite replicate_add. eexists. split; [apply putDelta_next; [done|]|].
    + rewrite (len_concat_chunks (le_split w) (Z.of_nat w)) by (intros; apply len_le_split).
      unfold len. rewrite length_fmap, length_take. nia.
    + rewrite (take_S_r _ _ d) by done. rewrite !fmap_app, concat_app. simpl.
      rewrite app_nil_r. by rewrite <- (assoc_L (++)).
  - rewrite length_enum, take_ge, Nat.sub_diag by lia. done.
Qed.

(** ** Reading back *)

Lemma loadLE_chunk (w : nat) ds k d pad : ds !! k = Some d → (0 < w)%nat →
  0 ≤ d < 2 ^ (Z.of_nat w * 8) →
  loadLE (Z.of_nat w) (concat (le_split w <$> ds) ++ replicate pad Byte.x00) (Z.of_nat k * Z.of_nat w) = Ok d.
Proof.
  intros Hd Hw Hr. unfold loadLE. rewrite (leUint_tail _ _ _ (le_split w d)); [by rewrite le_combine_u|lia|].
  pose proof (slice_chunk (le_split w) (Z.of_nat w) ds k d (λ _ _, len_le_split w _) Hd) as E.
  apply slice_split in E as (pre & post & E & Hp). rewrite E, <- !(assoc_L (++)).
  apply slice_at; [done|by rewrite len_le_split].
Qed.

(** The 6-byte slot through an 8-byte load: the two bytes past it, of the next
    slot or of the padding, are masked off. *)
Lemma load48_chunk ds k d : ds !! k = Some d → 0 ≤ d < 2 ^ 48 →
  ∃ x, loadLE 8 (concat (le_split 6 <$> ds) ++ replicate 2 Byte.x00) (Z.of_nat k * 6) = Ok x ∧
    Z.land x narrowU48Mask = d.
Proof.
  intros Hd Hr. set (b := concat _ ++ _).
  pose proof (slice_chunk (le_split 6) 6 ds k d (λ _ _, len_le_split 6 _) Hd) as E.
  apply slice_split in E as (pre & post & E & Hp).
  assert (b = pre ++ le_split 6 d ++ post ++ replicate 2 Byte.x00) as Eb.
  { unfold b. by rewrite E, <- !(assoc_L (++)). }
  set (s8 := le_split 6 d ++ take 2 (post ++ replicate 2 Byte.x00)).
  assert (slice b (Z.of_nat k * 6) (Z.of_nat k * 6 + 8) = Ok s8) as Es.
  { rewrite Eb. rewrite <- (take_drop 2 (post ++ replicate 2 Byte.x00)), (assoc_L (++) (le_split 6 d)).
    apply slice_at; [done|]. fold s8. unfold s8. rewrite len_app, len_le_split. unfold len.
    rewrite length_take, length_app, length_replicate. lia. }
  eexists. split; [unfold loadLE; by apply leUint_tail|].
  change narrowU48Mask with (Z.ones 48). rewrite Z.land_ones by lia.
  pose proof (le_combine_firstn 6 s8) as F. change (2 ^ (8 * Z.of_nat 6)) with (2 ^ 48) in F. rewrite <- F.
  unfold s8. rewrite take_app_le, take_ge by (rewrite length_le_split; lia). by apply le_combine_u.
Qed.

Lemma nv_at_ok mn (w : nat) ds k d (pad : nat) : (w = 1 ∨ w = 2 ∨ w = 4 ∨ w = 6)%nat →
  (w = 6%nat → pad = 2%nat) → ds !! k = Some d → 0 ≤ d < 2 ^ (8 * Z.of_nat w) → is_i64 (mn + d) →
  nv_at (mkNarrow mn (Z.of_nat w) (concat (le_split w <$> ds) ++ replicate pad Byte.x00)) (Z.of_nat k)
    = Ok (mn + d).
Proof.
  intros Hw Hpad Hd Hr Hi. unfold nv_at. cbn [nw nb nmin].
  assert (to_i64 (mn + d) = mn + d) as Ei by (apply wrapS_small; lia).
  destruct Hw as [->|[->|[->| ->]]]; simpl.
  - pose proof (slice_chunk (le_split 1) 1 ds k d (λ _ _, len_le_split 1 _) Hd) as E.
    apply slice_split in E as (pre & post & -> & Hp). change (le_split 1 d) with [byte.of_Z d].
    rewrite <- !(assoc_L (++)). replace (Z.of_nat k) with (len pre) by lia. cbn [app].
    rewrite idx_app_mid. simpl. rewrite byte.unsigned_of_Z. unfold byte.wrap.
    rewrite Z.mod_small by (simpl in Hr; lia). by rewrite Ei.
  - pose proof (loadLE_chunk 2 ds k d pad Hd ltac:(lia) Hr) as L. change (Z.of_nat 2) with 2 in L.
    rewrite L. simpl. by rewrite Ei.
  - pose proof (loadLE_chunk 4 ds k d pad Hd ltac:(lia) Hr) as L. change (Z.of_nat 4) with 4 in L.
    rewrite L. simpl. by rewrite Ei.
  - rewrite Hpad by done. destruct (load48_chunk ds k d Hd Hr) as (x & -> & Ex). cbn [mbind res_bind].
    rewrite Ex, (wrapS_small 64 d) by (simpl in Hr; lia). by rewrite Ei.
Qed.

Lemma narrowI64Vals_ok vals : Forall (λ v, is_i64 v) vals →
  narrowI64Vals vals = Ok None ∨
  ∃ v, narrowI64Vals vals = Ok (Some v) ∧ nv_n v = Ok (len vals) ∧
    ∀ k x, vals !! k = Some x → nv_at v (Z.of_nat k) = Ok x.
Proof.
  intros HF. unfold narrowI64Vals, narrowI64MinLen. case_decide as D; [by left|].
  destruct (idx_ok vals 0) as (v0 & -> & Hv0); [lia|]. cbn [mbind res_bind].
  destruct (minmax v0 vals) as [mn mx] eqn:Em.
  destruct (minmax_bounds _ _ _ _ Em) as (Hb & Hmn & Hmx & Hall).
  pose proof (Forall_lookup_1 _ _ _ _ HF Hv0) as Hv0r. simpl in Hv0r.
  rewrite Forall_forall in HF.
  assert (is_i64 mn) as Hmnr by (destruct Hmn as [->|?]; [done|by apply HF]).
  assert (is_i64 mx) as Hmxr by (destruct Hmx as [->|?]; [done|by apply HF]).
  rewrite (wrapU_wrapS 64 (mx - mn)), (wrapU_small 64 (mx - mn)) by lia.
  destruct (widthOf (mx - mn)) as [w|] eqn:Ew; [right|by left].
  apply widthOf_ok in Ew as [Hw Hspan].
  assert (∃ wn : nat, w = Z.of_nat wn ∧ (wn = 1 ∨ wn = 2 ∨ wn = 4 ∨ wn = 6)%nat) as (wn & -> & Hwn).
  { exists (Z.to_nat w). lia. }
  set (pad := (if decide (wn = 6%nat) then 2 else 0)%nat).
  replace (Z.to_nat _) with (length vals * wn + pad)%nat
    by (unfold pad, len; repeat case_decide; lia).
  rewrite (fill_ok wn (λ v, to_u64 (to_i64 (v - mn)))) by done. cbn [mbind res_bind].
  eexists. split; [done|]. split.
  - unfold nv_n. cbn [nw nb]. rewrite decide_False by lia. f_equal.
    rewrite len_app, len_replicate.
    rewrite (len_concat_chunks (le_split wn) (Z.of_nat wn)) by (intros; apply len_le_split).
    rewrite len_fmap, Z.div_add_l by lia. rewrite Z.div_small; [lia|]. unfold pad. case_decide; lia.
  - intros k x Hx. rewrite Forall_forall in Hall. pose proof (Hall x (list_elem_of_lookup_2 _ _ _ Hx)) as Hxr.
    pose proof (HF x (list_elem_of_lookup_2 _ _ _ Hx)) as Hxi. simpl in Hxr, Hxi.
    rewrite (nv_at_ok _ _ _ _ (x - mn)); [f_equal; lia|done| | |lia|lia].
    + intros ->. done.
    + rewrite list_lookup_fmap, Hx. simpl. f_equal. rewrite wrapU_wrapS, wrapU_small by lia. done.
Qed.

(** ** Properties *)

(** Narrow storage loses nothing: whenever a vector of int64 is narrowed,
    the narrow vector has as many elements, and every slot decodes to exactly
    the value at that index, for each of the byte classes 1, 2, 4 and 6, also
    when the minimum is negative or the values straddle zero. *)
Theorem narrow_roundtrip (vals : list Z) (v : narrowI64Vec) (k : nat) (x : Z) :
  Forall (λ v, is_i64 v) vals → narrowI64Vals vals = Ok (Some v) → vals !! k = Some x →
  nv_n v = Ok (len vals) ∧ nv_at v (Z.of_nat k) = Ok x.
Proof.
  intros HF Hv Hx. destruct (narrowI64Vals_ok vals HF) as [E|(v' & E & Hn & Hat)]; [congruence|].
  assert (v' = v) as -> by congruence. auto.
Qed.

(** 1024 timestamps around zero: the 6-byte class. *)
Definition demoStamps : list Z := (λ i, i * 4294967296 - 3) <$> seqZ (-512) 1024.

Lemma narrow_roundtrip_witness : ∃ v, narrowI64Vals demoStamps = Ok (Some v) ∧ nw v = 6 ∧
  nv_n v = Ok 1024 ∧ nv_at v 1000 = Ok (488 * 4294967296 - 3).
Proof.
  pose (v := match narrowI64Vals demoStamps with Ok (Some v) => v | _ => mkNarrow 0 0 [] end).
  assert (narrowI64Vals demoStamps = Ok (Some v)) as E by (by vm_compute).
  exists v. split; [done|]. split; [by vm_compute|].
  apply (narrow_roundtrip demoStamps v 1000 (488 * 4294967296 - 3)); [|done|by vm_compute].
  apply Forall_fmap, Forall_seqZ. intros i Hi. simpl. lia.
Defined.
