(* ===== verification/Columns.v ===== *)
(** Columnar property storage: [src/column.go], [src/column_narrow.go],
    [src/column_rank.go].

    A column is one of sixteen storage layouts behind one interface: dense
    (slot is position), sparse (binary-searched ids) and rank/select (presence
    bitmap with block ranks), each plain or, for integers, narrow. A method
    returns an outcome, as indexing may panic; an iterator is the list a
    consumer that never stops is given. The contract [represents] says what a
    column promises: reads, enumeration and length agree with one list of
    position/value pairs, ascending. The theorems: every layout fulfils it. *)

From S2P Require Import Prelude Bitset Value Narrow.

Inductive Dtype := DtypeI64 | DtypeF64 | DtypeBool | DtypeStr.

(** ** The three families *)

(** Dense: [n] slots read by [at]. *)
Definition denseGet (n : Z) (at_ : Z → res Value) (pos : Z) : res (Value * bool) :=
  if decide (n ≤ pos) then Ok (Value0, false)
  else v ← at_ pos; Ok (v, true).
Definition denseEntries (n : Z) (at_ : Z → res Value) : res (list (Z * Value)) :=
  mapM (λ i, v ← at_ i; Ok (to_u32 i, v)) (zseq n).

(** Sparse: the binary search over sorted ids. *)
Definition sparseSlot (ids : list Z) (pos : Z) : res (Z * bool) :=
  lo ← bisect (length ids) (λ mid, x ← idx ids mid; Ok (bool_decide (x < pos))) 0 (len ids);
  if decide (lo < len ids) then
    x ← idx ids lo;
    if decide (x = pos) then Ok (lo, true) else Ok (0, false)
  else Ok (0, false).
Definition sparseGet (ids : list Z) (at_ : Z → res Value) (pos : Z) : res (Value * bool) :=
  '(slot, ok) ← sparseSlot ids pos;
  if ok : bool then v ← at_ slot; Ok (v, true) else Ok (Value0, false).
Definition sparseEntries (ids : list Z) (at_ : Z → res Value) : res (list (Z * Value)) :=
  mapM (λ '(i, id), v ← at_ i; Ok (id, v)) (enum ids).

(** Rank/select: a presence bitmap and the set bits before each block. *)
Definition rankBlock : Z := 64.
Record rankIndex := mkRankIndex { present : Bits; blockRank : list Z }.

Definition rank_slot (r : rankIndex) (pos : Z) : res (Z * bool) :=
  let p := pos in
  if decide (Bitset.Len (present r) ≤ p) then Ok (0, false)
  else
    g ← Bitset.Get (present r) p;
    if negb g then Ok (0, false)
    else
      let b := p / rankBlock in
      br ← idx (blockRank r) b;
      c ← CountRange (present r) (b * rankBlock) p;
      Ok (br + c, true).

Definition rank_entries (r : rankIndex) (value : Z → res Value) : res (list (Z * Value)) :=
  '(_, out) ← foldM (λ '(slot, out) pos, v ← value slot; Ok (slot + 1, out ++ [(to_u32 pos, v)]))
    (Ones (present r)) (0, []);
  Ok out.

Definition rankGet (r : rankIndex) (at_ : Z → res Value) (pos : Z) : res (Value * bool) :=
  '(slot, ok) ← rank_slot r pos;
  if ok : bool then v ← at_ slot; Ok (v, true) else Ok (Value0, false).

Definition buildRankIndex (positions : list Z) (span : Z) : res rankIndex :=
  p0 ← Bitset.New span;
  present ← foldM (λ b pos, Bitset.Set_ b pos true) positions p0;
  let nblocks := (span + rankBlock - 1) / rankBlock in
  '(_, blockRank) ← foldM (λ '(acc, br) b,
      c ← CountRange present (b * rankBlock) (Z.min ((b + 1) * rankBlock) span);
      let acc := to_u32 (acc + to_u32 c) in
      Ok (acc, br ++ [acc])) (zseq nblocks) (0, [0]);
  Ok (mkRankIndex present blockRank).

(** ** The layouts *)

Inductive Column :=
| denseI64Col (c : list Z)
| denseF64Col (c : list Z)
| denseBoolCol (bits : Bits)
| denseStrCol (c : list Z)
| sparseI64Col (ids vals : list Z)
| sparseF64Col (ids vals : list Z)
| sparseBoolCol (ids : list Z) (vals : list bool)
| sparseStrCol (ids vals : list Z)
| denseI64NarrowCol (v : narrowI64Vec)
| denseI64BitCol (min : Z) (bits : Bits)
| sparseI64NarrowCol (ids : list Z) (v : narrowI64Vec)
| rankI64Col (r : rankIndex) (vals : list Z)
| rankF64Col (r : rankIndex) (vals : list Z)
| rankBoolCol (r : rankIndex) (vals : Bits)
| rankStrCol (r : rankIndex) (vals : list Z)
| rankI64NarrowCol (r : rankIndex) (v : narrowI64Vec).

(** [XValue(vals[i])]. *)
Definition atVals {A} (mk : A → Value) (vals : list A) (i : Z) : res Value :=
  x ← idx vals i; Ok (mk x).
Definition atBits (bits : Bits) (i : Z) : res Value := b ← Bitset.Get bits i; Ok (BoolValue b).
Definition atNarrow (v : narrowI64Vec) (i : Z) : res Value := x ← nv_at v i; Ok (I64Value x).

(** [denseI64BitCol.at]. *)
Definition bitCol_at (min : Z) (bits : Bits) (pos : Z) : res Z :=
  b ← Bitset.Get bits pos; Ok (if b : bool then to_i64 (min + 1) else min).
Definition atBitCol (min : Z) (bits : Bits) (i : Z) : res Value :=
  x ← bitCol_at min bits i; Ok (I64Value x).

Module denseI64.
Definition Get (c : list Z) := denseGet (len c) (atVals I64Value c).
Definition Entries (c : list Z) := denseEntries (len c) (atVals I64Value c).
Definition Len (c : list Z) : res Z := Ok (len c).
End denseI64.
Module denseF64.
Definition Get (c : list Z) := denseGet (len c) (atVals F64Value c).
Definition Entries (c : list Z) := denseEntries (len c) (atVals F64Value c).
Definition Len (c : list Z) : res Z := Ok (len c).
End denseF64.
Module denseBool.
Definition Get (bits : Bits) := denseGet (Bitset.Len bits) (atBits bits).
Definition Entries (bits : Bits) := denseEntries (Bitset.Len bits) (atBits bits).
Definition Len (bits : Bits) : res Z := Ok (Bitset.Len bits).
End denseBool.
Module denseStr.
Definition Get (c : list Z) := denseGet (len c) (atVals StrValue c).
Definition Entries (c : list Z) := denseEntries (len c) (atVals StrValue c).
Definition Len (c : list Z) : res Z := Ok (len c).
End denseStr.
Module sparseI64.
Definition Get (ids vals : list Z) := sparseGet ids (atVals I64Value vals).
Definition Entries (ids vals : list Z) := sparseEntries ids (atVals I64Value vals).
Definition Len (ids : list Z) : res Z := Ok (len ids).
End sparseI64.
Module sparseF64.
Definition Get (ids vals : list Z) := sparseGet ids (atVals F64Value vals).
Definition Entries (ids vals : list Z) := sparseEntries ids (atVals F64Value vals).
Definition Len (ids : list Z) : res Z := Ok (len ids).
End sparseF64.
Module sparseBool.
Definition Get (ids : list Z) (vals : list bool) := sparseGet ids (atVals BoolValue vals).
Definition Entries (ids : list Z) (vals : list bool) := sparseEntries ids (atVals BoolValue vals).
Definition Len (ids : list Z) : res Z := Ok (len ids).
End sparseBool.
Module sparseStr.
Definition Get (ids vals : list Z) := sparseGet ids (atVals StrValue vals).
Definition Entries (ids vals : list Z) := sparseEntries ids (atVals StrValue vals).
Definition Len (ids : list Z) : res Z := Ok (len ids).
End sparseStr.
Module denseI64Narrow.
Definition Get (v : narrowI64Vec) (pos : Z) := n ← nv_n v; denseGet n (atNarrow v) pos.
Definition Entries (v : narrowI64Vec) := n ← nv_n v; denseEntries n (atNarrow v).
Definition Len (v : narrowI64Vec) : res Z := nv_n v.
End denseI64Narrow.
Module denseI64Bit.
Definition Get (min : Z) (bits : Bits) := denseGet (Bitset.Len bits) (atBitCol min bits).
Definition Entries (min : Z) (bits : Bits) := denseEntries (Bitset.Len bits) (λ i, atBitCol min bits (to_u32 i)).
Definition Len (bits : Bits) : res Z := Ok (Bitset.Len bits).
End denseI64Bit.
Module sparseI64Narrow.
Definition Get (ids : list Z) (v : narrowI64Vec) := sparseGet ids (atNarrow v).
Definition Entries (ids : list Z) (v : narrowI64Vec) := sparseEntries ids (atNarrow v).
Definition Len (ids : list Z) : res Z := Ok (len ids).
End sparseI64Narrow.
Module rankI64.
Definition Get (r : rankIndex) (vals : list Z) := rankGet r (atVals I64Value vals).
Definition Entries (r : rankIndex) (vals : list Z) := rank_entries r (atVals I64Value vals).
Definition Len (vals : list Z) : res Z := Ok (len vals).
End rankI64.
Module rankF64.
Definition Get (r : rankIndex) (vals : list Z) := rankGet r (atVals F64Value vals).
Definition Entries (r : rankIndex) (vals : list Z) := rank_entries r (atVals F64Value vals).
Definition Len (vals : list Z) : res Z := Ok (len vals).
End rankF64.
Module rankBool.
Definition Get (r : rankIndex) (vals : Bits) := rankGet r (atBits vals).
Definition Entries (r : rankIndex) (vals : Bits) := rank_entries r (atBits vals).
Definition Len (vals : Bits) : res Z := Ok (Bitset.Len vals).
End rankBool.
Module rankStr.
Definition Get (r : rankIndex) (vals : list Z) := rankGet r (atVals StrValue vals).
Definition Entries (r : rankIndex) (vals : list Z) := rank_entries r (atVals StrValue vals).
Definition Len (vals : list Z) : res Z := Ok (len vals).
End rankStr.
Module rankI64Narrow.
Definition Get (r : rankIndex) (v : narrowI64Vec) := rankGet r (atNarrow v).
Definition Entries (r : rankIndex) (v : narrowI64Vec) := rank_entries r (atNarrow v).
Definition Len (v : narrowI64Vec) : res Z := nv_n v.
End rankI64Narrow.

(** The interface: dynamic dispatch. *)
Definition Column_Get (c : Column) (pos : Z) : res (Value * bool) :=
  match c with
  | denseI64Col c => denseI64.Get c pos
  | denseF64Col c => denseF64.Get c pos
  | denseBoolCol b => denseBool.Get b pos
  | denseStrCol c => denseStr.Get c pos
  | sparseI64Col ids vals => sparseI64.Get ids vals pos
  | sparseF64Col ids vals => sparseF64.Get ids vals pos
  | sparseBoolCol ids vals => sparseBool.Get ids vals pos
  | sparseStrCol ids vals => sparseStr.Get ids vals pos
  | denseI64NarrowCol v => denseI64Narrow.Get v pos
  | denseI64BitCol m b => denseI64Bit.Get m b pos
  | sparseI64NarrowCol ids v => sparseI64Narrow.Get ids v pos
  | rankI64Col r vals => rankI64.Get r vals pos
  | rankF64Col r vals => rankF64.Get r vals pos
  | rankBoolCol r vals => rankBool.Get r vals pos
  | rankStrCol r vals => rankStr.Get r vals pos
  | rankI64NarrowCol r v => rankI64Narrow.Get r v pos
  end.

Definition Column_Entries (c : Column) : res (list (Z * Value)) :=
  match c with
  | denseI64Col c => denseI64.Entries c
  | denseF64Col c => denseF64.Entries c
  | denseBoolCol b => denseBool.Entries b
  | denseStrCol c => denseStr.Entries c
  | sparseI64Col ids vals => sparseI64.Entries ids vals
  | sparseF64Col ids vals => sparseF64.Entries ids vals
  | sparseBoolCol ids vals => sparseBool.Entries ids vals
  | sparseStrCol ids vals => sparseStr.Entries ids vals
  | denseI64NarrowCol v => denseI64Narrow.Entries v
  | denseI64BitCol m b => denseI64Bit.Entries m b
  | sparseI64NarrowCol ids v => sparseI64Narrow.Entries ids v
  | rankI64Col r vals => rankI64.Entries r vals
  | rankF64Col r vals => rankF64.Entries r vals
  | rankBoolCol r vals => rankBool.Entries r vals
  | rankStrCol r vals => rankStr.Entries r vals
  | rankI64NarrowCol r v => rankI64Narrow.Entries r v
  end.

Definition Column_Dtype (c : Column) : Dtype :=
  match c with
  | denseI64Col _ | sparseI64Col _ _ | denseI64NarrowCol _ | denseI64BitCol _ _
  | sparseI64NarrowCol _ _ | rankI64Col _ _ | rankI64NarrowCol _ _ => DtypeI64
  | denseF64Col _ | sparseF64Col _ _ | rankF64Col _ _ => DtypeF64
  | denseBoolCol _ | sparseBoolCol _ _ | rankBoolCol _ _ => DtypeBool
  | denseStrCol _ | sparseStrCol _ _ | rankStrCol _ _ => DtypeStr
  end.

Definition Column_Len (c : Column) : res Z :=
  match c with
  | denseI64Col c => denseI64.Len c
  | denseF64Col c => denseF64.Len c
  | denseBoolCol b => denseBool.Len b
  | denseStrCol c => denseStr.Len c
  | sparseI64Col ids _ => sparseI64.Len ids
  | sparseF64Col ids _ => sparseF64.Len ids
  | sparseBoolCol ids _ => sparseBool.Len ids
  | sparseStrCol ids _ => sparseStr.Len ids
  | denseI64NarrowCol v => denseI64Narrow.Len v
  | denseI64BitCol _ b => denseI64Bit.Len b
  | sparseI64NarrowCol ids _ => sparseI64Narrow.Len ids
  | rankI64Col _ vals => rankI64.Len vals
  | rankF64Col _ vals => rankF64.Len vals
  | rankBoolCol _ vals => rankBool.Len vals
  | rankStrCol _ vals => rankStr.Len vals
  | rankI64NarrowCol _ v => rankI64Narrow.Len v
  end.

Definition isSparse (c : Column) : bool :=
  match c with
  | sparseI64Col _ _ | sparseI64NarrowCol _ _ | sparseF64Col _ _ | sparseBoolCol _ _
  | sparseStrCol _ _ => true
  | _ => false
  end.

Definition valueAtSlot (c : Column) (slot : Z) : res (Value * bool) :=
  match c with
  | sparseI64Col _ vals => denseGet (len vals) (atVals I64Value vals) slot
  | sparseI64NarrowCol _ v => n ← nv_n v; denseGet n (atNarrow v) slot
  | sparseF64Col _ vals => denseGet (len vals) (atVals F64Value vals) slot
  | sparseBoolCol _ vals => denseGet (len vals) (atVals BoolValue vals) slot
  | sparseStrCol _ vals => denseGet (len vals) (atVals StrValue vals) slot
  | _ => Ok (Value0, false)
  end.

(** The dense storage class of an integer column. *)
Definition narrowI64Column (vals : list Z) : res Column :=
  let rest :=
    nv ← narrowI64Vals vals;
    match nv with Some nv => Ok (denseI64NarrowCol nv) | None => Ok (denseI64Col vals) end in
  if decide (narrowI64MinLen ≤ len vals) then
    v0 ← idx vals 0;
    let '(mn, mx) := minmax v0 vals in
    if decide (to_u64 (to_i64 (mx - mn)) ≤ 1) then
      b0 ← Bitset.New (len vals);
      bits ← foldM (λ b '(i, v), Bitset.Set_ b i (bool_decide (v ≠ mn))) (enum vals) b0;
      Ok (denseI64BitCol mn bits)
    else rest
  else rest.

(** ** The contract *)

(** A column represents the pairs [l]: positions ascend strictly, reads answer
    what [l] holds and nothing else, enumeration is [l], length is its length. *)
Record represents (c : Column) (l : list (Z * Value)) : Prop := {
  rp_sorted : StronglySorted Z.lt l.*1;
  rp_get : ∀ pos, 0 ≤ pos →
    Column_Get c pos = Ok (match (list_to_map l : gmap Z Value) !! pos with
                           | Some v => (v, true) | None => (Value0, false) end);
  rp_entries : Column_Entries c = Ok l;
  rp_len : Column_Len c = Ok (len l);
}.

(** Reading a sorted association list by position. *)
Lemma lookup_pairs (ids : list Z) (vs : list Value) k id v : StronglySorted Z.lt ids → length vs = length ids →
  ids !! k = Some id → vs !! k = Some v → (list_to_map (zip ids vs) : gmap Z Value) !! id = Some v.
Proof.
  intros Hs Hl Hi Hv. apply elem_of_list_to_map; [rewrite fst_zip by lia; by apply sorted_NoDup|].
  apply list_elem_of_lookup. exists k. apply lookup_zip_with_Some. eauto.
Qed.

Lemma lookup_pairs_none (ids : list Z) (vs : list Value) id : length vs = length ids → id ∉ ids →
  (list_to_map (M := gmap Z Value) (zip ids vs)) !! id = None.
Proof. intros Hl Hi. apply not_elem_of_list_to_map. by rewrite fst_zip by lia. Qed.

(** [at_] reads the values [vs]. *)
Definition reads_vals (at_ : Z → res Value) (vs : list Value) : Prop :=
  ∀ k v, vs !! k = Some v → at_ (Z.of_nat k) = Ok v.

Lemma atVals_reads {A} (mk : A → Value) vals : reads_vals (atVals mk vals) (mk <$> vals).
Proof.
  intros k v Hv. rewrite list_lookup_fmap in Hv. destruct (vals !! k) as [x|] eqn:E; [|done].
  injection Hv as <-. unfold atVals. by rewrite (idx_lookup _ _ x) by (lia || by rewrite Nat2Z.id).
Qed.

(** ** Dense *)

Lemma dense_get n at_ vs pos : reads_vals at_ vs → n = len vs → 0 ≤ pos →
  denseGet n at_ pos = Ok (match (list_to_map (zip (zseq n) vs) : gmap Z Value) !! pos with
                           | Some v => (v, true) | None => (Value0, false) end).
Proof.
  intros Hat -> Hp. unfold denseGet.
  assert (length (zseq (len vs)) = length vs) as L by (unfold zseq; rewrite length_fmap, length_seq, to_nat_len; done).
  case_decide as D.
  - rewrite lookup_pairs_none; [done|done|]. rewrite elem_of_zseq. lia.
  - destruct (idx_ok vs pos) as (v & _ & Hv); [lia|].
    rewrite (lookup_pairs _ _ (Z.to_nat pos) pos v); [|apply zseq_sorted|done| |done].
    + pose proof (Hat _ _ Hv) as E. rewrite Z2Nat.id in E by done. by rewrite E.
    + unfold zseq. rewrite list_lookup_fmap, lookup_seq_lt by (unfold len in *; lia). simpl. f_equal. lia.
Qed.

Lemma dense_entries n at_ vs : reads_vals at_ vs → n = len vs → n ≤ 4294967296 →
  denseEntries n at_ = Ok (zip (zseq n) vs).
Proof.
  intros Hat -> Hn. unfold denseEntries.
  assert (len (zip (zseq (len vs)) vs) = len vs) as L.
  { change (zip (zseq (len vs)) vs) with (enum vs). unfold len at 1. by rewrite length_enum. }
  rewrite <- L at 1. apply mapM_zseq. intros i [j v] [-> Hv]%(lookup_enum vs).
  rewrite (Hat _ _ Hv). cbn [mbind res_bind]. pose proof (lookup_lt_Some _ _ _ Hv).
  rewrite (wrapU_small 32) by (unfold len in *; lia). done.
Qed.

Lemma fst_enum {A} (l : list A) : (enum l).*1 = zseq (len l).
Proof. unfold enum. apply fst_zip. unfold zseq. rewrite length_fmap, length_seq, to_nat_len. lia. Qed.

(** A dense column of [n] values. *)
Lemma dense_represents c n at_ vs : reads_vals at_ vs → n = len vs → n ≤ 4294967296 →
  (∀ pos, 0 ≤ pos → Column_Get c pos = denseGet n at_ pos) → Column_Entries c = denseEntries n at_ →
  Column_Len c = Ok n → represents c (enum vs).
Proof.
  intros Hat Hn Hle Hg He Hl. split.
  - rewrite fst_enum. apply zseq_sorted.
  - intros pos Hp. rewrite Hg, (dense_get n at_ vs) by done. by subst n.
  - rewrite He, (dense_entries n at_ vs) by done. by subst n.
  - rewrite Hl. f_equal. unfold len at 1. rewrite length_enum. done.
Qed.

(** ** Sparse *)

Lemma sorted_lt_lookup (l : list Z) i j x y : StronglySorted Z.lt l → (i < j)%nat →
  l !! i = Some x → l !! j = Some y → x < y.
Proof.
  intros Hs. revert i j. induction Hs as [|a l Hs IH Ha]; intros i j Hij Hx Hy; [done|].
  destruct i as [|i], j as [|j]; simplify_eq/=; [lia| |lia|by eapply IH; [|done..]; lia].
  exact (Forall_lookup_1 _ _ _ _ Ha Hy).
Qed.

Lemma sparseSlot_ok ids pos : StronglySorted Z.lt ids →
  (∃ k, ids !! k = Some pos ∧ sparseSlot ids pos = Ok (Z.of_nat k, true)) ∨
  ((pos ∉ ids) ∧ sparseSlot ids pos = Ok (0, false)).
Proof.
  intros Hs. unfold sparseSlot.
  destruct (partition_point (λ i, bool_decide (ids !!! Z.to_nat i < pos)) (len ids)) as (p & Hp & Hpart).
  { apply len_nonneg. }
  { intros i j Hij Hj. rewrite !bool_decide_eq_true. intros Hlt.
    destruct (decide (i = j)) as [->|]; [done|].
    destruct (idx_ok ids i) as (x & _ & Hx); [lia|]. destruct (idx_ok ids j) as (y & _ & Hy); [lia|].
    rewrite (list_lookup_total_correct _ _ _ Hx). rewrite (list_lookup_total_correct _ _ _ Hy) in Hlt.
    pose proof (sorted_lt_lookup ids (Z.to_nat i) (Z.to_nat j) x y Hs ltac:(lia) Hx Hy). lia. }
  rewrite (bisect_ok _ _ 0 p) by (lia || unfold len in *; lia ||
    (intros i Hi; destruct (idx_ok ids i Hi) as (x & -> & Hx); cbn [mbind res_bind]; rewrite <- Hpart by done;
     by rewrite (list_lookup_total_correct _ _ _ Hx))).
  cbn [mbind res_bind].
  assert (∀ k, ids !! k = Some pos → p ≤ Z.of_nat k) as Hocc.
  { intros k Hk. pose proof (lookup_lt_Some _ _ _ Hk). specialize (Hpart (Z.of_nat k) ltac:(unfold len; lia)).
    rewrite Nat2Z.id, (list_lookup_total_correct _ _ _ Hk) in Hpart.
    rewrite bool_decide_eq_false_2 in Hpart by lia. symmetry in Hpart. apply bool_decide_eq_false in Hpart. lia. }
  case_decide as D; cycle 1.
  { right. split; [|done]. intros [k Hk]%list_elem_of_lookup. pose proof (Hocc k Hk).
    pose proof (lookup_lt_Some _ _ _ Hk). unfold len in *. lia. }
  destruct (idx_ok ids p) as (x & -> & Hx); [lia|]. cbn [mbind res_bind]. case_decide as Dx.
  - left. exists (Z.to_nat p). subst x. split; [done|]. by rewrite Z2Nat.id by lia.
  - right. split; [|done]. intros [k Hk]%list_elem_of_lookup. pose proof (Hocc k Hk) as Hpk.
    specialize (Hpart p ltac:(lia)). rewrite (list_lookup_total_correct _ _ _ Hx) in Hpart.
    rewrite (bool_decide_eq_false_2 (p < p)) in Hpart by lia. apply bool_decide_eq_false in Hpart.
    destruct (decide (Z.to_nat p = k)) as [Ek|]; [subst k; congruence|].
    pose proof (sorted_lt_lookup ids (Z.to_nat p) k x pos Hs ltac:(lia) Hx Hk). lia.
Qed.

(** A column whose reads resolve a position to its slot in [ids]. *)
Lemma slots_get (slot : res (Z * bool)) ids at_ vs pos : StronglySorted Z.lt ids → length vs = length ids →
  reads_vals at_ vs →
  (∃ k, ids !! k = Some pos ∧ slot = Ok (Z.of_nat k, true)) ∨ ((pos ∉ ids) ∧ ∃ x, slot = Ok (x, false)) →
  (slot ≫= λ '(slot, ok), if ok : bool then v ← at_ slot; Ok (v, true) else Ok (Value0, false)) =
    Ok (match (list_to_map (zip ids vs) : gmap Z Value) !! pos with
        | Some v => (v, true) | None => (Value0, false) end).
Proof.
  intros Hs Hl Hat [(k & Hk & ->)|(Hn & x & ->)]; cbn [mbind res_bind].
  - destruct (lookup_lt_is_Some_2 vs k) as [v Hv]; [rewrite Hl; by eapply lookup_lt_Some|].
    rewrite (Hat k v Hv). cbn [mbind res_bind]. by rewrite (lookup_pairs ids vs k pos v).
  - by rewrite lookup_pairs_none.
Qed.

Lemma sparse_represents c ids at_ vs : StronglySorted Z.lt ids → length vs = length ids → reads_vals at_ vs →
  (∀ pos, 0 ≤ pos → Column_Get c pos = sparseGet ids at_ pos) → Column_Entries c = sparseEntries ids at_ →
  Column_Len c = Ok (len ids) → represents c (zip ids vs).
Proof.
  intros Hs Hl Hat Hg He Hlen. split.
  - by rewrite fst_zip by lia.
  - intros pos Hp. rewrite Hg by done. apply slots_get; [done..|].
    destruct (sparseSlot_ok ids pos Hs) as [|[? ->]]; eauto.
  - rewrite He. unfold sparseEntries.
    assert (Forall2 (λ (x : Z * Z) y, (v ← at_ x.1; Ok (x.2, v)) = Ok y) (enum ids) (zip ids vs)) as HF.
    { apply Forall2_same_length_lookup_2; [rewrite length_enum, length_zip_with; lia|].
      intros k [i id] [id' v] [-> Hid]%lookup_enum Hz.
      apply lookup_zip_with_Some in Hz as (a & b & [= -> ->] & Ha & Hb). cbn [fst snd]; rewrite (Hat k b Hb).
      simpl. congruence. }
    clear -HF. induction HF as [|x y xs ys Hx HF IH]; [done|]. simpl. destruct x as [i id]. simpl in Hx. rewrite Hx. simpl. by rewrite IH.
  - rewrite Hlen. f_equal. unfold len. rewrite length_zip_with. lia.
Qed.

(** ** Rank/select *)

Lemma positions_sorted f lo hi : StronglySorted Z.lt (positions f lo hi).
Proof.
  unfold positions. generalize (hi - lo) as n. intros n.
  destruct (decide (n ≤ 0)); [rewrite seqZ_nil by done; constructor|].
  rewrite <- (Z2Nat.id n) by lia. generalize (Z.to_nat n) as m. clear. intros m. revert lo.
  induction m as [|m IH]; intros lo; [rewrite seqZ_nil by done; constructor|].
  rewrite seqZ_cons by lia. replace (Z.pred (Z.of_nat (S m))) with (Z.of_nat m) by lia.
  rewrite filter_cons. case_decide; [|apply IH]. constructor; [apply IH|].
  apply Forall_forall. intros x [_ Hx]%list_elem_of_filter. apply elem_of_seqZ in Hx. lia.
Qed.

Lemma count_bound f lo hi : lo ≤ hi → 0 ≤ count f lo hi ≤ hi - lo.
Proof.
  intros H. split; [apply len_nonneg|]. unfold count, positions, len.
  etrans; [apply inj_le, length_filter|]. rewrite length_seqZ. lia.
Qed.

(** The index describes a set of positions. *)
Record rankOK (r : rankIndex) (ids : list Z) (span : Z) : Prop := {
  rk_wf : wf_bits (present r);
  rk_n : bn (present r) = span;
  rk_ids : positions (bitAt (present r)) 0 span = ids;
  rk_block : ∀ b, 0 ≤ b → b * rankBlock ≤ span →
    idx (blockRank r) b = Ok (count (bitAt (present r)) 0 (b * rankBlock));
}.

Lemma setAll_ok ids span b0 : wf_bits b0 → bn b0 = span → (∀ i, bitAt b0 i = false) →
  Forall (λ p, 0 ≤ p < span) ids →
  ∃ b, foldM (λ b pos, Bitset.Set_ b pos true) ids b0 = Ok b ∧ wf_bits b ∧ bn b = span ∧
    ∀ i, 0 ≤ i → bitAt b i = bool_decide (i ∈ ids).
Proof.
  intros Hw Hn Hz HF. pose (P := λ (k : nat) b, wf_bits b ∧ bn b = span ∧
    ∀ i, 0 ≤ i → bitAt b i = bool_decide (i ∈ take k ids)).
  destruct (foldM_inv P (λ b pos, Bitset.Set_ b pos true) ids b0) as (b & E & Hb & Hbn & Hbit).
  - split_and!; [done..|]. intros i _. rewrite Hz. symmetry. apply bool_decide_eq_false. apply not_elem_of_nil.
  - intros k x b Hx (Hb & Hbn & Hbit). pose proof (Forall_lookup_1 _ _ _ _ HF Hx) as Hr. simpl in Hr.
    destruct (Set_bitAt b x true Hb) as (b' & -> & Hb' & Hbn' & Hbit'); [lia|].
    exists b'. split; [done|]. split_and!; [done|congruence|]. intros i Hi. rewrite Hbit', Hbit by done.
    rewrite (take_S_r _ _ x) by done. case_decide as D; case_bool_decide as D1; try case_bool_decide as D2; try done;
      rewrite elem_of_app, list_elem_of_singleton in *; tauto.
  - exists b. split_and!; [done..|]. intros i Hi. rewrite Hbit by done. by rewrite take_ge by lia.
Qed.

Lemma buildRankIndex_ok ids span : StronglySorted Z.lt ids → Forall (λ p, 0 ≤ p < span) ids →
  0 ≤ span < 4294967296 → ∃ r, buildRankIndex ids span = Ok r ∧ rankOK r ids span.
Proof.
  intros Hs HF Hspan. unfold buildRankIndex, rankBlock.
  destruct (New_ok span ltac:(lia)) as (b0 & -> & Hb0 & Hn0 & Hz0). cbn [mbind res_bind].
  destruct (setAll_ok ids span b0 Hb0 Hn0 Hz0 HF) as (b & -> & Hb & Hbn & Hbit). cbn [mbind res_bind].
  set (cnt := λ k, count (bitAt b) 0 (Z.min (k * 64) span)).
  pose (P := λ (k : Z) (st : Z * list Z), st = (cnt k, cnt <$> zseq (k + 1))).
  match goal with |- context [foldM ?f (zseq _) _] =>
    destruct (foldM_zseq P f ((span + 64 - 1) / 64) (0, [0])) as (st & -> & ->) end.
  - dlia.
  - unfold P. change (cnt <$> zseq (0 + 1)) with [cnt 0].
    assert (cnt 0 = 0) as ->; [|done]. unfold cnt. rewrite Z.min_l by lia. unfold count.
    by rewrite positions_none by lia.
  - intros k st Hk ->. rewrite CountRange_ok by done. cbn [mbind res_bind].
    rewrite Hbn. replace (Z.max (k * 64) 0) with (k * 64) by lia.
    replace (Z.min (Z.min ((k + 1) * 64) span) span) with (Z.min ((k + 1) * 64) span) by lia.
    assert (cnt k + count (bitAt b) (k * 64) (Z.min ((k + 1) * 64) span) = cnt (k + 1)) as Ec.
    { unfold cnt. rewrite (Z.min_l (k * 64)) by dlia. symmetry. apply count_split. dlia. }
    pose proof (count_bound (bitAt b) (k * 64) (Z.min ((k + 1) * 64) span) ltac:(dlia)).
    assert (0 ≤ cnt (k + 1) ≤ span) as Hc.
    { unfold cnt. pose proof (count_bound (bitAt b) 0 (Z.min ((k + 1) * 64) span) ltac:(dlia)). lia. }
    rewrite (wrapU_small 32 (count _ _ _)), (wrapU_small 32) by lia. rewrite Ec.
    eexists. split; [done|]. unfold P. f_equal.
    unfold zseq. replace (Z.to_nat (k + 1 + 1)) with (S (Z.to_nat (k + 1))) by lia.
    rewrite seq_S, !fmap_app. simpl. do 3 f_equal. lia.
  - cbn [mbind res_bind]. eexists. split; [done|]. split; cbn [present blockRank]; [done|done|..].
    + apply sorted_ext; [apply positions_sorted|done|]. intros x. rewrite elem_of_positions. split.
      * intros [Hx Hbx]. rewrite Hbit in Hbx by lia. by apply bool_decide_eq_true in Hbx.
      * intros Hx. rewrite Forall_forall in HF. specialize (HF x Hx). split; [done|].
        rewrite Hbit by lia. by apply bool_decide_eq_true.
    + intros k Hk Hks. unfold rankBlock in *. apply idx_lookup; [done|].
      rewrite list_lookup_fmap. unfold zseq. rewrite list_lookup_fmap, lookup_seq_lt by dlia. simpl.
      unfold cnt. rewrite Z2Nat.id by done. by rewrite Z.min_l.
Qed.

Lemma rank_slot_ok r ids span pos : rankOK r ids span → 0 ≤ pos →
  (∃ k, ids !! k = Some pos ∧ rank_slot r pos = Ok (Z.of_nat k, true)) ∨
  ((pos ∉ ids) ∧ ∃ x, rank_slot r pos = Ok (x, false)).
Proof.
  intros [Hw Hn Hids Hblk] Hp. unfold rank_slot, Bitset.Len. rewrite Hn.
  assert (pos ∈ ids ↔ 0 ≤ pos < span ∧ bitAt (present r) pos = true) as Hin.
  { rewrite <- Hids. apply elem_of_positions. }
  case_decide as D; [right; split; [rewrite Hin; lia|by eexists]|].
  rewrite Get_bitAt, Hn, decide_True by (done || lia). cbn [mbind res_bind].
  destruct (bitAt (present r) pos) eqn:Eb; simpl; [left|right; split; [rewrite Hin; naive_solver|by eexists]].
  rewrite Hblk by (unfold rankBlock; dlia). cbn [mbind res_bind]. rewrite CountRange_ok by done.
  cbn [mbind res_bind]. rewrite Hn. replace (Z.max (pos / rankBlock * rankBlock) 0) with (pos / rankBlock * rankBlock)
    by (unfold rankBlock; dlia). rewrite Z.min_l by lia.
  rewrite <- count_split by (unfold rankBlock; dlia).
  exists (length (positions (bitAt (present r)) 0 pos)). split; [|done].
  rewrite <- Hids, (positions_split _ 0 pos span), (positions_split _ pos (pos + 1) span) by lia.
  rewrite (positions_one _ pos Eb). by rewrite lookup_app_r, Nat.sub_diag by lia.
Qed.

Lemma rank_entries_ok r ids span at_ vs : rankOK r ids span → span ≤ 4294967296 → length vs = length ids →
  reads_vals at_ vs → rank_entries r at_ = Ok (zip ids vs).
Proof.
  intros [Hw Hn Hids _] Hspan Hl Hat. unfold rank_entries. rewrite Ones_ok, Hn, Hids by done.
  pose (P := λ (k : nat) (st : Z * list (Z * Value)), st = (Z.of_nat k, zip (take k ids) (take k vs))).
  match goal with |- context [foldM ?f ids _] =>
    destruct (foldM_inv P f ids (0, [])) as (st & -> & ->) end.
  - done.
  - intros k pos st Hk ->. destruct (lookup_lt_is_Some_2 vs k) as [v Hv]; [rewrite Hl; by eapply lookup_lt_Some|].
    rewrite (Hat k v Hv). cbn [mbind res_bind]. eexists. split; [done|]. unfold P.
    rewrite (take_S_r _ _ _ Hk), (take_S_r _ _ _ Hv).
    rewrite zip_with_app by (pose proof (lookup_lt_Some _ _ _ Hk); rewrite !length_take; lia).
    assert (0 ≤ pos < span) as Hr.
    { apply list_elem_of_lookup_2 in Hk. rewrite <- Hids in Hk. apply elem_of_positions in Hk. lia. }
    rewrite (wrapU_small 32) by lia. f_equal. lia.
  - cbn [mbind res_bind]. by rewrite !take_ge by lia.
Qed.

Lemma rank_represents c r ids span at_ vs : rankOK r ids span → StronglySorted Z.lt ids → span ≤ 4294967296 →
  length vs = length ids → reads_vals at_ vs →
  (∀ pos, 0 ≤ pos → Column_Get c pos = rankGet r at_ pos) → Column_Entries c = rank_entries r at_ →
  Column_Len c = Ok (len vs) → represents c (zip ids vs).
Proof.
  intros Hr Hs Hspan Hl Hat Hg He Hlen. split.
  - by rewrite fst_zip by lia.
  - intros pos Hp. rewrite Hg by done. apply slots_get; [done..|]. by eapply rank_slot_ok.
  - by rewrite He, (rank_entries_ok r ids span at_ vs).
  - rewrite Hlen. f_equal. unfold len. rewrite length_zip_with. lia.
Qed.

(** ** The dense integer classes *)

Lemma narrow_reads vals v : Forall (λ v, is_i64 v) vals → narrowI64Vals vals = Ok (Some v) →
  nv_n v = Ok (len vals) ∧ reads_vals (atNarrow v) (I64Value <$> vals).
Proof.
  intros HF Hv. destruct (narrowI64Vals_ok vals HF) as [E|(v' & E & Hn & Hat)]; [congruence|].
  assert (v' = v) as -> by congruence. split; [done|]. intros k x Hx. rewrite list_lookup_fmap in Hx.
  destruct (vals !! k) as [y|] eqn:Ey; [|done]. injection Hx as <-. unfold atNarrow. by rewrite (Hat k y Ey).
Qed.

Lemma narrowI64Vals_total vals : Forall (λ v, is_i64 v) vals →
  narrowI64Vals vals = Ok None ∨ ∃ v, narrowI64Vals vals = Ok (Some v).
Proof. intros HF. destruct (narrowI64Vals_ok vals HF) as [|(v & E & _)]; eauto. Qed.

(** The bit class: every value is the minimum or one more. *)
Lemma bitCol_fill (mn : Z) (vals : list Z) b0 : wf_bits b0 → bn b0 = len vals → (∀ i, bitAt b0 i = false) →
  ∃ b, foldM (λ b '(i, v), Bitset.Set_ b i (bool_decide (v ≠ mn))) (enum vals) b0 = Ok b ∧
    wf_bits b ∧ bn b = len vals ∧
    ∀ k v, vals !! k = Some v → bitAt b (Z.of_nat k) = bool_decide (v ≠ mn).
Proof.
  intros Hw Hn Hz. pose (P := λ (k : nat) b, wf_bits b ∧ bn b = len vals ∧
    ∀ j v, (j < k)%nat → vals !! j = Some v → bitAt b (Z.of_nat j) = bool_decide (v ≠ mn)).
  match goal with |- context [foldM ?f _ _] =>
    destruct (foldM_inv P f (enum vals) b0) as (b & E & Hb & Hbn & Hbit) end.
  - split_and!; [done..|]. lia.
  - intros k [i v] b [-> Hv]%lookup_enum (Hb & Hbn & Hbit). pose proof (lookup_lt_Some _ _ _ Hv).
    destruct (Set_bitAt b (Z.of_nat k) (bool_decide (v ≠ mn)) Hb) as (b' & -> & Hb' & Hbn' & Hbit').
    { rewrite Hbn. unfold len. lia. }
    exists b'. split; [done|]. split_and!; [done|congruence|]. intros j v' Hj Hv'. rewrite Hbit' by lia.
    destruct (decide (Z.of_nat j = Z.of_nat k)) as [D|D]; [assert (j = k) as -> by lia; rewrite Hv in Hv'; by injection Hv' as ->|]. apply Hbit; [lia|done].
  - exists b. split_and!; [done..|]. intros k v Hv. apply Hbit; [|done]. rewrite length_enum.
    by eapply lookup_lt_Some.
Qed.

Lemma bitCol_reads (mn : Z) (vals : list Z) b : Forall (λ v, mn ≤ v ≤ mn + 1 ∧ is_i64 v) vals → wf_bits b → bn b = len vals →
  (∀ k v, vals !! k = Some v → bitAt b (Z.of_nat k) = bool_decide (v ≠ mn)) →
  reads_vals (atBitCol mn b) (I64Value <$> vals).
Proof.
  intros HF Hw Hn Hbit k x Hx. rewrite list_lookup_fmap in Hx.
  destruct (vals !! k) as [v|] eqn:Ev; [|done]. injection Hx as <-.
  pose proof (Forall_lookup_1 _ _ _ _ HF Ev) as Hv. simpl in Hv. pose proof (lookup_lt_Some _ _ _ Ev).
  unfold atBitCol, bitCol_at. rewrite Get_bitAt, Hn, decide_True by (done || unfold len; lia).
  cbn [mbind res_bind]. rewrite (Hbit k v Ev). do 2 f_equal. case_bool_decide; [|lia].
  rewrite wrapS_small by lia. lia.
Qed.

Lemma narrowI64Column_ok vals : Forall (λ v, is_i64 v) vals → len vals ≤ 4294967296 →
  ∃ c, narrowI64Column vals = Ok c ∧ represents c (enum (I64Value <$> vals)) ∧ Column_Dtype c = DtypeI64.
Proof.
  intros HF Hl. unfold narrowI64Column. set (rest := _ ← narrowI64Vals vals; _).
  assert (∃ c, rest = Ok c ∧ represents c (enum (I64Value <$> vals)) ∧ Column_Dtype c = DtypeI64) as Hrest.
  { unfold rest. destruct (narrowI64Vals_total vals HF) as [E|[v E]]; rewrite E; cbn [mbind res_bind].
    - eexists. split; [done|]. split; [|done].
      by eapply dense_represents; [apply atVals_reads|by rewrite len_fmap|done|done..].
    - destruct (narrow_reads vals v HF E) as [Hn Hat]. eexists. split; [done|]. split; [|done].
      eapply (dense_represents _ (len vals)); [exact Hat|by rewrite len_fmap|done|..]; simpl;
        unfold denseI64Narrow.Get, denseI64Narrow.Entries, denseI64Narrow.Len; by rewrite Hn. }
  case_decide as D; [|done]. unfold narrowI64MinLen in D.
  destruct (idx_ok vals 0) as (v0 & -> & Hv0); [lia|]. cbn [mbind res_bind].
  destruct (minmax v0 vals) as [mn mx] eqn:Em. destruct (minmax_bounds _ _ _ _ Em) as (Hb & Hmn & Hmx & Hall).
  case_decide as D1; [|done].
  destruct (New_ok (len vals) ltac:(pose proof (len_nonneg vals); lia)) as (b0 & -> & Hb0 & Hn0 & Hz0).
  cbn [mbind res_bind].
  destruct (bitCol_fill mn vals b0 Hb0 Hn0 Hz0) as (b & -> & Hw & Hbn & Hbit). cbn [mbind res_bind].
  eexists. split; [done|]. split; [|done]. rewrite Forall_forall in HF, Hall.
  pose proof (HF v0 (list_elem_of_lookup_2 _ _ _ Hv0)) as Hv0r.
  assert (is_i64 mn) by (destruct Hmn as [->|?]; [done|by apply HF]).
  assert (is_i64 mx) by (destruct Hmx as [->|?]; [done|by apply HF]).
  rewrite (wrapU_wrapS 64 (mx - mn)), (wrapU_small 64 (mx - mn)) in D1 by lia.
  assert (reads_vals (atBitCol mn b) (I64Value <$> vals)) as Hat.
  { apply bitCol_reads; [|done..]. apply Forall_forall. intros v Hv. pose proof (Hall v Hv). simpl in *.
    split; [lia|by apply HF]. }
  eapply (dense_represents _ (len vals) (atBitCol mn b)); [exact Hat|by rewrite len_fmap|done|..]; simpl;
    unfold denseI64Bit.Get, denseI64Bit.Entries, denseI64Bit.Len, Bitset.Len; rewrite Hbn; [done| |done].
  rewrite !(dense_entries (len vals) _ (I64Value <$> vals)); [done|done|by rewrite len_fmap|done| |by rewrite len_fmap|done].
  intros k v Hv. rewrite (wrapU_small 32); [by apply Hat|].
  apply lookup_lt_Some in Hv. rewrite length_fmap in Hv. unfold len in *. lia.
Qed.

(** ** Properties *)

(** Integer narrowing is invisible: for every int64 column, whichever dense
    class is picked (one bit, 1, 2, 4 or 6 bytes a value, or plain words), every
    read, the enumeration and the length are those of the plain array, and the
    logical type stays I64. *)
Theorem narrowing_invisible (vals : list Z) : Forall (λ v, is_i64 v) vals → len vals ≤ 4294967296 →
  ∃ c, narrowI64Column vals = Ok c ∧ Column_Dtype c = DtypeI64 ∧
    (∀ pos, 0 ≤ pos → Column_Get c pos = Column_Get (denseI64Col vals) pos) ∧
    Column_Entries c = Column_Entries (denseI64Col vals) ∧ Column_Len c = Column_Len (denseI64Col vals).
Proof.
  intros HF Hl. destruct (narrowI64Column_ok vals HF Hl) as (c & E & [_ Hg He Hlen] & Ht).
  assert (represents (denseI64Col vals) (enum (I64Value <$> vals))) as [_ Hg' He' Hlen'].
  { eapply (dense_represents _ (len vals)); [apply atVals_reads|by rewrite len_fmap|done|done..]. }
  exists c. split_and!; [done|done| |congruence|congruence]. intros pos Hp. by rewrite Hg, Hg'.
Qed.

Definition demoFlags : list Z := (λ i, i `mod` 2 + 41) <$> seqZ 0 1024.

Lemma narrowing_invisible_witness :
  ∃ c, narrowI64Column demoFlags = Ok c ∧ Column_Dtype c = DtypeI64 ∧
    (∀ pos, 0 ≤ pos → Column_Get c pos = Column_Get (denseI64Col demoFlags) pos) ∧
    Column_Entries c = Column_Entries (denseI64Col demoFlags) ∧ Column_Len c = Column_Len (denseI64Col demoFlags).
Proof.
  apply (narrowing_invisible demoFlags); [|by vm_compute].
  apply Forall_fmap, Forall_seqZ. intros i Hi. simpl. pose proof (Z.mod_pos_bound i 2). lia.
Defined.

(** Rank/select and sparse storage of the same pairs are interchangeable:
    for positions sorted without duplicates below the span, building the rank
    index succeeds, and every read (one block rank plus one masked population
    count against a binary search), the enumeration and the length of the two
    columns agree. *)
Theorem rank_equals_sparse (ids vals : list Z) (span : Z) :
  StronglySorted Z.lt ids → Forall (λ p, 0 ≤ p < span) ids → length vals = length ids →
  0 ≤ span < 4294967296 →
  ∃ r, buildRankIndex ids span = Ok r ∧
    (∀ pos, 0 ≤ pos → Column_Get (rankI64Col r vals) pos = Column_Get (sparseI64Col ids vals) pos) ∧
    Column_Entries (rankI64Col r vals) = Column_Entries (sparseI64Col ids vals) ∧
    Column_Len (rankI64Col r vals) = Column_Len (sparseI64Col ids vals).
Proof.
  intros Hs HF Hl Hspan. destruct (buildRankIndex_ok ids span Hs HF Hspan) as (r & E & Hr).
  assert (length (I64Value <$> vals) = length ids) as Hl' by (by rewrite length_fmap).
  assert (represents (rankI64Col r vals) (zip ids (I64Value <$> vals))) as [_ Hg He Hlen].
  { eapply rank_represents; [exact Hr|done|lia|done|apply atVals_reads|done|done|].
    simpl. unfold rankI64.Len. by rewrite len_fmap. }
  assert (represents (sparseI64Col ids vals) (zip ids (I64Value <$> vals))) as [_ Hg' He' Hlen'].
  { eapply sparse_represents; [done|done|apply atVals_reads|done..]. }
  exists r. split_and!; [done| |congruence|congruence]. intros pos Hp. by rewrite Hg, Hg'.
Qed.

Lemma rank_equals_sparse_witness :
  ∃ r, buildRankIndex [3; 64; 130] 200 = Ok r ∧
    (∀ pos, 0 ≤ pos → Column_Get (rankI64Col r [7; -1; 9]) pos = Column_Get (sparseI64Col [3; 64; 130] [7; -1; 9]) pos) ∧
    Column_Entries (rankI64Col r [7; -1; 9]) = Column_Entries (sparseI64Col [3; 64; 130] [7; -1; 9]) ∧
    Column_Len (rankI64Col r [7; -1; 9]) = Column_Len (sparseI64Col [3; 64; 130] [7; -1; 9]).
Proof. apply (rank_equals_sparse [3; 64; 130] [7; -1; 9] 200); [by repeat constructor..|done|lia]. Defined.

(** The binary search of a sparse column is exact: on strictly ascending
    ids it terminates within its rounds and returns the slot of the position
    when it is there, and not-ok otherwise. *)
Theorem sparseSlot_exact (ids : list Z) (pos : Z) : StronglySorted Z.lt ids →
  (∃ k, ids !! k = Some pos ∧ sparseSlot ids pos = Ok (Z.of_nat k, true)) ∨
  ((pos ∉ ids) ∧ sparseSlot ids pos = Ok (0, false)).
Proof. apply sparseSlot_ok. Qed.

Lemma sparseSlot_exact_witness : sparseSlot [2; 5; 9] 9 = Ok (2, true).
Proof.
  destruct (sparseSlot_exact [2; 5; 9] 9) as [(k & Hk & ->)|[Hn _]]; [by repeat constructor| |].
  - by destruct k as [|[|[|k]]]; simplify_eq/=.
  - destruct Hn. by right; right; left.
Defined.
