(* ===== verification/FinalizeColumns.v ===== *)
(** Column building: the storage selection of [src/finalize.go].

    A staged column is a list of (position, value) writes in the order they
    were made. Finalization picks dense, rank/select or sparse storage, plain
    or narrow. The theorems: whatever the choice, the column represents exactly
    the last write at every position; a dense string column reads atom 0 where
    nothing was written, and nowhere else differs. *)

From Stdlib Require Import Floats.SpecFloat.
From S2P Require Import Prelude Bitset Value Narrow Columns.

Definition rankSelectMinLen : Z := 1000000.

Definition rankSelectWorth (span present valueBits sparsePairBytes : Z) : bool :=
  if decide (span < rankSelectMinLen) then false
  else
    let rankBits := span + present * valueBits in
    let sparseBits := present * sparsePairBytes * 8 in
    bool_decide (rankBits ≤ sparseBits).

(** [sort.SliceStable] by position: an element moves before the later ones
    that are not smaller. *)
Fixpoint insertStable {A} (p : Z * A) (l : list (Z * A)) : list (Z * A) :=
  match l with
  | [] => [p]
  | q :: l' => if decide (q.1 < p.1) then q :: insertStable p l' else p :: l
  end.
Definition SliceStable {A} (l : list (Z * A)) : list (Z * A) := foldr insertStable [] l.

(** The compaction loop: a pair followed by one for the same position is
    skipped. *)
Fixpoint keepLast {A} (l : list (Z * A)) : list (Z * A) :=
  match l with
  | p :: ((q :: _) as l') => if decide (q.1 = p.1) then keepLast l' else p :: keepLast l'
  | _ => l
  end.

Definition sortPairsLastWriteWins {A} (pairs : list (Z * A)) : list (Z * A) :=
  keepLast (SliceStable pairs).

Definition denseThreshold (pairCount span : Z) : bool := bool_decide (span ≤ pairCount).

(** [float64(span)], the constant 0.8 and the conversion back to [int]. *)
Definition float64OfInt (z : Z) : spec_float := binary_normalize 53 1024 z 0 false.
Definition float64_0_8 : spec_float := S754_finite false 7205759403792794 (-53).
Definition intOfFloat64 (f : spec_float) : Z :=
  match f with
  | S754_finite s m e =>
      let a := if decide (0 ≤ e) then Z.pos m * 2 ^ e else Z.pos m / 2 ^ (- e) in
      if s : bool then - a else a
  | _ => 0
  end.

Definition denseStrThreshold (fill span : Z) : bool :=
  bool_decide (intOfFloat64 (SFmul 53 1024 (float64OfInt span) float64_0_8) ≤ fill).

Definition distinctPositions {A} (pairs : list (Z * A)) (span : Z) : res Z :=
  seen ← Bitset.New span;
  '(_, covered) ← foldM (λ '(seen, covered) (p : Z * A),
      let id := p.1 in
      g ← Bitset.Get seen id;
      if g : bool then Ok (seen, covered)
      else seen ← Bitset.Set_ seen id true; Ok (seen, covered + 1)) pairs (seen, 0);
  Ok covered.

Definition coversAllPositions {A} (pairs : list (Z * A)) (span : Z) : res bool :=
  d ← distinctPositions pairs span; Ok (bool_decide (d = span)).

(** [denseThreshold(len(pairs), span) && coversAllPositions(pairs, span)]. *)
Definition denseFull {A} (pairs : list (Z * A)) (span : Z) : res bool :=
  if denseThreshold (len pairs) span then coversAllPositions pairs span else Ok false.

(** [for _, p := range pairs { col[p.id] = p.val }]. *)
Definition fillDense {A} (pairs : list (Z * A)) (col : list A) : res (list A) :=
  foldM (λ col (p : Z * A), upd col p.1 p.2) pairs col.

Definition columnFromPairsI64 (pairs : list (Z * Z)) (span : Z) : res Column :=
  dense ← denseFull pairs span;
  if dense : bool then
    col ← fillDense pairs (replicate (Z.to_nat span) 0);
    narrowI64Column col
  else
    let pairs := sortPairsLastWriteWins pairs in
    let ids := pairs.*1 in
    let vals := pairs.*2 in
    nv ← narrowI64Vals vals;
    if rankSelectWorth span (len pairs) 64 16 then
      r ← buildRankIndex ids span;
      match nv with
      | Some nv => Ok (rankI64NarrowCol r nv)
      | None => Ok (rankI64Col r vals)
      end
    else match nv with
    | Some nv => Ok (sparseI64NarrowCol ids nv)
    | None => Ok (sparseI64Col ids vals)
    end.

Definition columnFromPairsF64 (pairs : list (Z * Z)) (span : Z) : res Column :=
  dense ← denseFull pairs span;
  if dense : bool then
    col ← fillDense pairs (replicate (Z.to_nat span) 0);
    Ok (denseF64Col col)
  else
    let pairs := sortPairsLastWriteWins pairs in
    let ids := pairs.*1 in
    let vals := pairs.*2 in
    if rankSelectWorth span (len pairs) 64 16 then
      r ← buildRankIndex ids span; Ok (rankF64Col r vals)
    else Ok (sparseF64Col ids vals).

Definition columnFromPairsBool (pairs : list (Z * bool)) (span : Z) : res Column :=
  dense ← denseFull pairs span;
  if dense : bool then
    b0 ← Bitset.New span;
    col ← foldM (λ col (p : Z * bool), Bitset.Set_ col p.1 p.2) pairs b0;
    Ok (denseBoolCol col)
  else
    let pairs := sortPairsLastWriteWins pairs in
    let ids := pairs.*1 in
    if rankSelectWorth span (len pairs) 1 8 then
      b0 ← Bitset.New (len pairs);
      vals ← foldM (λ b '(i, p), Bitset.Set_ b i (p.2)) (enum pairs) b0;
      r ← buildRankIndex ids span; Ok (rankBoolCol r vals)
    else Ok (sparseBoolCol ids pairs.*2).

Definition columnFromPairsStr (pairs : list (Z * Z)) (span : Z) : res Column :=
  fill ← distinctPositions pairs span;
  if denseStrThreshold fill span then
    col ← fillDense pairs (replicate (Z.to_nat span) 0);
    Ok (denseStrCol col)
  else
    let pairs := sortPairsLastWriteWins pairs in
    let ids := pairs.*1 in
    let vals := pairs.*2 in
    if rankSelectWorth span (len pairs) 32 8 then
      r ← buildRankIndex ids span; Ok (rankStrCol r vals)
    else Ok (sparseStrCol ids vals).

(** ** The writes as a map *)

(** The abstract column: each write replaces the one before it. *)
Definition written {A} (pairs : list (Z * A)) : gmap Z A :=
  foldl (λ m p, <[p.1 := p.2]> m) ∅ pairs.

Section written.
Context {A : Type}.
Implicit Types (pairs l : list (Z * A)) (m : gmap Z A) (p q : Z * A).

Abbreviation write := (λ m p, <[p.1 := p.2]> m).

Lemma write_insertStable p l m : foldl write m (insertStable p l) = foldl write m (p :: l).
Proof.
  revert m. induction l as [|q l IH]; intros m; simpl; [done|]. case_decide as D; [|done].
  simpl. rewrite IH. simpl. f_equal. apply insert_insert_ne. lia.
Qed.

Lemma write_SliceStable l m : foldl write m (SliceStable l) = foldl write m l.
Proof.
  revert m. induction l as [|p l IH]; intros m; [done|].
  change (SliceStable (p :: l)) with (insertStable p (SliceStable l)). rewrite write_insertStable. simpl. apply IH.
Qed.

Lemma write_keepLast l m : foldl write m (keepLast l) = foldl write m l.
Proof.
  revert m. induction l as [|p [|q l] IH]; intros m; [done..|].
  cbn [keepLast] in *. case_decide as D.
  - rewrite IH. simpl. rewrite <- D. by rewrite insert_insert_eq.
  - simpl. by rewrite IH.
Qed.

Lemma written_sorted pairs : written (sortPairsLastWriteWins pairs) = written pairs.
Proof. unfold written, sortPairsLastWriteWins. by rewrite write_keepLast, write_SliceStable. Qed.

Lemma elem_of_insertStable p l x : x ∈ insertStable p l ↔ x = p ∨ x ∈ l.
Proof.
  induction l as [|q l IH]; simpl; [by rewrite list_elem_of_singleton, elem_of_nil; tauto|].
  case_decide; rewrite !elem_of_cons, ?IH, ?elem_of_cons; tauto.
Qed.

Lemma insertStable_sorted p l : StronglySorted Z.le l.*1 → StronglySorted Z.le (insertStable p l).*1.
Proof.
  induction l as [|q l IH]; intros Hs; simpl in *; [repeat constructor|].
  apply StronglySorted_cons in Hs as [Hq Hs]. case_decide as D.
  - simpl. constructor; [auto|]. apply Forall_fmap, Forall_forall. intros x Hx%elem_of_insertStable. simpl.
    rewrite Forall_fmap, Forall_forall in Hq. destruct Hx as [->|Hx]; [lia|by apply Hq].
  - simpl. constructor; [by constructor|]. constructor; [lia|].
    eapply Forall_impl; [exact Hq|]. simpl. intros. lia.
Qed.

Lemma SliceStable_sorted l : StronglySorted Z.le (SliceStable l).*1.
Proof. induction l as [|p l IH]; [constructor|]. by apply insertStable_sorted. Qed.

Lemma keepLast_subset l x : x ∈ keepLast l → x ∈ l.
Proof.
  induction l as [|p [|q l] IH]; [done..|]. cbn [keepLast] in *. case_decide.
  - intros Hx%IH. by right.
  - rewrite elem_of_cons. intros [->|Hx%IH]; [by left|by right].
Qed.

Lemma keepLast_strict l : StronglySorted Z.le l.*1 → StronglySorted Z.lt (keepLast l).*1.
Proof.
  induction l as [|p [|q l] IH]; intros Hs; [constructor|repeat constructor|].
  rewrite fmap_cons in Hs. apply StronglySorted_cons in Hs as [Hp Hs]. specialize (IH Hs).
  cbn [keepLast] in *. case_decide as D; [done|]. rewrite fmap_cons. constructor; [done|].
  apply Forall_fmap, Forall_forall. intros x Hx%(keepLast_subset (q :: l)). simpl.
  rewrite fmap_cons in Hp, Hs. apply Forall_cons in Hp as [Hpq Hp]. apply StronglySorted_cons in Hs as [Hq _].
  rewrite Forall_fmap, Forall_forall in Hq. apply elem_of_cons in Hx as [->|Hx]; [lia|].
  specialize (Hq x Hx). simpl in *. lia.
Qed.

Lemma sortPairs_strict pairs : StronglySorted Z.lt (sortPairsLastWriteWins pairs).*1.
Proof. apply keepLast_strict, SliceStable_sorted. Qed.

Lemma sortPairs_subset pairs x : x ∈ sortPairsLastWriteWins pairs → x ∈ pairs.
Proof.
  intros Hx%keepLast_subset. unfold SliceStable in Hx. induction pairs as [|p pairs IH]; [done|].
  simpl in Hx. apply elem_of_insertStable in Hx as [->|Hx]; [by left|right; auto].
Qed.

(** Distinct positions: writing is building the map. *)
Lemma written_list_to_map l : NoDup l.*1 → written l = list_to_map l.
Proof.
  intros Hnd. apply map_eq. intros i.
  assert (∀ m, (∀ j, j ∈ l.*1 → m !! j = None) →
    foldl write m l !! i = match (list_to_map l : gmap Z A) !! i with Some v => Some v | None => m !! i end) as H.
  { induction l as [|[j v] l IH]; intros m Hm; simpl in *; [by rewrite lookup_empty|].
    apply NoDup_cons in Hnd as [Hj Hnd]. rewrite IH; [|done|].
    - rewrite !lookup_insert. destruct (list_to_map l !! i) eqn:E; case_decide; try done.
      subst. apply not_elem_of_list_to_map in Hj. congruence.
    - intros k Hk. rewrite lookup_insert_ne by (by intros ->). apply Hm. by right. }
  unfold written. rewrite H; [|by intros; rewrite lookup_empty]. rewrite lookup_empty. by destruct (list_to_map l !! i).
Qed.

Lemma written_app l p : written (l ++ [p]) = <[p.1 := p.2]> (written l).
Proof. unfold written. by rewrite foldl_app. Qed.

Lemma written_dom l i : is_Some (written l !! i) ↔ i ∈ l.*1.
Proof.
  induction l as [|p l IH] using rev_ind.
  { unfold written. simpl. rewrite lookup_empty. split; [by intros []|by intros ?%not_elem_of_nil]. }
  rewrite written_app, fmap_app, elem_of_app. simpl. rewrite list_elem_of_singleton, lookup_insert.
  case_decide as D; [split; eauto|]. rewrite IH. split; [auto|]. intros [?|?]; [done|congruence].
Qed.

End written.

(** ** Counting positions and filling arrays *)

Definition inSpan {A} (span : Z) (pairs : list (Z * A)) : Prop := Forall (λ p, 0 ≤ p.1 < span) pairs.

Lemma inSpan_lookup {A} span (pairs : list (Z * A)) k p : inSpan span pairs → pairs !! k = Some p → 0 ≤ p.1 < span.
Proof. intros HF Hk. exact (Forall_lookup_1 _ _ _ _ HF Hk). Qed.

Lemma distinctPositions_ok {A} (pairs : list (Z * A)) span : 0 ≤ span < 4294967296 → inSpan span pairs →
  distinctPositions pairs span = Ok (Z.of_nat (size (written pairs))).
Proof.
  intros Hspan HF. unfold distinctPositions.
  destruct (New_ok span ltac:(lia)) as (b0 & -> & Hb0 & Hn0 & Hz0). cbn [mbind res_bind].
  pose (P := λ (k : nat) (st : Bits * Z), wf_bits st.1 ∧ bn st.1 = span ∧
    st.2 = Z.of_nat (size (written (take k pairs))) ∧
    ∀ i, 0 ≤ i → bitAt st.1 i = bool_decide (i ∈ (take k pairs).*1)).
  match goal with |- context [foldM ?f pairs _] =>
    destruct (foldM_inv P f pairs (b0, 0)) as ([seen cov] & -> & _ & _ & Hcov & _) end.
  - split_and!; [done|done|done|]. intros i _. rewrite Hz0. symmetry. apply bool_decide_eq_false, not_elem_of_nil.
  - intros k p [seen cov] Hp (Hw & Hn & Hc & Hbit). simpl in Hw, Hn, Hc, Hbit.
    pose proof (inSpan_lookup _ _ _ _ HF Hp) as Hr.
    rewrite Get_bitAt, Hn, decide_True, Hbit by (done || lia). cbn [mbind res_bind].
    unfold P. rewrite (take_S_r _ _ _ Hp), written_app, fmap_app. case_bool_decide as D.
    + exists (seen, cov). split; [done|]. split_and!; [done..| |].
      * rewrite map_size_insert_Some by (by apply written_dom). done.
      * intros i Hi. simpl. rewrite Hbit by done. apply bool_decide_ext.
        rewrite elem_of_app, list_elem_of_singleton. split; [tauto|]. intros [| ->]; done.
    + destruct (Set_bitAt seen p.1 true Hw) as (seen' & -> & Hw' & Hn' & Hbit'); [lia|]. cbn [mbind res_bind].
      eexists. split; [done|]. simpl. split_and!; [done|congruence| |].
      * rewrite map_size_insert_None; [lia|]. apply eq_None_not_Some. by rewrite written_dom.
      * intros i Hi. rewrite Hbit', Hbit by done.
        destruct (decide (i = p.1)) as [->|Ni]; symmetry.
        -- apply bool_decide_eq_true. rewrite elem_of_app, list_elem_of_singleton. auto.
        -- apply bool_decide_ext. rewrite elem_of_app, list_elem_of_singleton. tauto.
  - cbn [mbind res_bind]. simpl in Hcov. rewrite Hcov. by rewrite take_ge by lia.
Qed.

(** As many distinct positions as the span has: every position is written. *)
Lemma written_full {A} (pairs : list (Z * A)) span : 0 ≤ span → inSpan span pairs →
  Z.of_nat (size (written pairs)) = span → ∀ i, 0 ≤ i < span → is_Some (written pairs !! i).
Proof.
  intros Hspan HF Hsz i Hi. apply elem_of_dom.
  assert (dom (written pairs) = list_to_set (zseq span)) as ->.
  { apply set_subseteq_size_eq.
    - intros j Hj. apply elem_of_dom in Hj. rewrite written_dom in Hj. apply list_elem_of_fmap in Hj as (p & -> & Hp).
      apply elem_of_list_to_set, elem_of_zseq. unfold inSpan in HF. rewrite Forall_forall in HF. by apply HF.
    - rewrite size_dom, size_list_to_set by (apply sorted_NoDup, zseq_sorted).
      unfold zseq. rewrite length_fmap, length_seq. lia. }
  by apply elem_of_list_to_set, elem_of_zseq.
Qed.

Lemma fillDense_ok {A} (pairs : list (Z * A)) col : inSpan (len col) pairs →
  ∃ col', fillDense pairs col = Ok col' ∧ len col' = len col ∧
    ∀ i, 0 ≤ i → col' !! Z.to_nat i =
      match written pairs !! i with Some v => Some v | None => col !! Z.to_nat i end.
Proof.
  intros HF. unfold fillDense.
  pose (P := λ (k : nat) c, len c = len col ∧ ∀ i, 0 ≤ i → c !! Z.to_nat i =
      match written (take k pairs) !! i with Some v => Some v | None => col !! Z.to_nat i end).
  match goal with |- context [foldM ?f pairs _] =>
    destruct (foldM_inv P f pairs col) as (c & -> & Hl & Hc) end.
  - done.
  - intros k p c Hp [Hl Hc]. pose proof (inSpan_lookup _ _ _ _ HF Hp) as Hr.
    unfold upd. rewrite decide_True by lia. eexists. split; [done|]. split; [by rewrite len_insert|].
    intros i Hi. rewrite (take_S_r _ _ _ Hp), written_app, lookup_insert.
    case_decide as D; [subst i|].
    + rewrite list_lookup_insert_eq by (unfold len in *; lia). done.
    + rewrite list_lookup_insert_ne by lia. auto.
  - exists c. split_and!; [done..|]. by rewrite take_ge in Hc by lia.
Qed.

(** ** What a column stores *)

(** The column represents exactly the map [m]. *)
Definition stores (c : Column) (m : gmap Z Value) : Prop :=
  ∃ l, represents c l ∧ list_to_map l = m.

Lemma lookup_enum_map (vs : list Value) pos :
  (list_to_map (enum vs) : gmap Z Value) !! pos = if decide (0 ≤ pos) then vs !! Z.to_nat pos else None.
Proof.
  case_decide as D.
  - destruct (vs !! Z.to_nat pos) as [v|] eqn:E.
    + apply elem_of_list_to_map; [rewrite fst_enum; apply sorted_NoDup, zseq_sorted|].
      apply list_elem_of_lookup. exists (Z.to_nat pos). apply lookup_enum. split; [lia|done].
    + apply not_elem_of_list_to_map. rewrite fst_enum, elem_of_zseq.
      apply lookup_ge_None in E. unfold len. lia.
  - apply not_elem_of_list_to_map. rewrite fst_enum, elem_of_zseq. lia.
Qed.

Lemma fmap_list_to_map {A} (mk : A → Value) (l : list (Z * A)) :
  (list_to_map (zip l.*1 (mk <$> l.*2)) : gmap Z Value) = mk <$> (list_to_map l : gmap Z A).
Proof.
  induction l as [|[i v] l IH]; [symmetry; apply fmap_empty|].
  change (zip ((i, v) :: l).*1 (mk <$> ((i, v) :: l).*2)) with ((i, mk v) :: zip l.*1 (mk <$> l.*2)).
  by rewrite !list_to_map_cons, IH, fmap_insert.
Qed.

(** Sorted pairs under any position-addressed layout. *)
Lemma sorted_stores {A} (mk : A → Value) (pairs : list (Z * A)) c :
  represents c (zip (sortPairsLastWriteWins pairs).*1 (mk <$> (sortPairsLastWriteWins pairs).*2)) →
  stores c (mk <$> written pairs).
Proof.
  intros Hr. eexists. split; [exact Hr|]. rewrite fmap_list_to_map. f_equal.
  rewrite <- written_list_to_map by (apply sorted_NoDup, sortPairs_strict). apply written_sorted.
Qed.

(** A fully written dense column. *)
Lemma dense_stores {A} (mk : A → Value) (pairs : list (Z * A)) (col : list A) c span :
  inSpan span pairs → len col = span → (∀ i, 0 ≤ i < span → col !! Z.to_nat i = written pairs !! i) →
  represents c (enum (mk <$> col)) → stores c (mk <$> written pairs).
Proof.
  intros HF Hl Hc Hr. eexists. split; [exact Hr|]. apply map_eq. intros i.
  rewrite lookup_enum_map, (lookup_fmap mk (written pairs)). case_decide as D.
  - rewrite list_lookup_fmap. f_equal. destruct (decide (i < span)); [by apply Hc|].
    rewrite lookup_ge_None_2 by (unfold len in *; lia). symmetry. apply eq_None_not_Some.
    rewrite written_dom. intros Hi%list_elem_of_fmap. destruct Hi as (p & -> & Hp).
    unfold inSpan in HF. rewrite Forall_forall in HF. specialize (HF p Hp). lia.
  - destruct (written pairs !! i) eqn:E; [|done]. assert (i ∈ pairs.*1) as Hi by (apply written_dom; by rewrite E).
    apply list_elem_of_fmap in Hi as (p & -> & Hp).
    unfold inSpan in HF. rewrite Forall_forall in HF. specialize (HF p Hp). lia.
Qed.

(** ** The selections *)

Lemma denseFull_ok {A} (pairs : list (Z * A)) span : 0 ≤ span < 4294967296 → inSpan span pairs →
  ∃ d, denseFull pairs span = Ok d ∧ (d = true → ∀ i, 0 ≤ i < span → is_Some (written pairs !! i)).
Proof.
  intros Hspan HF. unfold denseFull. destruct (denseThreshold _ _); [|by exists false].
  unfold coversAllPositions. rewrite distinctPositions_ok by done. cbn [mbind res_bind].
  eexists. split; [done|]. intros E%bool_decide_eq_true. apply written_full; [lia|done|done].
Qed.

(** The dense array of a fully written column. *)
Lemma fillFull_ok {A} (zero : A) (pairs : list (Z * A)) span : 0 ≤ span → inSpan span pairs →
  (∀ i, 0 ≤ i < span → is_Some (written pairs !! i)) →
  ∃ col, fillDense pairs (replicate (Z.to_nat span) zero) = Ok col ∧ len col = span ∧
    ∀ i, 0 ≤ i < span → col !! Z.to_nat i = written pairs !! i.
Proof.
  intros Hspan HF Hfull. destruct (fillDense_ok pairs (replicate (Z.to_nat span) zero)) as (col & -> & Hl & Hc).
  { rewrite len_replicate. by rewrite Z2Nat.id. }
  rewrite len_replicate, Z2Nat.id in Hl by done. exists col. split_and!; [done..|].
  intros i Hi. rewrite Hc by lia. by destruct (Hfull i Hi) as [v ->].
Qed.

Lemma sortPairs_inSpan {A} (pairs : list (Z * A)) span : inSpan span pairs →
  Forall (λ p, 0 ≤ p < span) (sortPairsLastWriteWins pairs).*1.
Proof.
  unfold inSpan. rewrite Forall_fmap, !Forall_forall. intros HF p Hp%sortPairs_subset. by apply HF.
Qed.

Lemma length_pairs {A B} (l : list (Z * A)) (f : A → B) : length (f <$> l.*2) = length l.*1.
Proof. by rewrite !length_fmap. Qed.

Lemma columnFromPairsI64_ok pairs span : 0 ≤ span < 4294967296 → inSpan span pairs →
  Forall (λ p, is_i64 p.2) pairs →
  ∃ c, columnFromPairsI64 pairs span = Ok c ∧ stores c (I64Value <$> written pairs) ∧ Column_Dtype c = DtypeI64.
Proof.
  intros Hspan HF Hv. unfold columnFromPairsI64.
  destruct (denseFull_ok pairs span Hspan HF) as (d & -> & Hd). cbn [mbind res_bind]. destruct d.
  - destruct (fillFull_ok 0 pairs span ltac:(lia) HF (Hd eq_refl)) as (col & -> & Hl & Hc).
    cbn [mbind res_bind]. destruct (narrowI64Column_ok col) as (c & -> & Hr & Ht).
    + apply Forall_lookup. intros k x Hx. pose proof (lookup_lt_Some _ _ _ Hx).
      specialize (Hc (Z.of_nat k) ltac:(unfold len in *; lia)). rewrite Nat2Z.id, Hx in Hc. symmetry in Hc.
      assert ((Z.of_nat k, x) ∈ pairs) as Hin.
      { apply sortPairs_subset. rewrite <- written_sorted in Hc.
        rewrite written_list_to_map in Hc by (apply sorted_NoDup, sortPairs_strict).
        by apply elem_of_list_to_map_2 in Hc. }
      rewrite Forall_forall in Hv. exact (Hv _ Hin).
    + lia.
    + exists c. split; [done|]. split; [|done]. by eapply dense_stores.
  - set (sp := sortPairsLastWriteWins pairs).
    assert (Forall (λ v, is_i64 v) sp.*2) as Hsv.
    { rewrite Forall_fmap, Forall_forall. intros p Hp%sortPairs_subset. rewrite Forall_forall in Hv. by apply Hv. }
    pose proof (sortPairs_strict pairs) as Hs. fold sp in Hs.
    assert (∀ c, represents c (zip sp.*1 (I64Value <$> sp.*2)) → stores c (I64Value <$> written pairs)) as Hst.
    { intros c. apply sorted_stores. }
    destruct (narrowI64Vals_total sp.*2 Hsv) as [En|[nv En]]; rewrite En; cbn [mbind res_bind];
      (destruct (rankSelectWorth _ _ _ _);
        [destruct (buildRankIndex_ok sp.*1 span Hs (sortPairs_inSpan pairs span HF) Hspan) as (r & -> & Hr);
         cbn [mbind res_bind]|]); eexists; (split; [done|]); (split; [|done]); apply Hst.
    + eapply rank_represents; [exact Hr|done|lia|apply length_pairs|apply atVals_reads|done|done|].
      simpl. unfold rankI64.Len. by rewrite !len_fmap.
    + eapply sparse_represents; [done|apply length_pairs|apply atVals_reads|done..].
    + destruct (narrow_reads _ _ Hsv En) as [Hn Hat].
      eapply rank_represents; [exact Hr|done|lia|apply length_pairs|exact Hat|done|done|].
      simpl. unfold rankI64Narrow.Len. by rewrite Hn, !len_fmap.
    + destruct (narrow_reads _ _ Hsv En) as [Hn Hat].
      eapply sparse_represents; [done|apply length_pairs|exact Hat|done..].
Qed.

Lemma columnFromPairsF64_ok pairs span : 0 ≤ span < 4294967296 → inSpan span pairs →
  ∃ c, columnFromPairsF64 pairs span = Ok c ∧ stores c (F64Value <$> written pairs) ∧ Column_Dtype c = DtypeF64.
Proof.
  intros Hspan HF. unfold columnFromPairsF64.
  destruct (denseFull_ok pairs span Hspan HF) as (d & -> & Hd). cbn [mbind res_bind]. destruct d.
  - destruct (fillFull_ok 0 pairs span ltac:(lia) HF (Hd eq_refl)) as (col & -> & Hl & Hc).
    cbn [mbind res_bind]. eexists. split; [done|]. split; [|done]. eapply dense_stores; [done..|].
    eapply (dense_represents _ (len col)); [apply atVals_reads|by rewrite len_fmap|lia|done..].
  - pose proof (sortPairs_strict pairs) as Hs.
    destruct (rankSelectWorth _ _ _ _).
    + destruct (buildRankIndex_ok _ span Hs (sortPairs_inSpan pairs span HF) Hspan) as (r & -> & Hr).
      cbn [mbind res_bind]. eexists. split; [done|]. split; [|done]. apply sorted_stores.
      eapply rank_represents; [exact Hr|done|lia|apply length_pairs|apply atVals_reads|done|done|].
      simpl. unfold rankF64.Len. by rewrite !len_fmap.
    + eexists. split; [done|]. split; [|done]. apply sorted_stores.
      eapply sparse_represents; [done|apply length_pairs|apply atVals_reads|done..].
Qed.

(** A bit vector as a list of booleans. *)
Definition bitsList (b : Bits) : list bool := bitAt b <$> zseq (bn b).

Lemma len_bitsList b : 0 ≤ bn b → len (bitsList b) = bn b.
Proof.
  intros H. unfold bitsList. rewrite len_fmap. unfold len, zseq. rewrite length_fmap, length_seq. lia.
Qed.

Lemma lookup_bitsList b i : 0 ≤ i < bn b → bitsList b !! Z.to_nat i = Some (bitAt b i).
Proof.
  intros Hi. unfold bitsList, zseq. rewrite !list_lookup_fmap, lookup_seq_lt by lia. simpl. do 2 f_equal. lia.
Qed.

Lemma atBits_reads b : wf_bits b → reads_vals (atBits b) (BoolValue <$> bitsList b).
Proof.
  intros Hw k v Hv. pose proof (wb_n _ Hw). apply lookup_lt_Some in Hv as Hk. rewrite length_fmap in Hk.
  pose proof (len_bitsList b ltac:(lia)) as L. unfold len in L.
  rewrite list_lookup_fmap in Hv. pose proof (lookup_bitsList b (Z.of_nat k) ltac:(lia)) as E.
  rewrite Nat2Z.id in E. rewrite E in Hv. injection Hv as <-.
  unfold atBits. rewrite Get_bitAt, decide_True by (done || lia). done.
Qed.

Lemma setPairs_ok (pairs : list (Z * bool)) b0 : wf_bits b0 → (∀ i, bitAt b0 i = false) →
  inSpan (bn b0) pairs →
  ∃ b, foldM (λ col (p : Z * bool), Bitset.Set_ col p.1 p.2) pairs b0 = Ok b ∧ wf_bits b ∧ bn b = bn b0 ∧
    ∀ i, 0 ≤ i → bitAt b i = default false (written pairs !! i).
Proof.
  intros Hw Hz HF. pose (P := λ (k : nat) b, wf_bits b ∧ bn b = bn b0 ∧
    ∀ i, 0 ≤ i → bitAt b i = default false (written (take k pairs) !! i)).
  match goal with |- context [foldM ?f pairs _] =>
    destruct (foldM_inv P f pairs b0) as (b & -> & Hb & Hn & Hbit) end.
  - split_and!; [done..|]. intros i _. by rewrite Hz.
  - intros k p b Hp (Hb & Hn & Hbit). pose proof (inSpan_lookup _ _ _ _ HF Hp) as Hr.
    destruct (Set_bitAt b p.1 p.2 Hb) as (b' & -> & Hb' & Hn' & Hbit'); [lia|].
    exists b'. split; [done|]. split_and!; [done|congruence|]. intros i Hi.
    rewrite Hbit', (take_S_r _ _ _ Hp), written_app, lookup_insert by done.
    destruct (decide (i = p.1)) as [->|]; [by rewrite decide_True|]. rewrite decide_False by congruence. auto.
  - exists b. split_and!; [done..|]. by rewrite take_ge in Hbit by lia.
Qed.

Lemma setEnum_ok (pairs : list (Z * bool)) b0 : wf_bits b0 → bn b0 = len pairs →
  ∃ b, foldM (λ b '(i, p), Bitset.Set_ b i (p.2)) (enum pairs) b0 = Ok b ∧ wf_bits b ∧ bitsList b = pairs.*2.
Proof.
  intros Hw Hn. pose (P := λ (k : nat) b, wf_bits b ∧ bn b = len pairs ∧
    ∀ j p, (j < k)%nat → pairs !! j = Some p → bitAt b (Z.of_nat j) = p.2).
  match goal with |- context [foldM ?f _ b0] =>
    destruct (foldM_inv P f (enum pairs) b0) as (b & -> & Hb & Hbn & Hbit) end.
  - split_and!; [done..|]. lia.
  - intros k [i p] b [-> Hp]%lookup_enum (Hb & Hbn & Hbit). pose proof (lookup_lt_Some _ _ _ Hp).
    destruct (Set_bitAt b (Z.of_nat k) p.2 Hb) as (b' & -> & Hb' & Hbn' & Hbit'); [unfold len in *; lia|].
    exists b'. split; [done|]. split_and!; [done|congruence|]. intros j q Hj Hq. rewrite Hbit' by lia.
    case_decide as D; [assert (j = k) as -> by lia; congruence|]. apply Hbit; [lia|done].
  - exists b. split_and!; [done..|]. pose proof (wb_n _ Hb) as Hb0. pose proof (len_bitsList b ltac:(lia)) as L.
    apply list_eq_same_length with (n := length pairs); [by rewrite length_fmap|unfold len in *; lia|].
    intros k x y Hk Hx Hy. pose proof (lookup_bitsList b (Z.of_nat k) ltac:(unfold len in *; lia)) as E.
    rewrite Nat2Z.id, Hx in E. injection E as ->. rewrite list_lookup_fmap in Hy.
    destruct (pairs !! k) as [p|] eqn:Ep; [|done]. injection Hy as <-. apply Hbit; [by rewrite length_enum|done].
Qed.

Lemma columnFromPairsBool_ok pairs span : 0 ≤ span < 4294967296 → inSpan span pairs →
  ∃ c, columnFromPairsBool pairs span = Ok c ∧ stores c (BoolValue <$> written pairs) ∧ Column_Dtype c = DtypeBool.
Proof.
  intros Hspan HF. unfold columnFromPairsBool.
  destruct (denseFull_ok pairs span Hspan HF) as (d & -> & Hd). cbn [mbind res_bind]. destruct d.
  - destruct (New_ok span ltac:(lia)) as (b0 & -> & Hb0 & Hn0 & Hz0). cbn [mbind res_bind].
    destruct (setPairs_ok pairs b0 Hb0 Hz0) as (b & -> & Hb & Hn & Hbit); [by rewrite Hn0|].
    cbn [mbind res_bind]. eexists. split; [done|]. split; [|done].
    eapply (dense_stores BoolValue pairs (bitsList b)); [done|rewrite len_bitsList; lia| |].
    + intros i Hi. rewrite lookup_bitsList, Hbit by lia. by destruct (Hd eq_refl i Hi) as [v ->].
    + eapply (dense_represents _ (bn b)); [by apply atBits_reads|by rewrite len_fmap, len_bitsList by lia|lia|done..].
  - pose proof (sortPairs_strict pairs) as Hs. set (sp := sortPairsLastWriteWins pairs) in *.
    destruct (rankSelectWorth span (len sp) 1 8) eqn:Erw.
    + assert (len sp ≤ span) as Hlen.
      { unfold rankSelectWorth in Erw. case_decide; [done|]. apply bool_decide_eq_true in Erw.
        (* distinct positions below [span] *)
        assert (length sp.*1 ≤ length (zseq span))%nat as Hle.
        { apply submseteq_length, NoDup_submseteq; [by apply sorted_NoDup|].
          intros x Hx. apply elem_of_zseq. pose proof (sortPairs_inSpan pairs span HF) as H'.
          rewrite Forall_forall in H'. by apply H'. }
        unfold zseq in Hle. rewrite !length_fmap, length_seq in Hle. unfold len. lia. }
      destruct (New_ok (len sp) ltac:(pose proof (len_nonneg sp); lia)) as (b0 & -> & Hb0 & Hn0 & _).
      cbn [mbind res_bind]. destruct (setEnum_ok sp b0 Hb0 Hn0) as (b & -> & Hb & Hbl). cbn [mbind res_bind].
      destruct (buildRankIndex_ok sp.*1 span Hs (sortPairs_inSpan pairs span HF) Hspan) as (r & -> & Hr).
      cbn [mbind res_bind]. eexists. split; [done|]. split; [|done]. apply sorted_stores. fold sp. rewrite <- Hbl.
      eapply (rank_represents _ r sp.*1 span (atBits b)); [done|done|lia|by rewrite Hbl, !length_fmap|by apply atBits_reads|done|done|].
      simpl. unfold rankBool.Len, Bitset.Len. rewrite len_fmap, len_bitsList; [done|]. pose proof (wb_n _ Hb). lia.
    + eexists. split; [done|]. split; [|done]. apply sorted_stores.
      eapply sparse_represents; [done|apply length_pairs|apply atVals_reads|done..].
Qed.

Lemma columnFromPairsStr_ok pairs span : 0 ≤ span < 4294967296 → inSpan span pairs →
  ∃ c, columnFromPairsStr pairs span = Ok c ∧ Column_Dtype c = DtypeStr ∧
    (stores c (StrValue <$> written pairs) ∨
     ∃ col, represents c (enum (StrValue <$> col)) ∧ len col = span ∧
       ∀ i, 0 ≤ i < span → col !! Z.to_nat i = Some (default 0 (written pairs !! i))).
Proof.
  intros Hspan HF. unfold columnFromPairsStr. rewrite distinctPositions_ok by done. cbn [mbind res_bind].
  destruct (denseStrThreshold _ _).
  - destruct (fillDense_ok pairs (replicate (Z.to_nat span) 0)) as (col & -> & Hl & Hc).
    { rewrite len_replicate. by rewrite Z2Nat.id by lia. }
    rewrite len_replicate, Z2Nat.id in Hl by lia. cbn [mbind res_bind]. eexists. split; [done|]. split; [done|].
    right. exists col. split_and!; [|done|].
    + eapply (dense_represents _ (len col)); [apply atVals_reads|by rewrite len_fmap|lia|done..].
    + intros i Hi. rewrite Hc by lia. destruct (written pairs !! i); [done|]. simpl.
      apply lookup_replicate_2. lia.
  - pose proof (sortPairs_strict pairs) as Hs. destruct (rankSelectWorth _ _ _ _).
    + destruct (buildRankIndex_ok _ span Hs (sortPairs_inSpan pairs span HF) Hspan) as (r & -> & Hr).
      cbn [mbind res_bind]. eexists. split; [done|]. split; [done|]. left. apply sorted_stores.
      eapply rank_represents; [exact Hr|done|lia|apply length_pairs|apply atVals_reads|done|done|].
      simpl. unfold rankStr.Len. by rewrite !len_fmap.
    + eexists. split; [done|]. split; [done|]. left. apply sorted_stores.
      eapply sparse_represents; [done|apply length_pairs|apply atVals_reads|done..].
Qed.

(** ** Properties *)

(** The reads of a column that stores a map. *)
Lemma stores_reads c m : stores c m →
  (∀ pos, 0 ≤ pos → Column_Get c pos = Ok (match m !! pos with Some v => (v, true) | None => (Value0, false) end)) ∧
  (∃ l, Column_Entries c = Ok l ∧ StronglySorted Z.lt l.*1 ∧ list_to_map l = m) ∧
  Column_Len c = Ok (Z.of_nat (size m)).
Proof.
  intros (l & [Hs Hg He Hl] & <-). split; [done|]. split; [by exists l|]. rewrite Hl. f_equal. unfold len.
  f_equal. symmetry. rewrite <- size_dom, dom_list_to_map_L, size_list_to_set by (by apply sorted_NoDup).
  apply length_fmap.
Qed.

(** Finalizing an integer property keeps exactly the last write at each
    position: for any writes within the span, in any order and with any
    repetitions, whichever of the seven integer layouts is picked, a read
    answers the last value written there and not-ok where nothing was, the
    enumeration lists those pairs in ascending order, and the length counts
    them. *)
Theorem columnFromPairsI64_last_write (pairs : list (Z * Z)) (span : Z) :
  0 ≤ span < 4294967296 → inSpan span pairs → Forall (λ p, is_i64 p.2) pairs →
  ∃ c, columnFromPairsI64 pairs span = Ok c ∧
    (∀ pos, 0 ≤ pos → Column_Get c pos =
      Ok (match written pairs !! pos with Some v => (I64Value v, true) | None => (Value0, false) end)) ∧
    (∃ l, Column_Entries c = Ok l ∧ StronglySorted Z.lt l.*1 ∧ list_to_map l = I64Value <$> written pairs) ∧
    Column_Len c = Ok (Z.of_nat (size (written pairs))).
Proof.
  intros Hspan HF Hv. destruct (columnFromPairsI64_ok pairs span Hspan HF Hv) as (c & E & Hst & _).
  destruct (stores_reads c _ Hst) as (Hg & He & Hl). exists c. split; [done|]. split_and!; [|done|].
  - intros pos Hp. rewrite Hg, lookup_fmap by done. by destruct (written pairs !! pos).
  - by rewrite Hl, map_size_fmap.
Qed.

Lemma columnFromPairsI64_last_write_witness :
  ∃ c, columnFromPairsI64 [(3, 7); (0, -1); (3, 9)] 5 = Ok c ∧
    (∀ pos, 0 ≤ pos → Column_Get c pos =
      Ok (match written [(3, 7); (0, -1); (3, 9)] !! pos with Some v => (I64Value v, true) | None => (Value0, false) end)) ∧
    (∃ l, Column_Entries c = Ok l ∧ StronglySorted Z.lt l.*1 ∧
      list_to_map l = I64Value <$> written [(3, 7); (0, -1); (3, 9)]) ∧
    Column_Len c = Ok 2.
Proof.
  apply (columnFromPairsI64_last_write [(3, 7); (0, -1); (3, 9)] 5); [lia|by repeat constructor..].
Defined.

(** The same holds for float and boolean properties: the finalized column,
    dense, rank/select or sparse, stores exactly the last write at each
    position. *)
Theorem columnFromPairs_F64_Bool_last_write (fp : list (Z * Z)) (bp : list (Z * bool)) (span : Z) :
  0 ≤ span < 4294967296 → inSpan span fp → inSpan span bp →
  (∃ c, columnFromPairsF64 fp span = Ok c ∧ Column_Dtype c = DtypeF64 ∧
    ∀ pos, 0 ≤ pos → Column_Get c pos =
      Ok (match written fp !! pos with Some v => (F64Value v, true) | None => (Value0, false) end)) ∧
  (∃ c, columnFromPairsBool bp span = Ok c ∧ Column_Dtype c = DtypeBool ∧
    ∀ pos, 0 ≤ pos → Column_Get c pos =
      Ok (match written bp !! pos with Some v => (BoolValue v, true) | None => (Value0, false) end)).
Proof.
  intros Hspan Hf Hb. split.
  - destruct (columnFromPairsF64_ok fp span Hspan Hf) as (c & E & Hst & Ht). exists c. split_and!; [done..|].
    intros pos Hp. rewrite (proj1 (stores_reads c _ Hst)), lookup_fmap by done. by destruct (written fp !! pos).
  - destruct (columnFromPairsBool_ok bp span Hspan Hb) as (c & E & Hst & Ht). exists c. split_and!; [done..|].
    intros pos Hp. rewrite (proj1 (stores_reads c _ Hst)), lookup_fmap by done. by destruct (written bp !! pos).
Qed.

Lemma columnFromPairs_F64_Bool_last_write_witness :
  ∃ c, columnFromPairsBool [(1, true); (0, true); (1, false)] 2 = Ok c ∧ Column_Dtype c = DtypeBool ∧
    ∀ pos, 0 ≤ pos → Column_Get c pos =
      Ok (match written [(1, true); (0, true); (1, false)] !! pos with
          | Some v => (BoolValue v, true) | None => (Value0, false) end).
Proof.
  apply (columnFromPairs_F64_Bool_last_write [(1, 5)] [(1, true); (0, true); (1, false)] 2);
    [lia|by repeat constructor..].
Defined.

(** A finalized string property reads the last atom written at a position;
    where nothing was written it reads as absent, or, when the column was dense
    enough for the dense layout, as the reserved atom 0: the two encodings of a
    missing string, and never anything else. *)
Theorem columnFromPairsStr_last_write (pairs : list (Z * Z)) (span pos : Z) :
  0 ≤ span < 4294967296 → inSpan span pairs → 0 ≤ pos < span →
  ∃ c, columnFromPairsStr pairs span = Ok c ∧ Column_Dtype c = DtypeStr ∧
    match written pairs !! pos with
    | Some a => Column_Get c pos = Ok (StrValue a, true)
    | None => Column_Get c pos = Ok (Value0, false) ∨ Column_Get c pos = Ok (StrValue 0, true)
    end.
Proof.
  intros Hspan HF Hpos. destruct (columnFromPairsStr_ok pairs span Hspan HF) as (c & E & Ht & Hc).
  exists c. split_and!; [done..|]. destruct Hc as [Hst|(col & [_ Hg _ _] & Hl & Hcol)].
  - rewrite (proj1 (stores_reads c _ Hst)), lookup_fmap by lia. destruct (written pairs !! pos); [done|by left].
  - rewrite Hg, lookup_enum_map, decide_True, list_lookup_fmap, Hcol by lia.
    destruct (written pairs !! pos); [done|by right].
Qed.

Lemma columnFromPairsStr_last_write_witness :
  ∃ c, columnFromPairsStr [(0, 4); (2, 6); (1, 5); (3, 9); (0, 8)] 5 = Ok c ∧ Column_Dtype c = DtypeStr ∧
    (Column_Get c 4 = Ok (Value0, false) ∨ Column_Get c 4 = Ok (StrValue 0, true)).
Proof.
  apply (columnFromPairsStr_last_write [(0, 4); (2, 6); (1, 5); (3, 9); (0, 8)] 5 4);
    [lia|by repeat constructor|lia].
Defined.
