(* ===== verification/Csr.v ===== *)
(** The adjacency build: [buildCSRDirection] of [src/finalize.go].

    A counting sort of the staged relationships into one CSR direction. The
    theorems: it succeeds on every staging state the builder maintains, each
    node's range holds exactly its relationships in insertion order, with their
    types, and the position map sends every staged relationship to its own
    slot. *)

From S2P Require Import Prelude.

(** [owner, other := r[endpoint], r[1-endpoint]]. *)
Definition ownerOf (endpoint : Z) (r : Z * Z) : Z := if decide (endpoint = 0) then r.1 else r.2.
Definition otherOf (endpoint : Z) (r : Z * Z) : Z := if decide (endpoint = 0) then r.2 else r.1.

(** [for i := range n { offsets[i+1] = offsets[i] + deg[i] }]. *)
Definition fillOffsets (n : Z) (deg : list Z) : res (list Z) :=
  foldM (λ offsets i, o ← idx offsets i; d ← idx deg i; upd offsets (i + 1) (to_u32 (o + d)))
    (zseq n) (replicate (Z.to_nat (n + 1)) 0).

(** The arrays the placement loop writes. *)
Record csrState := mkCsr { cs_nbrs : list Z; cs_types : list Z; cs_relToCSR : list Z; cs_next : list Z }.

Definition placeRel (relTypes : list Z) (endpoint : Z) (st : csrState) (x : Z * (Z * Z)) : res csrState :=
  let '(i, r) := x in
  let owner := ownerOf endpoint r in
  let other := otherOf endpoint r in
  pos ← idx (cs_next st) owner;
  nbrs ← upd (cs_nbrs st) pos other;
  t ← idx relTypes i;
  types ← upd (cs_types st) pos t;
  relToCSR ← upd (cs_relToCSR st) i pos;
  next ← upd (cs_next st) owner (to_u32 (pos + 1));
  Ok (mkCsr nbrs types relToCSR next).

Definition buildCSRDirection (n : Z) (rels : list (Z * Z)) (relTypes deg : list Z) (endpoint : Z)
    : res (list Z * list Z * list Z * list Z) :=
  let m := length rels in
  offsets ← fillOffsets n deg;
  next ← slice offsets 0 n;
  st ← foldM (placeRel relTypes endpoint) (enum rels)
         (mkCsr (replicate m 0) (replicate m 0) (replicate m 0) next);
  Ok (offsets, cs_nbrs st, cs_types st, cs_relToCSR st).

(** ** Counting *)

Section counting.
Context {A : Type} (key : A → Z).
Implicit Types l : list A.

(** Elements with a smaller key, and with this key. *)
Definition below l (v : Z) : Z := len (filter (λ x, key x < v) l).
Definition equal l (v : Z) : Z := len (filter (λ x, key x = v) l).

Lemma below_S l v : below l (v + 1) = below l v + equal l v.
Proof.
  unfold below, equal. induction l as [|x l IH]; [done|]. rewrite !filter_cons.
  repeat case_decide; rewrite ?len_cons in *; lia.
Qed.

Lemma below_mono l v w : v ≤ w → below l v ≤ below l w.
Proof.
  intros H. unfold below. induction l as [|x l IH]; [done|]. rewrite !filter_cons.
  repeat case_decide; rewrite ?len_cons in *; lia.
Qed.

Lemma below_zero l : Forall (λ x, 0 ≤ key x) l → below l 0 = 0.
Proof.
  unfold below. induction 1 as [|x l Hx HF IH]; [done|]. rewrite filter_cons_False by lia. done.
Qed.

Lemma below_len l v : below l v ≤ len l.
Proof. unfold below, len. apply inj_le, length_filter. Qed.

Lemma equal_take_S l k x v : l !! k = Some x →
  equal (take (S k) l) v = equal (take k l) v + (if decide (key x = v) then 1 else 0).
Proof.
  intros Hx. unfold equal. rewrite (take_S_r _ _ _ Hx), filter_app, len_app. f_equal.
  rewrite filter_cons. by case_decide.
Qed.

Lemma equal_take_le l i j v : (i ≤ j)%nat → equal (take i l) v ≤ equal (take j l) v.
Proof.
  intros H. unfold equal. replace (take j l) with (take i (take j l) ++ drop i (take j l)) by apply take_drop.
  rewrite take_take, Nat.min_l, filter_app, len_app by lia.
  pose proof (len_nonneg (filter (λ x, key x = v) (drop i (take j l)))). lia.
Qed.

Lemma equal_take_lt l k x : l !! k = Some x → equal (take k l) (key x) < equal l (key x).
Proof.
  intros Hx. pose proof (equal_take_S l k x (key x) Hx) as E. rewrite decide_True in E by done.
  pose proof (equal_take_le l (S k) (length l) (key x)) as H.
  rewrite (take_ge l (length l)) in H by lia. apply lookup_lt_Some in Hx. lia.
Qed.

(** The slot of the [k]-th element. *)
Definition slotOf l (k : nat) (x : A) : Z := below l (key x) + equal (take k l) (key x).

Lemma slotOf_range l k x : l !! k = Some x → below l (key x) ≤ slotOf l k x < below l (key x + 1).
Proof.
  intros Hx. rewrite below_S. unfold slotOf. pose proof (equal_take_lt l k x Hx).
  pose proof (len_nonneg (filter (λ y, key y = key x) (take k l))). unfold equal in *. lia.
Qed.

Lemma slotOf_inj l i j x y : l !! i = Some x → l !! j = Some y → slotOf l i x = slotOf l j y → i = j.
Proof.
  intros Hx Hy E. pose proof (slotOf_range l i x Hx). pose proof (slotOf_range l j y Hy).
  destruct (Z.lt_trichotomy (key x) (key y)) as [Hlt|[Heq|Hlt]].
  - pose proof (below_mono l (key x + 1) (key y)). lia.
  - unfold slotOf in E. rewrite Heq in E.
    destruct (Nat.lt_trichotomy i j) as [Hij|[|Hij]]; [|done|].
    + pose proof (equal_take_le l (S i) j (key y) Hij) as H1.
      rewrite (equal_take_S l i x), decide_True in H1 by done. lia.
    + pose proof (equal_take_le l (S j) i (key y) Hij) as H1.
      rewrite (equal_take_S l j y), decide_True in H1 by done. lia.
  - pose proof (below_mono l (key y + 1) (key x)). lia.
Qed.

(** The [t]-th element with a key, and where it stands. *)
Lemma filter_at l v t x : filter (λ y, key y = v) l !! t = Some x →
  ∃ k, l !! k = Some x ∧ key x = v ∧ equal (take k l) v = Z.of_nat t.
Proof.
  revert t. induction l as [|a l IH]; intros t Ht; [done|]. rewrite filter_cons in Ht. case_decide as D.
  - destruct t as [|t]; simpl in Ht.
    + injection Ht as ->. by exists 0%nat.
    + destruct (IH t Ht) as (k & Hk & Hx & E). exists (S k). split_and!; [done..|].
      simpl. unfold equal in *. rewrite filter_cons_True, len_cons by done. lia.
  - destruct (IH t Ht) as (k & Hk & Hx & E). exists (S k). split_and!; [done..|].
    simpl. unfold equal in *. by rewrite filter_cons_False by done.
Qed.

End counting.

(** ** Correctness *)

Section build.
Context (n : Z) (rels : list (Z * Z)) (relTypes deg : list Z) (endpoint : Z).

Abbreviation owner := (ownerOf endpoint).
Abbreviation other := (otherOf endpoint).

(** What the builder maintains: endpoints inside the id space, a type a
    relationship, degree counters that count, and few enough of everything. *)
Record staged : Prop := {
  sg_n : 0 ≤ n ≤ 4294967296;
  sg_rels : Forall (λ r, 0 ≤ owner r < n) rels;
  sg_m : len rels < 4294967296;
  sg_types : length relTypes = length rels;
  sg_deg : ∀ v, 0 ≤ v < n → deg !! Z.to_nat v = Some (equal owner rels v);
}.
Context (Hst : staged).

Lemma below_all : below owner rels n = len rels.
Proof using Hst.
  destruct Hst as [_ HF _ _ _]. clear Hst. unfold below. induction HF as [|r l Hr HF IH]; [done|].
  rewrite filter_cons_True by lia. rewrite !len_cons. lia.
Qed.

Lemma fillOffsets_ok : ∃ offsets, fillOffsets n deg = Ok offsets ∧ len offsets = n + 1 ∧
  ∀ v, 0 ≤ v ≤ n → offsets !! Z.to_nat v = Some (below owner rels v).
Proof using Hst.
  destruct Hst as [Hn HF Hm Ht Hd]. unfold fillOffsets.
  pose (P := λ (k : Z) offs, len offs = n + 1 ∧ ∀ v, 0 ≤ v ≤ k → offs !! Z.to_nat v = Some (below owner rels v)).
  match goal with |- context [foldM ?f (zseq n) ?b] =>
    destruct (foldM_zseq P f n b) as (offs & -> & Hl & Ho) end.
  - lia.
  - split; [rewrite len_replicate; lia|]. intros v Hv. assert (v = 0) as -> by lia.
    rewrite lookup_replicate_2 by lia. f_equal. symmetry. apply below_zero.
    eapply Forall_impl; [exact HF|]. simpl. lia.
  - intros i offs Hi [Hl Ho]. rewrite (idx_lookup offs _ (below owner rels i)) by (lia || apply Ho; lia).
    cbn [mbind res_bind]. rewrite (idx_lookup deg _ (equal owner rels i)) by (lia || by apply Hd).
    cbn [mbind res_bind]. rewrite <- below_S.
    pose proof (below_len owner rels (i + 1)). pose proof (len_nonneg (filter (λ x, owner x < i + 1) rels)).
    rewrite (wrapU_small 32) by (unfold below in *; lia). unfold upd. rewrite decide_True by lia.
    eexists. split; [done|]. split; [by rewrite len_insert|]. intros v Hv.
    destruct (decide (v = i + 1)) as [->|].
    + apply list_lookup_insert_eq. unfold len in *. lia.
    + rewrite list_lookup_insert_ne by lia. apply Ho. lia.
  - by exists offs.
Qed.

(** After [k] relationships: every node's cursor has moved past those it owns,
    and each of them sits in its slot. *)
Record placed (k : nat) (st : csrState) : Prop := {
  pd_nbrs_len : length (cs_nbrs st) = length rels;
  pd_types_len : length (cs_types st) = length rels;
  pd_map_len : length (cs_relToCSR st) = length rels;
  pd_next_len : len (cs_next st) = n;
  pd_next : ∀ v, 0 ≤ v < n →
    cs_next st !! Z.to_nat v = Some (below owner rels v + equal owner (take k rels) v);
  pd_done : ∀ j r t, (j < k)%nat → rels !! j = Some r → relTypes !! j = Some t →
    cs_nbrs st !! Z.to_nat (slotOf owner rels j r) = Some (other r) ∧
    cs_types st !! Z.to_nat (slotOf owner rels j r) = Some t ∧
    cs_relToCSR st !! j = Some (slotOf owner rels j r);
}.

Lemma slot_bounds k r : rels !! k = Some r → 0 ≤ owner r < n ∧ 0 ≤ slotOf owner rels k r < len rels.
Proof using Hst.
  intros Hr. pose proof (Forall_lookup_1 _ _ _ _ (sg_rels Hst) Hr) as Ho. simpl in Ho. split; [done|].
  pose proof (slotOf_range owner rels k r Hr). pose proof (below_len owner rels (owner r + 1)).
  pose proof (len_nonneg (filter (λ x, owner x < owner r) rels)). unfold below in *. lia.
Qed.

Lemma placeRel_ok k i r st : rels !! k = Some r → i = Z.of_nat k → placed k st →
  ∃ st', placeRel relTypes endpoint st (i, r) = Ok st' ∧ placed (S k) st'.
Proof using Hst.
  intros Hr -> [Hnl Htl Hml Hxl Hnext Hdone]. pose proof (slot_bounds k r Hr) as [Ho Hs].
  pose proof (sg_m Hst) as Hm. pose proof (lookup_lt_Some _ _ _ Hr) as Hk.
  destruct (lookup_lt_is_Some_2 relTypes k) as [t Ht]; [by rewrite (sg_types Hst)|].
  unfold placeRel. rewrite (idx_lookup (cs_next st) _ (slotOf owner rels k r)) by (lia || by apply Hnext).
  set (pos := slotOf owner rels k r) in *. cbn [mbind res_bind].
  rewrite (idx_lookup relTypes _ t) by (lia || by rewrite Nat2Z.id). unfold upd.
  repeat (rewrite decide_True by (unfold len in *; lia); cbn [mbind res_bind]).
  rewrite Nat2Z.id. rewrite (wrapU_small 32) by lia. eexists. split; [done|].
  split; cbn [cs_nbrs cs_types cs_relToCSR cs_next]; [by rewrite length_insert..|by rewrite len_insert| |].
  - intros v Hv. rewrite (equal_take_S owner rels k r v Hr). destruct (decide (v = owner r)) as [->|Nv].
    + rewrite list_lookup_insert_eq by (unfold len in *; lia). rewrite decide_True by done. f_equal.
      unfold pos, slotOf. lia.
    + rewrite list_lookup_insert_ne by lia. rewrite decide_False, Z.add_0_r by congruence. by apply Hnext.
  - intros j r' t' Hj Hr' Ht'. destruct (decide (j = k)) as [->|Nj].
    + assert (r' = r) as -> by congruence. assert (t' = t) as -> by congruence. fold pos.
      rewrite !list_lookup_insert_eq by (unfold len in *; lia). done.
    + destruct (Hdone j r' t') as (E1 & E2 & E3); [lia|done..|].
      pose proof (slot_bounds j r' Hr') as [_ Hs'].
      assert (slotOf owner rels j r' ≠ pos) as Hne.
      { intros E. apply Nj. eapply (slotOf_inj owner rels j k r' r); done. }
      rewrite !list_lookup_insert_ne by lia. done.
Qed.

(** The staged relationships a node owns, with their types, in order. *)
Definition owned (v : Z) : list ((Z * Z) * Z) := filter (λ p, owner p.1 = v) (zip rels relTypes).

Lemma equal_zip k v : equal (owner ∘ fst) (take k (zip rels relTypes)) v = equal owner (take k rels) v.
Proof using Hst.
  pose proof (sg_types Hst) as Ht. clear Hst. unfold equal. revert k relTypes Ht.
  induction rels as [|r l IH]; intros [|k] [|t ts] Ht; simplify_eq/=; [done..|].
  rewrite !filter_cons. simpl. case_decide; rewrite ?len_cons, IH by lia; done.
Qed.

Lemma placed_slice st v (proj : (Z * Z) * Z → Z) arr : placed (length rels) st → 0 ≤ v < n →
  (∀ j r t, rels !! j = Some r → relTypes !! j = Some t →
    arr !! Z.to_nat (slotOf owner rels j r) = Some (proj (r, t))) → length arr = length rels →
  slice arr (below owner rels v) (below owner rels (v + 1)) = Ok (proj <$> owned v).
Proof using Hst.
  intros Hp Hv Harr Hlen. pose proof (below_len owner rels (v + 1)) as Hle.
  pose proof (below_S owner rels v) as ES. pose proof (len_nonneg (filter (λ x, owner x = v) rels)) as H0.
  pose proof (len_nonneg (filter (λ x, owner x < v) rels)) as Hb0.
  assert (len (owned v) = equal owner rels v) as Hlo.
  { pose proof (equal_zip (length rels) v) as E. rewrite !take_ge in E; [|lia|rewrite length_zip_with; lia].
    rewrite <- E. done. }
  rewrite slice_ok by (unfold below, equal, len in *; lia). f_equal.
  apply list_eq_same_length with (n := length (owned v)).
  - by rewrite length_fmap.
  - rewrite length_take, length_drop. unfold below, equal, len in *. lia.
  - intros t x y Ht Hx Hy. rewrite list_lookup_fmap in Hy. destruct (owned v !! t) as [[r ty]|] eqn:Eo; [|done].
    injection Hy as <-. apply (filter_at (owner ∘ fst)) in Eo as (k & Hk & Hkey & Ek). simpl in Hkey.
    rewrite equal_zip in Ek. apply lookup_zip_with_Some in Hk as (r' & t' & [= <- <-] & Hr & Hty).
    specialize (Harr k r ty Hr Hty). unfold slotOf in Harr. rewrite Hkey, Ek in Harr.
    rewrite lookup_take_lt in Hx by (unfold below, equal, len in *; lia). rewrite lookup_drop in Hx.
    replace (Z.to_nat (below owner rels v + Z.of_nat t)) with (Z.to_nat (below owner rels v) + t)%nat in Harr
      by (unfold below in *; lia). congruence.
Qed.

Lemma buildCSRDirection_ok : ∃ offsets nbrs types relToCSR,
  buildCSRDirection n rels relTypes deg endpoint = Ok (offsets, nbrs, types, relToCSR) ∧ len offsets = n + 1 ∧
  (∀ v, 0 ≤ v ≤ n → idx offsets v = Ok (below owner rels v)) ∧
  ∃ st, placed (length rels) st ∧ nbrs = cs_nbrs st ∧ types = cs_types st ∧ relToCSR = cs_relToCSR st.
Proof using Hst.
  destruct fillOffsets_ok as (offs & Eo & Hlo & Ho). unfold buildCSRDirection. rewrite Eo. cbn [mbind res_bind].
  pose proof (sg_n Hst) as Hn. rewrite slice_ok by lia. cbn [mbind res_bind]. rewrite drop_0, Z.sub_0_r.
  set (st0 := mkCsr _ _ _ _).
  assert (placed 0 st0) as H0.
  { split; simpl; [by rewrite length_replicate..| | |lia].
    - unfold len in *. rewrite length_take. lia.
    - intros v Hv. rewrite lookup_take_lt by lia. rewrite Ho by lia. f_equal.
      change (equal owner (take 0 rels) v) with 0. lia. }
  destruct (foldM_inv placed (placeRel relTypes endpoint) (enum rels) st0) as (st & -> & Hst').
  { done. }
  { intros k [i r] st [-> Hr]%lookup_enum Hp. by apply placeRel_ok. }
  cbn [mbind res_bind]. eexists _, _, _, _. split; [done|]. split; [done|]. split.
  - intros v Hv. apply idx_lookup; [lia|]. by apply Ho.
  - exists st. rewrite length_enum in Hst'. done.
Qed.

(** What the arrays of one direction hold. *)
Record isCSR (offsets nbrs types : list Z) : Prop := {
  ic_len : len offsets = n + 1;
  ic_off : ∀ v, 0 ≤ v ≤ n → offsets !! Z.to_nat v = Some (below owner rels v);
  ic_nbrs : length nbrs = length rels;
  ic_types : length types = length rels;
  ic_at : ∀ j r t, rels !! j = Some r → relTypes !! j = Some t →
    nbrs !! Z.to_nat (slotOf owner rels j r) = Some (other r) ∧ types !! Z.to_nat (slotOf owner rels j r) = Some t;
}.

Lemma buildCSRDirection_isCSR : ∃ offsets nbrs types relToCSR,
  buildCSRDirection n rels relTypes deg endpoint = Ok (offsets, nbrs, types, relToCSR) ∧ isCSR offsets nbrs types ∧
  length relToCSR = length rels ∧ ∀ j r, rels !! j = Some r → relToCSR !! j = Some (slotOf owner rels j r).
Proof using Hst.
  destruct buildCSRDirection_ok as (offs & nbrs & types & map & E & Hlen & Ho & st & [H1 H2 H3 _ _ Hd] & -> & -> & ->).
  pose proof (sg_types Hst) as Ht. eexists _, _, _, _. split; [done|]. split; [split; try done|split; [done|]].
  - intros v Hv. specialize (Ho v Hv). unfold idx in Ho. rewrite decide_False in Ho by lia.
    by destruct (offs !! Z.to_nat v); [injection Ho as ->|].
  - intros j r t Hr Hty. destruct (Hd j r t (lookup_lt_Some _ _ _ Hr) Hr Hty) as (? & ? & _). done.
  - intros j r Hr. destruct (lookup_lt_is_Some_2 relTypes j) as [t Hty]; [apply lookup_lt_Some in Hr; lia|].
    by destruct (Hd j r t (lookup_lt_Some _ _ _ Hr) Hr Hty) as (_ & _ & ?).
Qed.

End build.

(** ** Properties *)

(** The adjacency build is correct: for every staged relationship list with
    its degree counters, in either direction, the build succeeds and the range
    [offsets[v] .. offsets[v+1]] of each node [v] holds exactly the other ends
    of the relationships [v] owns, in the order they were added, with the types
    array aligned. *)
Theorem CSR_adjacency n rels relTypes deg endpoint : staged n rels relTypes deg endpoint →
  ∃ offsets nbrs types relToCSR,
    buildCSRDirection n rels relTypes deg endpoint = Ok (offsets, nbrs, types, relToCSR) ∧
    ∀ v, 0 ≤ v < n → ∃ s e, idx offsets v = Ok s ∧ idx offsets (v + 1) = Ok e ∧
      slice nbrs s e = Ok ((otherOf endpoint ∘ fst) <$> owned rels relTypes endpoint v) ∧
      slice types s e = Ok (snd <$> owned rels relTypes endpoint v).
Proof.
  intros Hst. destruct (buildCSRDirection_ok n rels relTypes deg endpoint Hst)
    as (offs & nbrs & types & map & E & _ & Ho & st & Hp & -> & -> & ->).
  exists offs, (cs_nbrs st), (cs_types st), (cs_relToCSR st). split; [done|]. intros v Hv.
  eexists _, _. split; [apply Ho; lia|]. split; [apply Ho; lia|]. pose proof Hp as [Hnl Htl _ _ _ Hd].
  split; eapply (placed_slice n rels relTypes deg endpoint Hst st); try done;
    intros j r t Hr Ht; destruct (Hd j r t (lookup_lt_Some _ _ _ Hr) Hr Ht) as (? & ? & _); done.
Qed.

(** A small graph: 0 -[5]-> 2, 1 -[6]-> 0, 0 -[7]-> 1. *)
Definition demoRels : list (Z * Z) := [(0, 2); (1, 0); (0, 1)].

Lemma demoRels_staged : staged 3 demoRels [5; 6; 7] [2; 1; 0; 0] 0.
Proof.
  split; [lia|by repeat constructor|done|done|]. intros v Hv.
  assert (v = 0 ∨ v = 1 ∨ v = 2) as [->|[->| ->]] by lia; done.
Qed.

Lemma CSR_adjacency_witness : ∃ offsets nbrs types relToCSR,
  buildCSRDirection 3 demoRels [5; 6; 7] [2; 1; 0; 0] 0 = Ok (offsets, nbrs, types, relToCSR) ∧
  ∀ v, 0 ≤ v < 3 → ∃ s e, idx offsets v = Ok s ∧ idx offsets (v + 1) = Ok e ∧
    slice nbrs s e = Ok ((otherOf 0 ∘ fst) <$> owned demoRels [5; 6; 7] 0 v) ∧
    slice types s e = Ok (snd <$> owned demoRels [5; 6; 7] 0 v).
Proof. apply (CSR_adjacency 3 demoRels [5; 6; 7] [2; 1; 0; 0] 0 demoRels_staged). Defined.

(** The position map addresses relationships: after the build, staged
    relationship [j] is found at position [relToCSR[j]], with its other end and
    its type, and two relationships never share a position, so properties
    stored by position stay with their relationship. *)
Theorem CSR_position_map n rels relTypes deg endpoint : staged n rels relTypes deg endpoint →
  ∃ offsets nbrs types relToCSR,
    buildCSRDirection n rels relTypes deg endpoint = Ok (offsets, nbrs, types, relToCSR) ∧
    (∀ j r t, rels !! j = Some r → relTypes !! j = Some t →
      ∃ pos, relToCSR !! j = Some pos ∧ idx nbrs pos = Ok (otherOf endpoint r) ∧ idx types pos = Ok t) ∧
    NoDup relToCSR.
Proof.
  intros Hst. destruct (buildCSRDirection_ok n rels relTypes deg endpoint Hst)
    as (offs & nbrs & types & map & E & _ & Ho & st & Hp & -> & -> & ->).
  eexists offs, _, _, _. split; [done|]. pose proof Hp as [_ _ Hml _ _ Hd]. split.
  - intros j r t Hr Ht. destruct (Hd j r t (lookup_lt_Some _ _ _ Hr) Hr Ht) as (E1 & E2 & E3).
    pose proof (slot_bounds n rels relTypes deg endpoint Hst j r Hr) as [_ Hs].
    exists (slotOf (ownerOf endpoint) rels j r). split_and!; [done|by apply idx_lookup; [lia|]..].
  - apply NoDup_alt. intros i j x Hi Hj.
    assert (∃ r, rels !! i = Some r ∧ x = slotOf (ownerOf endpoint) rels i r) as (ri & Hri & ->).
    { apply lookup_lt_Some in Hi as Hl. rewrite Hml in Hl. destruct (lookup_lt_is_Some_2 rels i Hl) as [r Hr].
      destruct (lookup_lt_is_Some_2 relTypes i) as [t Ht]; [by rewrite (sg_types _ _ _ _ _ Hst)|].
      destruct (Hd i r t Hl Hr Ht) as (_ & _ & E3). exists r. split; [done|]. congruence. }
    apply lookup_lt_Some in Hj as Hl. rewrite Hml in Hl. destruct (lookup_lt_is_Some_2 rels j Hl) as [r Hr].
    destruct (lookup_lt_is_Some_2 relTypes j) as [t Ht]; [by rewrite (sg_types _ _ _ _ _ Hst)|].
    destruct (Hd j r t Hl Hr Ht) as (_ & _ & E3). apply (slotOf_inj (ownerOf endpoint) rels i j ri r); [done..|congruence].
Qed.

Lemma CSR_position_map_witness : ∃ offsets nbrs types relToCSR,
  buildCSRDirection 3 demoRels [5; 6; 7] [2; 1; 0; 0] 0 = Ok (offsets, nbrs, types, relToCSR) ∧
  (∀ j r t, demoRels !! j = Some r → [5; 6; 7] !! j = Some t →
    ∃ pos, relToCSR !! j = Some pos ∧ idx nbrs pos = Ok (otherOf 0 r) ∧ idx types pos = Ok t) ∧
  NoDup relToCSR.
Proof. apply (CSR_position_map 3 demoRels [5; 6; 7] [2; 1; 0; 0] 0 demoRels_staged). Defined.
