(* ===== verification/RelTypes.v ===== *)
(** Relationship type vectors and type filters: [src/reltypes.go] and the
    matcher of [src/traverse.go].

    A finalized graph keeps one relationship type per adjacency position,
    either wide or as indexes into a palette of at most 256 types. Filters are
    resolved against the representation once per traversal. The theorems: both
    representations read back the types they were built from, and every
    resolved filter decides exactly what the plain comparison of the type at a
    position decides. *)

From S2P Require Import Prelude.

(** ** Representation *)

(** [wide] is nil when the palette form is active. *)
Record relTypes := mkRelTypes { wide : option (list Z); palette : list Z; pidx : list Z }.

Definition relTypePaletteMax : Z := 256.
Definition denseTypeBound : Z := Z.shiftl 1 16.

Definition At (r : relTypes) (pos : Z) : res Z :=
  match wide r with
  | Some w => idx w pos
  | None => i ← idx (pidx r) pos; idx (palette r) i
  end.

Definition Len (r : relTypes) : Z :=
  match wide r with Some w => len w | None => len (pidx r) end.

(** The palette loop: the direct-index table, the palette and the indexes so
    far; [None] is the fallback to the wide form. *)
Fixpoint paletteLoop (ts : list Z) (lut palette pidx : list Z) : res (option (list Z * list Z)) :=
  match ts with
  | [] => Ok (Some (palette, pidx))
  | t :: ts =>
      pi ← idx lut t;
      if decide (pi < 0) then
        if decide (relTypePaletteMax ≤ len palette) then Ok None
        else
          let pi := wrapS 16 (len palette) in
          lut ← upd lut t pi;
          paletteLoop ts lut (palette ++ [t]) (pidx ++ [to_u8 pi])
      else paletteLoop ts lut palette (pidx ++ [to_u8 pi])
  end.

Definition compressRelTypes (ts : list Z) : res relTypes :=
  let maxT := foldl Z.max 0 ts in
  if decide (denseTypeBound ≤ maxT) then Ok (mkRelTypes (Some ts) [] [])
  else
    o ← paletteLoop ts (replicate (Z.to_nat (maxT + 1)) (-1)) [] [];
    match o with
    | Some (palette, pidx) => Ok (mkRelTypes None palette pidx)
    | None => Ok (mkRelTypes (Some ts) [] [])
    end.

(** The same over the on-disk words, which are the types. *)
Definition compressRelTypesU32 (ts : list Z) : res relTypes := compressRelTypes ts.

Definition paletteIndexOf (r : relTypes) (t : Z) : Z :=
  match wide r with
  | Some _ => -1
  | None => match list_find (λ pt, pt = t) (palette r) with Some (i, _) => Z.of_nat i | None => -1 end
  end.

(** [reader] hoists the representation branch of [At]. *)
Definition reader (r : relTypes) : Z → res Z :=
  match wide r with
  | Some w => λ pos, idx w pos
  | None => λ pos, i ← idx (pidx r) pos; idx (palette r) i
  end.

(** ** Filters *)

(** The per-type holder a snapshot (of type [G]) attaches to a filter. Its lazily
    built adjacency views are functions of the snapshot and the type, since a
    snapshot never changes; see [TypedAdj]. *)
Record typedPair (G : Type) := mkTypedPair { tp_g : G; tp_t : Z; outPal : Z; inPal : Z }.
Arguments mkTypedPair {G} _ _ _ _.
Arguments tp_g {G} _.
Arguments tp_t {G} _.
Arguments outPal {G} _.
Arguments inPal {G} _.

Record RelMatch (G : Type) := mkMatch { kind : Z; one : Z; many : list Z; tp : option (typedPair G) }.
Arguments mkMatch {G} _ _ _ _.
Arguments kind {G} _.
Arguments one {G} _.
Arguments many {G} _.
Arguments tp {G} _.

Section filters.
Context {G : Type}.
Implicit Types m : RelMatch G.

Definition MatchAll : RelMatch G := mkMatch 0 0 [] None.
Definition MatchType (t : Z) : RelMatch G := mkMatch 1 t [] None.
Definition MatchNone : RelMatch G := mkMatch 2 0 [] None.

Definition matches (m : RelMatch G) (t : Z) : bool :=
  if decide (kind m = 0) then true
  else if decide (kind m = 1) then bool_decide (one m = t)
  else bool_decide (t ∈ many m).

Definition palIndex (m : RelMatch G) (r : relTypes) (out : bool) : Z :=
  match tp m with
  | Some p => if out then outPal p else inPal p
  | None => paletteIndexOf r (one m)
  end.

(** The 256-bit membership mask: [mask[i>>6] |= 1 << (i & 63)] for every palette
    entry that is sought, and whether there is any. *)
Definition maskStep (i : Z) (mask : list Z) : res (list Z) :=
  w ← idx mask (Z.shiftr i 6);
  upd mask (Z.shiftr i 6) (Z.lor w (to_u64 (Z.shiftl 1 (Z.land i 63)))).
Definition soughtStep (i pt : Z) (st : list Z * bool) (t : Z) : res (list Z * bool) :=
  if decide (pt = t) then mask ← maskStep i st.1; Ok (mask, true) else Ok st.
Definition paletteMask (palette many : list Z) : res (list Z * bool) :=
  foldM (λ st (x : Z * Z), foldM (soughtStep x.1 x.2) many st) (enum palette) ([0; 0; 0; 0], false).

Definition maskTest (mask : list Z) (b : Z) : res bool :=
  w ← idx mask (Z.shiftr b 6);
  Ok (bool_decide (Z.land w (to_u64 (Z.shiftl 1 (Z.land b 63))) ≠ 0)).

Definition typeTest (m : RelMatch G) (r : relTypes) (out : bool) (pos : Z) : res bool :=
  if decide (kind m = 0) then Ok true
  else if decide (kind m = 1) then
    match wide r with
    | Some w => t ← idx w pos; Ok (bool_decide (t = one m))
    | None =>
        let ti := palIndex m r out in
        if decide (ti < 0) then Ok false
        else i ← idx (pidx r) pos; Ok (bool_decide (i = to_u8 ti))
    end
  else if decide (len (many m) = 0) then Ok false
  else match wide r with
  | None =>
      '(mask, any) ← paletteMask (palette r) (many m);
      if negb any then Ok false
      else b ← idx (pidx r) pos; maskTest mask b
  | Some w => t ← idx w pos; Ok (bool_decide (t ∈ many m))
  end.

(** [for k := lo; k < hi; k++ { if keep(k) { dst = append(dst, nbrs[k]) } }]. *)
Definition appendIf (keep : Z → res bool) (nbrs dst : list Z) (lo hi : Z) : res (list Z) :=
  foldM (λ dst k, b ← keep k; if b : bool then n ← idx nbrs k; Ok (dst ++ [n]) else Ok dst) (seqZ lo (hi - lo)) dst.

Definition appendNbrsTyped (dst nbrs : list Z) (r : relTypes) (m : RelMatch G) (out : bool) (lo hi : Z) : res (list Z) :=
  if decide (kind m = 0) then s ← slice nbrs lo hi; Ok (dst ++ s)
  else if decide (kind m = 1) then
    match wide r with
    | Some w => appendIf (λ k, t ← idx w k; Ok (bool_decide (t = one m))) nbrs dst lo hi
    | None =>
        let ti := palIndex m r out in
        if decide (ti < 0) then Ok dst
        else appendIf (λ k, i ← idx (pidx r) k; Ok (bool_decide (i = to_u8 ti))) nbrs dst lo hi
    end
  else appendIf (typeTest m r out) nbrs dst lo hi.

(** The early-stop form: the consumer threads a state and answers whether to go
    on; the result says whether the walk reached its end. *)
Fixpoint yieldIf {A} (keep : Z → res bool) (nbrs : list Z) (yield : Z → A → bool * A) (ks : list Z) (st : A)
    : res (bool * A) :=
  match ks with
  | [] => Ok (true, st)
  | k :: ks =>
      b ← keep k;
      if b : bool then
        n ← idx nbrs k;
        let '(go, st) := yield n st in
        if go : bool then yieldIf keep nbrs yield ks st else Ok (false, st)
      else yieldIf keep nbrs yield ks st
  end.

Definition yieldNbrsTyped {A} (nbrs : list Z) (r : relTypes) (m : RelMatch G) (out : bool) (lo hi : Z)
    (yield : Z → A → bool * A) (st : A) : res (bool * A) :=
  let ks := seqZ lo (hi - lo) in
  if decide (kind m = 0) then yieldIf (λ _, Ok true) nbrs yield ks st
  else if decide (kind m = 1) then
    match wide r with
    | Some w => yieldIf (λ k, t ← idx w k; Ok (bool_decide (t = one m))) nbrs yield ks st
    | None =>
        let ti := palIndex m r out in
        if decide (ti < 0) then Ok (true, st)
        else yieldIf (λ k, i ← idx (pidx r) k; Ok (bool_decide (i = to_u8 ti))) nbrs yield ks st
    end
  else yieldIf (typeTest m r out) nbrs yield ks st.

(** ** What a vector holds *)

Definition wf_types (r : relTypes) : Prop :=
  match wide r with
  | Some _ => True
  | None => NoDup (palette r) ∧ len (palette r) ≤ 256 ∧ Forall (λ i, 0 ≤ i < len (palette r)) (pidx r)
  end.

Definition typesOf (r : relTypes) : list Z :=
  match wide r with Some w => w | None => (λ i, palette r !!! Z.to_nat i) <$> pidx r end.

Lemma len_typesOf r : len (typesOf r) = Len r.
Proof. unfold typesOf, Len. destruct (wide r); [done|]. unfold len. by rewrite length_fmap. Qed.

Lemma pidx_lookup r pos i : wf_types r → wide r = None → pidx r !! pos = Some i →
  ∃ t, palette r !! Z.to_nat i = Some t ∧ typesOf r !! pos = Some t ∧ 0 ≤ i < len (palette r).
Proof.
  intros Hw En Hi. unfold wf_types in Hw. rewrite En in Hw. destruct Hw as (_ & _ & HF).
  pose proof (Forall_lookup_1 _ _ _ _ HF Hi) as Hr. simpl in Hr.
  destruct (lookup_lt_is_Some_2 (palette r) (Z.to_nat i)) as [t Ht]; [unfold len in Hr; lia|].
  exists t. split; [done|]. split; [|done]. unfold typesOf. rewrite En, list_lookup_fmap, Hi. simpl.
  by rewrite (list_lookup_total_correct _ _ _ Ht).
Qed.

Lemma At_typesOf r pos t : wf_types r → 0 ≤ pos → typesOf r !! Z.to_nat pos = Some t → At r pos = Ok t.
Proof.
  intros Hw Hp Ht. unfold At. destruct (wide r) as [w|] eqn:En.
  - unfold typesOf in Ht. rewrite En in Ht. by apply idx_lookup.
  - destruct (pidx r !! Z.to_nat pos) as [i|] eqn:Ei.
    + destruct (pidx_lookup r _ i Hw En Ei) as (t' & Hp' & Ht' & Hr). assert (t' = t) as -> by congruence.
      rewrite (idx_lookup _ _ i) by done. cbn [mbind res_bind]. by apply idx_lookup; [lia|].
    + unfold typesOf in Ht. rewrite En, list_lookup_fmap, Ei in Ht. done.
Qed.

(** ** Compression *)

Lemma foldl_max_bound ts a : Forall (λ t, t ≤ foldl Z.max a ts) ts ∧ a ≤ foldl Z.max a ts.
Proof.
  revert a. induction ts as [|t ts IH]; intros a; simpl; [split; [constructor|lia]|].
  destruct (IH (Z.max a t)) as [HF Ha]. split; [constructor; [lia|done]|lia].
Qed.

Record paletteInv (lut palette pidx : list Z) : Prop := {
  pv_nodup : NoDup palette;
  pv_len : len palette ≤ 256;
  pv_idx : Forall (λ i, 0 ≤ i < len palette) pidx;
  pv_lut : ∀ t pi, lut !! t = Some pi →
    (pi = -1 ∧ Z.of_nat t ∉ palette) ∨ (0 ≤ pi ∧ palette !! Z.to_nat pi = Some (Z.of_nat t));
}.

Lemma paletteLoop_ok ts : ∀ lut pal pi, paletteInv lut pal pi → Forall (λ t, 0 ≤ t < len lut) ts →
  ∃ o, paletteLoop ts lut pal pi = Ok o ∧
    match o with
    | None => True
    | Some (pal', pi') => wf_types (mkRelTypes None pal' pi') ∧
        typesOf (mkRelTypes None pal' pi') = typesOf (mkRelTypes None pal pi) ++ ts
    end.
Proof.
  induction ts as [|t ts IH]; intros lut pal pi [Hnd Hl Hi Hlut] HF; simpl.
  { eexists. split; [done|]. simpl. rewrite app_nil_r. done. }
  apply Forall_cons in HF as [Ht HF]. destruct (lookup_lt_is_Some_2 lut (Z.to_nat t)) as [p Hp]; [unfold len in Ht; lia|].
  rewrite (idx_lookup _ _ p) by (lia || done). cbn [mbind res_bind]. pose proof (Hlut _ _ Hp) as Hc.
  rewrite Z2Nat.id in Hc by lia. destruct Hc as [[-> Hni]|[Hp0 Hpt]].
  - rewrite decide_True by lia. case_decide as D; [by eexists|]. unfold relTypePaletteMax in D.
    pose proof (len_nonneg pal). rewrite (wrapS_small 16), (wrapU_small 8) by lia.
    unfold upd. rewrite decide_True by done. cbn [mbind res_bind].
    destruct (IH (<[Z.to_nat t := len pal]> lut) (pal ++ [t]) (pi ++ [len pal])) as (o & Eo & Ho).
    { split.
      - apply NoDup_app. split; [done|]. split; [|apply NoDup_singleton]. intros x Hx ->%list_elem_of_singleton. done.
      - rewrite len_app. change (len [t]) with 1. lia.
      - rewrite len_app. change (len [t]) with 1. apply Forall_app. split; [|by repeat constructor; lia].
        eapply Forall_impl; [exact Hi|]. simpl. lia.
      - intros u q Hq. destruct (decide (u = Z.to_nat t)) as [->|Nu].
        + rewrite list_lookup_insert_eq in Hq by (unfold len in Ht; lia). injection Hq as <-. right. split; [done|].
          rewrite to_nat_len, lookup_app_r, Nat.sub_diag by lia. simpl. f_equal. lia.
        + rewrite list_lookup_insert_ne in Hq by done. destruct (Hlut u q Hq) as [[-> Hu]|[Hq0 Hqt]].
          * left. split; [done|]. rewrite elem_of_app, list_elem_of_singleton. intros [?|?]; [done|lia].
          * right. split; [done|]. by apply lookup_app_l_Some. }
    { eapply Forall_impl; [exact HF|]. simpl. rewrite len_insert. done. }
    exists o. split; [done|]. destruct o as [[pal' pi']|]; [|done]. destruct Ho as [Hw ->]. split; [done|].
    unfold typesOf. simpl. rewrite fmap_app, <- app_assoc. f_equal.
    + apply list_fmap_ext. intros j i Hj. pose proof (Forall_lookup_1 _ _ _ _ Hi Hj) as Hr. simpl in Hr.
      rewrite lookup_total_app_l; [done|]. unfold len in Hr. lia.
    + simpl. f_equal. rewrite to_nat_len. apply list_lookup_total_correct. by rewrite lookup_app_r, Nat.sub_diag by lia.
  - rewrite decide_False by lia. assert (p < len pal) as Hpl by (apply lookup_lt_Some in Hpt; unfold len; lia).
    rewrite wrapU_small by lia. destruct (IH lut pal (pi ++ [p])) as (o & Eo & Ho).
    { split; try done. apply Forall_app. split; [done|]. by repeat constructor. }
    { done. }
    exists o. split; [done|]. destruct o as [[pal' pi']|]; [|done]. destruct Ho as [Hw ->]. split; [done|].
    unfold typesOf. simpl. rewrite fmap_app, <- app_assoc. simpl. by rewrite (list_lookup_total_correct _ _ _ Hpt).
Qed.

Lemma compressRelTypes_ok ts : Forall (λ t, 0 ≤ t) ts →
  ∃ r, compressRelTypes ts = Ok r ∧ wf_types r ∧ typesOf r = ts.
Proof.
  intros HF. unfold compressRelTypes. case_decide as D; [by eexists|].
  destruct (foldl_max_bound ts 0) as [Hb H0]. set (maxT := foldl Z.max 0 ts) in *.
  destruct (paletteLoop_ok ts (replicate (Z.to_nat (maxT + 1)) (-1)) [] []) as (o & -> & Ho).
  - split; [constructor|done|constructor|]. intros t p [-> _]%lookup_replicate. left. split; [done|apply not_elem_of_nil].
  - rewrite Forall_forall in HF, Hb |- *. intros t Ht. rewrite len_replicate. specialize (HF t Ht). specialize (Hb t Ht).
    simpl in *. lia.
  - cbn [mbind res_bind]. destruct o as [[pal pi]|]; [|by eexists]. destruct Ho as [Hw E]. eexists. by split; [|split].
Qed.

(** ** Filters *)

Definition maskBit (mask : list Z) (i : Z) : bool :=
  Z.testbit (mask !!! Z.to_nat (Z.shiftr i 6)) (Z.land i 63).

Lemma land63 i : 0 ≤ i → 0 ≤ Z.land i 63 < 64.
Proof. intros Hi. change 63 with (Z.ones 6). rewrite Z.land_ones by lia. apply Z.mod_pos_bound. lia. Qed.

Lemma shiftr6 i : 0 ≤ i < 256 → 0 ≤ Z.shiftr i 6 < 4.
Proof. intros Hi. rewrite Z.shiftr_div_pow2 by lia. change (2 ^ 6) with 64. dlia. Qed.

Lemma mask_split i j : 0 ≤ i → 0 ≤ j → Z.shiftr i 6 = Z.shiftr j 6 → Z.land i 63 = Z.land j 63 → i = j.
Proof.
  intros Hi Hj. change 63 with (Z.ones 6). rewrite !Z.land_ones, !Z.shiftr_div_pow2 by lia.
  change (2 ^ 6) with 64. intros. dlia.
Qed.

Lemma maskStep_ok i mask : 0 ≤ i < 256 → length mask = 4%nat → ∃ mask', maskStep i mask = Ok mask' ∧
  length mask' = 4%nat ∧ ∀ j, 0 ≤ j < 256 → maskBit mask' j = maskBit mask j || bool_decide (j = i).
Proof.
  intros Hi Hl. pose proof (shiftr6 i Hi) as Hs. pose proof (land63 i ltac:(lia)) as Hk.
  destruct (lookup_lt_is_Some_2 mask (Z.to_nat (Z.shiftr i 6))) as [w Hw]; [lia|].
  unfold maskStep. rewrite (idx_lookup _ _ w) by (lia || done). cbn [mbind res_bind]. unfold upd.
  rewrite decide_True by (unfold len; lia). eexists. split; [done|]. split; [by rewrite length_insert|].
  intros j Hj. pose proof (shiftr6 j Hj) as Hsj. pose proof (land63 j ltac:(lia)) as Hkj. unfold maskBit.
  assert (wrapU 64 (Z.shiftl 1 (Z.land i 63)) = Z.shiftl 1 (Z.land i 63)) as ->.
  { apply wrapU_small. rewrite Z.shiftl_mul_pow2, Z.mul_1_l by lia. split; [apply Z.pow_nonneg; lia|].
    apply Z.pow_lt_mono_r; lia. }
  destruct (decide (Z.shiftr j 6 = Z.shiftr i 6)) as [E|E].
  - rewrite E, list_lookup_total_insert_eq by lia. rewrite (list_lookup_total_correct _ _ _ Hw).
    rewrite Z.lor_spec, testbit_shiftl1 by lia. f_equal. apply bool_decide_ext. split; [|by intros ->].
    intros El. by apply mask_split; [lia..| |].
  - rewrite list_lookup_total_insert_ne by lia. rewrite bool_decide_eq_false_2 by (by intros ->). by rewrite orb_false_r.
Qed.

Lemma soughtLoop_ok i pt l mask any : 0 ≤ i < 256 → length mask = 4%nat →
  ∃ mask' any', foldM (soughtStep i pt) l (mask, any) = Ok (mask', any') ∧
    length mask' = 4%nat ∧ any' = any || bool_decide (pt ∈ l) ∧
    ∀ j, 0 ≤ j < 256 → maskBit mask' j = maskBit mask j || (bool_decide (j = i) && bool_decide (pt ∈ l)).
Proof.
  intros Hi. revert mask any. induction l as [|t l IH]; intros mask any Hl; cbn [foldM].
  - exists mask, any. rewrite bool_decide_eq_false_2 by apply not_elem_of_nil. rewrite orb_false_r. split_and!; [done..|].
    intros j _. by rewrite andb_false_r, orb_false_r.
  - assert (soughtStep i pt (mask, any) t = if decide (pt = t) then m ← maskStep i mask; Ok (m, true) else Ok (mask, any)) as -> by done.
    destruct (decide (pt = t)) as [D|D].
    + destruct (maskStep_ok i mask Hi Hl) as (m1 & -> & Hl1 & Hb1). cbn [mbind res_bind].
      destruct (IH m1 true Hl1) as (m2 & a2 & -> & Hl2 & -> & Hb2). exists m2, true. split; [done|]. split; [done|].
      rewrite (bool_decide_eq_true_2 (pt ∈ t :: l)) by (subst; by left). split; [by rewrite orb_true_r|].
      intros j Hj. rewrite Hb2, Hb1 by done. rewrite andb_true_r.
      destruct (maskBit mask j), (bool_decide (j = i)); done.
    + cbn [mbind res_bind]. destruct (IH mask any Hl) as (m2 & a2 & -> & Hl2 & -> & Hb2). eexists _, _. split; [done|]. split; [done|].
      assert (bool_decide (pt ∈ t :: l) = bool_decide (pt ∈ l)) as ->; [|done].
      apply bool_decide_ext. rewrite elem_of_cons. naive_solver.
Qed.

Lemma paletteMask_ok pal ms : len pal ≤ 256 → ∃ mask any, paletteMask pal ms = Ok (mask, any) ∧ length mask = 4%nat ∧
  (∀ j, 0 ≤ j < 256 → maskBit mask j = match pal !! Z.to_nat j with Some t => bool_decide (t ∈ ms) | None => false end) ∧
  (any = false → ∀ j t, pal !! j = Some t → t ∉ ms).
Proof.
  intros Hp. unfold paletteMask.
  pose (P := λ (k : nat) (st : list Z * bool), length st.1 = 4%nat ∧
    (∀ j, 0 ≤ j < 256 → maskBit st.1 j = match take k pal !! Z.to_nat j with Some t => bool_decide (t ∈ ms) | None => false end) ∧
    (st.2 = false → ∀ j t, take k pal !! j = Some t → t ∉ ms)).
  match goal with |- context [foldM ?f (enum pal) _] =>
    destruct (foldM_inv P f (enum pal) ([0; 0; 0; 0], false)) as ([mask any] & -> & Hl & Hb & Ha) end.
  - split; [done|]. split; [|by intros _ j t]. intros j Hj. change (take 0 pal) with (@nil Z). rewrite lookup_nil. unfold maskBit.
    pose proof (shiftr6 j Hj). assert (Z.to_nat (Z.shiftr j 6) = 0 ∨ Z.to_nat (Z.shiftr j 6) = 1 ∨
      Z.to_nat (Z.shiftr j 6) = 2 ∨ Z.to_nat (Z.shiftr j 6) = 3)%nat as [->|[->|[->| ->]]] by lia; apply Z.bits_0.
  - intros k [i pt] [mask any] [-> Hpt]%lookup_enum (Hl & Hb & Ha). simpl in Hl, Hb, Ha.
    apply lookup_lt_Some in Hpt as Hlt. assert (0 ≤ Z.of_nat k < 256) as Hk by (unfold len in Hp; lia).
    pose proof (soughtLoop_ok (Z.of_nat k) pt ms mask any Hk Hl) as (m2 & a2 & E2 & Hl2 & -> & Hb2).
    cbn [fst snd]. rewrite E2. eexists. split; [done|]. unfold P. simpl.
    rewrite (take_S_r _ _ _ Hpt). split; [done|]. split.
    + intros j Hj. rewrite Hb2, Hb by done. destruct (decide (j = Z.of_nat k)) as [->|Nj].
      * rewrite Nat2Z.id, lookup_app_r, length_take_le, Nat.sub_diag by (rewrite ?length_take_le; lia). simpl.
        rewrite (lookup_ge_None_2 (take k pal)) by (rewrite length_take; lia). rewrite bool_decide_eq_true_2 by done. done.
      * rewrite bool_decide_eq_false_2, andb_false_l, orb_false_r by done.
        destruct (decide (Z.to_nat j < k)%nat) as [D|D].
        -- by rewrite lookup_app_l by (rewrite length_take; lia).
        -- rewrite !lookup_ge_None_2; [done|rewrite length_app, length_take; simpl; lia|rewrite length_take; lia].
    + intros [Ha1 Ha2]%orb_false_iff j t Hj. apply bool_decide_eq_false in Ha2.
      apply lookup_app_Some in Hj as [Hj|[_ Hj]]; [by apply (Ha Ha1 j)|].
      apply list_lookup_singleton_Some in Hj as [_ <-]. done.
  - exists mask, any. rewrite length_enum, take_ge in Hb, Ha by lia. done.
Qed.

Lemma maskTest_ok mask b : 0 ≤ b < 256 → length mask = 4%nat → maskTest mask b = Ok (maskBit mask b).
Proof.
  intros Hb Hl. pose proof (shiftr6 b Hb) as Hs. pose proof (land63 b ltac:(lia)) as Hk.
  destruct (lookup_lt_is_Some_2 mask (Z.to_nat (Z.shiftr b 6))) as [w Hw]; [lia|].
  unfold maskTest, maskBit. rewrite (idx_lookup _ _ w) by (lia || done). cbn [mbind res_bind].
  rewrite (list_lookup_total_correct _ _ _ Hw), wrapU_small, land_shiftl1 by
    (lia || (rewrite Z.shiftl_mul_pow2, Z.mul_1_l by lia; split; [apply Z.pow_nonneg; lia|apply Z.pow_lt_mono_r; lia])). done.
Qed.

(** A holder's palette index is that of its type in the vector. *)
Definition tpOK (m : RelMatch G) (r : relTypes) (out : bool) : Prop :=
  match tp m with
  | Some p => (if out then outPal p else inPal p) = paletteIndexOf r (one m)
  | None => True
  end.

Lemma palIndex_ok m r out : tpOK m r out → palIndex m r out = paletteIndexOf r (one m).
Proof. unfold tpOK, palIndex. by destruct (tp m). Qed.

Lemma paletteIndexOf_ok r t i pt : wf_types r → wide r = None → palette r !! Z.to_nat i = Some pt → 0 ≤ i →
  (paletteIndexOf r t < 0 → pt ≠ t) ∧
  (0 ≤ paletteIndexOf r t → bool_decide (i = to_u8 (paletteIndexOf r t)) = bool_decide (pt = t)).
Proof.
  intros Hw En Hi Hi0. unfold wf_types in Hw. rewrite En in Hw. destruct Hw as (Hnd & Hl & _).
  unfold paletteIndexOf. rewrite En. destruct (list_find (λ pt, pt = t) (palette r)) as [[j y]|] eqn:Ef.
  - apply list_find_Some in Ef as (Hj & -> & _). split; [lia|]. intros _.
    rewrite wrapU_small by (apply lookup_lt_Some in Hj; unfold len in Hl; lia). apply bool_decide_ext. split.
    + intros ->. rewrite Nat2Z.id in Hi. congruence.
    + intros ->. pose proof (NoDup_lookup _ _ _ _ Hnd Hi Hj). lia.
  - split; [|lia]. intros _ ->. apply list_find_None in Ef. by apply (Forall_lookup_1 _ _ _ _ Ef) in Hi.
Qed.

Lemma typeTest_ok m r out pos t : wf_types r → tpOK m r out → 0 ≤ pos → typesOf r !! Z.to_nat pos = Some t →
  typeTest m r out pos = Ok (matches m t).
Proof.
  intros Hw Htp Hp Ht. unfold typeTest, matches. case_decide as D0; [done|]. rewrite (palIndex_ok m r out Htp).
  destruct (wide r) as [w|] eqn:En.
  - assert (idx w pos = Ok t) as E. { apply idx_lookup; [done|]. unfold typesOf in Ht. by rewrite En in Ht. }
    rewrite E. cbn [mbind res_bind]. case_decide; [f_equal; apply bool_decide_ext; naive_solver|].
    case_decide as Dm; [|done]. f_equal. symmetry. apply bool_decide_eq_false_2. unfold len in Dm.
    destruct (many m); [apply not_elem_of_nil|simpl in Dm; lia].
  - assert (∃ i, pidx r !! Z.to_nat pos = Some i) as [i Hi].
    { unfold typesOf in Ht. rewrite En, list_lookup_fmap in Ht. destruct (pidx r !! Z.to_nat pos); [by eexists|done]. }
    destruct (pidx_lookup r _ i Hw En Hi) as (t' & Hpt & Ht' & Hr). assert (t' = t) as -> by congruence.
    assert (idx (pidx r) pos = Ok i) as E by (by apply idx_lookup). case_decide as D1.
    + destruct (paletteIndexOf_ok r (one m) i t Hw En Hpt ltac:(lia)) as [Hn Hpos]. cbv zeta.
      destruct (decide (paletteIndexOf r (one m) < 0)) as [D|D].
      * f_equal. symmetry. apply bool_decide_eq_false_2. intros E1. by apply (Hn D).
      * rewrite E. cbn [mbind res_bind]. rewrite Hpos by lia. f_equal. apply bool_decide_ext. naive_solver.
    + case_decide as Dm.
      { f_equal. symmetry. apply bool_decide_eq_false_2. unfold len in Dm.
        destruct (many m); [apply not_elem_of_nil|simpl in Dm; lia]. }
      unfold wf_types in Hw. rewrite En in Hw. destruct Hw as (_ & Hl & _).
      destruct (paletteMask_ok (palette r) (many m) Hl) as (mask & any & -> & Hml & Hb & Ha). cbn [mbind res_bind].
      destruct any; simpl.
      * rewrite E. cbn [mbind res_bind]. rewrite maskTest_ok, Hb by (done || lia). by rewrite Hpt.
      * f_equal. symmetry. apply bool_decide_eq_false_2. by apply (Ha eq_refl (Z.to_nat i)).
Qed.

(** ** Filtered runs *)

(** The (neighbor, type) rows of positions [lo, hi), and the neighbors a filter
    keeps: the plain scan every traversal is measured against. *)
Definition rowsOf (nbrs types : list Z) (lo hi : Z) : list (Z * Z) :=
  take (Z.to_nat (hi - lo)) (drop (Z.to_nat lo) (zip nbrs types)).
Definition scan (m : RelMatch G) (rows : list (Z * Z)) : list Z := (filter (λ p, matches m p.2 = true) rows).*1.

Lemma scan_app m r1 r2 : scan m (r1 ++ r2) = scan m r1 ++ scan m r2.
Proof. unfold scan. by rewrite filter_app, fmap_app. Qed.

Lemma scan_all m rows : kind m = 0 → scan m rows = rows.*1.
Proof.
  intros Hk. unfold scan. f_equal. induction rows as [|p rows IH]; [done|]. rewrite filter_cons_True, IH; [done|].
  unfold matches. by rewrite decide_True.
Qed.

Lemma scan_none m rows : (∀ p, p ∈ rows → matches m p.2 = false) → scan m rows = [].
Proof.
  intros Hn. unfold scan. induction rows as [|p rows IH]; [done|]. rewrite filter_cons_False.
  - apply IH. intros q Hq. apply Hn. by right.
  - rewrite Hn by (by left). done.
Qed.

Lemma rowsOf_step nbrs types lo hi : length types = length nbrs → 0 ≤ lo < hi → hi ≤ len nbrs →
  ∃ n t, nbrs !! Z.to_nat lo = Some n ∧ types !! Z.to_nat lo = Some t ∧
    rowsOf nbrs types lo hi = (n, t) :: rowsOf nbrs types (lo + 1) hi.
Proof.
  intros Hl Hlo Hhi. unfold len in Hhi.
  destruct (lookup_lt_is_Some_2 nbrs (Z.to_nat lo)) as [n Hn]; [lia|].
  destruct (lookup_lt_is_Some_2 types (Z.to_nat lo)) as [t Ht]; [lia|]. exists n, t. split; [done|]. split; [done|].
  unfold rowsOf. assert (zip nbrs types !! Z.to_nat lo = Some (n, t)) as E by (rewrite lookup_zip_with, Hn; simpl; by rewrite Ht).
  rewrite (drop_S _ _ _ E). replace (Z.to_nat (hi - lo)) with (S (Z.to_nat (hi - (lo + 1)))) by lia. simpl.
  by replace (Z.to_nat (lo + 1)) with (S (Z.to_nat lo)) by lia.
Qed.

Lemma rowsOf_empty nbrs types lo hi : hi ≤ lo → rowsOf nbrs types lo hi = [].
Proof. intros. unfold rowsOf. by replace (Z.to_nat (hi - lo)) with 0%nat by lia. Qed.

Lemma rowsOf_split nbrs types lo mid hi : 0 ≤ lo ≤ mid → mid ≤ hi →
  rowsOf nbrs types lo hi = rowsOf nbrs types lo mid ++ rowsOf nbrs types mid hi.
Proof.
  intros Hlo Hhi. unfold rowsOf. replace (Z.to_nat (hi - lo)) with (Z.to_nat (mid - lo) + Z.to_nat (hi - mid))%nat by lia.
  rewrite <- take_take_drop, drop_drop. by replace (Z.to_nat lo + Z.to_nat (mid - lo))%nat with (Z.to_nat mid) by lia.
Qed.

(** Walks over a run whose test is the type filter. *)
Section runs.
Context (m : RelMatch G) (nbrs types : list Z) (keep : Z → res bool).
Hypothesis Hlen : length types = length nbrs.
Hypothesis Hkeep : ∀ k t, 0 ≤ k → types !! Z.to_nat k = Some t → keep k = Ok (matches m t).

Lemma run_induction (P : Z → list (Z * Z) → Prop) hi : hi ≤ len nbrs → (∀ lo, hi ≤ lo → P lo []) →
  (∀ lo n t rows, 0 ≤ lo < hi → nbrs !! Z.to_nat lo = Some n → types !! Z.to_nat lo = Some t →
    P (lo + 1) rows → P lo ((n, t) :: rows)) →
  ∀ lo, 0 ≤ lo → P lo (rowsOf nbrs types lo hi).
Proof using Hlen.
  intros Hhi H0 HS. assert (∀ k lo, 0 ≤ lo → hi - lo ≤ Z.of_nat k → P lo (rowsOf nbrs types lo hi)) as H.
  { induction k as [|k IH]; intros lo Hlo Hk; [rewrite rowsOf_empty by lia; apply H0; lia|].
    destruct (decide (hi ≤ lo)) as [D|D]; [rewrite rowsOf_empty by lia; by apply H0|].
    destruct (rowsOf_step nbrs types lo hi Hlen) as (n & t & Hn & Ht & ->); [lia..|].
    apply HS; [lia|done..|]. apply IH; lia. }
  intros lo Hlo. apply (H (Z.to_nat (hi - lo))); lia.
Qed.

Lemma appendIf_ok dst lo hi : 0 ≤ lo → hi ≤ len nbrs →
  appendIf keep nbrs dst lo hi = Ok (dst ++ scan m (rowsOf nbrs types lo hi)).
Proof using Hlen Hkeep.
  intros Hlo Hhi. unfold appendIf. revert dst.
  apply (run_induction (λ lo rows, ∀ dst, foldM _ (seqZ lo (hi - lo)) dst = Ok (dst ++ scan m rows)) hi Hhi); [| |done].
  - intros l Hl dst. rewrite seqZ_nil by lia. by rewrite app_nil_r.
  - intros l n t rows Hl Hn Ht IH dst. rewrite seqZ_step by lia. cbn [foldM].
    rewrite (Hkeep l t) by (lia || done). cbn [mbind res_bind]. unfold scan. rewrite filter_cons. simpl.
    destruct (matches m t); simpl.
    + rewrite (idx_lookup _ _ n) by (lia || done). cbn [mbind res_bind]. rewrite IH, <- app_assoc. done.
    + apply IH.
Qed.

Lemma yieldIf_ok {A} (yield : Z → A → bool * A) lo hi st : 0 ≤ lo → hi ≤ len nbrs →
  yieldIf keep nbrs yield (seqZ lo (hi - lo)) st = Ok (yieldAll yield (scan m (rowsOf nbrs types lo hi)) st).
Proof using Hlen Hkeep.
  intros Hlo Hhi. revert st.
  apply (run_induction (λ lo rows, ∀ st, yieldIf keep nbrs yield (seqZ lo (hi - lo)) st = Ok (yieldAll yield (scan m rows) st)) hi Hhi); [| |done].
  - intros l Hl st. by rewrite seqZ_nil by lia.
  - intros l n t rows Hl Hn Ht IH st. rewrite seqZ_step by lia. cbn [yieldIf].
    rewrite (Hkeep l t) by (lia || done). cbn [mbind res_bind]. unfold scan. rewrite filter_cons. simpl.
    destruct (matches m t); simpl.
    + rewrite (idx_lookup _ _ n) by (lia || done). cbn [mbind res_bind]. destruct (yield n st) as [[] st']; [apply IH|done].
    + apply IH.
Qed.

End runs.

Lemma rowsOf_fst nbrs types lo hi : length types = length nbrs → (rowsOf nbrs types lo hi).*1 = take (Z.to_nat (hi - lo)) (drop (Z.to_nat lo) nbrs).
Proof. intros Hl. unfold rowsOf. by rewrite fmap_take, fmap_drop, fst_zip by lia. Qed.

(** The filtered append and the filtered yield of a run are the plain scan. *)
Lemma palette_miss m r nbrs lo hi : wf_types r → wide r = None → kind m = 1 → paletteIndexOf r (one m) < 0 →
  length (typesOf r) = length nbrs → 0 ≤ lo → hi ≤ len nbrs → scan m (rowsOf nbrs (typesOf r) lo hi) = [].
Proof.
  intros Hw En Hk Hi Hl Hlo Hhi. apply (run_induction nbrs (typesOf r) Hl (λ _ rows, scan m rows = []) hi Hhi); [done| |done].
  intros l n t rows Hlr _ Ht IH. unfold scan. rewrite filter_cons_False; [exact IH|]. simpl. unfold matches.
  rewrite decide_False, decide_True by lia. rewrite bool_decide_eq_true. intros <-.
  unfold typesOf in Ht. rewrite En in Ht. rewrite list_lookup_fmap in Ht.
  destruct (pidx r !! Z.to_nat l) as [i|] eqn:Ei; [|done]. destruct (pidx_lookup r _ i Hw En Ei) as (t' & Hp & Ht' & Hr).
  simpl in Ht. rewrite (list_lookup_total_correct _ _ _ Hp) in Ht. injection Ht as ->.
  by apply (paletteIndexOf_ok r (one m) i (one m) Hw En Hp ltac:(lia)).
Qed.

(** The positional test each loop hoists agrees with the filter. *)
Lemma kindTest_ok m r out k t : wf_types r → tpOK m r out → kind m = 1 → 0 ≤ k → typesOf r !! Z.to_nat k = Some t →
  match wide r with
  | Some w => (t ← idx w k; Ok (bool_decide (t = one m))) = Ok (matches m t)
  | None => 0 ≤ paletteIndexOf r (one m) → (i ← idx (pidx r) k; Ok (bool_decide (i = to_u8 (palIndex m r out)))) = Ok (matches m t)
  end.
Proof.
  intros Hw Htp Hk Hk0 Ht. pose proof (typeTest_ok m r out k t Hw Htp Hk0 Ht) as E. unfold typeTest in E.
  rewrite decide_False, decide_True in E by lia. destruct (wide r); [exact E|]. intros Hi.
  rewrite (palIndex_ok m r out Htp) in E |- *. by rewrite decide_False in E by lia.
Qed.

Lemma appendNbrsTyped_scan dst nbrs r m out lo hi : wf_types r → tpOK m r out → length (typesOf r) = length nbrs →
  0 ≤ lo ≤ hi → hi ≤ len nbrs →
  appendNbrsTyped dst nbrs r m out lo hi = Ok (dst ++ scan m (rowsOf nbrs (typesOf r) lo hi)).
Proof.
  intros Hw Htp Hl Hlo Hhi. unfold appendNbrsTyped. case_decide as D0.
  { rewrite slice_ok by lia. cbn [mbind res_bind]. by rewrite scan_all, rowsOf_fst by done. }
  case_decide as D1; [|apply appendIf_ok; try lia; try done; intros; by apply typeTest_ok].
  pose proof (kindTest_ok m r out) as HT. destruct (wide r) as [w|] eqn:En.
  - apply appendIf_ok; try lia. intros. by apply HT.
  - cbv zeta. rewrite (palIndex_ok m r out Htp) in HT |- *. case_decide.
    + rewrite palette_miss by (done || lia). by rewrite app_nil_r.
    + apply appendIf_ok; try lia. intros. apply HT; (done || lia).
Qed.

Lemma yieldNbrsTyped_scan {A} nbrs r m out lo hi (yield : Z → A → bool * A) st : wf_types r → tpOK m r out →
  length (typesOf r) = length nbrs → 0 ≤ lo ≤ hi → hi ≤ len nbrs →
  yieldNbrsTyped nbrs r m out lo hi yield st = Ok (yieldAll yield (scan m (rowsOf nbrs (typesOf r) lo hi)) st).
Proof.
  intros Hw Htp Hl Hlo Hhi. unfold yieldNbrsTyped. cbv zeta. case_decide as D0.
  { apply yieldIf_ok; try lia. intros. unfold matches. by rewrite decide_True. }
  case_decide as D1; [|apply yieldIf_ok; try lia; try done; intros; by apply typeTest_ok].
  pose proof (kindTest_ok m r out) as HT. destruct (wide r) as [w|] eqn:En.
  - apply yieldIf_ok; try lia. intros. by apply HT.
  - rewrite (palIndex_ok m r out Htp) in HT |- *. case_decide.
    + rewrite palette_miss by (done || lia). done.
    + apply yieldIf_ok; try lia. intros. apply HT; (done || lia).
Qed.

(** For every vector of relationship types, compression succeeds and loses
    nothing: every position reads back the type it had (through [At] and through
    the hoisted [reader]), and over any window of a neighbor array of the same
    length both filtered walks - the append and the early-stopping yield - produce
    exactly the neighbors a plain comparison of each type keeps, in order, for
    every kind of filter and with no index panic. *)
Theorem relTypes_filter_exact ts nbrs (m : RelMatch G) lo hi : Forall (λ t, 0 ≤ t) ts → length ts = length nbrs → tp m = None →
  0 ≤ lo ≤ hi → hi ≤ len nbrs →
  ∃ r, compressRelTypes ts = Ok r ∧ Len r = len ts ∧
    (∀ pos t, ts !! pos = Some t → At r (Z.of_nat pos) = Ok t ∧ reader r (Z.of_nat pos) = Ok t) ∧
    (∀ dst out, appendNbrsTyped dst nbrs r m out lo hi = Ok (dst ++ scan m (rowsOf nbrs ts lo hi))) ∧
    (∀ A (yield : Z → A → bool * A) st out,
      yieldNbrsTyped nbrs r m out lo hi yield st = Ok (yieldAll yield (scan m (rowsOf nbrs ts lo hi)) st)).
Proof.
  intros HF Hl Htp Hlo Hhi. destruct (compressRelTypes_ok ts HF) as (r & Er & Hw & Ht). exists r. split; [done|].
  assert (∀ out, tpOK m r out) as Hok by (intros out; unfold tpOK; by rewrite Htp).
  split; [by rewrite <- len_typesOf, Ht|]. split; [|split].
  - intros pos t Hpos. assert (At r (Z.of_nat pos) = Ok t) as E by (apply At_typesOf; [done|lia|by rewrite Ht, Nat2Z.id]).
    split; [done|]. unfold reader. unfold At in E. by destruct (wide r).
  - intros dst out. rewrite <- Ht. apply appendNbrsTyped_scan; rewrite ?Ht; try done.
  - intros A yield st out. rewrite <- Ht. apply yieldNbrsTyped_scan; rewrite ?Ht; try done.
Qed.

End filters.

Lemma relTypes_filter_exact_witness : ∃ r, compressRelTypes [7; 3; 7] = Ok r ∧ Len r = 3 ∧
  appendNbrsTyped [] [10; 20; 30] r (MatchType (G := ()) 7) true 0 3 = Ok [10; 30].
Proof.
  destruct (relTypes_filter_exact [7; 3; 7] [10; 20; 30] (MatchType (G := ()) 7) 0 3) as (r & Er & Hl & _ & Ha & _);
    [repeat constructor; lia|done|done|lia|done|].
  exists r. split; [done|]. split; [exact Hl|]. by rewrite Ha.
Defined.
