(* ===== verification/InToOut.v ===== *)
(** The incoming-to-outgoing position map: [computeInToOutFromCSR] of
    [src/serialize.go].

    Both CSR directions hold the same relationships in different orders; the map
    is recovered from the adjacency arrays alone by stable counting sorts that
    bring both sides into (source, target, type) order. The theorem: for arrays
    built from any staged relationship list, every incoming position is sent to
    the outgoing position of the same relationship, parallel relationships
    included. *)

From S2P Require Import Prelude Csr RelTypes.

(** ** The code *)

Definition ownersOf (offsets : list Z) (m : Z) : res (list Z) :=
  foldM (λ owners u,
    lo ← idx offsets u;
    hi ← idx offsets (u + 1);
    foldM (λ owners p, upd owners p (to_u32 u)) (seqZ lo (hi - lo)) owners)
    (zseq (len offsets - 1)) (replicate (Z.to_nat m) 0).

Definition ascending (m : Z) : list Z := to_u32 <$> zseq m.

(** [copy(dst, src)] *)
Definition copy (dst src : list Z) : list Z := take (length dst) src ++ drop (length src) dst.

(** [counts[key(p)+1]++] *)
Definition tally (key : Z → res Z) (counts : list Z) (p : Z) : res (list Z) :=
  k ← key p;
  c ← idx counts (to_u32 (k + 1));
  upd counts (to_u32 (k + 1)) (to_u32 (c + 1)).
(** [counts[k] += counts[k-1]] *)
Definition accumulate (counts : list Z) (k : Z) : res (list Z) :=
  a ← idx counts k;
  b ← idx counts (k - 1);
  upd counts k (to_u32 (a + b)).
(** [k := key(p); tmp[counts[k]] = p; counts[k]++] *)
Definition scatter (key : Z → res Z) (st : list Z * list Z) (p : Z) : res (list Z * list Z) :=
  k ← key p;
  c ← idx st.2 k;
  tmp ← upd st.1 c p;
  counts ← upd st.2 k (to_u32 (c + 1));
  Ok (tmp, counts).

(** The arrays [positions], [tmp] and [counts] are shared by all passes. *)
Definition countingPass (positions tmp counts : list Z) (nKeys : Z) (key : Z → res Z)
    : res (list Z * list Z * list Z) :=
  _ ← slice counts 0 (nKeys + 1);
  let counts := replicate (Z.to_nat (nKeys + 1)) 0 ++ drop (Z.to_nat (nKeys + 1)) counts in
  counts ← foldM (tally key) positions counts;
  counts ← foldM accumulate (seqZ 1 nKeys) counts;
  st ← foldM (scatter key) positions (tmp, counts);
  Ok (copy positions st.1, st.1, st.2).

Definition maxTypeOf (types : relTypes) : res Z :=
  foldM (λ mx p, t ← At types p; Ok (Z.max mx t)) (zseq (Len types)) 0.

Definition computeInToOutFromCSR (outOffsets outNbrs : list Z) (outTypes : relTypes)
    (inOffsets inNbrs : list Z) (inTypes : relTypes) : res (list Z) :=
  let m := len outNbrs in
  let inToOut := replicate (length outNbrs) 0 in
  if decide (m = 0) then Ok inToOut
  else
    let n := Z.max (len inOffsets - 1) 0 in
    outSrc ← ownersOf outOffsets m;
    inDst ← ownersOf inOffsets m;
    maxType ← maxTypeOf outTypes;
    let counts := replicate (Z.to_nat (Z.max n (maxType + 1) + 1)) 0 in
    '(outPos, tmp, counts) ← countingPass (ascending m) (replicate (length outNbrs) 0) counts (maxType + 1) (At outTypes);
    '(outPos, tmp, counts) ← countingPass outPos tmp counts n (idx outNbrs);
    '(outPos, tmp, counts) ← countingPass outPos tmp counts n (idx outSrc);
    '(inPos, tmp, counts) ← countingPass (ascending m) tmp counts (maxType + 1) (At inTypes);
    '(inPos, tmp, counts) ← countingPass inPos tmp counts n (idx inDst);
    '(inPos, tmp, counts) ← countingPass inPos tmp counts n (idx inNbrs);
    foldM (λ inToOut i, q ← idx inPos i; p ← idx outPos i; upd inToOut q p) (zseq m) inToOut.

(** ** Buckets: what a counting sort computes *)

Lemma filter_whole {A} (P : A → Prop) `{!∀ x, Decision (P x)} (l : list A) : Forall P l → filter P l = l.
Proof. induction 1 as [|x l Hx _ IH]; [done|]. by rewrite filter_cons_True, IH. Qed.

Lemma filter_empty {A} (P : A → Prop) `{!∀ x, Decision (P x)} (l : list A) : Forall (λ x, ¬ P x) l → filter P l = [].
Proof. induction 1 as [|x l Hx _ IH]; [done|]. by rewrite filter_cons_False, IH. Qed.

Lemma filter_concat {A} (P : A → Prop) `{!∀ x, Decision (P x)} (ls : list (list A)) : filter P (concat ls) = concat (filter P <$> ls).
Proof. induction ls as [|l ls IH]; [done|]. simpl. by rewrite filter_app, IH. Qed.

Lemma filter_swap {A} (P Q : A → Prop) `{!∀ x, Decision (P x), !∀ x, Decision (Q x)} (l : list A) : filter P (filter Q l) = filter Q (filter P l).
Proof.
  rewrite !list_filter_filter. apply list_filter_iff. naive_solver.
Qed.

Section bucket.
Context {A : Type} (key : A → Z).
Implicit Types l : list A.

Definition bucket (n : Z) l : list A := concat ((λ v, filter (λ x, key x = v) l) <$> zseq n).

Lemma bucket_S n l : 0 ≤ n → bucket (n + 1) l = bucket n l ++ filter (λ x, key x = n) l.
Proof. intros Hn. unfold bucket. rewrite zseq_S, fmap_app, concat_app by done. simpl. by rewrite app_nil_r. Qed.

Lemma bucket_0 l : bucket 0 l = [].
Proof. done. Qed.

Lemma bucket_ind (P : Z → list A → Prop) l : P 0 [] →
  (∀ n acc, 0 ≤ n → P n acc → P (n + 1) (acc ++ filter (λ x, key x = n) l)) → ∀ n, 0 ≤ n → P n (bucket n l).
Proof.
  intros H0 HS n Hn. pattern n. apply natlike_ind; [exact H0| |exact Hn]. intros k Hk IH.
  unfold Z.succ. rewrite bucket_S by done. by apply HS.
Qed.

Lemma below_full l n : Forall (λ x, key x < n) l → below key l n = len l.
Proof. intros HF. unfold below. by rewrite filter_whole. Qed.

Lemma len_bucket n l : 0 ≤ n → Forall (λ x, 0 ≤ key x) l → len (bucket n l) = below key l n.
Proof.
  intros Hn HF. apply (bucket_ind (λ n acc, len acc = below key l n)); [by rewrite below_zero| |done].
  intros k acc Hk E. rewrite len_app, E, below_S. done.
Qed.

Lemma bucket_lookup n l p x : 0 ≤ n → Forall (λ x, 0 ≤ key x) l → bucket n l !! p = Some x →
  ∃ k, l !! k = Some x ∧ slotOf key l k x = Z.of_nat p.
Proof.
  intros Hn HF. revert p x. apply (bucket_ind (λ n acc, len acc = below key l n ∧ ∀ p x, acc !! p = Some x →
    ∃ k, l !! k = Some x ∧ slotOf key l k x = Z.of_nat p)); [split; [by rewrite below_zero|done]| |done].
  intros v acc Hv [Hl IH]. split; [by rewrite len_app, Hl, below_S|]. intros p x Hp.
  apply lookup_app_Some in Hp as [Hp|[Hge Hp]]; [by apply IH|].
  apply filter_at in Hp as (k & Hk & Hkx & Ek). exists k. split; [done|]. unfold slotOf. rewrite Hkx, Ek, <- Hl.
  unfold len. lia.
Qed.

Lemma bucket_length n l : 0 ≤ n → Forall (λ x, 0 ≤ key x < n) l → length (bucket n l) = length l.
Proof.
  intros Hn HF. pose proof (len_bucket n l Hn) as E. rewrite below_full in E; [unfold len in E; apply Nat2Z.inj, E|];
    (eapply Forall_impl; [exact HF|]; simpl; lia).
Qed.

(** An array that holds every element in its slot is the bucket order. *)
Lemma slots_bucket n l out : 0 ≤ n → Forall (λ x, 0 ≤ key x < n) l → length out = length l →
  (∀ k x, l !! k = Some x → out !! Z.to_nat (slotOf key l k x) = Some x) → out = bucket n l.
Proof.
  intros Hn HF Hlen Hout. assert (Forall (λ x, 0 ≤ key x) l) as HF0 by (eapply Forall_impl; [exact HF|]; simpl; lia).
  pose proof (bucket_length n l Hn HF) as Hbl.
  apply list_eq_same_length with (n := length l); [done|done|]. intros p x y Hp Hx Hy.
  destruct (bucket_lookup n l p y Hn HF0 Hy) as (k & Hk & Ek). specialize (Hout k y Hk).
  rewrite Ek, Nat2Z.id in Hout. congruence.
Qed.

Lemma elem_of_bucket n l x : x ∈ bucket n l ↔ x ∈ l ∧ 0 ≤ key x < n.
Proof.
  unfold bucket. rewrite list_elem_of_In, in_concat. setoid_rewrite <- list_elem_of_In. split.
  - intros (l' & Hl' & Hx). apply list_elem_of_fmap in Hl' as (v & -> & Hv%elem_of_zseq).
    apply list_elem_of_filter in Hx as [<- Hx]. done.
  - intros [Hx Hk]. eexists. split; [by apply list_elem_of_fmap_2, elem_of_zseq, Hk|]. by apply list_elem_of_filter.
Qed.

Lemma NoDup_bucket n l : 0 ≤ n → Forall (λ x, 0 ≤ key x) l → NoDup l → NoDup (bucket n l).
Proof.
  intros Hn HF Hnd. apply NoDup_alt. intros i j x Hi Hj.
  destruct (bucket_lookup n l i x Hn HF Hi) as (k & Hk & Ek). destruct (bucket_lookup n l j x Hn HF Hj) as (k' & Hk' & Ek').
  assert (k = k') as -> by (by eapply NoDup_lookup). lia.
Qed.

(** Two lists with the same groups have the same bucket order. *)
Lemma bucket_groups n l l' : (∀ v, filter (λ x, key x = v) l = filter (λ x, key x = v) l') → bucket n l = bucket n l'.
Proof. intros Hg. unfold bucket. f_equal. by apply list_fmap_ext. Qed.

Lemma filter_bucket (P : A → Prop) `{!∀ x, Decision (P x)} n l : filter P (bucket n l) = bucket n (filter P l).
Proof.
  unfold bucket. rewrite filter_concat, <- list_fmap_compose. f_equal. apply list_fmap_ext. intros _ v _. apply filter_swap.
Qed.

(** Bucketing keeps every group as it is. *)
Lemma bucket_const n l v : 0 ≤ v < n → Forall (λ x, key x = v) l → bucket n l = l.
Proof.
  intros Hv HF. assert (bucket n l = if decide (v < n) then l else []) as ->; [|by rewrite decide_True by lia].
  pose (P := λ n acc, acc = if decide (v < n) then l else []). apply (bucket_ind P); unfold P; [by rewrite decide_False by lia| |lia].
  intros k acc Hk ->. destruct (decide (k = v)) as [->|Nk].
  - rewrite decide_False, decide_True by lia. by apply filter_whole.
  - assert (filter (λ x, key x = k) l = []) as ->.
    { apply filter_empty. eapply Forall_impl; [exact HF|]. simpl. congruence. }
    rewrite app_nil_r. do 2 case_decide; (done || lia).
Qed.

Lemma bucket_group n l v : Forall (λ x, 0 ≤ key x < n) l → filter (λ x, key x = v) (bucket n l) = filter (λ x, key x = v) l.
Proof.
  intros HF. destruct (decide (0 ≤ v < n)) as [Hv|Hv].
  - rewrite filter_bucket. apply (bucket_const n _ v Hv). apply Forall_forall. intros x. by intros [? _]%list_elem_of_filter.
  - rewrite !filter_empty; [done|..]; [eapply Forall_impl; [exact HF|]|apply Forall_forall; intros x [_ Hx]%elem_of_bucket];
      naive_solver.
Qed.

End bucket.

Lemma fmap_concat {A B} (f : A → B) (ls : list (list A)) : f <$> concat ls = concat ((λ l : list A, f <$> l) <$> ls).
Proof. induction ls as [|l ls IH]; [done|]. simpl. by rewrite fmap_app, IH. Qed.

(** Bucketing commutes with a relabelling that keeps the keys. *)
Lemma bucket_fmap {A B} (f : A → B) (key : A → Z) (key' : B → Z) n l : (∀ x, x ∈ l → key x = key' (f x)) →
  f <$> bucket key n l = bucket key' n (f <$> l).
Proof.
  intros Hk. unfold bucket. rewrite fmap_concat, <- list_fmap_compose. f_equal. apply list_fmap_ext. intros _ v _. simpl.
  clear -Hk. induction l as [|x l IH]; [done|]. rewrite fmap_cons, !filter_cons, <- (Hk x) by (by left).
  assert (f <$> filter (λ x, key x = v) l = filter (λ x, key' x = v) (f <$> l)) as E by (apply IH; intros; apply Hk; by right).
  case_decide; rewrite ?fmap_cons, E; done.
Qed.

(** The three passes: sorting two lists with the same (source, target, type)
    groups gives the same list. *)
Lemma passes_agree {A} (s d t : A → Z) n nt l l' :
  (∀ a b c, filter (λ x, t x = c) (filter (λ x, d x = b) (filter (λ x, s x = a) l)) =
            filter (λ x, t x = c) (filter (λ x, d x = b) (filter (λ x, s x = a) l'))) →
  bucket s n (bucket d n (bucket t nt l)) = bucket s n (bucket d n (bucket t nt l')).
Proof.
  intros H. apply bucket_groups. intros a. rewrite !filter_bucket. apply bucket_groups. intros b. rewrite !filter_bucket.
  apply bucket_groups. intros c. apply H.
Qed.

(** ** One counting pass *)

Lemma equal_le_len {A} (key : A → Z) l v : 0 ≤ equal key l v ≤ len l.
Proof. unfold equal, len. pose proof (length_filter (λ x, key x = v) l). lia. Qed.
Lemma below_nonneg {A} (key : A → Z) l v : 0 ≤ below key l v.
Proof. apply len_nonneg. Qed.

Section pass.
Context (key : Z → res Z) (K : Z → Z) (l : list Z) (nKeys L : Z).
Hypothesis HK : Forall (λ p, key p = Ok (K p) ∧ 0 ≤ K p < nKeys) l.
Hypothesis Hn : 0 ≤ nKeys < 4294967296.
Hypothesis Hl : len l < 4294967296.
Hypothesis HL : nKeys + 1 ≤ L.

Lemma upd_ok {A} (a : list A) i x : 0 ≤ i < len a → upd a i x = Ok (<[Z.to_nat i := x]> a).
Proof. intros. unfold upd. by rewrite decide_True. Qed.

Lemma tally_ok counts : len counts = L → (∀ v, 0 ≤ v ≤ nKeys → counts !! Z.to_nat v = Some 0) →
  ∃ counts', foldM (tally key) l counts = Ok counts' ∧ len counts' = L ∧ counts' !! 0%nat = Some 0 ∧
    ∀ v, 0 ≤ v < nKeys → counts' !! Z.to_nat (v + 1) = Some (equal K l v).
Proof using HK Hn Hl HL.
  intros Hc H0. pose (P := λ (k : nat) cs, len cs = L ∧ cs !! 0%nat = Some 0 ∧
    ∀ v, 0 ≤ v < nKeys → cs !! Z.to_nat (v + 1) = Some (equal K (take k l) v)).
  destruct (foldM_inv P (tally key) l counts) as (cs & -> & Hcs).
  - split; [done|]. split; [apply (H0 0); lia|]. intros v Hv. apply H0. lia.
  - intros k p cs Hp (Hlen & Hz & Hcs). destruct (Forall_lookup_1 _ _ _ _ HK Hp) as [Ek HKp].
    pose proof (equal_le_len K (take k l) (K p)) as Hb. pose proof (equal_le_len K (take (S k) l) (K p)) as Hb'.
    assert (len (take (S k) l) ≤ len l) by (unfold len; rewrite length_take; lia).
    rewrite (equal_take_S K l k p (K p) Hp), decide_True in Hb' by done.
    unfold tally. rewrite Ek. cbn [mbind res_bind]. rewrite (wrapU_small 32 (K p + 1)) by lia.
    rewrite (idx_lookup cs _ (equal K (take k l) (K p))) by (lia || by apply Hcs). cbn [mbind res_bind].
    rewrite (wrapU_small 32) by lia. rewrite upd_ok by lia. eexists. split; [done|]. split; [by rewrite len_insert|].
    split; [rewrite list_lookup_insert_ne by lia; done|]. intros v Hv. rewrite (equal_take_S K l k p v Hp).
    destruct (decide (K p = v)) as [<-|Nv].
    + apply list_lookup_insert_eq. unfold len in Hlen. lia.
    + rewrite list_lookup_insert_ne by lia. rewrite Z.add_0_r. by apply Hcs.
  - destruct Hcs as (? & ? & Hcs). rewrite take_ge in Hcs by lia. by exists cs.
Qed.

Lemma accumulate_ok counts : len counts = L → counts !! 0%nat = Some 0 →
  (∀ v, 0 ≤ v < nKeys → counts !! Z.to_nat (v + 1) = Some (equal K l v)) →
  ∃ counts', foldM accumulate (seqZ 1 nKeys) counts = Ok counts' ∧ len counts' = L ∧
    ∀ v, 0 ≤ v < nKeys → counts' !! Z.to_nat v = Some (below K l v).
Proof using HK Hn Hl HL.
  intros Hc H0 Hcs. pose (P := λ (k : nat) cs, len cs = L ∧
    (∀ v, 0 ≤ v ≤ Z.of_nat k → cs !! Z.to_nat v = Some (below K l v)) ∧
    ∀ v, Z.of_nat k ≤ v < nKeys → cs !! Z.to_nat (v + 1) = Some (equal K l v)).
  destruct (foldM_inv P accumulate (seqZ 1 nKeys) counts) as (cs & -> & Hl' & Hd & _).
  - split; [done|]. split; [|intros v Hv; apply Hcs; lia]. intros v Hv. assert (v = 0) as -> by lia. change (Z.to_nat 0) with 0%nat. rewrite H0. f_equal.
    symmetry. apply below_zero. eapply Forall_impl; [exact HK|]. simpl. lia.
  - intros k x cs Hx (Hlen & Hd & Hr). apply lookup_seqZ in Hx as [-> Hk]. unfold accumulate.
    rewrite (idx_lookup cs (1 + Z.of_nat k) (equal K l (Z.of_nat k))); [|lia|].
    2: { rewrite Z.add_comm. apply Hr. lia. }
    cbn [mbind res_bind]. rewrite (idx_lookup cs (1 + Z.of_nat k - 1) (below K l (Z.of_nat k))); [|lia|].
    2: { replace (1 + Z.of_nat k - 1) with (Z.of_nat k) by lia. apply Hd. lia. }
    cbn [mbind res_bind]. pose proof (below_S K l (Z.of_nat k)) as ES. pose proof (below_len K l (Z.of_nat k + 1)).
    pose proof (below_nonneg K l (Z.of_nat k + 1)). rewrite (wrapU_small 32) by lia. rewrite upd_ok by lia.
    eexists. split; [done|]. split; [by rewrite len_insert|]. split; intros v Hv.
    + destruct (decide (v = 1 + Z.of_nat k)) as [->|Nv].
      * rewrite list_lookup_insert_eq by (unfold len in Hlen; lia). f_equal. rewrite (Z.add_comm 1), ES. lia.
      * rewrite list_lookup_insert_ne by lia. apply Hd. lia.
    + rewrite list_lookup_insert_ne by lia. apply Hr. lia.
  - exists cs. split; [done|]. split; [done|]. intros v Hv. apply Hd. rewrite length_seqZ. lia.
Qed.

Lemma scatter_ok tmp counts : len counts = L → length tmp = length l →
  (∀ v, 0 ≤ v < nKeys → counts !! Z.to_nat v = Some (below K l v)) →
  ∃ counts', foldM (scatter key) l (tmp, counts) = Ok (bucket K nKeys l, counts') ∧ len counts' = L.
Proof using HK Hn Hl HL.
  intros Hc Ht Hcs. pose (P := λ (k : nat) (st : list Z * list Z), len st.2 = L ∧ length st.1 = length l ∧
    (∀ v, 0 ≤ v < nKeys → st.2 !! Z.to_nat v = Some (below K l v + equal K (take k l) v)) ∧
    ∀ j x, (j < k)%nat → l !! j = Some x → st.1 !! Z.to_nat (slotOf K l j x) = Some x).
  assert (∀ k x, l !! k = Some x → 0 ≤ slotOf K l k x < len l) as Hslot.
  { intros k x Hx. pose proof (slotOf_range K l k x Hx). pose proof (below_nonneg K l (K x)).
    pose proof (below_len K l (K x + 1)). lia. }
  destruct (foldM_inv P (scatter key) l (tmp, counts)) as ([out cs] & -> & Hl' & Hlo & _ & Hd).
  - split; [done|]. split; [done|]. split; [|lia]. intros v Hv. rewrite Hcs by done. f_equal.
    change (equal K (take 0 l) v) with 0. lia.
  - intros k p [out cs] Hp (Hlen & Hlo & Hcur & Hd). simpl in Hlen, Hlo, Hcur, Hd.
    destruct (Forall_lookup_1 _ _ _ _ HK Hp) as [Ek HKp]. pose proof (Hslot k p Hp) as Hs. unfold scatter. rewrite Ek.
    cbn [mbind res_bind fst snd]. rewrite (idx_lookup cs _ (slotOf K l k p)) by (lia || by apply Hcur). cbn [mbind res_bind].
    rewrite !upd_ok by (unfold len in *; lia). cbn [mbind res_bind].
    rewrite (wrapU_small 32) by lia. eexists. split; [done|]. unfold P. cbn [fst snd]. split; [by rewrite len_insert|]. split; [by rewrite length_insert|].
    split.
    + intros v Hv. rewrite (equal_take_S K l k p v Hp). destruct (decide (K p = v)) as [<-|Nv].
      * rewrite list_lookup_insert_eq by (unfold len in Hlen; lia). f_equal. unfold slotOf. lia.
      * rewrite list_lookup_insert_ne by lia. rewrite Z.add_0_r. by apply Hcur.
    + intros j x Hj Hx. destruct (decide (j = k)) as [->|Nj].
      * assert (x = p) as -> by congruence. apply list_lookup_insert_eq. unfold len in *. lia.
      * pose proof (Hslot j x Hx). rewrite list_lookup_insert_ne; [apply Hd; [lia|done]|].
        intros E. apply Nj. eapply (slotOf_inj K l j k x p); [done..|lia].
  - exists cs. simpl in *. split; [|done]. f_equal. f_equal. apply slots_bucket; [lia| |done|].
    + eapply Forall_impl; [exact HK|]. simpl. lia.
    + intros k x Hx. apply Hd; [|done]. by apply lookup_lt_Some in Hx.
Qed.

Lemma countingPass_ok tmp counts : len counts = L → length tmp = length l →
  ∃ counts', countingPass l tmp counts nKeys key = Ok (bucket K nKeys l, bucket K nKeys l, counts') ∧ len counts' = L.
Proof using HK Hn Hl HL.
  intros Hc Ht. unfold countingPass. rewrite slice_ok by lia. cbn [mbind res_bind].
  destruct (tally_ok (replicate (Z.to_nat (nKeys + 1)) 0 ++ drop (Z.to_nat (nKeys + 1)) counts)) as (c1 & -> & Hl1 & Hz & H1).
  - rewrite len_app, len_replicate. unfold len in *. rewrite length_drop. lia.
  - intros v Hv. rewrite lookup_app_l by (rewrite length_replicate; lia). by apply lookup_replicate_2; lia.
  - cbn [mbind res_bind]. destruct (accumulate_ok c1 Hl1 Hz H1) as (c2 & -> & Hl2 & H2). cbn [mbind res_bind].
    destruct (scatter_ok tmp c2 Hl2 Ht H2) as (c3 & -> & Hl3). cbn [mbind res_bind fst snd]. exists c3. split; [|done].
    assert (length (bucket K nKeys l) = length l) as Eb.
    { apply bucket_length; [lia|]. eapply Forall_impl; [exact HK|]. simpl. lia. }
    unfold copy. rewrite take_ge, drop_ge, app_nil_r by lia. done.
Qed.

End pass.

(** ** Positions and relationships *)

Lemma zseq_lookup n k : (k < Z.to_nat n)%nat → zseq n !! k = Some (Z.of_nat k).
Proof. intros Hk. unfold zseq. by rewrite list_lookup_fmap, lookup_seq_lt. Qed.

Lemma list_zseq {A} `{Inhabited A} (l : list A) : (λ i, l !!! Z.to_nat i) <$> zseq (len l) = l.
Proof.
  apply list_eq_same_length with (n := length l); [done|by unfold zseq; rewrite !length_fmap, length_seq, to_nat_len|].
  intros k x y Hk Hx Hy. rewrite list_lookup_fmap, zseq_lookup in Hx by (by rewrite to_nat_len). simpl in Hx.
  rewrite Nat2Z.id, (list_lookup_total_correct _ _ _ Hy) in Hx. congruence.
Qed.

Lemma filter_fmap {A B} (f : A → B) (P : B → Prop) `{!∀ x, Decision (P x)} (l : list A) : filter P (f <$> l) = f <$> filter (λ x, P (f x)) l.
Proof. induction l as [|x l IH]; [done|]. rewrite fmap_cons, !filter_cons, IH. by case_decide. Qed.

Lemma filter_fmap_len {A B} (f : A → B) (P : B → Prop) `{!∀ x, Decision (P x)} l :
  len (filter P (f <$> l)) = len (filter (λ x, P (f x)) l).
Proof. by rewrite filter_fmap, len_fmap. Qed.

Lemma slotOf_fmap {A B} (f : A → B) (key : B → Z) l k x :
  slotOf (λ x, key (f x)) l k x = slotOf key (f <$> l) k (f x).
Proof. unfold slotOf, below, equal. by rewrite <- fmap_take, !filter_fmap_len. Qed.

Lemma fillRange {A} (x : A) a lo hi : 0 ≤ lo ≤ hi → hi ≤ len a →
  ∃ a', foldM (λ a p, upd a p x) (seqZ lo (hi - lo)) a = Ok a' ∧ len a' = len a ∧
    ∀ p, 0 ≤ p → a' !! Z.to_nat p = if decide (lo ≤ p < hi) then Some x else a !! Z.to_nat p.
Proof.
  intros Hlo Hhi. pose (P := λ (k : nat) a', len a' = len a ∧
    ∀ p, 0 ≤ p → a' !! Z.to_nat p = if decide (lo ≤ p < lo + Z.of_nat k) then Some x else a !! Z.to_nat p).
  destruct (foldM_inv P (λ a p, upd a p x) (seqZ lo (hi - lo)) a) as (a' & -> & Hl & Ha).
  - split; [done|]. intros p Hp. by rewrite decide_False by lia.
  - intros k q a' Hq [Hl Ha]. apply lookup_seqZ in Hq as [-> Hk]. rewrite upd_ok by lia. eexists. split; [done|].
    split; [by rewrite len_insert|]. intros p Hp. destruct (decide (p = lo + Z.of_nat k)) as [->|Np].
    + rewrite list_lookup_insert_eq by (unfold len in *; lia). by rewrite decide_True by lia.
    + rewrite list_lookup_insert_ne, Ha by lia. by repeat case_decide; try lia.
  - exists a'. split; [done|]. split; [done|]. intros p Hp. rewrite Ha by done. rewrite length_seqZ. by repeat case_decide; try lia.
Qed.

Lemma maxTypeOf_ok r B : wf_types r → Forall (λ t, 0 ≤ t ≤ B) (typesOf r) → 0 ≤ B →
  ∃ mx, maxTypeOf r = Ok mx ∧ 0 ≤ mx ≤ B ∧ ∀ p t, typesOf r !! p = Some t → t ≤ mx.
Proof.
  intros Hw HF HB. unfold maxTypeOf. rewrite <- len_typesOf.
  pose (P := λ k mx, 0 ≤ mx ≤ B ∧ ∀ p t, Z.of_nat p < k → typesOf r !! p = Some t → t ≤ mx).
  match goal with |- context [foldM ?f ?l ?b] => destruct (foldM_zseq P f (len (typesOf r)) b) as (mx & -> & Hb & Hmx) end.
  - apply len_nonneg.
  - split; [lia|]. intros p t. lia.
  - intros i mx Hi [Hb Hmx]. destruct (idx_ok (typesOf r) i Hi) as (t & _ & Ht). rewrite (At_typesOf r i t) by (done || lia).
    cbn [mbind res_bind]. eexists. split; [done|]. pose proof (Forall_lookup_1 _ _ _ _ HF Ht) as Hr. simpl in Hr. split; [lia|].
    intros p t' Hp Ht'. destruct (decide (Z.of_nat p = i)) as [<-|Np]; [rewrite Nat2Z.id in Ht; simplify_eq; lia|].
    specialize (Hmx p t' ltac:(lia) Ht'). lia.
  - exists mx. split; [done|]. split; [done|]. intros p t Ht. apply (Hmx p); [|done]. apply lookup_lt_Some in Ht. unfold len. lia.
Qed.

Section pairing.
Context (n : Z) (rels : list (Z * Z)) (ts : list Z).
Hypothesis Hn : 0 ≤ n < 4294967296.
Hypothesis Hm : len rels < 4294967296.
Hypothesis Hts : length ts = length rels.
Hypothesis Hends : Forall (λ r, 0 ≤ r.1 < n ∧ 0 ≤ r.2 < n) rels.

Abbreviation R := (λ i : Z, rels !!! Z.to_nat i).
Abbreviation T := (λ i : Z, ts !!! Z.to_nat i).

(** The relationship at each position of a direction. *)
Definition relOrder (endpoint : Z) : list Z := bucket (λ i, ownerOf endpoint (R i)) n (zseq (len rels)).
Definition relAt (endpoint p : Z) : Z := relOrder endpoint !!! Z.to_nat p.

Lemma ids_owner endpoint : Forall (λ i, 0 ≤ ownerOf endpoint (R i) < n) (zseq (len rels)).
Proof using Hn Hm Hts Hends.
  apply Forall_forall. intros i Hi%elem_of_zseq. destruct (lookup_lt_is_Some_2 rels (Z.to_nat i)) as [r Hr]; [unfold len in Hi; lia|].
  rewrite (list_lookup_total_correct _ _ _ Hr). pose proof (Forall_lookup_1 _ _ _ _ Hends Hr) as [H1 H2].
  unfold ownerOf. by case_decide.
Qed.

Lemma len_relOrder endpoint : len (relOrder endpoint) = len rels.
Proof using Hn Hm Hts Hends.
  unfold relOrder, len. rewrite bucket_length; [|lia|apply ids_owner]. unfold zseq. rewrite length_fmap, length_seq. lia.
Qed.

Lemma relAt_slot endpoint p : 0 ≤ p < len rels → ∃ r t, 0 ≤ relAt endpoint p < len rels ∧
  rels !! Z.to_nat (relAt endpoint p) = Some r ∧ ts !! Z.to_nat (relAt endpoint p) = Some t ∧
  slotOf (ownerOf endpoint) rels (Z.to_nat (relAt endpoint p)) r = p.
Proof using Hn Hm Hts Hends.
  intros Hp. destruct (lookup_lt_is_Some_2 (relOrder endpoint) (Z.to_nat p)) as [i Hi].
  { pose proof (len_relOrder endpoint). unfold len in *. lia. }
  unfold relAt. rewrite (list_lookup_total_correct _ _ _ Hi).
  apply bucket_lookup in Hi as (k & Hk & Es); [|lia|].
  2: { eapply Forall_impl; [apply (ids_owner endpoint)|]. simpl. lia. }
  apply lookup_lt_Some in Hk as Hlt. unfold zseq in Hlt. rewrite length_fmap, length_seq in Hlt.
  rewrite zseq_lookup in Hk by done. injection Hk as <-. unfold len in Hlt. rewrite Nat2Z.id in Hlt |- *.
  destruct (lookup_lt_is_Some_2 rels k Hlt) as [r Hr]. destruct (lookup_lt_is_Some_2 ts k) as [t Ht]; [lia|].
  exists r, t. split; [unfold len; lia|]. split; [done|]. split; [done|].
  rewrite (slotOf_fmap (λ i, rels !!! Z.to_nat i) (ownerOf endpoint)), list_zseq, Nat2Z.id in Es.
  rewrite (list_lookup_total_correct _ _ _ Hr) in Es. lia.
Qed.

Lemma relAt_fmap endpoint : relAt endpoint <$> zseq (len rels) = relOrder endpoint.
Proof using Hn Hm Hts Hends. rewrite <- (len_relOrder endpoint). apply list_zseq. Qed.

Section direction.
Context (endpoint : Z) (offsets nbrs types : list Z).
Hypothesis Hcsr : isCSR n rels ts endpoint offsets nbrs types.

Lemma direction_at p : 0 ≤ p < len rels → ∃ r t, rels !! Z.to_nat (relAt endpoint p) = Some r ∧
  ts !! Z.to_nat (relAt endpoint p) = Some t ∧ nbrs !! Z.to_nat p = Some (otherOf endpoint r) ∧ types !! Z.to_nat p = Some t ∧
  below (ownerOf endpoint) rels (ownerOf endpoint r) ≤ p < below (ownerOf endpoint) rels (ownerOf endpoint r + 1).
Proof using Hn Hm Hts Hends Hcsr.
  intros Hp. destruct (relAt_slot endpoint p Hp) as (r & t & Hi & Hr & Ht & Es). exists r, t. split; [done|]. split; [done|].
  destruct (ic_at _ _ _ _ _ _ _ Hcsr _ r t Hr Ht) as [E1 E2]. rewrite Es in E1, E2. split; [done|]. split; [done|].
  rewrite <- Es at 1 2. by apply slotOf_range.
Qed.

Lemma ownersOf_ok : ∃ owners, ownersOf offsets (len rels) = Ok owners ∧ len owners = len rels ∧
  ∀ p, 0 ≤ p < len rels → idx owners p = Ok (ownerOf endpoint (R (relAt endpoint p))).
Proof using Hn Hm Hts Hends Hcsr.
  pose proof (below_len (ownerOf endpoint) rels) as Hb.
  pose proof (below_nonneg (ownerOf endpoint) rels) as H0. pose proof (below_mono (ownerOf endpoint) rels) as Hmono.
  destruct Hcsr as [Hlen Hoff _ _ _]. unfold ownersOf. rewrite Hlen. replace (n + 1 - 1) with n by lia.
  pose (P := λ u owners, len owners = len rels ∧ ∀ v p, 0 ≤ v < u →
    below (ownerOf endpoint) rels v ≤ p < below (ownerOf endpoint) rels (v + 1) → owners !! Z.to_nat p = Some v).
  match goal with |- context [foldM ?f (zseq n) ?b] => destruct (foldM_zseq P f n b) as (owners & -> & Hl & Ho) end.
  - lia.
  - split; [rewrite len_replicate; unfold len; lia|]. lia.
  - intros u owners Hu [Hl Ho]. rewrite (idx_lookup offsets u _) by (lia || apply Hoff; lia). cbn [mbind res_bind].
    rewrite (idx_lookup offsets (u + 1) _) by (lia || apply Hoff; lia). cbn [mbind res_bind].
    rewrite (wrapU_small 32) by lia. pose proof (Hmono u (u + 1) ltac:(lia)).
    destruct (fillRange u owners (below (ownerOf endpoint) rels u) (below (ownerOf endpoint) rels (u + 1))) as (o' & -> & Hl' & Ho').
    { split; [apply H0|lia]. }
    { rewrite Hl. apply Hb. }
    exists o'. split; [done|]. split; [lia|]. intros v p Hv Hp. pose proof (H0 v). rewrite Ho' by lia.
    destruct (decide (v = u)) as [->|Nv]; [by rewrite decide_True|]. pose proof (Hmono (v + 1) u ltac:(lia)).
    rewrite decide_False by lia. apply Ho; lia.
  - exists owners. split; [done|]. split; [done|]. intros p Hp. destruct (direction_at p Hp) as (r & t & Hr & _ & _ & _ & Hpos).
    rewrite (list_lookup_total_correct _ _ _ Hr). apply idx_lookup; [lia|]. apply (Ho _ p); [|done].
    pose proof (Forall_lookup_1 _ _ _ _ Hends Hr) as [H1 H2]. unfold ownerOf. case_decide; lia.
Qed.

Lemma isCSR_types_range : Forall (λ t, 0 ≤ t < MaxUint32) ts → Forall (λ t, 0 ≤ t) types.
Proof using Hn Hm Hts Hends Hcsr.
  intros Htr. apply Forall_lookup. intros p t Hp. apply lookup_lt_Some in Hp as Hlt. rewrite (ic_types _ _ _ _ _ _ _ Hcsr) in Hlt.
  destruct (direction_at (Z.of_nat p)) as (r & t' & _ & Ht & _ & E & _); [unfold len; lia|].
  rewrite Nat2Z.id in E. assert (t' = t) as -> by congruence. pose proof (Forall_lookup_1 _ _ _ _ Htr Ht). simpl in *. lia.
Qed.

End direction.

(** The three passes over one side's positions, [f] the relationship at each. *)
Abbreviation src := (λ i : Z, (R i).1).
Abbreviation dst := (λ i : Z, (R i).2).

(** A list of all the positions, in some order. *)
Record allPositions (l : list Z) : Prop := {
  ap_len : length l = length rels;
  ap_nodup : NoDup l;
  ap_elem : ∀ p, p ∈ l ↔ 0 ≤ p < len rels;
}.

Lemma ascending_all : ascending (len rels) = zseq (len rels) ∧ allPositions (zseq (len rels)).
Proof using Hn Hm Hts Hends.
  split.
  - unfold ascending. rewrite <- (list_fmap_id (zseq (len rels))) at 2. apply Forall_fmap_ext_1, Forall_forall.
    intros x Hx%elem_of_zseq. unfold id. apply wrapU_small. lia.
  - split; [|apply sorted_NoDup, zseq_sorted|apply elem_of_zseq]. unfold zseq. by rewrite length_fmap, length_seq, to_nat_len.
Qed.

Lemma pass_step (f : Z → Z) (K : Z → Z) (key : Z → res Z) nK L l tmp counts : allPositions l →
  (∀ p, 0 ≤ p < len rels → key p = Ok (K (f p)) ∧ 0 ≤ K (f p) < nK) → 0 ≤ nK < 4294967296 → nK + 1 ≤ L →
  len counts = L → length tmp = length rels →
  ∃ l' c', countingPass l tmp counts nK key = Ok (l', l', c') ∧ len c' = L ∧ allPositions l' ∧
    f <$> l' = bucket K nK (f <$> l).
Proof using Hn Hm Hts Hends.
  intros [Hl Hnd He] HK HnK HL Hc Ht.
  assert (Forall (λ p, key p = Ok (K (f p)) ∧ 0 ≤ K (f p) < nK) l) as HF.
  { apply Forall_forall. intros p Hp%He. by apply HK. }
  assert (Forall (λ p, 0 ≤ K (f p) < nK) l) as HF' by (eapply Forall_impl; [exact HF|]; simpl; tauto).
  destruct (countingPass_ok key (λ p, K (f p)) l nK L HF HnK ltac:(unfold len in *; lia) HL tmp counts Hc ltac:(lia)) as (c' & E & Hc').
  eexists _, c'. split; [exact E|]. split; [done|]. split; [|by apply bucket_fmap]. split.
  - rewrite bucket_length by (done || lia). done.
  - apply NoDup_bucket; [lia| |done]. eapply Forall_impl; [exact HF'|]. simpl. lia.
  - intros p. rewrite elem_of_bucket, He. split; [tauto|]. intros Hp. split; [done|]. by apply HK.
Qed.

Lemma relAt_range endpoint p : 0 ≤ p < len rels → 0 ≤ relAt endpoint p < len rels.
Proof using Hn Hm Hts Hends. intros Hp. destruct (relAt_slot endpoint p Hp) as (r & t & ? & _). done. Qed.

Lemma ends_range i : 0 ≤ i < len rels → 0 ≤ src i < n ∧ 0 ≤ dst i < n.
Proof using Hn Hm Hts Hends.
  intros Hi. pose proof (ids_owner 0) as H0. pose proof (ids_owner 1) as H1. rewrite Forall_forall in H0, H1.
  split; [apply (H0 i)|apply (H1 i)]; by apply elem_of_zseq.
Qed.

(** One side's three passes, [f] the relationship at each position. *)
Lemma threePasses (f : Z → Z) (k1 k2 k3 : Z → res Z) nt L tmp counts :
  (∀ p, 0 ≤ p < len rels → 0 ≤ f p < len rels ∧ k1 p = Ok (T (f p)) ∧ k2 p = Ok (dst (f p)) ∧ k3 p = Ok (src (f p))) →
  (∀ i, 0 ≤ i < len rels → 0 ≤ T i < nt) → 0 ≤ nt < 4294967296 → nt + 1 ≤ L → n + 1 ≤ L →
  len counts = L → length tmp = length rels →
  ∃ p1 p2 p3 c1 c2 c3, countingPass (zseq (len rels)) tmp counts nt k1 = Ok (p1, p1, c1) ∧
    countingPass p1 p1 c1 n k2 = Ok (p2, p2, c2) ∧ countingPass p2 p2 c2 n k3 = Ok (p3, p3, c3) ∧
    len c3 = L ∧ allPositions p3 ∧ f <$> p3 = bucket src n (bucket dst n (bucket T nt (f <$> zseq (len rels)))).
Proof using Hn Hm Hts Hends.
  intros Hk HT Hnt HL1 HL2 Hc Ht.
  destruct (pass_step f T k1 nt L (zseq (len rels)) tmp counts) as (p1 & c1 & E1 & Hc1 & Hp1 & F1); try (done || lia).
  { apply ascending_all. }
  { intros p Hp. destruct (Hk p Hp) as (Hf & ? & _). split; [done|]. by apply HT. }
  destruct (pass_step f dst k2 n L p1 p1 c1) as (p2 & c2 & E2 & Hc2 & Hp2 & F2); try (done || lia || apply Hp1).
  { intros p Hp. destruct (Hk p Hp) as (Hf & _ & ? & _). split; [done|]. by apply ends_range. }
  destruct (pass_step f src k3 n L p2 p2 c2) as (p3 & c3 & E3 & Hc3 & Hp3 & F3); try (done || lia || apply Hp2).
  { intros p Hp. destruct (Hk p Hp) as (Hf & _ & _ & ?). split; [done|]. by apply ends_range. }
  exists p1, p2, p3, c1, c2, c3. rewrite F3, F2, F1. done.
Qed.

(** Both sides end in the same relationship order. *)
Lemma sides_agree nt : (∀ i, 0 ≤ i < len rels → 0 ≤ T i < nt) →
  bucket src n (bucket dst n (bucket T nt (relOrder 0))) = bucket src n (bucket dst n (bucket T nt (relOrder 1))).
Proof using Hn Hm Hts Hends.
  intros Ht. apply passes_agree. intros a b c.
  assert (∀ v, filter (λ i, src i = v) (relOrder 0) = filter (λ i, src i = v) (zseq (len rels))) as E0.
  { intros v. unfold relOrder. apply (bucket_group (λ i, ownerOf 0 (R i))), ids_owner. }
  assert (∀ v, filter (λ i, dst i = v) (relOrder 1) = filter (λ i, dst i = v) (zseq (len rels))) as E1.
  { intros v. unfold relOrder. apply (bucket_group (λ i, ownerOf 1 (R i))), ids_owner. }
  f_equal. rewrite E0, (filter_swap (λ i, dst i = b) (λ i, src i = a) (relOrder 1)), E1. apply filter_swap.
Qed.

(** The last loop writes one entry a pair of positions. *)
Lemma assign_ok inPos outPos : allPositions inPos → length outPos = length rels →
  ∃ ito, foldM (λ ito i, q ← idx inPos i; p ← idx outPos i; upd ito q p) (zseq (len rels)) (replicate (length rels) 0) = Ok ito ∧
    length ito = length rels ∧ ∀ k q p, inPos !! k = Some q → outPos !! k = Some p → ito !! Z.to_nat q = Some p.
Proof using Hn Hm Hts Hends.
  intros [Hl Hnd He] Ho.
  pose (P := λ i ito, length ito = length rels ∧ ∀ k q p, Z.of_nat k < i → inPos !! k = Some q → outPos !! k = Some p → ito !! Z.to_nat q = Some p).
  match goal with |- context [foldM ?f ?l ?b] => destruct (foldM_zseq P f (len rels) b) as (ito & -> & Hli & Hi) end.
  - apply len_nonneg.
  - split; [by rewrite length_replicate|]. lia.
  - intros i ito Hi [Hli Hito]. destruct (lookup_lt_is_Some_2 inPos (Z.to_nat i)) as [q Hq]; [unfold len in Hi; lia|].
    destruct (lookup_lt_is_Some_2 outPos (Z.to_nat i)) as [p Hp]; [unfold len in Hi; lia|].
    rewrite (idx_lookup inPos _ q), (idx_lookup outPos _ p) by (lia || done). cbn [mbind res_bind].
    assert (0 ≤ q < len rels) as Hqr by (apply He; by eapply list_elem_of_lookup_2). rewrite upd_ok by (unfold len in *; lia).
    eexists. split; [done|]. split; [by rewrite length_insert|]. intros k q' p' Hk Hq' Hp'.
    destruct (decide (Z.of_nat k = i)) as [<-|Nk].
    + rewrite Nat2Z.id in Hq, Hp. simplify_eq. apply list_lookup_insert_eq. unfold len in *. lia.
    + rewrite list_lookup_insert_ne; [apply (Hito k); [lia|done..]|]. intros E.
      assert (0 ≤ q' < len rels) as Hqr' by (apply He; by eapply list_elem_of_lookup_2). assert (q' = q) as -> by lia.
      pose proof (NoDup_lookup _ _ _ _ Hnd Hq' Hq). lia.
  - exists ito. split; [done|]. split; [done|]. intros k q p Hq Hp. apply (Hi k); [|done..].
    apply lookup_lt_Some in Hq. unfold len. lia.
Qed.

(** The pairing, from the arrays of both directions. *)
Section both.
Context (outOffsets outNbrs inOffsets inNbrs : list Z) (outTypes inTypes : relTypes).
Hypothesis Hout : isCSR n rels ts 0 outOffsets outNbrs (typesOf outTypes).
Hypothesis Hin : isCSR n rels ts 1 inOffsets inNbrs (typesOf inTypes).
Hypothesis Hwo : wf_types outTypes.
Hypothesis Hwi : wf_types inTypes.
Hypothesis Htr : Forall (λ t, 0 ≤ t < MaxUint32) ts.

Lemma outTypes_range : Forall (λ t, 0 ≤ t ≤ 4294967294) (typesOf outTypes).
Proof using Hn Hm Hts Hends Hout Htr.
  apply Forall_lookup. intros p t Hp. apply lookup_lt_Some in Hp as Hlt. rewrite (ic_types _ _ _ _ _ _ _ Hout) in Hlt.
  destruct (direction_at 0 _ _ _ Hout (Z.of_nat p)) as (r & t' & _ & Ht & _ & E & _); [unfold len; lia|].
  rewrite Nat2Z.id in E. assert (t' = t) as -> by congruence. pose proof (Forall_lookup_1 _ _ _ _ Htr Ht). simpl in *. lia.
Qed.

Lemma out_keys p : 0 ≤ p < len rels → At outTypes p = Ok (T (relAt 0 p)) ∧ idx outNbrs p = Ok (dst (relAt 0 p)).
Proof using Hn Hm Hts Hends Hout Hwo.
  intros Hp. destruct (direction_at 0 _ _ _ Hout p Hp) as (r & t & Hr & Ht & E1 & E2 & _).
  rewrite (list_lookup_total_correct _ _ _ Hr), (list_lookup_total_correct _ _ _ Ht).
  split; [by apply At_typesOf; [|lia|]|by apply idx_lookup; [lia|]].
Qed.

Lemma in_keys p : 0 ≤ p < len rels → At inTypes p = Ok (T (relAt 1 p)) ∧ idx inNbrs p = Ok (src (relAt 1 p)).
Proof using Hn Hm Hts Hends Hin Hwi.
  intros Hp. destruct (direction_at 1 _ _ _ Hin p Hp) as (r & t & Hr & Ht & E1 & E2 & _).
  rewrite (list_lookup_total_correct _ _ _ Hr), (list_lookup_total_correct _ _ _ Ht).
  split; [by apply At_typesOf; [|lia|]|by apply idx_lookup; [lia|]].
Qed.

Lemma types_below mx : (∀ p t, typesOf outTypes !! p = Some t → t ≤ mx) → ∀ i, 0 ≤ i < len rels → 0 ≤ T i < mx + 1.
Proof using Hn Hm Hts Hends Hout Htr.
  intros Hmax i Hi. destruct (lookup_lt_is_Some_2 rels (Z.to_nat i)) as [r Hr]; [unfold len in Hi; lia|].
  destruct (lookup_lt_is_Some_2 ts (Z.to_nat i)) as [t Ht]; [unfold len in Hi; lia|].
  rewrite (list_lookup_total_correct _ _ _ Ht). destruct (ic_at _ _ _ _ _ _ _ Hout _ _ _ Hr Ht) as [_ E].
  apply Hmax in E. pose proof (Forall_lookup_1 _ _ _ _ Htr Ht) as Ht0. simpl in Ht0. lia.
Qed.

Lemma computeInToOut_positions : ∃ ito, computeInToOutFromCSR outOffsets outNbrs outTypes inOffsets inNbrs inTypes = Ok ito ∧
  length ito = length rels ∧ ∀ q, 0 ≤ q < len rels → ∃ p, 0 ≤ p < len rels ∧ ito !! Z.to_nat q = Some p ∧ relAt 0 p = relAt 1 q.
Proof using Hn Hm Hts Hends Hout Hin Hwo Hwi Htr.
  unfold computeInToOutFromCSR. assert (len outNbrs = len rels) as -> by (unfold len; by rewrite (ic_nbrs _ _ _ _ _ _ _ Hout)).
  case_decide as D; [eexists; split; [done|]; split; [by rewrite length_replicate, (ic_nbrs _ _ _ _ _ _ _ Hout)|lia]|].
  destruct (ownersOf_ok 0 _ _ _ Hout) as (outSrc & -> & _ & Hos). cbn [mbind res_bind].
  destruct (ownersOf_ok 1 _ _ _ Hin) as (inDst & -> & _ & Hid). cbn [mbind res_bind].
  destruct (maxTypeOf_ok outTypes 4294967294 Hwo outTypes_range) as (mx & -> & Hmx & Hmax); [lia|]. cbn [mbind res_bind].
  rewrite (ic_len _ _ _ _ _ _ _ Hin), (ic_nbrs _ _ _ _ _ _ _ Hout). replace (Z.max (n + 1 - 1) 0) with n by lia.
  set (L := Z.max n (mx + 1) + 1).
  pose proof (types_below mx Hmax) as HT.
  destruct ascending_all as [-> _].
  destruct (threePasses (relAt 0) (At outTypes) (idx outNbrs) (idx outSrc) (mx + 1) L (replicate (length rels) 0)
    (replicate (Z.to_nat L) 0)) as (o1 & o2 & o3 & c1 & c2 & c3 & -> & E2 & E3 & Hc3 & Ho3 & Eo); try (done || lia).
  { intros p Hp. destruct (out_keys p Hp). by split; [apply relAt_range|split; [|split; [|apply Hos]]]. }
  { rewrite len_replicate. lia. }
  { by rewrite length_replicate. }
  cbn [mbind res_bind]. rewrite E2. cbn [mbind res_bind]. rewrite E3. cbn [mbind res_bind].
  destruct (threePasses (relAt 1) (At inTypes) (idx inDst) (idx inNbrs) (mx + 1) L o3 c3)
    as (i1 & i2 & i3 & c4 & c5 & c6 & -> & F2 & F3 & _ & Hi3 & Ei); try (done || lia || apply Ho3).
  { intros p Hp. destruct (in_keys p Hp). by split; [apply relAt_range|split; [|split; [apply Hid|]]]. }
  cbn [mbind res_bind]. rewrite F2. cbn [mbind res_bind]. rewrite F3. cbn [mbind res_bind].
  destruct (assign_ok i3 o3 Hi3 (ap_len _ Ho3)) as (ito & -> & Hl & Hito). exists ito. split; [done|]. split; [done|].
  assert (relAt 0 <$> o3 = relAt 1 <$> i3) as Eq.
  { rewrite Eo, Ei, !relAt_fmap. by apply sides_agree. }
  intros q Hq. apply (ap_elem _ Hi3), list_elem_of_lookup_1 in Hq as [k Hk].
  destruct (lookup_lt_is_Some_2 o3 k) as [p Hp].
  { apply lookup_lt_Some in Hk. rewrite (ap_len _ Hi3) in Hk. by rewrite (ap_len _ Ho3). }
  exists p. split; [apply (ap_elem _ Ho3); by eapply list_elem_of_lookup_2|]. split; [by apply (Hito k)|].
  assert ((relAt 0 <$> o3) !! k = (relAt 1 <$> i3) !! k) as E by (by rewrite Eq).
  rewrite !list_lookup_fmap, Hk, Hp in E. by injection E.
Qed.

Lemma relAt_slotOf endpoint j r : rels !! j = Some r →
  0 ≤ slotOf (ownerOf endpoint) rels j r < len rels ∧ relAt endpoint (slotOf (ownerOf endpoint) rels j r) = Z.of_nat j.
Proof using Hn Hm Hts Hends.
  intros Hr. assert (0 ≤ slotOf (ownerOf endpoint) rels j r < len rels) as Hs.
  { pose proof (slotOf_range (ownerOf endpoint) rels j r Hr). pose proof (below_nonneg (ownerOf endpoint) rels (ownerOf endpoint r)).
    pose proof (below_len (ownerOf endpoint) rels (ownerOf endpoint r + 1)). lia. }
  split; [done|]. destruct (relAt_slot endpoint _ Hs) as (r' & t & Hi & Hr' & _ & E).
  pose proof (slotOf_inj (ownerOf endpoint) rels _ j r' r Hr' Hr E). lia.
Qed.

Lemma computeInToOut_slots : ∃ ito, computeInToOutFromCSR outOffsets outNbrs outTypes inOffsets inNbrs inTypes = Ok ito ∧
  length ito = length rels ∧ ∀ j r, rels !! j = Some r →
    ito !! Z.to_nat (slotOf (ownerOf 1) rels j r) = Some (slotOf (ownerOf 0) rels j r).
Proof using Hn Hm Hts Hends Hout Hin Hwo Hwi Htr.
  destruct computeInToOut_positions as (ito & E & Hl & Hito). exists ito. split; [done|]. split; [done|].
  intros j r Hr. destruct (relAt_slotOf 1 j r Hr) as [Hq Eq]. destruct (relAt_slotOf 0 j r Hr) as [Hp Ep].
  destruct (Hito _ Hq) as (p & Hpr & -> & Ep'). f_equal. rewrite Eq in Ep'.
  destruct (relAt_slot 0 p Hpr) as (r' & _ & Hi & Hr' & _ & <-). rewrite Ep', Nat2Z.id in Hr' |- *. congruence.
Qed.

End both.

End pairing.

(** ** Property *)

(** The position map pairs relationships correctly. For every staged
    relationship list, build both CSR directions, compress the types and run the
    reconstruction from the adjacency arrays alone: it succeeds, and the incoming
    position of every relationship is sent to that relationship's own outgoing
    position - also for parallel relationships with the same ends and type, and
    for self loops - so properties stored by outgoing position are read for the
    right relationship when it is reached from its target. *)
Theorem inToOut_pairs n rels ts degOut degIn : staged n rels ts degOut 0 → staged n rels ts degIn 1 →
  n < 4294967296 → Forall (λ t, 0 ≤ t < MaxUint32) ts →
  ∃ outOffsets outNbrs wo relToOut inOffsets inNbrs wi relToIn outTypes inTypes ito,
    buildCSRDirection n rels ts degOut 0 = Ok (outOffsets, outNbrs, wo, relToOut) ∧
    buildCSRDirection n rels ts degIn 1 = Ok (inOffsets, inNbrs, wi, relToIn) ∧
    compressRelTypes wo = Ok outTypes ∧ compressRelTypes wi = Ok inTypes ∧
    computeInToOutFromCSR outOffsets outNbrs outTypes inOffsets inNbrs inTypes = Ok ito ∧ length ito = length rels ∧
    ∀ j q p, relToIn !! j = Some q → relToOut !! j = Some p → idx ito q = Ok p.
Proof.
  intros Ho Hi Hn Ht. pose proof (sg_m _ _ _ _ _ Ho) as Hm. pose proof (sg_types _ _ _ _ _ Ho) as Hts.
  assert (Forall (λ r, 0 ≤ r.1 < n ∧ 0 ≤ r.2 < n) rels) as He.
  { apply Forall_and. split; [exact (sg_rels _ _ _ _ _ Ho)|exact (sg_rels _ _ _ _ _ Hi)]. }
  assert (0 ≤ n < 4294967296) as Hn' by (split; [apply (sg_n _ _ _ _ _ Ho)|done]).
  destruct (buildCSRDirection_isCSR _ _ _ _ _ Ho) as (oo & on & wo & ro & Eo & Co & Lo & Ro).
  destruct (buildCSRDirection_isCSR _ _ _ _ _ Hi) as (io & inb & wi & ri & Ei & Ci & Li & Ri).
  pose proof (isCSR_types_range n rels ts Hn' Hm Hts He 0 _ _ _ Co Ht) as Hwo.
  pose proof (isCSR_types_range n rels ts Hn' Hm Hts He 1 _ _ _ Ci Ht) as Hwi.
  destruct (compressRelTypes_ok wo Hwo) as (rto & Et & Wo & To). destruct (compressRelTypes_ok wi Hwi) as (rti & Et' & Wi & Ti).
  rewrite <- To in Co. rewrite <- Ti in Ci.
  destruct (computeInToOut_slots n rels ts Hn' Hm Hts He oo on io inb rto rti Co Ci Wo Wi Ht) as (ito & E & Hl & Hito).
  exists oo, on, wo, ro, io, inb, wi, ri, rto, rti, ito. do 6 (split; [done|]).
  intros j q p Hq Hp. apply lookup_lt_Some in Hq as Hj. rewrite Li in Hj. destruct (lookup_lt_is_Some_2 rels j Hj) as [r Hr].
  rewrite (Ro j r Hr) in Hp. rewrite (Ri j r Hr) in Hq. simplify_eq. apply idx_lookup; [|by apply Hito].
  apply (relAt_slotOf n rels ts Hn' Hm Hts He 1 j r Hr).
Qed.

(** Two parallel relationships, a self loop and a reverse one. *)
Definition pairRels : list (Z * Z) := [(0, 2); (2, 0); (1, 1); (0, 2); (0, 1)].

Lemma inToOut_pairs_witness : ∃ outOffsets outNbrs wo relToOut inOffsets inNbrs wi relToIn outTypes inTypes ito,
  buildCSRDirection 3 pairRels [5; 6; 7; 5; 6] [3; 1; 1] 0 = Ok (outOffsets, outNbrs, wo, relToOut) ∧
  buildCSRDirection 3 pairRels [5; 6; 7; 5; 6] [1; 2; 2] 1 = Ok (inOffsets, inNbrs, wi, relToIn) ∧
  compressRelTypes wo = Ok outTypes ∧ compressRelTypes wi = Ok inTypes ∧
  computeInToOutFromCSR outOffsets outNbrs outTypes inOffsets inNbrs inTypes = Ok ito ∧ length ito = 5%nat ∧
  ∀ j q p, relToIn !! j = Some q → relToOut !! j = Some p → idx ito q = Ok p.
Proof.
  apply (inToOut_pairs 3 pairRels [5; 6; 7; 5; 6] [3; 1; 1] [1; 2; 2]); [| |lia|by repeat constructor].
  all: split; [lia|by repeat constructor|done|done|]; intros v Hv;
    assert (v = 0 ∨ v = 1 ∨ v = 2) as [->|[->| ->]] by lia; done.
Defined.
