(* ===== verification/Snapshot.v ===== *)
(** The immutable graph: [src/snapshot.go] and the name and property accessors of
    [src/props.go].

    A snapshot is the record of its finalized arrays, indexes and columns. Values
    behind a [sync.Once] ([inToOut], the schema index, the relationship
    statistics) are functions of the record. The theorems are in
    [SnapshotSpec]. *)

From S2P Require Import Prelude Bitset Value AtomTable Columns NodeSet Csr RelTypes InToOut.

(** ** State *)

Record Snapshot (bm : Type) := mkSnapshot {
  nNodes : Z;
  nRels : Z;
  outOffsets : list Z;
  outNbrs : list Z;
  outTypes : relTypes;
  inOffsets : list Z;
  inNbrs : list Z;
  inTypes : relTypes;
  (** [Some] once the map was built or shared by an aliasing successor. *)
  inToOut : option (list Z);
  hasRelProps : bool;
  labelIndex : gmap Z (Set_ bm);
  typeIndex : gmap Z (Set_ bm);
  version : option gostring;
  columns : gmap Z Column;
  relColumns : gmap Z Column;
  droppedCrossTyped : Z;
  (** [None]: no record, every id of the space is presumed to exist. *)
  existence : option (Set_ bm);
  atoms : Atoms;
}.
Arguments mkSnapshot {bm} _ _ _ _ _ _ _ _ _ _ _ _ _ _ _ _ _ _.
Arguments nNodes {bm} _.
Arguments nRels {bm} _.
Arguments outOffsets {bm} _.
Arguments outNbrs {bm} _.
Arguments outTypes {bm} _.
Arguments inOffsets {bm} _.
Arguments inNbrs {bm} _.
Arguments inTypes {bm} _.
Arguments inToOut {bm} _.
Arguments hasRelProps {bm} _.
Arguments labelIndex {bm} _.
Arguments typeIndex {bm} _.
Arguments version {bm} _.
Arguments columns {bm} _.
Arguments relColumns {bm} _.
Arguments droppedCrossTyped {bm} _.
Arguments existence {bm} _.
Arguments atoms {bm} _.

Section snapshot.
Context {bm : Type} `{RoaringSet bm}.
Implicit Types g : Snapshot bm.

Definition newSnapshot : Snapshot bm :=
  mkSnapshot 0 0 [0] [] (mkRelTypes None [] []) [0] [] (mkRelTypes None [] []) None false ∅ ∅ None ∅ ∅ 0 None (NewAtoms [[]]).

Definition NodeCount g : Z := nNodes g.
Definition RelCount g : Z := nRels g.
Definition DroppedCrossTypedStagings g : Z := droppedCrossTyped g.

Definition CSRIDSpace g : Z := if decide (len (outOffsets g) = 0) then 0 else to_u32 (len (outOffsets g) - 1).

Definition NodeExists g (id : Z) : bool :=
  match existence g with
  | None => bool_decide (id < CSRIDSpace g)
  | Some s => Contains s id
  end.

(** [nil] is the empty list: callers compare positions with its length. *)
Definition getInToOut g : res (list Z) :=
  if negb (hasRelProps g) then Ok []
  else match inToOut g with
  | Some l => Ok l
  | None => computeInToOutFromCSR (outOffsets g) (outNbrs g) (outTypes g) (inOffsets g) (inNbrs g) (inTypes g)
  end.

(** ** Names (props.go) *)

(** The closure [add]: the canonical id of the name of [id]. *)
Definition schemaAdd g (m : gmap gostring Z) (id : Z) : res (gmap gostring Z) :=
  '(name, ok) ← Resolve (atoms g) id;
  if ok : bool then
    '(cid, ok) ← (ID (atoms g) name).1;
    Ok (if ok : bool then <[name := cid]> m else m)
  else Ok m.

(** Map iteration order is free: a name's entry does not depend on it. *)
Definition buildSchemaIDs g : res (gmap gostring Z) :=
  m ← foldM (schemaAdd g) (map_to_list (labelIndex g)).*1 ∅;
  m ← foldM (schemaAdd g) (map_to_list (typeIndex g)).*1 m;
  m ← foldM (schemaAdd g) (map_to_list (columns g)).*1 m;
  foldM (schemaAdd g) (map_to_list (relColumns g)).*1 m.

Definition schemaID g (name : gostring) : res (Z * bool) :=
  m ← buildSchemaIDs g;
  match m !! name with
  | Some id => Ok (id, true)
  | None => (ID (atoms g) name).1
  end.
Definition PropertyKey g (key : gostring) : res (Z * bool) := schemaID g key.
Definition Label g (name : gostring) : res (Z * bool) := schemaID g name.
Definition RelType g (name : gostring) : res (Z * bool) := schemaID g name.

Definition ResolveString g (id : Z) : res (gostring * bool) := Resolve (atoms g) id.
Definition Version g : gostring * bool := match version g with Some v => (v, true) | None => ([], false) end.

(** ** Properties and relationships (props.go) *)

(** The zero [Prop] is [None]. *)
Definition propOf (cols : gmap Z Column) (keyID pos : Z) : res (option Value) :=
  match cols !! keyID with
  | None => Ok None
  | Some column => '(v, ok) ← Column_Get column pos; Ok (if ok : bool then Some v else None)
  end.
Definition Prop_ g (node : Z) (key : gostring) : res (option Value) :=
  '(keyID, ok) ← PropertyKey g key;
  if ok : bool then propOf (columns g) keyID node else Ok None.
Definition RelProp g (pos : Z) (key : gostring) : res (option Value) :=
  '(keyID, ok) ← PropertyKey g key;
  if ok : bool then propOf (relColumns g) keyID pos else Ok None.

Definition RelEndpoints g (pos : Z) : res (Z * Z * bool) :=
  if decide (len (outNbrs g) ≤ pos) then Ok (0, 0, false)
  else
    target ← idx (outNbrs g) pos;
    i ← bisect (length (outOffsets g)) (λ i, o ← idx (outOffsets g) i; Ok (negb (bool_decide (pos < o)))) 0 (len (outOffsets g));
    if decide (i = 0) then Ok (0, 0, false) else Ok (to_u32 (i - 1), target, true).

Definition RelTypeAt g (pos : Z) : res (gostring * bool) :=
  if decide (RelTypes.Len (outTypes g) ≤ pos) then Ok ([], false)
  else t ← At (outTypes g) pos; Resolve (atoms g) t.

(** ** Labels and types (snapshot.go) *)

Definition NodesWithLabel g (label : gostring) : res (option (Set_ bm)) :=
  '(l, ok) ← Label g label;
  Ok (if ok : bool then labelIndex g !! l else None).
Definition RelsWithType g (relType : gostring) : res (option (Set_ bm)) :=
  '(t, ok) ← RelType g relType;
  Ok (if ok : bool then typeIndex g !! t else None).
Definition HasLabel g (node : Z) (label : gostring) : res bool :=
  o ← NodesWithLabel g label;
  Ok (match o with Some set => Contains set node | None => false end).

(** [words[id>>6] |= 1 << (id & 63)] *)
Definition denseStep (words : list Z) (id : Z) : res (list Z) :=
  w ← idx words (Z.shiftr id 6);
  upd words (Z.shiftr id 6) (Z.lor w (to_u64 (Z.shiftl 1 (Z.land id 63)))).

(** [Iter] delivers the ids of [ToSlice] (see [NodeSet]); a cached bitmap is the
    one that would be built; a missing label's [nil] set panics on iteration. *)
Definition labelDenseBuild g (l : Z) : res (list Z) :=
  match labelIndex g !! l with
  | None => Panic
  | Some set => foldM denseStep (ToSlice set) (replicate (Z.to_nat ((CSRIDSpace g + 63) / 64)) 0)
  end.

(** [cached] is whether the label's bitmap was built before. *)
Definition LabelDense g (cached : Z → bool) (label : gostring) : res (option (list Z)) :=
  '(l, ok) ← Label g label;
  if negb ok then Ok None
  else if cached l then w ← labelDenseBuild g l; Ok (Some w)
  else match labelIndex g !! l with
  | None => Ok None
  | Some set => if decide (NodeSet.Len set * 8 < CSRIDSpace g) then Ok None else w ← labelDenseBuild g l; Ok (Some w)
  end.
Definition LabelDenseForced g (label : gostring) : res (option (list Z)) :=
  '(l, ok) ← Label g label;
  if negb ok then Ok None
  else match labelIndex g !! l with
  | None => Ok None
  | Some _ => w ← labelDenseBuild g l; Ok (Some w)
  end.

(** ** Relationship statistics (snapshot.go) *)

Record RelStats := mkRelStats { Count : Z; OutSources : Z; InSources : Z }.

(** One accumulator a type: [count], [src], [tgt]. *)
Definition statsStep g (u : Z) (byType : gmap Z (Z * Set_ bm * Set_ bm)) (i : Z) : res (gmap Z (Z * Set_ bm * Set_ bm)) :=
  t ← At (outTypes g) i;
  nbr ← idx (outNbrs g) i;
  let '(count, s, tg) := default (0, New, New) (byType !! t) in
  Ok (<[t := (to_u64 (count + 1), (Insert s u).2, (Insert tg nbr).2)]> byType).

Definition statsNode g (byType : gmap Z (Z * Set_ bm * Set_ bm)) (u : Z) : res (gmap Z (Z * Set_ bm * Set_ bm)) :=
  lo ← idx (outOffsets g) u;
  hi ← idx (outOffsets g) (u + 1);
  foldM (statsStep g u) (seqZ lo (hi - lo)) byType.

Definition statsName g (out : gmap gostring RelStats) (x : Z * (Z * Set_ bm * Set_ bm)) : res (gmap gostring RelStats) :=
  let '(t, (count, s, tg)) := x in
  '(name, ok) ← Resolve (atoms g) t;
  Ok (if ok : bool then <[name := mkRelStats count (NodeSet.Len s) (NodeSet.Len tg)]> out else out).

Definition buildRelStats g : res (gmap gostring RelStats) :=
  byType ← foldM (statsNode g) (zseq (CSRIDSpace g)) ∅;
  foldM (statsName g) (map_to_list byType) ∅.

Definition RelTypeCount g (relType : gostring) : res Z :=
  m ← buildRelStats g;
  Ok (match m !! relType with Some s => Count s | None => 0 end).
Definition RelTypeStats g (relType : gostring) : res (option RelStats) :=
  m ← buildRelStats g; Ok (m !! relType).

End snapshot.
