(* ===== verification/TypedAdj.v ===== *)
(** Typed adjacency views: [src/typedadj.go].

    A single-type traversal reads a contiguous run: from a CSR restricted to the
    type (types with many relationships) or from a filtered run array with a
    bucketed owner index (the others). The lemmas: a node's run in either view
    holds exactly the matching positions of its range in the primary CSR, in
    order. [Traverse] builds on them. *)

From S2P Require Import Prelude NodeSet Csr RelTypes InToOut Snapshot.

(** ** The code *)

Record typedCSR := mkTypedCSR { tc_offsets : list Z; tc_nbrs : list Z; tc_poss : list Z }.
Record typedRuns := mkTypedRuns { tr_nodes : list Z; tr_nbrs : list Z; tr_poss : list Z; tr_hint : list Z }.

(** [relRange] of traverse.go: empty for ids outside the id space. *)
Definition relRange (offsets : list Z) (node : Z) : res (Z * Z) :=
  if decide (len offsets ≤ node + 1) then Ok (0, 0)
  else lo ← idx offsets node; hi ← idx offsets (node + 1); Ok (lo, hi).

Definition runHintShift : Z := 6.
Definition runScanFloor : Z := 64.

(** [for hi < hi0 && r.nodes[hi] == node { hi++ }]; [hi0 - hi] rounds suffice. *)
Fixpoint runEnd (fuel : nat) (nodes : list Z) (node hi hi0 : Z) : res Z :=
  if decide (hi0 ≤ hi) then Ok hi
  else
    x ← idx nodes hi;
    if decide (x = node) then match fuel with O => Panic | S fuel => runEnd fuel nodes node (hi + 1) hi0 end
    else Ok hi.

Definition runRange (r : typedRuns) (node : Z) : res (Z * Z) :=
  let b := Z.shiftr node runHintShift in
  if decide (len (tr_hint r) ≤ b + 1) then Ok (0, 0)
  else
    lo0 ← idx (tr_hint r) b;
    hi0 ← idx (tr_hint r) (b + 1);
    bucket ← slice (tr_nodes r) lo0 hi0;
    lo ← bisect (length bucket) (λ i, x ← idx bucket i; Ok (bool_decide (x < node))) 0 (len bucket);
    let lo := lo + lo0 in
    hi ← runEnd (Z.to_nat (hi0 - lo)) (tr_nodes r) node lo hi0;
    Ok (lo, hi).

(** The property-read position of raw position [k]. *)
Definition mapPos (posMap : list Z) (k : Z) : res Z := if decide (k < len posMap) then idx posMap k else Ok (to_u32 k).

(** One relationship of the filtering loop. *)
Definition keepTyped (nbrs : list Z) (types : relTypes) (posMap : list Z) (t : Z) (st : list Z * list Z) (k : Z)
    : res (list Z * list Z) :=
  ty ← At types (to_u32 k);
  if decide (ty = t) then
    pos ← mapPos posMap k;
    n ← idx nbrs k;
    Ok (st.1 ++ [n], st.2 ++ [pos])
  else Ok st.

Definition csrNode (offsets nbrs : list Z) (types : relTypes) (posMap : list Z) (t : Z) (tc : typedCSR) (u : Z) : res typedCSR :=
  offs ← upd (tc_offsets tc) u (to_u32 (len (tc_nbrs tc)));
  lo ← idx offsets u;
  hi ← idx offsets (u + 1);
  st ← foldM (keepTyped nbrs types posMap t) (seqZ lo (hi - lo)) (tc_nbrs tc, tc_poss tc);
  Ok (mkTypedCSR offs st.1 st.2).

Definition buildTypedCSR (offsets nbrs : list Z) (types : relTypes) (posMap : list Z) (t : Z) : res typedCSR :=
  let n := len offsets - 1 in
  if decide (n < 0) then Ok (mkTypedCSR [0] [] [])
  else
    _ ← foldM (λ count p, ty ← At types p; Ok (if decide (ty = t) then count + 1 else count)) (zseq (RelTypes.Len types)) 0;
    tc ← foldM (csrNode offsets nbrs types posMap t) (zseq n) (mkTypedCSR (replicate (Z.to_nat (n + 1)) 0) [] []);
    offs ← upd (tc_offsets tc) n (to_u32 (len (tc_nbrs tc)));
    Ok (mkTypedCSR offs (tc_nbrs tc) (tc_poss tc)).

Definition keepRun (nbrs : list Z) (types : relTypes) (posMap : list Z) (t u : Z) (r : typedRuns) (k : Z) : res typedRuns :=
  ty ← At types (to_u32 k);
  if decide (ty = t) then
    pos ← mapPos posMap k;
    n ← idx nbrs k;
    Ok (mkTypedRuns (tr_nodes r ++ [to_u32 u]) (tr_nbrs r ++ [n]) (tr_poss r ++ [pos]) (tr_hint r))
  else Ok r.

Definition runNode (offsets nbrs : list Z) (types : relTypes) (posMap : list Z) (t : Z) (r : typedRuns) (u : Z) : res typedRuns :=
  lo ← idx offsets u;
  hi ← idx offsets (u + 1);
  foldM (keepRun nbrs types posMap t u) (seqZ lo (hi - lo)) r.

(** [for bi <= int(owner)>>runHintShift { r.hint[bi] = uint32(i); bi++ }] *)
Definition hintStep (st : list Z * Z) (x : Z * Z) : res (list Z * Z) :=
  let '(i, owner) := x in
  let '(hint, bi) := st in
  let stop := Z.shiftr owner runHintShift + 1 in
  hint ← foldM (λ h b, upd h b (to_u32 i)) (seqZ bi (stop - bi)) hint;
  Ok (hint, Z.max bi stop).

Definition buildHint (nodes : list Z) (n : Z) : res (list Z) :=
  let hint := replicate (Z.to_nat (Z.shiftr n runHintShift + 2)) 0 in
  '(hint, bi) ← foldM hintStep (enum nodes) (hint, 0);
  foldM (λ h b, upd h b (to_u32 (len nodes))) (seqZ bi (len hint - bi)) hint.

(** [count] only sizes the allocations. *)
Definition buildTypedRuns (offsets nbrs : list Z) (types : relTypes) (posMap : list Z) (t : Z) : res typedRuns :=
  let n := Z.max (len offsets - 1) 0 in
  r ← foldM (runNode offsets nbrs types posMap t) (zseq n) (mkTypedRuns [] [] [] []);
  hint ← buildHint (tr_nodes r) n;
  Ok (mkTypedRuns (tr_nodes r) (tr_nbrs r) (tr_poss r) hint).

Section views.
Context {bm : Type} `{RoaringSet bm}.
Implicit Types (g : Snapshot bm) (p : typedPair (Snapshot bm)).

Definition newTypedPair g (t : Z) : typedPair (Snapshot bm) :=
  mkTypedPair g t (paletteIndexOf (outTypes g) t) (paletteIndexOf (inTypes g) t).

(** Holders are created once per type and shared; they carry no other state. *)
Definition typedPairFor g (t : Z) : typedPair (Snapshot bm) := newTypedPair g t.

Definition typedAboveFloor g (t : Z) : bool :=
  match typeIndex g !! t with
  | None => false
  | Some set => bool_decide (CSRIDSpace g ≤ NodeSet.Len set * 4)
  end.

Definition typeCount p : Z := match typeIndex (tp_g p) !! tp_t p with Some set => NodeSet.Len set | None => 0 end.

(** [view] and [runs] of a nil holder are nil; the incoming views read the
    position map. *)
Definition view (o : option (typedPair (Snapshot bm))) (out : bool) : res (option typedCSR) :=
  match o with
  | None => Ok None
  | Some p =>
      let g := tp_g p in
      if negb (typedAboveFloor g (tp_t p)) then Ok None
      else if out then tc ← buildTypedCSR (outOffsets g) (outNbrs g) (outTypes g) [] (tp_t p); Ok (Some tc)
      else ito ← getInToOut g; tc ← buildTypedCSR (inOffsets g) (inNbrs g) (inTypes g) ito (tp_t p); Ok (Some tc)
  end.

Definition runs (o : option (typedPair (Snapshot bm))) (out : bool) : res (option typedRuns) :=
  match o with
  | None => Ok None
  | Some p =>
      let g := tp_g p in
      if typedAboveFloor g (tp_t p) then Ok None
      else if out then r ← buildTypedRuns (outOffsets g) (outNbrs g) (outTypes g) [] (tp_t p); Ok (Some r)
      else ito ← getInToOut g; r ← buildTypedRuns (inOffsets g) (inNbrs g) (inTypes g) ito (tp_t p); Ok (Some r)
  end.

End views.

(** ** Ascending owner arrays *)

Definition ascends (l : list Z) : Prop := ∀ i j x y, (i ≤ j)%nat → l !! i = Some x → l !! j = Some y → x ≤ y.
(** How many entries are owned by an id below [v]. *)
Definition owners (l : list Z) (v : Z) : Z := below (λ x, x) l v.

Lemma owners_app l k v : owners (l ++ k) v = owners l v + owners k v.
Proof. unfold owners, below. by rewrite filter_app, len_app. Qed.

Lemma owners_replicate c u v : owners (replicate c u) v = if decide (u < v) then Z.of_nat c else 0.
Proof.
  unfold owners, below. case_decide.
  - rewrite filter_whole by (by apply Forall_replicate). apply len_replicate.
  - by rewrite filter_empty by (by apply Forall_replicate).
Qed.

Lemma owners_all l v : Forall (λ x, x < v) l → owners l v = len l.
Proof. apply below_full. Qed.

Lemma ascends_replicate l c u : ascends l → Forall (λ x, x ≤ u) l → ascends (l ++ replicate c u).
Proof.
  intros Ha HF i j x y Hij Hi Hj. apply lookup_app_Some in Hi as [Hi|[Hil Hi]], Hj as [Hj|[_ Hj]].
  - by eapply Ha.
  - apply lookup_replicate in Hj as [-> _]. exact (Forall_lookup_1 _ _ _ _ HF Hi).
  - apply lookup_lt_Some in Hj. lia.
  - apply lookup_replicate in Hi as [-> _], Hj as [-> _]. done.
Qed.

(** The entries below [v] are a prefix. *)
Lemma owners_split l v k : ascends l → 0 ≤ k ≤ len l → (∀ i x, Z.of_nat i < k → l !! i = Some x → x < v) →
  (∀ x, l !! Z.to_nat k = Some x → v ≤ x) → owners l v = k.
Proof.
  intros Ha Hk Hlt Hge. rewrite <- (take_drop (Z.to_nat k) l), owners_app, owners_all.
  - unfold owners, below. rewrite filter_empty; [unfold len in *; rewrite length_take; simpl; lia|].
    apply Forall_lookup. intros i x Hi. rewrite lookup_drop in Hi. destruct (lookup_lt_is_Some_2 l (Z.to_nat k)) as [y Hy].
    { apply lookup_lt_Some in Hi. lia. }
    specialize (Hge y Hy). pose proof (Ha _ _ _ _ (Nat.le_add_r (Z.to_nat k) i) Hy Hi). lia.
  - apply Forall_lookup. intros i x Hi. apply lookup_take_Some in Hi as [Hi Hik]. apply (Hlt i); [lia|done].
Qed.

Lemma owners_lookup l v i x : ascends l → l !! i = Some x → x < v ↔ Z.of_nat i < owners l v.
Proof.
  intros Ha Hi. rewrite <- (take_drop i l), owners_app. rewrite (drop_S _ _ _ Hi). unfold owners at 2.
  unfold below. rewrite filter_cons. pose proof (lookup_lt_Some _ _ _ Hi) as Hlt. split.
  - intros Hx. rewrite decide_True by done. rewrite owners_all.
    + unfold len. rewrite length_take. simpl. lia.
    + apply Forall_lookup. intros j y Hj. apply lookup_take_Some in Hj as [Hj Hji].
      pose proof (Ha j i y x ltac:(lia) Hj Hi). lia.
  - intros Hlen. destruct (decide (x < v)) as [|Nx]; [done|]. rewrite filter_empty in Hlen.
    + pose proof (below_len (λ x, x) (take i l) v). unfold owners, len in *. rewrite length_take in *. simpl in *. lia.
    + apply Forall_lookup. intros j y Hj. rewrite lookup_drop in Hj.
      pose proof (Ha i (S i + j)%nat x y ltac:(lia) Hi Hj). lia.
Qed.

(** ** The bucket hint *)

Lemma bucket_div x : Z.shiftr x runHintShift = x / 64.
Proof. unfold runHintShift. by rewrite Z.shiftr_div_pow2 by lia. Qed.

Lemma hintStep_ok nodes n hint bi k x : ascends nodes → Forall (λ x, 0 ≤ x < n) nodes → len nodes < 4294967296 →
  nodes !! k = Some x → len hint = n / 64 + 2 → 0 ≤ bi ≤ len hint →
  (∀ b, 0 ≤ b < bi → hint !! Z.to_nat b = Some (owners nodes (64 * b))) →
  (∀ i y, (i < k)%nat → nodes !! i = Some y → y < 64 * bi) →
  ∃ hint' bi', hintStep (hint, bi) (Z.of_nat k, x) = Ok (hint', bi') ∧ len hint' = len hint ∧ 0 ≤ bi' ≤ len hint ∧
    (∀ b, 0 ≤ b < bi' → hint' !! Z.to_nat b = Some (owners nodes (64 * b))) ∧
    (∀ i y, (i < S k)%nat → nodes !! i = Some y → y < 64 * bi').
Proof.
  intros Ha HF Hm Hx Hl Hbi Hd Hlt. pose proof (Forall_lookup_1 _ _ _ _ HF Hx) as Hxr. simpl in Hxr.
  pose proof (lookup_lt_Some _ _ _ Hx) as Hk. unfold hintStep. rewrite bucket_div. set (stop := x / 64 + 1).
  assert (stop ≤ n / 64 + 1) by (unfold stop; dlia). assert (x < 64 * stop) by (unfold stop; dlia).
  rewrite wrapU_small by (unfold len in Hm; lia).
  assert (∀ i y bi', bi ≤ bi' → stop ≤ bi' → (i < S k)%nat → nodes !! i = Some y → y < 64 * bi') as Hlt'.
  { intros i y bi' Hb Hst Hi Hy. destruct (decide (i = k)) as [->|Ni]; [simplify_eq; lia|]. specialize (Hlt i y ltac:(lia) Hy). lia. }
  destruct (decide (stop ≤ bi)) as [D|D].
  { rewrite seqZ_nil by lia. cbn [foldM mbind res_bind]. rewrite Z.max_l by lia. eexists _, _. split; [done|]. split; [done|]. split; [done|].
    split; [done|]. intros i y Hi Hy. apply (Hlt' i y bi); (done || lia). }
  destruct (fillRange (Z.of_nat k) hint bi stop) as (h' & -> & Hl' & Hh); [lia..|]. cbn [mbind res_bind]. rewrite Z.max_r by lia.
  eexists _, _. split; [done|]. split; [done|]. split; [lia|]. split.
  - intros b Hb. rewrite Hh by lia. case_decide as Db; [|apply Hd; lia]. f_equal. symmetry. apply owners_split; [done|unfold len; lia| |].
    + intros i y Hi Hy. specialize (Hlt i y ltac:(lia) Hy). lia.
    + intros y Hy. rewrite Nat2Z.id in Hy. simplify_eq. unfold stop in *. dlia.
  - intros i y Hi Hy. apply (Hlt' i y stop); (done || lia).
Qed.

Lemma buildHint_ok nodes n : ascends nodes → Forall (λ x, 0 ≤ x < n) nodes → len nodes < 4294967296 → 0 ≤ n →
  ∃ hint, buildHint nodes n = Ok hint ∧ len hint = n / 64 + 2 ∧
    ∀ b, 0 ≤ b < len hint → hint !! Z.to_nat b = Some (owners nodes (64 * b)).
Proof.
  intros Ha HF Hm Hn. unfold buildHint. rewrite bucket_div.
  set (hint0 := replicate (Z.to_nat (n / 64 + 2)) 0).
  assert (len hint0 = n / 64 + 2) as Hl0 by (unfold hint0; rewrite len_replicate; dlia).
  pose (P := λ (k : nat) (st : list Z * Z), len st.1 = n / 64 + 2 ∧ 0 ≤ st.2 ≤ len st.1 ∧
    (∀ b, 0 ≤ b < st.2 → st.1 !! Z.to_nat b = Some (owners nodes (64 * b))) ∧
    (∀ i y, (i < k)%nat → nodes !! i = Some y → y < 64 * st.2)).
  destruct (foldM_inv P hintStep (enum nodes) (hint0, 0)) as ([h bi] & -> & Hl & Hbi & Hd & Hlt).
  - split; [done|]. simpl. split; [dlia|]. split; lia.
  - intros k [i x] [h bi] [-> Hx]%lookup_enum (Hl & Hbi & Hd & Hlt). simpl in Hl, Hbi, Hd, Hlt.
    destruct (hintStep_ok nodes n h bi k x) as (h' & bi' & E & Hl' & Hbi' & Hd' & Hlt'); [done..|].
    exists (h', bi'). split; [done|]. unfold P. simpl. split; [lia|]. split; [lia|]. done.
  - cbn [mbind res_bind]. simpl in Hl, Hbi, Hd, Hlt. rewrite length_enum in Hlt.
    rewrite wrapU_small by (pose proof (len_nonneg nodes); lia).
    destruct (fillRange (len nodes) h bi (len h)) as (h' & -> & Hl' & Hh); [lia..|].
    exists h'. split; [done|]. split; [lia|]. intros b Hb. rewrite Hh by lia. case_decide as D; [|apply Hd; lia].
    f_equal. symmetry. apply owners_all, Forall_lookup. intros i y Hi. specialize (Hlt i y (lookup_lt_Some _ _ _ Hi) Hi). lia.
Qed.

(** ** Run lookup *)

Lemma owners_mono l v w : v ≤ w → owners l v ≤ owners l w.
Proof. apply below_mono. Qed.

Lemma runEnd_ok nodes node hi0 fuel hi : ascends nodes → 0 ≤ hi → owners nodes node ≤ hi ≤ owners nodes (node + 1) →
  owners nodes (node + 1) ≤ hi0 ≤ len nodes → hi0 - hi ≤ Z.of_nat fuel →
  runEnd fuel nodes node hi hi0 = Ok (owners nodes (node + 1)).
Proof.
  intros Ha. revert hi. induction fuel as [|fuel IH]; intros hi H0 Hlo Hhi Hf; cbn [runEnd].
  { rewrite decide_True by lia. f_equal. lia. }
  case_decide; [f_equal; lia|]. destruct (idx_ok nodes hi) as (x & -> & Hx); [lia|]. cbn [mbind res_bind].
  pose proof (owners_lookup nodes node _ x Ha Hx). pose proof (owners_lookup nodes (node + 1) _ x Ha Hx).
  case_decide as D.
  - subst x. apply IH; try lia.
  - f_equal. lia.
Qed.

Lemma runRange_ok nodes nbs ps hint n node : ascends nodes → Forall (λ x, 0 ≤ x < n) nodes → len hint = n / 64 + 2 →
  (∀ b, 0 ≤ b < len hint → hint !! Z.to_nat b = Some (owners nodes (64 * b))) → 0 ≤ node → 0 ≤ n →
  ∃ lo hi, runRange (mkTypedRuns nodes nbs ps hint) node = Ok (lo, hi) ∧
    if decide (node < n) then lo = owners nodes node ∧ hi = owners nodes (node + 1) else lo = hi ∧ 0 ≤ lo ≤ len nodes.
Proof.
  intros Ha HF Hl Hh Hnode Hn. unfold runRange. rewrite bucket_div. cbn [tr_hint tr_nodes]. set (b := node / 64).
  assert (64 * b ≤ node < 64 * (b + 1)) as Hb by (unfold b; dlia). assert (0 ≤ b) by (unfold b; dlia).
  case_decide as D.
  { exists 0, 0. split; [done|]. rewrite decide_False by (unfold b in *; dlia). split; [done|]. pose proof (len_nonneg nodes). lia. }
  rewrite (idx_lookup hint b _) by (lia || apply Hh; lia). cbn [mbind res_bind].
  rewrite (idx_lookup hint (b + 1) _) by (lia || apply Hh; lia). cbn [mbind res_bind].
  set (lo0 := owners nodes (64 * b)). set (hi0 := owners nodes (64 * (b + 1))).
  assert (lo0 ≤ owners nodes node) by (apply owners_mono; lia). assert (owners nodes node ≤ owners nodes (node + 1)) by (apply owners_mono; lia).
  assert (owners nodes (node + 1) ≤ hi0) by (apply owners_mono; lia). assert (0 ≤ lo0) by apply len_nonneg.
  assert (hi0 ≤ len nodes) by apply below_len.
  rewrite slice_ok by lia. cbn [mbind res_bind]. set (bk := take _ _).
  assert (len bk = hi0 - lo0) as Hbk by (unfold bk, len in *; rewrite length_take, length_drop; lia).
  rewrite (bisect_ok _ _ 0 (owners nodes node - lo0)); [|lia|unfold len; lia|].
  - cbn [mbind res_bind]. replace (owners nodes node - lo0 + lo0) with (owners nodes node) by lia.
    rewrite runEnd_ok by (done || lia). cbn [mbind res_bind]. eexists _, _. split; [done|]. case_decide as Dn; [done|].
    assert (∀ v, n ≤ v → owners nodes v = len nodes) as Hall.
    { intros v Hv. apply owners_all. eapply Forall_impl; [exact HF|]. simpl. lia. }
    rewrite !Hall by lia. pose proof (len_nonneg nodes). lia.
  - intros i Hi. destruct (idx_ok bk i) as (x & -> & Hx); [lia|]. cbn [mbind res_bind]. f_equal. apply bool_decide_ext.
    unfold bk in Hx. apply lookup_take_Some in Hx as [Hx _]. rewrite lookup_drop in Hx.
    rewrite (owners_lookup nodes node _ x Ha Hx). lia.
Qed.

(** ** Well-formed adjacency and the matching positions of a range *)

Record wfDir (offsets nbrs : list Z) (types : relTypes) : Prop := {
  wd_types : wf_types types;
  wd_len : length (typesOf types) = length nbrs;
  wd_m : len nbrs < 4294967296;
  wd_space : 0 < len offsets ≤ 4294967296;
  wd_range : Forall (λ o, 0 ≤ o ≤ len nbrs) offsets;
  wd_mono : ∀ i a b, offsets !! i = Some a → offsets !! S i = Some b → a ≤ b;
}.

Section hits.
Context (offsets nbrs : list Z) (types : relTypes) (posMap : list Z) (t : Z).
Hypothesis Hwf : wfDir offsets nbrs types.

Definition off (v : Z) : Z := offsets !!! Z.to_nat v.
Definition nb (k : Z) : Z := nbrs !!! Z.to_nat k.
Definition pm (k : Z) : Z := if decide (k < len posMap) then posMap !!! Z.to_nat k else k.
Definition hits (lo hi : Z) : list Z := filter (λ k, typesOf types !!! Z.to_nat k = t) (seqZ lo (hi - lo)).

Lemma hits_nil lo hi : hi ≤ lo → hits lo hi = [].
Proof. intros. unfold hits. by rewrite seqZ_nil by lia. Qed.

Lemma hits_split lo mid hi : lo ≤ mid ≤ hi → hits lo hi = hits lo mid ++ hits mid hi.
Proof.
  intros H. unfold hits. replace (hi - lo) with ((mid - lo) + (hi - mid)) by lia. rewrite seqZ_split by lia.
  rewrite filter_app. by replace (lo + (mid - lo)) with mid by lia.
Qed.

Lemma len_hits lo hi : lo ≤ hi → 0 ≤ len (hits lo hi) ≤ hi - lo.
Proof.
  intros H. unfold hits, len. pose proof (length_filter (λ k, typesOf types !!! Z.to_nat k = t) (seqZ lo (hi - lo))) as Hl.
  rewrite length_seqZ in Hl. lia.
Qed.

Lemma off_range v : 0 ≤ v < len offsets → offsets !! Z.to_nat v = Some (off v) ∧ 0 ≤ off v ≤ len nbrs.
Proof using Hwf.
  intros Hv. destruct (idx_ok offsets v Hv) as (o & _ & Ho). unfold off. rewrite (list_lookup_total_correct _ _ _ Ho).
  split; [done|]. exact (Forall_lookup_1 _ _ _ _ (wd_range _ _ _ Hwf) Ho).
Qed.

Lemma off_mono v w : 0 ≤ v ≤ w → w < len offsets → off v ≤ off w.
Proof using Hwf.
  intros Hv Hw. replace w with (v + Z.of_nat (Z.to_nat (w - v))) in Hw |- * by lia.
  induction (Z.to_nat (w - v)) as [|d IH]; [rewrite Z.add_0_r; lia|]. specialize (IH ltac:(lia)).
  destruct (off_range (v + Z.of_nat d)) as [E1 _]; [lia|]. destruct (off_range (v + Z.of_nat (S d))) as [E2 _]; [lia|].
  replace (Z.to_nat (v + Z.of_nat (S d))) with (S (Z.to_nat (v + Z.of_nat d))) in E2 by lia.
  pose proof (wd_mono _ _ _ Hwf _ _ _ E1 E2). lia.
Qed.

Lemma row_ok k : 0 ≤ k < len nbrs → to_u32 k = k ∧ At types k = Ok (typesOf types !!! Z.to_nat k) ∧ idx nbrs k = Ok (nb k) ∧
  mapPos posMap k = Ok (pm k).
Proof using Hwf.
  intros Hk. pose proof (wd_m _ _ _ Hwf). pose proof (wd_len _ _ _ Hwf) as Hl.
  assert (to_u32 k = k) as E by (apply wrapU_small; lia). split; [done|].
  destruct (idx_ok nbrs k Hk) as (x & Ex & Hx). destruct (lookup_lt_is_Some_2 (typesOf types) (Z.to_nat k)) as [ty Hty]; [unfold len in Hk; lia|].
  split; [apply At_typesOf; [apply Hwf|lia|by rewrite (list_lookup_total_correct _ _ _ Hty)]|].
  split; [by unfold nb; rewrite (list_lookup_total_correct _ _ _ Hx)|]. unfold mapPos, pm. case_decide; [|by rewrite E].
  destruct (idx_ok posMap k) as (y & -> & Hy); [lia|]. by rewrite (list_lookup_total_correct _ _ _ Hy).
Qed.

(** A filtering loop over a range, by its last step. *)
Lemma hits_loop {B} (f : B → Z → res B) (acc : B → list Z → B) lo hi b : 0 ≤ lo ≤ hi → hi ≤ len nbrs →
  (∀ b, acc b [] = b) → (∀ b l k, acc (acc b l) [k] = acc b (l ++ [k])) →
  (∀ b k, 0 ≤ k < len nbrs → f b k = Ok (if decide (typesOf types !!! Z.to_nat k = t) then acc b [k] else b)) →
  foldM f (seqZ lo (hi - lo)) b = Ok (acc b (hits lo hi)).
Proof using Hwf.
  intros Hlo Hhi A0 A1 Hf. replace hi with (lo + Z.of_nat (Z.to_nat (hi - lo))) in Hhi |- * by lia.
  induction (Z.to_nat (hi - lo)) as [|d IH].
  { rewrite Z.add_0_r, Z.sub_diag, hits_nil, A0 by lia. done. }
  specialize (IH ltac:(lia)). set (mid := lo + Z.of_nat d) in *.
  replace (lo + Z.of_nat (S d)) with (mid + 1) in * by lia.
  rewrite (hits_split lo mid (mid + 1)) by lia. replace (mid + 1 - lo) with ((mid - lo) + 1) by lia.
  rewrite seqZ_split, foldM_app, IH by lia. cbn [mbind res_bind]. replace (lo + (mid - lo)) with mid by lia.
  change (seqZ mid 1) with [mid]. cbn [foldM]. rewrite Hf by lia. cbn [mbind res_bind]. f_equal.
  unfold hits. replace (mid + 1 - mid) with 1 by lia. change (seqZ mid 1) with [mid]. rewrite filter_cons.
  case_decide; [apply A1|by rewrite app_nil_r].
Qed.

Lemma keepTyped_loop st lo hi : 0 ≤ lo ≤ hi → hi ≤ len nbrs →
  foldM (keepTyped nbrs types posMap t) (seqZ lo (hi - lo)) st = Ok (st.1 ++ (nb <$> hits lo hi), st.2 ++ (pm <$> hits lo hi)).
Proof using Hwf.
  intros Hlo Hhi. apply (hits_loop _ (λ st l, (st.1 ++ (nb <$> l), st.2 ++ (pm <$> l)))); [done..| | |].
  - intros [a b]. simpl. by rewrite !app_nil_r.
  - intros [a b] l k. simpl. by rewrite !fmap_app, !app_assoc.
  - intros [a b] k Hk. destruct (row_ok k Hk) as (E0 & E1 & E2 & E3). unfold keepTyped. rewrite E0, E1. cbn [mbind res_bind].
    case_decide; [|done]. rewrite E3. cbn [mbind res_bind]. by rewrite E2.
Qed.

Lemma keepRun_loop u r lo hi : 0 ≤ lo ≤ hi → hi ≤ len nbrs →
  foldM (keepRun nbrs types posMap t u) (seqZ lo (hi - lo)) r =
    Ok (mkTypedRuns (tr_nodes r ++ replicate (length (hits lo hi)) (to_u32 u)) (tr_nbrs r ++ (nb <$> hits lo hi))
          (tr_poss r ++ (pm <$> hits lo hi)) (tr_hint r)).
Proof using Hwf.
  intros Hlo Hhi. apply (hits_loop _ (λ r l, mkTypedRuns (tr_nodes r ++ replicate (length l) (to_u32 u)) (tr_nbrs r ++ (nb <$> l))
    (tr_poss r ++ (pm <$> l)) (tr_hint r))); [done..| | |].
  - intros [a b c d]. simpl. by rewrite !app_nil_r.
  - intros [a b c d] l k. simpl. rewrite !fmap_app, !app_assoc, length_app, replicate_add, app_assoc. done.
  - intros [a b c d] k Hk. destruct (row_ok k Hk) as (E0 & E1 & E2 & E3). unfold keepRun. rewrite E0, E1. cbn [mbind res_bind].
    case_decide; [|done]. rewrite E3. cbn [mbind res_bind]. by rewrite E2.
Qed.

(** The matching positions before a node's range. *)
Abbreviation before v := (hits (off 0) (off v)).

Lemma before_step v : 0 ≤ v → v + 1 < len offsets → before (v + 1) = before v ++ hits (off v) (off (v + 1)).
Proof using Hwf. intros Hv Hn. apply hits_split. split; apply off_mono; lia. Qed.

Lemma before_len v : 0 ≤ v < len offsets → 0 ≤ len (before v) ≤ len nbrs.
Proof using Hwf.
  intros Hv. pose proof (off_mono 0 v ltac:(lia) ltac:(lia)). pose proof (len_hits (off 0) (off v) ltac:(lia)).
  destruct (off_range 0) as [_ ?]; [lia|]. destruct (off_range v) as [_ ?]; [lia|]. lia.
Qed.

(** A node's slice of anything laid out along the matching positions. *)
Lemma slice_before (f : Z → Z) v : 0 ≤ v → v + 1 < len offsets →
  slice (f <$> before (len offsets - 1)) (len (before v)) (len (before (v + 1))) = Ok (f <$> hits (off v) (off (v + 1))).
Proof using Hwf.
  intros Hv Hn. pose proof (off_mono 0 (v + 1) ltac:(lia) ltac:(lia)). pose proof (off_mono (v + 1) (len offsets - 1) ltac:(lia) ltac:(lia)).
  rewrite (hits_split (off 0) (off (v + 1)) (off (len offsets - 1))), (before_step v) by lia.
  rewrite !fmap_app, <- app_assoc. apply slice_at; rewrite ?len_app, ?len_fmap; lia.
Qed.

(** ** The typed CSR *)

Lemma buildTypedCSR_ok : ∃ offs, buildTypedCSR offsets nbrs types posMap t =
    Ok (mkTypedCSR offs (nb <$> before (len offsets - 1)) (pm <$> before (len offsets - 1))) ∧ len offs = len offsets ∧
  ∀ v, 0 ≤ v < len offsets → idx offs v = Ok (len (before v)).
Proof using Hwf.
  destruct (wd_space _ _ _ Hwf) as [Hs0 Hs1]. pose proof (wd_m _ _ _ Hwf) as Hm. unfold buildTypedCSR. rewrite decide_False by lia.
  match goal with |- context [foldM ?f (zseq (RelTypes.Len types)) 0] =>
    destruct (foldM_zseq (λ _ _, True) f (RelTypes.Len types) 0) as (c & -> & _) end.
  { rewrite <- len_typesOf. apply len_nonneg. }
  { done. }
  { intros i c Hi _. rewrite <- len_typesOf in Hi. unfold len in Hi. rewrite (wd_len _ _ _ Hwf) in Hi.
    destruct (row_ok i Hi) as (_ & -> & _). by eexists. }
  cbn [mbind res_bind]. set (n := len offsets - 1).
  pose (P := λ u tc, len (tc_offsets tc) = n + 1 ∧ tc_nbrs tc = nb <$> before u ∧ tc_poss tc = pm <$> before u ∧
    ∀ v, 0 ≤ v < u → tc_offsets tc !! Z.to_nat v = Some (len (before v))).
  match goal with |- context [foldM ?f (zseq n) ?b] => destruct (foldM_zseq P f n b) as (tc & -> & Hl & En & Ep & Ho) end.
  { lia. }
  { unfold P. simpl. rewrite len_replicate, hits_nil by lia. split; [lia|]. split; [done|]. split; [done|]. lia. }
  - intros u [os ns ps] Hu (Hl & En & Ep & Ho). simpl in Hl, En, Ep, Ho. unfold csrNode. cbn [tc_offsets tc_nbrs tc_poss].
    rewrite upd_ok by lia. cbn [mbind res_bind]. destruct (off_range u) as [E1 R1]; [lia|]. destruct (off_range (u + 1)) as [E2 R2]; [lia|].
    rewrite (idx_lookup offsets u _) by (lia || exact E1). rewrite (idx_lookup offsets (u + 1) _) by (lia || exact E2). cbn [mbind res_bind].
    pose proof (off_mono u (u + 1) ltac:(lia) ltac:(lia)). rewrite keepTyped_loop by lia. cbn [mbind res_bind fst snd].
    eexists. split; [done|]. unfold P. cbn [tc_offsets tc_nbrs tc_poss]. rewrite len_insert. split; [done|].
    rewrite En, Ep, before_step, !fmap_app by lia. split; [done|]. split; [done|]. intros v Hv.
    rewrite len_fmap. pose proof (before_len u ltac:(lia)). rewrite wrapU_small by lia. destruct (decide (v = u)) as [->|Nv].
    + apply list_lookup_insert_eq. unfold len in Hl. lia.
    + rewrite list_lookup_insert_ne by lia. apply Ho. lia.
  - cbn [mbind res_bind]. rewrite upd_ok by lia. cbn [mbind res_bind]. rewrite En, Ep, len_fmap.
    pose proof (before_len n ltac:(lia)). rewrite wrapU_small by lia. eexists. split; [done|]. split; [rewrite len_insert; lia|].
    intros v Hv. apply idx_lookup; [lia|]. destruct (decide (v = n)) as [->|Nv].
    + apply list_lookup_insert_eq. unfold len in Hl. lia.
    + rewrite list_lookup_insert_ne by lia. apply Ho. lia.
Qed.

(** ** The run view *)

Lemma runs_loop : ∃ r, foldM (runNode offsets nbrs types posMap t) (zseq (len offsets - 1)) (mkTypedRuns [] [] [] []) = Ok r ∧
  tr_nbrs r = nb <$> before (len offsets - 1) ∧ tr_poss r = pm <$> before (len offsets - 1) ∧
  ascends (tr_nodes r) ∧ len (tr_nodes r) = len (before (len offsets - 1)) ∧
  Forall (λ x, 0 ≤ x < len offsets - 1) (tr_nodes r) ∧
  ∀ v, 0 ≤ v < len offsets → owners (tr_nodes r) v = len (before v).
Proof using Hwf.
  destruct (wd_space _ _ _ Hwf) as [Hs0 Hs1]. set (n := len offsets - 1).
  pose (P := λ u r, tr_nbrs r = nb <$> before u ∧ tr_poss r = pm <$> before u ∧ ascends (tr_nodes r) ∧
    len (tr_nodes r) = len (before u) ∧ Forall (λ x, 0 ≤ x < u) (tr_nodes r) ∧
    ∀ v, 0 ≤ v ≤ u → owners (tr_nodes r) v = len (before v)).
  destruct (foldM_zseq P (runNode offsets nbrs types posMap t) n (mkTypedRuns [] [] [] [])) as (r & E & Hn & Hp & Ha & Hl & HF & Ho).
  - lia.
  - unfold P. simpl. rewrite hits_nil by lia. split; [done|]. split; [done|]. split; [by intros i j x y _ ?|]. split; [done|]. split; [constructor|]. intros v Hv. assert (v = 0) as -> by lia.
    by rewrite hits_nil by lia.
  - intros u [ns nbs ps h] Hu (En & Ep & Ha & Hl & HF & Ho). cbn [tr_nodes tr_nbrs tr_poss] in En, Ep, Ha, Hl, HF, Ho.
    unfold runNode. destruct (off_range u) as [E1 R1]; [lia|]. destruct (off_range (u + 1)) as [E2 R2]; [lia|].
    rewrite (idx_lookup offsets u _) by (lia || exact E1). rewrite (idx_lookup offsets (u + 1) _) by (lia || exact E2). cbn [mbind res_bind].
    pose proof (off_mono u (u + 1) ltac:(lia) ltac:(lia)). rewrite keepRun_loop by lia. rewrite wrapU_small by lia.
    eexists. split; [done|]. unfold P. cbn [tr_nodes tr_nbrs tr_poss tr_hint]. rewrite En, Ep, before_step, !fmap_app by lia.
    split; [done|]. split; [done|]. split; [apply ascends_replicate; [done|]; eapply Forall_impl; [exact HF|]; simpl; lia|].
    split; [rewrite !len_app, len_replicate; unfold len in *; lia|]. split.
    + apply Forall_app. split; [eapply Forall_impl; [exact HF|]; simpl; lia|]. apply Forall_replicate. lia.
    + intros v Hv. rewrite owners_app, owners_replicate. destruct (decide (v = u + 1)) as [->|Nv].
      * rewrite decide_True, before_step, len_app by lia. rewrite (owners_all ns (u + 1)), Hl; [unfold len; lia|].
        eapply Forall_impl; [exact HF|]. simpl. lia.
      * rewrite decide_False by lia. rewrite Ho by lia. lia.
  - exists r. split; [exact E|]. split; [done|]. split; [done|]. split; [done|]. split; [done|]. split; [done|].
    intros v Hv. apply Ho. lia.
Qed.

Lemma buildTypedRuns_ok : ∃ nodes hint, buildTypedRuns offsets nbrs types posMap t =
    Ok (mkTypedRuns nodes (nb <$> before (len offsets - 1)) (pm <$> before (len offsets - 1)) hint) ∧
  ascends nodes ∧ Forall (λ x, 0 ≤ x < len offsets - 1) nodes ∧ len nodes = len (before (len offsets - 1)) ∧
  (∀ v, 0 ≤ v < len offsets → owners nodes v = len (before v)) ∧
  len hint = (len offsets - 1) / 64 + 2 ∧ ∀ b, 0 ≤ b < len hint → hint !! Z.to_nat b = Some (owners nodes (64 * b)).
Proof using Hwf.
  destruct (wd_space _ _ _ Hwf) as [Hs0 Hs1]. unfold buildTypedRuns. rewrite Z.max_l by lia.
  destruct runs_loop as ([nodes nbs ps h0] & -> & En & Ep & Ha & Hl & HF & Ho). cbn [tr_nbrs tr_poss tr_nodes mbind res_bind] in *.
  pose proof (before_len (len offsets - 1) ltac:(lia)). pose proof (wd_m _ _ _ Hwf).
  destruct (buildHint_ok nodes (len offsets - 1) Ha HF) as (hint & -> & Hlh & Hh); [lia..|]. cbn [mbind res_bind].
  subst nbs ps. exists nodes, hint. done.
Qed.

(** The matching positions of a node's whole range; none outside the id space. *)
Definition nodeHits (node : Z) : list Z := if decide (len offsets ≤ node + 1) then [] else hits (off node) (off (node + 1)).

Lemma slice_empty {A} (l : list A) lo : 0 ≤ lo ≤ len l → slice l lo lo = Ok [].
Proof. intros. rewrite slice_ok by lia. by rewrite Z.sub_diag. Qed.

(** Both views deliver a node's matching neighbors and positions. *)
Lemma csr_run node : 0 ≤ node → ∃ tc, buildTypedCSR offsets nbrs types posMap t = Ok tc ∧
  ∃ lo hi, relRange (tc_offsets tc) node = Ok (lo, hi) ∧
    slice (tc_nbrs tc) lo hi = Ok (nb <$> nodeHits node) ∧ slice (tc_poss tc) lo hi = Ok (pm <$> nodeHits node).
Proof using Hwf.
  intros Hnode. destruct buildTypedCSR_ok as (offs & -> & Hl & Ho). eexists. split; [done|]. cbn [tc_offsets tc_nbrs tc_poss].
  unfold relRange, nodeHits. rewrite Hl. case_decide as D.
  - exists 0, 0. split; [done|]. pose proof (len_nonneg (before (len offsets - 1))).
    split; apply slice_empty; rewrite len_fmap; lia.
  - rewrite !Ho by lia. cbn [mbind res_bind]. eexists _, _. split; [done|]. split; apply slice_before; lia.
Qed.

Lemma runs_run node : 0 ≤ node → ∃ tr, buildTypedRuns offsets nbrs types posMap t = Ok tr ∧
  ∃ lo hi, runRange tr node = Ok (lo, hi) ∧
    slice (tr_nbrs tr) lo hi = Ok (nb <$> nodeHits node) ∧ slice (tr_poss tr) lo hi = Ok (pm <$> nodeHits node).
Proof using Hwf.
  intros Hnode. destruct (wd_space _ _ _ Hwf) as [Hs0 Hs1].
  destruct buildTypedRuns_ok as (nodes & hint & -> & Ha & HF & Hln & Ho & Hlh & Hh). eexists. split; [done|].
  destruct (runRange_ok nodes (nb <$> before (len offsets - 1)) (pm <$> before (len offsets - 1)) hint _ node Ha HF Hlh Hh Hnode)
    as (lo & hi & -> & Hr); [lia|]. exists lo, hi. split; [done|]. cbn [tr_nbrs tr_poss]. unfold nodeHits.
  case_decide as D; case_decide as D'; try lia.
  - destruct Hr as [-> ->]. rewrite !Ho by lia. split; apply slice_before; lia.
  - destruct Hr as [<- Hr]. split; apply slice_empty; rewrite len_fmap; lia.
Qed.

End hits.
