(* ===== verification/Traverse.v ===== *)
(** Traversal: [src/traverse.go].

    Neighbors and relationships of a node, filtered by relationship type. A
    traversal is routed through a typed CSR, a run view or a type-tested scan of
    the primary CSR, depending on the filter, the type's size and the node's
    degree. The theorem: every route delivers the same neighbors, in the same
    order, as the plain scan; walks stop exactly where the consumer stops; and
    no route panics. *)

From S2P Require Import Prelude Parallel Value AtomTable Columns NodeSet Csr RelTypes InToOut Snapshot TypedAdj.

(** ** The code *)

(** A walk that yields what [f] finds at each position. *)
Fixpoint yieldLoop {X A} (f : Z → res (option X)) (yield : X → A → bool * A) (ks : list Z) (st : A) : res (bool * A) :=
  match ks with
  | [] => Ok (true, st)
  | k :: ks =>
      o ← f k;
      match o with
      | None => yieldLoop f yield ks st
      | Some x =>
          let '(go, st) := yield x st in
          if go : bool then yieldLoop f yield ks st else Ok (false, st)
      end
  end.

Record RelRef := mkRelRef { Neighbor : Z; Type_ : Z; Dir : Direction; Pos : Z }.

Section traverse.
Context {bm : Type} `{RoaringSet bm}.
Abbreviation Match_t := (RelMatch (Snapshot bm)).
Implicit Types (g : Snapshot bm) (m : Match_t).

(** The arrays of a direction. *)
Definition dirOffsets g (out : bool) : list Z := if out then outOffsets g else inOffsets g.
Definition dirNbrs g (out : bool) : list Z := if out then outNbrs g else inNbrs g.
Definition dirTypes g (out : bool) : relTypes := if out then outTypes g else inTypes g.
Definition goesOut (dir : Direction) : bool := match dir with Incoming => false | _ => true end.
Definition goesIn (dir : Direction) : bool := match dir with Outgoing => false | _ => true end.

Definition resolveStep g (resolved : list Z) (name : gostring) : res (list Z) :=
  '(t, ok) ← RelType g name;
  Ok (if ok : bool then resolved ++ [t] else resolved).

Definition matchMany g (names : list gostring) : res Match_t :=
  resolved ← foldM (resolveStep g) names [];
  match resolved with
  | [] => Ok MatchNone
  | [t] => Ok (MatchType t)
  | _ => Ok (mkMatch 2 0 resolved None)
  end.

Definition Match g (names : list gostring) : res Match_t :=
  match names with
  | [] => Ok MatchAll
  | [name] =>
      '(t, ok) ← RelType g name;
      Ok (if ok : bool then mkMatch 1 t [] (Some (typedPairFor g t)) else MatchNone)
  | _ => matchMany g names
  end.

Definition Degree g (node : Z) (dir : Direction) : res Z :=
  n ← (if goesOut dir then '(lo, hi) ← relRange (outOffsets g) node; Ok (hi - lo) else Ok 0);
  k ← (if goesIn dir then '(lo, hi) ← relRange (inOffsets g) node; Ok (hi - lo) else Ok 0);
  Ok (n + k).

(** The run view is consulted only past the degree floor. *)
Definition runsAbove m (out : bool) (lo hi : Z) : res (option typedRuns) :=
  if decide (runScanFloor < hi - lo) then runs (tp m) out else Ok None.

(** One direction of [AppendNeighborsEach]. *)
Definition appendDir g (dst : list Z) (node : Z) m (out : bool) : res (list Z) :=
  o ← view (tp m) out;
  match o with
  | Some tc => '(lo, hi) ← relRange (tc_offsets tc) node; s ← slice (tc_nbrs tc) lo hi; Ok (dst ++ s)
  | None =>
      '(lo, hi) ← relRange (dirOffsets g out) node;
      tr ← runsAbove m out lo hi;
      match tr with
      | Some tr => '(rlo, rhi) ← runRange tr node; s ← slice (tr_nbrs tr) rlo rhi; Ok (dst ++ s)
      | None => if decide (lo < hi) then appendNbrsTyped dst (dirNbrs g out) (dirTypes g out) m out lo hi else Ok dst
      end
  end.

Definition AppendNeighborsEach g (dst : list Z) (node : Z) (dir : Direction) m : res (list Z) :=
  dst ← (if goesOut dir then appendDir g dst node m true else Ok dst);
  if goesIn dir then appendDir g dst node m false else Ok dst.

Definition AppendNeighborsMatch g (dst : list Z) (node : Z) (dir : Direction) m : res (list Z) :=
  let base := len dst in
  dst ← AppendNeighborsEach g dst node dir m;
  tail ← slice dst base (len dst);
  head ← slice dst 0 base;
  Ok (head ++ Compact (merge_sort Z.le tail)).

Section yields.
Context {A : Type}.

(** One direction of [neighborsYield]; the result says whether to go on. *)
Definition yieldDir g (node : Z) m (out : bool) (yield : Z → A → bool * A) (st : A) : res (bool * A) :=
  let walk (nbrs : list Z) lo hi := yieldLoop (λ k, n ← idx nbrs k; Ok (Some n)) yield (seqZ lo (hi - lo)) st in
  o ← view (tp m) out;
  match o with
  | Some tc => '(lo, hi) ← relRange (tc_offsets tc) node; walk (tc_nbrs tc) lo hi
  | None =>
      '(lo, hi) ← relRange (dirOffsets g out) node;
      tr ← runsAbove m out lo hi;
      match tr with
      | Some tr => '(rlo, rhi) ← runRange tr node; walk (tr_nbrs tr) rlo rhi
      | None => if decide (lo < hi) then yieldNbrsTyped (dirNbrs g out) (dirTypes g out) m out lo hi yield st else Ok (true, st)
      end
  end.

Definition neighborsYield g (node : Z) (dir : Direction) m (yield : Z → A → bool * A) (st : A) : res A :=
  '(go, st) ← (if goesOut dir then yieldDir g node m true yield st else Ok (true, st));
  if negb go then Ok st
  else '(_, st) ← (if goesIn dir then yieldDir g node m false yield st else Ok (true, st)); Ok st.

(** One direction of [relsYield]. *)
Definition relsDir g (node : Z) m (out : bool) (yield : RelRef → A → bool * A) (st : A) : res (bool * A) :=
  let d := if out then Outgoing else Incoming in
  let walk (nbrs poss : list Z) lo hi :=
    yieldLoop (λ k, n ← idx nbrs k; p ← idx poss k; Ok (Some (mkRelRef n (one m) d p))) yield (seqZ lo (hi - lo)) st in
  o ← view (tp m) out;
  match o with
  | Some tc => '(lo, hi) ← relRange (tc_offsets tc) node; walk (tc_nbrs tc) (tc_poss tc) lo hi
  | None =>
      '(lo, hi) ← relRange (dirOffsets g out) node;
      tr ← runsAbove m out lo hi;
      match tr with
      | Some tr => '(rlo, rhi) ← runRange tr node; walk (tr_nbrs tr) (tr_poss tr) rlo rhi
      | None =>
          ito ← (if out then Ok [] else getInToOut g);
          yieldLoop (λ k,
            t ← reader (dirTypes g out) (to_u32 k);
            if negb (matches m t) then Ok None
            else pos ← mapPos ito k; n ← idx (dirNbrs g out) k; Ok (Some (mkRelRef n t d pos)))
            yield (seqZ lo (hi - lo)) st
      end
  end.

Definition relsYield g (node : Z) (dir : Direction) m (yield : RelRef → A → bool * A) (st : A) : res A :=
  '(go, st) ← (if goesOut dir then relsDir g node m true yield st else Ok (true, st));
  if negb go then Ok st
  else '(_, st) ← (if goesIn dir then relsDir g node m false yield st else Ok (true, st)); Ok st.

(** The iterator accessors: resolve the names, then walk. *)
Definition Neighbors g (node : Z) (dir : Direction) (names : list gostring) (yield : Z → A → bool * A) (st : A) : res A :=
  m ← Match g names; neighborsYield g node dir m yield st.
Definition NeighborsMatch g (node : Z) (dir : Direction) m (yield : Z → A → bool * A) (st : A) : res A :=
  neighborsYield g node dir m yield st.
Definition Rels g (node : Z) (dir : Direction) (names : list gostring) (yield : RelRef → A → bool * A) (st : A) : res A :=
  m ← Match g names; relsYield g node dir m yield st.
Definition RelsMatch g (node : Z) (dir : Direction) m (yield : RelRef → A → bool * A) (st : A) : res A :=
  relsYield g node dir m yield st.

(** [return !set.Contains(n) || yield(n)] *)
Definition inSetYield (set : Set_ bm) (yield : Z → A → bool * A) (n : Z) (st : A) : bool * A :=
  if Contains set n then yield n st else (true, st).
Definition neighborsInSetYield g (node : Z) (dir : Direction) (set : Set_ bm) m (yield : Z → A → bool * A) (st : A) : res A :=
  neighborsYield g node dir m (inSetYield set yield) st.
Definition NeighborsInSet g (node : Z) (dir : Direction) (set : Set_ bm) (names : list gostring) (yield : Z → A → bool * A) (st : A) : res A :=
  m ← Match g names; neighborsInSetYield g node dir set m yield st.

End yields.

(** [for n := range ... { return n, true }; return 0, false] *)
Definition FirstNeighbor g (node : Z) (dir : Direction) (names : list gostring) : res (Z * bool) :=
  Neighbors g node dir names (λ n _, (false, (n, true))) (0, false).

Fixpoint followLoop g (cur : Z) (steps : list (Direction * gostring)) : res (Z * bool) :=
  match steps with
  | [] => Ok (cur, true)
  | (d, name) :: steps =>
      '(next, ok) ← FirstNeighbor g cur d [name];
      if negb ok then Ok (0, false) else followLoop g next steps
  end.
Definition Follow g (start : Z) (steps : list (Direction * gostring)) : res (Z * bool) := followLoop g start steps.

Definition HasRel g (node : Z) (dir : Direction) (names : list gostring) : res bool :=
  '(_, ok) ← FirstNeighbor g node dir names; Ok ok.

(** [ParNeighborFold]: collect, then fold in parallel ([workers], [zero] and
    [order] are those of [parallel.Fold]). *)
Definition ParNeighborFold {T} g (node : Z) (dir : Direction) m (workers : Z) (zero identity : T) (fold : T → Z → T)
    (reduce : T → T → T) (order : list Z) : res T :=
  neighbors ← NeighborsMatch g node dir m (λ n acc, (true, acc ++ [n])) [];
  Fold (λ acc i, fold acc (neighbors !!! Z.to_nat i)) reduce workers (len neighbors) zero identity order.

(** ** What a traversal delivers *)

(** The positions of a node's range whose type the filter keeps. *)
Definition nodeMatches g m (out : bool) (node : Z) : list Z :=
  if decide (len (dirOffsets g out) ≤ node + 1) then []
  else filter (λ k, matches m (typesOf (dirTypes g out) !!! Z.to_nat k) = true)
         (seqZ (off (dirOffsets g out) node) (off (dirOffsets g out) (node + 1) - off (dirOffsets g out) node)).

Definition neighborsDir g m (node : Z) (out : bool) : list Z := nb (dirNbrs g out) <$> nodeMatches g m out node.
Definition neighborsOf g m (node : Z) (dir : Direction) : list Z :=
  (if goesOut dir then neighborsDir g m node true else []) ++ (if goesIn dir then neighborsDir g m node false else []).

(** The position a relationship's properties are stored at. *)
Definition storedPos (ito : list Z) (out : bool) (k : Z) : Z := if out then k else pm ito k.
Definition relRefs g m (ito : list Z) (node : Z) (out : bool) : list RelRef :=
  (λ k, mkRelRef (nb (dirNbrs g out) k) (typesOf (dirTypes g out) !!! Z.to_nat k) (if out then Outgoing else Incoming)
          (storedPos ito out k)) <$> nodeMatches g m out node.
Definition relsOf g m (ito : list Z) (node : Z) (dir : Direction) : list RelRef :=
  (if goesOut dir then relRefs g m ito node true else []) ++ (if goesIn dir then relRefs g m ito node false else []).

Record wfGraph g (ito : list Z) : Prop := {
  wg_out : wfDir (outOffsets g) (outNbrs g) (outTypes g);
  wg_in : wfDir (inOffsets g) (inNbrs g) (inTypes g);
  wg_ito : getInToOut g = Ok ito;
}.

(** A filter fits a graph when it has no holder, or the holder [Match] makes. *)
Definition matchOK g m : Prop :=
  match tp m with None => True | Some p => kind m = 1 ∧ p = newTypedPair g (one m) end.

(** ** Walks *)

Lemma yieldLoop_ok {X A} (f : Z → res (option X)) (F : Z → option X) (yield : X → A → bool * A) ks st :
  (∀ k, k ∈ ks → f k = Ok (F k)) → yieldLoop f yield ks st = Ok (yieldAll yield (omap F ks) st).
Proof.
  intros Hf. revert st. induction ks as [|k ks IH]; intros st; [done|]. cbn [yieldLoop omap list_omap].
  rewrite Hf by (by left). cbn [mbind res_bind]. assert (∀ k, k ∈ ks → f k = Ok (F k)) as Hf' by (intros; apply Hf; by right).
  destruct (F k) as [x|]; [|by apply IH]. cbn [yieldAll]. destruct (yield x st) as [[|] st']; [by apply IH|done].
Qed.

Lemma yieldLoop_all {X A} (f : Z → res (option X)) (F : Z → X) (yield : X → A → bool * A) ks st :
  (∀ k, k ∈ ks → f k = Ok (Some (F k))) → yieldLoop f yield ks st = Ok (yieldAll yield (F <$> ks) st).
Proof.
  intros Hf. rewrite (yieldLoop_ok f (λ k, Some (F k))) by done. by rewrite list_fmap_alt.
Qed.

Lemma slice_lookup {A} (l s : list A) lo hi i : slice l lo hi = Ok s → (i < length s)%nat → l !! (Z.to_nat lo + i)%nat = s !! i.
Proof.
  intros Hs Hi. pose proof (slice_range _ _ _ _ Hs) as Hr. pose proof (slice_len _ _ _ _ Hs) as Hl.
  rewrite slice_ok in Hs by lia. injection Hs as <-. rewrite lookup_take_lt by (rewrite length_take, length_drop in Hi; lia).
  by rewrite lookup_drop.
Qed.

Lemma slice_idx (l : list Z) (f : Z → Z) h lo hi k : slice l lo hi = Ok (f <$> h) → k ∈ seqZ lo (hi - lo) →
  ∃ x, h !! Z.to_nat (k - lo) = Some x ∧ idx l k = Ok (f x).
Proof.
  intros Hs Hk%elem_of_seqZ. pose proof (slice_len _ _ _ _ Hs) as Hl. rewrite len_fmap in Hl. pose proof (slice_range _ _ _ _ Hs).
  destruct (lookup_lt_is_Some_2 h (Z.to_nat (k - lo))) as [x Hx]; [unfold len in Hl; lia|]. exists x. split; [done|].
  apply idx_lookup; [lia|]. replace (Z.to_nat k) with (Z.to_nat lo + Z.to_nat (k - lo))%nat by lia.
  rewrite (slice_lookup _ _ _ _ _ Hs) by (rewrite length_fmap; unfold len in Hl; lia). by rewrite list_lookup_fmap, Hx.
Qed.

(** A contiguous walk over arrays laid out along [h] yields along [h]. *)
Lemma yieldWalk_ok {X A} (f : Z → res (option X)) (F : Z → X) (yield : X → A → bool * A) (h : list Z) lo hi st : len h = hi - lo →
  (∀ k x, k ∈ seqZ lo (hi - lo) → h !! Z.to_nat (k - lo) = Some x → f k = Ok (Some (F x))) →
  yieldLoop f yield (seqZ lo (hi - lo)) st = Ok (yieldAll yield (F <$> h) st).
Proof.
  intros Hl Hf. rewrite (yieldLoop_all f (λ k, F (h !!! Z.to_nat (k - lo)))).
  - do 2 f_equal. apply list_eq_same_length with (n := length h); [by rewrite length_fmap| |].
    { rewrite length_fmap, length_seqZ. unfold len in Hl. lia. }
    intros i x y Hi Hx Hy. rewrite list_lookup_fmap in Hx, Hy. destruct (h !! i) as [z|] eqn:Ez; [|done]. injection Hy as <-.
    destruct (seqZ lo (hi - lo) !! i) as [k|] eqn:Ek; [|done]. injection Hx as <-. apply lookup_seqZ in Ek as [-> _].
    replace (Z.to_nat (lo + Z.of_nat i - lo)) with i by lia. by rewrite (list_lookup_total_correct _ _ _ Ez).
  - intros k Hk. apply elem_of_seqZ in Hk as Hr. destruct (lookup_lt_is_Some_2 h (Z.to_nat (k - lo))) as [x Hx]; [unfold len in Hl; lia|].
    rewrite (list_lookup_total_correct _ _ _ Hx). by apply Hf.
Qed.

Section laws.
Context (g : Snapshot bm) (ito : list Z) (m : Match_t).
Hypothesis Hwf : wfGraph g ito.
Hypothesis Hm : matchOK g m.

Lemma wfDir_of (out : bool) : wfDir (dirOffsets g out) (dirNbrs g out) (dirTypes g out).
Proof using Hwf. destruct out; apply Hwf. Qed.

Lemma tpOK_of (out : bool) : tpOK m (dirTypes g out) out.
Proof using Hm. unfold matchOK in Hm. unfold tpOK. destruct (tp m) as [p|]; [|done]. destruct Hm as [_ ->]. by destruct out. Qed.

Definition dirMap (out : bool) : list Z := if out then [] else ito.

(** A single-type filter keeps the type's positions. *)
Lemma nodeHits_matches (out : bool) node : kind m = 1 →
  nodeHits (dirOffsets g out) (dirTypes g out) (one m) node = nodeMatches g m out node.
Proof.
  intros Hk. unfold nodeHits, nodeMatches, hits. case_decide; [done|]. apply list_filter_iff. intros k. unfold matches.
  rewrite decide_False, decide_True by lia. rewrite bool_decide_eq_true. split; congruence.
Qed.

(** What the holder's views deliver. *)
Definition runIs (out : bool) (node : Z) (nbrs poss : list Z) (lo hi : Z) : Prop :=
  slice nbrs lo hi = Ok (nb (dirNbrs g out) <$> nodeMatches g m out node) ∧
  slice poss lo hi = Ok (pm (dirMap out) <$> nodeMatches g m out node).

Lemma view_ok (out : bool) node : 0 ≤ node → ∃ o, view (tp m) out = Ok o ∧
  match o with
  | None => True
  | Some tc => kind m = 1 ∧ ∃ lo hi, relRange (tc_offsets tc) node = Ok (lo, hi) ∧ runIs out node (tc_nbrs tc) (tc_poss tc) lo hi
  end.
Proof using Hwf Hm.
  intros Hnode. unfold matchOK in Hm. unfold view, runIs. destruct (tp m) as [p|]; [|by eexists]. destruct Hm as [Hk ->].
  cbn [newTypedPair tp_g tp_t]. destruct (typedAboveFloor g (one m)); [cbn [negb]|by eexists].
  rewrite <- (nodeHits_matches out node Hk). pose proof (csr_run _ _ _ (dirMap out) (one m) (wfDir_of out) node Hnode) as (tc & E & Hr).
  destruct out; [|rewrite (wg_ito _ _ Hwf); cbn [mbind res_bind]]; cbn [dirOffsets dirNbrs dirTypes dirMap] in *; rewrite E;
    (eexists; split; [done|]; split; [done|exact Hr]).
Qed.

Lemma runs_ok (out : bool) node : 0 ≤ node → ∃ o, runs (tp m) out = Ok o ∧
  match o with
  | None => True
  | Some tr => kind m = 1 ∧ ∃ lo hi, runRange tr node = Ok (lo, hi) ∧ runIs out node (tr_nbrs tr) (tr_poss tr) lo hi
  end.
Proof using Hwf Hm.
  intros Hnode. unfold matchOK in Hm. unfold runs, runIs. destruct (tp m) as [p|]; [|by eexists]. destruct Hm as [Hk ->].
  cbn [newTypedPair tp_g tp_t]. destruct (typedAboveFloor g (one m)); [by eexists|].
  rewrite <- (nodeHits_matches out node Hk). pose proof (runs_run _ _ _ (dirMap out) (one m) (wfDir_of out) node Hnode) as (tr & E & Hr).
  destruct out; [|rewrite (wg_ito _ _ Hwf); cbn [mbind res_bind]]; cbn [dirOffsets dirNbrs dirTypes dirMap] in *; rewrite E;
    (eexists; split; [done|]; split; [done|exact Hr]).
Qed.

Lemma runsAbove_ok (out : bool) node lo hi : 0 ≤ node → ∃ o, runsAbove m out lo hi = Ok o ∧
  match o with
  | None => True
  | Some tr => kind m = 1 ∧ ∃ lo hi, runRange tr node = Ok (lo, hi) ∧ runIs out node (tr_nbrs tr) (tr_poss tr) lo hi
  end.
Proof using Hwf Hm. intros Hnode. unfold runsAbove. case_decide; [by apply runs_ok|by eexists]. Qed.

(** The primary range of a node. *)
Lemma range_ok (out : bool) node : 0 ≤ node → ∃ lo hi, relRange (dirOffsets g out) node = Ok (lo, hi) ∧
  0 ≤ lo ≤ hi ∧ hi ≤ len (dirNbrs g out) ∧
  nodeMatches g m out node = filter (λ k, matches m (typesOf (dirTypes g out) !!! Z.to_nat k) = true) (seqZ lo (hi - lo)).
Proof using Hwf.
  intros Hnode. pose proof (wfDir_of out) as Hd. unfold relRange, nodeMatches. case_decide as D.
  - exists 0, 0. split; [done|]. split; [done|]. split; [apply len_nonneg|done].
  - destruct (off_range _ _ _ Hd node) as [E1 R1]; [lia|]. destruct (off_range _ _ _ Hd (node + 1)) as [E2 R2]; [lia|].
    pose proof (off_mono _ _ _ Hd node (node + 1) ltac:(lia) ltac:(lia)).
    rewrite (idx_lookup _ node _) by (lia || exact E1). cbn [mbind res_bind]. rewrite (idx_lookup _ (node + 1) _) by (lia || exact E2).
    eexists _, _. split; [done|]. split; [lia|]. split; [lia|done].
Qed.

Lemma scan_positions (out : bool) lo hi : 0 ≤ lo ≤ hi → hi ≤ len (dirNbrs g out) →
  scan m (rowsOf (dirNbrs g out) (typesOf (dirTypes g out)) lo hi) =
    nb (dirNbrs g out) <$> filter (λ k, matches m (typesOf (dirTypes g out) !!! Z.to_nat k) = true) (seqZ lo (hi - lo)).
Proof using Hwf.
  intros Hlo Hhi. apply (run_induction _ _ (wd_len _ _ _ (wfDir_of out)) (λ lo rows, scan m rows = nb (dirNbrs g out) <$>
    filter (λ k, matches m (typesOf (dirTypes g out) !!! Z.to_nat k) = true) (seqZ lo (hi - lo))) hi Hhi); [| |lia].
  - intros l Hl. by rewrite seqZ_nil by lia.
  - intros l n t rows Hl Hn Ht IH. rewrite seqZ_step by lia. unfold scan. rewrite !filter_cons. cbn [snd].
    rewrite (list_lookup_total_correct _ _ _ Ht). unfold nb at 1. destruct (decide (matches m t = true)).
    + rewrite !fmap_cons. cbn [fst]. rewrite (list_lookup_total_correct _ _ _ Hn). f_equal. exact IH.
    + exact IH.
Qed.

(** ** Every route delivers the scan *)

Lemma appendDir_ok (out : bool) dst node : 0 ≤ node → appendDir g dst node m out = Ok (dst ++ neighborsDir g m node out).
Proof using Hwf Hm.
  intros Hnode. unfold appendDir, neighborsDir. destruct (view_ok out node Hnode) as ([tc|] & -> & Hv); cbn [mbind res_bind].
  { destruct Hv as (_ & lo & hi & -> & Hs & _). cbn [mbind res_bind]. by rewrite Hs. }
  destruct (range_ok out node Hnode) as (lo & hi & -> & Hlo & Hhi & Em). cbn [mbind res_bind].
  destruct (runsAbove_ok out node lo hi Hnode) as ([tr|] & -> & Hr); cbn [mbind res_bind].
  { destruct Hr as (_ & rlo & rhi & -> & Hs & _). cbn [mbind res_bind]. by rewrite Hs. }
  pose proof (wfDir_of out) as Hd. case_decide.
  - rewrite appendNbrsTyped_scan by (apply tpOK_of || apply Hd || lia). by rewrite scan_positions, <- Em by lia.
  - rewrite Em, seqZ_nil by lia. by rewrite app_nil_r.
Qed.

Lemma yieldDir_ok {A} (out : bool) node (yield : Z → A → bool * A) st : 0 ≤ node →
  yieldDir g node m out yield st = Ok (yieldAll yield (neighborsDir g m node out) st).
Proof using Hwf Hm.
  intros Hnode. unfold yieldDir, neighborsDir. cbv zeta. set (h := nodeMatches g m out node).
  assert (∀ nbrs lo hi, slice nbrs lo hi = Ok (nb (dirNbrs g out) <$> h) →
    yieldLoop (λ k, n ← idx nbrs k; Ok (Some n)) yield (seqZ lo (hi - lo)) st = Ok (yieldAll yield (nb (dirNbrs g out) <$> h) st)) as Hwalk.
  { intros nbrs lo hi Hs. apply yieldWalk_ok; [by rewrite <- (slice_len _ _ _ _ Hs), len_fmap|]. intros k x Hk Hx.
    destruct (slice_idx _ _ _ _ _ k Hs Hk) as (x' & Hx' & ->). cbn [mbind res_bind]. congruence. }
  destruct (view_ok out node Hnode) as ([tc|] & -> & Hv); cbn [mbind res_bind].
  { destruct Hv as (_ & lo & hi & -> & Hs & _). cbn [mbind res_bind]. by apply Hwalk. }
  destruct (range_ok out node Hnode) as (lo & hi & -> & Hlo & Hhi & Em). cbn [mbind res_bind].
  destruct (runsAbove_ok out node lo hi Hnode) as ([tr|] & -> & Hr); cbn [mbind res_bind].
  { destruct Hr as (_ & rlo & rhi & -> & Hs & _). cbn [mbind res_bind]. by apply Hwalk. }
  pose proof (wfDir_of out) as Hd. subst h. case_decide.
  - rewrite yieldNbrsTyped_scan by (apply tpOK_of || apply Hd || lia). by rewrite scan_positions, <- Em by lia.
  - by rewrite Em, seqZ_nil by lia.
Qed.

Lemma omap_filter {X} (P : Z → bool) (F : Z → X) (ks : list Z) : omap (λ k, if P k then Some (F k) else None) ks = F <$> filter (λ k, P k = true) ks.
Proof.
  induction ks as [|k ks IH]; [done|]. destruct (P k) eqn:E.
  - rewrite filter_cons_True, fmap_cons, <- IH by done. cbn. by rewrite E.
  - rewrite filter_cons_False, <- IH by congruence. cbn. by rewrite E.
Qed.

Lemma relsDir_ok {A} (out : bool) node (yield : RelRef → A → bool * A) st : 0 ≤ node →
  relsDir g node m out yield st = Ok (yieldAll yield (relRefs g m ito node out) st).
Proof using Hwf Hm.
  intros Hnode. unfold relsDir, relRefs. cbv zeta.
  set (F := λ k, mkRelRef (nb (dirNbrs g out) k) (typesOf (dirTypes g out) !!! Z.to_nat k) (if out then Outgoing else Incoming) (storedPos ito out k)).
  pose proof (range_ok out node Hnode) as (lo & hi & Er & Hlo & Hhi & Em).
  assert (∀ k, pm (dirMap out) k = storedPos ito out k ∨ k < 0) as Hpm.
  { intros k. destruct out; [|by left]. unfold pm, storedPos. simpl. destruct (decide (k < 0)); [by right|left]. by rewrite decide_False. }
  assert (∀ nbrs poss lo hi, kind m = 1 → runIs out node nbrs poss lo hi →
    yieldLoop (λ k, n ← idx nbrs k; p ← idx poss k; Ok (Some (mkRelRef n (one m) (if out then Outgoing else Incoming) p))) yield (seqZ lo (hi - lo)) st =
      Ok (yieldAll yield (F <$> nodeMatches g m out node) st)) as Hwalk.
  { intros nbrs poss lo' hi' Hk [Hs Hp]. apply yieldWalk_ok; [by rewrite <- (slice_len _ _ _ _ Hs), len_fmap|]. intros k x Hkr Hx.
    destruct (slice_idx _ _ _ _ _ k Hs Hkr) as (x1 & Hx1 & ->). destruct (slice_idx _ _ _ _ _ k Hp Hkr) as (x2 & Hx2 & ->).
    cbn [mbind res_bind]. assert (x1 = x) as -> by congruence. assert (x2 = x) as -> by congruence.
    apply list_elem_of_lookup_2 in Hx. rewrite Em in Hx. apply list_elem_of_filter in Hx as [Ht Hx%elem_of_seqZ].
    unfold matches in Ht. rewrite decide_False, decide_True in Ht by lia. apply bool_decide_eq_true in Ht.
    unfold F. rewrite <- Ht. destruct (Hpm x) as [->|]; [done|lia]. }
  destruct (view_ok out node Hnode) as ([tc|] & -> & Hv); cbn [mbind res_bind].
  { destruct Hv as (Hk & lo' & hi' & -> & Hs). cbn [mbind res_bind]. by apply Hwalk. }
  rewrite Er. cbn [mbind res_bind]. destruct (runsAbove_ok out node lo hi Hnode) as ([tr|] & -> & Hr); cbn [mbind res_bind].
  { destruct Hr as (Hk & rlo & rhi & -> & Hs). cbn [mbind res_bind]. by apply Hwalk. }
  replace (if out then Ok [] else getInToOut g) with (Ok (dirMap out)) by (destruct out; [done|]; by rewrite (wg_ito _ _ Hwf)).
  cbn [mbind res_bind].
  rewrite (yieldLoop_ok _ (λ k, if matches m (typesOf (dirTypes g out) !!! Z.to_nat k) then Some (F k) else None)).
  - rewrite Em. do 2 f_equal. apply omap_filter.
  - intros k Hk%elem_of_seqZ. destruct (row_ok _ _ _ (dirMap out) (wfDir_of out) k) as (E0 & E1 & E2 & E3); [lia|]. rewrite E0.
    assert (reader (dirTypes g out) k = At (dirTypes g out) k) as -> by (unfold reader, At; by destruct (wide (dirTypes g out))).
    rewrite E1. cbn [mbind res_bind]. destruct (matches m _); [|done]. cbn [negb]. rewrite E3. cbn [mbind res_bind]. rewrite E2.
    cbn [mbind res_bind]. unfold F. destruct (Hpm k) as [->|]; [done|lia].
Qed.

Lemma appendEach_ok dst node dir : 0 ≤ node → AppendNeighborsEach g dst node dir m = Ok (dst ++ neighborsOf g m node dir).
Proof using Hwf Hm.
  intros Hnode. unfold AppendNeighborsEach, neighborsOf.
  destruct dir; cbn [goesOut goesIn]; rewrite ?appendDir_ok by done; cbn [mbind res_bind];
    rewrite ?appendDir_ok by done; by rewrite ?app_nil_r, ?app_nil_l, <- ?app_assoc.
Qed.

Lemma neighborsYield_ok {A} node dir (yield : Z → A → bool * A) st : 0 ≤ node →
  neighborsYield g node dir m yield st = Ok (yieldAll yield (neighborsOf g m node dir) st).2.
Proof using Hwf Hm.
  intros Hnode. unfold neighborsYield, neighborsOf. rewrite yieldAll_app.
  destruct dir; cbn [goesOut goesIn]; rewrite ?yieldDir_ok by done; cbn [mbind res_bind yieldAll];
    repeat (case_match; simplify_eq; cbn [negb mbind res_bind yieldAll]; rewrite ?yieldDir_ok by done; cbn [mbind res_bind yieldAll]); done.
Qed.

Lemma relsYield_ok {A} node dir (yield : RelRef → A → bool * A) st : 0 ≤ node →
  relsYield g node dir m yield st = Ok (yieldAll yield (relsOf g m ito node dir) st).2.
Proof using Hwf Hm.
  intros Hnode. unfold relsYield, relsOf. rewrite yieldAll_app.
  destruct dir; cbn [goesOut goesIn]; rewrite ?relsDir_ok by done; cbn [mbind res_bind yieldAll];
    repeat (case_match; simplify_eq; cbn [negb mbind res_bind yieldAll]; rewrite ?relsDir_ok by done; cbn [mbind res_bind yieldAll]); done.
Qed.

Lemma appendMatch_ok dst node dir : 0 ≤ node → ∃ tail, AppendNeighborsMatch g dst node dir m = Ok (dst ++ tail) ∧
  StronglySorted Z.lt tail ∧ ∀ x, x ∈ tail ↔ x ∈ neighborsOf g m node dir.
Proof using Hwf Hm.
  intros Hnode. unfold AppendNeighborsMatch. rewrite appendEach_ok by done. cbn [mbind res_bind].
  set (ns := neighborsOf g m node dir).
  assert (slice (dst ++ ns) (len dst) (len (dst ++ ns)) = Ok ns) as ->.
  { rewrite <- (app_nil_r ns) at 1. apply slice_at; rewrite ?len_app; done. }
  cbn [mbind res_bind]. rewrite slice_prefix. cbn [mbind res_bind]. eexists. split; [done|]. split.
  - apply Compact_strict, (StronglySorted_merge_sort Z.le).
  - intros x. by rewrite elem_of_Compact, merge_sort_Permutation.
Qed.

End laws.

(** The filters a graph resolves fit it. *)
Lemma Match_fits g names m : Match g names = Ok m → matchOK g m.
Proof.
  unfold Match, matchMany. destruct names as [|name [|name' names]]; [by intros [= <-]| |].
  - destruct (RelType g name) as [[t [|]]| |]; cbn [mbind res_bind]; by intros [= <-].
  - destruct (foldM _ _ _) as [[|t [|t' ts]]| |]; cbn [mbind res_bind]; by intros [= <-].
Qed.

End traverse.

(** ** Properties *)

(** C28: Every traversal route delivers the scan. On a well-formed graph, with any
    filter made without a snapshot or by this one, from any node id (in the id
    space or not) and in any direction: appending neighbors, iterating neighbors
    and iterating relationships - whether routed through a typed CSR, a
    bucket-indexed run view, or a type-tested scan - produce exactly the matching
    positions of the node's primary ranges, outgoing before incoming, in CSR
    order, with the types and the stored property positions; a consumer that
    stops is not called again; and the deduplicating append adds exactly the
    distinct neighbors in ascending order. *)
Theorem traversal_routes_agree {bm} `{RoaringSet bm} (g : Snapshot bm) (ito : list Z) (m : RelMatch (Snapshot bm)) (node : Z) (dir : Direction) :
  wfGraph g ito → matchOK g m → 0 ≤ node →
  (∀ dst, AppendNeighborsEach g dst node dir m = Ok (dst ++ neighborsOf g m node dir)) ∧
  (∀ A (yield : Z → A → bool * A) st, neighborsYield g node dir m yield st = Ok (yieldAll yield (neighborsOf g m node dir) st).2) ∧
  (∀ A (yield : RelRef → A → bool * A) st, relsYield g node dir m yield st = Ok (yieldAll yield (relsOf g m ito node dir) st).2) ∧
  (∀ dst, ∃ tail, AppendNeighborsMatch g dst node dir m = Ok (dst ++ tail) ∧ StronglySorted Z.lt tail ∧
    ∀ x, x ∈ tail ↔ x ∈ neighborsOf g m node dir).
Proof.
  intros Hwf Hm Hnode. split; [|split; [|split]]; intros.
  - by eapply appendEach_ok.
  - by eapply neighborsYield_ok.
  - by eapply relsYield_ok.
  - by eapply appendMatch_ok.
Qed.

(** 0 -[1]-> 1, 0 -[2]-> 1, 0 -[1]-> 2, 1 -[1]-> 0. *)
Definition demoSnap : Snapshot (gset Z) :=
  mkSnapshot 3 4 [0; 3; 4; 4] [1; 1; 2; 0] (mkRelTypes None [1; 2] [0; 1; 0; 0])
    [0; 1; 3; 4] [1; 0; 0; 0] (mkRelTypes None [1; 2] [0; 0; 1; 0]) None false
    ∅ {[1 := mkSet {[0; 2; 3]}; 2 := mkSet {[1]}]} None ∅ ∅ 0 None (NewAtoms [[]]).

Lemma demoSnap_wf : wfGraph demoSnap [].
Proof.
  assert (∀ os : list Z, os = [0; 3; 4; 4] ∨ os = [0; 1; 3; 4] → ∀ i a b, os !! i = Some a → os !! S i = Some b → a ≤ b) as Hmono.
  { intros os [->| ->] [|[|[|[|i]]]] a b Ha Hb; simplify_eq/=; lia. }
  assert (∀ pi, pi = [0; 1; 0; 0] ∨ pi = [0; 0; 1; 0] → wf_types (mkRelTypes None [1; 2] pi)) as Hty.
  { intros pi Hpi. split; [by apply (bool_decide_unpack _); vm_compute|]. split; [done|].
    destruct Hpi as [->| ->]; repeat constructor; done. }
  split; [split|split|done]; try (apply Hmono; by auto); try (apply Hty; by auto); try done; repeat constructor; done.
Qed.

Lemma traversal_routes_agree_witness :
  AppendNeighborsEach demoSnap [] 0 Outgoing (mkMatch 1 1 [] (Some (typedPairFor demoSnap 1))) = Ok [1; 2] ∧
  AppendNeighborsEach demoSnap [] 0 Both MatchAll = Ok [1; 1; 2; 1].
Proof.
  destruct (traversal_routes_agree demoSnap [] (mkMatch 1 1 [] (Some (typedPairFor demoSnap 1))) 0 Outgoing demoSnap_wf) as [H1 _]; [done|lia|].
  destruct (traversal_routes_agree demoSnap [] MatchAll 0 Both demoSnap_wf) as [H2 _]; [done|lia|].
  rewrite H1, H2. split; reflexivity.
Defined.
