(* ===== verification/Builder.v ===== *)
(** The staging builder: [src/builder.go], [src/removal.go] and
    [src/builder_read.go], with the dirty marks of [src/cow.go].

    A builder is a record with the fields of the Go struct; the four typed
    column maps of nodes and of relationships are grouped as [typedCols]. An
    operation threads the builder and ends in a value or an error of the
    package, with whatever it changed before the error kept, or in a panic. A
    nil map reads like an empty one and is modelled as such, except [relIndex]
    and [removedRels], whose nil is tested. The type of the source snapshot is
    a parameter: these operations only test whether there is one. *)

From S2P Require Import Prelude Value AtomTable NodeSet.

(** ** Data *)

Inductive berr := ErrCapacity | ErrRelNotFound | ErrBadValue.

(** [map[PropertyKey][]i64Pair] and the other three. *)
Abbreviation colMap A := (gmap Z (list (Z * A))).
Record typedCols := mkCols {
  colI64 : colMap Z;
  colF64 : colMap Z;
  colBool : colMap bool;
  colStr : colMap Z;
}.
Definition noCols : typedCols := mkCols ∅ ∅ ∅ ∅.

(** One of the four maps of a group, passed by reference. *)
Record colRef (A : Type) := mkRef { rget : typedCols → colMap A; rset : colMap A → typedCols → typedCols }.
Arguments mkRef {A} _ _.
Arguments rget {A} _ _.
Arguments rset {A} _ _ _.
Definition refI64 := mkRef colI64 (λ m c, mkCols m (colF64 c) (colBool c) (colStr c)).
Definition refF64 := mkRef colF64 (λ m c, mkCols (colI64 c) m (colBool c) (colStr c)).
Definition refBool := mkRef colBool (λ m c, mkCols (colI64 c) (colF64 c) m (colStr c)).
Definition refStr := mkRef colStr (λ m c, mkCols (colI64 c) (colF64 c) (colBool c) m).

Record Builder (bm Snap : Type) := mkBuilder {
  degOut : list Z;
  degIn : list Z;
  rels : list (Z * Z);
  nodeLabels : list (list Z);
  relTypes : list Z;
  version : option gostring;
  nodeCols : typedCols;
  relCols : typedCols;
  interner : Interner;
  nextNodeID : Z;
  knownNodes : bm;
  relIndex : option (gmap (Z * Z * Z) Z);
  removedRels : option bm;
  removedNodes : gmap Z Z;
  src : option Snap;
  srcRelToOutCSR : list Z;
  dirtyNodeCols : gset Z;
  dirtyRelCols : gset Z;
  dirtyLabels : gset Z;
  relsDirty : bool;
}.
Arguments mkBuilder {bm Snap}.
Arguments degOut {bm Snap} _.
Arguments degIn {bm Snap} _.
Arguments rels {bm Snap} _.
Arguments nodeLabels {bm Snap} _.
Arguments relTypes {bm Snap} _.
Arguments version {bm Snap} _.
Arguments nodeCols {bm Snap} _.
Arguments relCols {bm Snap} _.
Arguments interner {bm Snap} _.
Arguments nextNodeID {bm Snap} _.
Arguments knownNodes {bm Snap} _.
Arguments relIndex {bm Snap} _.
Arguments removedRels {bm Snap} _.
Arguments removedNodes {bm Snap} _.
Arguments src {bm Snap} _.
Arguments srcRelToOutCSR {bm Snap} _.
Arguments dirtyNodeCols {bm Snap} _.
Arguments dirtyRelCols {bm Snap} _.
Arguments dirtyLabels {bm Snap} _.
Arguments relsDirty {bm Snap} _.

Section setters.
Context {bm Snap : Type}.
Implicit Types b : Builder bm Snap.
Definition set_degOut x b : Builder bm Snap := mkBuilder
  x (degIn b) (rels b) (nodeLabels b) (relTypes b) (version b) (nodeCols b) (relCols b) (interner b)
  (nextNodeID b) (knownNodes b) (relIndex b) (removedRels b) (removedNodes b) (src b) (srcRelToOutCSR b)
  (dirtyNodeCols b) (dirtyRelCols b) (dirtyLabels b) (relsDirty b).
Definition set_degIn x b : Builder bm Snap := mkBuilder
  (degOut b) x (rels b) (nodeLabels b) (relTypes b) (version b) (nodeCols b) (relCols b) (interner b)
  (nextNodeID b) (knownNodes b) (relIndex b) (removedRels b) (removedNodes b) (src b) (srcRelToOutCSR b)
  (dirtyNodeCols b) (dirtyRelCols b) (dirtyLabels b) (relsDirty b).
Definition set_rels x b : Builder bm Snap := mkBuilder
  (degOut b) (degIn b) x (nodeLabels b) (relTypes b) (version b) (nodeCols b) (relCols b) (interner b)
  (nextNodeID b) (knownNodes b) (relIndex b) (removedRels b) (removedNodes b) (src b) (srcRelToOutCSR b)
  (dirtyNodeCols b) (dirtyRelCols b) (dirtyLabels b) (relsDirty b).
Definition set_nodeLabels x b : Builder bm Snap := mkBuilder
  (degOut b) (degIn b) (rels b) x (relTypes b) (version b) (nodeCols b) (relCols b) (interner b) (nextNodeID
  b) (knownNodes b) (relIndex b) (removedRels b) (removedNodes b) (src b) (srcRelToOutCSR b) (dirtyNodeCols b)
  (dirtyRelCols b) (dirtyLabels b) (relsDirty b).
Definition set_relTypes x b : Builder bm Snap := mkBuilder
  (degOut b) (degIn b) (rels b) (nodeLabels b) x (version b) (nodeCols b) (relCols b) (interner b) (nextNodeID
  b) (knownNodes b) (relIndex b) (removedRels b) (removedNodes b) (src b) (srcRelToOutCSR b) (dirtyNodeCols b)
  (dirtyRelCols b) (dirtyLabels b) (relsDirty b).
Definition set_version x b : Builder bm Snap := mkBuilder
  (degOut b) (degIn b) (rels b) (nodeLabels b) (relTypes b) x (nodeCols b) (relCols b) (interner b)
  (nextNodeID b) (knownNodes b) (relIndex b) (removedRels b) (removedNodes b) (src b) (srcRelToOutCSR b)
  (dirtyNodeCols b) (dirtyRelCols b) (dirtyLabels b) (relsDirty b).
Definition set_nodeCols x b : Builder bm Snap := mkBuilder
  (degOut b) (degIn b) (rels b) (nodeLabels b) (relTypes b) (version b) x (relCols b) (interner b) (nextNodeID
  b) (knownNodes b) (relIndex b) (removedRels b) (removedNodes b) (src b) (srcRelToOutCSR b) (dirtyNodeCols b)
  (dirtyRelCols b) (dirtyLabels b) (relsDirty b).
Definition set_relCols x b : Builder bm Snap := mkBuilder
  (degOut b) (degIn b) (rels b) (nodeLabels b) (relTypes b) (version b) (nodeCols b) x (interner b)
  (nextNodeID b) (knownNodes b) (relIndex b) (removedRels b) (removedNodes b) (src b) (srcRelToOutCSR b)
  (dirtyNodeCols b) (dirtyRelCols b) (dirtyLabels b) (relsDirty b).
Definition set_interner x b : Builder bm Snap := mkBuilder
  (degOut b) (degIn b) (rels b) (nodeLabels b) (relTypes b) (version b) (nodeCols b) (relCols b) x (nextNodeID
  b) (knownNodes b) (relIndex b) (removedRels b) (removedNodes b) (src b) (srcRelToOutCSR b) (dirtyNodeCols b)
  (dirtyRelCols b) (dirtyLabels b) (relsDirty b).
Definition set_nextNodeID x b : Builder bm Snap := mkBuilder
  (degOut b) (degIn b) (rels b) (nodeLabels b) (relTypes b) (version b) (nodeCols b) (relCols b) (interner b)
  x (knownNodes b) (relIndex b) (removedRels b) (removedNodes b) (src b) (srcRelToOutCSR b) (dirtyNodeCols b)
  (dirtyRelCols b) (dirtyLabels b) (relsDirty b).
Definition set_knownNodes x b : Builder bm Snap := mkBuilder
  (degOut b) (degIn b) (rels b) (nodeLabels b) (relTypes b) (version b) (nodeCols b) (relCols b) (interner b)
  (nextNodeID b) x (relIndex b) (removedRels b) (removedNodes b) (src b) (srcRelToOutCSR b) (dirtyNodeCols b)
  (dirtyRelCols b) (dirtyLabels b) (relsDirty b).
Definition set_relIndex x b : Builder bm Snap := mkBuilder
  (degOut b) (degIn b) (rels b) (nodeLabels b) (relTypes b) (version b) (nodeCols b) (relCols b) (interner b)
  (nextNodeID b) (knownNodes b) x (removedRels b) (removedNodes b) (src b) (srcRelToOutCSR b) (dirtyNodeCols
  b) (dirtyRelCols b) (dirtyLabels b) (relsDirty b).
Definition set_removedRels x b : Builder bm Snap := mkBuilder
  (degOut b) (degIn b) (rels b) (nodeLabels b) (relTypes b) (version b) (nodeCols b) (relCols b) (interner b)
  (nextNodeID b) (knownNodes b) (relIndex b) x (removedNodes b) (src b) (srcRelToOutCSR b) (dirtyNodeCols b)
  (dirtyRelCols b) (dirtyLabels b) (relsDirty b).
Definition set_removedNodes x b : Builder bm Snap := mkBuilder
  (degOut b) (degIn b) (rels b) (nodeLabels b) (relTypes b) (version b) (nodeCols b) (relCols b) (interner b)
  (nextNodeID b) (knownNodes b) (relIndex b) (removedRels b) x (src b) (srcRelToOutCSR b) (dirtyNodeCols b)
  (dirtyRelCols b) (dirtyLabels b) (relsDirty b).
Definition set_src x b : Builder bm Snap := mkBuilder
  (degOut b) (degIn b) (rels b) (nodeLabels b) (relTypes b) (version b) (nodeCols b) (relCols b) (interner b)
  (nextNodeID b) (knownNodes b) (relIndex b) (removedRels b) (removedNodes b) x (srcRelToOutCSR b)
  (dirtyNodeCols b) (dirtyRelCols b) (dirtyLabels b) (relsDirty b).
Definition set_srcRelToOutCSR x b : Builder bm Snap := mkBuilder
  (degOut b) (degIn b) (rels b) (nodeLabels b) (relTypes b) (version b) (nodeCols b) (relCols b) (interner b)
  (nextNodeID b) (knownNodes b) (relIndex b) (removedRels b) (removedNodes b) (src b) x (dirtyNodeCols b)
  (dirtyRelCols b) (dirtyLabels b) (relsDirty b).
Definition set_dirtyNodeCols x b : Builder bm Snap := mkBuilder
  (degOut b) (degIn b) (rels b) (nodeLabels b) (relTypes b) (version b) (nodeCols b) (relCols b) (interner b)
  (nextNodeID b) (knownNodes b) (relIndex b) (removedRels b) (removedNodes b) (src b) (srcRelToOutCSR b) x
  (dirtyRelCols b) (dirtyLabels b) (relsDirty b).
Definition set_dirtyRelCols x b : Builder bm Snap := mkBuilder
  (degOut b) (degIn b) (rels b) (nodeLabels b) (relTypes b) (version b) (nodeCols b) (relCols b) (interner b)
  (nextNodeID b) (knownNodes b) (relIndex b) (removedRels b) (removedNodes b) (src b) (srcRelToOutCSR b)
  (dirtyNodeCols b) x (dirtyLabels b) (relsDirty b).
Definition set_dirtyLabels x b : Builder bm Snap := mkBuilder
  (degOut b) (degIn b) (rels b) (nodeLabels b) (relTypes b) (version b) (nodeCols b) (relCols b) (interner b)
  (nextNodeID b) (knownNodes b) (relIndex b) (removedRels b) (removedNodes b) (src b) (srcRelToOutCSR b)
  (dirtyNodeCols b) (dirtyRelCols b) x (relsDirty b).
Definition set_relsDirty x b : Builder bm Snap := mkBuilder
  (degOut b) (degIn b) (rels b) (nodeLabels b) (relTypes b) (version b) (nodeCols b) (relCols b) (interner b)
  (nextNodeID b) (knownNodes b) (relIndex b) (removedRels b) (removedNodes b) (src b) (srcRelToOutCSR b)
  (dirtyNodeCols b) (dirtyRelCols b) (dirtyLabels b) x.
End setters.

(** A convenience value ([value any]): the supported dynamic types, and the
    rest. [int] and [int32] convert to [int64] without loss. *)
Inductive anyVal :=
| AValue (v : Value) | AString (s : gostring) | AInt64 (x : Z) | AInt (x : Z) | AInt32 (x : Z)
| AFloat64 (bits : Z) | ABool (x : bool) | AOther.

Section builder.
Context {bm Snap : Type} `{RoaringSet bm}.
Implicit Types b : Builder bm Snap.

(** ** Operations as computations *)

Definition M (A : Type) : Type := Builder bm Snap → res ((A + berr) * Builder bm Snap).
#[global] Instance M_ret : MRet M := λ A a b, Ok (inl a, b).
#[global] Instance M_bind : MBind M := λ A B f m b,
  '(r, b) ← m b;
  match r with inl a => f a b | inr e => Ok (inr e, b) end.

Definition get : M (Builder bm Snap) := λ b, Ok (inl b, b).
Definition modify (f : Builder bm Snap → Builder bm Snap) : M () := λ b, Ok (inl (), f b).
Definition fail {A} (e : berr) : M A := λ b, Ok (inr e, b).
Definition lift {A} (r : res A) : M A := λ b, a ← r; Ok (inl a, b).
Fixpoint forM {A} (l : list A) (body : A → M ()) : M () :=
  match l with [] => mret () | x :: l => body x;; forM l body end.

(** ** Dirty marks (cow.go) *)

Definition hasSrc b : bool := match src b with Some _ => true | None => false end.
Definition markNodeColDirty (key : Z) : M () := modify (λ b,
  if hasSrc b then set_dirtyNodeCols ({[key]} ∪ dirtyNodeCols b) b else b).
Definition markRelColDirty (key : Z) : M () := modify (λ b,
  if hasSrc b then set_dirtyRelCols ({[key]} ∪ dirtyRelCols b) b else b).
Definition markLabelDirty (label : Z) : M () := modify (λ b,
  if hasSrc b then set_dirtyLabels ({[label]} ∪ dirtyLabels b) b else b).
Definition markRelsDirty : M () := modify (λ b,
  if hasSrc b then set_srcRelToOutCSR [] (set_relsDirty true b) else b).

(** ** Nodes and relationships (builder.go) *)

Definition NewBuilder (capNodes capRels : Z) : Builder bm Snap :=
  let cap := Z.to_nat (if decide (capNodes ≤ 0) then Z.shiftl 1 20 else capNodes) in
  mkBuilder (replicate cap 0) (replicate cap 0) [] (replicate cap []) [] None noCols noCols NewInterner 0
    bmNew None None ∅ None [] ∅ ∅ ∅ false.

Definition SetVersion (v : gostring) : M () := modify (set_version (Some v)).

Definition ensureCapacity (id : Z) : M () :=
  b ← get;
  if decide (id < len (degOut b)) then mret ()
  else
    let newSize := Z.min ((id + 1) * 2) 4294967295 in
    if decide (newSize ≤ id) then fail ErrCapacity
    else
      let grow := resize (Z.to_nat newSize) 0 in
      modify (λ b, set_nodeLabels (resize (Z.to_nat newSize) [] (nodeLabels b))
        (set_degIn (grow (degIn b)) (set_degOut (grow (degOut b)) b))).

(** [b.interner.GetOrIntern(s)]. *)
Definition intern (s : gostring) : M Z :=
  b ← get;
  let '(id, i) := GetOrIntern (interner b) s in
  modify (set_interner i);; mret id.

Definition addKnown (id : Z) : M () := modify (λ b, set_knownNodes (bmAdd (knownNodes b) id) b).

Definition addLabel (id : Z) (l : gostring) : M () :=
  label ← intern l;
  b ← get;
  ls ← lift (idx (nodeLabels b) id);
  labels ← lift (upd (nodeLabels b) id (ls ++ [label]));
  modify (set_nodeLabels labels);;
  markLabelDirty label.

Definition addNodeAt (id : Z) (labels : list gostring) : M Z :=
  ensureCapacity id;;
  forM labels (addLabel id);;
  addKnown id;;
  mret id.

Definition AddNode (labels : list gostring) : M Z :=
  b ← get;
  let id := nextNodeID b in
  if decide (id = MaxUint32) then fail ErrCapacity
  else modify (set_nextNodeID (to_u32 (id + 1)));; addNodeAt id labels.

Definition AddNodeWithID (id : Z) (labels : list gostring) : M Z :=
  b ← get;
  (if decide (nextNodeID b ≤ id) then modify (set_nextNodeID (to_u32 (id + 1))) else mret ());;
  addNodeAt id labels.

(** [s[i]++] and [s[i]--] on a [[]uint32]. *)
Definition bump (s : list Z) (i d : Z) : res (list Z) := x ← idx s i; upd s i (to_u32 (x + d)).

Definition addRelTyped (u v typeID : Z) : M Z :=
  ensureCapacity (Z.max u v);;
  b ← get;
  if decide (MaxUint32 ≤ len (rels b)) then fail ErrCapacity
  else
    markRelsDirty;;
    dOut ← lift (bump (degOut b) u 1);
    modify (set_degOut dOut);;
    dIn ← lift (bump (degIn b) v 1);
    modify (set_degIn dIn);;
    let i := len (rels b) in
    modify (set_rels (rels b ++ [(u, v)]));;
    modify (set_relTypes (relTypes b ++ [typeID]));;
    addKnown u;;
    addKnown v;;
    match relIndex b with
    | None => mret ()
    | Some m =>
        match m !! (u, v, typeID) with
        | Some _ => mret ()
        | None => modify (set_relIndex (Some (<[(u, v, typeID) := i]> m)))
        end
    end;;
    mret i.

Definition AddRel (u v : Z) (relType : gostring) : M Z :=
  typeID ← intern relType;
  addRelTyped u v typeID.

(** ** Removed relationships (removal.go) *)

Definition relRemovedIn (removedRels : option bm) (removedNodes : gmap Z Z) (rels : list (Z * Z)) (i : Z) : res bool :=
  if (match removedRels with Some t => bmContains t (to_u32 i) | None => false end) : bool then Ok true
  else if decide (removedNodes = ∅) then Ok false
  else
    r ← idx rels i;
    let below (node : Z) := match removedNodes !! node with Some wm => bool_decide (i < wm) | None => false end in
    if below r.1 then Ok true else if below r.2 then Ok true else Ok false.

Definition relRemoved b (i : Z) : res bool := relRemovedIn (removedRels b) (removedNodes b) (rels b) i.

(** ** Property staging *)

Definition setNodeColumnPairs {A} (cols : colRef A) (key : Z) (pairs : list (Z * A)) : M () :=
  if decide (len pairs = 0) then mret ()
  else
    forM pairs (λ p, ensureCapacity p.1;; addKnown p.1);;
    modify (λ b, set_nodeCols (rset cols (<[key := pairs]> (rget cols (nodeCols b))) (nodeCols b)) b).

Definition setRelColumnPairs {A} (cols : colRef A) (key : Z) (pairs : list (Z * A)) : M () :=
  if decide (len pairs = 0) then mret ()
  else
    forM pairs (λ p,
      b ← get;
      if decide (len (rels b) ≤ p.1) then fail ErrRelNotFound
      else
        dead ← lift (relRemoved b p.1);
        if dead : bool then fail ErrRelNotFound else mret ());;
    modify (λ b, set_relCols (rset cols (<[key := pairs]> (rget cols (relCols b))) (relCols b)) b).

Definition stageValue (value : anyVal) : M Value :=
  match value with
  | AValue v => mret v
  | AString s => a ← intern s; mret (StrValue a)
  | AInt64 x | AInt x | AInt32 x => mret (I64Value x)
  | AFloat64 x => mret (F64Value x)
  | ABool x => mret (BoolValue x)
  | AOther => fail ErrBadValue
  end.

Definition InternPropertyKey (name : gostring) : M Z := intern name.

(** [cols[key] = append(cols[key], pair)], on the map of the value's kind. *)
Definition appendPair {A} (key : Z) (p : Z * A) (m : colMap A) : colMap A := <[key := default [] (m !! key) ++ [p]]> m.
Definition stagePair (key id : Z) (v : Value) (c : typedCols) : typedCols :=
  match Kind v with
  | KindStr => mkCols (colI64 c) (colF64 c) (colBool c) (appendPair key (id, (StrID v).1) (colStr c))
  | KindI64 => mkCols (appendPair key (id, (I64 v).1) (colI64 c)) (colF64 c) (colBool c) (colStr c)
  | KindF64 => mkCols (colI64 c) (appendPair key (id, (F64 v).1) (colF64 c)) (colBool c) (colStr c)
  | KindBool => mkCols (colI64 c) (colF64 c) (appendPair key (id, (Bool v).1) (colBool c)) (colStr c)
  end.

Definition SetPropByKey (node key : Z) (value : anyVal) : M () :=
  v ← stageValue value;
  ensureCapacity node;;
  markNodeColDirty key;;
  modify (λ b, set_nodeCols (stagePair key node v (nodeCols b)) b);;
  addKnown node.

Definition SetProp (node : Z) (key : gostring) (value : anyVal) : M () :=
  k ← intern key; SetPropByKey node k value.

(** The sweep of one key: the pairs left, and whether any went. *)
Definition removeAllPairs {A} (pairs : list (Z * A)) (id : Z) : list (Z * A) * bool :=
  let out := filter (λ p, p.1 ≠ id) pairs in (out, bool_decide (len out ≠ len pairs)).

Definition sweepPairs {A} (cols : colMap A) (key id : Z) : colMap A * bool :=
  match cols !! key with
  | None => (cols, false)
  | Some pairs =>
      let '(out, removed) := removeAllPairs pairs id in
      (if decide (len out = 0) then delete key cols else <[key := out]> cols, removed)
  end.

(** The same over the four maps. *)
Definition sweepAll (c : typedCols) (key id : Z) : typedCols * bool :=
  let '(ci, ri) := sweepPairs (colI64 c) key id in
  let '(cf, rf) := sweepPairs (colF64 c) key id in
  let '(cb, rb) := sweepPairs (colBool c) key id in
  let '(cs, rs) := sweepPairs (colStr c) key id in
  (mkCols ci cf cb cs, ri || rf || rb || rs).

Definition removeNodePropPairsByKey (node key : Z) : M bool :=
  b ← get;
  let '(c, removed) := sweepAll (nodeCols b) key node in
  modify (set_nodeCols c);;
  (if removed : bool then markNodeColDirty key else mret ());;
  mret removed.

Definition UpdateProp (node : Z) (key : gostring) (value : anyVal) : M () :=
  k ← intern key;
  v ← stageValue value;
  removeNodePropPairsByKey node k;;
  SetPropByKey node k (AValue v).

(** The lazily built lookup map: the first live index of each
    (source, target, type). *)
Definition indexStep b (m : gmap (Z * Z * Z) Z) (x : Z * (Z * Z)) : res (gmap (Z * Z * Z) Z) :=
  let '(i, r) := x in
  dead ← relRemoved b i;
  if dead : bool then Ok m
  else
    t ← idx (relTypes b) i;
    match m !! (r.1, r.2, t) with
    | Some _ => Ok m
    | None => Ok (<[(r.1, r.2, t) := i]> m)
    end.

(** [if b.relIndex == nil { ... }], and the map. *)
Definition ensureRelIndex : M (gmap (Z * Z * Z) Z) :=
  b ← get;
  match relIndex b with
  | Some m => mret m
  | None =>
      m ← lift (foldM (indexStep b) (enum (rels b)) ∅);
      modify (set_relIndex (Some m));; mret m
  end.

Definition findRelIndex (u v : Z) (relType : gostring) : M (Z * bool) :=
  b ← get;
  let '(typeID, ok) := Get (interner b) relType in
  if negb ok then mret (0, false)
  else
    m ← ensureRelIndex;
    mret (match m !! (u, v, typeID) with Some i => (i, true) | None => (0, false) end).

Definition SetRelPropAt (relIdx : Z) (key : gostring) (value : anyVal) : M () :=
  b ← get;
  if decide (relIdx < 0 ∨ len (rels b) ≤ relIdx) then fail ErrRelNotFound
  else
    dead ← lift (relRemoved b relIdx);
    if dead : bool then fail ErrRelNotFound
    else
      k ← intern key;
      v ← stageValue value;
      markRelColDirty k;;
      modify (λ b, set_relCols (stagePair k (to_u32 relIdx) v (relCols b)) b).

Definition SetRelProp (u v : Z) (relType key : gostring) (value : anyVal) : M () :=
  '(i, ok) ← findRelIndex u v relType;
  if negb ok then fail ErrRelNotFound else SetRelPropAt i key value.

(** ** Removals (removal.go) *)

Definition RemoveProp (node : Z) (key : gostring) : M bool :=
  b ← get;
  let '(k, ok) := Get (interner b) key in
  if negb ok then mret false else removeNodePropPairsByKey node k.

(** [for key := range cols { sweep(sweepPairs(cols, key, node), key) }] for one
    of the four maps. *)
Definition sweepKeys {A} (cols : colRef A) (node : Z) : M () :=
  b ← get;
  forM (map_to_list (rget cols (nodeCols b))).*1 (λ key,
    b ← get;
    let '(m, removed) := sweepPairs (rget cols (nodeCols b)) key node in
    modify (set_nodeCols (rset cols m (nodeCols b)));;
    if removed : bool then markNodeColDirty key else mret ()).

Definition removeNodePropPairs (node : Z) : M () :=
  sweepKeys refI64 node;; sweepKeys refF64 node;; sweepKeys refBool node;; sweepKeys refStr node.

Definition RemoveRelPropAt (relIdx : Z) (key : gostring) : M bool :=
  b ← get;
  if decide (relIdx < 0 ∨ len (rels b) ≤ relIdx) then fail ErrRelNotFound
  else
    dead ← lift (relRemoved b relIdx);
    if dead : bool then fail ErrRelNotFound
    else
      let '(k, ok) := Get (interner b) key in
      if negb ok then mret false
      else
        let '(c, removed) := sweepAll (relCols b) k (to_u32 relIdx) in
        modify (set_relCols c);;
        (if removed : bool then markRelColDirty k else mret ());;
        mret removed.

Definition RemoveRelProp (u v : Z) (relType key : gostring) : M bool :=
  '(i, ok) ← findRelIndex u v relType;
  if negb ok then fail ErrRelNotFound else RemoveRelPropAt i key.

Definition RemoveRel (relIdx : Z) : M () :=
  b ← get;
  if decide (relIdx < 0 ∨ len (rels b) ≤ relIdx) then fail ErrRelNotFound
  else
    dead ← lift (relRemoved b relIdx);
    if dead : bool then fail ErrRelNotFound
    else
      markRelsDirty;;
      modify (set_removedRels (Some (bmAdd (default bmNew (removedRels b)) (to_u32 relIdx))));;
      r ← lift (idx (rels b) relIdx);
      dOut ← lift (bump (degOut b) r.1 (-1));
      modify (set_degOut dOut);;
      dIn ← lift (bump (degIn b) r.2 (-1));
      modify (set_degIn dIn);;
      modify (set_relIndex None).

Definition RemoveNode (id : Z) : M bool :=
  b ← get;
  if negb (bmContains (knownNodes b) id) then mret false
  else
    modify (set_knownNodes (bmRemove (knownNodes b) id));;
    (if decide (id < len (nodeLabels b)) then
       ls ← lift (idx (nodeLabels b) id);
       forM ls markLabelDirty;;
       labels ← lift (upd (nodeLabels b) id []);
       modify (set_nodeLabels labels)
     else mret ());;
    markRelsDirty;;
    removeNodePropPairs id;;
    modify (set_removedNodes (<[id := len (rels b)]> (removedNodes b)));;
    modify (set_relIndex None);;
    mret true.

Definition hasRemovals b : bool :=
  (match removedRels b with Some t => negb (bmIsEmpty t) | None => false end) ||
  bool_decide (removedNodes b ≠ ∅).

(** ** Compaction *)

(** The state of the compaction loop: the arrays it overwrites in place, the
    index map, and how many relationships are kept so far. *)
Record compactState := mkCompact { c_rels : list (Z * Z); c_types : list Z; c_map : list Z; c_kept : Z }.

Definition compactStep b (st : compactState) (i : Z) : res compactState :=
  dead ← relRemovedIn (removedRels b) (removedNodes b) (c_rels st) i;
  if dead : bool then
    m ← upd (c_map st) i (-1); Ok (mkCompact (c_rels st) (c_types st) m (c_kept st))
  else
    m ← upd (c_map st) i (to_i32 (c_kept st));
    r ← idx (c_rels st) i; rs ← upd (c_rels st) (c_kept st) r;
    t ← idx (c_types st) i; ts ← upd (c_types st) (c_kept st) t;
    Ok (mkCompact rs ts m (c_kept st + 1)).

Definition remapPairs {A} (oldToNew : list Z) (pairs : list (Z * A)) : res (list (Z * A)) :=
  foldM (λ out p,
    ni ← idx oldToNew p.1;
    if decide (ni < 0) then Ok out else Ok (out ++ [(to_u32 ni, p.2)])) pairs [].

Definition remapRelPairs {A} (oldToNew : list Z) (cols : colMap A) : res (colMap A) :=
  foldM (λ cols (e : Z * list (Z * A)),
    out ← remapPairs oldToNew e.2;
    Ok (if decide (len out = 0) then delete e.1 cols else <[e.1 := out]> cols)) (map_to_list cols) cols.

(** [for _, r := range b.rels { b.degOut[r[0]]++; b.degIn[r[1]]++ }] over cleared
    arrays. *)
Definition countDegrees (rels : list (Z * Z)) (dOut dIn : list Z) : res (list Z * list Z) :=
  foldM (λ '(dOut, dIn) (r : Z * Z), dOut ← bump dOut r.1 1; dIn ← bump dIn r.2 1; Ok (dOut, dIn)) rels (dOut, dIn).

Definition compactRemovals b : res (Builder bm Snap) :=
  if negb (hasRemovals b) then Ok b
  else
    let m := len (rels b) in
    st ← foldM (compactStep b) (zseq m) (mkCompact (rels b) (relTypes b) (replicate (Z.to_nat m) 0) 0);
    rs ← slice (c_rels st) 0 (c_kept st);
    ts ← slice (c_types st) 0 (c_kept st);
    '(dOut, dIn) ← countDegrees rs (replicate (length (degOut b)) 0) (replicate (length (degIn b)) 0);
    ci ← remapRelPairs (c_map st) (colI64 (relCols b));
    cf ← remapRelPairs (c_map st) (colF64 (relCols b));
    cb ← remapRelPairs (c_map st) (colBool (relCols b));
    cs ← remapRelPairs (c_map st) (colStr (relCols b));
    Ok (set_relIndex None (set_removedNodes ∅ (set_removedRels None
      (set_relCols (mkCols ci cf cb cs) (set_degIn dIn (set_degOut dOut
        (set_relTypes ts (set_rels rs b)))))))).

(** ** Reads before finalization (builder_read.go) *)

Definition NodeCount b : Z := bmGetCardinality (knownNodes b).

Definition RelCount b : res Z :=
  if negb (hasRemovals b) then Ok (len (rels b))
  else foldM (λ count i, dead ← relRemoved b i; Ok (if dead : bool then count else count + 1)) (zseq (len (rels b))) 0.

(** The first pair of a node in one of the maps. *)
Definition firstPair {A} (mk : A → Value) (cols : colMap A) (k node : Z) : option Value :=
  match filter (λ p, p.1 = node) (default [] (cols !! k)) with p :: _ => Some (mk p.2) | [] => None end.

Definition Prop_ b (node : Z) (key : gostring) : Value * bool :=
  let '(k, ok) := Get (interner b) key in
  if negb ok then (Value0, false)
  else
    match firstPair StrValue (colStr (nodeCols b)) k node with
    | Some v => (v, true)
    | None => match firstPair I64Value (colI64 (nodeCols b)) k node with
    | Some v => (v, true)
    | None => match firstPair F64Value (colF64 (nodeCols b)) k node with
    | Some v => (v, true)
    | None => match firstPair BoolValue (colBool (nodeCols b)) k node with
    | Some v => (v, true)
    | None => (Value0, false)
    end end end end.

Definition ResolveString b (id : Z) : res (gostring * bool) := Interner_Resolve (interner b) id.

Definition hasLabel b (labelAtom node : Z) : bool :=
  match nodeLabels b !! Z.to_nat node with Some ls => bool_decide (labelAtom ∈ ls) | None => false end.

(** The value a probe compares with; strings are looked up, never interned. *)
Definition probeValue b (value : anyVal) : option Value :=
  match value with
  | AValue v => Some v
  | AString s => let '(a, ok) := Get (interner b) s in if ok : bool then Some (StrValue a) else None
  | AInt64 x | AInt x | AInt32 x => Some (I64Value x)
  | AFloat64 x => Some (F64Value x)
  | ABool x => Some (BoolValue x)
  | AOther => None
  end.

Definition NodesWithProperty b (label key : gostring) (value : anyVal) : list Z :=
  let '(labelAtom, ok) := Get (interner b) label in
  if negb ok then [] else
  let '(k, ok) := Get (interner b) key in
  if negb ok then [] else
  match probeValue b value with
  | None => []
  | Some want =>
      let c := nodeCols b in
      match Kind want with
      | KindI64 => (filter (λ p, p.2 = (I64 want).1 ∧ hasLabel b labelAtom p.1) (default [] (colI64 c !! k))).*1
      | KindF64 => (filter (λ p, F64Value p.2 = want ∧ hasLabel b labelAtom p.1) (default [] (colF64 c !! k))).*1
      | KindBool => (filter (λ p, p.2 = (Bool want).1 ∧ hasLabel b labelAtom p.1) (default [] (colBool c !! k))).*1
      | KindStr => (filter (λ p, p.2 = (StrID want).1 ∧ hasLabel b labelAtom p.1) (default [] (colStr c !! k))).*1
      end
  end.

Definition NodeLabels b (node : Z) : res (list gostring) :=
  if decide (len (nodeLabels b) ≤ node) then Ok []
  else
    ls ← idx (nodeLabels b) node;
    foldM (λ out l, '(s, ok) ← Interner_Resolve (interner b) l; Ok (if ok : bool then out ++ [s] else out)) ls [].

(** [node]'s live neighbors at one end, in staging order. *)
Definition stagedNbrs b (node : Z) (own other : Z * Z → Z) : res (list Z) :=
  foldM (λ out '(i, r),
    if decide (own r = node) then
      dead ← relRemoved b i; Ok (if dead : bool then out else out ++ [other r])
    else Ok out) (enum (rels b)) [].

Definition NeighborIDs b (node : Z) (dir : Direction) : res (list Z) :=
  outs ← (if decide (dir = Outgoing ∨ dir = Both) then stagedNbrs b node fst snd else Ok []);
  ins ← (if decide (dir = Incoming ∨ dir = Both) then stagedNbrs b node snd fst else Ok []);
  Ok (outs ++ ins).

End builder.
