(* ===== verification/BuilderInv.v ===== *)
(** The builder's invariant.

    What every staging operation keeps, on success and on error alike: the
    per-node arrays agree in length and cover every known node; the degree
    counters count the relationships that are not tombstoned; a relationship
    that is live has known endpoints; labels and staged property pairs belong
    to known nodes; relationship pairs address staged relationships; and the
    lazy lookup map, when built, maps each (source, target, type) to the first
    live relationship. Two facts follow for every sequence of operations: none
    panics, and address lookups find the first live match. *)

From S2P Require Import Prelude Value AtomTable NodeSet Builder.

(** ** Filters over indexed lists *)

Lemma filter_ext_in {A} (P Q : A → Prop) `{∀ x, Decision (P x), ∀ x, Decision (Q x)} (l : list A) :
  (∀ x, x ∈ l → P x ↔ Q x) → filter P l = filter Q l.
Proof.
  induction l as [|x l IH]; intros Hx; [done|]. rewrite !filter_cons.
  assert (P x ↔ Q x) as Hi by (apply Hx; by left).
  rewrite IH by (intros; apply Hx; by right). case_decide; case_decide; tauto || done.
Qed.

Lemma elem_of_enum {A} (l : list A) i x : (i, x) ∈ enum l ↔ 0 ≤ i ∧ l !! Z.to_nat i = Some x.
Proof.
  rewrite list_elem_of_lookup. split.
  - intros [k [-> Hk]%lookup_enum]. rewrite Nat2Z.id. split; [lia|done].
  - intros [Hi Hx]. exists (Z.to_nat i). apply lookup_enum. split; [lia|done].
Qed.

(** ** Live and dead relationships *)

Definition belowMark (marks : gmap Z Z) (i node : Z) : bool :=
  match marks !! node with Some wm => bool_decide (i < wm) | None => false end.

Definition dead (tomb : gset Z) (marks : gmap Z Z) (i : Z) (r : Z * Z) : bool :=
  bool_decide (i ∈ tomb) || belowMark marks i r.1 || belowMark marks i r.2.

(** How many relationships outside the tombstones have [v] at one end. *)
Definition degree (own : Z * Z → Z) (tomb : gset Z) (rels : list (Z * Z)) (v : Z) : Z :=
  len (filter (λ x : Z * (Z * Z), (fst x ∉ tomb) ∧ own x.2 = v) (enum rels)).

(** Relationship [j] is live and has this source, target and type. *)
Definition liveAt (tomb : gset Z) (marks : gmap Z Z) (rels : list (Z * Z)) (types : list Z)
    (key : Z * Z * Z) (j : Z) : bool :=
  match rels !! Z.to_nat j, types !! Z.to_nat j with
  | Some r, Some t => negb (dead tomb marks j r) && bool_decide (key = (r.1, r.2, t))
  | _, _ => false
  end.

Definition firstLive (tomb : gset Z) (marks : gmap Z Z) (rels : list (Z * Z)) (types : list Z)
    (key : Z * Z * Z) (i : Z) : Prop :=
  0 ≤ i ∧ liveAt tomb marks rels types key i = true ∧ ∀ j, 0 ≤ j < i → liveAt tomb marks rels types key j = false.

(** ** The invariant, by component *)

Definition degOK (own : Z * Z → Z) (deg : list Z) (tomb : gset Z) (rels : list (Z * Z)) : Prop :=
  ∀ v d, deg !! v = Some d → d = degree own tomb rels (Z.of_nat v).

Record relsOK (size : Z) (rels : list (Z * Z)) (types : list Z) (tomb : gset Z) (marks : gmap Z Z) (K : gset Z) : Prop := {
  ro_types : length types = length rels;
  ro_max : len rels ≤ MaxUint32;
  ro_ends : Forall (λ r, 0 ≤ r.1 < size ∧ 0 ≤ r.2 < size) rels;
  ro_tomb : ∀ i, i ∈ tomb → 0 ≤ i < len rels;
  ro_live : ∀ i r, 0 ≤ i → rels !! Z.to_nat i = Some r → dead tomb marks i r = false → r.1 ∈ K ∧ r.2 ∈ K;
  ro_marks : ∀ node wm, marks !! node = Some wm → wm ≤ len rels;
}.

Definition pairsOK {A} (P : Z * A → Prop) (m : colMap A) : Prop :=
  ∀ k ps, m !! k = Some ps → ps ≠ [] ∧ Forall P ps.

Record colsOK (P : Z → Prop) (c : typedCols) : Prop := {
  co_i64 : pairsOK (λ p, P p.1 ∧ is_i64 p.2) (colI64 c);
  co_f64 : pairsOK (λ p, P p.1) (colF64 c);
  co_bool : pairsOK (λ p, P p.1) (colBool c);
  co_str : pairsOK (λ p, P p.1) (colStr c);
}.

Definition labelsOK (labels : list (list Z)) (K : gset Z) : Prop :=
  ∀ v ls, labels !! v = Some ls → ls ≠ [] → Z.of_nat v ∈ K.

Definition indexOK (index : option (gmap (Z * Z * Z) Z)) (tomb : gset Z) (marks : gmap Z Z) rels types : Prop :=
  ∀ m, index = Some m → ∀ key i, m !! key = Some i ↔ firstLive tomb marks rels types key i.

Section invariant.
Context {bm Snap : Type} `{RoaringSetLaws bm}.
Implicit Types b : Builder bm Snap.

Definition tombs b : gset Z := match removedRels b with Some t => bmSet t | None => ∅ end.
Definition known b : gset Z := bmSet (knownNodes b).

Record wf_builder b : Prop := {
  wb_degIn_len : length (degIn b) = length (degOut b);
  wb_labels_len : length (nodeLabels b) = length (degOut b);
  wb_size : 0 < len (degOut b) ≤ MaxUint32;
  wb_known : ∀ x, x ∈ known b → 0 ≤ x < len (degOut b);
  wb_rels : relsOK (len (degOut b)) (rels b) (relTypes b) (tombs b) (removedNodes b) (known b);
  wb_degOut : degOK fst (degOut b) (tombs b) (rels b);
  wb_degIn : degOK snd (degIn b) (tombs b) (rels b);
  wb_labels : labelsOK (nodeLabels b) (known b);
  wb_nodeCols : colsOK (λ x, x ∈ known b) (nodeCols b);
  wb_relCols : colsOK (λ x, 0 ≤ x < len (rels b)) (relCols b);
  wb_index : indexOK (relIndex b) (tombs b) (removedNodes b) (rels b) (relTypes b);
  wb_next : is_u32 (nextNodeID b);
}.

End invariant.

(** ** Component lemmas *)

Lemma degree_bound own tomb rels v : 0 ≤ degree own tomb rels v ≤ len rels.
Proof.
  unfold degree. split; [apply len_nonneg|]. unfold len. rewrite <- (length_enum rels). apply Nat2Z.inj_le, length_filter.
Qed.

Lemma degree_app own tomb rels r v : (∀ i, i ∈ tomb → i < len rels) →
  degree own tomb (rels ++ [r]) v = degree own tomb rels v + (if decide (own r = v) then 1 else 0).
Proof.
  intros Ht. unfold degree. rewrite enum_app, filter_app, len_app. f_equal. rewrite filter_cons, filter_nil.
  assert (len rels ∉ tomb) as Hn by (intros Hi%Ht; lia). simpl.
  destruct (decide (own r = v)); [rewrite decide_True by done|rewrite decide_False by tauto]; done.
Qed.

Lemma degree_tomb own tomb rels i r v : 0 ≤ i → rels !! Z.to_nat i = Some r → i ∉ tomb →
  degree own tomb rels v = degree own ({[i]} ∪ tomb) rels v + (if decide (own r = v) then 1 else 0).
Proof.
  intros Hi Hr Hn. unfold degree.
  assert (enum rels !! Z.to_nat i = Some (i, r)) as He by (apply lookup_enum; split; [lia|done]).
  rewrite <- (take_drop_middle _ _ _ He), !filter_app, !filter_cons, !len_app. simpl.
  assert (∀ l : list (Z * (Z * Z)), (∀ j x, (j, x) ∈ l → j ≠ i) → filter (λ x : Z * (Z * Z), (fst x ∉ {[i]} ∪ tomb) ∧ own x.2 = v) l =
    filter (λ x, (fst x ∉ tomb) ∧ own x.2 = v) l) as Hext.
  { intros l Hl. apply filter_ext_in. intros [j x] Hx. simpl. specialize (Hl j x Hx). set_solver. }
  rewrite !Hext.
  - rewrite (decide_False (P := (i ∉ {[i]} ∪ tomb) ∧ _)) by set_solver.
    destruct (decide (own r = v)); [rewrite decide_True by done|rewrite decide_False by tauto]; rewrite ?len_cons; lia.
  - intros j x [k Hk]%list_elem_of_lookup. rewrite lookup_drop in Hk. apply lookup_enum in Hk as [-> _]. lia.
  - intros j x [k Hk]%list_elem_of_lookup. apply lookup_take_Some in Hk as [Hk Hlt].
    apply lookup_enum in Hk as [-> _]. lia.
Qed.

Lemma degree_out_of_range own tomb rels v size : Forall (λ r, 0 ≤ own r < size) rels → size ≤ v →
  degree own tomb rels v = 0.
Proof.
  intros HF Hv. unfold degree. rewrite (filter_ext_in _ (λ _, False)).
  - by induction (enum rels).
  - intros [i r] [_ Hr]%elem_of_enum. simpl. split; [|done]. intros [_ E].
    apply (Forall_lookup_1 _ _ _ _ HF) in Hr. simpl in Hr. lia.
Qed.

Lemma degOK_resize own deg tomb rels (n : nat) : degOK own deg tomb rels →
  Forall (λ r, 0 ≤ own r < len deg) rels → degOK own (resize n 0 deg) tomb rels.
Proof.
  intros Hd HF v d Hv. destruct (decide (v < length deg)%nat) as [D|D].
  - apply Hd. destruct (decide (v < n)%nat) as [D'|D'].
    + rewrite lookup_resize in Hv by done. done.
    + by rewrite lookup_resize_old in Hv by lia.
  - destruct (decide (v < n)%nat) as [D'|D'].
    + rewrite lookup_resize_new in Hv by lia. injection Hv as <-.
      by rewrite (degree_out_of_range _ _ _ _ (len deg)) by (done || unfold len; lia).
    + by rewrite lookup_resize_old in Hv by lia.
Qed.

Lemma degOK_bump own deg deg' tomb rels i r x d : degOK own deg tomb rels → bump deg (own r) d = Ok deg' →
  (∀ v, degree own tomb rels v + (if decide (own r = v) then d else 0) = degree own x i v) → len i ≤ MaxUint32 →
  degOK own deg' x i.
Proof.
  intros Hd Hb Hc Hlen v y Hy. unfold bump in Hb. destruct (idx deg (own r)) as [z| |] eqn:Ez; [|done|done].
  simpl in Hb. unfold upd in Hb. case_decide as D; [|done]. injection Hb as <-.
  unfold idx in Ez. rewrite decide_False in Ez by lia. destruct (deg !! Z.to_nat (own r)) as [z'|] eqn:E'; [|done].
  injection Ez as ->. specialize (Hc (Z.of_nat v)). pose proof (degree_bound own x i (Z.of_nat v)).
  destruct (decide (v = Z.to_nat (own r))) as [->|Nv].
  - rewrite list_lookup_insert_eq in Hy by (by eapply lookup_lt_Some). injection Hy as <-.
    apply Hd in E' as ->. rewrite decide_True in Hc by lia. rewrite wrapU_small by lia. lia.
  - rewrite list_lookup_insert_ne in Hy by done. apply Hd in Hy as ->. rewrite decide_False in Hc by lia. lia.
Qed.

Lemma bump_ok deg i d : 0 ≤ i < len deg → ∃ deg', bump deg i d = Ok deg' ∧ length deg' = length deg.
Proof.
  intros Hi. unfold bump. destruct (lookup_lt_is_Some_2 deg (Z.to_nat i)) as [x Hx]; [unfold len in Hi; lia|].
  rewrite (idx_lookup _ _ x) by (lia || done). simpl. unfold upd. rewrite decide_True by done. eexists.
  split; [done|]. apply length_insert.
Qed.

Lemma pairsOK_empty {A} (P : Z * A → Prop) : pairsOK P ∅.
Proof. intros k ps. by rewrite lookup_empty. Qed.

Lemma pairsOK_impl {A} (P Q : Z * A → Prop) m : (∀ p, P p → Q p) → pairsOK P m → pairsOK Q m.
Proof. intros HPQ Hm k ps Hk. destruct (Hm k ps Hk) as [? HF]. split; [done|]. by eapply Forall_impl. Qed.

Lemma pairsOK_append {A} (P : Z * A → Prop) m key p : pairsOK P m → P p → pairsOK P (appendPair key p m).
Proof.
  intros Hm Hp k ps. unfold appendPair. rewrite lookup_insert. case_decide as D; [|apply Hm].
  intros [= <-]. split; [by intros [_ ?]%app_nil|]. apply Forall_app. split; [|by repeat constructor].
  destruct (m !! key) as [ps|] eqn:E; simpl; [by apply (Hm key)|constructor].
Qed.

(** A sweep keeps what holds of the pairs, and none of the swept id is left. *)
Lemma pairsOK_sweep {A} (P : Z * A → Prop) (m : colMap A) key id : pairsOK P m →
  pairsOK P (sweepPairs m key id).1 ∧
  ∀ k, (sweepPairs m key id).1 !! k = if decide (k = key) then
      match filter (λ p, p.1 ≠ id) (default [] (m !! k)) with [] => None | ps => Some ps end
    else m !! k.
Proof.
  intros Hm. unfold sweepPairs, removeAllPairs. destruct (m !! key) as [pairs|] eqn:E; simpl.
  2: { split; [done|]. intros k. case_decide as D; [subst; by rewrite E|done]. }
  destruct (Hm _ _ E) as [_ HF]. destruct (filter (λ p, p.1 ≠ id) pairs) as [|q qs] eqn:Ef; simpl.
  - split.
    + intros k ps. rewrite lookup_delete_Some. intros [_ Hk]. by apply Hm in Hk.
    + intros k. case_decide as D; [subst; rewrite lookup_delete_eq, E; simpl; by rewrite Ef|].
      by rewrite lookup_delete_ne by done.
  - split.
    + intros k ps. rewrite lookup_insert. case_decide as D; [|by apply Hm]. intros [= <-]. split; [done|].
      rewrite <- Ef. apply Forall_forall. intros p [_ Hp]%list_elem_of_filter. rewrite Forall_forall in HF. by apply HF.
    + intros k. rewrite lookup_insert. repeat case_decide; subst; try done. rewrite E. simpl. by rewrite Ef.
Qed.

Lemma colsOK_impl (P Q : Z → Prop) c : (∀ x, P x → Q x) → colsOK P c → colsOK Q c.
Proof.
  intros HPQ [Hi Hf Hb Hs]. split; [eapply pairsOK_impl; [|exact Hi]|eapply pairsOK_impl; [|exact Hf]|
    eapply pairsOK_impl; [|exact Hb]|eapply pairsOK_impl; [|exact Hs]]; naive_solver.
Qed.

Lemma colsOK_stage (P : Z → Prop) c key id v : colsOK P c → P id → colsOK P (stagePair key id v c).
Proof.
  intros [Hi Hf Hb Hs] Hid. unfold stagePair. destruct (Kind v); split; simpl; try done;
    apply pairsOK_append; simpl; try done. split; [done|]. apply (wrapS_range 64). lia.
Qed.

Lemma colsOK_sweepAll (P : Z → Prop) c key id : colsOK P c → colsOK P (sweepAll c key id).1.
Proof.
  intros [Hi Hf Hb Hs]. apply (pairsOK_sweep _ _ key id) in Hi as [Hi _], Hf as [Hf _], Hb as [Hb _], Hs as [Hs _].
  unfold sweepAll. by do 4 destruct (sweepPairs _ key id).
Qed.

(** ** The specification of operations

    From a state satisfying [P] the operation does not panic; on success [Q]
    holds of the result and the new state, on an error the invariant holds. *)

Section spec.
Context {bm Snap : Type} `{RoaringSetLaws bm}.
Implicit Types b : Builder bm Snap.

Definition spec {A} (P : Builder bm Snap → Prop) (m : M A) (Q : A → Builder bm Snap → Prop) : Prop :=
  ∀ b, P b → ∃ r b', m b = Ok (r, b') ∧ match r with inl a => Q a b' | inr _ => wf_builder b' end.

Lemma rule_ret {A} (P : Builder bm Snap → Prop) (a : A) Q : (∀ b, P b → Q a b) → spec P (mret a) Q.
Proof. intros HPQ b Hb. exists (inl a), b. by split; [|apply HPQ]. Qed.

Lemma rule_bind {A B} P (m : M A) (f : A → M B) R Q :
  spec P m R → (∀ a, spec (R a) (f a) Q) → spec P (m ≫= f) Q.
Proof.
  intros Hm Hf b Hb. destruct (Hm b Hb) as (r & b1 & E & Hr). unfold mbind, M_bind. rewrite E. simpl.
  destruct r as [a|e]; [by apply Hf|]. by exists (inr e), b1.
Qed.

Lemma bind_ok {A B} (m : M A) (f : A → M B) b a b1 : m b = Ok (inl a, b1) → (m ≫= f) b = f a b1.
Proof. unfold mbind, M_bind. by intros ->. Qed.

Lemma rule_get P Q : (∀ b, P b → Q b b) → spec P get Q.
Proof. intros HPQ b Hb. exists (inl b), b. by split; [|apply HPQ]. Qed.

Lemma spec_modify P f Q : (∀ b, P b → Q () (f b)) → spec P (modify f) Q.
Proof. intros HPQ b Hb. exists (inl ()), (f b). by split; [|apply HPQ]. Qed.

Lemma rule_fail {A} P e (Q : A → Builder bm Snap → Prop) : (∀ b, P b → wf_builder b) → spec P (fail e) Q.
Proof. intros HP b Hb. exists (inr e), b. by split; [|apply HP]. Qed.

Lemma rule_lift {A} P (r : res A) Q : (∀ b, P b → ∃ a, r = Ok a ∧ Q a b) → spec P (lift r) Q.
Proof. intros HP b Hb. destruct (HP b Hb) as (a & -> & Hq). by exists (inl a), b. Qed.

Lemma spec_pre {A} (P P' : Builder bm Snap → Prop) (m : M A) Q : (∀ b, P b → P' b) → spec P' m Q → spec P m Q.
Proof. intros HP Hm b Hb. by apply Hm, HP. Qed.

Lemma spec_post {A} P (m : M A) (Q Q' : A → Builder bm Snap → Prop) :
  (∀ a b, Q a b → Q' a b) → spec P m Q → spec P m Q'.
Proof.
  intros HQ Hm b Hb. destruct (Hm b Hb) as (r & b' & E & Hr). exists r, b'. split; [done|]. destruct r; [by apply HQ|done].
Qed.

(** Reading the state: the rest may be proved for one fixed state. *)
Lemma spec_read {B} P (f : Builder bm Snap → M B) Q : (∀ b, P b → spec (λ b', b' = b) (f b) Q) → spec P (get ≫= f) Q.
Proof. intros Hf b Hb. unfold mbind, M_bind, get. simpl. by apply (Hf b Hb). Qed.

Lemma spec_forM {A} (I : Builder bm Snap → Prop) (l : list A) body :
  (∀ x, x ∈ l → spec I (body x) (λ _, I)) → spec I (forM l body) (λ _, I).
Proof.
  induction l as [|x l IH]; intros Hb; [by apply rule_ret|].
  apply (rule_bind I (body x) (λ _, forM l body) (λ _, I)); [apply Hb; by left|]. intros _. apply IH.
  intros y Hy. apply Hb. by right.
Qed.

(** ** Small steps *)

(** A change of the fields the invariant does not read. *)
Ltac same_fields := let H := fresh in intros H; destruct H; split; assumption.

Lemma wf_interner_change i b : wf_builder b → wf_builder (set_interner i b).
Proof. same_fields. Qed.
Lemma wf_version_change v b : wf_builder b → wf_builder (set_version v b).
Proof. same_fields. Qed.
Lemma wf_dirty b D1 D2 D3 r l : wf_builder b →
  wf_builder (set_dirtyNodeCols D1 b) ∧ wf_builder (set_dirtyRelCols D2 b) ∧ wf_builder (set_dirtyLabels D3 b) ∧
  wf_builder (set_srcRelToOutCSR l (set_relsDirty r b)).
Proof. intros Hb. split_and!; revert Hb; same_fields. Qed.

(** The staged graph without its bookkeeping: what the marks and the interner
    do not touch. *)
Definition sameGraph b b' : Prop :=
  degOut b' = degOut b ∧ degIn b' = degIn b ∧ rels b' = rels b ∧ nodeLabels b' = nodeLabels b ∧
  relTypes b' = relTypes b ∧ nodeCols b' = nodeCols b ∧ relCols b' = relCols b ∧ nextNodeID b' = nextNodeID b ∧
  knownNodes b' = knownNodes b ∧ relIndex b' = relIndex b ∧ removedRels b' = removedRels b ∧
  removedNodes b' = removedNodes b.

Lemma sameGraph_wf b b' : sameGraph b b' → wf_builder b → wf_builder b'.
Proof.
  intros (E1 & E2 & E3 & E4 & E5 & E6 & E7 & E8 & E9 & E10 & E11 & E12) [].
  split; unfold known, tombs in *; congruence || (rewrite ?E1, ?E2, ?E3, ?E4, ?E5, ?E6, ?E7, ?E8, ?E9, ?E10, ?E11, ?E12; done).
Qed.

Lemma sameGraph_refl b : sameGraph b b.
Proof. by repeat split. Qed.
Lemma sameGraph_trans b1 b2 b3 : sameGraph b1 b2 → sameGraph b2 b3 → sameGraph b1 b3.
Proof. unfold sameGraph. intuition congruence. Qed.

(** An operation that only keeps books. *)
Definition quiet {A} (m : M A) : Prop := ∀ b, ∃ a b', m b = Ok (inl a, b') ∧ sameGraph b b'.

Lemma quiet_spec {A} (m : M A) (I : Builder bm Snap → Prop) : quiet m →
  (∀ b b', sameGraph b b' → I b → I b') → spec I m (λ _, I).
Proof. intros Hq HI b Hb. destruct (Hq b) as (a & b' & E & Hs). exists (inl a), b'. split; [done|]. by eapply HI. Qed.

Lemma quiet_intern s : quiet (intern s).
Proof.
  intros b. unfold intern, get, modify, mret, M_ret, mbind, M_bind. simpl.
  destruct (GetOrIntern (interner b) s) as [id i]. simpl. eexists _, _. split; [done|]. by repeat split.
Qed.
Lemma quiet_markNodeColDirty k : quiet (markNodeColDirty k).
Proof. intros b. unfold markNodeColDirty, modify. eexists _, _. split; [done|]. destruct (hasSrc b); by repeat split. Qed.
Lemma quiet_markRelColDirty k : quiet (markRelColDirty k).
Proof. intros b. unfold markRelColDirty, modify. eexists _, _. split; [done|]. destruct (hasSrc b); by repeat split. Qed.
Lemma quiet_markLabelDirty k : quiet (markLabelDirty k).
Proof. intros b. unfold markLabelDirty, modify. eexists _, _. split; [done|]. destruct (hasSrc b); by repeat split. Qed.
Lemma quiet_markRelsDirty : quiet markRelsDirty.
Proof. intros b. unfold markRelsDirty, modify. eexists _, _. split; [done|]. destruct (hasSrc b); by repeat split. Qed.

Lemma quiet_bind {A B} (m : M A) (f : A → M B) : quiet m → (∀ a, quiet (f a)) → quiet (m ≫= f).
Proof.
  intros Hm Hf b. destruct (Hm b) as (a & b1 & E & Hs). destruct (Hf a b1) as (c & b2 & E2 & Hs2).
  exists c, b2. unfold mbind, M_bind. rewrite E. simpl. split; [done|]. by eapply sameGraph_trans.
Qed.
Lemma quiet_ret {A} (a : A) : quiet (mret a).
Proof. intros b. by exists a, b. Qed.
Lemma quiet_if {A} (c : bool) (m1 m2 : M A) : quiet m1 → quiet m2 → quiet (if c then m1 else m2).
Proof. by destruct c. Qed.
Lemma quiet_forM {A} (l : list A) body : (∀ x, quiet (body x)) → quiet (forM l body).
Proof. intros Hb. induction l as [|x l IH]; [apply quiet_ret|]. apply quiet_bind; [apply Hb|done]. Qed.

End spec.

Create HintDb quiet.
#[export] Hint Resolve quiet_intern quiet_markNodeColDirty quiet_markRelColDirty quiet_markLabelDirty
  quiet_markRelsDirty quiet_bind quiet_ret quiet_if quiet_forM : quiet.

(** ** Nodes *)

Section operations.
Context {bm Snap : Type} `{RoaringSetLaws bm}.
Implicit Types b : Builder bm Snap.

Definition wf_pre : Builder bm Snap → Prop := wf_builder.

Lemma relsOK_mono size size' rels types tomb marks (K K' : gset Z) : size ≤ size' → K ⊆ K' →
  relsOK size rels types tomb marks K → relsOK size' rels types tomb marks K'.
Proof.
  intros Hs HK [Ht Hm He Hto Hl Hma]. split; try done.
  - eapply Forall_impl; [exact He|]. simpl. lia.
  - intros i r Hi Hr Hd. destruct (Hl i r Hi Hr Hd). set_solver.
Qed.

Lemma lookup_resize_inv {A} (l : list A) (n : nat) x v y : resize n x l !! v = Some y → l !! v = Some y ∨ y = x.
Proof.
  intros Hv. destruct (decide (v < n)%nat) as [D|D]; [|by rewrite lookup_resize_old in Hv by lia].
  destruct (decide (v < length l)%nat); [rewrite lookup_resize in Hv by done; by left|].
  rewrite lookup_resize_new in Hv by lia. right. congruence.
Qed.

Definition grown (n : Z) b : Builder bm Snap :=
  set_nodeLabels (resize (Z.to_nat n) [] (nodeLabels b))
    (set_degIn (resize (Z.to_nat n) 0 (degIn b)) (set_degOut (resize (Z.to_nat n) 0 (degOut b)) b)).

Lemma wf_grow b n : wf_builder b → len (degOut b) ≤ n ≤ MaxUint32 → wf_builder (grown n b).
Proof.
  intros [Hdi Hll Hsz Hk Hr Hdo Hdn Hlab Hnc Hrc Hix Hnx] Hn. unfold len in *.
  assert (length (resize (Z.to_nat n) 0 (degOut b)) = Z.to_nat n) as El by apply length_resize.
  split; unfold grown, known, tombs, len in *; simpl; rewrite ?El, ?length_resize; try done; try lia.
  - intros x Hx. specialize (Hk x Hx). lia.
  - eapply relsOK_mono; [| |exact Hr]; [lia|done].
  - apply degOK_resize; [done|]. eapply Forall_impl; [apply Hr|]. unfold len. simpl. lia.
  - apply degOK_resize; [done|]. eapply Forall_impl; [apply Hr|]. unfold len. simpl. lia.
  - intros v ls Hv Hne. apply lookup_resize_inv in Hv as [Hv|]; [by eapply Hlab|done].
Qed.

Lemma spec_ensureCapacity id : is_u32 id →
  spec wf_pre (ensureCapacity id) (λ _ b, wf_builder b ∧ 0 ≤ id < len (degOut b)).
Proof.
  intros Hid. apply spec_read. intros b Hb. cbv beta. case_decide as D.
  { apply rule_ret. intros b' ->. split; [done|lia]. }
  cbv zeta. case_decide as D1; [apply rule_fail; by intros b' ->|].
  apply spec_modify. intros b' ->.
  change (set_nodeLabels _ _) with (grown (Z.min ((id + 1) * 2) 4294967295) b).
  split; [apply wf_grow; [done|lia]|]. unfold grown, len. simpl. rewrite length_resize. lia.
Qed.

Definition withKnown (id : Z) b : Builder bm Snap := set_knownNodes (bmAdd (knownNodes b) id) b.

Lemma wf_withKnown id b : wf_builder b → 0 ≤ id < len (degOut b) → wf_builder (withKnown id b).
Proof.
  intros [Hdi Hll Hsz Hk Hr Hdo Hdn Hlab Hnc Hrc Hix Hnx] Hid.
  assert (known (withKnown id b) = {[id]} ∪ known b) as EK by (unfold known, withKnown; simpl; apply bm_add).
  split; rewrite ?EK; try done.
  - intros x [->%elem_of_singleton|Hx]%elem_of_union; [done|by apply Hk].
  - eapply relsOK_mono; [| |exact Hr]; [done|set_solver].
  - intros v ls Hv Hne. apply elem_of_union. right. by eapply Hlab.
  - eapply colsOK_impl; [|exact Hnc]. set_solver.
Qed.

Lemma withKnown_twice id b : knownNodes (withKnown id b) = bmAdd (knownNodes b) id.
Proof. done. Qed.

Lemma sameGraph_withKnown id b b' : sameGraph b b' → sameGraph (withKnown id b) (withKnown id b').
Proof. unfold sameGraph, withKnown. simpl. intuition congruence. Qed.

Lemma spec_quiet_wf {A} (m : M A) : quiet m → spec wf_pre m (λ _, wf_pre).
Proof. intros Hq. apply quiet_spec; [done|]. intros b b'. apply sameGraph_wf. Qed.

(** Adding a label keeps the invariant of the state in which the node is known. *)
Lemma spec_addLabel id l : 0 ≤ id →
  spec (λ b, wf_builder (withKnown id b) ∧ id < len (degOut b)) (addLabel id l)
    (λ _ b, wf_builder (withKnown id b) ∧ id < len (degOut b)).
Proof.
  intros Hid. unfold addLabel.
  set (I := λ b, wf_builder (withKnown id b) ∧ id < len (degOut b)).
  assert (∀ b b', sameGraph b b' → I b → I b') as HI.
  { intros b b' Hs [Hw Hl]. split; [eapply sameGraph_wf; [|exact Hw]; by apply sameGraph_withKnown|].
    destruct Hs as [-> _]. done. }
  eapply rule_bind; [by apply quiet_spec; [auto with quiet|exact HI]|]. intros label.
  apply spec_read. intros b [Hw Hl].
  destruct (lookup_lt_is_Some_2 (nodeLabels b) (Z.to_nat id)) as [ls Els].
  { rewrite (wb_labels_len _ Hw : length (nodeLabels b) = length (degOut b)). unfold len in Hl. lia. }
  eapply rule_bind; [apply (rule_lift _ _ (λ a b', a = ls ∧ b' = b)); intros b' ->; exists ls;
    by rewrite (idx_lookup _ _ ls) by (lia || done)|].
  intros a.
  eapply rule_bind with (R := λ labels b', a = ls ∧ b' = b ∧ labels = <[Z.to_nat id := ls ++ [label]]> (nodeLabels b)).
  { apply rule_lift. intros b' [-> ->]. unfold upd. rewrite decide_True; [by eexists|].
    apply lookup_lt_Some in Els. unfold len. lia. }
  intros labels. eapply rule_bind with (R := λ _, I).
  { apply spec_modify. intros b' (-> & -> & ->). split; [|done].
    destruct Hw as [Hdi Hll Hsz Hk Hr Hdo Hdn Hlab Hnc Hrc Hix Hnx]. unfold withKnown in *. simpl in *.
    split; simpl; try done; [by rewrite length_insert|].
    intros v ls' Hv Hne. destruct (decide (v = Z.to_nat id)) as [->|Nv].
    - unfold known. simpl. rewrite bm_add. rewrite Z2Nat.id by done. set_solver.
    - rewrite list_lookup_insert_ne in Hv by done. by eapply Hlab. }
  intros ?. apply quiet_spec; [auto with quiet|exact HI].
Qed.

Lemma spec_addKnown id : spec (λ b, wf_builder (withKnown id b)) (addKnown id) (λ _, wf_pre).
Proof. apply spec_modify. intros b Hb. exact Hb. Qed.

Lemma spec_addNodeAt id labels : is_u32 id → spec wf_pre (addNodeAt id labels) (λ _, wf_pre).
Proof.
  intros Hid. unfold addNodeAt. eapply rule_bind; [by apply spec_ensureCapacity|]. intros ?.
  eapply rule_bind.
  { eapply spec_pre; [|apply (spec_forM (λ b, wf_builder (withKnown id b) ∧ id < len (degOut b)))].
    - intros b [Hw Hl]. split; [by apply wf_withKnown|lia].
    - intros l _. apply spec_addLabel. lia. }
  intros ?. eapply rule_bind; [eapply spec_pre; [|apply spec_addKnown]; by intros b [? _]|].
  intros ?. by apply rule_ret.
Qed.

Lemma wf_next b id : wf_builder b → wf_builder (set_nextNodeID (to_u32 id) b).
Proof. intros []. split; try done. simpl. apply (wrapU_range 32). lia. Qed.

Lemma spec_AddNode labels : spec wf_pre (AddNode labels) (λ _, wf_pre).
Proof.
  apply spec_read. intros b Hb. cbv zeta. case_decide as D; [apply rule_fail; by intros b' ->|].
  eapply rule_bind with (R := λ _, wf_pre); [apply spec_modify; intros b' ->; by apply wf_next|]. intros ?.
  apply spec_addNodeAt, Hb.
Qed.

Lemma spec_AddNodeWithID id labels : is_u32 id → spec wf_pre (AddNodeWithID id labels) (λ _, wf_pre).
Proof.
  intros Hid. apply spec_read. intros b Hb. eapply rule_bind with (R := λ _, wf_pre); [|intros ?; by apply spec_addNodeAt].
  case_decide; [apply spec_modify|apply rule_ret]; intros b' ->; [by apply wf_next|done].
Qed.


(** ** Relationships *)

Lemma firstLive_exists tomb marks rels types key j : 0 ≤ j → liveAt tomb marks rels types key j = true →
  ∃ i, i ≤ j ∧ firstLive tomb marks rels types key i.
Proof.
  intros Hj. rewrite <- (Z2Nat.id j) by done. induction (Z.to_nat j) as [k IH] using lt_wf_ind. intros Hl.
  destruct (decide (Exists (λ i, liveAt tomb marks rels types key i = true) (zseq (Z.of_nat k)))) as [D|D].
  - apply Exists_exists in D as (i & Hi%elem_of_zseq & El).
    destruct (IH (Z.to_nat i)) as (i' & Hle & Hf); [lia|by rewrite Z2Nat.id by lia|]. exists i'. split; [lia|done].
  - exists (Z.of_nat k). split; [done|]. split; [lia|]. split; [done|]. intros i Hi. apply not_true_is_false.
    intros El. apply D, Exists_exists. exists i. split; [|done]. by apply elem_of_zseq.
Qed.

Lemma firstLive_unique tomb marks rels types key i j : firstLive tomb marks rels types key i →
  firstLive tomb marks rels types key j → i = j.
Proof.
  intros (Hi & Ei & Fi) (Hj & Ej & Fj). destruct (Z.lt_trichotomy i j) as [D|[D|D]]; [|done|].
  - rewrite Fj in Ei by lia. done.
  - rewrite Fi in Ej by lia. done.
Qed.

Lemma liveAt_range tomb marks rels types key j : 0 ≤ j → liveAt tomb marks rels types key j = true → j < len rels.
Proof.
  unfold liveAt. intros Hj. destruct (rels !! Z.to_nat j) eqn:E; [|done]. apply lookup_lt_Some in E. unfold len. lia.
Qed.

Lemma liveAt_app_old tomb marks rels types key r t j : length types = length rels → 0 ≤ j < len rels →
  liveAt tomb marks (rels ++ [r]) (types ++ [t]) key j = liveAt tomb marks rels types key j.
Proof. intros Hl Hj. unfold liveAt. by rewrite !lookup_app_l by (unfold len in Hj; lia). Qed.

Lemma dead_fresh tomb marks (n : Z) r : (∀ i, i ∈ tomb → i < n) → (∀ v wm, marks !! v = Some wm → wm ≤ n) →
  dead tomb marks n r = false.
Proof.
  intros Ht Hm. unfold dead. rewrite bool_decide_eq_false_2 by (intros Hn%Ht; lia). simpl.
  assert (∀ v, belowMark marks n v = false) as Hb.
  { intros v. unfold belowMark. destruct (marks !! v) eqn:E; [|done]. apply Hm in E. apply bool_decide_eq_false_2. lia. }
  by rewrite !Hb.
Qed.

Lemma liveAt_app_new tomb marks rels types key r t : length types = length rels →
  (∀ i, i ∈ tomb → i < len rels) → (∀ v wm, marks !! v = Some wm → wm ≤ len rels) →
  liveAt tomb marks (rels ++ [r]) (types ++ [t]) key (len rels) = bool_decide (key = (r.1, r.2, t)).
Proof.
  intros Hl Ht Hm. unfold liveAt. rewrite to_nat_len, lookup_app_r, Nat.sub_diag by lia.
  rewrite lookup_app_r, Hl, Nat.sub_diag by lia. simpl. by rewrite dead_fresh.
Qed.

Lemma firstLive_app tomb marks rels types key r t i : length types = length rels →
  (∀ i, i ∈ tomb → i < len rels) → (∀ v wm, marks !! v = Some wm → wm ≤ len rels) →
  firstLive tomb marks (rels ++ [r]) (types ++ [t]) key i ↔
  firstLive tomb marks rels types key i ∨
  (i = len rels ∧ key = (r.1, r.2, t) ∧ ∀ j, ¬ firstLive tomb marks rels types key j).
Proof.
  intros Hl Ht Hm. pose proof (liveAt_app_new tomb marks rels types key r t Hl Ht Hm) as Hnew.
  assert (∀ j, 0 ≤ j < len rels → liveAt tomb marks (rels ++ [r]) (types ++ [t]) key j = liveAt tomb marks rels types key j) as Hold
    by (intros; by apply liveAt_app_old). split.
  - intros (Hi & El & Hf). apply liveAt_range in El as Hr; [|done]. rewrite len_app in Hr. change (len [r]) with 1 in Hr.
    destruct (decide (i = len rels)) as [->|Ni].
    + right. split; [done|]. rewrite Hnew in El. apply bool_decide_eq_true in El. split; [done|].
      intros j (Hj & Ej & _). apply liveAt_range in Ej as Hrj; [|done]. rewrite <- Hold, Hf in Ej by lia. done.
    + left. split; [done|]. rewrite Hold in El by lia. split; [done|]. intros j Hj. rewrite <- Hold by lia. by apply Hf.
  - intros [(Hi & El & Hf)|(-> & Hk & Hno)].
    + apply liveAt_range in El as Hr; [|done]. split; [done|]. split; [by rewrite Hold|].
      intros j Hj. rewrite Hold by lia. by apply Hf.
    + split; [apply len_nonneg|]. split; [rewrite Hnew; by apply bool_decide_eq_true|]. intros j Hj.
      rewrite Hold by done. apply not_true_is_false. intros Ej.
      destruct (firstLive_exists _ _ _ _ _ j ltac:(lia) Ej) as (i & _ & Hf). by apply (Hno i).
Qed.

Lemma relRemovedIn_ok (rr : option bm) marks rels i r : is_u32 i → rels !! Z.to_nat i = Some r →
  relRemovedIn rr marks rels i = Ok (dead (match rr with Some t => bmSet t | None => ∅ end) marks i r).
Proof.
  intros Hi Hr. unfold relRemovedIn, dead. rewrite wrapU_small by lia.
  assert ((match rr with Some t => bmContains t i | None => false end) =
    bool_decide (i ∈ match rr with Some t => bmSet t | None => ∅ end)) as ->.
  { destruct rr; [apply bm_contains|]. symmetry. apply bool_decide_eq_false_2. set_solver. }
  case_bool_decide as D; [done|]. simpl. case_decide as D1.
  { subst marks. unfold belowMark. by rewrite !lookup_empty. }
  rewrite (idx_lookup _ _ r) by (lia || done). cbn [mbind res_bind]. fold (belowMark marks i r.1) (belowMark marks i r.2).
  by destruct (belowMark marks i r.1), (belowMark marks i r.2).
Qed.

Lemma relRemoved_ok b i r : wf_builder b → 0 ≤ i → rels b !! Z.to_nat i = Some r →
  relRemoved b i = Ok (dead (tombs b) (removedNodes b) i r).
Proof.
  intros Hw Hi Hr. apply relRemovedIn_ok; [|done]. apply lookup_lt_Some in Hr. pose proof (ro_max _ _ _ _ _ _ (wb_rels _ Hw)).
  unfold len in *. lia.
Qed.

Definition indexAdd (u v t i : Z) (index : option (gmap (Z * Z * Z) Z)) : option (gmap (Z * Z * Z) Z) :=
  match index with
  | None => None
  | Some m => Some (match m !! (u, v, t) with Some _ => m | None => <[(u, v, t) := i]> m end)
  end.

Definition addedRel (u v t : Z) (dOut dIn : list Z) b : Builder bm Snap :=
  set_relIndex (indexAdd u v t (len (rels b)) (relIndex b))
    (set_knownNodes (bmAdd (bmAdd (knownNodes b) u) v)
      (set_relTypes (relTypes b ++ [t]) (set_rels (rels b ++ [(u, v)]) (set_degIn dIn (set_degOut dOut b))))).

Lemma wf_addedRel u v t dOut dIn b : wf_builder b → 0 ≤ u < len (degOut b) → 0 ≤ v < len (degOut b) →
  len (rels b) < MaxUint32 → bump (degOut b) u 1 = Ok dOut → bump (degIn b) v 1 = Ok dIn →
  wf_builder (addedRel u v t dOut dIn b).
Proof.
  intros [Hdi Hll Hsz Hk [Rt Rm Re Rto Rl Rma] Hdo Hdn Hlab Hnc Hrc Hix Hnx] Hu Hv Hmax Eo Ei.
  assert (length dOut = length (degOut b)) as Lo.
  { destruct (bump_ok (degOut b) u 1 Hu) as (d & E & L). congruence. }
  assert (length dIn = length (degIn b)) as Li.
  { destruct (bump_ok (degIn b) v 1) as (d & E & L); [unfold len in *; lia|]. congruence. }
  assert (len (rels b ++ [(u, v)]) = len (rels b) + 1) as Ln by (by rewrite len_app).
  assert (known (addedRel u v t dOut dIn b) = {[v]} ∪ ({[u]} ∪ known b)) as EK.
  { unfold known, addedRel. simpl. by rewrite !bm_add. }
  assert (∀ own tomb, (∀ i, i ∈ tomb → 0 ≤ i < len (rels b)) → ∀ w,
    degree own tomb (rels b) w + (if decide (own (u, v) = w) then 1 else 0) = degree own tomb (rels b ++ [(u, v)]) w) as Hdeg.
  { intros own tomb Ht w. rewrite degree_app; [done|]. intros i Hi. apply Ht in Hi. lia. }
  split; rewrite ?EK; unfold addedRel, tombs in *; cbn [degOut degIn rels nodeLabels relTypes nodeCols relCols nextNodeID
    relIndex removedRels removedNodes set_relIndex set_knownNodes set_relTypes set_rels set_degIn set_degOut].
  - lia.
  - lia.
  - unfold len in *. lia.
  - intros x. rewrite !elem_of_union, !elem_of_singleton. unfold len in *. rewrite Lo. intros [->|[->|Hx]]; [lia..|]. by apply Hk.
  - split; rewrite ?Ln; try lia.
    + rewrite !length_app. simpl. lia.
    + apply Forall_app. split; [|repeat constructor; simpl; unfold len in *; lia].
      eapply Forall_impl; [exact Re|]. unfold len in *. simpl. lia.
    + intros i Hi%Rto. lia.
    + intros i r Hi Hr Hd. rewrite !elem_of_union, !elem_of_singleton.
      destruct (decide (i = len (rels b))) as [->|Ni].
      * rewrite to_nat_len, lookup_app_r, Nat.sub_diag in Hr by lia. injection Hr as <-. simpl. tauto.
      * assert (i < len (rels b)). { apply lookup_lt_Some in Hr. rewrite length_app in Hr. simpl in Hr. unfold len in *. lia. }
        rewrite lookup_app_l in Hr by (unfold len in *; lia). destruct (Rl i r Hi Hr Hd). tauto.
    + intros node wm Hwm%Rma. lia.
  - eapply (degOK_bump fst (degOut b) dOut _ (rels b) _ (u, v)); [exact Hdo|exact Eo|by apply Hdeg|lia].
  - eapply (degOK_bump snd (degIn b) dIn _ (rels b) _ (u, v)); [exact Hdn|exact Ei|by apply Hdeg|lia].
  - intros w ls Hw Hne. rewrite !elem_of_union. right. right. by eapply Hlab.
  - eapply colsOK_impl; [|exact Hnc]. set_solver.
  - eapply colsOK_impl; [|exact Hrc]. simpl. rewrite Ln. lia.
  - intros m' Em key i. destruct (relIndex b) as [m|]; [|done]. simpl in Em. specialize (Hix m eq_refl).
    rewrite firstLive_app; [|done|by intros j Hj%Rto; lia|done]. injection Em as <-. cbn [fst snd].
    destruct (m !! (u, v, t)) as [j|] eqn:Ej.
    + rewrite Hix. split; [by left|]. intros [?|(_ & -> & Hno)]; [done|]. apply Hix in Ej. by destruct (Hno j).
    + rewrite lookup_insert. case_decide as D.
      * subst key. split.
        -- intros [= <-]. right. split_and!; [done..|]. intros j Hj%Hix. congruence.
        -- intros [Hf%Hix|(-> & _)]; [congruence|done].
      * rewrite Hix. split; [by left|]. intros [?|(_ & ? & _)]; [done|congruence].
  - done.
Qed.

Lemma spec_addRelTyped u v t : is_u32 u → is_u32 v → spec wf_pre (addRelTyped u v t) (λ _, wf_pre).
Proof.
  intros Hu Hv. unfold addRelTyped. eapply rule_bind; [apply spec_ensureCapacity; lia|]. intros ?.
  apply spec_read. intros b [Hw Hl]. case_decide as D; [apply rule_fail; by intros b' ->|].
  destruct (bump_ok (degOut b) u 1) as (dO & Eo & _); [lia|].
  destruct (bump_ok (degIn b) v 1) as (dI & Ei & _); [pose proof (wb_degIn_len _ Hw); unfold len in *; lia|].
  intros b0 ->. rewrite Eo, Ei. unfold lift, addKnown, modify, markRelsDirty, mret, M_ret, mbind, M_bind. cbn.
  assert (wf_builder (addedRel u v t dO dI b)) as Hw' by (apply wf_addedRel; done || lia).
  assert (indexAdd u v t (len (rels b)) (relIndex b) = indexAdd u v t (len (rels b)) (relIndex b)) as Ex by done.
  unfold indexAdd at 2 in Ex. destruct (relIndex b) as [m|] eqn:Er; [destruct (m !! (u, v, t)) eqn:Em|];
    (eexists (inl (len (rels b))), _; split; [done|]); simpl; (eapply sameGraph_wf; [|exact Hw']);
    unfold sameGraph, addedRel; simpl; rewrite Er, Ex; destruct (hasSrc b); by repeat split.
Qed.

Lemma spec_AddRel u v relType : is_u32 u → is_u32 v → spec wf_pre (AddRel u v relType) (λ _, wf_pre).
Proof.
  intros Hu Hv. eapply rule_bind; [apply spec_quiet_wf; auto with quiet|]. intros t. by apply spec_addRelTyped.
Qed.

(** ** Properties *)

Lemma spec_stageValue value : spec wf_pre (stageValue value) (λ _, wf_pre).
Proof.
  destruct value; simpl; try by apply rule_ret.
  - eapply rule_bind; [apply spec_quiet_wf; auto with quiet|]. intros a. by apply rule_ret.
  - by apply rule_fail.
Qed.

Lemma wf_set_nodeCols b c : wf_builder b → colsOK (λ x, x ∈ known b) c → wf_builder (set_nodeCols c b).
Proof. intros [] Hc. by split. Qed.
Lemma wf_set_relCols b c : wf_builder b → colsOK (λ x, 0 ≤ x < len (rels b)) c → wf_builder (set_relCols c b).
Proof. intros [] Hc. by split. Qed.
Lemma wf_set_relIndex b ix : wf_builder b → indexOK ix (tombs b) (removedNodes b) (rels b) (relTypes b) →
  wf_builder (set_relIndex ix b).
Proof. intros [] Hc. by split. Qed.

Lemma spec_SetPropByKey node key value : is_u32 node → spec wf_pre (SetPropByKey node key value) (λ _, wf_pre).
Proof.
  intros Hn. eapply rule_bind; [apply spec_stageValue|]. intros v.
  eapply rule_bind; [by apply spec_ensureCapacity|]. intros ?.
  eapply rule_bind.
  { apply (quiet_spec _ (λ b, wf_builder b ∧ 0 ≤ node < len (degOut b))); [auto with quiet|].
    intros b b' Hs [Hw Hl]. split; [by eapply sameGraph_wf|]. by destruct Hs as [-> _]. }
  intros ?. eapply rule_bind with (R := λ _ b, wf_builder (withKnown node b)); [|intros ?; apply spec_addKnown].
  apply spec_modify. intros b [Hw Hl]. apply (wf_withKnown node) in Hw; [|done].
  pose proof (wf_set_nodeCols _ (stagePair key node v (nodeCols b)) Hw) as Hc. apply Hc. apply colsOK_stage; [apply Hw|].
  unfold known, withKnown. simpl. rewrite bm_add. set_solver.
Qed.

Lemma spec_SetProp node key value : is_u32 node → spec wf_pre (SetProp node key value) (λ _, wf_pre).
Proof.
  intros Hn. eapply rule_bind; [apply spec_quiet_wf; auto with quiet|]. intros k. by apply spec_SetPropByKey.
Qed.

Lemma spec_removeNodePropPairsByKey node key : spec wf_pre (removeNodePropPairsByKey node key) (λ _, wf_pre).
Proof.
  apply spec_read. intros b Hb. pose proof (colsOK_sweepAll _ _ key node (wb_nodeCols _ Hb)) as Hc.
  destruct (sweepAll (nodeCols b) key node) as [c removed]. simpl in Hc.
  eapply rule_bind with (R := λ _, wf_pre); [apply spec_modify; intros b' ->; by apply wf_set_nodeCols|]. intros ?.
  apply spec_quiet_wf. auto with quiet.
Qed.

Lemma spec_UpdateProp node key value : is_u32 node → spec wf_pre (UpdateProp node key value) (λ _, wf_pre).
Proof.
  intros Hn. eapply rule_bind; [apply spec_quiet_wf; auto with quiet|]. intros k.
  eapply rule_bind; [apply spec_stageValue|]. intros v.
  eapply rule_bind; [apply spec_removeNodePropPairsByKey|]. intros ?. by apply spec_SetPropByKey.
Qed.

Lemma spec_RemoveProp node key : spec wf_pre (RemoveProp node key) (λ _, wf_pre).
Proof.
  apply spec_read. intros b Hb. destruct (Get (interner b) key) as [k []]; simpl.
  - eapply spec_pre; [|apply spec_removeNodePropPairsByKey]. by intros b' ->.
  - apply rule_ret. by intros b' ->.
Qed.

(** The lookup map, when it has to be built, holds the first live index of
    every key. *)
Lemma buildIndex_ok b : wf_builder b →
  ∃ m, foldM (indexStep b) (enum (rels b)) ∅ = Ok m ∧
    ∀ key i, m !! key = Some i ↔ firstLive (tombs b) (removedNodes b) (rels b) (relTypes b) key i.
Proof.
  intros Hw. set (FL := firstLive (tombs b) (removedNodes b) (rels b) (relTypes b)).
  pose (P := λ (k : nat) (m : gmap (Z * Z * Z) Z), ∀ key i, m !! key = Some i ↔ FL key i ∧ i < Z.of_nat k).
  destruct (foldM_inv P (indexStep b) (enum (rels b)) ∅) as (m & E & Hm).
  - intros key i. rewrite lookup_empty. split; [done|]. intros [(Hi & _) Hlt]. lia.
  - intros k [i r] m [-> Hr]%lookup_enum Hm. unfold P in Hm. unfold indexStep.
    rewrite (relRemoved_ok b _ r) by (done || lia || by rewrite Nat2Z.id). cbn [mbind res_bind].
    pose proof (ro_types _ _ _ _ _ _ (wb_rels _ Hw)) as Lt.
    destruct (lookup_lt_is_Some_2 (relTypes b) k) as [t Ht]; [rewrite Lt; by eapply lookup_lt_Some|].
    assert (∀ key, liveAt (tombs b) (removedNodes b) (rels b) (relTypes b) key (Z.of_nat k) =
      negb (dead (tombs b) (removedNodes b) (Z.of_nat k) r) && bool_decide (key = (r.1, r.2, t))) as Hlive.
    { intros key. unfold liveAt. by rewrite Nat2Z.id, Hr, Ht. }
    destruct (dead _ _ (Z.of_nat k) r) eqn:Ed.
    { exists m. split; [done|]. intros key i. rewrite (Hm key i). split; [intros [? ?]; split; [done|lia]|].
      intros [Hf Hlt]. split; [done|]. destruct (decide (i = Z.of_nat k)) as [->|]; [|lia].
      destruct Hf as (_ & El & _). rewrite Hlive in El. done. }
    rewrite (idx_lookup _ _ t) by (lia || by rewrite Nat2Z.id). cbn [mbind res_bind].
    assert (∀ key i, (FL key i ∧ i < Z.of_nat (S k)) ↔ m !! key = Some i ∨ (i = Z.of_nat k ∧ key = (r.1, r.2, t) ∧ m !! key = None)) as Hstep.
    { intros key i. rewrite (Hm key i). split.
      - intros [Hf Hlt]. destruct (decide (i = Z.of_nat k)) as [->|]; [|left; split; [done|lia]]. right.
        destruct Hf as (H0i & El & Hno). rewrite Hlive in El. apply bool_decide_eq_true in El. split; [done|]. split; [done|].
        destruct (m !! key) as [j|] eqn:Ej; [|done]. apply Hm in Ej as [(Hj0 & Ej & _) Hj]. rewrite Hno in Ej by lia. done.
      - intros [[? ?]|(-> & -> & En)]; [split; [done|lia]|]. split; [|lia]. split; [lia|].
        split; [rewrite Hlive; by apply bool_decide_eq_true_2|]. intros j Hj. apply not_true_is_false. intros Ej.
        destruct (firstLive_exists _ _ _ _ _ j ltac:(lia) Ej) as (i & Hi & Hf).
        assert (m !! (r.1, r.2, t) = Some i); [|congruence]. apply Hm. split; [done|lia]. }
    destruct (m !! (r.1, r.2, t)) as [j|] eqn:Ej.
    + exists m. split; [done|]. intros key i. rewrite (Hstep key i). split; [by left|]. intros [?|(_ & -> & ?)]; [done|congruence].
    + eexists. split; [done|]. intros key i. rewrite (Hstep key i), lookup_insert. case_decide as D.
      * subst key. rewrite Ej. split; [intros [= <-]; by right|]. by intros [?|(-> & _)].
      * split; [by left|]. intros [?|(_ & ? & _)]; [done|congruence].
  - exists m. split; [done|]. rewrite length_enum in Hm. intros key i. rewrite (Hm key i). split; [by intros [? _]|].
    intros Hf. split; [done|]. destruct Hf as (Hi & El & _). by apply liveAt_range in El.
Qed.

(** Address lookup answers the first live relationship, or nothing when there
    is none. *)
Lemma findRelIndex_ok u v relType b : wf_builder b → ∃ i ok b',
  findRelIndex u v relType b = Ok (inl (i, ok), b') ∧ wf_builder b' ∧ rels b' = rels b ∧
  (if ok : bool then ∃ t, Get (interner b) relType = (t, true) ∧
      firstLive (tombs b) (removedNodes b) (rels b) (relTypes b) (u, v, t) i
   else ∀ t j, Get (interner b) relType = (t, true) →
      ¬ firstLive (tombs b) (removedNodes b) (rels b) (relTypes b) (u, v, t) j).
Proof.
  intros Hw.
  assert (∃ m b', ensureRelIndex b = Ok (inl m, b') ∧ wf_builder b' ∧ rels b' = rels b ∧
    ∀ key i, m !! key = Some i ↔ firstLive (tombs b) (removedNodes b) (rels b) (relTypes b) key i) as (m & b' & E & Hw' & Er & Hm).
  { unfold ensureRelIndex, get, mbind, M_bind, lift. simpl. destruct (relIndex b) as [m|] eqn:Ei.
    - exists m, b. split; [done|]. split; [done|]. split; [done|]. by apply (wb_index _ Hw).
    - destruct (buildIndex_ok b Hw) as (m & E & Hm). exists m, (set_relIndex (Some m) b). rewrite E. split; [done|].
      split; [|done]. apply wf_set_relIndex; [done|]. by intros m' [= <-]. }
  unfold findRelIndex, get, mbind, M_bind, mret, M_ret. simpl.
  destruct (Get (interner b) relType) as [t []]; simpl.
  2: { eexists _, _, _. split; [done|]. split; [done|]. split; [done|]. by intros ? ? [=]. }
  rewrite E. simpl.
  destruct (m !! (u, v, t)) as [i|] eqn:Ei; eexists _, _, _; (split; [done|]; split; [done|]; split; [done|]).
  - exists t. split; [done|]. by apply Hm.
  - intros t' j [= <-] Hf%Hm. congruence.
Qed.

Lemma dead_of_firstLive b i key r : firstLive (tombs b) (removedNodes b) (rels b) (relTypes b) key i →
  rels b !! Z.to_nat i = Some r → dead (tombs b) (removedNodes b) i r = false.
Proof.
  intros (_ & El & _) Hr. unfold liveAt in El. rewrite Hr in El. destruct (relTypes b !! Z.to_nat i); [|done].
  by destruct (dead _ _ i r).
Qed.

Lemma rels_lookup b i : 0 ≤ i < len (rels b) → ∃ r, rels b !! Z.to_nat i = Some r.
Proof. intros Hi. apply lookup_lt_is_Some_2. unfold len in Hi. lia. Qed.

Lemma spec_SetRelPropAt relIdx key value : spec wf_pre (SetRelPropAt relIdx key value) (λ _, wf_pre).
Proof.
  apply spec_read. intros b Hb. case_decide as D; [apply rule_fail; by intros b' ->|].
  destruct (rels_lookup b relIdx) as [r Hr]; [lia|].
  eapply rule_bind with (R := λ _ b', b' = b).
  { apply rule_lift. intros b' ->. rewrite (relRemoved_ok b _ r) by (done || lia). by eexists. }
  intros []; [apply rule_fail; by intros b' ->|].
  set (I := λ b', wf_builder b' ∧ relIdx < len (rels b')).
  assert (∀ b b', sameGraph b b' → I b → I b') as HI.
  { intros b1 b2 Hs [Hw Hl]. split; [by eapply sameGraph_wf|]. by destruct Hs as (_ & _ & -> & _). }
  eapply rule_bind with (R := λ _, I).
  { eapply spec_pre; [|by apply quiet_spec; [auto with quiet|exact HI]]. intros b' ->. split; [done|lia]. }
  intros k. eapply rule_bind with (R := λ _, I).
  { destruct value; simpl; try by apply rule_ret.
    - eapply rule_bind; [by apply quiet_spec; [auto with quiet|exact HI]|]. intros a. by apply rule_ret.
    - apply rule_fail. by intros b' [? _]. }
  intros v. eapply rule_bind; [by apply quiet_spec; [auto with quiet|exact HI]|]. intros ?.
  apply spec_modify. intros b' [Hw Hl]. apply wf_set_relCols; [done|]. apply colsOK_stage; [apply Hw|].
  pose proof (ro_max _ _ _ _ _ _ (wb_rels _ Hw)). rewrite wrapU_small by lia. lia.
Qed.

Lemma spec_after_find {A} u v relType (f : Z → M A) : (∀ i, spec wf_pre (f i) (λ _, wf_pre)) →
  spec wf_pre ('(i, ok) ← findRelIndex u v relType; if negb ok then fail ErrRelNotFound else f i) (λ _, wf_pre).
Proof.
  intros Hf. eapply rule_bind with (R := λ _, wf_pre).
  - intros b Hb. destruct (findRelIndex_ok u v relType b Hb) as (i & ok & b' & E & Hw & _). by exists (inl (i, ok)), b'.
  - intros [i []]; [apply Hf|by apply rule_fail].
Qed.

Lemma spec_SetRelProp u v relType key value : spec wf_pre (SetRelProp u v relType key value) (λ _, wf_pre).
Proof. apply spec_after_find. intros i. apply spec_SetRelPropAt. Qed.

Lemma spec_RemoveRelPropAt relIdx key : spec wf_pre (RemoveRelPropAt relIdx key) (λ _, wf_pre).
Proof.
  apply spec_read. intros b Hb. case_decide as D; [apply rule_fail; by intros b' ->|].
  destruct (rels_lookup b relIdx) as [r Hr]; [lia|].
  eapply rule_bind with (R := λ _ b', b' = b).
  { apply rule_lift. intros b' ->. rewrite (relRemoved_ok b _ r) by (done || lia). by eexists. }
  intros []; [apply rule_fail; by intros b' ->|].
  destruct (Get (interner b) key) as [k []]; simpl; [|apply rule_ret; by intros b' ->].
  pose proof (colsOK_sweepAll _ _ k (to_u32 relIdx) (wb_relCols _ Hb)) as Hc.
  destruct (sweepAll (relCols b) k (to_u32 relIdx)) as [c removed]. simpl in Hc.
  eapply rule_bind with (R := λ _, wf_pre); [apply spec_modify; intros b' ->; by apply wf_set_relCols|]. intros ?.
  apply spec_quiet_wf. auto with quiet.
Qed.

Lemma spec_RemoveRelProp u v relType key : spec wf_pre (RemoveRelProp u v relType key) (λ _, wf_pre).
Proof. apply spec_after_find. intros i. apply spec_RemoveRelPropAt. Qed.

(** ** Removals *)

Definition removedRel (i : Z) (dOut dIn : list Z) b : Builder bm Snap :=
  set_relIndex None (set_degIn dIn (set_degOut dOut
    (set_removedRels (Some (bmAdd (default bmNew (removedRels b)) i)) b))).

Lemma tombs_removedRel i dOut dIn b : tombs (removedRel i dOut dIn b) = {[i]} ∪ tombs b.
Proof.
  unfold tombs, removedRel. simpl. rewrite bm_add. destruct (removedRels b); simpl; [done|]. by rewrite bm_new.
Qed.

Lemma dead_tomb_mono i tomb marks j r : dead ({[i]} ∪ tomb) marks j r = false → dead tomb marks j r = false ∧ j ≠ i.
Proof.
  unfold dead. rewrite !orb_false_iff, !bool_decide_eq_false. set_solver.
Qed.

Lemma wf_removedRel i r dOut dIn b : wf_builder b → 0 ≤ i → rels b !! Z.to_nat i = Some r →
  dead (tombs b) (removedNodes b) i r = false →
  bump (degOut b) r.1 (-1) = Ok dOut → bump (degIn b) r.2 (-1) = Ok dIn → wf_builder (removedRel i dOut dIn b).
Proof.
  intros [Hdi Hll Hsz Hk [Rt Rm Re Rto Rl Rma] Hdo Hdn Hlab Hnc Hrc Hix Hnx] Hi Hr Hd Eo Ei.
  assert (i ∉ tombs b) as Hni.
  { unfold dead in Hd. rewrite !orb_false_iff, bool_decide_eq_false in Hd. tauto. }
  assert (i < len (rels b)) as Hlt by (apply lookup_lt_Some in Hr; unfold len; lia).
  pose proof (Forall_lookup_1 _ _ _ _ Re Hr) as [Hu Hv]. simpl in Hu, Hv.
  assert (length dOut = length (degOut b)) as Lo.
  { destruct (bump_ok (degOut b) r.1 (-1) Hu) as (d & E & L). congruence. }
  assert (length dIn = length (degIn b)) as Li.
  { destruct (bump_ok (degIn b) r.2 (-1)) as (d & E & L); [unfold len in *; lia|]. congruence. }
  assert (∀ own w, degree own (tombs b) (rels b) w + (if decide (own r = w) then -1 else 0) =
    degree own ({[i]} ∪ tombs b) (rels b) w) as Hdeg.
  { intros own w. rewrite (degree_tomb own (tombs b) (rels b) i r w) by done. destruct (decide (own r = w)); lia. }
  split; rewrite ?tombs_removedRel; unfold removedRel; cbn [degOut degIn rels nodeLabels relTypes nodeCols relCols nextNodeID
    relIndex removedNodes set_relIndex set_degIn set_degOut set_removedRels]; try done; try lia.
  - unfold len in *. lia.
  - intros x Hx. specialize (Hk x Hx). unfold len in *. lia.
  - split; try done.
    + eapply Forall_impl; [exact Re|]. unfold len. rewrite Lo. done.
    + intros j [->%elem_of_singleton|Hj]%elem_of_union; [lia|by apply Rto].
    + intros j r' Hj Hr' [Hd' _]%dead_tomb_mono. by apply (Rl j r').
  - eapply (degOK_bump fst (degOut b) dOut _ (rels b) _ r); [exact Hdo|exact Eo|by apply (Hdeg fst)|lia].
  - eapply (degOK_bump snd (degIn b) dIn _ (rels b) _ r); [exact Hdn|exact Ei|by apply (Hdeg snd)|lia].
Qed.

Lemma spec_RemoveRel relIdx : spec wf_pre (RemoveRel relIdx) (λ _, wf_pre).
Proof.
  apply spec_read. intros b Hb. case_decide as D; [apply rule_fail; by intros b' ->|].
  destruct (rels_lookup b relIdx) as [r Hr]; [lia|]. pose proof (relRemoved_ok b relIdx r Hb ltac:(lia) Hr) as Er.
  intros b0 ->. destruct (dead (tombs b) (removedNodes b) relIdx r) eqn:Ed;
    unfold lift, modify, markRelsDirty, fail, mret, M_ret, mbind, M_bind; rewrite Er; cbn; [by eexists _, _|].
  rewrite (idx_lookup _ _ r) by (lia || done). cbn.
  pose proof (Forall_lookup_1 _ _ _ _ (ro_ends _ _ _ _ _ _ (wb_rels _ Hb)) Hr) as [Hu Hv]. simpl in Hu, Hv.
  destruct (bump_ok (degOut b) r.1 (-1) Hu) as (dO & Eo & _).
  destruct (bump_ok (degIn b) r.2 (-1)) as (dI & Ei & _); [pose proof (wb_degIn_len _ Hb); unfold len in *; lia|].
  rewrite Eo. cbn. rewrite Ei. cbn. eexists _, _. split; [done|]. simpl.
  eapply sameGraph_wf; [|apply (wf_removedRel relIdx r dO dI b); try done; lia].
  unfold sameGraph, removedRel. simpl. rewrite wrapU_small.
  - destruct (hasSrc b); by repeat split.
  - pose proof (ro_max _ _ _ _ _ _ (wb_rels _ Hb)). lia.
Qed.

(** What a sweep of all keys leaves of a map. *)
Definition swept {A} (id : Z) (m : colMap A) : colMap A :=
  omap (λ ps, match filter (λ p, p.1 ≠ id) ps with [] => None | ps' => Some ps' end) m.

Lemma sweepPairs_lookup {A} (m : colMap A) key id k :
  (sweepPairs m key id).1 !! k = if decide (k = key) then
      match filter (λ p, p.1 ≠ id) (default [] (m !! k)) with [] => None | ps => Some ps end
    else m !! k.
Proof.
  unfold sweepPairs, removeAllPairs. destruct (m !! key) as [pairs|] eqn:E; simpl.
  2: { case_decide as D; [subst; by rewrite E|done]. }
  destruct (filter (λ p, p.1 ≠ id) pairs) as [|q qs] eqn:Ef; simpl.
  - case_decide as D; [subst; rewrite lookup_delete_eq, E; simpl; by rewrite Ef|].
    by rewrite lookup_delete_ne by done.
  - rewrite lookup_insert. repeat case_decide; subst; try done. rewrite E. simpl. by rewrite Ef.
Qed.

(** The four references address different maps of a group. *)
Record refLaws {A} (ref : colRef A) : Prop := {
  rl_get : ∀ m c, rget ref (rset ref m c) = m;
  rl_set : ∀ m m' c, rset ref m (rset ref m' c) = rset ref m c;
  rl_id : ∀ c, rset ref (rget ref c) c = c;
}.
Lemma refI64_laws : refLaws refI64. Proof. split; by try intros ? ? []; try intros []. Qed.
Lemma refF64_laws : refLaws refF64. Proof. split; by try intros ? ? []; try intros []. Qed.
Lemma refBool_laws : refLaws refBool. Proof. split; by try intros ? ? []; try intros []. Qed.
Lemma refStr_laws : refLaws refStr. Proof. split; by try intros ? ? []; try intros []. Qed.

Lemma sweepLoop_ok {A} (ref : colRef A) node : refLaws ref → ∀ keys b, ∃ b' m',
  forM keys (λ key,
    b ← get;
    let '(m, removed) := sweepPairs (rget ref (nodeCols b)) key node in
    modify (set_nodeCols (rset ref m (nodeCols b)));;
    if removed : bool then markNodeColDirty key else mret ()) b = Ok (inl (), b') ∧
  sameGraph (set_nodeCols (rset ref m' (nodeCols b)) b) b' ∧
  ∀ k, m' !! k = if decide (k ∈ keys) then swept node (rget ref (nodeCols b)) !! k else rget ref (nodeCols b) !! k.
Proof.
  intros [Lg Ls Li]. induction keys as [|key keys IH]; intros b.
  { exists b, (rget ref (nodeCols b)). split; [done|]. split; [rewrite Li; by repeat split|]. intros k.
    rewrite decide_False; [done|apply not_elem_of_nil]. }
  cbn [forM]. pose proof (sweepPairs_lookup (rget ref (nodeCols b)) key node) as Hsw.
  destruct (sweepPairs (rget ref (nodeCols b)) key node) as [m removed] eqn:Esw. simpl in Hsw.
  set (b1 := set_nodeCols (rset ref m (nodeCols b)) b).
  assert (quiet (bm := bm) (Snap := Snap) (if removed : bool then markNodeColDirty key else mret ())) as Hq by auto with quiet.
  destruct (Hq b1) as ([] & b2 & E2 & S2).
  erewrite bind_ok; [|erewrite bind_ok by done; rewrite Esw; erewrite bind_ok by done; exact E2].
  destruct (IH b2) as (b' & m' & E' & S' & Hm'). exists b', m'. split; [exact E'|].
  destruct S2 as (F1 & F2 & F3 & F4 & F5 & F6 & F7 & F8 & F9 & F10 & F11 & F12). simpl in *. split.
  - eapply sameGraph_trans; [|exact S']. unfold sameGraph. simpl. rewrite F6, Ls. by repeat split.
  - intros k. rewrite Hm', F6, Lg. unfold swept. rewrite !lookup_omap, Hsw.
    destruct (decide (k ∈ key :: keys)) as [Dk|Dk].
    + destruct (decide (k = key)) as [->|Nk].
      * destruct (rget ref (nodeCols b) !! key) as [ps|] eqn:Ep; simpl; [|by case_decide].
        destruct (filter (λ p, p.1 ≠ node) ps) as [|q qs] eqn:Ef; simpl; [by case_decide|].
        case_decide; [|done]. rewrite <- Ef. rewrite list_filter_filter_l; [by rewrite Ef|done].
      * apply elem_of_cons in Dk as [|Dk]; [done|]. by rewrite decide_True.
    + rewrite !decide_False; [done|..]; intros ?; apply Dk; [subst; by left|by right].
Qed.

Lemma sweepKeys_ok {A} (ref : colRef A) node b : refLaws ref → ∃ b',
  sweepKeys ref node b = Ok (inl (), b') ∧
  sameGraph (set_nodeCols (rset ref (swept node (rget ref (nodeCols b))) (nodeCols b)) b) b'.
Proof.
  intros Hl. destruct (sweepLoop_ok ref node Hl (map_to_list (rget ref (nodeCols b))).*1 b) as (b' & m' & E & S & Hm).
  exists b'. split; [exact E|]. assert (m' = swept node (rget ref (nodeCols b))) as <-; [|done].
  apply map_eq. intros k. rewrite Hm. case_decide as D; [done|]. unfold swept. rewrite lookup_omap.
  destruct (rget ref (nodeCols b) !! k) as [ps|] eqn:E'; [|done]. exfalso. apply D, list_elem_of_fmap.
  exists (k, ps). split; [done|]. by apply elem_of_map_to_list.
Qed.

Definition sweptCols (node : Z) (c : typedCols) : typedCols :=
  mkCols (swept node (colI64 c)) (swept node (colF64 c)) (swept node (colBool c)) (swept node (colStr c)).

Lemma removeNodePropPairs_ok node b : ∃ b',
  removeNodePropPairs node b = Ok (inl (), b') ∧ sameGraph (set_nodeCols (sweptCols node (nodeCols b)) b) b'.
Proof.
  destruct (sweepKeys_ok refI64 node b refI64_laws) as (b1 & E1 & S1).
  destruct (sweepKeys_ok refF64 node b1 refF64_laws) as (b2 & E2 & S2).
  destruct (sweepKeys_ok refBool node b2 refBool_laws) as (b3 & E3 & S3).
  destruct (sweepKeys_ok refStr node b3 refStr_laws) as (b4 & E4 & S4).
  exists b4. unfold removeNodePropPairs. rewrite (bind_ok _ _ _ _ _ E1), (bind_ok _ _ _ _ _ E2), (bind_ok _ _ _ _ _ E3), E4.
  split; [done|]. unfold sameGraph in *. simpl in *. intuition idtac; try congruence.
  repeat match goal with E : nodeCols _ = _ |- _ => rewrite E; clear E; simpl end. done.
Qed.

Lemma swept_ok {A} (P : Z * A → Prop) node (m : colMap A) : pairsOK P m →
  pairsOK (λ p, P p ∧ p.1 ≠ node) (swept node m).
Proof.
  intros Hm k ps. unfold swept. rewrite lookup_omap. destruct (m !! k) as [ps0|] eqn:E; simpl; [|done].
  destruct (Hm _ _ E) as [_ HF]. destruct (filter (λ p, p.1 ≠ node) ps0) as [|q qs] eqn:Ef; [done|].
  intros [= <-]. split; [done|]. rewrite <- Ef. apply Forall_forall. intros p [Hne Hp]%list_elem_of_filter.
  rewrite Forall_forall in HF. auto.
Qed.

Definition removedNode (id : Z) (labels : list (list Z)) b : Builder bm Snap :=
  set_relIndex None (set_removedNodes (<[id := len (rels b)]> (removedNodes b))
    (set_nodeCols (sweptCols id (nodeCols b)) (set_nodeLabels labels (set_knownNodes (bmRemove (knownNodes b) id) b)))).

Lemma dead_mark_mono id n tomb marks i r : i < n → dead tomb (<[id := n]> marks) i r = false →
  dead tomb marks i r = false ∧ r.1 ≠ id ∧ r.2 ≠ id.
Proof.
  intros Hi. unfold dead, belowMark. rewrite !orb_false_iff, !lookup_insert. intros [[-> H1] H2].
  assert (r.1 ≠ id) as N1. { intros E. rewrite decide_True in H1 by done. rewrite bool_decide_eq_false in H1. lia. }
  assert (r.2 ≠ id) as N2. { intros E. rewrite decide_True in H2 by done. rewrite bool_decide_eq_false in H2. lia. }
  rewrite decide_False in H1 by done. rewrite decide_False in H2 by done. done.
Qed.

Lemma wf_removedNode id b : wf_builder b → id ∈ known b →
  wf_builder (removedNode id (<[Z.to_nat id := []]> (nodeLabels b)) b).
Proof.
  intros [Hdi Hll Hsz Hk [Rt Rm Re Rto Rl Rma] Hdo Hdn Hlab Hnc Hrc Hix Hnx] Hid.
  assert (known (removedNode id (<[Z.to_nat id := []]> (nodeLabels b)) b) = known b ∖ {[id]}) as EK.
  { unfold known, removedNode. simpl. apply bm_remove. }
  pose proof (Hk id Hid) as Hr.
  split; rewrite ?EK; unfold removedNode, tombs in *; cbn [degOut degIn rels nodeLabels relTypes nodeCols relCols nextNodeID
    relIndex removedNodes removedRels set_relIndex set_removedNodes set_nodeCols set_nodeLabels set_knownNodes]; try done; try lia.
  - by rewrite length_insert.
  - intros x [Hx _]%elem_of_difference. by apply Hk.
  - split; try done.
    + intros i r Hi Hri Hd. apply lookup_lt_Some in Hri as Hlt.
      apply dead_mark_mono in Hd as (Hd & N1 & N2); [|unfold len; lia]. destruct (Rl i r Hi Hri Hd). set_solver.
    + intros node wm. rewrite lookup_insert. case_decide; [intros [= <-]; lia|apply Rma].
  - intros v ls Hv Hne. destruct (decide (v = Z.to_nat id)) as [->|Nv].
    + rewrite list_lookup_insert_eq in Hv by (rewrite Hll; unfold len in Hr; lia). congruence.
    + rewrite list_lookup_insert_ne in Hv by done. apply elem_of_difference. split; [by eapply Hlab|].
      rewrite elem_of_singleton. lia.
  - destruct Hnc as [Hi Hf Hb Hs].
    split; simpl; (eapply pairsOK_impl; [|by apply swept_ok]); simpl; set_solver.
Qed.

Lemma spec_RemoveNode id : spec wf_pre (RemoveNode id) (λ _, wf_pre).
Proof.
  apply spec_read. intros b Hb. rewrite bm_contains. case_bool_decide as D; simpl; [|apply rule_ret; by intros b' ->].
  pose proof (wb_known _ Hb id D) as Hid. pose proof (wb_labels_len _ Hb) as Hll.
  destruct (lookup_lt_is_Some_2 (nodeLabels b) (Z.to_nat id)) as [ls Els]; [unfold len in *; lia|].
  rewrite decide_True by (unfold len in *; lia).
  set (b1 := set_knownNodes (bmRemove (knownNodes b) id) b).
  intros b0 ->. erewrite bind_ok by done. fold b1.
  destruct (quiet_forM ls markLabelDirty quiet_markLabelDirty b1) as ([] & b2 & E2 & S2).
  set (b3 := set_nodeLabels (<[Z.to_nat id := []]> (nodeLabels b)) b2).
  destruct (quiet_markRelsDirty b3) as ([] & b4 & E4 & S4).
  destruct (removeNodePropPairs_ok id b4) as (b5 & E5 & S5).
  assert (upd (nodeLabels b) id [] = Ok (<[Z.to_nat id := []]> (nodeLabels b))) as Eu.
  { unfold upd. rewrite decide_True; [done|]. unfold len in *. lia. }
  assert (idx (nodeLabels b) id = Ok ls) as Ei by (apply idx_lookup; [lia|done]).
  erewrite bind_ok; [|erewrite bind_ok by (unfold lift; by rewrite Ei); rewrite (bind_ok _ _ _ _ _ E2);
    erewrite bind_ok by (unfold lift; by rewrite Eu); done]. fold b3.
  rewrite (bind_ok _ _ _ _ _ E4), (bind_ok _ _ _ _ _ E5). do 2 erewrite bind_ok by done.
  eexists _, _. split; [done|]. simpl.
  eapply sameGraph_wf; [|by apply (wf_removedNode id b)].
  unfold sameGraph, removedNode, b3, b1 in *. simpl in *. intuition congruence.
Qed.

End operations.

(** ** Sequences of operations *)

(** The exported staging surface. *)
Inductive bop :=
| OpSetVersion (v : gostring)
| OpAddNode (labels : list gostring)
| OpAddNodeWithID (id : Z) (labels : list gostring)
| OpAddRel (u v : Z) (relType : gostring)
| OpInternPropertyKey (name : gostring)
| OpSetProp (node : Z) (key : gostring) (value : anyVal)
| OpSetPropByKey (node key : Z) (value : anyVal)
| OpUpdateProp (node : Z) (key : gostring) (value : anyVal)
| OpSetRelProp (u v : Z) (relType key : gostring) (value : anyVal)
| OpSetRelPropAt (relIdx : Z) (key : gostring) (value : anyVal)
| OpRemoveProp (node : Z) (key : gostring)
| OpRemoveRelProp (u v : Z) (relType key : gostring)
| OpRemoveRelPropAt (relIdx : Z) (key : gostring)
| OpRemoveRel (relIdx : Z)
| OpRemoveNode (id : Z).

(** Node ids are 32-bit; relationship indexes are any [int]. *)
Definition wf_op (o : bop) : Prop :=
  match o with
  | OpAddNodeWithID id _ => is_u32 id
  | OpAddRel u v _ => is_u32 u ∧ is_u32 v
  | OpSetProp node _ _ | OpSetPropByKey node _ _ | OpUpdateProp node _ _ => is_u32 node
  | _ => True
  end.

Section sequences.
Context {bm Snap : Type} `{RoaringSetLaws bm}.
Implicit Types b : Builder bm Snap.

Definition runOp (o : bop) : M (bm := bm) (Snap := Snap) () :=
  match o with
  | OpSetVersion v => SetVersion v
  | OpAddNode labels => AddNode labels;; mret ()
  | OpAddNodeWithID id labels => AddNodeWithID id labels;; mret ()
  | OpAddRel u v t => AddRel u v t;; mret ()
  | OpInternPropertyKey name => InternPropertyKey name;; mret ()
  | OpSetProp node key value => SetProp node key value
  | OpSetPropByKey node key value => SetPropByKey node key value
  | OpUpdateProp node key value => UpdateProp node key value
  | OpSetRelProp u v t key value => SetRelProp u v t key value
  | OpSetRelPropAt i key value => SetRelPropAt i key value
  | OpRemoveProp node key => RemoveProp node key;; mret ()
  | OpRemoveRelProp u v t key => RemoveRelProp u v t key;; mret ()
  | OpRemoveRelPropAt i key => RemoveRelPropAt i key;; mret ()
  | OpRemoveRel i => RemoveRel i
  | OpRemoveNode id => RemoveNode id;; mret ()
  end.

(** A caller that goes on after errors. *)
Definition runOps (ops : list bop) b : res (Builder bm Snap) :=
  foldM (λ b o, '(_, b) ← runOp o b; Ok b) ops b.

Lemma spec_ignore {A} (m : M (bm := bm) (Snap := Snap) A) : spec wf_pre m (λ _, wf_pre) → spec wf_pre (m;; mret ()) (λ _, wf_pre).
Proof. intros Hm. eapply rule_bind; [exact Hm|]. intros a. by apply rule_ret. Qed.

Lemma spec_runOp o : wf_op o → spec wf_pre (runOp o) (λ _, wf_pre).
Proof.
  destruct o; simpl; intros Ho; try apply spec_ignore.
  - apply spec_modify. intros b. apply wf_version_change.
  - apply spec_AddNode.
  - by apply spec_AddNodeWithID.
  - destruct Ho. by apply spec_AddRel.
  - apply spec_quiet_wf. apply quiet_intern.
  - by apply spec_SetProp.
  - by apply spec_SetPropByKey.
  - by apply spec_UpdateProp.
  - apply spec_SetRelProp.
  - apply spec_SetRelPropAt.
  - apply spec_RemoveProp.
  - apply spec_RemoveRelProp.
  - apply spec_RemoveRelPropAt.
  - apply spec_RemoveRel.
  - apply spec_RemoveNode.
Qed.

Lemma runOps_wf ops b : Forall wf_op ops → wf_builder b → ∃ b', runOps ops b = Ok b' ∧ wf_builder b'.
Proof.
  intros HF. revert b. induction HF as [|o ops Ho HF IH]; intros b Hb; [by exists b|].
  destruct (spec_runOp o Ho b Hb) as (r & b1 & E & Hr). unfold runOps. simpl. rewrite E. simpl. apply IH.
  by destruct r.
Qed.

Lemma NewBuilder_wf capNodes capRels : capNodes ≤ MaxUint32 → wf_builder (NewBuilder capNodes capRels : Builder bm Snap).
Proof.
  intros Hcap. unfold NewBuilder. set (cap := Z.to_nat _).
  assert (0 < Z.of_nat cap ≤ MaxUint32) as Hc.
  { unfold cap. case_decide; rewrite Z2Nat.id; rewrite ?Z.shiftl_mul_pow2; lia. }
  clearbody cap. split; unfold known, tombs; simpl; rewrite ?length_replicate, ?len_replicate; try done.
  - intros x. rewrite bm_new. set_solver.
  - intros v d Hv. by apply lookup_replicate in Hv as [-> _].
  - intros v d Hv. by apply lookup_replicate in Hv as [-> _].
  - intros v ls Hv. by apply lookup_replicate in Hv as [-> _].
Qed.

End sequences.

(** ** Properties *)

(** C29: No sequence of staging operations can break a builder: from a fresh
    builder, any calls of the exported staging and removal methods with 32-bit
    node ids, whether they succeed or fail, in any order, never panic and leave
    the invariant: counters that count, live relationships with known
    endpoints, labels and properties of known nodes only, and a lookup map that
    names the first live match. *)
Theorem builder_operations_safe {bm Snap} `{RoaringSetLaws bm} (capNodes capRels : Z) (ops : list bop) :
  capNodes ≤ MaxUint32 → Forall wf_op ops →
  ∃ b : Builder bm Snap, runOps ops (NewBuilder capNodes capRels) = Ok b ∧ wf_builder b.
Proof. intros Hc Ho. apply runOps_wf; [done|]. by apply NewBuilder_wf. Qed.

(** Two nodes, three relationships of one type between them, a removed and
    resurrected node, an address by (source, target, type). *)
Definition strK : gostring := [Byte.x4b].
Definition demoOps : list bop :=
  [OpAddNode [strK]; OpAddNode []; OpAddRel 0 1 strK; OpAddRel 0 1 strK; OpSetRelProp 0 1 strK strK (AInt64 7);
   OpRemoveRel 0; OpAddRel 1 0 strK; OpSetProp 1 strK (ABool true); OpRemoveNode 1; OpRemoveRel 2;
   OpAddRel 0 1 strK; OpSetRelProp 0 1 strK strK (AInt64 9); OpUpdateProp 0 strK (AString strK)].

Lemma builder_operations_safe_witness :
  ∃ b : Builder (gset Z) (), runOps demoOps (NewBuilder 2 2) = Ok b ∧ wf_builder b.
Proof. apply (builder_operations_safe 2 2 demoOps); [lia|]. repeat constructor; simpl; lia. Defined.

(** An address finds the first live match: after any staging operations,
    looking up (source, target, type) answers the smallest index of a
    relationship with these ends and type that was neither removed nor staged
    before a removal of one of its ends, and answers not-found only when there
    is none, whether the lookup map was built before or has to be built. *)
Theorem findRelIndex_first_live {bm Snap} `{RoaringSetLaws bm} (b : Builder bm Snap) (u v t : Z) (relType : gostring) :
  wf_builder b → Get (interner b) relType = (t, true) → ∃ i ok b',
  findRelIndex u v relType b = Ok (inl (i, ok), b') ∧ wf_builder b' ∧
  if ok : bool then firstLive (tombs b) (removedNodes b) (rels b) (relTypes b) (u, v, t) i
  else ∀ j, 0 ≤ j → liveAt (tombs b) (removedNodes b) (rels b) (relTypes b) (u, v, t) j = false.
Proof.
  intros Hw Ht. destruct (findRelIndex_ok u v relType b Hw) as (i & ok & b' & E & Hw' & _ & Hok).
  exists i, ok, b'. split; [done|]. split; [done|]. destruct ok.
  - destruct Hok as (t' & Et & Hf). rewrite Ht in Et. by injection Et as <-.
  - intros j Hj. apply not_true_is_false. intros El. destruct (firstLive_exists _ _ _ _ _ j Hj El) as (i' & _ & Hf).
    by apply (Hok t i').
Qed.

Definition demoBuilder : Builder (gset Z) () :=
  match runOps (take 7 demoOps) (NewBuilder 2 2) with Ok b => b | _ => NewBuilder 2 2 end.

Lemma findRelIndex_first_live_witness : ∃ i ok b',
  findRelIndex 0 1 strK demoBuilder = Ok (inl (i, ok), b') ∧ wf_builder b' ∧
  if ok : bool then firstLive (tombs demoBuilder) (removedNodes demoBuilder) (rels demoBuilder) (relTypes demoBuilder) (0, 1, 1) i
  else ∀ j, 0 ≤ j → liveAt (tombs demoBuilder) (removedNodes demoBuilder) (rels demoBuilder) (relTypes demoBuilder) (0, 1, 1) j = false.
Proof.
  apply (findRelIndex_first_live demoBuilder 0 1 1 strK); [|by vm_compute].
  destruct (runOps_wf (bm := gset Z) (Snap := ()) (take 7 demoOps) (NewBuilder 2 2)) as (b & E & Hb).
  - repeat constructor; simpl; lia.
  - apply NewBuilder_wf. lia.
  - unfold demoBuilder. by rewrite E.
Defined.

(** The observable results of adding a node, adding the largest id, and adding
    another node: the ids or the error each call answers, and the node count. *)
Definition wrapRun : option (Z * berr * Z * Z) :=
  match AddNode [strK] (NewBuilder (bm := gset Z) (Snap := ()) 2 2) with
  | Ok (inl first, b1) =>
      match AddNodeWithID MaxUint32 [] b1 with
      | Ok (inr e, b2) =>
          match AddNode [] b2 with
          | Ok (inl again, b3) => Some (first, e, again, NodeCount b3)
          | _ => None
          end
      | _ => None
      end
  | _ => None
  end.

(** An id that is refused still moves the id counter: [AddNodeWithID] with
    the largest 32-bit id fails for lack of capacity, but it has already set the
    counter to id + 1, which wraps to 0, so the next [AddNode] hands out id 0,
    an id that is taken, as if it were new. *)
Theorem AddNodeWithID_counter_wraps : ∃ b1 b2 b3 : Builder (gset Z) (),
  AddNode [strK] (NewBuilder 2 2) = Ok (inl 0, b1) ∧
  AddNodeWithID MaxUint32 [] b1 = Ok (inr ErrCapacity, b2) ∧
  AddNode [] b2 = Ok (inl 0, b3) ∧ NodeCount b3 = 1.
Proof.
  assert (wrapRun = Some (0, ErrCapacity, 0, 1)) as E by (vm_compute; reflexivity). unfold wrapRun in E.
  destruct (AddNode [strK] (NewBuilder 2 2)) as [[[i|] b1]| |] eqn:E1; try discriminate E.
  destruct (AddNodeWithID MaxUint32 [] b1) as [[[|e] b2]| |] eqn:E2; try discriminate E.
  destruct (AddNode [] b2) as [[[j|] b3]| |] eqn:E3; try discriminate E.
  exists b1, b2, b3. by simplify_eq.
Qed.
