(* ===== verification/Compaction.v ===== *)
(** Folding removals into the staging state: the correctness of
    [compactRemovals] of [src/removal.go].

    Finalization first drops the dead relationships in place, renumbers the rest
    and moves their staged properties along. The theorem: afterwards the staged
    relationships are exactly the live ones in staging order, every property of a
    live relationship is kept at its new index, every property of a dead one is
    gone, and the invariant still holds, with no removal pending. *)

From S2P Require Import Prelude Value NodeSet Builder BuilderInv.

(** ** The live relationships *)

Section live.
Context (tomb : gset Z) (marks : gmap Z Z) (rels : list (Z * Z)).

Definition isLive (i : Z) : bool := negb (dead tomb marks i (rels !!! Z.to_nat i)).
(** The live indexes below [i]; the new index of a live relationship is how many
    precede it. *)
Definition liveBelow (i : Z) : list Z := filter (λ j, isLive j = true) (zseq i).
Definition newIndex (i : Z) : Z := len (liveBelow i).

Lemma liveBelow_S i : 0 ≤ i → liveBelow (i + 1) = liveBelow i ++ (if isLive i then [i] else []).
Proof.
  intros Hi. unfold liveBelow. rewrite zseq_S, filter_app by done. f_equal. rewrite filter_cons, filter_nil.
  by destruct (isLive i).
Qed.

Lemma newIndex_S i : 0 ≤ i → newIndex (i + 1) = newIndex i + (if isLive i then 1 else 0).
Proof. intros Hi. unfold newIndex. rewrite liveBelow_S, len_app by done. by destruct (isLive i). Qed.

Lemma newIndex_le i : 0 ≤ i → 0 ≤ newIndex i ≤ i.
Proof.
  intros Hi. unfold newIndex, liveBelow, len. pose proof (length_filter (λ j, isLive j = true) (zseq i)) as Hl.
  unfold zseq in Hl at 2. rewrite length_fmap, length_seq in Hl. lia.
Qed.

Lemma newIndex_mono i j : 0 ≤ i ≤ j → newIndex i ≤ newIndex j.
Proof.
  intros Hij. replace j with (i + Z.of_nat (Z.to_nat (j - i))) by lia. induction (Z.to_nat (j - i)) as [|k IH]; [by rewrite Z.add_0_r|].
  replace (i + Z.of_nat (S k)) with (i + Z.of_nat k + 1) by lia. rewrite newIndex_S by lia. destruct (isLive _); lia.
Qed.

(** The [newIndex i]-th live index is [i]. *)
Lemma liveBelow_lookup n i : 0 ≤ i < n → isLive i = true → liveBelow n !! Z.to_nat (newIndex i) = Some i.
Proof.
  intros Hi Hl. assert (liveBelow n = liveBelow i ++ i :: filter (λ j, isLive j = true) (seqZ (i + 1) (n - (i + 1)))) as ->.
  { unfold liveBelow. rewrite !zseq_seqZ. replace n with (i + (1 + (n - (i + 1)))) at 1 by lia.
    rewrite !seqZ_split, !filter_app by lia. f_equal. rewrite Z.add_0_l. change (seqZ i 1) with [i].
    rewrite filter_cons_True by done. done. }
  unfold newIndex. rewrite to_nat_len, lookup_app_r, Nat.sub_diag by lia. done.
Qed.

End live.

(** The staged pairs of the live relationships, renumbered. *)
Definition keepLive {A} (live : Z → bool) (new : Z → Z) (pairs : list (Z * A)) : list (Z * A) :=
  omap (λ p, if live p.1 then Some (new p.1, p.2) else None) pairs.
Definition keepLiveMap {A} (live : Z → bool) (new : Z → Z) (cols : colMap A) : colMap A :=
  omap (λ ps, match keepLive live new ps with [] => None | out => Some out end) cols.
Definition keepLiveCols (live : Z → bool) (new : Z → Z) (c : typedCols) : typedCols :=
  mkCols (keepLiveMap live new (colI64 c)) (keepLiveMap live new (colF64 c)) (keepLiveMap live new (colBool c))
    (keepLiveMap live new (colStr c)).

(** ** Loops *)

Lemma remapPairs_ok {A} (live : Z → bool) (new : Z → Z) oldToNew (pairs : list (Z * A)) :
  Forall (λ p, 0 ≤ p.1 ∧ oldToNew !! Z.to_nat p.1 = Some (if live p.1 then new p.1 else -1) ∧ (live p.1 = true → is_u32 (new p.1))) pairs →
  remapPairs oldToNew pairs = Ok (keepLive live new pairs).
Proof.
  intros HF. unfold remapPairs. set (F := λ out p, _).
  assert (∀ out, foldM F pairs out = Ok (out ++ keepLive live new pairs)) as HF'; [|apply (HF' [])]. unfold F; clear F.
  induction HF as [|[i x] pairs (Hi & Hm & Hr) HF IH]; intros out; cbn [foldM]; [by rewrite app_nil_r|]. cbn [fst snd] in *.
  rewrite (idx_lookup _ _ _ Hi Hm). cbn [mbind res_bind]. unfold keepLive. cbn [omap list_omap fst snd]. destruct (live i).
  - rewrite decide_False by (specialize (Hr eq_refl); lia). cbn [mbind res_bind]. rewrite wrapU_small by (specialize (Hr eq_refl); lia).
    rewrite IH, <- app_assoc. done.
  - rewrite decide_True by lia. cbn [mbind res_bind]. apply IH.
Qed.

(** A loop over a map that rewrites each entry on its own. *)
Lemma foldM_entries {V} (f : gmap Z V → Z * V → res (gmap Z V)) (target : Z → V → option V) (m : gmap Z V) :
  (∀ k v st, m !! k = Some v → ∃ st', f st (k, v) = Ok st' ∧ ∀ k', st' !! k' = if decide (k' = k) then target k v else st !! k') →
  ∃ m', foldM f (map_to_list m) m = Ok m' ∧ ∀ k, m' !! k = match m !! k with Some v => target k v | None => None end.
Proof.
  intros Hf. pose (P := λ (n : nat) (st : gmap Z V), ∀ k, st !! k =
    if decide (k ∈ (take n (map_to_list m)).*1) then match m !! k with Some v => target k v | None => None end else m !! k).
  destruct (foldM_inv P f (map_to_list m) m) as (m' & -> & Hm').
  - intros k. rewrite decide_False; [done|]. change ((take 0 (map_to_list m)).*1) with (@nil Z). apply not_elem_of_nil.
  - intros n [k v] st Hn HP. pose proof (list_elem_of_lookup_2 _ _ _ Hn) as Hin. apply elem_of_map_to_list in Hin.
    destruct (Hf k v st Hin) as (st' & -> & Hst). exists st'. split; [done|]. intros k'. rewrite Hst, (take_S_r _ _ _ Hn), fmap_app.
    destruct (decide (k' = k)) as [->|Nk].
    + rewrite decide_True by (apply elem_of_app; right; by left). by rewrite Hin.
    + rewrite HP. assert (k' ∈ (take n (map_to_list m)).*1 ++ [(k, v)].*1 ↔ k' ∈ (take n (map_to_list m)).*1) as Hiff.
      { rewrite elem_of_app. simpl. rewrite list_elem_of_singleton. tauto. }
      destruct (decide (k' ∈ (take n (map_to_list m)).*1)); [rewrite decide_True by tauto|rewrite decide_False by tauto]; done.
  - exists m'. split; [done|]. intros k. rewrite Hm', take_ge by lia. case_decide as D; [done|].
    destruct (m !! k) as [v|] eqn:E; [|done]. exfalso. apply D, list_elem_of_fmap. exists (k, v). split; [done|]. by apply elem_of_map_to_list.
Qed.

Lemma remapRelPairs_ok {A} (live : Z → bool) (new : Z → Z) oldToNew (cols : colMap A) :
  (∀ k ps, cols !! k = Some ps → Forall (λ p, 0 ≤ p.1 ∧ oldToNew !! Z.to_nat p.1 = Some (if live p.1 then new p.1 else -1) ∧
    (live p.1 = true → is_u32 (new p.1))) ps) →
  remapRelPairs oldToNew cols = Ok (keepLiveMap live new cols).
Proof.
  intros Hc. unfold remapRelPairs.
  destruct (foldM_entries (λ cols (e : Z * list (Z * A)), out ← remapPairs oldToNew e.2;
    Ok (if decide (len out = 0) then delete e.1 cols else <[e.1 := out]> cols))
    (λ _ ps, match keepLive live new ps with [] => None | out => Some out end) cols) as (m' & -> & Hm').
  - intros k ps st Hk. cbn [fst snd]. rewrite (remapPairs_ok live new) by (by apply (Hc k)). cbn [mbind res_bind]. eexists. split; [done|].
    intros k'. destruct (keepLive live new ps) as [|q qs]; [rewrite decide_True by done|rewrite decide_False by (rewrite len_cons; pose proof (len_nonneg qs); lia)].
    + rewrite lookup_delete. case_decide; case_decide; naive_solver.
    + rewrite lookup_insert. case_decide; case_decide; naive_solver.
  - f_equal. apply map_eq. intros k. rewrite Hm'. unfold keepLiveMap. rewrite lookup_omap. by destruct (cols !! k).
Qed.

Section compaction.
Context {bm Snap : Type} `{RoaringSetLaws bm}.
Implicit Types b : Builder bm Snap.

Abbreviation lives b := (isLive (tombs b) (removedNodes b) (rels b)).
Abbreviation news b := (newIndex (tombs b) (removedNodes b) (rels b)).
Definition liveIdx b : list Z := liveBelow (tombs b) (removedNodes b) (rels b) (len (rels b)).
Definition liveRels b : list (Z * Z) := (λ i, rels b !!! Z.to_nat i) <$> liveIdx b.
Definition liveTypes b : list Z := (λ i, relTypes b !!! Z.to_nat i) <$> liveIdx b.

(** ** The compaction loop *)

(** After [i] rounds: the prefix holds the live relationships seen, the rest is
    untouched, and every index seen has its entry in the map. *)
Record compacting b (i : Z) (st : compactState) : Prop := {
  cg_kept : c_kept st = news b i;
  cg_map_len : len (c_map st) = len (rels b);
  cg_rels_len : length (c_rels st) = length (rels b);
  cg_types_len : length (c_types st) = length (rels b);
  cg_done : ∀ k x, liveBelow (tombs b) (removedNodes b) (rels b) i !! k = Some x →
    c_rels st !! k = Some (rels b !!! Z.to_nat x) ∧ c_types st !! k = Some (relTypes b !!! Z.to_nat x);
  cg_rest : ∀ j, i ≤ j → c_rels st !! Z.to_nat j = rels b !! Z.to_nat j ∧ c_types st !! Z.to_nat j = relTypes b !! Z.to_nat j;
  cg_map : ∀ j, 0 ≤ j < i → c_map st !! Z.to_nat j = Some (if lives b j then news b j else -1);
}.

Lemma mapEntry b i mp x : len mp = len (rels b) → 0 ≤ i < len (rels b) → x = (if lives b i then news b i else -1) →
  (∀ j, 0 ≤ j < i → mp !! Z.to_nat j = Some (if lives b j then news b j else -1)) →
  ∀ j, 0 ≤ j < i + 1 → <[Z.to_nat i := x]> mp !! Z.to_nat j = Some (if lives b j then news b j else -1).
Proof.
  intros Hl Hi -> Hmap j Hj. destruct (decide (j = i)) as [->|Nj].
  - apply list_lookup_insert_eq. unfold len in *. lia.
  - rewrite list_lookup_insert_ne by lia. apply Hmap. lia.
Qed.

Lemma compactStep_ok b i st : wf_builder b → len (rels b) < 2147483648 → 0 ≤ i < len (rels b) → compacting b i st →
  ∃ st', compactStep b st i = Ok st' ∧ compacting b (i + 1) st'.
Proof.
  intros Hw Hm Hi [Hk Hml Hrl Htl Hdone Hrest Hmap]. destruct st as [rs ts mp kept]. cbn [c_rels c_types c_map c_kept] in *. subst kept.
  pose proof (ro_types _ _ _ _ _ _ (wb_rels _ Hw)) as Hty.
  destruct (lookup_lt_is_Some_2 (rels b) (Z.to_nat i)) as [r Hr]; [unfold len in Hi; lia|].
  destruct (lookup_lt_is_Some_2 (relTypes b) (Z.to_nat i)) as [t Ht]; [unfold len in Hi; lia|].
  destruct (Hrest i ltac:(lia)) as [Er Et]. rewrite Hr in Er. rewrite Ht in Et.
  pose proof (newIndex_le (tombs b) (removedNodes b) (rels b) i ltac:(lia)) as Hn.
  unfold compactStep. cbn [c_rels c_types c_map c_kept]. rewrite (relRemovedIn_ok _ _ _ i r) by (done || lia).
  fold (tombs b). cbn [mbind res_bind].
  assert (lives b i = negb (dead (tombs b) (removedNodes b) i r)) as El by (unfold isLive; by rewrite (list_lookup_total_correct _ _ _ Hr)).
  pose proof (newIndex_S (tombs b) (removedNodes b) (rels b) i ltac:(lia)) as ES.
  pose proof (liveBelow_S (tombs b) (removedNodes b) (rels b) i ltac:(lia)) as EL.
  destruct (dead (tombs b) (removedNodes b) i r); simpl in El; rewrite El in ES, EL.
  - unfold upd. rewrite decide_True by lia. cbn [mbind res_bind]. eexists. split; [done|].
    split; cbn [c_rels c_types c_map c_kept]; [lia|by rewrite len_insert|done|done| |intros j Hj; apply Hrest; lia|].
    + intros k x Hx. apply Hdone. by rewrite EL, app_nil_r in Hx.
    + apply mapEntry; [done..|by rewrite El|done].
  - rewrite (wrapS_small 32) by lia. unfold upd. rewrite (decide_True (P := 0 ≤ i < len mp)) by lia. cbn [mbind res_bind].
    rewrite (idx_lookup rs i r), (idx_lookup ts i t) by (lia || done). cbn [mbind res_bind].
    rewrite !decide_True by (unfold len in *; lia). cbn [mbind res_bind]. eexists. split; [done|].
    split; cbn [c_rels c_types c_map c_kept]; rewrite ?len_insert, ?length_insert; [lia|done|done|done| | |].
    + intros k x Hx. rewrite EL in Hx. unfold newIndex, len in Hn |- *. rewrite !Nat2Z.id.
      apply lookup_app_Some in Hx as [Hx|[Hge Hx]].
      * apply lookup_lt_Some in Hx as Hlt. rewrite !list_lookup_insert_ne by lia. by apply Hdone.
      * apply list_lookup_singleton_Some in Hx as [Hz <-].
        assert (k = length (liveBelow (tombs b) (removedNodes b) (rels b) i)) as -> by lia.
        apply lookup_lt_Some in Hr as Hlt. rewrite !list_lookup_insert_eq by lia.
        by rewrite (list_lookup_total_correct _ _ _ Hr), (list_lookup_total_correct _ _ _ Ht).
    + intros j Hj. rewrite !list_lookup_insert_ne by lia. apply Hrest. lia.
    + apply mapEntry; [done..|by rewrite El|done].
Qed.

Lemma prefix_fmap {A} `{Inhabited A} (arr l : list A) (h : list Z) : (length h ≤ length arr)%nat →
  (∀ k x, h !! k = Some x → arr !! k = Some (l !!! Z.to_nat x)) → slice arr 0 (len h) = Ok ((λ x, l !!! Z.to_nat x) <$> h).
Proof.
  intros Hl Ha. rewrite slice_ok by (unfold len; lia). f_equal. rewrite drop_0, Z.sub_0_r, to_nat_len.
  apply list_eq_same_length with (n := length h); [by rewrite length_fmap|rewrite length_take; lia|].
  intros k x y Hk Hx Hy. rewrite lookup_take_lt in Hx by done. rewrite list_lookup_fmap in Hy.
  destruct (h !! k) as [z|] eqn:E; [|done]. injection Hy as <-. rewrite (Ha k z E) in Hx. congruence.
Qed.

Lemma compactLoop_ok b : wf_builder b → len (rels b) < 2147483648 → ∃ st,
  foldM (compactStep b) (zseq (len (rels b))) (mkCompact (rels b) (relTypes b) (replicate (Z.to_nat (len (rels b))) 0) 0) = Ok st ∧
  slice (c_rels st) 0 (c_kept st) = Ok (liveRels b) ∧ slice (c_types st) 0 (c_kept st) = Ok (liveTypes b) ∧
  ∀ i, 0 ≤ i < len (rels b) → c_map st !! Z.to_nat i = Some (if lives b i then news b i else -1).
Proof.
  intros Hw Hm. pose proof (ro_types _ _ _ _ _ _ (wb_rels _ Hw)) as Hty.
  destruct (foldM_zseq (compacting b) (compactStep b) (len (rels b)) (mkCompact (rels b) (relTypes b) (replicate (Z.to_nat (len (rels b))) 0) 0))
    as (st & E & [Hk Hml Hrl Htl Hdone _ Hmap]).
  - apply len_nonneg.
  - split; cbn [c_rels c_types c_map c_kept]; try done; [|lia]. rewrite len_replicate. unfold len. lia.
  - intros i st Hi Hst. by apply compactStep_ok.
  - exists st. split; [done|]. pose proof (newIndex_le (tombs b) (removedNodes b) (rels b) (len (rels b)) (len_nonneg _)) as Hle.
    rewrite Hk. unfold newIndex in *. fold (liveIdx b) in *. split; [|split; [|done]].
    + apply prefix_fmap; [unfold len in *; lia|]. intros k x Hx. by apply Hdone.
    + apply prefix_fmap; [unfold len in *; lia|]. intros k x Hx. by apply Hdone.
Qed.

(** ** Degrees *)

Lemma degree_empty own rs v : degree own ∅ rs v = len (filter (λ r, own r = v) rs).
Proof.
  unfold degree. rewrite (filter_ext_in _ (λ x : Z * (Z * Z), own x.2 = v)) by set_solver.
  induction rs as [|r rs IH] using rev_ind; [done|]. rewrite enum_app, !filter_app, !len_app, IH. f_equal.
  rewrite !filter_cons, !filter_nil. simpl. by case_decide.
Qed.

Lemma countDegrees_ok rs size : Forall (λ r, 0 ≤ r.1 < Z.of_nat size ∧ 0 ≤ r.2 < Z.of_nat size) rs → len rs ≤ MaxUint32 →
  ∃ dOut dIn, countDegrees rs (replicate size 0) (replicate size 0) = Ok (dOut, dIn) ∧
    length dOut = size ∧ length dIn = size ∧ degOK fst dOut ∅ rs ∧ degOK snd dIn ∅ rs.
Proof.
  intros HF Hm. unfold countDegrees.
  pose (P := λ (k : nat) (d : list Z * list Z), length d.1 = size ∧ length d.2 = size ∧ degOK fst d.1 ∅ (take k rs) ∧ degOK snd d.2 ∅ (take k rs)).
  match goal with |- context [foldM ?f rs ?b] => destruct (foldM_inv P f rs b) as ([dO dI] & -> & H1 & H2 & H3 & H4) end.
  - unfold P. cbn [fst snd]. rewrite length_replicate. split; [done|]. split; [done|].
    split; intros v d [-> _]%lookup_replicate; by rewrite degree_empty.
  - intros k r [dO dI] Hr (H1 & H2 & H3 & H4). cbn [fst snd] in *. pose proof (Forall_lookup_1 _ _ _ _ HF Hr) as [Hr1 Hr2].
    destruct (bump_ok dO r.1 1) as (dO' & EO & LO); [unfold len; lia|]. destruct (bump_ok dI r.2 1) as (dI' & EI & LI); [unfold len; lia|].
    rewrite EO, EI. cbn [mbind res_bind]. eexists. split; [done|]. unfold P. cbn [fst snd]. split; [lia|]. split; [lia|].
    rewrite (take_S_r _ _ _ Hr).
    assert (len (take k rs ++ [r]) ≤ MaxUint32) as Hl.
    { rewrite <- (take_S_r _ _ _ Hr). unfold len in *. rewrite length_take. lia. }
    split.
    + apply (degOK_bump fst dO dO' ∅ (take k rs) (take k rs ++ [r]) r ∅ 1); try done.
      intros v. by rewrite degree_app by set_solver.
    + apply (degOK_bump snd dI dI' ∅ (take k rs) (take k rs ++ [r]) r ∅ 1); try done.
      intros v. by rewrite degree_app by set_solver.
  - exists dO, dI. cbn [fst snd] in *. rewrite take_ge in H3, H4 by lia. done.
Qed.

(** ** The whole pass *)

(** Everything compaction leaves alone. *)
Definition sameRest b b' : Prop :=
  nodeLabels b' = nodeLabels b ∧ nodeCols b' = nodeCols b ∧ interner b' = interner b ∧ version b' = version b ∧
  nextNodeID b' = nextNodeID b ∧ knownNodes b' = knownNodes b ∧ length (degOut b') = length (degOut b) ∧ src b' = src b ∧
  srcRelToOutCSR b' = srcRelToOutCSR b ∧ dirtyNodeCols b' = dirtyNodeCols b ∧ dirtyRelCols b' = dirtyRelCols b ∧
  dirtyLabels b' = dirtyLabels b ∧ relsDirty b' = relsDirty b.

Record compacted b b' : Prop := {
  cp_rels : rels b' = liveRels b;
  cp_types : relTypes b' = liveTypes b;
  cp_relCols : relCols b' = keepLiveCols (lives b) (news b) (relCols b);
  cp_tombs : tombs b' = ∅;
  cp_marks : removedNodes b' = ∅;
  cp_rest : sameRest b b';
  cp_wf : wf_builder b';
}.

Lemma pending_nothing b : wf_builder b → hasRemovals b = false → tombs b = ∅ ∧ removedNodes b = ∅.
Proof.
  intros _ Hn. unfold hasRemovals in Hn. apply orb_false_iff in Hn as [H1 H2]. apply bool_decide_eq_false, dec_stable in H2.
  split; [|done]. unfold tombs. destruct (removedRels b) as [t|]; [|done]. rewrite bm_isEmpty in H1.
  apply negb_false_iff, bool_decide_eq_true in H1. done.
Qed.

Lemma all_live b : tombs b = ∅ → removedNodes b = ∅ → ∀ i, lives b i = true.
Proof. intros Et Em i. unfold isLive, dead, belowMark. by rewrite Et, Em, !lookup_empty. Qed.

Lemma all_live_idx b : (∀ i, lives b i = true) → liveIdx b = zseq (len (rels b)) ∧ ∀ i, 0 ≤ i → news b i = i.
Proof.
  intros Hl. assert (∀ n, liveBelow (tombs b) (removedNodes b) (rels b) n = zseq n) as E.
  { intros n. unfold liveBelow. induction (zseq n) as [|x l IH]; [done|]. by rewrite filter_cons_True, IH. }
  split; [apply E|]. intros i Hi. unfold newIndex. rewrite E. unfold zseq, len. rewrite length_fmap, length_seq. lia.
Qed.

Lemma keepLiveMap_id {A} (P : Z * A → Prop) (live : Z → bool) (new : Z → Z) (cols : colMap A) : pairsOK P cols →
  (∀ p, P p → live p.1 = true ∧ new p.1 = p.1) → keepLiveMap live new cols = cols.
Proof.
  intros Hc Hl. apply map_eq. intros k. unfold keepLiveMap. rewrite lookup_omap. destruct (cols !! k) as [ps|] eqn:E; [|done]. simpl.
  destruct (Hc k ps E) as [Hne HF]. assert (keepLive live new ps = ps) as ->; [|by destruct ps].
  clear -HF Hl. induction HF as [|[i x] ps Hp HF IH]; [done|]. unfold keepLive in *. cbn [omap list_omap fst snd].
  destruct (Hl _ Hp) as [E1 E2]. cbn [fst] in E1, E2. rewrite E1, E2. f_equal. exact IH.
Qed.

Lemma list_zseq_id {A} `{Inhabited A} (l : list A) n : n = len l → (λ i, l !!! Z.to_nat i) <$> zseq n = l.
Proof.
  intros ->. apply list_eq_same_length with (n := length l); [done|by unfold zseq; rewrite !length_fmap, length_seq, to_nat_len|].
  intros k x y Hk Hx Hy. unfold zseq in Hx. rewrite !list_lookup_fmap, lookup_seq_lt in Hx by (by rewrite to_nat_len). simpl in Hx.
  rewrite Nat2Z.id, (list_lookup_total_correct _ _ _ Hy) in Hx. congruence.
Qed.

Lemma compacted_nothing b : wf_builder b → hasRemovals b = false → compacted b b.
Proof.
  intros Hw Hn. destruct (pending_nothing b Hw Hn) as [Et Em]. pose proof (all_live b Et Em) as Hl.
  destruct (all_live_idx b Hl) as [Ei En]. pose proof (ro_types _ _ _ _ _ _ (wb_rels _ Hw)) as Hty.
  assert (∀ x, 0 ≤ x < len (rels b) → lives b x = true ∧ news b x = x) as Hx by (intros x Hx; split; [done|apply En; lia]).
  destruct (wb_relCols _ Hw) as [Ci Cf Cb Cs].
  split; try done.
  - unfold liveRels. rewrite Ei. by rewrite list_zseq_id.
  - unfold liveTypes. rewrite Ei. rewrite list_zseq_id; [done|]. unfold len. by rewrite Hty.
  - unfold keepLiveCols. destruct (relCols b) as [ci cf cb cs]. simpl in *.
    by rewrite (keepLiveMap_id _ _ _ ci Ci), (keepLiveMap_id _ _ _ cf Cf), (keepLiveMap_id _ _ _ cb Cb), (keepLiveMap_id _ _ _ cs Cs) by naive_solver.
Qed.

(** The kept pairs address the kept relationships. *)
Lemma pairsOK_keepLive {A} (P Q : Z * A → Prop) (live : Z → bool) (new : Z → Z) (cols : colMap A) : pairsOK P cols →
  (∀ p, P p → live p.1 = true → Q (new p.1, p.2)) → pairsOK Q (keepLiveMap live new cols).
Proof.
  intros Hc Hq k ps Hk. unfold keepLiveMap in Hk. rewrite lookup_omap in Hk. destruct (cols !! k) as [qs|] eqn:E; [|done]. simpl in Hk.
  destruct (Hc k qs E) as [_ HF]. assert (ps = keepLive live new qs ∧ ps ≠ []) as [-> Hne] by (destruct (keepLive live new qs); naive_solver).
  split; [done|]. apply Forall_forall. intros [i x] Hx. unfold keepLive in Hx. apply list_elem_of_omap in Hx as ([j y] & Hin & E').
  simpl in E'. destruct (live j) eqn:El; [|done]. injection E' as <- <-. rewrite Forall_forall in HF. apply (Hq (j, y)); [by apply HF|done].
Qed.

Lemma liveIdx_elem b x : x ∈ liveIdx b ↔ 0 ≤ x < len (rels b) ∧ lives b x = true.
Proof. unfold liveIdx, liveBelow. rewrite list_elem_of_filter, elem_of_zseq. tauto. Qed.

Lemma len_liveRels b : len (liveRels b) = news b (len (rels b)).
Proof. unfold liveRels. by rewrite len_fmap. Qed.

Lemma news_range b i : 0 ≤ i < len (rels b) → lives b i = true → 0 ≤ news b i < len (liveRels b).
Proof.
  intros Hi Hl. rewrite len_liveRels. pose proof (newIndex_le (tombs b) (removedNodes b) (rels b) i ltac:(lia)).
  pose proof (newIndex_mono (tombs b) (removedNodes b) (rels b) (i + 1) (len (rels b)) ltac:(lia)).
  pose proof (newIndex_S (tombs b) (removedNodes b) (rels b) i ltac:(lia)) as ES. rewrite Hl in ES. lia.
Qed.

Lemma liveRels_ends b : wf_builder b → Forall (λ r, (0 ≤ r.1 < len (degOut b) ∧ 0 ≤ r.2 < len (degOut b)) ∧ r.1 ∈ known b ∧ r.2 ∈ known b) (liveRels b).
Proof.
  intros Hw. pose proof (wb_rels _ Hw) as [_ _ Hends _ Hlive _]. apply Forall_forall. intros r Hr.
  apply list_elem_of_fmap in Hr as (i & -> & [Hi Hl]%liveIdx_elem).
  destruct (lookup_lt_is_Some_2 (rels b) (Z.to_nat i)) as [r Hr]; [unfold len in Hi; lia|].
  unfold isLive in Hl. rewrite (list_lookup_total_correct _ _ _ Hr) in Hl |- *. split; [exact (Forall_lookup_1 _ _ _ _ Hends Hr)|].
  apply (Hlive i r); [lia|done|]. by apply negb_true_iff in Hl.
Qed.

Lemma colsOK_keepLive b : wf_builder b → colsOK (λ x, 0 ≤ x < len (liveRels b)) (keepLiveCols (lives b) (news b) (relCols b)).
Proof.
  intros Hw. destruct (wb_relCols _ Hw) as [Ci Cf Cb Cs]. pose proof (news_range b) as Hr.
  split; (eapply pairsOK_keepLive; [eassumption|]); naive_solver.
Qed.

Lemma remap_all b st : wf_builder b → len (rels b) < 2147483648 →
  (∀ i, 0 ≤ i < len (rels b) → c_map st !! Z.to_nat i = Some (if lives b i then news b i else -1)) →
  let c := keepLiveCols (lives b) (news b) (relCols b) in
  remapRelPairs (c_map st) (colI64 (relCols b)) = Ok (colI64 c) ∧ remapRelPairs (c_map st) (colF64 (relCols b)) = Ok (colF64 c) ∧
  remapRelPairs (c_map st) (colBool (relCols b)) = Ok (colBool c) ∧ remapRelPairs (c_map st) (colStr (relCols b)) = Ok (colStr c).
Proof.
  intros Hw Hm Hmap c. assert (∀ {A} (P : Z * A → Prop) cols, pairsOK P cols → (∀ p, P p → 0 ≤ p.1 < len (rels b)) →
    remapRelPairs (c_map st) cols = Ok (keepLiveMap (lives b) (news b) cols)) as Hre.
  { intros A P cols Hc HP. apply remapRelPairs_ok. intros k ps Hk. destruct (Hc k ps Hk) as [_ HF]. eapply Forall_impl; [exact HF|].
    intros p Hp. pose proof (HP p Hp) as Hr. split; [lia|]. split; [by apply Hmap|]. intros _.
    pose proof (newIndex_le (tombs b) (removedNodes b) (rels b) p.1 ltac:(lia)). lia. }
  destruct (wb_relCols _ Hw) as [Ci Cf Cb Cs]. unfold c, keepLiveCols. cbn [colI64 colF64 colBool colStr].
  split_and!; eapply Hre; (eassumption || naive_solver).
Qed.

Lemma compactRemovals_ok b : wf_builder b → len (rels b) < 2147483648 → ∃ b', compactRemovals b = Ok b' ∧ compacted b b'.
Proof.
  intros Hw Hm. unfold compactRemovals. destruct (hasRemovals b) eqn:Eh; cbn [negb]; [|by exists b; split; [|apply compacted_nothing]].
  destruct (compactLoop_ok b Hw Hm) as (st & -> & Hr & Ht & Hmap). cbn [mbind res_bind]. rewrite Hr, Ht. cbn [mbind res_bind].
  pose proof (liveRels_ends b Hw) as Hends. pose proof (len_liveRels b) as Hlen.
  pose proof (newIndex_le (tombs b) (removedNodes b) (rels b) (len (rels b)) (len_nonneg _)) as Hle.
  rewrite (wb_degIn_len _ Hw). destruct (countDegrees_ok (liveRels b) (length (degOut b))) as (dO & dI & -> & LO & LI & DO & DI).
  { eapply Forall_impl; [exact Hends|]. simpl. tauto. }
  { lia. }
  cbn [mbind res_bind]. destruct (remap_all b st Hw Hm Hmap) as (-> & -> & -> & ->). cbn [mbind res_bind]. eexists. split; [done|].
  split; cbn; try done. pose proof (colsOK_keepLive b Hw) as Hc. destruct Hw as [W1 W2 W3 W4 _ _ _ W8 W9 _ _ W12].
  assert (∀ (l : list Z), length l = length (degOut b) → len l = len (degOut b)) as Hsz by (intros l E; unfold len; by rewrite E).
  split; unfold tombs, known in *; cbn; rewrite ?(Hsz dO) by done; try (done || congruence). split; cbn; try (done || set_solver).
  - unfold liveTypes, liveRels. by rewrite !length_fmap.
  - lia.
  - eapply Forall_impl; [exact Hends|]. simpl. tauto.
  - intros i r Hi Hri _. exact (proj2 (Forall_lookup_1 _ _ _ _ Hends Hri)).
Qed.

End compaction.

(** ** Properties *)

(** C33: Compaction keeps exactly the live relationships. From any well-formed
    staging state with fewer than 2^31 staged relationships, folding the pending
    removals in succeeds: the relationships left are the live ones in staging
    order with their types, a live relationship's properties sit at its new index
    in their staging order, a dead one's are gone, keys left empty disappear,
    degrees are recounted, nodes, labels and node properties are untouched, and
    the staging invariant holds with nothing pending. *)
Theorem compactRemovals_exact {bm Snap} `{RoaringSetLaws bm} (b : Builder bm Snap) : wf_builder b → len (rels b) < 2147483648 →
  ∃ b', compactRemovals b = Ok b' ∧ compacted b b' ∧
    ∀ i r t, rels b !! i = Some r → relTypes b !! i = Some t → dead (tombs b) (removedNodes b) (Z.of_nat i) r = false →
      let j := newIndex (tombs b) (removedNodes b) (rels b) (Z.of_nat i) in
      rels b' !! Z.to_nat j = Some r ∧ relTypes b' !! Z.to_nat j = Some t.
Proof.
  intros Hw Hm. destruct (compactRemovals_ok b Hw Hm) as (b' & E & Hc). exists b'. split; [done|]. split; [done|].
  intros i r t Hr Ht Hd j. rewrite (cp_rels _ _ Hc), (cp_types _ _ Hc). unfold liveRels, liveTypes. rewrite !list_lookup_fmap.
  unfold liveIdx, j. rewrite liveBelow_lookup.
  - simpl. by rewrite Nat2Z.id, (list_lookup_total_correct _ _ _ Hr), (list_lookup_total_correct _ _ _ Ht).
  - apply lookup_lt_Some in Hr. unfold len. lia.
  - unfold isLive. by rewrite Nat2Z.id, (list_lookup_total_correct _ _ _ Hr), Hd.
Qed.

Lemma compactRemovals_exact_witness : ∃ b', compactRemovals demoBuilder = Ok b' ∧ compacted demoBuilder b' ∧ rels b' = [(0, 1); (1, 0)].
Proof.
  destruct (compactRemovals_exact demoBuilder) as (b' & E & Hc & _).
  - destruct (runOps_wf (bm := gset Z) (Snap := ()) (take 7 demoOps) (NewBuilder 2 2)) as (b & E & Hb).
    + repeat constructor; simpl; lia.
    + apply NewBuilder_wf. lia.
    + unfold demoBuilder. by rewrite E.
  - by vm_compute.
  - exists b'. split; [done|]. split; [done|]. rewrite (cp_rels _ _ Hc). by vm_compute.
Defined.
