(* ===== verification/Finalize.v ===== *)
(** Finalization: [Finalize] of [src/finalize.go] with the sharing plan of
    [src/cow.go].

    A builder becomes an immutable snapshot: removals are folded in, both CSR
    directions, the type index, the label index and every property column are
    built - or shared with the source snapshot when the builder was thawed from
    one and the component is clean. The eagerly built and carried lazy indexes
    ([indexProperties], [carryLazyCaches]) are caches of what the columns say and
    are left out. The theorems are in [FinalizeSpec]. *)

From S2P Require Import Prelude Value AtomTable Columns FinalizeColumns NodeSet Csr RelTypes InToOut Snapshot Builder.

Section finalize.
Context {bm : Type} `{RoaringSet bm}.
Abbreviation B := (Builder bm (Snapshot bm)).
Implicit Types (b : B) (g s : Snapshot bm).

(** ** The sharing plan (cow.go) *)

Record aliasPlan := mkPlan { p_src : option (Snapshot bm); p_csr : bool; p_idSpace : bool; p_labels : bool }.

Definition newAliasPlan b (n m : Z) : aliasPlan :=
  match src b with
  | None => mkPlan None false false false
  | Some s =>
      let idSpace := bool_decide (n = CSRIDSpace s) in
      mkPlan (Some s)
        (negb (relsDirty b) && idSpace && bool_decide (m = len (outNbrs s)) && bool_decide (len (srcRelToOutCSR b) = m))
        idSpace (bool_decide (dirtyLabels b = ∅))
  end.

Definition nodeColumn (p : aliasPlan) b (key : Z) : option Column :=
  match p_src p with
  | None => None
  | Some s => if negb (p_idSpace p) then None else if decide (key ∈ dirtyNodeCols b) then None else columns s !! key
  end.

Definition relColumn (p : aliasPlan) b (key : Z) : option Column :=
  match p_src p with
  | None => None
  | Some s => if negb (p_csr p) then None else if decide (key ∈ dirtyRelCols b) then None else relColumns s !! key
  end.

Definition labelClean (p : aliasPlan) b (label : Z) : bool :=
  match p_src p with
  | None => false
  | Some s => if decide (label ∈ dirtyLabels b) then false else bool_decide (is_Some (labelIndex s !! label))
  end.

Definition aliasAtoms (p : aliasPlan) b : Atoms :=
  match p_src p with
  | Some s => if decide (Interner_Len (interner b) = AtomTable.Len (atoms s)) then atoms s else Interner_Atoms (interner b)
  | None => Interner_Atoms (interner b)
  end.

(** ** Indexes *)

(** [byType[t] = append(byType[t], pos)] *)
Definition groupStep (byKey : gmap Z (list Z)) (key pos : Z) : gmap Z (list Z) := <[key := default [] (byKey !! key) ++ [pos]]> byKey.
Definition bitmapOf (ids : list Z) : Set_ bm := FromBitmap (bmAddMany bmNew ids).

Definition buildTypeIndex (types : RelTypes.relTypes) : res (gmap Z (Set_ bm)) :=
  byType ← foldM (λ (byType : gmap Z (list Z)) (pos : Z), t ← RelTypes.At types pos; Ok (groupStep byType t pos)) (zseq (RelTypes.Len types)) ∅;
  Ok (fmap (M := gmap Z) bitmapOf byType).

Definition labelStep (p : aliasPlan) b (id : Z) (byLabel : gmap Z (list Z)) (l : Z) : gmap Z (list Z) :=
  if labelClean p b l then byLabel else groupStep byLabel l (to_u32 id).

Definition finalizeLabels b (n : Z) (p : aliasPlan) : res (gmap Z (Set_ bm)) :=
  match p_src p, p_labels p with
  | Some s, true => Ok (labelIndex s)
  | _, _ =>
      lists ← slice (nodeLabels b) 0 (Z.min n (len (nodeLabels b)));
      let byLabel := foldl (λ byLabel (x : Z * list Z), foldl (labelStep p b x.1) byLabel x.2) ∅ (enum lists) in
      let kept := match p_src p with
        | Some s => filter (λ e : Z * Set_ bm, labelClean p b e.1 = true) (labelIndex s)
        | None => ∅ end in
      Ok ((bitmapOf <$> byLabel) ∪ kept)
  end.

(** ** Columns *)

Definition finalizeNodeColumns {A} (p : aliasPlan) b (cols : gmap Z Column) (staged : colMap A) (span : Z)
    (build : list (Z * A) → Z → res Column) : res (gmap Z Column) :=
  foldM (λ cols (e : Z * list (Z * A)),
    match nodeColumn p b e.1 with
    | Some col => Ok (<[e.1 := col]> cols)
    | None => col ← build e.2 span; Ok (<[e.1 := col]> cols)
    end) (map_to_list staged) cols.

Definition remapToCSR {A} (relToOutCSR : list Z) (pairs : list (Z * A)) : res (list (Z * A)) :=
  mapM (λ p, pos ← idx relToOutCSR p.1; Ok (pos, p.2)) pairs.

Definition finalizeRelColumns {A} (p : aliasPlan) b (cols : gmap Z Column) (staged : colMap A) (span : Z) (relToOutCSR : list Z)
    (build : list (Z * A) → Z → res Column) : res (gmap Z Column) :=
  foldM (λ cols (e : Z * list (Z * A)),
    match relColumn p b e.1 with
    | Some col => Ok (<[e.1 := col]> cols)
    | None => out ← remapToCSR relToOutCSR e.2; col ← build out span; Ok (<[e.1 := col]> cols)
    end) (map_to_list staged) cols.

(** ** The drop diagnostic *)

Definition stagedLens {A} (m : colMap A) : gmap Z Z := len <$> m.

Record dropState := mkDrop { d_total : gmap Z Z; d_winner : gmap Z Z; d_multi : gset Z }.
Definition dropStep (st : dropState) (e : Z * Z) : dropState :=
  let '(k, cnt) := e in
  mkDrop (<[k := default 0 (d_total st !! k) + cnt]> (d_total st)) (<[k := cnt]> (d_winner st))
    (if decide (is_Some (d_total st !! k)) then {[k]} ∪ d_multi st else d_multi st).

Definition crossTypedDropCount (families : list (gmap Z Z)) : Z :=
  let st := foldl (λ st f, foldl dropStep st (map_to_list f)) (mkDrop ∅ ∅ ∅) families in
  foldl (λ dropped k, dropped + (default 0 (d_total st !! k) - default 0 (d_winner st !! k))) 0 (elements (d_multi st)).

Definition familyLens (c : typedCols) : list (gmap Z Z) :=
  [stagedLens (colI64 c); stagedLens (colF64 c); stagedLens (colBool c); stagedLens (colStr c)].

(** ** Finalize *)

(** What either branch of the adjacency build yields. *)
Record topology := mkTopology {
  t_outOffsets : list Z; t_outNbrs : list Z; t_outTypes : RelTypes.relTypes;
  t_inOffsets : list Z; t_inNbrs : list Z; t_inTypes : RelTypes.relTypes;
  t_typeIndex : gmap Z (Set_ bm); t_inToOut : option (list Z); t_relToOutCSR : list Z;
}.

Definition aliasCSR b s (hasRelProps : bool) : res topology :=
  ito ← (if hasRelProps then shared ← getInToOut s; Ok (Some shared) else Ok None);
  Ok (mkTopology (outOffsets s) (outNbrs s) (outTypes s) (inOffsets s) (inNbrs s) (inTypes s) (typeIndex s) ito (srcRelToOutCSR b)).

Definition buildCSR b (n : Z) : res topology :=
  '(oo, on, wo, relToOut) ← buildCSRDirection n (rels b) (Builder.relTypes b) (degOut b) 0;
  ot ← compressRelTypes wo;
  '(io, inn, wi, _) ← buildCSRDirection n (rels b) (Builder.relTypes b) (degIn b) 1;
  it ← compressRelTypes wi;
  ti ← buildTypeIndex ot;
  Ok (mkTopology oo on ot io inn it ti None relToOut).

Definition hasRelColumns (c : typedCols) : bool :=
  bool_decide (0 < Z.of_nat (size (colI64 c)) + Z.of_nat (size (colF64 c)) + Z.of_nat (size (colBool c)) + Z.of_nat (size (colStr c))).

(** [n := Maximum + 1], at least one slot. *)
Definition idSpace b : Z := if bmIsEmpty (knownNodes b) then 1 else bmMaximum (knownNodes b) + 1.

(** The body after the removals are folded in. *)
Definition finalizeStaged b : res (Snapshot bm) :=
  let n := idSpace b in
  let m := len (rels b) in
  let plan := newAliasPlan b n m in
  let hasRelProps := hasRelColumns (relCols b) in
  top ← (match p_src plan with
         | Some s => if p_csr plan then aliasCSR b s hasRelProps else buildCSR b n
         | None => buildCSR b n
         end);
  labels ← finalizeLabels b n plan;
  cols ← finalizeNodeColumns plan b ∅ (colI64 (nodeCols b)) n columnFromPairsI64;
  cols ← finalizeNodeColumns plan b cols (colF64 (nodeCols b)) n columnFromPairsF64;
  cols ← finalizeNodeColumns plan b cols (colBool (nodeCols b)) n columnFromPairsBool;
  cols ← finalizeNodeColumns plan b cols (colStr (nodeCols b)) n columnFromPairsStr;
  rcols ← finalizeRelColumns plan b ∅ (colI64 (relCols b)) m (t_relToOutCSR top) columnFromPairsI64;
  rcols ← finalizeRelColumns plan b rcols (colF64 (relCols b)) m (t_relToOutCSR top) columnFromPairsF64;
  rcols ← finalizeRelColumns plan b rcols (colBool (relCols b)) m (t_relToOutCSR top) columnFromPairsBool;
  rcols ← finalizeRelColumns plan b rcols (colStr (relCols b)) m (t_relToOutCSR top) columnFromPairsStr;
  let dropped := crossTypedDropCount (familyLens (nodeCols b)) + crossTypedDropCount (familyLens (relCols b)) in
  Ok (mkSnapshot (to_u32 (bmGetCardinality (knownNodes b))) (to_u64 m)
    (t_outOffsets top) (t_outNbrs top) (t_outTypes top) (t_inOffsets top) (t_inNbrs top) (t_inTypes top)
    (t_inToOut top) hasRelProps labels (t_typeIndex top) (Builder.version b) cols rcols dropped
    (Some (FromBitmap (knownNodes b))) (aliasAtoms plan b)).

Definition Finalize b : res (Snapshot bm) := b ← compactRemovals b; finalizeStaged b.

End finalize.
