(* ===== verification/FinalizeSpec.v ===== *)
(** What finalization promises: the snapshot holds exactly the staged graph.

    For a builder with no source snapshot, [Finalize] succeeds and its result is
    described in terms of the staging state alone: the nodes, the labels, each
    node's live relationships in both directions in staging order with their
    types and property positions, and for every property key the value written
    last under the kind that wins. Together with [Traverse] this covers the way
    from the staging calls to every traversal route. *)

From S2P Require Import Prelude Value AtomTable Columns FinalizeColumns NodeSet Csr RelTypes InToOut Snapshot TypedAdj Traverse.
From S2P Require Import Builder BuilderInv Compaction Finalize.

(** ** Columns against staged values *)

(** A read answers what was written there; where nothing was, nothing is found,
    except that a dense string column answers the empty string. *)
Definition readsAs (c : Column) (pos : Z) (o : option Value) : Prop :=
  match o with
  | Some v => Column_Get c pos = Ok (v, true)
  | None => ∃ v ok, Column_Get c pos = Ok (v, ok) ∧ (ok = true → Column_Dtype c = DtypeStr ∧ v = StrValue 0)
  end.
Definition holds (c : Column) (m : gmap Z Value) : Prop := ∀ pos, 0 ≤ pos → readsAs c pos (m !! pos).

Lemma stores_holds c m : stores c m → holds c m.
Proof.
  intros (l & Hr & <-) pos Hpos. pose proof (rp_get _ _ Hr pos Hpos) as E. unfold readsAs. destruct (list_to_map l !! pos); [done|].
  rewrite E. by eexists _, _.
Qed.

Lemma columnStr_holds pairs span : 0 ≤ span < 4294967296 → inSpan span pairs →
  ∃ c, columnFromPairsStr pairs span = Ok c ∧ holds c (StrValue <$> written pairs).
Proof.
  intros Hs HF. destruct (columnFromPairsStr_ok pairs span Hs HF) as (c & E & Hd & Hc). exists c. split; [done|].
  destruct Hc as [Hc|(col & Hr & Hl & Hc)]; [by apply stores_holds|]. intros pos Hpos.
  pose proof (rp_get _ _ Hr pos Hpos) as Eg. rewrite lookup_enum_map, decide_True, list_lookup_fmap in Eg by done.
  unfold readsAs. rewrite lookup_fmap, Eg. destruct (decide (pos < span)) as [Hlt|Hge].
  - rewrite (Hc pos) by lia. destruct (written pairs !! pos); simpl; [done|]. eexists _, _. done.
  - rewrite (lookup_ge_None_2 col) by (unfold len in Hl; lia). destruct (written pairs !! pos) eqn:Ew; simpl; [|eexists _, _; done].
    assert (pos ∈ pairs.*1) as (p & -> & Hp)%list_elem_of_fmap by (apply written_dom; eauto).
    unfold inSpan in HF. rewrite Forall_forall in HF. specialize (HF p Hp). simpl in HF. lia.
Qed.

(** A builder of columns that keeps what it is given. *)
Definition builds {A} (mk : A → Value) (P : Z * A → Prop) (build : list (Z * A) → Z → res Column) : Prop :=
  ∀ pairs span, 0 ≤ span < 4294967296 → inSpan span pairs → Forall P pairs → ∃ c, build pairs span = Ok c ∧ holds c (mk <$> written pairs).

Lemma builds_of_stores {A} (mk : A → Value) (P : Z * A → Prop) build :
  (∀ pairs span, 0 ≤ span < 4294967296 → inSpan span pairs → Forall P pairs → ∃ c, build pairs span = Ok c ∧ stores c (mk <$> written pairs)) →
  builds mk P build.
Proof.
  intros Hb pairs span Hs HF HP. destruct (Hb pairs span Hs HF HP) as (c & E & Hc). exists c. split; [done|]. by apply stores_holds.
Qed.

Lemma builds_I64 : builds I64Value (λ p, is_i64 p.2) columnFromPairsI64.
Proof. apply builds_of_stores. intros pairs span Hs HF HP. destruct (columnFromPairsI64_ok pairs span Hs HF HP) as (c & ? & ? & _). eauto. Qed.
Lemma builds_F64 : builds F64Value (λ _, True) columnFromPairsF64.
Proof. apply builds_of_stores. intros pairs span Hs HF _. destruct (columnFromPairsF64_ok pairs span Hs HF) as (c & ? & ? & _). eauto. Qed.
Lemma builds_Bool : builds BoolValue (λ _, True) columnFromPairsBool.
Proof. apply builds_of_stores. intros pairs span Hs HF _. destruct (columnFromPairsBool_ok pairs span Hs HF) as (c & ? & ? & _). eauto. Qed.
Lemma builds_Str : builds StrValue (λ _, True) columnFromPairsStr.
Proof. intros pairs span Hs HF _. by apply columnStr_holds. Qed.

(** The staged values of a key: the kinds are finalized in a fixed order, so the
    last one staged wins. *)
Definition stagedValues (c : typedCols) (key : Z) : option (gmap Z Value) :=
  match colStr c !! key, colBool c !! key, colF64 c !! key, colI64 c !! key with
  | Some ps, _, _, _ => Some (StrValue <$> written ps)
  | _, Some ps, _, _ => Some (BoolValue <$> written ps)
  | _, _, Some ps, _ => Some (F64Value <$> written ps)
  | _, _, _, Some ps => Some (I64Value <$> written ps)
  | _, _, _, _ => None
  end.

(** Every key's column answers, at the position of each [x] of the domain, the
    staged value of [x]; keys without staged values have no column. *)
Definition colsHold (D : Z → Prop) (at_ : Z → Z) (cols : gmap Z Column) (c : typedCols) : Prop :=
  ∀ key, match stagedValues c key with
         | Some m => ∃ col, cols !! key = Some col ∧ ∀ x, D x → readsAs col (at_ x) (m !! x)
         | None => cols !! key = None
         end.

(** ** The column loops *)

(** A loop that stores one column a key. *)
Lemma foldM_columns {V} (f : gmap Z Column → Z * V → res (gmap Z Column)) (Q : Z → Column → V → Prop) (staged : gmap Z V) cols :
  (∀ k v cols, staged !! k = Some v → ∃ c, f cols (k, v) = Ok (<[k := c]> cols) ∧ Q k c v) →
  ∃ cols', foldM f (map_to_list staged) cols = Ok cols' ∧
    ∀ k, match staged !! k with Some v => ∃ c, cols' !! k = Some c ∧ Q k c v | None => cols' !! k = cols !! k end.
Proof.
  intros Hf. pose (P := λ (n : nat) (st : gmap Z Column), ∀ k,
    if decide (k ∈ (take n (map_to_list staged)).*1) then ∃ v c, staged !! k = Some v ∧ st !! k = Some c ∧ Q k c v else st !! k = cols !! k).
  destruct (foldM_inv P f (map_to_list staged) cols) as (cols' & -> & HP).
  - intros k. rewrite decide_False; [done|]. change ((take 0 (map_to_list staged)).*1) with (@nil Z). apply not_elem_of_nil.
  - intros n [k v] st Hn HP. pose proof (list_elem_of_lookup_2 _ _ _ Hn) as Hin. apply elem_of_map_to_list in Hin.
    destruct (Hf k v st Hin) as (c & -> & HQ). eexists. split; [done|]. intros k'. rewrite (take_S_r _ _ _ Hn), fmap_app. specialize (HP k'). cbn beta in HP.
    assert (k' ∈ (take n (map_to_list staged)).*1 ++ [(k, v)].*1 ↔ k' ∈ (take n (map_to_list staged)).*1 ∨ k' = k) as Hiff.
    { rewrite elem_of_app. simpl. by rewrite list_elem_of_singleton. }
    destruct (decide (k' = k)) as [->|Nk]; [rewrite decide_True by tauto; exists v, c; rewrite lookup_insert_eq; done|].
    rewrite lookup_insert_ne by done. do 2 case_decide; tauto || done.
  - exists cols'. split; [done|]. intros k. specialize (HP k). cbn beta in HP. rewrite take_ge in HP by lia.
    destruct (staged !! k) as [v|] eqn:E.
    + rewrite decide_True in HP; [naive_solver|]. apply list_elem_of_fmap. exists (k, v). by rewrite elem_of_map_to_list.
    + rewrite decide_False in HP; [done|]. intros ([k' v] & -> & Hin)%list_elem_of_fmap. apply elem_of_map_to_list in Hin. simpl in E. congruence.
Qed.

(** Moving every pair to another position moves what was written. *)
Lemma written_remap {A} (D : Z → Prop) (at_ : Z → Z) (ps : list (Z * A)) x : (∀ a b, D a → D b → at_ a = at_ b → a = b) →
  Forall (λ p, D p.1) ps → D x → written ((λ p : Z * A, (at_ p.1, p.2)) <$> ps) !! at_ x = written ps !! x.
Proof.
  intros Hinj HF Hx. induction ps as [|p ps IH] using rev_ind; [unfold written; simpl; by rewrite !lookup_empty|].
  apply Forall_app in HF as [HF [Hp _]%Forall_cons]. rewrite fmap_app. cbn [fmap list_fmap]. rewrite !written_app. simpl.
  rewrite !lookup_insert, (IH HF). do 2 case_decide; naive_solver.
Qed.

Section columns.
Context {bm : Type} `{RoaringSet bm}.
Abbreviation B := (Builder bm (Snapshot bm)).
Context (b : B) (p : aliasPlan (bm := bm)) (Hp : p_src p = None).

(** One family of node columns, or of relationship columns moved by [at_]. *)
Definition familyHolds {A} (D : Z → Prop) (at_ : Z → Z) (mk : A → Value) (staged : colMap A) (cols cols' : gmap Z Column) : Prop :=
  ∀ k, match staged !! k with
       | Some ps => ∃ c, cols' !! k = Some c ∧ ∀ x, D x → readsAs c (at_ x) ((mk <$> written ps) !! x)
       | None => cols' !! k = cols !! k
       end.

Lemma finalizeNodeColumns_ok {A} (mk : A → Value) (P : Z * A → Prop) build cols staged span : builds mk P build →
  0 ≤ span < 4294967296 → pairsOK (λ q, 0 ≤ q.1 < span ∧ P q) staged →
  ∃ cols', finalizeNodeColumns p b cols staged span build = Ok cols' ∧ familyHolds (λ x, 0 ≤ x) id mk staged cols cols'.
Proof using Hp.
  intros Hb Hs Hok. unfold finalizeNodeColumns.
  apply (foldM_columns _ (λ _ c ps, ∀ x, 0 ≤ x → readsAs c x ((mk <$> written ps) !! x))). intros k ps st Hk. cbn [fst snd].
  unfold nodeColumn. rewrite Hp. destruct (Hok k ps Hk) as [_ [HF HP]%Forall_and].
  destruct (Hb ps span Hs HF HP) as (c & -> & Hc). cbn [mbind res_bind]. exists c. by split.
Qed.

Lemma remapToCSR_ok {A} (D : Z → Prop) relToOut (at_ : Z → Z) (ps : list (Z * A)) : (∀ x, D x → 0 ≤ x ∧ relToOut !! Z.to_nat x = Some (at_ x)) →
  Forall (λ q, D q.1) ps → remapToCSR relToOut ps = Ok ((λ q : Z * A, (at_ q.1, q.2)) <$> ps).
Proof.
  intros Hat. unfold remapToCSR. induction 1 as [|q ps Hq HF IH]; [done|]. cbn [mapM]. destruct (Hat _ Hq) as [H0 Hq'].
  rewrite (idx_lookup _ _ _ H0 Hq'). cbn [mbind res_bind]. rewrite IH. done.
Qed.

Lemma finalizeRelColumns_ok {A} (D : Z → Prop) relToOut (at_ : Z → Z) (mk : A → Value) (P : Z * A → Prop) build cols staged span :
  builds mk P build → 0 ≤ span < 4294967296 →
  (∀ x, D x → (0 ≤ x ∧ relToOut !! Z.to_nat x = Some (at_ x)) ∧ 0 ≤ at_ x < span) → (∀ x y, D x → D y → at_ x = at_ y → x = y) →
  (∀ i j v, P (i, v) → P (j, v)) → pairsOK (λ q, D q.1 ∧ P q) staged →
  ∃ cols', finalizeRelColumns p b cols staged span relToOut build = Ok cols' ∧ familyHolds D at_ mk staged cols cols'.
Proof using Hp.
  intros Hb Hs Hat Hinj HPe Hok. unfold finalizeRelColumns.
  apply (foldM_columns _ (λ _ c ps, ∀ x, D x → readsAs c (at_ x) ((mk <$> written ps) !! x))). intros k ps st Hk. cbn [fst snd].
  unfold relColumn. rewrite Hp. destruct (Hok k ps Hk) as [_ [HF HP]%Forall_and].
  rewrite (remapToCSR_ok D relToOut at_ ps) by (done || naive_solver). cbn [mbind res_bind].
  destruct (Hb ((λ q : Z * A, (at_ q.1, q.2)) <$> ps) span) as (c & -> & Hc); [done|..].
  - apply Forall_fmap. eapply Forall_impl; [exact HF|]. intros q Hq. by apply Hat.
  - apply Forall_fmap. eapply Forall_impl; [exact HP|]. intros [i v]. simpl. apply HPe.
  - cbn [mbind res_bind]. exists c. split; [done|]. intros x Hx. destruct (Hat x Hx) as [_ ?].
    rewrite lookup_fmap, <- (written_remap D at_ ps x), <- lookup_fmap by done. apply Hc. lia.
Qed.

(** The four families in order leave the winner of each key. *)
Lemma families_hold D at_ (c : typedCols) c1 c2 c3 c4 :
  familyHolds D at_ I64Value (colI64 c) ∅ c1 → familyHolds D at_ F64Value (colF64 c) c1 c2 →
  familyHolds D at_ BoolValue (colBool c) c2 c3 → familyHolds D at_ StrValue (colStr c) c3 c4 → colsHold D at_ c4 c.
Proof.
  intros H1 H2 H3 H4 k. specialize (H1 k). specialize (H2 k). specialize (H3 k). specialize (H4 k). unfold stagedValues.
  destruct (colStr c !! k); [done|]. rewrite H4. destruct (colBool c !! k); [done|]. rewrite H3.
  destruct (colF64 c !! k); [done|]. rewrite H2. destruct (colI64 c !! k); [done|]. by rewrite H1, lookup_empty.
Qed.

End columns.

(** ** Grouped indexes *)

Definition grouped (l : list (Z * Z)) : gmap Z (list Z) := foldl (λ m x, groupStep m x.1 x.2) ∅ l.

Lemma groupStep_lookup m k' x k : groupStep m k' x !! k = if decide (k' = k) then Some (default [] (m !! k) ++ [x]) else m !! k.
Proof. unfold groupStep. rewrite lookup_insert. by case_decide; subst. Qed.

Lemma grouped_lookup l k : grouped l !! k = match (filter (λ x, x.1 = k) l).*2 with [] => None | ps => Some ps end.
Proof.
  unfold grouped. induction l as [|[k' x] l IH] using rev_ind; [simpl; by rewrite lookup_empty|].
  rewrite foldl_app, filter_app, fmap_app, filter_cons, filter_nil. cbn [foldl fst snd]. rewrite groupStep_lookup, IH.
  destruct (decide (k' = k)) as [->|Nk].
  - simpl. by destruct (filter _ l).*2.
  - simpl. by rewrite app_nil_r.
Qed.

Lemma grouped_concat (ls : list (Z * list Z)) m :
  foldl (λ m (x : Z * list Z), foldl (λ m l, groupStep m l (to_u32 x.1)) m x.2) m ls =
  foldl (λ m x, groupStep m x.1 x.2) m (concat ((λ x : Z * list Z, (λ l, (l, to_u32 x.1)) <$> x.2) <$> ls)).
Proof.
  revert m. induction ls as [|[i xs] ls IH]; intros m; [done|]. cbn [foldl fmap list_fmap concat fst snd]. rewrite foldl_app, <- IH. f_equal.
  clear. revert m. induction xs as [|x xs IH]; intros m; [done|]. cbn [foldl fmap list_fmap fst snd]. apply IH.
Qed.

Section indexes.
Context {bm : Type} `{RoaringSetLaws bm}.

(** An index of sets by key contains [x] under [k]. *)
Definition indexed (index : gmap Z (Set_ bm)) (k x : Z) : Prop := ∃ s, index !! k = Some s ∧ Contains s x = true.

Lemma indexed_grouped l k x : indexed (fmap (M := gmap Z) bitmapOf (grouped l)) k x ↔ (k, x) ∈ l.
Proof.
  unfold indexed. rewrite lookup_fmap, grouped_lookup. assert (x ∈ (filter (λ x, x.1 = k) l).*2 ↔ (k, x) ∈ l) as Hin.
  { rewrite list_elem_of_fmap. split.
    - intros ([k' x'] & -> & [Hk Hin]%list_elem_of_filter). simpl in *. by subst.
    - intros Hin. exists (k, x). split; [done|]. by apply list_elem_of_filter. }
  rewrite <- Hin. destruct (filter (λ x, x.1 = k) l).*2 as [|y ys]; simpl.
  - split; [naive_solver|]. by intros ?%not_elem_of_nil.
  - unfold bitmapOf. assert (Contains (FromBitmap (bmAddMany bmNew (y :: ys))) x = true ↔ x ∈ y :: ys) as <-; [|naive_solver].
    unfold Contains, FromBitmap. simpl. rewrite bm_contains, bool_decide_eq_true, bm_addMany, bm_new, (right_id_L ∅ (∪)). apply elem_of_list_to_set.
Qed.

Lemma buildTypeIndex_ok (types : RelTypes.relTypes) : wf_types types → ∃ index : gmap Z (Set_ bm), buildTypeIndex types = Ok index ∧
  ∀ t pos, indexed index t pos ↔ 0 ≤ pos ∧ typesOf types !! Z.to_nat pos = Some t.
Proof.
  intros Hw. unfold buildTypeIndex. rewrite <- len_typesOf.
  pose (P := λ i m, m = grouped ((λ p, (typesOf types !!! Z.to_nat p, p)) <$> zseq i)).
  match goal with |- context [foldM ?f (zseq ?n) ?b] => destruct (foldM_zseq P f n b) as (m & -> & ->) end.
  - apply len_nonneg.
  - done.
  - intros i m Hi ->. destruct (idx_ok (typesOf types) i Hi) as (t & _ & Ht). rewrite (At_typesOf types i t) by (done || lia).
    cbn [mbind res_bind]. eexists. split; [done|]. unfold P, grouped. rewrite zseq_S, fmap_app, foldl_app by lia. simpl.
    by rewrite (list_lookup_total_correct _ _ _ Ht).
  - cbn [mbind res_bind]. eexists. split; [done|]. intros t pos. rewrite indexed_grouped, list_elem_of_fmap. split.
    + intros (p & [= -> <-] & Hp%elem_of_zseq). split; [lia|]. apply list_lookup_lookup_total_lt. unfold len in Hp. lia.
    + intros [Hp Ht]. exists pos. rewrite (list_lookup_total_correct _ _ _ Ht), elem_of_zseq. split; [done|].
      apply lookup_lt_Some in Ht. unfold len. lia.
Qed.

End indexes.

(** ** The compacted staging state *)

Section staged.
Context {bm : Type} `{RoaringSetLaws bm}.
Abbreviation B := (Builder bm (Snapshot bm)).
Context (b : B).
Hypothesis Hw : wf_builder b.
Hypothesis Htombs : tombs b = ∅.
Hypothesis Hmarks : removedNodes b = ∅.
Hypothesis Htypes : Forall (λ t, 0 ≤ t < MaxUint32) (relTypes b).

Abbreviation n := (idSpace b).

Lemma idSpace_ok : 0 < n ≤ len (degOut b) ∧ ∀ x, x ∈ known b → 0 ≤ x < n.
Proof using Hw.
  unfold idSpace. rewrite bm_isEmpty. pose proof (wb_size _ Hw) as Hs. pose proof (wb_known _ Hw) as Hk. unfold known in *. case_bool_decide as E.
  - rewrite E. split; [lia|]. by intros x ?%elem_of_empty.
  - destruct (bm_maximum _ E) as [Hin Hmax]. pose proof (Hk _ Hin). split; [lia|]. intros x Hx. pose proof (Hmax x Hx). pose proof (Hk x Hx). lia.
Qed.

Lemma rels_inSpace : Forall (λ r, 0 ≤ r.1 < n ∧ 0 ≤ r.2 < n) (rels b).
Proof using Hw Htombs Hmarks.
  destruct idSpace_ok as [_ Hk]. apply Forall_lookup. intros i r Hr.
  destruct (ro_live _ _ _ _ _ _ (wb_rels _ Hw) (Z.of_nat i) r) as [H1 H2]; [lia|by rewrite Nat2Z.id| |by split; apply Hk].
  rewrite Htombs, Hmarks. unfold dead, belowMark. by rewrite !lookup_empty, bool_decide_eq_false_2 by apply not_elem_of_empty.
Qed.

Lemma degOK_staged own deg v : degOK own deg (tombs b) (rels b) → 0 ≤ v < len deg → deg !! Z.to_nat v = Some (equal own (rels b) v).
Proof using Htombs.
  intros Hd Hv. destruct (lookup_lt_is_Some_2 deg (Z.to_nat v)) as [d Hl]; [unfold len in Hv; lia|]. rewrite Hl. f_equal.
  rewrite (Hd _ _ Hl), Htombs, degree_empty, Z2Nat.id by lia. done.
Qed.

Lemma staged_dirs : staged n (rels b) (relTypes b) (degOut b) 0 ∧ staged n (rels b) (relTypes b) (degIn b) 1.
Proof using Hw Htombs Hmarks.
  destruct idSpace_ok as [Hn _]. pose proof rels_inSpace as Hends. pose proof (wb_size _ Hw) as Hs. pose proof (wb_degIn_len _ Hw) as Hl.
  pose proof (wb_rels _ Hw) as [Ht Hmx _ _ _ _]. assert (len (degIn b) = len (degOut b)) as Hl' by (unfold len; by rewrite Hl).
  split; split; try (done || lia).
  - eapply Forall_impl; [exact Hends|]. unfold ownerOf. simpl. tauto.
  - intros v Hv. apply degOK_staged; [exact (wb_degOut _ Hw)|lia].
  - eapply Forall_impl; [exact Hends|]. unfold ownerOf. simpl. tauto.
  - intros v Hv. apply degOK_staged; [exact (wb_degIn _ Hw)|lia].
Qed.

(** The arrays, the type index and the position map of a fresh build. *)
Record isTopology (top : topology (bm := bm)) : Prop := {
  it_out : isCSR n (rels b) (relTypes b) 0 (t_outOffsets top) (t_outNbrs top) (typesOf (t_outTypes top));
  it_in : isCSR n (rels b) (relTypes b) 1 (t_inOffsets top) (t_inNbrs top) (typesOf (t_inTypes top));
  it_wfo : wf_types (t_outTypes top);
  it_wfi : wf_types (t_inTypes top);
  it_canon : compressRelTypes (typesOf (t_outTypes top)) = Ok (t_outTypes top) ∧ compressRelTypes (typesOf (t_inTypes top)) = Ok (t_inTypes top);
  it_index : ∀ t pos, indexed (t_typeIndex top) t pos ↔ 0 ≤ pos ∧ typesOf (t_outTypes top) !! Z.to_nat pos = Some t;
  it_map : ∀ j r, rels b !! j = Some r → t_relToOutCSR top !! j = Some (slotOf (ownerOf 0) (rels b) j r);
  it_lazy : t_inToOut top = None;
}.

Lemma buildCSR_ok : ∃ top, buildCSR b n = Ok top ∧ isTopology top.
Proof using Hw Htombs Hmarks Htypes.
  destruct staged_dirs as [Ho Hi]. unfold buildCSR. destruct idSpace_ok as [Hn _]. pose proof (wb_size _ Hw) as Hs.
  assert (0 ≤ n < 4294967296) as Hn' by lia. pose proof (sg_m _ _ _ _ _ Ho) as Hm. pose proof (sg_types _ _ _ _ _ Ho) as Hts.
  destruct (buildCSRDirection_isCSR _ _ _ _ _ Ho) as (oo & on & wo & ro & -> & Co & _ & Ro). cbn [mbind res_bind].
  destruct (buildCSRDirection_isCSR _ _ _ _ _ Hi) as (io & inb & wi & ri & Ei & Ci & _ & _).
  pose proof (isCSR_types_range n _ _ Hn' Hm Hts rels_inSpace 0 _ _ _ Co Htypes) as Hwo.
  pose proof (isCSR_types_range n _ _ Hn' Hm Hts rels_inSpace 1 _ _ _ Ci Htypes) as Hwi.
  destruct (compressRelTypes_ok wo Hwo) as (rto & Eo & Wo & To). rewrite Eo. cbn [mbind res_bind]. rewrite Ei. cbn [mbind res_bind].
  destruct (compressRelTypes_ok wi Hwi) as (rti & Ei' & Wi & Ti). rewrite Ei'. cbn [mbind res_bind].
  destruct (buildTypeIndex_ok rto Wo) as (ti & -> & Hti). cbn [mbind res_bind]. eexists. split; [done|].
  split; cbn; rewrite ?To, ?Ti; try done. by rewrite <- To.
Qed.

Lemma finalizeLabels_ok (p : aliasPlan (bm := bm)) : p_src p = None → ∃ index, finalizeLabels b n p = Ok index ∧
  ∀ l x, indexed index l x ↔ 0 ≤ x ∧ ∃ ls, nodeLabels b !! Z.to_nat x = Some ls ∧ l ∈ ls.
Proof using Hw.
  intros Hp. unfold finalizeLabels. rewrite Hp. destruct idSpace_ok as [Hn Hk]. pose proof (wb_size _ Hw) as Hs.
  assert (len (nodeLabels b) = len (degOut b)) as Hl by (unfold len; by rewrite (wb_labels_len _ Hw)).
  rewrite Z.min_l, slice_ok by lia. cbn [mbind res_bind]. rewrite drop_0, Z.sub_0_r. set (lists := take _ _).
  assert ((λ byLabel (x : Z * list Z), foldl (labelStep p b x.1) byLabel x.2) =
    (λ m (x : Z * list Z), foldl (λ m l, groupStep m l (to_u32 x.1)) m x.2)) as ->.
  { unfold labelStep, labelClean. by rewrite Hp. }
  rewrite grouped_concat, (right_id_L ∅ (∪)). eexists. split; [done|]. intros l x. fold (grouped (concat ((λ x : Z * list Z, (λ l, (l, to_u32 x.1)) <$> x.2) <$> enum lists))).
  rewrite indexed_grouped, list_elem_of_In, in_concat. setoid_rewrite <- list_elem_of_In. split.
  - intros (l' & ([i ls] & -> & [Hi0 Hi]%elem_of_enum)%list_elem_of_fmap & (l2 & [= -> ->] & Hin)%list_elem_of_fmap).
    apply lookup_take_Some in Hi as [Hi Hlt]. simpl. rewrite wrapU_small by lia. split; [done|]. by exists ls.
  - intros [Hx0 (ls & Hls & Hin)]. assert (x ∈ known b) as Hx.
    { rewrite <- (Z2Nat.id x Hx0). apply (wb_labels _ Hw _ ls Hls). intros E. subst ls. by apply not_elem_of_nil in Hin. }
    specialize (Hk x Hx). exists ((λ l, (l, to_u32 x)) <$> ls). split.
    + apply list_elem_of_fmap. exists (x, ls). split; [done|]. apply elem_of_enum. split; [done|]. apply lookup_take_Some. split; [done|lia].
    + apply list_elem_of_fmap. exists l. split; [|done]. by rewrite wrapU_small by lia.
Qed.

End staged.

(** ** Adjacency against the staged relationships *)

Lemma lookup_range {A} `{Inhabited A} (l pre mid post : list A) : l = pre ++ mid ++ post →
  (λ p, l !!! Z.to_nat p) <$> seqZ (len pre) (len mid) = mid.
Proof.
  intros ->. apply list_eq_same_length with (n := length mid); [done|rewrite length_fmap, length_seqZ; unfold len; lia|].
  intros i x y Hi Hx Hy. rewrite list_lookup_fmap, lookup_seqZ_lt in Hx by (unfold len; lia). simpl in Hx.
  replace (Z.to_nat (len pre + Z.of_nat i)) with (length pre + i)%nat in Hx by (unfold len; lia).
  rewrite lookup_total_app_r, Nat.add_comm, Nat.add_sub, lookup_total_app_l in Hx by lia.
  rewrite (list_lookup_total_correct _ _ _ Hy) in Hx. congruence.
Qed.

Lemma bucket_split {A} (key : A → Z) n v l : 0 ≤ v < n → ∃ post, bucket key n l = bucket key v l ++ filter (λ x, key x = v) l ++ post.
Proof.
  intros Hv. unfold bucket. assert (zseq n = zseq v ++ [v] ++ seqZ (v + 1) (n - v - 1)) as ->.
  { rewrite !zseq_seqZ. transitivity (seqZ 0 (v + (1 + (n - v - 1)))); [f_equal; lia|]. by rewrite !seqZ_split by lia. }
  rewrite !fmap_app, !concat_app. simpl. rewrite app_nil_r. eauto.
Qed.

Section adjacency.
Context (n : Z) (rels : list (Z * Z)) (ts : list Z).
Hypothesis Hn : 0 ≤ n < 4294967296.
Hypothesis Hm : len rels < 4294967296.
Hypothesis Hts : length ts = length rels.
Hypothesis Hends : Forall (λ r, 0 ≤ r.1 < n ∧ 0 ≤ r.2 < n) rels.

Abbreviation R := (λ i : Z, rels !!! Z.to_nat i).
Abbreviation T := (λ i : Z, ts !!! Z.to_nat i).

(** The staged relationships a node owns, by index. *)
Definition ownedIdx (endpoint v : Z) : list Z := filter (λ j, ownerOf endpoint (R j) = v) (zseq (len rels)).

Lemma len_owned (P : Z * Z → Prop) `{!∀ r, Decision (P r)} : len (filter (λ j, P (R j)) (zseq (len rels))) = len (filter P rels).
Proof. pose proof (filter_fmap_len (λ j : Z, rels !!! Z.to_nat j) P (zseq (len rels))) as E. rewrite list_zseq in E. by symmetry. Qed.

Lemma range_owned endpoint v : 0 ≤ v < n →
  relAt n rels endpoint <$> seqZ (below (ownerOf endpoint) rels v) (equal (ownerOf endpoint) rels v) = ownedIdx endpoint v.
Proof using Hn Hm Hts Hends.
  intros Hv. destruct (bucket_split (λ i, ownerOf endpoint (R i)) n v (zseq (len rels)) Hv) as [post E].
  pose proof (lookup_range _ _ _ _ E) as Hr. rewrite len_bucket in Hr; [|lia|].
  2: { eapply Forall_impl; [by apply (ids_owner n rels ts)|]. by intros i [? ?]. }
  assert (below (λ i, ownerOf endpoint (R i)) (zseq (len rels)) v = below (ownerOf endpoint) rels v) as E1
    by exact (len_owned (λ r, ownerOf endpoint r < v)).
  assert (len (ownedIdx endpoint v) = equal (ownerOf endpoint) rels v) as E2 by exact (len_owned (λ r, ownerOf endpoint r = v)).
  rewrite E1 in Hr. unfold ownedIdx in E2 |- *. rewrite E2 in Hr. exact Hr.
Qed.

(** A node's range, read through its relationships. *)
Lemma refs_owned {G} endpoint offsets nbrs types (m : RelMatch G) d (stored posOf : Z → Z) v :
  isCSR n rels ts endpoint offsets nbrs types → 0 ≤ v < n →
  (∀ p, 0 ≤ p < len rels → stored p = posOf (relAt n rels endpoint p)) →
  (λ k, mkRelRef (nb nbrs k) (types !!! Z.to_nat k) d (stored k)) <$>
    filter (λ k, matches m (types !!! Z.to_nat k) = true) (seqZ (off offsets v) (off offsets (v + 1) - off offsets v)) =
  (λ j, mkRelRef (otherOf endpoint (R j)) (T j) d (posOf j)) <$> filter (λ j, matches m (T j) = true) (ownedIdx endpoint v).
Proof using Hn Hm Hts Hends.
  intros Hc Hv Hst. unfold off.
  rewrite (list_lookup_total_correct _ _ _ (ic_off _ _ _ _ _ _ _ Hc v ltac:(lia))), (list_lookup_total_correct _ _ _ (ic_off _ _ _ _ _ _ _ Hc (v + 1) ltac:(lia))).
  rewrite below_S. replace (below (ownerOf endpoint) rels v + equal (ownerOf endpoint) rels v - below (ownerOf endpoint) rels v)
    with (equal (ownerOf endpoint) rels v) by lia.
  rewrite <- (range_owned endpoint v Hv), filter_fmap, <- list_fmap_compose.
  assert (∀ k, k ∈ seqZ (below (ownerOf endpoint) rels v) (equal (ownerOf endpoint) rels v) →
    nb nbrs k = otherOf endpoint (R (relAt n rels endpoint k)) ∧ types !!! Z.to_nat k = T (relAt n rels endpoint k) ∧ stored k = posOf (relAt n rels endpoint k)) as Hk.
  { intros k Hk%elem_of_seqZ. pose proof (below_nonneg (ownerOf endpoint) rels v). pose proof (below_len (ownerOf endpoint) rels (v + 1)) as Hl.
    rewrite below_S in Hl. assert (0 ≤ k < len rels) as Hk' by lia.
    destruct (direction_at n rels ts Hn Hm Hts Hends endpoint offsets nbrs types Hc k Hk') as (r & t & Hr & Ht & E1 & E2 & _).
    unfold nb. rewrite (list_lookup_total_correct _ _ _ E1), (list_lookup_total_correct _ _ _ E2), (list_lookup_total_correct _ _ _ Hr), (list_lookup_total_correct _ _ _ Ht).
    split_and!; [done..|]. by apply Hst. }
  erewrite (filter_ext_in _ (λ k, matches m (T (relAt n rels endpoint k)) = true)) by (intros k Hin; by destruct (Hk k Hin) as (_ & -> & _)).
  apply list_fmap_ext. intros i k Hi. apply list_elem_of_lookup_2, list_elem_of_filter in Hi as [_ Hin]. destruct (Hk k Hin) as (E1 & E2 & E3).
  simpl. by rewrite E1, E2, E3.
Qed.

End adjacency.

Lemma isCSR_nbrs n rels ts endpoint offsets nbrs types : 0 ≤ n < 4294967296 → len rels < 4294967296 → length ts = length rels →
  Forall (λ r, 0 ≤ r.1 < n ∧ 0 ≤ r.2 < n) rels → isCSR n rels ts endpoint offsets nbrs types → Forall (λ x, 0 ≤ x < n) nbrs.
Proof.
  intros Hn Hm Hts Hends Hc. apply Forall_lookup. intros p x Hp. apply lookup_lt_Some in Hp as Hlt. rewrite (ic_nbrs _ _ _ _ _ _ _ Hc) in Hlt.
  destruct (direction_at n rels ts Hn Hm Hts Hends endpoint offsets nbrs types Hc (Z.of_nat p)) as (r & t & Hr & _ & E & _); [unfold len; lia|].
  rewrite Nat2Z.id, Hp in E. injection E as ->. pose proof (Forall_lookup_1 _ _ _ _ Hends Hr) as He. cbn in He. unfold otherOf. case_match; lia.
Qed.

Lemma isCSR_wfDir n rels ts endpoint offsets nbrs (types : RelTypes.relTypes) : 0 ≤ n < 4294967296 → len rels < 4294967296 →
  isCSR n rels ts endpoint offsets nbrs (typesOf types) → wf_types types → wfDir offsets nbrs types.
Proof.
  intros Hn Hm [Hl Ho Hnb Ht _] Hw. assert (len nbrs = len rels) as Hnl by (unfold len; by rewrite Hnb).
  assert (∀ i a, offsets !! i = Some a → a = below (ownerOf endpoint) rels (Z.of_nat i)) as Hoff.
  { intros i a Hi. apply lookup_lt_Some in Hi as Hlt. specialize (Ho (Z.of_nat i)). rewrite Nat2Z.id, Hi in Ho. unfold len in Hl.
    specialize (Ho ltac:(lia)). by injection Ho. }
  split; [done|congruence|lia|lia| |].
  - apply Forall_lookup. intros i a Ha%Hoff. subst a. rewrite Hnl. pose proof (below_nonneg (ownerOf endpoint) rels (Z.of_nat i)).
    pose proof (below_len (ownerOf endpoint) rels (Z.of_nat i)). lia.
  - intros i a c Ha%Hoff Hc%Hoff. subst. apply below_mono. lia.
Qed.

(** ** The promise *)

(** The outgoing position of a relationship: its properties' address. *)
Definition outSlot (rels : list (Z * Z)) (j : Z) : Z := slotOf (ownerOf 0) rels (Z.to_nat j) (rels !!! Z.to_nat j).

(** What a traversal of one direction of node [v] shows: its relationships in
    staging order, with the other end, the type and a position. *)
Definition stagedRefs {G} (rels : list (Z * Z)) (ts : list Z) (pos : Z → Z) (m : RelMatch G) (v : Z) (out : bool) : list RelRef :=
  let endpoint := if out then 0 else 1 in
  (λ j, mkRelRef (otherOf endpoint (rels !!! Z.to_nat j)) (ts !!! Z.to_nat j) (if out then Outgoing else Incoming) (pos j)) <$>
    filter (λ j, matches m (ts !!! Z.to_nat j) = true) (ownedIdx rels endpoint v).

Section promise.
Context {bm : Type} `{RoaringSetLaws bm}.
Abbreviation B := (Builder bm (Snapshot bm)).
Implicit Types (b : B) (g : Snapshot bm).

(** A staging state with nothing pending, and its snapshot. Positions reached
    from the target are property addresses when there are properties. *)
Record finalized b (rels : list (Z * Z)) (ts : list Z) (relProps : typedCols) g : Prop := {
  fz_nodes : Snapshot.NodeCount g = Z.of_nat (size (known b));
  fz_rels : Snapshot.RelCount g = len rels;
  fz_exists : ∀ id, 0 ≤ id → NodeExists g id = bool_decide (id ∈ known b);
  fz_space : ∀ id, id ∈ known b → 0 ≤ id < CSRIDSpace g;
  fz_graph : ∃ ito, wfGraph g ito ∧ ∀ m v out, v ∈ known b → ∃ pos,
    relRefs g m ito v out = stagedRefs rels ts pos m v out ∧
    ((out = true ∨ ∃ key, is_Some (stagedValues relProps key)) → ∀ j, 0 ≤ j < len rels → pos j = outSlot rels j);
  fz_labels : ∀ l id, indexed (labelIndex g) l id ↔ 0 ≤ id ∧ ∃ ls, nodeLabels b !! Z.to_nat id = Some ls ∧ l ∈ ls;
  fz_types : ∀ t pos, indexed (typeIndex g) t pos ↔ ∃ j, 0 ≤ j < len rels ∧ ts !! Z.to_nat j = Some t ∧ pos = outSlot rels j;
  fz_columns : colsHold (λ x, 0 ≤ x) id (columns g) (nodeCols b);
  fz_relColumns : colsHold (λ j, 0 ≤ j < len rels) (outSlot rels) (relColumns g) relProps;
  fz_atoms : strings (atoms g) = istrings (interner b);
  fz_version : Snapshot.version g = Builder.version b;
  fz_lazy : inToOut g = None ∧ (hasRelProps g = true ↔ ∃ key, is_Some (stagedValues relProps key));
  fz_nbrs : ∀ out, Forall (λ x, 0 ≤ x < CSRIDSpace g) (dirNbrs g out);
}.

Lemma hasRelColumns_ok (c : typedCols) : hasRelColumns c = true ↔ ∃ key, is_Some (stagedValues c key).
Proof.
  unfold hasRelColumns. rewrite bool_decide_eq_true.
  assert (∀ {A} (m : colMap A), (0 < size m)%nat ↔ ∃ k, is_Some (m !! k)) as Hsz.
  { intros A m. split.
    - intros Hs. destruct (map_choose m) as (k & ps & Hk); [intros ->; rewrite map_size_empty in Hs; lia|]. eauto.
    - intros (k & ps & Hk). destruct (decide (size m = 0)%nat) as [E|]; [|lia]. apply map_size_empty_inv in E. subst m. by rewrite lookup_empty in Hk. }
  trans ((∃ k, is_Some (colI64 c !! k)) ∨ (∃ k, is_Some (colF64 c !! k)) ∨ (∃ k, is_Some (colBool c !! k)) ∨ (∃ k, is_Some (colStr c !! k))).
  { rewrite <- !Hsz. lia. }
  unfold stagedValues. split.
  - intros [[k [ps E]]|[[k [ps E]]|[[k [ps E]]|[k [ps E]]]]]; exists k; rewrite E; repeat case_match; eauto.
  - intros [k [m E]]. repeat case_match; naive_solver.
Qed.

Section compacted.
Context (b : B).
Hypothesis Hw : wf_builder b.
Hypothesis Htombs : tombs b = ∅.
Hypothesis Hmarks : removedNodes b = ∅.
Hypothesis Htypes : Forall (λ t, 0 ≤ t < MaxUint32) (relTypes b).
Hypothesis Hsrc : src b = None.

Abbreviation n := (idSpace b).

Lemma space_facts : 0 ≤ n < 4294967296 ∧ len (rels b) < 4294967296 ∧ length (relTypes b) = length (rels b).
Proof using Hw.
  destruct (idSpace_ok b Hw) as [Hn _]. pose proof (wb_size _ Hw). pose proof (wb_rels _ Hw) as [? ? _ _ _ _]. lia.
Qed.

Lemma nodeColumns_ok : ∃ c1 c2 c3 c4, let p := newAliasPlan b n (len (rels b)) in
  finalizeNodeColumns p b ∅ (colI64 (nodeCols b)) n columnFromPairsI64 = Ok c1 ∧
  finalizeNodeColumns p b c1 (colF64 (nodeCols b)) n columnFromPairsF64 = Ok c2 ∧
  finalizeNodeColumns p b c2 (colBool (nodeCols b)) n columnFromPairsBool = Ok c3 ∧
  finalizeNodeColumns p b c3 (colStr (nodeCols b)) n columnFromPairsStr = Ok c4 ∧ colsHold (λ x, 0 ≤ x) id c4 (nodeCols b).
Proof using Hw Hsrc.
  destruct (idSpace_ok b Hw) as [Hn Hk]. destruct space_facts as (Hn' & _ & _). destruct (wb_nodeCols _ Hw) as [Ci Cf Cb Cs].
  set (p := newAliasPlan b n (len (rels b))). assert (p_src p = None) as Hp by (unfold p, newAliasPlan; by rewrite Hsrc).
  assert (∀ {A} (P Q : Z * A → Prop) m, pairsOK P m → (∀ q, P q → q.1 ∈ known b ∧ Q q) → pairsOK (λ q, 0 ≤ q.1 < n ∧ Q q) m) as Hpk.
  { intros A P Q m Hm HPQ k ps Hps. destruct (Hm k ps Hps) as [? HF]. split; [done|]. eapply Forall_impl; [exact HF|]. intros q Hq.
    destruct (HPQ q Hq). split; [by apply Hk|done]. }
  edestruct (finalizeNodeColumns_ok b p Hp _ _ _ ∅ (colI64 (nodeCols b)) n builds_I64) as (c1 & E1 & F1); [done|by eapply Hpk; [exact Ci|]|].
  edestruct (finalizeNodeColumns_ok b p Hp _ _ _ c1 (colF64 (nodeCols b)) n builds_F64) as (c2 & E2 & F2); [done|by eapply Hpk; [exact Cf|]|].
  edestruct (finalizeNodeColumns_ok b p Hp _ _ _ c2 (colBool (nodeCols b)) n builds_Bool) as (c3 & E3 & F3); [done|by eapply Hpk; [exact Cb|]|].
  edestruct (finalizeNodeColumns_ok b p Hp _ _ _ c3 (colStr (nodeCols b)) n builds_Str) as (c4 & E4 & F4); [done|by eapply Hpk; [exact Cs|]|].
  exists c1, c2, c3, c4. do 4 (split; [done|]). by eapply families_hold.
Qed.

Lemma outSlot_facts j : 0 ≤ j < len (rels b) → ∃ r, rels b !! Z.to_nat j = Some r ∧ outSlot (rels b) j = slotOf (ownerOf 0) (rels b) (Z.to_nat j) r ∧
  0 ≤ outSlot (rels b) j < len (rels b) ∧ relAt n (rels b) 0 (outSlot (rels b) j) = j.
Proof using Hw Htombs Hmarks.
  intros Hj. destruct (lookup_lt_is_Some_2 (rels b) (Z.to_nat j)) as [r Hr]; [unfold len in Hj; lia|]. exists r. split; [done|].
  unfold outSlot. rewrite (list_lookup_total_correct _ _ _ Hr). split; [done|]. destruct space_facts as (Hn & Hm & Hts).
  destruct (relAt_slotOf n (rels b) (relTypes b) Hn Hm Hts (rels_inSpace b Hw Htombs Hmarks) 0 (Z.to_nat j) r Hr) as [Hs E].
  split; [done|]. rewrite E. lia.
Qed.

Lemma relColumns_ok (relToOut : list Z) : (∀ j r, rels b !! j = Some r → relToOut !! j = Some (slotOf (ownerOf 0) (rels b) j r)) →
  ∃ c1 c2 c3 c4, let p := newAliasPlan b n (len (rels b)) in let m := len (rels b) in
  finalizeRelColumns p b ∅ (colI64 (relCols b)) m relToOut columnFromPairsI64 = Ok c1 ∧
  finalizeRelColumns p b c1 (colF64 (relCols b)) m relToOut columnFromPairsF64 = Ok c2 ∧
  finalizeRelColumns p b c2 (colBool (relCols b)) m relToOut columnFromPairsBool = Ok c3 ∧
  finalizeRelColumns p b c3 (colStr (relCols b)) m relToOut columnFromPairsStr = Ok c4 ∧
  colsHold (λ j, 0 ≤ j < len (rels b)) (outSlot (rels b)) c4 (relCols b).
Proof using Hw Htombs Hmarks Hsrc.
  intros Hmap. destruct space_facts as (_ & Hm & _). destruct (wb_relCols _ Hw) as [Ci Cf Cb Cs].
  set (p := newAliasPlan b n (len (rels b))). assert (p_src p = None) as Hp by (unfold p, newAliasPlan; by rewrite Hsrc).
  pose (D := λ j, 0 ≤ j < len (rels b)).
  assert (∀ x, D x → (0 ≤ x ∧ relToOut !! Z.to_nat x = Some (outSlot (rels b) x)) ∧ 0 ≤ outSlot (rels b) x < len (rels b)) as Hat.
  { intros x Hx. destruct (outSlot_facts x Hx) as (r & Hr & -> & Hs & _). split; [split; [apply Hx|by apply Hmap]|done]. }
  assert (∀ x y, D x → D y → outSlot (rels b) x = outSlot (rels b) y → x = y) as Hinj.
  { intros x y Hx Hy E. destruct (outSlot_facts x Hx) as (_ & _ & _ & _ & <-). destruct (outSlot_facts y Hy) as (_ & _ & _ & _ & <-). by rewrite E. }
  assert (∀ {A} (P Q : Z * A → Prop) m, pairsOK P m → (∀ q, P q → 0 ≤ q.1 < len (rels b) ∧ Q q) → pairsOK (λ q, D q.1 ∧ Q q) m) as Hpk.
  { intros A P Q m Hok HPQ k ps Hps. destruct (Hok k ps Hps) as [? HF]. split; [done|]. eapply Forall_impl; [exact HF|]. intros q Hq. by apply HPQ. }
  assert (0 ≤ len (rels b) < 4294967296) as Hspan by (split; [apply len_nonneg|done]).
  edestruct (finalizeRelColumns_ok b p Hp D relToOut _ _ _ _ ∅ (colI64 (relCols b)) _ builds_I64 Hspan Hat Hinj) as (c1 & E1 & F1); [done|by eapply Hpk; [exact Ci|]|].
  edestruct (finalizeRelColumns_ok b p Hp D relToOut _ _ _ _ c1 (colF64 (relCols b)) _ builds_F64 Hspan Hat Hinj) as (c2 & E2 & F2); [done|by eapply Hpk; [exact Cf|]|].
  edestruct (finalizeRelColumns_ok b p Hp D relToOut _ _ _ _ c2 (colBool (relCols b)) _ builds_Bool Hspan Hat Hinj) as (c3 & E3 & F3); [done|by eapply Hpk; [exact Cb|]|].
  edestruct (finalizeRelColumns_ok b p Hp D relToOut _ _ _ _ c3 (colStr (relCols b)) _ builds_Str Hspan Hat Hinj) as (c4 & E4 & F4); [done|by eapply Hpk; [exact Cs|]|].
  exists c1, c2, c3, c4. do 4 (split; [done|]). by eapply families_hold.
Qed.

(** Both directions of the snapshot, given its topology. *)
Lemma graph_ok top g : isTopology b top → hasRelProps g = hasRelColumns (relCols b) → inToOut g = t_inToOut top →
  outOffsets g = t_outOffsets top → outNbrs g = t_outNbrs top → outTypes g = t_outTypes top →
  inOffsets g = t_inOffsets top → inNbrs g = t_inNbrs top → inTypes g = t_inTypes top →
  ∃ ito, wfGraph g ito ∧ ∀ m v out, v ∈ known b → ∃ pos,
    relRefs g m ito v out = stagedRefs (rels b) (relTypes b) pos m v out ∧
    ((out = true ∨ ∃ key, is_Some (stagedValues (relCols b) key)) → ∀ j, 0 ≤ j < len (rels b) → pos j = outSlot (rels b) j).
Proof using Hw Htombs Hmarks Htypes.
  intros [Ho Hi Wo Wi _ _ _ Hlazy] Eh Ei E1 E2 E3 E4 E5 E6. destruct space_facts as (Hn & Hm & Hts). destruct (idSpace_ok b Hw) as [_ Hk].
  pose proof (rels_inSpace b Hw Htombs Hmarks) as Hends. rewrite <- E1, <- E2, <- E3 in Ho. rewrite <- E4, <- E5, <- E6 in Hi. rewrite <- E3 in Wo. rewrite <- E6 in Wi.
  destruct (computeInToOut_positions n _ _ Hn Hm Hts Hends _ _ _ _ _ _ Ho Hi Wo Wi Htypes) as (ito & Ec & Hl & Hito).
  set (ito' := if hasRelProps g then ito else []). exists ito'. split.
  - split; [by eapply isCSR_wfDir|by eapply isCSR_wfDir|]. unfold getInToOut, ito'. destruct (hasRelProps g); cbn [negb]; [|done]. by rewrite Ei, Hlazy.
  - intros m v out Hv. specialize (Hk v Hv).
    pose (pos := λ j, if out || hasRelProps g then outSlot (rels b) j else slotOf (ownerOf 1) (rels b) (Z.to_nat j) (rels b !!! Z.to_nat j)).
    exists pos. split; [|intros Hc j _; unfold pos; destruct out; [done|]; destruct Hc as [?|Hc]; [done|]; apply hasRelColumns_ok in Hc; by rewrite Eh, Hc].
    unfold relRefs, nodeMatches, stagedRefs.
    assert (∀ e p, 0 ≤ p < len (rels b) → slotOf (ownerOf e) (rels b) (Z.to_nat (relAt n (rels b) e p)) (rels b !!! Z.to_nat (relAt n (rels b) e p)) = p) as Hslot.
    { intros e p Hp. destruct (relAt_slot n _ _ Hn Hm Hts Hends e p Hp) as (r & _ & _ & Hr & _ & Es). by rewrite (list_lookup_total_correct _ _ _ Hr). }
    destruct out; cbn [dirOffsets dirNbrs dirTypes].
    + rewrite decide_False by (rewrite (ic_len _ _ _ _ _ _ _ Ho); lia).
      eapply (refs_owned n _ _ Hn Hm Hts Hends 0); [exact Ho|done|]. intros p Hp. unfold pos, outSlot. simpl. by rewrite Hslot.
    + rewrite decide_False by (rewrite (ic_len _ _ _ _ _ _ _ Hi); lia).
      eapply (refs_owned n _ _ Hn Hm Hts Hends 1); [exact Hi|done|]. intros p Hp. unfold pos, storedPos, pm, ito'. cbn [orb].
      destruct (hasRelProps g); [|rewrite decide_False by (rewrite len_nil; lia); by rewrite Hslot].
      destruct (Hito p Hp) as (q & Hq & Eq & Er). rewrite decide_True by (unfold len in *; lia).
      rewrite (list_lookup_total_correct _ _ _ Eq). unfold outSlot. rewrite <- Er. by rewrite Hslot.
Qed.

Lemma known_size : Z.of_nat (size (known b)) ≤ n.
Proof using Hw. destruct (idSpace_ok b Hw) as [Hn Hk]. apply (interval_size_le _ 0); [lia|]. intros x Hx. rewrite Z.add_0_l. by apply Hk. Qed.

Lemma finalizeStaged_ok : ∃ g, finalizeStaged b = Ok g ∧ finalized b (rels b) (relTypes b) (relCols b) g.
Proof using Hw Htombs Hmarks Htypes Hsrc.
  destruct space_facts as (Hn & Hm & Hts). pose proof known_size as Hks. destruct (idSpace_ok b Hw) as [Hn0 Hk].
  unfold finalizeStaged. set (p := newAliasPlan b n (len (rels b))). assert (p = mkPlan None false false false) as Ep by (unfold p, newAliasPlan; by rewrite Hsrc).
  assert (p_src p = None) as Hp by (by rewrite Ep). rewrite Hp.
  destruct (buildCSR_ok b Hw Htombs Hmarks Htypes) as (top & -> & Ht). cbn [mbind res_bind].
  destruct (finalizeLabels_ok b Hw p Hp) as (labels & -> & Hlab). cbn [mbind res_bind].
  destruct nodeColumns_ok as (c1 & c2 & c3 & c4 & F1 & F2 & F3 & F4 & Hc).
  fold p in F1, F2, F3, F4. rewrite F1. cbn [mbind res_bind]. rewrite F2. cbn [mbind res_bind]. rewrite F3. cbn [mbind res_bind]. rewrite F4. cbn [mbind res_bind].
  destruct (relColumns_ok (t_relToOutCSR top) (it_map _ _ Ht)) as (d1 & d2 & d3 & d4 & G1 & G2 & G3 & G4 & Hd).
  fold p in G1, G2, G3, G4. rewrite G1. cbn [mbind res_bind]. rewrite G2. cbn [mbind res_bind]. rewrite G3. cbn [mbind res_bind]. rewrite G4. cbn [mbind res_bind].
  eexists. split; [done|]. split; try done.
  - unfold Snapshot.NodeCount. cbn. rewrite bm_card. fold (known b). rewrite wrapU_small; [done|lia].
  - unfold Snapshot.RelCount. cbn. rewrite wrapU_small; [done|]. pose proof (len_nonneg (rels b)). lia.
  - intros x _. unfold NodeExists. cbn. unfold Contains, FromBitmap. cbn. by rewrite bm_contains.
  - intros x Hx. unfold CSRIDSpace. cbn. rewrite (ic_len _ _ _ _ _ _ _ (it_out _ _ Ht)). rewrite decide_False by lia.
    rewrite wrapU_small by lia. specialize (Hk x Hx). lia.
  - by apply (graph_ok top).
  - intros t pos. cbn. rewrite (it_index _ _ Ht). split.
    + intros [H0' Hpt]. apply lookup_lt_Some in Hpt as Hlt. rewrite (ic_types _ _ _ _ _ _ _ (it_out _ _ Ht)) in Hlt.
      destruct (direction_at n _ _ Hn Hm Hts (rels_inSpace b Hw Htombs Hmarks) 0 _ _ _ (it_out _ _ Ht) pos) as (r & t' & Hr & Ht' & _ & E & _); [unfold len; lia|].
      destruct (relAt_slot n _ _ Hn Hm Hts (rels_inSpace b Hw Htombs Hmarks) 0 pos) as (r' & _ & Hi & Hr' & _ & Es); [unfold len; lia|].
      exists (relAt n (rels b) 0 pos). split; [done|]. split; [congruence|]. unfold outSlot. by rewrite (list_lookup_total_correct _ _ _ Hr'), Es.
    + intros (j & Hj & Htj & ->). destruct (outSlot_facts j Hj) as (r & Hr & -> & Hs & _).
      split; [lia|]. by apply (ic_at _ _ _ _ _ _ _ (it_out _ _ Ht) _ _ _ Hr Htj).
  - unfold aliasAtoms. by rewrite Hp.
  - split; [apply (it_lazy _ _ Ht)|apply hasRelColumns_ok].
  - assert (CSRIDSpace (mkSnapshot 0 0 (t_outOffsets top) [] (t_outTypes top) [] [] (t_inTypes top) None false (∅ : gmap Z (Set_ bm)) ∅ None ∅ ∅ 0 None (NewAtoms [])) = n) as En.
    { unfold CSRIDSpace. cbn. rewrite (ic_len _ _ _ _ _ _ _ (it_out _ _ Ht)), decide_False by lia. rewrite wrapU_small; lia. }
    unfold CSRIDSpace in *. cbn in *. rewrite En. pose proof (rels_inSpace b Hw Htombs Hmarks) as Hends.
    intros [|]; cbn; [by eapply isCSR_nbrs, Ht|by eapply isCSR_nbrs, Ht].
Qed.

End compacted.

Lemma finalized_same b b' rels ts relProps g : sameRest b b' → finalized b' rels ts relProps g → finalized b rels ts relProps g.
Proof.
  intros (E1 & E2 & E3 & E4 & _ & E5 & _) [F1 F2 F3 F4 F5 F6 F7 F8 F9 F10 F11 F12 F13]. unfold known in *. rewrite E5 in *. rewrite E1 in F6. rewrite E2 in F8.
  rewrite E3 in F10. rewrite E4 in F11. by split.
Qed.

Lemma liveTypes_range b : wf_builder b → Forall (λ t, 0 ≤ t < MaxUint32) (relTypes b) → Forall (λ t, 0 ≤ t < MaxUint32) (liveTypes b).
Proof.
  intros Hw Ht. unfold liveTypes. apply Forall_fmap, Forall_forall. intros i [Hi _]%liveIdx_elem. simpl.
  pose proof (ro_types _ _ _ _ _ _ (wb_rels _ Hw)) as Hl. destruct (lookup_lt_is_Some_2 (relTypes b) (Z.to_nat i)) as [t Hti]; [unfold len in Hi; lia|].
  rewrite (list_lookup_total_correct _ _ _ Hti). exact (Forall_lookup_1 _ _ _ _ Ht Hti).
Qed.

(** Compaction, then the build. *)
Lemma Finalize_finalized b : wf_builder b → src b = None → len (rels b) < 2147483648 →
  Forall (λ t, 0 ≤ t < MaxUint32) (relTypes b) →
  ∃ g, Finalize b = Ok g ∧ finalized b (liveRels b) (liveTypes b)
    (keepLiveCols (isLive (tombs b) (removedNodes b) (rels b)) (newIndex (tombs b) (removedNodes b) (rels b)) (relCols b)) g.
Proof.
  intros Hw Hsrc Hm Ht. destruct (compactRemovals_ok b Hw Hm) as (b' & E & [C1 C2 C3 C4 C5 C6 C7]). unfold Finalize. rewrite E. cbn [mbind res_bind].
  destruct (finalizeStaged_ok b' C7 C4 C5) as (g & -> & Hg).
  - rewrite C2. by apply liveTypes_range.
  - destruct C6 as (_ & _ & _ & _ & _ & _ & _ & Es & _). congruence.
  - exists g. split; [done|]. rewrite C1, C2, C3 in Hg. by apply (finalized_same b b').
Qed.

End promise.

(** ** Properties *)

(** C1: Finalization is exact. From every well-formed staging state of a fresh
    builder, with removals pending or not, [Finalize] succeeds, and the snapshot
    holds the staged graph and nothing else: the node count and existence are
    the known nodes; the relationship count is the live relationships; from
    every known node and under every type filter, each direction shows its live
    relationships in staging order, with the other end, the type and the position
    their properties are stored at; labels and the type index answer membership
    exactly; and for every node and relationship property the column answers the
    last value written under the kind that wins, and nothing where nothing was
    written (dense string columns answer the empty string there). *)
Theorem Finalize_exact {bm} `{RoaringSetLaws bm} (b : Builder bm (Snapshot bm)) : wf_builder b → src b = None → len (rels b) < 2147483648 →
  Forall (λ t, 0 ≤ t < MaxUint32) (relTypes b) →
  ∃ g, Finalize b = Ok g ∧ finalized b (liveRels b) (liveTypes b)
    (keepLiveCols (isLive (tombs b) (removedNodes b) (rels b)) (newIndex (tombs b) (removedNodes b) (rels b)) (relCols b)) g.
Proof. apply Finalize_finalized. Qed.

(** Two labelled nodes, three relationships of which one is removed, a property
    written twice, and a property of the relationship that moves. *)
Definition finalOps : list bop :=
  [OpAddNode [strK]; OpAddNode []; OpAddRel 0 1 strK; OpAddRel 1 0 strK; OpAddRel 0 1 strK; OpSetProp 1 strK (AInt64 3);
   OpSetProp 1 strK (AInt64 4); OpSetRelPropAt 2 strK (ABool true); OpRemoveRel 0].
Definition finalBuilder : Builder (gset Z) (Snapshot (gset Z)) :=
  match runOps finalOps (NewBuilder 2 2) with Ok b => b | _ => NewBuilder 2 2 end.

Lemma Finalize_exact_witness : ∃ g, Finalize finalBuilder = Ok g ∧ Snapshot.RelCount g = 2 ∧
  NodeExists g 1 = true ∧ colsHold (λ x, 0 ≤ x) id (columns g) (nodeCols finalBuilder).
Proof.
  destruct (Finalize_exact finalBuilder) as (g & E & [_ Hr He _ _ _ _ Hc _ _ _ _]).
  - destruct (runOps_wf (bm := gset Z) (Snap := Snapshot (gset Z)) finalOps (NewBuilder 2 2)) as (b & E & Hb).
    + repeat constructor; simpl; lia.
    + apply NewBuilder_wf. lia.
    + unfold finalBuilder. by rewrite E.
  - by vm_compute.
  - by vm_compute.
  - apply (bool_decide_unpack _). by vm_compute.
  - exists g. split; [done|]. split; [rewrite Hr; by vm_compute|]. split; [rewrite He; by vm_compute|done].
Defined.
