(* ===== verification/Thaw.v ===== *)
(** Thawing a snapshot back into a builder: [src/thaw.go].

    The restage runs the builder's own staging operations, so a failure of one of
    them ([thawMust]) is a panic. Map iteration order is free in the source and
    the order of [map_to_list] here. *)

From S2P Require Import Prelude Value AtomTable Columns NodeSet Csr RelTypes InToOut Snapshot Builder.

Section thaw.
Context {bm : Type} `{RoaringSet bm}.
Abbreviation B := (Builder bm (Snapshot bm)).
Implicit Types (b : B) (g : Snapshot bm).

Definition invertPositions (outToStaging : list Z) : res (list Z) :=
  foldM (λ relToOut '(outPos, i), upd relToOut i (to_u32 outPos)) (enum outToStaging) (replicate (length outToStaging) 0).

Definition ownersFromOffsets (offsets : list Z) : res (list Z) :=
  let n := len offsets - 1 in
  if decide (n < 0) then Ok []
  else
    m ← idx offsets n;
    foldM (λ owners u,
      lo ← idx offsets u;
      hi ← idx offsets (u + 1);
      foldM (λ owners p, upd owners p (to_u32 u)) (seqZ lo (hi - lo)) owners) (zseq n) (replicate (Z.to_nat m) 0).

(** ** The staging order *)

(** What the walk reads: the position maps of both directions and the owners. *)
Record chains := mkChains {
  ch_out : list Z; ch_in : list Z; ch_inToOut : list Z; ch_outToIn : list Z; ch_srcOf : list Z; ch_dstOf : list Z;
}.

(** [g.inToOut], re-derived when it is nil. *)
Definition thawInToOut g : res (list Z) :=
  match inToOut g with
  | Some (p :: l) => Ok (p :: l)
  | _ => computeInToOutFromCSR (outOffsets g) (outNbrs g) (outTypes g) (inOffsets g) (inNbrs g) (inTypes g)
  end.

Definition thawChains g : res chains :=
  ito ← thawInToOut g;
  oti ← foldM (λ oti '(inPos, outPos), upd oti outPos (to_u32 inPos)) (enum ito) (replicate (length (outNbrs g)) 0);
  srcOf ← ownersFromOffsets (outOffsets g);
  dstOf ← ownersFromOffsets (inOffsets g);
  Ok (mkChains (outOffsets g) (inOffsets g) ito oti srcOf dstOf).

(** How many of the two chains [p] is not the head of. *)
Definition indegree (c : chains) (p : Z) : res Z :=
  s ← idx (ch_srcOf c) p;
  o ← idx (ch_out c) s;
  q ← idx (ch_outToIn c) p;
  d ← idx (ch_dstOf c) q;
  i ← idx (ch_in c) d;
  Ok ((if decide (p ≠ o) then 1 else 0) + (if decide (q ≠ i) then 1 else 0)).

(** The closure [release] over [indeg] and [queue]. *)
Definition release (p : Z) (st : list Z * list Z) : res (list Z * list Z) :=
  d ← idx st.1 p;
  indeg ← upd st.1 p (to_u8 (d - 1));
  Ok (indeg, if decide (to_u8 (d - 1) = 0) then st.2 ++ [p] else st.2).

(** [p] leaves the queue: its successors in both chains are released. *)
Definition releaseNext (c : chains) (p : Z) (st : list Z * list Z) : res (list Z * list Z) :=
  s ← idx (ch_srcOf c) p;
  oEnd ← idx (ch_out c) (s + 1);
  st ← (if decide (to_u32 (p + 1) < oEnd) then release (to_u32 (p + 1)) st else Ok st);
  q ← idx (ch_outToIn c) p;
  d ← idx (ch_dstOf c) q;
  iEnd ← idx (ch_in c) (d + 1);
  if decide (to_u32 (q + 1) < iEnd) then next ← idx (ch_inToOut c) (to_u32 (q + 1)); release next st else Ok st.

(** [for head := 0; head < len(queue); head++]: the order is the queue read so
    far. A position enters the queue once (see [ThawOrder]), so as many rounds as
    there are positions suffice. *)
Fixpoint walk (fuel : nat) (c : chains) (head : Z) (st : list Z * list Z) : res (list Z) :=
  if decide (len st.2 ≤ head) then Ok st.2
  else match fuel with
  | O => Panic
  | S fuel => p ← idx st.2 head; st ← releaseNext c p st; walk fuel c (head + 1) st
  end.

(** The positions the walk missed, in outgoing order. *)
Definition unseen (m : Z) (order : list Z) : list Z := filter (λ p, p ∉ order) (zseq m).

Definition thawRelOrder g : res (list Z) :=
  let m := len (outNbrs g) in
  if decide (m = 0) then Ok []
  else
    c ← thawChains g;
    indeg ← mapM (indegree c) (zseq m);
    order ← walk (S (Z.to_nat m)) c 0 (indeg, filter (λ p, indeg !! Z.to_nat p = Some 0) (zseq m));
    Ok (if decide (len order < m) then order ++ unseen m order else order).

(** ** Restaging *)

(** A staging call whose error is an engine bug: [thawMust]. *)
Definition thawMust {A} (m : M (bm := bm) (Snap := Snapshot bm) A) b : res (A * B) :=
  '(r, b) ← m b;
  match r with inl a => Ok (a, b) | inr _ => Panic end.

Definition thawRel g (srcOf : list Z) (st : list Z * B) (outPos : Z) : res (list Z * B) :=
  u ← idx srcOf outPos;
  v ← idx (outNbrs g) outPos;
  t ← At (outTypes g) outPos;
  '(i, b) ← thawMust (addRelTyped u v t) st.2;
  ots ← upd st.1 outPos (to_u32 i);
  Ok (ots, b).

Definition thawRels b g : res (list Z * B) :=
  order ← thawRelOrder g;
  srcOf ← ownersFromOffsets (outOffsets g);
  foldM (thawRel g srcOf) order (replicate (length order) 0, b).

(** [b.nodeLabels[id] = append(b.nodeLabels[id], l); b.knownNodes.Add(id)] *)
Definition thawLabel (l : Z) b (id : Z) : res B :=
  ls ← idx (nodeLabels b) id;
  labels ← upd (nodeLabels b) id (ls ++ [l]);
  Ok (set_knownNodes (bmAdd (knownNodes b) id) (set_nodeLabels labels b)).

Definition thawLabels b g : res B :=
  foldM (λ b l, match labelIndex g !! l with Some set => foldM (thawLabel l) (ToSlice set) b | None => Ok b end)
    (merge_sort Z.le (map_to_list (labelIndex g)).*1) b.

(** The pairs of one column family: [for pos, v := range col.Entries()]. *)
Definition entryPairs {A} (get : Value → A) (at_ : Z → res Z) (col : Column) : res (list (Z * A)) :=
  es ← Column_Entries col;
  mapM (λ e, pos ← at_ e.1; Ok (pos, get e.2)) es.

Definition thawNodeColumn b (e : Z * Column) : res B :=
  let '(key, col) := e in
  match Column_Dtype col with
  | DtypeI64 => pairs ← entryPairs (λ v, (I64 v).1) Ok col; '(_, b) ← thawMust (setNodeColumnPairs refI64 key pairs) b; Ok b
  | DtypeF64 => pairs ← entryPairs (λ v, (F64 v).1) Ok col; '(_, b) ← thawMust (setNodeColumnPairs refF64 key pairs) b; Ok b
  | DtypeBool => pairs ← entryPairs (λ v, (Bool v).1) Ok col; '(_, b) ← thawMust (setNodeColumnPairs refBool key pairs) b; Ok b
  | DtypeStr => pairs ← entryPairs (λ v, (StrID v).1) Ok col; '(_, b) ← thawMust (setNodeColumnPairs refStr key pairs) b; Ok b
  end.

Definition thawRelColumn (outToStaging : list Z) b (e : Z * Column) : res B :=
  let '(key, col) := e in
  let at_ := idx outToStaging in
  match Column_Dtype col with
  | DtypeI64 => pairs ← entryPairs (λ v, (I64 v).1) at_ col; '(_, b) ← thawMust (setRelColumnPairs refI64 key pairs) b; Ok b
  | DtypeF64 => pairs ← entryPairs (λ v, (F64 v).1) at_ col; '(_, b) ← thawMust (setRelColumnPairs refF64 key pairs) b; Ok b
  | DtypeBool => pairs ← entryPairs (λ v, (Bool v).1) at_ col; '(_, b) ← thawMust (setRelColumnPairs refBool key pairs) b; Ok b
  | DtypeStr => pairs ← entryPairs (λ v, (StrID v).1) at_ col; '(_, b) ← thawMust (setRelColumnPairs refStr key pairs) b; Ok b
  end.

Definition NewBuilderFromSnapshot g : res B :=
  let n := CSRIDSpace g in
  let m := len (outNbrs g) in
  let b := set_version (Snapshot.version g) (set_interner (newInternerFromAtoms (atoms g)) (NewBuilder (Z.max n 1) (Z.max m 1))) in
  b ← thawLabels b g;
  '(outToStaging, b) ← thawRels b g;
  b ← foldM thawNodeColumn (map_to_list (columns g)) b;
  b ← foldM (thawRelColumn outToStaging) (map_to_list (relColumns g)) b;
  let b := match existence g with
    | Some s => set_knownNodes (foldl bmAdd (knownNodes b) (ToSlice s)) b
    | None => b end in
  let b := if bmIsEmpty (knownNodes b) then b else set_nextNodeID (to_u32 (bmMaximum (knownNodes b) + 1)) b in
  relToOut ← invertPositions outToStaging;
  Ok (set_srcRelToOutCSR relToOut (set_src (Some g) b)).

End thaw.
