(* ===== verification/ThawOrder.v ===== *)
(** The staging order of a thaw: the walk of [thawRelOrder], [src/thaw.go].

    Each CSR direction chains the relationships of a node; the walk releases a
    relationship once its predecessors in both chains are placed. The theorem:
    when some order extends both directions' chains - as the original insertion
    order does for every finalized snapshot - the walk visits every outgoing
    position exactly once and after its predecessors, within as many rounds as
    there are positions, so no position falls to the outgoing-order fallback. *)

From S2P Require Import Prelude Value AtomTable Columns NodeSet Csr RelTypes InToOut Snapshot Builder Thaw.

(** ** Chains *)

(** The owner array of an offset array: every position lies in the range of its
    owner, and the positions of that range share it. *)
Record chainAt (offs owners : list Z) (m p s lo hi : Z) : Prop := {
  ca_owner : owners !! Z.to_nat p = Some s;
  ca_lo : offs !! Z.to_nat s = Some lo;
  ca_hi : offs !! Z.to_nat (s + 1) = Some hi;
  ca_range : 0 ≤ s ∧ 0 ≤ lo ≤ p ∧ p < hi ≤ m;
  ca_same : ∀ p', lo ≤ p' < hi → owners !! Z.to_nat p' = Some s;
}.
Definition chainOK (offs owners : list Z) (m : Z) : Prop := ∀ p, 0 ≤ p < m → ∃ s lo hi, chainAt offs owners m p s lo hi.

Definition isHead (offs owners : list Z) (p : Z) : bool := bool_decide (p = offs !!! Z.to_nat (owners !!! Z.to_nat p)).

Lemma isHead_ok offs owners m p s lo hi : chainAt offs owners m p s lo hi → isHead offs owners p = bool_decide (p = lo).
Proof. intros [Ho Hlo _ _ _]. unfold isHead. by rewrite (list_lookup_total_correct _ _ _ Ho), (list_lookup_total_correct _ _ _ Hlo). Qed.

(** A position ends its range exactly when the next one heads its own. *)
Lemma chain_next offs owners m p s lo hi : chainOK offs owners m → chainAt offs owners m p s lo hi →
  p + 1 < hi ↔ p + 1 < m ∧ isHead offs owners (p + 1) = false.
Proof.
  intros Hok Hp. pose proof (ca_range _ _ _ _ _ _ _ Hp) as (Hs & Hlo & Hhi). split.
  - intros Hlt. split; [lia|]. destruct (Hok (p + 1) ltac:(lia)) as (s' & lo' & hi' & Hq). rewrite (isHead_ok _ _ _ _ _ _ _ Hq).
    assert (s' = s) as ->. { pose proof (ca_same _ _ _ _ _ _ _ Hp (p + 1) ltac:(lia)). pose proof (ca_owner _ _ _ _ _ _ _ Hq). congruence. }
    pose proof (ca_lo _ _ _ _ _ _ _ Hp). pose proof (ca_lo _ _ _ _ _ _ _ Hq). apply bool_decide_eq_false. intros ?. assert (lo' = lo) by congruence. lia.
  - intros [Hm Hh]. destruct (Hok (p + 1) ltac:(lia)) as (s' & lo' & hi' & Hq). rewrite (isHead_ok _ _ _ _ _ _ _ Hq) in Hh.
    apply bool_decide_eq_false in Hh. pose proof (ca_range _ _ _ _ _ _ _ Hq) as (_ & Hlo' & Hhi').
    assert (s' = s) as ->. { pose proof (ca_same _ _ _ _ _ _ _ Hq p ltac:(lia)). pose proof (ca_owner _ _ _ _ _ _ _ Hp). congruence. }
    pose proof (ca_hi _ _ _ _ _ _ _ Hp). pose proof (ca_hi _ _ _ _ _ _ _ Hq). assert (hi' = hi) by congruence. lia.
Qed.

(** ** The walk *)

Section walk.
Context (c : chains) (m : Z).
Hypothesis Hm : 0 ≤ m < 4294967296.
Hypothesis Hout : chainOK (ch_out c) (ch_srcOf c) m.
Hypothesis Hin : chainOK (ch_in c) (ch_dstOf c) m.

Definition toOut (q : Z) : Z := ch_inToOut c !!! Z.to_nat q.
Definition toIn (p : Z) : Z := ch_outToIn c !!! Z.to_nat p.
Hypothesis Hito : ∀ q, 0 ≤ q < m → ch_inToOut c !! Z.to_nat q = Some (toOut q) ∧ 0 ≤ toOut q < m ∧ toIn (toOut q) = q.
Hypothesis Hoti : ∀ p, 0 ≤ p < m → ch_outToIn c !! Z.to_nat p = Some (toIn p) ∧ 0 ≤ toIn p < m ∧ toOut (toIn p) = p.

Abbreviation headOut := (isHead (ch_out c) (ch_srcOf c)).
Abbreviation headIn := (isHead (ch_in c) (ch_dstOf c)).

(** The predecessor of a position in each chain. *)
Definition prevOut (p : Z) : option Z := if headOut p then None else Some (p - 1).
Definition prevIn (p : Z) : option Z := if headIn (toIn p) then None else Some (toOut (toIn p - 1)).

(** Whether a position still waits for a predecessor that is not placed. *)
Definition wait (prev : Z → option Z) (S : list Z) (p : Z) : Z :=
  match prev p with None => 0 | Some y => if decide (y ∈ S) then 0 else 1 end.

Lemma wait_01 prev S p : 0 ≤ wait prev S p ≤ 1.
Proof using. unfold wait. destruct (prev p); [case_decide|]; lia. Qed.

(** The counters, and the queue of the positions whose counter reached zero. *)
Record counting (f : Z → Z) (st : list Z * list Z) : Prop := {
  ct_len : len st.1 = m;
  ct_nodup : NoDup st.2;
  ct_range : ∀ p, p ∈ st.2 → 0 ≤ p < m;
  ct_at : ∀ p, 0 ≤ p < m → st.1 !! Z.to_nat p = Some (f p);
  ct_zero : ∀ p, 0 ≤ p < m → p ∈ st.2 ↔ f p = 0;
}.

Lemma counting_ext f f' st : (∀ p, 0 ≤ p < m → f p = f' p) → counting f st → counting f' st.
Proof using. intros E [H1 H2 H3 H4 H5]. split; try done; intros p Hp; rewrite <- E by done; auto. Qed.

Lemma release_ok f st a : counting f st → 0 ≤ a < m → 1 ≤ f a ≤ 2 → ∃ st' new, release a st = Ok st' ∧
  st'.2 = st.2 ++ new ∧ counting (λ p, if decide (p = a) then f a - 1 else f p) st'.
Proof using Hm.
  intros [H1 H2 H3 H4 H5] Ha Hf. unfold release. rewrite (idx_lookup _ _ _ (proj1 Ha) (H4 a Ha)). cbn [mbind res_bind].
  rewrite (wrapU_small 8), upd_ok by lia. cbn [mbind res_bind].
  assert (a ∉ st.2) as Hna by (rewrite (H5 a Ha); lia).
  eexists _, (if decide (f a - 1 = 0) then [a] else []). split; [done|]. cbn [fst snd]. split; [case_decide; [done|by rewrite app_nil_r]|].
  split; cbn [fst snd].
  - by rewrite len_insert.
  - case_decide; [|done]. apply NoDup_app. split; [done|]. split; [|apply NoDup_singleton]. intros x Hx Hxa. apply list_elem_of_singleton in Hxa. by subst x.
  - intros p Hp. case_decide; [|by apply H3]. apply elem_of_app in Hp as [Hp|Hp]; [by apply H3|]. apply list_elem_of_singleton in Hp. by subst p.
  - intros p Hp. case_decide as D; [subst p; apply list_lookup_insert_eq; unfold len in H1; lia|]. rewrite list_lookup_insert_ne by lia. by apply H4.
  - intros p Hp. specialize (H5 p Hp). destruct (decide (p = a)) as [->|Np].
    + destruct (decide (f a - 1 = 0)) as [E|E]; [|rewrite H5; lia]. split; [done|]. intros _. apply elem_of_app. right. by left.
    + rewrite <- H5. destruct (decide (f a - 1 = 0)); [|done]. rewrite elem_of_app, list_elem_of_singleton. tauto.
Qed.

(** Placing [p] releases its successor in one chain. *)
Lemma place_ok prev (g : Z → Z) S p (next : option Z) st : counting (λ x, wait prev S x + g x) st → (∀ x, 0 ≤ g x ≤ 1) → p ∉ S →
  (∀ x, 0 ≤ x < m → prev x = Some p ↔ next = Some x) → (∀ a, next = Some a → 0 ≤ a < m) →
  ∃ st' new, match next with Some a => release a st | None => Ok st end = Ok st' ∧ st'.2 = st.2 ++ new ∧
    counting (λ x, wait prev (S ++ [p]) x + g x) st'.
Proof using Hm.
  intros Hc Hg Hp Hnext Hr.
  assert (∀ x, 0 ≤ x < m → next ≠ Some x → wait prev (S ++ [p]) x = wait prev S x) as Hsame.
  { intros x Hx Hn. unfold wait. destruct (prev x) as [y|] eqn:E; [|done]. assert (y ≠ p) by (intros ->; by apply Hn, Hnext).
    assert (y ∈ S ++ [p] ↔ y ∈ S) as Hy by (rewrite elem_of_app, list_elem_of_singleton; tauto). by rewrite (decide_ext _ _ _ _ Hy). }
  destruct next as [a|].
  - specialize (Hr a eq_refl). assert (prev a = Some p) as Ea by (by apply Hnext). pose proof (Hg a).
    assert (wait prev S a = 1) as E1 by (unfold wait; rewrite Ea; by rewrite decide_False).
    assert (wait prev (S ++ [p]) a = 0) as E0 by (unfold wait; rewrite Ea, decide_True; [done|]; apply elem_of_app; right; by left).
    destruct (release_ok _ st a Hc Hr) as (st' & new & E & Ea' & Hc'); [cbn beta; lia|]. exists st', new. split; [done|]. split; [done|].
    eapply counting_ext; [|exact Hc']. intros x Hx. cbn beta. case_decide as D; [subst x; lia|]. rewrite Hsame; [done|done|congruence].
  - exists st, []. split; [done|]. split; [by rewrite app_nil_r|]. eapply counting_ext; [|exact Hc]. intros x Hx. cbn beta. by rewrite Hsame.
Qed.

Abbreviation pending S := (λ x, wait prevOut S x + wait prevIn S x).

(** One round: [p] is placed. *)
Lemma releaseNext_ok S p st : counting (pending S) st → 0 ≤ p < m → p ∉ S →
  ∃ st' new, releaseNext c p st = Ok st' ∧ st'.2 = st.2 ++ new ∧ counting (pending (S ++ [p])) st'.
Proof using Hm Hout Hin Hito Hoti.
  intros Hc Hp Hnp. destruct (Hout p Hp) as (s & lo & hi & Cp). pose proof (ca_range _ _ _ _ _ _ _ Cp) as Hr.
  destruct (Hoti p Hp) as (Eq & Hq & Einv). set (q := toIn p) in *. destruct (Hin q Hq) as (d & lo' & hi' & Cq). pose proof (ca_range _ _ _ _ _ _ _ Cq) as Hr'.
  pose proof (chain_next _ _ _ _ _ _ _ Hout Cp) as Hnext. pose proof (chain_next _ _ _ _ _ _ _ Hin Cq) as Hnext'.
  unfold releaseNext. rewrite (idx_lookup _ _ _ (proj1 Hp) (ca_owner _ _ _ _ _ _ _ Cp)). cbn [mbind res_bind].
  rewrite (idx_lookup _ (s + 1) _ ltac:(lia) (ca_hi _ _ _ _ _ _ _ Cp)). cbn [mbind res_bind]. rewrite (wrapU_small 32 (p + 1)) by lia.
  destruct (place_ok prevOut (wait prevIn S) S p (if decide (p + 1 < hi) then Some (p + 1) else None) st) as (st1 & new1 & E1 & F1 & Hc1); try done.
  { intros x. apply wait_01. }
  { intros x Hx. unfold prevOut. destruct (headOut x) eqn:Eh; case_decide as D; split; try done; intros [= E]; assert (x = p + 1) as -> by lia.
    - apply Hnext in D as [_ D]. congruence.
    - done.
    - f_equal. lia.
    - exfalso. apply D, Hnext. split; [lia|done]. }
  { intros a. case_decide; [|done]. intros [= <-]. lia. }
  assert ((if decide (p + 1 < hi) then release (p + 1) st else Ok st) = Ok st1) as -> by (by case_decide). clear E1. cbn [mbind res_bind].
  rewrite (idx_lookup _ _ _ (proj1 Hp) Eq). cbn [mbind res_bind]. rewrite (idx_lookup _ _ _ (proj1 Hq) (ca_owner _ _ _ _ _ _ _ Cq)). cbn [mbind res_bind].
  rewrite (idx_lookup _ (d + 1) _ ltac:(lia) (ca_hi _ _ _ _ _ _ _ Cq)). cbn [mbind res_bind]. rewrite (wrapU_small 32 (q + 1)) by lia.
  destruct (place_ok prevIn (wait prevOut (S ++ [p])) S p (if decide (q + 1 < hi') then Some (toOut (q + 1)) else None) st1) as (st2 & new2 & E2 & F2 & Hc2); try done.
  { eapply counting_ext; [|exact Hc1]. intros x Hx. cbn beta. lia. }
  { intros x. apply wait_01. }
  { intros x Hx. destruct (Hoti x Hx) as (_ & Hqx & Ex). unfold prevIn. destruct (headIn (toIn x)) eqn:Eh; case_decide as D; split; try done; intros [= E].
    - exfalso. destruct (Hito (q + 1) ltac:(lia)) as (_ & _ & Ei). rewrite E in Ei. apply Hnext' in D as [_ D]. congruence.
    - assert (q = toIn x - 1) as Eqx; [|f_equal; rewrite Eqx, Z.sub_add; done].
      destruct (Hin (toIn x) Hqx) as (d1 & lo1 & hi1 & C1). rewrite (isHead_ok _ _ _ _ _ _ _ C1) in Eh. apply bool_decide_eq_false in Eh.
      pose proof (ca_range _ _ _ _ _ _ _ C1). destruct (Hito (toIn x - 1) ltac:(lia)) as (_ & _ & Ei). rewrite E in Ei. done.
    - f_equal. subst x. destruct (Hito (q + 1) ltac:(lia)) as (_ & _ & ->). by rewrite Z.add_simpl_r.
    - exfalso. destruct (Hin (toIn x) Hqx) as (d1 & lo1 & hi1 & C1). rewrite (isHead_ok _ _ _ _ _ _ _ C1) in Eh. apply bool_decide_eq_false in Eh.
      pose proof (ca_range _ _ _ _ _ _ _ C1). destruct (Hito (toIn x - 1) ltac:(lia)) as (_ & _ & Ei). rewrite E in Ei. fold q in Ei.
      apply D, Hnext'. rewrite Ei, Z.sub_add. split; [lia|]. rewrite (isHead_ok _ _ _ _ _ _ _ C1). by apply bool_decide_eq_false. }
  { intros a. case_decide as D; [|done]. intros [= <-]. apply Hito. lia. }
  exists st2, (new1 ++ new2). split; [|split; [by rewrite F2, F1, app_assoc|eapply counting_ext; [|exact Hc2]; intros x Hx; cbn beta; lia]].
  case_decide; [|done]. destruct (Hito (q + 1) ltac:(lia)) as (Ei & _ & _). by rewrite (idx_lookup _ (q + 1) _ ltac:(lia) Ei).
Qed.

Definition isPrev (y p : Z) : Prop := prevOut p = Some y ∨ prevIn p = Some y.

(** Every position comes after its predecessors. *)
Definition afterPrev (order : list Z) : Prop := ∀ i p y, order !! i = Some p → isPrev y p → y ∈ take i order.

Lemma pending_zero S p : pending S p = 0 ↔ ∀ y, isPrev y p → y ∈ S.
Proof using.
  clear Hm Hout Hin Hito Hoti. cbn beta. unfold wait, isPrev. destruct (prevOut p) as [a|], (prevIn p) as [b|]; repeat case_decide; split; try done; try lia; try naive_solver.
Qed.

Lemma counting_length f st : counting f st → len st.2 ≤ m.
Proof using Hm.
  intros [_ Hnd Hr _ _]. assert (len st.2 = Z.of_nat (size (list_to_set st.2 : gset Z))) as -> by (unfold len; by rewrite size_list_to_set).
  apply (interval_size_le _ 0); [lia|]. intros x Hx. apply elem_of_list_to_set, Hr in Hx. lia.
Qed.

Lemma walk_ok fuel : ∀ (h : nat) st, counting (pending (take h st.2)) st → (h ≤ length st.2)%nat → m ≤ Z.of_nat (fuel + h) → afterPrev st.2 →
  ∃ order, walk fuel c (Z.of_nat h) st = Ok order ∧ NoDup order ∧ (∀ p, p ∈ order → 0 ≤ p < m) ∧
    (∀ p, 0 ≤ p < m → (∀ y, isPrev y p → y ∈ order) → p ∈ order) ∧ afterPrev order.
Proof using Hm Hout Hin Hito Hoti.
  induction fuel as [|fuel IH]; intros h st Hc Hh Hf Ha; pose proof (counting_length _ _ Hc) as Hl; unfold len in Hl; cbn [walk];
    (case_decide as D; [|unfold len in D]).
  1, 3: exists st.2; unfold len in D; destruct Hc as [_ Hnd Hr _ Hz]; split_and!; try done; intros p Hp Hy; apply Hz, pending_zero; [done|];
    by rewrite take_ge by lia.
  { lia. }
  destruct (lookup_lt_is_Some_2 st.2 h) as [p Hp]; [lia|]. rewrite (idx_lookup st.2 (Z.of_nat h) p) by (lia || by rewrite Nat2Z.id).
  cbn [mbind res_bind]. assert (p ∉ take h st.2) as Hnp.
  { pose proof (ct_nodup _ _ Hc) as Hnd. rewrite <- (take_drop_middle _ _ _ Hp) in Hnd. apply NoDup_app in Hnd as (_ & Hd & _).
    intros Hin'. apply (Hd p Hin'). by left. }
  destruct (releaseNext_ok (take h st.2) p st Hc) as (st' & new & -> & E & Hc'); [by eapply (ct_range _ _ Hc), list_elem_of_lookup_2|done|].
  cbn [mbind res_bind]. replace (Z.of_nat h + 1) with (Z.of_nat (S h)) by lia.
  assert (take (S h) st'.2 = take h st.2 ++ [p]) as Et by (rewrite E, take_app_le by lia; by apply take_S_r).
  apply (IH (S h) st'); [by rewrite Et|rewrite E, length_app; lia|lia|].
  intros i x y Hx Hy. destruct (decide (i < length st.2)%nat) as [Hi|Hi].
  - rewrite E in Hx |- *. rewrite lookup_app_l in Hx by done. rewrite take_app_le by lia. by apply (Ha i x).
  - assert (y ∈ take (S h) st'.2) as Hin'.
    { rewrite Et. pose proof (list_elem_of_lookup_2 _ _ _ Hx) as Hxin. pose proof (ct_range _ _ Hc' x Hxin) as Hxr.
      apply (ct_zero _ _ Hc' x Hxr) in Hxin. rewrite pending_zero in Hxin. by apply Hxin. }
    apply list_elem_of_lookup_1 in Hin' as [k Hk]. apply lookup_take_Some in Hk as [Hk Hlt]. eapply (list_elem_of_lookup_2 _ k). apply lookup_take_Some. split; [done|lia].
Qed.

Lemma indegree_ok p : 0 ≤ p < m → indegree c p = Ok (pending [] p).
Proof using Hm Hout Hin Hito Hoti.
  intros Hp. destruct (Hout p Hp) as (s & lo & hi & Cp). pose proof (ca_range _ _ _ _ _ _ _ Cp) as Hr.
  destruct (Hoti p Hp) as (Eq & Hq & Einv). destruct (Hin (toIn p) Hq) as (d & lo' & hi' & Cq). pose proof (ca_range _ _ _ _ _ _ _ Cq) as Hr'.
  unfold indegree. rewrite (idx_lookup _ _ _ (proj1 Hp) (ca_owner _ _ _ _ _ _ _ Cp)). cbn [mbind res_bind].
  rewrite (idx_lookup _ s _ ltac:(lia) (ca_lo _ _ _ _ _ _ _ Cp)). cbn [mbind res_bind]. rewrite (idx_lookup _ _ _ (proj1 Hp) Eq). cbn [mbind res_bind].
  rewrite (idx_lookup _ _ _ (proj1 Hq) (ca_owner _ _ _ _ _ _ _ Cq)). cbn [mbind res_bind].
  rewrite (idx_lookup _ d _ ltac:(lia) (ca_lo _ _ _ _ _ _ _ Cq)). cbn [mbind res_bind]. f_equal. cbn beta. unfold wait, prevOut, prevIn.
  rewrite (isHead_ok _ _ _ _ _ _ _ Cp), (isHead_ok _ _ _ _ _ _ _ Cq).
  f_equal; case_bool_decide; case_decide; try done; by rewrite decide_False by apply not_elem_of_nil.
Qed.

(** The order from a snapshot whose chains have a common extension. *)
Lemma order_ok (rank : Z → Z) : (∀ p, 0 ≤ p < m → 0 ≤ rank p) → (∀ p y, 0 ≤ p < m → isPrev y p → 0 ≤ y < m ∧ rank y < rank p) →
  ∃ indeg order, mapM (indegree c) (zseq m) = Ok indeg ∧
    walk (S (Z.to_nat m)) c 0 (indeg, filter (λ p, indeg !! Z.to_nat p = Some 0) (zseq m)) = Ok order ∧
    NoDup order ∧ (∀ p, p ∈ order ↔ 0 ≤ p < m) ∧ afterPrev order.
Proof using Hm Hout Hin Hito Hoti.
  intros Hrank Hprev. set (indeg := pending [] <$> zseq m).
  assert (len indeg = m) as Hlen by (unfold indeg, zseq; rewrite !len_fmap; unfold len; rewrite length_seq; lia).
  assert (∀ p, 0 ≤ p < m → indeg !! Z.to_nat p = Some (pending [] p)) as Hat.
  { intros p Hp. unfold indeg. rewrite list_lookup_fmap, zseq_lookup by lia. simpl. by rewrite Z2Nat.id by lia. }
  exists indeg. assert (mapM (indegree c) (zseq m) = Ok indeg) as ->.
  { rewrite <- Hlen at 1. apply mapM_zseq. intros i x Hi. apply lookup_lt_Some in Hi as Hlt. unfold len in Hlen.
    pose proof (Hat (Z.of_nat i) ltac:(lia)) as Hx. rewrite Nat2Z.id, Hi in Hx. injection Hx as ->. by apply indegree_ok; lia. }
  set (queue := filter (λ p, indeg !! Z.to_nat p = Some 0) (zseq m)). assert (∀ p, 0 ≤ p < m → p ∈ queue ↔ pending [] p = 0) as Hq.
  { intros p Hp. unfold queue. rewrite list_elem_of_filter, elem_of_zseq, Hat by done. split; [by intros [[= ?] _]|intros ->; by split]. }
  destruct (walk_ok (S (Z.to_nat m)) 0 (indeg, queue)) as (order & E & Hnd & Hr & Hcl & Ha).
  - split; cbn [fst snd]; try done; [apply NoDup_filter, sorted_NoDup, zseq_sorted|]. intros p Hp. apply list_elem_of_filter in Hp as [_ Hp%elem_of_zseq]. done.
  - lia.
  - lia.
  - intros i p y Hi Hy. pose proof (list_elem_of_lookup_2 _ _ _ Hi) as Hin'. cbn [snd] in Hin'. assert (0 ≤ p < m) as Hp.
    { unfold queue in Hin'. apply list_elem_of_filter in Hin' as [_ Hin'%elem_of_zseq]. done. }
    apply Hq in Hin'; [|done]. rewrite pending_zero in Hin'. by apply Hin', not_elem_of_nil in Hy.
  - exists order. split; [done|]. split; [done|]. split; [done|]. split; [|done]. intros p. split; [apply Hr|].
    intros Hp. remember (Z.to_nat (rank p)) as k eqn:Ek. revert p Hp Ek. induction k as [k IHk] using lt_wf_ind. intros p Hp ->.
    apply Hcl; [done|]. intros y Hy. destruct (Hprev p y Hp Hy) as [Hyr Hlt]. pose proof (Hrank y Hyr). apply (IHk (Z.to_nat (rank y))); [lia|done|done].
Qed.

End walk.
