(* ===== verification/ThawSpec.v ===== *)
(** What the thaw restages: [thawRels] of [src/thaw.go].

    The order of the walk, against the relationships the snapshot was built
    from: it is the insertion order along every node's range in both directions,
    so building the adjacency again from the restaged list reproduces both CSR
    directions exactly, parallel relationships included. *)

From S2P Require Import Prelude Value AtomTable Columns FinalizeColumns NodeSet Csr RelTypes InToOut Snapshot TypedAdj Traverse.
From S2P Require Import Builder BuilderInv Finalize FinalizeSpec Thaw ThawOrder.

(** ** Inverting position maps *)

Lemma invert_ok (l : list Z) k : NoDup l → Forall (λ x, 0 ≤ x < Z.of_nat k) l → len l ≤ 4294967296 →
  ∃ a, foldM (λ a '(i, x), upd a x (to_u32 i)) (enum l) (replicate k 0) = Ok a ∧ length a = k ∧
    ∀ i x, l !! i = Some x → a !! Z.to_nat x = Some (Z.of_nat i).
Proof.
  intros Hnd HF Hl. pose (P := λ (t : nat) (a : list Z), length a = k ∧ ∀ i x, (i < t)%nat → l !! i = Some x → a !! Z.to_nat x = Some (Z.of_nat i)).
  destruct (foldM_inv P (λ a '(i, x), upd a x (to_u32 i)) (enum l) (replicate k 0)) as (a & E & Ha1 & Ha2).
  - split; [by rewrite length_replicate|lia].
  - intros t [i x] a [-> Hx]%lookup_enum [Ha1 Ha2]. pose proof (Forall_lookup_1 _ _ _ _ HF Hx) as Hr. simpl in Hr.
    rewrite upd_ok by (unfold len; lia). eexists. split; [done|]. split; [by rewrite length_insert|]. intros j y Hj Hy.
    destruct (decide (j = t)) as [->|Nj].
    + assert (y = x) as -> by congruence. apply lookup_lt_Some in Hx. rewrite list_lookup_insert_eq by lia. f_equal. apply wrapU_small. unfold len in Hl. lia.
    + pose proof (Forall_lookup_1 _ _ _ _ HF Hy) as Hry. simpl in Hry. assert (y ≠ x) by (intros ->; by apply Nj, (NoDup_lookup l j t x)).
      rewrite list_lookup_insert_ne by lia. apply Ha2; [lia|done].
  - exists a. split; [done|]. split; [done|]. intros i x Hi. apply Ha2; [|done]. rewrite length_enum. by eapply lookup_lt_Some.
Qed.

(** ** Chains of a finalized adjacency *)

Section source.
Context (n : Z) (rels : list (Z * Z)) (ts : list Z).
Hypothesis Hn : 0 ≤ n < 4294967296.
Hypothesis Hm : len rels < 4294967296.
Hypothesis Hts : length ts = length rels.
Hypothesis Hends : Forall (λ r, 0 ≤ r.1 < n ∧ 0 ≤ r.2 < n) rels.

Abbreviation at_ e p := (relAt n rels e p).

Section direction.
Context (endpoint : Z) (offsets nbrs types : list Z).
Hypothesis Hcsr : isCSR n rels ts endpoint offsets nbrs types.

Lemma ownersFromOffsets_ok : ∃ owners, ownersFromOffsets offsets = Ok owners ∧ chainOK offsets owners (len rels) ∧
  ∀ p, 0 ≤ p < len rels → owners !! Z.to_nat p = Some (ownerOf endpoint (rels !!! Z.to_nat (at_ endpoint p))).
Proof using Hn Hm Hts Hends Hcsr.
  destruct (ownersOf_ok n rels ts Hn Hm Hts Hends endpoint offsets nbrs types Hcsr) as (owners & E & Hlo & Ho).
  assert (∀ p, 0 ≤ p < len rels → owners !! Z.to_nat p = Some (ownerOf endpoint (rels !!! Z.to_nat (at_ endpoint p)))) as Hat.
  { intros p Hp. specialize (Ho p Hp). unfold idx in Ho. rewrite decide_False in Ho by lia. destruct (owners !! Z.to_nat p); [by injection Ho as ->|done]. }
  destruct Hcsr as [Hl Hoff _ _ _]. exists owners. split.
  - unfold ownersFromOffsets. rewrite Hl. replace (n + 1 - 1) with n by lia. rewrite decide_False by lia.
    rewrite (idx_lookup _ _ _ (proj1 Hn) (Hoff n ltac:(lia))). cbn [mbind res_bind].
    rewrite below_full; [unfold ownersOf in E; rewrite Hl in E; replace (n + 1 - 1) with n in E by lia; exact E|].
    eapply Forall_impl; [exact Hends|]. intros r [? ?]. unfold ownerOf. case_decide; lia.
  - split; [|done]. intros p Hp. destruct (direction_at n rels ts Hn Hm Hts Hends endpoint _ _ _ Hcsr p Hp) as (r & t & Hr & Ht & _ & _ & Hpr).
    pose proof (Hat p Hp) as Hop. rewrite (list_lookup_total_correct _ _ _ Hr) in Hop. pose proof (Forall_lookup_1 _ _ _ _ Hends Hr) as [? ?].
    assert (0 ≤ ownerOf endpoint r < n) as Hor by (unfold ownerOf; case_decide; lia). set (o := ownerOf endpoint r) in *.
    pose proof (below_nonneg (ownerOf endpoint) rels o). pose proof (below_len (ownerOf endpoint) rels (o + 1)).
    exists o, (below (ownerOf endpoint) rels o), (below (ownerOf endpoint) rels (o + 1)). split; [done|apply Hoff; lia|apply Hoff; lia|lia|].
    intros p' Hp'. assert (0 ≤ p' < len rels) as Hr' by lia.
    destruct (direction_at n rels ts Hn Hm Hts Hends endpoint _ _ _ Hcsr p' Hr') as (r' & t' & Hr2 & _ & _ & _ & Hpr').
    rewrite (Hat p' Hr'), (list_lookup_total_correct _ _ _ Hr2). f_equal. set (o' := ownerOf endpoint r') in *.
    destruct (Z.lt_trichotomy o o') as [Hlt|[->|Hlt]]; [|done|].
    + pose proof (below_mono (ownerOf endpoint) rels (o + 1) o' ltac:(lia)). lia.
    + pose proof (below_mono (ownerOf endpoint) rels (o' + 1) o ltac:(lia)). lia.
Qed.

(** Along a node's range the relationships ascend. *)
Lemma relAt_ascends p : 0 ≤ p - 1 → p < len rels →
  ownerOf endpoint (rels !!! Z.to_nat (at_ endpoint (p - 1))) = ownerOf endpoint (rels !!! Z.to_nat (at_ endpoint p)) →
  at_ endpoint (p - 1) < at_ endpoint p.
Proof using Hn Hm Hts Hends.
  intros Hp0 Hp Eo. destruct (relAt_slot n rels ts Hn Hm Hts Hends endpoint (p - 1) ltac:(lia)) as (r & _ & Hi & Hr & _ & Es).
  destruct (relAt_slot n rels ts Hn Hm Hts Hends endpoint p ltac:(lia)) as (r' & _ & Hi' & Hr' & _ & Es').
  rewrite (list_lookup_total_correct _ _ _ Hr), (list_lookup_total_correct _ _ _ Hr') in Eo.
  destruct (decide (at_ endpoint (p - 1) < at_ endpoint p)) as [|Hge]; [done|]. exfalso.
  unfold slotOf in Es, Es'. rewrite Eo in Es. pose proof (equal_take_le (ownerOf endpoint) rels (Z.to_nat (at_ endpoint p)) (Z.to_nat (at_ endpoint (p - 1))) (ownerOf endpoint r') ltac:(lia)). lia.
Qed.

Lemma head_false owners p : chainOK offsets owners (len rels) →
  (∀ p, 0 ≤ p < len rels → owners !! Z.to_nat p = Some (ownerOf endpoint (rels !!! Z.to_nat (at_ endpoint p)))) →
  0 ≤ p < len rels → isHead offsets owners p = false → 0 ≤ p - 1 ∧ at_ endpoint (p - 1) < at_ endpoint p.
Proof using Hn Hm Hts Hends.
  intros Hc Hat Hp Hh. destruct (Hc p Hp) as (s & lo & hi & C). rewrite (isHead_ok _ _ _ _ _ _ _ C) in Hh. apply bool_decide_eq_false in Hh.
  pose proof (ca_range _ _ _ _ _ _ _ C) as Hr. split; [lia|]. apply relAt_ascends; [lia..|].
  pose proof (ca_same _ _ _ _ _ _ _ C (p - 1) ltac:(lia)) as H1. pose proof (ca_owner _ _ _ _ _ _ _ C) as H2. rewrite Hat in H1, H2 by lia. congruence.
Qed.

End direction.

(** Positions enumerate the relationships. *)
Lemma relAt_perm : Permutation (relAt n rels 0 <$> zseq (len rels)) (zseq (len rels)).
Proof using Hn Hm Hts Hends.
  rewrite (relAt_fmap n rels ts) by done. pose proof (ids_owner n rels ts Hn Hm Hts Hends 0) as HF. apply NoDup_Permutation.
  - apply NoDup_bucket; [lia| |apply sorted_NoDup, zseq_sorted]. eapply Forall_impl; [exact HF|]. by intros i [? _].
  - apply sorted_NoDup, zseq_sorted.
  - intros i. unfold relOrder. rewrite elem_of_bucket. split; [tauto|]. intros Hi. split; [done|]. rewrite Forall_forall in HF. by apply HF.
Qed.

(** The arrays of a snapshot that holds the staged relationships. *)
Section order.
Context {bm : Type} `{RoaringSet bm} (g : Snapshot bm).
Hypothesis Hout : isCSR n rels ts 0 (outOffsets g) (outNbrs g) (typesOf (outTypes g)).
Hypothesis Hin : isCSR n rels ts 1 (inOffsets g) (inNbrs g) (typesOf (inTypes g)).
Hypothesis Hwo : wf_types (outTypes g).
Hypothesis Hwi : wf_types (inTypes g).
Hypothesis Htr : Forall (λ t, 0 ≤ t < MaxUint32) ts.
(** A stored position map is the computed one. *)
Hypothesis Hito : thawInToOut g =
  computeInToOutFromCSR (outOffsets g) (outNbrs g) (outTypes g) (inOffsets g) (inNbrs g) (inTypes g).

Abbreviation m := (len rels).

Lemma relAt_inj e p p' : 0 ≤ p < m → 0 ≤ p' < m → at_ e p = at_ e p' → p = p'.
Proof using Hn Hm Hts Hends.
  intros Hp Hp' E. destruct (relAt_slot n rels ts Hn Hm Hts Hends e p Hp) as (r & _ & _ & Hr & _ & <-).
  destruct (relAt_slot n rels ts Hn Hm Hts Hends e p' Hp') as (r' & _ & _ & Hr' & _ & <-). rewrite <- E in Hr' |- *. congruence.
Qed.

Lemma thawChains_ok : ∃ c, thawChains g = Ok c ∧ ch_out c = outOffsets g ∧ ch_in c = inOffsets g ∧
  chainOK (ch_out c) (ch_srcOf c) m ∧ chainOK (ch_in c) (ch_dstOf c) m ∧
  (∀ p, 0 ≤ p < m → ch_srcOf c !! Z.to_nat p = Some (rels !!! Z.to_nat (at_ 0 p)).1) ∧
  (∀ q, 0 ≤ q < m → ch_dstOf c !! Z.to_nat q = Some (rels !!! Z.to_nat (at_ 1 q)).2) ∧
  (∀ q, 0 ≤ q < m → ch_inToOut c !! Z.to_nat q = Some (toOut c q) ∧ 0 ≤ toOut c q < m ∧ toIn c (toOut c q) = q) ∧
  (∀ p, 0 ≤ p < m → ch_outToIn c !! Z.to_nat p = Some (toIn c p) ∧ 0 ≤ toIn c p < m ∧ toOut c (toIn c p) = p) ∧
  (∀ q, 0 ≤ q < m → at_ 0 (toOut c q) = at_ 1 q).
Proof using Hn Hm Hts Hends Hout Hin Hwo Hwi Htr Hito.
  destruct (computeInToOut_positions n rels ts Hn Hm Hts Hends _ _ _ _ _ _ Hout Hin Hwo Hwi Htr) as (ito & E & Hl & Hpos).
  unfold thawChains. rewrite Hito, E. cbn [mbind res_bind].
  assert (∀ i x, ito !! i = Some x → 0 ≤ x < m ∧ at_ 0 x = at_ 1 (Z.of_nat i)) as Hel.
  { intros i x Hx. apply lookup_lt_Some in Hx as Hlt. destruct (Hpos (Z.of_nat i)) as (p & Hp & Ep & Er); [unfold len; lia|].
    rewrite Nat2Z.id, Hx in Ep. by injection Ep as ->. }
  assert (NoDup ito) as Hnd.
  { apply NoDup_alt. intros i j x Hi Hj. destruct (Hel i x Hi) as [_ E1]. destruct (Hel j x Hj) as [_ E2].
    apply lookup_lt_Some in Hi, Hj. assert (Z.of_nat i = Z.of_nat j); [|lia]. apply (relAt_inj 1); [unfold len; lia..|congruence]. }
  destruct (invert_ok ito (length (outNbrs g)) Hnd) as (oti & -> & Hlo & Hinv).
  { rewrite (ic_nbrs _ _ _ _ _ _ _ Hout). apply Forall_lookup. intros i x Hx. by apply Hel in Hx as [? _]. }
  { unfold len in *. lia. }
  cbn [mbind res_bind]. destruct (ownersFromOffsets_ok 0 _ _ _ Hout) as (so & -> & Cs & Hso). cbn [mbind res_bind].
  destruct (ownersFromOffsets_ok 1 _ _ _ Hin) as (ds & -> & Cd & Hds). cbn [mbind res_bind]. eexists. split; [done|]. cbn.
  assert (∀ q, 0 ≤ q < m → ito !! Z.to_nat q = Some (ito !!! Z.to_nat q)) as Hlk by (intros q Hq; apply list_lookup_lookup_total_lt; unfold len in Hq; lia).
  assert (∀ q, 0 ≤ q < m → ito !! Z.to_nat q = Some (ito !!! Z.to_nat q) ∧ 0 ≤ ito !!! Z.to_nat q < m ∧ oti !!! Z.to_nat (ito !!! Z.to_nat q) = q) as Hto.
  { intros q Hq. specialize (Hlk q Hq). destruct (Hel _ _ Hlk) as [Hr _]. split; [done|]. split; [done|].
    rewrite (list_lookup_total_correct _ _ _ (Hinv _ _ Hlk)). lia. }
  split_and!; try done.
  - intros p Hp. destruct (relAt_slot n rels ts Hn Hm Hts Hends 0 p Hp) as (r & _ & Hi & Hr & _ & Es).
    destruct (relAt_slotOf n rels ts Hn Hm Hts Hends 1 _ _ Hr) as [Hq Eq]. set (q := slotOf (ownerOf 1) rels (Z.to_nat (at_ 0 p)) r) in *.
    destruct (Hpos q Hq) as (p' & Hp' & Ep' & Er). assert (p' = p) as ->.
    { apply (relAt_inj 0); [done..|]. rewrite Er, Eq. lia. }
    pose proof (Hinv _ _ Ep') as Hoq. rewrite Z2Nat.id in Hoq by lia. unfold toIn, toOut. cbn. rewrite (list_lookup_total_correct _ _ _ Hoq), (list_lookup_total_correct _ _ _ Ep'). done.
  - intros q Hq. specialize (Hlk q Hq). destruct (Hel _ _ Hlk) as [_ E']. unfold toOut. cbn. rewrite E'. f_equal. lia.
Qed.

(** The walk's order: every position once, and along each node's range of either
    direction in CSR order. *)
Record stagingOrder (order : list Z) : Prop := {
  so_nodup : NoDup order;
  so_elem : ∀ p, p ∈ order ↔ 0 ≤ p < m;
  so_out : ∀ i j p p', order !! i = Some p → order !! j = Some p' → (rels !!! Z.to_nat (at_ 0 p)).1 = (rels !!! Z.to_nat (at_ 0 p')).1 → p < p' → (i < j)%nat;
  so_in : ∀ i j q q' p p', 0 ≤ q < m → 0 ≤ q' < m → at_ 1 q = at_ 0 p → at_ 1 q' = at_ 0 p' → order !! i = Some p → order !! j = Some p' →
    (rels !!! Z.to_nat (at_ 1 q)).2 = (rels !!! Z.to_nat (at_ 1 q')).2 → q < q' → (i < j)%nat;
}.

(** Later positions of a range follow from single steps. *)
Lemma chain_closure offs owners (R : Z → Z → Prop) : chainOK offs owners m → (∀ x y z, R x y → R y z → R x z) →
  (∀ p, 0 ≤ p < m → isHead offs owners p = false → R (p - 1) p) →
  ∀ k p p', (p' = p + 1 + Z.of_nat k) → 0 ≤ p → p' < m → owners !! Z.to_nat p = owners !! Z.to_nat p' → R p p'.
Proof using ts Hts.
  intros Hc Htrans Hstep k. induction k as [|k IH]; intros p p' E Hp Hp' Eo;
    destruct (Hc p' ltac:(lia)) as (s & lo & hi & C); destruct (Hc p ltac:(lia)) as (s' & lo' & hi' & C');
    pose proof (ca_range _ _ _ _ _ _ _ C); pose proof (ca_range _ _ _ _ _ _ _ C');
    (assert (s' = s) as -> by (pose proof (ca_owner _ _ _ _ _ _ _ C); pose proof (ca_owner _ _ _ _ _ _ _ C'); congruence));
    (assert (lo' = lo) as -> by (pose proof (ca_lo _ _ _ _ _ _ _ C); pose proof (ca_lo _ _ _ _ _ _ _ C'); congruence));
    pose proof (Hstep p' ltac:(lia)) as Hs; rewrite (isHead_ok _ _ _ _ _ _ _ C), bool_decide_eq_false_2 in Hs by lia; specialize (Hs eq_refl).
  - by replace (p' - 1) with p in Hs by lia.
  - eapply Htrans; [|exact Hs]. apply IH; [lia|done|lia|].
    rewrite (ca_owner _ _ _ _ _ _ _ C'). symmetry. apply (ca_same _ _ _ _ _ _ _ C). lia.
Qed.

Definition before (order : list Z) (x y : Z) : Prop := ∃ i j, order !! i = Some x ∧ order !! j = Some y ∧ (i < j)%nat.

Lemma before_trans order x y z : NoDup order → before order x y → before order y z → before order x z.
Proof using ts rels Hts. intros Hnd (i & j & Hi & Hj & Hlt) (j' & k & Hj' & Hk & Hlt'). assert (j = j') as <- by (by eapply NoDup_lookup). exists i, k. split_and!; [done..|lia]. Qed.

Lemma before_lt order x y i j : NoDup order → before order x y → order !! i = Some x → order !! j = Some y → (i < j)%nat.
Proof using.
  intros Hnd (i' & j' & Hi & Hj & Hlt) Hi' Hj'. assert (i = i') as -> by (by eapply NoDup_lookup). by assert (j = j') as -> by (by eapply NoDup_lookup).
Qed.

Lemma thawRelOrder_ok : ∃ order, thawRelOrder g = Ok order ∧ stagingOrder order.
Proof using Hn Hm Hts Hends Hout Hin Hwo Hwi Htr Hito.
  unfold thawRelOrder. assert (len (outNbrs g) = m) as -> by (unfold len; by rewrite (ic_nbrs _ _ _ _ _ _ _ Hout)). case_decide as D.
  { exists []. split; [done|]. split; [constructor| |done|done]. intros p. split; [by intros ?%not_elem_of_nil|lia]. }
  destruct thawChains_ok as (c & -> & Eo & Ei & Co & Ci & Hso & Hds & Hto & Hti & Hat). cbn [mbind res_bind].
  assert (0 ≤ m < 4294967296) as Hm' by (split; [apply len_nonneg|done]).
  destruct (order_ok c m Hm' Co Ci Hto Hti (relAt n rels 0)) as (indeg & order & -> & E & Hnd & Hel & Hap).
  { intros p Hp. by destruct (relAt_slot n rels ts Hn Hm Hts Hends 0 p Hp) as (_ & _ & [? _] & _). }
  { intros p y Hp [Hy|Hy].
    - unfold prevOut in Hy. destruct (isHead _ _ p) eqn:Eh; [done|]. injection Hy as <-. rewrite Eo in *.
      destruct (head_false 0 (outOffsets g) (ch_srcOf c) p Co) as [? ?]; try done. split; [lia|done].
    - unfold prevIn in Hy. destruct (isHead _ _ (toIn c p)) eqn:Eh; [done|]. injection Hy as <-. destruct (Hti p Hp) as (_ & Hq & Einv). rewrite Ei in *.
      destruct (head_false 1 (inOffsets g) (ch_dstOf c) (toIn c p) Ci) as [Hq0 Hlt]; try done. split; [apply Hto; lia|].
      rewrite Hat by lia. rewrite <- Einv at 2. by rewrite Hat by done. }
  cbn [mbind res_bind]. rewrite E. cbn [mbind res_bind].
  assert (len order = m) as Hlen.
  { assert (len order = Z.of_nat (size (list_to_set order : gset Z))) as -> by (unfold len; by rewrite size_list_to_set).
    replace m with (m - 1 - 0 + 1) by lia. apply interval_size; [|lia|]; intros x; rewrite elem_of_list_to_set, Hel; lia. }
  rewrite decide_False by lia. exists order. split; [done|].
  assert (∀ y p, 0 ≤ p < m → isPrev c y p → before order y p) as Hbef.
  { intros y p Hp Hy. apply Hel, list_elem_of_lookup_1 in Hp as [j Hj]. pose proof (Hap j p y Hj Hy) as Hin'.
    apply list_elem_of_lookup_1 in Hin' as [i Hi]. apply lookup_take_Some in Hi as [Hi Hlt]. exists i, j. done. }
  split; [done|done| |].
  - intros i j p p' Hi Hj Ho Hlt. apply list_elem_of_lookup_2 in Hi as Hp. apply list_elem_of_lookup_2 in Hj as Hp'. apply Hel in Hp, Hp'.
    apply (before_lt order p p'); [done| |done|done].
    apply (chain_closure (ch_out c) (ch_srcOf c) (before order) Co (λ x y z, before_trans order x y z Hnd)) with (k := Z.to_nat (p' - p - 1)); [|lia..|].
    + intros x Hx Hh. apply Hbef; [done|]. left. unfold prevOut. by rewrite Hh.
    + rewrite !Hso by done. by rewrite Ho.
  - intros i j q q' p p' Hq Hq' Ep Ep' Hi Hj Ho Hlt. apply list_elem_of_lookup_2 in Hi as Hp. apply list_elem_of_lookup_2 in Hj as Hp'. apply Hel in Hp, Hp'.
    assert (toOut c q = p) as Tp by (apply (relAt_inj 0); [by apply Hto|done|by rewrite Hat]).
    assert (toOut c q' = p') as Tp' by (apply (relAt_inj 0); [by apply Hto|done|by rewrite Hat]).
    apply (before_lt order p p'); [done| |done|done]. rewrite <- Tp, <- Tp'.
    apply (chain_closure (ch_in c) (ch_dstOf c) (λ x y, before order (toOut c x) (toOut c y)) Ci) with (k := Z.to_nat (q' - q - 1)); [| |lia..|].
    + intros x y z. by apply before_trans.
    + intros x Hx Hh. apply Hbef; [by apply Hto|]. right. unfold prevIn. destruct (Hto x Hx) as (_ & _ & ->). by rewrite Hh.
    + rewrite !Hds by done. by rewrite Ho.
Qed.

(** ** Restaging *)

Abbreviation R := (λ i : Z, rels !!! Z.to_nat i).

(** Slots of a node ascend with the relationships. *)
Lemma slotOf_mono (own : Z * Z → Z) x x' r r' : rels !! x = Some r → rels !! x' = Some r' → own r = own r' → (x < x')%nat →
  slotOf own rels x r < slotOf own rels x' r'.
Proof using ts Hts.
  intros Hr Hr' Eo Hlt. unfold slotOf. rewrite <- Eo. pose proof (equal_take_S own rels x r (own r) Hr) as E. rewrite decide_True in E by done.
  pose proof (equal_take_le own rels (S x) x' (own r) Hlt). lia.
Qed.

(** Along each node, in either direction, the order is the insertion order. *)
Lemma order_inserted order e i j p p' : stagingOrder order → e = 0 ∨ e = 1 → order !! i = Some p → order !! j = Some p' →
  ownerOf e (R (at_ 0 p)) = ownerOf e (R (at_ 0 p')) → at_ 0 p < at_ 0 p' → (i < j)%nat.
Proof using Hn Hm Hts Hends.
  intros Hso He Hi Hj Eo Hlt. pose proof (so_elem _ Hso) as Hel. apply list_elem_of_lookup_2 in Hi as Hp. apply list_elem_of_lookup_2 in Hj as Hp'. apply Hel in Hp, Hp'.
  destruct (relAt_slot n rels ts Hn Hm Hts Hends 0 p Hp) as (r & _ & Hx & Hr & _ & Es).
  destruct (relAt_slot n rels ts Hn Hm Hts Hends 0 p' Hp') as (r' & _ & Hx' & Hr' & _ & Es').
  cbn beta in Eo. rewrite (list_lookup_total_correct _ _ _ Hr), (list_lookup_total_correct _ _ _ Hr') in Eo.
  pose proof (slotOf_mono (ownerOf e) _ _ r r' Hr Hr' Eo ltac:(lia)) as Hmono. destruct He as [-> | ->].
  - rewrite Es, Es' in Hmono. apply (so_out _ Hso i j p p'); [done..| |done].
    by rewrite (list_lookup_total_correct _ _ _ Hr), (list_lookup_total_correct _ _ _ Hr').
  - destruct (relAt_slotOf n rels ts Hn Hm Hts Hends 1 _ _ Hr) as [Hq Eq]. destruct (relAt_slotOf n rels ts Hn Hm Hts Hends 1 _ _ Hr') as [Hq' Eq'].
    apply (so_in _ Hso i j _ _ p p' Hq Hq'); [lia|lia|done|done| |done].
    rewrite Eq, Eq', !Nat2Z.id, (list_lookup_total_correct _ _ _ Hr), (list_lookup_total_correct _ _ _ Hr'). done.
Qed.

Definition restagedRels (order : list Z) : list (Z * Z) := (λ p, R (at_ 0 p)) <$> order.
Definition restagedTypes (order : list Z) : list Z := (λ p, ts !!! Z.to_nat (at_ 0 p)) <$> order.

Lemma restaged_perm order : stagingOrder order → Permutation (restagedRels order) rels.
Proof using Hn Hm Hts Hends.
  intros Hso. unfold restagedRels. assert (Permutation order (zseq m)) as ->.
  { apply NoDup_Permutation; [apply (so_nodup _ Hso)|apply sorted_NoDup, zseq_sorted|]. intros p. by rewrite (so_elem _ Hso), elem_of_zseq. }
  trans ((λ i : Z, rels !!! Z.to_nat i) <$> (relAt n rels 0 <$> zseq m)); [by rewrite <- list_fmap_compose|].
  by rewrite relAt_perm, list_zseq.
Qed.

Lemma restaged_count order e j p : stagingOrder order → e = 0 ∨ e = 1 → order !! j = Some p →
  equal (ownerOf e) (take j (restagedRels order)) (ownerOf e (R (at_ 0 p))) =
  equal (ownerOf e) (take (Z.to_nat (at_ 0 p)) rels) (ownerOf e (R (at_ 0 p))).
Proof using Hn Hm Hts Hends.
  intros Hso He Hj. set (o := ownerOf e (R (at_ 0 p))). pose proof (so_elem _ Hso) as Hel. apply list_elem_of_lookup_2 in Hj as Hp. apply Hel in Hp.
  destruct (relAt_slot n rels ts Hn Hm Hts Hends 0 p Hp) as (_ & _ & Hx & _).
  unfold restagedRels, equal. rewrite <- fmap_take, filter_fmap_len.
  assert (take (Z.to_nat (at_ 0 p)) rels = (λ i : Z, rels !!! Z.to_nat i) <$> zseq (at_ 0 p)) as ->.
  { trans (take (Z.to_nat (at_ 0 p)) ((λ i : Z, rels !!! Z.to_nat i) <$> zseq m)); [by rewrite list_zseq|]. rewrite <- fmap_take. f_equal.
    unfold zseq. rewrite <- fmap_take, take_seq. f_equal. f_equal. lia. }
  rewrite filter_fmap_len. rewrite <- (len_fmap (relAt n rels 0) (filter _ (take j order))). unfold len. f_equal. apply Permutation_length.
  assert (NoDup (take j order)) as Hnd by (pose proof (so_nodup _ Hso) as Hnd; rewrite <- (take_drop j order) in Hnd; by apply NoDup_app in Hnd as [? _]).
  assert (∀ x, x ∈ take j order → 0 ≤ x < m) as Hr by (intros x Hx'; apply Hel; rewrite <- (take_drop j order); apply elem_of_app; by left).
  apply NoDup_Permutation.
  - apply NoDup_fmap_2_strong; [|by apply NoDup_filter]. intros x y [_ Hx']%list_elem_of_filter [_ Hy']%list_elem_of_filter. apply relAt_inj; by apply Hr.
  - apply NoDup_filter, sorted_NoDup, zseq_sorted.
  - intros x. rewrite list_elem_of_filter, elem_of_zseq, list_elem_of_fmap. split.
    + intros (y & -> & [Ho Hy]%list_elem_of_filter). split; [done|]. pose proof (Hr y Hy) as Hyr.
      apply list_elem_of_lookup_1 in Hy as [i Hi]. apply lookup_take_Some in Hi as [Hi Hlt].
      destruct (relAt_slot n rels ts Hn Hm Hts Hends 0 y Hyr) as (_ & _ & Hy & _). split; [lia|].
      destruct (Z.lt_trichotomy (at_ 0 y) (at_ 0 p)) as [|[E|Hgt]]; [done|exfalso..].
      * apply relAt_inj in E; [|done..]. subst y. assert (i = j) by (eapply NoDup_lookup; [apply (so_nodup _ Hso)|done|done]). lia.
      * pose proof (order_inserted order e j i p y Hso He Hj Hi ltac:(done) Hgt). lia.
    + intros [Ho Hxr]. destruct (lookup_lt_is_Some_2 rels (Z.to_nat x)) as [r Hr']; [unfold len in *; lia|].
      destruct (relAt_slotOf n rels ts Hn Hm Hts Hends 0 _ _ Hr') as [Hy Ey]. rewrite Z2Nat.id in Ey by lia.
      set (y := slotOf (ownerOf 0) rels (Z.to_nat x) r) in *. exists y. split; [done|]. apply list_elem_of_filter. rewrite Ey. split; [done|].
      apply Hel, list_elem_of_lookup_1 in Hy as [i Hi]. eapply (list_elem_of_lookup_2 _ i). apply lookup_take_Some. split; [done|].
      apply (order_inserted order e i j y p Hso He Hi Hj); rewrite Ey; [done|lia].
Qed.

Lemma restaged_isCSR order e offs nbrs types : stagingOrder order → e = 0 ∨ e = 1 → isCSR n rels ts e offs nbrs types →
  isCSR n (restagedRels order) (restagedTypes order) e offs nbrs types.
Proof using Hn Hm Hts Hends.
  intros Hso He [H1 H2 H3 H4 H5]. pose proof (restaged_perm order Hso) as HP. pose proof (Permutation_length HP) as Hlen.
  assert (∀ v, below (ownerOf e) (restagedRels order) v = below (ownerOf e) rels v) as Hb.
  { intros v. unfold below, len. f_equal. apply Permutation_length. by rewrite HP. }
  split; [done| |congruence|congruence|].
  - intros v Hv. rewrite Hb. by apply H2.
  - intros j r t Hr Ht. unfold restagedRels in Hr. unfold restagedTypes in Ht. rewrite list_lookup_fmap in Hr. rewrite list_lookup_fmap in Ht. destruct (order !! j) as [p|] eqn:Hj; [|done].
    injection Hr as <-. injection Ht as <-. apply list_elem_of_lookup_2 in Hj as Hp. apply (so_elem _ Hso) in Hp.
    destruct (relAt_slot n rels ts Hn Hm Hts Hends 0 p Hp) as (r & t & Hx & Hr & Ht & _).
    pose proof (restaged_count order e j p Hso He Hj) as Hc. cbn beta in Hc |- *.
    rewrite (list_lookup_total_correct _ _ _ Hr) in Hc. rewrite (list_lookup_total_correct _ _ _ Hr), (list_lookup_total_correct _ _ _ Ht).
    assert (slotOf (ownerOf e) (restagedRels order) j r = slotOf (ownerOf e) rels (Z.to_nat (at_ 0 p)) r) as -> by (unfold slotOf; by rewrite Hb, Hc).
    by apply (H5 (Z.to_nat (at_ 0 p)) r t).
Qed.

End order.
End source.

(** Adjacency arrays are determined by the relationships they hold. *)
Lemma isCSR_unique n rels ts e o1 n1 t1 o2 n2 t2 : 0 ≤ n < 4294967296 → len rels < 4294967296 → length ts = length rels →
  Forall (λ r, 0 ≤ r.1 < n ∧ 0 ≤ r.2 < n) rels → isCSR n rels ts e o1 n1 t1 → isCSR n rels ts e o2 n2 t2 → o1 = o2 ∧ n1 = n2 ∧ t1 = t2.
Proof.
  intros Hn Hm Hts Hends H1 H2.
  assert (∀ i : nat, (i < length rels)%nat → 0 ≤ Z.of_nat i < len rels) as Hr by (unfold len; lia).
  pose proof (λ p Hp, direction_at n rels ts Hn Hm Hts Hends e _ _ _ H1 p Hp) as D1. pose proof (λ p Hp, direction_at n rels ts Hn Hm Hts Hends e _ _ _ H2 p Hp) as D2.
  destruct H1 as [L1 O1 N1 T1 _], H2 as [L2 O2 N2 T2 _]. split; [|split].
  - apply list_eq_same_length with (n := Z.to_nat (n + 1)); [unfold len in *; lia..|]. intros i x y Hi Hx Hy.
    specialize (O1 (Z.of_nat i) ltac:(lia)). specialize (O2 (Z.of_nat i) ltac:(lia)). rewrite Nat2Z.id in O1, O2. congruence.
  - apply list_eq_same_length with (n := length rels); [done..|]. intros i x y Hi Hx Hy. specialize (Hr i Hi).
    destruct (D1 _ Hr) as (r & t & Hr1 & _ & E1 & _). destruct (D2 _ Hr) as (r' & t' & Hr2 & _ & E2 & _). rewrite Nat2Z.id in E1, E2. congruence.
  - apply list_eq_same_length with (n := length rels); [done..|]. intros i x y Hi Hx Hy. specialize (Hr i Hi).
    destruct (D1 _ Hr) as (r & t & _ & Ht1 & _ & E1 & _). destruct (D2 _ Hr) as (r' & t' & _ & Ht2 & _ & E2 & _). rewrite Nat2Z.id in E1, E2. congruence.
Qed.

(** A snapshot that holds the relationships [rels] with the types [ts]. *)
Record holdsRels {bm} `{RoaringSet bm} (g : Snapshot bm) (n : Z) (rels : list (Z * Z)) (ts : list Z) : Prop := {
  hr_n : 0 ≤ n < 4294967296;
  hr_m : len rels < 4294967296;
  hr_ts : length ts = length rels;
  hr_ends : Forall (λ r, 0 ≤ r.1 < n ∧ 0 ≤ r.2 < n) rels;
  hr_types : Forall (λ t, 0 ≤ t < MaxUint32) ts;
  hr_out : isCSR n rels ts 0 (outOffsets g) (outNbrs g) (typesOf (outTypes g));
  hr_in : isCSR n rels ts 1 (inOffsets g) (inNbrs g) (typesOf (inTypes g));
  hr_wfo : wf_types (outTypes g);
  hr_wfi : wf_types (inTypes g);
  hr_ito : thawInToOut g = computeInToOutFromCSR (outOffsets g) (outNbrs g) (outTypes g) (inOffsets g) (inNbrs g) (inTypes g);
}.

Lemma holdsRels_order {bm} `{RoaringSet bm} (g : Snapshot bm) n rels ts : holdsRels g n rels ts →
  ∃ order, thawRelOrder g = Ok order ∧ stagingOrder n rels order.
Proof. intros []. by eapply thawRelOrder_ok. Qed.

(** ** Property *)

(** C32: The thaw recovers an insertion order. For every snapshot whose two CSR
    directions hold the same relationships, the walk over both directions' chains
    ends, visits every outgoing position exactly once - the fallback for
    inconsistent files is never needed - and building the adjacency anew from the
    relationships restaged in that order gives back the very arrays of the
    snapshot, offsets, neighbors and types, in both directions. *)
Theorem thaw_order_rebuilds {bm} `{RoaringSet bm} (g : Snapshot bm) n rels ts : holdsRels g n rels ts →
  ∃ order, thawRelOrder g = Ok order ∧ Permutation order (zseq (len rels)) ∧
    let rels' := restagedRels n rels order in let ts' := restagedTypes n rels ts order in
    (∀ deg, staged n rels' ts' deg 0 → ∃ relToOut,
      buildCSRDirection n rels' ts' deg 0 = Ok (outOffsets g, outNbrs g, typesOf (outTypes g), relToOut)) ∧
    (∀ deg, staged n rels' ts' deg 1 → ∃ relToIn,
      buildCSRDirection n rels' ts' deg 1 = Ok (inOffsets g, inNbrs g, typesOf (inTypes g), relToIn)).
Proof.
  intros Hh. destruct (holdsRels_order g n rels ts Hh) as (order & E & Hso). exists order. split; [done|]. destruct Hh as [Hn Hm Hts Hends Htr Ho Hi _ _ _]. split.
  { apply NoDup_Permutation; [apply (so_nodup _ _ _ Hso)|apply sorted_NoDup, zseq_sorted|]. intros p. by rewrite (so_elem _ _ _ Hso), elem_of_zseq. }
  pose proof (restaged_perm n rels ts Hn Hm Hts Hends order Hso) as HP. cbn zeta.
  assert (∀ e offs nbrs types deg, e = 0 ∨ e = 1 → isCSR n rels ts e offs nbrs types → staged n (restagedRels n rels order) (restagedTypes n rels ts order) deg e →
    ∃ map, buildCSRDirection n (restagedRels n rels order) (restagedTypes n rels ts order) deg e = Ok (offs, nbrs, types, map)) as Hre.
  { intros e offs nbrs types deg He Hc Hst. destruct (buildCSRDirection_isCSR _ _ _ _ _ Hst) as (o' & n' & t' & map & -> & Hc' & _).
    pose proof (restaged_isCSR n rels ts Hn Hm Hts Hends order e offs nbrs types Hso He Hc) as Hc2. exists map.
    destruct (isCSR_unique n _ _ e o' n' t' offs nbrs types Hn (sg_m _ _ _ _ _ Hst) (sg_types _ _ _ _ _ Hst)) as (-> & -> & ->); [by rewrite HP|done..]. }
  split; intros deg Hst; eapply Hre; eauto.
Qed.

(** Two parallel relationships, a self loop and a reverse one (see [InToOut]). *)
Definition pairSnap : Snapshot (gset Z) :=
  mkSnapshot 3 5 [0; 3; 4; 5] [2; 2; 1; 1; 0] (mkRelTypes None [5; 6; 7] [0; 0; 1; 2; 1])
    [0; 1; 3; 5] [2; 1; 0; 0; 0] (mkRelTypes None [6; 7; 5] [0; 1; 0; 2; 2]) None false ∅ ∅ None ∅ ∅ 0 None (NewAtoms [[]]).

Lemma pairSnap_dir deg e offs nbrs types relTo : staged 3 pairRels [5; 6; 7; 5; 6] deg e →
  buildCSRDirection 3 pairRels [5; 6; 7; 5; 6] deg e = Ok (offs, nbrs, types, relTo) → isCSR 3 pairRels [5; 6; 7; 5; 6] e offs nbrs types.
Proof. intros Hst E. destruct (buildCSRDirection_isCSR _ _ _ _ _ Hst) as (o & n & t & m & E' & Hc & _). rewrite E in E'. by injection E' as <- <- <- _. Qed.

Lemma pairArrays_hold (g : Snapshot (gset Z)) : outOffsets g = outOffsets pairSnap → outNbrs g = outNbrs pairSnap → outTypes g = outTypes pairSnap →
  inOffsets g = inOffsets pairSnap → inNbrs g = inNbrs pairSnap → inTypes g = inTypes pairSnap → inToOut g = None → holdsRels g 3 pairRels [5; 6; 7; 5; 6].
Proof.
  assert (staged 3 pairRels [5; 6; 7; 5; 6] [3; 1; 1] 0 ∧ staged 3 pairRels [5; 6; 7; 5; 6] [1; 2; 2] 1) as [S0 S1].
  { split; (split; [lia|by repeat constructor|done|done|]); intros v Hv; assert (v = 0 ∨ v = 1 ∨ v = 2) as [->|[->| ->]] by lia; done. }
  assert (∀ pal pi, NoDup pal → len pal ≤ 256 → Forall (λ i, 0 ≤ i < len pal) pi → wf_types (mkRelTypes None pal pi)) as Hw by (by intros).
  intros E1 E2 E3 E4 E5 E6 E7. split; try done; try (by repeat constructor).
  - rewrite E1, E2, E3. eapply pairSnap_dir; [exact S0|]. by vm_compute.
  - rewrite E4, E5, E6. eapply pairSnap_dir; [exact S1|]. by vm_compute.
  - rewrite E3. apply Hw; [by apply (bool_decide_unpack _); vm_compute|done|by repeat constructor].
  - rewrite E6. apply Hw; [by apply (bool_decide_unpack _); vm_compute|done|by repeat constructor].
  - unfold thawInToOut. by rewrite E7.
Qed.

Lemma thaw_order_rebuilds_witness : ∃ order, thawRelOrder pairSnap = Ok order ∧ Permutation order (zseq 5).
Proof.
  destruct (thaw_order_rebuilds pairSnap 3 pairRels [5; 6; 7; 5; 6]) as (order & E & HP & _); [by apply pairArrays_hold|].
  exists order. split; [done|]. exact HP.
Defined.
