(* ===== verification/SnapshotSpec.v ===== *)
(** Reads of a snapshot: names, endpoints, dense label bitmaps and relationship
    statistics of [src/snapshot.go] and [src/props.go].

    Each of them takes a shortcut - a small schema map before the sorted atom
    table, a binary search over offsets, a word bitmap, one counting scan - and
    the theorems say that the shortcut answers what the plain definition does. *)

From S2P Require Import Prelude Value AtomTable Columns NodeSet Csr RelTypes InToOut Snapshot TypedAdj Builder Thaw ThawOrder ThawSpec.

Section reads.
Context {bm : Type} `{RoaringSetLaws bm}.
Implicit Types g : Snapshot bm.

(** ** Names *)

Definition keysOK {A} (m : gmap Z A) : Prop := ∀ k, is_Some (m !! k) → 0 ≤ k.

(** What the schema map holds is what the atom table answers. *)
Definition schemaOK g (m : gmap gostring Z) : Prop := ∀ name id, m !! name = Some id → (ID (atoms g) name).1 = Ok (id, true).

Lemma schemaAdd_ok g m k : wf_atomTable (atoms g) → 0 ≤ k → schemaOK g m → ∃ m', schemaAdd g m k = Ok m' ∧ schemaOK g m'.
Proof.
  intros Hw Hk Hm. unfold schemaAdd, Resolve. case_decide as D; cbn [mbind res_bind]; [eauto|].
  destruct (idx_ok (strings (atoms g)) k) as (name & -> & _); [lia|]. cbn [mbind res_bind].
  destruct (ID_ok (atoms g) name Hw) as ([cid ok] & a' & E & _). rewrite E. cbn [fst mbind res_bind]. eexists. split; [done|].
  destruct ok; [|done]. intros name' id. rewrite lookup_insert. case_decide as Dn; [|apply Hm]. intros [= <-]. subst name'. by rewrite E.
Qed.

Lemma schemaLoop_ok {A} g m (index : gmap Z A) : wf_atomTable (atoms g) → keysOK index → schemaOK g m →
  ∃ m', foldM (schemaAdd g) (map_to_list index).*1 m = Ok m' ∧ schemaOK g m'.
Proof.
  intros Hw Hk Hm. destruct (foldM_inv (λ _, schemaOK g) (schemaAdd g) (map_to_list index).*1 m) as (m' & E & Hm'); [done| |eauto].
  intros i k m1 Hi Hm1. apply schemaAdd_ok; [done| |done]. apply Hk. apply list_elem_of_lookup_2, list_elem_of_fmap in Hi as ([k' v] & -> & Hin%elem_of_map_to_list). eauto.
Qed.

Lemma schemaID_ok g name : wf_atomTable (atoms g) → keysOK (labelIndex g) → keysOK (typeIndex g) → keysOK (columns g) → keysOK (relColumns g) →
  schemaID g name = (ID (atoms g) name).1.
Proof.
  intros Hw K1 K2 K3 K4. unfold schemaID, buildSchemaIDs.
  destruct (schemaLoop_ok g ∅ (labelIndex g) Hw K1) as (m1 & -> & H1); [intros ? ?; by rewrite lookup_empty|]. cbn [mbind res_bind].
  destruct (schemaLoop_ok g m1 (typeIndex g) Hw K2 H1) as (m2 & -> & H2). cbn [mbind res_bind].
  destruct (schemaLoop_ok g m2 (columns g) Hw K3 H2) as (m3 & -> & H3). cbn [mbind res_bind].
  destruct (schemaLoop_ok g m3 (relColumns g) Hw K4 H3) as (m4 & -> & H4). cbn [mbind res_bind].
  destruct (m4 !! name) as [id|] eqn:E; [|done]. symmetry. by apply H4.
Qed.

(** ** Dense label bitmaps *)

Definition wordBit (words : list Z) (x : Z) : bool := Z.testbit (words !!! Z.to_nat (Z.shiftr x 6)) (Z.land x 63).

Lemma shiftr6_le x n : 0 ≤ x < n → 0 ≤ Z.shiftr x 6 < (n + 63) / 64.
Proof. intros Hx. rewrite Z.shiftr_div_pow2 by lia. change (2 ^ 6) with 64. dlia. Qed.

Lemma denseStep_ok words x n : 0 ≤ x < n → len words = (n + 63) / 64 → ∃ words', denseStep words x = Ok words' ∧ len words' = len words ∧
  ∀ y, 0 ≤ y → wordBit words' y = wordBit words y || bool_decide (y = x).
Proof.
  intros Hx Hl. pose proof (shiftr6_le x n Hx) as Hs. unfold denseStep. destruct (idx_ok words (Z.shiftr x 6)) as (w & -> & Hw); [lia|]. cbn [mbind res_bind].
  rewrite upd_ok by lia. eexists. split; [done|]. split; [by rewrite len_insert|]. intros y Hy. unfold wordBit.
  pose proof (land63 x (proj1 Hx)) as Hlx. pose proof (land63 y Hy) as Hly.
  destruct (decide (Z.shiftr y 6 = Z.shiftr x 6)) as [E|N].
  - rewrite E, list_lookup_total_insert_eq by (unfold len in *; lia). rewrite (list_lookup_total_correct _ _ _ Hw), Z.lor_spec. f_equal.
    unfold wrapU. rewrite Z.mod_pow2_bits_low by lia. rewrite Z.shiftl_1_l, Z.pow2_bits_eqb by lia.
    apply eq_true_iff_eq. rewrite Z.eqb_eq, bool_decide_eq_true. split; [intros E2; symmetry; apply mask_split; lia|by intros ->].
  - rewrite list_lookup_total_insert_ne by (rewrite !Z.shiftr_div_pow2 in * by lia; pose proof (Z.div_pos y (2 ^ 6) Hy ltac:(lia)); lia).
    rewrite bool_decide_eq_false_2, orb_false_r by congruence. done.
Qed.

Lemma labelDenseBuild_ok g l s : labelIndex g !! l = Some s → (∀ x, x ∈ elems s → 0 ≤ x < CSRIDSpace g) → 0 ≤ CSRIDSpace g →
  ∃ words, labelDenseBuild g l = Ok words ∧ len words = (CSRIDSpace g + 63) / 64 ∧ ∀ x, 0 ≤ x < CSRIDSpace g → wordBit words x = Contains s x.
Proof.
  intros Hl Hs Hn. unfold labelDenseBuild. rewrite Hl. set (n := CSRIDSpace g) in *.
  destruct (bm_toArray (sbm s)) as [_ Hin]. change (bmToArray (sbm s)) with (ToSlice s) in Hin.
  pose (P := λ (k : nat) words, len words = (n + 63) / 64 ∧ ∀ x, 0 ≤ x < n → wordBit words x = bool_decide (x ∈ take k (ToSlice s))).
  assert (0 ≤ (n + 63) / 64) as H0' by dlia.
  destruct (foldM_inv P denseStep (ToSlice s) (replicate (Z.to_nat ((n + 63) / 64)) 0)) as (words & -> & Hlen & Hw).
  - split; [rewrite len_replicate; lia|]. intros x Hx. rewrite bool_decide_eq_false_2 by apply not_elem_of_nil. unfold wordBit.
    pose proof (shiftr6_le x n Hx). rewrite lookup_total_replicate_2 by lia. apply Z.testbit_0_l.
  - intros k x words Hx [Hlen Hw]. destruct (denseStep_ok words x n) as (words' & -> & Hl' & Hw'); [|done|].
    { apply Hs, Hin. by eapply list_elem_of_lookup_2. }
    exists words'. split; [done|]. split; [lia|]. intros y Hy. rewrite Hw', Hw, (take_S_r _ _ _ Hx) by (done || lia).
    apply eq_true_iff_eq. rewrite orb_true_iff, !bool_decide_eq_true, elem_of_app, list_elem_of_singleton. done.
  - exists words. split; [done|]. split; [done|]. intros x Hx. rewrite Hw, take_ge by (done || lia). unfold Contains. rewrite bm_contains. apply bool_decide_ext. by rewrite Hin.
Qed.

(** ** Relationships by position *)

Section positions.
Context (g : Snapshot bm) (n : Z) (rels : list (Z * Z)) (ts : list Z).
Hypothesis Hh : holdsRels g n rels ts.

Abbreviation m := (len rels).
(** The relationship at an outgoing position. *)
Definition posRel (p : Z) : Z * Z := rels !!! Z.to_nat (relAt n rels 0 p).
Definition posType (p : Z) : Z := ts !!! Z.to_nat (relAt n rels 0 p).

Lemma position_ok p : 0 ≤ p < m → idx (outNbrs g) p = Ok (posRel p).2 ∧ At (outTypes g) p = Ok (posType p) ∧ 0 ≤ (posRel p).1 < n ∧
  below fst rels (posRel p).1 ≤ p < below fst rels ((posRel p).1 + 1).
Proof using Hh.
  intros Hp. destruct Hh as [Hn Hm Hts Hends _ Ho _ Wo _ _]. destruct (direction_at n rels ts Hn Hm Hts Hends 0 _ _ _ Ho p Hp) as (r & t & Hr & Ht & E1 & E2 & Hrange).
  unfold posRel, posType. rewrite (list_lookup_total_correct _ _ _ Hr), (list_lookup_total_correct _ _ _ Ht). pose proof (Forall_lookup_1 _ _ _ _ Hends Hr) as [? _].
  split; [by apply idx_lookup; [lia|]|]. split; [by apply At_typesOf; [|lia|]|]. done.
Qed.

Lemma offset_ok v : 0 ≤ v ≤ n → idx (outOffsets g) v = Ok (below fst rels v).
Proof using Hh. intros Hv. apply idx_lookup; [lia|]. exact (ic_off _ _ _ _ _ _ _ (hr_out _ _ _ _ Hh) v Hv). Qed.

Lemma RelEndpoints_ok p : 0 ≤ p < m → RelEndpoints g p = Ok ((posRel p).1, (posRel p).2, true).
Proof using Hh.
  intros Hp. destruct (position_ok p Hp) as (E1 & _ & Hu & Hr). unfold RelEndpoints. set (u := (posRel p).1) in *.
  assert (len (outNbrs g) = m) as Em by (unfold len; by rewrite (ic_nbrs _ _ _ _ _ _ _ (hr_out _ _ _ _ Hh))). rewrite Em, decide_False by lia. rewrite E1. cbn [mbind res_bind].
  pose proof (ic_len _ _ _ _ _ _ _ (hr_out _ _ _ _ Hh)) as Hl. rewrite (bisect_ok _ _ 0 (u + 1) (len (outOffsets g))).
  - cbn [mbind res_bind]. rewrite decide_False by lia. pose proof (hr_n _ _ _ _ Hh). rewrite wrapU_small by lia. by rewrite Z.add_simpl_r.
  - lia.
  - unfold len. lia.
  - intros i Hi. rewrite offset_ok by lia. cbn [mbind res_bind]. f_equal. apply eq_true_iff_eq. rewrite negb_true_iff, bool_decide_eq_false, bool_decide_eq_true. split.
    + intros Hge. destruct (decide (i < u + 1)); [done|]. pose proof (below_mono fst rels (u + 1) i ltac:(lia)). lia.
    + intros Hlt. pose proof (below_mono fst rels i u ltac:(lia)). lia.
Qed.

(** ** Statistics *)

Definition ofType (t p : Z) : list Z := filter (λ x, posType x = t) (zseq p).

(** The accumulators after the positions below [p]. *)
Definition counted (p : Z) (byType : gmap Z (Z * Set_ bm * Set_ bm)) : Prop := ∀ t,
  match byType !! t with
  | None => ofType t p = []
  | Some (c, s, tg) => ofType t p ≠ [] ∧ c = len (ofType t p) ∧
      elems s = list_to_set ((λ x, (posRel x).1) <$> ofType t p) ∧ elems tg = list_to_set ((λ x, (posRel x).2) <$> ofType t p)
  end.

Lemma ofType_S t p : 0 ≤ p → ofType t (p + 1) = ofType t p ++ (if decide (posType p = t) then [p] else []).
Proof using. intros Hp. unfold ofType. rewrite zseq_S, filter_app by done. done. Qed.

Lemma ofType_le t p : 0 ≤ p → len (ofType t p) ≤ p.
Proof using. intros Hp. unfold ofType, len. pose proof (length_filter (λ x, posType x = t) (zseq p)) as Hl. unfold zseq in Hl at 2. rewrite length_fmap, length_seq in Hl. lia. Qed.

Lemma statsStep_ok u p byType : counted p byType → 0 ≤ p < m → u = (posRel p).1 → ∃ byType', statsStep g u byType p = Ok byType' ∧ counted (p + 1) byType'.
Proof using Hh.
  intros Hc Hp ->. destruct (position_ok p Hp) as (E1 & E2 & _). unfold statsStep. rewrite E2. cbn [mbind res_bind]. rewrite E1. cbn [mbind res_bind].
  pose proof (Hc (posType p)) as Hct. destruct (default (0, New, New) (byType !! posType p)) as [[c s] tg] eqn:Ed. eexists. split; [done|].
  intros t. rewrite lookup_insert, ofType_S by lia. destruct (decide (posType p = t)) as [<-|Nt].
  - split; [by intros [_ ?]%app_nil|]. rewrite !fmap_app, !list_to_set_app_L, len_app. unfold elems, Insert. cbn. rewrite !bm_add, !(right_id_L ∅ (∪)).
    pose proof (hr_m _ _ _ _ Hh). pose proof (ofType_le (posType p) p (proj1 Hp)). pose proof (len_nonneg (ofType (posType p) p)).
    destruct (byType !! posType p) as [[[c' s'] tg']|].
    + simpl in Ed. simplify_eq. destruct Hct as (_ & -> & <- & <-). unfold elems. rewrite wrapU_small by lia. split; [done|]. split; set_solver.
    + simpl in Ed. simplify_eq. rewrite Hct. cbn. rewrite bm_new. split; [done|]. split; set_solver.
  - rewrite app_nil_r. apply Hc.
Qed.

Lemma statsNode_ok u byType : 0 ≤ u < n → counted (below fst rels u) byType → ∃ byType', statsNode g byType u = Ok byType' ∧ counted (below fst rels (u + 1)) byType'.
Proof using Hh.
  intros Hu Hc. unfold statsNode. rewrite !offset_ok by lia. cbn [mbind res_bind]. set (lo := below fst rels u) in *. set (hi := below fst rels (u + 1)).
  pose proof (below_mono fst rels u (u + 1) ltac:(lia)) as Hmono. fold lo hi in Hmono. pose proof (below_nonneg fst rels u). pose proof (below_len fst rels (u + 1)).
  destruct (foldM_inv (λ k, counted (lo + Z.of_nat k)) (statsStep g u) (seqZ lo (hi - lo)) byType) as (b' & -> & Hb').
  - by rewrite Z.add_0_r.
  - intros k p b1 Hp Hb1. apply lookup_seqZ in Hp as [-> Hk]. replace (lo + Z.of_nat (S k)) with (lo + Z.of_nat k + 1) by lia. set (p := lo + Z.of_nat k) in *.
    assert (0 ≤ p < m) as Hpr by lia. apply statsStep_ok; [done|done|]. destruct (position_ok p Hpr) as (_ & _ & Hv & Hr). set (v := (posRel p).1) in *.
    destruct (Z.lt_trichotomy u v) as [Hlt|[E|Hlt]]; [|exact E|].
    + pose proof (below_mono fst rels (u + 1) v ltac:(lia)). lia.
    + pose proof (below_mono fst rels (v + 1) u ltac:(lia)). lia.
  - exists b'. split; [done|]. rewrite length_seqZ in Hb'. by replace (lo + Z.of_nat (Z.to_nat (hi - lo))) with hi in Hb' by lia.
Qed.

Lemma statsScan_ok : ∃ byType, foldM (statsNode g) (zseq (CSRIDSpace g)) ∅ = Ok byType ∧ counted m byType.
Proof using Hh.
  pose proof (hr_n _ _ _ _ Hh) as Hn. assert (CSRIDSpace g = n) as ->.
  { unfold CSRIDSpace. rewrite (ic_len _ _ _ _ _ _ _ (hr_out _ _ _ _ Hh)), decide_False by lia. rewrite wrapU_small by lia. lia. }
  destruct (foldM_zseq (λ u, counted (below fst rels u)) (statsNode g) n ∅) as (b & -> & Hb); [lia| | |].
  - rewrite below_zero by (eapply Forall_impl; [exact (hr_ends _ _ _ _ Hh)|]; simpl; lia). intros t. by rewrite lookup_empty.
  - intros u b Hu Hb. by apply statsNode_ok.
  - exists b. split; [done|]. by rewrite below_full in Hb by (eapply Forall_impl; [exact (hr_ends _ _ _ _ Hh)|]; simpl; lia).
Qed.

(** The relationships of a type. *)
Definition typedRels (t : Z) : list (Z * Z) := fst <$> filter (λ x : (Z * Z) * Z, x.2 = t) (zip rels ts).

Lemma ofType_rels t : Permutation (posRel <$> ofType t m) (typedRels t).
Proof using Hh.
  destruct Hh as [Hn Hm Hts Hends _ _ _ _ _ _]. unfold typedRels, ofType. pose (F := λ i : Z, (rels !!! Z.to_nat i, ts !!! Z.to_nat i)).
  assert (zip rels ts = F <$> zseq m) as ->.
  { apply list_eq_same_length with (n := length rels); [unfold zseq; rewrite !length_fmap, length_seq; unfold len; lia|rewrite length_zip_with; lia|].
    intros i x y Hi Hx Hy. rewrite list_lookup_fmap, zseq_lookup in Hy by (unfold len; lia). simpl in Hy. injection Hy as <-.
    apply lookup_zip_with_Some in Hx as (r & t' & -> & Hr & Ht). unfold F. by rewrite Nat2Z.id, (list_lookup_total_correct _ _ _ Hr), (list_lookup_total_correct _ _ _ Ht). }
  assert (Permutation (F <$> zseq m) ((F ∘ relAt n rels 0) <$> zseq m)) as ->.
  { rewrite list_fmap_compose. by rewrite (relAt_perm n rels ts Hn Hm Hts Hends). }
  rewrite filter_fmap, <- list_fmap_compose. done.
Qed.

(** What the statistics of a type should be. *)
Definition statsOf (t : Z) : option RelStats :=
  match typedRels t with
  | [] => None
  | l => Some (mkRelStats (len l) (Z.of_nat (size (list_to_set l.*1 : gset Z))) (Z.of_nat (size (list_to_set l.*2 : gset Z))))
  end.

Lemma counted_stats byType t : counted m byType →
  (λ e : Z * Set_ bm * Set_ bm, mkRelStats e.1.1 (NodeSet.Len e.1.2) (NodeSet.Len e.2)) <$> (byType !! t) = statsOf t.
Proof using Hh.
  intros Hc. specialize (Hc t). pose proof (ofType_rels t) as HP. unfold statsOf. destruct (byType !! t) as [[[c s] tg]|]; simpl.
  - destruct Hc as (Hne & -> & Es & Etg). assert (typedRels t ≠ []) as Hne'.
    { intros E. rewrite E in HP. symmetry in HP. apply Permutation_nil in HP. by apply fmap_nil_inv in HP. }
    assert (len (ofType t m) = len (typedRels t)) as El by (apply (f_equal Z.of_nat); by rewrite <- (Permutation_length HP), length_fmap).
    assert (elems s = list_to_set (typedRels t).*1) as Es' by (rewrite Es; rewrite <- HP, <- list_fmap_compose; done).
    assert (elems tg = list_to_set (typedRels t).*2) as Et' by (rewrite Etg; rewrite <- HP, <- list_fmap_compose; done).
    unfold NodeSet.Len. rewrite !bm_card. fold (elems s) (elems tg). rewrite Es', Et', El. by destruct (typedRels t).
  - rewrite Hc in HP. simpl in HP. apply Permutation_nil in HP. by rewrite HP.
Qed.

Lemma statsNames_ok byType : (∀ t, is_Some (byType !! t) → 0 ≤ t) → NoDup (strings (atoms g)) →
  ∃ out, foldM (statsName g) (map_to_list byType) ∅ = Ok out ∧ ∀ t name, 0 ≤ t → strings (atoms g) !! Z.to_nat t = Some name →
    out !! name = (λ e : Z * Set_ bm * Set_ bm, mkRelStats e.1.1 (NodeSet.Len e.1.2) (NodeSet.Len e.2)) <$> (byType !! t).
Proof using.
  intros Hk Hnd. set (F := λ e : Z * Set_ bm * Set_ bm, mkRelStats e.1.1 (NodeSet.Len e.1.2) (NodeSet.Len e.2)).
  pose (P := λ (k : nat) (out : gmap gostring RelStats), ∀ t name, 0 ≤ t → strings (atoms g) !! Z.to_nat t = Some name →
    out !! name = if decide (t ∈ (take k (map_to_list byType)).*1) then F <$> (byType !! t) else None).
  destruct (foldM_inv P (statsName g) (map_to_list byType) ∅) as (out & -> & Ho).
  - intros t name _ _. rewrite lookup_empty, decide_False; [done|]. apply not_elem_of_nil.
  - intros k [t [[c s] tg]] out Hi Ho. apply list_elem_of_lookup_2 in Hi as Hin. apply elem_of_map_to_list in Hin. pose proof (Hk t ltac:(eauto)) as Ht0.
    assert (∀ t', t' ∈ (take (S k) (map_to_list byType)).*1 ↔ t' = t ∨ t' ∈ (take k (map_to_list byType)).*1) as Hmem.
    { intros t'. rewrite (take_S_r _ _ _ Hi), fmap_app, elem_of_app. simpl. rewrite list_elem_of_singleton. tauto. }
    unfold statsName, Resolve. case_decide as D; cbn [mbind res_bind].
    + exists out. split; [done|]. intros t' name' Ht' Hn'. rewrite (Ho t' name' Ht' Hn'). apply lookup_lt_Some in Hn' as Hlt.
      assert (t' ≠ t) by (intros ->; unfold len in D; lia). do 2 case_decide; try done; exfalso; specialize (Hmem t'); tauto.
    + destruct (idx_ok (strings (atoms g)) t) as (name & -> & Hname); [lia|]. cbn [mbind res_bind]. eexists. split; [done|]. intros t' name' Ht' Hn'.
      rewrite lookup_insert. destruct (decide (name = name')) as [<-|Nn].
      * assert (Z.to_nat t' = Z.to_nat t) by (by eapply NoDup_lookup). assert (t' = t) as -> by lia. rewrite decide_True by (apply Hmem; by left). by rewrite Hin.
      * rewrite (Ho t' name' Ht' Hn'). assert (t' ≠ t) by congruence. do 2 case_decide; try done; exfalso; specialize (Hmem t'); tauto.
  - exists out. split; [done|]. intros t name Ht Hn. rewrite (Ho t name Ht Hn), take_ge by lia. case_decide as D; [done|].
    destruct (byType !! t) as [e|] eqn:E; [|done]. exfalso. apply D, list_elem_of_fmap. exists (t, e). by rewrite elem_of_map_to_list.
Qed.

Lemma RelTypeStats_ok t name : NoDup (strings (atoms g)) → 0 ≤ t → strings (atoms g) !! Z.to_nat t = Some name →
  RelTypeStats g name = Ok (statsOf t) ∧ RelTypeCount g name = Ok (len (typedRels t)).
Proof using H0 Hh.
  intros Hnd Ht Hname. unfold RelTypeStats, RelTypeCount, buildRelStats. destruct statsScan_ok as (byType & -> & Hc). cbn [mbind res_bind].
  destruct (statsNames_ok byType) as (out & -> & Ho); [|done|].
  - intros t' [e He]. specialize (Hc t'). rewrite He in Hc. destruct e as [[c s] tg]. destruct Hc as [Hne _].
    destruct (ofType t' m) as [|p l] eqn:E; [done|]. assert (p ∈ ofType t' m) as Hp by (rewrite E; by left). apply list_elem_of_filter in Hp as [<- Hp%elem_of_zseq].
    destruct Hh as [Hn Hm Hts Hends Htr _ _ _ _ _]. destruct (relAt_slot n rels ts Hn Hm Hts Hends 0 p Hp) as (_ & t'' & _ & _ & Ht' & _).
    unfold posType. rewrite (list_lookup_total_correct _ _ _ Ht'). by apply (Forall_lookup_1 _ _ _ _ Htr Ht').
  - cbn [mbind res_bind]. rewrite (Ho t name Ht Hname), (counted_stats byType t Hc). split; [done|]. f_equal. unfold statsOf. by destruct (typedRels t).
Qed.

End positions.
End reads.

(** ** Properties *)

(** Label reads agree. On a snapshot whose labelled nodes lie in its id
    space, resolving a name through the schema map is resolving it in the atom
    table; for a label present, the forced word bitmap exists, has a word per 64
    ids, and its bit at every id of the space is exactly the set membership that
    [HasLabel] reports; the thresholded variant returns the same bitmap or none. *)
Theorem label_reads_agree {bm} `{RoaringSetLaws bm} (g : Snapshot bm) (label : gostring) (l : Z) (s : Set_ bm) :
  wf_atomTable (atoms g) → keysOK (labelIndex g) → keysOK (typeIndex g) → keysOK (columns g) → keysOK (relColumns g) → 0 ≤ CSRIDSpace g →
  (ID (atoms g) label).1 = Ok (l, true) → labelIndex g !! l = Some s → (∀ x, x ∈ elems s → 0 ≤ x < CSRIDSpace g) →
  (∀ name, schemaID g name = (ID (atoms g) name).1) ∧
  ∃ words, LabelDenseForced g label = Ok (Some words) ∧ len words = (CSRIDSpace g + 63) / 64 ∧
    (∀ cached, LabelDense g cached label = Ok (Some words) ∨ LabelDense g cached label = Ok None) ∧
    ∀ x, 0 ≤ x < CSRIDSpace g → HasLabel g x label = Ok (wordBit words x).
Proof.
  intros Hw K1 K2 K3 K4 Hn Hid Hl Hs. assert (∀ name, schemaID g name = (ID (atoms g) name).1) as Hsch by (intros name; by apply schemaID_ok). split; [done|].
  destruct (labelDenseBuild_ok g l s Hl Hs Hn) as (words & E & Hlen & Hb). exists words. unfold LabelDenseForced, LabelDense, HasLabel, NodesWithLabel, Label. rewrite Hsch, Hid.
  cbn [mbind res_bind negb]. rewrite Hl, E. cbn [mbind res_bind]. split; [done|]. split; [done|]. split.
  - intros cached. destruct (cached l); [by left|]. case_decide; [by right|by left].
  - intros x Hx. by rewrite Hb.
Qed.

(** Nodes 0 and 2 carry the label of atom 1. *)
Definition labelSnap : Snapshot (gset Z) :=
  mkSnapshot 3 0 [0; 0; 0; 0] [] (mkRelTypes None [] []) [0; 0; 0; 0] [] (mkRelTypes None [] []) None false
    {[1 := mkSet {[0; 2]}]} ∅ None ∅ ∅ 0 None (NewAtoms [[]; [Byte.x41]]).

Lemma label_reads_agree_witness : ∃ words, LabelDenseForced labelSnap [Byte.x41] = Ok (Some words) ∧ HasLabel labelSnap 2 [Byte.x41] = Ok (wordBit words 2) ∧
  HasLabel labelSnap 1 [Byte.x41] = Ok (wordBit words 1).
Proof.
  assert (∀ A : Type, keysOK (∅ : gmap Z A)) as Hno by (intros A k [v Hv]; by rewrite lookup_empty in Hv).
  destruct (label_reads_agree labelSnap [Byte.x41] 1 (mkSet {[0; 2]})) as (_ & words & E & _ & _ & Hb).
  - by split.
  - intros k [v Hv]. simpl in Hv. apply lookup_singleton_Some in Hv as [<- _]. lia.
  - exact (Hno _).
  - exact (Hno _).
  - exact (Hno _).
  - done.
  - by vm_compute.
  - done.
  - intros x Hx. change (x ∈ ({[0; 2]} : gset Z)) in Hx. change (CSRIDSpace labelSnap) with 3. rewrite elem_of_union, !elem_of_singleton in Hx. lia.
  - exists words. split; [done|]. split; apply Hb; change (CSRIDSpace labelSnap) with 3; lia.
Defined.

(** Relationship reads are exact. On a snapshot that holds a relationship
    list, every outgoing position resolves to the source and the target of one
    of them, positions past the end to nothing, and the statistics of a type are
    the number of relationships of that type and of their distinct sources and
    targets, or absent when there is none. *)
Theorem relationship_reads_exact {bm} `{RoaringSetLaws bm} (g : Snapshot bm) n rels ts : holdsRels g n rels ts →
  (∀ j r, rels !! j = Some r → RelEndpoints g (slotOf (ownerOf 0) rels j r) = Ok (r.1, r.2, true)) ∧
  (∀ p, len rels ≤ p → RelEndpoints g p = Ok (0, 0, false)) ∧
  (∀ t name, NoDup (strings (atoms g)) → 0 ≤ t → strings (atoms g) !! Z.to_nat t = Some name →
    RelTypeStats g name = Ok (statsOf rels ts t) ∧ RelTypeCount g name = Ok (len (typedRels rels ts t))).
Proof.
  intros Hh. split; [|split].
  - intros j r Hr. destruct Hh as [Hn Hm Hts Hends Htr Ho Hi Wo Wi Ht] eqn:Eh. destruct (relAt_slotOf n rels ts Hn Hm Hts Hends 0 j r Hr) as [Hs Ej].
    rewrite (RelEndpoints_ok g n rels ts Hh _ Hs). unfold posRel. by rewrite Ej, Nat2Z.id, (list_lookup_total_correct _ _ _ Hr).
  - intros p Hp. unfold RelEndpoints. rewrite decide_True; [done|]. unfold len in *. by rewrite (ic_nbrs _ _ _ _ _ _ _ (hr_out _ _ _ _ Hh)).
  - intros t name. by apply (RelTypeStats_ok g n).
Qed.

Lemma relationship_reads_exact_witness : RelEndpoints pairSnap 4 = Ok (2, 0, true) ∧ RelEndpoints pairSnap 5 = Ok (0, 0, false).
Proof.
  destruct (relationship_reads_exact pairSnap 3 pairRels [5; 6; 7; 5; 6]) as (H1 & H2 & _); [by apply pairArrays_hold|].
  split; [exact (H1 1%nat (2, 0) eq_refl)|apply H2; done].
Defined.
