(* ===== verification/RcpgCursor.v ===== *)
(** The RCPG cursor: [src/rcpg/cursor.go].

    [Module cursor] is the bounds-checked little-endian reader over a byte
    slice (a state of the slice and a position, every method a state
    transformer that can fail); the [w*] functions are the matching writers,
    which append to a byte buffer. [utf8Valid] models [unicode/utf8.Valid].
    The theorems: every read undoes the matching write, whatever surrounds it
    in the buffer, and no read panics. *)

From S2P Require Import Prelude.

(** ** UTF-8 validity ([unicode/utf8.Valid]) *)

(** The number of continuation bytes a leading byte asks for and the range
    the first of them must lie in; [None] for a byte that starts no rune. *)
Definition utf8First (b : Z) : option (nat * Z * Z) :=
  if decide (b < 0x80) then Some (0%nat, 0x80, 0xBF)
  else if decide (b < 0xC2) then None
  else if decide (b ≤ 0xDF) then Some (1%nat, 0x80, 0xBF)
  else if decide (b = 0xE0) then Some (2%nat, 0xA0, 0xBF)
  else if decide (b = 0xED) then Some (2%nat, 0x80, 0x9F)
  else if decide (b ≤ 0xEF) then Some (2%nat, 0x80, 0xBF)
  else if decide (b = 0xF0) then Some (3%nat, 0x90, 0xBF)
  else if decide (b ≤ 0xF3) then Some (3%nat, 0x80, 0xBF)
  else if decide (b = 0xF4) then Some (3%nat, 0x80, 0x8F)
  else None.

(** [utf8Run k lo hi s]: [k] continuation bytes are still due, the next of
    them in [lo, hi]; then whole runes up to the end of [s]. *)
Fixpoint utf8Run (k : nat) (lo hi : Z) (s : gostring) : bool :=
  match k, s with
  | O, [] => true
  | O, b :: s' =>
      match utf8First (byte.unsigned b) with
      | Some (k', lo', hi') => utf8Run k' lo' hi' s'
      | None => false
      end
  | S _, [] => false
  | S k', b :: s' =>
      bool_decide (lo ≤ byte.unsigned b ≤ hi) && utf8Run k' 0x80 0xBF s'
  end.

Definition utf8Valid (s : gostring) : bool := utf8Run 0 0x80 0xBF s.

(** ** The cursor *)

Module cursor.

Record t := mk { b : list byte; pos : Z }.

(** A method of [*cursor] that returns [(A, error)]. *)
Definition M (A : Type) : Type := t → res (A * t).

#[global] Instance M_ret : MRet M := fun A a c => Ok (a, c).
#[global] Instance M_bind : MBind M := fun A B f m c => '(a, c') ← m c; f a c'.

Definition fail {A} (fmt : string) (args : list Z) : M A := fun _ => corruptf fmt args.
Definition lift {A} (r : res A) : M A := fun c => a ← r; Ok (a, c).
Definition get : M t := fun c => Ok (c, c).

Definition newCursor (s : list byte) : t := mk s 0.

Definition remaining (c : t) : Z := len (b c) - pos c.

Definition take (n : Z) : M (list byte) := fun c =>
  if decide (n < 0 ∨ remaining c < n)
  then corruptf "unexpected end of input: need %d bytes at offset %d, have %d"
         [n; pos c; remaining c]
  else s ← slice (b c) (pos c) (pos c + n); Ok (s, mk (b c) (pos c + n)).

Definition u8 : M Z := s ← take 1; x ← lift (idx s 0); mret (byte.unsigned x).

Definition u16 : M Z := s ← take 2; mret (le_combine s).

Definition u32 : M Z := s ← take 4; mret (le_combine s).

Definition u64 : M Z := s ← take 8; mret (le_combine s).

Definition i64 : M Z := v ← u64; mret (to_i64 v).

(** A [float64] is kept as its IEEE-754 bit pattern: [Float64frombits] and
    [Float64bits] are inverse bit casts. *)
Definition f64 : M Z := u64.

Definition lenPrefix (elemSize : Z) : M Z :=
  v ← u32;
  let n := to_i64 v in
  let need := to_i64 (n * elemSize) in
  c ← get;
  if decide (Z.quot need elemSize ≠ n ∨ remaining c < need)
  then fail "declared length %d (%d bytes) exceeds remaining input %d at offset %d"
         [n; need; remaining c; pos c]
  else mret n.

(** [out[i] = Uint32(s[i*w:])] for the [n] positions of the output. *)
Definition vecOf (w : nat) (conv : Z → Z) (s : list byte) (n : Z) : res (list Z) :=
  mapM (fun i => chunk ← slice s (i * Z.of_nat w) (len s);
                 word ← slice chunk 0 (Z.of_nat w);
                 Ok (conv (le_combine word))) (zseq n).

Definition u32Vec : M (list Z) :=
  n ← lenPrefix 4; s ← take (n * 4); lift (vecOf 4 id s n).

Definition i64Vec : M (list Z) :=
  n ← lenPrefix 8; s ← take (n * 8); lift (vecOf 8 to_i64 s n).

Definition f64Vec : M (list Z) :=
  n ← lenPrefix 8; s ← take (n * 8); lift (vecOf 8 id s n).

Definition str : M gostring :=
  n ← lenPrefix 1; s ← take n; c ← get;
  if utf8Valid s then mret s else fail "invalid utf8 at offset %d" [pos c].

(** [for range n { x := body; out = append(out, x) }] *)
Fixpoint times {A} (n : nat) (body : M A) : M (list A) :=
  match n with
  | O => mret []
  | S n' => x ← body; xs ← times n' body; mret (x :: xs)
  end.

End cursor.

(** ** The writers

    A writer appends to a [bytes.Buffer], whose [Write] never fails; the
    buffer is the list of the bytes written so far. *)

Definition wU8 (w : list byte) (v : Z) : list byte := w ++ le_split 1 v.
Definition wU16 (w : list byte) (v : Z) : list byte := w ++ le_split 2 v.
Definition wU32 (w : list byte) (v : Z) : list byte := w ++ le_split 4 v.
Definition wU64 (w : list byte) (v : Z) : list byte := w ++ le_split 8 v.
Definition wI64 (w : list byte) (v : Z) : list byte := wU64 w (to_u64 v).
Definition wF64 (w : list byte) (v : Z) : list byte := wU64 w v.

Definition wLenPrefix (w : list byte) (n : Z) : res (list byte) :=
  if decide (n < 0 ∨ MaxUint32 < to_u64 n)
  then corruptf "length %d exceeds the format's u32 capacity" [n]
  else Ok (wU32 w (to_u32 n)).

Definition wU32Vec (w : list byte) (v : list Z) : res (list byte) :=
  w ← wLenPrefix w (len v); Ok (foldl wU32 w v).

Definition wString (w : list byte) (s : gostring) : res (list byte) :=
  w ← wLenPrefix w (len s); Ok (w ++ s).

(** ** Reading back what was written

    [reads m bs x]: wherever the bytes [bs] lie in a buffer, [m] started at
    their first byte returns [x] and stops right after them. *)

Definition reads {A} (m : cursor.M A) (bs : list byte) (x : A) : Prop :=
  ∀ pre post, m (cursor.mk (pre ++ bs ++ post) (len pre)) =
    Ok (x, cursor.mk (pre ++ bs ++ post) (len (pre ++ bs))).

Lemma reads_run {A} (m : cursor.M A) bs x post :
  reads m bs x → m (cursor.newCursor (bs ++ post)) = Ok (x, cursor.mk (bs ++ post) (len bs)).
Proof. intros H. exact (H [] post). Qed.

Lemma reads_ret {A} (x : A) : reads (mret x) [] x.
Proof. intros pre post. by rewrite app_nil_r. Qed.

Lemma reads_bind {A B} (m : cursor.M A) (k : A → cursor.M B) bs1 bs2 x y :
  reads m bs1 x → reads (k x) bs2 y → reads (m ≫= k) (bs1 ++ bs2) y.
Proof.
  intros H1 H2 pre post.
  unfold mbind, cursor.M_bind. rewrite <- !(assoc_L (++)), H1. simpl.
  specialize (H2 (pre ++ bs1) post). by rewrite <- !(assoc_L (++)) in H2.
Qed.

(** [reads_bind] for a continuation that reads nothing more. *)
Lemma reads_map {A B} (m : cursor.M A) (k : A → cursor.M B) bs x y :
  reads m bs x → reads (k x) [] y → reads (m ≫= k) bs y.
Proof. intros. rewrite <- (app_nil_r bs). by eapply reads_bind. Qed.

Lemma reads_lift {A} (r : res A) x : r = Ok x → reads (cursor.lift r) [] x.
Proof. intros -> pre post. unfold cursor.lift. simpl. by rewrite app_nil_r. Qed.

Lemma reads_take n bs : len bs = n → reads (cursor.take n) bs bs.
Proof.
  intros <- pre post. unfold cursor.take, cursor.remaining. simpl.
  rewrite decide_False by lens. rewrite slice_mid. simpl.
  by rewrite len_app.
Qed.

Lemma reads_le n w v :
  0 ≤ v < 2 ^ (Z.of_nat n * 8) → w = Z.of_nat n →
  reads (s ← cursor.take w; mret (le_combine s)) (le_split n v) v.
Proof.
  intros Hv ->. eapply reads_map.
  - apply reads_take. by rewrite len_le_split.
  - rewrite le_combine_u by done. apply reads_ret.
Qed.

Lemma reads_u16 v : is_u16 v → reads cursor.u16 (le_split 2 v) v.
Proof. intros. by apply reads_le. Qed.
Lemma reads_u32 v : is_u32 v → reads cursor.u32 (le_split 4 v) v.
Proof. intros. by apply reads_le. Qed.
Lemma reads_u64 v : is_u64 v → reads cursor.u64 (le_split 8 v) v.
Proof. intros. by apply reads_le. Qed.

Lemma reads_u8 v : is_u8 v → reads cursor.u8 (le_split 1 v) v.
Proof.
  intros. unfold cursor.u8. eapply reads_map; [by apply reads_take|].
  eapply reads_map; [by apply reads_lift|].
  rewrite byte.unsigned_of_Z. unfold byte.wrap.
  rewrite Z.mod_small by lia. apply reads_ret.
Qed.

Lemma reads_i64 v : is_i64 v → reads cursor.i64 (le_split 8 (to_u64 v)) v.
Proof.
  intros. eapply reads_map.
  - apply reads_u64. apply (wrapU_range 64). lia.
  - rewrite to_i64_to_u64 by lia. apply reads_ret.
Qed.

(** A length prefix is accepted when the elements it announces follow it. *)
Lemma reads_lenPrefix {A} (k : Z → cursor.M A) n e bs y :
  is_u32 n → 0 < e ≤ 12 → n * e ≤ len bs → reads (k n) bs y →
  reads (cursor.lenPrefix e ≫= k) (le_split 4 n ++ bs) y.
Proof.
  intros Hn He Hlen Hk pre post.
  pose proof (reads_u32 n Hn pre (bs ++ post)) as H4.
  specialize (Hk (pre ++ le_split 4 n) post).
  unfold cursor.lenPrefix, mbind, cursor.M_bind in *.
  rewrite <- !(assoc_L (++)) in *. rewrite H4. simpl.
  assert (0 ≤ n * e < 9223372036854775808) by nia.
  rewrite (wrapS_small 64 n) by lia. rewrite (wrapS_small 64 (n * e)) by lia.
  rewrite decide_False; [exact Hk|].
  rewrite Z.quot_mul by lia. unfold cursor.remaining. simpl. lens.
Qed.

(** [rejects m bs]: started at [bs] at the end of a buffer, [m] reports
    corrupt input. *)
Definition rejects {A} (m : cursor.M A) (bs : list byte) : Prop :=
  ∀ pre, ∃ fmt args, m (cursor.mk (pre ++ bs) (len pre)) = Err (ErrCorrupt fmt args).

Lemma rejects_run {A} (m : cursor.M A) bs :
  rejects m bs → ∃ fmt args, m (cursor.newCursor bs) = Err (ErrCorrupt fmt args).
Proof. intros H. exact (H []). Qed.

Lemma rejects_bind {A B} (m : cursor.M A) (k : A → cursor.M B) bs1 bs2 x :
  reads m bs1 x → rejects (k x) bs2 → rejects (m ≫= k) (bs1 ++ bs2).
Proof.
  intros H1 H2 pre. unfold mbind, cursor.M_bind.
  rewrite H1. simpl. specialize (H2 (pre ++ bs1)). by rewrite <- (assoc_L (++)) in H2.
Qed.

Lemma rejects_bind_l {A B} (m : cursor.M A) (k : A → cursor.M B) bs :
  rejects m bs → rejects (m ≫= k) bs.
Proof.
  intros H pre. destruct (H pre) as (f & a & E). exists f, a.
  unfold mbind, cursor.M_bind. by rewrite E.
Qed.

Lemma rejects_take n bs : len bs < n → rejects (cursor.take n) bs.
Proof.
  intros Hn pre. unfold cursor.take, cursor.remaining. simpl.
  rewrite decide_True by (right; lens). do 2 eexists. done.
Qed.

Lemma rejects_lenPrefix {A} (k : Z → cursor.M A) n e bs :
  is_u32 n → 0 < e ≤ 12 → n * e ≤ len bs → rejects (k n) bs →
  rejects (cursor.lenPrefix e ≫= k) (le_split 4 n ++ bs).
Proof.
  intros Hn He Hl Hk pre.
  pose proof (reads_lenPrefix (λ n, s ← cursor.take (len bs); mret n) n e bs n Hn He Hl
    (reads_map _ _ _ _ _ (reads_take _ bs eq_refl) (reads_ret n)) pre []) as H.
  rewrite app_nil_r in H. unfold mbind, cursor.M_bind in *.
  destruct (cursor.lenPrefix e _) as [[v c]|er|] eqn:E; simpl in *; [|done..].
  unfold cursor.lenPrefix, mbind, cursor.M_bind in E.
  rewrite (reads_u32 n Hn pre bs) in E. simpl in E.
  case_decide; [done|]. injection E as <- <-.
  rewrite (wrapS_small 64 n) by lia.
  specialize (Hk (pre ++ le_split 4 n)). by rewrite <- (assoc_L (++)) in Hk.
Qed.

Lemma reads_times {A} (m : cursor.M A) (enc : A → list byte) (P : A → Prop) l :
  (∀ x, P x → reads m (enc x) x) → Forall P l →
  reads (cursor.times (length l) m) (concat (enc <$> l)) l.
Proof.
  intros Hm. induction 1 as [|x l Hx Hl IH]; simpl; [apply reads_ret|].
  eapply reads_bind; [by apply Hm|]. eapply reads_map; [exact IH|]. apply reads_ret.
Qed.

(** Element [i] of a vector of [w]-byte words. *)
Lemma vecOf_enc w (conv unconv : Z → Z) l :
  Forall (λ v, 0 ≤ unconv v < 2 ^ (Z.of_nat w * 8) ∧ conv (unconv v) = v) l →
  cursor.vecOf w conv (concat ((λ v, le_split w (unconv v)) <$> l)) (len l) = Ok l.
Proof.
  intros HP. apply mapM_zseq. intros i v Hi.
  pose proof (Forall_lookup_1 _ _ _ _ HP Hi) as [Hv Hc].
  pose proof (slice_chunk (λ v, le_split w (unconv v)) (Z.of_nat w) l i v
    (λ y _, len_le_split w _) Hi) as Hs.
  set (s := concat _) in *.
  destruct (slice_split _ _ _ _ Hs) as (pre & post & E & Hpre).
  rewrite slice_ok by (rewrite ?E; lens). simpl.
  rewrite E, <- Hpre. rewrite to_nat_len, drop_app_length.
  rewrite take_ge by (unfold len; rewrite !length_app; lia).
  rewrite <- (len_le_split w (unconv v)).
  rewrite slice_prefix. simpl.
  by rewrite le_combine_u, Hc.
Qed.

(** A loop that appends one encoding per element. *)
Lemma foldl_app_concat {A} (wr : list byte → A → list byte) (enc : A → list byte) l w :
  (∀ w x, wr w x = w ++ enc x) → foldl wr w l = w ++ concat (enc <$> l).
Proof.
  intros H. revert w. induction l as [|x l IH]; intros w; simpl; [by rewrite app_nil_r|].
  rewrite IH, H. by rewrite <- (assoc_L (++)).
Qed.

Lemma wLenPrefix_Ok w n : is_u32 n → wLenPrefix w n = Ok (w ++ le_split 4 n).
Proof.
  intros. unfold wLenPrefix. rewrite decide_False.
  - unfold wU32. by rewrite (wrapU_small 32) by lia.
  - rewrite (wrapU_small 64) by lia. lia.
Qed.

Lemma wLenPrefix_Ok_inv w n w' :
  wLenPrefix w n = Ok w' → n < 9223372036854775808 → is_u32 n ∧ w' = w ++ le_split 4 n.
Proof.
  intros H Hn. assert (is_u32 n) as Hu.
  { unfold wLenPrefix in H. case_decide as D; [done|].
    assert (0 ≤ n) by lia. rewrite (wrapU_small 64) in D by lia. lia. }
  split; [done|]. rewrite wLenPrefix_Ok in H by done. by simplify_eq.
Qed.

Lemma wU32Vec_Ok w v :
  len v < 4294967296 →
  wU32Vec w v = Ok (w ++ le_split 4 (len v) ++ concat (le_split 4 <$> v)).
Proof.
  intros. unfold wU32Vec. rewrite wLenPrefix_Ok by lens. simpl.
  rewrite (foldl_app_concat _ (le_split 4)) by done. by rewrite <- (assoc_L (++)).
Qed.

Lemma wString_Ok w s :
  len s < 4294967296 → wString w s = Ok (w ++ le_split 4 (len s) ++ s).
Proof.
  intros. unfold wString. rewrite wLenPrefix_Ok by lens. simpl.
  by rewrite <- (assoc_L (++)).
Qed.

(** The vector and string readers undo their writers. *)
Section vec_reads.
Context (w : nat) (conv unconv : Z → Z) (l : list Z).
Context (Hw : 0 < Z.of_nat w ≤ 12) (Hlen : len l < 4294967296).
Context (HP : Forall (λ v, 0 ≤ unconv v < 2 ^ (Z.of_nat w * 8) ∧ conv (unconv v) = v) l).

Lemma reads_vec :
  reads (n ← cursor.lenPrefix (Z.of_nat w); s ← cursor.take (n * Z.of_nat w);
         cursor.lift (cursor.vecOf w conv s n))
    (le_split 4 (len l) ++ concat ((λ v, le_split w (unconv v)) <$> l)) l.
Proof using All.
  assert (len (concat ((λ v, le_split w (unconv v)) <$> l)) = len l * Z.of_nat w) as E.
  { apply len_concat_chunks. intros. apply len_le_split. }
  apply reads_lenPrefix; [lens..|].
  eapply reads_map; [by apply reads_take|]. by apply reads_lift, vecOf_enc.
Qed.
End vec_reads.

Lemma reads_u32Vec l : len l < 4294967296 → Forall (λ v, is_u32 v) l →
  reads cursor.u32Vec (le_split 4 (len l) ++ concat (le_split 4 <$> l)) l.
Proof.
  intros Hl HP. apply (reads_vec 4 id id); [done..|].
  eapply Forall_impl; [exact HP|]. simpl. lia.
Qed.

Lemma reads_i64Vec l : len l < 4294967296 → Forall (λ v, is_i64 v) l →
  reads cursor.i64Vec (le_split 4 (len l) ++ concat ((λ v, le_split 8 (to_u64 v)) <$> l)) l.
Proof.
  intros Hl HP. apply (reads_vec 8 to_i64 to_u64); [done..|].
  eapply Forall_impl; [exact HP|]. simpl. intros v Hv. split.
  - apply (wrapU_range 64). lia.
  - by apply to_i64_to_u64.
Qed.

Lemma reads_f64Vec l : len l < 4294967296 → Forall (λ v, is_u64 v) l →
  reads cursor.f64Vec (le_split 4 (len l) ++ concat (le_split 8 <$> l)) l.
Proof.
  intros Hl HP. apply (reads_vec 8 id id); [done..|].
  eapply Forall_impl; [exact HP|]. simpl. lia.
Qed.

Lemma reads_str s : len s < 4294967296 → utf8Valid s = true →
  reads cursor.str (le_split 4 (len s) ++ s) s.
Proof.
  intros Hl Hu. apply reads_lenPrefix; [lens..|].
  eapply reads_map; [by apply reads_take|].
  intros pre post. unfold mbind, cursor.M_bind, cursor.get. simpl.
  rewrite Hu. by rewrite app_nil_r.
Qed.

(** ** No read panics

    [spec m Q]: from a position inside the buffer, [m] never panics; when it
    succeeds it has only moved forward in the same buffer and its result
    satisfies [Q]. *)

Definition cwf (c : cursor.t) : Prop := 0 ≤ cursor.pos c ≤ len (cursor.b c).

Definition spec {A} (m : cursor.M A) (Q : A → Prop) : Prop :=
  ∀ c, cwf c →
    match m c with
    | Ok (a, c') => cwf c' ∧ cursor.b c' = cursor.b c ∧ cursor.pos c ≤ cursor.pos c' ∧ Q a
    | Err _ => True
    | Panic => False
    end.

Lemma spec_ret {A} (x : A) (Q : A → Prop) : Q x → spec (mret x) Q.
Proof. intros HQ c Hc. simpl. naive_solver lia. Qed.

Lemma spec_fail {A} f a (Q : A → Prop) : spec (cursor.fail f a) Q.
Proof. intros c Hc. done. Qed.

Lemma spec_bind {A B} (m : cursor.M A) (k : A → cursor.M B) P Q :
  spec m P → (∀ x, P x → spec (k x) Q) → spec (m ≫= k) Q.
Proof.
  intros Hm Hk c Hc. unfold mbind, cursor.M_bind.
  specialize (Hm c Hc). destruct (m c) as [[x c1]|e|]; simpl; [|done..].
  destruct Hm as (Hc1 & Hb & Hp & Hx). specialize (Hk x Hx c1 Hc1).
  destruct (k x c1) as [[y c2]|e|]; [|done..].
  destruct Hk as (? & ? & ? & ?). split_and!; [done|congruence|lia|done].
Qed.

Lemma spec_weaken {A} (m : cursor.M A) (P Q : A → Prop) :
  (∀ x, P x → Q x) → spec m P → spec m Q.
Proof.
  intros HPQ Hm c Hc. specialize (Hm c Hc).
  destruct (m c) as [[x c1]|e|]; naive_solver.
Qed.

Lemma spec_get : spec cursor.get (λ _, True).
Proof. intros c Hc. simpl. naive_solver lia. Qed.

Lemma spec_lift {A} (r : res A) (Q : A → Prop) :
  safe r → (∀ a, r = Ok a → Q a) → spec (cursor.lift r) Q.
Proof.
  intros Hs HQ c Hc. unfold cursor.lift. destruct r; simpl in *; naive_solver lia.
Qed.

Lemma spec_take n : spec (cursor.take n) (λ s, len s = n).
Proof.
  intros c Hc. unfold cursor.take, cursor.remaining, cwf in *.
  case_decide as D; [done|]. rewrite slice_ok by lia. simpl.
  repeat split; [lia..|]. unfold len in *. rewrite length_take, length_drop. lia.
Qed.

Lemma spec_le n w : w = Z.of_nat n →
  spec (s ← cursor.take w; mret (le_combine s)) (λ v, 0 ≤ v < 2 ^ (8 * w)).
Proof.
  intros ->. eapply spec_bind; [apply spec_take|]. simpl. intros s Hs.
  apply spec_ret. pose proof (le_combine_bound s) as H. unfold len in Hs.
  by rewrite Hs in H.
Qed.

Lemma spec_u8 : spec cursor.u8 (λ v, is_u8 v).
Proof.
  eapply spec_bind; [apply spec_take|]. simpl. intros s Hs.
  destruct (idx_ok s 0) as (x & E & _); [lia|].
  eapply spec_bind; [apply (spec_lift _ (λ _, True)); by rewrite E|]. intros y _.
  apply spec_ret. pose proof (byte.unsigned_range y). lia.
Qed.
Lemma spec_u16 : spec cursor.u16 (λ v, is_u16 v).
Proof. by apply (spec_le 2). Qed.
Lemma spec_u32 : spec cursor.u32 (λ v, is_u32 v).
Proof. by apply (spec_le 4). Qed.
Lemma spec_u64 : spec cursor.u64 (λ v, is_u64 v).
Proof. by apply (spec_le 8). Qed.
Lemma spec_i64 : spec cursor.i64 (λ v, is_i64 v).
Proof.
  eapply spec_bind; [apply spec_u64|]. intros v _. apply spec_ret.
  apply (wrapS_range 64). lia.
Qed.

Lemma spec_lenPrefix e : spec (cursor.lenPrefix e) (λ n, is_u32 n).
Proof.
  eapply spec_bind; [apply spec_u32|]. simpl. intros v Hv.
  eapply spec_bind; [apply spec_get|]. intros c _.
  case_decide; [apply spec_fail|]. apply spec_ret. rewrite (wrapS_small 64) by lia. lia.
Qed.

Lemma vecOf_safe w conv s n : 0 ≤ n → len s = n * Z.of_nat w → safe (cursor.vecOf w conv s n).
Proof.
  intros Hn Hs. apply mapM_zseq_safe. intros i Hi.
  rewrite slice_ok by nia. simpl. rewrite slice_ok; [done|lia|lia|].
  unfold len in *. rewrite length_take, length_drop. nia.
Qed.

Lemma vecOf_Forall w conv s n l (Q : Z → Prop) :
  (∀ v, 0 ≤ v < 2 ^ (8 * Z.of_nat w) → Q (conv v)) →
  cursor.vecOf w conv s n = Ok l → Forall Q l.
Proof.
  intros HQ. unfold cursor.vecOf. generalize (zseq n). intros ps.
  revert l. induction ps as [|i ps IH]; intros l H; simpl in H.
  { injection H as <-. constructor. }
  res_inv. constructor; [|by apply IH]. apply HQ.
  match goal with Hs : slice _ 0 _ = Ok ?x |- _ =>
    pose proof (le_combine_bound x) as Hb; apply slice_len in Hs; unfold len in Hs;
    by rewrite Hs, Z.sub_0_r in Hb end.
Qed.

Lemma spec_vec w conv (Q : Z → Prop) :
  (∀ v, 0 ≤ v < 2 ^ (8 * Z.of_nat w) → Q (conv v)) →
  spec (n ← cursor.lenPrefix (Z.of_nat w); s ← cursor.take (n * Z.of_nat w);
        cursor.lift (cursor.vecOf w conv s n)) (Forall Q).
Proof.
  intros HQ. eapply spec_bind; [apply spec_lenPrefix|]. simpl. intros n Hn.
  eapply spec_bind; [apply spec_take|]. simpl. intros s Hs.
  apply spec_lift; [apply vecOf_safe; lia|]. intros l. by apply vecOf_Forall.
Qed.

Lemma spec_u32Vec : spec cursor.u32Vec (Forall (λ v, is_u32 v)).
Proof. apply (spec_vec 4). done. Qed.
Lemma spec_f64Vec : spec cursor.f64Vec (Forall (λ v, is_u64 v)).
Proof. apply (spec_vec 8). done. Qed.
Lemma spec_i64Vec : spec cursor.i64Vec (Forall (λ v, is_i64 v)).
Proof. apply (spec_vec 8). intros v _. apply (wrapS_range 64). lia. Qed.

Lemma spec_str : spec cursor.str (λ s, utf8Valid s = true).
Proof.
  eapply spec_bind; [apply spec_lenPrefix|]. intros n _.
  eapply spec_bind; [apply spec_take|]. intros s _.
  eapply spec_bind; [apply spec_get|]. intros c _.
  destruct (utf8Valid s) eqn:E; [by apply spec_ret|apply spec_fail].
Qed.

Lemma spec_times {A} n (m : cursor.M A) (Q : A → Prop) :
  spec m Q → spec (cursor.times n m) (λ l, length l = n ∧ Forall Q l).
Proof.
  intros Hm. induction n as [|n IH]; simpl; [by apply spec_ret|].
  eapply spec_bind; [exact Hm|]. intros x Hx.
  eapply spec_bind; [exact IH|]. simpl. intros l [Hl HQ].
  apply spec_ret. simpl. auto.
Qed.

(** Loops over pointwise equal bodies are equal. *)
Lemma times_ext {A} (I : cursor.t → Prop) n (m1 m2 : cursor.M A) c :
  (∀ c, I c → m1 c = m2 c) → (∀ c a c', I c → m2 c = Ok (a, c') → I c') → I c →
  cursor.times n m1 c = cursor.times n m2 c.
Proof.
  intros Heq Hinv. revert c. induction n as [|n IH]; intros c Hc; [done|]. simpl.
  unfold mbind, cursor.M_bind. rewrite Heq by done.
  destruct (m2 c) as [[a c']|e|] eqn:E; [|done..]. simpl. by rewrite IH by eauto.
Qed.

(** The state after a successful read that meets its specification. *)
Lemma spec_Ok {A} (m : cursor.M A) Q c a c' : spec m Q → cwf c → m c = Ok (a, c') →
  cwf c' ∧ cursor.b c' = cursor.b c ∧ cursor.pos c ≤ cursor.pos c' ∧ Q a.
Proof. intros Hm Hc E. specialize (Hm c Hc). by rewrite E in Hm. Qed.

Create HintDb gospec.
#[export] Hint Resolve spec_u8 spec_u16 spec_u32 spec_u64 spec_i64 spec_lenPrefix
  spec_u32Vec spec_f64Vec spec_i64Vec spec_str spec_take spec_get spec_fail : gospec.

(** A reader that meets its specification is safe on a fresh cursor. *)
Lemma spec_safe {A} (m : cursor.M A) Q s : spec m Q → safe (m (cursor.newCursor s)).
Proof.
  intros Hm. specialize (Hm (cursor.newCursor s)).
  destruct (m _) as [[]|e|]; [done..|]. apply Hm.
  unfold cwf. simpl. pose proof (len_nonneg s). lia.
Qed.
