(* ===== verification/RcpgColumn.v ===== *)
(** RCPG property columns: [src/rcpg/column.go].

    The eight column representations, the accessors of the packed boolean
    column and the column-section codec. The theorems: a column section reads
    back as the columns that were written, decoding never panics, and the
    packed boolean column behaves like an array of booleans. *)

From S2P Require Import Prelude RcpgCursor.

(** ** Column data *)

Record Entry (V : Type) := mkEntry { ID : Z; Val : V }.
Arguments mkEntry {V} _ _.
Arguments ID {V} _.
Arguments Val {V} _.

#[export] Instance Entry_eq_dec `{EqDecision V} : EqDecision (Entry V).
Proof. solve_decision. Defined.

(** Floats are IEEE-754 bit patterns; string values are atom ids. *)
Inductive ColumnData :=
| DenseI64 (d : list Z)
| DenseF64 (d : list Z)
| DenseBool (Bits : list byte) (Len : Z)
| DenseStr (d : list Z)
| SparseI64 (d : list (Entry Z))
| SparseF64 (d : list (Entry Z))
| SparseBool (d : list (Entry bool))
| SparseStr (d : list (Entry Z)).

#[export] Instance ColumnData_eq_dec : EqDecision ColumnData.
Proof. solve_decision. Defined.

Record Column := mkColumn { Key : Z; Data : ColumnData }.

#[export] Instance Column_eq_dec : EqDecision Column.
Proof. solve_decision. Defined.

Definition colDenseI64 := 0.
Definition colDenseF64 := 1.
Definition colDenseBool := 2.
Definition colDenseStr := 3.
Definition colSparseI64 := 4.
Definition colSparseF64 := 5.
Definition colSparseBool := 6.
Definition colSparseStr := 7.

Definition tag (c : ColumnData) : Z :=
  match c with
  | DenseI64 _ => colDenseI64
  | DenseF64 _ => colDenseF64
  | DenseBool _ _ => colDenseBool
  | DenseStr _ => colDenseStr
  | SparseI64 _ => colSparseI64
  | SparseF64 _ => colSparseF64
  | SparseBool _ => colSparseBool
  | SparseStr _ => colSparseStr
  end.

(** ** The packed boolean column *)

Module DenseBoolOps.

Definition Get (bits : list byte) (n i : Z) : res bool :=
  if decide (n ≤ i) then Ok false
  else x ← idx bits (i / 8);
       Ok (bool_decide (Z.land (byte.unsigned x) (Z.shiftl 1 (i `mod` 8)) ≠ 0)).

Definition Set_ (bits : list byte) (i : Z) (v : bool) : res (list byte) :=
  x ← idx bits (i / 8);
  upd bits (i / 8) (byte.of_Z (setbit (byte.unsigned x) (i `mod` 8) v)).

Definition NewDenseBool (n : Z) : list byte * Z :=
  (replicate (Z.to_nat (to_u32 (n + 7) / 8)) Byte.x00, n).

End DenseBoolOps.

(** ** The codec *)

(** The [switch] of [encodeColumns] on the column's representation. *)
Definition encodeColumnData (buf : list byte) (d : ColumnData) : res (list byte) :=
  match d with
  | DenseI64 d => buf ← wLenPrefix buf (len d); Ok (foldl wI64 buf d)
  | DenseF64 d => buf ← wLenPrefix buf (len d); Ok (foldl wF64 buf d)
  | DenseBool bits n =>
      let buf := wU32 buf n in
      s ← slice bits 0 (to_u32 (n + 7) / 8); Ok (buf ++ s)
  | DenseStr d => wU32Vec buf d
  | SparseI64 d => buf ← wLenPrefix buf (len d);
      Ok (foldl (λ buf e, wI64 (wU32 buf (ID e)) (Val e)) buf d)
  | SparseF64 d => buf ← wLenPrefix buf (len d);
      Ok (foldl (λ buf e, wF64 (wU32 buf (ID e)) (Val e)) buf d)
  | SparseBool d => buf ← wLenPrefix buf (len d);
      Ok (foldl (λ buf e, if Val e : bool then wU8 (wU32 buf (ID e)) 1
                          else wU8 (wU32 buf (ID e)) 0) buf d)
  | SparseStr d => buf ← wLenPrefix buf (len d);
      Ok (foldl (λ buf e, wU32 (wU32 buf (ID e)) (Val e)) buf d)
  end.

Definition encodeColumn (buf : list byte) (col : Column) : res (list byte) :=
  encodeColumnData (wU8 (wU32 buf (Key col)) (tag (Data col))) (Data col).

Fixpoint encodeColumnLoop (buf : list byte) (columns : list Column) : res (list byte) :=
  match columns with
  | [] => Ok buf
  | col :: rest => buf ← encodeColumn buf col; encodeColumnLoop buf rest
  end.

Definition encodeColumns (columns : list Column) : res (list byte) :=
  buf ← wLenPrefix [] (len columns); encodeColumnLoop buf columns.

(** One [(id, value)] pair of a sparse column. *)
Definition decodeEntry {V} (val : cursor.M V) : cursor.M (Entry V) :=
  id ← cursor.u32; x ← val; mret (mkEntry id x).

Definition decodeSparse {V} (elemSize : Z) (val : cursor.M V) : cursor.M (list (Entry V)) :=
  n ← cursor.lenPrefix elemSize; cursor.times (Z.to_nat n) (decodeEntry val).

Definition decodeColumnData (tag : Z) : cursor.M ColumnData :=
  if decide (tag = colDenseI64) then v ← cursor.i64Vec; mret (DenseI64 v)
  else if decide (tag = colDenseF64) then v ← cursor.f64Vec; mret (DenseF64 v)
  else if decide (tag = colDenseBool) then
    bitLen ← cursor.u32;
    packed ← cursor.take (to_i64 (to_u64 (bitLen + 7) / 8));
    mret (DenseBool packed bitLen)
  else if decide (tag = colDenseStr) then v ← cursor.u32Vec; mret (DenseStr v)
  else if decide (tag = colSparseI64) then v ← decodeSparse 12 cursor.i64; mret (SparseI64 v)
  else if decide (tag = colSparseF64) then v ← decodeSparse 12 cursor.u64; mret (SparseF64 v)
  else if decide (tag = colSparseBool) then
    v ← decodeSparse 5 (b ← cursor.u8; mret (bool_decide (b ≠ 0))); mret (SparseBool v)
  else if decide (tag = colSparseStr) then v ← decodeSparse 8 cursor.u32; mret (SparseStr v)
  else cursor.fail "unknown column tag %d" [tag].

Definition decodeColumn : cursor.M Column :=
  key ← cursor.u32; tag ← cursor.u8; data ← decodeColumnData tag; mret (mkColumn key data).

Definition decodeColumns (body : list byte) : res (list Column) :=
  '(cols, _) ← (count ← cursor.lenPrefix 5; cursor.times (Z.to_nat count) decodeColumn)
                 (cursor.newCursor body);
  Ok cols.

(** ** Columns the format can hold *)

Definition wf_entry {V} (P : V → Prop) (e : Entry V) : Prop := is_u32 (ID e) ∧ P (Val e).

Definition wf_data (d : ColumnData) : Prop :=
  match d with
  | DenseI64 d => len d < 4294967296 ∧ Forall (λ v, is_i64 v) d
  | DenseF64 d => len d < 4294967296 ∧ Forall (λ v, is_u64 v) d
  | DenseBool bits n => 0 ≤ n ≤ 4294967288 ∧ len bits = (n + 7) / 8
  | DenseStr d => len d < 4294967296 ∧ Forall (λ v, is_u32 v) d
  | SparseI64 d => len d < 4294967296 ∧ Forall (wf_entry (λ v, is_i64 v)) d
  | SparseF64 d => len d < 4294967296 ∧ Forall (wf_entry (λ v, is_u64 v)) d
  | SparseBool d => len d < 4294967296 ∧ Forall (wf_entry (λ _, True)) d
  | SparseStr d => len d < 4294967296 ∧ Forall (wf_entry (λ v, is_u32 v)) d
  end.

Definition wf_column (c : Column) : Prop := is_u32 (Key c) ∧ wf_data (Data c).

(** The bytes of a well-formed column. *)
Definition dataBytes (d : ColumnData) : list byte :=
  match d with
  | DenseI64 d => le_split 4 (len d) ++ concat ((λ v, le_split 8 (to_u64 v)) <$> d)
  | DenseF64 d => le_split 4 (len d) ++ concat (le_split 8 <$> d)
  | DenseBool bits n => le_split 4 n ++ bits
  | DenseStr d => le_split 4 (len d) ++ concat (le_split 4 <$> d)
  | SparseI64 d => le_split 4 (len d) ++
      concat ((λ e, le_split 4 (ID e) ++ le_split 8 (to_u64 (Val e))) <$> d)
  | SparseF64 d => le_split 4 (len d) ++
      concat ((λ e, le_split 4 (ID e) ++ le_split 8 (Val e)) <$> d)
  | SparseBool d => le_split 4 (len d) ++
      concat ((λ e, le_split 4 (ID e) ++ le_split 1 (if Val e : bool then 1 else 0)) <$> d)
  | SparseStr d => le_split 4 (len d) ++
      concat ((λ e, le_split 4 (ID e) ++ le_split 4 (Val e)) <$> d)
  end.

Definition columnBytes (c : Column) : list byte :=
  le_split 4 (Key c) ++ le_split 1 (tag (Data c)) ++ dataBytes (Data c).

(** ** Round trip *)

Ltac app_norm := unfold wI64, wF64, wU64, wU32, wU16, wU8; rewrite <- ?(assoc_L (++)); simpl.

Lemma encodeColumnData_Ok buf d :
  wf_data d → encodeColumnData buf d = Ok (buf ++ dataBytes d).
Proof.
  destruct d as [d|d|bits n|d|d|d|d|d]; simpl; intros [Hl HP];
    try (rewrite wLenPrefix_Ok by lens; simpl;
         erewrite foldl_app_concat; [by rewrite <- (assoc_L (++))|];
         intros w x; by app_norm).
  - rewrite (wrapU_small 32) by lia. rewrite <- HP.
    rewrite <- (app_nil_r bits) at 1. rewrite slice_prefix. simpl.
    unfold wU32. by rewrite <- (assoc_L (++)).
  - by rewrite wU32Vec_Ok by lia.
  - rewrite wLenPrefix_Ok by lens. simpl.
    rewrite (foldl_app_concat _
      (λ e, le_split 4 (ID e) ++ le_split 1 (if Val e : bool then 1 else 0))).
    + by rewrite <- (assoc_L (++)).
    + intros w x. destruct (Val x); by app_norm.
Qed.

Lemma encodeColumn_Ok buf c : wf_column c → encodeColumn buf c = Ok (buf ++ columnBytes c).
Proof.
  intros [_ H]. unfold encodeColumn, columnBytes. rewrite encodeColumnData_Ok by done.
  by app_norm.
Qed.

Lemma encodeColumnLoop_Ok buf cs :
  Forall wf_column cs → encodeColumnLoop buf cs = Ok (buf ++ concat (columnBytes <$> cs)).
Proof.
  intros H. revert buf. induction H as [|c cs Hc Hcs IH]; intros buf; simpl.
  { by rewrite app_nil_r. }
  rewrite encodeColumn_Ok by done. simpl. rewrite IH. by rewrite <- (assoc_L (++)).
Qed.

Lemma encodeColumns_Ok cs :
  len cs < 4294967296 → Forall wf_column cs →
  encodeColumns cs = Ok (le_split 4 (len cs) ++ concat (columnBytes <$> cs)).
Proof.
  intros. unfold encodeColumns. rewrite wLenPrefix_Ok by lens. simpl.
  by rewrite encodeColumnLoop_Ok.
Qed.

Section sparse_reads.
Context {V : Type} (m : cursor.M V) (enc : V → list byte) (P : V → Prop).
Context (w : Z) (Hw : 0 < 4 + w ≤ 12).
Context (Henc : ∀ v, len (enc v) = w) (Hm : ∀ v, P v → reads m (enc v) v).

Lemma reads_decodeEntry e : wf_entry P e →
  reads (decodeEntry m) (le_split 4 (ID e) ++ enc (Val e)) e.
Proof using Hm.
  intros [Hid Hv]. eapply reads_bind; [by apply reads_u32|].
  eapply reads_map; [by apply Hm|]. destruct e. apply reads_ret.
Qed.

Lemma reads_decodeSparse d : len d < 4294967296 → Forall (wf_entry P) d →
  reads (decodeSparse (4 + w) m)
    (le_split 4 (len d) ++ concat ((λ e, le_split 4 (ID e) ++ enc (Val e)) <$> d)) d.
Proof using All.
  intros Hl HP. apply reads_lenPrefix; [lens|done|..].
  - rewrite (len_concat_chunks _ (4 + w)); [lia|]. intros e _. by rewrite len_app, Henc, len_le_split.
  - rewrite to_nat_len. eapply reads_times; [|exact HP]. apply reads_decodeEntry.
Qed.
End sparse_reads.

Lemma reads_decodeColumnData d : wf_data d → reads (decodeColumnData (tag d)) (dataBytes d) d.
Proof.
  destruct d as [d|d|bits n|d|d|d|d|d]; intros [Hl HP]; unfold decodeColumnData; simpl.
  - eapply reads_map; [by apply reads_i64Vec|apply reads_ret].
  - eapply reads_map; [by apply reads_f64Vec|apply reads_ret].
  - eapply reads_bind; [by apply reads_u32; lia|].
    eapply reads_map; [|apply reads_ret]. apply reads_take.
    rewrite (wrapU_small 64) by lia. rewrite (wrapS_small 64); [done|lia|].
    pose proof (Z.div_le_upper_bound (n + 7) 8 (n + 7)).
    pose proof (Z.div_pos (n + 7) 8). lia.
  - eapply reads_map; [by apply reads_u32Vec|apply reads_ret].
  - eapply reads_map; [|apply reads_ret].
    apply (reads_decodeSparse cursor.i64 (λ v, le_split 8 (to_u64 v)) (λ v, is_i64 v) 8);
      [done|by intros; apply len_le_split|apply reads_i64|done..].
  - eapply reads_map; [|apply reads_ret].
    apply (reads_decodeSparse cursor.u64 (le_split 8) (λ v, is_u64 v) 8);
      [done|by intros; apply len_le_split|apply reads_u64|done..].
  - eapply reads_map; [|apply reads_ret].
    apply (reads_decodeSparse _ (λ v : bool, le_split 1 (if v then 1 else 0)) (λ _, True) 1);
      [done|by intros; apply len_le_split| |done..].
    intros v _. eapply reads_map; [apply (reads_u8 (if v then 1 else 0)); by destruct v|].
    destruct v; apply reads_ret.
  - eapply reads_map; [|apply reads_ret].
    apply (reads_decodeSparse cursor.u32 (le_split 4) (λ v, is_u32 v) 4);
      [done|by intros; apply len_le_split|apply reads_u32|done..].
Qed.

Lemma reads_decodeColumn c : wf_column c → reads decodeColumn (columnBytes c) c.
Proof.
  intros [Hk Hd]. unfold decodeColumn, columnBytes.
  eapply reads_bind; [by apply reads_u32|].
  eapply reads_bind; [apply reads_u8; by destruct (Data c)|].
  eapply reads_map; [by apply reads_decodeColumnData|]. destruct c; apply reads_ret.
Qed.

Lemma columnBytes_len c : 5 ≤ len (columnBytes c).
Proof. unfold columnBytes. pose proof (len_nonneg (dataBytes (Data c))). lens. Qed.

Lemma decodeColumns_encoded cs post :
  len cs < 4294967296 → Forall wf_column cs →
  decodeColumns ((le_split 4 (len cs) ++ concat (columnBytes <$> cs)) ++ post) = Ok cs.
Proof.
  intros Hl Hcs. unfold decodeColumns.
  assert (reads (count ← cursor.lenPrefix 5; cursor.times (Z.to_nat count) decodeColumn)
    (le_split 4 (len cs) ++ concat (columnBytes <$> cs)) cs) as H.
  { apply reads_lenPrefix; [lens|done|..].
    - apply len_concat_ge, columnBytes_len.
    - rewrite to_nat_len. eapply reads_times; [|exact Hcs]. apply reads_decodeColumn. }
  by rewrite (reads_run _ _ _ post H).
Qed.

(** ** Safety of decoding *)

Lemma spec_decodeSparse {V} e (m : cursor.M V) Q :
  spec m Q → spec (decodeSparse e m) (Forall (wf_entry Q)).
Proof.
  intros Hm. eapply spec_bind; [apply spec_lenPrefix|]. intros n _.
  eapply spec_weaken; [|apply spec_times]; [intros l [_ H]; exact H|].
  eapply spec_bind; [apply spec_u32|]. intros id Hid.
  eapply spec_bind; [exact Hm|]. intros x Hx. by apply spec_ret.
Qed.

Lemma spec_map {A B} (m : cursor.M A) (f : A → B) P :
  spec m P → spec (x ← m; mret (f x)) (λ _, True).
Proof. intros H. eapply spec_bind; [exact H|]. intros. by apply spec_ret. Qed.

Lemma spec_decodeColumnData t : spec (decodeColumnData t) (λ _, True).
Proof.
  unfold decodeColumnData.
  repeat case_decide;
    try (eapply spec_map; (apply spec_decodeSparse || idtac); eauto with gospec; fail).
  - eapply spec_bind; [apply spec_u32|]. intros n _. eapply spec_map, spec_take.
  - eapply spec_map, spec_decodeSparse, spec_map, spec_u8.
  - apply spec_fail.
Qed.

Lemma spec_decodeColumn : spec decodeColumn (λ _, True).
Proof.
  eapply spec_bind; [apply spec_u32|]. intros k _.
  eapply spec_bind; [apply spec_u8|]. intros t _. eapply spec_map, spec_decodeColumnData.
Qed.

Lemma decodeColumns_safe body : safe (decodeColumns body).
Proof.
  apply safe_bind; [|by intros []]. eapply (spec_safe _ (λ _, True)).
  eapply spec_bind; [apply spec_lenPrefix|]. intros n _.
  eapply spec_weaken; [done|]. apply spec_times, spec_decodeColumn.
Qed.

(** ** The packed boolean column is an array of booleans *)

Lemma Get_testbit bits n i x : 0 ≤ i < n → bits !! Z.to_nat (i / 8) = Some x →
  DenseBoolOps.Get bits n i = Ok (Z.testbit (byte.unsigned x) (i `mod` 8)).
Proof.
  intros Hi Hx. unfold DenseBoolOps.Get. rewrite decide_False by lia.
  rewrite (idx_lookup _ _ x); [|by apply Z.div_pos; lia|done]. simpl.
  rewrite land_shiftl1; [done|]. by apply Z.mod_pos_bound.
Qed.

Lemma Set_Get bits n i v : 0 ≤ i < n → (n + 7) / 8 ≤ len bits →
  ∃ bits', DenseBoolOps.Set_ bits i v = Ok bits' ∧ len bits' = len bits ∧
    ∀ j, 0 ≤ j < n →
      DenseBoolOps.Get bits' n j = if decide (j = i) then Ok v else DenseBoolOps.Get bits n j.
Proof.
  intros Hi Hlen. assert (∀ j, 0 ≤ j < n → 0 ≤ j / 8 < len bits) as Hbyte.
  { intros j Hj. dlia. }
  destruct (idx_ok bits (i / 8) (Hbyte i Hi)) as (x & Ex & Hx).
  unfold DenseBoolOps.Set_. rewrite Ex. simpl. unfold upd. rewrite decide_True by auto.
  eexists. split; [done|]. split; [apply len_insert|]. intros j Hj.
  pose proof (Z.mod_pos_bound i 8). pose proof (Z.mod_pos_bound j 8).
  destruct (decide (i / 8 = j / 8)) as [Eb|Nb].
  - erewrite Get_testbit; [|done|rewrite <- Eb; apply list_lookup_insert_eq; by eapply lookup_lt_Some].
    rewrite byte.unsigned_of_Z. unfold byte.wrap. rewrite Z.mod_pow2_bits_low by lia.
    rewrite testbit_setbit by lia.
    case_bool_decide; case_decide; [done|dlia|subst; lia|].
    erewrite Get_testbit; [done|done|by rewrite <- Eb].
  - rewrite decide_False by congruence.
    destruct (idx_ok bits (j / 8) (Hbyte j Hj)) as (y & _ & Hy).
    erewrite !Get_testbit; [done|done|done|done|].
    rewrite list_lookup_insert_ne; [done|]. dlia.
Qed.

(** For the seven largest lengths [(Len+7)/8] wraps to 0 in [uint32]: the
    writer emits the length and none of the bits, and the reader refuses the
    section it produced. *)
Lemma wide_DenseBool_unreadable key bits n :
  is_u32 key → 4294967289 ≤ n ≤ MaxUint32 →
  encodeColumns [mkColumn key (DenseBool bits n)] =
    Ok (le_split 4 1 ++ le_split 4 key ++ le_split 1 colDenseBool ++ le_split 4 n) ∧
  ∃ fmt args, decodeColumns
    (le_split 4 1 ++ le_split 4 key ++ le_split 1 colDenseBool ++ le_split 4 n)
    = Err (ErrCorrupt fmt args).
Proof.
  intros Hk Hn. split.
  - unfold encodeColumns. rewrite wLenPrefix_Ok by done.
    unfold encodeColumnLoop, encodeColumn. cbn [mbind res_bind encodeColumnData Data tag Key].
    replace (to_u32 (n + 7) / 8) with 0; cycle 1.
    { unfold wrapU. replace (n + 7) with (n - 4294967289 + 1 * 2 ^ 32) by lia.
      rewrite Z.mod_add, Z.mod_small, Z.div_small by lia. done. }
    unfold slice. rewrite decide_True by (pose proof (len_nonneg bits); lia). simpl.
    rewrite app_nil_r. unfold wU8, wU32. by rewrite <- !(assoc_L (++)).
  - assert (rejects (count ← cursor.lenPrefix 5; cursor.times (Z.to_nat count) decodeColumn)
      (le_split 4 1 ++ le_split 4 key ++ le_split 1 colDenseBool ++ le_split 4 n ++ [])) as H.
    { apply rejects_lenPrefix; [done|done|lens|]. apply rejects_bind_l.
      eapply rejects_bind; [by apply reads_u32|]. eapply rejects_bind; [by apply reads_u8|].
      apply rejects_bind_l. eapply rejects_bind; [apply reads_u32; lia|].
      apply rejects_bind_l, rejects_take.
      rewrite (wrapU_small 64), (wrapS_small 64) by dlia.
      rewrite len_nil. dlia. }
    rewrite app_nil_r in H. destruct (rejects_run _ _ H) as (f & a & E). exists f, a.
    unfold decodeColumns. by rewrite E.
Qed.

(** ** Properties *)

(** Property columns round-trip: whatever mix of dense and sparse
    representations a table has, encoding succeeds and decoding the bytes,
    with anything after them, gives the same columns back. *)
Theorem columns_roundtrip (cs : list Column) (post : list byte) :
  len cs < 4294967296 → Forall wf_column cs →
  ∃ b, encodeColumns cs = Ok b ∧ decodeColumns (b ++ post) = Ok cs.
Proof.
  intros Hl HF. eexists. split; [by apply encodeColumns_Ok|].
  rewrite <- (assoc_L (++)). by apply decodeColumns_encoded.
Qed.

Definition demoColumns : list Column :=
  [mkColumn 3 (DenseI64 [-1; 7; 9223372036854775807]);
   mkColumn 4 (DenseBool [Byte.x05] 3);
   mkColumn 5 (SparseStr [mkEntry 2 9; mkEntry 40 1])].

Lemma demoColumns_wf : Forall wf_column demoColumns.
Proof. by repeat (constructor; unfold wf_column, wf_data, wf_entry; simpl; try done). Qed.

Lemma columns_roundtrip_witness :
  ∃ b, encodeColumns demoColumns = Ok b ∧ decodeColumns (b ++ [Byte.xff]) = Ok demoColumns.
Proof. apply (columns_roundtrip demoColumns [Byte.xff]); [done|apply demoColumns_wf]. Defined.

(** A packed boolean column behaves as an array of booleans: after
    [Set(i, v)], [Get] answers [v] at [i] and what it answered before
    everywhere else, although eight positions share a byte. *)
Theorem DenseBool_set_get (bits : list byte) (n i : Z) (v : bool) :
  0 ≤ i < n → (n + 7) / 8 ≤ len bits →
  ∃ bits', DenseBoolOps.Set_ bits i v = Ok bits' ∧ len bits' = len bits ∧
    ∀ j, 0 ≤ j < n →
      DenseBoolOps.Get bits' n j = if decide (j = i) then Ok v else DenseBoolOps.Get bits n j.
Proof. apply Set_Get. Qed.

Lemma DenseBool_set_get_witness :
  ∃ bits', DenseBoolOps.Set_ [Byte.x81; Byte.x01] 6 true = Ok bits' ∧ len bits' = 2 ∧
    ∀ j, 0 ≤ j < 9 → DenseBoolOps.Get bits' 9 j =
      if decide (j = 6) then Ok true else DenseBoolOps.Get [Byte.x81; Byte.x01] 9 j.
Proof. apply (DenseBool_set_get [Byte.x81; Byte.x01] 9 6 true); [lia|done]. Defined.

(** For the seven largest 32-bit lengths the packed size [(Len+7)/8] wraps
    to zero: the writer accepts the column, emits its length and none of its
    bits, and the reader rejects the section so written as corrupt. *)
Theorem wide_DenseBool_lost (key n : Z) (bits : list byte) :
  is_u32 key → 4294967289 ≤ n ≤ MaxUint32 →
  ∃ b fmt args, encodeColumns [mkColumn key (DenseBool bits n)] = Ok b ∧ len b = 13 ∧
    decodeColumns b = Err (ErrCorrupt fmt args).
Proof.
  intros Hk Hn. destruct (wide_DenseBool_unreadable key bits n Hk Hn) as (E & f & a & D).
  by exists (le_split 4 1 ++ le_split 4 key ++ le_split 1 colDenseBool ++ le_split 4 n), f, a.
Qed.

Lemma wide_DenseBool_lost_witness :
  ∃ b fmt args, encodeColumns [mkColumn 0 (DenseBool [Byte.xff] 4294967295)] = Ok b ∧ len b = 13 ∧
    decodeColumns b = Err (ErrCorrupt fmt args).
Proof. apply (wide_DenseBool_lost 0 4294967295 [Byte.xff]); lia. Defined.
