(* ===== verification/RcpgSection.v ===== *)
(** RCPG sections: [src/rcpg/section.go].

    The decoded content of an RCPG file ([GraphSection]) and the codecs of its
    sections: atoms, the optional atom block index, meta, nodes (label index),
    relationships (CSR and type index) and the optional existence bitmap.
    Roaring bitmaps come from a third-party package: the class [Roaring] is
    the interface the sections use of it, [RoaringLaws] what they rely on. *)

From S2P Require Import Prelude RcpgCursor RcpgColumn.

(** ** The roaring bitmap interface *)

(** [WriteTo] into a [bytes.Buffer], [ReadFrom] a [bytes.Reader] ([None] for
    an error) and [GetSerializedSizeInBytes]. *)
Class Roaring (bm : Type) := {
  bmWriteTo : bm → list byte;
  bmReadFrom : list byte → option bm;
  bmSize : bm → Z;
}.

(** The documented behaviour: the serialization announces its own size, is
    never empty (the portable format starts with a cookie), and reads back. *)
Class RoaringLaws (bm : Type) `{Roaring bm} : Prop := {
  bm_size : ∀ b : bm, bmSize b = len (bmWriteTo b);
  bm_read_write : ∀ b : bm, bmReadFrom (bmWriteTo b) = Some b;
}.

(** ** Data *)

Record BitmapEntry (bm : Type) := mkBitmapEntry { Atom : Z; Bitmap : bm }.
Arguments mkBitmapEntry {bm} _ _.
Arguments Atom {bm} _.
Arguments Bitmap {bm} _.

Record AtomBlockIndex := mkAtomBlockIndex { BlockLen : Z; Offsets : list Z }.

Record GraphSection (bm : Type) := mkGraphSection {
  NNodes : Z;
  NRels : Z;
  OutOffsets : list Z;
  OutNbrs : list Z;
  OutTypes : list Z;
  InOffsets : list Z;
  InNbrs : list Z;
  InTypes : list Z;
  LabelIndex : list (BitmapEntry bm);
  TypeIndex : list (BitmapEntry bm);
  NodeColumns : list Column;
  RelColumns : list Column;
  Version : option gostring;
  Atoms : list gostring;
  Existence : option bm;
  AtomIndex : option AtomBlockIndex;
}.
Arguments mkGraphSection {bm}.
Arguments NNodes {bm} _.
Arguments NRels {bm} _.
Arguments OutOffsets {bm} _.
Arguments OutNbrs {bm} _.
Arguments OutTypes {bm} _.
Arguments InOffsets {bm} _.
Arguments InNbrs {bm} _.
Arguments InTypes {bm} _.
Arguments LabelIndex {bm} _.
Arguments TypeIndex {bm} _.
Arguments NodeColumns {bm} _.
Arguments RelColumns {bm} _.
Arguments Version {bm} _.
Arguments Atoms {bm} _.
Arguments Existence {bm} _.
Arguments AtomIndex {bm} _.

(** [&GraphSection{}] *)
Definition emptyGraph {bm} : GraphSection bm :=
  mkGraphSection 0 0 [] [] [] [] [] [] [] [] [] [] None [] None None.

(** ** Adjacency of a decoded file *)

Definition CSRIDSpace {bm} (g : GraphSection bm) : Z :=
  match OutOffsets g with [] => 0 | _ => to_u32 (len (OutOffsets g) - 1) end.

Definition neighbors (offsets nbrs : list Z) (node : Z) : res (list Z) :=
  let i := node in
  if decide (len offsets ≤ i + 1) then Ok []
  else start ← idx offsets i; end_ ← idx offsets (i + 1);
       if decide (end_ < start ∨ len nbrs < end_) then Ok []
       else slice nbrs start end_.

Definition OutNeighbors {bm} (g : GraphSection bm) (node : Z) : res (list Z) :=
  neighbors (OutOffsets g) (OutNbrs g) node.
Definition InNeighbors {bm} (g : GraphSection bm) (node : Z) : res (list Z) :=
  neighbors (InOffsets g) (InNbrs g) node.

(** ** Atoms (section 1) *)

Fixpoint encodeAtomLoop (buf : list byte) (atoms : list gostring) : res (list byte) :=
  match atoms with
  | [] => Ok buf
  | s :: rest => buf ← wString buf s; encodeAtomLoop buf rest
  end.

Definition encodeAtoms (atoms : list gostring) : res (list byte) :=
  buf ← wLenPrefix [] (len atoms); encodeAtomLoop buf atoms.

(** One atom: its bytes are a substring of [blob], the section tail that
    starts at offset [base]. *)
Definition decodeAtom (base : Z) (blob : list byte) : cursor.M gostring :=
  n ← cursor.lenPrefix 1; s ← cursor.take n; c ← cursor.get;
  if utf8Valid s
  then cursor.lift (slice blob (cursor.pos c - n - base) (cursor.pos c - base))
  else cursor.fail "invalid utf8 at offset %d" [cursor.pos c].

Definition decodeAtomsM : cursor.M (list gostring) :=
  count ← cursor.lenPrefix 1; c ← cursor.get;
  let base := cursor.pos c in
  blob ← cursor.lift (slice (cursor.b c) base (len (cursor.b c)));
  cursor.times (Z.to_nat count) (decodeAtom base blob).

Definition decodeAtoms (body : list byte) : res (list gostring) :=
  '(atoms, _) ← decodeAtomsM (cursor.newCursor body); Ok atoms.

(** ** Atom block index (section 7) *)

(** [for i, s := range atoms]: an offset at every block start. *)
Fixpoint atomOffsets (blockLen i running : Z) (atoms : list gostring) : list Z :=
  match atoms with
  | [] => []
  | s :: rest =>
      (if decide (i `mod` blockLen = 0) then [running] else []) ++
      atomOffsets blockLen (i + 1) (to_u64 (running + 4 + len s)) rest
  end.

Definition encodeAtomIndex (atoms : list gostring) (blockLen : Z) : res (list byte) :=
  let buf := wU32 (wU32 [] blockLen) 0 in
  if decide (blockLen = 0) then Panic
  else
    let count := (len atoms + blockLen - 1) / blockLen in
    let buf := wU32 buf (to_u32 count) in
    Ok (foldl wU64 buf (atomOffsets blockLen 0 4 atoms)).

Fixpoint decodeOffsets (n : nat) (prev : option Z) : cursor.M (list Z) :=
  match n with
  | O => mret []
  | S n' =>
      off ← cursor.u64;
      if match prev with Some p => bool_decide (off ≤ p) | None => false end
      then cursor.fail "atom index: offsets not strictly ascending" []
      else rest ← decodeOffsets n' (Some off); mret (off :: rest)
  end.

Definition decodeAtomIndexM : cursor.M AtomBlockIndex :=
  blockLen ← cursor.u32; _ ← cursor.u32; count ← cursor.lenPrefix 8;
  offsets ← decodeOffsets (Z.to_nat count) None;
  mret (mkAtomBlockIndex blockLen offsets).

Definition decodeAtomIndex (body : list byte) : res AtomBlockIndex :=
  '(idx, _) ← decodeAtomIndexM (cursor.newCursor body); Ok idx.

Fixpoint validateAtomLoop (index : AtomBlockIndex) (i block running : Z)
    (atoms : list gostring) : res () :=
  match atoms with
  | [] => Ok ()
  | s :: rest =>
      if decide (i `mod` BlockLen index = 0) then
        o ← idx (Offsets index) block;
        if decide (o ≠ running)
        then corruptf "atom index: offset does not point at its block's length prefix" []
        else validateAtomLoop index (i + 1) (block + 1) (to_u64 (running + 4 + len s)) rest
      else validateAtomLoop index (i + 1) block (to_u64 (running + 4 + len s)) rest
  end.

Definition validateAtomIndex (index : AtomBlockIndex) (atoms : list gostring) : res () :=
  if decide (BlockLen index = 0) then corruptf "atom index: block_len is zero" []
  else
    let expected := (len atoms + BlockLen index - 1) / BlockLen index in
    if decide (len (Offsets index) ≠ expected)
    then corruptf "atom index: offset count does not match the atom count" []
    else validateAtomLoop index 0 0 4 atoms.

(** ** Meta (section 2) *)

Definition encodeMeta {bm} (g : GraphSection bm) : res (list byte) :=
  match Version g with
  | Some v => wString (wU8 [] 1) v
  | None => Ok (wU8 [] 0)
  end.

(** The version the section carries; [None] leaves the graph's untouched. *)
Definition decodeMetaM : cursor.M (option gostring) :=
  present ← cursor.u8;
  if decide (present = 1) then v ← cursor.str; mret (Some v) else mret None.

(** ** Field updates of a [GraphSection] under construction *)

Section updates.
Context {bm : Type}.
Implicit Types g : GraphSection bm.

Definition set_nodes g n li := mkGraphSection n (NRels g) (OutOffsets g) (OutNbrs g) (OutTypes g)
  (InOffsets g) (InNbrs g) (InTypes g) li (TypeIndex g) (NodeColumns g) (RelColumns g)
  (Version g) (Atoms g) (Existence g) (AtomIndex g).
Definition set_rels g n oo on ot io i_n it ti := mkGraphSection (NNodes g) n oo on ot io i_n it
  (LabelIndex g) ti (NodeColumns g) (RelColumns g) (Version g) (Atoms g) (Existence g) (AtomIndex g).
Definition set_NodeColumns g cs := mkGraphSection (NNodes g) (NRels g) (OutOffsets g) (OutNbrs g)
  (OutTypes g) (InOffsets g) (InNbrs g) (InTypes g) (LabelIndex g) (TypeIndex g) cs (RelColumns g)
  (Version g) (Atoms g) (Existence g) (AtomIndex g).
Definition set_RelColumns g cs := mkGraphSection (NNodes g) (NRels g) (OutOffsets g) (OutNbrs g)
  (OutTypes g) (InOffsets g) (InNbrs g) (InTypes g) (LabelIndex g) (TypeIndex g) (NodeColumns g) cs
  (Version g) (Atoms g) (Existence g) (AtomIndex g).
Definition set_Version g v := mkGraphSection (NNodes g) (NRels g) (OutOffsets g) (OutNbrs g)
  (OutTypes g) (InOffsets g) (InNbrs g) (InTypes g) (LabelIndex g) (TypeIndex g) (NodeColumns g)
  (RelColumns g) v (Atoms g) (Existence g) (AtomIndex g).
Definition set_Atoms g a := mkGraphSection (NNodes g) (NRels g) (OutOffsets g) (OutNbrs g)
  (OutTypes g) (InOffsets g) (InNbrs g) (InTypes g) (LabelIndex g) (TypeIndex g) (NodeColumns g)
  (RelColumns g) (Version g) a (Existence g) (AtomIndex g).
Definition set_Existence g e := mkGraphSection (NNodes g) (NRels g) (OutOffsets g) (OutNbrs g)
  (OutTypes g) (InOffsets g) (InNbrs g) (InTypes g) (LabelIndex g) (TypeIndex g) (NodeColumns g)
  (RelColumns g) (Version g) (Atoms g) e (AtomIndex g).
Definition set_AtomIndex g i := mkGraphSection (NNodes g) (NRels g) (OutOffsets g) (OutNbrs g)
  (OutTypes g) (InOffsets g) (InNbrs g) (InTypes g) (LabelIndex g) (TypeIndex g) (NodeColumns g)
  (RelColumns g) (Version g) (Atoms g) (Existence g) i.

Definition decodeMeta (body : list byte) g : res (GraphSection bm) :=
  '(v, _) ← decodeMetaM (cursor.newCursor body);
  Ok (match v with Some v => set_Version g (Some v) | None => g end).

(** ** Bitmap indexes *)

Context `{Roaring bm}.

Fixpoint encodeBitmapLoop (buf : list byte) (index : list (BitmapEntry bm)) : res (list byte) :=
  match index with
  | [] => Ok buf
  | e :: rest =>
      let buf := wU32 buf (Atom e) in
      buf ← wLenPrefix buf (to_i64 (bmSize (Bitmap e)));
      encodeBitmapLoop (buf ++ bmWriteTo (Bitmap e)) rest
  end.

Definition encodeBitmapIndex (buf : list byte) (index : list (BitmapEntry bm)) : res (list byte) :=
  buf ← wLenPrefix buf (len index); encodeBitmapLoop buf index.

Definition decodeBitmapEntry : cursor.M (BitmapEntry bm) :=
  atom ← cursor.u32; n ← cursor.lenPrefix 1; raw ← cursor.take n;
  match bmReadFrom raw with
  | Some b => mret (mkBitmapEntry atom b)
  | None => cursor.fail "invalid roaring bitmap: %v" []
  end.

Definition decodeBitmapIndex : cursor.M (list (BitmapEntry bm)) :=
  count ← cursor.lenPrefix 8; cursor.times (Z.to_nat count) decodeBitmapEntry.

(** ** Nodes (section 3) *)

Definition encodeNodes g : res (list byte) := encodeBitmapIndex (wU32 [] (NNodes g)) (LabelIndex g).

Definition decodeNodesM : cursor.M (Z * list (BitmapEntry bm)) :=
  n ← cursor.u32; li ← decodeBitmapIndex; mret (n, li).

Definition decodeNodes (body : list byte) g : res (GraphSection bm) :=
  '((n, li), _) ← decodeNodesM (cursor.newCursor body); Ok (set_nodes g n li).

(** ** Relationships (section 4) *)

Definition encodeRels g : res (list byte) :=
  let buf := wU64 [] (NRels g) in
  buf ← wU32Vec buf (OutOffsets g);
  buf ← wU32Vec buf (OutNbrs g);
  buf ← wU32Vec buf (OutTypes g);
  buf ← wU32Vec buf (InOffsets g);
  buf ← wU32Vec buf (InNbrs g);
  buf ← wU32Vec buf (InTypes g);
  encodeBitmapIndex buf (TypeIndex g).

Definition decodeRelsM g : cursor.M (GraphSection bm) :=
  n ← cursor.u64;
  oo ← cursor.u32Vec; on ← cursor.u32Vec; ot ← cursor.u32Vec;
  io ← cursor.u32Vec; i_n ← cursor.u32Vec; it ← cursor.u32Vec;
  ti ← decodeBitmapIndex;
  mret (set_rels g n oo on ot io i_n it ti).

Definition decodeRels (body : list byte) g : res (GraphSection bm) :=
  '(g', _) ← decodeRelsM g (cursor.newCursor body); Ok g'.

(** ** Existence (section 8) *)

Definition encodeExistence (b : bm) : res (list byte) := Ok (bmWriteTo b).

Definition decodeExistence (body : list byte) : res bm :=
  match bmReadFrom body with
  | Some b => Ok b
  | None => corruptf "invalid existence bitmap: %v" []
  end.

End updates.

(** ** Well-formed content: what the format can represent *)

Definition wf_string (s : gostring) : Prop := len s < 4294967296 ∧ utf8Valid s = true.

Definition wf_vec (v : list Z) : Prop := len v < 4294967296 ∧ Forall (λ x, is_u32 x) v.

Definition wf_bitmaps {bm} `{Roaring bm} (index : list (BitmapEntry bm)) : Prop :=
  len index < 4294967296 ∧
  Forall (λ e, is_u32 (Atom e) ∧ len (bmWriteTo (Bitmap e)) < 4294967296) index.

Definition wf_atoms (atoms : list gostring) : Prop :=
  len atoms < 4294967296 ∧ Forall wf_string atoms.

(** The bytes of each section. *)
Definition stringBytes (s : gostring) : list byte := le_split 4 (len s) ++ s.
Definition vecBytes (v : list Z) : list byte := le_split 4 (len v) ++ concat (le_split 4 <$> v).
Definition atomsBytes (atoms : list gostring) : list byte :=
  le_split 4 (len atoms) ++ concat (stringBytes <$> atoms).
Definition bitmapBytes {bm} `{Roaring bm} (e : BitmapEntry bm) : list byte :=
  le_split 4 (Atom e) ++ le_split 4 (len (bmWriteTo (Bitmap e))) ++ bmWriteTo (Bitmap e).
Definition bitmapsBytes {bm} `{Roaring bm} (index : list (BitmapEntry bm)) : list byte :=
  le_split 4 (len index) ++ concat (bitmapBytes <$> index).
Definition metaBytes {bm} (g : GraphSection bm) : list byte :=
  match Version g with Some v => le_split 1 1 ++ stringBytes v | None => le_split 1 0 end.

(** ** Atoms round trip *)

Lemma encodeAtomLoop_Ok buf atoms : Forall wf_string atoms →
  encodeAtomLoop buf atoms = Ok (buf ++ concat (stringBytes <$> atoms)).
Proof.
  intros H. revert buf. induction H as [|s atoms [Hs _] _ IH]; intros buf; simpl.
  { by rewrite app_nil_r. }
  rewrite wString_Ok by done. simpl. rewrite IH. by rewrite <- !(assoc_L (++)).
Qed.

Lemma encodeAtoms_Ok atoms : wf_atoms atoms → encodeAtoms atoms = Ok (atomsBytes atoms).
Proof.
  intros [Hl Hs]. unfold encodeAtoms. rewrite wLenPrefix_Ok by lens. simpl.
  by rewrite encodeAtomLoop_Ok.
Qed.

(** The shared-backing decoder reads an atom exactly as [str] does. *)
Lemma decodeAtom_str base c : cwf c → 0 ≤ base ≤ cursor.pos c →
  decodeAtom base (drop (Z.to_nat base) (cursor.b c)) c = cursor.str c.
Proof.
  intros Hc Hb. unfold decodeAtom, cursor.str, mbind, cursor.M_bind.
  destruct (cursor.lenPrefix 1 c) as [[n c1]|e|] eqn:E; [|done..]. simpl.
  destruct (spec_Ok _ _ _ _ _ (spec_lenPrefix 1) Hc E) as (Hc1 & Eb & Hp & Hn).
  unfold cursor.take, cursor.remaining, cwf in *. case_decide; [done|].
  destruct (slice (cursor.b c1) _ _) as [s|e|] eqn:Es; [|done..]. simpl.
  destruct (utf8Valid s); [|done]. unfold cursor.lift.
  replace (cursor.pos c1 + n - n - base) with (cursor.pos c1 - base) by lia.
  rewrite <- Eb, slice_drop, Es by lia. done.
Qed.

Lemma decodeAtomsM_times c : cwf c →
  decodeAtomsM c = (count ← cursor.lenPrefix 1; cursor.times (Z.to_nat count) cursor.str) c.
Proof.
  intros Hc. unfold decodeAtomsM, mbind, cursor.M_bind.
  destruct (cursor.lenPrefix 1 c) as [[n c1]|e|] eqn:E; [|done..]. simpl.
  destruct (spec_Ok _ _ _ _ _ (spec_lenPrefix 1) Hc E) as (Hc1 & Eb & Hp & Hn).
  unfold cwf in Hc1. unfold cursor.lift. rewrite slice_ok by lia. simpl.
  rewrite take_ge by (rewrite length_drop; unfold len; lia).
  apply (times_ext (λ c', cwf c' ∧ cursor.b c' = cursor.b c1 ∧ cursor.pos c1 ≤ cursor.pos c')).
  - intros c' (Hc' & <- & Hp'). apply decodeAtom_str; [done|lia].
  - intros c' s c2 (Hc' & <- & Hp') E2.
    destruct (spec_Ok _ _ _ _ _ spec_str Hc' E2) as (? & -> & ? & _). split_and!; [done..|lia].
  - split_and!; [done..|lia].
Qed.

Lemma newCursor_cwf s : cwf (cursor.newCursor s).
Proof. unfold cwf. simpl. pose proof (len_nonneg s). lia. Qed.

Lemma decodeAtoms_encoded atoms post : wf_atoms atoms →
  decodeAtoms (atomsBytes atoms ++ post) = Ok atoms.
Proof.
  intros [Hl Hs]. unfold decodeAtoms. rewrite decodeAtomsM_times by apply newCursor_cwf.
  assert (reads (count ← cursor.lenPrefix 1; cursor.times (Z.to_nat count) cursor.str)
    (atomsBytes atoms) atoms) as H.
  { apply reads_lenPrefix; [lens|done|..].
    - apply len_concat_ge. intros s. unfold stringBytes. lens.
    - rewrite to_nat_len. eapply reads_times; [|exact Hs]. intros s [? ?]. by apply reads_str. }
  by rewrite (reads_run _ _ _ post H).
Qed.

Lemma decodeAtoms_safe body : safe (decodeAtoms body).
Proof.
  apply safe_bind; [|by intros []]. rewrite decodeAtomsM_times by apply newCursor_cwf.
  eapply (spec_safe _ (λ _, True)). eapply spec_bind; [apply spec_lenPrefix|]. intros n _.
  eapply spec_weaken; [done|]. apply spec_times, spec_str.
Qed.

(** ** Meta, bitmap indexes, nodes, relationships, existence *)

Lemma encodeMeta_Ok {bm} (g : GraphSection bm) :
  (∀ v, Version g = Some v → wf_string v) → encodeMeta g = Ok (metaBytes g).
Proof.
  intros H. unfold encodeMeta, metaBytes. destruct (Version g) as [v|]; [|done].
  destruct (H v eq_refl). by rewrite wString_Ok.
Qed.

Lemma decodeMeta_encoded {bm} (g g0 : GraphSection bm) post :
  (∀ v, Version g = Some v → wf_string v) → Version g0 = None →
  decodeMeta (metaBytes g ++ post) g0 = Ok (set_Version g0 (Version g)).
Proof.
  intros H H0. unfold decodeMeta.
  assert (reads decodeMetaM (metaBytes g) (Version g)) as R.
  { unfold decodeMetaM, metaBytes. destruct (Version g) as [v|].
    - destruct (H v eq_refl). eapply reads_bind; [by apply reads_u8|]. simpl.
      eapply reads_map; [by apply reads_str|apply reads_ret].
    - eapply reads_map; [by apply reads_u8|apply reads_ret]. }
  rewrite (reads_run _ _ _ post R). simpl. destruct (Version g); [done|].
  destruct g0; simpl in *. by subst.
Qed.

Lemma decodeMeta_safe {bm} body (g : GraphSection bm) : safe (decodeMeta body g).
Proof.
  apply safe_bind; [|by intros []]. eapply (spec_safe _ (λ _, True)).
  eapply spec_bind; [apply spec_u8|]. intros p _. case_decide; [|by apply spec_ret].
  eapply spec_map, spec_str.
Qed.

Section bitmaps.
Context {bm : Type} `{HR : Roaring bm}.

Lemma spec_decodeBitmapIndex : spec (decodeBitmapIndex (bm:=bm)) (λ _, True).
Proof.
  eapply spec_bind; [apply spec_lenPrefix|]. intros n _.
  eapply spec_weaken; [done|]. apply (spec_times _ _ (λ _, True)).
  eapply spec_bind; [apply spec_u32|]. intros a _.
  eapply spec_bind; [apply spec_lenPrefix|]. intros k _.
  eapply spec_bind; [apply spec_take|]. intros raw _.
  destruct (bmReadFrom raw); [by apply spec_ret|apply spec_fail].
Qed.

Lemma decodeNodes_safe body (g : GraphSection bm) : safe (decodeNodes body g).
Proof.
  apply safe_bind; [|by intros [[]]]. eapply (spec_safe _ (λ _, True)).
  eapply spec_bind; [apply spec_u32|]. intros n _. eapply spec_map, spec_decodeBitmapIndex.
Qed.

Lemma decodeRels_safe body (g : GraphSection bm) : safe (decodeRels body g).
Proof.
  apply safe_bind; [|by intros []]. eapply (spec_safe _ (λ _, True)).
  eapply spec_bind; [apply spec_u64|]. intros n _.
  do 6 (eapply spec_bind; [apply spec_u32Vec|]; intros ? _).
  eapply spec_map, spec_decodeBitmapIndex.
Qed.

Lemma decodeExistence_safe body : safe (decodeExistence (bm:=bm) body).
Proof. unfold decodeExistence. by destruct (bmReadFrom body). Qed.

Context {HL : RoaringLaws bm}.

Lemma encodeBitmapLoop_Ok buf (index : list (BitmapEntry bm)) :
  Forall (λ e, is_u32 (Atom e) ∧ len (bmWriteTo (Bitmap e)) < 4294967296) index →
  encodeBitmapLoop buf index = Ok (buf ++ concat (bitmapBytes <$> index)).
Proof using HL.
  intros H. revert buf. induction H as [|e index [Ha Hb] _ IH]; intros buf; simpl.
  { by rewrite app_nil_r. }
  pose proof (len_nonneg (bmWriteTo (Bitmap e))).
  rewrite bm_size, (wrapS_small 64), wLenPrefix_Ok by lia. simpl.
  rewrite IH. unfold wU32, bitmapBytes. by rewrite <- !(assoc_L (++)).
Qed.

Lemma encodeBitmapIndex_Ok buf (index : list (BitmapEntry bm)) : wf_bitmaps index →
  encodeBitmapIndex buf index = Ok (buf ++ bitmapsBytes index).
Proof using HL.
  intros [Hl H]. unfold encodeBitmapIndex. rewrite wLenPrefix_Ok by lens. simpl.
  rewrite encodeBitmapLoop_Ok by done. unfold bitmapsBytes. by rewrite <- !(assoc_L (++)).
Qed.

Lemma reads_decodeBitmapIndex (index : list (BitmapEntry bm)) : wf_bitmaps index →
  reads decodeBitmapIndex (bitmapsBytes index) index.
Proof using HL.
  intros [Hl H]. apply reads_lenPrefix; [lens|done|..].
  - apply len_concat_ge. intros e. unfold bitmapBytes.
    pose proof (len_nonneg (bmWriteTo (Bitmap e))). lens.
  - rewrite to_nat_len. eapply reads_times; [|exact H]. intros e [Ha Hb].
    eapply reads_bind; [by apply reads_u32|].
    pose proof (len_nonneg (bmWriteTo (Bitmap e))).
    apply reads_lenPrefix; [lia..|].
    eapply reads_map; [by apply reads_take|]. rewrite bm_read_write.
    destruct e. apply reads_ret.
Qed.

Definition nodesBytes (g : GraphSection bm) : list byte :=
  le_split 4 (NNodes g) ++ bitmapsBytes (LabelIndex g).
Definition relsBytes (g : GraphSection bm) : list byte :=
  le_split 8 (NRels g) ++ vecBytes (OutOffsets g) ++ vecBytes (OutNbrs g) ++
  vecBytes (OutTypes g) ++ vecBytes (InOffsets g) ++ vecBytes (InNbrs g) ++
  vecBytes (InTypes g) ++ bitmapsBytes (TypeIndex g).

Lemma encodeNodes_Ok (g : GraphSection bm) : wf_bitmaps (LabelIndex g) →
  encodeNodes g = Ok (nodesBytes g).
Proof using HL. intros H. unfold encodeNodes. by rewrite encodeBitmapIndex_Ok. Qed.

Lemma decodeNodes_encoded (g g0 : GraphSection bm) post :
  is_u32 (NNodes g) → wf_bitmaps (LabelIndex g) →
  decodeNodes (nodesBytes g ++ post) g0 = Ok (set_nodes g0 (NNodes g) (LabelIndex g)).
Proof using HL.
  intros Hn Hi. unfold decodeNodes.
  assert (reads decodeNodesM (nodesBytes g) (NNodes g, LabelIndex g)) as R.
  { eapply reads_bind; [by apply reads_u32|].
    eapply reads_map; [by apply reads_decodeBitmapIndex|apply reads_ret]. }
  by rewrite (reads_run _ _ _ post R).
Qed.

Definition wf_rels (g : GraphSection bm) : Prop :=
  is_u64 (NRels g) ∧ wf_vec (OutOffsets g) ∧ wf_vec (OutNbrs g) ∧ wf_vec (OutTypes g) ∧
  wf_vec (InOffsets g) ∧ wf_vec (InNbrs g) ∧ wf_vec (InTypes g) ∧ wf_bitmaps (TypeIndex g).

Lemma encodeRels_Ok (g : GraphSection bm) : wf_rels g → encodeRels g = Ok (relsBytes g).
Proof using HL.
  intros (_ & [] & [] & [] & [] & [] & [] & Hi). unfold encodeRels.
  do 6 (rewrite wU32Vec_Ok by done; simpl). rewrite encodeBitmapIndex_Ok by done.
  unfold relsBytes, vecBytes, wU64. by rewrite <- !(assoc_L (++)).
Qed.

Lemma decodeRels_encoded (g g0 : GraphSection bm) post : wf_rels g →
  decodeRels (relsBytes g ++ post) g0 =
    Ok (set_rels g0 (NRels g) (OutOffsets g) (OutNbrs g) (OutTypes g)
          (InOffsets g) (InNbrs g) (InTypes g) (TypeIndex g)).
Proof using HL.
  intros (Hn & [] & [] & [] & [] & [] & [] & Hi). unfold decodeRels.
  erewrite (reads_run (decodeRelsM g0) (relsBytes g)); [done|].
  eapply reads_bind; [by apply reads_u64|].
  do 6 (eapply reads_bind; [by apply reads_u32Vec|]).
  eapply reads_map; [by apply reads_decodeBitmapIndex|apply reads_ret].
Qed.

End bitmaps.

(** ** The atom block index *)

(** Strictly ascending, and above [prev] when there is one. *)
Fixpoint ascends (prev : option Z) (l : list Z) : Prop :=
  match l with
  | [] => True
  | o :: l' => match prev with Some p => p < o | None => True end ∧ ascends (Some o) l'
  end.

Lemma ceil_step bl i : 0 < bl → 0 ≤ i →
  (i + 1 + bl - 1) / bl = (i + bl - 1) / bl + (if decide (i `mod` bl = 0) then 1 else 0).
Proof.
  intros Hb Hi. pose proof (Z.div_mod i bl ltac:(lia)) as E.
  pose proof (Z.mod_pos_bound i bl Hb) as Hm.
  set (q := i / bl) in *. set (m := i `mod` bl) in *.
  replace (i + 1 + bl - 1) with (m + (q + 1) * bl) by lia.
  rewrite Z.div_add, (Z.div_small m) by lia. case_decide as D.
  - replace (i + bl - 1) with (bl - 1 + q * bl) by lia.
    rewrite Z.div_add, Z.div_small by lia. lia.
  - replace (i + bl - 1) with (m - 1 + (q + 1) * bl) by lia.
    rewrite Z.div_add, Z.div_small by lia. lia.
Qed.

Lemma len_atomOffsets bl i r atoms : 0 < bl → 0 ≤ i →
  len (atomOffsets bl i r atoms) = (i + len atoms + bl - 1) / bl - (i + bl - 1) / bl.
Proof.
  intros Hb. revert i r. induction atoms as [|s atoms IH]; intros i r Hi; simpl.
  { rewrite !len_nil, Z.add_0_r, Z.sub_diag. done. }
  rewrite len_app, IH by lia. pose proof (ceil_step bl i Hb Hi) as E.
  rewrite len_cons. replace (i + (len atoms + 1) + bl - 1) with (i + 1 + len atoms + bl - 1) by lia.
  rewrite E. case_decide; rewrite ?len_cons, ?len_nil; lia.
Qed.

Lemma len_atomOffsets_0 bl atoms : 0 < bl →
  len (atomOffsets bl 0 4 atoms) = (len atoms + bl - 1) / bl.
Proof.
  intros Hb. rewrite len_atomOffsets by lia. rewrite !Z.add_0_l.
  rewrite (Z.div_small (bl - 1)) by lia. lia.
Qed.

(** Validation accepts exactly the offsets the writer would emit. *)
Lemma validateAtomLoop_iff index i pre post r atoms :
  Offsets index = pre ++ post → len post = len (atomOffsets (BlockLen index) i r atoms) →
  validateAtomLoop index i (len pre) r atoms = Ok () ↔
    post = atomOffsets (BlockLen index) i r atoms.
Proof.
  revert i pre post r. induction atoms as [|s atoms IH]; intros i pre post r E Hl; simpl in *.
  { split; [|done]. destruct post; [done|]. lens. }
  case_decide; simpl in *.
  - destruct post as [|o post]; [rewrite len_nil, len_cons in Hl; lens|].
    rewrite E, idx_app_mid. simpl. case_decide; [split; [done|congruence]|].
    replace (len pre + 1) with (len (pre ++ [o])) by (rewrite len_app, len_cons; done).
    rewrite (IH _ _ post); [split; congruence|by rewrite E, <- (assoc_L (++))|].
    rewrite !len_cons in Hl. lia.
  - apply IH; [done|]. lia.
Qed.

Lemma validateAtomLoop_safe index i block r atoms :
  0 ≤ block → len (atomOffsets (BlockLen index) i r atoms) + block ≤ len (Offsets index) →
  safe (validateAtomLoop index i block r atoms).
Proof.
  revert i block r. induction atoms as [|s atoms IH]; intros i block r Hb Hl; simpl in *; [done|].
  rewrite len_app in Hl. case_decide; [|apply IH; rewrite ?len_nil in Hl; lia].
  rewrite len_cons, len_nil in Hl.
  pose proof (len_nonneg (atomOffsets (BlockLen index) (i + 1) (to_u64 (r + 4 + len s)) atoms)).
  destruct (idx_ok (Offsets index) block) as (o & -> & _); [lia|]. simpl.
  case_decide; [done|]. apply IH; lia.
Qed.

Lemma validateAtomIndex_safe index atoms : 0 ≤ BlockLen index → safe (validateAtomIndex index atoms).
Proof.
  intros Hb. unfold validateAtomIndex. case_decide; [done|]. case_decide as D; [done|].
  apply validateAtomLoop_safe; [lia|]. rewrite len_atomOffsets_0 by lia.
  destruct (decide (len (Offsets index) = (len atoms + BlockLen index - 1) / BlockLen index)); [lia|].
  done.
Qed.

Lemma validateAtomIndex_iff index atoms : 0 ≤ BlockLen index →
  validateAtomIndex index atoms = Ok () ↔
    BlockLen index ≠ 0 ∧ Offsets index = atomOffsets (BlockLen index) 0 4 atoms.
Proof.
  intros Hb. unfold validateAtomIndex. case_decide as D; [naive_solver|].
  pose proof (len_atomOffsets_0 (BlockLen index) atoms ltac:(lia)) as L.
  case_decide as D2.
  - split; [done|]. intros [_ E]. congruence.
  - change 0 with (@len Z []) at 2.
    rewrite (validateAtomLoop_iff index 0 [] (Offsets index) 4 atoms); [naive_solver|done|].
    destruct (decide (len (Offsets index) = (len atoms + BlockLen index - 1) / BlockLen index));
      [congruence|done].
Qed.

(** Offsets of a table that fits 64 bits strictly ascend. *)
Lemma atomOffsets_bounds bl i r atoms :
  0 ≤ r → r + len (concat (stringBytes <$> atoms)) < 18446744073709551616 →
  ascends None (atomOffsets bl i r atoms) ∧
  Forall (λ o, r ≤ o < 18446744073709551616) (atomOffsets bl i r atoms).
Proof.
  revert i r. induction atoms as [|s atoms IH]; intros i r Hr Hlen; simpl; [done|].
  rewrite fmap_cons in Hlen. cbn [concat] in Hlen. unfold stringBytes at 1 in Hlen.
  rewrite !len_app, len_le_split in Hlen.
  pose proof (len_nonneg s). pose proof (len_nonneg (concat (stringBytes <$> atoms))).
  rewrite (wrapU_small 64) by lia.
  destruct (IH (i + 1) (r + 4 + len s)) as [Ha HF]; [lia..|].
  assert (∀ o, r ≤ o → o < r + 4 → ascends (Some o) (atomOffsets bl (i + 1) (r + 4 + len s) atoms)) as Hs.
  { intros o _ Ho. destruct (atomOffsets _ _ _ _) as [|o' l]; [done|].
    inversion HF; subst. simpl in *. split; [lia|tauto]. }
  case_decide; simpl.
  - split; [split; [done|apply Hs; lia]|]. constructor; [lia|].
    eapply Forall_impl; [exact HF|]. simpl. lia.
  - split; [done|]. eapply Forall_impl; [exact HF|]. simpl. lia.
Qed.

Lemma reads_decodeOffsets prev l :
  ascends prev l → Forall (λ o, is_u64 o) l →
  reads (decodeOffsets (length l) prev) (concat (le_split 8 <$> l)) l.
Proof.
  revert prev. induction l as [|o l IH]; intros prev Ha HF; simpl; [apply reads_ret|].
  destruct Ha as [Hp Ha]. inversion HF; subst.
  eapply reads_bind; [by apply reads_u64|].
  assert (match prev with Some p => bool_decide (o ≤ p) | None => false end = false) as ->.
  { destruct prev; [|done]. apply bool_decide_eq_false_2. lia. }
  eapply reads_map; [by apply IH|apply reads_ret].
Qed.

Definition atomIndexOf (bl : Z) (atoms : list gostring) : AtomBlockIndex :=
  mkAtomBlockIndex bl (atomOffsets bl 0 4 atoms).

Lemma encodeAtomIndex_Ok bl atoms : 0 < bl < 4294967296 → len atoms < 4294967296 →
  encodeAtomIndex atoms bl = Ok (le_split 4 bl ++ le_split 4 0 ++
    le_split 4 (len (atomOffsets bl 0 4 atoms)) ++
    concat (le_split 8 <$> atomOffsets bl 0 4 atoms)).
Proof.
  intros Hb Hl. unfold encodeAtomIndex. rewrite decide_False by lia.
  rewrite (foldl_app_concat _ (le_split 8)) by done.
  rewrite len_atomOffsets_0 by lia. unfold wU32.
  rewrite (wrapU_small 32).
  - by rewrite <- !(assoc_L (++)).
  - pose proof (len_nonneg atoms). split; [apply Z.div_pos; lia|].
    apply Z.div_lt_upper_bound; nia.
Qed.

Lemma decodeAtomIndex_encoded bl atoms post :
  0 < bl < 4294967296 → len atoms < 4294967296 →
  len (atomsBytes atoms) < 18446744073709551616 →
  decodeAtomIndex ((le_split 4 bl ++ le_split 4 0 ++
    le_split 4 (len (atomOffsets bl 0 4 atoms)) ++
    concat (le_split 8 <$> atomOffsets bl 0 4 atoms)) ++ post) = Ok (atomIndexOf bl atoms).
Proof.
  intros Hb Hl Hsz. unfold atomsBytes in Hsz. rewrite len_app, len_le_split in Hsz.
  destruct (atomOffsets_bounds bl 0 4 atoms) as [Ha HF]; [lia..|].
  unfold decodeAtomIndex. erewrite (reads_run decodeAtomIndexM); [done|].
  eapply reads_bind; [apply reads_u32; lia|].
  eapply reads_bind; [by apply reads_u32|].
  apply reads_lenPrefix; [|done|..].
  - rewrite len_atomOffsets_0 by lia. pose proof (len_nonneg atoms).
    split; [apply Z.div_pos; lia|]. apply Z.div_lt_upper_bound; nia.
  - rewrite (len_concat_chunks _ 8); [lia|]. intros. apply len_le_split.
  - rewrite to_nat_len. eapply reads_map; [apply reads_decodeOffsets; [done|]|apply reads_ret].
    eapply Forall_impl; [exact HF|]. simpl. lia.
Qed.

Lemma spec_decodeOffsets n prev : spec (decodeOffsets n prev) (λ l, ascends prev l).
Proof.
  revert prev. induction n as [|n IH]; intros prev; simpl; [by apply spec_ret|].
  eapply spec_bind; [apply spec_u64|]. intros off _.
  destruct prev as [p|]; simpl.
  - case_bool_decide; [apply spec_fail|]. eapply spec_bind; [apply IH|].
    intros l Hl. apply spec_ret. simpl. split; [lia|done].
  - eapply spec_bind; [apply IH|]. intros l Hl. by apply spec_ret.
Qed.

Lemma spec_decodeAtomIndexM :
  spec decodeAtomIndexM (λ i, is_u32 (BlockLen i) ∧ ascends None (Offsets i)).
Proof.
  eapply spec_bind; [apply spec_u32|]. intros bl Hbl.
  eapply spec_bind; [apply spec_u32|]. intros _ _.
  eapply spec_bind; [apply spec_lenPrefix|]. intros n _.
  eapply spec_bind; [apply spec_decodeOffsets|]. intros l Hl. by apply spec_ret.
Qed.

Lemma decodeAtomIndex_safe body : safe (decodeAtomIndex body).
Proof. apply safe_bind; [|by intros []]. eapply spec_safe, spec_decodeAtomIndexM. Qed.

Lemma decodeAtomIndex_wf body i : decodeAtomIndex body = Ok i →
  is_u32 (BlockLen i) ∧ ascends None (Offsets i).
Proof.
  unfold decodeAtomIndex. intros H. res_inv. destruct v as [i' c']. res_inv.
  by destruct (spec_Ok _ _ _ _ _ spec_decodeAtomIndexM (newCursor_cwf body) E) as (_ & _ & _ & ?).
Qed.

(** ** Adjacency reads never panic *)

Lemma neighbors_safe offsets nbrs node :
  Forall (λ x, is_u32 x) offsets → 0 ≤ node → safe (neighbors offsets nbrs node).
Proof.
  intros HF Hn. unfold neighbors. case_decide; [done|].
  destruct (idx_ok offsets node) as (s & -> & Hs); [lia|].
  destruct (idx_ok offsets (node + 1)) as (e & -> & He); [lia|]. simpl.
  case_decide; [done|]. pose proof (Forall_lookup_1 _ _ _ _ HF Hs). simpl in *.
  by rewrite slice_ok by lia.
Qed.

(** ** Properties *)

(** The section-7 check accepts exactly the true index: an atom block
    index passes iff its block length is non-zero and its offsets are, entry
    by entry, where the blocks of the decoded table start. *)
Theorem validateAtomIndex_exact (index : AtomBlockIndex) (atoms : list gostring) :
  0 ≤ BlockLen index →
  validateAtomIndex index atoms = Ok () ↔
    BlockLen index ≠ 0 ∧ Offsets index = atomOffsets (BlockLen index) 0 4 atoms.
Proof. apply validateAtomIndex_iff. Qed.

Definition atomA : gostring := [Byte.x61].
Definition atomEmpty : gostring := [].
Definition atomEacute : gostring := [Byte.xc3; Byte.xa9].

Lemma validateAtomIndex_exact_witness :
  validateAtomIndex (mkAtomBlockIndex 2 [4; 13]) [atomA; atomEmpty; atomEacute] = Ok () ∧
  validateAtomIndex (mkAtomBlockIndex 2 [4; 14]) [atomA; atomEmpty; atomEacute] ≠ Ok ().
Proof.
  split.
  - by apply (validateAtomIndex_exact (mkAtomBlockIndex 2 [4; 13])).
  - intros E. by apply (validateAtomIndex_exact (mkAtomBlockIndex 2 [4; 14])) in E as [_ E].
Defined.

(** The atom decoder that shares one backing string for all atoms computes
    the same table, and fails with the same error, as decoding one
    length-prefixed string after the other. *)
Theorem decodeAtoms_shared_blob (body : list byte) :
  decodeAtoms body =
    ('(atoms, _) ← (count ← cursor.lenPrefix 1; cursor.times (Z.to_nat count) cursor.str)
       (cursor.newCursor body); Ok atoms).
Proof. unfold decodeAtoms. by rewrite decodeAtomsM_times by apply newCursor_cwf. Qed.

(** Reading the neighbors of any node id of any graph whose offsets are
    32-bit words never panics: out-of-range ids and descending or overlong
    offset pairs yield no neighbors. *)
Theorem neighbors_never_panic {bm} (g : GraphSection bm) (node : Z) :
  Forall (λ x, is_u32 x) (OutOffsets g) → Forall (λ x, is_u32 x) (InOffsets g) → 0 ≤ node →
  safe (OutNeighbors g node) ∧ safe (InNeighbors g node).
Proof. intros. split; by apply neighbors_safe. Qed.

(** The least bitmap with the documented behaviour: one that is its own
    serialization. *)
Definition rawBitmap := list byte.
#[export] Instance rawRoaring : Roaring rawBitmap :=
  {| bmWriteTo b := b; bmReadFrom b := Some b; bmSize b := len b |}.
#[export] Instance rawRoaringLaws : RoaringLaws rawBitmap.
Proof. by split. Qed.

(** A small graph: two nodes, one relationship from 0 to 1. *)
Definition demoGraph : GraphSection rawBitmap := mkGraphSection 2 1
  [0; 1; 1] [1] [2] [0; 0; 1] [0] [2]
  [mkBitmapEntry 1 [Byte.x3a; Byte.x30]] [mkBitmapEntry 2 [Byte.x3b]]
  [mkColumn 1 (DenseI64 [5; -5])] [] (Some atomA) [atomEmpty; atomA; atomEacute]
  (Some [Byte.x3a]) None.

Lemma neighbors_never_panic_witness :
  safe (OutNeighbors demoGraph 4294967295) ∧ safe (InNeighbors demoGraph 4294967295).
Proof. apply (neighbors_never_panic demoGraph 4294967295); by repeat constructor. Defined.
