(* ===== verification/RcpgDirectory.v ===== *)
(** The RCPG header and section directory: the front matter of
    [src/rcpg/lazy.go] and the section constants of [src/rcpg/rcpg.go].

    [SectionCount] and [ParseDirectory] read the header and the directory;
    [PlanSections] and [LoadPrefixLen] plan which byte ranges a load needs.
    The theorems: the directory a writer lays out reads back entry by entry,
    reading it never panics, and the planned prefix covers every wanted
    section. *)

From S2P Require Import Prelude RcpgCursor RcpgColumn RcpgSection.

(** ** Constants and options *)

(** ["RCPG"] *)
Definition Magic : list byte := [Byte.x52; Byte.x43; Byte.x50; Byte.x47].
Definition FormatVersion : Z := 1.

Definition sectionAtoms := 1.
Definition sectionMeta := 2.
Definition sectionNodes := 3.
Definition sectionRels := 4.
Definition sectionNodeCols := 5.
Definition sectionRelCols := 6.
Definition sectionAtomIndex := 7.
Definition sectionExistence := 8.

Definition atomIndexBlockLen := 1024.
Definition headerLen := 16.
Definition dirEntryLen := 24.

Record ParseOptions := mkParseOptions {
  poNodeColumns : bool; poRelColumns : bool; SkipAtoms : bool }.

Definition DefaultParseOptions := mkParseOptions true true false.
Definition TopologyOnlyParseOptions := mkParseOptions false false false.
Definition SkeletonParseOptions := mkParseOptions false false true.

Definition sectionWanted (id : Z) (opts : ParseOptions) : bool :=
  if decide (id = sectionAtoms) then negb (SkipAtoms opts)
  else if decide (id = sectionMeta ∨ id = sectionNodes ∨ id = sectionRels ∨ id = sectionAtomIndex)
  then true
  else if decide (id = sectionNodeCols) then poNodeColumns opts
  else if decide (id = sectionRelCols) then poRelColumns opts
  else false.

(** ** The directory *)

Record DirEntry := mkDirEntry { eID : Z; Offset : Z; Length : Z }.
Record ByteRange := mkByteRange { Start : Z; End_ : Z }.

#[export] Instance DirEntry_eq_dec : EqDecision DirEntry.
Proof. solve_decision. Defined.
#[export] Instance ByteRange_eq_dec : EqDecision ByteRange.
Proof. solve_decision. Defined.

(** [headerLen + uint64(sectionCount)*dirEntryLen] *)
Definition FrontMatterLen (sectionCount : Z) : Z :=
  to_u64 (headerLen + to_u64 (sectionCount * dirEntryLen)).

Definition SectionCountM : cursor.M Z :=
  magic ← cursor.take 4;
  if decide (magic ≠ Magic) then cursor.fail "bad magic, not an RCPG file" []
  else
    version ← cursor.u16;
    if decide (version ≠ FormatVersion)
    then cursor.lift (unsupportedVersionf "RCPG" version)
    else
      _ ← cursor.u16;
      count ← cursor.u32;
      if decide (1024 < count) then cursor.fail "implausible section count %d" [count]
      else mret count.

Definition SectionCount (header : list byte) : res Z :=
  '(n, _) ← SectionCountM (cursor.newCursor header); Ok n.

Definition decodeDirEntry : cursor.M DirEntry :=
  id ← cursor.u32; _ ← cursor.u32; offset ← cursor.u64; length ← cursor.u64;
  mret (mkDirEntry id offset length).

Definition ParseDirectory (front : list byte) : res (list DirEntry) :=
  count ← SectionCount front;
  '(entries, _) ← (_ ← cursor.take headerLen; cursor.times (Z.to_nat count) decodeDirEntry)
                    (cursor.newCursor front);
  Ok entries.

Definition PlanSections (d : list DirEntry) (opts : ParseOptions) : list ByteRange :=
  (λ e, mkByteRange (Offset e) (to_u64 (Offset e + Length e))) <$>
    filter (λ e, sectionWanted (eID e) opts = true) d.

(** The loop's state is [max] and [found]. *)
Definition loadPrefixStep (opts : ParseOptions) (st : Z * bool) (e : DirEntry) : Z * bool :=
  if sectionWanted (eID e) opts then
    let end_ := to_u64 (Offset e + Length e) in
    (if decide (st.1 < end_) then end_ else st.1, true)
  else st.

Definition LoadPrefixLen (d : list DirEntry) (opts : ParseOptions) : Z :=
  let st := foldl (loadPrefixStep opts) (0, false) d in
  if st.2 then st.1 else FrontMatterLen (to_u32 (len d)).

(** ** Reading back a directory *)

Definition headerBytes (n : Z) : list byte :=
  Magic ++ le_split 2 FormatVersion ++ le_split 2 0 ++ le_split 4 n ++ le_split 4 0.

Definition dirEntryBytes (e : DirEntry) : list byte :=
  le_split 4 (eID e) ++ le_split 4 0 ++ le_split 8 (Offset e) ++ le_split 8 (Length e).

Definition wf_entry_dir (e : DirEntry) : Prop :=
  is_u32 (eID e) ∧ is_u64 (Offset e) ∧ is_u64 (Length e).

Lemma len_headerBytes n : len (headerBytes n) = 16.
Proof. done. Qed.

Lemma len_dirEntryBytes e : len (dirEntryBytes e) = 24.
Proof. done. Qed.

Lemma SectionCount_header n post : 0 ≤ n ≤ 1024 →
  SectionCount (headerBytes n ++ post) = Ok n.
Proof.
  intros Hn. unfold SectionCount, headerBytes.
  assert (reads SectionCountM
    (Magic ++ le_split 2 FormatVersion ++ le_split 2 0 ++ le_split 4 n) n) as R.
  { eapply reads_bind; [by apply reads_take|]. rewrite decide_False by auto.
    eapply reads_bind; [by apply reads_u16|]. rewrite decide_False by auto.
    eapply reads_bind; [by apply reads_u16|].
    eapply reads_map; [apply reads_u32; lia|]. rewrite decide_False by lia. apply reads_ret. }
  pose proof (reads_run _ _ _ (le_split 4 0 ++ post) R) as E.
  rewrite <- !(assoc_L (++)) in *. by rewrite E.
Qed.

Lemma reads_decodeDirEntry e : wf_entry_dir e → reads decodeDirEntry (dirEntryBytes e) e.
Proof.
  intros (Hi & Ho & Hl). eapply reads_bind; [by apply reads_u32|].
  eapply reads_bind; [by apply reads_u32|]. eapply reads_bind; [by apply reads_u64|].
  eapply reads_map; [by apply reads_u64|]. destruct e. apply reads_ret.
Qed.

Lemma ParseDirectory_encoded entries post :
  len entries ≤ 1024 → Forall wf_entry_dir entries →
  ParseDirectory (headerBytes (len entries) ++ concat (dirEntryBytes <$> entries) ++ post)
    = Ok entries.
Proof.
  intros Hl HF. unfold ParseDirectory. pose proof (len_nonneg entries).
  rewrite SectionCount_header by lia. cbn [mbind res_bind].
  assert (reads (_ ← cursor.take headerLen;
      cursor.times (Z.to_nat (len entries)) decodeDirEntry)
    (headerBytes (len entries) ++ concat (dirEntryBytes <$> entries)) entries) as R.
  { eapply reads_bind; [by apply reads_take|]. rewrite to_nat_len.
    eapply reads_times; [|exact HF]. apply reads_decodeDirEntry. }
  pose proof (reads_run _ _ _ post R) as E. rewrite <- (assoc_L (++)) in E. by rewrite E.
Qed.

Lemma spec_SectionCountM : spec SectionCountM (λ n, 0 ≤ n ≤ 1024).
Proof.
  eapply spec_bind; [apply spec_take|]. intros m _. case_decide; [apply spec_fail|].
  eapply spec_bind; [apply spec_u16|]. intros v _.
  case_decide; [by apply spec_lift|].
  eapply spec_bind; [apply spec_u16|]. intros _ _.
  eapply spec_bind; [apply spec_u32|]. intros n Hn.
  case_decide; [apply spec_fail|]. apply spec_ret. simpl in *. lia.
Qed.

Lemma spec_decodeDirEntry : spec decodeDirEntry wf_entry_dir.
Proof.
  eapply spec_bind; [apply spec_u32|]. intros i Hi.
  eapply spec_bind; [apply spec_u32|]. intros _ _.
  eapply spec_bind; [apply spec_u64|]. intros o Ho.
  eapply spec_bind; [apply spec_u64|]. intros l Hl. apply spec_ret. unfold wf_entry_dir. simpl in *. auto.
Qed.

Lemma spec_dirLoop n : spec (_ ← cursor.take headerLen; cursor.times n decodeDirEntry)
  (λ l, length l = n ∧ Forall wf_entry_dir l).
Proof.
  eapply spec_bind; [apply spec_take|]. intros _ _. apply spec_times, spec_decodeDirEntry.
Qed.

Lemma ParseDirectory_safe front : safe (ParseDirectory front).
Proof.
  apply safe_bind.
  - apply safe_bind; [eapply spec_safe, spec_SectionCountM|by intros []].
  - intros n _. apply safe_bind; [eapply spec_safe, spec_dirLoop|by intros []].
Qed.

Lemma ParseDirectory_wf front entries : ParseDirectory front = Ok entries →
  Forall wf_entry_dir entries.
Proof.
  unfold ParseDirectory. intros H. res_inv. destruct v0 as [l c]. res_inv.
  by destruct (spec_Ok _ _ _ _ _ (spec_dirLoop _) (newCursor_cwf front) E0) as (_ & _ & _ & _ & ?).
Qed.

(** ** The load plan *)

Lemma loadPrefixStep_mono opts st e :
  st.1 ≤ (loadPrefixStep opts st e).1 ∧ (st.2 = true → (loadPrefixStep opts st e).2 = true).
Proof.
  unfold loadPrefixStep. destruct (sectionWanted (eID e) opts); [|by split].
  case_decide; simpl; split; auto; lia.
Qed.

Lemma loadPrefix_mono opts d st :
  st.1 ≤ (foldl (loadPrefixStep opts) st d).1 ∧
  (st.2 = true → (foldl (loadPrefixStep opts) st d).2 = true).
Proof.
  revert st. induction d as [|x d IH]; intros st; simpl; [split; [lia|done]|].
  destruct (IH (loadPrefixStep opts st x)), (loadPrefixStep_mono opts st x).
  split; [lia|auto].
Qed.

(** The prefix holds the end of every wanted section. *)
Lemma loadPrefix_covers opts d st e :
  e ∈ d → sectionWanted (eID e) opts = true →
  to_u64 (Offset e + Length e) ≤ (foldl (loadPrefixStep opts) st d).1 ∧
  (foldl (loadPrefixStep opts) st d).2 = true.
Proof.
  intros He Hw. revert st. induction He as [x d|x y d He IH]; intros st; simpl; [|by apply IH].
  destruct (loadPrefix_mono opts d (loadPrefixStep opts st x)) as [H1 H2].
  assert (to_u64 (Offset x + Length x) ≤ (loadPrefixStep opts st x).1 ∧
    (loadPrefixStep opts st x).2 = true) as [? ?].
  { unfold loadPrefixStep. rewrite Hw. case_decide; simpl; split; auto; lia. }
  split; [lia|auto].
Qed.
