(* ===== verification/RcpgFile.v ===== *)
(** Whole RCPG files: [src/rcpg/rcpg.go].

    [WriteWith] lays out header, directory and section bodies through an
    [io.Writer]; [ParseWith] reads the directory and decodes each section.
    The theorems: parsing what was written gives the graph back, under every
    combination of write and parse options, and parsing arbitrary bytes never
    panics. *)

From S2P Require Import Prelude RcpgCursor RcpgColumn RcpgSection RcpgDirectory.

Record WriteOptions := mkWriteOptions {
  woNodeColumns : bool; woRelColumns : bool; woAtomIndex : bool; woExistence : bool }.

Definition DefaultWriteOptions := mkWriteOptions true true false false.
Definition TopologyOnlyWriteOptions := mkWriteOptions false false false false.

(** A section of the file under construction: id and body. *)
Abbreviation fsection := (Z * list byte)%type.

Section file.
Context {bm : Type} `{HR : Roaring bm}.
Implicit Types g : GraphSection bm.

(** ** Writing *)

(** The table of encoders [WriteWith] runs over; a disabled one is skipped. *)
Definition sectionTable g (opts : WriteOptions) : list (Z * res (list byte) * bool) :=
  [ (sectionAtoms, encodeAtoms (Atoms g), true);
    (sectionMeta, encodeMeta g, true);
    (sectionNodes, encodeNodes g, true);
    (sectionRels, encodeRels g, true);
    (sectionNodeCols, encodeColumns (NodeColumns g), woNodeColumns opts);
    (sectionRelCols, encodeColumns (RelColumns g), woRelColumns opts);
    (sectionAtomIndex, encodeAtomIndex (Atoms g) atomIndexBlockLen, woAtomIndex opts);
    (sectionExistence,
      match Existence g with Some b => encodeExistence b | None => Panic end,
      woExistence opts && bool_decide (is_Some (Existence g))) ].

Fixpoint encodeSections (table : list (Z * res (list byte) * bool)) : res (list fsection) :=
  match table with
  | [] => Ok []
  | (id, enc, enabled) :: rest =>
      if enabled : bool then body ← enc; ss ← encodeSections rest; Ok ((id, body) :: ss)
      else encodeSections rest
  end.

(** The directory loop: the running [offset] is a [uint64]. *)
Fixpoint writeDirectory (head : list byte) (offset : Z) (sections : list fsection) : list byte :=
  match sections with
  | [] => head
  | (id, body) :: rest =>
      let head := wU32 (wU32 head id) 0 in
      let head := wU64 head offset in
      let head := wU64 head (to_u64 (len body)) in
      writeDirectory head (to_u64 (offset + to_u64 (len body))) rest
  end.

Definition fileHead (sections : list fsection) : list byte :=
  let head := [] ++ Magic in
  let head := wU16 head FormatVersion in
  let head := wU16 head 0 in
  let head := wU32 head (to_u32 (len sections)) in
  let head := wU32 head 0 in
  writeDirectory head (to_u64 (headerLen + len sections * dirEntryLen)) sections.

(** [w.Write] of one slice after the other, stopping at the first error. *)
Fixpoint writeAll {W} `{Writer W} (ps : list (list byte)) (w : W) : W * res () :=
  match ps with
  | [] => (w, Ok ())
  | p :: rest =>
      match wwrite p w with
      | (w, Some e) => (w, Err e)
      | (w, None) => writeAll rest w
      end
  end.

Definition WriteWith {W} `{Writer W} g (w : W) (opts : WriteOptions) : W * res () :=
  match encodeSections (sectionTable g opts) with
  | Ok sections => writeAll (fileHead sections :: sections.*2) w
  | Err e => (w, Err e)
  | Panic => (w, Panic)
  end.

Definition Write {W} `{Writer W} g (w : W) : W * res () := WriteWith g w DefaultWriteOptions.

(** ** Parsing *)

Definition decodeSection (id : Z) (body : list byte) (opts : ParseOptions) g
    : res (GraphSection bm) :=
  if decide (id = sectionAtoms ∧ SkipAtoms opts = false)
  then a ← decodeAtoms body; Ok (set_Atoms g a)
  else if decide (id = sectionMeta) then decodeMeta body g
  else if decide (id = sectionNodes) then decodeNodes body g
  else if decide (id = sectionRels) then decodeRels body g
  else if decide (id = sectionNodeCols ∧ poNodeColumns opts = true)
  then cs ← decodeColumns body; Ok (set_NodeColumns g cs)
  else if decide (id = sectionRelCols ∧ poRelColumns opts = true)
  then cs ← decodeColumns body; Ok (set_RelColumns g cs)
  else if decide (id = sectionAtomIndex)
  then i ← decodeAtomIndex body; Ok (set_AtomIndex g (Some i))
  else if decide (id = sectionExistence)
  then e ← decodeExistence body; Ok (set_Existence g (Some e))
  else Ok g.

Fixpoint parseEntries (b : list byte) (opts : ParseOptions) g (entries : list DirEntry)
    : res (GraphSection bm) :=
  match entries with
  | [] => Ok g
  | e :: rest =>
      let end_ := to_u64 (Offset e + Length e) in
      if decide (end_ < Offset e) then corruptf "section %d offset+length overflows" [eID e]
      else if decide (len b < end_)
      then corruptf "section %d extends past end of file (%d > %d)" [eID e; end_; len b]
      else body ← slice b (Offset e) end_;
           g ← decodeSection (eID e) body opts g;
           parseEntries b opts g rest
  end.

Definition ParseWith (b : list byte) (opts : ParseOptions) : res (GraphSection bm) :=
  dir ← ParseDirectory b;
  g ← parseEntries b opts emptyGraph dir;
  match AtomIndex g with
  | Some i => if SkipAtoms opts then Ok g
              else _ ← validateAtomIndex i (Atoms g); Ok g
  | None => Ok g
  end.

Definition Parse (b : list byte) : res (GraphSection bm) := ParseWith b DefaultParseOptions.

(** ** Parsing never panics *)

Lemma decodeSection_safe id body opts g : safe (decodeSection id body opts g).
Proof.
  unfold decodeSection.
  repeat case_decide; try done;
    first [ apply safe_bind; [|done] | idtac ];
    auto using decodeAtoms_safe, decodeMeta_safe, decodeNodes_safe, decodeRels_safe,
      decodeColumns_safe, decodeAtomIndex_safe, decodeExistence_safe.
Qed.

Lemma parseEntries_safe b opts g entries :
  Forall wf_entry_dir entries → safe (parseEntries b opts g entries).
Proof.
  intros HF. revert g. induction HF as [|e rest (_ & Ho & _) HF IH]; intros g; simpl; [done|].
  case_decide; [done|]. case_decide; [done|].
  rewrite slice_ok by lia. simpl. apply safe_bind; [apply decodeSection_safe|auto].
Qed.

(** The atom index of a partly parsed graph has an unsigned block length. *)
Definition index_wf g : Prop := ∀ i, AtomIndex g = Some i → 0 ≤ BlockLen i.

Lemma decodeSection_index_wf id body opts g g' :
  index_wf g → decodeSection id body opts g = Ok g' → index_wf g'.
Proof.
  intros Hg. unfold decodeSection, decodeMeta, decodeNodes, decodeRels, decodeRelsM.
  repeat case_decide; intros Hd; res_inv; try done.
  - destruct v as [[v|] c]; by res_inv.
  - destruct v as [[n li] c]; by res_inv.
  - destruct v as [g1 c]. res_inv. unfold mbind, cursor.M_bind in E.
    repeat match goal with E : _ = Ok (g', _) |- _ => apply res_bind_Ok in E as ([? ?] & _ & E) end.
    by injection E as <- _.
  - intros i [= <-]. apply decodeAtomIndex_wf in E as [? _]. lia.
Qed.

Lemma parseEntries_index_wf b opts g entries g' :
  index_wf g → parseEntries b opts g entries = Ok g' → index_wf g'.
Proof.
  revert g. induction entries as [|e rest IH]; intros g Hg H; simpl in H.
  { by res_inv. }
  do 2 (case_decide; [done|]). res_inv. eapply IH; [|exact H].
  by eapply decodeSection_index_wf.
Qed.

Lemma ParseWith_safe b opts : safe (ParseWith b opts).
Proof.
  apply safe_bind; [apply ParseDirectory_safe|]. intros dir Hd.
  apply safe_bind; [by eapply parseEntries_safe, ParseDirectory_wf|]. intros g Hg.
  destruct (AtomIndex g) as [i|] eqn:E; [|done]. destruct (SkipAtoms opts); [done|].
  apply safe_bind; [|done]. apply validateAtomIndex_safe.
  apply parseEntries_index_wf in Hg; [by apply Hg|]. by intros i'.
Qed.

(** ** The layout of a written file *)

(** The directory of sections laid out one after the other from [off]. *)
Fixpoint layout (off : Z) (sections : list fsection) : list DirEntry :=
  match sections with
  | [] => []
  | (id, body) :: rest => mkDirEntry id off (len body) :: layout (off + len body) rest
  end.

Definition bodies (sections : list fsection) : list byte := concat sections.*2.

Definition fileBytes (sections : list fsection) : list byte :=
  fileHead sections ++ bodies sections.

Lemma bodies_cons id body ss : bodies ((id, body) :: ss) = body ++ bodies ss.
Proof. done. Qed.

Lemma len_layout off ss : len (layout off ss) = len ss.
Proof. revert off. induction ss as [|[id body] ss IH]; intros off; [done|]. simpl. by rewrite !len_cons, IH. Qed.

Lemma writeDirectory_layout head off ss :
  0 ≤ off → off + len (bodies ss) < 18446744073709551616 →
  writeDirectory head off ss = head ++ concat (dirEntryBytes <$> layout off ss).
Proof.
  revert head off. induction ss as [|[id body] ss IH]; intros head off Ho Hl; cbn [writeDirectory layout] in *.
  { by rewrite app_nil_r. }
  rewrite bodies_cons, len_app in Hl. pose proof (len_nonneg body). pose proof (len_nonneg (bodies ss)).
  rewrite (wrapU_small 64 (len body)), (wrapU_small 64 (off + len body)) by lia.
  rewrite IH by lia. rewrite fmap_cons. cbn [concat].
  unfold wU32, wU64, dirEntryBytes at 2. simpl. by rewrite <- !(assoc_L (++)).
Qed.

Lemma layout_wf off ss :
  0 ≤ off → off + len (bodies ss) < 18446744073709551616 →
  Forall (λ s : fsection, is_u32 s.1) ss → Forall wf_entry_dir (layout off ss).
Proof.
  intros Ho Hl HF. revert off Ho Hl. induction HF as [|[id body] ss Hid HF IH]; intros off Ho Hl; cbn [layout] in *.
  { constructor. }
  rewrite bodies_cons, len_app in Hl. pose proof (len_nonneg body). pose proof (len_nonneg (bodies ss)).
  constructor; [unfold wf_entry_dir; simpl in *; lia|]. apply IH; lia.
Qed.

Definition dirStart (ss : list fsection) : Z := headerLen + len ss * dirEntryLen.

Lemma fileHead_layout ss : len ss ≤ 1024 →
  dirStart ss + len (bodies ss) < 18446744073709551616 →
  fileHead ss = headerBytes (len ss) ++ concat (dirEntryBytes <$> layout (dirStart ss) ss).
Proof.
  intros Hn Hl. unfold fileHead, dirStart, headerLen, dirEntryLen in *.
  pose proof (len_nonneg ss). pose proof (len_nonneg (bodies ss)).
  rewrite (wrapU_small 64), (wrapU_small 32) by lia. rewrite writeDirectory_layout by lia.
  unfold headerBytes, wU16, wU32. by rewrite <- !(assoc_L (++)).
Qed.

Lemma len_writeDirectory head off ss :
  len (writeDirectory head off ss) = len head + len ss * dirEntryLen.
Proof.
  revert head off. induction ss as [|[id body] ss IH]; intros head off; cbn [writeDirectory].
  { change (len (@nil fsection)) with 0. lia. }
  rewrite IH, len_cons. unfold wU32, wU64. rewrite !len_app, !len_le_split.
  unfold dirEntryLen. lia.
Qed.

Lemma len_fileHead ss : len (fileHead ss) = dirStart ss.
Proof. unfold fileHead. by rewrite len_writeDirectory. Qed.

Lemma len_fileBytes ss : len (fileBytes ss) = dirStart ss + len (bodies ss).
Proof. unfold fileBytes. by rewrite len_app, len_fileHead. Qed.

(** Decoding the bodies in order: what the parser does with a laid-out file. *)
Fixpoint decodeAll (opts : ParseOptions) g (ss : list fsection) : res (GraphSection bm) :=
  match ss with
  | [] => Ok g
  | (id, body) :: rest => g ← decodeSection id body opts g; decodeAll opts g rest
  end.

Lemma parseEntries_layout pre ss opts g :
  len pre + len (bodies ss) < 18446744073709551616 →
  parseEntries (pre ++ bodies ss) opts g (layout (len pre) ss) = decodeAll opts g ss.
Proof.
  revert pre g. induction ss as [|[id body] ss IH]; intros pre g Hl; [done|].
  rewrite bodies_cons in *. rewrite len_app in Hl. cbn [layout parseEntries Offset Length eID].
  pose proof (len_nonneg pre). pose proof (len_nonneg body). pose proof (len_nonneg (bodies ss)).
  rewrite (wrapU_small 64) by lia.
  rewrite decide_False by lia. rewrite decide_False by (rewrite !len_app; lia).
  rewrite slice_mid. simpl.
  destruct (decodeSection id body opts g) as [g'|e|]; [|done..]. simpl.
  rewrite (assoc_L (++)), <- len_app. apply IH. rewrite len_app. lia.
Qed.

Lemma ParseDirectory_file ss : len ss ≤ 1024 → Forall (λ s : fsection, is_u32 s.1) ss →
  len (fileBytes ss) < 18446744073709551616 →
  ParseDirectory (fileBytes ss) = Ok (layout (dirStart ss) ss).
Proof.
  intros Hn HF Hl. rewrite len_fileBytes in Hl. unfold fileBytes. rewrite fileHead_layout by done.
  rewrite <- (assoc_L (++)), <- (len_layout (dirStart ss) ss).
  apply ParseDirectory_encoded; [by rewrite len_layout|].
  apply layout_wf; [|done..]. unfold dirStart, headerLen, dirEntryLen. pose proof (len_nonneg ss). lia.
Qed.

Lemma parse_file ss opts : len ss ≤ 1024 → Forall (λ s : fsection, is_u32 s.1) ss →
  len (fileBytes ss) < 18446744073709551616 →
  (dir ← ParseDirectory (fileBytes ss); parseEntries (fileBytes ss) opts emptyGraph dir)
    = decodeAll opts emptyGraph ss.
Proof.
  intros Hn HF Hl. rewrite ParseDirectory_file by done. cbn [mbind res_bind].
  rewrite len_fileBytes in Hl. unfold fileBytes.
  rewrite <- (len_fileHead ss). apply parseEntries_layout. by rewrite len_fileHead.
Qed.

(** ** Round trip *)

Definition wf_columns (cs : list Column) : Prop := len cs < 4294967296 ∧ Forall wf_column cs.

(** A graph the format can represent: every count fits its length prefix,
    every word its width, every string is UTF-8. *)
Record wf_graph g : Prop := {
  wg_atoms : wf_atoms (Atoms g);
  wg_version : ∀ v, Version g = Some v → wf_string v;
  wg_nnodes : is_u32 (NNodes g);
  wg_labels : wf_bitmaps (LabelIndex g);
  wg_rels : wf_rels g;
  wg_nodecols : wf_columns (NodeColumns g);
  wg_relcols : wf_columns (RelColumns g);
}.

Definition columnsBytes (cs : list Column) : list byte :=
  le_split 4 (len cs) ++ concat (columnBytes <$> cs).

Definition atomIndexBytes (atoms : list gostring) : list byte :=
  le_split 4 atomIndexBlockLen ++ le_split 4 0 ++
  le_split 4 (len (atomOffsets atomIndexBlockLen 0 4 atoms)) ++
  concat (le_split 8 <$> atomOffsets atomIndexBlockLen 0 4 atoms).

(** The optional sections a writer emits. *)
Definition optionalSections g (wo : WriteOptions) : list fsection :=
  (if woNodeColumns wo then [(sectionNodeCols, columnsBytes (NodeColumns g))] else []) ++
  (if woRelColumns wo then [(sectionRelCols, columnsBytes (RelColumns g))] else []) ++
  (if woAtomIndex wo then [(sectionAtomIndex, atomIndexBytes (Atoms g))] else []) ++
  (if woExistence wo then
     match Existence g with Some b => [(sectionExistence, bmWriteTo b)] | None => [] end
   else []).

Definition sectionsOf g (wo : WriteOptions) : list fsection :=
  [(sectionAtoms, atomsBytes (Atoms g)); (sectionMeta, metaBytes g);
   (sectionNodes, nodesBytes g); (sectionRels, relsBytes g)] ++ optionalSections g wo.

(** What a reader with options [po] sees of a graph written with [wo]. *)
Definition visible g (wo : WriteOptions) (po : ParseOptions) : GraphSection bm :=
  mkGraphSection (NNodes g) (NRels g) (OutOffsets g) (OutNbrs g) (OutTypes g)
    (InOffsets g) (InNbrs g) (InTypes g) (LabelIndex g) (TypeIndex g)
    (if woNodeColumns wo && poNodeColumns po then NodeColumns g else [])
    (if woRelColumns wo && poRelColumns po then RelColumns g else [])
    (Version g)
    (if SkipAtoms po then [] else Atoms g)
    (if woExistence wo then Existence g else None)
    (if woAtomIndex wo then Some (atomIndexOf atomIndexBlockLen (Atoms g)) else None).

Context {HL : RoaringLaws bm}.

Lemma encodeSections_Ok g wo : wf_graph g →
  encodeSections (sectionTable g wo) = Ok (sectionsOf g wo).
Proof using HL.
  intros [Ha Hv Hn Hli Hr [Hnl Hnc] [Hrl Hrc]]. unfold sectionTable, sectionsOf, optionalSections.
  cbn [encodeSections]. rewrite encodeAtoms_Ok, encodeMeta_Ok, encodeNodes_Ok, encodeRels_Ok by done.
  cbn [mbind res_bind].
  destruct Ha as [Hal _].
  rewrite (encodeAtomIndex_Ok atomIndexBlockLen) by done.
  rewrite !encodeColumns_Ok by done.
  destruct wo as [[] [] [] []], (Existence g) as [b|]; done.
Qed.

Lemma sectionsOf_ids g wo : Forall (λ s : fsection, is_u32 s.1) (sectionsOf g wo).
Proof.
  unfold sectionsOf, optionalSections.
  destruct wo as [[] [] [] []], (Existence g) as [b|]; simpl; repeat constructor; done.
Qed.

Lemma sectionsOf_len g wo : len (sectionsOf g wo) ≤ 8.
Proof.
  unfold sectionsOf, optionalSections.
  destruct wo as [[] [] [] []], (Existence g) as [b|]; simpl; done.
Qed.

Lemma decodeAll_app po g ss1 ss2 :
  decodeAll po g (ss1 ++ ss2) = (g ← decodeAll po g ss1; decodeAll po g ss2).
Proof.
  revert g. induction ss1 as [|[id body] ss1 IH]; intros g; [done|]. simpl.
  destruct (decodeSection id body po g); [|done..]. simpl. by rewrite IH.
Qed.

(** Each section decodes to the part of the graph it carries. *)

Lemma decode_topology g po : wf_graph g →
  decodeAll po emptyGraph [(sectionAtoms, atomsBytes (Atoms g)); (sectionMeta, metaBytes g);
    (sectionNodes, nodesBytes g); (sectionRels, relsBytes g)] =
  Ok (visible g TopologyOnlyWriteOptions po).
Proof using HL.
  intros [Ha Hv Hn Hli Hr _ _]. unfold visible. simpl.
  pose proof (decodeAtoms_encoded (Atoms g) [] Ha) as D1. rewrite app_nil_r in D1.
  assert (decodeSection sectionAtoms (atomsBytes (Atoms g)) po emptyGraph =
    Ok (set_Atoms emptyGraph (if SkipAtoms po then [] else Atoms g))) as ->.
  { unfold decodeSection. destruct (SkipAtoms po); simpl; [done|]. by rewrite D1. }
  cbn [mbind res_bind].
  pose proof (decodeMeta_encoded g (set_Atoms emptyGraph (if SkipAtoms po then [] else Atoms g))
    [] Hv eq_refl) as D2. rewrite app_nil_r in D2.
  change (decodeSection sectionMeta ?b po ?g) with (decodeMeta b g). rewrite D2. cbn [mbind res_bind].
  match goal with |- context [decodeSection sectionNodes _ po ?g0] =>
    pose proof (decodeNodes_encoded g g0 [] Hn Hli) as D3 end. rewrite app_nil_r in D3.
  change (decodeSection sectionNodes ?b po ?g) with (decodeNodes b g). rewrite D3. cbn [mbind res_bind].
  match goal with |- context [decodeSection sectionRels _ po ?g0] =>
    pose proof (decodeRels_encoded g g0 [] Hr) as D4 end. rewrite app_nil_r in D4.
  change (decodeSection sectionRels ?b po ?g) with (decodeRels b g). by rewrite D4.
Qed.

Lemma decode_nodeCols g g0 po (wn : bool) : wf_columns (NodeColumns g) →
  decodeAll po g0 (if wn then [(sectionNodeCols, columnsBytes (NodeColumns g))] else []) =
  Ok (if wn && poNodeColumns po then set_NodeColumns g0 (NodeColumns g) else g0).
Proof.
  intros [Hl Hc]. destruct wn; [|done]. simpl. unfold decodeSection.
  destruct (poNodeColumns po); simpl; [|done].
  pose proof (decodeColumns_encoded (NodeColumns g) [] Hl Hc) as D. rewrite app_nil_r in D.
  unfold columnsBytes. by rewrite D.
Qed.

Lemma decode_relCols g g0 po (wr : bool) : wf_columns (RelColumns g) →
  decodeAll po g0 (if wr then [(sectionRelCols, columnsBytes (RelColumns g))] else []) =
  Ok (if wr && poRelColumns po then set_RelColumns g0 (RelColumns g) else g0).
Proof.
  intros [Hl Hc]. destruct wr; [|done]. simpl. unfold decodeSection.
  destruct (poRelColumns po); simpl; [|done].
  pose proof (decodeColumns_encoded (RelColumns g) [] Hl Hc) as D. rewrite app_nil_r in D.
  unfold columnsBytes. by rewrite D.
Qed.

Lemma decode_atomIndex g g0 po (wi : bool) : wf_atoms (Atoms g) →
  len (atomsBytes (Atoms g)) < 18446744073709551616 →
  decodeAll po g0 (if wi then [(sectionAtomIndex, atomIndexBytes (Atoms g))] else []) =
  Ok (if wi then set_AtomIndex g0 (Some (atomIndexOf atomIndexBlockLen (Atoms g))) else g0).
Proof.
  intros [Hl _] Hsz. destruct wi; [|done]. cbn [decodeAll].
  change (decodeSection sectionAtomIndex ?b po ?g)
    with (i ← decodeAtomIndex b; Ok (set_AtomIndex g (Some i))).
  pose proof (decodeAtomIndex_encoded atomIndexBlockLen (Atoms g) [] ltac:(done) Hl Hsz) as D.
  rewrite app_nil_r in D. unfold atomIndexBytes. by rewrite D.
Qed.

Lemma decode_existence g g0 po (we : bool) : Existence g0 = None →
  decodeAll po g0 (if we then
     match Existence g with Some b => [(sectionExistence, bmWriteTo b)] | None => [] end else []) =
  Ok (set_Existence g0 (if we then Existence g else None)).
Proof using HL.
  intros H0. destruct we, (Existence g) as [b|]; simpl; try (destruct g0; simpl in *; by subst).
  change (decodeSection sectionExistence ?b po ?g)
    with (e ← decodeExistence b; Ok (set_Existence g (Some e))).
  unfold decodeExistence. by rewrite bm_read_write.
Qed.

Lemma decodeAll_sectionsOf g wo po : wf_graph g →
  len (bodies (sectionsOf g wo)) < 18446744073709551616 →
  decodeAll po emptyGraph (sectionsOf g wo) = Ok (visible g wo po).
Proof using HL.
  intros Hg Hsz.
  assert (len (atomsBytes (Atoms g)) < 18446744073709551616) as Hsa.
  { unfold sectionsOf in Hsz. cbn [app] in Hsz. rewrite bodies_cons, len_app in Hsz.
    match type of Hsz with _ + len ?x < _ => pose proof (len_nonneg x) end. lia. }
  unfold sectionsOf, optionalSections. rewrite !decodeAll_app, decode_topology by done.
  cbn [mbind res_bind]. destruct Hg as [Ha Hv Hn Hli Hr Hnc Hrc].
  rewrite decodeAll_app, decode_nodeCols by done. cbn [mbind res_bind].
  rewrite decodeAll_app, decode_relCols by done. cbn [mbind res_bind].
  rewrite decodeAll_app, decode_atomIndex by done. cbn [mbind res_bind].
  rewrite decode_existence.
  - unfold visible. destruct wo as [[] [] [] []], po as [[] [] []]; done.
  - destruct wo as [[] [] [] []], po as [[] [] []]; done.
Qed.

(** [WriteWith] into a buffer succeeds on every representable graph. *)
Lemma WriteWith_buffer g wo : wf_graph g →
  WriteWith g ([] : list byte) wo = (fileBytes (sectionsOf g wo), Ok ()).
Proof using HL.
  intros Hg. unfold WriteWith. rewrite encodeSections_Ok by done.
  assert (∀ ps (w : list byte), writeAll ps w = (w ++ concat ps, Ok ())) as E.
  { induction ps as [|p ps IH]; intros w; simpl; [by rewrite app_nil_r|].
    rewrite IH. by rewrite <- (assoc_L (++)). }
  by rewrite E.
Qed.

Lemma ParseWith_file g wo po : wf_graph g →
  len (fileBytes (sectionsOf g wo)) < 18446744073709551616 →
  ParseWith (fileBytes (sectionsOf g wo)) po = Ok (visible g wo po).
Proof using HL.
  intros Hg Hsz. unfold ParseWith.
  pose proof (sectionsOf_len g wo) as Hn.
  pose proof (parse_file (sectionsOf g wo) po ltac:(lia) (sectionsOf_ids g wo) Hsz) as P.
  rewrite decodeAll_sectionsOf in P; [|done|].
  2:{ rewrite len_fileBytes in Hsz. unfold dirStart, headerLen, dirEntryLen in Hsz. pose proof (len_nonneg (sectionsOf g wo)). lia. }
  destruct (ParseDirectory _) as [dir|e|]; [|done..]. cbn [mbind res_bind] in *. rewrite P.
  cbn [mbind res_bind].
  change (AtomIndex (visible g wo po))
    with (if woAtomIndex wo then Some (atomIndexOf atomIndexBlockLen (Atoms g)) else None).
  change (Atoms (visible g wo po)) with (if SkipAtoms po then [] else Atoms g).
  destruct (woAtomIndex wo); [|done]. destruct (SkipAtoms po); [done|].
  rewrite (proj2 (validateAtomIndex_iff (atomIndexOf atomIndexBlockLen (Atoms g)) (Atoms g) ltac:(done)));
    [done|by split].
Qed.

End file.

(** ** Properties *)

(** C4: Write then parse is the identity on what was selected: for every graph
    the format can represent and every combination of write and parse options,
    writing into a buffer succeeds and parsing the buffer yields the graph
    restricted to the sections both sides asked for. *)
Theorem write_parse_roundtrip {bm} `{RoaringLaws bm} (g : GraphSection bm) wo po :
  wf_graph g → len (fileBytes (sectionsOf g wo)) < 18446744073709551616 →
  ∃ b, WriteWith g [] wo = (b, Ok ()) ∧ ParseWith b po = Ok (visible g wo po).
Proof.
  intros Hg Hsz. eexists. split; [by apply WriteWith_buffer|by apply ParseWith_file].
Qed.

Lemma demoGraph_wf : wf_graph demoGraph.
Proof.
  split; simpl; try done.
  - split; [done|]. by repeat constructor.
  - by intros v [= <-].
  - split; [done|]. by repeat constructor.
  - unfold wf_rels. simpl. unfold wf_vec, wf_bitmaps. split_and!; try done; by repeat constructor.
  - split; [done|]. by repeat constructor.
Qed.

Lemma write_parse_roundtrip_witness :
  ∃ b, WriteWith demoGraph [] (mkWriteOptions true true true true) = (b, Ok ()) ∧
    ParseWith b DefaultParseOptions =
      Ok (visible demoGraph (mkWriteOptions true true true true) DefaultParseOptions).
Proof. apply write_parse_roundtrip; [apply demoGraph_wf|by vm_compute]. Defined.

(** C27: Parsing is total on hostile input: whatever the bytes and the options,
    [ParseWith] returns a graph or an error and never panics, provided only
    that the bitmap library reports malformed bitmaps as errors. *)
Theorem ParseWith_never_panics {bm} `{Roaring bm} (b : list byte) (po : ParseOptions) :
  safe (ParseWith b po).
Proof. apply ParseWith_safe. Qed.
