(* ===== verification/RcpgLazy.v ===== *)
(** Lazy, range-fetched loading: [ParseLazy] and the fetchers of
    [src/rcpg/lazy.go].

    [SectionFetch] is the byte-range provider interface, with the state a call
    leaves the provider in, so that a range may fail once and be served on a
    later call; [MemoryFetch] is its in-memory instance. The theorems relate [ParseLazy] to the eager
    [ParseWith]: every file the eager parser accepts loads lazily to the same
    graph, except that the existence section is never fetched; and the planned
    prefix of a file loads to the same graph as the file. *)

From S2P Require Import Prelude RcpgCursor RcpgColumn RcpgSection RcpgDirectory RcpgFile.

(** [Fetch(offset, length)]: the bytes of a range, or an error, and the
    provider after the call. *)
Class SectionFetch (F : Type) := {
  fetch : F → Z → Z → res (list byte);
  after : F → Z → Z → F;
}.
#[global] Arguments fetch : simpl never.
#[global] Arguments after : simpl never.

(** What the interface asks of its implementations: exactly [length] bytes or
    an error. *)
Class FetchLaws (F : Type) `{SectionFetch F} : Prop := {
  fetch_exact : ∀ (f : F) off n s, is_u64 off → is_u64 n → fetch f off n = Ok s → len s = n;
  fetch_safe : ∀ (f : F) off n, is_u64 off → is_u64 n → safe (fetch f off n);
}.

Record MemoryFetch := mkMemoryFetch { mem : list byte }.

Definition MemoryFetch_Fetch (m : MemoryFetch) (offset length : Z) : res (list byte) :=
  let end_ := to_u64 (offset + length) in
  if decide (end_ < offset ∨ len (mem m) < end_)
  then corruptf "range %d+%d past end of file (%d)" [offset; length; len (mem m)]
  else slice (mem m) offset end_.

#[export] Instance memoryFetch : SectionFetch MemoryFetch := {|
  fetch := MemoryFetch_Fetch;
  after m _ _ := m;
|}.

Section lazy.
Context {bm : Type} `{HR : Roaring bm} {F : Type} `{HF : SectionFetch F}.
Implicit Types g : GraphSection bm.

Fixpoint lazyEntries (f : F) (opts : ParseOptions) g (entries : list DirEntry)
    : res (GraphSection bm) :=
  match entries with
  | [] => Ok g
  | e :: rest =>
      if sectionWanted (eID e) opts then
        body ← fetch f (Offset e) (Length e);
        let f := after f (Offset e) (Length e) in
        if decide (len body ≠ Length e)
        then corruptf "section %d fetch returned %d bytes, expected %d" [eID e; len body; Length e]
        else g ← decodeSection (eID e) body opts g; lazyEntries f opts g rest
      else lazyEntries f opts g rest
  end.

Definition ParseLazy (f : F) (opts : ParseOptions) : res (GraphSection bm) :=
  header ← fetch f 0 headerLen;
  let f := after f 0 headerLen in
  count ← SectionCount header;
  front ← fetch f 0 (FrontMatterLen count);
  let f := after f 0 (FrontMatterLen count) in
  dir ← ParseDirectory front;
  lazyEntries f opts emptyGraph dir.

(** ** Safety over any lawful fetcher *)

Lemma lazyEntries_safe {HL : FetchLaws F} (f : F) opts g entries :
  Forall wf_entry_dir entries → safe (lazyEntries f opts g entries).
Proof.
  intros He. revert f g. induction He as [|e rest (_ & Ho & Hl) _ IH]; intros f g; simpl; [done|].
  destruct (sectionWanted (eID e) opts); [|auto].
  apply safe_bind; [apply fetch_safe; lia|]. intros body _. case_decide; [done|].
  apply safe_bind; [apply decodeSection_safe|auto].
Qed.

Lemma SectionCount_range s n : SectionCount s = Ok n → 0 ≤ n ≤ 1024.
Proof.
  unfold SectionCount. intros H. res_inv. destruct v as [n' c]. res_inv.
  by destruct (spec_Ok _ _ _ _ _ spec_SectionCountM (newCursor_cwf s) E) as (_ & _ & _ & ?).
Qed.

Lemma FrontMatterLen_small n : 0 ≤ n ≤ 1024 → FrontMatterLen n = 16 + n * 24.
Proof.
  intros. unfold FrontMatterLen, headerLen, dirEntryLen.
  by rewrite (wrapU_small 64 (n * 24)), (wrapU_small 64) by lia.
Qed.

Lemma ParseLazy_safe {HL : FetchLaws F} (f : F) opts : safe (ParseLazy f opts).
Proof.
  apply safe_bind; [by apply fetch_safe|]. intros h _.
  apply safe_bind; [apply safe_bind; [eapply spec_safe, spec_SectionCountM|by intros []]|].
  intros n Hn. apply SectionCount_range in Hn.
  apply safe_bind; [apply fetch_safe; [done|rewrite FrontMatterLen_small by done; lia]|].
  intros front _. apply safe_bind; [apply ParseDirectory_safe|].
  intros dir Hd. by eapply lazyEntries_safe, ParseDirectory_wf.
Qed.

End lazy.

Lemma memory_after b off n : after (mkMemoryFetch b) off n = mkMemoryFetch b.
Proof. done. Qed.

(** A range of the file in memory. *)
Lemma memory_fetch_iff b off n s : is_u64 off → is_u64 n →
  fetch (mkMemoryFetch b) off n = Ok s ↔ off + n < 18446744073709551616 ∧ slice b off (off + n) = Ok s.
Proof.
  intros Ho Hn. unfold fetch, memoryFetch, MemoryFetch_Fetch. simpl.
  destruct (decide (off + n < 18446744073709551616)).
  - rewrite (wrapU_small 64) by lia. case_decide as D; [|naive_solver].
    unfold slice. split; [done|]. intros [_ Hs]. case_decide; [lia|done].
  - rewrite decide_True; [naive_solver lia|]. left. unfold wrapU.
    replace (off + n) with (off + n - 2 ^ 64 + 1 * 2 ^ 64) by lia.
    rewrite Z.mod_add, Z.mod_small by lia. lia.
Qed.

#[export] Instance memoryFetch_laws : FetchLaws MemoryFetch.
Proof.
  split.
  - intros [b] off n s Ho Hn Hs. apply memory_fetch_iff in Hs as [_ Hs]; [|done..].
    apply slice_len in Hs. lia.
  - intros [b] off n Ho Hn. unfold fetch, memoryFetch, MemoryFetch_Fetch. simpl.
    case_decide as D; [done|]. by rewrite slice_ok by lia.
Qed.

(** ** Readers of a fixed number of bytes

    [fixedM m n]: [m] reads exactly [n] bytes and nothing else matters to it. *)

Definition agree (p : Z) (s s' : list byte) : Prop :=
  p ≤ len s' ∧ take (Z.to_nat p) s = take (Z.to_nat p) s'.

Definition fixedM {A} (m : cursor.M A) (n : Z) : Prop :=
  ∀ c a c', cwf c → m c = Ok (a, c') →
    cursor.b c' = cursor.b c ∧ cursor.pos c' = cursor.pos c + n ∧
    cursor.pos c + n ≤ len (cursor.b c) ∧
    ∀ s', agree (cursor.pos c + n) (cursor.b c) s' →
      m (cursor.mk s' (cursor.pos c)) = Ok (a, cursor.mk s' (cursor.pos c + n)).

Lemma agree_le p q s s' : 0 ≤ p ≤ q → agree q s s' → agree p s s'.
Proof.
  intros Hp [Hl E]. split; [lia|].
  apply (f_equal (take (Z.to_nat p))) in E. rewrite !take_take in E.
  by replace (Z.to_nat p `min` Z.to_nat q)%nat with (Z.to_nat p) in E by lia.
Qed.

Lemma agree_slice lo hi s s' : 0 ≤ lo ≤ hi → hi ≤ len s → agree hi s s' →
  slice s' lo hi = slice s lo hi.
Proof.
  intros Hlo Hs [Hl E]. rewrite !slice_ok by lia. f_equal.
  rewrite !take_drop_commute. replace (Z.to_nat lo + Z.to_nat (hi - lo))%nat with (Z.to_nat hi) by lia.
  by rewrite E.
Qed.

Lemma fixed_take n : 0 ≤ n → fixedM (cursor.take n) n.
Proof.
  intros Hn c s c' Hp. unfold cwf, cursor.take, cursor.remaining in *.
  case_decide as D; [done|]. intros H. res_inv. simpl. split_and!; [done|done|lia|].
  intros s' Ha. destruct (Ha) as [Hl _]. rewrite decide_False by (simpl; lia). simpl.
  rewrite (agree_slice _ _ (cursor.b c)), E by (done || lia). done.
Qed.

Lemma fixed_ret {A} (a : A) : fixedM (mret a) 0.
Proof.
  intros [s p] a' c' [Hp Hp'] H. unfold mret, cursor.M_ret in *. simplify_eq.
  simpl in *. rewrite Z.add_0_r. done.
Qed.

Lemma fixed_lift {A} (r : res A) : fixedM (cursor.lift r) 0.
Proof.
  intros [s p] a c' [Hp Hp'] H. unfold cursor.lift in *. res_inv. simpl in *.
  rewrite Z.add_0_r. done.
Qed.

Lemma fixed_fail {A} f args n : fixedM (@cursor.fail A f args) n.
Proof. intros c a c' _ H. done. Qed.

Lemma fixed_bind {A B} (m : cursor.M A) (k : A → cursor.M B) n1 n2 :
  0 ≤ n1 → 0 ≤ n2 → fixedM m n1 → (∀ a, fixedM (k a) n2) → fixedM (m ≫= k) (n1 + n2).
Proof.
  intros H1 H2 Hm Hk c b c' Hc H. unfold mbind, cursor.M_bind in *. res_inv.
  destruct v as [a c1]. destruct (Hm c a c1 Hc E) as (Eb & Ep & Hl & Hag).
  unfold cwf in Hc. destruct (Hk a c1 b c') as (Eb' & Ep' & Hl' & Hag'); [unfold cwf; rewrite Eb; lia|done|].
  rewrite Eb, Ep in Hl', Hag'. split_and!; [congruence|lia|lia|].
  intros s' Ha. rewrite Hag; [|apply (agree_le _ (cursor.pos c + (n1 + n2))); [lia|done]]. simpl.
  rewrite Z.add_assoc in *. by rewrite Hag'.
Qed.

Lemma fixed_le w : 0 ≤ w → fixedM (s ← cursor.take w; mret (le_combine s)) w.
Proof.
  intros. replace w with (w + 0) at 2 by lia.
  apply fixed_bind; [done..|by apply fixed_take|]. intros. apply fixed_ret.
Qed.

Lemma fixed_SectionCountM : fixedM SectionCountM 12.
Proof.
  apply (fixed_bind _ _ 4 8); [done..|by apply fixed_take|]. intros m.
  case_decide; [apply fixed_fail|].
  apply (fixed_bind _ _ 2 6); [done..|by apply fixed_le|]. intros v.
  case_decide.
  { intros c a c' _ H'. done. }
  apply (fixed_bind _ _ 2 4); [done..|by apply fixed_le|]. intros _.
  apply (fixed_bind _ _ 4 0); [done..|by apply fixed_le|]. intros n.
  case_decide; [apply fixed_fail|apply fixed_ret].
Qed.

Lemma fixed_decodeDirEntry : fixedM decodeDirEntry 24.
Proof.
  apply (fixed_bind _ _ 4 20); [done..|by apply fixed_le|]. intros i.
  apply (fixed_bind _ _ 4 16); [done..|by apply fixed_le|]. intros _.
  apply (fixed_bind _ _ 8 8); [done..|by apply fixed_le|]. intros o.
  apply (fixed_bind _ _ 8 0); [done..|by apply fixed_le|]. intros l. apply fixed_ret.
Qed.

Lemma fixed_times {A} n (m : cursor.M A) w : 0 ≤ w → fixedM m w →
  fixedM (cursor.times n m) (Z.of_nat n * w).
Proof.
  intros Hw Hm. induction n as [|n IH]; [apply fixed_ret|]. cbn [cursor.times].
  replace (Z.of_nat (S n) * w) with (w + (Z.of_nat n * w + 0)) by lia.
  apply fixed_bind; [lia..|done|]. intros x.
  apply fixed_bind; [lia..|done|]. intros xs. apply fixed_ret.
Qed.

(** The count and the directory depend only on the front matter. *)
Lemma SectionCount_front s s' n : agree 12 s s' → SectionCount s = Ok n → SectionCount s' = Ok n.
Proof.
  unfold SectionCount. intros Ha H. res_inv. destruct v as [n' c]. res_inv.
  destruct (fixed_SectionCountM _ _ _ (newCursor_cwf s) E) as (_ & _ & _ & Hag).
  unfold cursor.newCursor in *. simpl in Hag. by rewrite Hag.
Qed.

Lemma ParseDirectory_front s s' n dir : SectionCount s = Ok n → ParseDirectory s = Ok dir →
  agree (16 + n * 24) s s' → ParseDirectory s' = Ok dir ∧ 16 + n * 24 ≤ len s.
Proof.
  intros Hn H Ha. pose proof (SectionCount_range _ _ Hn) as Hr.
  unfold ParseDirectory in *. rewrite Hn in H. cbn [mbind res_bind] in H. res_inv.
  destruct v as [l c]. res_inv.
  assert (fixedM (_ ← cursor.take headerLen; cursor.times (Z.to_nat n) decodeDirEntry)
    (16 + n * 24)) as Hf.
  { apply fixed_bind; [lia..|by apply fixed_take|]. intros _.
    rewrite <- (Z2Nat.id n) at 2 by lia. by apply fixed_times, fixed_decodeDirEntry. }
  destruct (Hf _ _ _ (newCursor_cwf s) E) as (_ & _ & Hl & Hag). simpl in *.
  rewrite (SectionCount_front s s' n); [|eapply agree_le; [|done]; lia|done].
  cbn [mbind res_bind]. unfold cursor.newCursor. by rewrite Hag.
Qed.

(** ** Lazy and eager loading agree *)

Section agreement.
Context {bm : Type} `{HR : Roaring bm}.
Implicit Types g : GraphSection bm.

(** The graph without its existence bitmap. *)
Definition noExistence g : GraphSection bm := set_Existence g None.

(** What [decodeRels] reads does not depend on the graph it fills. *)
Lemma decodeRels_indep body g g1 : decodeRels body g = Ok g1 →
  ∃ n oo on ot io i_n it ti, ∀ g', decodeRels body g' = Ok (set_rels g' n oo on ot io i_n it ti).
Proof.
  unfold decodeRels, decodeRelsM, mbind, cursor.M_bind. intros H.
  destruct (cursor.u64 (cursor.newCursor body)) as [[n c]|?|]; simpl in *; [|done..].
  do 6 (match type of H with context [cursor.u32Vec ?c0] =>
    destruct (cursor.u32Vec c0) as [[? ?]|?|]; simpl in *; [|done..] end).
  match type of H with context [decodeBitmapIndex ?c0] =>
    destruct (decodeBitmapIndex c0) as [[? ?]|?|]; simpl in *; [|done..] end.
  repeat eexists.
Qed.

(** Decoding into a graph does not look at its existence field. *)
Lemma decodeSection_noExistence id body opts g g1 :
  decodeSection id body opts g = Ok g1 → sectionWanted id opts = true →
  decodeSection id body opts (noExistence g) = Ok (noExistence g1).
Proof.
  intros Hd Hw. unfold decodeSection in *.
  case_decide; [by res_inv; match goal with E : decodeAtoms _ = _ |- _ => rewrite E end|].
  case_decide.
  { unfold decodeMeta in *. destruct (decodeMetaM _) as [[[v|] c]|e|]; simpl in *; by res_inv. }
  case_decide.
  { unfold decodeNodes in *. destruct (decodeNodesM _) as [[[n li] c]|e|]; simpl in *; by res_inv. }
  case_decide.
  { destruct (decodeRels_indep _ _ _ Hd) as (n & oo & on & ot & io & i_n & it & ti & E).
    rewrite E in *. by res_inv. }
  case_decide; [by res_inv; match goal with E : decodeColumns _ = _ |- _ => rewrite E end|].
  case_decide; [by res_inv; match goal with E : decodeColumns _ = _ |- _ => rewrite E end|].
  case_decide; [by res_inv; match goal with E : decodeAtomIndex _ = _ |- _ => rewrite E end|].
  case_decide; [subst; by destruct opts as [[] [] []]|]. by res_inv.
Qed.

(** A section the plan leaves out changes at most the existence field. *)
Lemma decodeSection_unwanted id body opts g g1 :
  decodeSection id body opts g = Ok g1 → sectionWanted id opts = false →
  noExistence g1 = noExistence g.
Proof.
  intros Hd Hw. unfold decodeSection in Hd.
  case_decide as D1; [destruct D1 as [-> Hs]; unfold sectionWanted in Hw; simpl in Hw; by rewrite Hs in Hw|].
  case_decide as D2; [by subst|]. case_decide as D3; [by subst|]. case_decide as D4; [by subst|].
  case_decide as D5; [destruct D5 as [-> Hs]; unfold sectionWanted in Hw; simpl in Hw; by rewrite Hs in Hw|].
  case_decide as D6; [destruct D6 as [-> Hs]; unfold sectionWanted in Hw; simpl in Hw; by rewrite Hs in Hw|].
  case_decide as D7; [by subst|]. case_decide as D8; by res_inv.
Qed.

Lemma lazyEntries_eager b opts g entries g1 :
  Forall wf_entry_dir entries → parseEntries b opts g entries = Ok g1 →
  lazyEntries (mkMemoryFetch b) opts (noExistence g) entries = Ok (noExistence g1).
Proof.
  intros HF. revert g. induction HF as [|e rest (_ & Ho & Hl) _ IH]; intros g H; simpl in *.
  { by res_inv. }
  case_decide; [done|]. case_decide; [done|]. res_inv.
  destruct (sectionWanted (eID e) opts) eqn:Hw.
  - assert (Offset e + Length e < 18446744073709551616) as Hend.
    { destruct (decide (Offset e + Length e < 18446744073709551616)); [done|exfalso].
      assert (to_u64 (Offset e + Length e) = Offset e + Length e - 2 ^ 64) as E'.
      { unfold wrapU. replace (Offset e + Length e) with (Offset e + Length e - 2 ^ 64 + 1 * 2 ^ 64) at 1 by lia.
        rewrite Z.mod_add, Z.mod_small by lia. lia. }
      lia. }
    rewrite (wrapU_small 64) in E by lia.
    rewrite (proj2 (memory_fetch_iff b (Offset e) (Length e) v Ho Hl)) by done. simpl.
    rewrite decide_False by (apply slice_len in E; lia).
    rewrite (decodeSection_noExistence _ _ _ _ _ E0 Hw). simpl. by apply IH.
  - rewrite <- (decodeSection_unwanted _ _ _ _ _ E0 Hw). by apply IH.
Qed.

Lemma agree_take p s s' : 0 ≤ p ≤ len s → slice s 0 p = Ok s' → agree p s s'.
Proof.
  intros Hp Hs. pose proof (slice_len _ _ _ _ Hs) as Hl.
  rewrite slice_ok in Hs by lia. injection Hs as <-. split; [lia|].
  rewrite Z.sub_0_r. simpl. by rewrite drop_0, take_take, Nat.min_id.
Qed.

Lemma SectionCount_len s n : SectionCount s = Ok n → 12 ≤ len s.
Proof.
  unfold SectionCount. intros H. res_inv. destruct v as [n' c]. res_inv.
  destruct (fixed_SectionCountM _ _ _ (newCursor_cwf s) E) as (_ & _ & Hl & _). done.
Qed.

Lemma agree_refl p s : p ≤ len s → agree p s s.
Proof. by split. Qed.

(** The two fetches of the front matter see the file's directory. *)
Lemma ParseLazy_unfold b opts n dir : SectionCount b = Ok n → ParseDirectory b = Ok dir →
  len b < 18446744073709551616 →
  ParseLazy (mkMemoryFetch b) opts = lazyEntries (bm:=bm) (mkMemoryFetch b) opts emptyGraph dir.
Proof.
  intros Hn Hd Hsz. pose proof (SectionCount_range _ _ Hn) as Hr.
  assert (16 + n * 24 ≤ len b) as Hlen.
  { pose proof Hd as Hd'. unfold ParseDirectory in Hd'. rewrite Hn in Hd'. cbn [mbind res_bind] in Hd'.
    res_inv. destruct v as [l c]. res_inv.
    assert (fixedM (_ ← cursor.take headerLen; cursor.times (Z.to_nat n) decodeDirEntry)
      (16 + n * 24)) as Hf.
    { apply fixed_bind; [lia..|by apply fixed_take|]. intros _.
      rewrite <- (Z2Nat.id n) at 2 by lia. by apply fixed_times, fixed_decodeDirEntry. }
    destruct (Hf _ _ _ (newCursor_cwf b) E) as (_ & _ & Hl & _). done. }
  unfold ParseLazy.
  destruct (fetch (mkMemoryFetch b) 0 headerLen) as [h|e|] eqn:Eh; cycle 1.
  1,2: rewrite (proj2 (memory_fetch_iff b 0 headerLen (take 16 b) ltac:(done) ltac:(done))) in Eh;
       [done|split; [done|]; unfold headerLen; rewrite slice_ok by lia; simpl; by rewrite drop_0].
  cbn [mbind res_bind].
  apply memory_fetch_iff in Eh as [_ Eh]; [|done..].
  rewrite (SectionCount_front b h n); [|eapply agree_le; [|apply agree_take; [|exact Eh]]; unfold headerLen; lia|done].
  cbn [mbind res_bind]. rewrite FrontMatterLen_small, !memory_after by done.
  destruct (fetch (mkMemoryFetch b) 0 (16 + n * 24)) as [fr|e|] eqn:Ef; cycle 1.
  1,2: rewrite (proj2 (memory_fetch_iff b 0 (16 + n * 24) (take (Z.to_nat (16 + n * 24)) b)
         ltac:(done) ltac:(lia))) in Ef;
       [done|split; [lia|]; rewrite slice_ok, drop_0 by lia; do 2 f_equal; lia].
  cbn [mbind res_bind]. apply memory_fetch_iff in Ef as [_ Ef]; [|lia..].
  destruct (ParseDirectory_front b fr n dir Hn Hd) as [-> _]; [|done].
  apply agree_take; [lia|done].
Qed.

Lemma ParseLazy_eager b opts g : len b < 18446744073709551616 →
  ParseWith b opts = Ok g → ParseLazy (mkMemoryFetch b) opts = Ok (noExistence g).
Proof.
  intros Hsz H. unfold ParseWith in H. res_inv.
  assert (∃ n, SectionCount b = Ok n) as [n Hn].
  { unfold ParseDirectory in E. res_inv. eauto. }
  rewrite (ParseLazy_unfold b opts n v Hn E Hsz).
  change (lazyEntries ?f opts emptyGraph v) with (lazyEntries f opts (noExistence emptyGraph) v).
  assert (v0 = g) as ->.
  { destruct (AtomIndex v0); [|by res_inv]. destruct (SkipAtoms opts); by res_inv. }
  by eapply lazyEntries_eager; [eapply ParseDirectory_wf|].
Qed.

(** ** Loading from the planned prefix *)

Lemma lazyEntries_prefix b opts g entries n g1 :
  0 ≤ n ≤ len b → Forall wf_entry_dir entries →
  Forall (λ e, sectionWanted (eID e) opts = true → to_u64 (Offset e + Length e) ≤ n) entries →
  lazyEntries (mkMemoryFetch b) opts g entries = Ok g1 →
  lazyEntries (mkMemoryFetch (take (Z.to_nat n) b)) opts g entries = Ok g1.
Proof.
  intros Hn Hwf HF. revert g. induction HF as [|e rest He _ IH]; intros g H; simpl in *; [done|].
  inversion Hwf as [|? ? (_ & Ho & Hl) Hwf']; subst.
  destruct (sectionWanted (eID e) opts) eqn:Hw; [|by apply IH]. res_inv. specialize (He eq_refl).
  apply memory_fetch_iff in E as [Hend Es]; [|done..].
  rewrite (wrapU_small 64) in He by lia.
  rewrite (proj2 (memory_fetch_iff _ (Offset e) (Length e) v Ho Hl)).
  - simpl. case_decide; [done|]. res_inv. rewrite E. simpl. by apply IH.
  - split; [done|]. rewrite <- Es. apply agree_slice; [lia| |].
    + apply slice_range in Es. lia.
    + split; [unfold len in *; rewrite length_take; lia|].
      rewrite take_take. f_equal. lia.
Qed.

Lemma ParseLazy_prefix b opts g dir : len b < 18446744073709551616 →
  ParseDirectory b = Ok dir → FrontMatterLen (len dir) ≤ LoadPrefixLen dir opts ≤ len b →
  ParseLazy (mkMemoryFetch b) opts = Ok g →
  ParseLazy (mkMemoryFetch (take (Z.to_nat (LoadPrefixLen dir opts)) b)) opts = Ok g.
Proof.
  intros Hsz Hd Hp H. assert (∃ n, SectionCount b = Ok n) as [n Hn].
  { unfold ParseDirectory in Hd. res_inv. eauto. }
  pose proof (SectionCount_range _ _ Hn) as Hr.
  assert (len dir = n) as Edir.
  { pose proof Hd as Hd'. unfold ParseDirectory in Hd'. rewrite Hn in Hd'. cbn [mbind res_bind] in Hd'.
    res_inv. destruct v as [l c]. res_inv.
    destruct (spec_Ok _ _ _ _ _ (spec_dirLoop _) (newCursor_cwf b) E) as (_ & _ & _ & El & _).
    unfold len. lia. }
  rewrite Edir, FrontMatterLen_small in Hp by done.
  rewrite (ParseLazy_unfold b opts n dir Hn Hd Hsz) in H.
  set (p := LoadPrefixLen dir opts) in *.
  assert (agree p b (take (Z.to_nat p) b)) as Ha.
  { split; [unfold len in *; rewrite length_take; lia|]. by rewrite take_take, Nat.min_id. }
  rewrite (ParseLazy_unfold (take (Z.to_nat p) b) opts n dir).
  - eapply lazyEntries_prefix; [lia|by eapply ParseDirectory_wf| |done].
    apply Forall_forall. intros e He Hw.
    destruct (loadPrefix_covers opts dir (0, false) e He Hw) as [Hc Hf].
    unfold p, LoadPrefixLen. by rewrite Hf.
  - eapply SectionCount_front; [|done]. eapply agree_le; [|done]. lia.
  - destruct (ParseDirectory_front b (take (Z.to_nat p) b) n dir Hn Hd); [|done].
    eapply agree_le; [|done]. lia.
  - unfold len in *. rewrite length_take. lia.
Qed.

End agreement.

(** ** Properties *)

(** Loading on demand agrees with loading eagerly, but for section 8: when
    the whole-buffer parse succeeds, fetching the same bytes section by section
    gives the same graph with the existence bitmap left out. *)
Theorem ParseLazy_agrees {bm} `{Roaring bm} (b : list byte) (po : ParseOptions) (g : GraphSection bm) :
  len b < 18446744073709551616 → ParseWith b po = Ok g →
  ParseLazy (mkMemoryFetch b) po = Ok (noExistence g).
Proof. apply ParseLazy_eager. Qed.

Definition demoFile : list byte := (WriteWith demoGraph [] (mkWriteOptions true true true true)).1.

Lemma demoFile_parses : ParseWith demoFile DefaultParseOptions =
  Ok (visible demoGraph (mkWriteOptions true true true true) DefaultParseOptions).
Proof.
  unfold demoFile. rewrite WriteWith_buffer by apply demoGraph_wf.
  apply ParseWith_file; [apply demoGraph_wf|by vm_compute].
Qed.

Lemma ParseLazy_agrees_witness :
  ParseLazy (mkMemoryFetch demoFile) DefaultParseOptions =
    Ok (noExistence (visible demoGraph (mkWriteOptions true true true true) DefaultParseOptions)).
Proof. apply ParseLazy_agrees; [by vm_compute|apply demoFile_parses]. Defined.

(** The existence bitmap a writer stored is lost by an on-demand load:
    a file written with it parses eagerly with it and lazily without. *)
Theorem ParseLazy_loses_existence {bm} `{RoaringLaws bm} (g : GraphSection bm) (e : bm) :
  wf_graph g → Existence g = Some e →
  let wo := mkWriteOptions true true false true in
  len (fileBytes (sectionsOf g wo)) < 18446744073709551616 →
  ∃ b ge gl, WriteWith g [] wo = (b, Ok ()) ∧
    ParseWith b DefaultParseOptions = Ok ge ∧ Existence ge = Some e ∧
    ParseLazy (mkMemoryFetch b) DefaultParseOptions = Ok gl ∧ Existence gl = None.
Proof.
  intros Hg He wo Hsz. pose proof (ParseWith_file g wo DefaultParseOptions Hg Hsz) as P.
  eexists _, _, _. split; [by apply WriteWith_buffer|]. split; [exact P|]. split; [exact He|].
  split; [by apply ParseLazy_eager|done].
Qed.

Lemma ParseLazy_loses_existence_witness :
  let wo := mkWriteOptions true true false true in
  ∃ b ge gl, WriteWith demoGraph [] wo = (b, Ok ()) ∧
    ParseWith b DefaultParseOptions = Ok ge ∧ Existence ge = Some [Byte.x3a] ∧
    ParseLazy (mkMemoryFetch b) DefaultParseOptions = Ok gl ∧ Existence gl = None.
Proof. apply (ParseLazy_loses_existence demoGraph [Byte.x3a]); [apply demoGraph_wf|done|by vm_compute]. Defined.

(** A prefix read suffices: when an on-demand load of a file succeeds, the
    same load succeeds with the same result on the first [LoadPrefixLen] bytes
    of the file, which cover the front matter and every wanted section. *)
Theorem ParseLazy_from_prefix {bm} `{Roaring bm} (b : list byte) (po : ParseOptions)
    (g : GraphSection bm) (dir : list DirEntry) :
  len b < 18446744073709551616 → ParseDirectory b = Ok dir →
  FrontMatterLen (len dir) ≤ LoadPrefixLen dir po ≤ len b →
  ParseLazy (mkMemoryFetch b) po = Ok g →
  ParseLazy (mkMemoryFetch (take (Z.to_nat (LoadPrefixLen dir po)) b)) po = Ok g.
Proof. apply ParseLazy_prefix. Qed.

Lemma ParseLazy_from_prefix_witness :
  ∃ g dir, ParseDirectory demoFile = Ok dir ∧
    LoadPrefixLen dir TopologyOnlyParseOptions < len demoFile ∧
    ParseLazy (bm:=rawBitmap) (mkMemoryFetch
      (take (Z.to_nat (LoadPrefixLen dir TopologyOnlyParseOptions)) demoFile))
      TopologyOnlyParseOptions = Ok g.
Proof.
  pose (dir := match ParseDirectory demoFile with Ok d => d | _ => [] end).
  pose (g := match ParseLazy (bm:=rawBitmap) (mkMemoryFetch demoFile) TopologyOnlyParseOptions with
             | Ok g => g | _ => emptyGraph end).
  exists g, dir. split; [by vm_compute|]. split; [by vm_compute|].
  apply (ParseLazy_from_prefix demoFile TopologyOnlyParseOptions g dir); [by vm_compute..|].
  by vm_compute.
Defined.

(** Loading on demand is total: with any fetcher that answers a request
    with exactly the bytes asked for or with an error, [ParseLazy] returns a
    graph or an error and never panics. *)
Theorem ParseLazy_never_panics {bm F} `{Roaring bm} `{FetchLaws F} (f : F) (po : ParseOptions) :
  safe (ParseLazy (bm:=bm) f po).
Proof. apply ParseLazy_safe. Qed.

Lemma ParseLazy_never_panics_witness :
  safe (ParseLazy (bm:=rawBitmap) (mkMemoryFetch [Byte.x52; Byte.x43]) DefaultParseOptions).
Proof. apply ParseLazy_never_panics. Defined.
