(* ===== verification/RcpgAtoms.v ===== *)
(** Block-lazy atom resolution: [src/rcpg/atoms_lazy.go].

    An [AtomReader] resolves atom ids through a [SectionFetch] without holding
    the atom table: a resident router of block offsets, discovered by a forward
    scan of the length prefixes or adopted from the file's own index, and a
    FIFO cache of decoded blocks. Methods return an outcome and the reader they
    leave behind, also when they fail: the receiver is a pointer and its fields
    are assigned along the way. The mutex serializes calls, so a call is one
    step.

    The theorems: over a well-formed section every id resolves to the atom the
    eager decoder would give, whatever the block length, chunk size, cache
    bound and history of earlier lookups; behind a provider that fails at any
    call the reader terminates on any section contents, never answers wrongly
    on a well-formed one and recovers with the provider; and after a scan that
    met a corrupt atom a later lookup answers with a wrong atom. *)

From S2P Require Import Prelude RcpgCursor RcpgColumn RcpgSection RcpgDirectory RcpgFile RcpgLazy.

Section reader.
Context {F : Type} `{HF : SectionFetch F}.

Record AtomReader := mkAtomReader {
  r_f : F;
  r_off : Z;
  r_size : Z;
  r_n : Z;
  r_blockLen : Z;
  r_scanChunk : Z;
  r_cacheCap : Z;
  r_starts : list Z;
  r_frontier : Z;
  r_scanned : Z;
  r_cache : gmap Z (list gostring);
  r_fifo : list Z;
}.
Implicit Types r : AtomReader.

(** Assignments to the fields a scan and a block load change. *)
Definition set_scan r (starts : list Z) (frontier scanned : Z) : AtomReader :=
  mkAtomReader (r_f r) (r_off r) (r_size r) (r_n r) (r_blockLen r) (r_scanChunk r) (r_cacheCap r)
    starts frontier scanned (r_cache r) (r_fifo r).
Definition set_cache r cache fifo : AtomReader :=
  mkAtomReader (r_f r) (r_off r) (r_size r) (r_n r) (r_blockLen r) (r_scanChunk r) (r_cacheCap r)
    (r_starts r) (r_frontier r) (r_scanned r) cache fifo.
Definition set_router r (blockLen : Z) (starts : list Z) (scanned frontier : Z) : AtomReader :=
  mkAtomReader (r_f r) (r_off r) (r_size r) (r_n r) blockLen (r_scanChunk r) (r_cacheCap r)
    starts frontier scanned (r_cache r) (r_fifo r).

(** [r.f.Fetch(offset, length)]: the provider answers and moves on. *)
Definition set_f r (f : F) : AtomReader :=
  mkAtomReader f (r_off r) (r_size r) (r_n r) (r_blockLen r) (r_scanChunk r) (r_cacheCap r)
    (r_starts r) (r_frontier r) (r_scanned r) (r_cache r) (r_fifo r).
Definition Fetch r (offset length : Z) : res (list byte) * AtomReader :=
  (fetch (r_f r) offset length, set_f r (after (r_f r) offset length)).

(** [binary.LittleEndian.Uint32(b)]: panics on fewer than four bytes. *)
Definition leUint32 (b : list byte) : res Z := w ← slice b 0 4; Ok (le_combine w).

(** ** The forward scan *)

(** The inner loop over one fetched chunk; [k] is [target - r.scanned], the
    atoms still wanted. Returns [pos] and [need]. *)
Fixpoint scanInner (k : nat) (buf : list byte) (pos need : Z) r : res (Z * Z) * AtomReader :=
  match k with
  | O => (Ok (pos, need), r)
  | S k' =>
      if decide (len buf < pos + 4) then (Ok (pos, need), r)
      else match tail ← slice buf pos (len buf); leUint32 tail with
      | Err e => (Err e, r)
      | Panic => (Panic, r)
      | Ok slen =>
          if decide (r_size r < to_u64 (r_frontier r + pos + 4 + slen))
          then (corruptf "atom %d (len %d) extends past its section (%d bytes)"
                  [r_scanned r; slen; r_size r], r)
          else if decide (len buf < to_u64 (pos + 4 + slen))
          then (Ok (pos, 4 + slen), r)
          else
            let pos := to_u64 (pos + 4 + slen) in
            let scanned := to_u32 (r_scanned r + 1) in
            let starts := if decide (scanned `mod` r_blockLen r = 0)
                          then r_starts r ++ [to_u64 (r_frontier r + pos)] else r_starts r in
            scanInner k' buf pos need (set_scan r starts (r_frontier r) scanned)
      end
  end.

(** The outer loop, one fetch a round; [None] when [fuel] runs out. *)
Fixpoint scanLoop (fuel : nat) (target need : Z) r : option (res () * AtomReader) :=
  if decide (target ≤ r_scanned r) then Some (Ok (), r)
  else match fuel with
  | O => None
  | S fuel' =>
      let remain := to_u64 (r_size r - r_frontier r) in
      if decide (remain = 0)
      then Some (corruptf "atoms section truncated: %d of %d atoms present" [r_scanned r; r_n r], r)
      else match Fetch r (to_u64 (r_off r + r_frontier r)) (Z.min need remain) with
      | (Err e, r) => Some (Err e, r)
      | (Panic, r) => Some (Panic, r)
      | (Ok buf, r) =>
          match scanInner (Z.to_nat (target - r_scanned r)) buf 0 (r_scanChunk r) r with
          | (Err e, r) => Some (Err e, r)
          | (Panic, r) => Some (Panic, r)
          | (Ok (pos, need), r) =>
              if decide (pos = 0 ∧ need = r_scanChunk r)
              then Some (corruptf "atoms section truncated: %d of %d atoms present"
                           [r_scanned r; r_n r], r)
              else scanLoop fuel' target need
                     (set_scan r (r_starts r) (to_u64 (r_frontier r + pos)) (r_scanned r))
          end
      end
  end.

(** Rounds that are always enough: a round that consumes no atom is followed
    by one that does. *)
Definition scanFuel (target : Z) r : nat := Z.to_nat (2 * (target - r_scanned r) + 1).

Definition ensureScanned (target : Z) r : option (res () * AtomReader) :=
  scanLoop (scanFuel target r) target (r_scanChunk r) r.

(** ** Block loads and lookups *)

Definition decodeBlock (count : Z) (body : list byte) (b : Z) : res (list gostring) :=
  '(blk, c) ← cursor.times (Z.to_nat count) cursor.str (cursor.newCursor body);
  if decide (cursor.remaining c ≠ 0)
  then corruptf "atom block %d decoded short: %d trailing bytes" [b; cursor.remaining c]
  else Ok blk.

(** File a decoded block, evicting the oldest one at the bound. *)
Definition fileBlock r (b : Z) (blk : list gostring) : res AtomReader :=
  '(cache, fifo) ← (if decide (r_cacheCap r ≤ Z.of_nat (size (r_cache r))) then
      oldest ← idx (r_fifo r) 0; fifo ← slice (r_fifo r) 1 (len (r_fifo r));
      Ok (delete oldest (r_cache r), fifo)
    else Ok (r_cache r, r_fifo r));
  Ok (set_cache r (<[b := blk]> cache) (fifo ++ [b])).

Definition loadBlock (b : Z) r : option (res (list gostring) * AtomReader) :=
  let last := to_u32 (Z.min (to_u64 (to_u32 (b + 1) * r_blockLen r)) (r_n r)) in
  match ensureScanned last r with
  | None => None
  | Some (Err e, r) => Some (Err e, r)
  | Some (Panic, r) => Some (Panic, r)
  | Some (Ok _, r) =>
      match start ← idx (r_starts r) b;
            end_ ← (if decide (b + 1 < len (r_starts r)) then idx (r_starts r) (b + 1)
                    else Ok (r_frontier r));
            Ok (start, end_) with
      | Err e => Some (Err e, r)
      | Panic => Some (Panic, r)
      | Ok (start, end_) =>
          let '(got, r) := Fetch r (to_u64 (r_off r + start)) (to_u64 (end_ - start)) in
          match body ← got; decodeBlock (to_u32 (last - to_u32 (b * r_blockLen r))) body b with
          | Err e => Some (Err e, r)
          | Panic => Some (Panic, r)
          | Ok blk => match fileBlock r b blk with
                      | Ok r => Some (Ok blk, r)
                      | Err e => Some (Err e, r)
                      | Panic => Some (Panic, r)
                      end
          end
      end
  end.

Definition Count r : Z := r_n r.

Definition Atom_ r (id : Z) : option (res gostring * AtomReader) :=
  if decide (r_n r ≤ id)
  then Some (corruptf "atom id %d out of range (%d atoms)" [id; r_n r], r)
  else if decide (r_blockLen r = 0) then Some (Panic, r)
  else
    let b := id / r_blockLen r in
    match r_cache r !! b with
    | Some blk => Some (idx blk (id `mod` r_blockLen r), r)
    | None =>
        match loadBlock b r with
        | None => None
        | Some (Ok blk, r) => Some (idx blk (id `mod` r_blockLen r), r)
        | Some (Err e, r) => Some (Err e, r)
        | Some (Panic, r) => Some (Panic, r)
        end
    end.

(** ** Opening a reader *)

Definition adoptIndex r (entry : DirEntry) (count : Z) : res AtomReader :=
  let '(got, r) := Fetch r (Offset entry) (Length entry) in
  body ← got;
  i ← decodeAtomIndex body;
  if decide (BlockLen i = 0) then corruptf "atom index: block_len is zero" []
  else
    let expected := (count + BlockLen i - 1) / BlockLen i in
    if decide (len (Offsets i) ≠ expected)
    then corruptf "atom index: offset count does not match the atom count" []
    else
      _ ← (if decide (0 < expected) then
             o0 ← idx (Offsets i) 0;
             if decide (o0 ≠ 4) then corruptf "atom index: entry 0 is not 4" []
             else
               oL ← idx (Offsets i) (len (Offsets i) - 1);
               if decide (r_size r ≤ oL)
               then corruptf "atom index: offset past the atoms section (%d >= %d)" [oL; r_size r]
               else Ok ()
           else Ok ());
      Ok (set_router r (BlockLen i) (Offsets i) count (r_size r)).

(** The last directory entry with an id wins. *)
Definition lastEntry (id : Z) (dir : list DirEntry) : option DirEntry :=
  foldl (λ acc e, if decide (eID e = id) then Some e else acc) None dir.

Definition newAtomReader (f : F) (dir : list DirEntry) (blockLen scanChunk cacheCap : Z)
    : res AtomReader :=
  match lastEntry sectionAtoms dir with
  | None => corruptf "no atoms section in directory" []
  | Some entry =>
      if decide (Length entry < 4)
      then corruptf "atoms section too short for its count (%d bytes)" [Length entry]
      else
        head ← fetch f (Offset entry) 4;
        count ← leUint32 head;
        if decide (Length entry - 4 < count)
        then corruptf "declared atom count %d exceeds section body (%d bytes)"
               [count; Length entry - 4]
        else
          let r := mkAtomReader (after f (Offset entry) 4) (Offset entry) (Length entry) count
            (Z.max blockLen 1) (Z.max scanChunk 16) (Z.max cacheCap 1) [4] 4 0 ∅ [] in
          match lastEntry sectionAtomIndex dir with
          | Some e => adoptIndex r e count
          | None => Ok r
          end
  end.

Definition atomBlockLen := 1024.
Definition atomScanChunk := Z.shiftl 512 10.
Definition atomCacheBlocks := 32.

Definition NewAtomReader (f : F) (dir : list DirEntry) : res AtomReader :=
  newAtomReader f dir atomBlockLen atomScanChunk atomCacheBlocks.

End reader.
Arguments AtomReader F : clear implicits.

(** ** The queue and the cache *)

(** The queue lists the resident blocks, each once. *)
Definition inStep {A} (fifo : list Z) (cache : gmap Z A) : Prop :=
  NoDup fifo ∧ ∀ b, b ∈ fifo ↔ is_Some (cache !! b).

Lemma inStep_size {A} fifo (cache : gmap Z A) : inStep fifo cache → size cache = length fifo.
Proof.
  intros [Hnd Hin]. assert (list_to_set fifo = dom cache) as E.
  { apply set_eq. intros x. by rewrite elem_of_list_to_set, Hin, elem_of_dom. }
  by rewrite <- size_dom, <- E, size_list_to_set.
Qed.

Lemma inStep_insert {A} fifo (cache : gmap Z A) b x : inStep fifo cache → cache !! b = None →
  inStep (fifo ++ [b]) (<[b := x]> cache).
Proof.
  intros [Hnd Hin] Hb. split.
  - apply NoDup_app. split_and!; [done| |apply NoDup_singleton].
    intros y Hy. rewrite list_elem_of_singleton. intros ->. apply Hin in Hy. rewrite Hb in Hy. by destruct Hy.
  - intros y. rewrite elem_of_app, list_elem_of_singleton, Hin, lookup_insert. case_decide.
    + subst. split; eauto.
    + split; [intros [?|?]; [done|congruence]|by left].
Qed.

Lemma inStep_evict {A} o fifo (cache : gmap Z A) : inStep (o :: fifo) cache →
  inStep fifo (delete o cache) ∧ is_Some (cache !! o).
Proof.
  intros [[Ho Hnd]%NoDup_cons Hin]. split; [split; [done|]|apply Hin; by left].
  intros b. rewrite lookup_delete. case_decide.
  - subst. split; [done|by intros []].
  - rewrite <- Hin, elem_of_cons. naive_solver.
Qed.

Lemma fileBlock_step {F} `{SectionFetch F} (r : AtomReader F) b blk :
  inStep (r_fifo r) (r_cache r) → Z.of_nat (size (r_cache r)) ≤ r_cacheCap r → 1 ≤ r_cacheCap r →
  r_cache r !! b = None →
  ∃ cache fifo, fileBlock r b blk = Ok (set_cache r cache fifo) ∧ inStep fifo cache ∧
    Z.of_nat (size cache) ≤ r_cacheCap r ∧
    ∀ b' blk', cache !! b' = Some blk' → b' = b ∧ blk' = blk ∨ r_cache r !! b' = Some blk'.
Proof.
  intros Hq Hbd Hcc Hmiss. pose proof (inStep_size _ _ Hq) as Esz.
  unfold fileBlock. case_decide as D; cbn [mbind res_bind].
  - destruct (r_fifo r) as [|o rest] eqn:Efi; [simpl in Esz; lia|].
    unfold idx. rewrite decide_False by lia. simpl.
    rewrite slice_ok; [|lia|rewrite len_cons; pose proof (len_nonneg rest); lia|lia]. simpl.
    rewrite ?drop_0. rewrite take_ge by (rewrite len_cons; unfold len; lia).
    pose proof (inStep_evict _ _ _ Hq) as [Hq' Ho].
    eexists _, _. split; [done|]. split_and!.
    + apply inStep_insert; [done|]. rewrite lookup_delete. by case_decide.
    + rewrite map_size_insert_None by (rewrite lookup_delete; by case_decide).
      rewrite map_size_delete_Some by done. simpl in Esz. lia.
    + intros b' blk'. rewrite lookup_insert. case_decide; [naive_solver|].
      rewrite lookup_delete. case_decide; [done|]. auto.
  - eexists _, _. split; [done|]. split_and!.
    + by apply inStep_insert.
    + rewrite map_size_insert_None by done. lia.
    + intros b' blk'. rewrite lookup_insert. case_decide; [naive_solver|]. auto.
Qed.

(** ** A well-formed section *)

Section wellformed.
Context {F : Type} `{HF : SectionFetch F}.
Context (good : F → Prop) (fails : Prop) (off : Z) (atoms : list gostring).
Implicit Types r : AtomReader F.

Abbreviation body := (atomsBytes atoms).
Abbreviation natoms := (len atoms).

(** In the state [f] the provider serves the bytes [s] at [off]; where [fails]
    it may also answer a range with an error. *)
Definition serves (fails : Prop) (f : F) (off : Z) (s : list byte) : Prop :=
  ∀ a k, 0 ≤ a → 0 ≤ k → a + k ≤ len s →
    (fails ∧ ∃ e, fetch f (off + a) k = Err e) ∨ fetch f (off + a) k = slice s a (a + k).

(** The states the provider runs through. *)
Context (Hgood : ∀ f a k, good f → good (after f a k)).
Context (Hwf : wf_atoms atoms) (Hoff : 0 ≤ off).
Context (Hfit : off + len body < 18446744073709551616) (Hserves : ∀ f, good f → serves fails f off body).

(** The offset of atom [i]'s length prefix. *)
Definition offOf (i : Z) : Z := 4 + len (concat (stringBytes <$> take (Z.to_nat i) atoms)).

Lemma offOf_0 : offOf 0 = 4.
Proof. done. Qed.

Lemma offOf_end i : natoms ≤ i → offOf i = len body.
Proof.
  intros Hi. unfold offOf, atomsBytes. rewrite len_app, len_le_split.
  rewrite take_ge; [done|]. unfold len in *. lia.
Qed.

Lemma offOf_mono i j : 0 ≤ i ≤ j → offOf i ≤ offOf j.
Proof.
  intros Hij. unfold offOf. replace (take (Z.to_nat j) atoms) with
    (take (Z.to_nat i) (take (Z.to_nat j) atoms) ++ drop (Z.to_nat i) (take (Z.to_nat j) atoms))
    by apply take_drop.
  rewrite take_take, Nat.min_l by lia. rewrite fmap_app, concat_app, len_app.
  pose proof (len_nonneg (concat (stringBytes <$> drop (Z.to_nat i) (take (Z.to_nat j) atoms)))). lia.
Qed.

Lemma offOf_le i : 0 ≤ i → offOf i ≤ len body.
Proof.
  intros Hi. rewrite <- (offOf_end (Z.max i natoms)) by lia. apply offOf_mono. lia.
Qed.

Lemma offOf_ge i : 4 ≤ offOf i.
Proof. unfold offOf. pose proof (len_nonneg (concat (stringBytes <$> take (Z.to_nat i) atoms))). lia. Qed.

Lemma atom_lookup i : 0 ≤ i < natoms → ∃ s, atoms !! Z.to_nat i = Some s ∧ wf_string s.
Proof using Hwf.
  intros Hi. destruct (lookup_lt_is_Some_2 atoms (Z.to_nat i)) as [s Hs]; [unfold len in *; lia|].
  exists s. split; [done|]. destruct Hwf as [_ HW]. by eapply Forall_lookup_1.
Qed.

Lemma offOf_S i s : 0 ≤ i → atoms !! Z.to_nat i = Some s → offOf (i + 1) = offOf i + 4 + len s.
Proof.
  intros Hi Hs. unfold offOf. replace (Z.to_nat (i + 1)) with (S (Z.to_nat i)) by lia.
  rewrite (take_S_r _ _ s) by done. rewrite fmap_app, concat_app, len_app. simpl.
  unfold stringBytes at 2. rewrite app_nil_r, len_app, len_le_split. lia.
Qed.

(** The section around atom [i], and a run of atoms. *)
Lemma body_at i : 0 ≤ i → ∃ pre, len pre = offOf i ∧
  body = pre ++ concat (stringBytes <$> drop (Z.to_nat i) atoms).
Proof.
  intros Hi. exists (le_split 4 natoms ++ concat (stringBytes <$> take (Z.to_nat i) atoms)).
  split; [by rewrite len_app, len_le_split|].
  rewrite <- (assoc_L (++)), <- concat_app, <- fmap_app, take_drop. done.
Qed.

Lemma slice_run i j : 0 ≤ i ≤ j →
  slice body (offOf i) (offOf j) =
    Ok (concat (stringBytes <$> take (Z.to_nat (j - i)) (drop (Z.to_nat i) atoms))).
Proof.
  intros Hij. destruct (body_at i) as (pre & Hpre & E); [lia|]. rewrite E, <- Hpre.
  rewrite <- (take_drop (Z.to_nat (j - i)) (drop (Z.to_nat i) atoms)) at 1.
  rewrite fmap_app, concat_app.
  replace (offOf j) with (len pre +
    len (concat (stringBytes <$> take (Z.to_nat (j - i)) (drop (Z.to_nat i) atoms)))).
  { apply slice_mid. }
  rewrite Hpre. unfold offOf. rewrite <- Z.add_assoc. f_equal.
  rewrite <- len_app, <- concat_app, <- fmap_app, take_take_drop. do 4 f_equal. lia.
Qed.

(** Reading the length prefix of atom [i] from a chunk that holds it. *)
Lemma chunk_prefix i s front n buf : 0 ≤ i → atoms !! Z.to_nat i = Some s → wf_string s →
  0 ≤ front ≤ offOf i → offOf i + 4 ≤ front + n → slice body front (front + n) = Ok buf →
  (tail ← slice buf (offOf i - front) (len buf); leUint32 tail) = Ok (len s).
Proof.
  intros Hi Hs [Hl _] Hf Hn Hb.
  pose proof (slice_range _ _ _ _ Hb) as Hrange. pose proof (slice_len _ _ _ _ Hb) as Hlen.
  destruct (body_at i Hi) as (pre & Hpre & E).
  rewrite (drop_S _ s) in E by done. rewrite fmap_cons in E. cbn [concat] in E.
  unfold stringBytes at 1 in E. rewrite <- !(assoc_L (++)) in E.
  assert (slice buf (offOf i - front) (offOf i - front + 4) = Ok (le_split 4 (len s))) as H4.
  { rewrite slice_ok in Hb by lia. injection Hb as <-.
    rewrite slice_ok; [|lia..|]; cycle 1.
    { unfold len in *. rewrite length_take, length_drop in *. lia. }
    replace (offOf i - front + 4 - (offOf i - front)) with 4 by lia.
    rewrite skipn_firstn_comm, drop_drop, take_take.
    replace (Z.to_nat front + Z.to_nat (offOf i - front))%nat with (length pre) by (unfold len in *; lia).
    rewrite E, drop_app_length, Nat.min_l by lia.
    replace (Z.to_nat 4) with (length (le_split 4 (len s))) by (by rewrite length_le_split).
    by rewrite take_app_length. }
  pose proof (slice_range _ _ _ _ H4) as H4r.
  rewrite slice_ok by lia. simpl. unfold leUint32.
  rewrite slice_ok; [|lia..|]; cycle 1.
  { unfold len in *. rewrite length_take, length_drop. lia. }
  rewrite slice_ok in H4 by lia. injection H4 as H4.
  replace (offOf i - front + 4 - (offOf i - front)) with 4 in H4 by lia.
  simpl. rewrite drop_0, take_take, Nat.min_l by (unfold len in *; lia).
  rewrite Z.sub_0_r. rewrite H4. f_equal. apply le_combine_u. pose proof (len_nonneg s). lia.
Qed.

(** ** The reader's invariant *)

Definition blockOf (bl b : Z) : list gostring :=
  take (Z.to_nat (Z.min ((b + 1) * bl) natoms - b * bl)) (drop (Z.to_nat (b * bl)) atoms).

(** The router holds the offset of every block start among the first [s]
    atoms, and nothing else. *)
Record startsOK (bl : Z) (starts : list Z) (s : Z) : Prop := {
  so_sound : ∀ b o, starts !! b = Some o → Z.of_nat b * bl ≤ s ∧ o = offOf (Z.of_nat b * bl);
  so_complete : ∀ b : nat, Z.of_nat b * bl ≤ s → Z.of_nat b * bl < natoms → is_Some (starts !! b);
  so_len : s < natoms → len starts = s / bl + 1;
}.

Record readerOK r : Prop := {
  ro_f : good (r_f r);
  ro_off : r_off r = off;
  ro_size : r_size r = len body;
  ro_n : r_n r = natoms;
  ro_blockLen : 0 < r_blockLen r < 4294967296;
  ro_scanChunk : 16 ≤ r_scanChunk r;
  ro_cacheCap : 1 ≤ r_cacheCap r;
  ro_scanned : 0 ≤ r_scanned r ≤ natoms;
  ro_frontier : r_frontier r = offOf (r_scanned r);
  ro_starts : startsOK (r_blockLen r) (r_starts r) (r_scanned r);
  ro_cache : ∀ b blk, r_cache r !! b = Some blk →
    0 ≤ b ∧ b * r_blockLen r < natoms ∧ blk = blockOf (r_blockLen r) b;
  ro_fifo : inStep (r_fifo r) (r_cache r);
  ro_bound : Z.of_nat (size (r_cache r)) ≤ r_cacheCap r;
}.

Lemma startsOK_step bl starts s : 0 < bl → 0 ≤ s < natoms → startsOK bl starts s →
  startsOK bl (if decide ((s + 1) `mod` bl = 0) then starts ++ [offOf (s + 1)] else starts) (s + 1).
Proof.
  intros Hbl Hs [So Co Le]. specialize (Le ltac:(lia)).
  pose proof (Z.div_mod (s + 1) bl ltac:(lia)) as D1. pose proof (Z.mod_pos_bound (s + 1) bl Hbl).
  pose proof (Z.div_mod s bl ltac:(lia)) as D0. pose proof (Z.mod_pos_bound s bl Hbl).
  case_decide as D.
  - assert ((s + 1) / bl = len starts) as Eq by nia.
    split.
    + intros b o [Hb|[Hb Ho]]%lookup_app_Some; [destruct (So b o Hb); lia|].
      apply list_lookup_singleton_Some in Ho as [Ho <-].
      assert (Z.of_nat b = len starts) by (unfold len; lia). split; [nia|f_equal; nia].
    + intros b Hb Hn. destruct (decide (Z.of_nat b * bl ≤ s)) as [Hle|Hgt].
      * destruct (Co b Hle Hn) as [o Ho]. exists o. by apply lookup_app_l_Some.
      * assert (Z.of_nat b = len starts) by nia. exists (offOf (s + 1)).
        rewrite lookup_app_r by (unfold len in *; lia).
        by replace (b - length starts)%nat with 0%nat by (unfold len in *; lia).
    + intros _. rewrite len_app. change (len [offOf (s + 1)]) with 1. lia.
  - assert ((s + 1) / bl = s / bl) as Eq by nia. split.
    + intros b o Hb. destruct (So b o Hb). split; [lia|done].
    + intros b Hb Hn. apply Co; [|done]. destruct (decide (Z.of_nat b * bl = s + 1)) as [E|]; [|lia].
      rewrite <- E, Z.mod_mul in D by lia. done.
    + intros _. lia.
Qed.

Lemma set_f_OK r a k : readerOK r → readerOK (set_f r (after (r_f r) a k)).
Proof using Hgood. intros []. split; simpl; auto. Qed.

(** Same reader up to the scan state. *)
Lemma set_scan_OK r starts s :
  readerOK r → 0 ≤ s ≤ natoms → startsOK (r_blockLen r) starts s →
  readerOK (set_scan r starts (offOf s) s).
Proof. intros [] ? ?. by split. Qed.

(** The inner loop, started at atom [r_scanned r] with [pos] bytes of the
    chunk consumed, stops at an atom boundary of the chunk. *)
Lemma scanInner_ok k buf front n pos need r :
  0 ≤ front → slice body front (front + n) = Ok buf →
  r_frontier r = front → 0 ≤ pos → front + pos = offOf (r_scanned r) →
  0 ≤ r_scanned r → r_scanned r + Z.of_nat k ≤ natoms → 0 < r_blockLen r →
  r_size r = len body → startsOK (r_blockLen r) (r_starts r) (r_scanned r) → pos ≤ n →
  ∃ pos' need' starts' s',
    scanInner k buf pos need r = (Ok (pos', need'), set_scan r starts' front s') ∧
    r_scanned r ≤ s' ≤ r_scanned r + Z.of_nat k ∧ front + pos' = offOf s' ∧ pos' ≤ n ∧
    startsOK (r_blockLen r) starts' s' ∧
    (s' = r_scanned r + Z.of_nat k ∧ need' = need ∨
     n < pos' + 4 ∧ need' = need ∨
     s' < natoms ∧ need' = offOf (s' + 1) - offOf s' ∧ n < pos' + need').
Proof using Hwf Hoff Hfit.
  intros Hf Hb. revert pos r. induction k as [|k IH]; intros pos r Hfr Hpos Hat Hs0 Hk Hbl Hsz Hso Hpn; simpl.
  { exists pos, need, (r_starts r), (r_scanned r). split_and!; try done; try lia.
    subst front. by destruct r. }
  pose proof (slice_len _ _ _ _ Hb) as Hlen.
  case_decide as D.
  { exists pos, need, (r_starts r), (r_scanned r). split_and!; try done; try lia.
    subst front. by destruct r. }
  destruct (atom_lookup (r_scanned r)) as (s & Hs & Hws); [lia|].
  pose proof (chunk_prefix (r_scanned r) s front n buf Hs0 Hs Hws ltac:(lia) ltac:(lia) Hb) as CP.
  replace (offOf (r_scanned r) - front) with pos in CP by lia. rewrite CP. clear CP.
  pose proof (offOf_S (r_scanned r) s Hs0 Hs) as Enext.
  pose proof (offOf_le (r_scanned r + 1) ltac:(lia)) as Hle.
  pose proof (len_nonneg s). destruct Hws as [Hws _].
  rewrite Hfr, Hsz, (wrapU_small 64 (front + pos + 4 + len s)) by lia.
  rewrite decide_False by lia. rewrite (wrapU_small 64 (pos + 4 + len s)) by lia.
  case_decide as D2.
  { exists pos, (4 + len s), (r_starts r), (r_scanned r). split_and!; try done; try lia.
    subst front. by destruct r. }
  pose proof (proj1 Hwf) as Hcount.
  rewrite (wrapU_small 32 (r_scanned r + 1)) by lia.
  rewrite (wrapU_small 64 (front + (pos + 4 + len s))) by lia.
  replace (front + (pos + 4 + len s)) with (offOf (r_scanned r + 1)) by lia.
  set (starts1 := if decide _ then _ else _).
  destruct (IH (pos + 4 + len s) (set_scan r starts1 front (r_scanned r + 1)))
    as (pos' & need' & starts' & s' & E & Hs' & Hat' & Hp' & Hso' & Hend); simpl; try done; try lia.
  { apply startsOK_step; [done|lia|done]. }
  exists pos', need', starts', s'. rewrite E. simpl in *. split_and!; try done; try lia.
Qed.

Lemma offOf_lt i j : 0 ≤ i < j → i < natoms → offOf i + 4 ≤ offOf j.
Proof using Hwf.
  intros Hij Hi. destruct (atom_lookup i) as (s & Hs & _); [lia|].
  pose proof (offOf_S i s ltac:(lia) Hs). pose proof (offOf_mono (i + 1) j).
  pose proof (len_nonneg s). lia.
Qed.

(** The value expected, or an error where the provider may fail. *)
Definition answers {A} (o : res A) (a : A) : Prop := o = Ok a ∨ fails ∧ ∃ e, o = Err e.

Lemma served_chunk f s n : good f → 0 ≤ s → 0 ≤ n → offOf s + n ≤ len body →
  (fails ∧ ∃ e, fetch f (to_u64 (off + offOf s)) n = Err e) ∨
  ∃ buf, fetch f (to_u64 (off + offOf s)) n = Ok buf ∧ slice body (offOf s) (offOf s + n) = Ok buf.
Proof using Hoff Hfit Hserves.
  intros Hf Hs Hn Hle. pose proof (offOf_ge s). rewrite (wrapU_small 64) by lia.
  destruct (Hserves f Hf (offOf s) n) as [?| ->]; [lia..|by left|right]. rewrite slice_ok by lia. eauto.
Qed.

(** The scan from [r] left the provider in state [f] and [s] atoms known. *)
Definition scannedTo r f starts s : AtomReader F := set_scan (set_f r f) starts (offOf s) s.

Lemma scannedTo_id r : readerOK r → scannedTo r (r_f r) (r_starts r) (r_scanned r) = r.
Proof. intros Hr. unfold scannedTo. rewrite <- (ro_frontier _ Hr). by destruct r. Qed.

Lemma scanLoop_ok fuel target need r :
  readerOK r → target ≤ natoms →
  need = r_scanChunk r ∨ need = offOf (r_scanned r + 1) - offOf (r_scanned r) →
  2 * (target - r_scanned r) + (if decide (need = r_scanChunk r) then 1 else 0) ≤ Z.of_nat fuel →
  ∃ o f starts s, scanLoop fuel target need r = Some (o, scannedTo r f starts s) ∧
    readerOK (scannedTo r f starts s) ∧ answers o () ∧ (o = Ok () → target ≤ s).
Proof using Hgood Hwf Hoff Hfit Hserves.
  revert need r. induction fuel as [|fuel IH]; intros need r Hr Ht Hneed Hfuel; cbn [scanLoop].
  { assert (target ≤ r_scanned r) by (case_decide; lia).
    rewrite decide_True by done. exists (Ok ()), (r_f r), (r_starts r), (r_scanned r).
    rewrite scannedTo_id by done. split_and!; [done..|by left|done]. }
  destruct (decide (target ≤ r_scanned r)) as [D|D].
  { exists (Ok ()), (r_f r), (r_starts r), (r_scanned r).
    rewrite scannedTo_id by done. split_and!; [done..|by left|done]. }
  pose proof Hr as [Ef Eo Es En Hbl Hsc Hcc Hs Efr Hso _ _ _].
  set (s := r_scanned r) in *.
  pose proof (offOf_lt s (s + 1) ltac:(lia) ltac:(lia)) as Hstep.
  pose proof (offOf_le (s + 1) ltac:(lia)) as Hle1. pose proof (offOf_ge s).
  rewrite Efr, Es, (wrapU_small 64 (len body - offOf s)) by lia.
  rewrite decide_False by lia. unfold Fetch. rewrite Eo.
  set (n := Z.min need (len body - offOf s)). set (f' := after (r_f r) (to_u64 (off + offOf s)) n).
  pose proof (set_f_OK r (to_u64 (off + offOf s)) n Hr : readerOK (set_f r f')) as Hr'.
  destruct (served_chunk (r_f r) s n Ef) as [[Hfl [e ->]]|(buf & -> & Esl)]; [lia..| |].
  { exists (Err e), f', (r_starts r), s. replace (scannedTo r f' (r_starts r) s) with (set_f r f') by (symmetry; apply (scannedTo_id (set_f r f') Hr')).
    split_and!; [done..|right; eauto|done]. }
  change (r_scanned (set_f r f')) with s. change (r_scanChunk (set_f r f')) with (r_scanChunk r).
  destruct (scanInner_ok (Z.to_nat (target - s)) buf (offOf s) n
    0 (r_scanChunk r) (set_f r f')) as (pos & need' & starts & s' & -> & Hs' & Hat & Hp & Hso' & Hend);
    simpl; try done; try lia; try (unfold s in *; lia); try (unfold n; lia).
  simpl in Hs', Hend, Hso'. fold s in Hs', Hend.
  assert (s' = s ∨ s < s' ∧ offOf s + 4 ≤ offOf s') as Hprog.
  { destruct (decide (s' = s)); [by left|right]. split; [lia|]. apply offOf_lt; lia. }
  rewrite decide_False.
  2:{ intros [-> ->]. destruct Hprog as [->|]; lia. }
  rewrite (wrapU_small 64 (offOf s + pos)) by (pose proof (offOf_le s' ltac:(lia)); pose proof (offOf_ge s'); lia).
  rewrite Hat. change (set_scan _ starts (offOf s') s') with (scannedTo r f' starts s').
  destruct (IH need' (scannedTo r f' starts s'))
    as (o & f'' & starts'' & s'' & E & Hr'' & Ha & Ht''); simpl; try done.
  - apply (set_scan_OK (set_f r f')); [done|lia|done].
  - destruct Hprog as [->|]; lia.
  - destruct Hprog as [->|]; repeat case_decide; lia.
  - exists o, f'', starts'', s''. split; [exact E|done].
Qed.

Lemma ensureScanned_ok target r : readerOK r → target ≤ natoms →
  ∃ o f starts s, ensureScanned target r = Some (o, scannedTo r f starts s) ∧
    readerOK (scannedTo r f starts s) ∧ answers o () ∧ (o = Ok () → target ≤ s).
Proof using Hgood Hwf Hoff Hfit Hserves.
  intros Hr Ht. unfold ensureScanned, scanFuel. destruct (decide (target ≤ r_scanned r)).
  - exists (Ok ()), (r_f r), (r_starts r), (r_scanned r). rewrite scannedTo_id by done.
    split_and!; [|done|by left|done]. destruct (Z.to_nat _); simpl; by rewrite decide_True.
  - apply scanLoop_ok; [done..|by left|]. rewrite decide_True by done. lia.
Qed.

Lemma decodeBlock_ok i j b : 0 ≤ i ≤ j → j ≤ natoms →
  decodeBlock (j - i) (concat (stringBytes <$> take (Z.to_nat (j - i)) (drop (Z.to_nat i) atoms))) b =
  Ok (take (Z.to_nat (j - i)) (drop (Z.to_nat i) atoms)).
Proof using Hwf.
  intros Hij Hj. unfold decodeBlock. set (blk := take _ _).
  assert (length blk = Z.to_nat (j - i)) as El.
  { unfold blk. rewrite length_take, length_drop. unfold len in *. lia. }
  assert (reads (cursor.times (length blk) cursor.str) (concat (stringBytes <$> blk)) blk) as R.
  { apply (reads_times _ _ wf_string); [intros s []; by apply reads_str|].
    unfold blk. by apply Forall_take, Forall_drop, Hwf. }
  rewrite <- El. pose proof (reads_run _ _ _ [] R) as E. rewrite app_nil_r in E. rewrite E.
  cbn [mbind res_bind]. rewrite decide_False; [done|].
  unfold cursor.remaining. simpl. lia.
Qed.

(** Filing a block that was not resident keeps cache and queue in step. *)
Lemma fileBlock_ok r b : readerOK r → r_cache r !! b = None →
  0 ≤ b → b * r_blockLen r < natoms →
  ∃ r', fileBlock r b (blockOf (r_blockLen r) b) = Ok r' ∧ readerOK r'.
Proof.
  intros [Ef Eo Es En Hbl Hsc Hcc Hs Efr Hso Hca Hq Hbd] Hmiss Hb Hbn.
  destruct (fileBlock_step r b (blockOf (r_blockLen r) b)) as (cache & fifo & -> & Hq' & Hbd' & Hin);
    [done..|].
  eexists. split; [done|]. split; simpl; try done. intros b' blk [[-> ->]|?]%Hin; auto.
Qed.

Lemma loadBlock_ok b r : readerOK r → r_cache r !! b = None →
  0 ≤ b → b * r_blockLen r < natoms →
  ∃ o r', loadBlock b r = Some (o, r') ∧ answers o (blockOf (r_blockLen r) b) ∧ readerOK r' ∧
    r_blockLen r' = r_blockLen r.
Proof using Hgood Hwf Hoff Hfit Hserves.
  intros Hr Hmiss Hb Hbn. pose proof Hr as [_ _ _ En Hbl _ _ _ _ _ _ _ _].
  pose proof (proj1 Hwf) as Hcount. set (bl := r_blockLen r) in *.
  assert (0 ≤ b * bl ≤ natoms - 1 ∧ b < 4294967296) as [Hbb Hb32] by nia.
  unfold loadBlock. fold bl.
  assert (to_u64 (to_u32 (b + 1) * bl) = (b + 1) * bl) as ->.
  { rewrite (wrapU_small 32) by nia. rewrite (wrapU_small 64); nia. }
  rewrite En, (wrapU_small 32 (Z.min ((b + 1) * bl) natoms)) by nia.
  set (last := Z.min ((b + 1) * bl) natoms) in *.
  destruct (ensureScanned_ok last r Hr ltac:(lia)) as (o & fs & starts & s & -> & Hr' & Ha & Hs).
  set (r' := scannedTo r fs starts s) in *.
  destruct Ha as [->|[Hfl [e ->]]]; [|exists (Err e), r'; split_and!; [done|right; eauto|done..]]. specialize (Hs eq_refl).
  assert (r_blockLen r' = bl) as Ebl by done.
  pose proof Hr' as [Ef Eo _ _ _ _ _ Hsn _ [So Co _] _ _ _]. rewrite Ebl in So, Co.
  change (r_scanned r') with s in *. change (r_starts r') with starts in *.
  destruct (Co (Z.to_nat b)) as [st Ho]; [nia..|].
  destruct (So _ _ Ho) as [_ ->]. rewrite Z2Nat.id in Ho by lia.
  cbn [r_starts r_frontier]. change (r_starts r') with starts. change (r_frontier r') with (offOf s).
  rewrite (idx_lookup starts b _ Hb Ho). cbn [mbind res_bind].
  assert ((if decide (b + 1 < len starts) then idx starts (b + 1) else Ok (offOf s)) =
    Ok (offOf last)) as ->.
  { case_decide as D.
    - destruct (idx_ok starts (b + 1)) as (o' & -> & Ho'); [lia|].
      destruct (So _ _ Ho') as [Hle ->]. rewrite Z2Nat.id in * by lia.
      do 2 f_equal. unfold last. lia.
    - destruct (decide ((b + 1) * bl < natoms)) as [Hlt|].
      + destruct (Co (Z.to_nat (b + 1))) as [o' Ho']; [unfold last in Hs; nia..|].
        apply lookup_lt_Some in Ho'. unfold len in D. lia.
      + do 2 f_equal. unfold last in *. lia. }
  cbn [mbind res_bind]. unfold Fetch. rewrite Eo.
  pose proof (offOf_ge (b * bl)). pose proof (offOf_mono (b * bl) last ltac:(unfold last; nia)).
  pose proof (offOf_le last ltac:(unfold last; nia)).
  rewrite (wrapU_small 64 (offOf last - offOf (b * bl))) by lia.
  set (f' := after (r_f r') _ _). pose proof (set_f_OK r' _ _ Hr' : readerOK (set_f r' f')) as Hrf.
  destruct (served_chunk (r_f r') (b * bl) (offOf last - offOf (b * bl)) Ef) as [[Hfl [e ->]]|(bd & -> & Esl)]; [nia|lia|lia| |].
  { exists (Err e), (set_f r' f'). split_and!; [done|right; eauto|done..]. }
  replace (offOf (b * bl) + (offOf last - offOf (b * bl))) with (offOf last) in Esl by lia.
  rewrite slice_run in Esl by (unfold last; nia). injection Esl as <-. cbn [mbind res_bind].
  change (r_blockLen (set_f r' f')) with bl.
  rewrite (wrapU_small 32 (b * bl)) by lia. rewrite (wrapU_small 32) by (unfold last; nia).
  rewrite decodeBlock_ok by (unfold last; nia).
  change (take (Z.to_nat (last - b * bl)) (drop (Z.to_nat (b * bl)) atoms)) with (blockOf bl b).
  destruct (fileBlock_ok (set_f r' f') b Hrf) as (r'' & E & Hr''); [done..|]. change (r_blockLen (set_f r' f')) with bl in E. rewrite E.
  exists (Ok (blockOf bl b)), r''. split_and!; [done|by left|done|]. unfold fileBlock in E. res_inv. by destruct v as [? ?]; res_inv.
Qed.

Lemma blockOf_lookup bl id : 0 < bl → 0 ≤ id < natoms →
  ∃ s, atoms !! Z.to_nat id = Some s ∧ idx (blockOf bl (id / bl)) (id `mod` bl) = Ok s.
Proof using Hwf.
  clear Hoff Hfit Hserves. intros Hbl Hid. destruct (atom_lookup id Hid) as (s & Hs & _). exists s. split; [done|].
  pose proof (Z.div_mod id bl ltac:(lia)) as E. pose proof (Z.mod_pos_bound id bl Hbl).
  pose proof (Z.div_pos id bl). apply idx_lookup; [lia|]. unfold blockOf.
  rewrite lookup_take_lt by nia. rewrite lookup_drop.
  by replace (Z.to_nat (id / bl * bl) + Z.to_nat (id `mod` bl))%nat with (Z.to_nat id) by nia.
Qed.

Lemma Atom_ok r id : readerOK r → 0 ≤ id < natoms →
  ∃ o s r', Atom_ r id = Some (o, r') ∧ answers o s ∧ atoms !! Z.to_nat id = Some s ∧ readerOK r'.
Proof using Hgood Hwf Hoff Hfit Hserves.
  intros Hr Hid. pose proof Hr as [_ _ _ En Hbl _ _ _ _ _ Hca _ _].
  unfold Atom_. rewrite En, decide_False, decide_False by lia.
  destruct (blockOf_lookup (r_blockLen r) id) as (s & Hs & Ei); [lia..|].
  pose proof (Z.div_pos id (r_blockLen r)). pose proof (Z.div_mod id (r_blockLen r) ltac:(lia)).
  pose proof (Z.mod_pos_bound id (r_blockLen r)).
  destruct (r_cache r !! (id / r_blockLen r)) as [blk|] eqn:Ec.
  - destruct (Hca _ _ Ec) as (_ & _ & ->). rewrite Ei. exists (Ok s), s, r. split_and!; [done|by left|done..].
  - destruct (loadBlock_ok (id / r_blockLen r) r Hr Ec) as (o & r' & -> & Ha & Hr' & Ebl); [lia|nia|].
    destruct Ha as [->|[Hfl [e ->]]]; [|exists (Err e), s, r'; split_and!; [done|right; eauto|done..]].
    rewrite Ebl, Ei. exists (Ok s), s, r'. split_and!; [done|by left|done..].
Qed.

(** The reader a caller opens, before any lookup. *)
Definition freshReader (f : F) (bl sc cc : Z) : AtomReader F :=
  mkAtomReader f off (len body) natoms (Z.max bl 1) (Z.max sc 16) (Z.max cc 1) [4] 4 0 ∅ [].

Lemma freshReader_ok f bl sc cc : good f → bl < 4294967296 → readerOK (freshReader f bl sc cc).
Proof using Hwf.
  clear Hoff Hfit Hserves. intros Hf Hbl. split; simpl; try done; try lia.
  - pose proof (len_nonneg atoms). lia.
  - split.
    + intros b o Hb. apply list_lookup_singleton_Some in Hb as [-> <-]. done.
    + intros b Hb Hn. assert (b = 0%nat) as -> by nia. by exists 4.
    + intros _. by rewrite Z.div_0_l by lia.
  - split; [constructor|]. intros b. rewrite lookup_empty.
    split; [by intros ?%not_elem_of_nil|by intros []].
  - rewrite map_size_empty. lia.
Qed.

(** ** Adopting the file's own index *)

Lemma atomOffsets_lookup bl m i k o : 0 < bl → 0 ≤ i → i + Z.of_nat m = natoms →
  atomOffsets bl i (offOf i) (drop (Z.to_nat i) atoms) !! k = Some o →
  ((i + bl - 1) / bl + Z.of_nat k) * bl < natoms ∧ o = offOf (((i + bl - 1) / bl + Z.of_nat k) * bl).
Proof using Hwf Hoff Hfit.
  intros Hbl. revert i k. induction m as [|m IH]; intros i k Hi Hm.
  { rewrite drop_ge by (unfold len in *; lia). done. }
  destruct (atom_lookup i) as (s & Hs & _); [lia|]. rewrite (drop_S _ s) by done. simpl.
  pose proof (offOf_S i s Hi Hs) as En. pose proof (offOf_le (i + 1) ltac:(lia)).
  pose proof (len_nonneg s). pose proof (offOf_ge i).
  rewrite (wrapU_small 64) by lia. replace (offOf i + 4 + len s) with (offOf (i + 1)) by lia.
  replace (S (Z.to_nat i)) with (Z.to_nat (i + 1)) by lia.
  pose proof (ceil_step bl i Hbl Hi) as Ec.
  pose proof (Z.div_mod i bl ltac:(lia)). pose proof (Z.mod_pos_bound i bl Hbl).
  case_decide as D; simpl.
  - assert ((i + bl - 1) / bl = i / bl) as E0.
    { replace (i + bl - 1) with (bl - 1 + i / bl * bl) by lia. by rewrite Z.div_add, Z.div_small by lia. }
    destruct k as [|k]; simpl.
    + intros [= <-]. rewrite E0. replace ((i / bl + Z.of_nat 0) * bl) with i by lia. lia.
    + intros Hk. apply IH in Hk; [|lia..]. rewrite Ec in Hk.
      by replace ((i + bl - 1) / bl + Z.of_nat (S k)) with ((i + bl - 1) / bl + 1 + Z.of_nat k) by lia.
  - intros Hk. apply IH in Hk; [|lia..]. by rewrite Ec, Z.add_0_r in Hk.
Qed.

Lemma adopted_ok r bl : readerOK r → 0 < bl < 4294967296 → r_cache r = ∅ →
  readerOK (set_router r bl (atomOffsets bl 0 4 atoms) natoms (len body)).
Proof using Hwf Hoff Hfit.
  intros [Ef Eo Es En _ Hsc Hcc _ _ _ _ Hq Hbd] Hbl Hca. split; simpl; try done.
  - pose proof (len_nonneg atoms). lia.
  - by rewrite offOf_end.
  - assert (atomOffsets bl 0 (offOf 0) (drop (Z.to_nat 0) atoms) = atomOffsets bl 0 4 atoms) as E0.
    { by rewrite drop_0. }
    split.
    + intros b o Hb. rewrite <- E0 in Hb.
      apply (atomOffsets_lookup bl (length atoms)) in Hb; [|lia|lia|unfold len; lia].
      rewrite Z.add_0_l, Z.div_small, Z.add_0_l in Hb by lia. split; [lia|tauto].
    + intros b _ Hb. apply lookup_lt_is_Some.
      pose proof (len_atomOffsets_0 bl atoms ltac:(lia)) as L. unfold len at 1 in L.
      assert (Z.of_nat b < (natoms + bl - 1) / bl); [|lia].
      apply Z.lt_le_trans with (Z.of_nat b + 1); [lia|].
      apply Z.div_le_lower_bound; lia.
    + lia.
  - intros b blk. by rewrite Hca, lookup_empty.
Qed.

(** The bytes of an index at block length [bl]. *)
Definition indexBytes (bl : Z) : list byte := le_split 4 bl ++ le_split 4 0 ++
  le_split 4 (len (atomOffsets bl 0 4 atoms)) ++ concat (le_split 8 <$> atomOffsets bl 0 4 atoms).

Lemma adoptIndex_ok r e bl : readerOK r → 0 < bl < 4294967296 → r_cache r = ∅ → r_n r = natoms →
  fetch (r_f r) (Offset e) (Length e) = Ok (indexBytes bl) →
  adoptIndex r e natoms = Ok (set_router (set_f r (after (r_f r) (Offset e) (Length e))) bl (atomOffsets bl 0 4 atoms) natoms (len body)).
Proof using Hwf Hoff Hfit.
  intros Hr Hbl Hca Hn Hfe. pose proof Hr as [Ef _ Es _ _ _ _ _ _ _ _ _ _].
  pose proof (adopted_ok r bl Hr Hbl Hca) as [_ _ _ _ _ _ _ _ _ [So _ _] _ _ _]. simpl in So.
  unfold adoptIndex, Fetch. rewrite Hfe. unfold indexBytes. cbn [mbind res_bind].
  pose proof (decodeAtomIndex_encoded bl atoms [] Hbl (proj1 Hwf) ltac:(lia)) as D.
  rewrite app_nil_r in D. rewrite D. unfold atomIndexOf. cbn [mbind res_bind BlockLen Offsets].
  rewrite decide_False by lia. rewrite len_atomOffsets_0 by lia. rewrite decide_False by auto.
  change (r_size (set_f r _)) with (r_size r). rewrite Es. case_decide as Dp; [|done].
  assert (∀ k, 0 ≤ k < (natoms + bl - 1) / bl →
    idx (atomOffsets bl 0 4 atoms) k = Ok (offOf (k * bl)) ∧ k * bl < natoms) as Hk.
  { intros k Hk. rewrite <- len_atomOffsets_0 in Hk by lia.
    destruct (idx_ok _ k Hk) as (o & E & Ho). rewrite E. destruct (So _ _ Ho) as [_ ->].
    rewrite Z2Nat.id by lia. split; [done|].
    rewrite len_atomOffsets_0 in Hk by lia.
    assert (k + 1 ≤ (natoms + bl - 1) / bl) by lia.
    pose proof (Z.mul_div_le (natoms + bl - 1) bl). nia. }
  destruct (Hk 0) as [-> _]; [lia|]. cbn [mbind res_bind]. rewrite decide_False by (rewrite Z.mul_0_l; auto).
  destruct (Hk ((natoms + bl - 1) / bl - 1)) as [-> Hlast]; [lia|]. cbn [mbind res_bind].
  rewrite decide_False; [done|].
  pose proof (offOf_lt (((natoms + bl - 1) / bl - 1) * bl) natoms).
  rewrite (offOf_end natoms) in * by lia. nia.
Qed.

(** ** Histories of lookups *)

Fixpoint lookups r (ids : list Z) : option (list (res gostring) * AtomReader F) :=
  match ids with
  | [] => Some ([], r)
  | id :: rest =>
      match Atom_ r id with
      | None => None
      | Some (o, r) => match lookups r rest with
                       | None => None
                       | Some (os, r) => Some (o :: os, r)
                       end
      end
  end.

(** What the materialized table answers. *)
Definition eagerAtom (id : Z) : res gostring :=
  if decide (natoms ≤ id) then corruptf "atom id %d out of range (%d atoms)" [id; natoms]
  else idx atoms id.

Lemma lookups_ok r ids : readerOK r → Forall (λ id, 0 ≤ id) ids →
  ∃ os r', lookups r ids = Some (os, r') ∧ Forall2 (λ o id, o = eagerAtom id ∨ fails ∧ ∃ e, o = Err e) os ids ∧ readerOK r'.
Proof using Hgood Hwf Hoff Hfit Hserves.
  intros Hr Hids. revert r Hr. induction Hids as [|id ids Hid Hids IH]; intros r Hr; simpl.
  { by exists [], r. }
  assert (∃ o r', Atom_ r id = Some (o, r') ∧ (o = eagerAtom id ∨ fails ∧ ∃ e, o = Err e) ∧ readerOK r') as (o & r' & -> & Ho & Hr').
  { unfold eagerAtom. case_decide as D.
    - eexists _, r. unfold Atom_. rewrite (ro_n _ Hr), decide_True by done. split_and!; [done|by left|done].
    - destruct (Atom_ok r id Hr) as (o & s & r' & E & Ha & Hs & Hr'); [lia|].
      exists o, r'. by rewrite (idx_lookup atoms id s Hid Hs). }
  destruct (IH r' Hr') as (os & r'' & -> & Hos & Hr''). exists (o :: os), r''. split_and!; [done|by constructor|done].
Qed.

(** ** Opening a reader over a well-formed section *)

(** The directory's atom-index entry, when it has one, addresses the bytes the
    writer produces for these atoms. *)
Definition indexServed (dir : list DirEntry) : Prop :=
  match lastEntry sectionAtomIndex dir with
  | None => True
  | Some e => ∃ bl, 0 < bl < 4294967296 ∧ ∀ f, good f →
      (fails ∧ ∃ er, fetch f (Offset e) (Length e) = Err er) ∨ fetch f (Offset e) (Length e) = Ok (indexBytes bl)
  end.

Lemma natoms_body : 4 + 4 * natoms ≤ len body.
Proof.
  rewrite <- (offOf_end natoms) by lia. unfold offOf. rewrite take_ge by (unfold len; lia).
  assert (4 * natoms ≤ len (concat (stringBytes <$> atoms))); [|lia].
  clear. induction atoms as [|a l IH]; [done|]. rewrite fmap_cons. cbn [concat].
  unfold stringBytes at 1. rewrite !len_app, len_cons, len_le_split. pose proof (len_nonneg a). lia.
Qed.

Lemma newAtomReader_ok f dir bl sc cc : good f → bl < 4294967296 →
  lastEntry sectionAtoms dir = Some (mkDirEntry sectionAtoms off (len body)) → indexServed dir →
  (∃ r, newAtomReader f dir bl sc cc = Ok r ∧ readerOK r) ∨ fails ∧ ∃ e, newAtomReader f dir bl sc cc = Err e.
Proof using Hgood Hwf Hoff Hfit Hserves.
  intros Hf Hbl Hat Hix. unfold newAtomReader, indexServed in *. rewrite Hat. cbn [Offset Length eID].
  pose proof natoms_body as Hn. pose proof (len_nonneg atoms).
  rewrite decide_False by lia.
  pose proof (Hserves f Hf 0 4 ltac:(lia) ltac:(lia) ltac:(lia)) as Hh.
  rewrite Z.add_0_r in Hh. change (0 + 4) with 4 in Hh.
  destruct Hh as [[Hfl [e ->]]|Hh]; [right; split; [done|by exists e]|].
  assert (slice body 0 4 = Ok (le_split 4 natoms)) as Hh4.
  { unfold atomsBytes. pose proof (slice_mid [] (le_split 4 natoms)
      (concat (stringBytes <$> atoms))) as E.
    rewrite len_le_split in E. exact E. }
  rewrite Hh, Hh4. cbn [mbind res_bind]. unfold leUint32.
  pose proof (slice_mid [] (le_split 4 natoms) []) as E.
  rewrite app_nil_r, len_le_split in E. cbn [app] in E.
  change (len [] + Z.of_nat 4) with 4 in E. change (len []) with 0 in E. rewrite E.
  cbn [mbind res_bind]. rewrite le_combine_u by (destruct Hwf; simpl; lia).
  rewrite decide_False by lia.
  pose proof (freshReader_ok (after f off 4) bl sc cc (Hgood _ _ _ Hf) Hbl) as Hr. unfold freshReader in Hr.
  destruct (lastEntry sectionAtomIndex dir) as [e|]; [|left; by eexists].
  set (r := mkAtomReader _ _ _ _ _ _ _ _ _ _ _ _) in *.
  destruct Hix as (ibl & Hibl & Hfe). destruct (Hfe (r_f r) (ro_f _ Hr)) as [[Hfl [er Ee]]|Ee].
  { right. split; [done|]. exists er. unfold adoptIndex, Fetch. by rewrite Ee. }
  left. rewrite (adoptIndex_ok _ e ibl Hr Hibl eq_refl eq_refl Ee). eexists. split; [done|].
  apply (adopted_ok (set_f r _)); [by apply set_f_OK|done..].
Qed.

End wellformed.

(** ** A reader over a written file *)

Lemma layout_app off (ss1 ss2 : list fsection) :
  layout off (ss1 ++ ss2) = layout off ss1 ++ layout (off + len (bodies ss1)) ss2.
Proof.
  revert off. induction ss1 as [|[id body] ss1 IH]; intros off; cbn [layout app].
  { unfold bodies. simpl. f_equal. change (len []) with 0. lia. }
  rewrite IH, bodies_cons, len_app. by rewrite Z.add_assoc.
Qed.

Lemma lastEntry_app id d1 d2 : lastEntry id (d1 ++ d2) =
  match lastEntry id d2 with Some e => Some e | None => lastEntry id d1 end.
Proof.
  unfold lastEntry. rewrite foldl_app. generalize (foldl (λ acc e, if decide (eID e = id) then Some e else acc) None d1).
  induction d2 as [|e d2 IH] using rev_ind; intros o; [done|]. rewrite !foldl_app. simpl.
  case_decide; [done|]. apply IH.
Qed.

Lemma lastEntry_cons id e d : lastEntry id (e :: d) =
  match lastEntry id d with
  | Some e' => Some e'
  | None => if decide (eID e = id) then Some e else None
  end.
Proof. apply (lastEntry_app id [e]). Qed.

Lemma lastEntry_absent id off ss : id ∉ ss.*1 → lastEntry id (layout off ss) = None.
Proof.
  revert off. induction ss as [|[i body] ss IH]; intros off Hin; [done|]. cbn [layout].
  rewrite fmap_cons, not_elem_of_cons in Hin. destruct Hin as [Hne Hin].
  rewrite lastEntry_cons, IH by done. by rewrite decide_False by (simpl; auto).
Qed.

Lemma lastEntry_here id off ss1 body ss2 : id ∉ ss2.*1 →
  lastEntry id (layout off (ss1 ++ (id, body) :: ss2)) =
    Some (mkDirEntry id (off + len (bodies ss1)) (len body)).
Proof.
  intros Hin. rewrite layout_app, lastEntry_app. cbn [layout].
  rewrite lastEntry_cons, lastEntry_absent by done. by rewrite decide_True.
Qed.

Lemma memory_serves pre s post : len (pre ++ s ++ post) < 18446744073709551616 →
  serves False (mkMemoryFetch (pre ++ s ++ post)) (len pre) s.
Proof.
  intros Hl a k Ha Hk Hak. right. rewrite !len_app in Hl.
  pose proof (len_nonneg pre). pose proof (len_nonneg post).
  rewrite (slice_ok s) by lia. apply memory_fetch_iff; [lia..|]. split; [lia|].
  rewrite slice_ok by (rewrite ?len_app; lia). f_equal.
  rewrite drop_app_ge by (unfold len in *; lia).
  replace (Z.to_nat (len pre + a) - length pre)%nat with (Z.to_nat a) by (unfold len in *; lia).
  replace (len pre + a + k - (len pre + a)) with k by lia. replace (a + k - a) with k by lia.
  rewrite drop_app_le by (unfold len in *; lia). apply take_app_le.
  rewrite length_drop. unfold len in *. lia.
Qed.

(** A section of a laid-out file, fetched. *)
Lemma file_serves ss1 (id : Z) body ss2 :
  len (fileBytes (ss1 ++ (id, body) :: ss2)) < 18446744073709551616 →
  serves False (mkMemoryFetch (fileBytes (ss1 ++ (id, body) :: ss2)))
    (dirStart (ss1 ++ (id, body) :: ss2) + len (bodies ss1)) body.
Proof.
  set (ss := ss1 ++ (id, body) :: ss2). intros Hl.
  assert (fileBytes ss = (fileHead ss ++ bodies ss1) ++ body ++ bodies ss2) as E.
  { unfold fileBytes, ss, bodies. rewrite fmap_app, concat_app. simpl. by rewrite <- (assoc_L (++)). }
  rewrite E in Hl |- *. rewrite <- (len_fileHead ss), <- len_app. by apply memory_serves.
Qed.

Lemma serves_whole {F} `{SectionFetch F} (f : F) off s : serves False f off s → fetch f off (len s) = Ok s.
Proof.
  intros Hs. destruct (Hs 0 (len s) ltac:(lia) ltac:(apply len_nonneg) ltac:(lia)) as [[[] _]|E].
  rewrite Z.add_0_r, Z.add_0_l in E. rewrite E. rewrite slice_ok by (pose proof (len_nonneg s); lia).
  f_equal. rewrite drop_0. apply take_ge. unfold len. lia.
Qed.

(** ** Arbitrary section contents *)

(** A provider that may fail on any call, but never gives two answers for a
    byte: whatever calls were made before, a range is answered with an error or
    with its bytes of [s]. [ok] holds of the states it runs through. *)
Record unreliable {F} `{SectionFetch F} (ok : F → Prop) (off : Z) (s : list byte) : Prop := {
  ur_after : ∀ f a k, ok f → ok (after f a k);
  ur_serves : ∀ f, ok f → serves True f off s;
}.

Section total.
Context {F : Type} `{HF : SectionFetch F} {HL : FetchLaws F}.
Context (ok : F → Prop) (off : Z) (s : list byte).
Implicit Types r : AtomReader F.
Context (Hoff : 0 ≤ off) (Hfit : off + len s < 9223372036854775808) (Hsteady : unreliable ok off s).

(** What holds of a reader over any bytes, also after failed calls: enough to
    keep every index in range. *)
Record readerInv r : Prop := {
  ri_f : ok (r_f r);
  ri_off : r_off r = off;
  ri_size : r_size r = len s;
  ri_n : is_u32 (r_n r);
  ri_blockLen : 0 < r_blockLen r < 4294967296;
  ri_scanChunk : 16 ≤ r_scanChunk r < 18446744073709551616;
  ri_cacheCap : 1 ≤ r_cacheCap r;
  ri_scanned : 0 ≤ r_scanned r ≤ r_n r;
  ri_frontier : 0 ≤ r_frontier r ≤ len s;
  ri_router : r_scanned r < r_n r → len (r_starts r) = r_scanned r / r_blockLen r + 1;
  ri_reach : ∀ b, 0 ≤ b → b * r_blockLen r < r_scanned r → b < len (r_starts r);
  ri_cache : ∀ b blk, r_cache r !! b = Some blk →
    len blk = Z.min ((b + 1) * r_blockLen r) (r_n r) - b * r_blockLen r;
  ri_fifo : inStep (r_fifo r) (r_cache r);
  ri_bound : Z.of_nat (size (r_cache r)) ≤ r_cacheCap r;
}.

Lemma readerInv_step r p : readerInv r → r_scanned r < r_n r →
  readerInv (set_scan r (if decide ((r_scanned r + 1) `mod` r_blockLen r = 0)
    then r_starts r ++ [p] else r_starts r) (r_frontier r) (r_scanned r + 1)).
Proof.
  intros [Ef Eo Es En Hbl Hsc Hcc Hs Hfr Hro Hre Hca Hq Hbd] Hlt.
  specialize (Hro Hlt). split; simpl; try done; try lia.
  - intros _. pose proof (Z.div_mod (r_scanned r) (r_blockLen r) ltac:(lia)) as D0.
    pose proof (Z.mod_pos_bound (r_scanned r) (r_blockLen r) ltac:(lia)).
    pose proof (Z.div_mod (r_scanned r + 1) (r_blockLen r) ltac:(lia)) as D1.
    pose proof (Z.mod_pos_bound (r_scanned r + 1) (r_blockLen r) ltac:(lia)).
    case_decide; [rewrite len_app, len_cons; change (len []) with 0|]; nia.
  - intros b Hb Hlt'. assert (b < len (r_starts r)).
    { rewrite Hro. assert (b ≤ r_scanned r / r_blockLen r); [|lia].
      apply Z.div_le_lower_bound; lia. }
    case_decide; [rewrite len_app; pose proof (len_nonneg [p])|]; lia.
Qed.

(** The atom at the frontier fits in the section and in [need] bytes. *)
Definition ready (front need : Z) : Prop := ∃ w, slice s front (front + 4) = Ok w ∧
  need = 4 + le_combine w ∧ front + need ≤ len s.

Lemma chunk_word front buf pos : 0 ≤ front → 0 ≤ pos → pos + 4 ≤ len buf →
  slice s front (front + len buf) = Ok buf →
  ∃ w, slice s (front + pos) (front + pos + 4) = Ok w ∧ len w = 4 ∧
    (tail ← slice buf pos (len buf); leUint32 tail) = Ok (le_combine w).
Proof.
  clear HL Hsteady. intros Hf Hp Hl Hb. pose proof (slice_range _ _ _ _ Hb) as Hr.
  rewrite slice_ok in Hb by lia. injection Hb as Hb.
  rewrite (slice_ok s) by lia. eexists. split; [done|].
  replace (front + pos + 4 - (front + pos)) with 4 by lia.
  assert (take (Z.to_nat 4) (drop (Z.to_nat pos) buf) =
    take (Z.to_nat 4) (drop (Z.to_nat (front + pos)) s)) as E.
  { rewrite <- Hb, skipn_firstn_comm, drop_drop, take_take.
    replace (front + len buf - front) with (len buf) by lia.
    rewrite Nat.min_l by (unfold len in *; lia). do 2 f_equal. lia. }
  split; [unfold len in *; rewrite length_take, length_drop; lia|].
  rewrite slice_ok by lia. cbn [mbind res_bind]. unfold leUint32.
  rewrite take_ge by (rewrite length_drop; unfold len in *; lia).
  rewrite slice_ok by (rewrite ?len_drop; unfold len in *; rewrite ?length_drop; lia).
  cbn [mbind res_bind]. by rewrite drop_0, Z.sub_0_r, E.
Qed.

Lemma readerInv_fetch r a k : readerInv r → readerInv (set_f r (after (r_f r) a k)).
Proof using Hsteady. intros []. split; simpl; try done. by apply (ur_after ok off s Hsteady). Qed.

Lemma set_scan_id r : set_scan r (r_starts r) (r_frontier r) (r_scanned r) = r.
Proof. by destruct r. Qed.

Lemma scanInner_inv k buf pos need r : readerInv r → r_scanned r + Z.of_nat k ≤ r_n r →
  0 ≤ pos ≤ len buf → slice s (r_frontier r) (r_frontier r + len buf) = Ok buf →
  ∃ o starts scanned, scanInner k buf pos need r = (o, set_scan r starts (r_frontier r) scanned) ∧
    readerInv (set_scan r starts (r_frontier r) scanned) ∧ safe o ∧
    r_scanned r ≤ scanned ≤ r_scanned r + Z.of_nat k ∧
    (∀ p nd, o = Ok (p, nd) → pos ≤ p ≤ len buf ∧ (pos < p → r_scanned r < scanned) ∧
      (nd = need ∨ ready (r_frontier r + p) nd) ∧
      ((0 < k)%nat → pos = 0 → ready (r_frontier r) (len buf) → 0 < p)).
Proof using Hfit Hoff.
  clear HL Hsteady. revert pos r. induction k as [|k IH]; intros pos r Hr Hk Hpos Hb; cbn [scanInner].
  { exists (Ok (pos, need)), (r_starts r), (r_scanned r). rewrite set_scan_id.
    split_and!; [done..|lia|lia|]. intros p nd [= <- <-]. split_and!; auto; lia. }
  pose proof Hr as [_ _ Es En Hbl _ _ Hs Hfr _ _ _ _ _].
  pose proof (slice_range _ _ _ _ Hb) as Hrange.
  case_decide as D1.
  { exists (Ok (pos, need)), (r_starts r), (r_scanned r). rewrite set_scan_id.
    split_and!; [done..|lia|lia|]. intros p nd [= <- <-]. split_and!; auto; try lia.
    intros _ -> (w & _ & ? & _). pose proof (le_combine_bound w) as Hw. lia. }
  destruct (chunk_word (r_frontier r) buf pos) as (w & Ew & Hw4 & ->); [lia..|done|].
  pose proof (le_combine_bound w) as Hw. assert (length w = 4%nat) as Lw by (unfold len in *; lia).
  rewrite Lw in Hw. change (2 ^ (8 * Z.of_nat 4)) with 4294967296 in Hw.
  set (slen := le_combine w) in *.
  case_decide as D2.
  { eexists _, (r_starts r), (r_scanned r). rewrite set_scan_id.
    split_and!; [done..|lia|lia|]. intros p nd E. discriminate E. }
  case_decide as D3.
  { exists (Ok (pos, 4 + slen)), (r_starts r), (r_scanned r). rewrite set_scan_id.
    split_and!; [done..|lia|lia|]. intros p nd [= <- <-]. split_and!; auto; try lia.
    - right. exists w. split_and!; [done..|]. rewrite (wrapU_small 64) in D2; lia.
    - intros _ -> (w' & Ew' & ? & _). rewrite Z.add_0_r in Ew. rewrite Ew in Ew'. injection Ew' as <-.
      rewrite (wrapU_small 64) in D3; lia. }
  rewrite (wrapU_small 64) in D2 by lia. rewrite (wrapU_small 64) in D3 by lia.
  rewrite (wrapU_small 64 (pos + 4 + slen)), (wrapU_small 32), (wrapU_small 64) by lia.
  set (r' := set_scan r _ (r_frontier r) (r_scanned r + 1)).
  destruct (IH (pos + 4 + slen) r') as (o & starts & scanned & -> & Hr' & Ho & Hsc & Hok);
    [apply readerInv_step; [done|lia]|simpl; lia|lia|done|].
  exists o, starts, scanned. simpl in *. split_and!; [done..|lia|lia|].
  intros p nd E. destruct (Hok p nd E) as (? & _ & Hnd & _). split_and!; auto; lia.
Qed.

Lemma readerInv_frontier r front : readerInv r → 0 ≤ front ≤ len s →
  readerInv (set_scan r (r_starts r) front (r_scanned r)).
Proof. intros [] ?. by split. Qed.

Lemma set_scan_same r : set_scan (set_f r (r_f r)) (r_starts r) (r_frontier r) (r_scanned r) = r.
Proof. by destruct r. Qed.

(** The scan ends, with a result or an error, and never indexes out of range. *)
Lemma scanLoop_inv fuel target need r : readerInv r → target ≤ r_n r →
  0 ≤ need < 18446744073709551616 →
  2 * (target - r_scanned r) + 1 ≤ Z.of_nat fuel ∨
    (ready (r_frontier r) need ∧ 2 * (target - r_scanned r) ≤ Z.of_nat fuel) →
  ∃ o f starts front scanned, scanLoop fuel target need r = Some (o, set_scan (set_f r f) starts front scanned) ∧
    readerInv (set_scan (set_f r f) starts front scanned) ∧ safe o ∧ r_scanned r ≤ scanned ∧
    (o = Ok () → target ≤ scanned).
Proof using Hfit Hoff Hsteady.
  clear HL. revert need r. induction fuel as [|fuel IH]; intros need r Hr Ht Hn Hfuel; cbn [scanLoop].
  all: case_decide as Dt;
    [exists (Ok ()), (r_f r), (r_starts r), (r_frontier r), (r_scanned r); rewrite set_scan_same; by split_and!|].
  { lia. }
  pose proof Hr as [Ef Eo Es En Hbl Hsc Hcc Hs Hfr _ _ _ _ _].
  rewrite Es, (wrapU_small 64 (len s - r_frontier r)) by lia.
  case_decide as D0.
  { eexists _, (r_f r), (r_starts r), (r_frontier r), (r_scanned r); rewrite set_scan_same; by split_and!. }
  unfold Fetch. rewrite Eo, (wrapU_small 64) by lia. set (f' := after (r_f r) _ _).
  pose proof (readerInv_fetch r _ _ Hr : readerInv (set_f r f')) as Hrf.
  destruct (ur_serves ok off s Hsteady (r_f r) Ef (r_frontier r) (Z.min need (len s - r_frontier r))) as [[_ [e ->]]| ->]; [lia..| |].
  { eexists (Err e), f', (r_starts r), (r_frontier r), (r_scanned r). rewrite (set_scan_id (set_f r f') : set_scan (set_f r f') (r_starts r) (r_frontier r) (r_scanned r) = _). by split_and!. }
  rewrite (slice_ok s) by lia.
  set (buf := take _ _).
  assert (len buf = Z.min need (len s - r_frontier r)) as Hbuf.
  { unfold buf, len in *. rewrite length_take, length_drop. lia. }
  assert (slice s (r_frontier r) (r_frontier r + len buf) = Ok buf) as Hb.
  { rewrite Hbuf, slice_ok by lia. done. }
  destruct (scanInner_inv (Z.to_nat (target - r_scanned r)) buf 0 (r_scanChunk r) (set_f r f'))
    as (o & starts & scanned & E & Hr' & Ho & Hle & Hok); [done|simpl; lia|lia|done|].
  change (r_scanned (set_f r f')) with (r_scanned r). change (r_scanChunk (set_f r f')) with (r_scanChunk r). rewrite E. clear E. simpl in Hle, Hok, Hr'. cbn [r_frontier set_f].
  destruct o as [[p nd]|e|]; [|eexists _, _, _, _, _; split_and!; [done..|lia|intros E; discriminate E]|done].
  destruct (Hok p nd eq_refl) as (Hp & Hprog & Hnd & Hready).
  case_decide as D4.
  { eexists _, _, _, _, _. split_and!; [done..|lia|]. intros E. discriminate E. }
  cbn [r_frontier set_scan r_starts r_scanned]. rewrite (wrapU_small 64) by lia.
  assert (r_frontier r + p ≤ len s) as Hfp by lia.
  set (r1 := set_scan (set_f r f') starts (r_frontier r + p) scanned).
  assert (readerInv r1) as Hr1.
  { pose proof (readerInv_frontier _ (r_frontier r + p) Hr' ltac:(lia)) as X. exact X. }
  assert (0 ≤ nd < 18446744073709551616) as Hnd'.
  { destruct Hnd as [->|(w & _ & -> & Hx)]; [lia|]. pose proof (le_combine_bound w). lia. }
  change (set_scan (set_scan (set_f r f') starts (r_frontier r) scanned) starts (r_frontier r + p) scanned) with r1.
  destruct (IH nd r1 Hr1 Ht Hnd') as (o & f2 & starts' & front' & scanned' & -> & Hr2 & Ho2 & Hle2 & Hok2).
  { change (r_scanned r1) with scanned. change (r_frontier r1) with (r_frontier r + p).
    destruct (decide (0 < p)) as [Hp0|Hp0]; [left; specialize (Hprog Hp0); lia|].
    assert (p = 0) as -> by lia.
    destruct Hnd as [->|Hnd]; [naive_solver|].
    destruct Hfuel as [Hfuel|[Hrd Hfuel]]; [right; split; [done|lia]|].
    exfalso. apply Hp0, Hready; [lia|done|]. destruct Hrd as (w & Ew & E & Hx).
    exists w. split_and!; [done|lia..]. }
  exists o, f2, starts', front', scanned'. split_and!; [done..| |done]. simpl in *. lia.
Qed.

Lemma fileBlock_inv r b blk : readerInv r → r_cache r !! b = None →
  len blk = Z.min ((b + 1) * r_blockLen r) (r_n r) - b * r_blockLen r →
  ∃ r', fileBlock r b blk = Ok r' ∧ readerInv r' ∧ r_blockLen r' = r_blockLen r.
Proof.
  clear Hsteady Hfit Hoff HL. intros [Ef Eo Es En Hbl Hsc Hcc Hs Hfr Hro Hre Hca Hq Hbd] Hmiss Hlen.
  destruct (fileBlock_step r b blk) as (cache & fifo & -> & Hq' & Hbd' & Hin); [done..|].
  eexists. split; [done|]. split; [|done]. split; simpl; try done.
  intros b' blk' [[-> ->]|?]%Hin; auto.
Qed.

Lemma decodeBlock_inv count body b : 0 ≤ count →
  safe (decodeBlock count body b) ∧ ∀ blk, decodeBlock count body b = Ok blk → len blk = count.
Proof.
  clear. intros Hc. unfold decodeBlock.
  pose proof (spec_times (Z.to_nat count) cursor.str _ spec_str) as Hsp.
  split.
  - apply safe_bind; [by eapply spec_safe, Hsp|]. intros [blk c] _. by case_decide.
  - intros blk H. res_inv. destruct v as [blk' c]. case_decide; [done|]. res_inv.
    destruct (spec_Ok _ _ _ _ _ Hsp (newCursor_cwf body) E) as (_ & _ & _ & El & _).
    unfold len. lia.
Qed.

Lemma loadBlock_inv b r : readerInv r → r_cache r !! b = None →
  0 ≤ b → b * r_blockLen r < r_n r →
  ∃ o r', loadBlock b r = Some (o, r') ∧ readerInv r' ∧ safe o ∧ r_blockLen r' = r_blockLen r ∧
    ∀ blk, o = Ok blk → len blk = Z.min ((b + 1) * r_blockLen r) (r_n r) - b * r_blockLen r.
Proof using Hfit Hoff Hsteady HL.
  intros Hr Hmiss Hb Hbn. pose proof Hr as [_ _ _ En Hbl _ _ _ _ _ _ _ _ _].
  set (bl := r_blockLen r) in *. set (n := r_n r) in *.
  assert (0 ≤ b * bl ≤ n - 1 ∧ b < 4294967296) as [Hbb Hb32] by nia.
  unfold loadBlock. fold bl n.
  assert (to_u64 (to_u32 (b + 1) * bl) = (b + 1) * bl) as ->.
  { rewrite (wrapU_small 32) by nia. rewrite (wrapU_small 64); nia. }
  rewrite (wrapU_small 32 (Z.min ((b + 1) * bl) n)) by nia.
  set (last := Z.min ((b + 1) * bl) n) in *.
  destruct (scanLoop_inv (scanFuel last r) last (r_scanChunk r) r)
    as (o & fs & starts & front & scanned & E & Hr' & Ho & Hle & Hok); [done|fold n; lia|..].
  { pose proof (ri_scanChunk _ Hr). lia. }
  { left. unfold scanFuel. lia. }
  unfold ensureScanned. rewrite E. set (r' := set_scan (set_f r fs) starts front scanned) in *.
  destruct o as [[]|e|]; [|by exists (Err e), r'|done]. specialize (Hok eq_refl).
  pose proof Hr' as [_ _ _ _ _ _ _ _ Hfr _ Hre _ _ _].
  assert (b < len (r_starts r')) as Hbs by (apply Hre; simpl; fold bl; nia).
  destruct (idx_ok (r_starts r') b) as (st & -> & Hst1); [lia|]. cbn [mbind res_bind].
  assert (∃ en, (if decide (b + 1 < len (r_starts r')) then idx (r_starts r') (b + 1)
    else Ok (r_frontier r')) = Ok en) as [en ->].
  { case_decide; [|by eexists]. destruct (idx_ok (r_starts r') (b + 1)) as (? & -> & _); [lia|]. by eexists. }
  cbn [mbind res_bind]. unfold Fetch. set (f' := after (r_f r') _ _).
  pose proof (readerInv_fetch r' _ _ Hr' : readerInv (set_f r' f')) as Hrf.
  destruct (fetch (r_f r') _ _) as [bd|e|] eqn:Ef; cbn [mbind res_bind];
    [|by exists (Err e), (set_f r' f')|].
  2:{ pose proof (fetch_safe (r_f r') (to_u64 (r_off r' + st)) (to_u64 (en - st))) as Hf.
      rewrite Ef in Hf. exfalso. by apply Hf; apply (wrapU_range 64). }
  change (r_blockLen (set_f r' f')) with bl.
  rewrite (wrapU_small 32 (b * bl)) by lia. rewrite (wrapU_small 32) by (unfold last; nia).
  destruct (decodeBlock_inv (last - b * bl) bd b) as [Hd1 Hd2]; [unfold last; nia|].
  destruct (decodeBlock _ bd b) as [blk|e|]; [|by exists (Err e), (set_f r' f')|done].
  destruct (fileBlock_inv (set_f r' f') b blk Hrf) as (r'' & -> & Hr'' & Ebl); [done|by apply Hd2|].
  exists (Ok blk), r''. split_and!; [done..|]. intros ? [= <-]. by apply Hd2.
Qed.

Lemma Atom_inv r id : readerInv r → is_u32 id →
  ∃ o r', Atom_ r id = Some (o, r') ∧ readerInv r' ∧ safe o.
Proof using Hfit Hoff Hsteady HL.
  intros Hr Hid. pose proof Hr as [_ _ _ En Hbl _ _ _ _ _ _ Hca _ _]. unfold Atom_.
  case_decide as D; [by eexists _, r|]. rewrite decide_False by lia.
  pose proof (Z.div_pos id (r_blockLen r)). pose proof (Z.div_mod id (r_blockLen r) ltac:(lia)).
  pose proof (Z.mod_pos_bound id (r_blockLen r) ltac:(lia)).
  assert (∀ blk : list gostring, len blk = Z.min ((id / r_blockLen r + 1) * r_blockLen r) (r_n r)
    - id / r_blockLen r * r_blockLen r → safe (idx blk (id `mod` r_blockLen r))) as Hidx.
  { intros blk Hl. destruct (idx_ok blk (id `mod` r_blockLen r)) as (? & -> & _); [|done]. lia. }
  destruct (r_cache r !! (id / r_blockLen r)) as [blk|] eqn:Ec.
  - eexists _, r. split; [done|]. split; [done|]. by apply Hidx, Hca.
  - destruct (loadBlock_inv (id / r_blockLen r) r Hr Ec) as (o & r' & -> & Hr' & Ho & Ebl & Hlen);
      [lia|nia|].
    destruct o as [blk|e|]; [|by exists (Err e), r'|done].
    eexists _, r'. split; [done|]. split; [done|]. rewrite Ebl. apply Hidx. by apply Hlen.
Qed.

Lemma lookups_inv r ids : readerInv r → Forall (λ id, is_u32 id) ids →
  ∃ os r', lookups r ids = Some (os, r') ∧ Forall safe os ∧ length os = length ids ∧ readerInv r'.
Proof using Hfit Hoff Hsteady HL.
  intros Hr Hids. revert r Hr. induction Hids as [|id ids Hid Hids IH]; intros r Hr; simpl.
  { by exists [], r. }
  destruct (Atom_inv r id Hr Hid) as (o & r' & -> & Hr' & Ho).
  destruct (IH r' Hr') as (os & r'' & -> & Hos & Hl & Hr''). exists (o :: os), r''.
  split_and!; [done|by constructor|simpl; lia|done].
Qed.

(** Opening a reader over arbitrary bytes. *)
Lemma adoptIndex_inv r e : readerInv r → r_cache r = ∅ → wf_entry_dir e →
  safe (adoptIndex r e (r_n r)) ∧ ∀ r', adoptIndex r e (r_n r) = Ok r' → readerInv r'.
Proof using HL Hsteady.
  intros Hr Hempty (_ & Ho & Hl). unfold adoptIndex, Fetch. pose proof (readerInv_fetch r (Offset e) (Length e) Hr) as Hrf.
  destruct Hr as [Ef Eo Es En Hbl Hsc Hcc Hs Hfr Hro Hre Hca Hq Hbd]. set (r1 := set_f r _) in *.
  destruct (fetch (r_f r) _ _) as [bd|er|] eqn:Ef'; cbn [mbind res_bind]; [|done|].
  2:{ pose proof (fetch_safe (r_f r) (Offset e) (Length e) Ho Hl) as X. by rewrite Ef' in X. }
  destruct (decodeAtomIndex bd) as [i|er|] eqn:Ei; cbn [mbind res_bind]; [|done|].
  2:{ pose proof (decodeAtomIndex_safe bd) as X. by rewrite Ei in X. }
  destruct (decodeAtomIndex_wf _ _ Ei) as [Hib _].
  case_decide as D1; [done|]. case_decide as D2; [done|].
  assert (len (Offsets i) = (r_n r + BlockLen i - 1) / BlockLen i) as Hlen.
  { destruct (decide (len (Offsets i) = (r_n r + BlockLen i - 1) / BlockLen i)); tauto. }
  assert (readerInv (set_router r1 (BlockLen i) (Offsets i) (r_n r) (r_size r1))) as Hinv.
  { split; simpl; try done; try lia; try apply Hrf.
    - intros b Hb Hlt. rewrite Hlen. assert (b + 1 ≤ (r_n r + BlockLen i - 1) / BlockLen i); [|lia].
      apply Z.div_le_lower_bound; lia.
    - intros b blk. by rewrite Hempty. }
  case_decide as D3; cbn [mbind res_bind]; [|split; [done|]; by intros r' [= <-]].
  destruct (idx_ok (Offsets i) 0) as (o0 & -> & _); [lia|]. cbn [mbind res_bind].
  case_decide; [done|].
  destruct (idx_ok (Offsets i) (len (Offsets i) - 1)) as (oL & -> & _); [lia|]. cbn [mbind res_bind].
  case_decide; [done|]. split; [done|]. by intros r' [= <-].
Qed.

Lemma newAtomReader_inv f dir bl sc cc : ok f → Forall wf_entry_dir dir → is_u32 bl → is_u64 sc →
  lastEntry sectionAtoms dir = Some (mkDirEntry sectionAtoms off (len s)) →
  safe (newAtomReader f dir bl sc cc) ∧ ∀ r, newAtomReader f dir bl sc cc = Ok r → readerInv r.
Proof using Hoff Hfit HL Hsteady.
  intros Hf Hdir Hbl Hsc Hat. unfold newAtomReader. rewrite Hat. cbn [Offset Length].
  pose proof (len_nonneg s).
  case_decide as D1; [done|].
  destruct (fetch f off 4) as [hd|er|] eqn:Ef'; cbn [mbind res_bind]; [|done|].
  2:{ pose proof (fetch_safe f off 4 ltac:(lia) ltac:(lia)) as X. by rewrite Ef' in X. }
  apply fetch_exact in Ef'; [|lia..]. unfold leUint32. rewrite slice_ok by lia. cbn [mbind res_bind].
  rewrite drop_0, Z.sub_0_r.
  pose proof (le_combine_bound (take (Z.to_nat 4) hd)) as Hc.
  assert (length (take (Z.to_nat 4) hd) = 4%nat) as L4.
  { rewrite length_take. unfold len in *. lia. }
  rewrite L4 in Hc. change (2 ^ (8 * Z.of_nat 4)) with 4294967296 in Hc.
  set (count := le_combine _) in *.
  case_decide as D2; [done|].
  set (r := mkAtomReader _ _ _ _ _ _ _ _ _ _ _ _).
  assert (readerInv r) as Hr.
  { split; simpl; try done; try lia.
    - by apply (ur_after ok off s Hsteady).
    - split; [constructor|]. intros b. rewrite lookup_empty.
      split; [by intros ?%not_elem_of_nil|by intros []].
    - rewrite map_size_empty. lia. }
  destruct (lastEntry sectionAtomIndex dir) as [e|] eqn:Ee; [|split; [done|]; by intros ? [= <-]].
  apply (adoptIndex_inv r e Hr eq_refl).
  apply (Forall_forall (λ e, wf_entry_dir e) dir); [done|]. clear -Ee.
  induction dir as [|x d IH]; [done|]. rewrite lastEntry_cons in Ee.
  destruct (lastEntry sectionAtomIndex d) as [e'|].
  - injection Ee as ->. right. by apply IH.
  - case_decide; [|done]. injection Ee as ->. by left.
Qed.

End total.

(** ** Properties *)

(** No id of a concrete list of sections is the one looked for. *)
Ltac absent := repeat (apply not_elem_of_cons; split; [done|]); apply not_elem_of_nil.

(** The bytes of the optional index section, served by the file. *)
Lemma file_indexServed {bm} `{RoaringLaws bm} (g : GraphSection bm) wo : wf_graph g →
  len (fileBytes (sectionsOf g wo)) < 18446744073709551616 →
  indexServed (.= mkMemoryFetch (fileBytes (sectionsOf g wo))) False (Atoms g)
    (layout (dirStart (sectionsOf g wo)) (sectionsOf g wo)).
Proof.
  intros Hg Hsz. unfold indexServed. destruct (woAtomIndex wo) eqn:Ei.
  - assert (∃ ss1 ss2, sectionsOf g wo = ss1 ++ (sectionAtomIndex, atomIndexBytes (Atoms g)) :: ss2 ∧
      sectionAtomIndex ∉ ss2.*1) as (ss1 & ss2 & E & Hin).
    { unfold sectionsOf, optionalSections. rewrite Ei, !(assoc_L (++)), <- (assoc_L (++)).
      eexists _, _. split; [reflexivity|]. destruct (woExistence wo), (Existence g); absent. }
    rewrite E in Hsz |- *. rewrite lastEntry_here by done. exists atomIndexBlockLen. split; [done|].
    intros f ->. right. by apply serves_whole, file_serves.
  - rewrite lastEntry_absent; [done|]. unfold sectionsOf, optionalSections. rewrite Ei.
    destruct (woNodeColumns wo), (woRelColumns wo), (woExistence wo), (Existence g); absent.
Qed.

(** Without failures the answers are the table's. *)
Lemma answers_exact (atoms : list gostring) os ids :
  Forall2 (λ o id, o = eagerAtom atoms id ∨ False ∧ ∃ e, o = Err e) os ids → os = eagerAtom atoms <$> ids.
Proof. induction 1 as [|o id os ids [->|[[] _]] _ ->]; done. Qed.

(** C30: An atom reader over a written file answers like the materialized
    table: for every representable graph, with or without the stored index,
    for every block length, scan chunk and cache bound, any sequence of lookups
    on one reader gives the atoms the graph was written with, and the
    out-of-range error past them. *)
Theorem AtomReader_resolves {bm} `{RoaringLaws bm} (g : GraphSection bm) wo bl sc cc ids :
  wf_graph g → len (fileBytes (sectionsOf g wo)) < 18446744073709551616 → bl < 4294967296 →
  Forall (λ id, 0 ≤ id) ids →
  ∃ b dir r r', WriteWith g [] wo = (b, Ok ()) ∧ ParseDirectory b = Ok dir ∧
    newAtomReader (mkMemoryFetch b) dir bl sc cc = Ok r ∧
    lookups r ids = Some (eagerAtom (Atoms g) <$> ids, r').
Proof.
  intros Hg Hsz Hbl Hids. pose proof (sectionsOf_len g wo) as Hn.
  pose proof (file_indexServed g wo Hg Hsz) as Hix.
  pose proof (file_serves [] sectionAtoms (atomsBytes (Atoms g)) _ Hsz) as Hse.
  fold (sectionsOf g wo) in Hse. change (len (bodies [])) with 0 in Hse. rewrite Z.add_0_r in Hse.
  set (b := fileBytes (sectionsOf g wo)) in *. set (ss := sectionsOf g wo) in *.
  assert (0 ≤ dirStart ss) as Hd.
  { unfold dirStart, headerLen, dirEntryLen. pose proof (len_nonneg ss). lia. }
  assert (dirStart ss + len (atomsBytes (Atoms g)) < 18446744073709551616) as Hfit.
  { unfold b in Hsz. rewrite len_fileBytes in Hsz.
    change (bodies ss) with (atomsBytes (Atoms g) ++ bodies (drop 1 ss)) in Hsz.
    rewrite len_app in Hsz. pose proof (len_nonneg (bodies (drop 1 ss))). lia. }
  set (mem := (.= mkMemoryFetch b)). assert (∀ f a k, mem f → mem (after f a k)) as Hmem by (intros f a k ->; done).
  assert (∀ f, mem f → serves False f (dirStart ss) (atomsBytes (Atoms g))) as Hse' by (intros f ->; exact Hse).
  destruct (newAtomReader_ok mem False (dirStart ss) (Atoms g) Hmem (wg_atoms _ Hg) Hd Hfit Hse'
    (mkMemoryFetch b) (layout (dirStart ss) ss) bl sc cc eq_refl Hbl) as [(r & Hr & HrOK)|[[] _]]; [|done|].
  { pose proof (lastEntry_here sectionAtoms (dirStart ss) [] (atomsBytes (Atoms g)) (drop 1 ss)) as E.
    change (len (bodies [])) with 0 in E. rewrite Z.add_0_r in E. apply E.
    unfold ss, sectionsOf. cbn [app drop].
    unfold optionalSections.
    destruct (woNodeColumns wo), (woRelColumns wo), (woAtomIndex wo), (woExistence wo), (Existence g);
      absent. }
  destruct (lookups_ok mem False _ _ Hmem (wg_atoms _ Hg) Hd Hfit Hse' r ids HrOK Hids) as (os & r' & Hl & ->%answers_exact & _).
  exists b, (layout (dirStart ss) ss), r, r'. split_and!; [by apply WriteWith_buffer| |done..].
  apply ParseDirectory_file; [lia|apply sectionsOf_ids|done].
Qed.

Lemma AtomReader_resolves_witness :
  ∃ b dir r r', WriteWith demoGraph [] DefaultWriteOptions = (b, Ok ()) ∧ ParseDirectory b = Ok dir ∧
    newAtomReader (mkMemoryFetch b) dir 2 0 1 = Ok r ∧
    lookups r [2; 0; 1; 7; 2] = Some (eagerAtom (Atoms demoGraph) <$> [2; 0; 1; 7; 2], r').
Proof.
  apply AtomReader_resolves; [apply demoGraph_wf|by vm_compute|done|by repeat constructor].
Defined.

(** The reader's invariant under another account of its provider. *)
Lemma readerOK_provider {F} `{SectionFetch F} (good good' : F → Prop) off atoms (r : AtomReader F) :
  readerOK good off atoms r → good' (r_f r) → readerOK good' off atoms r.
Proof. intros [] ?. by split. Qed.

(** C31: An atom reader cannot be driven to a crash, an endless scan or a lie by
    a provider that fails: over arbitrary section bytes, behind a provider
    whose answer to any call may be an error, whatever it answered to the same
    range before, opening a reader does not panic, and on the reader opened
    every sequence of lookups terminates with a value or an error for each id.
    Over the bytes of an atom table each answer is moreover the table's or an
    error, and from the moment the provider answers again every lookup gives
    the table's answer: a failed fetch leaves nothing wrong behind. *)
Theorem AtomReader_total {F} `{FetchLaws F} (ok : F → Prop) (f : F) off s dir bl sc cc ids :
  0 ≤ off → off + len s < 9223372036854775808 → unreliable ok off s → ok f →
  Forall wf_entry_dir dir → lastEntry sectionAtoms dir = Some (mkDirEntry sectionAtoms off (len s)) →
  is_u32 bl → is_u64 sc → Forall (λ id, is_u32 id) ids →
  safe (newAtomReader f dir bl sc cc) ∧
  ∀ r, newAtomReader f dir bl sc cc = Ok r →
    ∃ os r', lookups r ids = Some (os, r') ∧ Forall safe os ∧ length os = length ids ∧
      ∀ atoms, wf_atoms atoms → s = atomsBytes atoms → indexServed ok True atoms dir →
        Forall2 (λ o id, o = eagerAtom atoms id ∨ ∃ e, o = Err e) os ids ∧
        ∀ (up : F → Prop) ids', up (r_f r') → (∀ f a k, up f → up (after f a k)) → (∀ f, up f → serves False f off s) →
          Forall (λ id, 0 ≤ id) ids' → ∃ r'', lookups r' ids' = Some (eagerAtom atoms <$> ids', r'').
Proof.
  intros Ho Hfit Hst Hf Hdir Hat Hbl Hsc Hids.
  destruct (newAtomReader_inv ok off s Ho Hfit Hst f dir bl sc cc Hf Hdir Hbl Hsc Hat) as [Hs Hr].
  split; [done|]. intros r E.
  destruct (lookups_inv ok off s Ho Hfit Hst r ids (Hr r E) Hids) as (os & r' & El & ? & ? & _).
  exists os, r'. split_and!; [done..|]. intros atoms Hwf -> Hix. destruct Hst as [Hafter Hserves].
  assert (off + len (atomsBytes atoms) < 18446744073709551616) as Hfit' by lia.
  destruct (newAtomReader_ok ok True off atoms Hafter Hwf Ho Hfit' Hserves f dir bl sc cc Hf) as [(r0 & E0 & Hr0)|[_ [e E0]]];
    [lia|done|done| |by rewrite E in E0]. rewrite E in E0. injection E0 as <-.
  destruct (lookups_ok ok True off atoms Hafter Hwf Ho Hfit' Hserves r ids Hr0) as (os' & r1 & El' & Hos & Hr1);
    [eapply Forall_impl; [done|simpl; lia]|]. rewrite El in El'. injection El' as <- <-. split.
  - eapply Forall2_impl; [exact Hos|]. naive_solver.
  - intros up ids' Hup Hupa Hups Hids'.
    destruct (lookups_ok up False off atoms Hupa Hwf Ho Hfit' Hups r' ids') as (os2 & r2 & -> & ->%answers_exact & _); [|done|by exists r2].
    by apply (readerOK_provider ok up).
Qed.

(** A provider over bytes in memory that fails on the calls its schedule says. *)
Record FlakyFetch := mkFlaky { fl_mem : list byte; fl_down : list bool }.
#[export] Instance flakyFetch : SectionFetch FlakyFetch := {|
  fetch f off n := if default false (head (fl_down f)) then corruptf "down" [] else MemoryFetch_Fetch (mkMemoryFetch (fl_mem f)) off n;
  after f _ _ := mkFlaky (fl_mem f) (tail (fl_down f));
|}.
#[export] Instance flakyFetch_laws : FetchLaws FlakyFetch.
Proof.
  split; intros f off n; unfold fetch, flakyFetch; [intros s|]; intros Ho Hn; destruct (default false (head (fl_down f))); try done.
  - exact (fetch_exact (F:=MemoryFetch) (mkMemoryFetch (fl_mem f)) off n s Ho Hn).
  - exact (fetch_safe (F:=MemoryFetch) (mkMemoryFetch (fl_mem f)) off n Ho Hn).
Qed.

Lemma flaky_unreliable b : len b < 9223372036854775808 → unreliable (λ f, fl_mem f = b) 0 b.
Proof.
  intros Hl. split; [done|]. intros [m down] [= ->] a k Ha Hk Hak. unfold fetch, flakyFetch. cbn [fl_mem fl_down]. destruct (default false (head down)); [left; split; [done|by eexists]|right].
  rewrite Z.add_0_l, (slice_ok _ a (a + k)) by lia. apply memory_fetch_iff; [lia..|]. split; [lia|]. apply slice_ok; lia.
Qed.

Definition threeAtoms : list gostring := [[Byte.x61]; [Byte.x62]; [Byte.x63]].

(** The second and the fourth call fail, and with them the first two lookups of [2]; the third answers. *)
Lemma AtomReader_total_witness : let f := mkFlaky (atomsBytes threeAtoms) [false; true; false; true] in
  let dir := [mkDirEntry sectionAtoms 0 (len (atomsBytes threeAtoms))] in
  safe (newAtomReader f dir 2 64 4) ∧
  ∃ r os r' e1 e2, newAtomReader f dir 2 64 4 = Ok r ∧ lookups r [2; 2; 2] = Some (os, r') ∧ os = [Err e1; Err e2; Ok [Byte.x63]] ∧
    ∃ r'', lookups r' [0; 1; 2; 3] = Some (eagerAtom threeAtoms <$> [0; 1; 2; 3], r'').
Proof.
  intros f dir.
  destruct (AtomReader_total (λ f, fl_mem f = atomsBytes threeAtoms) f 0 (atomsBytes threeAtoms) dir 2 64 4 [2; 2; 2]) as [Hs Hl];
    [done|done|by apply flaky_unreliable|done|by repeat constructor|done|done|done|by repeat constructor|].
  split; [exact Hs|]. edestruct Hl as (os & r' & El & _ & _ & Hr); [by vm_compute|].
  pose proof El as El'. vm_compute in El'. injection El' as <- <-.
  eexists _, _, _, _, _. split; [by vm_compute|]. split; [exact El|]. split; [done|].
  destruct (Hr threeAtoms) as [_ Hup]; [split; [done|by repeat constructor]|done|done|].
  apply (Hup (λ f, f = mkFlaky (atomsBytes threeAtoms) []) [0; 1; 2; 3]); [done|by intros f' a k ->| |by repeat constructor].
  intros f' ->. apply (memory_serves [] (atomsBytes threeAtoms) []). by vm_compute.
Defined.

(** ** A scan that meets a corrupt atom *)

(** The bytes of a run of atoms. *)
Definition runBytes (l : list gostring) : list byte := concat (stringBytes <$> l).

Lemma runBytes_app l l' : runBytes (l ++ l') = runBytes l ++ runBytes l'.
Proof. unfold runBytes. by rewrite fmap_app, concat_app. Qed.

Lemma runBytes_cons a l : runBytes (a :: l) = le_split 4 (len a) ++ a ++ runBytes l.
Proof. unfold runBytes, stringBytes. cbn [fmap list_fmap concat]. by rewrite <- app_assoc. Qed.

Lemma len_runBytes l : 4 * len l ≤ len (runBytes l).
Proof. induction l as [|a l IH]; [done|]. rewrite runBytes_cons, !len_app, len_cons, len_le_split. pose proof (len_nonneg a). lia. Qed.

(** The router entries a run of atoms adds from atom [sc] at offset [at_]. *)
Fixpoint marks (bl sc at_ : Z) (l : list gostring) : list Z :=
  match l with
  | [] => []
  | a :: l => (if decide ((sc + 1) `mod` bl = 0) then [at_ + 4 + len a] else []) ++ marks bl (sc + 1) (at_ + 4 + len a) l
  end.

Lemma marks_app bl sc at_ l l' : marks bl sc at_ (l ++ l') = marks bl sc at_ l ++ marks bl (sc + len l) (at_ + len (runBytes l)) l'.
Proof.
  revert sc at_. induction l as [|a l IH]; intros sc at_; [by rewrite !Z.add_0_r|]. cbn [marks app]. rewrite IH, <- app_assoc. do 3 f_equal.
  - rewrite len_cons. lia.
  - rewrite runBytes_cons, !len_app, len_le_split. lia.
Qed.

(** A run inside a block adds nothing; one that ends it, its end. *)
Lemma marks_inside bl c sc at_ l : c * bl ≤ sc → sc + len l < (c + 1) * bl → marks bl sc at_ l = [].
Proof.
  revert sc at_. induction l as [|a l IH]; intros sc at_ H1 H2; [done|]. rewrite len_cons in H2. pose proof (len_nonneg l). cbn [marks].
  rewrite decide_False; [apply IH; lia|]. rewrite <- (Z.mod_unique (sc + 1) bl c (sc + 1 - c * bl)); lia.
Qed.
Lemma marks_end bl c sc at_ l : 0 < bl → c * bl ≤ sc → l ≠ [] → sc + len l = (c + 1) * bl → marks bl sc at_ l = [at_ + len (runBytes l)].
Proof.
  intros Hbl Hc Hne E. destruct (exists_last Hne) as (l' & a & ->). rewrite marks_app. rewrite len_app, len_cons in E. change (len []) with 0 in E.
  rewrite (marks_inside bl c) by lia. cbn [marks app]. rewrite decide_True by (replace (sc + len l' + 1) with ((c + 1) * bl) by lia; apply Z.mod_mul; lia).
  rewrite runBytes_app, len_app, runBytes_cons, !len_app, len_le_split. change (len (runBytes [])) with 0. rewrite app_nil_r. f_equal. lia.
Qed.

(** Whole blocks add one entry each. *)
Lemma marks_blocks bl c at_ blks : 0 < bl → Forall (λ b, len b = bl) blks →
  len (marks bl (c * bl) at_ (concat blks)) = len blks ∧ (blks ≠ [] → last (marks bl (c * bl) at_ (concat blks)) = Some (at_ + len (runBytes (concat blks)))).
Proof.
  intros Hbl HF. revert c at_. induction HF as [|b blks Hb HF IH]; intros c at_; [done|]. cbn [concat]. rewrite marks_app, runBytes_app.
  rewrite (marks_end bl c) by (done || lia || (intros ->; change (len []) with 0 in Hb; lia)). rewrite Hb. replace (c * bl + bl) with ((c + 1) * bl) by lia.
  destruct (IH (c + 1) (at_ + len (runBytes b))) as [El Ea]. rewrite len_app, El, (len_cons b), len_app. split; [change (len [_]) with 1; lia|]. intros _.
  destruct blks as [|b' blks]; [cbn [concat marks app last]; change (len (runBytes [])) with 0; f_equal; lia|]. rewrite last_app, Ea by done. f_equal. lia.
Qed.

(** A corrupt length prefix: it runs past the section. *)
Definition overlong (t : list byte) : Prop := ∃ w rest, t = le_split 4 w ++ rest ∧ len rest < w < 4294967296.

Lemma prefix_at pre (w : Z) post : 0 ≤ w < 4294967296 → let buf := pre ++ le_split 4 w ++ post in
  (tail ← slice buf (len pre) (len buf); leUint32 tail) = Ok w ∧ len pre + 4 ≤ len buf.
Proof.
  intros Hw buf. assert (len buf = len pre + 4 + len post) as El by (unfold buf; rewrite !len_app, len_le_split; lia). pose proof (len_nonneg post). split; [|lia].
  pose proof (slice_mid pre (le_split 4 w ++ post) []) as E. rewrite app_nil_r in E. fold buf in E. rewrite len_app, len_le_split in E.
  replace (len pre + (Z.of_nat 4 + len post)) with (len buf) in E by lia. rewrite E. cbn [mbind res_bind]. unfold leUint32.
  pose proof (slice_mid [] (le_split 4 w) post) as E4. rewrite len_le_split in E4. cbn [app] in E4. change (len [] + Z.of_nat 4) with 4 in E4. change (len []) with 0 in E4. rewrite E4.
  cbn [mbind res_bind]. by rewrite le_combine_u.
Qed.

Section corrupt.
Context {F : Type} `{HF : SectionFetch F}.
Implicit Types r : AtomReader F.

(** The inner loop over a run of atoms. *)
Lemma scanInner_run l k pre post need r : Forall (λ a, len a < 4294967296) l →
  0 ≤ r_frontier r → r_frontier r + len (pre ++ runBytes l ++ post) ≤ r_size r → r_size r < 9223372036854775808 → 0 ≤ r_scanned r → r_scanned r + len l < 4294967296 →
  scanInner (length l + k) (pre ++ runBytes l ++ post) (len pre) need r =
  scanInner k (pre ++ runBytes l ++ post) (len (pre ++ runBytes l)) need
    (set_scan r (r_starts r ++ marks (r_blockLen r) (r_scanned r) (r_frontier r + len pre) l) (r_frontier r) (r_scanned r + len l)).
Proof.
  intros HF'. revert pre r. induction HF' as [|a l Ha HF' IH]; intros pre r Hfr Hsz Hs63 Hsc Hn.
  { cbn [length Nat.add marks]. change (len []) with 0. rewrite !app_nil_r, Z.add_0_r. by destruct r. }
  rewrite len_cons in Hn. pose proof (len_nonneg l). pose proof (len_nonneg a). pose proof (len_nonneg pre). pose proof (len_nonneg post).
  rewrite runBytes_cons in *. rewrite <- !app_assoc in *. pose proof (prefix_at pre (len a) (a ++ runBytes l ++ post) ltac:(lia)) as [Ep Hp].
  assert (len (pre ++ le_split 4 (len a) ++ a ++ runBytes l ++ post) = len pre + 4 + len a + len (runBytes l) + len post) as El by (rewrite !len_app, len_le_split; lia).
  pose proof (len_nonneg (runBytes l)). cbn [length Nat.add scanInner]. rewrite decide_False by lia. rewrite Ep. rewrite (wrapU_small 64 (r_frontier r + len pre + 4 + len a)) by lia.
  rewrite decide_False by lia. rewrite (wrapU_small 64 (len pre + 4 + len a)) by lia. rewrite decide_False by lia. rewrite (wrapU_small 32), (wrapU_small 64) by lia.
  set (pre' := pre ++ le_split 4 (len a) ++ a). assert (len pre + 4 + len a = len pre') as Epre by (unfold pre'; rewrite !len_app, len_le_split; lia).
  assert (pre ++ le_split 4 (len a) ++ a ++ runBytes l ++ post = pre' ++ runBytes l ++ post) as Eb by (unfold pre'; by rewrite <- !app_assoc). rewrite Eb, Epre in *. rewrite IH by (simpl; lia || done).
  cbn [set_scan r_starts r_frontier r_scanned r_blockLen r_f r_off r_size r_n r_scanChunk r_cacheCap r_cache r_fifo marks].
  unfold set_scan. f_equal; [unfold pre'; by rewrite <- !app_assoc|]. f_equal; [|rewrite len_cons; lia].
  replace (r_frontier r + len pre + 4 + len a) with (r_frontier r + len pre') by lia. case_decide; [by rewrite <- app_assoc|done].
Qed.

(** It stops at the corrupt prefix, and the reader has counted the run. *)
Lemma scanInner_overlong k t pre need r : overlong t → 0 ≤ r_frontier r → r_size r < 9223372036854775808 → r_frontier r + len (pre ++ t) = r_size r →
  ∃ e, scanInner (S k) (pre ++ t) (len pre) need r = (Err e, r).
Proof.
  intros (w & rest & -> & Hw) Hfr Hs63 Hsz. pose proof (len_nonneg rest). pose proof (len_nonneg pre). pose proof (prefix_at pre w rest ltac:(lia)) as [Ep Hp].
  rewrite !len_app, len_le_split in Hsz. cbn [scanInner]. rewrite decide_False by lia. rewrite Ep. rewrite (wrapU_small 64 (r_frontier r + len pre + 4 + w)) by lia. rewrite decide_True by lia. by eexists.
Qed.

End corrupt.

(** ** Lookups on a corrupt section in memory *)

(** The reader is over the section [s] in memory and scans it in one chunk. *)
Definition over (s : list byte) (r : AtomReader MemoryFetch) : Prop :=
  r_f r = mkMemoryFetch s ∧ r_off r = 0 ∧ r_size r = len s ∧ len s ≤ r_scanChunk r.

Section memory.
Context (s : list byte) (Hs : len s < 9223372036854775808).
Implicit Types r : AtomReader MemoryFetch.

Lemma over_fetch r a k : over s r → set_f r (after (r_f r) a k) = r.
Proof. clear Hs. intros (Ef & _). rewrite Ef, memory_after, <- Ef. by destruct r. Qed.

Lemma fetch_run P Q R : s = P ++ Q ++ R → fetch (mkMemoryFetch s) (to_u64 (0 + len P)) (len Q) = Ok Q.
Proof using Hs.
  intros E. pose proof (len_nonneg P). pose proof (len_nonneg Q). pose proof (len_nonneg R). assert (len s = len P + len Q + len R) by (rewrite E, !len_app; lia).
  rewrite Z.add_0_l, (wrapU_small 64) by lia. apply memory_fetch_iff; [lia..|]. split; [lia|]. rewrite E. apply slice_mid.
Qed.

(** One round of the scan, from the frontier to the end of the section. *)
Lemma scanLoop_round fuel target need r P Q : over s r → s = P ++ Q → r_frontier r = len P → Q ≠ [] → r_scanned r < target → len s ≤ need →
  scanLoop (S fuel) target need r =
  match scanInner (Z.to_nat (target - r_scanned r)) Q 0 (r_scanChunk r) r with
  | (Err e, r) => Some (Err e, r)
  | (Panic, r) => Some (Panic, r)
  | (Ok (pos, need), r) =>
      if decide (pos = 0 ∧ need = r_scanChunk r)
      then Some (corruptf "atoms section truncated: %d of %d atoms present" [r_scanned r; r_n r], r)
      else scanLoop fuel target need (set_scan r (r_starts r) (to_u64 (r_frontier r + pos)) (r_scanned r))
  end.
Proof using Hs.
  intros Ho E Efr Hne Ht Hneed. pose proof Ho as (Ef & Eo & Es & Hc). pose proof (len_nonneg P). assert (len s = len P + len Q) as El by (rewrite E, len_app; lia).
  assert (0 < len Q) by (destruct Q as [|x Q']; [done|rewrite len_cons; pose proof (len_nonneg Q'); lia]). cbn [scanLoop]. rewrite decide_False by lia.
  rewrite Es, Efr, (wrapU_small 64 (len s - len P)) by lia. rewrite decide_False by lia. unfold Fetch. rewrite over_fetch, Ef, Eo by done.
  replace (Z.min need (len s - len P)) with (len Q) by lia. rewrite (fetch_run P Q []) by (by rewrite app_nil_r). done.
Qed.

Lemma scan_run r P l post : over s r → s = P ++ runBytes l ++ post → r_frontier r = len P → l ≠ [] → Forall (λ a, len a < 4294967296) l →
  0 ≤ r_scanned r → r_scanned r + len l < 4294967296 →
  ensureScanned (r_scanned r + len l) r =
  Some (Ok (), set_scan r (r_starts r ++ marks (r_blockLen r) (r_scanned r) (len P) l) (len P + len (runBytes l)) (r_scanned r + len l)).
Proof using Hs.
  intros Ho E Efr Hne HF Hsc Hn. pose proof Ho as (_ & _ & Es & Hc). pose proof (len_runBytes l) as Hl. pose proof (len_nonneg P). pose proof (len_nonneg post).
  assert (len s = len P + len (runBytes l) + len post) as El by (rewrite E, !len_app; lia). assert (0 < len l) by (destruct l as [|x l']; [done|rewrite len_cons; pose proof (len_nonneg l'); lia]).
  unfold ensureScanned, scanFuel. replace (Z.to_nat (2 * (r_scanned r + len l - r_scanned r) + 1)) with (S (Z.to_nat (2 * len l))) by lia.
  rewrite (scanLoop_round _ _ _ r P (runBytes l ++ post)); [|done|done|done|intros X; apply (f_equal len) in X; rewrite len_app in X; change (len []) with 0 in X; lia|lia|done].
  replace (Z.to_nat (r_scanned r + len l - r_scanned r)) with (length l + 0)%nat by (unfold len; lia).
  pose proof (scanInner_run l 0 [] post (r_scanChunk r) r HF) as Er. cbn [app] in Er. change (len []) with 0 in Er. rewrite Z.add_0_r in Er. rewrite Er by (rewrite ?len_app, ?Efr, ?Es; lia).
  cbn [scanInner]. rewrite decide_False by lia. cbn [r_frontier set_scan r_starts r_scanned]. rewrite Efr, (wrapU_small 64) by lia.
  unfold scanLoop. destruct (Z.to_nat (2 * len l)) eqn:X; [lia|]. cbn [r_scanned set_scan]. by rewrite decide_True by lia.
Qed.

Lemma scan_stops target r P l t : over s r → s = P ++ runBytes l ++ t → overlong t → r_frontier r = len P → Forall (λ a, len a < 4294967296) l →
  0 ≤ r_scanned r → r_scanned r + len l < target → target < 4294967296 →
  ∃ e, ensureScanned target r = Some (Err e, set_scan r (r_starts r ++ marks (r_blockLen r) (r_scanned r) (len P) l) (len P) (r_scanned r + len l)).
Proof using Hs.
  intros Ho E Ht Efr HF Hsc Hn Hn32. pose proof Ho as (_ & _ & Es & Hc). pose proof (len_nonneg P). pose proof (len_nonneg l). pose proof (len_nonneg (runBytes l)).
  assert (4 ≤ len t) as Ht4 by (destruct Ht as (w & rest & -> & ?); rewrite len_app, len_le_split; pose proof (len_nonneg rest); lia). assert (len s = len P + len (runBytes l) + len t) as El by (rewrite E, !len_app; lia).
  unfold ensureScanned, scanFuel. replace (Z.to_nat (2 * (target - r_scanned r) + 1)) with (S (Z.to_nat (2 * (target - r_scanned r)))) by lia.
  rewrite (scanLoop_round _ _ _ r P (runBytes l ++ t)); [|done|done|done|intros X; apply (f_equal len) in X; rewrite len_app in X; change (len []) with 0 in X; lia|lia|done].
  replace (Z.to_nat (target - r_scanned r)) with (length l + S (Z.to_nat (target - r_scanned r - len l - 1)))%nat by (unfold len in *; lia).
  pose proof (scanInner_run l (S (Z.to_nat (target - r_scanned r - len l - 1))) [] t (r_scanChunk r) r HF) as Er. cbn [app] in Er. change (len []) with 0 in Er. rewrite Z.add_0_r in Er.
  rewrite Er by (rewrite ?len_app, ?Efr, ?Es; lia). set (r' := set_scan r _ _ _).
  destruct (scanInner_overlong (Z.to_nat (target - r_scanned r - len l - 1)) t (runBytes l) (r_scanChunk r) r' Ht) as [e ->]; [simpl; rewrite ?Efr, ?Es, ?len_app; lia..|].
  exists e. unfold r'. by rewrite Efr.
Qed.

End memory.

(** Reading strings stops at the corrupt prefix. *)
Lemma times_stuck l k pre t : Forall wf_string l → overlong t →
  ∃ e, cursor.times (length l + S k) cursor.str (cursor.mk (pre ++ runBytes l ++ t) (len pre)) = Err e.
Proof.
  intros HF (w & rest & -> & Hw). revert pre. induction HF as [|a l [Ha Hu] HF IH]; intros pre.
  - cbn [length Nat.add cursor.times runBytes fmap list_fmap concat app]. pose proof (len_nonneg rest). unfold cursor.str, cursor.lenPrefix, mbind, cursor.M_bind.
    change (runBytes [] ++ le_split 4 w ++ rest) with (le_split 4 w ++ rest). rewrite (reads_u32 w ltac:(lia) pre rest). cbn. rewrite Z.mul_1_r, !(wrapS_small 64 w), Z.quot_1_r by lia.
    rewrite decide_True; [by eexists|]. right. unfold cursor.remaining. cbn [cursor.b cursor.pos]. rewrite !len_app, !len_le_split. lia.
  - cbn [length Nat.add cursor.times]. unfold mbind at 1, cursor.M_bind at 1. pose proof (reads_str a Ha Hu pre (runBytes l ++ le_split 4 w ++ rest)) as E. rewrite runBytes_cons.
    rewrite <- !app_assoc in *. rewrite E. cbn [mbind res_bind]. destruct (IH (pre ++ le_split 4 (len a) ++ a)) as [e Ee]. rewrite <- !app_assoc in Ee. exists e. unfold mbind, cursor.M_bind. by rewrite Ee.
Qed.

(** A section that declares [n] atoms and holds whole blocks of [bl] atoms, then
    a corrupt length prefix. *)
Section wrong.
Context (bl n sc cc : Z) (first second : list gostring) (blks : list (list gostring)) (t : list byte).
Abbreviation q := (2 + len blks).
Definition corruptSection : list byte := le_split 4 n ++ runBytes (concat (first :: second :: blks)) ++ t.
Abbreviation s := corruptSection.
Context (Hbl : 0 < bl) (Hblks : Forall (λ b, len b = bl ∧ Forall wf_string b) (first :: second :: blks)).
Context (Ht : overlong t) (Hn : (q + 1) * bl < n < 4294967296) (Hs : len s < 9223372036854775808) (Hsc : len s ≤ sc) (Hsize : n ≤ len s - 4).

Abbreviation bytesAll := (len (runBytes (concat (first :: second :: blks)))).
Abbreviation bytes1 := (len (runBytes first)).

Definition reader0 : AtomReader MemoryFetch :=
  mkAtomReader (mkMemoryFetch s) 0 (len s) n (Z.max bl 1) (Z.max sc 16) (Z.max cc 1) [4] 4 0 ∅ [].
Definition starts1 : list Z := 4 :: marks bl 0 4 (concat (first :: second :: blks)).
Definition reader1 : AtomReader MemoryFetch := set_scan reader0 starts1 4 (q * bl).
Definition reader2 : AtomReader MemoryFetch := set_scan reader0 (starts1 ++ [4 + bytes1]) (4 + bytes1) ((q + 1) * bl).

Lemma short_atoms b : b ∈ first :: second :: blks → len b = bl ∧ Forall (λ a, len a < 4294967296) b.
Proof. intros Hb. rewrite Forall_forall in Hblks. destruct (Hblks b Hb) as [? HF]. split; [done|]. eapply Forall_impl; [exact HF|]. by intros a []. Qed.

Lemma len_blocks (l : list (list gostring)) : Forall (λ b, len b = bl) l → len (concat l) = len l * bl.
Proof. induction 1 as [|b l Hb _ IH]; [done|]. cbn [concat]. rewrite len_app, IH, Hb, len_cons. lia. Qed.

Lemma all_blocks : Forall (λ b, len b = bl) (first :: second :: blks).
Proof. eapply Forall_impl; [exact Hblks|]. by intros b []. Qed.

Lemma len_all : len (concat (first :: second :: blks)) = q * bl.
Proof. rewrite len_blocks by apply all_blocks. rewrite !len_cons. lia. Qed.

Lemma len_starts1 : len starts1 = q + 1 ∧ starts1 !! Z.to_nat q = Some (4 + bytesAll).
Proof.
  destruct (marks_blocks bl 0 4 (first :: second :: blks) Hbl all_blocks) as [El Ea]. rewrite Z.mul_0_l in El, Ea. specialize (Ea ltac:(done)). rewrite !len_cons in El.
  unfold starts1. rewrite len_cons, El. split; [lia|]. rewrite last_lookup in Ea. unfold len in El. pose proof (len_nonneg blks) as Hb. unfold len in Hb.
  replace (Z.to_nat q) with (S (pred (length (marks bl 0 4 (concat (first :: second :: blks)))))) by (unfold len; lia). exact Ea.
Qed.

Lemma over_readers : over s reader0 ∧ over s reader1 ∧ over s reader2.
Proof. unfold over. simpl. split_and!; done || lia. Qed.

(** The last atom of a block, with its widths. *)
Lemma block_last b : 0 ≤ b → b * bl < n → to_u32 (Z.min (to_u64 (to_u32 (b + 1) * Z.max bl 1)) n) = Z.min ((b + 1) * bl) n.
Proof.
  intros Hb Hbn. pose proof (len_nonneg blks). replace (Z.max bl 1) with bl by lia. assert (b + 1 ≤ n) by nia. rewrite (wrapU_small 32 (b + 1)) by lia. rewrite (wrapU_small 64) by nia. rewrite (wrapU_small 32) by nia. done.
Qed.

Lemma block_id b : 0 ≤ b → b * bl / Z.max bl 1 = b ∧ (b * bl) `mod` Z.max bl 1 = 0.
Proof. intros _. replace (Z.max bl 1) with bl by lia. rewrite Z.div_mul, Z.mod_mul by lia. done. Qed.

Lemma open_corrupt : newAtomReader (mkMemoryFetch s) [mkDirEntry sectionAtoms 0 (len s)] bl sc cc = Ok reader0.
Proof.
  pose proof (len_nonneg blks). assert (0 < n) by nia. unfold newAtomReader. change (lastEntry sectionAtoms _) with (Some (mkDirEntry sectionAtoms 0 (len s))). cbn [Offset Length]. rewrite decide_False by lia.
  pose proof (fetch_run s Hs [] (le_split 4 n) (runBytes (concat (first :: second :: blks)) ++ t) eq_refl) as E. rewrite len_le_split in E. change (to_u64 (0 + len [])) with 0 in E. change (Z.of_nat 4) with 4 in E. rewrite E.
  cbn [mbind res_bind]. unfold leUint32. pose proof (slice_mid [] (le_split 4 n) []) as E4. rewrite app_nil_r, len_le_split in E4. cbn [app] in E4. change (len [] + Z.of_nat 4) with 4 in E4. change (len []) with 0 in E4. rewrite E4.
  cbn [mbind res_bind]. rewrite le_combine_u by (simpl; lia). rewrite decide_False by lia. rewrite memory_after. done.
Qed.

(** The first lookup counts every atom before the corrupt one and fails. *)
Lemma lookup_first : ∃ e, Atom_ reader0 (q * bl) = Some (Err e, reader1).
Proof.
  pose proof (len_nonneg blks). unfold Atom_. cbn [r_n r_blockLen r_cache reader0]. rewrite decide_False, decide_False by nia. destruct (block_id q ltac:(lia)) as [-> ->]. rewrite lookup_empty.
  unfold loadBlock. cbn [r_n r_blockLen]. rewrite block_last by nia. rewrite Z.min_l by lia.
  destruct (scan_stops s Hs ((q + 1) * bl) reader0 (le_split 4 n) (concat (first :: second :: blks)) t) as [e E]; [apply over_readers|done|done|by rewrite len_le_split| |done|rewrite len_all; simpl; lia|lia|].
  { apply Forall_concat, Forall_forall. intros b Hb. by apply short_atoms. }
  exists e. rewrite E, len_all, len_le_split. cbn [r_blockLen r_scanned r_starts reader0]. replace (Z.max bl 1) with bl by lia. done.
Qed.

Lemma blocks_split : runBytes (concat (first :: second :: blks)) = runBytes first ++ runBytes second ++ runBytes (concat blks).
Proof. cbn [concat]. by rewrite !runBytes_app. Qed.

(** The second reads the first block again as this one: its end comes before
    its start, and the fetch fails. *)
Lemma lookup_again : ∃ e, Atom_ reader1 (q * bl) = Some (Err e, reader2).
Proof.
  pose proof (len_nonneg blks). destruct (short_atoms first ltac:(set_solver)) as [L1 F1]. destruct (short_atoms second ltac:(set_solver)) as [L2 F2]. destruct len_starts1 as [Ls Lq].
  unfold Atom_. cbn [r_n r_blockLen r_cache reader1 reader0 set_scan]. rewrite decide_False, decide_False by nia. destruct (block_id q ltac:(lia)) as [-> ->]. rewrite lookup_empty.
  unfold loadBlock. change (r_blockLen reader1) with (Z.max bl 1). change (r_n reader1) with n. rewrite block_last by nia. rewrite Z.min_l by lia.
  pose proof (scan_run s Hs reader1 (le_split 4 n) first (runBytes second ++ runBytes (concat blks) ++ t)) as E.
  change (r_scanned reader1) with (q * bl) in E. rewrite L1, len_le_split in E. replace (q * bl + bl) with ((q + 1) * bl) in E by lia.
  rewrite E; clear E; [|apply over_readers|unfold s; rewrite blocks_split, <- !app_assoc; done|done|intros ->; change (len []) with 0 in L1; lia|done|nia|lia].
  change (r_blockLen reader1) with (Z.max bl 1). replace (Z.max bl 1) with bl by lia. rewrite (marks_end bl q) by (done || lia || (intros ->; change (len []) with 0 in L1; lia)). change (Z.of_nat 4) with 4. change (set_scan reader1 (r_starts reader1 ++ [4 + bytes1]) (4 + bytes1) ((q + 1) * bl)) with reader2.
  change (r_starts reader2) with (starts1 ++ [4 + bytes1]). rewrite (idx_lookup _ q (4 + bytesAll)) by (lia || by apply lookup_app_l_Some). cbn [mbind res_bind].
  rewrite len_app, Ls. change (len [4 + bytes1]) with 1. rewrite decide_True by lia. rewrite (idx_lookup _ (q + 1) (4 + bytes1)); [|lia|rewrite lookup_app_r by (unfold len in *; lia); replace (Z.to_nat (q + 1) - length starts1)%nat with 0%nat by (unfold len in *; lia); done].
  cbn [mbind res_bind]. unfold Fetch. rewrite (over_fetch s) by apply over_readers. change (r_f reader2) with (mkMemoryFetch s). change (r_off reader2) with 0.
  pose proof (len_nonneg (runBytes first)). pose proof (len_runBytes second). pose proof (len_nonneg (runBytes (concat blks))). assert (bytesAll = bytes1 + len (runBytes second) + len (runBytes (concat blks))) as EA by (rewrite blocks_split, !len_app; lia).
  assert (4 + bytesAll ≤ len s) as Hle by (unfold s; rewrite !len_app, len_le_split; pose proof (len_nonneg t); lia). unfold fetch, memoryFetch, MemoryFetch_Fetch. rewrite Z.add_0_l, (wrapU_small 64 (4 + bytesAll)) by lia.
  assert (to_u64 (4 + bytes1 - (4 + bytesAll)) = 18446744073709551616 + bytes1 - bytesAll) as ->.
  { replace (4 + bytes1 - (4 + bytesAll)) with (18446744073709551616 + bytes1 - bytesAll + (-1) * 2 ^ 64) by lia. unfold wrapU. rewrite Z.mod_add, Z.mod_small by lia. done. }
  assert (to_u64 (4 + bytesAll + (18446744073709551616 + bytes1 - bytesAll)) = 4 + bytes1) as ->.
  { replace (4 + bytesAll + (18446744073709551616 + bytes1 - bytesAll)) with (4 + bytes1 + 1 * 2 ^ 64) by lia. unfold wrapU. rewrite Z.mod_add, Z.mod_small by lia. done. }
  rewrite decide_True by lia. cbn [mbind res_bind corruptf]. by eexists.
Qed.

(** The next block is served from the second one. *)
Lemma lookup_next : ∃ x r', head second = Some x ∧ Atom_ reader2 ((q + 1) * bl) = Some (Ok x, r').
Proof.
  pose proof (len_nonneg blks). destruct (short_atoms first ltac:(set_solver)) as [L1 F1]. destruct (short_atoms second ltac:(set_solver)) as [L2 F2]. destruct len_starts1 as [Ls _].
  set (m := Z.min bl (n - (q + 1) * bl)). assert (0 < m ≤ bl) as Hm by (unfold m; lia).
  unfold Atom_. cbn [r_n r_blockLen r_cache reader2 reader0 set_scan]. rewrite decide_False, decide_False by nia. destruct (block_id (q + 1) ltac:(lia)) as [-> ->]. rewrite lookup_empty.
  unfold loadBlock. change (r_blockLen reader2) with (Z.max bl 1). change (r_n reader2) with n. rewrite block_last by nia. replace (Z.min ((q + 1 + 1) * bl) n) with ((q + 1) * bl + m) by (unfold m; lia).
  set (l := take (Z.to_nat m) second). assert (len l = m) as Ll by (unfold l, len in *; rewrite length_take; lia). assert (l ≠ []) as Hne by (intros E; rewrite E in Ll; change (len []) with 0 in Ll; lia).
  assert (second = l ++ drop (Z.to_nat m) second) as E2 by (symmetry; apply take_drop).
  pose proof (scan_run s Hs reader2 (le_split 4 n ++ runBytes first) l (runBytes (drop (Z.to_nat m) second) ++ runBytes (concat blks) ++ t)) as E.
  change (r_scanned reader2) with ((q + 1) * bl) in E. rewrite Ll in E.
  assert (s = (le_split 4 n ++ runBytes first) ++ runBytes l ++ runBytes (drop (Z.to_nat m) second) ++ runBytes (concat blks) ++ t) as Es by (unfold s; rewrite blocks_split; rewrite E2 at 1; rewrite runBytes_app, <- !app_assoc; done).
  rewrite E; clear E; [|apply over_readers|done|by rewrite len_app, len_le_split|done|by apply Forall_take|nia|lia].
  change (r_blockLen reader2) with (Z.max bl 1). replace (Z.max bl 1) with bl by lia. rewrite len_app, len_le_split. change (Z.of_nat 4) with 4. set (at_ := 4 + bytes1). set (end_ := at_ + len (runBytes l)).
  assert (marks bl ((q + 1) * bl) at_ l = [] ∨ marks bl ((q + 1) * bl) at_ l = [end_]) as Hmarks.
  { destruct (decide (m = bl)); [right; apply (marks_end bl (q + 1)); done || lia|left; apply (marks_inside bl (q + 1)); lia]. }
  set (ms := marks bl ((q + 1) * bl) at_ l) in *. set (r3 := set_scan reader2 _ end_ _). change (r_starts r3) with ((starts1 ++ [at_]) ++ ms).
  assert (((starts1 ++ [at_]) ++ ms) !! Z.to_nat (q + 1) = Some at_) as El.
  { apply lookup_app_l_Some. rewrite lookup_app_r by (unfold len in *; lia). by replace (Z.to_nat (q + 1) - length starts1)%nat with 0%nat by (unfold len in *; lia). }
  rewrite (idx_lookup _ (q + 1) at_) by (lia || done). cbn [mbind res_bind].
  assert ((if decide (q + 1 + 1 < len ((starts1 ++ [at_]) ++ ms)) then idx ((starts1 ++ [at_]) ++ ms) (q + 1 + 1) else Ok (r_frontier r3)) = Ok end_) as ->.
  { destruct Hmarks as [-> | ->]; [rewrite app_nil_r, len_app, Ls; change (len [at_]) with 1; by rewrite decide_False by lia|].
    rewrite !len_app, Ls. change (len [at_]) with 1. change (len [end_]) with 1. rewrite decide_True by lia. apply idx_lookup; [lia|]. rewrite lookup_app_r by (rewrite length_app; change (length [at_]) with 1%nat; unfold len in *; lia).
    by replace (Z.to_nat (q + 1 + 1) - length (starts1 ++ [at_]))%nat with 0%nat by (rewrite length_app; change (length [at_]) with 1%nat; unfold len in *; lia). }
  cbn [mbind res_bind]. unfold Fetch. assert (over s r3) as Ho by (unfold over; simpl; split_and!; done || lia). rewrite (over_fetch s) by done. change (r_f r3) with (mkMemoryFetch s). change (r_off r3) with 0.
  assert (0 ≤ at_) by (unfold at_; pose proof (len_nonneg (runBytes first)); lia). pose proof (len_nonneg (runBytes l)). assert (end_ ≤ len s) by (rewrite Es, !len_app, len_le_split; pose proof (len_nonneg t); pose proof (len_nonneg (runBytes (concat blks))); pose proof (len_nonneg (runBytes (drop (Z.to_nat m) second))); unfold end_, at_; lia).
  rewrite (wrapU_small 64 (end_ - at_)) by lia. replace (end_ - at_) with (len (runBytes l)) by (unfold end_; lia). pose proof (fetch_run s Hs _ _ _ Es) as Ef. rewrite len_app, len_le_split in Ef. change (Z.of_nat 4 + bytes1) with at_ in Ef. rewrite Ef.
  cbn [mbind res_bind]. change (r_blockLen r3) with (Z.max bl 1). replace (Z.max bl 1) with bl by lia. rewrite (wrapU_small 32 ((q + 1) * bl)) by nia. rewrite (wrapU_small 32) by nia. replace ((q + 1) * bl + m - (q + 1) * bl) with (m - 0) by lia.
  assert (wf_atoms second) as Hwf by (split; [nia|]; rewrite Forall_forall in Hblks; apply (Hblks second); set_solver).
  pose proof (decodeBlock_ok second Hwf 0 m (q + 1) ltac:(lia) ltac:(lia)) as Ed. rewrite Z.sub_0_r, drop_0 in Ed. rewrite Z.sub_0_r. unfold runBytes, l. rewrite Ed.
  unfold fileBlock. change (r_cache r3) with (∅ : gmap Z (list gostring)). change (r_cacheCap r3) with (Z.max cc 1). rewrite map_size_empty, decide_False by lia. cbn [mbind res_bind].
  destruct second as [|x rest] eqn:Esec; [change (len []) with 0 in L2; lia|]. eexists x, _. split; [done|]. f_equal. f_equal.
  change (r_blockLen _) with (Z.max bl 1). rewrite (proj2 (block_id (q + 1) ltac:(lia))). replace (Z.to_nat m) with (S (Z.to_nat (m - 1))) by lia. done.
Qed.

(** The eager decoder rejects the section. *)
Lemma eager_rejects : ∃ e, decodeAtoms s = Err e.
Proof.
  unfold decodeAtoms. rewrite decodeAtomsM_times by apply newCursor_cwf. pose proof (len_nonneg blks). assert (0 < n) by nia.
  unfold cursor.lenPrefix, mbind, cursor.M_bind. pose proof (reads_u32 n ltac:(lia) [] (runBytes (concat (first :: second :: blks)) ++ t)) as E. cbn [app] in E. change (len []) with 0 in E. fold s in E.
  unfold cursor.newCursor. rewrite E. cbn. rewrite (wrapS_small 64 n), Z.mul_1_r, (wrapS_small 64 n), Z.quot_1_r by lia.
  rewrite decide_False. 2: { unfold cursor.remaining. cbn [cursor.b cursor.pos]. rewrite len_le_split. intros [?|?]; [done|lia]. } cbn.
  destruct (times_stuck (concat (first :: second :: blks)) (Z.to_nat (n - q * bl - 1)) (le_split 4 n) t) as [e Ee].
  { apply Forall_concat, Forall_forall. intros b Hb. rewrite Forall_forall in Hblks. by apply Hblks. }
  { done. }
  replace (length (concat (first :: second :: blks)) + S (Z.to_nat (n - q * bl - 1)))%nat with (Z.to_nat n) in Ee by (pose proof len_all; unfold len in *; lia).
  exists e. fold s in Ee. by rewrite Ee.
Qed.

End wrong.

(** C37: After a lookup failed on a corrupt atom the reader is no longer
    trustworthy. Take any section of [q] whole blocks of well-formed atoms, two
    or more, followed by a length prefix that runs past the section, declaring
    more atoms than the next block holds, and a reader that scans it in one
    chunk: the eager decoder rejects the section; the reader fails on the
    corrupt block, has then counted the atoms before it without moving its
    frontier, fails on it again, and answers the first id of the block after it
    with the first atom of the second block. *)
Theorem AtomReader_wrong_after_error (bl n sc cc : Z) (first second : list gostring) (blks : list (list gostring)) (t : list byte) :
  let q := 2 + len blks in let s := corruptSection n first second blks t in
  0 < bl → Forall (λ b, len b = bl ∧ Forall wf_string b) (first :: second :: blks) → overlong t →
  (q + 1) * bl < n < 4294967296 → n ≤ len s - 4 → len s < 9223372036854775808 → len s ≤ sc →
  (∃ e, decodeAtoms s = Err e) ∧
  ∃ x r r' e1 e2, head second = Some x ∧ newAtomReader (mkMemoryFetch s) [mkDirEntry sectionAtoms 0 (len s)] bl sc cc = Ok r ∧
    lookups r [q * bl; q * bl; (q + 1) * bl] = Some ([Err e1; Err e2; Ok x], r').
Proof.
  intros q s Hbl Hblks Ht Hn Hsize Hs Hsc. split; [by eapply eager_rejects|].
  destruct (lookup_first bl n sc cc first second blks t) as [e1 E1]; [done..|]. destruct (lookup_again bl n sc cc first second blks t) as [e2 E2]; [done..|].
  destruct (lookup_next bl n sc cc first second blks t) as (x & r' & Hx & E3); [done..|].
  exists x, (reader0 bl n sc cc first second blks t), r', e1, e2. split; [done|]. split; [by apply open_corrupt|].
  unfold q. cbn [lookups]. by rewrite E1, E2, E3.
Qed.

Lemma AtomReader_wrong_after_error_witness : let s := le_split 4 4 ++ stringBytes [Byte.x61] ++ stringBytes [Byte.x62] ++ le_split 4 100 ++ [Byte.x64] in
  (∃ e, decodeAtoms s = Err e) ∧
  ∃ r r' e1 e2, newAtomReader (mkMemoryFetch s) [mkDirEntry sectionAtoms 0 (len s)] 1 64 4 = Ok r ∧
    lookups r [2; 2; 3] = Some ([Err e1; Err e2; Ok [Byte.x62]], r').
Proof.
  destruct (AtomReader_wrong_after_error 1 4 64 4 [[Byte.x61]] [[Byte.x62]] [] (le_split 4 100 ++ [Byte.x64])) as [He (x & r & r' & e1 & e2 & [= <-] & Er & El)];
    [lia|by repeat constructor|by exists 100, [Byte.x64]|done|by vm_compute|by vm_compute|by vm_compute|].
  split; [exact He|]. by exists r, r', e1, e2.
Defined.
