(* ===== verification/Rrsr.v ===== *)
(** The record store: [src/rcpg/rrsr/rrsr.go].

    An index of monotone offsets into a stream of concatenated payloads. The
    theorems: what [Write] produces [Parse] reads back, and every record's
    range cuts its payload out of the stream; [Parse] never panics; and
    [PlanRanges] plans reads that cover every wanted record, in ascending
    order, at least the gap apart, and start and end at wanted records. At the
    largest count the index can declare the parsed index is empty. *)

From S2P Require Import Prelude.

Definition Magic : list byte := [Byte.x52; Byte.x52; Byte.x53; Byte.x52].
Definition Version : Z := 1.
Definition headerLen : Z := 16.

Record ByteRange := mkByteRange { Start : Z; End_ : Z }.
#[export] Instance ByteRange_eq_dec : EqDecision ByteRange.
Proof. solve_decision. Defined.

(** ** Writing *)

(** The payload loop: every record written, [pos] and [offsets] advanced. *)
Fixpoint writeRecords {W} `{Writer W} (records : list (list byte)) (pos : Z) (offsets : list Z)
    (bin : W) : W * res (list Z) :=
  match records with
  | [] => (bin, Ok offsets)
  | record :: rest =>
      match wwrite record bin with
      | (bin, Some e) => (bin, Err e)
      | (bin, None) =>
          let pos := to_u64 (pos + to_u64 (len record)) in
          writeRecords rest pos (offsets ++ [pos]) bin
      end
  end.

Definition indexHead (offsets : list Z) (count : Z) : list byte :=
  let head := [] ++ Magic in
  let head := head ++ le_split 2 Version in
  let head := head ++ le_split 2 0 in
  let head := head ++ le_split 4 (to_u32 count) in
  let head := head ++ le_split 4 0 in
  foldl (λ head off, head ++ le_split 8 off) head offsets.

Definition Write {W1 W2} `{Writer W1} `{Writer W2} (idx : W1) (bin : W2) (records : list (list byte))
    : W1 * W2 * res () :=
  match writeRecords records 0 [0] bin with
  | (bin, Err e) => (idx, bin, Err e)
  | (bin, Panic) => (idx, bin, Panic)
  | (bin, Ok offsets) =>
      let count := len offsets - 1 in
      if decide (MaxUint32 < to_u64 count)
      then (idx, bin, corruptf "record count %d exceeds the format's u32 capacity" [count])
      else match wwrite (indexHead offsets count) idx with
           | (idx, Some e) => (idx, bin, Err e)
           | (idx, None) => (idx, bin, Ok ())
           end
  end.

(** ** Parsing *)

Record RecordIndex := mkRecordIndex { offsets : list Z }.

(** [for i := 1; i < len(offsets); i++]: the first descent is an error. *)
Fixpoint monotonic (prev : Z) (l : list Z) : bool :=
  match l with
  | [] => true
  | x :: l => if decide (x < prev) then false else monotonic x l
  end.

Definition Parse (b : list byte) : res RecordIndex :=
  if decide (len b < headerLen) then corruptf "index shorter than its header" []
  else
    m ← slice b 0 4;
    if decide (m ≠ Magic) then corruptf "bad magic, not an RRSR index" []
    else
      v ← slice b 4 6; version ← leUint 2 v;
      if decide (version ≠ Version) then unsupportedVersionf "RRSR version %d" version
      else
        c ← slice b 8 12; count ← leUint 4 c;
        let expected := to_u64 (headerLen + to_u64 (to_u64 (count + 1) * 8)) in
        if decide (len b ≠ expected)
        then corruptf "index length %d doesn't match count %d" [len b; count]
        else
          offsets ← mapM (λ i, tail ← slice b (headerLen + i * 8) (len b); leUint 8 tail)
                      (zseq (to_u32 (count + 1)));
          if match offsets with [] => true | o :: rest => monotonic o rest end
          then Ok (mkRecordIndex offsets)
          else corruptf "offsets not monotonic" [].

Definition Len (r : RecordIndex) : Z := len (offsets r) - 1.

Definition RecordRange (r : RecordIndex) (id : Z) : res (ByteRange * bool) :=
  let i := id in
  if decide (len (offsets r) ≤ i + 1) then Ok (mkByteRange 0 0, false)
  else
    s ← idx (offsets r) i; e ← idx (offsets r) (i + 1);
    Ok (mkByteRange s e, true).

(** ** Planning reads *)

(** One round of the coalescing loop; [ranges] is held last range first. *)
Definition planStep (r : RecordIndex) (maxGap : Z) (ranges : list ByteRange) (id : Z)
    : res (list ByteRange) :=
  start ← idx (offsets r) id; end_ ← idx (offsets r) (to_u32 (id + 1));
  if decide (start = end_) then Ok ranges
  else match ranges with
  | last :: before =>
      if decide (start ≤ to_u64 (End_ last + maxGap))
      then Ok (mkByteRange (Start last) (Z.max (End_ last) end_) :: before)
      else Ok (mkByteRange start end_ :: ranges)
  | [] => Ok [mkByteRange start end_]
  end.

Definition PlanRanges (r : RecordIndex) (ids : list Z) (maxGap : Z) : res (list ByteRange) :=
  let sorted := filter (λ id, id + 1 < len (offsets r)) ids in
  let sorted := merge_sort (≤) sorted in
  let sorted := Compact sorted in
  ranges ← foldM (planStep r maxGap) sorted [];
  Ok (reverse ranges).

(** ** Round trip *)

(** Offsets after each record, from [pos]. *)
Fixpoint ends (pos : Z) (records : list (list byte)) : list Z :=
  match records with
  | [] => []
  | r :: rest => (pos + len r) :: ends (pos + len r) rest
  end.

Definition offsetsOf (records : list (list byte)) : list Z := 0 :: ends 0 records.

Lemma len_ends pos records : len (ends pos records) = len records.
Proof. revert pos. induction records as [|r rs IH]; intros pos; simpl; [done|]. by rewrite !len_cons, IH. Qed.

Lemma writeRecords_buffer records pos offs (bin : list byte) :
  0 ≤ pos → pos + len (concat records) < 18446744073709551616 →
  writeRecords records pos offs bin = (bin ++ concat records, Ok (offs ++ ends pos records)).
Proof.
  revert pos offs bin. induction records as [|r rs IH]; intros pos offs bin Hp Hl; simpl in *.
  { by rewrite !app_nil_r. }
  rewrite len_app in Hl. pose proof (len_nonneg r). pose proof (len_nonneg (concat rs)).
  rewrite (wrapU_small 64 (len r)), wrapU_small by lia. rewrite IH by lia.
  by rewrite <- !(assoc_L (++)).
Qed.

Definition indexBytes (count : Z) (offs : list Z) : list byte :=
  Magic ++ le_split 2 1 ++ le_split 2 0 ++ le_split 4 count ++ le_split 4 0 ++
  concat (le_split 8 <$> offs).

Lemma indexHead_bytes offs count : is_u32 count → indexHead offs count = indexBytes count offs.
Proof.
  intros Hc. unfold indexHead, indexBytes. rewrite (wrapU_small 32) by lia.
  assert (∀ h, foldl (λ head off, head ++ le_split 8 off) h offs = h ++ concat (le_split 8 <$> offs)) as ->.
  { induction offs as [|o os IH]; intros h; simpl; [by rewrite app_nil_r|]. by rewrite IH, <- (assoc_L (++)). }
  by rewrite <- !(assoc_L (++)).
Qed.

Lemma len_indexBytes count offs : len (indexBytes count offs) = 16 + 8 * len offs.
Proof.
  unfold indexBytes. rewrite !len_app, !len_le_split.
  rewrite (len_concat_chunks (le_split 8) 8) by (intros; apply len_le_split).
  change (len Magic) with 4. lia.
Qed.

(** The header of a written index passes every check; what remains is the
    offset loop, over [uint32(count+1)] entries. *)
Lemma Parse_header count offs : is_u32 count → len offs = count + 1 →
  Parse (indexBytes count offs) =
    (os ← mapM (λ i, tail ← slice (indexBytes count offs) (headerLen + i * 8)
                        (len (indexBytes count offs)); leUint 8 tail) (zseq (to_u32 (count + 1)));
     if match os with [] => true | o :: rest => monotonic o rest end
     then Ok (mkRecordIndex os) else corruptf "offsets not monotonic" []).
Proof.
  intros Hc Hl. unfold Parse. pose proof (len_indexBytes count offs) as L. unfold headerLen in *.
  rewrite decide_False by lia.
  assert (slice (indexBytes count offs) 0 4 = Ok Magic) as -> by (by apply (slice_at [] Magic)).
  cbn [mbind res_bind]. rewrite decide_False by auto.
  assert (slice (indexBytes count offs) 4 6 = Ok (le_split 2 1)) as ->.
  { by apply (slice_at Magic); rewrite ?len_le_split. }
  cbn [mbind res_bind]. rewrite (leUint_whole 2) by done. cbn [mbind res_bind].
  rewrite decide_False by auto.
  assert (slice (indexBytes count offs) 8 12 = Ok (le_split 4 count)) as ->.
  { unfold indexBytes. rewrite (assoc_L (++) (le_split 2 1)), (assoc_L (++) Magic).
    apply slice_at; by rewrite ?len_app, !len_le_split. }
  cbn [mbind res_bind]. rewrite (leUint_whole 4) by (simpl; lia). cbn [mbind res_bind].
  rewrite (wrapU_small 64 (count + 1)), (wrapU_small 64 ((count + 1) * 8)),
    (wrapU_small 64 (16 + (count + 1) * 8)) by lia. rewrite L.
  rewrite decide_False by lia. done.
Qed.

Lemma Parse_indexBytes count offs : 0 ≤ count < MaxUint32 → len offs = count + 1 →
  Forall (λ o, is_u64 o) offs → match offs with [] => true | o :: rest => monotonic o rest end = true →
  Parse (indexBytes count offs) = Ok (mkRecordIndex offs).
Proof.
  intros Hc Hl HF Hm. rewrite Parse_header by lia. rewrite (wrapU_small 32) by lia.
  rewrite <- Hl. erewrite mapM_zseq; [cbn [mbind res_bind]; by rewrite Hm|].
  intros i o Ho. unfold headerLen.
  rewrite (leUint_tail _ _ 8 (le_split 8 o)); [|lia|].
  - f_equal. apply le_combine_u. exact (Forall_lookup_1 _ _ _ _ HF Ho).
  - pose proof (slice_chunk (le_split 8) 8 offs i o (λ _ _, len_le_split 8 _) Ho) as E.
    apply slice_split in E as (pre & post & E & Hp). unfold indexBytes. rewrite E.
    rewrite !(assoc_L (++)). rewrite <- (assoc_L (++) _ (le_split 8 o) post).
    apply slice_at; rewrite ?len_app, ?len_le_split, ?Hp; [change (len Magic) with 4|]; lia.
Qed.

Lemma ends_props pos records : 0 ≤ pos →
  Forall (λ o, pos ≤ o ≤ pos + len (concat records)) (ends pos records) ∧
  monotonic pos (ends pos records) = true.
Proof.
  revert pos. induction records as [|r rs IH]; intros pos Hp; simpl; [done|].
  rewrite len_app. pose proof (len_nonneg r). pose proof (len_nonneg (concat rs)).
  destruct (IH (pos + len r)) as [HF Hm]; [lia|]. rewrite decide_False by lia. split; [|done].
  constructor; [lia|]. eapply Forall_impl; [exact HF|]. simpl. lia.
Qed.

Lemma ends_lookup pos records i r : records !! i = Some r →
  (pos :: ends pos records) !! i = Some (pos + len (concat (take i records))) ∧
  ends pos records !! i = Some (pos + len (concat (take i records)) + len r).
Proof.
  revert pos i. induction records as [|x rs IH]; intros pos [|i] Hi; simplify_eq/=.
  { change (len []) with 0. by rewrite Z.add_0_r. }
  destruct (IH (pos + len x) i Hi) as [E1 E2]. rewrite len_app. rewrite E1, E2.
  split; f_equal; lia.
Qed.

Lemma slice_record (records : list (list byte)) i r : records !! i = Some r →
  slice (concat records) (len (concat (take i records))) (len (concat (take i records)) + len r) = Ok r.
Proof.
  intros Hi. rewrite <- (take_drop i records) at 1. rewrite (drop_S _ r) by done.
  rewrite concat_app. cbn [concat]. apply slice_mid.
Qed.

Lemma Write_buffer records : len (concat records) < 18446744073709551616 → len records ≤ MaxUint32 →
  Write [] [] records = (indexBytes (len records) (offsetsOf records), concat records, Ok ()).
Proof.
  intros Hl Hn. unfold Write. rewrite writeRecords_buffer by lia. cbn [app].
  rewrite len_cons, len_ends. replace (len records + 1 - 1) with (len records) by lia.
  pose proof (len_nonneg records). rewrite (wrapU_small 64) by lia. rewrite decide_False by lia.
  by rewrite indexHead_bytes by lia.
Qed.

Lemma Parse_written records : len (concat records) < 18446744073709551616 → len records < MaxUint32 →
  Parse (indexBytes (len records) (offsetsOf records)) = Ok (mkRecordIndex (offsetsOf records)).
Proof.
  intros Hl Hn. pose proof (len_nonneg records). destruct (ends_props 0 records) as [HF Hm]; [lia|].
  apply Parse_indexBytes; [lia|unfold offsetsOf; by rewrite len_cons, len_ends| |done].
  constructor; [done|]. eapply Forall_impl; [exact HF|]. simpl. lia.
Qed.

Lemma Parse_safe b : safe (Parse b).
Proof.
  unfold Parse, headerLen. case_decide as D; [done|].
  rewrite (slice_ok b 0 4) by lia. cbn [mbind res_bind]. case_decide; [done|].
  destruct (slice b 4 6) as [v| |] eqn:Ev; [|by rewrite slice_ok in Ev by lia..].
  cbn [mbind res_bind]. apply slice_len in Ev.
  destruct (leUint_ok 2 v) as (version & -> & _); [lia|]. cbn [mbind res_bind]. case_decide; [done|].
  destruct (slice b 8 12) as [c| |] eqn:Ec; [|by rewrite slice_ok in Ec by lia..].
  cbn [mbind res_bind]. apply slice_len in Ec.
  destruct (leUint_ok 4 c) as (count & -> & Hc); [lia|]. change (2 ^ (8 * 4)) with 4294967296 in Hc.
  cbn [mbind res_bind]. case_decide as De; [done|].
  apply safe_bind; [|intros; by case_match].
  apply mapM_zseq_safe. intros i Hi.
  assert (len b = 16 + (count + 1) * 8) as Hlen.
  { rewrite (wrapU_small 64 (count + 1)), (wrapU_small 64 ((count + 1) * 8)),
      (wrapU_small 64 (16 + (count + 1) * 8)) in De by lia.
    destruct (decide (len b = 16 + (count + 1) * 8)); [done|tauto]. }
  pose proof (Z.mod_le (count + 1) (2 ^ 32) ltac:(lia) ltac:(lia)) as Hm. unfold wrapU in Hi.
  erewrite leUint_tail; [done|lia|]. apply slice_ok; lia.
Qed.

(** ** Planned reads *)

Section plan.
Context (r : RecordIndex) (maxGap : Z).

Definition off (i : Z) : Z := offsets r !!! Z.to_nat i.
Definition inRange (id : Z) : Prop := 0 ≤ id ∧ id + 1 < len (offsets r).

(** What [Parse] guarantees of an index: monotone 64-bit offsets, few enough
    that ids are 32-bit. *)
Record wf_index : Prop := {
  wi_len : len (offsets r) ≤ MaxUint32;
  wi_mono : ∀ i j, 0 ≤ i ≤ j → j < len (offsets r) → off i ≤ off j;
  wi_u64 : ∀ i, 0 ≤ i < len (offsets r) → is_u64 (off i);
}.
Context (Hwf : wf_index).

Definition covers (rg : ByteRange) (id : Z) : Prop := Start rg ≤ off id ∧ off (id + 1) ≤ End_ rg.

(** A range starts where a wanted record starts and ends where one ends. *)
Definition tight (ids : list Z) (rg : ByteRange) : Prop :=
  Start rg < End_ rg ∧ (∃ id, id ∈ ids ∧ inRange id ∧ off id = Start rg) ∧
  (∃ id, id ∈ ids ∧ inRange id ∧ off (id + 1) = End_ rg).

(** Consecutive ranges neither overlap nor could have been one read. *)
Definition apart (r1 r2 : ByteRange) : Prop :=
  End_ r1 ≤ Start r2 ∧ to_u64 (End_ r1 + maxGap) < Start r2.

Record planned (ids : list Z) (ranges : list ByteRange) : Prop := {
  pl_cover : ∀ id, id ∈ ids → inRange id → off id < off (id + 1) → ∃ rg, rg ∈ ranges ∧ covers rg id;
  pl_tight : Forall (tight ids) ranges;
  pl_apart : Sorted (flip apart) ranges;
}.

Lemma idx_off i : 0 ≤ i < len (offsets r) → idx (offsets r) i = Ok (off i).
Proof.
  clear Hwf. intros Hi. destruct (idx_ok (offsets r) i Hi) as (x & -> & Hx). f_equal. unfold off.
  by rewrite (list_lookup_total_correct _ _ x).
Qed.

Lemma tight_more ids id rg : tight ids rg → tight (ids ++ [id]) rg.
Proof.
  intros (Hlt & (i & Hi & ?) & (j & Hj & ?)). split_and!; [done|..].
  - exists i. rewrite elem_of_app. auto.
  - exists j. rewrite elem_of_app. auto.
Qed.

(** One round, for an id past all those planned so far. *)
Lemma planStep_planned ids ranges id : planned ids ranges → inRange id → Forall (λ j, j < id) ids →
  ∃ ranges', planStep r maxGap ranges id = Ok ranges' ∧ planned (ids ++ [id]) ranges'.
Proof using Hwf.
  intros [Hcov Htight Hsort] [Hi0 Hi1] Hlt. destruct Hwf as [Hlen Hmono Hu].
  unfold planStep. rewrite (wrapU_small 32) by lia. rewrite !idx_off by lia. cbn [mbind res_bind].
  pose proof (Hmono id (id + 1) ltac:(lia) ltac:(lia)) as Hse.
  assert (∀ rg j, tight ids rg → j ∈ ids → inRange j → off (j + 1) = End_ rg → End_ rg ≤ off id) as Hend.
  { intros rg j _ Hj [Hj0 _] <-. rewrite Forall_forall in Hlt. specialize (Hlt j Hj).
    apply Hmono; lia. }
  assert (∀ rgs : list ByteRange, (∀ rg, rg ∈ ranges → ∃ rg', rg' ∈ rgs ∧ Start rg' ≤ Start rg ∧ End_ rg ≤ End_ rg') →
    (off id < off (id + 1) → ∃ rg, rg ∈ rgs ∧ covers rg id) →
    ∀ j, j ∈ ids ++ [id] → inRange j → off j < off (j + 1) → ∃ rg, rg ∈ rgs ∧ covers rg j) as Hcov'.
  { intros rgs Hold Hnew j [Hj| ->%list_elem_of_singleton]%elem_of_app Hr Hne; [|auto].
    destruct (Hcov j Hj Hr Hne) as (rg & Hin & Hs & He). destruct (Hold rg Hin) as (rg' & ? & ? & ?).
    exists rg'. split; [done|]. split; lia. }
  assert (Forall (tight (ids ++ [id])) ranges) as Htight'.
  { eapply Forall_impl; [exact Htight|]. intros. by apply tight_more. }
  case_decide as D.
  { exists ranges. split; [done|]. split; [|done..]. apply Hcov'; [|lia].
    intros rg Hin. exists rg. split; [done|]. lia. }
  assert (tight (ids ++ [id]) (mkByteRange (off id) (off (id + 1)))) as Hnew.
  { split_and!; simpl; [lia|..]; exists id; (split; [rewrite elem_of_app, list_elem_of_singleton; auto|done]). }
  destruct ranges as [|last before].
  { eexists. split; [done|]. split.
    - apply Hcov'; [by intros rg ?%not_elem_of_nil|]. intros _. eexists. split; [by left|]. split; simpl; lia.
    - by constructor.
    - by repeat constructor. }
  apply Forall_cons in Htight as [(Hl1 & Hl2 & (j & Hj & Hjr & Ej)) Hbefore].
  pose proof (Hend last j ltac:(split_and!; eauto) Hj Hjr Ej) as Hle.
  case_decide as Dg; eexists; (split; [done|]); split.
  - apply Hcov'.
    + intros rg [->|Hin]%elem_of_cons; [eexists; split; [by left|]; simpl; lia|].
      exists rg. split; [by right|]. lia.
    + intros _. eexists. split; [by left|]. split; simpl; lia.
  - apply Forall_cons in Htight' as [(_ & Hs & _) Hb']. constructor; [|done].
    rewrite Z.max_r by lia. split_and!; simpl; [lia|done|].
    exists id. rewrite elem_of_app, list_elem_of_singleton. split; [auto|done].
  - inversion Hsort as [|? ? Hs Hhd]; subst. constructor; [done|].
    inversion Hhd as [|b l Hap]; subst; constructor. exact Hap.
  - apply Hcov'.
    + intros rg Hin. exists rg. split; [by right|]. lia.
    + intros _. eexists. split; [by left|]. split; simpl; lia.
  - by constructor.
  - constructor; [done|]. constructor. split; simpl; lia.
Qed.

Lemma plan_all done ids ranges : planned done ranges → Forall inRange ids →
  StronglySorted Z.lt ids → (∀ i j, i ∈ done → j ∈ ids → i < j) →
  ∃ ranges', foldM (planStep r maxGap) ids ranges = Ok ranges' ∧ planned (done ++ ids) ranges'.
Proof using Hwf.
  revert done ranges. induction ids as [|id ids IH]; intros done ranges Hp Hin Hs Hlt; cbn [foldM].
  { exists ranges. by rewrite app_nil_r. }
  apply Forall_cons in Hin as [Hid Hin]. apply StronglySorted_cons in Hs as [Hid' Hs].
  destruct (planStep_planned done ranges id Hp Hid) as (ranges' & -> & Hp').
  { apply Forall_forall. intros j Hj. apply Hlt; [done|by left]. }
  cbn [mbind res_bind]. rewrite (cons_middle id done ids), (assoc_L (++)).
  apply IH; [done..|]. intros i j [Hi| ->%list_elem_of_singleton]%elem_of_app Hj.
  - apply Hlt; [done|by right].
  - rewrite Forall_forall in Hid'. by apply Hid'.
Qed.

Lemma PlanRanges_ok ids : Forall (λ id, 0 ≤ id) ids →
  ∃ ranges, PlanRanges r ids maxGap = Ok ranges ∧
    (∀ id, id ∈ ids → inRange id → off id < off (id + 1) → ∃ rg, rg ∈ ranges ∧ covers rg id) ∧
    Forall (tight ids) ranges ∧ Sorted apart ranges.
Proof using Hwf.
  intros Hpos. unfold PlanRanges. set (l := Compact _).
  assert (∀ id, id ∈ l ↔ id ∈ ids ∧ inRange id) as Hl.
  { intros id. unfold l, inRange. rewrite elem_of_Compact, merge_sort_Permutation, list_elem_of_filter.
    rewrite Forall_forall in Hpos. split; [|naive_solver]. intros [? Hid]. split_and!; auto. }
  destruct (plan_all [] l []) as (ranges & -> & [Hc Ht Hs]).
  - split; [by intros ? ?%not_elem_of_nil|constructor..].
  - apply Forall_forall. intros id Hid. by apply Hl.
  - apply Compact_strict. apply (StronglySorted_merge_sort Z.le).
  - by intros i j ?%not_elem_of_nil.
  - cbn [mbind res_bind app] in *. eexists. split; [done|]. split_and!.
    + intros id Hid Hr Hne. destruct (Hc id) as (rg & Hin & Hcv); [by apply Hl|done|done|].
      exists rg. split; [|done]. by apply elem_of_reverse.
    + apply Forall_reverse. eapply Forall_impl; [exact Ht|].
      intros rg (? & (i & Hi & ?) & (j & Hj & ?)). apply Hl in Hi as [Hi _], Hj as [Hj _].
      split_and!; eauto.
    + apply Sorted_reverse in Hs. exact Hs.
Qed.

End plan.

(** ** What parsing guarantees *)

Lemma monotonic_sorted p l : monotonic p l = true → StronglySorted Z.le (p :: l).
Proof.
  intros H. apply Sorted_StronglySorted; [apply _|]. revert p H.
  induction l as [|x l IH]; intros p H; [repeat constructor|]. simpl in H.
  case_decide as D; [done|]. constructor; [by apply IH|]. constructor. lia.
Qed.

Lemma sorted_lookup (l : list Z) i j x y : StronglySorted Z.le l → (i ≤ j)%nat →
  l !! i = Some x → l !! j = Some y → x ≤ y.
Proof.
  intros Hs. revert i j. induction Hs as [|a l Hs IH Ha]; intros i j Hij Hx Hy; [done|].
  destruct i as [|i], j as [|j]; simplify_eq/=; [lia| |lia|by eapply IH; [|done..]; lia].
  exact (Forall_lookup_1 _ _ _ _ Ha Hy).
Qed.

Lemma Parse_wf b r : Parse b = Ok r → wf_index r.
Proof.
  intros H. unfold Parse in H. case_decide; [done|]. res_inv. case_decide; [done|].
  res_inv. case_decide; [done|]. res_inv. case_decide; [done|]. apply res_bind_Ok in H as (os & Eo & H).
  destruct (match os with [] => true | o :: rest => monotonic o rest end) eqn:Em; [|done].
  injection H as <-. apply mapM_Ok in Eo.
  assert (len os ≤ MaxUint32) as Hl.
  { apply Forall2_length in Eo. unfold len, zseq in *. rewrite length_fmap, length_seq in Eo.
    pose proof (wrapU_range 32 (v3 + 1)). lia. }
  assert (Forall (λ o, is_u64 o) os) as Hu.
  { apply Forall_forall. intros o Ho. apply list_elem_of_lookup in Ho as [i Hi].
    destruct (Forall2_lookup_r _ _ _ _ _ Eo Hi) as (x & _ & Ex). simpl in Ex.
    apply res_bind_Ok in Ex as (t & _ & Ex). unfold leUint in Ex. apply res_bind_Ok in Ex as (w & Ew & Ex).
    injection Ex as <-. apply slice_len in Ew. pose proof (le_combine_bound w) as Hb.
    replace (length w) with 8%nat in Hb by (unfold len in Ew; lia). exact Hb. }
  assert (StronglySorted Z.le os) as Hs.
  { destruct os; [constructor|by apply monotonic_sorted]. }
  assert (∀ i, 0 ≤ i < len os → os !! Z.to_nat i = Some (off (mkRecordIndex os) i)) as Hoff.
  { intros i Hi. unfold off. simpl. apply list_lookup_lookup_total_lt. unfold len in *. lia. }
  split; simpl; [done|..].
  - intros i j Hij Hj. apply (sorted_lookup os (Z.to_nat i) (Z.to_nat j)); [done|lia|apply Hoff; lia..].
  - intros i Hi. exact (Forall_lookup_1 _ _ _ _ Hu (Hoff i Hi)).
Qed.

(** ** Properties *)

(** A record store round-trips: writing any records that fit the format
    into buffers succeeds, the index parses, it has one entry a record, and the
    range it gives for record [i] cuts exactly payload [i] out of the payload
    stream; ids past the last record are out of range. *)
Theorem records_roundtrip (records : list (list byte)) :
  len (concat records) < 18446744073709551616 → len records < MaxUint32 →
  ∃ ib bin r, Write [] [] records = (ib, bin, Ok ()) ∧ Parse ib = Ok r ∧ Len r = len records ∧
    (∀ i p, records !! i = Some p → ∃ rng, RecordRange r (Z.of_nat i) = Ok (rng, true) ∧
      slice bin (Start rng) (End_ rng) = Ok p) ∧
    (∀ id, len records ≤ id → ∃ rng, RecordRange r id = Ok (rng, false)).
Proof.
  intros Hl Hn. eexists _, _, _. split; [by apply Write_buffer; [|lia]|].
  split; [by apply Parse_written|]. unfold Len, RecordRange, offsetsOf. simpl.
  rewrite len_cons, len_ends. split; [lia|]. split.
  - intros i p Hi. pose proof (lookup_lt_Some _ _ _ Hi). destruct (ends_lookup 0 records i p Hi) as [E1 E2].
    rewrite decide_False by (unfold len in *; lia).
    rewrite (idx_lookup _ (Z.of_nat i) (0 + len (concat (take i records)))); [|lia|by rewrite Nat2Z.id].
    cbn [mbind res_bind]. rewrite (idx_lookup _ (Z.of_nat i + 1) (0 + len (concat (take i records)) + len p));
      [|lia|by replace (Z.to_nat (Z.of_nat i + 1)) with (S i) by lia].
    cbn [mbind res_bind]. eexists. split; [done|]. simpl. by apply slice_record.
  - intros id Hid. rewrite decide_True by lia. by eexists.
Qed.

Lemma records_roundtrip_witness :
  ∃ ib bin r, Write [] [] [[Byte.x61]; []; [Byte.x62; Byte.x63]] = (ib, bin, Ok ()) ∧ Parse ib = Ok r ∧
    Len r = 3 ∧
    (∀ i p, [[Byte.x61]; []; [Byte.x62; Byte.x63]] !! i = Some p →
      ∃ rng, RecordRange r (Z.of_nat i) = Ok (rng, true) ∧ slice bin (Start rng) (End_ rng) = Ok p) ∧
    (∀ id, 3 ≤ id → ∃ rng, RecordRange r id = Ok (rng, false)).
Proof. by apply (records_roundtrip [[Byte.x61]; []; [Byte.x62; Byte.x63]]). Defined.

(** Parsing a record index never panics, whatever the bytes. *)
Theorem rrsr_Parse_never_panics (b : list byte) : safe (Parse b).
Proof. apply Parse_safe. Qed.

(** Planned reads are correct for every parsed index, id list (in any order,
    with duplicates and out-of-range ids) and gap: planning succeeds; every
    non-empty wanted record lies inside one range; ranges start and end at
    wanted records; and they ascend without overlap, consecutive ones farther
    apart than the 64-bit gap test allows. *)
Theorem PlanRanges_correct (b : list byte) (r : RecordIndex) (ids : list Z) (maxGap : Z) :
  Parse b = Ok r → Forall (λ id, 0 ≤ id) ids →
  ∃ ranges, PlanRanges r ids maxGap = Ok ranges ∧
    (∀ id, id ∈ ids → inRange r id → off r id < off r (id + 1) →
      ∃ rg, rg ∈ ranges ∧ Start rg ≤ off r id ∧ off r (id + 1) ≤ End_ rg) ∧
    Forall (tight r ids) ranges ∧ Sorted (apart maxGap) ranges.
Proof. intros Hp. apply PlanRanges_ok. by eapply Parse_wf. Qed.

Definition demoIndex : list byte := indexBytes 4 [0; 5; 5; 9; 200].

Lemma PlanRanges_correct_witness :
  ∃ r ranges, Parse demoIndex = Ok r ∧ PlanRanges r [3; 0; 2; 2; 77] 10 = Ok ranges ∧
    (∀ id, id ∈ [3; 0; 2; 2; 77] → inRange r id → off r id < off r (id + 1) →
      ∃ rg, rg ∈ ranges ∧ Start rg ≤ off r id ∧ off r (id + 1) ≤ End_ rg) ∧
    Forall (tight r [3; 0; 2; 2; 77]) ranges ∧ Sorted (apart 10) ranges.
Proof.
  assert (Parse demoIndex = Ok (mkRecordIndex [0; 5; 5; 9; 200])) as Hp by (by vm_compute).
  destruct (PlanRanges_correct demoIndex (mkRecordIndex [0; 5; 5; 9; 200]) [3; 0; 2; 2; 77] 10 Hp)
    as (ranges & ? & ? & ? & ?); [by repeat constructor|].
  by exists (mkRecordIndex [0; 5; 5; 9; 200]), ranges.
Defined.

(** The gap test overflows: a caller who asks for everything to be merged,
    with the largest 64-bit gap, gets two adjacent records as two reads, while
    a gap of zero merges them. *)
Theorem PlanRanges_gap_overflow :
  PlanRanges (mkRecordIndex [0; 5; 9]) [0; 1] 18446744073709551615 =
    Ok [mkByteRange 0 5; mkByteRange 5 9] ∧
  PlanRanges (mkRecordIndex [0; 5; 9]) [0; 1] 0 = Ok [mkByteRange 0 9].
Proof. by split; vm_compute. Qed.

(** At the format's full capacity the index is lost: with 2^32-1 records,
    which [Write] accepts, [Parse] sizes its table by a wrapped 32-bit count,
    succeeds, and returns an index of length -1 that has no record. *)
Theorem full_index_lost (records : list (list byte)) :
  len (concat records) < 18446744073709551616 → len records = MaxUint32 →
  ∃ ib bin r, Write [] [] records = (ib, bin, Ok ()) ∧ Parse ib = Ok r ∧ Len r = -1 ∧
    ∀ id, 0 ≤ id → RecordRange r id = Ok (mkByteRange 0 0, false).
Proof.
  intros Hl Hn. eexists _, _, (mkRecordIndex []). split; [apply Write_buffer; lia|].
  split; [|split; [done|]].
  - rewrite Parse_header; [|lia|unfold offsetsOf; by rewrite len_cons, len_ends]. rewrite Hn. done.
  - intros id Hid. unfold RecordRange. simpl. rewrite len_nil, decide_True by lia. done.
Qed.

Lemma full_index_lost_witness :
  ∃ ib bin r, Write [] [] (replicate (Z.to_nat 4294967295) (@nil byte)) = (ib, bin, Ok ()) ∧
    Parse ib = Ok r ∧ Len r = -1 ∧ ∀ id, 0 ≤ id → RecordRange r id = Ok (mkByteRange 0 0, false).
Proof.
  apply full_index_lost.
  - generalize (Z.to_nat 4294967295). intros n. induction n as [|n IH]; [done|exact IH].
  - rewrite len_replicate. apply Z2Nat.id. done.
Defined.
