(* ===== verification/Serialize.v ===== *)
(** Snapshots as RCPG files: [src/serialize.go].

    The conversion between a snapshot and the plain on-disk data model, and the
    file read and write on top of it. Rank/select and narrow layouts exist in
    memory only: they are stored as plain dense or sparse columns. The theorems
    are in [SerializeSpec]. *)

From S2P Require Import RcpgColumn RcpgSection RcpgFile.
From S2P Require Import Prelude Bitset Value AtomTable Narrow Columns NodeSet RelTypes Snapshot.

(** ** Columns *)

(** [out[i] = Entry{ID: id, Val: at(i)}] over the ids of a sparse column. *)
Definition sparseData {A} (ids : list Z) (at_ : Z → res A) : res (list (RcpgColumn.Entry A)) :=
  mapM (λ '(i, id), x ← at_ i; Ok (RcpgColumn.mkEntry id x)) (enum ids).

(** [for pos, v := range col.Entries() { out = append(out, Entry{ID: pos, Val: get(v)}) }] *)
Definition entriesData {A} (get : Value → A) (entries : res (list (Z * Value))) : res (list (RcpgColumn.Entry A)) :=
  es ← entries; Ok ((λ e, RcpgColumn.mkEntry e.1 (get e.2)) <$> (es : list _)).

(** [out[i] = col.at(uint32(i))] over the length of a dense column. *)
Definition denseData (n : Z) (at_ : Z → res Z) : res (list Z) := mapM (λ i, at_ (to_u32 i)) (zseq n).

Definition columnToData (c : Column) : res RcpgColumn.ColumnData :=
  match c with
  | denseI64Col c => Ok (RcpgColumn.DenseI64 c)
  | denseI64NarrowCol v => n ← nv_n v; d ← denseData n (nv_at v); Ok (RcpgColumn.DenseI64 d)
  | denseI64BitCol mn bits => d ← denseData (Bitset.Len bits) (bitCol_at mn bits); Ok (RcpgColumn.DenseI64 d)
  | denseF64Col c => Ok (RcpgColumn.DenseF64 c)
  | denseBoolCol bits => p ← ToPackedLSB bits; Ok (RcpgColumn.DenseBool p (to_u32 (Bitset.Len bits)))
  | denseStrCol c => Ok (RcpgColumn.DenseStr c)
  | sparseI64Col ids vals => d ← sparseData ids (idx vals); Ok (RcpgColumn.SparseI64 d)
  | sparseI64NarrowCol ids v => d ← sparseData ids (nv_at v); Ok (RcpgColumn.SparseI64 d)
  | rankI64NarrowCol r v => d ← entriesData (λ x, (I64 x).1) (rankI64Narrow.Entries r v); Ok (RcpgColumn.SparseI64 d)
  | sparseF64Col ids vals => d ← sparseData ids (idx vals); Ok (RcpgColumn.SparseF64 d)
  | sparseBoolCol ids vals => d ← sparseData ids (idx vals); Ok (RcpgColumn.SparseBool d)
  | sparseStrCol ids vals => d ← sparseData ids (idx vals); Ok (RcpgColumn.SparseStr d)
  | rankI64Col r vals => d ← entriesData (λ x, (I64 x).1) (rankI64.Entries r vals); Ok (RcpgColumn.SparseI64 d)
  | rankF64Col r vals => d ← entriesData (λ x, (F64 x).1) (rankF64.Entries r vals); Ok (RcpgColumn.SparseF64 d)
  | rankBoolCol r vals => d ← entriesData (λ x, (Bool x).1) (rankBool.Entries r vals); Ok (RcpgColumn.SparseBool d)
  | rankStrCol r vals => d ← entriesData (λ x, (StrID x).1) (rankStr.Entries r vals); Ok (RcpgColumn.SparseStr d)
  end.

Definition dataToColumn (data : RcpgColumn.ColumnData) : res Column :=
  match data with
  | RcpgColumn.DenseI64 d => narrowI64Column d
  | RcpgColumn.DenseF64 d => Ok (denseF64Col d)
  | RcpgColumn.DenseBool bits n => b ← FromPackedLSB bits n; Ok (denseBoolCol b)
  | RcpgColumn.DenseStr d => Ok (denseStrCol d)
  | RcpgColumn.SparseI64 d =>
      let ids := RcpgColumn.ID <$> d in
      let vals := RcpgColumn.Val <$> d in
      nv ← narrowI64Vals vals;
      Ok (match nv with Some nv => sparseI64NarrowCol ids nv | None => sparseI64Col ids vals end)
  | RcpgColumn.SparseF64 d => Ok (sparseF64Col (RcpgColumn.ID <$> d) (RcpgColumn.Val <$> d))
  | RcpgColumn.SparseBool d => Ok (sparseBoolCol (RcpgColumn.ID <$> d) (RcpgColumn.Val <$> d))
  | RcpgColumn.SparseStr d => Ok (sparseStrCol (RcpgColumn.ID <$> d) (RcpgColumn.Val <$> d))
  end.

(** ** Snapshots *)

Section serialize.
Context {bm : Type} `{RoaringSet bm} `{RcpgSection.Roaring bm}.
Implicit Types (g : Snapshot bm) (section : RcpgSection.GraphSection bm).

(** An index sorted by atom. *)
Definition entryLe (x y : RcpgSection.BitmapEntry bm) : Prop := RcpgSection.Atom x ≤ RcpgSection.Atom y.
#[export] Instance entryLe_dec : RelDecision entryLe.
Proof. intros x y. unfold entryLe. apply _. Defined.
Definition indexEntries (index : gmap Z (Set_ bm)) : list (RcpgSection.BitmapEntry bm) :=
  merge_sort entryLe ((λ e, RcpgSection.mkBitmapEntry e.1 (NodeSet.Bitmap e.2)) <$> map_to_list index).

(** The closure [convert]: the columns sorted by key. *)
Definition columnLe (x y : RcpgColumn.Column) : Prop := RcpgColumn.Key x ≤ RcpgColumn.Key y.
#[export] Instance columnLe_dec : RelDecision columnLe.
Proof. intros x y. unfold columnLe. apply _. Defined.
Definition convert (cols : gmap Z Column) (enabled : bool) : res (list RcpgColumn.Column) :=
  if enabled then
    out ← mapM (λ e, d ← columnToData e.2; Ok (RcpgColumn.mkColumn e.1 d)) (map_to_list cols);
    Ok (merge_sort columnLe out)
  else Ok [].

(** [outTypes[i] = g.outTypes.At(uint32(i)).ID()] *)
Definition typeWords (types : relTypes) : res (list Z) := mapM (λ i, At types (to_u32 i)) (zseq (RelTypes.Len types)).

(** The existence bitmap is stored for a sparse id space only. *)
Definition storedExistence g : option bm :=
  match existence g with
  | Some s => if decide (to_u32 (NodeSet.Len s) < CSRIDSpace g) then Some (NodeSet.Bitmap s) else None
  | None => None
  end.

Definition graphSectionWith g (nodeCols relCols : bool) : res (RcpgSection.GraphSection bm) :=
  ot ← typeWords (outTypes g);
  it ← typeWords (inTypes g);
  nc ← convert (columns g) nodeCols;
  rc ← convert (relColumns g) relCols;
  Ok (RcpgSection.mkGraphSection (nNodes g) (nRels g) (outOffsets g) (outNbrs g) ot (inOffsets g) (inNbrs g) it
        (indexEntries (labelIndex g)) (indexEntries (typeIndex g)) nc rc (version g) (strings (atoms g)) (storedExistence g) None).

Definition ToGraphSection g : res (RcpgSection.GraphSection bm) := graphSectionWith g true true.

Definition loadIndex (index : list (RcpgSection.BitmapEntry bm)) : gmap Z (Set_ bm) :=
  foldl (λ m e, <[RcpgSection.Atom e := FromBitmap (RcpgSection.Bitmap e)]> m) ∅ index.
Definition loadColumns (cols : list RcpgColumn.Column) : res (gmap Z Column) :=
  foldM (λ m c, col ← dataToColumn (RcpgColumn.Data c); Ok (<[RcpgColumn.Key c := col]> m)) cols ∅.

Definition FromGraphSection section : res (Snapshot bm) :=
  ot ← compressRelTypesU32 (RcpgSection.OutTypes section);
  it ← compressRelTypesU32 (RcpgSection.InTypes section);
  cols ← loadColumns (RcpgSection.NodeColumns section);
  relCols ← loadColumns (RcpgSection.RelColumns section);
  Ok (mkSnapshot (RcpgSection.NNodes section) (RcpgSection.NRels section)
        (RcpgSection.OutOffsets section) (RcpgSection.OutNbrs section) ot
        (RcpgSection.InOffsets section) (RcpgSection.InNbrs section) it None (bool_decide (0 < size relCols)%nat)
        (loadIndex (RcpgSection.LabelIndex section)) (loadIndex (RcpgSection.TypeIndex section))
        (RcpgSection.Version section) cols relCols 0 (FromBitmap <$> RcpgSection.Existence section)
        (NewAtoms (RcpgSection.Atoms section))).

(** ** Files *)

Definition WriteRCPGWith {W} `{Writer W} g (w : W) (opts : RcpgFile.WriteOptions) : W * res () :=
  match graphSectionWith g (RcpgFile.woNodeColumns opts) (RcpgFile.woRelColumns opts) with
  | Ok section => RcpgFile.WriteWith section w opts
  | Err e => (w, Err e)
  | Panic => (w, Panic)
  end.
Definition WriteRCPG {W} `{Writer W} g (w : W) : W * res () := WriteRCPGWith g w RcpgFile.DefaultWriteOptions.

Definition ReadRCPG (b : list byte) : res (Snapshot bm) :=
  section ← RcpgFile.Parse b; FromGraphSection section.

End serialize.
