(* ===== verification/SerializeSpec.v ===== *)
(** Snapshots survive their files: [src/serialize.go] against [src/snapshot.go].

    Writing a snapshot and reading it back gives the same adjacency, types,
    indexes, strings and version; every column reads, enumerates and counts the
    same, whatever layout it had in memory and has after the load; and node
    existence is kept when the writer asks for it. *)

From S2P Require Import RcpgColumn RcpgSection RcpgDirectory RcpgFile.
From S2P Require Import Prelude Bitset Value AtomTable Narrow Columns FinalizeColumns NodeSet RelTypes Snapshot Serialize.

(** ** Columns that fit the file *)

(** The ids and values of a sparse or rank column. *)
Record fitPairs {A} (P : A → Prop) (ids : list Z) (vals : list A) : Prop := {
  fp_sorted : StronglySorted Z.lt ids;
  fp_ids : Forall (λ i, is_u32 i) ids;
  fp_count : len ids < 4294967296;
  fp_length : length vals = length ids;
  fp_vals : Forall P vals;
}.
Definition fitDense {A} (P : A → Prop) (vals : list A) : Prop := len vals < 4294967296 ∧ Forall P vals.
Definition fitRank (r : rankIndex) (ids : list Z) : Prop := ∃ span, rankOK r ids span ∧ span < 4294967296.

Abbreviation isI64 := (λ v, is_i64 v).
Abbreviation isU64 := (λ v, is_u64 v).
Abbreviation isU32 := (λ v, is_u32 v).

(** The columns finalization and loading produce, values at their Go width. *)
Inductive storable : Column → Prop :=
| st_denseI64 vals c : fitDense isI64 vals → narrowI64Column vals = Ok c → storable c
| st_denseF64 vals : fitDense isU64 vals → storable (denseF64Col vals)
| st_denseBool b : wf_bits b → bn b ≤ 4294967288 → storable (denseBoolCol b)
| st_denseStr vals : fitDense isU32 vals → storable (denseStrCol vals)
| st_sparseI64 ids vals : fitPairs isI64 ids vals → storable (sparseI64Col ids vals)
| st_sparseI64Narrow ids vals nv : fitPairs isI64 ids vals → narrowI64Vals vals = Ok (Some nv) → storable (sparseI64NarrowCol ids nv)
| st_sparseF64 ids vals : fitPairs isU64 ids vals → storable (sparseF64Col ids vals)
| st_sparseBool ids vals : fitPairs (λ _, True) ids vals → storable (sparseBoolCol ids vals)
| st_sparseStr ids vals : fitPairs isU32 ids vals → storable (sparseStrCol ids vals)
| st_rankI64 r ids vals : fitRank r ids → fitPairs isI64 ids vals → storable (rankI64Col r vals)
| st_rankI64Narrow r ids vals nv : fitRank r ids → fitPairs isI64 ids vals → narrowI64Vals vals = Ok (Some nv) → storable (rankI64NarrowCol r nv)
| st_rankF64 r ids vals : fitRank r ids → fitPairs isU64 ids vals → storable (rankF64Col r vals)
| st_rankBool r ids b : fitRank r ids → wf_bits b → fitPairs (λ _, True) ids (bitsList b) → storable (rankBoolCol r b)
| st_rankStr r ids vals : fitRank r ids → fitPairs isU32 ids vals → storable (rankStrCol r vals).

(** Two columns that answer alike. *)
Definition sameColumn (c c' : Column) : Prop := Column_Dtype c' = Column_Dtype c ∧ ∃ l, represents c l ∧ represents c' l.

(** A column, its stored form and its reload. *)
Definition reloads (c : Column) : Prop := ∃ d c', columnToData c = Ok d ∧ wf_data d ∧ dataToColumn d = Ok c' ∧ sameColumn c c'.

(** *** Sparse and rank *)

Section pairs.
Context {A : Type} (P : A → Prop) (ids : list Z) (vals : list A).
Hypothesis HP : fitPairs P ids vals.

Definition entriesOf : list (Entry A) := zip_with mkEntry ids vals.

Lemma entriesOf_ids : RcpgColumn.ID <$> entriesOf = ids.
Proof using HP. pose proof (fp_length _ _ _ HP) as Hl. unfold entriesOf. clear HP. revert vals Hl. induction ids as [|i l IH]; intros [|v vs] Hl; try done. simpl. f_equal. apply IH. by injection Hl. Qed.
Lemma entriesOf_vals : Val <$> entriesOf = vals.
Proof using HP. pose proof (fp_length _ _ _ HP) as Hl. unfold entriesOf. clear HP. revert vals Hl. induction ids as [|i l IH]; intros [|v vs] Hl; try done. simpl. f_equal. apply IH. by injection Hl. Qed.

Lemma entriesOf_wf : len entriesOf < 4294967296 ∧ Forall (wf_entry P) entriesOf.
Proof using HP.
  destruct HP as [_ Hi Hc Hl Hv]. split; [unfold entriesOf, len; rewrite length_zip_with; unfold len in Hc; lia|].
  apply Forall_lookup. intros k e He. apply lookup_zip_with_Some in He as (i & v & -> & Hk & Hvk). split; simpl.
  - exact (Forall_lookup_1 _ _ _ _ Hi Hk).
  - exact (Forall_lookup_1 _ _ _ _ Hv Hvk).
Qed.

Lemma sparseData_ok (at_ : Z → res A) : (∀ k v, vals !! k = Some v → at_ (Z.of_nat k) = Ok v) → sparseData ids at_ = Ok entriesOf.
Proof using HP.
  intros Hat. unfold sparseData. pose proof (fp_length _ _ _ HP) as Hl.
  assert (Forall2 (λ (x : Z * Z) y, (v ← at_ x.1; Ok (mkEntry x.2 v)) = Ok y) (enum ids) entriesOf) as HF.
  { apply Forall2_same_length_lookup_2; [unfold entriesOf; rewrite length_enum, length_zip_with; lia|].
    intros k [i id] e [-> Hid]%lookup_enum (id' & v & -> & Hid' & Hv)%lookup_zip_with_Some. cbn [fst snd]. rewrite (Hat k v Hv). cbn. congruence. }
  clear -HF. induction HF as [|[i id] y xs ys Hx HF IH]; [done|]. simpl in *. rewrite Hx. simpl. by rewrite IH.
Qed.

Lemma entriesData_ok (mk : A → Value) (get : Value → A) (at_ : Z → res Value) r : fitRank r ids → reads_vals at_ (mk <$> vals) →
  (∀ v, P v → get (mk v) = v) → entriesData get (rank_entries r at_) = Ok entriesOf.
Proof using HP.
  intros (span & Hr & Hs) Hat Hget. unfold entriesData. destruct HP as [_ _ _ Hl Hv].
  rewrite (rank_entries_ok r ids span at_ (mk <$> vals)); [|done|lia|by rewrite length_fmap|done]. cbn [mbind res_bind]. f_equal. unfold entriesOf.
  apply list_eq. intros k. rewrite list_lookup_fmap, !lookup_zip_with, list_lookup_fmap.
  destruct (ids !! k); [|done]. cbn. destruct (vals !! k) as [v|] eqn:Ev; [|done]. cbn. by rewrite (Hget v (Forall_lookup_1 _ _ _ _ Hv Ev)).
Qed.

(** A sparse layout of the pairs. *)
Lemma sparse_reload (mk : A → Value) c at_ : reads_vals at_ (mk <$> vals) →
  (∀ pos, 0 ≤ pos → Column_Get c pos = sparseGet ids at_ pos) → Column_Entries c = sparseEntries ids at_ →
  Column_Len c = Ok (len ids) → represents c (zip ids (mk <$> vals)).
Proof using HP. intros. destruct HP as [Hs _ _ Hl _]. eapply sparse_represents; [done|by rewrite length_fmap|done..]. Qed.

(** A rank layout of the pairs. *)
Lemma rank_reload (mk : A → Value) c r at_ : fitRank r ids → reads_vals at_ (mk <$> vals) →
  (∀ pos, 0 ≤ pos → Column_Get c pos = rankGet r at_ pos) → Column_Entries c = rank_entries r at_ →
  Column_Len c = Ok (len vals) → represents c (zip ids (mk <$> vals)).
Proof using HP.
  intros (span & Hr & Hsp) Hat Hg He Hlen. destruct HP as [Hs _ _ Hl _].
  eapply rank_represents; [exact Hr|done|lia|by rewrite length_fmap|done..|]. by rewrite len_fmap.
Qed.
End pairs.

(** The reload of the stored pairs, one lemma a kind. *)
Lemma reloads_I64 ids vals c : fitPairs isI64 ids vals → represents c (zip ids (I64Value <$> vals)) → Column_Dtype c = DtypeI64 →
  columnToData c = Ok (SparseI64 (entriesOf ids vals)) → reloads c.
Proof.
  intros HP Hr Ht E. eexists. assert (∃ c', dataToColumn (SparseI64 (entriesOf ids vals)) = Ok c' ∧ represents c' (zip ids (I64Value <$> vals)) ∧ Column_Dtype c' = DtypeI64) as (c' & E' & Hr' & Ht').
  { cbn [dataToColumn]. rewrite (entriesOf_ids _ _ _ HP), (entriesOf_vals _ _ _ HP).
    destruct (narrowI64Vals_total vals (fp_vals _ _ _ HP)) as [En|[nv En]]; rewrite En; cbn [mbind res_bind]; eexists; (split; [done|]); (split; [|done]).
    - by eapply sparse_reload; [done|apply atVals_reads|..].
    - destruct (narrow_reads vals nv (fp_vals _ _ _ HP) En) as [_ Hat]. by eapply sparse_reload; [done|exact Hat|..]. }
  exists c'. split; [exact E|]. split; [exact (entriesOf_wf _ _ _ HP)|]. split; [done|]. split; [congruence|]. by exists (zip ids (I64Value <$> vals)).
Qed.

(** The kinds that are stored as they are. *)
Lemma reloads_plain {A} (P : A → Prop) (mk : A → Value) (data : list (Entry A) → ColumnData) (col : list Z → list A → Column) ids vals c :
  (∀ d, dataToColumn (data d) = Ok (col (RcpgColumn.ID <$> d) (Val <$> d))) →
  (∀ d, wf_data (data d) = (len d < 4294967296 ∧ Forall (wf_entry P) d)) →
  (∀ pos, 0 ≤ pos → Column_Get (col ids vals) pos = sparseGet ids (atVals mk vals) pos) →
  Column_Entries (col ids vals) = sparseEntries ids (atVals mk vals) → Column_Len (col ids vals) = Ok (len ids) →
  Column_Dtype (col ids vals) = Column_Dtype c →
  fitPairs P ids vals → represents c (zip ids (mk <$> vals)) → columnToData c = Ok (data (entriesOf ids vals)) → reloads c.
Proof.
  intros Hd Hw Hg He Hl Ht HP Hr E. exists (data (entriesOf ids vals)), (col ids vals). split; [done|]. rewrite Hw, Hd. split; [exact (entriesOf_wf _ _ _ HP)|].
  rewrite (entriesOf_ids _ _ _ HP), (entriesOf_vals _ _ _ HP). split; [done|]. split; [done|]. exists (zip ids (mk <$> vals)). split; [done|].
  by eapply sparse_reload; [done|apply atVals_reads|..].
Qed.
Definition reloads_F64 ids vals c := reloads_plain isU64 F64Value SparseF64 sparseF64Col ids vals c (λ _, eq_refl) (λ _, eq_refl) (λ _ _, eq_refl) eq_refl eq_refl.
Definition reloads_Bool ids vals c := reloads_plain (λ _, True) BoolValue SparseBool sparseBoolCol ids vals c (λ _, eq_refl) (λ _, eq_refl) (λ _ _, eq_refl) eq_refl eq_refl.
Definition reloads_Str ids vals c := reloads_plain isU32 StrValue SparseStr sparseStrCol ids vals c (λ _, eq_refl) (λ _, eq_refl) (λ _ _, eq_refl) eq_refl eq_refl.

(** *** Dense *)

Lemma idx_lookups {A} (vals : list A) k v : vals !! k = Some v → idx vals (Z.of_nat k) = Ok v.
Proof. intros Hv. apply idx_lookup; [lia|]. by rewrite Nat2Z.id. Qed.

Lemma denseData_ok (at_ : Z → res Z) vals : len vals < 4294967296 → (∀ k v, vals !! k = Some v → at_ (Z.of_nat k) = Ok v) →
  denseData (len vals) at_ = Ok vals.
Proof.
  intros Hl Hat. apply mapM_zseq. intros k v Hv. pose proof (lookup_lt_Some _ _ _ Hv). rewrite (wrapU_small 32) by (unfold len in Hl; lia). by apply Hat.
Qed.

(** Whichever dense class an integer array got, its values are stored. *)
Lemma columnToData_denseI64 vals c : fitDense isI64 vals → narrowI64Column vals = Ok c → columnToData c = Ok (DenseI64 vals).
Proof.
  intros [Hl HF] E. unfold narrowI64Column in E.
  assert (∀ c, (nv ← narrowI64Vals vals; match nv with Some nv => Ok (denseI64NarrowCol nv) | None => Ok (denseI64Col vals) end) = Ok c →
    columnToData c = Ok (DenseI64 vals)) as Hrest.
  { clear E c. intros c E. destruct (narrowI64Vals_ok vals HF) as [En|(nv & En & Hn & Hat)]; rewrite En in E; cbn [mbind res_bind] in E; injection E as <-; [done|].
    cbn [columnToData]. rewrite Hn. cbn [mbind res_bind]. by rewrite (denseData_ok _ vals Hl Hat). }
  case_decide as D; [|by apply Hrest]. destruct (idx_ok vals 0) as (v0 & Ev & Hv0); [unfold narrowI64MinLen in D; lia|]. rewrite Ev in E. cbn [mbind res_bind] in E.
  destruct (minmax v0 vals) as [mn mx] eqn:Em. destruct (minmax_bounds _ _ _ _ Em) as (Hb & Hmn & Hmx & Hall). case_decide as D1; [|by apply Hrest].
  destruct (New_ok (len vals) ltac:(pose proof (len_nonneg vals); lia)) as (b0 & E0 & Hb0 & Hn0 & Hz0). rewrite E0 in E. cbn [mbind res_bind] in E.
  destruct (bitCol_fill mn vals b0 Hb0 Hn0 Hz0) as (b & E1 & Hw & Hbn & Hbit). rewrite E1 in E. cbn [mbind res_bind] in E. injection E as <-.
  cbn [columnToData]. unfold Bitset.Len. rewrite Hbn, (denseData_ok _ vals Hl); [done|]. intros k v Hv. unfold bitCol_at.
  pose proof (lookup_lt_Some _ _ _ Hv). rewrite Get_bitAt, Hbn, decide_True by (done || unfold len; lia). cbn [mbind res_bind]. rewrite (Hbit k v Hv).
  rewrite Forall_forall in HF, Hall. pose proof (list_elem_of_lookup_2 _ _ _ Hv) as Hin. pose proof (Hall v Hin). pose proof (HF v Hin). pose proof (HF v0 (list_elem_of_lookup_2 _ _ _ Hv0)).
  assert (is_i64 mn) by (destruct Hmn as [->|?]; [done|by apply HF]). assert (is_i64 mx) by (destruct Hmx as [->|?]; [done|by apply HF]).
  rewrite (wrapU_wrapS 64 (mx - mn)), (wrapU_small 64 (mx - mn)) in D1 by lia. simpl in *. f_equal. case_bool_decide; [|lia]. rewrite wrapS_small by lia. lia.
Qed.

Lemma denseBool_represents b : wf_bits b → bn b ≤ 4294967296 → represents (denseBoolCol b) (enum (BoolValue <$> bitsList b)).
Proof.
  intros Hw Hn. pose proof (wb_n _ Hw). eapply (dense_represents _ (bn b)); [by apply atBits_reads|by rewrite len_fmap, len_bitsList by lia|done..].
Qed.

Lemma reloads_denseBool b : wf_bits b → bn b ≤ 4294967288 → reloads (denseBoolCol b).
Proof.
  intros Hw Hn. pose proof (wb_n _ Hw) as Hb. destruct (ToPackedLSB_ok b Hw) as (out & Eo & Hlo & Hbo).
  destruct (FromPackedLSB_ok out (bn b) ltac:(lia) ltac:(lia)) as (b' & Eb & Hw' & Hn' & Hb').
  assert (bitsList b' = bitsList b) as Hbits.
  { unfold bitsList. rewrite Hn'. apply list_fmap_ext. intros k i Hi. apply list_elem_of_lookup_2, elem_of_zseq in Hi. rewrite Hb', Hbo by lia. by rewrite !decide_True by lia. }
  exists (DenseBool out (bn b)), (denseBoolCol b'). split.
  { cbn [columnToData]. rewrite Eo. cbn [mbind res_bind]. unfold Bitset.Len. by rewrite (wrapU_small 32) by lia. }
  split; [cbn; lia|]. split; [cbn [dataToColumn]; by rewrite Eb|]. split; [done|]. exists (enum (BoolValue <$> bitsList b)).
  split; [by apply denseBool_represents; [|lia]|]. rewrite <- Hbits. by apply denseBool_represents; [|lia].
Qed.

Lemma reloads_dense {A} (P : A → Prop) (mk : A → Value) (data : list A → ColumnData) (col : list A → Column) vals :
  (∀ d, columnToData (col d) = Ok (data d)) → (∀ d, dataToColumn (data d) = Ok (col d)) → (∀ d, wf_data (data d) = fitDense P d) →
  (∀ d pos, 0 ≤ pos → Column_Get (col d) pos = denseGet (len d) (atVals mk d) pos) → (∀ d, Column_Entries (col d) = denseEntries (len d) (atVals mk d)) →
  (∀ d, Column_Len (col d) = Ok (len d)) → fitDense P vals → reloads (col vals).
Proof.
  intros Ec Ed Ew Hg He Hl HF. exists (data vals), (col vals). rewrite Ec, Ed, Ew. split; [done|]. split; [done|]. split; [done|]. split; [done|].
  assert (represents (col vals) (enum (mk <$> vals))) by (eapply (dense_represents _ (len vals)); [apply atVals_reads|by rewrite len_fmap|destruct HF; lia|auto..]). eauto.
Qed.

(** Every storable column is stored, fits the format and loads back alike. *)
Lemma storable_reloads c : storable c → reloads c.
Proof.
  destruct 1 as [vals c HF E|vals HF|b Hw Hn|vals HF|ids vals HP|ids vals nv HP En|ids vals HP|ids vals HP|ids vals HP|r ids vals Hr HP|r ids vals nv Hr HP En|r ids vals Hr HP|r ids b Hr Hw HP|r ids vals Hr HP].
  - exists (DenseI64 vals), c. rewrite (columnToData_denseI64 vals c HF E). destruct HF as [Hl HF]. destruct (narrowI64Column_ok vals HF ltac:(lia)) as (c' & E' & Hr & _).
    assert (c' = c) as -> by congruence. split; [done|]. split; [done|]. split; [done|]. split; [done|]. eauto.
  - by apply (reloads_dense isU64 F64Value DenseF64 denseF64Col).
  - by apply reloads_denseBool.
  - by apply (reloads_dense isU32 StrValue DenseStr denseStrCol).
  - apply (reloads_I64 ids vals); [done| |done|].
    + by eapply sparse_reload; [done|apply atVals_reads|..].
    + cbn [columnToData]. by rewrite (sparseData_ok _ _ _ HP _ (idx_lookups vals)).
  - destruct (narrow_reads vals nv (fp_vals _ _ _ HP) En) as [_ Hat]. apply (reloads_I64 ids vals); [done| |done|].
    + by eapply sparse_reload; [done|exact Hat|..].
    + cbn [columnToData]. destruct (narrowI64Vals_ok vals (fp_vals _ _ _ HP)) as [E|(nv' & E & _ & Hnv)]; [congruence|]. assert (nv' = nv) as -> by congruence.
      by rewrite (sparseData_ok _ _ _ HP _ Hnv).
  - apply (reloads_F64 ids vals); [done|done| |].
    + by eapply sparse_reload; [done|apply atVals_reads|..].
    + cbn [columnToData]. by rewrite (sparseData_ok _ _ _ HP _ (idx_lookups vals)).
  - apply (reloads_Bool ids vals); [done|done| |].
    + by eapply sparse_reload; [done|apply atVals_reads|..].
    + cbn [columnToData]. by rewrite (sparseData_ok _ _ _ HP _ (idx_lookups vals)).
  - apply (reloads_Str ids vals); [done|done| |].
    + by eapply sparse_reload; [done|apply atVals_reads|..].
    + cbn [columnToData]. by rewrite (sparseData_ok _ _ _ HP _ (idx_lookups vals)).
  - apply (reloads_I64 ids vals); [done| |done|].
    + by eapply rank_reload; [done|done|apply atVals_reads|..].
    + cbn [columnToData]. unfold rankI64.Entries. by rewrite (entriesData_ok _ _ _ HP _ _ _ _ Hr (atVals_reads I64Value vals)) by (intros v Hv; by rewrite I64_I64Value).
  - destruct (narrow_reads vals nv (fp_vals _ _ _ HP) En) as [Hn Hat]. apply (reloads_I64 ids vals); [done| |done|].
    + by eapply rank_reload; [done|done|exact Hat|..].
    + cbn [columnToData]. unfold rankI64Narrow.Entries. by rewrite (entriesData_ok _ _ _ HP _ _ _ _ Hr Hat) by (intros v Hv; by rewrite I64_I64Value).
  - apply (reloads_F64 ids vals); [done|done| |].
    + by eapply rank_reload; [done|done|apply atVals_reads|..].
    + cbn [columnToData]. unfold rankF64.Entries. by rewrite (entriesData_ok _ _ _ HP _ _ _ _ Hr (atVals_reads F64Value vals)).
  - pose proof (wb_n _ Hw). apply (reloads_Bool ids (bitsList b)); [done|done| |].
    + eapply rank_reload; [done|done|by apply atBits_reads|done..|]. cbn. unfold rankBool.Len, Bitset.Len. by rewrite len_bitsList by lia.
    + cbn [columnToData]. unfold rankBool.Entries. by rewrite (entriesData_ok _ _ _ HP _ _ _ _ Hr (atBits_reads b Hw)) by (intros v _; by rewrite Bool_BoolValue).
  - apply (reloads_Str ids vals); [done|done| |].
    + by eapply rank_reload; [done|done|apply atVals_reads|..].
    + cbn [columnToData]. unfold rankStr.Entries. by rewrite (entriesData_ok _ _ _ HP _ _ _ _ Hr (atVals_reads StrValue vals)) by (intros v Hv; by rewrite StrID_StrValue).
Qed.

(** ** Indexes and column maps *)

Lemma merge_sort_perm {A} (R : relation A) `{!RelDecision R} (l : list A) : merge_sort R l ≡ₚ l.
Proof. apply merge_sort_Permutation. Qed.

(** A key order on a list of records does not matter to the map loaded from it. *)
Lemma written_perm {A} (l l' : list (Z * A)) : NoDup l.*1 → l ≡ₚ l' → written l' = list_to_map l.
Proof. intros Hnd HP. rewrite written_list_to_map by (by rewrite <- HP). symmetry. by apply list_to_map_proper. Qed.

Section maps.
Context {bm : Type} `{RoaringSet bm} `{RcpgSection.Roaring bm}.
Implicit Types (index : gmap Z (Set_ bm)).

Lemma loadIndex_written (l : list (BitmapEntry bm)) : loadIndex l = written ((λ e, (Atom e, FromBitmap (RcpgSection.Bitmap e))) <$> l).
Proof. unfold loadIndex, written. generalize (∅ : gmap Z (Set_ bm)). induction l as [|e l IH]; intros m; [done|]. simpl. apply IH. Qed.

Lemma loadIndex_ok index : loadIndex (indexEntries index) = index.
Proof.
  rewrite loadIndex_written, (written_perm (map_to_list index)); [apply list_to_map_to_list|apply NoDup_fst_map_to_list|].
  unfold indexEntries. rewrite merge_sort_perm, <- list_fmap_compose. rewrite <- (list_fmap_id (map_to_list index)) at 1.
  erewrite list_fmap_ext; [done|]. intros _ [k [s]] _. done.
Qed.

(** An index that fits its section. *)
Definition fitIndex index : Prop := Z.of_nat (size index) < 4294967296 ∧
  ∀ k s, index !! k = Some s → is_u32 k ∧ len (bmWriteTo (sbm s)) < 4294967296.

Lemma indexEntries_wf index : fitIndex index → wf_bitmaps (indexEntries index).
Proof.
  intros [Hs HF]. unfold indexEntries. split.
  - unfold len. by rewrite merge_sort_perm, length_fmap, length_map_to_list.
  - rewrite merge_sort_perm. apply Forall_fmap, Forall_forall. intros [k s] Hk%elem_of_map_to_list. exact (HF k s Hk).
Qed.

(** A column map that fits its section. *)
Definition fitColumns (cols : gmap Z Column) : Prop := Z.of_nat (size cols) < 4294967296 ∧ ∀ k c, cols !! k = Some c → is_u32 k ∧ storable c.

(** Column maps that answer alike. *)
Definition sameColumns (cols cols' : gmap Z Column) : Prop :=
  ∀ k, match cols !! k, cols' !! k with
       | Some c, Some c' => sameColumn c c'
       | None, None => True
       | _, _ => False
       end.

Lemma mapM_total {A B} (f : A → res B) (Q : A → B → Prop) l : (∀ x, x ∈ l → ∃ y, f x = Ok y ∧ Q x y) → ∃ ys, mapM f l = Ok ys ∧ Forall2 Q l ys.
Proof.
  induction l as [|x l IH]; intros Hf; [by exists []|]. destruct (Hf x) as (y & E & Hy); [by left|]. destruct IH as (ys & E' & HF); [intros; apply Hf; by right|].
  exists (y :: ys). simpl. rewrite E. cbn [mbind res_bind]. rewrite E'. split; [done|by constructor].
Qed.

(** Loading columns with distinct keys. *)
Lemma loadColumns_ok cols (Q : Z → Column → Prop) : NoDup (Key <$> cols) →
  (∀ c, c ∈ cols → ∃ c', dataToColumn (Data c) = Ok c' ∧ Q (Key c) c') →
  ∃ m, loadColumns cols = Ok m ∧ ∀ k, match m !! k with Some c' => k ∈ Key <$> cols ∧ Q k c' | None => k ∉ Key <$> cols end.
Proof.
  intros Hnd Hc. unfold loadColumns. pose (P := λ (n : nat) (m : gmap Z Column), ∀ k, match m !! k with Some c' => k ∈ Key <$> take n cols ∧ Q k c' | None => k ∉ Key <$> take n cols end).
  destruct (foldM_inv P (λ m c, col ← dataToColumn (Data c); Ok (<[Key c := col]> m)) cols ∅) as (m & -> & HP).
  - intros k. rewrite lookup_empty. apply not_elem_of_nil.
  - intros n c m Hn HP. destruct (Hc c (list_elem_of_lookup_2 _ _ _ Hn)) as (c' & -> & HQ). cbn [mbind res_bind]. eexists. split; [done|]. intros k. specialize (HP k). cbn beta in HP.
    assert (k ∈ Key <$> take (S n) cols ↔ k ∈ Key <$> take n cols ∨ k = Key c) as Hin.
    { rewrite (take_S_r _ _ _ Hn), fmap_app, elem_of_app. cbn [fmap list_fmap]. by rewrite list_elem_of_singleton. }
    destruct (decide (k = Key c)) as [->|Hne]; [rewrite lookup_insert_eq; tauto|]. rewrite lookup_insert_ne by done. destruct (m !! k); tauto.
  - exists m. split; [done|]. intros k. specialize (HP k). cbn beta in HP. by rewrite take_ge in HP by lia.
Qed.

Lemma convert_ok cols : fitColumns cols → ∃ out cols', convert cols true = Ok out ∧ wf_columns out ∧ loadColumns out = Ok cols' ∧ sameColumns cols cols'.
Proof.
  intros [Hs HF]. pose (Q := λ (e : Z * Column) (o : RcpgColumn.Column), Key o = e.1 ∧ is_u32 e.1 ∧ columnToData e.2 = Ok (Data o) ∧ wf_data (Data o) ∧
    ∃ c', dataToColumn (Data o) = Ok c' ∧ sameColumn e.2 c').
  destruct (mapM_total (λ e : Z * Column, d ← columnToData e.2; Ok (mkColumn e.1 d)) Q (map_to_list cols)) as (out & E & HQ).
  { intros [k c] Hk%elem_of_map_to_list. destruct (HF k c Hk) as [Hk' Hst]. destruct (storable_reloads c Hst) as (d & c' & Ed & Hd & Ec & Hsame). cbn [fst snd]. rewrite Ed. cbn [mbind res_bind].
    eexists. split; [done|]. do 4 (split; [done|]). by exists c'. }
  assert (Key <$> out = (map_to_list cols).*1) as Hkeys.
  { clear -HQ. revert HQ. generalize (map_to_list cols). intros es HQ. induction HQ as [|e o es os [Hk _] HQ IH]; [done|]. cbn [fmap list_fmap]. by rewrite Hk, IH. }
  assert (∀ o, o ∈ out → ∃ c, cols !! Key o = Some c ∧ Q (Key o, c) o) as Hout.
  { intros o [i Ho]%list_elem_of_lookup. destruct (Forall2_lookup_r _ _ _ _ _ HQ Ho) as ([k c] & He & HQe). assert (k = Key o) as -> by (by destruct HQe).
    apply list_elem_of_lookup_2, elem_of_map_to_list in He. eauto. }
  exists (merge_sort columnLe out). unfold convert. change (mapM _ (map_to_list cols)) with (mapM (λ e : Z * Column, d ← columnToData e.2; Ok (mkColumn e.1 d)) (map_to_list cols)).
  rewrite E. cbn [mbind res_bind]. pose proof (merge_sort_perm columnLe out) as HP.
  destruct (loadColumns_ok (merge_sort columnLe out) (λ k c', ∃ c, cols !! k = Some c ∧ sameColumn c c')) as (cols' & El & Hl).
  - rewrite HP, Hkeys. apply NoDup_fst_map_to_list.
  - intros o Ho. rewrite HP in Ho. destruct (Hout o Ho) as (c & Hc & _ & _ & _ & _ & c' & Ec & Hsame). eauto.
  - exists cols'. split; [done|]. split; [|split; [done|]].
    + split; [unfold len; rewrite HP; apply Forall2_length in HQ; rewrite <- HQ, length_map_to_list; lia|]. rewrite HP. apply Forall_forall. intros o Ho.
      destruct (Hout o Ho) as (c & Hc & _ & Hk & _ & Hw & _). by split.
    + intros k. specialize (Hl k). destruct (cols' !! k) as [c'|] eqn:Ek.
      * destruct Hl as [_ (c & -> & Hsame)]. done.
      * destruct (cols !! k) as [c|] eqn:Ec; [|done]. rewrite HP, Hkeys in Hl. destruct Hl. apply list_elem_of_fmap. exists (k, c). by rewrite elem_of_map_to_list.
Qed.

End maps.

(** ** Snapshots *)

Section snapshots.
Context {bm : Type} {HS : RoaringSet bm} {HSL : RoaringSetLaws bm} {HR : RcpgSection.Roaring bm} {HRL : RcpgSection.RoaringLaws bm}.
Implicit Types (g : Snapshot bm) (wo : WriteOptions).

(** A type vector in the representation the engine picks. *)
Definition fitTypes (t : relTypes) : Prop := wf_vec (typesOf t) ∧ compressRelTypes (typesOf t) = Ok t.

(** A snapshot the format can hold. *)
Record fits g : Prop := {
  ft_atoms : wf_atoms (strings (atoms g));
  ft_version : ∀ v, Snapshot.version g = Some v → wf_string v;
  ft_nodes : is_u32 (nNodes g);
  ft_rels : is_u64 (nRels g);
  ft_out : wf_vec (outOffsets g) ∧ wf_vec (outNbrs g) ∧ fitTypes (outTypes g);
  ft_in : wf_vec (inOffsets g) ∧ wf_vec (inNbrs g) ∧ fitTypes (inTypes g);
  ft_labels : fitIndex (labelIndex g);
  ft_types : fitIndex (typeIndex g);
  ft_columns : fitColumns (columns g);
  ft_relColumns : fitColumns (relColumns g);
  ft_exist : ∀ s x, existence g = Some s → x ∈ elems s → 0 ≤ x < Snapshot.CSRIDSpace g;
}.

(** What a load gives back of what was selected for the file. *)
Record loaded wo g g' : Prop := {
  ld_counts : nNodes g' = nNodes g ∧ nRels g' = nRels g;
  ld_out : outOffsets g' = outOffsets g ∧ outNbrs g' = outNbrs g ∧ outTypes g' = outTypes g;
  ld_in : inOffsets g' = inOffsets g ∧ inNbrs g' = inNbrs g ∧ inTypes g' = inTypes g;
  ld_index : labelIndex g' = labelIndex g ∧ typeIndex g' = typeIndex g;
  ld_strings : strings (atoms g') = strings (atoms g) ∧ Snapshot.version g' = Snapshot.version g;
  ld_columns : if woNodeColumns wo then sameColumns (columns g) (columns g') else columns g' = ∅;
  ld_relColumns : if woRelColumns wo then sameColumns (relColumns g) (relColumns g') else relColumns g' = ∅;
  ld_props : inToOut g' = None ∧ hasRelProps g' = bool_decide (relColumns g' ≠ ∅);
  ld_exists : ∀ id, 0 ≤ id → NodeExists g' id = if woExistence wo then NodeExists g id else bool_decide (id < Snapshot.CSRIDSpace g);
}.

Lemma fitTypes_wf t : fitTypes t → wf_types t.
Proof.
  intros [[_ HF] E]. destruct (compressRelTypes_ok (typesOf t)) as (r & E' & Hw & _); [eapply Forall_impl; [exact HF|]; simpl; lia|]. congruence.
Qed.

Lemma typeWords_ok t : fitTypes t → typeWords t = Ok (typesOf t).
Proof.
  intros Ht. pose proof (fitTypes_wf t Ht) as Hw. destruct Ht as [[Hl _] _]. unfold typeWords. rewrite <- len_typesOf. apply mapM_zseq. intros k x Hx.
  pose proof (lookup_lt_Some _ _ _ Hx). rewrite (wrapU_small 32) by (unfold len in Hl; lia). apply At_typesOf; [done|lia|]. by rewrite Nat2Z.id.
Qed.

Lemma convert_load cols enabled : fitColumns cols → ∃ out cols', convert cols enabled = Ok out ∧ wf_columns out ∧ loadColumns (if enabled then out else []) = Ok cols' ∧
  (if enabled then sameColumns cols cols' else cols' = ∅).
Proof.
  intros HF. destruct enabled.
  - destruct (convert_ok cols HF) as (out & cols' & E & Hw & El & Hs). eauto 10.
  - exists [], ∅. split; [done|]. split; [|done]. by split.
Qed.

(** The whole id space exists when the set is not stored. *)
Lemma dense_exists g s id : (∀ x, x ∈ elems s → 0 ≤ x < Snapshot.CSRIDSpace g) → Snapshot.CSRIDSpace g ≤ to_u32 (NodeSet.Len s) → is_u32 (Snapshot.CSRIDSpace g) → 0 ≤ id →
  Contains s id = bool_decide (id < Snapshot.CSRIDSpace g).
Proof.
  intros Hin Hlen Hn Hid. unfold Contains. rewrite bm_contains. set (n := Snapshot.CSRIDSpace g) in *.
  assert (elems s ⊆ list_to_set (zseq n)) as Hsub by (intros x Hx; apply elem_of_list_to_set, elem_of_zseq; by apply Hin).
  assert (size (list_to_set (zseq n) : gset Z) = Z.to_nat n) as Hsz.
  { rewrite size_list_to_set by (apply sorted_NoDup, zseq_sorted). unfold zseq. by rewrite length_fmap, length_seq. }
  pose proof (subseteq_size _ _ Hsub) as Hle. rewrite Hsz in Hle. unfold NodeSet.Len in Hlen. rewrite bm_card in Hlen. fold (elems s) in Hlen.
  rewrite (wrapU_small 32) in Hlen by lia.
  assert (elems s = list_to_set (zseq n)) as Eq by (apply set_subseteq_size_eq; [done|lia]). fold (elems s). rewrite Eq. apply bool_decide_ext.
  rewrite elem_of_list_to_set, elem_of_zseq. lia.
Qed.

Lemma stored_exists g wo id : (∀ s x, existence g = Some s → x ∈ elems s → 0 ≤ x < Snapshot.CSRIDSpace g) → is_u32 (Snapshot.CSRIDSpace g) → 0 ≤ id →
  match FromBitmap <$> (if woExistence wo then storedExistence g else None) with
  | None => bool_decide (id < Snapshot.CSRIDSpace g)
  | Some s => Contains s id
  end = if woExistence wo then NodeExists g id else bool_decide (id < Snapshot.CSRIDSpace g).
Proof using HSL.
  intros Hin Hn Hid. destruct (woExistence wo); [|done]. unfold storedExistence, NodeExists. destruct (existence g) as [s|] eqn:Es; [|done].
  case_decide as D; cbn [fmap option_fmap option_map]; [by destruct s|]. symmetry. apply dense_exists; [by intros x; apply Hin|lia|done..].
Qed.

Lemma loaded_ok g wo : fits g → ∃ section g', graphSectionWith g (woNodeColumns wo) (woRelColumns wo) = Ok section ∧ wf_graph section ∧
  FromGraphSection (visible section wo DefaultParseOptions) = Ok g' ∧ loaded wo g g'.
Proof using HSL.
  intros [Ha Hv Hn Hr (O1 & O2 & O3) (I1 & I2 & I3) Hl Ht Hc Hrc He]. unfold graphSectionWith. rewrite (typeWords_ok _ O3), (typeWords_ok _ I3). cbn [mbind res_bind].
  destruct (convert_load (columns g) (woNodeColumns wo) Hc) as (nc & cols' & -> & Wn & Ln & Sn). cbn [mbind res_bind].
  destruct (convert_load (relColumns g) (woRelColumns wo) Hrc) as (rc & rcols' & -> & Wr & Lr & Sr). cbn [mbind res_bind].
  eexists _, _. split; [reflexivity|]. split.
  { split; cbn; try done; [by apply indexEntries_wf|]. unfold wf_rels. cbn. destruct O3, I3. split_and!; try done; try lia. by apply indexEntries_wf. }
  unfold FromGraphSection, visible. cbn -[loadColumns compressRelTypes]. unfold compressRelTypesU32. destruct O3 as [_ O3], I3 as [_ I3]. rewrite O3, I3. cbn [mbind res_bind].
  rewrite !andb_true_r, Ln. cbn [mbind res_bind]. rewrite Lr. cbn [mbind res_bind]. split; [reflexivity|]. split; cbn; try done.
  - split; apply loadIndex_ok.
  - split; [done|]. apply bool_decide_ext. rewrite <- map_size_non_empty_iff. lia.
  - intros id Hid. rewrite <- (stored_exists g wo id); [done|done| |done]. unfold Snapshot.CSRIDSpace. case_decide; [lia|]. apply wrapU_range. lia.
Qed.

Lemma write_read_loaded g wo : fits g →
  (∀ section, graphSectionWith g (woNodeColumns wo) (woRelColumns wo) = Ok section → len (fileBytes (sectionsOf section wo)) < 18446744073709551616) →
  ∃ bytes g', WriteRCPGWith g [] wo = (bytes, Ok ()) ∧ ReadRCPG bytes = Ok g' ∧ loaded wo g g'.
Proof using HSL HRL.
  intros Hf Hsz. destruct (loaded_ok g wo Hf) as (section & g' & E & Hw & El & Hg). specialize (Hsz section E).
  exists (fileBytes (sectionsOf section wo)), g'. unfold WriteRCPGWith. rewrite E. split; [by apply WriteWith_buffer|]. split; [|done].
  unfold ReadRCPG, Parse. by rewrite ParseWith_file.
Qed.

End snapshots.

(** ** Properties *)

(** C5: A snapshot survives its file. For every snapshot the format can hold and
    every choice of write options, writing it into a buffer succeeds and reading
    the buffer gives a snapshot with the same adjacency arrays, relationship
    types, label and type indexes, strings and version; the property columns
    written answer every read, enumeration and length alike, though rank/select
    and narrow layouts are stored plainly and chosen anew; and the nodes that
    exist are the same when the existence option is on, and the whole id space
    when it is off. *)
Theorem snapshot_file_roundtrip {bm} `{HSL : RoaringSetLaws bm} `{HRL : !RcpgSection.Roaring bm} `{!RcpgSection.RoaringLaws bm} (g : Snapshot bm) (wo : WriteOptions) : fits g →
  (∀ section, graphSectionWith g (woNodeColumns wo) (woRelColumns wo) = Ok section → len (fileBytes (sectionsOf section wo)) < 18446744073709551616) →
  ∃ bytes g', WriteRCPGWith g [] wo = (bytes, Ok ()) ∧ ReadRCPG bytes = Ok g' ∧ loaded wo g g'.
Proof. apply write_read_loaded. Qed.

(** A bitmap with both interfaces: a finite set that is written as the bytes of
    its code number. *)
Definition setBytes (b : gset Z) : list byte := le_split (S (Z.to_nat (Z.log2 (Zpos (encode b)) / 8))) (Zpos (encode b)).
#[export] Instance setRoaring : RcpgSection.Roaring (gset Z) :=
  {| bmWriteTo := setBytes; bmReadFrom l := decode (Z.to_pos (le_combine l)); bmSize b := len (setBytes b) |}.
#[export] Instance setRoaringLaws : RcpgSection.RoaringLaws (gset Z).
Proof.
  split; [done|]. intros b. cbn. unfold setBytes. set (p := encode b). rewrite le_combine_split, Z.mod_small.
  - cbn. unfold p. by rewrite decode_encode.
  - split; [lia|]. pose proof (Z.log2_spec (Zpos p) ltac:(lia)) as [_ Hlt]. eapply Z.lt_le_trans; [exact Hlt|]. pose proof (Z.log2_nonneg (Zpos p)). apply Z.pow_le_mono_r; dlia.
Qed.

(** Nodes 0 and 2 of a space of three, one relationship, a label, an integer and
    a boolean property of nodes and a string property of the relationship. *)
Definition fileSnap : Snapshot (gset Z) :=
  mkSnapshot 2 1 [0; 1; 1; 1] [2] (mkRelTypes None [1] [0]) [0; 0; 0; 1] [0] (mkRelTypes None [1] [0]) None true
    {[2 := mkSet {[0]}]} {[1 := mkSet {[0]}]} (Some [Byte.x76]) {[1 := sparseI64Col [0; 2] [7; -9]; 2 := sparseBoolCol [2] [true]]} {[2 := sparseStrCol [0] [1]]} 0
    (Some (mkSet {[0; 2]})) (NewAtoms [[]; [Byte.x41]; [Byte.x42]]).
Definition allSections : WriteOptions := mkWriteOptions true true true true.

Lemma fileSnap_fits : fits fileSnap.
Proof.
  assert (∀ (index : gmap Z (Set_ (gset Z))), fitIndex index ↔ Z.of_nat (size index) < 4294967296 ∧ map_Forall (λ k s, is_u32 k ∧ len (bmWriteTo (sbm s)) < 4294967296) index) as Hfi by done.
  split; try done; try (rewrite Hfi; split; [done|]); try (by apply (bool_decide_unpack _); vm_compute).
  - intros v [= <-]. by split.
  - split_and!; [split; [done|]; by repeat constructor..|]. split; [|done]. split; [done|]. by repeat constructor.
  - split_and!; [split; [done|]; by repeat constructor..|]. split; [|done]. split; [done|]. by repeat constructor.
  - split; [done|]. intros k c Hc. cbn [columns fileSnap] in Hc.
    apply lookup_insert_Some in Hc as [[<- <-]|[_ [<- <-]%lookup_singleton_Some]]; (split; [lia|]); constructor; split; try done; by repeat constructor.
  - split; [done|]. intros k c Hc. cbn [relColumns fileSnap] in Hc. apply lookup_singleton_Some in Hc as [<- <-]. split; [lia|]. constructor; split; try done; by repeat constructor.
  - intros s x [= <-] Hx. change (x ∈ ({[0; 2]} : gset Z)) in Hx. change (Snapshot.CSRIDSpace fileSnap) with 3. rewrite elem_of_union, !elem_of_singleton in Hx. lia.
Qed.

Lemma snapshot_file_roundtrip_witness : ∃ bytes g', WriteRCPGWith fileSnap [] allSections = (bytes, Ok ()) ∧ ReadRCPG bytes = Ok g' ∧
  NodeExists g' 1 = false ∧ outNbrs g' = [2].
Proof.
  destruct (snapshot_file_roundtrip fileSnap allSections fileSnap_fits) as (bytes & g' & Ew & Er & Hg).
  - intros section E. vm_compute in E. injection E as <-. by vm_compute.
  - exists bytes, g'. split; [done|]. split; [done|]. rewrite (ld_exists _ _ _ Hg) by lia. split; [done|]. by destruct (ld_out _ _ _ Hg) as (_ & -> & _).
Defined.
