(* ===== verification/FinalizeFits.v ===== *)
(** What finalization builds fits the file format.

    The columns [Finalize] picks are storable at every fill rate and value
    range, and the arrays and indexes stay within the widths of the RCPG
    sections, given that the staged strings are UTF-8 and the staged values have
    their Go widths. *)

From S2P Require Import RcpgColumn RcpgSection RcpgDirectory RcpgFile.
From S2P Require Import Prelude Bitset Value AtomTable Narrow Columns FinalizeColumns NodeSet Csr RelTypes InToOut Snapshot TypedAdj Traverse.
From S2P Require Import Builder BuilderInv Compaction Finalize FinalizeSpec Serialize SerializeSpec.

(** ** The column builders *)

Section pairs.
Context {A : Type} (P : A → Prop) (pairs : list (Z * A)) (span : Z).
Hypothesis Hspan : 0 ≤ span < 4294967296.
Hypothesis HF : inSpan span pairs.
Hypothesis HP : Forall (λ p, P p.2) pairs.

Lemma sorted_fits : fitPairs P (sortPairsLastWriteWins pairs).*1 (sortPairsLastWriteWins pairs).*2.
Proof using Hspan HF HP.
  set (sp := sortPairsLastWriteWins pairs). pose proof (sortPairs_strict pairs) as Hs. pose proof (sortPairs_inSpan pairs span HF) as Hr. fold sp in Hs, Hr.
  split; [done|eapply Forall_impl; [exact Hr|]; simpl; lia| |by rewrite !length_fmap|].
  - assert (length sp.*1 ≤ length (zseq span))%nat as Hle.
    { apply submseteq_length, NoDup_submseteq; [by apply sorted_NoDup|]. intros x Hx. apply elem_of_zseq. rewrite Forall_forall in Hr. by apply Hr. }
    unfold zseq in Hle. rewrite !length_fmap, length_seq in Hle. unfold len. rewrite length_fmap. lia.
  - apply Forall_fmap, Forall_forall. intros p Hp%sortPairs_subset. rewrite Forall_forall in HP. by apply HP.
Qed.

Lemma sorted_rank r : buildRankIndex (sortPairsLastWriteWins pairs).*1 span = Ok r → fitRank r (sortPairsLastWriteWins pairs).*1.
Proof using Hspan HF.
  intros E. destruct (buildRankIndex_ok _ span (sortPairs_strict pairs) (sortPairs_inSpan pairs span HF) Hspan) as (r' & E' & Hr). assert (r' = r) as -> by congruence. exists span. split; [done|lia].
Qed.

Lemma filled_fits zero col : P zero → fillDense pairs (replicate (Z.to_nat span) zero) = Ok col → fitDense P col.
Proof using Hspan HF HP.
  intros Hz E. destruct (fillDense_ok pairs (replicate (Z.to_nat span) zero)) as (col' & E' & Hl & Hc); [by rewrite len_replicate, Z2Nat.id by lia|].
  assert (col' = col) as -> by congruence. rewrite len_replicate in Hl. split; [lia|]. apply Forall_lookup. intros k x Hx. specialize (Hc (Z.of_nat k) ltac:(lia)). rewrite Nat2Z.id, Hx in Hc.
  destruct (written pairs !! Z.of_nat k) as [v|] eqn:Ev.
  - injection Hc as ->. rewrite <- written_sorted, written_list_to_map in Ev by (apply sorted_NoDup, sortPairs_strict). apply elem_of_list_to_map_2, sortPairs_subset in Ev.
    rewrite Forall_forall in HP. exact (HP _ Ev).
  - symmetry in Hc. apply lookup_replicate in Hc as [-> _]. done.
Qed.
End pairs.

(** A builder of columns that the format can hold. *)
Definition buildsStorable {A} (P : A → Prop) (build : list (Z * A) → Z → res Column) : Prop :=
  ∀ pairs span c, 0 ≤ span ≤ 4294967288 → inSpan span pairs → Forall (λ p, P p.2) pairs → build pairs span = Ok c → storable c.

(** Reads the outcome of a chain of successful steps. *)
Ltac steps E := repeat match type of E with
  | (_ ≫= _) = Ok _ => let x := fresh "x" in let Ex := fresh "E" in apply res_bind_Ok in E as (x & Ex & E)
  | (if ?d then _ else _) = Ok _ => destruct d eqn:?
  | (let _ := _ in _) = Ok _ => cbn zeta in E
  | match ?o with Some _ => _ | None => _ end = Ok _ => destruct o eqn:?
  | Ok _ = Ok _ => injection E as <-
  end.

Lemma I64_storable : buildsStorable isI64 columnFromPairsI64.
Proof.
  intros pairs span c Hs HF HP E. assert (0 ≤ span < 4294967296) as Hspan by lia. pose proof (sorted_fits isI64 pairs span Hspan HF HP) as Hfit. unfold columnFromPairsI64 in E. steps E.
  - eapply st_denseI64; [|exact E]. by apply (filled_fits isI64 pairs span Hspan HF HP 0).
  - by eapply st_rankI64Narrow; [apply (sorted_rank pairs span Hspan HF)|exact Hfit|].
  - by eapply st_rankI64; [apply (sorted_rank pairs span Hspan HF)|exact Hfit].
  - by eapply st_sparseI64Narrow.
  - by apply st_sparseI64.
Qed.

Lemma F64_storable : buildsStorable isU64 columnFromPairsF64.
Proof.
  intros pairs span c Hs HF HP E. assert (0 ≤ span < 4294967296) as Hspan by lia. pose proof (sorted_fits isU64 pairs span Hspan HF HP) as Hfit. unfold columnFromPairsF64 in E. steps E.
  - apply st_denseF64. by apply (filled_fits isU64 pairs span Hspan HF HP 0).
  - by eapply st_rankF64; [apply (sorted_rank pairs span Hspan HF)|exact Hfit].
  - by apply st_sparseF64.
Qed.

Lemma Str_storable : buildsStorable isU32 columnFromPairsStr.
Proof.
  intros pairs span c Hs HF HP E. assert (0 ≤ span < 4294967296) as Hspan by lia. pose proof (sorted_fits isU32 pairs span Hspan HF HP) as Hfit. unfold columnFromPairsStr in E. steps E.
  - apply st_denseStr. by apply (filled_fits isU32 pairs span Hspan HF HP 0).
  - by eapply st_rankStr; [apply (sorted_rank pairs span Hspan HF)|exact Hfit].
  - by apply st_sparseStr.
Qed.

Lemma Bool_storable : buildsStorable (λ _, True) columnFromPairsBool.
Proof.
  intros pairs span c Hs HF HP E. assert (0 ≤ span < 4294967296) as Hspan by lia. pose proof (sorted_fits (λ _, True) pairs span Hspan HF HP) as Hfit. unfold columnFromPairsBool in E. steps E.
  - destruct (New_ok span ltac:(lia)) as (b0 & En & Hb0 & Hn0 & Hz0). assert (x0 = b0) as -> by congruence.
    destruct (setPairs_ok pairs b0 Hb0 Hz0) as (b & Eb & Hb & Hn & _); [by rewrite Hn0|]. assert (x1 = b) as -> by congruence. apply st_denseBool; [done|lia].
  - pose proof (fp_count _ _ _ Hfit) as Hc. rewrite len_fmap in Hc. destruct (New_ok (len (sortPairsLastWriteWins pairs)) ltac:(pose proof (len_nonneg (sortPairsLastWriteWins pairs)); lia)) as (b0 & En & Hb0 & Hn0 & Hz0).
    assert (x0 = b0) as -> by congruence. destruct (setEnum_ok _ b0 Hb0 Hn0) as (b & Eb & Hb & Hl). assert (x1 = b) as -> by congruence.
    eapply st_rankBool; [by apply (sorted_rank pairs span Hspan HF)|done|by rewrite Hl].
  - by apply st_sparseBool.
Qed.

(** ** The column loops *)

Lemma foldM_keeps {A B} (I : B → Prop) (f : B → A → res B) l : (∀ x st st', x ∈ l → I st → f st x = Ok st' → I st') →
  ∀ st st', I st → foldM f l st = Ok st' → I st'.
Proof.
  induction l as [|x l IH]; intros Hf st st' Hst E; simpl in E; [by injection E as <-|]. apply res_bind_Ok in E as (st1 & E1 & E).
  eapply IH; [|eapply Hf; [by left|done|exact E1]|exact E]. intros y s s' Hy. apply Hf. by right.
Qed.

(** Column maps whose keys and columns the format can hold. *)
Definition keysFit (cols : gmap Z Column) : Prop := ∀ k c, cols !! k = Some c → 0 ≤ k < MaxUint32 ∧ storable c.

Lemma keysFit_insert cols k c : keysFit cols → 0 ≤ k < MaxUint32 → storable c → keysFit (<[k := c]> cols).
Proof. intros Hc Hk Hs k' c' [[<- <-]|[_ E]]%lookup_insert_Some; [done|]. by apply Hc. Qed.

Lemma keysFit_columns cols : keysFit cols → fitColumns cols.
Proof.
  intros Hc. split; [|intros k c E; destruct (Hc k c E); split; [lia|done]]. rewrite <- size_dom.
  assert (Z.of_nat (size (dom cols)) ≤ 4294967295); [|lia]. apply (interval_size_le _ 0); [lia|]. intros k (c & E)%elem_of_dom. destruct (Hc k c E) as [Hk _]. lia.
Qed.

Section columns.
Context {bm : Type} `{RoaringSet bm}.
Context (b : Builder bm (Snapshot bm)) (p : aliasPlan (bm := bm)) (Hp : p_src p = None).

Lemma nodeColumns_fit {A} (P : A → Prop) build cols staged span cols' : buildsStorable P build → 0 ≤ span ≤ 4294967288 →
  (∀ k ps, staged !! k = Some ps → 0 ≤ k < MaxUint32 ∧ inSpan span ps ∧ Forall (λ q, P q.2) ps) → keysFit cols →
  finalizeNodeColumns p b cols staged span build = Ok cols' → keysFit cols'.
Proof using Hp.
  intros Hb Hs Hst Hc E. unfold finalizeNodeColumns in E. eapply (foldM_keeps keysFit); [|exact Hc|exact E]. intros [k ps] st st' Hk%elem_of_map_to_list Hst' E1. cbn [fst snd] in E1.
  unfold nodeColumn in E1. rewrite Hp in E1. apply res_bind_Ok in E1 as (c & Ec & E1). injection E1 as <-. destruct (Hst k ps Hk) as (Hk' & HF & HP). apply keysFit_insert; [done|done|]. by eapply Hb.
Qed.

Lemma relColumns_fit {A} (P : A → Prop) build cols staged (m : Z) relToOut cols' : buildsStorable P build → 0 ≤ m ≤ 4294967288 →
  (∀ j, 0 ≤ j < m → ∃ q, idx relToOut j = Ok q ∧ 0 ≤ q < m) →
  (∀ k ps, staged !! k = Some ps → 0 ≤ k < MaxUint32 ∧ inSpan m ps ∧ Forall (λ q, P q.2) ps) → keysFit cols →
  finalizeRelColumns p b cols staged m relToOut build = Ok cols' → keysFit cols'.
Proof using Hp.
  intros Hb Hs Hmap Hst Hc E. unfold finalizeRelColumns in E. eapply (foldM_keeps keysFit); [|exact Hc|exact E]. intros [k ps] st st' Hk%elem_of_map_to_list Hst' E1. cbn [fst snd] in E1.
  unfold relColumn in E1. rewrite Hp in E1. apply res_bind_Ok in E1 as (out & Eo & E1). apply res_bind_Ok in E1 as (c & Ec & E1). injection E1 as <-.
  destruct (Hst k ps Hk) as (Hk' & HF & HP). apply keysFit_insert; [done|done|]. eapply (Hb out m); [done| | |exact Ec]; clear Ec.
  - apply mapM_Ok in Eo. unfold inSpan in *. clear -Eo HF Hmap. induction Eo as [|q r ps out Eq Eo IH]; [constructor|]. apply Forall_cons in HF as [Hq HF]. constructor; [|auto].
    destruct (Hmap q.1 Hq) as (x & E & Hx). rewrite E in Eq. cbn [mbind res_bind] in Eq. by injection Eq as <-.
  - apply mapM_Ok in Eo. clear -Eo HP. induction Eo as [|q r ps out Eq Eo IH]; [constructor|]. apply Forall_cons in HP as [Hq HP]. constructor; [|auto].
    apply res_bind_Ok in Eq as (x & _ & Eq). by injection Eq as <-.
Qed.
End columns.

(** ** The snapshot *)

Definition valuesFit (c : typedCols) : Prop :=
  (∀ k, is_Some (colI64 c !! k) ∨ is_Some (colF64 c !! k) ∨ is_Some (colBool c !! k) ∨ is_Some (colStr c !! k) → 0 ≤ k < MaxUint32) ∧
  (∀ k ps, colF64 c !! k = Some ps → Forall (λ q, is_u64 q.2) ps) ∧ (∀ k ps, colStr c !! k = Some ps → Forall (λ q, is_u32 q.2) ps).

Lemma keepLive_vals {A} (P : A → Prop) live new (ps : list (Z * A)) : Forall (λ q, P q.2) ps → Forall (λ q, P q.2) (keepLive live new ps).
Proof.
  rewrite !Forall_forall. intros HF q (p & Hp & Hq)%list_elem_of_omap. destruct (live p.1); [|done]. injection Hq as <-. exact (HF p Hp).
Qed.
Lemma keepLiveMap_lookup {A} live new (m : colMap A) k out : keepLiveMap live new m !! k = Some out → ∃ ps, m !! k = Some ps ∧ out = keepLive live new ps.
Proof. unfold keepLiveMap. rewrite lookup_omap. destruct (m !! k) as [ps|]; [|done]. cbn. destruct (keepLive live new ps) eqn:E; [done|]. intros [= <-]. eauto. Qed.

Lemma keepLive_fits live new c : valuesFit c → valuesFit (keepLiveCols live new c).
Proof.
  intros (Hk & Hf & Hs). split_and!.
  - intros k Hc. apply Hk. unfold keepLiveCols in Hc. cbn in Hc. destruct Hc as [[o E]|[[o E]|[[o E]|[o E]]]]; apply keepLiveMap_lookup in E as (ps & -> & _); eauto.
  - intros k out (ps & E & ->)%keepLiveMap_lookup. by eapply (keepLive_vals isU64), Hf.
  - intros k out (ps & E & ->)%keepLiveMap_lookup. by eapply (keepLive_vals isU32), Hs.
Qed.

(** A staging state whose strings and values the format can hold. *)
Record stagedFits {bm} `{RoaringSetLaws bm} (b : Builder bm (Snapshot bm)) : Prop := {
  sf_strings : wf_atoms (istrings (interner b));
  sf_version : ∀ v, Builder.version b = Some v → wf_string v;
  sf_space : ∀ x, x ∈ known b → x < 4294967288;
  sf_nodeCols : valuesFit (nodeCols b);
  sf_relCols : valuesFit (relCols b);
}.

Lemma isCSR_vectors n rels ts endpoint offsets nbrs types : 0 ≤ n ≤ 4294967288 → len rels < 2147483648 → length ts = length rels →
  Forall (λ r, 0 ≤ r.1 < n ∧ 0 ≤ r.2 < n) rels → Forall (λ t, 0 ≤ t < MaxUint32) ts →
  isCSR n rels ts endpoint offsets nbrs types → wf_vec offsets ∧ wf_vec nbrs ∧ wf_vec types.
Proof.
  intros Hn Hm Hts Hends Ht Hc. pose proof Hc as [Hl Ho Hnb Hty _].
  assert (∀ p, 0 ≤ p < len rels → ∃ x t, nbrs !! Z.to_nat p = Some x ∧ types !! Z.to_nat p = Some t ∧ is_u32 x ∧ is_u32 t) as Hat.
  { intros p Hp. destruct (direction_at n rels ts ltac:(lia) ltac:(lia) Hts Hends endpoint offsets nbrs types Hc p Hp) as (r & t & Hr & Htp & E1 & E2 & _).
    exists (otherOf endpoint r), t. pose proof (Forall_lookup_1 _ _ _ _ Hends Hr) as He. pose proof (Forall_lookup_1 _ _ _ _ Ht Htp) as Ht'. simpl in *.
    split; [done|]. split; [done|]. split; [|lia]. unfold otherOf. case_match; lia. }
  split_and!; (split; [unfold len in *; lia|]); apply Forall_lookup; intros k x Hx; apply lookup_lt_Some in Hx as Hk.
  - specialize (Ho (Z.of_nat k) ltac:(unfold len in *; lia)). rewrite Nat2Z.id, Hx in Ho. injection Ho as ->.
    pose proof (below_nonneg (ownerOf endpoint) rels (Z.of_nat k)). pose proof (below_len (ownerOf endpoint) rels (Z.of_nat k)). lia.
  - destruct (Hat (Z.of_nat k) ltac:(unfold len; lia)) as (y & t & Hy & _ & Hr & _). rewrite Nat2Z.id, Hx in Hy. by injection Hy as ->.
  - destruct (Hat (Z.of_nat k) ltac:(unfold len; lia)) as (y & t & _ & Hy & _ & Hr). rewrite Nat2Z.id, Hx in Hy. by injection Hy as ->.
Qed.

(** What holds of a snapshot in its machine types, the label and type indexes apart. *)
Record bodyFits {bm} `{RoaringSetLaws bm} (g : Snapshot bm) : Prop := {
  bf_atoms : wf_atoms (strings (atoms g));
  bf_version : ∀ v, Snapshot.version g = Some v → wf_string v;
  bf_nodes : is_u32 (nNodes g);
  bf_rels : is_u64 (nRels g);
  bf_out : wf_vec (outOffsets g) ∧ wf_vec (outNbrs g) ∧ fitTypes (outTypes g);
  bf_in : wf_vec (inOffsets g) ∧ wf_vec (inNbrs g) ∧ fitTypes (inTypes g);
  bf_columns : fitColumns (columns g);
  bf_relColumns : fitColumns (relColumns g);
  bf_exist : ∀ s x, existence g = Some s → x ∈ elems s → 0 ≤ x < Snapshot.CSRIDSpace g;
}.

Section fits.
Context {bm : Type} `{HSL : RoaringSetLaws bm} {HR : RcpgSection.Roaring bm}.
Context (b : Builder bm (Snapshot bm)).
Hypothesis Hw : wf_builder b.
Hypothesis Htombs : tombs b = ∅.
Hypothesis Hmarks : removedNodes b = ∅.
Hypothesis Htypes : Forall (λ t, 0 ≤ t < MaxUint32) (relTypes b).
Hypothesis Hsrc : src b = None.
Hypothesis Hm : len (rels b) < 2147483648.
Hypothesis Hfit : stagedFits b.

Lemma idSpace_fits : 0 < idSpace b ≤ 4294967288.
Proof using Hw Hfit.
  destruct (idSpace_ok b Hw) as [Hn _]. split; [lia|]. unfold idSpace. rewrite bm_isEmpty. case_bool_decide as E; [lia|].
  destruct (bm_maximum _ E) as [Hin _]. pose proof (sf_space _ Hfit _ Hin). lia.
Qed.

Lemma nodeFamily_fits {A} (m : colMap A) (P : A → Prop) (Q : Z * A → Prop) : pairsOK Q m → (∀ q, Q q → q.1 ∈ known b) → (∀ k ps, m !! k = Some ps → Forall (λ q, P q.2) ps) →
  (∀ k, is_Some (m !! k) → 0 ≤ k < MaxUint32) → ∀ k ps, m !! k = Some ps → 0 ≤ k < MaxUint32 ∧ inSpan (idSpace b) ps ∧ Forall (λ q, P q.2) ps.
Proof using Hw.
  intros Hok HQ HP Hk k ps E. destruct (Hok k ps E) as [_ HF]. split; [by apply Hk|]. split; [|by eapply HP]. eapply Forall_impl; [exact HF|]. intros q Hq. by apply (idSpace_ok b Hw), HQ.
Qed.

Lemma relFamily_fits {A} (m : colMap A) (P : A → Prop) (Q : Z * A → Prop) : pairsOK Q m → (∀ q, Q q → 0 ≤ q.1 < len (rels b)) → (∀ k ps, m !! k = Some ps → Forall (λ q, P q.2) ps) →
  (∀ k, is_Some (m !! k) → 0 ≤ k < MaxUint32) → ∀ k ps, m !! k = Some ps → 0 ≤ k < MaxUint32 ∧ inSpan (len (rels b)) ps ∧ Forall (λ q, P q.2) ps.
Proof using.
  intros Hok HQ HP Hk k ps E. destruct (Hok k ps E) as [_ HF]. split; [by apply Hk|]. split; [|by eapply HP]. eapply Forall_impl; [exact HF|]. exact HQ.
Qed.

(** The four families of node columns, then those of relationships. *)
Lemma allNodeColumns_fit p c1 c2 c3 c4 : p_src p = None →
  finalizeNodeColumns p b ∅ (colI64 (nodeCols b)) (idSpace b) columnFromPairsI64 = Ok c1 → finalizeNodeColumns p b c1 (colF64 (nodeCols b)) (idSpace b) columnFromPairsF64 = Ok c2 →
  finalizeNodeColumns p b c2 (colBool (nodeCols b)) (idSpace b) columnFromPairsBool = Ok c3 → finalizeNodeColumns p b c3 (colStr (nodeCols b)) (idSpace b) columnFromPairsStr = Ok c4 →
  fitColumns c4.
Proof using Hw Hfit.
  intros Hp E1 E2 E3 E4. destruct (wb_nodeCols _ Hw) as [N1 N2 N3 N4]. destruct (sf_nodeCols _ Hfit) as (K & F & S). pose proof idSpace_fits as Hn.
  assert (0 ≤ idSpace b ≤ 4294967288) as Hn' by lia. apply keysFit_columns.
  eapply (nodeColumns_fit b p Hp isU32 _ c3 _ _ _ Str_storable Hn'); [|clear E4|exact E4].
  { apply (nodeFamily_fits _ isU32 _ N4); [done|exact S|naive_solver]. }
  eapply (nodeColumns_fit b p Hp (λ _, True) _ c2 _ _ _ Bool_storable Hn'); [|clear E3|exact E3].
  { apply (nodeFamily_fits _ (λ _, True) _ N3); [done| |naive_solver]. intros k ps _. by apply Forall_true. }
  eapply (nodeColumns_fit b p Hp isU64 _ c1 _ _ _ F64_storable Hn'); [|clear E2|exact E2].
  { apply (nodeFamily_fits _ isU64 _ N2); [done|exact F|naive_solver]. }
  eapply (nodeColumns_fit b p Hp isI64 _ ∅ _ _ _ I64_storable Hn'); [| |exact E1]; [|by intros k c Hc; rewrite lookup_empty in Hc].
  apply (nodeFamily_fits _ isI64 _ N1); [naive_solver| |naive_solver]. intros k ps Hk. destruct (N1 k ps Hk) as [_ HF]. eapply Forall_impl; [exact HF|]. by intros q [_ Hq].
Qed.

Lemma allRelColumns_fit p relToOut c1 c2 c3 c4 : p_src p = None → (∀ j, 0 ≤ j < len (rels b) → ∃ q, idx relToOut j = Ok q ∧ 0 ≤ q < len (rels b)) →
  let m := len (rels b) in
  finalizeRelColumns p b ∅ (colI64 (relCols b)) m relToOut columnFromPairsI64 = Ok c1 → finalizeRelColumns p b c1 (colF64 (relCols b)) m relToOut columnFromPairsF64 = Ok c2 →
  finalizeRelColumns p b c2 (colBool (relCols b)) m relToOut columnFromPairsBool = Ok c3 → finalizeRelColumns p b c3 (colStr (relCols b)) m relToOut columnFromPairsStr = Ok c4 →
  fitColumns c4.
Proof using Hw Hm Hfit.
  intros Hp Hmap m E1 E2 E3 E4. destruct (wb_relCols _ Hw) as [N1 N2 N3 N4]. destruct (sf_relCols _ Hfit) as (K & F & S). pose proof (len_nonneg (rels b)).
  assert (0 ≤ m ≤ 4294967288) as Hn' by (unfold m; lia). apply keysFit_columns.
  eapply (relColumns_fit b p Hp isU32 _ c3 _ _ _ _ Str_storable Hn' Hmap); [|clear E4|exact E4].
  { apply (relFamily_fits _ isU32 _ N4); [done|exact S|naive_solver]. }
  eapply (relColumns_fit b p Hp (λ _, True) _ c2 _ _ _ _ Bool_storable Hn' Hmap); [|clear E3|exact E3].
  { apply (relFamily_fits _ (λ _, True) _ N3); [done| |naive_solver]. intros k ps _. by apply Forall_true. }
  eapply (relColumns_fit b p Hp isU64 _ c1 _ _ _ _ F64_storable Hn' Hmap); [|clear E2|exact E2].
  { apply (relFamily_fits _ isU64 _ N2); [done|exact F|naive_solver]. }
  eapply (relColumns_fit b p Hp isI64 _ ∅ _ _ _ _ I64_storable Hn' Hmap); [| |exact E1]; [|by intros k c Hc; rewrite lookup_empty in Hc].
  apply (relFamily_fits _ isI64 _ N1); [naive_solver| |naive_solver]. intros k ps Hk. destruct (N1 k ps Hk) as [_ HF]. eapply Forall_impl; [exact HF|]. by intros q [_ Hq].
Qed.

Lemma bodyFits_fits (g : Snapshot bm) : bodyFits g → fitIndex (labelIndex g) → fitIndex (typeIndex g) → fits g.
Proof using. intros [] ? ?. by split. Qed.

Lemma finalizeStaged_fits g : finalizeStaged b = Ok g → bodyFits g.
Proof using Hw Htombs Hmarks Htypes Hsrc Hm Hfit.
  intros E. destruct (space_facts b Hw) as (Hn & Hm' & Hts). pose proof idSpace_fits as Hnf. pose proof (rels_inSpace b Hw Htombs Hmarks) as Hends. pose proof (len_nonneg (rels b)) as Hm0.
  unfold finalizeStaged in E. set (p := newAliasPlan b (idSpace b) (len (rels b))) in E. assert (p_src p = None) as Hp by (unfold p, newAliasPlan; by rewrite Hsrc). rewrite Hp in E.
  destruct (buildCSR_ok b Hw Htombs Hmarks Htypes) as (top & Et & Ht). rewrite Et in E. cbn [mbind res_bind] in E. cbn zeta in E. steps E.
  assert (∀ j, 0 ≤ j < len (rels b) → ∃ q, idx (t_relToOutCSR top) j = Ok q ∧ 0 ≤ q < len (rels b)) as Hmap.
  { intros j Hj. destruct (outSlot_facts b Hw Htombs Hmarks j Hj) as (r & Hr & Es & Hs & _). exists (outSlot (rels b) j). split; [|done]. apply idx_lookup; [lia|]. rewrite Es. by apply (it_map _ _ Ht). }
  assert (0 ≤ idSpace b ≤ 4294967288) as Hn8 by lia.
  destruct (isCSR_vectors _ _ _ _ _ _ _ Hn8 Hm Hts Hends Htypes (it_out _ _ Ht)) as (V1 & V2 & V3).
  destruct (isCSR_vectors _ _ _ _ _ _ _ Hn8 Hm Hts Hends Htypes (it_in _ _ Ht)) as (V4 & V5 & V6).
  split; cbn; try done.
  - unfold aliasAtoms. rewrite Hp. apply (sf_strings _ Hfit).
  - apply (sf_version _ Hfit).
  - apply wrapU_range. lia.
  - apply wrapU_range. lia.
  - split; [done|]. split; [done|]. split; [done|]. apply (it_canon _ _ Ht).
  - split; [done|]. split; [done|]. split; [done|]. apply (it_canon _ _ Ht).
  - by eapply allNodeColumns_fit.
  - by eapply allRelColumns_fit.
  - intros s y [= <-] Hy. unfold CSRIDSpace. cbn. rewrite (ic_len _ _ _ _ _ _ _ (it_out _ _ Ht)), decide_False by lia. rewrite wrapU_small by lia. destruct (idSpace_ok b Hw) as [_ Hk].
    specialize (Hk y Hy). lia.
Qed.
End fits.
