(* ===== verification/ThawFinalize.v ===== *)
(** Thaw and refinalize: [NewBuilderFromSnapshot] of [src/thaw.go] followed by
    [Finalize] under the sharing plan of [src/cow.go].

    The documented contract, and its limit: with no edit in between, finalizing again
    reproduces the snapshot, except that an id inside the span of a dense string column
    becomes a node. And one place where an edit breaks it: the first relationship
    property added to a graph that had none. *)

From S2P Require Import Prelude Value AtomTable Columns FinalizeColumns NodeSet Csr RelTypes InToOut Snapshot TypedAdj Traverse.
From S2P Require Import Builder BuilderInv Compaction Finalize FinalizeSpec Thaw ThawOrder ThawSpec FinalizeFits.

(** ** The staged keys *)

Definition stagedKey (c : typedCols) (key : Z) : Prop :=
  is_Some (colI64 c !! key) ∨ is_Some (colF64 c !! key) ∨ is_Some (colBool c !! key) ∨ is_Some (colStr c !! key).

Lemma stagedKey_values c key : stagedKey c key ↔ is_Some (stagedValues c key).
Proof.
  unfold stagedKey, stagedValues. split.
  - intros [[ps E]|[[ps E]|[[ps E]|[ps E]]]]; rewrite E; repeat case_match; eauto.
  - intros [m E]. repeat case_match; naive_solver.
Qed.

(** Storing under a key in one of the four maps stages that key. *)
Definition stagesKey {A} (ref : colRef A) : Prop :=
  ∀ c k ps key, stagedKey (rset ref (<[k := ps]> (rget ref c)) c) key ↔ key = k ∨ stagedKey c key.

Ltac stages_tac := intros c k ps key; unfold stagedKey; simpl; rewrite lookup_insert_is_Some; destruct (decide (k = key)); naive_solver.
Lemma stagesKey_I64 : stagesKey refI64. Proof. stages_tac. Qed.
Lemma stagesKey_F64 : stagesKey refF64. Proof. stages_tac. Qed.
Lemma stagesKey_Bool : stagesKey refBool. Proof. stages_tac. Qed.
Lemma stagesKey_Str : stagesKey refStr. Proof. stages_tac. Qed.

(** ** Restaging *)

Section restage.
Context {bm : Type} `{RoaringSetLaws bm}.
Abbreviation B := (Builder bm (Snapshot bm)).
Implicit Types (b : B) (g : Snapshot bm).
Context (n : Z) (K : gset Z) (it : Interner) (ver : option gostring).
Hypothesis HK : ∀ x, x ∈ K → 0 ≤ x < n.

(** A builder in the middle of a thaw: [m] relationships and the keys [nk] and
    [rk] staged so far, within the id space, nothing removed and nothing marked. *)
Record restaging (m : Z) (nk rk : Z → Prop) b : Prop := {
  rg_out : len (degOut b) = n;
  rg_in : len (degIn b) = n;
  rg_labels : len (nodeLabels b) = n;
  rg_known : known b ⊆ K;
  rg_rels : len (rels b) = m;
  rg_nodeCols : ∀ key, stagedKey (nodeCols b) key ↔ nk key;
  rg_relCols : ∀ key, stagedKey (relCols b) key ↔ rk key;
  rg_interner : interner b = it;
  rg_version : Builder.version b = ver;
  rg_removed : removedRels b = None ∧ removedNodes b = ∅;
  rg_src : src b = None ∧ relIndex b = None;
  rg_dirty : dirtyNodeCols b = ∅ ∧ dirtyRelCols b = ∅ ∧ dirtyLabels b = ∅ ∧ relsDirty b = false;
}.

Lemma restaging_ext m nk rk nk' rk' b : (∀ k, nk k ↔ nk' k) → (∀ k, rk k ↔ rk' k) → restaging m nk rk b → restaging m nk' rk' b.
Proof using. intros En Er []. split; try done; intros key; rewrite <- ?En, <- ?Er; auto. Qed.

Lemma known_add b x : x ∈ K → known b ⊆ K → bmSet (bmAdd (knownNodes b) x) ⊆ K.
Proof using n HK. intros Hx Hk. rewrite bm_add. unfold known in Hk. set_solver. Qed.

Lemma thawLabel_ok m nk rk b l x : restaging m nk rk b → x ∈ K → ∃ b', thawLabel l b x = Ok b' ∧ restaging m nk rk b'.
Proof using HK.
  intros Hb Hx. pose proof (HK x Hx) as Hr. unfold thawLabel. destruct (idx_ok (nodeLabels b) x) as (ls & -> & _); [by rewrite (rg_labels _ _ _ _ Hb)|].
  cbn [mbind res_bind]. rewrite upd_ok by (by rewrite (rg_labels _ _ _ _ Hb)). cbn [mbind res_bind]. eexists. split; [done|].
  destruct Hb. split; try done; cbn; [by rewrite len_insert|]. unfold known. cbn. by apply known_add.
Qed.

Lemma thawLabels_ok m nk rk b g : restaging m nk rk b → (∀ l s x, labelIndex g !! l = Some s → x ∈ elems s → x ∈ K) →
  ∃ b', thawLabels b g = Ok b' ∧ restaging m nk rk b'.
Proof using HK.
  intros Hb Hl. unfold thawLabels. match goal with |- context [foldM ?f ?l b] => destruct (foldM_inv (λ _, restaging m nk rk) f l b) as (b' & -> & Hb') end; [done| |eauto].
  intros k l b1 _ Hb1. destruct (labelIndex g !! l) as [s|] eqn:Es; [|eauto].
  destruct (foldM_inv (λ _, restaging m nk rk) (thawLabel l) (ToSlice s) b1) as (b' & -> & Hb'); [done| |eauto].
  intros i x b2 Hx Hb2. apply thawLabel_ok; [done|]. apply (Hl l s x Es). apply (proj2 (bm_toArray (sbm s))). by eapply list_elem_of_lookup_2.
Qed.

Lemma bind_run {A C} (m : M (bm := bm) (Snap := Snapshot bm) A) (f : A → M C) b a b' : m b = Ok (inl a, b') → (m ≫= f) b = f a b'.
Proof using. intros E. unfold mbind, M_bind, mbind, res_bind. by rewrite E. Qed.

Lemma ensureCapacity_noop (b : B) x : x < len (degOut b) → ensureCapacity x b = Ok (inl tt, b).
Proof using. intros Hx. unfold ensureCapacity, get, mbind, M_bind. cbn. by rewrite decide_True. Qed.

Lemma addRelTyped_restage m nk rk b u v t : restaging m nk rk b → u ∈ K → v ∈ K → m < MaxUint32 →
  ∃ b', thawMust (addRelTyped u v t) b = Ok (m, b') ∧ restaging (m + 1) nk rk b'.
Proof using HK.
  intros Hb Hu Hv Hm. pose proof (HK u Hu). pose proof (HK v Hv). unfold thawMust, addRelTyped.
  destruct (rg_src _ _ _ _ Hb) as [Hsrc Hix]. pose proof (rg_rels _ _ _ _ Hb) as Hrels.
  destruct (bump_ok (degOut b) u 1) as (dO & EO & LO); [rewrite (rg_out _ _ _ _ Hb); lia|].
  destruct (bump_ok (degIn b) v 1) as (dI & EI & LI); [rewrite (rg_in _ _ _ _ Hb); lia|].
  unfold mbind, M_bind, get, markRelsDirty, hasSrc, modify, lift, mret, M_ret, addKnown, mbind, res_bind.
  rewrite ensureCapacity_noop by (rewrite (rg_out _ _ _ _ Hb); lia). rewrite decide_False by lia. rewrite Hsrc, EO, EI, Hix.
  rewrite Hrels. eexists. split; [done|]. destruct Hb. split; try done; cbn; try (unfold len in *; lia).
  - unfold known. cbn. rewrite !bm_add. unfold known in *. set_solver.
  - rewrite len_app. change (len [(u, v)]) with 1. lia.
Qed.

Lemma thawRels_ok nk rk b g rels ts : holdsRels g n rels ts → len rels < MaxUint32 → Forall (λ r, r.1 ∈ K ∧ r.2 ∈ K) rels → restaging 0 nk rk b →
  ∃ ots b', thawRels b g = Ok (ots, b') ∧ len ots = len rels ∧ Forall (λ x, 0 ≤ x < len rels) ots ∧ restaging (len rels) nk rk b'.
Proof using HK.
  intros Hh Hmax Hends Hb. unfold thawRels. destruct (holdsRels_order g n rels ts Hh) as (order & -> & Hso). cbn [mbind res_bind].
  destruct Hh as [Hn Hm Hts He Htr Ho Hi Wo Wi _]. destruct (ownersFromOffsets_ok n rels ts Hn Hm Hts He 0 _ _ _ Ho) as (so & -> & _ & Hsrc). cbn [mbind res_bind].
  pose proof (restaged_perm n rels ts Hn Hm Hts He order Hso) as HP. apply Permutation_length in HP. unfold restagedRels in HP. rewrite length_fmap in HP.
  pose (P := λ (k : nat) (st : list Z * B), len st.1 = len rels ∧ Forall (λ x, 0 ≤ x < Z.max 1 (len rels)) st.1 ∧ restaging (Z.of_nat k) nk rk st.2).
  destruct (foldM_inv P (thawRel g so) order (replicate (length order) 0, b)) as ([ots b'] & -> & Hl & HF & Hb').
  - split; [cbn [fst]; rewrite len_replicate; unfold len; by rewrite HP|]. split; [|done]. apply Forall_replicate. lia.
  - intros k p [ots b1] Hp (Hl & HF & Hb1). cbn [fst snd] in *. apply lookup_lt_Some in Hp as Hk. apply list_elem_of_lookup_2, (so_elem _ _ _ Hso) in Hp.
    unfold thawRel. rewrite (idx_lookup so p _ (proj1 Hp) (Hsrc p Hp)). cbn [mbind res_bind].
    destruct (direction_at n rels ts Hn Hm Hts He 0 _ _ _ Ho p Hp) as (r & t & Hr & Ht & E1 & E2 & _). rewrite (idx_lookup _ p _ (proj1 Hp) E1). cbn [mbind res_bind].
    rewrite (At_typesOf _ p t) by (done || lia). cbn [mbind res_bind]. rewrite (list_lookup_total_correct _ _ _ Hr).
    destruct (Forall_lookup_1 _ _ _ _ Hends Hr) as [Hu Hv]. change (ownerOf 0 r) with r.1. change (otherOf 0 r) with r.2. cbn [fst snd].
    destruct (addRelTyped_restage (Z.of_nat k) nk rk b1 r.1 r.2 t Hb1 Hu Hv) as (b2 & E & Hb2); [unfold len in *; lia|].
    rewrite E. cbn [mbind res_bind]. rewrite upd_ok by lia. cbn [mbind res_bind]. eexists. split; [done|]. split; cbn [fst snd].
    + by rewrite len_insert.
    + split; [|by replace (Z.of_nat (S k)) with (Z.of_nat k + 1) by lia]. apply Forall_insert; [done|]. rewrite wrapU_small by (unfold len in *; lia). unfold len in *. lia.
  - exists ots, b'. cbn [fst snd] in *. split; [done|]. split; [done|]. replace (Z.of_nat (length order)) with (len rels) in Hb' by (unfold len; lia). split; [|done].
    destruct ots as [|x ots]; [constructor|]. eapply Forall_impl; [exact HF|]. simpl. rewrite len_cons in Hl. pose proof (len_nonneg ots). lia.
Qed.

Lemma invertPositions_len l : Forall (λ x, 0 ≤ x < len l) l → ∃ a, invertPositions l = Ok a ∧ len a = len l.
Proof using.
  intros HF. unfold invertPositions. destruct (foldM_inv (λ _ (a : list Z), len a = len l) (λ relToOut '(outPos, i), upd relToOut i (to_u32 outPos)) (enum l)
    (replicate (length l) 0)) as (a & E & Ha); [by rewrite len_replicate| |eauto].
  intros k [i x] a [-> Hx]%lookup_enum Ha. pose proof (Forall_lookup_1 _ _ _ _ HF Hx) as Hr. simpl in Hr. rewrite upd_ok by lia. eexists. split; [done|]. by rewrite len_insert.
Qed.

(** ** Columns *)

Lemma setNodePairs_ok {A} (ref : colRef A) m nk rk b key (pairs : list (Z * A)) : stagesKey ref → restaging m nk rk b → pairs ≠ [] → Forall (λ p, p.1 ∈ K) pairs →
  ∃ b', thawMust (setNodeColumnPairs ref key pairs) b = Ok (tt, b') ∧ restaging m (λ k, k = key ∨ nk k) rk b' ∧ known b' = list_to_set pairs.*1 ∪ known b.
Proof using HK.
  intros Href Hb Hne HF. unfold thawMust, setNodeColumnPairs. rewrite decide_False by (destruct pairs; [done|]; rewrite len_cons; pose proof (len_nonneg pairs); lia).
  assert (∀ (l : list (Z * A)) b, restaging m nk rk b → Forall (λ p, p.1 ∈ K) l → ∃ b', forM l (λ p : Z * A, ensureCapacity p.1;; addKnown p.1) b = Ok (inl (), b') ∧ restaging m nk rk b' ∧ known b' = list_to_set l.*1 ∪ known b) as Hloop.
  { clear -HK. intros l. induction l as [|p l IH]; intros b Hb HF; [exists b; split_and!; [done..|set_solver]|]. apply Forall_cons in HF as [Hp HF]. pose proof (HK _ Hp).
    cbn [forM]. unfold mbind, M_bind, mbind, res_bind. rewrite ensureCapacity_noop by (rewrite (rg_out _ _ _ _ Hb); lia). unfold addKnown, modify.
    destruct (IH (set_knownNodes (bmAdd (knownNodes b) p.1) b)) as (b' & E & Hb' & Ek); [|done|].
    { destruct Hb. split; try done. unfold known. cbn. by apply known_add. }
    exists b'. split; [exact E|]. split; [done|]. rewrite Ek. unfold known. cbn. rewrite bm_add. set_solver. }
  destruct (Hloop pairs b Hb HF) as (b' & E & Hb' & Ek). rewrite (bind_run _ _ _ _ _ E). unfold modify. eexists. split; [done|]. split; [|exact Ek].
  destruct Hb' as [? ? ? ? ? Hnk ? ? ? ? ? ?]. split; try done. intros k. cbn. rewrite (Href _ _ _ _), Hnk. done.
Qed.

Lemma setRelPairs_ok {A} (ref : colRef A) m nk rk b key (pairs : list (Z * A)) : stagesKey ref → restaging m nk rk b → pairs ≠ [] → Forall (λ p, 0 ≤ p.1 < m) pairs →
  ∃ b', thawMust (setRelColumnPairs ref key pairs) b = Ok (tt, b') ∧ restaging m nk (λ k, k = key ∨ rk k) b' ∧ known b' = known b.
Proof using.
  intros Href Hb Hne HF. unfold thawMust, setRelColumnPairs. rewrite decide_False by (destruct pairs; [done|]; rewrite len_cons; pose proof (len_nonneg pairs); lia).
  destruct (rg_removed _ _ _ _ Hb) as [Hr1 Hr2]. pose proof (rg_rels _ _ _ _ Hb) as Hm.
  match goal with |- context [forM pairs ?f] => assert (∀ l, Forall (λ p, 0 ≤ p.1 < m) l → forM l f b = Ok (inl (), b)) as Hloop end.
  { intros l. induction 1 as [|p l Hp HF' IH]; [done|]. cbn [forM]. unfold mbind at 1. unfold M_bind at 1. unfold get, lift, mbind, M_bind, mbind, res_bind. rewrite decide_False by lia.
    unfold relRemoved, relRemovedIn. rewrite Hr1, Hr2. rewrite decide_True by done. cbn. exact IH. }
  rewrite (bind_run _ _ _ _ _ (Hloop pairs HF)). unfold modify. eexists. split; [done|]. split; [|done].
  destruct Hb as [? ? ? ? ? ? Hrk ? ? ? ? ?]. split; try done. intros k. cbn. rewrite (Href _ _ _ _), Hrk. done.
Qed.

(** A column with entries, all at positions of [P]. *)
Definition entriesIn (P : Z → Prop) (col : Column) : Prop := ∃ es, Column_Entries col = Ok es ∧ es ≠ [] ∧ Forall (λ e, P e.1) es.

(** The positions at which a column has an entry. *)
Definition colIds (col : Column) : gset Z := match Column_Entries col with Ok es => list_to_set es.*1 | _ => ∅ end.

Lemma entryPairs_ids {A} (get : Value → A) col pairs : entryPairs get Ok col = Ok pairs → colIds col = list_to_set pairs.*1.
Proof using.
  unfold entryPairs, colIds. destruct (Column_Entries col) as [es|e|]; cbn [mbind res_bind]; [|done..]. intros E. f_equal. revert pairs E.
  induction es as [|e es IH]; intros pairs E; cbn [mapM] in E; [by injection E as <-|]. destruct (mapM _ es) as [ps|?|] eqn:Em; cbn [mbind res_bind] in E; [|done..]. injection E as <-. cbn. by rewrite (IH ps).
Qed.

Lemma entryPairs_ok {A} (get : Value → A) (P Q : Z → Prop) (at_ : Z → res Z) col : entriesIn P col → (∀ x, P x → ∃ y, at_ x = Ok y ∧ Q y) →
  ∃ pairs, entryPairs get at_ col = Ok pairs ∧ pairs ≠ [] ∧ Forall (λ p, Q p.1) pairs.
Proof using.
  intros (es & E & Hne & HF) Hat. unfold entryPairs. rewrite E. cbn [mbind res_bind].
  assert (∃ pairs, mapM (λ e : Z * Value, pos ← at_ e.1; Ok (pos, get e.2)) es = Ok pairs ∧ length pairs = length es ∧ Forall (λ p, Q p.1) pairs) as (ps & -> & Hl & HQ).
  { clear E Hne. induction HF as [|e es He HF IH]; [by exists []|]. destruct IH as (ps & E & Hl & HQ). destruct (Hat _ He) as (y & Ey & Hy).
    exists ((y, get e.2) :: ps). cbn [mapM]. rewrite Ey. cbn [mbind res_bind]. rewrite E. split; [done|]. split; [simpl; lia|by constructor]. }
  exists ps. split; [done|]. split; [|done]. by destruct ps, es.
Qed.

Lemma thawNodeColumn_ok m nk rk b key col : restaging m nk rk b → entriesIn (λ x, x ∈ K) col →
  ∃ b', thawNodeColumn b (key, col) = Ok b' ∧ restaging m (λ k, k = key ∨ nk k) rk b' ∧ known b' = colIds col ∪ known b.
Proof using HK.
  intros Hb Hc. unfold thawNodeColumn.
  assert (∀ {A} (ref : colRef A) (get : Value → A), stagesKey ref → ∃ b',
    (pairs ← entryPairs get Ok col; '(_, b) ← thawMust (setNodeColumnPairs ref key pairs) b; Ok b) = Ok b' ∧ restaging m (λ k, k = key ∨ nk k) rk b' ∧ known b' = colIds col ∪ known b) as Hone.
  { intros A ref get Href. destruct (entryPairs_ok get _ (λ x, x ∈ K) Ok col Hc) as (ps & E & Hne & HF); [eauto|]. rewrite E. cbn [mbind res_bind].
    destruct (setNodePairs_ok ref m nk rk b key ps Href Hb Hne HF) as (b' & -> & Hb' & Ek). cbn [mbind res_bind]. exists b'. split_and!; [done..|]. by rewrite (entryPairs_ids get col ps E). }
  destruct (Column_Dtype col); apply Hone; [apply stagesKey_I64|apply stagesKey_F64|apply stagesKey_Bool|apply stagesKey_Str].
Qed.

Lemma thawRelColumn_ok m ots nk rk b key col : restaging m nk rk b → len ots = m → Forall (λ x, 0 ≤ x < m) ots → entriesIn (λ x, 0 ≤ x < m) col →
  ∃ b', thawRelColumn ots b (key, col) = Ok b' ∧ restaging m nk (λ k, k = key ∨ rk k) b' ∧ known b' = known b.
Proof using.
  intros Hb Hl Hots Hc. unfold thawRelColumn.
  assert (∀ {A} (ref : colRef A) (get : Value → A), stagesKey ref → ∃ b',
    (pairs ← entryPairs get (idx ots) col; '(_, b) ← thawMust (setRelColumnPairs ref key pairs) b; Ok b) = Ok b' ∧ restaging m nk (λ k, k = key ∨ rk k) b' ∧ known b' = known b) as Hone.
  { intros A ref get Href. destruct (entryPairs_ok get _ (λ x, 0 ≤ x < m) (idx ots) col Hc) as (ps & -> & Hne & HF).
    - intros x Hx. destruct (idx_ok ots x) as (y & Ey & Hy); [lia|]. exists y. split; [done|]. exact (Forall_lookup_1 _ _ _ _ Hots Hy).
    - cbn [mbind res_bind]. destruct (setRelPairs_ok ref m nk rk b key ps Href Hb Hne HF) as (b' & -> & Hb' & Ek). cbn [mbind res_bind]. eauto. }
  destruct (Column_Dtype col); apply Hone; [apply stagesKey_I64|apply stagesKey_F64|apply stagesKey_Bool|apply stagesKey_Str].
Qed.

Lemma keys_take (cols : gmap Z Column) k i e : map_to_list cols !! i = Some e → k ∈ (take (S i) (map_to_list cols)).*1 ↔ k = e.1 ∨ k ∈ (take i (map_to_list cols)).*1.
Proof using. intros He. rewrite (take_S_r _ _ _ He), fmap_app, elem_of_app. simpl. rewrite list_elem_of_singleton. tauto. Qed.

Lemma keys_all (cols : gmap Z Column) k : k ∈ (take (length (map_to_list cols)) (map_to_list cols)).*1 ↔ is_Some (cols !! k).
Proof using.
  rewrite take_ge, list_elem_of_fmap by lia. split.
  - intros ([k' c] & -> & Hin%elem_of_map_to_list). eauto.
  - intros [c Hc]. exists (k, c). by rewrite elem_of_map_to_list.
Qed.

Lemma thawNodeColumns_ok m rk b (cols : gmap Z Column) : restaging m (λ _, False) rk b → (∀ k c, cols !! k = Some c → entriesIn (λ x, x ∈ K) c) →
  ∃ b', foldM thawNodeColumn (map_to_list cols) b = Ok b' ∧ restaging m (λ k, is_Some (cols !! k)) rk b' ∧ ∀ k c, cols !! k = Some c → colIds c ⊆ known b'.
Proof using HK.
  intros Hb Hc. pose (P := λ (i : nat) b, restaging m (λ k, k ∈ (take i (map_to_list cols)).*1) rk b ∧ ∀ e, e ∈ take i (map_to_list cols) → colIds e.2 ⊆ known b).
  destruct (foldM_inv P thawNodeColumn (map_to_list cols) b) as (b' & -> & Hb' & Hk').
  - split; [|by intros e ?%not_elem_of_nil]. eapply restaging_ext; [..|exact Hb]; [|done]. intros k. cbn. split; [done|]. by intros ?%not_elem_of_nil.
  - intros i [key col] b1 Hi [Hb1 Hk1]. apply list_elem_of_lookup_2 in Hi as Hin. apply elem_of_map_to_list in Hin.
    destruct (thawNodeColumn_ok m _ rk b1 key col Hb1 (Hc _ _ Hin)) as (b2 & -> & Hb2 & Ek). exists b2. split; [done|]. split.
    + eapply restaging_ext; [..|exact Hb2]; [|done]. intros k. cbn. by rewrite (keys_take cols k i _ Hi).
    + intros e He. rewrite (take_S_r _ _ _ Hi), elem_of_app, list_elem_of_singleton in He. rewrite Ek. destruct He as [He| ->]; [specialize (Hk1 e He); set_solver|set_solver].
  - exists b'. split; [done|]. split.
    + eapply restaging_ext; [..|exact Hb']; [|done]. intros k. cbn. by rewrite keys_all.
    + intros k c E. apply (Hk' (k, c)). rewrite take_ge by lia. by apply elem_of_map_to_list.
Qed.

Lemma thawRelColumns_ok m ots nk b (cols : gmap Z Column) : restaging m nk (λ _, False) b → len ots = m → Forall (λ x, 0 ≤ x < m) ots →
  (∀ k c, cols !! k = Some c → entriesIn (λ x, 0 ≤ x < m) c) →
  ∃ b', foldM (thawRelColumn ots) (map_to_list cols) b = Ok b' ∧ restaging m nk (λ k, is_Some (cols !! k)) b' ∧ known b' = known b.
Proof using.
  intros Hb Hl Hots Hc. pose (P := λ (i : nat) b', restaging m nk (λ k, k ∈ (take i (map_to_list cols)).*1) b' ∧ known b' = known b).
  destruct (foldM_inv P (thawRelColumn ots) (map_to_list cols) b) as (b' & -> & Hb' & Hk').
  - split; [|done]. eapply restaging_ext; [..|exact Hb]; [done|]. intros k. cbn. split; [done|]. by intros ?%not_elem_of_nil.
  - intros i [key col] b1 Hi [Hb1 Hk1]. apply list_elem_of_lookup_2 in Hi as Hin. apply elem_of_map_to_list in Hin.
    destruct (thawRelColumn_ok m ots nk _ b1 key col Hb1 Hl Hots (Hc _ _ Hin)) as (b2 & -> & Hb2 & Ek). exists b2. split; [done|]. split; [|congruence].
    eapply restaging_ext; [..|exact Hb2]; [done|]. intros k. cbn. by rewrite (keys_take cols k i _ Hi).
  - exists b'. split; [done|]. split; [|done]. eapply restaging_ext; [..|exact Hb']; [done|]. intros k. cbn. by rewrite keys_all.
Qed.

End restage.

(** ** The thawed builder *)

Section source.
Context {bm : Type} `{RoaringSetLaws bm}.
Abbreviation B := (Builder bm (Snapshot bm)).
Implicit Types (b : B) (g : Snapshot bm).

(** The ids the node columns of a snapshot have entries at. A dense string column
    has one at every id of the space, also where no node exists. *)
Definition columnIds g : gset Z := ⋃ (colIds <$> (map_to_list (columns g)).*2).

Lemma elem_of_columnIds g x : x ∈ columnIds g ↔ ∃ k c, columns g !! k = Some c ∧ x ∈ colIds c.
Proof.
  unfold columnIds. rewrite elem_of_union_list. setoid_rewrite list_elem_of_fmap. split.
  - intros (X & (c & -> & ([k c'] & -> & Hin%elem_of_map_to_list)%list_elem_of_fmap) & Hx). eauto.
  - intros (k & c & Hc & Hx). exists (colIds c). split; [|done]. exists c. split; [done|]. apply list_elem_of_fmap. exists (k, c). split; [done|]. by apply elem_of_map_to_list.
Qed.

(** A snapshot as [Finalize] leaves it (see [Finalize_source]): both directions
    hold the same relationships, they and the labels belong to existing nodes,
    the id space ends at the largest one, and every column has an entry and none
    past the space. *)
Record wfSource g (n : Z) (rels : list (Z * Z)) (ts : list Z) (s : Set_ bm) : Prop := {
  ws_rels : holdsRels g n rels ts;
  ws_n : 0 < n;
  ws_m : len rels < MaxUint32;
  ws_exist : existence g = Some s;
  ws_in : ∀ x, x ∈ elems s → 0 ≤ x < n;
  ws_max : n - 1 ∈ elems s ∨ n = 1;
  ws_ends : Forall (λ r, r.1 ∈ elems s ∧ r.2 ∈ elems s) rels;
  ws_labels : ∀ l t x, labelIndex g !! l = Some t → x ∈ elems t → x ∈ elems s;
  ws_cols : ∀ k c, columns g !! k = Some c → entriesIn (λ x, 0 ≤ x < n) c;
  ws_relCols : ∀ k c, relColumns g !! k = Some c → entriesIn (λ x, 0 ≤ x < len rels) c;
  ws_atoms : strings (atoms g) ≠ [];
  ws_nodes : nNodes g = Z.of_nat (size (elems s));
  ws_count : nRels g = len rels;
  ws_props : hasRelProps g = bool_decide (relColumns g ≠ ∅);
}.

Lemma wfSource_space g n rels ts s : wfSource g n rels ts s → CSRIDSpace g = n ∧ len (outNbrs g) = len rels.
Proof.
  intros Hs. destruct (ws_rels _ _ _ _ _ Hs) as [Hn _ _ _ _ Ho _ _ _ _]. unfold CSRIDSpace. rewrite (ic_len _ _ _ _ _ _ _ Ho), decide_False by lia.
  rewrite wrapU_small by lia. split; [lia|]. unfold len. by rewrite (ic_nbrs _ _ _ _ _ _ _ Ho).
Qed.

Lemma wfSource_ids g n rels ts s : wfSource g n rels ts s → ∀ x, x ∈ elems s ∪ columnIds g → 0 ≤ x < n.
Proof.
  intros Hs x [Hx|(k & c & Hc & Hx)%elem_of_columnIds]%elem_of_union; [by apply (ws_in _ _ _ _ _ Hs)|]. destruct (ws_cols _ _ _ _ _ Hs k c Hc) as (es & E & _ & HF).
  unfold colIds in Hx. rewrite E, elem_of_list_to_set in Hx. apply list_elem_of_fmap in Hx as (e & -> & He). rewrite Forall_forall in HF. by apply HF.
Qed.

(** What [Finalize] reads of the thawed builder. *)
Record thawed g (n : Z) (m : Z) (s : Set_ bm) b : Prop := {
  td_known : known b = elems s ∪ columnIds g;
  td_rels : len (rels b) = m;
  td_nodeCols : ∀ key, stagedKey (nodeCols b) key ↔ is_Some (columns g !! key);
  td_relCols : ∀ key, stagedKey (relCols b) key ↔ is_Some (relColumns g !! key);
  td_interner : interner b = newInternerFromAtoms (atoms g);
  td_version : Builder.version b = Snapshot.version g;
  td_removed : hasRemovals b = false;
  td_src : src b = Some g;
  td_map : len (srcRelToOutCSR b) = m;
  td_dirty : dirtyNodeCols b = ∅ ∧ dirtyRelCols b = ∅ ∧ dirtyLabels b = ∅ ∧ relsDirty b = false;
}.

Lemma foldl_bmAdd l (k : bm) : bmSet (foldl bmAdd k l) = list_to_set l ∪ bmSet k.
Proof. revert k. induction l as [|x l IH]; intros k; [set_solver|]. cbn [foldl list_to_set]. rewrite IH, bm_add. set_solver. Qed.

Lemma NewBuilderFromSnapshot_ok g n rels ts s : wfSource g n rels ts s → ∃ b, NewBuilderFromSnapshot g = Ok b ∧ thawed g n (len rels) s b.
Proof.
  intros Hs. destruct (wfSource_space g n rels ts s Hs) as [En Em]. pose proof (ws_n _ _ _ _ _ Hs) as Hn. unfold NewBuilderFromSnapshot. rewrite En, Em. set (b0 := set_version _ _).
  pose proof (hr_n _ _ _ _ (ws_rels _ _ _ _ _ Hs)) as Hn2. set (K := elems s ∪ columnIds g). set (it := newInternerFromAtoms (atoms g)).
  pose proof (wfSource_ids _ _ _ _ _ Hs) as HK. fold K in HK.
  assert (restaging n K it (Snapshot.version g) 0 (λ _, False) (λ _, False) b0) as H0'.
  { assert (∀ key, stagedKey noCols key ↔ False) as Hno.
    { intros key. unfold stagedKey, noCols. simpl. rewrite !lookup_empty. split; [|done]. by intros [[? ?]|[[? ?]|[[? ?]|[? ?]]]]. }
    unfold b0, NewBuilder. rewrite decide_False by lia. rewrite Z.max_l by lia.
    split; try done; cbn; rewrite ?len_replicate; try lia. unfold known. cbn. rewrite bm_new. apply empty_subseteq. }
  destruct (thawLabels_ok n K it _ HK 0 _ _ b0 g H0') as (b1 & -> & H1); [intros l t x Ht Hx; apply elem_of_union_l; exact (ws_labels _ _ _ _ _ Hs l t x Ht Hx)|]. cbn [mbind res_bind].
  assert (Forall (λ r, r.1 ∈ K ∧ r.2 ∈ K) rels) as Hends by (eapply Forall_impl; [exact (ws_ends _ _ _ _ _ Hs)|]; intros r [? ?]; split; by apply elem_of_union_l).
  assert (∀ k c, columns g !! k = Some c → entriesIn (λ x, x ∈ K) c) as Hcols.
  { intros k c Hc. destruct (ws_cols _ _ _ _ _ Hs k c Hc) as (es & E & Hne & _). exists es. split; [done|]. split; [done|]. apply Forall_forall. intros e He. apply elem_of_union_r, elem_of_columnIds.
    exists k, c. split; [done|]. unfold colIds. rewrite E, elem_of_list_to_set, list_elem_of_fmap. eauto. }
  destruct (thawRels_ok n K it _ HK _ _ b1 g rels ts (ws_rels _ _ _ _ _ Hs) (ws_m _ _ _ _ _ Hs) Hends H1) as (ots & b2 & -> & Lo & Fo & H2). cbn [mbind res_bind].
  destruct (thawNodeColumns_ok n K it _ HK _ _ b2 (columns g) H2 Hcols) as (b3 & -> & H3 & Hk3). cbn [mbind res_bind].
  destruct (thawRelColumns_ok n K it _ _ ots _ b3 (relColumns g) H3 Lo Fo (ws_relCols _ _ _ _ _ Hs)) as (b4 & -> & H4 & Hk4). cbn [mbind res_bind].
  rewrite (ws_exist _ _ _ _ _ Hs). rewrite <- Lo in Fo. destruct (invertPositions_len ots Fo) as (inv & -> & Li). cbn [mbind res_bind].
  set (b5 := set_knownNodes _ b4). set (b6 := if bmIsEmpty _ then _ else _). eexists. split; [done|].
  assert (known b5 = K) as Hk5.
  { unfold known, b5. cbn. rewrite foldl_bmAdd. pose proof (rg_known _ _ _ _ _ _ _ _ H4) as Hk. unfold known in Hk.
    assert (list_to_set (ToSlice s) = elems s) as -> by (apply set_eq; intros x; rewrite elem_of_list_to_set; apply (proj2 (bm_toArray (sbm s)))).
    assert (columnIds g ⊆ bmSet (knownNodes b4)) as Hin; [|unfold K in *; set_solver]. intros x (k & c & Hc & Hx)%elem_of_columnIds. specialize (Hk3 k c Hc). unfold known in Hk3, Hk4. rewrite Hk4. by apply Hk3. }
  destruct (rg_removed _ _ _ _ _ _ _ _ H4) as [R1 R2].
  assert (∀ b', b' = b6 → known b' = K ∧ len (Builder.rels b') = len rels ∧ nodeCols b' = nodeCols b4 ∧ relCols b' = relCols b4 ∧ interner b' = it ∧
    Builder.version b' = Snapshot.version g ∧ hasRemovals b' = false ∧ dirtyNodeCols b' = dirtyNodeCols b4 ∧ dirtyRelCols b' = dirtyRelCols b4 ∧ dirtyLabels b' = dirtyLabels b4 ∧
    relsDirty b' = relsDirty b4) as Hb6.
  { intros b' ->. unfold b6, hasRemovals. destruct (bmIsEmpty (knownNodes b5)); cbn; rewrite R1, R2; split_and!; try done; try apply H4. }
  destruct (Hb6 b6 eq_refl) as (K1 & K2 & K3 & K4 & K5 & K6 & K7 & K8 & K9 & K10 & K11). destruct H4. split; cbn; try done; try congruence; [by rewrite K3|by rewrite K4].
Qed.

(** ** Refinalizing by sharing *)

(** A family whose keys are all clean stores the source's columns. *)
Definition familyShared {A} (shared : gmap Z Column) (staged : colMap A) (cols cols' : gmap Z Column) : Prop :=
  ∀ k, cols' !! k = if decide (is_Some (staged !! k)) then shared !! k else cols !! k.

Lemma shared_loop {A} (f : gmap Z Column → Z * list (Z * A) → res (gmap Z Column)) (shared : gmap Z Column) (staged : colMap A) cols :
  (∀ k ps cols c, staged !! k = Some ps → shared !! k = Some c → f cols (k, ps) = Ok (<[k := c]> cols)) → (∀ k, is_Some (staged !! k) → is_Some (shared !! k)) →
  ∃ cols', foldM f (map_to_list staged) cols = Ok cols' ∧ familyShared shared staged cols cols'.
Proof.
  intros Hf Hk. destruct (foldM_columns f (λ k c _, shared !! k = Some c) staged cols) as (cols' & E & Hc).
  { intros k ps st Hps. destruct (Hk k) as [c Ec]; [eauto|]. exists c. split; [by apply Hf|done]. }
  exists cols'. split; [done|]. intros k. specialize (Hc k). destruct (staged !! k) as [ps|].
  - destruct Hc as (c & -> & ->). by rewrite decide_True by eauto.
  - rewrite decide_False; [done|]. by intros [? ?].
Qed.

Lemma families_shared shared (c : typedCols) c1 c2 c3 c4 : familyShared shared (colI64 c) ∅ c1 → familyShared shared (colF64 c) c1 c2 →
  familyShared shared (colBool c) c2 c3 → familyShared shared (colStr c) c3 c4 → (∀ k, stagedKey c k ↔ is_Some (shared !! k)) → c4 = shared.
Proof.
  intros F1 F2 F3 F4 Hk. apply map_eq. intros k. rewrite F4, F3, F2, F1, lookup_empty. specialize (Hk k). unfold stagedKey in Hk.
  repeat case_decide; try done. destruct (shared !! k) as [x|]; [|done]. exfalso. assert (is_Some (Some x)) as Hx by eauto. tauto.
Qed.

Lemma idSpace_thawed g n s b rels ts : wfSource g n rels ts s → known b = elems s ∪ columnIds g → idSpace b = n.
Proof.
  intros Hs Hk. unfold idSpace. rewrite bm_isEmpty. fold (known b). rewrite Hk. pose proof (wfSource_ids _ _ _ _ _ Hs) as Hin. pose proof (ws_n _ _ _ _ _ Hs).
  case_bool_decide as E.
  - destruct (ws_max _ _ _ _ _ Hs) as [Hx|]; [|done]. apply (elem_of_union_l _ _ (columnIds g)) in Hx. rewrite E in Hx. by apply not_elem_of_empty in Hx.
  - destruct (bm_maximum (knownNodes b)) as [Hm1 Hm2]; fold (known b) in *; rewrite ?Hk in *; [done|]. pose proof (Hin _ Hm1).
    destruct (ws_max _ _ _ _ _ Hs) as [Hx|]; [|lia]. pose proof (Hm2 _ (elem_of_union_l _ _ (columnIds g) Hx)). lia.
Qed.

(** Both snapshots hold the same graph, up to which ids count as nodes. *)
Record sameContents g g' : Prop := {
  ss_rels : nRels g' = nRels g;
  ss_out : outOffsets g' = outOffsets g ∧ outNbrs g' = outNbrs g ∧ outTypes g' = outTypes g;
  ss_in : inOffsets g' = inOffsets g ∧ inNbrs g' = inNbrs g ∧ inTypes g' = inTypes g;
  ss_ito : hasRelProps g' = hasRelProps g ∧ getInToOut g' = getInToOut g;
  ss_index : labelIndex g' = labelIndex g ∧ typeIndex g' = typeIndex g;
  ss_columns : columns g' = columns g ∧ relColumns g' = relColumns g;
  ss_atoms : atoms g' = atoms g ∧ Snapshot.version g' = Snapshot.version g;
}.

(** Both snapshots answer every read the same way. *)
Record sameSnapshot g g' : Prop := {
  ss_contents : sameContents g g';
  ss_nodes : nNodes g' = nNodes g;
  ss_exists : ∀ x, NodeExists g' x = NodeExists g x;
}.

Lemma getInToOut_total g n rels ts : holdsRels g n rels ts → ∃ ito, getInToOut g = Ok ito.
Proof.
  intros [Hn Hm Hts Hends Htr Ho Hi Wo Wi _]. unfold getInToOut. destruct (hasRelProps g); cbn [negb]; [|eauto]. destruct (inToOut g); [eauto|].
  destruct (computeInToOut_positions n rels ts Hn Hm Hts Hends _ _ _ _ _ _ Ho Hi Wo Wi Htr) as (ito & -> & _). eauto.
Qed.

Lemma Finalize_thawed g n rels ts s b : wfSource g n rels ts s → thawed g n (len rels) s b → ∃ g', Finalize b = Ok g' ∧ sameContents g g' ∧
  nNodes g' = Z.of_nat (size (elems s ∪ columnIds g)) ∧ ∀ x, NodeExists g' x = bool_decide (x ∈ elems s ∪ columnIds g).
Proof.
  intros Hs [T1 T2 T3 T4 T5 T6 T7 T8 T9 (T10 & T11 & T12 & T13)]. destruct (wfSource_space g n rels ts s Hs) as [En Em].
  pose proof (idSpace_thawed g n s b rels ts Hs T1) as Ei. destruct (getInToOut_total g n rels ts (ws_rels _ _ _ _ _ Hs)) as [ito Eito].
  unfold Finalize, compactRemovals. rewrite T7. cbn [negb mbind res_bind]. unfold finalizeStaged. rewrite Ei, T2.
  assert (newAliasPlan b n (len rels) = mkPlan (Some g) true true true) as ->.
  { unfold newAliasPlan. rewrite T8, T13, T9, En, Em, T12. by rewrite !bool_decide_eq_true_2 by done. }
  set (p := mkPlan (Some g) true true true). cbn [p_src p_csr p].
  assert (hasRelColumns (relCols b) = hasRelProps g) as ->.
  { rewrite (ws_props _ _ _ _ _ Hs). apply eq_true_iff_eq. rewrite hasRelColumns_ok, bool_decide_eq_true. setoid_rewrite <- stagedKey_values. setoid_rewrite T4. split.
    - intros (k & c & Hk) E. by rewrite E, lookup_empty in Hk.
    - intros Hne. destruct (map_choose (relColumns g) Hne) as (k & c & Hk). eauto. }
  unfold aliasCSR. assert (∃ o, (if hasRelProps g then shared ← getInToOut g; Ok (Some shared) else Ok None) = Ok o ∧ (hasRelProps g = true → o = Some ito)) as (o & -> & Ho).
  { rewrite Eito. by destruct (hasRelProps g); [exists (Some ito)|exists None]. }
  cbn [mbind res_bind]. unfold finalizeLabels. cbn [p_src p_labels p mbind res_bind].
  assert (∀ {A} (staged : colMap A) cols build, (∀ k, is_Some (staged !! k) → stagedKey (nodeCols b) k) →
    ∃ cols', finalizeNodeColumns p b cols staged n build = Ok cols' ∧ familyShared (columns g) staged cols cols') as HN.
  { intros A staged cols build Hst. apply shared_loop; [|intros k Hk; by apply T3, Hst]. intros k ps st c _ Hc. unfold nodeColumn. cbn [p_src p_idSpace p negb fst].
    by rewrite T10, decide_False, Hc by set_solver. }
  assert (∀ {A} (staged : colMap A) cols map build, (∀ k, is_Some (staged !! k) → stagedKey (relCols b) k) →
    ∃ cols', finalizeRelColumns p b cols staged (len rels) map build = Ok cols' ∧ familyShared (relColumns g) staged cols cols') as HR.
  { intros A staged cols map build Hst. apply shared_loop; [|intros k Hk; by apply T4, Hst]. intros k ps st c _ Hc. unfold relColumn. cbn [p_src p_csr p negb fst].
    by rewrite T11, decide_False, Hc by set_solver. }
  destruct (HN _ (colI64 (nodeCols b)) ∅ columnFromPairsI64) as (c1 & -> & F1); [unfold stagedKey; tauto|]. cbn [mbind res_bind].
  destruct (HN _ (colF64 (nodeCols b)) c1 columnFromPairsF64) as (c2 & -> & F2); [unfold stagedKey; tauto|]. cbn [mbind res_bind].
  destruct (HN _ (colBool (nodeCols b)) c2 columnFromPairsBool) as (c3 & -> & F3); [unfold stagedKey; tauto|]. cbn [mbind res_bind].
  destruct (HN _ (colStr (nodeCols b)) c3 columnFromPairsStr) as (c4 & -> & F4); [unfold stagedKey; tauto|]. cbn [mbind res_bind t_relToOutCSR].
  destruct (HR _ (colI64 (relCols b)) ∅ (srcRelToOutCSR b) columnFromPairsI64) as (d1 & -> & G1); [unfold stagedKey; tauto|]. cbn [mbind res_bind].
  destruct (HR _ (colF64 (relCols b)) d1 (srcRelToOutCSR b) columnFromPairsF64) as (d2 & -> & G2); [unfold stagedKey; tauto|]. cbn [mbind res_bind].
  destruct (HR _ (colBool (relCols b)) d2 (srcRelToOutCSR b) columnFromPairsBool) as (d3 & -> & G3); [unfold stagedKey; tauto|]. cbn [mbind res_bind].
  destruct (HR _ (colStr (relCols b)) d3 (srcRelToOutCSR b) columnFromPairsStr) as (d4 & -> & G4); [unfold stagedKey; tauto|]. cbn [mbind res_bind].
  rewrite (families_shared _ _ _ _ _ _ F1 F2 F3 F4 T3), (families_shared _ _ _ _ _ _ G1 G2 G3 G4 T4). eexists. split; [done|].
  pose proof (wfSource_ids _ _ _ _ _ Hs) as Hin. destruct (hr_n _ _ _ _ (ws_rels _ _ _ _ _ Hs)) as [_ Hn2]. pose proof (ws_m _ _ _ _ _ Hs) as Hm2. split_and!; cbn; try done.
  2: { rewrite bm_card. fold (known b). rewrite T1. apply wrapU_small.
    pose proof (interval_size_le (elems s ∪ columnIds g) 0 n) as Hsz. pose proof (ws_n _ _ _ _ _ Hs). split; [lia|]. assert (Z.of_nat (size (elems s ∪ columnIds g)) ≤ n); [|lia].
    apply Hsz; [lia|]. intros x Hx. specialize (Hin x Hx). lia. }
  2: { intros x. unfold NodeExists. cbn. unfold Contains, FromBitmap. cbn. rewrite bm_contains. fold (known b). by rewrite T1. }
  split; cbn; try done.
  - rewrite (ws_count _ _ _ _ _ Hs). apply wrapU_small. pose proof (len_nonneg rels). lia.
  - split; [done|]. unfold getInToOut at 1. cbn. destruct (hasRelProps g) eqn:Eh; cbn [negb].
    + by rewrite (Ho eq_refl).
    + unfold getInToOut. by rewrite Eh.
  - split; [|done]. unfold aliasAtoms. cbn [p_src p]. rewrite T5. rewrite decide_True; [done|]. unfold Interner_Len, newInternerFromAtoms, AtomTable.Len. cbn.
    pose proof (ws_atoms _ _ _ _ _ Hs). rewrite decide_False; [done|]. destruct (strings (atoms g)) as [|str strs]; [done|]. rewrite len_cons. pose proof (len_nonneg strs). lia.
Qed.

(** With every entry at an existing node, nothing changes. *)
Lemma sameContents_all g g' n rels ts s : wfSource g n rels ts s → sameContents g g' → columnIds g ⊆ elems s →
  nNodes g' = Z.of_nat (size (elems s ∪ columnIds g)) → (∀ x, NodeExists g' x = bool_decide (x ∈ elems s ∪ columnIds g)) → sameSnapshot g g'.
Proof.
  intros Hs Hc Hin En Ex. assert (elems s ∪ columnIds g = elems s) as E by set_solver. rewrite E in *. split; [done|by rewrite En, (ws_nodes _ _ _ _ _ Hs)|].
  intros x. rewrite Ex. unfold NodeExists. rewrite (ws_exist _ _ _ _ _ Hs). unfold Contains. by rewrite bm_contains.
Qed.

End source.

(** ** What [Finalize] returns can be thawed *)

(** A column built from staged pairs: its entries are in the span, and those of
    another kind than strings only where a value was staged. *)
Definition columnFrom (span : Z) (ids : Z → Prop) (c : Column) : Prop :=
  entriesIn (λ x, 0 ≤ x < span) c ∧ (Column_Dtype c = DtypeStr ∨ ∀ x, x ∈ colIds c → ids x).

Definition buildsFrom {A} (P : Z * A → Prop) (build : list (Z * A) → Z → res Column) : Prop :=
  ∀ pairs span c, 0 ≤ span < 4294967296 → pairs ≠ [] → inSpan span pairs → Forall P pairs → build pairs span = Ok c → columnFrom span (λ x, x ∈ pairs.*1) c.

Lemma stores_from {A} (mk : A → Value) (pairs : list (Z * A)) span c : pairs ≠ [] → inSpan span pairs → stores c (mk <$> written pairs) → columnFrom span (λ x, x ∈ pairs.*1) c.
Proof.
  intros Hne HF (l & Hr & El). pose proof (rp_entries _ _ Hr) as Ee. assert (NoDup l.*1) as Hnd by (apply sorted_NoDup, (rp_sorted _ _ Hr)).
  assert (∀ x, x ∈ l.*1 ↔ x ∈ pairs.*1) as Hdom.
  { intros x. transitivity (is_Some ((list_to_map l : gmap Z Value) !! x)); [|rewrite El, lookup_fmap, <- (written_dom pairs); apply fmap_is_Some].
    rewrite <- not_eq_None_Some. split; [intros Hx E; by apply (proj2 (not_elem_of_list_to_map l x)) in E|]. intros Hx. destruct (decide (x ∈ l.*1)) as [|D]; [done|]. by apply (proj1 (not_elem_of_list_to_map l x)) in D. }
  unfold inSpan in HF. rewrite Forall_forall in HF. split.
  - exists l. split; [done|]. split.
    + intros ->. destruct pairs as [|p ps]; [done|]. assert (p.1 ∈ ([] : list (Z * Value)).*1) as Hp%not_elem_of_nil by (apply Hdom; by left). done.
    + apply Forall_forall. intros e He. assert (e.1 ∈ pairs.*1) as (p & -> & Hp)%list_elem_of_fmap by (apply Hdom, list_elem_of_fmap; eauto). by apply HF.
  - right. intros x. unfold colIds. by rewrite Ee, elem_of_list_to_set, Hdom.
Qed.

Lemma I64_from : buildsFrom (λ p, is_i64 p.2) columnFromPairsI64.
Proof. intros pairs span c Hs Hne HF HP E. destruct (columnFromPairsI64_ok pairs span Hs HF HP) as (c' & E' & Hc & _). assert (c' = c) as -> by congruence. by eapply stores_from. Qed.
Lemma F64_from : buildsFrom (λ _, True) columnFromPairsF64.
Proof. intros pairs span c Hs Hne HF _ E. destruct (columnFromPairsF64_ok pairs span Hs HF) as (c' & E' & Hc & _). assert (c' = c) as -> by congruence. by eapply stores_from. Qed.
Lemma Bool_from : buildsFrom (λ _, True) columnFromPairsBool.
Proof. intros pairs span c Hs Hne HF _ E. destruct (columnFromPairsBool_ok pairs span Hs HF) as (c' & E' & Hc & _). assert (c' = c) as -> by congruence. by eapply stores_from. Qed.
Lemma Str_from : buildsFrom (λ _, True) columnFromPairsStr.
Proof.
  intros pairs span c Hs Hne HF _ E. destruct (columnFromPairsStr_ok pairs span Hs HF) as (c' & E' & Hd & Hc). assert (c' = c) as -> by congruence.
  destruct Hc as [Hc|(col & Hr & Hl & _)]; [by eapply stores_from|]. split; [|by left]. eexists. split; [apply (rp_entries _ _ Hr)|].
  assert (0 < span) by (destruct pairs as [|p ps]; [done|]; apply Forall_cons in HF as [Hp _]; lia). split.
  - intros X. apply (f_equal length) in X. rewrite length_enum, length_fmap in X. simpl in X. unfold len in Hl. lia.
  - apply Forall_forall. intros [i v] [Hi Hv]%elem_of_enum. apply lookup_lt_Some in Hv. rewrite length_fmap in Hv. unfold len in Hl. simpl. lia.
Qed.

Section built.
Context {bm : Type} `{RoaringSetLaws bm}.
Context (b : Builder bm (Snapshot bm)) (p : aliasPlan (bm := bm)) (Hp : p_src p = None).

Definition colsFrom (span : Z) (ids : Z → Prop) (cols : gmap Z Column) : Prop := ∀ k c, cols !! k = Some c → columnFrom span ids c.

Lemma columnFrom_mono span (ids ids' : Z → Prop) c : (∀ x, ids x → ids' x) → columnFrom span ids c → columnFrom span ids' c.
Proof using. intros Hi [He [Hd|Hc]]; (split; [done|]); [by left|right; auto]. Qed.

Lemma colsFrom_insert span ids cols k c : colsFrom span ids cols → columnFrom span ids c → colsFrom span ids (<[k := c]> cols).
Proof using. intros Hc Hk k' c' [[_ <-]|[_ E]]%lookup_insert_Some; [done|]. by eapply Hc. Qed.

Lemma nodeColumns_from {A} (P : Z * A → Prop) build cols staged span (ids : Z → Prop) cols' : buildsFrom P build → 0 ≤ span < 4294967296 → (∀ x, ids x → 0 ≤ x < span) →
  pairsOK (λ q, ids q.1 ∧ P q) staged → colsFrom span ids cols → finalizeNodeColumns p b cols staged span build = Ok cols' → colsFrom span ids cols'.
Proof using Hp.
  intros Hb Hs Hids Hst Hc E. unfold finalizeNodeColumns in E. eapply (foldM_keeps (colsFrom span ids)); [|exact Hc|exact E]. intros [k ps] st st' Hk%elem_of_map_to_list Hst' E1. cbn [fst snd] in E1.
  unfold nodeColumn in E1. rewrite Hp in E1. apply res_bind_Ok in E1 as (c & Ec & E1). injection E1 as <-. destruct (Hst k ps Hk) as [Hne HF]. apply colsFrom_insert; [done|].
  rewrite Forall_forall in HF. apply (columnFrom_mono _ (λ x, x ∈ ps.*1)); [intros x (q & -> & Hq)%list_elem_of_fmap; by apply HF|].
  eapply Hb; [done|done| | |exact Ec]; apply Forall_forall; intros q Hq; [apply Hids|]; by apply HF.
Qed.

Lemma relColumns_from {A} (P : Z * A → Prop) build cols staged (m : Z) relToOut cols' : (∀ i j a, P (i, a) → P (j, a)) → buildsFrom P build → 0 ≤ m < 4294967296 →
  (∀ j, 0 ≤ j < m → ∃ q, idx relToOut j = Ok q ∧ 0 ≤ q < m) →
  pairsOK (λ q, 0 ≤ q.1 < m ∧ P q) staged → colsFrom m (λ _, True) cols → finalizeRelColumns p b cols staged m relToOut build = Ok cols' → colsFrom m (λ _, True) cols'.
Proof using Hp.
  intros HPP Hb Hs Hmap Hst Hc E. unfold finalizeRelColumns in E. eapply (foldM_keeps (colsFrom m (λ _, True))); [|exact Hc|exact E]. intros [k ps] st st' Hk%elem_of_map_to_list Hst' E1. cbn [fst snd] in E1.
  unfold relColumn in E1. rewrite Hp in E1. apply res_bind_Ok in E1 as (out & Eo & E1). apply res_bind_Ok in E1 as (c & Ec & E1). injection E1 as <-.
  destruct (Hst k ps Hk) as [Hne HF]. apply colsFrom_insert; [done|]. apply (columnFrom_mono _ (λ x, x ∈ out.*1)); [done|].
  apply mapM_Ok in Eo. assert (Forall (λ q, 0 ≤ q.1 < m ∧ P q) out) as HFo.
  { clear -Eo HF Hmap HPP. induction Eo as [|[i a] r ps out Eq Eo IH]; [constructor|]. apply Forall_cons in HF as [[Hq HPq] HF]. constructor; [|auto].
    destruct (Hmap i Hq) as (x & E & Hx). cbn [fst snd] in Eq. rewrite E in Eq. cbn [mbind res_bind] in Eq. injection Eq as <-. simpl. split; [done|]. by eapply HPP. }
  eapply Hb; [done| | | |exact Ec]; [by intros ->; destruct ps; [|inversion Eo]|eapply Forall_impl; [exact HFo|]; naive_solver..].
Qed.
End built.

Section fresh.
Context {bm : Type} `{RoaringSetLaws bm}.
Implicit Types (b : Builder bm (Snapshot bm)) (g : Snapshot bm).

(** The snapshot of a compacted staging state. *)
Lemma finalizeStaged_source b g : wf_builder b → tombs b = ∅ → removedNodes b = ∅ → Forall (λ t, 0 ≤ t < MaxUint32) (relTypes b) → src b = None → len (rels b) < 2147483648 →
  istrings (interner b) ≠ [] → finalizeStaged b = Ok g → finalized b (rels b) (relTypes b) (relCols b) g →
  wfSource g (idSpace b) (rels b) (relTypes b) (FromBitmap (knownNodes b)) ∧ colsFrom (idSpace b) (λ x, x ∈ known b) (columns g).
Proof using.
  intros Hw Htombs Hmarks Htypes Hsrc Hm Hstr E Hfin. destruct (space_facts b Hw) as (Hn & Hm' & Hts). pose proof (rels_inSpace b Hw Htombs Hmarks) as Hends. pose proof (len_nonneg (rels b)) as Hm0.
  destruct (idSpace_ok b Hw) as [Hn0 Hk]. unfold finalizeStaged in E. set (p := newAliasPlan b (idSpace b) (len (rels b))) in E. assert (p_src p = None) as Hp by (unfold p, newAliasPlan; by rewrite Hsrc). rewrite Hp in E.
  destruct (buildCSR_ok b Hw Htombs Hmarks Htypes) as (top & Et & Ht). rewrite Et in E. cbn [mbind res_bind] in E. cbn zeta in E. steps E.
  assert (∀ j, 0 ≤ j < len (rels b) → ∃ q, idx (t_relToOutCSR top) j = Ok q ∧ 0 ≤ q < len (rels b)) as Hmap.
  { intros j Hj. destruct (outSlot_facts b Hw Htombs Hmarks j Hj) as (r & Hr & Es & Hs & _). exists (outSlot (rels b) j). split; [|done]. apply idx_lookup; [lia|]. rewrite Es. by apply (it_map _ _ Ht). }
  destruct (wb_nodeCols _ Hw) as [N1 N2 N3 N4]. destruct (wb_relCols _ Hw) as [R1 R2 R3 R4].
  assert (colsFrom (idSpace b) (λ x, x ∈ known b) x3) as Hcols.
  { eapply (nodeColumns_from b p Hp (λ _, True) _ x2); [exact Str_from|done|exact Hk|eapply pairsOK_impl; [|exact N4]; done| |exact E4].
    eapply (nodeColumns_from b p Hp (λ _, True) _ x1); [exact Bool_from|done|exact Hk|eapply pairsOK_impl; [|exact N3]; done| |exact E3].
    eapply (nodeColumns_from b p Hp (λ _, True) _ x0); [exact F64_from|done|exact Hk|eapply pairsOK_impl; [|exact N2]; done| |exact E2].
    eapply (nodeColumns_from b p Hp _ _ ∅); [exact I64_from|done|exact Hk|exact N1| |exact E1]. by intros k c Hc. }
  assert (colsFrom (len (rels b)) (λ _, True) x7) as Hrcols.
  { assert (0 ≤ len (rels b) < 4294967296) as Hspan by lia.
    eapply (relColumns_from b p Hp (λ _, True) _ x6); [done|exact Str_from|done|exact Hmap|eapply pairsOK_impl; [|exact R4]; done| |exact E8].
    eapply (relColumns_from b p Hp (λ _, True) _ x5); [done|exact Bool_from|done|exact Hmap|eapply pairsOK_impl; [|exact R3]; done| |exact E7].
    eapply (relColumns_from b p Hp (λ _, True) _ x4); [done|exact F64_from|done|exact Hmap|eapply pairsOK_impl; [|exact R2]; done| |exact E6].
    eapply (relColumns_from b p Hp _ _ ∅); [|exact I64_from|done|exact Hmap|exact R1| |exact E5]; [done|]. by intros k c Hc. }
  split; [|exact Hcols]. split; try done.
  - split; cbn; try done; apply Ht || (destruct Ht; done) || idtac. unfold thawInToOut. cbn. by rewrite (it_lazy _ _ Ht).
  - lia.
  - lia.
  - destruct (decide (known b = ∅)) as [Ek|Ek]; [right|left]; unfold idSpace; rewrite bm_isEmpty; unfold known in Ek.
    + by rewrite bool_decide_eq_true_2.
    + rewrite bool_decide_eq_false_2 by done. destruct (bm_maximum _ Ek) as [Hin _]. unfold elems. cbn. by replace (bmMaximum (knownNodes b) + 1 - 1) with (bmMaximum (knownNodes b)) by lia.
  - apply Forall_lookup. intros i r Hr. destruct (ro_live _ _ _ _ _ _ (wb_rels _ Hw) (Z.of_nat i) r) as [? ?]; [lia|by rewrite Nat2Z.id| |done].
    rewrite Htombs, Hmarks. unfold dead, belowMark. by rewrite !lookup_empty, bool_decide_eq_false_2 by apply not_elem_of_empty.
  - cbn. intros l t y Hl Hy. assert (indexed x l y) as Hi by (exists t; split; [done|]; unfold Contains; rewrite bm_contains; by apply bool_decide_eq_true).
    apply (fz_labels _ _ _ _ _ Hfin l y) in Hi as [Hy0 (ls & Hls & Hin)]. change (y ∈ known b). rewrite <- (Z2Nat.id y Hy0). apply (wb_labels _ Hw _ ls Hls). intros ->. by apply not_elem_of_nil in Hin.
  - intros k c Hc. apply (Hcols k c Hc).
  - intros k c Hc. apply (Hrcols k c Hc).
  - by rewrite (fz_atoms _ _ _ _ _ Hfin).
  - exact (fz_nodes _ _ _ _ _ Hfin).
  - exact (fz_rels _ _ _ _ _ Hfin).
  - apply eq_true_iff_eq. rewrite bool_decide_eq_true. rewrite (proj2 (fz_lazy _ _ _ _ _ Hfin)). pose proof (fz_relColumns _ _ _ _ _ Hfin) as Hc. split.
    + intros (k & m & Hkm) E'. specialize (Hc k). rewrite Hkm in Hc. destruct Hc as (c & Ec & _). by rewrite E', lookup_empty in Ec.
    + intros (k & c & Hkc)%map_choose. exists k. specialize (Hc k). destruct (stagedValues (relCols b) k); [eauto|congruence].
Qed.

(** The snapshot of a fresh builder, removals compacted away. *)
Lemma Finalize_source b : wf_builder b → src b = None → len (rels b) < 2147483648 → Forall (λ t, 0 ≤ t < MaxUint32) (relTypes b) → istrings (interner b) ≠ [] →
  ∃ g n, Finalize b = Ok g ∧ wfSource g n (liveRels b) (liveTypes b) (FromBitmap (knownNodes b)) ∧ colsFrom n (λ x, x ∈ known b) (columns g).
Proof using.
  intros Hw Hsrc Hm Ht Hstr. destruct (compactRemovals_ok b Hw Hm) as (b' & E & [C1 C2 C3 C4 C5 C6 C7]). destruct C6 as (_ & _ & Ei & _ & _ & Ek & _ & Es & _).
  assert (Forall (λ t, 0 ≤ t < MaxUint32) (relTypes b')) as Ht' by (rewrite C2; by apply liveTypes_range). assert (src b' = None) as Hsrc' by congruence.
  assert (len (rels b') < 2147483648) as Hm'.
  { rewrite C1. unfold liveRels, liveIdx. rewrite len_fmap. eapply Z.le_lt_trans; [|exact Hm]. apply (newIndex_le (tombs b) (removedNodes b) (rels b)), len_nonneg. }
  destruct (finalizeStaged_ok b' C7 C4 C5 Ht' Hsrc') as (g & Eg & Hg). exists g, (idSpace b'). split; [unfold Finalize; by rewrite E|].
  destruct (finalizeStaged_source b' g C7 C4 C5 Ht' Hsrc' Hm') as [Hs Hc]; [by rewrite Ei|done|done|]. unfold known in *. rewrite Ek, C1, C2 in Hs. rewrite Ek in Hc. done.
Qed.
End fresh.

(** ** Properties *)

(** Any snapshot that can be thawed, also one that was thawed or read before. *)
Lemma thaw_finalize {bm} `{RoaringSetLaws bm} (g : Snapshot bm) n rels ts s : wfSource g n rels ts s →
  ∃ b g', NewBuilderFromSnapshot g = Ok b ∧ Finalize b = Ok g' ∧ sameContents g g' ∧ nNodes g' = Z.of_nat (size (elems s ∪ columnIds g)) ∧
    ∀ x, NodeExists g' x = bool_decide (x ∈ elems s ∪ columnIds g).
Proof.
  intros Hs. destruct (NewBuilderFromSnapshot_ok g n rels ts s Hs) as (b & E & Hb). destruct (Finalize_thawed g n rels ts s b Hs Hb) as (g' & E' & Hg).
  by exists b, g'.
Qed.


(** A string on four of five ids: stored densely, and the fifth id becomes a node
    in the round trip. *)
Definition denseOps : list bop := (λ x, OpSetProp x strK (AString strK)) <$> [0; 1; 2; 4].
Definition denseBuilder : Builder (gset Z) (Snapshot (gset Z)) := match runOps denseOps (NewBuilder 8 8) with Ok b => b | _ => NewBuilder 8 8 end.


(** The arrays of [pairSnap] with labels, a node column and a relationship column. *)
Definition roundSnap : Snapshot (gset Z) :=
  mkSnapshot 3 5 (outOffsets pairSnap) (outNbrs pairSnap) (outTypes pairSnap) (inOffsets pairSnap) (inNbrs pairSnap) (inTypes pairSnap) None true
    {[1 := mkSet {[0; 2]}]} {[5 := mkSet {[0; 1]}; 6 := mkSet {[2; 4]}; 7 := mkSet {[3]}]} None
    {[4 := sparseI64Col [0; 2] [7; 9]]} {[3 := sparseStrCol [1] [0]]} 0 (Some (mkSet {[0; 1; 2]})) (NewAtoms [[]]).

Lemma roundSnap_wf : wfSource roundSnap 3 pairRels [5; 6; 7; 5; 6] (mkSet {[0; 1; 2]}).
Proof.
  split; try done.
  - by apply pairArrays_hold.
  - intros x Hx. change (x ∈ ({[0; 1; 2]} : gset Z)) in Hx. rewrite !elem_of_union, !elem_of_singleton in Hx. lia.
  - left. by apply (bool_decide_unpack _); vm_compute.
  - apply (bool_decide_unpack _). by vm_compute.
  - intros l t x Ht Hx. simpl in Ht. apply lookup_singleton_Some in Ht as [_ <-]. change (x ∈ ({[0; 2]} : gset Z)) in Hx. change (x ∈ ({[0; 1; 2]} : gset Z)). set_solver.
  - intros k c Hc. simpl in Hc. apply lookup_singleton_Some in Hc as [_ <-]. eexists. split; [by vm_compute|]. split; [done|].
    apply (bool_decide_unpack _). by vm_compute.
  - intros k c Hc. simpl in Hc. apply lookup_singleton_Some in Hc as [_ <-]. eexists. split; [by vm_compute|]. split; [done|].
    apply (bool_decide_unpack _). by vm_compute.
Qed.

(** The value of [key] at every relationship a traversal of [node] shows. *)
Definition propsSeen {bm} `{RoaringSet bm} (g : Snapshot bm) (node : Z) (dir : Direction) (key : gostring) : res (list (option Value)) :=
  l ← Rels g node dir [] (λ r acc, (true, acc ++ [r])) [];
  mapM (λ r, RelProp g (Pos r) key) l.

(** 0 -> 2, 1 -> 2, 1 -> 0; then 42 on 1 -> 0. *)
Definition strP : gostring := [Byte.x50].
Definition misreadOps : list bop := [OpAddRel 0 2 strK; OpAddRel 1 2 strK; OpAddRel 1 0 strK].
Definition misreadEdit : list bop := [OpSetRelProp 1 0 strK strP (AInt64 42)].
Definition okOr {A} (d : A) (r : res A) : A := match r with Ok a => a | _ => d end.
Lemma okOr_Ok {A} (d : A) (r : res A) : match r with Ok _ => true | _ => false end = true → r = Ok (okOr d r).
Proof. by destruct r. Qed.
Definition misreadBase : Builder (gset Z) (Snapshot (gset Z)) := okOr (NewBuilder 4 4) (runOps misreadOps (NewBuilder 4 4)).
Definition misreadSource : Snapshot (gset Z) := okOr newSnapshot (Finalize misreadBase).
Definition misreadThawed : Builder (gset Z) (Snapshot (gset Z)) := okOr (NewBuilder 4 4) (NewBuilderFromSnapshot misreadSource).
Definition misreadEdited : Builder (gset Z) (Snapshot (gset Z)) := okOr (NewBuilder 4 4) (runOps misreadEdit misreadThawed).
Definition misreadDirect : Builder (gset Z) (Snapshot (gset Z)) := okOr (NewBuilder 4 4) (runOps misreadEdit misreadBase).

(** C35: The first relationship property added through a thaw is not seen from the
    other end. For every builder that shares the adjacency of a source without
    relationship properties and has one staged, the snapshot it finalizes has
    relationship properties but the source's empty position map, marked as built,
    so that every incoming traversal reports the incoming positions themselves,
    not the outgoing ones the properties are stored at. On a graph of three
    relationships, a property set on 1 -> 0 after a thaw is then read from node 1
    but not from node 0; the same calls without the thaw read it from both ends. *)
Theorem first_relprop_after_thaw_misread :
  (∀ bm (HS : RoaringSet bm) (HL : RoaringSetLaws bm) (b : Builder bm (Snapshot bm)) (g g' : Snapshot bm),
    src b = Some g → wfGraph g [] → hasRelProps g = false → hasRemovals b = false → p_csr (newAliasPlan b (idSpace b) (len (rels b))) = true →
    hasRelColumns (relCols b) = true → Finalize b = Ok g' →
    hasRelProps g' = true ∧ getInToOut g' = Ok [] ∧
    ∀ m node, matchOK g' m → 0 ≤ node → Pos <$> relRefs g' m [] node false = nodeMatches g' m false node ∧
      ∀ A (yield : RelRef → A → bool * A) st, relsYield g' node Incoming m yield st = Ok (yieldAll yield (relRefs g' m [] node false) st).2) ∧
  ∃ (b0 b1 b2 b3 : Builder (gset Z) (Snapshot (gset Z))) g g2 g3,
    runOps misreadOps (NewBuilder 4 4) = Ok b0 ∧ Finalize b0 = Ok g ∧
    NewBuilderFromSnapshot g = Ok b1 ∧ runOps misreadEdit b1 = Ok b2 ∧ Finalize b2 = Ok g2 ∧
    propsSeen g2 1 Outgoing strP = Ok [None; Some (I64Value 42)] ∧ propsSeen g2 0 Incoming strP = Ok [None] ∧
    runOps misreadEdit b0 = Ok b3 ∧ Finalize b3 = Ok g3 ∧
    propsSeen g3 1 Outgoing strP = Ok [None; Some (I64Value 42)] ∧ propsSeen g3 0 Incoming strP = Ok [Some (I64Value 42)].
Proof.
  split.
  - intros bm HS HL b g g' Hsrc Hg Hno Hrem Hcsr Hcols E. unfold Finalize, compactRemovals in E. rewrite Hrem in E. cbn [negb mbind res_bind] in E. unfold finalizeStaged in E.
    set (p := newAliasPlan b (idSpace b) (len (rels b))) in *. assert (p_src p = Some g) as Hp by (unfold p, newAliasPlan; by rewrite Hsrc). rewrite Hp, Hcsr, Hcols in E.
    unfold aliasCSR in E. assert (getInToOut g = Ok []) as Ei by (unfold getInToOut; by rewrite Hno). rewrite Ei in E. cbn [mbind res_bind] in E. cbn zeta in E. steps E.
    split; [done|]. set (g' := mkSnapshot _ _ _ _ _ _ _ _ _ _ _ _ _ _ _ _ _ _). assert (getInToOut g' = Ok []) as Ei' by done. split; [done|].
    assert (wfGraph g' []) as Hg' by (destruct Hg as [W1 W2 _]; by split). intros m node Hm Hnode. split.
    + unfold relRefs. rewrite <- list_fmap_compose. transitivity (id <$> nodeMatches g' m false node); [|apply list_fmap_id]. apply list_fmap_ext. intros i k Hk. simpl. unfold pm.
      case_decide as D; [|done]. rewrite len_nil in D. apply list_elem_of_lookup_2 in Hk. exfalso. unfold nodeMatches in Hk. case_decide as D2; [by apply not_elem_of_nil in Hk|].
      apply list_elem_of_filter in Hk as [_ [Hk _]%elem_of_seqZ]. destruct (off_range _ _ _ (wg_in _ _ Hg') node) as [_ Hr]; [change (dirOffsets g' false) with (inOffsets g') in D2; lia|]. change (dirOffsets g' false) with (inOffsets g') in Hk. lia.
    + intros A yield st. etransitivity; [by eapply relsYield_ok|done].
  - exists misreadBase, misreadThawed, misreadEdited, misreadDirect, misreadSource, (okOr newSnapshot (Finalize misreadEdited)), (okOr newSnapshot (Finalize misreadDirect)).
    split_and!; first [apply okOr_Ok; vm_compute; reflexivity|vm_compute; reflexivity].
Qed.
