(* ===== verification/BuildFile.v ===== *)
(** From staging to file and back: [Finalize], [NewBuilderFromSnapshot],
    [WriteRCPG] and [ReadRCPG] together.

    A graph that was built, written and read shows what was staged; and the
    contract [src/thaw.go] documents, that a thaw without edits followed by
    [Finalize] and [WriteRCPG] is byte-identical, holds when every node with a
    property entry exists (a dense string column has entries at every id of its
    span, and [Thaw] restages them). *)

From S2P Require Import RcpgColumn RcpgSection RcpgDirectory RcpgFile.
From S2P Require Import Prelude Value AtomTable Columns FinalizeColumns NodeSet Csr RelTypes InToOut Snapshot TypedAdj Traverse.
From S2P Require Import Builder BuilderInv Compaction Finalize FinalizeSpec Thaw ThawSpec ThawFinalize Serialize SerializeSpec FinalizeFits.

(** ** A loaded snapshot holds the staged graph *)

Lemma sameColumn_reads c c' pos o : sameColumn c c' → 0 ≤ pos → readsAs c pos o → readsAs c' pos o.
Proof.
  intros [Ht (l & Hc & Hc')] Hp. unfold readsAs. rewrite Ht, (rp_get _ _ Hc pos Hp), (rp_get _ _ Hc' pos Hp). done.
Qed.

Lemma sameColumns_hold D at_ cols cols' (c : typedCols) : sameColumns cols cols' → (∀ x, D x → 0 ≤ at_ x) → colsHold D at_ cols c → colsHold D at_ cols' c.
Proof.
  intros Hs Hat Hc k. specialize (Hs k). specialize (Hc k). destruct (stagedValues c k).
  - destruct Hc as (col & E & Hr). rewrite E in Hs. destruct (cols' !! k) as [col'|]; [|done]. exists col'. split; [done|]. intros x Hx.
    eapply sameColumn_reads; [exact Hs|by apply Hat|by apply Hr].
  - rewrite Hc in Hs. by destruct (cols' !! k).
Qed.

Lemma sameColumns_empty cols cols' : sameColumns cols cols' → (cols' ≠ ∅ ↔ cols ≠ ∅).
Proof.
  intros Hs. split; intros Hne ->; apply Hne, map_eq; intros k; specialize (Hs k); rewrite lookup_empty in *; [by destruct (cols' !! k)|by destruct (cols !! k)].
Qed.

Lemma outSlot_range rels j : 0 ≤ j < len rels → 0 ≤ outSlot rels j < len rels.
Proof.
  intros Hj. destruct (lookup_lt_is_Some_2 rels (Z.to_nat j)) as [r Hr]; [unfold len in Hj; lia|]. unfold outSlot. rewrite (list_lookup_total_correct _ _ _ Hr).
  pose proof (slotOf_range (ownerOf 0) rels _ r Hr). pose proof (below_len (ownerOf 0) rels (ownerOf 0 r + 1)). pose proof (below_nonneg (ownerOf 0) rels (ownerOf 0 r)). lia.
Qed.

Lemma outSlot_nonneg rels j : 0 ≤ outSlot rels j.
Proof. unfold outSlot, slotOf, equal. pose proof (below_nonneg (ownerOf 0) rels (ownerOf 0 (rels !!! Z.to_nat j))). pose proof (len_nonneg (filter (λ x, ownerOf 0 x = ownerOf 0 (rels !!! Z.to_nat j)) (take (Z.to_nat j) rels))). lia. Qed.

Section load.
Context {bm : Type} {HS : RoaringSet bm} {HSL : RoaringSetLaws bm}.
Implicit Types (b : Builder bm (Snapshot bm)) (g : Snapshot bm).

(** The keys a snapshot holds are those staged. *)
Lemma colsHold_keys D at_ cols (c : typedCols) : colsHold D at_ cols c → (cols ≠ ∅ ↔ ∃ key, is_Some (stagedValues c key)).
Proof.
  intros Hc. split.
  - intros (k & col & Hk)%map_choose. exists k. specialize (Hc k). destruct (stagedValues c k); [eauto|congruence].
  - intros (k & m & Hk) ->. specialize (Hc k). rewrite Hk in Hc. destruct Hc as (col & E & _). by rewrite lookup_empty in E.
Qed.

Lemma finalized_loaded b rels ts relProps g wo g' : finalized b rels ts relProps g → loaded wo g g' →
  woNodeColumns wo = true → woRelColumns wo = true → woExistence wo = true → finalized b rels ts relProps g'.
Proof.
  intros [F1 F2 F3 F4 F5 F6 F7 F8 F9 F10 F11 [F12 F13] F14] [[L1 L2] (O1 & O2 & O3) (I1 & I2 & I3) [X1 X2] [S1 S2] C1 C2 [P1 P2] E] Wn Wr We. rewrite Wn in C1. rewrite Wr in C2.
  rewrite We in E. pose proof (sameColumns_hold _ _ _ _ _ C2 (λ j _, outSlot_nonneg rels j) F9) as F9'.
  assert (hasRelProps g' = hasRelProps g) as Eh by (apply eq_true_iff_eq; by rewrite P2, bool_decide_eq_true, F13, (colsHold_keys _ _ _ _ F9')).
  split; unfold Snapshot.NodeCount, Snapshot.RelCount, CSRIDSpace, relRefs, nodeMatches, dirOffsets, dirNbrs, dirTypes in *; rewrite ?L1, ?L2, ?O1, ?X1, ?X2, ?S1, ?S2, ?Eh, ?P1; try done.
  - intros id Hid. by rewrite E, F3.
  - destruct F5 as (ito & [W1 W2 W3] & Hrefs). exists ito. split.
    + split; [by rewrite O1, O2, O3|by rewrite I1, I2, I3|]. revert W3. unfold getInToOut. by rewrite Eh, P1, F12, O1, O2, O3, I1, I2, I3.
    + intros m v out Hv. destruct (Hrefs m v out Hv) as (pos & Hr & Hp). exists pos. split; [|done]. rewrite <- Hr. destruct out; by rewrite ?O1, ?O2, ?O3, ?I1, ?I2, ?I3.
  - by eapply sameColumns_hold; [exact C1|intros x Hx; exact Hx|].
  - intros out. specialize (F14 out). destruct out; by rewrite ?O2, ?I2.
Qed.
End load.

(** ** Writing a refinalized thaw *)

Section rewrite.
Context {bm : Type} {HS : RoaringSet bm} {HR : RcpgSection.Roaring bm}.
Implicit Types (g : Snapshot bm).

(** Without its section, the existence set is not looked at. *)
Lemma encodeSections_existence (s s' : GraphSection bm) wo : woExistence wo = false →
  s' = mkGraphSection (NNodes s) (NRels s) (OutOffsets s) (OutNbrs s) (OutTypes s) (InOffsets s) (InNbrs s) (InTypes s) (LabelIndex s) (TypeIndex s)
         (NodeColumns s) (RelColumns s) (RcpgSection.Version s) (RcpgSection.Atoms s) (Existence s') (AtomIndex s) →
  encodeSections (sectionTable s' wo) = encodeSections (sectionTable s wo).
Proof. intros We ->. destruct wo as [n r a e]. simpl in We. subst e. by destruct n, r, a. Qed.

Lemma write_same g g' wo {W} `{Writer W} (w : W) : woExistence wo = false → graphSectionWith g' (woNodeColumns wo) (woRelColumns wo) =
  (s ← graphSectionWith g (woNodeColumns wo) (woRelColumns wo); Ok (mkGraphSection (NNodes s) (NRels s) (OutOffsets s) (OutNbrs s) (OutTypes s) (InOffsets s) (InNbrs s) (InTypes s)
     (LabelIndex s) (TypeIndex s) (NodeColumns s) (RelColumns s) (RcpgSection.Version s) (RcpgSection.Atoms s) (storedExistence g') (AtomIndex s))) →
  WriteRCPGWith g' w wo = WriteRCPGWith g w wo.
Proof.
  intros We E. unfold WriteRCPGWith. rewrite E. destruct (graphSectionWith g (woNodeColumns wo) (woRelColumns wo)) as [s|e|]; cbn [mbind res_bind]; [|done..].
  unfold WriteWith. by erewrite (encodeSections_existence s) by done.
Qed.

Lemma sameSnapshot_write {HSL : RoaringSetLaws bm} g g' wo {W} `{Writer W} (w : W) : sameSnapshot g g' → woExistence wo = false → WriteRCPGWith g' w wo = WriteRCPGWith g w wo.
Proof.
  intros [[R (O1 & O2 & O3) (I1 & I2 & I3) _ [X1 X2] [C1 C2] [A1 A2]] N _] We. apply write_same; [done|]. unfold graphSectionWith.
  rewrite N, R, O1, O2, O3, I1, I2, I3, X1, X2, C1, C2, A1, A2.
  destruct (typeWords (outTypes g)); cbn [mbind res_bind]; [|done..]. destruct (typeWords (inTypes g)); cbn [mbind res_bind]; [|done..].
  destruct (convert (columns g) (woNodeColumns wo)); cbn [mbind res_bind]; [|done..]. by destruct (convert (relColumns g) (woRelColumns wo)).
Qed.
End rewrite.

(** ** What [Finalize] returns fits the format *)

Lemma Finalize_fits {bm} `{HSL : RoaringSetLaws bm} (b : Builder bm (Snapshot bm)) g : wf_builder b → src b = None → len (rels b) < 2147483648 →
  Forall (λ t, 0 ≤ t < MaxUint32) (relTypes b) → stagedFits b → Finalize b = Ok g → bodyFits g.
Proof.
  intros Hw Hsrc Hm Ht [S1 S2 S3 S4 S5] E. destruct (compactRemovals_ok b Hw Hm) as (b' & E' & [C1 C2 C3 C4 C5 (E1 & E2 & E3 & E4 & _ & E5 & _ & E6 & _) C7]).
  unfold Finalize in E. rewrite E' in E. cbn [mbind res_bind] in E. apply (finalizeStaged_fits b'); try done.
  - rewrite C2. by apply liveTypes_range.
  - congruence.
  - rewrite C1. unfold liveRels, liveIdx. rewrite len_fmap. eapply Z.le_lt_trans; [|exact Hm].
    apply (newIndex_le (tombs b) (removedNodes b) (rels b)), len_nonneg.
  - split; rewrite ?E3, ?E4, ?E2; try done; [unfold known; by rewrite E5|]. rewrite C3. by apply keepLive_fits.
Qed.

(** ** Properties *)

(** C3: A built graph survives its file. From every well-formed staging state of
    a fresh builder whose strings are UTF-8 and whose values have their Go widths,
    [Finalize] succeeds, writing the snapshot with all sections succeeds, reading
    the bytes succeeds, and the snapshot that was read shows exactly the staged
    graph: its nodes, its live relationships in staging order from both ends with
    their types and property positions, its labels and types, and the last written
    value of every property - whatever storage layouts were picked before the
    write and after the read. *)
Theorem built_graph_survives_file {bm} `{HSL : RoaringSetLaws bm} {HR : RcpgSection.Roaring bm} {HRL : RcpgSection.RoaringLaws bm} (b : Builder bm (Snapshot bm)) :
  wf_builder b → src b = None → len (rels b) < 2147483648 → Forall (λ t, 0 ≤ t < MaxUint32) (relTypes b) → stagedFits b →
  (∀ g, Finalize b = Ok g → fitIndex (labelIndex g) ∧ fitIndex (typeIndex g) ∧
     ∀ section, graphSectionWith g true true = Ok section → len (fileBytes (sectionsOf section allSections)) < 18446744073709551616) →
  ∃ g bytes g', Finalize b = Ok g ∧ WriteRCPGWith g [] allSections = (bytes, Ok ()) ∧ ReadRCPG bytes = Ok g' ∧
    finalized b (liveRels b) (liveTypes b)
      (keepLiveCols (isLive (tombs b) (removedNodes b) (rels b)) (newIndex (tombs b) (removedNodes b) (rels b)) (relCols b)) g'.
Proof.
  intros Hw Hsrc Hm Ht Hs Hsz. destruct (Finalize_finalized b Hw Hsrc Hm Ht) as (g & E & Hg). destruct (Hsz g E) as (Hl & Hty & Hb).
  destruct (write_read_loaded g allSections (bodyFits_fits g (Finalize_fits b g Hw Hsrc Hm Ht Hs E) Hl Hty) Hb) as (bytes & g' & Ew & Er & Hld).
  exists g, bytes, g'. do 3 (split; [done|]). by eapply finalized_loaded.
Qed.

(** The graph of [finalOps], a removal pending. *)
Lemma finalBuilder_fits : wf_builder finalBuilder ∧ stagedFits finalBuilder.
Proof.
  split.
  - destruct (runOps_wf (bm := gset Z) (Snap := Snapshot (gset Z)) finalOps (NewBuilder 2 2)) as (b & E & Hb).
    + repeat constructor; simpl; lia.
    + apply NewBuilder_wf. lia.
    + unfold finalBuilder. by rewrite E.
  - assert (∀ c : typedCols, valuesFit c ↔ (∀ k, is_Some (colI64 c !! k) ∨ is_Some (colF64 c !! k) ∨ is_Some (colBool c !! k) ∨ is_Some (colStr c !! k) → 0 ≤ k < MaxUint32) ∧
      map_Forall (λ _ ps, Forall (λ q, is_u64 q.2) ps) (colF64 c) ∧ map_Forall (λ _ ps, Forall (λ q, is_u32 q.2) ps) (colStr c)) as Hv by done.
    assert (∀ c : typedCols, (set_Forall (λ k, 0 ≤ k < MaxUint32) (dom (colI64 c) ∪ dom (colF64 c) ∪ dom (colBool c) ∪ dom (colStr c))) →
      ∀ k, is_Some (colI64 c !! k) ∨ is_Some (colF64 c !! k) ∨ is_Some (colBool c !! k) ∨ is_Some (colStr c !! k) → 0 ≤ k < MaxUint32) as Hk.
    { intros c Hc k Hk. apply Hc. rewrite !elem_of_union, !elem_of_dom. tauto. }
    assert (set_Forall (λ x, x < 4294967288) (known finalBuilder)) as Hs by (apply (bool_decide_unpack _); by vm_compute).
    split; [by apply (bool_decide_unpack _); vm_compute|done|exact Hs|rewrite Hv..]; (split; [apply Hk|]); apply (bool_decide_unpack _); by vm_compute.
Qed.

Lemma finalBuilder_index g : Finalize finalBuilder = Ok g → fitIndex (labelIndex g) ∧ fitIndex (typeIndex g).
Proof.
  intros E. assert (g = okOr newSnapshot (Finalize finalBuilder)) as -> by (by rewrite E). clear E.
  assert (∀ (index : gmap Z (Set_ (gset Z))), fitIndex index ↔ Z.of_nat (size index) < 4294967296 ∧ map_Forall (λ k s, is_u32 k ∧ len (bmWriteTo (sbm s)) < 4294967296) index) as Hfi by done.
  rewrite !Hfi. split_and!; apply (bool_decide_unpack _); by vm_compute.
Qed.

Lemma built_graph_survives_file_witness : ∃ g bytes g', Finalize finalBuilder = Ok g ∧ WriteRCPGWith g [] allSections = (bytes, Ok ()) ∧ ReadRCPG bytes = Ok g' ∧
  Snapshot.RelCount g' = 2 ∧ NodeExists g' 1 = true.
Proof.
  destruct finalBuilder_fits as [Hw Hf]. destruct (built_graph_survives_file finalBuilder Hw) as (g & bytes & g' & E & Ew & Er & [_ Hr He _ _ _ _ _ _ _ _ _ _]).
  - by vm_compute.
  - by vm_compute.
  - apply (bool_decide_unpack _). by vm_compute.
  - exact Hf.
  - intros g E. destruct (finalBuilder_index g E) as [Hl Ht]. split; [done|]. split; [done|]. intros section Es. assert (g = okOr newSnapshot (Finalize finalBuilder)) as -> by (by rewrite E).
    assert (section = okOr emptyGraph (graphSectionWith (okOr newSnapshot (Finalize finalBuilder)) true true)) as -> by (by rewrite Es). by vm_compute.
  - exists g, bytes, g'. do 3 (split; [done|]). assert (len (liveRels finalBuilder) = 2) as <- by (by vm_compute). assert (bool_decide (1 ∈ known finalBuilder) = true) as Hk by (by vm_compute).
    apply bool_decide_eq_true in Hk. split; [exact Hr|]. rewrite (He 1) by lia. by apply bool_decide_eq_true.
Defined.

(** C26: What a fresh builder finalizes is well typed. From every well-formed staging
    state of a fresh builder with fewer than 2^31 relationships and node ids below
    2^32-8, whose strings are UTF-8 and whose labels and values have their Go
    widths, [Finalize] succeeds, and in the snapshot every
    offset, neighbor, relationship type, atom id and count lies in its unsigned
    machine type, every column holds values of its kind at their width in
    ascending, in-range positions whatever layout and narrowing was picked, the
    existing nodes lie in the id space, every label of the label index is a 32-bit
    atom and its members are ids of the space, and every type of the type index is
    a 32-bit atom and its members are relationship positions. *)
Theorem Finalize_well_typed {bm} `{HSL : RoaringSetLaws bm} (b : Builder bm (Snapshot bm)) :
  wf_builder b → src b = None → len (rels b) < 2147483648 → Forall (λ t, 0 ≤ t < MaxUint32) (relTypes b) → Forall (Forall (λ l, 0 ≤ l < MaxUint32)) (nodeLabels b) → stagedFits b →
  ∃ g, Finalize b = Ok g ∧ bodyFits g ∧ (∀ l x, indexed (labelIndex g) l x → is_u32 l ∧ 0 ≤ x < CSRIDSpace g) ∧ (∀ t pos, indexed (typeIndex g) t pos → is_u32 t ∧ 0 ≤ pos < Snapshot.RelCount g).
Proof.
  intros Hw Hsrc Hm Ht Hl Hs. destruct (Finalize_finalized b Hw Hsrc Hm Ht) as (g & E & Hg). exists g. split; [done|]. split; [exact (Finalize_fits b g Hw Hsrc Hm Ht Hs E)|]. split.
  - intros l x (Hx & ls & Hls & Hin)%(fz_labels _ _ _ _ _ Hg). split.
    + pose proof (Forall_lookup_1 _ _ _ _ Hl Hls) as HF. rewrite Forall_forall in HF. specialize (HF l Hin). simpl in HF. lia.
    + apply (fz_space _ _ _ _ _ Hg). rewrite <- (Z2Nat.id x Hx). apply (wb_labels _ Hw _ ls Hls). intros ->. by apply not_elem_of_nil in Hin.
  - intros t pos (j & Hj & Htj & ->)%(fz_types _ _ _ _ _ Hg). rewrite (fz_rels _ _ _ _ _ Hg). split; [pose proof (Forall_lookup_1 _ _ _ _ (liveTypes_range b Hw Ht) Htj) as Hr; simpl in Hr; lia|].
    apply outSlot_range. lia.
Qed.

Lemma Finalize_well_typed_witness : ∃ g, Finalize finalBuilder = Ok g ∧ bodyFits g ∧ ∀ l x, indexed (labelIndex g) l x → is_u32 l ∧ 0 ≤ x < CSRIDSpace g.
Proof.
  destruct finalBuilder_fits as [Hw Hf].
  destruct (Finalize_well_typed finalBuilder Hw) as (g & E & Hg & Hl & _); [by vm_compute|by vm_compute|apply (bool_decide_unpack _); by vm_compute|apply (bool_decide_unpack _); by vm_compute|exact Hf|].
  exists g. split; [exact E|]. split; [exact Hg|exact Hl].
Defined.

(** A thaw without edits rewrites the same file. For every snapshot as
    [Finalize] produces them whose node columns have entries only at existing
    nodes, thawing it and finalizing the builder succeeds, and writing the result makes the same calls on the writer with the same bytes,
    and fails in the same way, as writing the original, for any writer. *)
Theorem thaw_rewrites_same_file {bm} `{HSL : RoaringSetLaws bm} {HR : RcpgSection.Roaring bm} (g : Snapshot bm) n rels ts s : wfSource g n rels ts s → columnIds g ⊆ elems s →
  ∃ b g', NewBuilderFromSnapshot g = Ok b ∧ Finalize b = Ok g' ∧ ∀ W (HW : Writer W) (w : W), WriteRCPG g' w = WriteRCPG g w.
Proof.
  intros Hs Hin. destruct (thaw_finalize g n rels ts s Hs) as (b & g' & E & E' & Hg & Hn & Hx).
  exists b, g'. split; [done|]. split; [done|]. intros W HW w. apply sameSnapshot_write; [|done]. by eapply sameContents_all.
Qed.

Lemma thaw_rewrites_same_file_witness : ∃ b g', NewBuilderFromSnapshot roundSnap = Ok b ∧ Finalize b = Ok g' ∧
  WriteRCPG g' ([] : list byte) = WriteRCPG roundSnap ([] : list byte).
Proof.
  destruct (thaw_rewrites_same_file roundSnap 3 pairRels [5; 6; 7; 5; 6] (mkSet {[0; 1; 2]}) roundSnap_wf) as (b & g' & E & E' & Hw); [apply (bool_decide_unpack _); by vm_compute|].
  exists b, g'. split; [done|]. split; [done|]. apply Hw.
Defined.
