(* ===== verification/Hops.v ===== *)
(** Breadth-first layers: the specification the searches of [src/search_bfs.go]
    are proved against.

    [ball k] is the set of nodes at most [k] steps from a start set. [layer] is
    the invariant of a breadth-first search at depth [k]: what is left of the
    current level, what has been found of the next one, and what is visited. The
    searches with a queue, with a frontier per level, with and without filters
    all move through its four lemmas: start, expand a node, go down a level,
    stop. *)

From S2P Require Import Prelude.
From stdpp Require Import relations.

(** The fresh ones of a list of neighbors, in order of first occurrence. *)
Fixpoint freshOf (visited : gset Z) (ws : list Z) : list Z :=
  match ws with
  | [] => []
  | w :: ws => if decide (w ∈ visited) then freshOf visited ws else w :: freshOf ({[w]} ∪ visited) ws
  end.

Lemma elem_of_freshOf visited ws w : w ∈ freshOf visited ws ↔ w ∈ ws ∧ w ∉ visited.
Proof.
  revert visited. induction ws as [|x ws IH]; intros visited; [set_solver|]. cbn [freshOf]. case_decide; [rewrite IH; set_solver|].
  rewrite elem_of_cons, IH. destruct (decide (w = x)); set_solver.
Qed.

Lemma freshOf_NoDup visited ws : NoDup (freshOf visited ws).
Proof.
  revert visited. induction ws as [|x ws IH]; intros visited; [constructor|]. cbn [freshOf]. case_decide; [apply IH|].
  constructor; [|apply IH]. rewrite elem_of_freshOf. set_solver.
Qed.

Lemma freshOf_app visited l1 l2 : freshOf visited (l1 ++ l2) = freshOf visited l1 ++ freshOf (list_to_set l1 ∪ visited) l2.
Proof.
  revert visited. induction l1 as [|x l1 IH]; intros visited; [cbn [freshOf app list_to_set]; f_equal; set_solver|].
  cbn [freshOf app list_to_set]. case_decide; rewrite IH; cbn [app].
  - assert (list_to_set l1 ∪ visited = {[x]} ∪ list_to_set l1 ∪ visited) as <- by set_solver. done.
  - assert (list_to_set l1 ∪ ({[x]} ∪ visited) = {[x]} ∪ list_to_set l1 ∪ visited) as -> by set_solver. done.
Qed.

(** What is still unvisited shrinks by what is fresh. *)
Lemma unvisited_expand (U visited : gset Z) ws : (∀ w, w ∈ ws → w ∈ U) →
  (size (U ∖ (list_to_set ws ∪ visited)) + length (freshOf visited ws) = size (U ∖ visited))%nat.
Proof.
  intros Hws. rewrite <- (size_list_to_set (C := gset Z) (freshOf visited ws)) by apply freshOf_NoDup.
  rewrite <- size_union by (intros x; rewrite elem_of_difference, elem_of_union, !elem_of_list_to_set, elem_of_freshOf; tauto).
  f_equal. apply set_eq. intros x. rewrite elem_of_union, !elem_of_difference, elem_of_union, !elem_of_list_to_set, elem_of_freshOf.
  destruct (decide (x ∈ ws)); destruct (decide (x ∈ visited)); naive_solver.
Qed.

Section layers.
Context (adj : Z → list Z) (S0 : gset Z).

Fixpoint ball (k : nat) : gset Z :=
  match k with
  | O => S0
  | S k => ball k ∪ list_to_set (elements (ball k) ≫= adj)
  end.

Lemma elem_of_ball_S k w : w ∈ ball (S k) ↔ w ∈ ball k ∨ ∃ v, v ∈ ball k ∧ w ∈ adj v.
Proof.
  cbn [ball]. rewrite elem_of_union, elem_of_list_to_set, list_elem_of_bind. setoid_rewrite elem_of_elements. naive_solver.
Qed.

Lemma ball_mono j k : (j ≤ k)%nat → ball j ⊆ ball k.
Proof. induction 1; [done|]. intros x Hx. apply elem_of_ball_S. left. auto. Qed.

(** [v] can be reached in exactly [k] steps. *)
Definition reach (k : nat) (v : Z) : Prop := ∃ s, s ∈ S0 ∧ nsteps (λ x y, y ∈ adj x) k s v.

Lemma reach_S k w : reach (S k) w ↔ ∃ v, reach k v ∧ w ∈ adj v.
Proof.
  split.
  - intros (s & Hs & Hn). apply nsteps_inv_r in Hn as (v & Hv & Hw). exists v. split; [by exists s|done].
  - intros (v & (s & Hs & Hn) & Hw). exists s. split; [done|]. by eapply nsteps_r.
Qed.

Lemma elem_of_ball k v : v ∈ ball k ↔ ∃ j, (j ≤ k)%nat ∧ reach j v.
Proof.
  revert v. induction k as [|k IH]; intros v.
  - split; [intros Hv; exists 0%nat; split; [lia|]; exists v; split; [done|constructor]|].
    intros (j & Hj & s & Hs & Hn). assert (j = 0%nat) as -> by lia. by inv Hn.
  - rewrite elem_of_ball_S. split.
    + intros [(j & Hj & Hr)%IH|(x & (j & Hj & Hr)%IH & Hx)]; [exists j; split; [lia|done]|].
      exists (S j). split; [lia|]. apply reach_S. by exists x.
    + intros (j & Hj & Hr). destruct (decide (j ≤ k)%nat) as [Hle|Hgt]; [left; apply IH; by exists j|right].
      assert (j = S k) as -> by lia. apply reach_S in Hr as (x & Hr & Hx). exists x. split; [|done]. apply IH. by exists k.
Qed.

(** The distance of [v] is [k]. *)
Definition dist (k : nat) (v : Z) : Prop := reach k v ∧ ∀ j, reach j v → (k ≤ j)%nat.

Lemma dist_0 v : dist 0 v ↔ v ∈ S0.
Proof.
  split; [intros [(s & Hs & Hn) _]; by inv Hn|].
  intros Hv. split; [exists v; split; [done|constructor]|intros; lia].
Qed.

Lemma dist_S k v : dist (S k) v ↔ v ∈ ball (S k) ∧ v ∉ ball k.
Proof.
  rewrite !elem_of_ball. split.
  - intros [Hr Hm]. split; [by exists (S k)|]. intros (j & Hj & Hr'). specialize (Hm j Hr'). lia.
  - intros [(j & Hj & Hr) Hn]. assert (j = S k) as -> by (destruct (decide (j ≤ k)%nat); [exfalso; apply Hn; by exists j|lia]).
    split; [done|]. intros i Hi. destruct (decide (i ≤ k)%nat); [exfalso; apply Hn; by exists i|lia].
Qed.

Lemma dist_unique j k v : dist j v → dist k v → j = k.
Proof. intros [H1 H2] [H3 H4]. specialize (H2 k H3). specialize (H4 j H1). lia. Qed.

Lemma dist_least k v : reach k v → ∃ j, (j ≤ k)%nat ∧ dist j v.
Proof.
  intros Hr. assert (v ∈ ball k) as Hv by (apply elem_of_ball; by exists k). clear Hr.
  induction k as [|k IH]; [exists 0%nat; split; [lia|by apply dist_0]|].
  destruct (decide (v ∈ ball k)) as [Hk|Hk]; [destruct (IH Hk) as (j & ? & ?); exists j; split; [lia|done]|].
  exists (S k). split; [lia|]. by apply dist_S.
Qed.

Lemma elem_of_ball_dist k v : v ∈ ball k ↔ ∃ j, (j ≤ k)%nat ∧ dist j v.
Proof.
  rewrite elem_of_ball. split; intros (j & Hj & H).
  - apply dist_least in H as (i & ? & ?). exists i. split; [lia|done].
  - exists j. split; [done|apply H].
Qed.

Lemma dist_ball k v : dist k v → v ∈ ball k.
Proof. intros Hd. apply elem_of_ball_dist. by exists k. Qed.

(** A closed ball is everything. *)
Lemma ball_fixed k : ball (S k) ⊆ ball k → ∀ j, ball j ⊆ ball k.
Proof.
  intros Hk. induction j as [|j IH]; [apply ball_mono; lia|]. intros w [Hw|(v & Hv & Hw)]%elem_of_ball_S; [by apply IH|].
  apply Hk, elem_of_ball_S. right. exists v. split; [by apply IH|done].
Qed.

(** Each level adds a node until the last one, so levels are as few as nodes. *)
Lemma ball_size k v : dist k v → (k < size (ball k))%nat.
Proof.
  revert v. induction k as [|k IH]; intros v Hd.
  { apply dist_0 in Hd. assert (size (ball 0) ≠ 0)%nat; [|lia]. intros H0%size_empty_inv. cbn [ball] in H0. set_solver. }
  pose proof Hd as [Hr _]. apply reach_S in Hr as (u & Hu & Huv). apply dist_S in Hd as [Hv Hk].
  destruct (dist_least _ _ Hu) as (j & Hj & Hdu). assert (j = k) as ->.
  { destruct (decide (j = k)); [done|]. exfalso. apply Hk. destruct k as [|k]; [lia|]. apply elem_of_ball_S. right. exists u.
    split; [|done]. apply elem_of_ball_dist. exists j. split; [lia|done]. }
  specialize (IH u Hdu). assert (ball k ⊂ ball (S k)) as Hs.
  { split; [apply ball_mono; lia|]. intros Hsub. by apply Hk, Hsub. }
  apply subset_size in Hs. lia.
Qed.

(** ** The search invariant *)

Record layer (k : nat) (todo next : list Z) (visited : gset Z) : Prop := {
  ly_visited : ∀ v, v ∈ visited ↔ v ∈ ball k ∨ v ∈ next;
  ly_next : ∀ v, v ∈ next → dist (S k) v;
  ly_todo : ∀ v, v ∈ todo → dist k v;
  ly_closed : ∀ v w, v ∈ ball k → v ∉ todo → w ∈ adj v → w ∈ visited;
  ly_nodup : NoDup todo ∧ NoDup next;
}.

Lemma layer_start todo : NoDup todo → (∀ v, v ∈ todo ↔ v ∈ S0) → layer 0 todo [] S0.
Proof.
  intros Hnd Ht. split; [set_solver|set_solver|intros v Hv; by apply dist_0, Ht| |split; [done|constructor]].
  intros v w Hv Hn. exfalso. by apply Hn, Ht.
Qed.

Lemma layer_expand k v todo next visited : layer k (v :: todo) next visited →
  layer k todo (next ++ freshOf visited (adj v)) (list_to_set (adj v) ∪ visited).
Proof.
  intros [Hv Hn Ht Hc [[_ Hnd]%NoDup_cons Hnn]]. assert (v ∈ ball k) as Hvk by (apply dist_ball, Ht; by left).
  split.
  - intros w. rewrite elem_of_union, elem_of_list_to_set, elem_of_app, elem_of_freshOf, Hv. destruct (decide (w ∈ visited)) as [Hw|Hw]; rewrite Hv in Hw; tauto.
  - intros w. rewrite elem_of_app, elem_of_freshOf. intros [Hw|[Hw Hnw]]; [by apply Hn|]. apply dist_S. rewrite Hv in Hnw.
    split; [|tauto]. apply elem_of_ball_S. right. by exists v.
  - intros w Hw. apply Ht. by right.
  - intros x w Hx Hnx Hw. rewrite elem_of_union, elem_of_list_to_set. destruct (decide (x = v)) as [->|Hne]; [by left|right].
    eapply Hc; [exact Hx| |done]. rewrite elem_of_cons. tauto.
  - split; [done|]. apply NoDup_app. split; [done|]. split; [|apply freshOf_NoDup]. intros w Hw. rewrite elem_of_freshOf.
    intros [_ Hnw]. apply Hnw, Hv. by right.
Qed.

Lemma layer_down k next visited : layer k [] next visited → layer (S k) next [] visited.
Proof.
  intros [Hv Hn _ Hc [_ Hnd]]. assert (∀ w, w ∈ visited ↔ w ∈ ball (S k)) as Hb.
  { intros w. split; [intros [Hw|Hw]%Hv; [by eapply ball_mono; [|done]; lia|by apply Hn, dist_S in Hw as [? _]]|].
    intros [Hw|(x & Hx & Hw)]%elem_of_ball_S; [apply Hv; by left|]. eapply Hc; [done| |done]. set_solver. }
  split.
  - intros w. rewrite Hb. set_solver.
  - set_solver.
  - done.
  - intros x w [Hx|Hx]%Hb%Hv Hnx Hw; [|done]. eapply Hc; [done|set_solver|done].
  - split; [done|constructor].
Qed.

(** Stopping at the depth bound, and stopping because nothing is left. *)
Lemma layer_stop k todo visited v : layer k todo [] visited → v ∈ visited ↔ v ∈ ball k.
Proof. intros [Hv _ _ _ _]. rewrite Hv. set_solver. Qed.

Lemma layer_done k visited v : layer k [] [] visited → v ∈ visited ↔ ∃ j, v ∈ ball j.
Proof.
  intros Hl. rewrite (layer_stop _ _ _ _ Hl). split; [by exists k|]. intros (j & Hj). revert Hj. apply ball_fixed. intros w Hw.
  apply (layer_stop _ _ _ _ Hl), (layer_stop _ _ _ _ (layer_down _ _ _ Hl)). done.
Qed.

(** ** Counting *)

Context (U : gset Z).
Hypothesis HU0 : S0 ⊆ U.
Hypothesis HU : ∀ v w, w ∈ adj v → w ∈ U.

Lemma ball_universe k : ball k ⊆ U.
Proof. induction k as [|k IH]; [done|]. intros w [Hw|(v & _ & Hw)]%elem_of_ball_S; [by apply IH|by eapply HU]. Qed.

Lemma dist_bound k v : dist k v → (k < size U)%nat.
Proof. intros Hd. pose proof (ball_size _ _ Hd). pose proof (subseteq_size _ _ (ball_universe k)). lia. Qed.

End layers.
