(* ===== verification/SearchBfs.v ===== *)
(** Unweighted search: [src/search_bfs.go].

    Reachability, breadth-first search over node sets with filters, its
    bidirectional form, hop distances and bounded neighborhoods. A range loop
    over an iterator is a consumer of [Traverse]'s walks; a loop over a queue or
    over the levels carries fuel (running out of it would be [Panic]). The
    theorems are in [SearchBfsSpec]. *)

From S2P Require Import Prelude Value NodeSet RelTypes Snapshot TypedAdj Traverse.

(** A loop body that can panic, as a consumer. *)
Definition tryYield {X A} (body : X → A → res A) (x : X) (st : res A) : bool * res A :=
  match st with
  | Ok s => match body x s with Ok s => (true, Ok s) | Err e => (false, Err e) | Panic => (false, Panic) end
  | r => (false, r)
  end.

(** The dense scratch of the distance searches: a node is visited in this run
    when [gen[node] = cur]. *)
Record searchScratch := mkScratch { gen : list Z; sdist : list Z; cur : Z }.

Definition takeScratch (s : searchScratch) (n : Z) : searchScratch :=
  let s := if decide (len (gen s) < n) then mkScratch (replicate (Z.to_nat n) 0) (replicate (Z.to_nat n) 0) 0 else s in
  let s := mkScratch (gen s) (sdist s) (to_u32 (cur s + 1)) in
  if decide (cur s = 0) then mkScratch ((λ _, 0) <$> gen s) (sdist s) 1 else s.

Section search.
Context {bm : Type} `{RoaringSet bm}.
Abbreviation Match_t := (RelMatch (Snapshot bm)).
Abbreviation NodeFilter := (option (Z → Snapshot bm → bool)).
Abbreviation RelFilter := (option (Z → Z → Z → Z → Snapshot bm → bool)).
Abbreviation queue_t := (list (Z * Z)).
Implicit Types (g : Snapshot bm) (m : Match_t) (visited nodes rels : Set_ bm) (queue : queue_t).

(** [maxDepth >= 0 && int(depth) >= maxDepth] *)
Definition pastDepth (maxDepth depth : Z) : bool := bool_decide (0 ≤ maxDepth ∧ maxDepth ≤ depth).

(** A queue search expands every node once; a level search goes down at most
    once per node. [extra] counts the starts, which may lie outside the id
    space. *)
Definition searchFuel g (extra : Z) : nat := S (Z.to_nat (CSRIDSpace g + extra)).

(** ** CanReach *)

Definition reachBody (to depth neighbor : Z) (st : bool * Set_ bm * queue_t) : bool * (bool * Set_ bm * queue_t) :=
  let '(found, visited, queue) := st in
  if decide (neighbor = to) then (false, (true, visited, queue))
  else
    let '(fresh, visited) := Insert visited neighbor in
    (true, (found, visited, if fresh : bool then queue ++ [(neighbor, to_u32 (depth + 1))] else queue)).

Fixpoint canReachLoop (fuel : nat) g (to : Z) (dir : Direction) m (maxDepth : Z) visited queue : res bool :=
  match queue, fuel with
  | [], _ => Ok false
  | _, O => Panic
  | (current, depth) :: queue, S fuel =>
      if pastDepth maxDepth depth then canReachLoop fuel g to dir m maxDepth visited queue
      else
        '(found, visited, queue) ← NeighborsMatch g current dir m (reachBody to depth) (false, visited, queue);
        if found : bool then Ok true else canReachLoop fuel g to dir m maxDepth visited queue
  end.

Definition CanReach g (from to : Z) (dir : Direction) m (maxDepth : Z) : res bool :=
  if decide (from = to) then Ok true
  else canReachLoop (searchFuel g 1) g to dir m maxDepth (Of [from]) [(from, 0)].

(** ** BFS *)

Definition nodePasses g (nodeFilter : NodeFilter) (id : Z) : bool :=
  match nodeFilter with None => true | Some f => f id g end.
Definition relPasses g (relFilter : RelFilter) (from to t pos : Z) : bool :=
  match relFilter with None => true | Some f => f from to t pos g end.

(** The body of [bfsStep]; the state is ([visitedNodes], [visitedRels], [queue]). *)
Definition stepBody g (current depth : Z) (nodeFilter : NodeFilter) (relFilter : RelFilter) (backward : bool)
    (otherVisited : option (Set_ bm)) (rel : RelRef) (st : Set_ bm * Set_ bm * queue_t) : bool * (Set_ bm * Set_ bm * queue_t) :=
  let '(visitedNodes, visitedRels, queue) := st in
  let '(from, to) := if backward then (Neighbor rel, current) else (current, Neighbor rel) in
  let enqueue := queue ++ [(Neighbor rel, to_u32 (depth + 1))] in
  if negb (relPasses g relFilter from to (Type_ rel) (Pos rel)) then (true, st)
  else if negb (nodePasses g nodeFilter (Neighbor rel)) then (true, st)
  else if match otherVisited with Some o => Contains o (Neighbor rel) | None => false end then
    let visitedRels := (Insert visitedRels (Pos rel)).2 in
    let '(fresh, visitedNodes) := Insert visitedNodes (Neighbor rel) in
    (true, (visitedNodes, visitedRels, if fresh : bool then enqueue else queue))
  else if match otherVisited with Some _ => true | None => false end then
    let '(fresh, visitedNodes) := Insert visitedNodes (Neighbor rel) in
    (true, if fresh : bool then (visitedNodes, (Insert visitedRels (Pos rel)).2, enqueue) else (visitedNodes, visitedRels, queue))
  else
    let visitedRels := (Insert visitedRels (Pos rel)).2 in
    let '(fresh, visitedNodes) := Insert visitedNodes (Neighbor rel) in
    (true, (visitedNodes, visitedRels, if fresh : bool then enqueue else queue)).

Definition bfsStep g (current depth : Z) (dir : Direction) m (nodeFilter : NodeFilter) (relFilter : RelFilter) (backward : bool)
    (otherVisited : option (Set_ bm)) (st : Set_ bm * Set_ bm * queue_t) : res (Set_ bm * Set_ bm * queue_t) :=
  RelsMatch g current dir m (stepBody g current depth nodeFilter relFilter backward otherVisited) st.

(** [(nodeFilter == nil || nodeFilter(id, g)) && nodes.Insert(id)] *)
Definition seedBody g (nodeFilter : NodeFilter) (id : Z) (st : Set_ bm * queue_t) : bool * (Set_ bm * queue_t) :=
  let '(nodes, queue) := st in
  if nodePasses g nodeFilter id then
    let '(fresh, nodes) := Insert nodes id in (true, (nodes, if fresh : bool then queue ++ [(id, 0)] else queue))
  else (true, st).

Definition orPanic {A} (o : option A) : res A := match o with Some a => Ok a | None => Panic end.

Fixpoint bfsLoop (fuel : nat) g (dir : Direction) m (nodeFilter : NodeFilter) (relFilter : RelFilter) (maxDepth : Z)
    (st : Set_ bm * Set_ bm * queue_t) : res (Set_ bm * Set_ bm) :=
  let '(nodes, rels, queue) := st in
  match queue, fuel with
  | [], _ => Ok (nodes, rels)
  | _, O => Panic
  | (current, depth) :: queue, S fuel =>
      if pastDepth maxDepth depth then bfsLoop fuel g dir m nodeFilter relFilter maxDepth (nodes, rels, queue)
      else
        st ← bfsStep g current depth dir m nodeFilter relFilter false None (nodes, rels, queue);
        bfsLoop fuel g dir m nodeFilter relFilter maxDepth st
  end.

Definition BFS g (start : Set_ bm) (dir : Direction) m (nodeFilter : NodeFilter) (relFilter : RelFilter) (maxDepth : Z) : res (Set_ bm * Set_ bm) :=
  '(nodes, queue) ← orPanic (iterYield start (seedBody g nodeFilter) (New, []));
  bfsLoop (searchFuel g (NodeSet.Len start)) g dir m nodeFilter relFilter maxDepth (nodes, New, queue).

(** ** BidirectionalBFS *)

(** The seeding loops: the insertion's answer is not consulted. *)
Definition sideBody g (nodeFilter : NodeFilter) (id : Z) (st : Set_ bm * queue_t) : bool * (Set_ bm * queue_t) :=
  let '(nodes, queue) := st in
  if nodePasses g nodeFilter id then (true, ((Insert nodes id).2, queue ++ [(id, 0)])) else (true, st).

(** The closure [expand]: one level. *)
Fixpoint expand (count : nat) g m (nodeFilter : NodeFilter) (relFilter : RelFilter) (maxDepth : Z) (other : Set_ bm) (d : Direction) (backward : bool)
    (st : Set_ bm * Set_ bm * queue_t) : res (Set_ bm * Set_ bm * queue_t) :=
  match count with
  | O => Ok st
  | S count =>
      let '(visited, visitedRels, queue) := st in
      '(current, depth) ← idx queue 0;
      queue ← slice queue 1 (len queue);
      if pastDepth maxDepth depth then expand count g m nodeFilter relFilter maxDepth other d backward (visited, visitedRels, queue)
      else
        st ← bfsStep g current depth d m nodeFilter relFilter backward (Some other) (visited, visitedRels, queue);
        expand count g m nodeFilter relFilter maxDepth other d backward st
  end.

Fixpoint meetLoop (fuel : nat) g (dir : Direction) m (nodeFilter : NodeFilter) (relFilter : RelFilter) (maxDepth : Z)
    (f b : Set_ bm * Set_ bm * queue_t) : res (Set_ bm * Set_ bm * (Set_ bm * Set_ bm)) :=
  let '(fNodes, fRels, fQueue) := f in
  let '(bNodes, bRels, bQueue) := b in
  if decide (0 < len fQueue ∨ 0 < len bQueue) then
    match fuel with
    | O => Panic
    | S fuel =>
        '(fNodes, fRels, fQueue) ← expand (length fQueue) g m nodeFilter relFilter maxDepth bNodes dir false (fNodes, fRels, fQueue);
        '(bNodes, bRels, bQueue) ← expand (length bQueue) g m nodeFilter relFilter maxDepth fNodes (Reverse dir) true (bNodes, bRels, bQueue);
        meetLoop fuel g dir m nodeFilter relFilter maxDepth (fNodes, fRels, fQueue) (bNodes, bRels, bQueue)
    end
  else Ok (fNodes, fRels, (bNodes, bRels)).

Definition BidirectionalBFS g (source target : Set_ bm) (dir : Direction) m (nodeFilter : NodeFilter) (relFilter : RelFilter) (maxDepth : Z) : res (Set_ bm * Set_ bm) :=
  '(fNodes, fQueue) ← orPanic (iterYield source (sideBody g nodeFilter) (New, []));
  '(bNodes, bQueue) ← orPanic (iterYield target (sideBody g nodeFilter) (New, []));
  let overlap := And fNodes bNodes in
  if negb (IsEmpty overlap) then Ok (overlap, New)
  else
    '(fNodes, fRels, (bNodes, bRels)) ←
      meetLoop (searchFuel g (NodeSet.Len source + NodeSet.Len target)) g dir m nodeFilter relFilter maxDepth
        (fNodes, New, fQueue) (bNodes, New, bQueue);
    let meeting := And fNodes bNodes in
    if IsEmpty meeting then Ok (New, New) else Ok (meeting, Or fRels bRels).

(** ** BFSDistances *)

(** The state is (scratch, [next], [touched]). *)
Definition distBody (depth neighbor : Z) (st : searchScratch * list Z * list Z) : res (searchScratch * list Z * list Z) :=
  let '(s, next, touched) := st in
  stamp ← idx (gen s) neighbor;
  if decide (stamp ≠ cur s) then
    gn ← upd (gen s) neighbor (cur s);
    ds ← upd (sdist s) neighbor depth;
    Ok (mkScratch gn ds (cur s), next ++ [neighbor], touched ++ [neighbor])
  else Ok st.

(** [for _, node := range frontier { for neighbor := range ... { body } }] *)
Definition overFrontier {A} g (dir : Direction) m (body : Z → A → res A) (frontier : list Z) (st : A) : res A :=
  foldM (λ st node, r ← NeighborsMatch g node dir m (tryYield body) (Ok st); r) frontier st.

Fixpoint distLoop (fuel : nat) g (dir : Direction) m (maxDepth depth : Z) (frontier : list Z) (s : searchScratch) (touched : list Z)
    : res (searchScratch * list Z) :=
  match frontier, fuel with
  | [], _ => Ok (s, touched)
  | _, O => Panic
  | _, S fuel =>
      if pastDepth maxDepth depth then Ok (s, touched)
      else
        let depth := to_u32 (depth + 1) in
        '(s, next, touched) ← overFrontier g dir m (distBody depth) frontier (s, [], touched);
        distLoop fuel g dir m maxDepth depth next s touched
  end.

(** The scratch comes from a pool and goes back to it. *)
Definition BFSDistances g (s : searchScratch) (start : Z) (dir : Direction) m (maxDepth : Z) : res (gmap Z Z * searchScratch) :=
  let n := CSRIDSpace g in
  if decide (n ≤ start) then Ok (∅, s)
  else
    let s := takeScratch s n in
    gn ← upd (gen s) start (cur s);
    ds ← upd (sdist s) start 0;
    '(s, touched) ← distLoop (searchFuel g 1) g dir m maxDepth 0 [start] (mkScratch gn ds (cur s)) [start];
    out ← foldM (λ out node, d ← idx (sdist s) node; Ok (<[node := d]> out)) touched ∅;
    Ok (out, s).

(** ** Neighborhood *)

Definition hoodBody (depth loHops neighbor : Z) (st : searchScratch * list Z * Set_ bm) : res (searchScratch * list Z * Set_ bm) :=
  let '(s, next, result) := st in
  stamp ← idx (gen s) neighbor;
  if decide (stamp ≠ cur s) then
    gn ← upd (gen s) neighbor (cur s);
    Ok (mkScratch gn (sdist s) (cur s), next ++ [neighbor], if decide (loHops ≤ depth) then (Insert result neighbor).2 else result)
  else Ok st.

Fixpoint hoodLoop (fuel : nat) g (dir : Direction) m (loHops hiHops depth : Z) (frontier : list Z) (s : searchScratch) (result : Set_ bm)
    : res (searchScratch * Set_ bm) :=
  if decide (depth ≤ hiHops ∧ 0 < len frontier) then
    match fuel with
    | O => Panic
    | S fuel =>
        '(s, next, result) ← overFrontier g dir m (hoodBody depth loHops) frontier (s, [], result);
        hoodLoop fuel g dir m loHops hiHops (to_u32 (depth + 1)) next s result
    end
  else Ok (s, result).

Definition Neighborhood g (s : searchScratch) (seed : Z) (dir : Direction) m (loHops hiHops : Z) : res (Set_ bm * searchScratch) :=
  let n := CSRIDSpace g in
  if decide (hiHops < loHops ∨ n ≤ seed) then Ok (New, s)
  else
    let s := takeScratch s n in
    gn ← upd (gen s) seed (cur s);
    '(s, result) ← hoodLoop (searchFuel g 1) g dir m loHops hiHops 1 [seed] (mkScratch gn (sdist s) (cur s))
      (if decide (loHops = 0) then (Insert New seed).2 else New);
    Ok (result, s).

End search.
