(* ===== verification/SearchBfsSpec.v ===== *)
(** The searches of [src/search_bfs.go] are correct.

    Every search ends, never panics, and answers with the layers of [Hops] over
    the neighbors [Traverse] delivers: reachability and its depth bound, the
    filtered nodes and relationships of [BFS], the meeting set of
    [BidirectionalBFS], exact hop distances and neighborhoods, whatever the
    pooled scratch was used for before. *)

From S2P Require Import Prelude Value AtomTable NodeSet RelTypes InToOut Snapshot TypedAdj Traverse Hops SearchBfs.

(** Neighbors lie in the id space: what [Finalize] builds. *)
Record wfSearch {bm} `{RoaringSet bm} (g : Snapshot bm) (ito : list Z) : Prop := {
  wse_graph : wfGraph g ito;
  wse_space : ∀ out, Forall (λ x, 0 ≤ x < CSRIDSpace g) (dirNbrs g out);
}.

(** [j] hops are allowed. *)
Definition allowed (maxDepth : Z) (j : nat) : Prop := 0 ≤ maxDepth → Z.of_nat j ≤ maxDepth.

Lemma pastDepth_false maxDepth (k : nat) : pastDepth maxDepth (Z.of_nat k) = false ↔ allowed maxDepth (S k).
Proof. unfold pastDepth, allowed. rewrite bool_decide_eq_false. lia. Qed.
Lemma pastDepth_true maxDepth (k : nat) : pastDepth maxDepth (Z.of_nat k) = true ↔ 0 ≤ maxDepth ≤ Z.of_nat k.
Proof. unfold pastDepth. by rewrite bool_decide_eq_true. Qed.

Section adjacency.
Context {bm : Type} `{RoaringSet bm} (g : Snapshot bm) (ito : list Z) (Hwf : wfSearch g ito).

Lemma CSRIDSpace_u32 : 0 ≤ CSRIDSpace g < 4294967296.
Proof. unfold CSRIDSpace. case_decide; [lia|]. pose proof (wrapU_range 32 (len (outOffsets g) - 1)). lia. Qed.

Lemma nodeMatches_bounds m out node k : k ∈ nodeMatches g m out node → 0 ≤ k < len (dirNbrs g out).
Proof using Hwf.
  destruct Hwf as [Hg _]. pose proof (wfDir_of g ito Hg out) as [_ _ _ _ Hr _]. unfold nodeMatches. case_decide as Hd; [by intros ?%not_elem_of_nil|].
  rewrite list_elem_of_filter, elem_of_seqZ. intros [_ Hk]. unfold off in Hk. set (os := dirOffsets g out) in *.
  assert (0 ≤ node) by (destruct (decide (0 ≤ node)); [done|]; replace (Z.to_nat (node + 1)) with (Z.to_nat node) in Hk by lia; lia).
  assert (∀ i, (i < length os)%nat → 0 ≤ os !!! i ≤ len (dirNbrs g out)) as Hi.
  { intros i Hi. destruct (lookup_lt_is_Some_2 os i Hi) as [o Ho]. rewrite (list_lookup_total_correct _ _ _ Ho).
    rewrite Forall_lookup in Hr. by eapply Hr. }
  pose proof (Hi (Z.to_nat node)) as H1. pose proof (Hi (Z.to_nat (node + 1))) as H2. unfold len in *. lia.
Qed.

Lemma nb_space out k : 0 ≤ k < len (dirNbrs g out) → 0 ≤ nb (dirNbrs g out) k < CSRIDSpace g.
Proof using Hwf.
  intros Hk. destruct Hwf as [_ Hs]. specialize (Hs out). unfold nb. destruct (lookup_lt_is_Some_2 (dirNbrs g out) (Z.to_nat k)) as [x Hx]; [unfold len in Hk; lia|].
  rewrite (list_lookup_total_correct _ _ _ Hx). rewrite Forall_lookup in Hs. by eapply Hs.
Qed.

Lemma rels_space m node dir r : r ∈ relsOf g m ito node dir → 0 ≤ Neighbor r < CSRIDSpace g.
Proof using Hwf.
  assert (∀ out, r ∈ relRefs g m ito node out → 0 ≤ Neighbor r < CSRIDSpace g) as Hd.
  { intros out. unfold relRefs. rewrite list_elem_of_fmap. intros (k & -> & Hk). cbn [Neighbor]. by eapply nb_space, nodeMatches_bounds. }
  unfold relsOf. rewrite elem_of_app. intros [Hr|Hr]; case_match; try (by apply not_elem_of_nil in Hr); by eapply Hd.
Qed.

Lemma neighborsOf_rels m node dir : neighborsOf g m node dir = Neighbor <$> relsOf g m ito node dir.
Proof.
  unfold neighborsOf, relsOf, neighborsDir, relRefs. rewrite fmap_app. f_equal; case_match; try done; by rewrite <- list_fmap_compose.
Qed.

Lemma nbrs_space m node dir w : w ∈ neighborsOf g m node dir → 0 ≤ w < CSRIDSpace g.
Proof using Hwf. rewrite neighborsOf_rels, list_elem_of_fmap. intros (r & -> & Hr). by eapply rels_space. Qed.

(** Where a search can get to. *)
Definition universe (S0 : gset Z) : gset Z := S0 ∪ list_to_set (zseq (CSRIDSpace g)).

Lemma universe_size S0 : Z.of_nat (size (universe S0)) ≤ Z.of_nat (size S0) + CSRIDSpace g.
Proof.
  unfold universe. pose proof CSRIDSpace_u32. pose proof (size_union_alt S0 (list_to_set (zseq (CSRIDSpace g)))) as E.
  assert (Z.of_nat (size (list_to_set (zseq (CSRIDSpace g)) ∖ S0 : gset Z)) ≤ CSRIDSpace g); [|rewrite E; lia].
  apply (interval_size_le _ 0); [lia|]. intros x. rewrite elem_of_difference, elem_of_list_to_set, elem_of_zseq. lia.
Qed.

Lemma universe_u32 S0 : (∀ s, s ∈ S0 → is_u32 s) → Z.of_nat (size (universe S0)) ≤ 4294967296.
Proof.
  intros HS. apply (interval_size_le _ 0); [lia|]. intros x. unfold universe. rewrite elem_of_union, elem_of_list_to_set, elem_of_zseq.
  pose proof CSRIDSpace_u32. intros [Hx%HS|Hx]; lia.
Qed.

Lemma elem_of_universe S0 w : 0 ≤ w < CSRIDSpace g → w ∈ universe S0.
Proof. intros. unfold universe. rewrite elem_of_union, elem_of_list_to_set, elem_of_zseq. by right. Qed.

End adjacency.

Section sets.
Context {bm : Type} `{RoaringSetLaws bm}.

Lemma Insert_fresh (s : Set_ bm) x : (Insert s x).1 = negb (bool_decide (x ∈ elems s)).
Proof. unfold Insert. cbn. by rewrite bm_contains. Qed.
Lemma elems_Insert (s : Set_ bm) x : elems (Insert s x).2 = {[x]} ∪ elems s.
Proof. unfold Insert, elems. cbn. by rewrite bm_add. Qed.
Lemma elems_New : elems (New : Set_ bm) = ∅.
Proof. unfold elems, New. cbn. apply bm_new. Qed.
Lemma elems_And (a b : Set_ bm) : elems (And a b) = elems a ∩ elems b.
Proof. unfold elems, And. cbn. apply bm_and. Qed.
Lemma elems_Or (a b : Set_ bm) : elems (Or a b) = elems a ∪ elems b.
Proof. unfold elems, Or. cbn. apply bm_or. Qed.
Lemma Contains_elems (s : Set_ bm) x : Contains s x = bool_decide (x ∈ elems s).
Proof. unfold Contains, elems. apply bm_contains. Qed.
Lemma elem_of_ToSlice (s : Set_ bm) x : x ∈ ToSlice s ↔ x ∈ elems s.
Proof. apply bm_toArray. Qed.
Lemma ToSlice_NoDup (s : Set_ bm) : NoDup (ToSlice s).
Proof.
  unfold ToSlice. destruct (bm_toArray (sbm s)) as [Hs _]. induction Hs as [|x l _ IH Hx]; constructor; [|done].
  rewrite Forall_forall in Hx. intros Hin. specialize (Hx x Hin). lia.
Qed.
End sets.

(** ** The queue *)

(** The queue at depth [k]. *)
Definition levels (k : nat) (todo next : list Z) : list (Z * Z) :=
  ((λ v, (v, Z.of_nat k)) <$> todo) ++ ((λ v, (v, Z.of_nat (S k))) <$> next).

Lemma levels_down k next : levels k [] next = levels (S k) next [].
Proof. unfold levels. cbn [fmap list_fmap app]. by rewrite app_nil_r. Qed.

Section queues.
Context {bm : Type} `{RoaringSet bm} (g : Snapshot bm) (adj : Z → list Z) (S0 : gset Z).
Hypothesis HS : ∀ s, s ∈ S0 → is_u32 s.
Hypothesis Hadj : ∀ v w, w ∈ adj v → 0 ≤ w < CSRIDSpace g.

Lemma start_in_universe : S0 ⊆ universe g S0.
Proof using Type. apply union_subseteq_l. Qed.
Lemma adj_in_universe v w : w ∈ adj v → w ∈ universe g S0.
Proof using Hadj. intros Hw. by eapply elem_of_universe, Hadj. Qed.

Lemma dist_u32 k v : dist adj S0 k v → Z.of_nat k < 4294967296.
Proof using HS Hadj.
  intros Hd. pose proof (dist_bound _ _ _ start_in_universe adj_in_universe _ _ Hd). pose proof (universe_u32 g S0 HS). lia.
Qed.

Lemma ball_u32 k v : v ∈ ball adj S0 k → is_u32 v.
Proof using HS Hadj.
  intros Hv. apply (ball_universe _ _ _ start_in_universe adj_in_universe) in Hv. unfold universe in Hv.
  rewrite elem_of_union, elem_of_list_to_set, elem_of_zseq in Hv. pose proof (CSRIDSpace_u32 g). destruct Hv as [Hv%HS|Hv]; lia.
Qed.

(** Depths stay within uint32. *)
Lemma levels_expand k v todo next visited : layer adj S0 k (v :: todo) next visited →
  levels k todo next ++ ((λ w, (w, to_u32 (Z.of_nat k + 1))) <$> freshOf visited (adj v)) = levels k todo (next ++ freshOf visited (adj v)).
Proof using HS Hadj.
  intros Hl%layer_expand. unfold levels. rewrite fmap_app, app_assoc. f_equal. apply list_fmap_ext. intros i w Hw.
  assert (dist adj S0 (S k) w) as Hd.
  { eapply ly_next; [exact Hl|]. rewrite elem_of_app. right. by eapply list_elem_of_lookup_2. }
  apply dist_u32 in Hd. f_equal. rewrite wrapU_small by lia. lia.
Qed.

(** A search within its depth bound. *)
Record searching (maxDepth : Z) (k : nat) (todo next : list Z) (visited : gset Z) : Prop := {
  sg_layer : layer adj S0 k todo next visited;
  sg_depth : allowed maxDepth k;
  sg_next : next ≠ [] → allowed maxDepth (S k);
  sg_full : pastDepth maxDepth (Z.of_nat k) = true → ∀ v, dist adj S0 k v → v ∈ todo;
}.

Lemma searching_start maxDepth todo : NoDup todo → (∀ v, v ∈ todo ↔ v ∈ S0) → searching maxDepth 0 todo [] S0.
Proof.
  intros Hnd Ht. split; [by apply layer_start|unfold allowed; lia|done|]. intros _ v Hv%dist_0. by apply Ht.
Qed.

Lemma searching_down maxDepth k next visited : searching maxDepth k [] next visited → next ≠ [] → searching maxDepth (S k) next [] visited.
Proof using Type.
  intros [Hl Hk Hnk _] Hne. split; [by apply layer_down|by apply Hnk|done|]. intros _ x [Hx Hnx]%dist_S.
  apply (layer_stop _ _ _ _ _ _ (layer_down _ _ _ _ _ Hl)), (ly_visited _ _ _ _ _ _ Hl) in Hx. tauto.
Qed.

(** The head of the queue. *)
Lemma searching_head maxDepth k todo next visited : searching maxDepth k todo next visited → todo ++ next ≠ [] →
  ∃ k' v todo' next', levels k todo next = levels k' (v :: todo') next' ∧ searching maxDepth k' (v :: todo') next' visited ∧ 0 ≤ v ∧
    (length todo + length next = S (length todo' + length next'))%nat.
Proof using HS Hadj.
  intros Hs Hne. pose proof (sg_layer _ _ _ _ _ Hs) as Hl. assert (∀ x, x ∈ visited → 0 ≤ x) as Hpos.
  { intros x [Hx|Hx]%(ly_visited _ _ _ _ _ _ Hl); [by eapply ball_u32|]. apply (ly_next _ _ _ _ _ _ Hl), dist_ball in Hx. by eapply ball_u32. }
  destruct todo as [|v todo]; [destruct next as [|v next]; [done|]|].
  - exists (S k), v, next, []. rewrite levels_down. split; [done|]. split; [by apply searching_down|].
    split; [apply Hpos, (ly_visited _ _ _ _ _ _ Hl); right; by left|cbn; lia].
  - exists k, v, todo, next. split; [done|]. split; [done|]. split; [|cbn; lia]. apply Hpos, (ly_visited _ _ _ _ _ _ Hl). left.
    apply dist_ball. eapply ly_todo; [exact Hl|by left].
Qed.

(** Expanding the head pays one unit of fuel. *)
Lemma searching_expand maxDepth k v todo next visited : searching maxDepth k (v :: todo) next visited → pastDepth maxDepth (Z.of_nat k) = false →
  searching maxDepth k todo (next ++ freshOf visited (adj v)) (list_to_set (adj v) ∪ visited) ∧
  (length (next ++ freshOf visited (adj v)) + size (universe g S0 ∖ (list_to_set (adj v) ∪ visited)) = length next + size (universe g S0 ∖ visited))%nat.
Proof using Hadj.
  intros [Hl Hk Hnk Hfull] Hp. split; [split; [by apply layer_expand|done|intros _; by apply pastDepth_false|by rewrite Hp]|].
  pose proof (unvisited_expand (universe g S0) visited (adj v) (adj_in_universe v)). rewrite length_app. lia.
Qed.

(** What a search has found when it stops. *)
Definition found (maxDepth v : Z) : Prop := ∃ j, allowed maxDepth j ∧ v ∈ ball adj S0 j.

Lemma found_reach maxDepth v : found maxDepth v ↔ ∃ k, allowed maxDepth k ∧ reach adj S0 k v.
Proof using Type.
  split.
  - intros (j & Hj & (k & Hk & Hv)%elem_of_ball). exists k. split; [unfold allowed in *; lia|done].
  - intros (k & Hk & Hv). exists k. split; [done|]. apply elem_of_ball. by exists k.
Qed.

Lemma searching_past maxDepth k todo next visited v : searching maxDepth k todo next visited → pastDepth maxDepth (Z.of_nat k) = true →
  next = [] ∧ (v ∈ visited ↔ found maxDepth v).
Proof.
  intros [Hl Hk Hnk Hfull] Hp%pastDepth_true. assert (next = []) as ->.
  { destruct next; [done|]. specialize (Hnk ltac:(done)). unfold allowed in Hnk. lia. }
  split; [done|]. rewrite (layer_stop _ _ _ _ _ _ Hl). split; [intros Hv; by exists k|].
  intros (j & Hj & Hv). eapply ball_mono; [|exact Hv]. unfold allowed in *. lia.
Qed.

Lemma searching_end maxDepth k visited v : searching maxDepth k [] [] visited → v ∈ visited ↔ found maxDepth v.
Proof.
  intros [Hl Hk _ _]. split.
  - rewrite (layer_stop _ _ _ _ _ _ Hl). intros Hv. by exists k.
  - intros (j & _ & Hv). apply (layer_done _ _ _ _ _ Hl). by exists j.
Qed.

(** The nodes that were expanded when a search stops: those with a hop to spare. *)
Lemma searching_expanded maxDepth k todo visited v : searching maxDepth k todo [] visited → (todo = [] ∨ pastDepth maxDepth (Z.of_nat k) = true) →
  v ∈ visited ∧ v ∉ todo ↔ ∃ j, allowed maxDepth (S j) ∧ v ∈ ball adj S0 j.
Proof.
  intros [Hl Hk _ Hfull] Hstop. rewrite (layer_stop _ _ _ _ _ _ Hl). destruct (pastDepth maxDepth (Z.of_nat k)) eqn:Hp.
  - pose proof Hp as Hp'%pastDepth_true. split.
    + intros [(j & Hj & Hd)%elem_of_ball_dist Hn]. exists j. split; [|by apply dist_ball]. assert (j ≠ k); [|unfold allowed in *; lia].
      intros ->. by apply Hn, Hfull.
    + intros (j & Hj & Hv). apply elem_of_ball_dist in Hv as (i & Hi & Hd). split.
      * apply elem_of_ball_dist. exists i. split; [unfold allowed in *; lia|done].
      * intros Ht%(ly_todo _ _ _ _ _ _ Hl). pose proof (dist_unique _ _ _ _ _ Ht Hd). unfold allowed in *. lia.
  - destruct Hstop as [->|?]; [|done]. apply pastDepth_false in Hp. split; [intros [Hv _]; by exists k|].
    intros (j & _ & Hv). split; [|apply not_elem_of_nil]. apply (layer_stop _ _ _ _ _ _ Hl), (layer_done _ _ _ _ _ Hl). by exists j.
Qed.
End queues.

(** ** CanReach *)

Section canReach.
Context {bm : Type} `{RoaringSetLaws bm} (g : Snapshot bm) (ito : list Z) (m : RelMatch (Snapshot bm)) (dir : Direction).
Hypothesis Hwf : wfSearch g ito.
Hypothesis Hm : matchOK g m.

Abbreviation adj := (λ x, neighborsOf g m x dir).

Lemma reachBody_ok to depth ws (vis : Set_ bm) queue : ∃ vis' queue' go,
  yieldAll (reachBody to depth) ws (false, vis, queue) = (go, (bool_decide (to ∈ ws), vis', queue')) ∧
  (to ∉ ws → elems vis' = list_to_set ws ∪ elems vis ∧ queue' = queue ++ ((λ w, (w, to_u32 (depth + 1))) <$> freshOf (elems vis) ws)).
Proof.
  revert vis queue. induction ws as [|w ws IH]; intros vis queue.
  { exists vis, queue, true. rewrite bool_decide_false by set_solver. split; [done|]. intros _. cbn. rewrite app_nil_r. split; [set_solver|done]. }
  cbn [yieldAll]. unfold reachBody at 1. destruct (decide (w = to)) as [Hw|Hw].
  { exists vis, queue, false. rewrite bool_decide_true by (subst; by left). split; [done|]. subst. intros []. by left. }
  destruct (Insert vis w) as [fresh vis1] eqn:Ei. pose proof (Insert_fresh vis w) as Ef. pose proof (elems_Insert vis w) as Ee. rewrite Ei in Ef, Ee. cbn in Ef, Ee. subst fresh.
  destruct (IH vis1 (if negb (bool_decide (w ∈ elems vis)) then queue ++ [(w, to_u32 (depth + 1))] else queue)) as (vis' & queue' & go & E & Hr).
  exists vis', queue', go. rewrite E. split.
  { do 3 f_equal. apply bool_decide_ext. rewrite elem_of_cons. naive_solver. }
  intros Hn. destruct Hr as [E1 E2]; [set_solver|]. split; [set_solver|]. rewrite E2, Ee. cbn [freshOf].
  destruct (decide (w ∈ elems vis)) as [Hd|Hd]; [rewrite bool_decide_true by done|rewrite bool_decide_false by done]; cbn [negb].
  - by replace ({[w]} ∪ elems vis) with (elems vis) by set_solver.
  - by rewrite <- app_assoc.
Qed.

(** Past the bound, what is left in the queue is only dropped. *)
Lemma canReach_drain fuel to maxDepth (vis : Set_ bm) k todo : pastDepth maxDepth (Z.of_nat k) = true → (length todo ≤ fuel)%nat →
  canReachLoop fuel g to dir m maxDepth vis (levels k todo []) = Ok false.
Proof.
  intros Hp. revert fuel. induction todo as [|v todo IH]; intros fuel Hf; [by destruct fuel|].
  destruct fuel as [|fuel]; [cbn in Hf; lia|]. cbn -[Z.of_nat]. rewrite Hp. apply IH. cbn in Hf. lia.
Qed.

Lemma canReachLoop_ok from to maxDepth : is_u32 from → ∀ fuel k todo next (vis : Set_ bm), searching adj {[from]} maxDepth k todo next (elems vis) →
  to ∉ elems vis → (length todo + length next + size (universe g {[from]} ∖ elems vis) < fuel)%nat →
  ∃ b, canReachLoop fuel g to dir m maxDepth vis (levels k todo next) = Ok b ∧ (b = true ↔ found adj {[from]} maxDepth to).
Proof using All.
  intros Hfrom. set (S0 := {[from]} : gset Z). assert (∀ s, s ∈ S0 → is_u32 s) as HS by (unfold S0; set_solver).
  assert (∀ v w, w ∈ adj v → 0 ≤ w < CSRIDSpace g) as Hadj by (intros v w; by eapply nbrs_space).
  induction fuel as [|fuel IH]; intros k todo next vis Hs Hto Hf; [lia|].
  destruct (decide (todo ++ next = [])) as [[-> ->]%app_nil|Hne].
  { exists false. split; [done|]. rewrite <- (searching_end _ _ _ _ _ _ Hs). naive_solver. }
  destruct (searching_head _ _ _ HS Hadj _ _ _ _ _ Hs Hne) as (k' & v & todo' & next' & -> & Hs' & Hv & Hlen). clear Hs Hne k.
  destruct (pastDepth maxDepth (Z.of_nat k')) eqn:Hp.
  { destruct (searching_past _ _ _ _ _ _ _ to Hs' Hp) as [-> Hfound]. exists false. split; [|naive_solver].
    apply canReach_drain; [done|]. cbn in *. lia. }
  change (levels k' (v :: todo') next') with ((v, Z.of_nat k') :: levels k' todo' next'). cbn [canReachLoop]. rewrite Hp. unfold NeighborsMatch. rewrite (neighborsYield_ok g ito m (wse_graph _ _ Hwf) Hm) by done. cbn [mbind res_bind].
  destruct (reachBody_ok to (Z.of_nat k') (adj v) vis (levels k' todo' next')) as (vis' & queue' & go & -> & Hr). cbn [snd].
  case_bool_decide as Hin.
  { exists true. split; [done|]. split; [|done]. intros _. exists (S k'). split; [by apply pastDepth_false|]. apply elem_of_ball_S. right. exists v.
    split; [|done]. apply dist_ball. eapply ly_todo; [apply Hs'|by left]. }
  destruct (Hr Hin) as [Ev ->]. rewrite (levels_expand g adj S0 HS Hadj) by apply Hs'.
  destruct (searching_expand _ _ _ Hadj _ _ _ _ _ _ Hs' Hp) as [Hs'' Hlen']. rewrite <- Ev in Hs'', Hlen'. apply IH; [done| |lia].
  rewrite Ev. set_solver.
Qed.

Lemma CanReach_ok from to maxDepth : is_u32 from → ∃ b, CanReach g from to dir m maxDepth = Ok b ∧
  (b = true ↔ found adj {[from]} maxDepth to).
Proof using All.
  intros Hfrom. unfold CanReach. case_decide as E.
  { exists true. split; [done|]. split; [|done]. intros _. subst to. exists 0%nat. split; [unfold allowed; lia|cbn; set_solver]. }
  assert (elems (Of [from] : Set_ bm) = {[from]}) as Ee by (unfold elems, Of; cbn; rewrite bm_of; set_solver).
  destruct (canReachLoop_ok from to maxDepth Hfrom (searchFuel g 1) 0 [from] [] (Of [from])) as (b & Eb & Hb); [| | |by exists b].
  - rewrite Ee. apply searching_start; [apply NoDup_singleton|set_solver].
  - rewrite Ee. set_solver.
  - rewrite Ee. unfold searchFuel. pose proof (universe_size g {[from]}) as Hu. rewrite size_singleton in Hu.
    assert (size (universe g {[from]} ∖ {[from]}) + 1 = size (universe g {[from]}))%nat; [|pose proof (CSRIDSpace_u32 g); cbn [length]; lia].
    assert (({[from]} : gset Z) ⊆ universe g {[from]}) as Hsub by (unfold universe; set_solver).
    pose proof (size_difference _ _ Hsub) as Hd. pose proof (subseteq_size _ _ Hsub) as Hz. rewrite size_singleton in Hd, Hz. lia.
Qed.

End canReach.

(** ** BFS *)

Section bfs.
Context {bm : Type} `{RoaringSetLaws bm} (g : Snapshot bm) (ito : list Z) (m : RelMatch (Snapshot bm)).
Context (nodeFilter : option (Z → Snapshot bm → bool)) (relFilter : option (Z → Z → Z → Z → Snapshot bm → bool)).
Hypothesis Hwf : wfSearch g ito.
Hypothesis Hm : matchOK g m.

(** Both filters accept following [r] from [x]. *)
Definition passes (backward : bool) (x : Z) (r : RelRef) : bool :=
  relPasses g relFilter (if backward then Neighbor r else x) (if backward then x else Neighbor r) (Type_ r) (Pos r) &&
  nodePasses g nodeFilter (Neighbor r).

Definition keptRels (backward : bool) (x : Z) (rs : list RelRef) : list RelRef := filter (λ r, passes backward x r = true) rs.
Definition stepRels (d : Direction) (backward : bool) (x : Z) : list RelRef := keptRels backward x (relsOf g m ito x d).
Definition stepNbrs (d : Direction) (backward : bool) (x : Z) : list Z := Neighbor <$> stepRels d backward x.

Lemma elem_of_stepRels d bw x r : r ∈ stepRels d bw x ↔ passes bw x r = true ∧ r ∈ relsOf g m ito x d.
Proof. unfold stepRels, keptRels. by rewrite list_elem_of_filter. Qed.

Lemma stepNbrs_space d bw v w : w ∈ stepNbrs d bw v → 0 ≤ w < CSRIDSpace g.
Proof using Hwf. unfold stepNbrs. rewrite list_elem_of_fmap. intros (r & -> & [_ Hr]%elem_of_stepRels). by eapply rels_space. Qed.

(** One relationship. The relationship is recorded when the other side is not
    watched or its end is new. *)
Lemma stepBody_one x depth bw other r (nodes rels : Set_ bm) queue : passes bw x r = true → ∃ nodes' rels',
  stepBody g x depth nodeFilter relFilter bw other r (nodes, rels, queue) =
    (true, (nodes', rels', if decide (Neighbor r ∈ elems nodes) then queue else queue ++ [(Neighbor r, to_u32 (depth + 1))])) ∧
  elems nodes' = {[Neighbor r]} ∪ elems nodes ∧ elems rels ⊆ elems rels' ∧ elems rels' ⊆ {[Pos r]} ∪ elems rels ∧
  (other = None ∨ Neighbor r ∉ elems nodes → Pos r ∈ elems rels').
Proof.
  unfold passes. intros [Hr Hn]%andb_true_iff. unfold stepBody.
  assert (∀ (A : Type) (F : Z → Z → A), (let '(from, to) := if bw then (Neighbor r, x) else (x, Neighbor r) in F from to) =
    F (if bw then Neighbor r else x) (if bw then x else Neighbor r)) as -> by (by destruct bw).
  rewrite Hr, Hn. cbn [negb]. pose proof (Insert_fresh nodes (Neighbor r)) as Ef. pose proof (elems_Insert nodes (Neighbor r)) as Ee.
  pose proof (elems_Insert rels (Pos r)) as Er. destruct (Insert nodes (Neighbor r)) as [fresh nodes']. cbn in Ef, Ee. subst fresh.
  assert (∀ (A : Type) (a b : A), (if negb (bool_decide (Neighbor r ∈ elems nodes)) then a else b) = if decide (Neighbor r ∈ elems nodes) then b else a) as Hif.
  { intros A a b. case_decide; [rewrite bool_decide_true by done|rewrite bool_decide_false by done]; done. }
  destruct other as [o|]; [destruct (Contains o (Neighbor r))|]; rewrite Hif; cbn [negb].
  - eexists _, _. split; [reflexivity|]. set_solver.
  - destruct (decide (Neighbor r ∈ elems nodes)) as [Hd|Hd]; eexists _, _; (split; [reflexivity|]); [|set_solver].
    split; [done|]. split; [done|]. split; [set_solver|]. by intros [?|?].
  - eexists _, _. split; [reflexivity|]. set_solver.
Qed.

Lemma stepBody_ok x depth bw other rs (nodes rels : Set_ bm) queue : ∃ nodes' rels',
  yieldAll (stepBody g x depth nodeFilter relFilter bw other) rs (nodes, rels, queue) =
    (true, (nodes', rels', queue ++ ((λ w, (w, to_u32 (depth + 1))) <$> freshOf (elems nodes) (Neighbor <$> keptRels bw x rs)))) ∧
  elems nodes' = list_to_set (Neighbor <$> keptRels bw x rs) ∪ elems nodes ∧ elems rels ⊆ elems rels' ∧
  (∀ p, p ∈ elems rels' → p ∈ elems rels ∨ ∃ r, r ∈ keptRels bw x rs ∧ Pos r = p) ∧
  (∀ r, r ∈ keptRels bw x rs → other = None → Pos r ∈ elems rels') ∧
  (∀ w, w ∈ freshOf (elems nodes) (Neighbor <$> keptRels bw x rs) → ∃ r, r ∈ keptRels bw x rs ∧ Neighbor r = w ∧ Pos r ∈ elems rels').
Proof.
  revert nodes rels queue. induction rs as [|r rs IH]; intros nodes rels queue.
  { exists nodes, rels. cbn. rewrite app_nil_r. split; [done|]. set_solver. }
  cbn [yieldAll]. unfold keptRels. rewrite filter_cons. destruct (decide (passes bw x r = true)) as [Hp|Hp].
  - destruct (stepBody_one x depth bw other r nodes rels queue Hp) as (nodes1 & rels1 & -> & En & Hs1 & Hs2 & Hrec).
    destruct (IH nodes1 rels1 (if decide (Neighbor r ∈ elems nodes) then queue else queue ++ [(Neighbor r, to_u32 (depth + 1))])) as (nodes' & rels' & E & E1 & E2 & E3 & E4 & E5).
    fold (keptRels bw x rs). exists nodes', rels'. rewrite E. clear E IH. rewrite fmap_cons. cbn [list_to_set freshOf].
    assert (({[Neighbor r]} ∪ elems nodes = elems nodes ∧ Neighbor r ∈ elems nodes) ∨ Neighbor r ∉ elems nodes) as [[Eu Hin]|Hin] by (destruct (decide (Neighbor r ∈ elems nodes)); [left; set_solver|by right]).
    + rewrite !decide_True by done. rewrite En, Eu in *. split; [done|]. split; [set_solver|]. split; [set_solver|]. split; [|split].
      * intros p Hp'. destruct (E3 p Hp') as [Hq|(r' & Hr' & <-)]; [|right; exists r'; set_solver]. apply Hs2, elem_of_union in Hq as [Hq%elem_of_singleton|Hq]; [right; exists r; set_solver|by left].
      * intros r' [->|Hr']%elem_of_cons Ho; [|by apply E4]. apply E2, Hrec. by left.
      * intros w Hw. destruct (E5 w Hw) as (r' & Hr' & ? & ?). exists r'. set_solver.
    + rewrite !decide_False by done. rewrite <- En. rewrite fmap_cons, <- app_assoc. split; [done|]. split; [set_solver|]. split; [set_solver|]. split; [|split].
      * intros p Hp'. destruct (E3 p Hp') as [Hq|(r' & Hr' & <-)]; [|right; exists r'; set_solver]. apply Hs2, elem_of_union in Hq as [Hq%elem_of_singleton|Hq]; [right; exists r; set_solver|by left].
      * intros r' [->|Hr']%elem_of_cons Ho; [|by apply E4]. apply E2, Hrec. by left.
      * intros w [->|Hw]%elem_of_cons; [exists r; split; [by left|]; split; [done|apply E2, Hrec; by right]|].
        destruct (E5 w Hw) as (r' & Hr' & ? & ?). exists r'. set_solver.
  - assert (stepBody g x depth nodeFilter relFilter bw other r (nodes, rels, queue) = (true, (nodes, rels, queue))) as ->; [|apply IH].
    unfold passes in Hp. unfold stepBody. destruct bw; destruct (relPasses _ _ _ _ _ _); destruct (nodePasses _ _ _); done.
Qed.

Lemma bfsStep_ok x depth d bw other (nodes rels : Set_ bm) queue : 0 ≤ x → ∃ nodes' rels',
  bfsStep g x depth d m nodeFilter relFilter bw other (nodes, rels, queue) =
    Ok (nodes', rels', queue ++ ((λ w, (w, to_u32 (depth + 1))) <$> freshOf (elems nodes) (stepNbrs d bw x))) ∧
  elems nodes' = list_to_set (stepNbrs d bw x) ∪ elems nodes ∧ elems rels ⊆ elems rels' ∧
  (∀ p, p ∈ elems rels' → p ∈ elems rels ∨ ∃ r, r ∈ stepRels d bw x ∧ Pos r = p) ∧
  (∀ r, r ∈ stepRels d bw x → other = None → Pos r ∈ elems rels') ∧
  (∀ w, w ∈ freshOf (elems nodes) (stepNbrs d bw x) → ∃ r, r ∈ stepRels d bw x ∧ Neighbor r = w ∧ Pos r ∈ elems rels').
Proof using All.
  intros Hx. unfold bfsStep, RelsMatch. rewrite (relsYield_ok g ito m (wse_graph _ _ Hwf) Hm) by done.
  destruct (stepBody_ok x depth bw other (relsOf g m ito x d) nodes rels queue) as (nodes' & rels' & -> & Hr). exists nodes', rels'. by split.
Qed.

(** The seeds. *)
Definition seeds (s : Set_ bm) : gset Z := filter (λ v, nodePasses g nodeFilter v = true) (elems s).
Definition seedList (s : Set_ bm) : list Z := filter (λ v, nodePasses g nodeFilter v = true) (ToSlice s).

Lemma elem_of_seedList s v : v ∈ seedList s ↔ v ∈ seeds s.
Proof. unfold seedList, seeds. by rewrite list_elem_of_filter, elem_of_filter, elem_of_ToSlice. Qed.
Lemma seedList_NoDup s : NoDup (seedList s).
Proof. apply NoDup_filter, ToSlice_NoDup. Qed.

(** Both seeding bodies insert the accepted ids and queue them at depth 0. *)
Lemma seeding_ok (body : Z → Set_ bm * list (Z * Z) → bool * (Set_ bm * list (Z * Z))) s :
  (∀ id (nodes : Set_ bm) queue, body id (nodes, queue) =
    (true, if nodePasses g nodeFilter id then ((Insert nodes id).2, if decide (id ∈ elems nodes) then (body id (nodes, queue)).2.2 else queue ++ [(id, 0)]) else (nodes, queue))) →
  ∃ nodes, iterYield s body (New, []) = Some (nodes, levels 0 (seedList s) []) ∧ elems nodes = seeds s.
Proof.
  intros Hb. rewrite iterYield_ok. unfold seedList, seeds.
  assert (∀ ids (nodes : Set_ bm) queue, NoDup ids → (∀ x, x ∈ ids → x ∉ elems nodes) → ∃ nodes',
    (yieldAll body ids (nodes, queue)).2 = (nodes', queue ++ ((λ v, (v, Z.of_nat 0)) <$> filter (λ v, nodePasses g nodeFilter v = true) ids)) ∧
    elems nodes' = list_to_set (filter (λ v, nodePasses g nodeFilter v = true) ids) ∪ elems nodes) as Hids.
  { induction ids as [|id ids IH]; intros nodes queue Hnd Hfresh; [exists nodes; cbn; rewrite app_nil_r; split; [done|set_solver]|].
    apply NoDup_cons in Hnd as [Hid Hnd]. cbn [yieldAll]. rewrite Hb, filter_cons. destruct (nodePasses g nodeFilter id) eqn:Ep.
    - rewrite decide_False by (apply Hfresh; by left). rewrite decide_True by done.
      destruct (IH (Insert nodes id).2 (queue ++ [(id, 0)]) Hnd) as (nodes' & E & Ee).
      { intros x Hx. rewrite elems_Insert. pose proof (Hfresh x). set_solver. }
      exists nodes'. rewrite E, fmap_cons, <- app_assoc. split; [done|]. rewrite Ee, elems_Insert. cbn [list_to_set]. set_solver.
    - rewrite decide_False by done. apply IH; [done|]. intros x Hx. apply Hfresh. by right. }
  destruct (Hids (ToSlice s) New [] (ToSlice_NoDup s)) as (nodes & -> & Ee); [intros; rewrite elems_New; set_solver|].
  exists nodes. unfold levels. cbn [fmap list_fmap app]. rewrite app_nil_r. split; [done|]. rewrite Ee, elems_New.
  apply set_eq. intros x. rewrite elem_of_union, elem_of_list_to_set, list_elem_of_filter, elem_of_filter, elem_of_ToSlice. set_solver.
Qed.

Lemma seedBody_seeds s : ∃ nodes, iterYield s (seedBody g nodeFilter) (New, []) = Some (nodes, levels 0 (seedList s) []) ∧ elems nodes = seeds s.
Proof.
  apply seeding_ok. intros id nodes queue. unfold seedBody. destruct (nodePasses g nodeFilter id); [|done].
  pose proof (Insert_fresh nodes id) as Ef. destruct (Insert nodes id) as [fresh nodes']. cbn in *. subst fresh. case_decide; [done|]. by rewrite bool_decide_false.
Qed.
Lemma sideBody_seeds s : ∃ nodes, iterYield s (sideBody g nodeFilter) (New, []) = Some (nodes, levels 0 (seedList s) []) ∧ elems nodes = seeds s.
Proof.
  apply seeding_ok. intros id nodes queue. unfold sideBody. destruct (nodePasses g nodeFilter id); [|done]. cbn. by case_decide.
Qed.

(** The fuel covers what is left to visit. *)
Lemma seeds_fuel s extra : 0 ≤ extra → NodeSet.Len s ≤ extra →
  (length (seedList s) + size (universe g (seeds s) ∖ seeds s) < searchFuel g extra)%nat.
Proof.
  intros He Hl. assert (length (seedList s) = size (seeds s)) as ->.
  { rewrite <- (size_list_to_set (C := gset Z)) by apply seedList_NoDup. f_equal. apply set_eq. intros x. by rewrite elem_of_list_to_set, elem_of_seedList. }
  pose proof (start_in_universe g (seeds s)) as Hsub. pose proof (size_difference _ _ Hsub). pose proof (subseteq_size _ _ Hsub).
  pose proof (universe_size g (seeds s)) as Hu. pose proof (CSRIDSpace_u32 g).
  assert (Z.of_nat (size (seeds s)) ≤ NodeSet.Len s); [|unfold searchFuel; lia].
  unfold NodeSet.Len. rewrite bm_card. apply Nat2Z.inj_le, subseteq_size. unfold seeds. fold (elems s). set_solver.
Qed.

(** *** BFS *)

Section oneWay.
Context (dir : Direction) (start : Set_ bm) (maxDepth : Z).
Hypothesis Hstart : ∀ s, s ∈ elems start → is_u32 s.

Abbreviation adj := (stepNbrs dir false).

Lemma seeds_u32 s : s ∈ seeds start → is_u32 s.
Proof using Hstart. unfold seeds. rewrite elem_of_filter. intros [_ Hs]. by apply Hstart. Qed.

Lemma bfs_drain fuel k todo (nodes rels : Set_ bm) : pastDepth maxDepth (Z.of_nat k) = true → (length todo ≤ fuel)%nat →
  bfsLoop fuel g dir m nodeFilter relFilter maxDepth (nodes, rels, levels k todo []) = Ok (nodes, rels).
Proof.
  intros Hp. revert fuel. induction todo as [|v todo IH]; intros fuel Hf; [by destruct fuel|].
  destruct fuel as [|fuel]; [cbn in Hf; lia|]. cbn -[Z.of_nat]. rewrite Hp. apply IH. cbn in Hf. lia.
Qed.

(** The relationships recorded are those of the expanded nodes. *)
Definition recorded (rels nodes : gset Z) (queued : list Z) : Prop :=
  ∀ p, p ∈ rels ↔ ∃ v r, v ∈ nodes ∧ v ∉ queued ∧ r ∈ stepRels dir false v ∧ Pos r = p.

Lemma levels_nodes k todo next : (fst <$> levels k todo next) = todo ++ next.
Proof using Type. unfold levels. rewrite fmap_app, <- !list_fmap_compose. f_equal; apply list_fmap_id. Qed.

(** Expanding [v] takes it off the queue. *)
Lemma expanded_nodes (nodes nodes' : gset Z) ws v queued x : nodes' = list_to_set ws ∪ nodes → v ∈ nodes → v ∉ queued →
  x ∈ nodes' ∧ x ∉ queued ++ freshOf nodes ws ↔ x = v ∨ x ∈ nodes ∧ x ∉ (v :: queued).
Proof using Type.
  intros -> Hv Hq. rewrite elem_of_union, elem_of_list_to_set, elem_of_app, elem_of_freshOf, elem_of_cons.
  destruct (decide (x = v)) as [Hxv|Hxv]; [rewrite Hxv in *|]; destruct (decide (x ∈ nodes)); tauto.
Qed.

Lemma bfsLoop_ok : ∀ fuel k todo next (nodes rels : Set_ bm), searching adj (seeds start) maxDepth k todo next (elems nodes) →
  recorded (elems rels) (elems nodes) (todo ++ next) →
  (length todo + length next + size (universe g (seeds start) ∖ elems nodes) < fuel)%nat →
  ∃ nodes' rels', bfsLoop fuel g dir m nodeFilter relFilter maxDepth (nodes, rels, levels k todo next) = Ok (nodes', rels') ∧
    (∀ v, v ∈ elems nodes' ↔ found adj (seeds start) maxDepth v) ∧
    (∀ p, p ∈ elems rels' ↔ ∃ v j r, allowed maxDepth (S j) ∧ v ∈ ball adj (seeds start) j ∧ r ∈ stepRels dir false v ∧ Pos r = p).
Proof using All.
  assert (∀ v w, w ∈ adj v → 0 ≤ w < CSRIDSpace g) as Hadj by (intros v w; apply stepNbrs_space).
  induction fuel as [|fuel IH]; intros k todo next nodes rels Hs Hrec Hf; [lia|].
  destruct (decide (todo ++ next = [])) as [[-> ->]%app_nil|Hne].
  { exists nodes, rels. split; [done|]. split; [intros v; by eapply searching_end|]. intros p. rewrite (Hrec p). split.
    - intros (v & r & Hv & Hn & Hr). destruct (proj1 (searching_expanded adj (seeds start) maxDepth k [] (elems nodes) v Hs (or_introl eq_refl))) as (j & ? & ?); [done|]. by exists v, j, r.
    - intros (v & j & r & Hj & Hv & Hr). exists v, r. destruct (proj2 (searching_expanded adj (seeds start) maxDepth k [] (elems nodes) v Hs (or_introl eq_refl))) as [? ?]; [by exists j|]. done. }
  destruct (searching_head _ _ _ seeds_u32 Hadj _ _ _ _ _ Hs Hne) as (k' & v & todo' & next' & E & Hs' & Hv & Hlen).
  assert (todo ++ next = (v :: todo') ++ next') as Eq by (rewrite <- (levels_nodes k), E; apply levels_nodes). rewrite E. rewrite Eq in Hrec.
  clear Hs Hne E Eq k. destruct (pastDepth maxDepth (Z.of_nat k')) eqn:Hp.
  { destruct (searching_past _ _ _ _ _ _ _ 0 Hs' Hp) as [-> _]. exists nodes, rels. split; [apply bfs_drain; [done|cbn in *; lia]|].
    split; [intros x; by eapply searching_past|]. rewrite app_nil_r in Hrec. intros p. rewrite (Hrec p). split.
    - intros (x & r & Hx & Hn & Hr). destruct (proj1 (searching_expanded adj (seeds start) _ _ _ _ x Hs' (or_intror Hp))) as (j & ? & ?); [done|]. by exists x, j, r.
    - intros (x & j & r & Hj & Hx & Hr). exists x, r. destruct (proj2 (searching_expanded adj (seeds start) _ _ _ _ x Hs' (or_intror Hp))) as [? ?]; [by exists j|]. done. }
  change (levels k' (v :: todo') next') with ((v, Z.of_nat k') :: levels k' todo' next'). cbn [bfsLoop]. rewrite Hp.
  destruct (bfsStep_ok v (Z.of_nat k') dir false None nodes rels (levels k' todo' next') Hv) as (nodes1 & rels1 & -> & En & Hr1 & Hr2 & Hr3 & _).
  cbn [mbind res_bind]. rewrite (levels_expand g adj (seeds start) seeds_u32 Hadj) by apply Hs'.
  destruct (searching_expand g adj (seeds start) Hadj _ _ _ _ _ _ Hs' Hp) as [Hs'' Hlen']. rewrite <- En in Hs'', Hlen'.
  apply IH; [done| |lia]. destruct (ly_nodup _ _ _ _ _ _ (sg_layer _ _ _ _ _ _ _ Hs')) as [[Hvt _]%NoDup_cons _].
  assert (v ∈ elems nodes ∧ v ∉ next') as [Hvn Hvx].
  { destruct Hs' as [[Hly1 Hly2 Hly3 _ _] _ _ _]. pose proof (Hly3 v ltac:(by left)) as Hd. split; [apply Hly1; left; by apply dist_ball|].
    intros Hd'%Hly2. pose proof (dist_unique _ _ _ _ _ Hd Hd'). lia. }
  assert (∀ x, x ∈ elems nodes1 ∧ x ∉ todo' ++ next' ++ freshOf (elems nodes) (adj v) ↔ x = v ∨ x ∈ elems nodes ∧ x ∉ (v :: todo') ++ next') as Hx.
  { intros x. rewrite app_assoc. apply expanded_nodes; [done|done|]. rewrite elem_of_app. tauto. }
  intros p. split.
  - intros [(x & r & Hxn & Hn & Hr)%Hrec|(r & Hr & <-)]%Hr2; [exists x, r; destruct (proj2 (Hx x)); tauto|exists v, r; destruct (proj2 (Hx v)); tauto].
  - intros (x & r & Hxn & Hn & Hr & <-). destruct (proj1 (Hx x) (conj Hxn Hn)) as [->|[? ?]]; [by apply Hr3|]. apply Hr1, Hrec. exists x, r. tauto.
Qed.

Lemma BFS_ok : ∃ nodes rels, BFS g start dir m nodeFilter relFilter maxDepth = Ok (nodes, rels) ∧
  (∀ v, v ∈ elems nodes ↔ found adj (seeds start) maxDepth v) ∧
  (∀ p, p ∈ elems rels ↔ ∃ v j r, allowed maxDepth (S j) ∧ v ∈ ball adj (seeds start) j ∧ r ∈ stepRels dir false v ∧ Pos r = p).
Proof using All.
  unfold BFS. destruct (seedBody_seeds start) as (nodes & -> & En). cbn [orPanic mbind res_bind].
  apply bfsLoop_ok; rewrite ?En.
  - apply searching_start; [apply seedList_NoDup|intros; apply elem_of_seedList].
  - intros p. rewrite elems_New, app_nil_r. split; [set_solver|]. intros (v & r & Hv & Hn & _). by apply elem_of_seedList in Hv.
  - cbn [length]. rewrite Nat.add_0_r. apply seeds_fuel; [|done]. unfold NodeSet.Len. rewrite bm_card. lia.
Qed.
End oneWay.

(** *** BidirectionalBFS *)

Section oneSide.
Context (d : Direction) (bw : bool) (start : Set_ bm) (maxDepth : Z).
Hypothesis Hstart : ∀ s, s ∈ elems start → is_u32 s.

Abbreviation adj := (stepNbrs d bw).
Abbreviation S0 := (seeds start).

(** A recorded hop. *)
Definition hop (rels : gset Z) (x y : Z) : Prop := ∃ r, r ∈ stepRels d bw x ∧ Neighbor r = y ∧ Pos r ∈ rels.

(** The recorded relationships are accepted ones of visited nodes, and connect
    every visited node to a seed. *)
Record tracks (nodes rels : gset Z) : Prop := {
  tk_sound : ∀ p, p ∈ rels → ∃ v r, v ∈ nodes ∧ r ∈ stepRels d bw v ∧ Pos r = p;
  tk_tree : ∀ v, v ∈ nodes → ∃ s, s ∈ S0 ∧ rtc (hop rels) s v;
}.

Lemma tracks_start : tracks S0 ∅.
Proof using Type. split; [intros p Hp%not_elem_of_empty; done|]. intros v Hv. by exists v. Qed.

Lemma tracks_step v nodes rels nodes' rels' : tracks nodes rels → v ∈ nodes → nodes' = list_to_set (adj v) ∪ nodes → rels ⊆ rels' →
  (∀ p, p ∈ rels' → p ∈ rels ∨ ∃ r, r ∈ stepRels d bw v ∧ Pos r = p) →
  (∀ w, w ∈ freshOf nodes (adj v) → ∃ r, r ∈ stepRels d bw v ∧ Neighbor r = w ∧ Pos r ∈ rels') → tracks nodes' rels'.
Proof using Type.
  intros [Hs Ht] Hv -> Hsub Hnew Hfresh. assert (∀ x y, hop rels x y → hop rels' x y) as Hmono.
  { intros x y (r & Hr & Hn & Hp). exists r. split; [done|]. split; [done|by apply Hsub]. }
  split.
  - intros p [Hp|(r & Hr & <-)]%Hnew; [apply Hs in Hp as (x & r & Hx & Hr)|]; [exists x, r|exists v, r]; rewrite elem_of_union; tauto.
  - intros w. rewrite elem_of_union, elem_of_list_to_set. intros Hw. destruct (decide (w ∈ nodes)) as [Hn|Hn].
    + destruct (Ht w Hn) as (s & Hs0 & Hr). exists s. split; [done|]. by eapply rtc_subrel.
    + assert (w ∈ freshOf nodes (adj v)) as Hf by (rewrite elem_of_freshOf; tauto). destruct (Ht v Hv) as (s & Hs0 & Hr).
      exists s. split; [done|]. eapply rtc_r; [by eapply rtc_subrel|]. by apply Hfresh.
Qed.

Lemma adj_space v w : w ∈ adj v → 0 ≤ w < CSRIDSpace g.
Proof using Hwf. apply stepNbrs_space. Qed.
Lemma side_u32 s : s ∈ S0 → is_u32 s.
Proof using Hstart. unfold seeds. rewrite elem_of_filter. intros [_ Hs]. by apply Hstart. Qed.

Lemma expand_head other (nodes rels : Set_ bm) count v k todo next :
  expand (S count) g m nodeFilter relFilter maxDepth other d bw (nodes, rels, levels k (v :: todo) next) =
    if pastDepth maxDepth (Z.of_nat k) then expand count g m nodeFilter relFilter maxDepth other d bw (nodes, rels, levels k todo next)
    else st ← bfsStep g v (Z.of_nat k) d m nodeFilter relFilter bw (Some other) (nodes, rels, levels k todo next);
         expand count g m nodeFilter relFilter maxDepth other d bw st.
Proof using Type.
  change (levels k (v :: todo) next) with ((v, Z.of_nat k) :: levels k todo next). cbn [expand].
  set (q := levels k todo next). assert (slice ((v, Z.of_nat k) :: q) 1 (len ((v, Z.of_nat k) :: q)) = Ok q) as ->; [|done].
  rewrite slice_ok by lens. rewrite take_ge; [done|]. rewrite len_cons. change (drop (Z.to_nat 1) ((v, Z.of_nat k) :: q)) with q. unfold len. lia.
Qed.

Lemma expand_past other count k todo (nodes rels : Set_ bm) : pastDepth maxDepth (Z.of_nat k) = true → count = length todo →
  expand count g m nodeFilter relFilter maxDepth other d bw (nodes, rels, levels k todo []) = Ok (nodes, rels, []).
Proof using Type.
  intros Hp ->. induction todo as [|v todo IH]; [done|]. cbn [length]. rewrite expand_head, Hp. exact IH.
Qed.

Lemma expand_level other k : pastDepth maxDepth (Z.of_nat k) = false → ∀ todo next (nodes rels : Set_ bm),
  searching adj S0 maxDepth k todo next (elems nodes) → tracks (elems nodes) (elems rels) →
  ∃ next' nodes' rels', expand (length todo) g m nodeFilter relFilter maxDepth other d bw (nodes, rels, levels k todo next) = Ok (nodes', rels', levels k [] next') ∧
    searching adj S0 maxDepth k [] next' (elems nodes') ∧ tracks (elems nodes') (elems rels') ∧
    (length next' + size (universe g S0 ∖ elems nodes') = length next + size (universe g S0 ∖ elems nodes))%nat.
Proof using All.
  intros Hp todo. induction todo as [|v todo IH]; intros next nodes rels Hs Ht; [by exists next, nodes, rels|]. cbn [length].
  rewrite expand_head, Hp. pose proof (sg_layer _ _ _ _ _ _ _ Hs) as Hl.
  assert (v ∈ ball adj S0 k) as Hvk by (eapply dist_ball, ly_todo; [exact Hl|by left]).
  assert (v ∈ elems nodes) as Hvn by (apply (ly_visited _ _ _ _ _ _ Hl); by left).
  destruct (bfsStep_ok v (Z.of_nat k) d bw (Some other) nodes rels (levels k todo next)) as (nodes1 & rels1 & -> & En & Hr1 & Hr2 & _ & Hr4).
  { eapply (ball_u32 g adj S0 side_u32 adj_space). exact Hvk. }
  cbn [mbind res_bind]. rewrite (levels_expand g adj S0 side_u32 adj_space) by done.
  destruct (searching_expand g adj S0 adj_space _ _ _ _ _ _ Hs Hp) as [Hs' Hlen]. rewrite <- En in Hs', Hlen.
  destruct (IH _ nodes1 rels1 Hs') as (next' & nodes' & rels' & E & Hs'' & Ht' & Hlen').
  { by eapply tracks_step. }
  exists next', nodes', rels'. split; [done|]. split; [done|]. split; [done|]. lia.
Qed.

(** A side between rounds: finished, or at the start of a level. *)
Definition sideOK (st : Set_ bm * Set_ bm * list (Z * Z)) : Prop :=
  let '(nodes, rels, queue) := st in
  tracks (elems nodes) (elems rels) ∧
  (queue = [] ∧ (∀ v, v ∈ elems nodes ↔ found adj S0 maxDepth v) ∨
   ∃ k v todo, queue = levels k (v :: todo) [] ∧ searching adj S0 maxDepth k (v :: todo) [] (elems nodes)).
Definition sideLeft (st : Set_ bm * Set_ bm * list (Z * Z)) : nat :=
  let '(nodes, _, queue) := st in if decide (queue = []) then 0 else S (size (universe g S0 ∖ elems nodes)).

Lemma sideOK_of k todo (nodes rels : Set_ bm) : searching adj S0 maxDepth k todo [] (elems nodes) → tracks (elems nodes) (elems rels) →
  sideOK (nodes, rels, levels k todo []).
Proof using Type.
  intros Hs Ht. split; [done|]. destruct todo as [|v todo]; [left|right; by exists k, v, todo]. split; [done|]. intros v. by eapply searching_end.
Qed.

Lemma expand_side other nodes rels queue : sideOK (nodes, rels, queue) →
  ∃ st, expand (length queue) g m nodeFilter relFilter maxDepth other d bw (nodes, rels, queue) = Ok st ∧ sideOK st ∧
    (sideLeft st ≤ pred (sideLeft (nodes, rels, queue)))%nat.
Proof using All.
  intros [Ht [[-> Hf]|(k & v & todo & -> & Hs)]].
  { exists (nodes, rels, []). split; [done|]. split; [split; [done|by left]|done]. }
  assert (length (levels k (v :: todo) []) = length (v :: todo)) as -> by (unfold levels; rewrite length_app, !length_fmap; cbn; lia).
  destruct (pastDepth maxDepth (Z.of_nat k)) eqn:Hp.
  - exists (nodes, rels, []). rewrite (expand_past other _ k) by done. split; [done|]. split; [split; [done|left; split; [done|]]|unfold sideLeft at 1; rewrite decide_True by done; lia].
    intros x. by eapply searching_past.
  - destruct (expand_level other k Hp (v :: todo) [] nodes rels Hs Ht) as (next' & nodes' & rels' & -> & Hs' & Ht' & Hlen).
    exists (nodes', rels', levels k [] next'). split; [done|]. destruct (decide (next' = [])) as [->|Hne].
    { split; [by apply sideOK_of|unfold sideLeft at 1; rewrite decide_True by done; lia]. }
    rewrite levels_down. split.
    + apply sideOK_of; [by apply searching_down|done].
    + unfold sideLeft. case_decide as D1; [lia|]. rewrite decide_False by done. cbn [pred length] in *. destruct next'; [done|]. cbn in Hlen. lia.
Qed.

Lemma side_start nodes : elems nodes = S0 → sideOK (nodes, New, levels 0 (seedList start) []).
Proof using Type.
  intros E. apply sideOK_of; rewrite E; [|rewrite elems_New; apply tracks_start].
  apply searching_start; [apply seedList_NoDup|intros; apply elem_of_seedList].
Qed.

Lemma side_left nodes extra : elems nodes = S0 → NodeSet.Len start ≤ extra → (sideLeft (nodes, New, levels 0 (seedList start) []) ≤ searchFuel g extra)%nat.
Proof using H0 Hwf Hm.
  intros E Hl. unfold sideLeft. case_decide as D; [lia|]. rewrite E. assert (0 ≤ NodeSet.Len start) by (unfold NodeSet.Len; rewrite bm_card; lia).
  pose proof (seeds_fuel start extra ltac:(lia) Hl) as Hf. lia.
Qed.
End oneSide.

Section twoSides.
Context (dir : Direction) (source target : Set_ bm) (maxDepth : Z).
Hypothesis Hsource : ∀ s, s ∈ elems source → is_u32 s.
Hypothesis Htarget : ∀ s, s ∈ elems target → is_u32 s.

Lemma meetLoop_ok : ∀ fuel f b, sideOK dir false source maxDepth f → sideOK (Reverse dir) true target maxDepth b →
  (sideLeft source f ≤ fuel)%nat → (sideLeft target b ≤ fuel)%nat →
  ∃ fNodes fRels bNodes bRels, meetLoop fuel g dir m nodeFilter relFilter maxDepth f b = Ok (fNodes, fRels, (bNodes, bRels)) ∧
    sideOK dir false source maxDepth (fNodes, fRels, []) ∧ sideOK (Reverse dir) true target maxDepth (bNodes, bRels, []).
Proof using All.
  assert (∀ (q : list (Z * Z)), 0 < len q ↔ q ≠ []) as Hq.
  { intros q. unfold len. destruct q as [|x q]; cbn [length]; split; [lia|done|done|lia]. }
  induction fuel as [|fuel IH]; intros [[fn fr] fq] [[bn br] bq] Hf Hb Hfl Hbl; cbn [meetLoop].
  - assert (fq = []) as -> by (unfold sideLeft in Hfl; case_decide; [done|lia]). assert (bq = []) as -> by (unfold sideLeft in Hbl; case_decide; [done|lia]).
    rewrite decide_False by (unfold len; cbn [length]; lia). by exists fn, fr, bn, br.
  - case_decide as D.
    + destruct (expand_side dir false source maxDepth Hsource bn fn fr fq Hf) as ([[fn' fr'] fq'] & -> & Hf' & Hfl'). cbn [mbind res_bind].
      destruct (expand_side (Reverse dir) true target maxDepth Htarget fn' bn br bq Hb) as ([[bn' br'] bq'] & -> & Hb' & Hbl'). cbn [mbind res_bind].
      apply IH; [done|done|lia|lia].
    + rewrite !Hq in D. assert (fq = []) as -> by (destruct fq; [done|exfalso; apply D; by left]). assert (bq = []) as -> by (destruct bq; [done|exfalso; apply D; by right]). by exists fn, fr, bn, br.
Qed.

Abbreviation fAdj := (stepNbrs dir false).
Abbreviation bAdj := (stepNbrs (Reverse dir) true).

(** What the search promises. *)
Record bidirectional (nodes rels : gset Z) : Prop := {
  bd_overlap : seeds source ∩ seeds target ≠ ∅ → nodes = seeds source ∩ seeds target ∧ rels = ∅;
  bd_nodes : seeds source ∩ seeds target = ∅ → ∀ v, v ∈ nodes ↔ found fAdj (seeds source) maxDepth v ∧ found bAdj (seeds target) maxDepth v;
  bd_empty : nodes = ∅ → rels = ∅;
  bd_sound : ∀ p, p ∈ rels →
    (∃ v r, found fAdj (seeds source) maxDepth v ∧ r ∈ stepRels dir false v ∧ Pos r = p) ∨
    (∃ v r, found bAdj (seeds target) maxDepth v ∧ r ∈ stepRels (Reverse dir) true v ∧ Pos r = p);
  bd_paths : ∀ v, v ∈ nodes →
    (∃ s, s ∈ seeds source ∧ rtc (hop dir false rels) s v) ∧ (∃ t, t ∈ seeds target ∧ rtc (hop (Reverse dir) true rels) t v);
}.

Lemma hop_mono d bw (rels rels' : gset Z) x y : rels ⊆ rels' → rtc (hop d bw rels) x y → rtc (hop d bw rels') x y.
Proof using Type.
  intros Hs. apply rtc_subrel. intros a b (r & Hr & Hn & Hp). exists r. split; [done|]. split; [done|by apply Hs].
Qed.

Lemma BidirectionalBFS_ok : ∃ nodes rels, BidirectionalBFS g source target dir m nodeFilter relFilter maxDepth = Ok (nodes, rels) ∧
  bidirectional (elems nodes) (elems rels).
Proof using All.
  unfold BidirectionalBFS. destruct (sideBody_seeds source) as (fn & -> & Ef). destruct (sideBody_seeds target) as (bn & -> & Eb).
  cbn [orPanic mbind res_bind]. destruct (IsEmpty (And fn bn)) eqn:Ei; cbn [negb]; last first.
  { apply elems_nonempty in Ei. rewrite elems_And, Ef, Eb in Ei. exists (And fn bn), New. split; [done|]. rewrite elems_And, Ef, Eb, elems_New.
    split; [done|done|done|by intros p Hp%not_elem_of_empty|]. intros v [Hv1 Hv2]%elem_of_intersection. split; [by exists v|by exists v]. }
  assert (seeds source ∩ seeds target = ∅) as Hdis.
  { rewrite <- Ef, <- Eb, <- elems_And. unfold IsEmpty in Ei. rewrite bm_isEmpty, bool_decide_eq_true in Ei. done. }
  assert (0 ≤ NodeSet.Len source ∧ 0 ≤ NodeSet.Len target) as [? ?] by (unfold NodeSet.Len; rewrite !bm_card; lia).
  assert (sideLeft source (fn, New, levels 0 (seedList source) []) ≤ searchFuel g (NodeSet.Len source + NodeSet.Len target))%nat as HlF by (apply side_left; [done..|lia]).
  assert (sideLeft target (bn, New, levels 0 (seedList target) []) ≤ searchFuel g (NodeSet.Len source + NodeSet.Len target))%nat as HlB by (apply side_left; [done..|lia]).
  destruct (meetLoop_ok (searchFuel g (NodeSet.Len source + NodeSet.Len target)) (fn, New, levels 0 (seedList source) []) (bn, New, levels 0 (seedList target) []))
    as (fn' & fr & bn' & br & -> & Hf & Hb); [by apply side_start|by apply side_start|done|done|].
  destruct Hf as [[Hfs Hft] [[_ Hf]|(? & ? & ? & ? & _)]]; [|done]. destruct Hb as [[Hbs Hbt] [[_ Hb]|(? & ? & ? & ? & _)]]; [|done].
  cbn [mbind res_bind]. destruct (IsEmpty (And fn' bn')) eqn:Em.
  - exists New, New. split; [done|]. rewrite elems_New. unfold IsEmpty in Em. rewrite bm_isEmpty, bool_decide_eq_true in Em. fold (elems (And fn' bn')) in Em.
    rewrite elems_And in Em. split; [by rewrite Hdis| |done|by intros p Hp%not_elem_of_empty|by intros v Hv%not_elem_of_empty].
    intros _ v. rewrite <- Hf, <- Hb, <- elem_of_intersection, Em. done.
  - exists (And fn' bn'), (Or fr br). split; [done|]. rewrite elems_And, elems_Or. split; [by rewrite Hdis| | | |].
    + intros _ v. by rewrite elem_of_intersection, Hf, Hb.
    + apply elems_nonempty in Em. rewrite elems_And in Em. done.
    + intros p [(v & r & Hv & Hr)%Hfs|(v & r & Hv & Hr)%Hbs]%elem_of_union; [left|right]; exists v, r; [by rewrite <- Hf|by rewrite <- Hb].
    + intros v [Hv1 Hv2]%elem_of_intersection. destruct (Hft v Hv1) as (s & Hs & Hp). destruct (Hbt v Hv2) as (t & Ht & Hp').
      split; [exists s|exists t]; (split; [done|]); eapply hop_mono; [|done| |done]; [apply union_subseteq_l|apply union_subseteq_r].
Qed.
End twoSides.
End bfs.

(** ** Properties *)

(** Filtered breadth-first search is exact. On a graph whose neighbors lie in
    its id space, from any start set of node ids, in any direction, with any type
    filter of this graph, any node and relationship filters and any depth bound,
    [BFS] ends without panic; the nodes are exactly those within the bound along
    accepted relationships from an accepted start, and the relationships are
    exactly the accepted ones that leave a node with a hop to spare. *)
Theorem BFS_exact {bm} `{RoaringSetLaws bm} (g : Snapshot bm) ito m nodeFilter relFilter dir (start : Set_ bm) maxDepth :
  wfSearch g ito → matchOK g m → (∀ s, s ∈ elems start → is_u32 s) →
  ∃ nodes rels, BFS g start dir m nodeFilter relFilter maxDepth = Ok (nodes, rels) ∧
  (∀ v, v ∈ elems nodes ↔ ∃ k, allowed maxDepth k ∧ reach (stepNbrs g ito m nodeFilter relFilter dir false) (seeds g nodeFilter start) k v) ∧
  (∀ p, p ∈ elems rels ↔ ∃ v k r, allowed maxDepth (S k) ∧ reach (stepNbrs g ito m nodeFilter relFilter dir false) (seeds g nodeFilter start) k v ∧
    r ∈ stepRels g ito m nodeFilter relFilter dir false v ∧ Pos r = p).
Proof.
  intros Hwf Hm Hst. destruct (BFS_ok g ito m nodeFilter relFilter Hwf Hm dir start maxDepth Hst) as (nodes & rels & E & Hn & Hr).
  exists nodes, rels. split; [done|]. split.
  - intros v. rewrite Hn. by apply found_reach.
  - intros p. rewrite Hr. split.
    + intros (v & j & r & Hj & (k & Hk & Hv)%elem_of_ball & Hp). exists v, k, r. split; [unfold allowed in *; lia|done].
    + intros (v & k & r & Hk & Hv & Hp). exists v, k, r. split; [done|]. split; [|done]. apply elem_of_ball. by exists k.
Qed.

Lemma demoSnap_search : wfSearch demoSnap [].
Proof.
  split; [apply demoSnap_wf|]. intros out. apply (bool_decide_unpack _). by destruct out; vm_compute.
Qed.

Lemma BFS_exact_witness : ∃ nodes rels, BFS demoSnap (mkSet {[0]}) Outgoing MatchAll (Some (λ v _, bool_decide (v ≠ 1))) None 1 = Ok (nodes, rels) ∧ 2 ∈ elems nodes ∧ 1 ∉ elems nodes.
Proof.
  destruct (BFS_exact demoSnap [] MatchAll (Some (λ v _, bool_decide (v ≠ 1))) None Outgoing (mkSet {[0]}) 1 demoSnap_search) as (nodes & rels & E & Hn & _); [done| |].
  { intros s Hs. change (s ∈ ({[0]} : gset Z)) in Hs. apply elem_of_singleton in Hs. lia. }
  exists nodes, rels. split; [done|]. rewrite !Hn, <- !found_reach. split.
  - exists 1%nat. split; [unfold allowed; lia|]. apply (bool_decide_unpack _). by vm_compute.
  - intros (k & Hk & Hv). assert (1 ∈ ball (stepNbrs demoSnap [] MatchAll (Some (λ v _, bool_decide (v ≠ 1))) None Outgoing false) (seeds demoSnap (Some (λ v _, bool_decide (v ≠ 1))) (mkSet {[0]})) 1) as Hv'.
    { eapply ball_mono; [|exact Hv]. unfold allowed in Hk. lia. }
    revert Hv'. apply (bool_decide_unpack _). by vm_compute.
Defined.

(** C8: Bidirectional search finds the meeting nodes. Under the same conditions
    [BidirectionalBFS] ends without panic. When accepted sources and targets
    overlap it answers the overlap and no relationship; otherwise it answers
    exactly the nodes both sides reach within the bound, no relationship when
    there is none, and else accepted relationships only, along which every
    meeting node is connected to a source and to a target. *)
Theorem BidirectionalBFS_exact {bm} `{RoaringSetLaws bm} (g : Snapshot bm) ito m nodeFilter relFilter dir (source target : Set_ bm) maxDepth :
  wfSearch g ito → matchOK g m → (∀ s, s ∈ elems source ∪ elems target → is_u32 s) →
  ∃ nodes rels, BidirectionalBFS g source target dir m nodeFilter relFilter maxDepth = Ok (nodes, rels) ∧
    bidirectional g ito m nodeFilter relFilter dir source target maxDepth (elems nodes) (elems rels).
Proof.
  intros Hwf Hm Hst. by apply BidirectionalBFS_ok; [..|intros s Hs; apply Hst, elem_of_union; by left|intros s Hs; apply Hst, elem_of_union; by right].
Qed.

Lemma BidirectionalBFS_exact_witness : ∃ nodes rels, BidirectionalBFS demoSnap (mkSet {[1]}) (mkSet {[2]}) Outgoing MatchAll None None (-1) = Ok (nodes, rels) ∧
  0 ∈ elems nodes ∧ ∃ s, s ∈ seeds demoSnap None (mkSet {[1]}) ∧ rtc (hop demoSnap [] MatchAll None None Outgoing false (elems rels)) s 0.
Proof.
  destruct (BidirectionalBFS_exact demoSnap [] MatchAll None None Outgoing (mkSet {[1]}) (mkSet {[2]}) (-1) demoSnap_search) as (nodes & rels & E & Hb); [done| |].
  { intros s Hs. change (s ∈ ({[1]} ∪ {[2]} : gset Z)) in Hs. rewrite elem_of_union, !elem_of_singleton in Hs. lia. }
  exists nodes, rels. split; [done|]. assert (0 ∈ elems nodes) as H0; [|split; [done|by apply (bd_paths _ _ _ _ _ _ _ _ _ _ _ Hb)]].
  apply (bd_nodes _ _ _ _ _ _ _ _ _ _ _ Hb); [by vm_compute|]. split; exists 1%nat; (split; [unfold allowed; lia|]); apply (bool_decide_unpack _); by vm_compute.
Defined.
