(* ===== verification/HopDistances.v ===== *)
(** Hop distances and neighborhoods are exact: [BFSDistances] and [Neighborhood]
    of [src/search_bfs.go].

    Both searches run level by level on a scratch whose stamps tell visited nodes
    from leftovers of earlier runs. The invariant [marks] says the stamps of the
    current run are the visited set, whatever the pool handed out and also when
    the run counter wraps around. *)

From S2P Require Import Prelude Value AtomTable NodeSet RelTypes InToOut Snapshot TypedAdj Traverse Hops SearchBfs SearchBfsSpec.

(** ** The scratch *)

Record wf_scratch (s : searchScratch) : Prop := {
  sc_len : len (sdist s) = len (gen s);
  sc_cur : is_u32 (cur s);
  sc_gen : Forall (λ x, 0 ≤ x ≤ cur s) (gen s);
}.

(** The stamps of this run mark [visited]. *)
Record marks (n : Z) (s : searchScratch) (visited : gset Z) : Prop := {
  mk_wf : wf_scratch s;
  mk_n : n ≤ len (gen s);
  mk_mark : ∀ v, 0 ≤ v < n → gen s !! Z.to_nat v = Some (cur s) ↔ v ∈ visited;
}.

Lemma takeScratch_marks s n : wf_scratch s → 0 ≤ n → marks n (takeScratch s n) ∅.
Proof.
  intros Hs Hn. unfold takeScratch.
  set (s1 := if decide (len (gen s) < n) then _ else s).
  assert (wf_scratch s1 ∧ n ≤ len (gen s1)) as [[Hl Hc Hg] Hn1].
  { unfold s1. case_decide; [|split; [done|lia]]. cbn. rewrite len_replicate. split; [|lia].
    split; cbn; [by rewrite !len_replicate|lia|]. by apply Forall_replicate. }
  clearbody s1. clear Hs s. cbn [cur gen sdist]. case_decide as E.
  - split; cbn [cur gen sdist].
    + split; cbn [cur gen sdist]; [by rewrite len_fmap|lia|]. apply Forall_fmap, Forall_forall. intros; cbn; lia.
    + by rewrite len_fmap.
    + intros v Hv. rewrite list_lookup_fmap. split; [|set_solver]. destruct (gen s1 !! Z.to_nat v); by intros [= ].
  - assert (cur s1 + 1 < 4294967296) as Hlt.
    { destruct (decide (cur s1 = 4294967295)) as [E'|]; [|lia]. by rewrite E' in E. }
    rewrite wrapU_small in * by lia. split; cbn [cur gen sdist].
    + split; cbn [cur gen sdist]; [done|lia|]. eapply Forall_impl; [exact Hg|]. cbn. lia.
    + done.
    + intros v Hv. split; [|set_solver]. intros Hx. rewrite Forall_lookup in Hg. specialize (Hg _ _ Hx). cbn in Hg. lia.
Qed.

Lemma marks_read n s visited w : marks n s visited → 0 ≤ w < n →
  ∃ stamp, idx (gen s) w = Ok stamp ∧ (stamp = cur s ↔ w ∈ visited).
Proof.
  intros [_ Hn Hm] Hw. destruct (idx_ok (gen s) w) as (x & E & Hx); [lia|]. exists x. split; [done|]. rewrite <- (Hm w Hw), Hx. naive_solver.
Qed.

Lemma marks_write n s visited w ds : marks n s visited → 0 ≤ w < n → len ds = len (gen s) →
  ∃ gn, upd (gen s) w (cur s) = Ok gn ∧ marks n (mkScratch gn ds (cur s)) ({[w]} ∪ visited).
Proof.
  intros [[Hl Hc Hg] Hn Hm] Hw Hd. unfold upd. rewrite decide_True by lia. eexists. split; [done|]. split; cbn [gen sdist cur].
  - split; cbn [gen sdist cur]; [by rewrite len_insert|done|]. apply Forall_insert; [done|lia].
  - by rewrite len_insert.
  - intros v Hv. destruct (decide (v = w)) as [->|Hne].
    + rewrite list_lookup_insert_eq by (unfold len in Hn; lia). set_solver.
    + rewrite list_lookup_insert_ne by lia. rewrite (Hm v Hv). set_solver.
Qed.

(** Reading the distances of a list of nodes into a map. *)
Lemma readDists (ds : list Z) : ∀ l (out : gmap Z Z), (∀ v, v ∈ l → 0 ≤ v ∧ is_Some (ds !! Z.to_nat v)) →
  ∃ out', foldM (λ out node, d ← idx ds node; Ok (<[node := d]> out)) l out = Ok out' ∧
    ∀ v, out' !! v = if decide (v ∈ l) then ds !! Z.to_nat v else out !! v.
Proof.
  induction l as [|x l IH]; intros out Hin; [by exists out|]. cbn [foldM]. destruct (Hin x ltac:(by left)) as (Hx & d & Hd).
  rewrite (idx_lookup ds x d Hx Hd). cbn [mbind res_bind]. destruct (IH (<[x := d]> out)) as (out' & E & Ho); [intros; apply Hin; by right|].
  exists out'. split; [done|]. intros v. rewrite Ho. destruct (decide (v ∈ l)); [by rewrite decide_True by (by right)|].
  destruct (decide (v = x)) as [->|Hne]; [by rewrite lookup_insert_eq, decide_True by (by left)|].
  rewrite lookup_insert_ne by done. rewrite decide_False; [done|]. rewrite elem_of_cons. tauto.
Qed.

(** ** One level *)

Section level.
Context {bm : Type} `{RoaringSetLaws bm} (g : Snapshot bm) (ito : list Z) (m : RelMatch (Snapshot bm)) (dir : Direction) (start maxDepth : Z).
Hypothesis Hwf : wfSearch g ito.
Hypothesis Hm : matchOK g m.
Hypothesis Hstart : 0 ≤ start < CSRIDSpace g.

Abbreviation adj := (λ x, neighborsOf g m x dir).
Abbreviation S0 := ({[start]} : gset Z).
Abbreviation search := (searching adj S0 maxDepth).

Lemma level_adj v w : w ∈ adj v → 0 ≤ w < CSRIDSpace g.
Proof using Hwf. by eapply nbrs_space. Qed.
Lemma level_u32 s : s ∈ S0 → is_u32 s.
Proof using Hstart. intros ->%elem_of_singleton. pose proof (CSRIDSpace_u32 g). lia. Qed.

Section body.
Context {A : Type} (body : Z → A → res A) (k : nat) (R : gset Z → list Z → A → Prop).
Hypothesis Hold : ∀ w visited next st, R visited next st → 0 ≤ w < CSRIDSpace g → w ∈ visited → body w st = Ok st.
Hypothesis Hnew : ∀ w visited next st, R visited next st → 0 ≤ w < CSRIDSpace g → w ∉ visited → dist adj S0 (S k) w →
  ∃ st', body w st = Ok st' ∧ R ({[w]} ∪ visited) (next ++ [w]) st'.

Lemma neighbors_ok ws : ∀ visited next st, (∀ w, w ∈ ws → 0 ≤ w < CSRIDSpace g) → (∀ w, w ∈ ws → w ∉ visited → dist adj S0 (S k) w) → R visited next st →
  ∃ st', yieldAll (tryYield body) ws (Ok st) = (true, Ok st') ∧ R (list_to_set ws ∪ visited) (next ++ freshOf visited ws) st'.
Proof using All.
  induction ws as [|w ws IH]; intros visited next st Hsp Hd HR.
  { exists st. cbn. rewrite app_nil_r. by rewrite (left_id_L ∅ (∪)). }
  cbn [yieldAll freshOf]. unfold tryYield at 1. destruct (decide (w ∈ visited)) as [Hw|Hw].
  - rewrite (Hold w visited next st) by (done || apply Hsp; by left).
    destruct (IH visited next st) as (st' & E & HR'); [set_solver|set_solver|done|]. exists st'. rewrite E. split; [done|].
    cbn [list_to_set]. replace ({[w]} ∪ list_to_set ws ∪ visited) with (list_to_set ws ∪ visited) by set_solver. done.
  - destruct (Hnew w visited next st HR) as (st1 & -> & HR1); [apply Hsp; by left|done|apply Hd; [by left|done]|].
    destruct (IH ({[w]} ∪ visited) (next ++ [w]) st1) as (st' & E & HR'); [set_solver|set_solver|done|]. exists st'. rewrite E. split; [done|].
    cbn [list_to_set]. rewrite <- app_assoc in HR'. cbn [app] in HR'. by replace ({[w]} ∪ list_to_set ws ∪ visited) with (list_to_set ws ∪ ({[w]} ∪ visited)) by set_solver.
Qed.

Lemma overFrontier_ok : pastDepth maxDepth (Z.of_nat k) = false → ∀ todo next visited st, search k todo next visited → R visited next st →
  ∃ next' visited' st', overFrontier g dir m body todo st = Ok st' ∧ search k [] next' visited' ∧ R visited' next' st' ∧
    (length next' + size (universe g S0 ∖ visited') = length next + size (universe g S0 ∖ visited))%nat.
Proof using All.
  intros Hp todo. unfold overFrontier. induction todo as [|v todo IH]; intros next visited st Hs HR; [by exists next, visited, st|].
  cbn [foldM]. pose proof (sg_layer _ _ _ _ _ _ _ Hs) as Hl.
  assert (is_u32 v) as Hv by (eapply (ball_u32 g adj S0 level_u32 level_adj), dist_ball, ly_todo; [exact Hl|by left]).
  unfold NeighborsMatch. rewrite (neighborsYield_ok g ito m (wse_graph _ _ Hwf) Hm) by lia. cbn [mbind res_bind].
  destruct (searching_expand g adj S0 level_adj _ _ _ _ _ _ Hs Hp) as [Hs' Hlen].
  destruct (neighbors_ok (adj v) visited next st) as (st1 & E & HR1); [apply level_adj| |done|].
  { intros w Hw Hn. eapply ly_next; [apply Hs'|]. rewrite elem_of_app, elem_of_freshOf. by right. }
  rewrite E. cbn [snd mbind res_bind]. destruct (IH _ _ st1 Hs' HR1) as (next' & visited' & st' & E' & Hs'' & HR' & Hlen').
  exists next', visited', st'. split; [done|]. split; [done|]. split; [done|]. lia.
Qed.
End body.

(** What is left after the start. *)
Lemma level_fuel : (size (universe g S0 ∖ S0) + 1 < searchFuel g 1)%nat.
Proof using Hstart.
  assert (universe g S0 = list_to_set (zseq (CSRIDSpace g))) as ->.
  { unfold universe. apply set_eq. intros x. rewrite elem_of_union, elem_of_singleton, elem_of_list_to_set, elem_of_zseq. lia. }
  assert (S0 ⊆ list_to_set (zseq (CSRIDSpace g))) as Hsub.
  { intros x ->%elem_of_singleton. by rewrite elem_of_list_to_set, elem_of_zseq. }
  pose proof (size_difference _ _ Hsub) as E. rewrite size_singleton in E.
  assert (Z.of_nat (size (list_to_set (zseq (CSRIDSpace g)) : gset Z)) ≤ CSRIDSpace g).
  { apply (interval_size_le _ 0); [lia|]. intros x. by rewrite elem_of_list_to_set, elem_of_zseq. }
  unfold searchFuel. rewrite E. lia.
Qed.

Lemma search_start : search 0 [start] [] S0.
Proof. apply searching_start; [apply NoDup_singleton|set_solver]. Qed.

(** Levels are as few as ids, so a level number fits uint32. *)
Lemma level_depth k v frontier visited : search k (v :: frontier) [] visited → Z.of_nat (S k) < 4294967296.
Proof using Hwf Hstart.
  intros Hs. assert (dist adj S0 k v) as Hd by (eapply ly_todo; [apply Hs|by left]).
  apply (dist_bound adj S0 (universe g S0) (start_in_universe g S0) (adj_in_universe g adj S0 level_adj)) in Hd.
  assert (Z.of_nat (size (universe g S0)) ≤ CSRIDSpace g); [|pose proof (CSRIDSpace_u32 g); lia].
  apply (interval_size_le _ 0); [lia|]. intros x. unfold universe. rewrite elem_of_union, elem_of_singleton, elem_of_list_to_set, elem_of_zseq. lia.
Qed.

(** ** BFSDistances *)

Record distState (visited : gset Z) (next : list Z) (st : searchScratch * list Z * list Z) : Prop := {
  ds_marks : marks (CSRIDSpace g) st.1.1 visited;
  ds_dist : ∀ v, v ∈ visited → 0 ≤ v < CSRIDSpace g ∧ ∃ j, dist adj S0 j v ∧ sdist st.1.1 !! Z.to_nat v = Some (Z.of_nat j);
  ds_next : st.1.2 = next;
  ds_touched : ∀ v, v ∈ st.2 ↔ v ∈ visited;
}.

Lemma distBody_old depth w visited next st : distState visited next st → 0 ≤ w < CSRIDSpace g → w ∈ visited → distBody depth w st = Ok st.
Proof.
  destruct st as [[s nx] tc]. intros [Hmk _ _ _] Hw Hv. cbn in Hmk. unfold distBody.
  destruct (marks_read _ _ _ _ Hmk Hw) as (x & -> & Hx). cbn [mbind res_bind]. rewrite decide_False by (rewrite Hx; tauto). done.
Qed.

Lemma distBody_new k w visited next st : distState visited next st → 0 ≤ w < CSRIDSpace g → w ∉ visited → dist adj S0 (S k) w →
  ∃ st', distBody (Z.of_nat (S k)) w st = Ok st' ∧ distState ({[w]} ∪ visited) (next ++ [w]) st'.
Proof.
  destruct st as [[s nx] tc]. intros [Hmk Hds Hnx Htc] Hw Hv Hd. cbn in *. subst nx. unfold distBody.
  destruct (marks_read _ _ _ _ Hmk Hw) as (x & -> & Hx). cbn [mbind res_bind]. rewrite decide_True by (rewrite Hx; tauto).
  pose proof (sc_len _ (mk_wf _ _ _ Hmk)) as Hl. pose proof (mk_n _ _ _ Hmk) as Hn.
  destruct (marks_write _ _ _ w (<[Z.to_nat w := Z.of_nat (S k)]> (sdist s)) Hmk Hw) as (gn & -> & Hmk'); [by rewrite len_insert|]. cbn [mbind res_bind].
  unfold upd. rewrite decide_True by lia. cbn [mbind res_bind]. eexists. split; [done|]. split; cbn [fst snd sdist].
  - done.
  - intros v. rewrite elem_of_union, elem_of_singleton. destruct (decide (v = w)) as [->|Hne].
    + intros _. split; [done|]. exists (S k). split; [done|]. apply list_lookup_insert_eq. unfold len in *. lia.
    + intros [?|Hin]; [done|]. destruct (Hds v Hin) as (Hvr & j & Hj & Hl'). split; [done|]. exists j. split; [done|]. rewrite list_lookup_insert_ne; [done|lia].
  - done.
  - intros v. rewrite elem_of_app, Htc, elem_of_union, list_elem_of_singleton, elem_of_singleton. tauto.
Qed.

Lemma distLoop_ok : ∀ fuel k frontier visited s touched, search k frontier [] visited → distState visited [] (s, [], touched) →
  (length frontier + size (universe g S0 ∖ visited) < fuel)%nat →
  ∃ s' touched' visited', distLoop fuel g dir m maxDepth (Z.of_nat k) frontier s touched = Ok (s', touched') ∧ distState visited' [] (s', [], touched') ∧
    ∀ v, v ∈ visited' ↔ found adj S0 maxDepth v.
Proof using All.
  induction fuel as [|fuel IH]; intros k frontier visited s touched Hs HR Hf; [lia|].
  destruct frontier as [|v frontier]; cbn [distLoop].
  { exists s, touched, visited. split; [done|]. split; [done|]. intros v. by eapply searching_end. }
  destruct (pastDepth maxDepth (Z.of_nat k)) eqn:Hp.
  { exists s, touched, visited. split; [done|]. split; [done|]. intros x. by eapply searching_past. }
  pose proof (level_depth _ _ _ _ Hs) as Hk32.
  replace (to_u32 (Z.of_nat k + 1)) with (Z.of_nat (S k)) by (rewrite wrapU_small; lia).
  destruct (overFrontier_ok (distBody (Z.of_nat (S k))) k distState (distBody_old _) (distBody_new k) Hp (v :: frontier) [] visited (s, [], touched) Hs HR)
    as (next & visited' & [[s' nx] touched'] & -> & Hs' & HR' & Hlen). cbn [mbind res_bind].
  pose proof (ds_next _ _ _ HR') as Enx. cbn in Enx. subst nx. destruct (decide (next = [])) as [->|Hne].
  - exists s', touched', visited'. split; [by destruct fuel|]. split; [done|]. intros x. by eapply searching_end.
  - apply (IH (S k) next visited'); [by apply searching_down|destruct HR' as [? ? _ ?]; by split|cbn [length] in *; lia].
Qed.

Lemma marks_S0 s : wf_scratch s → ∃ gn, upd (gen (takeScratch s (CSRIDSpace g))) start (cur (takeScratch s (CSRIDSpace g))) = Ok gn ∧
  ∀ ds, len ds = len (gen (takeScratch s (CSRIDSpace g))) → marks (CSRIDSpace g) (mkScratch gn ds (cur (takeScratch s (CSRIDSpace g)))) S0.
Proof using Hstart.
  intros Hs. pose proof (takeScratch_marks s (CSRIDSpace g) Hs ltac:(lia)) as Hmk. set (s1 := takeScratch s (CSRIDSpace g)) in *.
  destruct (marks_write _ _ _ start (sdist s1) Hmk Hstart (sc_len _ (mk_wf _ _ _ Hmk))) as (gn & E & _). exists gn. split; [done|].
  intros ds Hd. destruct (marks_write _ _ _ start ds Hmk Hstart Hd) as (gn' & E' & Hmk'). assert (gn' = gn) as -> by congruence. by rewrite (right_id_L ∅ (∪)) in Hmk'.
Qed.

Lemma BFSDistances_ok s : wf_scratch s → ∃ out s', BFSDistances g s start dir m maxDepth = Ok (out, s') ∧ wf_scratch s' ∧
  ∀ v d, out !! v = Some d ↔ ∃ k, d = Z.of_nat k ∧ allowed maxDepth k ∧ dist adj S0 k v.
Proof using All.
  intros Hs. unfold BFSDistances. rewrite decide_False by lia. destruct (marks_S0 s Hs) as (gn & -> & Hmk). cbn [mbind res_bind].
  set (s1 := takeScratch s (CSRIDSpace g)) in *. pose proof (takeScratch_marks s (CSRIDSpace g) Hs ltac:(lia)) as Hmk1. fold s1 in Hmk1.
  pose proof (sc_len _ (mk_wf _ _ _ Hmk1)) as Hl. pose proof (mk_n _ _ _ Hmk1) as Hn.
  unfold upd. rewrite decide_True by lia. cbn [mbind res_bind]. set (ds := <[Z.to_nat start := 0]> (sdist s1)).
  destruct (distLoop_ok (searchFuel g 1) 0 [start] S0 (mkScratch gn ds (cur s1)) [start]) as (s' & touched & visited & E & [Hm' Hd' _ Ht'] & Hv).
  { apply search_start. }
  { split; cbn [fst snd sdist]; [apply Hmk; unfold ds; by rewrite len_insert| |done|set_solver].
    intros v ->%elem_of_singleton. split; [done|]. exists 0%nat. split; [apply dist_0; set_solver|]. apply list_lookup_insert_eq. unfold len in *. lia. }
  { pose proof level_fuel. cbn [length]. lia. }
  cbn [fst snd] in *. change (Z.of_nat 0) with 0 in E. rewrite E. cbn [mbind res_bind]. clear E.
  destruct (readDists (sdist s') touched ∅) as (out & -> & Ho); [intros v Hin%Ht'; destruct (Hd' v Hin) as (? & j & _ & ?); split; [lia|by eexists]|]. exists out, s'. split; [done|]. split; [apply Hm'|].
  intros v d. rewrite Ho. case_decide as Hin.
  - apply Ht' in Hin. pose proof (Hd' v Hin) as (_ & j & Hj & El). rewrite El. apply Hv in Hin as (i & Hi & Hb). apply elem_of_ball_dist in Hb as (k & Hk & Hdk).
    pose proof (dist_unique _ _ _ _ _ Hj Hdk) as ->. split.
    + intros [= <-]. exists k. split; [done|]. split; [unfold allowed in *; lia|done].
    + intros (k' & -> & _ & Hk'). by rewrite (dist_unique _ _ _ _ _ Hdk Hk').
  - rewrite lookup_empty. split; [done|]. intros (k & _ & Ha & Hk). exfalso. apply Hin, Ht', Hv. exists k. split; [done|by apply dist_ball].
Qed.

(** ** Neighborhood *)

Section hood.
Context (loHops : Z).
Hypothesis Hlo : 0 ≤ loHops.

Record hoodState (visited : gset Z) (next : list Z) (st : searchScratch * list Z * Set_ bm) : Prop := {
  hs_marks : marks (CSRIDSpace g) st.1.1 visited;
  hs_next : st.1.2 = next;
  hs_result : ∀ v, v ∈ elems st.2 ↔ v ∈ visited ∧ ∃ j, dist adj S0 j v ∧ loHops ≤ Z.of_nat j;
}.

Lemma hoodBody_old depth w visited next st : hoodState visited next st → 0 ≤ w < CSRIDSpace g → w ∈ visited → hoodBody depth loHops w st = Ok st.
Proof.
  destruct st as [[s nx] r]. intros [Hmk _ _] Hw Hv. cbn in Hmk. unfold hoodBody.
  destruct (marks_read _ _ _ _ Hmk Hw) as (x & -> & Hx). cbn [mbind res_bind]. rewrite decide_False by (rewrite Hx; tauto). done.
Qed.

Lemma hoodBody_new k w visited next st : hoodState visited next st → 0 ≤ w < CSRIDSpace g → w ∉ visited → dist adj S0 (S k) w →
  ∃ st', hoodBody (Z.of_nat (S k)) loHops w st = Ok st' ∧ hoodState ({[w]} ∪ visited) (next ++ [w]) st'.
Proof.
  destruct st as [[s nx] r]. intros [Hmk Hnx Hr] Hw Hv Hd. cbn in *. subst nx. unfold hoodBody.
  destruct (marks_read _ _ _ _ Hmk Hw) as (x & -> & Hx). cbn [mbind res_bind]. rewrite decide_True by (rewrite Hx; tauto).
  destruct (marks_write _ _ _ w (sdist s) Hmk Hw (sc_len _ (mk_wf _ _ _ Hmk))) as (gn & -> & Hmk'). cbn [mbind res_bind].
  eexists. split; [done|]. split; cbn [fst snd]; [done|done|]. intros v.
  assert ((∃ j, dist adj S0 j w ∧ loHops ≤ Z.of_nat j) ↔ loHops ≤ Z.of_nat (S k)) as Hw'.
  { split; [intros (j & Hj & ?); by rewrite <- (dist_unique _ _ _ _ _ Hj Hd)|intros; by exists (S k)]. }
  pose proof (elems_Insert r w) as Ei. cbn in Ei.
  case_decide as Dl; rewrite ?Ei, ?elem_of_union, Hr, ?elem_of_union, ?elem_of_singleton; destruct (decide (v = w)) as [->|]; tauto.
Qed.

Lemma hoodLoop_ok : 0 ≤ maxDepth < 4294967296 → ∀ fuel k frontier visited s result, search k frontier [] visited → hoodState visited [] (s, [], result) →
  (length frontier + size (universe g S0 ∖ visited) < fuel)%nat →
  ∃ s' result' visited', hoodLoop fuel g dir m loHops maxDepth (to_u32 (Z.of_nat (S k))) frontier s result = Ok (s', result') ∧ hoodState visited' [] (s', [], result') ∧
    ∀ v, v ∈ visited' ↔ found adj S0 maxDepth v.
Proof using All.
  intros Hmax. induction fuel as [|fuel IH]; intros k frontier visited s result Hs HR Hf; [lia|].
  destruct frontier as [|v frontier]; cbn [hoodLoop].
  { rewrite decide_False by (unfold len; cbn [length]; lia). exists s, result, visited. split; [done|]. split; [done|]. intros v. by eapply searching_end. }
  pose proof (level_depth _ _ _ _ Hs) as Hk32. rewrite (wrapU_small 32 (Z.of_nat (S k))) by lia.
  destruct (pastDepth maxDepth (Z.of_nat k)) eqn:Hp.
  { pose proof Hp as Hp'%pastDepth_true. rewrite decide_False by lia. exists s, result, visited. split; [done|]. split; [done|]. intros x. by eapply searching_past. }
  pose proof Hp as Hp'%pastDepth_false. rewrite decide_True by (unfold allowed in Hp'; rewrite len_cons; pose proof (len_nonneg frontier); lia).
  destruct (overFrontier_ok (hoodBody (Z.of_nat (S k)) loHops) k hoodState (hoodBody_old _) (hoodBody_new k) Hp (v :: frontier) [] visited (s, [], result) Hs HR)
    as (next & visited' & [[s' nx] result'] & -> & Hs' & HR' & Hlen). cbn [mbind res_bind].
  pose proof (hs_next _ _ _ HR') as Enx. cbn in Enx. subst nx. replace (Z.of_nat (S k) + 1) with (Z.of_nat (S (S k))) by lia.
  destruct (decide (next = [])) as [->|Hne].
  - exists s', result', visited'. split; [destruct fuel; cbn [hoodLoop]; rewrite decide_False by (unfold len; cbn [length]; lia); done|].
    split; [done|]. intros x. by eapply searching_end.
  - apply (IH (S k) next visited'); [by apply searching_down|destruct HR' as [? _ ?]; by split|cbn [length] in *; lia].
Qed.

Lemma Neighborhood_ok s : wf_scratch s → loHops ≤ maxDepth < 4294967296 →
  ∃ result s', Neighborhood g s start dir m loHops maxDepth = Ok (result, s') ∧ wf_scratch s' ∧
  ∀ v, v ∈ elems result ↔ ∃ k, loHops ≤ Z.of_nat k ≤ maxDepth ∧ dist adj S0 k v.
Proof using All.
  intros Hs Hlm. unfold Neighborhood. rewrite decide_False by lia. destruct (marks_S0 s Hs) as (gn & -> & Hmk). cbn [mbind res_bind].
  set (s1 := takeScratch s (CSRIDSpace g)) in *. pose proof (takeScratch_marks s (CSRIDSpace g) Hs ltac:(lia)) as Hmk1. fold s1 in Hmk1.
  set (r0 := if decide (loHops = 0) then (Insert New start).2 else New).
  destruct (hoodLoop_ok ltac:(lia) (searchFuel g 1) 0 [start] S0 (mkScratch gn (sdist s1) (cur s1)) r0) as (s' & result & visited & E & [Hm' _ Hr'] & Hv).
  { apply search_start. }
  { split; cbn [fst snd]; [apply Hmk, (sc_len _ (mk_wf _ _ _ Hmk1))|done|]. intros v. unfold r0.
    assert (dist adj S0 0 start) as H0' by (apply dist_0; set_solver).
    case_decide as D; rewrite ?elems_Insert, elems_New, ?elem_of_union, elem_of_singleton, elem_of_empty.
    - split; [intros [->|[]]; split; [done|]; exists 0%nat; split; [done|lia]|tauto].
    - split; [done|]. intros [-> (j & Hj & ?)]. pose proof (dist_unique _ _ _ _ _ Hj H0'). lia. }
  { pose proof level_fuel. cbn [length]. lia. }
  change (to_u32 (Z.of_nat 1)) with 1 in E. rewrite E. cbn [mbind res_bind fst snd] in *. exists result, s'. split; [done|]. split; [apply Hm'|].
  intros v. rewrite Hr', Hv. split.
  - intros [(i & Hi & (k & Hk & Hdk)%elem_of_ball_dist) (j & Hj & Hlj)]. pose proof (dist_unique _ _ _ _ _ Hj Hdk) as ->. exists k. split; [unfold allowed in Hi; lia|done].
  - intros (k & Hk & Hd). split; [exists k; split; [unfold allowed; lia|by apply dist_ball]|exists k; split; [done|lia]].
Qed.
End hood.
End level.

(** ** Properties *)

(** C7: Hop searches are exact. From any node id of the graph, in any direction
    and with any type filter of this graph: [CanReach] answers whether the target
    is within the bound; [BFSDistances] answers the distance of exactly the nodes
    within the bound; [Neighborhood] holds exactly the nodes whose distance lies in
    the closed range. All three end without panic, whatever earlier searches left
    in the pooled scratch, also when its run counter wraps, and hand back a
    scratch fit for the next search. *)
Theorem hop_searches_exact {bm} `{RoaringSetLaws bm} (g : Snapshot bm) ito m dir start maxDepth s :
  wfSearch g ito → matchOK g m → 0 ≤ start < CSRIDSpace g → wf_scratch s →
  (∀ to, ∃ b, CanReach g start to dir m maxDepth = Ok b ∧
    (b = true ↔ ∃ k, allowed maxDepth k ∧ reach (λ x, neighborsOf g m x dir) {[start]} k to)) ∧
  (∃ out s', BFSDistances g s start dir m maxDepth = Ok (out, s') ∧ wf_scratch s' ∧
    ∀ v d, out !! v = Some d ↔ ∃ k, d = Z.of_nat k ∧ allowed maxDepth k ∧ dist (λ x, neighborsOf g m x dir) {[start]} k v) ∧
  (∀ loHops, 0 ≤ loHops ≤ maxDepth → maxDepth < 4294967296 → ∃ result s', Neighborhood g s start dir m loHops maxDepth = Ok (result, s') ∧ wf_scratch s' ∧
    ∀ v, v ∈ elems result ↔ ∃ k, loHops ≤ Z.of_nat k ≤ maxDepth ∧ dist (λ x, neighborsOf g m x dir) {[start]} k v).
Proof.
  intros Hwf Hm Hst Hs. pose proof (CSRIDSpace_u32 g). split; [|split].
  - intros to. destruct (CanReach_ok g ito m dir Hwf Hm start to maxDepth ltac:(lia)) as (b & E & Hb). exists b. split; [done|]. by rewrite Hb, found_reach.
  - by eapply BFSDistances_ok.
  - intros lo Hlo Hmax. eapply (Neighborhood_ok g ito m dir start maxDepth Hwf Hm Hst lo); [lia|done|lia].
Qed.

(** A scratch of a smaller graph whose counter is about to wrap. *)
Definition usedScratch : searchScratch := mkScratch [7; 4294967295] [3; 9] 4294967295.

Lemma hop_searches_exact_witness : CanReach demoSnap 1 2 Outgoing MatchAll 1 = Ok false ∧
  (∃ out s', BFSDistances demoSnap usedScratch 1 Outgoing MatchAll (-1) = Ok (out, s') ∧ out !! 2 = Some 2).
Proof.
  assert (wf_scratch usedScratch) as Hs by (split; [done|done|repeat constructor; done]).
  split.
  - destruct (hop_searches_exact demoSnap [] MatchAll Outgoing 1 1 usedScratch demoSnap_search) as (Hc & _ & _); [done|done|done|].
    destruct (Hc 2) as (b & E & Hb). rewrite E. destruct b; [|done]. exfalso. destruct (proj1 Hb eq_refl) as (k & Hk & Hr).
    assert (2 ∈ ball (λ x, neighborsOf demoSnap MatchAll x Outgoing) {[1]} 1) as H2 by (apply elem_of_ball; exists k; split; [unfold allowed in Hk; lia|done]).
    revert H2. apply (bool_decide_unpack _). by vm_compute.
  - destruct (hop_searches_exact demoSnap [] MatchAll Outgoing 1 (-1) usedScratch demoSnap_search) as (_ & (out & s' & E & _ & Ho) & _); [done|done|done|].
    exists out, s'. split; [done|]. apply Ho. exists 2%nat. split; [done|]. split; [unfold allowed; lia|]. apply dist_S. split; apply (bool_decide_unpack _); by vm_compute.
Defined.
