(* ===== verification/BuiltSearch.v ===== *)
(** Searching a built graph: staging, [Finalize], traversal and search composed.

    The neighbors a finalized snapshot shows of a known node are the live staged
    relationships the filter keeps, so the searches of [src/search_bfs.go] answer
    about the graph that was staged. *)

From S2P Require Import Prelude Value AtomTable Columns NodeSet Csr RelTypes InToOut Snapshot TypedAdj Traverse Builder BuilderInv Compaction Finalize FinalizeSpec.
From S2P Require Import Hops SearchBfs SearchBfsSpec HopDistances.

Section built.
Context {bm : Type} `{RoaringSetLaws bm}.

(** [y] is one step from [x] along a relationship the filter keeps. *)
Definition linked {G} (rels : list (Z * Z)) (ts : list Z) (m : RelMatch G) (dir : Direction) (x y : Z) : Prop :=
  ∃ j r t, rels !! j = Some r ∧ ts !! j = Some t ∧ matches m t = true ∧
    (goesOut dir = true ∧ r = (x, y) ∨ goesIn dir = true ∧ r = (y, x)).

Lemma finalized_search (b : Builder bm (Snapshot bm)) rels ts relProps g : finalized b rels ts relProps g → ∃ ito, wfSearch g ito.
Proof. intros Hf. destruct (fz_graph _ _ _ _ _ Hf) as (ito & Hg & _). exists ito. split; [done|apply (fz_nbrs _ _ _ _ _ Hf)]. Qed.

Lemma stagedRefs_linked {G} rels ts pos (m : RelMatch G) v (out : bool) w : length ts = length rels →
  w ∈ Neighbor <$> stagedRefs rels ts pos m v out ↔
  ∃ j r t, rels !! j = Some r ∧ ts !! j = Some t ∧ matches m t = true ∧ r = if out then (v, w) else (w, v).
Proof.
  intros Hl. unfold stagedRefs. rewrite <- list_fmap_compose, list_elem_of_fmap. split.
  - intros (j & -> & [Hm [Ho Hj%elem_of_zseq]%list_elem_of_filter]%list_elem_of_filter). cbn [compose Neighbor].
    destruct (lookup_lt_is_Some_2 rels (Z.to_nat j)) as [r Hr]; [unfold len in Hj; lia|]. destruct (lookup_lt_is_Some_2 ts (Z.to_nat j)) as [t Ht]; [unfold len in Hj; lia|].
    rewrite (list_lookup_total_correct _ _ _ Hr) in *. rewrite (list_lookup_total_correct _ _ _ Ht) in *. exists (Z.to_nat j), r, t. do 3 (split; [done|]).
    unfold ownerOf, otherOf in *. destruct r, out; cbn in *; by subst.
  - intros (j & r & t & Hr & Ht & Hm & E). exists (Z.of_nat j). apply lookup_lt_Some in Hr as Hlt. unfold ownedIdx. cbn [compose Neighbor].
    rewrite !list_elem_of_filter, elem_of_zseq, Nat2Z.id, (list_lookup_total_correct _ _ _ Hr), (list_lookup_total_correct _ _ _ Ht).
    unfold ownerOf, otherOf, len. destruct out; subst r; cbn; (split; [done|]); (split; [done|]); (split; [done|lia]).
Qed.

(** What a known node's neighbors are. *)
Lemma finalized_neighbors (b : Builder bm (Snapshot bm)) rels ts relProps g m v dir w : finalized b rels ts relProps g → length ts = length rels → v ∈ known b →
  w ∈ neighborsOf g m v dir ↔ linked rels ts m dir v w.
Proof.
  intros Hf Hl Hv. destruct (fz_graph _ _ _ _ _ Hf) as (ito & Hg & Hr). rewrite (neighborsOf_rels g ito), list_elem_of_fmap. unfold relsOf. setoid_rewrite elem_of_app.
  destruct (Hr m v true Hv) as (po & Eo & _). destruct (Hr m v false Hv) as (pi & Ei & _). rewrite Eo, Ei.
  pose proof (stagedRefs_linked rels ts po m v true w Hl) as Ho. pose proof (stagedRefs_linked rels ts pi m v false w Hl) as Hi.
  rewrite list_elem_of_fmap in Ho, Hi. unfold linked. split.
  - intros (r & Er & [Hin|Hin]); case_match; try (by apply not_elem_of_nil in Hin).
    + destruct (proj1 Ho) as (j & r' & t & ? & ? & ? & ->); [by exists r|]. exists j, (v, w), t. naive_solver.
    + destruct (proj1 Hi) as (j & r' & t & ? & ? & ? & ->); [by exists r|]. exists j, (w, v), t. naive_solver.
  - intros (j & r & t & Hj & Ht & Hm & [[Ed ->]|[Ed ->]]); rewrite Ed.
    + destruct (proj2 Ho) as (r & -> & Hin); [by exists j, (v, w), t|]. exists r. split; [done|]. by left.
    + destruct (proj2 Hi) as (r & -> & Hin); [by exists j, (w, v), t|]. exists r. split; [done|]. by right.
Qed.

(** Paths from a known node run through known nodes. *)
Lemma finalized_paths (b : Builder bm (Snapshot bm)) rels ts relProps g m dir from : finalized b rels ts relProps g → length ts = length rels →
  Forall (λ r, r.1 ∈ known b ∧ r.2 ∈ known b) rels → from ∈ known b →
  ∀ k to, reach (λ x, neighborsOf g m x dir) {[from]} k to ↔ nsteps (linked rels ts m dir) k from to.
Proof.
  intros Hf Hl Hends Hfrom k to. unfold reach. setoid_rewrite elem_of_singleton.
  assert (∀ x y, linked rels ts m dir x y → y ∈ known b) as Hk.
  { intros x y (j & r & t & Hj & _ & _ & Hr). pose proof (Forall_lookup_1 _ _ _ _ Hends Hj) as [? ?]. by destruct Hr as [[_ ->]|[_ ->]]. }
  assert (∀ k x, x ∈ known b → nsteps (λ x y, y ∈ neighborsOf g m x dir) k x to ↔ nsteps (linked rels ts m dir) k x to) as Hn.
  { clear k from Hfrom. induction k as [|k IH]; intros x Hx; [split; intros Hs; inv Hs; constructor|].
    split; intros Hs; inv Hs as [|? ? y ? Hxy Hyt]; (econstructor; [|apply IH; [|exact Hyt]]); [by eapply finalized_neighbors| |by eapply finalized_neighbors|by eapply Hk].
    eapply Hk, finalized_neighbors; done. }
  split; [intros (s & -> & Hs); by apply Hn|intros Hs; exists from; split; [done|by apply Hn]].
Qed.
End built.

(** ** Properties *)

(** C6: Searches of a built graph answer about the staged graph. From every
    well-formed staging state of a fresh builder, removals pending or not,
    [Finalize] succeeds, and on the snapshot, from every known node, with every
    type filter of the snapshot, in every direction and with every depth bound,
    [CanReach] answers whether a path of live staged relationships of accepted
    types leads to the target within the bound, and [BFSDistances] answers exactly
    the lengths of the shortest such paths. *)
Theorem built_graph_searched {bm} `{RoaringSetLaws bm} (b : Builder bm (Snapshot bm)) : wf_builder b → src b = None → len (rels b) < 2147483648 →
  Forall (λ t, 0 ≤ t < MaxUint32) (relTypes b) →
  ∃ g, Finalize b = Ok g ∧ ∀ m dir from maxDepth s, matchOK g m → from ∈ known b → wf_scratch s →
    (∀ to, ∃ r, CanReach g from to dir m maxDepth = Ok r ∧ (r = true ↔ ∃ k, allowed maxDepth k ∧ nsteps (linked (liveRels b) (liveTypes b) m dir) k from to)) ∧
    (∃ out s', BFSDistances g s from dir m maxDepth = Ok (out, s') ∧ wf_scratch s' ∧
      ∀ v d, out !! v = Some d ↔ ∃ k, d = Z.of_nat k ∧ allowed maxDepth k ∧ nsteps (linked (liveRels b) (liveTypes b) m dir) k from v ∧
        ∀ j, nsteps (linked (liveRels b) (liveTypes b) m dir) j from v → (k ≤ j)%nat).
Proof.
  intros Hw Hsrc Hm Ht. destruct (Finalize_finalized b Hw Hsrc Hm Ht) as (g & E & Hf). exists g. split; [done|].
  intros m dir from maxDepth s Hmg Hfrom Hs. destruct (finalized_search _ _ _ _ _ Hf) as (ito & Hwf).
  assert (length (liveTypes b) = length (liveRels b)) as Hl by (unfold liveTypes, liveRels; by rewrite !length_fmap).
  assert (Forall (λ r, r.1 ∈ known b ∧ r.2 ∈ known b) (liveRels b)) as Hends by (eapply Forall_impl; [by apply liveRels_ends|]; naive_solver).
  pose proof (finalized_paths b _ _ _ g m dir from Hf Hl Hends Hfrom) as Hp. pose proof (fz_space _ _ _ _ _ Hf from Hfrom) as Hsp.
  pose proof (CSRIDSpace_u32 g). split.
  - intros to. destruct (CanReach_ok g ito m dir Hwf Hmg from to maxDepth ltac:(lia)) as (r & Er & Hr). exists r. split; [done|].
    rewrite Hr, found_reach. by setoid_rewrite Hp.
  - destruct (BFSDistances_ok g ito m dir from maxDepth Hwf Hmg Hsp s Hs) as (out & s' & Eo & Hs' & Ho). exists out, s'. split; [done|]. split; [done|].
    intros v d. rewrite Ho. unfold dist. by setoid_rewrite Hp.
Qed.

(** The graph of [finalOps]: 0 and 1 linked both ways after a removal. *)
Lemma built_graph_searched_witness : ∃ g, Finalize finalBuilder = Ok g ∧ CanReach g 0 1 Outgoing MatchAll 1 = Ok true.
Proof.
  assert (wf_builder finalBuilder) as Hw.
  { destruct (runOps_wf (bm := gset Z) (Snap := Snapshot (gset Z)) finalOps (NewBuilder 2 2)) as (b & E & Hb).
    - repeat constructor; simpl; lia.
    - apply NewBuilder_wf. lia.
    - unfold finalBuilder. by rewrite E. }
  destruct (built_graph_searched finalBuilder Hw) as (g & E & Hs); [by vm_compute|by vm_compute|apply (bool_decide_unpack _); by vm_compute|].
  assert (bool_decide (0 ∈ known finalBuilder) = true) as Hk by (by vm_compute). apply bool_decide_eq_true in Hk.
  exists g. split; [exact E|]. assert (wf_scratch (mkScratch [] [] 0)) as Hsc by (split; [reflexivity|cbn; lia|constructor]).
  pose proof (proj1 (Hs MatchAll Outgoing 0 1 (mkScratch [] [] 0) I Hk Hsc)) as Hc. clear Hs.
  destruct (Hc 1) as (r & -> & Hr). f_equal. apply Hr. exists 1%nat. split; [unfold allowed; lia|]. apply nsteps_once.
  exists 1%nat, (0, 1), 1. split; [vm_compute; reflexivity|]. split; [vm_compute; reflexivity|]. split; [reflexivity|]. left. by split.
Defined.
