(* ===== verification/Cost.v ===== *)
(** Non-negative float64 costs.

    Weights and path costs are float64 values that are never negative and never
    NaN ([WeightFn]'s contract). Such a value is an integer number of smallest
    subnormals (2^-1074), or +Inf: [Fin u] stands for u * 2^-1074. Addition is the
    exact sum rounded to 53 significant bits, ties to even, and becomes +Inf past
    the largest float64, as IEEE 754 prescribes; comparison is that of the
    integers. Rounding is monotone and fixes representable values, which is what
    the shortest-path theorems need of floating point. *)

From S2P Require Import Prelude.

Inductive cost := Fin (u : Z) | Inf.
#[export] Instance cost_eq_dec : EqDecision cost.
Proof. solve_decision. Defined.

(** A 53-bit significand at some exponent. *)
Definition representable (u : Z) : Prop := ∃ m k, 0 ≤ m < 2 ^ 53 ∧ 0 ≤ k ∧ u = m * 2 ^ k.

(** The exponent of the last significant bit. *)
Definition ulpExp (n : Z) : Z := if decide (n < 2 ^ 53) then 0 else Z.log2 n - 52.

(** Round to nearest, ties to even, at an exponent. *)
Definition roundAt (k n : Z) : Z :=
  let q := n / 2 ^ k in
  let r := n mod 2 ^ k in
  if decide (2 * r < 2 ^ k ∨ 2 * r = 2 ^ k ∧ Z.even q = true) then q * 2 ^ k else (q + 1) * 2 ^ k.
Definition round (n : Z) : Z := roundAt (ulpExp n) n.

(** 2^1024 in subnormals. *)
Definition overflowAt : Z := 2 ^ 2098.

Definition cadd (x y : cost) : cost :=
  match x, y with
  | Fin a, Fin b => let s := round (a + b) in if decide (s < overflowAt) then Fin s else Inf
  | _, _ => Inf
  end.
Definition cle (x y : cost) : Prop :=
  match x, y with Fin a, Fin b => a ≤ b | _, Inf => True | Inf, Fin _ => False end.
Definition clt (x y : cost) : Prop :=
  match x, y with Fin a, Fin b => a < b | Fin _, Inf => True | Inf, _ => False end.
#[export] Instance cle_dec : RelDecision cle.
Proof. intros [a|] [b|]; cbn; apply _. Defined.
#[export] Instance clt_dec : RelDecision clt.
Proof. intros [a|] [b|]; cbn; apply _. Defined.
Definition isInf (x : cost) : bool := match x with Inf => true | Fin _ => false end.

(** A float64 value. *)
Definition wf_cost (x : cost) : Prop := match x with Fin u => 0 ≤ u < overflowAt ∧ representable u | Inf => True end.

(** ** Order *)

Lemma cle_refl x : cle x x.
Proof. destruct x; cbn; lia. Qed.
Lemma cle_trans x y z : cle x y → cle y z → cle x z.
Proof. destruct x, y, z; cbn; lia. Qed.
Lemma cle_antisym x y : cle x y → cle y x → x = y.
Proof. destruct x, y; cbn; intros; try done. f_equal. lia. Qed.
Lemma not_clt x y : ¬ clt x y ↔ cle y x.
Proof. destruct x, y; cbn; intuition lia. Qed.
Lemma clt_cle x y : clt x y → cle x y.
Proof. destruct x, y; cbn; lia. Qed.
Lemma clt_irrefl x : ¬ clt x x.
Proof. destruct x; cbn; lia. Qed.
Lemma cle_clt_trans x y z : cle x y → clt y z → clt x z.
Proof. destruct x, y, z; cbn; lia. Qed.
Lemma clt_cle_trans x y z : clt x y → cle y z → clt x z.
Proof. destruct x, y, z; cbn; lia. Qed.
Lemma cle_total x y : cle x y ∨ clt y x.
Proof. destruct x, y; cbn; lia. Qed.
Lemma clt_ne x y : cle x y → x ≠ y → clt x y.
Proof. destruct x as [a|], y as [b|]; cbn; intros Hle Hne; try done. assert (a ≠ b) by congruence. lia. Qed.

(** ** Rounding *)

Lemma pow_pos k : 0 ≤ k → 0 < 2 ^ k.
Proof. intros. apply Z.pow_pos_nonneg; lia. Qed.

Lemma roundAt_bounds k n : 0 ≤ k → (n / 2 ^ k) * 2 ^ k ≤ roundAt k n ≤ (n / 2 ^ k + 1) * 2 ^ k.
Proof. intros Hk. pose proof (pow_pos k Hk). unfold roundAt. case_decide; lia. Qed.

Lemma roundAt_mono k n n' : 0 ≤ k → n ≤ n' → roundAt k n ≤ roundAt k n'.
Proof.
  intros Hk Hn. pose proof (pow_pos k Hk) as Hp. pose proof (Z.div_le_mono n n' (2 ^ k) Hp Hn) as Hq.
  destruct (decide (n / 2 ^ k = n' / 2 ^ k)) as [E|Hne].
  - pose proof (Z.div_mod n (2 ^ k) ltac:(lia)). pose proof (Z.div_mod n' (2 ^ k) ltac:(lia)).
    assert (n mod 2 ^ k ≤ n' mod 2 ^ k) as Hr by (rewrite E in *; lia). unfold roundAt. rewrite <- E.
    assert (∀ r r', r ≤ r' → 2 * r' < 2 ^ k ∨ 2 * r' = 2 ^ k ∧ Z.even (n / 2 ^ k) = true → 2 * r < 2 ^ k ∨ 2 * r = 2 ^ k ∧ Z.even (n / 2 ^ k) = true) as Hup by (intros r r' Hrr [?|[? He]]; [left; lia|]; destruct (decide (2 * r = 2 ^ k)); [by right|left; lia]).
    case_decide as D1; case_decide as D2; try lia. exfalso. apply D1. by eapply Hup.
  - pose proof (roundAt_bounds k n Hk). pose proof (roundAt_bounds k n' Hk).
    assert ((n / 2 ^ k + 1) * 2 ^ k ≤ n' / 2 ^ k * 2 ^ k); [|lia]. apply Z.mul_le_mono_nonneg_r; lia.
Qed.

Lemma roundAt_exact k q : 0 ≤ k → roundAt k (q * 2 ^ k) = q * 2 ^ k.
Proof.
  intros Hk. pose proof (pow_pos k Hk). unfold roundAt. rewrite Z.div_mul, Z.mod_mul by lia. rewrite decide_True; [done|lia].
Qed.

Lemma ulpExp_nonneg n : 0 ≤ ulpExp n.
Proof.
  unfold ulpExp. case_decide as D; [lia|]. assert (53 ≤ Z.log2 n); [|lia].
  change 53 with (Z.log2 (2 ^ 53)). apply Z.log2_le_mono. lia.
Qed.

(** Between two powers of two the significand has 53 bits. *)
Lemma ulpExp_spec n : 2 ^ 53 ≤ n → 2 ^ 52 * 2 ^ ulpExp n ≤ n < 2 ^ 53 * 2 ^ ulpExp n.
Proof.
  intros Hn. pose proof (ulpExp_nonneg n). unfold ulpExp in *. rewrite decide_False in * by lia. rewrite <- !Z.pow_add_r by lia.
  destruct (Z.log2_spec n ltac:(lia)) as [H1 H2]. replace (52 + (Z.log2 n - 52)) with (Z.log2 n) by lia.
  replace (53 + (Z.log2 n - 52)) with (Z.succ (Z.log2 n)) by lia. done.
Qed.

Lemma ulpExp_small n : 0 ≤ n < 2 ^ 53 → round n = n.
Proof.
  intros Hn. unfold round, ulpExp. rewrite decide_True by lia. pose proof (roundAt_exact 0 n ltac:(lia)) as E. by rewrite Z.mul_1_r in E.
Qed.

Lemma round_representable n : 0 ≤ n → representable (round n).
Proof.
  intros Hn. destruct (decide (n < 2 ^ 53)) as [Hs|Hb].
  { rewrite ulpExp_small by lia. exists n, 0. lia. }
  pose proof (ulpExp_spec n ltac:(lia)) as Hu. pose proof (ulpExp_nonneg n) as Hk. pose proof (pow_pos _ Hk) as Hp. unfold round, roundAt.
  assert (n / 2 ^ ulpExp n < 2 ^ 53) as Hq by (apply Z.div_lt_upper_bound; lia). pose proof (Z.div_pos n _ Hn Hp).
  case_decide.
  - exists (n / 2 ^ ulpExp n), (ulpExp n). lia.
  - destruct (decide (n / 2 ^ ulpExp n + 1 < 2 ^ 53)); [exists (n / 2 ^ ulpExp n + 1), (ulpExp n); lia|].
    exists (2 ^ 52), (ulpExp n + 1). split; [lia|]. split; [lia|]. assert (n / 2 ^ ulpExp n + 1 = 2 ^ 53) as -> by lia.
    rewrite Z.pow_add_r, Z.pow_1_r by lia. lia.
Qed.

Lemma round_fixed u : representable u → round u = u.
Proof.
  intros (m & k & Hm & Hk & ->). pose proof (pow_pos k Hk) as Hp. destruct (decide (m * 2 ^ k < 2 ^ 53)) as [Hs|Hb].
  { apply ulpExp_small. lia. }
  pose proof (ulpExp_spec (m * 2 ^ k) ltac:(lia)) as [Hlo _]. pose proof (ulpExp_nonneg (m * 2 ^ k)) as He. set (e := ulpExp (m * 2 ^ k)) in *.
  assert (e ≤ k) as Hek.
  { destruct (decide (e ≤ k)); [done|]. exfalso. assert (m * 2 ^ k < 2 ^ 53 * 2 ^ k) by (apply Z.mul_lt_mono_pos_r; lia). assert (2 ^ k * 2 ≤ 2 ^ e); [|lia].
    replace (2 ^ k * 2) with (2 ^ (k + 1)) by (by rewrite Z.pow_add_r, Z.pow_1_r by lia). apply Z.pow_le_mono_r; lia. }
  unfold round. fold e. replace (m * 2 ^ k) with (m * 2 ^ (k - e) * 2 ^ e); [by apply roundAt_exact|].
  rewrite <- Z.mul_assoc, <- Z.pow_add_r by lia. do 2 f_equal. lia.
Qed.

Lemma round_mono n n' : 0 ≤ n ≤ n' → round n ≤ round n'.
Proof.
  intros Hn. pose proof (ulpExp_nonneg n) as Hk. pose proof (ulpExp_nonneg n') as Hk'. unfold round.
  destruct (decide (ulpExp n = ulpExp n')) as [<-|Hne]; [apply roundAt_mono; lia|].
  assert (ulpExp n < ulpExp n') as Hlt.
  { assert (ulpExp n ≤ ulpExp n'); [|lia]. unfold ulpExp in *. case_decide; case_decide; try lia. pose proof (Z.log2_le_mono n n'). lia. }
  assert (2 ^ 53 ≤ n') as Hb by (destruct (decide (n' < 2 ^ 53)) as [H|]; [|lia]; unfold ulpExp in Hlt; rewrite (decide_True (P := n' < 2 ^ 53)) in Hlt by lia; case_decide; lia).
  pose proof (ulpExp_spec n' Hb) as [Hlo _].
  transitivity (2 ^ 53 * 2 ^ ulpExp n).
  - destruct (roundAt_bounds (ulpExp n) n Hk) as [_ Hu]. etransitivity; [exact Hu|]. pose proof (pow_pos _ Hk) as Hp. apply Z.mul_le_mono_nonneg_r; [lia|].
    assert (n / 2 ^ ulpExp n < 2 ^ 53); [|lia]. apply Z.div_lt_upper_bound; [lia|]. destruct (decide (n < 2 ^ 53)) as [Hs|Hs].
    + unfold ulpExp. rewrite decide_True by lia. lia.
    + pose proof (ulpExp_spec n). lia.
  - destruct (roundAt_bounds (ulpExp n') n' Hk') as [Hl _]. etransitivity; [|exact Hl]. pose proof (pow_pos _ Hk') as Hp.
    transitivity (2 ^ 52 * 2 ^ ulpExp n').
    + replace (2 ^ 53 * 2 ^ ulpExp n) with (2 ^ 52 * 2 ^ (ulpExp n + 1)) by (rewrite Z.pow_add_r, Z.pow_1_r by lia; lia).
      apply Z.mul_le_mono_nonneg_l; [lia|]. apply Z.pow_le_mono_r; lia.
    + apply Z.mul_le_mono_nonneg_r; [lia|]. apply Z.div_le_lower_bound; lia.
Qed.

(** ** Addition *)

Lemma cadd_wf x y : wf_cost x → wf_cost y → wf_cost (cadd x y).
Proof.
  destruct x as [a|], y as [b|]; cbn; try done. intros [Ha _] [Hb _]. case_decide as D; [|done]. cbn. split; [|apply round_representable; lia].
  split; [|done]. assert (round 0 = 0) as <- by (apply ulpExp_small; lia). apply round_mono. lia.
Qed.

(** A longer prefix does not get cheaper by the same step. *)
Lemma cadd_mono x y w : wf_cost x → wf_cost y → wf_cost w → cle x y → cle (cadd x w) (cadd y w).
Proof.
  destruct x as [a|], y as [b|], w as [c|]; cbn; try done; intros [Ha _] Hb Hc Hle; try (by case_decide).
  pose proof (round_mono (a + c) (b + c)). case_decide; case_decide; cbn; try done; lia.
Qed.

(** A step never makes a path cheaper. *)
Lemma cadd_le x w : wf_cost x → wf_cost w → cle x (cadd x w).
Proof.
  destruct x as [a|], w as [c|]; cbn; try done. intros [Ha Hr] [Hc _]. pose proof (round_mono a (a + c) ltac:(lia)) as Hm. rewrite (round_fixed a Hr) in Hm.
  case_decide; cbn; [lia|done].
Qed.

Lemma cadd_comm x y : cadd x y = cadd y x.
Proof. destruct x, y; cbn; try done. by rewrite Z.add_comm. Qed.

Lemma cadd_mono_r a b b' : wf_cost a → wf_cost b → wf_cost b' → cle b b' → cle (cadd a b) (cadd a b').
Proof. intros. rewrite !(cadd_comm a). by apply cadd_mono. Qed.

(** Only the sign matters for monotonicity. *)
Lemma cadd_mono2 x x' y y' : cle (Fin 0) x → cle (Fin 0) y → cle x x' → cle y y' → cle (cadd x y) (cadd x' y').
Proof.
  destruct x as [a|], x' as [a'|], y as [b|], y' as [b'|]; cbn; try done; intros Ha Hb Hle Hle'; try (by case_decide).
  pose proof (round_mono (a + b) (a' + b')). case_decide; case_decide; cbn; try done; lia.
Qed.

Lemma wf_nonneg x : wf_cost x → cle (Fin 0) x.
Proof. destruct x; [|done]. intros [? _]. cbn. lia. Qed.

Lemma cadd_zero x : wf_cost x → cadd (Fin 0) x = x.
Proof. destruct x as [a|]; cbn; [|done]. intros [Ha Hr]. rewrite round_fixed by done. rewrite decide_True by lia. done. Qed.

Lemma wf_zero : wf_cost (Fin 0).
Proof. split; [unfold overflowAt; lia|]. exists 0, 0. lia. Qed.

(** 1.0, 2^53 and 0.1 as float64 values: 1 is absorbed by 2^53, 1 + 1 is exact,
    and 0.1 + 0.2 is the float64 above 0.3. *)
Definition one64 : cost := Fin (2 ^ 1074).
Example cadd_exact : cadd one64 one64 = Fin (2 ^ 1075).
Proof. by vm_compute. Qed.
Example cadd_absorbs : cadd (Fin (2 ^ 1127)) one64 = Fin (2 ^ 1127).
Proof. by vm_compute. Qed.
Example cadd_tenths : cadd (Fin (7205759403792794 * 2 ^ 1018)) (Fin (7205759403792794 * 2 ^ 1019)) = Fin (5404319552844596 * 2 ^ 1020).
Proof. by vm_compute. Qed.
Example cadd_overflows : cadd (Fin ((2 ^ 53 - 1) * 2 ^ 2045)) (Fin ((2 ^ 53 - 1) * 2 ^ 2045)) = Inf.
Proof. by vm_compute. Qed.
