(* ===== verification/SearchDijkstra.v ===== *)
(** Weighted shortest paths: [src/search_dijkstra.go].

    Single-source Dijkstra with its map and dense-array states and the
    hand-rolled binary heap, path reconstruction, and the bidirectional
    point-to-point search. Costs are non-negative float64 values ([Cost]). The
    heap is verified in [DijkstraInv], the searches in [DijkstraSpec]. *)

From S2P Require Import Prelude Heap Value NodeSet RelTypes Snapshot TypedAdj Traverse SearchBfs Cost.

(** ** The heap *)

Record dijkstraState := mkState { scost : cost; snode : Z }.
#[export] Instance dijkstraState_eq_dec : EqDecision dijkstraState.
Proof. solve_decision. Defined.
#[export] Instance dijkstraState_inhabited : Inhabited dijkstraState := populate (mkState Inf 0).

(** The order of [less]: by cost, ties by node id. *)
Definition stateLt (x y : dijkstraState) : Prop :=
  if decide (scost x ≠ scost y) then clt (scost x) (scost y) else snode x < snode y.
#[export] Instance stateLt_dec : RelDecision stateLt.
Proof. intros x y. unfold stateLt. case_decide; apply _. Defined.

Abbreviation dijkstraHeap := (list dijkstraState).

(** The sift loops of [Heap], over that order. *)
Definition less (h : dijkstraHeap) (i j : Z) : res bool := heapLess stateLt h i j.
Definition siftUp (fuel : nat) (a : dijkstraHeap) (i : Z) : res dijkstraHeap := heapUp stateLt fuel a i.

Definition push (h : dijkstraHeap) (s : dijkstraState) : res dijkstraHeap :=
  let a := h ++ [s] in siftUp (length a) a (len a - 1).

Definition siftDown (fuel : nat) (a : dijkstraHeap) (n i : Z) : res dijkstraHeap := heapDown stateLt fuel a n i.

Definition pop (h : dijkstraHeap) : res (dijkstraState * dijkstraHeap) :=
  top ← idx h 0;
  let n := len h - 1 in
  last ← idx h n;
  a ← upd h 0 last;
  a ← slice a 0 n;
  a ← siftDown (length h) a n 0;
  Ok (top, a).

(** ** ShortestPaths *)

Record ShortestPaths := mkPaths {
  psource : Z;
  pdist : gmap Z cost; pprev : gmap Z Z;
  pdense : bool; distA : list cost; prevA : list Z; reached : list Z;
}.

Definition prevNone : Z := MaxUint32.

(** A [float64, bool] answer is an option. *)
Definition Distance (p : ShortestPaths) (node : Z) : res (option cost) :=
  if pdense p then
    if decide (len (distA p) ≤ node) then Ok None
    else d ← idx (distA p) node; Ok (if isInf d then None else Some d)
  else Ok (pdist p !! node).

Definition Reached (p : ShortestPaths) (node : Z) : res bool :=
  o ← Distance p node; Ok (match o with Some _ => true | None => false end).

Definition Distances (p : ShortestPaths) : res (gmap Z cost) :=
  if negb (pdense p) then Ok (pdist p)
  else foldM (λ m v, d ← idx (distA p) v; Ok (<[v := d]> m)) (reached p) ∅.

(** The predecessor of a node on its path; [None] ends the walk. *)
Definition prevOf (p : ShortestPaths) (cur : Z) : res (option Z) :=
  if pdense p then next ← idx (prevA p) cur; Ok (if decide (next = prevNone) then None else Some next)
  else Ok (pprev p !! cur).

(** The path is collected from the target and reversed at the end; one step per
    node of the id space at most. *)
Fixpoint pathLoop (fuel : nat) (p : ShortestPaths) (path : list Z) (cur : Z) : res (option (list Z)) :=
  if decide (cur = psource p) then Ok (Some (rev path))
  else match fuel with
    | O => Panic
    | S fuel =>
        o ← prevOf p cur;
        match o with None => Ok None | Some next => pathLoop fuel p (path ++ [next]) next end
    end.

Definition pathFuel (p : ShortestPaths) : nat := S (size (pdist p) + length (reached p)).

Definition PathTo (p : ShortestPaths) (target : Z) : res (option (list Z)) :=
  ok ← Reached p target;
  if negb ok then Ok None else pathLoop (pathFuel p) p [target] target.

Definition lookup_ (p : ShortestPaths) (node : Z) : res (option cost) :=
  if pdense p then d ← idx (distA p) node; Ok (if isInf d then None else Some d)
  else Ok (pdist p !! node).

Definition set (p : ShortestPaths) (node : Z) (d : cost) (from : Z) : res ShortestPaths :=
  if pdense p then
    old ← idx (distA p) node;
    let reached' := if isInf old then reached p ++ [node] else reached p in
    ds ← upd (distA p) node d;
    ps ← upd (prevA p) node from;
    Ok (mkPaths (psource p) (pdist p) (pprev p) true ds ps reached')
  else Ok (mkPaths (psource p) (<[node := d]> (pdist p)) (<[node := from]> (pprev p)) false (distA p) (prevA p) (reached p)).

(** The maps are left for the arrays ([p.dist, p.prev = nil, nil]). *)
Definition densify (p : ShortestPaths) (idSpace : Z) : res ShortestPaths :=
  let blank := (replicate (Z.to_nat idSpace) Inf, replicate (Z.to_nat idSpace) prevNone) in
  '(ds, rs) ← foldM (λ st e, let '(ds, rs) := st in ds ← upd ds e.1 e.2; Ok (ds, rs ++ [e.1])) (map_to_list (pdist p)) (blank.1, []);
  ps ← foldM (λ ps e, upd ps e.1 e.2) (map_to_list (pprev p)) blank.2;
  Ok (mkPaths (psource p) ∅ ∅ true ds ps rs).

Definition dijkstraDenseAt : Z := 4096.

Section dijkstra.
Context {bm : Type} `{RoaringSet bm}.
Abbreviation Match_t := (RelMatch (Snapshot bm)).
Abbreviation WeightFn := (Z → RelRef → cost).
Implicit Types (g : Snapshot bm) (m : Match_t) (weight : WeightFn) (p : ShortestPaths) (h : dijkstraHeap).

(** Each relationship is relaxed once and pushes at most one entry. *)
Definition dijkstraFuel g : nat := S (S (Z.to_nat (CSRIDSpace g * (len (outNbrs g) + len (inNbrs g))))).

Definition relaxBody weight (s : dijkstraState) (rel : RelRef) (st : ShortestPaths * dijkstraHeap) : res (ShortestPaths * dijkstraHeap) :=
  let '(p, h) := st in
  let next := cadd (scost s) (weight (snode s) rel) in
  if isInf next then Ok st
  else
    o ← lookup_ p (Neighbor rel);
    if match o with None => true | Some d => bool_decide (clt next d) end then
      p ← set p (Neighbor rel) next (snode s);
      h ← push h (mkState next (Neighbor rel));
      Ok (p, h)
    else Ok st.

Fixpoint dijkstraLoop (fuel : nat) g (dir : Direction) m weight (target : option Z) p h : res ShortestPaths :=
  match h, fuel with
  | [], _ => Ok p
  | _, O => Panic
  | _, S fuel =>
      '(s, h) ← pop h;
      o ← lookup_ p (snode s);
      if match o with Some d => bool_decide (clt d (scost s)) | None => false end then dijkstraLoop fuel g dir m weight target p h
      else if decide (target = Some (snode s)) then Ok p
      else
        r ← RelsMatch g (snode s) dir m (tryYield (relaxBody weight s)) (Ok (p, h));
        '(p, h) ← r;
        p ← (if decide (pdense p = false ∧ dijkstraDenseAt ≤ Z.of_nat (size (pdist p))) then densify p (CSRIDSpace g) else Ok p);
        dijkstraLoop fuel g dir m weight target p h
  end.

(** [hasTarget] and [target] of the code are one option. *)
Definition dijkstra g (source : Z) (dir : Direction) m weight (target : option Z) : res ShortestPaths :=
  dijkstraLoop (dijkstraFuel g) g dir m weight target (mkPaths source {[source := Fin 0]} ∅ false [] [] []) [mkState (Fin 0) source].

Definition Dijkstra g (source : Z) (dir : Direction) m weight : res ShortestPaths := dijkstra g source dir m weight None.
Definition DijkstraTo g (source target : Z) (dir : Direction) m weight : res ShortestPaths := dijkstra g source dir m weight (Some target).

(** ** WeightedShortestPath *)

Definition relaxSide weight (s : dijkstraState) (rel : RelRef) (st : gmap Z cost * dijkstraHeap) : res (gmap Z cost * dijkstraHeap) :=
  let '(dist, h) := st in
  let next := cadd (scost s) (weight (snode s) rel) in
  if isInf next then Ok st
  else if match dist !! Neighbor rel with None => true | Some cur => bool_decide (clt next cur) end then
    h ← push h (mkState next (Neighbor rel));
    Ok (<[Neighbor rel := next]> dist, h)
  else Ok st.

Definition topOf h : cost := match h with [] => Inf | s :: _ => scost s end.

(** Settling the cheapest node of the side ([dist], [h]) against the other one. *)
Definition settleSide g (d : Direction) m weight (other dist : gmap Z cost) h (best : cost) : res (gmap Z cost * dijkstraHeap * cost) :=
  '(s, h) ← pop h;
  if match dist !! snode s with Some cur => bool_decide (clt cur (scost s)) | None => false end then Ok (dist, h, best)
  else
    let best := match other !! snode s with
      | Some otherCost => if decide (clt (cadd (scost s) otherCost) best) then cadd (scost s) otherCost else best
      | None => best end in
    r ← RelsMatch g (snode s) d m (tryYield (relaxSide weight s)) (Ok (dist, h));
    '(dist, h) ← r;
    Ok (dist, h, best).

Fixpoint wspLoop (fuel : nat) g (dir : Direction) m weight (distF distB : gmap Z cost) (heapF heapB : dijkstraHeap) (best : cost) : res cost :=
  if decide (heapF = [] ∧ heapB = []) then Ok best
  else if decide (cle best (cadd (topOf heapF) (topOf heapB))) then Ok best
  else match fuel with
    | O => Panic
    | S fuel =>
        if decide (clt (topOf heapB) (topOf heapF)) then
          if decide (heapB = []) then wspLoop fuel g dir m weight distF distB heapF heapB best
          else '(distB, heapB, best) ← settleSide g (Reverse dir) m weight distF distB heapB best;
               wspLoop fuel g dir m weight distF distB heapF heapB best
        else
          if decide (heapF = []) then wspLoop fuel g dir m weight distF distB heapF heapB best
          else '(distF, heapF, best) ← settleSide g dir m weight distB distF heapF best;
               wspLoop fuel g dir m weight distF distB heapF heapB best
    end.

(** The pooled maps and heaps are cleared before use. *)
Definition WeightedShortestPath g (source target : Z) (dir : Direction) m weight : res (option cost) :=
  if decide (source = target) then Ok (Some (Fin 0))
  else
    best ← wspLoop (dijkstraFuel g + dijkstraFuel g) g dir m weight {[source := Fin 0]} {[target := Fin 0]}
      [mkState (Fin 0) source] [mkState (Fin 0) target] Inf;
    Ok (if isInf best then None else Some best).

End dijkstra.
