(* ===== verification/DijkstraInv.v ===== *)
(** The invariant of Dijkstra's search with lazy deletion, as
    [src/search_dijkstra.go] runs it on either side.

    Abstractly: tentative distances, a heap with stale entries, and the list of
    settled nodes. A walk's cost is the float64 sum of its steps from the source
    on, in order; the invariant bounds the cost of every walk by a tentative
    distance or by an open heap entry, which makes settled distances exact even
    though floating-point addition is not associative.

    First the heap: [push] and [pop] never panic, keep the heap order, and neither
    lose nor invent entries; [pop] returns a least one. *)

From S2P Require Import Prelude Heap Traverse SearchBfs Cost SearchDijkstra.

(** ** The order *)

Definition stateLe (x y : dijkstraState) : Prop := ¬ stateLt y x.

Lemma stateLe_refl x : stateLe x x.
Proof. unfold stateLe, stateLt. rewrite decide_False by tauto. lia. Qed.

Lemma stateLe_cost x y : stateLe x y → cle (scost x) (scost y).
Proof. unfold stateLe, stateLt. case_decide as D; [by rewrite not_clt|]. intros _. rewrite D. apply cle_refl. Qed.

Lemma stateLt_le x y : stateLt x y → stateLe x y.
Proof.
  unfold stateLe, stateLt. case_decide as D.
  - rewrite decide_True by congruence. intros Hlt. rewrite not_clt. by apply clt_cle.
  - rewrite decide_False by congruence. lia.
Qed.

Lemma stateLe_trans x y z : stateLe x y → stateLe y z → stateLe x z.
Proof.
  intros H1 H2. pose proof (stateLe_cost _ _ H1) as C1. pose proof (stateLe_cost _ _ H2) as C2. unfold stateLe, stateLt in *.
  destruct (decide (scost z = scost x)) as [E|E].
  - rewrite decide_False by tauto. assert (scost x = scost y) as E' by (apply cle_antisym; [done|congruence]).
    rewrite decide_False in H1 by (rewrite E'; tauto). rewrite decide_False in H2 by (rewrite E, E'; tauto). lia.
  - rewrite decide_True by done. rewrite not_clt. by eapply cle_trans.
Qed.

#[export] Instance stateLt_heap : HeapOrder stateLt.
Proof. split; [apply stateLe_refl|apply stateLt_le|intros x y z; apply stateLe_trans]. Qed.

Definition isHeap (a : list dijkstraState) : Prop := heapOrdered stateLt a.

Lemma isHeap_root a i : isHeap a → (i < length a)%nat → stateLe (a !!! 0%nat) (a !!! i).
Proof. apply (heapOrdered_root stateLt). Qed.

(** [push] adds an entry. *)
Lemma push_ok h s : isHeap h → ∃ h', push h s = Ok h' ∧ isHeap h' ∧ h' ≡ₚ s :: h.
Proof. apply (heapPush_ok stateLt). Qed.

(** [pop] removes a least entry. *)
Lemma pop_ok h : isHeap h → h ≠ [] → ∃ s h', pop h = Ok (s, h') ∧ isHeap h' ∧ h ≡ₚ s :: h' ∧ ∀ x, x ∈ h → stateLe s x.
Proof.
  intros Hh Hne. destruct h as [|s h] using rev_ind; [done|clear IHh Hne]. rename s into last. unfold pop, siftDown. set (a := h ++ [last]) in *.
  assert (length a = S (length h)) as Hla by (unfold a; rewrite length_app; cbn; lia). assert (idx a 0 = Ok (a !!! 0%nat)) as -> by (apply (idx_total a 0); lia). cbn [mbind res_bind].
  replace (len a - 1) with (Z.of_nat (length h)) by (unfold len; lia). rewrite idx_total by lia. cbn [mbind res_bind].
  assert (a !!! length h = last) as -> by (apply list_lookup_total_correct; unfold a; by rewrite lookup_app_r, Nat.sub_diag by lia).
  unfold upd. rewrite decide_True by (unfold len; lia). cbn [mbind res_bind].
  set (b := take (length h) (<[Z.to_nat 0 := last]> a)).
  assert (slice (<[Z.to_nat 0:=last]> a) 0 (Z.of_nat (length h)) = Ok b) as ->.
  { rewrite slice_ok by (unfold len; rewrite ?length_insert; lia). unfold b. by rewrite Z.sub_0_r, Nat2Z.id. }
  cbn [mbind res_bind]. assert (length b = length h) as Hlb by (unfold b; rewrite length_take, length_insert; lia).
  replace (Z.of_nat (length h)) with (len b) by (unfold len; by rewrite Hlb).
  assert (∀ j, (0 < j < length h)%nat → b !!! j = a !!! j) as Hb.
  { intros j Hj. unfold b. rewrite lookup_total_take_lt by lia. by rewrite list_lookup_total_insert_ne by lia. }
  destruct (heapDown_ok stateLt (length a) b) as (h' & E & Hh' & Hp); [lia| |].
  { split; [|lia]. intros j Hj _ Hnp. pose proof (parentOf_lt j ltac:(lia)). rewrite !Hb by lia. apply Hh. lia. }
  rewrite E. cbn [mbind res_bind]. exists (a !!! 0%nat), h'. split; [done|]. split; [done|]. split.
  - rewrite Hp. unfold a, b. destruct h as [|x h]; [done|].
    change (x :: (h ++ [last]) ≡ₚ x :: last :: take (length h) (h ++ [last])). rewrite take_app_length. by rewrite <- Permutation_cons_append.
  - intros x (i & Hi)%list_elem_of_lookup. rewrite <- (list_lookup_total_correct _ _ _ Hi). apply isHeap_root; [done|]. by eapply lookup_lt_Some.
Qed.

(** ** The invariant *)

Section invariant.
Context (rels : Z → list RelRef) (weight : Z → RelRef → cost) (source n : Z).
Hypothesis Hw : ∀ u r, wf_cost (weight u r).
Hypothesis Hn : ∀ u r, r ∈ rels u → 0 ≤ Neighbor r < n.

(** The cost of following [r] from [u] after [c]. *)
Abbreviation after c u r := (cadd c (weight u r)).

(** A walk from the source to [v] along relationships with finite costs. *)
Inductive walk : cost → Z → Prop :=
| walk_start : walk (Fin 0) source
| walk_step c u r : walk c u → r ∈ rels u → isInf (after c u r) = false → walk (after c u r) (Neighbor r).

(** The nodes of such a walk. *)
Inductive route : list Z → cost → Z → Prop :=
| route_start : route [source] (Fin 0) source
| route_step path c u r : route path c u → r ∈ rels u → isInf (after c u r) = false → route (path ++ [Neighbor r]) (after c u r) (Neighbor r).

Lemma route_walk path c v : route path c v → walk c v.
Proof. induction 1; by constructor. Qed.

Lemma walk_wf c v : walk c v → wf_cost c ∧ isInf c = false.
Proof using Hw. induction 1 as [|c u r _ [IH _] Hr Hi]; [split; [apply wf_zero|done]|]. split; [by apply cadd_wf|done]. Qed.

Lemma walk_after_le c c' u r : walk c u → wf_cost c' → cle c' c → cle (after c' u r) (after c u r).
Proof using Hw. intros Hwk Hc Hle. apply cadd_mono; [done|by eapply walk_wf|done|done]. Qed.

(** ** Tentative distances *)

Implicit Types (D : gmap Z cost) (H : list dijkstraState) (done : list Z).

(** [v] has a distance of at most [c]. *)
Definition within D (v : Z) (c : cost) : Prop := ∃ d, D !! v = Some d ∧ cle d c.

(** [open u r]: the relationship [r] of the settled node [u] is not relaxed yet. *)
Record inv (open : Z → RelRef → Prop) D H done : Prop := {
  iv_heap : isHeap H;
  iv_nodup : NoDup H;
  iv_source : D !! source = Some (Fin 0);
  iv_walk : ∀ v d, D !! v = Some d → walk d v;
  iv_entry : ∀ s, s ∈ H → within D (snode s) (scost s);
  iv_pending : ∀ v d, D !! v = Some d → v ∉ done → mkState d v ∈ H;
  iv_done : NoDup done ∧ ∀ v, v ∈ done → is_Some (D !! v);
  iv_settled : ∀ v d s, v ∈ done → D !! v = Some d → s ∈ H → cle d (scost s) ∧ (snode s = v → clt d (scost s));
  iv_relaxed : ∀ v d r, v ∈ done → D !! v = Some d → r ∈ rels v → isInf (after d v r) = false → open v r ∨ within D (Neighbor r) (after d v r);
}.
Definition closed : Z → RelRef → Prop := λ _ _, False.

Lemma inv_start : inv closed {[source := Fin 0]} [mkState (Fin 0) source] [].
Proof.
  split; try (by intros v d r Hv%not_elem_of_nil).
  - intros j Hj. cbn in Hj. lia.
  - apply NoDup_singleton.
  - by rewrite lookup_singleton_eq.
  - intros v d [<- <-]%lookup_singleton_Some. constructor.
  - intros s ->%list_elem_of_singleton. exists (Fin 0). cbn. by rewrite lookup_singleton_eq.
  - intros v d [<- <-]%lookup_singleton_Some _. by left.
  - split; [constructor|by intros v Hv%not_elem_of_nil].
Qed.

(** Every walk is covered by a distance or by an entry still open. *)
Lemma inv_cut D H done c v : inv closed D H done → walk c v → within D v c ∨ ∃ s, s ∈ H ∧ cle (scost s) c.
Proof using Hw.
  intros Hi. induction 1 as [|c u r Hwk [(d & Hd & Hle)|(s & Hs & Hle)] Hr Hinf].
  - left. exists (Fin 0). split; [apply Hi|apply cle_refl].
  - destruct (walk_wf _ _ Hwk) as [Hcw _]. pose proof (iv_walk _ _ _ _ Hi _ _ Hd) as Hwd. destruct (walk_wf _ _ Hwd) as [Hdw _].
    destruct (decide (u ∈ done)) as [Hu|Hu].
    + left. pose proof (walk_after_le _ _ u r Hwk Hdw Hle) as Hle'. destruct (isInf (after d u r)) eqn:E.
      { exfalso. destruct (after d u r); [done|]. destruct (after c u r); done. }
      destruct (iv_relaxed _ _ _ _ Hi u d r Hu Hd Hr E) as [[]|(d' & Hd' & Hle2)]. exists d'. split; [done|]. by eapply cle_trans.
    + right. exists (mkState d u). split; [by apply Hi|]. cbn. eapply cle_trans; [exact Hle|]. by apply cadd_le.
  - right. exists s. split; [done|]. eapply cle_trans; [exact Hle|]. apply cadd_le; [by eapply walk_wf|done].
Qed.

(** A settled distance is the least cost. *)
Lemma inv_exact D H done v d c : inv closed D H done → v ∈ done → D !! v = Some d → walk c v → cle d c.
Proof using Hw.
  intros Hi Hv Hd Hwk. destruct (inv_cut D H done c v Hi Hwk) as [(d' & Hd' & Hle)|(s & Hs & Hle)]; [by simplify_eq|].
  eapply cle_trans; [by eapply iv_settled|done].
Qed.

(** At the end everything reachable is settled. *)
Lemma inv_end D done v : inv closed D [] done → (∀ d, D !! v = Some d → v ∈ done) ∧ ∀ c, walk c v → within D v c.
Proof using Hw.
  intros Hi. split.
  - intros d Hd. destruct (decide (v ∈ done)) as [|Hv]; [done|]. by apply (iv_pending _ _ _ _ Hi v d Hd) in Hv as ?%not_elem_of_nil.
  - intros c Hwk. destruct (inv_cut _ _ _ _ _ Hi Hwk) as [|(s & Hs%not_elem_of_nil & _)]; done.
Qed.

(** ** Popping *)

Lemma pop_inv D H done : inv closed D H done → H ≠ [] → ∃ s H', pop H = Ok (s, H') ∧ isHeap H' ∧ H ≡ₚ s :: H' ∧ (∀ x, x ∈ H → cle (scost s) (scost x)) ∧ within D (snode s) (scost s).
Proof.
  intros Hi Hne. destruct (pop_ok H (iv_heap _ _ _ _ Hi) Hne) as (s & H' & E & Hh & Hp & Hmin). exists s, H'. do 3 (split; [done|]).
  split; [intros x Hx; by apply stateLe_cost, Hmin|]. apply (iv_entry _ _ _ _ Hi). rewrite Hp. by left.
Qed.

(** A stale entry is dropped. *)
Lemma inv_stale D H done s H' d : inv closed D H done → isHeap H' → H ≡ₚ s :: H' → D !! snode s = Some d → clt d (scost s) → inv closed D H' done.
Proof.
  intros [I1 I2 I3 I4 I5 I6 I7 I8 I9] Hh Hp Hd Hlt. assert (∀ x, x ∈ H' → x ∈ H) as Hsub by (intros x Hx; rewrite Hp; by right).
  rewrite Hp in I2. apply NoDup_cons in I2 as [_ I2]. split; try done; auto.
  - intros v d' Hd' Hv. specialize (I6 v d' Hd' Hv). rewrite Hp in I6. apply elem_of_cons in I6 as [<-|]; [|done]. cbn in *. simplify_eq. by apply clt_irrefl in Hlt.
Qed.

(** The relationships of [u] still to relax. *)
Definition still (u : Z) (rs : list RelRef) : Z → RelRef → Prop := λ v r, v = u ∧ r ∈ rs.

(** Settling a node that is not stale. *)
Lemma inv_settle D H done s H' d : inv closed D H done → isHeap H' → H ≡ₚ s :: H' → (∀ x, x ∈ H → cle (scost s) (scost x)) → D !! snode s = Some d → ¬ clt d (scost s) →
  d = scost s ∧ snode s ∉ done ∧ inv (still (snode s) (rels (snode s))) D H' (snode s :: done) ∧ ∀ u du, u ∈ (snode s :: done) → D !! u = Some du → cle du d.
Proof.
  intros [I1 I2 I3 I4 I5 I6 I7 I8 I9] Hh Hp Hmin Hd Hlt. assert (∀ x, x ∈ H' → x ∈ H) as Hsub by (intros x Hx; rewrite Hp; by right).
  assert (s ∈ H) as Hs by (rewrite Hp; by left). destruct (I5 s Hs) as (d1 & Hd1 & Hle). assert (d1 = d) as -> by congruence. clear Hd1.
  assert (d = scost s) as Ed by (apply cle_antisym; [done|by apply not_clt]).
  assert (snode s ∉ done) as Hnd by (intros Hin; destruct (I8 _ _ s Hin Hd Hs) as [_ Hc]; by apply Hlt, Hc).
  rewrite Hp in I2. apply NoDup_cons in I2 as [Hns I2]. split; [done|]. split; [done|]. split.
  - split; try done; auto.
    + intros v d' Hd' Hv. rewrite not_elem_of_cons in Hv. destruct Hv as [Hne Hv]. specialize (I6 v d' Hd' Hv). rewrite Hp in I6. apply elem_of_cons in I6 as [<-|]; done.
    + split; [constructor; [done|apply I7]|]. intros v [->|Hv]%elem_of_cons; [by exists d|by apply I7].
    + intros v d' x [->|Hv]%elem_of_cons Hd' Hx; [|by apply I8; auto]. assert (d' = d) as -> by congruence. rewrite Ed. split; [by apply Hmin, Hsub|]. intros Ex.
      apply clt_ne; [by apply Hmin, Hsub|]. intros Ec. apply Hns. destruct x, s; cbn in *. by subst.
    + intros v d' r [->|Hv]%elem_of_cons Hd' Hr Hinf; [left; by split|]. right. by destruct (I9 v d' r Hv Hd' Hr Hinf) as [[]|].
  - intros u du [->|Hu]%elem_of_cons Hdu; [simplify_eq; apply cle_refl|]. rewrite Ed. by eapply I8.
Qed.

(** ** Relaxing *)

(** Whether a relationship of [u], at distance [d], improves its end. *)
Definition improves D (u : Z) (d : cost) (r : RelRef) : Prop :=
  isInf (after d u r) = false ∧ match D !! Neighbor r with None => True | Some cur => clt (after d u r) cur end.
#[export] Instance improves_dec D u d r : Decision (improves D u d r).
Proof. unfold improves. destruct (D !! Neighbor r); apply _. Defined.

Lemma inv_keep D H done u d r rs : inv (still u (r :: rs)) D H done → D !! u = Some d → ¬ improves D u d r → inv (still u rs) D H done.
Proof.
  intros [I1 I2 I3 I4 I5 I6 I7 I8 I9] Hd Hni. split; try done. intros v d' x Hv Hd' Hx Hinf.
  destruct (I9 v d' x Hv Hd' Hx Hinf) as [[-> [->|Hin]%elem_of_cons]|]; [|left; by split|by right]. right. simplify_eq. unfold improves in Hni.
  destruct (D !! Neighbor r) as [cur|] eqn:E; [|by destruct Hni]. exists cur. split; [done|]. apply not_clt. tauto.
Qed.

(** The new distance of [r]'s end, pushed. *)
Lemma inv_improve D H done u d r rs H' : inv (still u (r :: rs)) D H done → u ∈ done → D !! u = Some d → r ∈ rels u → improves D u d r →
  (∀ v dv, v ∈ done → D !! v = Some dv → cle dv d) → isHeap H' → H' ≡ₚ mkState (after d u r) (Neighbor r) :: H →
  Neighbor r ∉ done ∧ inv (still u rs) (<[Neighbor r := after d u r]> D) H' done.
Proof using Hw.
  intros [I1 I2 I3 I4 I5 I6 I7 I8 I9] Hu Hd Hr [Hinf Himp] Hmax Hh Hp. set (x := Neighbor r) in *. set (next := after d u r) in *.
  pose proof (I4 u d Hd) as Hwd. destruct (walk_wf _ _ Hwd) as [Hdw _]. assert (cle d next) as Hdn by (by apply cadd_le).
  assert (wf_cost next) as Hnw by (by apply cadd_wf).
  assert (x ∉ done) as Hx.
  { intros Hin. destruct I7 as [_ I7]. destruct (I7 x Hin) as [dx Hdx]. rewrite Hdx in Himp. pose proof (Hmax x dx Hin Hdx) as Hle.
    apply (clt_irrefl next). eapply clt_cle_trans; [exact Himp|]. by eapply cle_trans. }
  assert (x ≠ source) as Hxs.
  { intros E. rewrite E, I3 in Himp. destruct next as [a|]; cbn in *; lia. }
  split; [done|]. assert (∀ v c, within D v c → within (<[x := next]> D) v c) as Hkeep.
  { intros v c (dv & Hdv & Hle). destruct (decide (v = x)) as [->|Hne]; [|exists dv; by rewrite lookup_insert_ne].
    exists next. rewrite lookup_insert_eq. split; [done|]. rewrite Hdv in Himp. eapply cle_trans; [by apply clt_cle|done]. }
  split.
  - done.
  - rewrite Hp. constructor; [|done]. intros Hin. destruct (I5 _ Hin) as (dx & Hdx & Hle). cbn in *. rewrite Hdx in Himp. apply (clt_irrefl next). by eapply clt_cle_trans.
  - by rewrite lookup_insert_ne.
  - intros v dv. destruct (decide (v = x)) as [->|Hne]; [rewrite lookup_insert_eq; intros [= <-]; by constructor|]. rewrite lookup_insert_ne by done. apply I4.
  - intros s Hs. rewrite Hp in Hs. apply elem_of_cons in Hs as [->|Hs]; [|by apply Hkeep, I5]. exists next. cbn. rewrite lookup_insert_eq. split; [done|apply cle_refl].
  - intros v dv. rewrite Hp. destruct (decide (v = x)) as [->|Hne]; [rewrite lookup_insert_eq; intros [= <-] _; by left|].
    rewrite lookup_insert_ne by done. intros Hdv Hv. right. by apply I6.
  - destruct I7 as [I7 I7']. split; [done|]. intros v Hv. rewrite lookup_insert_ne by (intros ->; done). by apply I7'.
  - intros v dv s Hv Hdv Hs. rewrite lookup_insert_ne in Hdv by (intros ->; done). rewrite Hp in Hs. apply elem_of_cons in Hs as [->|Hs]; [|by apply I8].
    cbn. split; [eapply cle_trans; [by eapply Hmax|done]|]. intros ->. done.
  - intros v dv y Hv Hdv Hy Hyi. rewrite lookup_insert_ne in Hdv by (intros ->; done). destruct (I9 v dv y Hv Hdv Hy Hyi) as [[-> [->|Hin]%elem_of_cons]|Hin].
    + right. simplify_eq. exists next. rewrite lookup_insert_eq. split; [done|apply cle_refl].
    + left. by split.
    + right. by apply Hkeep.
Qed.

Lemma inv_close D H done u : inv (still u []) D H done → inv closed D H done.
Proof.
  intros [I1 I2 I3 I4 I5 I6 I7 I8 I9]. split; try done. intros v d r Hv Hd Hr Hi. destruct (I9 v d r Hv Hd Hr Hi) as [[_ []%not_elem_of_nil]|]; by right.
Qed.

(** Distances belong to nodes of the id space. *)
Lemma inv_space open D H done v d : inv open D H done → 0 ≤ source < n → D !! v = Some d → 0 ≤ v < n.
Proof using Hn. intros Hi Hs Hd. destruct (iv_walk _ _ _ _ Hi v d Hd) as [|c u r _ Hr _]; [done|by eapply Hn]. Qed.

(** ** What is left to do *)

Definition leftover (done : list Z) : nat := sum_list_with (λ v, length (rels v)) (filter (λ v, v ∉ done) (zseq n)).

Lemma leftover_settle done v : 0 ≤ v < n → v ∉ done → leftover done = (length (rels v) + leftover (v :: done))%nat.
Proof.
  intros Hv Hd. unfold leftover. assert (filter (λ x, x ∉ done) (zseq n) ≡ₚ v :: filter (λ x, x ∉ (v :: done)) (zseq n)) as ->; [|done].
  assert (NoDup (zseq n)) as Hnd by (rewrite zseq_seqZ; apply NoDup_seqZ). apply NoDup_Permutation.
  - by apply NoDup_filter.
  - constructor; [|by apply NoDup_filter]. rewrite list_elem_of_filter, not_elem_of_cons. tauto.
  - intros x. rewrite elem_of_cons, !list_elem_of_filter, not_elem_of_cons, elem_of_zseq. destruct (decide (x = v)) as [->|]; tauto.
Qed.

Lemma leftover_bound done k : (∀ v, length (rels v) ≤ k)%nat → 0 ≤ n → (leftover done ≤ Z.to_nat n * k)%nat.
Proof.
  intros Hk Hn0. unfold leftover. transitivity (length (filter (λ v, v ∉ done) (zseq n)) * k)%nat.
  - induction (filter (λ v, v ∉ done) (zseq n)) as [|v l IH]; cbn; [lia|]. specialize (Hk v). lia.
  - apply Nat.mul_le_mono_r. etransitivity; [apply length_filter|]. unfold zseq. by rewrite length_fmap, length_seq.
Qed.
End invariant.
