(* ===== verification/DijkstraSpec.v ===== *)
(** Dijkstra's search is exact: [Dijkstra], [DijkstraTo] and [PathTo] of
    [src/search_dijkstra.go].

    The map and the dense-array state hold the same abstract distances and
    predecessors; the search terminates within its fuel, its distances are the
    least float64 costs over all walks, and the predecessor chains spell out
    walks of exactly those costs. *)

From S2P Require Import Prelude Value AtomTable NodeSet RelTypes InToOut Snapshot TypedAdj Traverse SearchBfs SearchBfsSpec Cost SearchDijkstra DijkstraInv.

(** ** Predecessors *)

Section prevs.
Context (rels : Z → list RelRef) (weight : Z → RelRef → cost) (source : Z).
Implicit Types (D : gmap Z cost) (P : gmap Z Z) (done : list Z).

(** [u] is the node before [v], at distance [d]. *)
Definition before D (u v : Z) (d : cost) : Prop :=
  ∃ du r, D !! u = Some du ∧ r ∈ rels u ∧ Neighbor r = v ∧ d = cadd du (weight u r) ∧ isInf d = false.

(** Predecessors are settled, and settled before their successors. *)
Record prevs D P done : Prop := {
  pv_ok : ∀ v d, D !! v = Some d → v ≠ source → ∃ u, P !! v = Some u ∧ u ∈ done ∧ before D u v d;
  pv_order : ∀ l1 v l2 u, done = l1 ++ v :: l2 → P !! v = Some u → u ∈ l2;
  pv_done : ∀ v u, P !! v = Some u → u ∈ done ∧ is_Some (D !! v);
}.

Lemma prevs_settle D P done v : prevs D P done → v ∉ done → prevs D P (v :: done).
Proof.
  intros [P1 P2 P3] Hv. split.
  - intros x d Hd Hx. destruct (P1 x d Hd Hx) as (u & Hu & Hin & Hb). exists u. split; [done|]. split; [by right|done].
  - intros [|y l1] x l2 u E Hu; injection E as -> ->; [by eapply P3|]. by eapply P2.
  - intros x u Hu. destruct (P3 x u Hu). split; [by right|done].
Qed.

Lemma prevs_improve D P done u d r : prevs D P done → u ∈ done → D !! u = Some d → r ∈ rels u → Neighbor r ∉ done →
  isInf (cadd d (weight u r)) = false → prevs (<[Neighbor r := cadd d (weight u r)]> D) (<[Neighbor r := u]> P) done.
Proof.
  intros [P1 P2 P3] Hu Hd Hr Hx Hi. assert (∀ y, y ∈ done → <[Neighbor r := cadd d (weight u r)]> D !! y = D !! y) as Hk.
  { intros y Hy. apply lookup_insert_ne. by intros <-. }
  split.
  - intros x dx. destruct (decide (x = Neighbor r)) as [->|Hne].
    + rewrite !lookup_insert_eq. intros [= <-] _. exists u. split; [done|]. split; [done|]. exists d, r. rewrite Hk by done. done.
    + rewrite !(lookup_insert_ne _ (Neighbor r) x) by done. intros Hdx Hxs. destruct (P1 x dx Hdx Hxs) as (y & Hy & Hin & dy & r' & Hdy & Hb).
      exists y. split; [done|]. split; [done|]. exists dy, r'. by rewrite Hk.
  - intros l1 x l2 y E. destruct (decide (x = Neighbor r)) as [->|Hne].
    + exfalso. apply Hx. rewrite E, elem_of_app. right. by left.
    + rewrite lookup_insert_ne by done. by eapply P2.
  - intros x y. destruct (decide (x = Neighbor r)) as [->|Hne]; [rewrite !lookup_insert_eq; intros [= <-]; by eauto|]. rewrite !lookup_insert_ne by done. apply P3.
Qed.
End prevs.

(** ** The two states *)

(** [p] stores the distances [D] and predecessors [P] of a graph of [n] ids. *)
Definition holds (n source : Z) (p : ShortestPaths) (D : gmap Z cost) (P : gmap Z Z) : Prop :=
  psource p = source ∧
  if pdense p then
    len (distA p) = n ∧ len (prevA p) = n ∧
    (∀ v, 0 ≤ v < n → distA p !! Z.to_nat v = Some (default Inf (D !! v)) ∧ prevA p !! Z.to_nat v = Some (default prevNone (P !! v))) ∧
    (∀ v, v ∈ reached p ↔ is_Some (D !! v)) ∧ pdist p = ∅
  else pdist p = D ∧ pprev p = P.

(** Distances are finite and belong to the id space, predecessors are ids. *)
Record inIds (n : Z) (D : gmap Z cost) (P : gmap Z Z) : Prop := {
  ii_dist : ∀ v d, D !! v = Some d → 0 ≤ v < n ∧ isInf d = false;
  ii_prev : ∀ v u, P !! v = Some u → 0 ≤ v < n ∧ 0 ≤ u < n;
}.

Section states.
Context (n source : Z) (Hn32 : 0 ≤ n < 4294967296).
Implicit Types (p : ShortestPaths) (D : gmap Z cost) (P : gmap Z Z).

Lemma lookup_ok p D P v : holds n source p D P → inIds n D P → 0 ≤ v < n → lookup_ p v = Ok (D !! v).
Proof.
  intros [_ Hh] Hi Hv. unfold lookup_. destruct (pdense p); [|by destruct Hh as [-> _]]. destruct Hh as (Hl & _ & Ha & _ & _).
  destruct (Ha v Hv) as [Hd _]. rewrite (idx_lookup _ _ _ (proj1 Hv) Hd). cbn [mbind res_bind]. destruct (D !! v) as [d|] eqn:E; cbn; [|done].
  by destruct (ii_dist _ _ _ Hi v d E) as [_ ->].
Qed.

Lemma Distance_ok p D P v : holds n source p D P → inIds n D P → 0 ≤ v → Distance p v = Ok (D !! v).
Proof.
  intros Hh Hi Hv. pose proof Hh as [_ Hc]. unfold Distance. destruct (pdense p) eqn:Ed; [|by destruct Hc as [-> _]]. destruct Hc as (Hl & _).
  destruct (decide (v < n)) as [Hlt|Hge].
  - rewrite decide_False by lia. pose proof (lookup_ok p D P v Hh Hi ltac:(lia)) as E. unfold lookup_ in E. by rewrite Ed in E.
  - rewrite decide_True by lia. destruct (D !! v) as [d|] eqn:E; [|done]. apply (ii_dist _ _ _ Hi) in E. lia.
Qed.

Lemma prevOf_ok p D P v : holds n source p D P → inIds n D P → 0 ≤ v < n → prevOf p v = Ok (P !! v).
Proof.
  intros [_ Hh] Hi Hv. unfold prevOf. destruct (pdense p); [|by destruct Hh as [_ ->]]. destruct Hh as (_ & Hl & Ha & _ & _).
  destruct (Ha v Hv) as [_ Hd]. rewrite (idx_lookup _ _ _ (proj1 Hv) Hd). cbn [mbind res_bind]. destruct (P !! v) as [u|] eqn:E; cbn; [|done].
  destruct (ii_prev _ _ _ Hi v u E) as [_ Hu]. rewrite decide_False; [done|]. unfold prevNone. lia.
Qed.

Lemma Distances_ok p D P : holds n source p D P → inIds n D P → Distances p = Ok D.
Proof.
  intros [_ Hh] Hi. unfold Distances. destruct (pdense p); cbn [negb]; [|by destruct Hh as [-> _]]. destruct Hh as (Hl & _ & Ha & Hr & _).
  assert (∀ l (m : gmap Z cost), (∀ v, v ∈ l → is_Some (D !! v)) → ∃ m', foldM (λ m v, d ← idx (distA p) v; Ok (<[v := d]> m)) l m = Ok m' ∧
    ∀ v, m' !! v = if decide (v ∈ l) then D !! v else m !! v) as Hf.
  { induction l as [|x l IH]; intros m Hin; [by exists m|]. cbn [foldM]. destruct (Hin x ltac:(by left)) as [d Hd]. destruct (ii_dist _ _ _ Hi x d Hd) as [Hx _].
    destruct (Ha x Hx) as [Hdx _]. rewrite Hd in Hdx. rewrite (idx_lookup _ _ _ (proj1 Hx) Hdx). cbn [mbind res_bind default].
    destruct (IH (<[x := d]> m)) as (m' & E & Hm'); [intros; apply Hin; by right|]. exists m'. split; [done|]. intros v. rewrite Hm'.
    destruct (decide (v ∈ l)); [by rewrite decide_True by (by right)|]. destruct (decide (v = x)) as [->|Hne]; [by rewrite lookup_insert_eq, decide_True by (by left)|].
    rewrite lookup_insert_ne by done. rewrite decide_False; [done|]. rewrite elem_of_cons. tauto. }
  destruct (Hf (reached p) ∅) as (m' & -> & Hm'); [intros v; apply Hr|]. f_equal. apply map_eq. intros v. rewrite Hm'. case_decide as Hv; [done|].
  rewrite lookup_empty. rewrite Hr in Hv. symmetry. by apply eq_None_not_Some.
Qed.

Lemma set_ok p D P v d u : holds n source p D P → inIds n D P → 0 ≤ v < n →
  ∃ p', set p v d u = Ok p' ∧ pdense p' = pdense p ∧ holds n source p' (<[v := d]> D) (<[v := u]> P).
Proof.
  intros [Hs Hh] Hi Hv. unfold set. destruct (pdense p) eqn:Ed; [|eexists; split; [done|]; split; [done|]; split; [done|]; cbn; by destruct Hh as [-> ->]].
  destruct Hh as (Hl & Hl' & Ha & Hr & He). destruct (Ha v Hv) as [Hdv _]. rewrite (idx_lookup _ _ _ (proj1 Hv) Hdv). cbn [mbind res_bind].
  unfold upd. rewrite !decide_True by lia. cbn [mbind res_bind]. eexists. split; [done|]. split; [done|]. split; [done|]. cbn.
  rewrite !len_insert. split; [done|]. split; [done|]. split; [|split; [|done]].
  - intros x Hx. destruct (decide (x = v)) as [->|Hne].
    + rewrite !lookup_insert_eq, !list_lookup_insert_eq by (unfold len in *; lia). done.
    + rewrite !lookup_insert_ne, !list_lookup_insert_ne by (done || lia). by apply Ha.
  - intros x. assert (x ∈ (if isInf (default Inf (D !! v)) then reached p ++ [v] else reached p) ↔ x = v ∨ x ∈ reached p) as ->.
    { destruct (D !! v) as [dv|] eqn:E; cbn; [destruct (ii_dist _ _ _ Hi v dv E) as [_ ->]|rewrite elem_of_app, list_elem_of_singleton; tauto].
      split; [by right|]. intros [->|]; [|done]. apply Hr. by exists dv. }
    rewrite Hr. destruct (decide (x = v)) as [->|Hne]; [rewrite lookup_insert_eq; naive_solver|]. rewrite lookup_insert_ne by done. tauto.
Qed.

(** Writing the entries of a map into an array. *)
Lemma denseFill_ok {A} (m : gmap Z A) (a : list A) : (∀ v x, m !! v = Some x → 0 ≤ v < len a) →
  ∃ a', foldM (λ ps e, upd ps e.1 e.2) (map_to_list m) a = Ok a' ∧ len a' = len a ∧
    ∀ v, 0 ≤ v → a' !! Z.to_nat v = if m !! v is Some x then Some x else a !! Z.to_nat v.
Proof.
  intros Hm. assert (∀ l (b : list A), NoDup l.*1 → (∀ e, e ∈ l → 0 ≤ e.1 < len b) → ∃ b', foldM (λ ps e, upd ps e.1 e.2) l b = Ok b' ∧ len b' = len b ∧
    ∀ v, 0 ≤ v → b' !! Z.to_nat v = if (list_to_map l : gmap Z A) !! v is Some x then Some x else b !! Z.to_nat v) as Hf.
  { induction l as [|[k x] l IH]; intros b Hnd Hin; [by exists b|]. cbn [foldM]. pose proof (Hin (k, x) ltac:(by left)) as Hk. cbn in Hk, Hnd. apply NoDup_cons in Hnd as [Hkl Hnd].
    assert (upd b k x = Ok (<[Z.to_nat k := x]> b)) as Eu by (unfold upd; by rewrite decide_True). cbn [fst snd]. rewrite Eu. cbn [mbind res_bind].
    destruct (IH (<[Z.to_nat k := x]> b) Hnd) as (b' & E & Hl & Hb'); [intros e He; rewrite len_insert; apply Hin; by right|].
    exists b'. split; [done|]. split; [by rewrite Hl, len_insert|]. intros v Hv. rewrite Hb' by done. rewrite list_to_map_cons.
    destruct (decide (v = k)) as [->|Hne].
    - rewrite lookup_insert_eq. rewrite (not_elem_of_list_to_map_1 l k) by done. apply list_lookup_insert_eq. unfold len in *. lia.
    - rewrite lookup_insert_ne by done. by rewrite list_lookup_insert_ne by lia. }
  destruct (Hf (map_to_list m) a) as (a' & E & Hl & Ha); [apply NoDup_fst_map_to_list|intros [k x] Hin%elem_of_map_to_list; by eapply Hm|].
  exists a'. split; [done|]. split; [done|]. intros v Hv. by rewrite Ha, list_to_map_to_list.
Qed.

Lemma fill_reached (l : list (Z * cost)) : ∀ (a a' : list cost) rs, foldM (λ ps e, upd ps e.1 e.2) l a = Ok a' →
  foldM (λ st e, let '(ds, rs) := st in ds ← upd ds e.1 e.2; Ok (ds, rs ++ [e.1])) l (a, rs) = Ok (a', rs ++ l.*1).
Proof.
  induction l as [|e l IH]; intros a a' rs E; cbn [foldM] in *; [injection E as ->; cbn; by rewrite app_nil_r|].
  apply res_bind_Ok in E as (b & Eb & E). rewrite Eb. cbn [mbind res_bind]. rewrite (IH b a' _ E). by rewrite <- app_assoc.
Qed.

Lemma densify_ok p D P : holds n source p D P → inIds n D P → pdense p = false → ∃ p', densify p n = Ok p' ∧ holds n source p' D P.
Proof.
  intros [Hs Hh] Hi Ed. rewrite Ed in Hh. destruct Hh as [E1 E2]. unfold densify. rewrite E1, E2.
  set (b1 := replicate (Z.to_nat n) Inf). set (b2 := replicate (Z.to_nat n) prevNone).
  assert (len b1 = n ∧ len b2 = n) as [Lb1 Lb2] by (unfold b1, b2; rewrite !len_replicate; lia).
  destruct (denseFill_ok D b1) as (ds & Eds & Hl1 & Hd); [intros v d Hv; apply (ii_dist _ _ _ Hi) in Hv; lia|].
  destruct (denseFill_ok P b2) as (ps & Eps & Hl2 & Hp); [intros v d Hv; apply (ii_prev _ _ _ Hi) in Hv; lia|].
  cbn [fst snd]. rewrite (fill_reached _ _ _ _ Eds). cbn [mbind res_bind]. rewrite Eps. cbn [mbind res_bind]. eexists. split; [done|]. split; [done|]. cbn.
  split; [lia|]. split; [lia|]. split; [|split; [|done]].
  - intros v Hv. unfold b1, b2 in *. rewrite Hd, Hp, !lookup_replicate_2 by lia. by destruct (D !! v), (P !! v).
  - intros v. rewrite list_elem_of_fmap. split.
    + intros ([k x] & -> & Hk%elem_of_map_to_list). by exists x.
    + intros [x Hx]. exists (v, x). split; [done|]. by apply elem_of_map_to_list.
Qed.
End states.

(** ** The search *)

Section search.
Context {bm : Type} `{RoaringSet bm} (g : Snapshot bm) (ito : list Z) (m : RelMatch (Snapshot bm)) (dir : Direction) (weight : Z → RelRef → cost) (source : Z).
Hypothesis Hwf : wfSearch g ito.
Hypothesis Hm : matchOK g m.
Hypothesis Hw : ∀ u r, wf_cost (weight u r).
Hypothesis Hsrc : 0 ≤ source < CSRIDSpace g.

Abbreviation rels := (λ v, relsOf g m ito v dir).
Abbreviation n := (CSRIDSpace g).
Abbreviation dinv := (inv rels weight source).
Abbreviation walks := (walk rels weight source).

Lemma rels_n u r : r ∈ rels u → 0 ≤ Neighbor r < n.
Proof using Hwf. by eapply rels_space. Qed.

Record good (open : Z → RelRef → Prop) (p : ShortestPaths) (h : list dijkstraState) (done : list Z) (D : gmap Z cost) (P : gmap Z Z) : Prop := {
  gd_holds : holds n source p D P;
  gd_inv : dinv open D h done;
  gd_prevs : prevs rels weight source D P done;
}.

Lemma good_ids open p h done D P : good open p h done D P → inIds n D P.
Proof using Hwf Hw Hsrc.
  intros [_ Hi Hp]. assert (∀ v d, D !! v = Some d → 0 ≤ v < n ∧ isInf d = false) as Hd.
  { intros v d Hd. split; [by eapply (inv_space rels weight source n rels_n)|]. eapply walk_wf; [exact Hw|by eapply iv_walk]. }
  split; [done|]. intros v u Hu. destruct (pv_done _ _ _ _ _ _ Hp v u Hu) as [Hin [d Hv]]. destruct (iv_done _ _ _ _ _ _ _ Hi) as [_ Hs].
  destruct (Hs u Hin) as [du Hdu]. split; [by eapply Hd|by eapply Hd].
Qed.

Lemma relaxBody_one p h D P u d r : holds n source p D P → inIds n D P → r ∈ rels u →
  relaxBody weight (mkState d u) r (p, h) =
    if decide (improves weight D u d r) then p ← set p (Neighbor r) (cadd d (weight u r)) u; h ← push h (mkState (cadd d (weight u r)) (Neighbor r)); Ok (p, h) else Ok (p, h).
Proof using Hwf Hsrc.
  intros Hh Hii Hr. unfold relaxBody. cbn [scost snode]. rewrite (lookup_ok n source p D P _ Hh Hii (rels_n u r Hr)). cbn [mbind res_bind].
  destruct (decide (improves weight D u d r)) as [Himp|Hni]; [pose proof Himp as [Hinf Hlt]|unfold improves in Hni]; destruct (isInf (cadd d (weight u r))); try done;
    destruct (D !! Neighbor r) as [cur|]; try done; [by rewrite bool_decide_true|rewrite bool_decide_false by tauto; done|by exfalso; apply Hni].
Qed.

Lemma relaxBody_ok u d rs : ∀ p h done D P, good (still u rs) p h done D P → u ∈ done → D !! u = Some d → (∀ r, r ∈ rs → r ∈ rels u) →
  (∀ v dv, v ∈ done → D !! v = Some dv → cle dv d) →
  ∃ p' h' D' P', yieldAll (tryYield (relaxBody weight (mkState d u))) rs (Ok (p, h)) = (true, Ok (p', h')) ∧ good (still u []) p' h' done D' P' ∧
    (length h' ≤ length h + length rs)%nat.
Proof using Hwf Hw Hsrc.
  induction rs as [|r rs IH]; intros p h done D P Hg Hu Hd Hsub Hmax; [exists p, h, D, P; by rewrite Nat.add_0_r|].
  cbn [yieldAll]. unfold tryYield at 1. pose proof (good_ids _ _ _ _ _ _ Hg) as Hii. assert (r ∈ rels u) as Hr by (apply Hsub; by left).
  destruct Hg as [Hh Hi Hp]. rewrite (relaxBody_one p h D P u d r Hh Hii Hr). destruct (decide (improves weight D u d r)) as [Himp|Hni].
  - destruct (set_ok n source (CSRIDSpace_u32 g) p D P (Neighbor r) (cadd d (weight u r)) u Hh Hii (rels_n u r Hr)) as (p1 & -> & _ & Hh1). cbn [mbind res_bind].
    destruct (push_ok h (mkState (cadd d (weight u r)) (Neighbor r)) (iv_heap _ _ _ _ _ _ _ Hi)) as (h1 & -> & Hh' & Hperm). cbn [mbind res_bind].
    destruct (inv_improve rels weight source Hw D h done u d r rs h1 Hi Hu Hd Hr Himp Hmax Hh' Hperm) as [Hx Hi1].
    assert (Neighbor r ≠ u) as Hxu by (intros E; by rewrite E in Hx).
    destruct (IH p1 h1 done (<[Neighbor r := cadd d (weight u r)]> D) (<[Neighbor r := u]> P)) as (p' & h' & D' & P' & E & Hg' & Hl).
    + split; [done|done|]. apply prevs_improve; [done|done|done|done|done|apply Himp].
    + done.
    + by rewrite lookup_insert_ne.
    + intros y Hy. apply Hsub. by right.
    + intros v dv Hv. rewrite lookup_insert_ne by (intros E'; by rewrite E' in Hx). by apply Hmax.
    + exists p', h', D', P'. split; [done|]. split; [done|]. rewrite Hperm in Hl. cbn [length] in *. lia.
  - destruct (IH p h done D P) as (p' & h' & D' & P' & E & Hg' & Hl); [|done|done|intros y Hy; apply Hsub; by right|done|].
    + split; [done|by eapply inv_keep|done].
    + exists p', h', D', P'. split; [done|]. split; [done|]. cbn [length]. lia.
Qed.

(** The state a search stops in: nothing left, or the target on top. *)
Definition stopped (target : option Z) (h : list dijkstraState) (D : gmap Z cost) : Prop :=
  h = [] ∨ ∃ t d, target = Some t ∧ D !! t = Some d ∧ ∀ s, s ∈ h → cle d (scost s).

Lemma dijkstraLoop_ok target : ∀ fuel p h done D P, good closed p h done D P → (length h + leftover rels n done ≤ fuel)%nat →
  ∃ p' h' done' D' P', dijkstraLoop fuel g dir m weight target p h = Ok p' ∧ good closed p' h' done' D' P' ∧ stopped target h' D'.
Proof using Hwf Hm Hw Hsrc.
  induction fuel as [|fuel IH]; intros p h done D P Hg Hf.
  { destruct h as [|x h]; [|cbn in Hf; lia]. exists p, [], done, D, P. split; [done|]. split; [done|by left]. }
  destruct (decide (h = [])) as [->|Hne]; [exists p, [], done, D, P; split; [done|]; split; [done|by left]|].
  assert (dijkstraLoop (S fuel) g dir m weight target p h = '(s, h) ← pop h; o ← lookup_ p (snode s);
    if match o with Some d => bool_decide (clt d (scost s)) | None => false end then dijkstraLoop fuel g dir m weight target p h
    else if decide (target = Some (snode s)) then Ok p
    else r ← RelsMatch g (snode s) dir m (tryYield (relaxBody weight s)) (Ok (p, h)); '(p, h) ← r;
      p ← (if decide (pdense p = false ∧ dijkstraDenseAt ≤ Z.of_nat (size (pdist p))) then densify p n else Ok p);
      dijkstraLoop fuel g dir m weight target p h) as -> by (by destruct h).
  pose proof (good_ids _ _ _ _ _ _ Hg) as Hii. pose proof Hg as [Hh Hi Hp].
  destruct (pop_inv rels weight source D h done Hi Hne) as (s & h' & -> & Hh' & Hperm & Hmin & d & Hd & Hle). cbn [mbind res_bind].
  pose proof (inv_space rels weight source n rels_n _ _ _ _ _ _ Hi Hsrc Hd) as Hsn. rewrite (lookup_ok n source p D P _ Hh Hii Hsn), Hd. cbn [mbind res_bind].
  assert (length h = S (length h')) as Hlen by (by rewrite Hperm). case_bool_decide as Hst.
  { apply (IH p h' done D P); [split; [done|by eapply inv_stale|done]|lia]. }
  case_decide as Ht.
  { exists p, h, done, D, P. split; [done|]. split; [done|]. right. exists (snode s), d. split; [done|]. split; [done|]. intros x Hx. eapply cle_trans; [exact Hle|by apply Hmin]. }
  destruct (inv_settle rels weight source D h done s h' d Hi Hh' Hperm Hmin Hd Hst) as (Ed & Hnd & Hi' & Hmax).
  unfold RelsMatch. rewrite (relsYield_ok g ito m (wse_graph _ _ Hwf) Hm) by lia. cbn [mbind res_bind].
  destruct (relaxBody_ok (snode s) d (rels (snode s)) p h' (snode s :: done) D P) as (p1 & h1 & D1 & P1 & E & Hg1 & Hl1); [split; [done|done|by apply prevs_settle]|by left|done|done|done|].
  assert (mkState d (snode s) = s) as Es by (destruct s; cbn in *; by subst). rewrite Es in E. rewrite E. cbn [snd mbind res_bind].
  destruct Hg1 as [Hh1 Hi1 Hp1]. apply inv_close in Hi1. pose proof (leftover_settle rels n done (snode s) Hsn Hnd) as Hlo.
  assert (∃ p2, (if decide (pdense p1 = false ∧ dijkstraDenseAt ≤ Z.of_nat (size (pdist p1))) then densify p1 n else Ok p1) = Ok p2 ∧ holds n source p2 D1 P1) as (p2 & -> & Hh2).
  { case_decide as Dd; [|by exists p1]. apply densify_ok; [apply (CSRIDSpace_u32 g)|done|by eapply good_ids|apply Dd]. }
  cbn [mbind res_bind]. apply (IH p2 h1 (snode s :: done) D1 P1); [done|lia].
Qed.

Lemma relsOf_length v : (length (rels v) ≤ Z.to_nat (len (outNbrs g) + len (inNbrs g)))%nat.
Proof using Hwf.
  assert (∀ out, (length (relRefs g m ito v out) ≤ Z.to_nat (len (dirNbrs g out)))%nat) as Hd.
  { intros out. unfold relRefs. rewrite length_fmap. transitivity (length (zseq (len (dirNbrs g out)))); [|unfold zseq; by rewrite length_fmap, length_seq].
    apply submseteq_length, NoDup_submseteq.
    - unfold nodeMatches. case_decide; [constructor|]. apply NoDup_filter, NoDup_seqZ.
    - intros k Hk. apply elem_of_zseq. by eapply nodeMatches_bounds. }
  unfold relsOf. rewrite length_app. pose proof (Hd true) as H1. pose proof (Hd false) as H2. cbn [dirNbrs] in *. pose proof (len_nonneg (outNbrs g)). pose proof (len_nonneg (inNbrs g)).
  destruct dir; cbn [goesOut goesIn length]; lia.
Qed.

Lemma dijkstra_ok target : ∃ p h done D P, dijkstra g source dir m weight target = Ok p ∧ good closed p h done D P ∧ stopped target h D.
Proof using Hwf Hm Hw Hsrc.
  apply (dijkstraLoop_ok target _ _ _ [] {[source := Fin 0]} ∅).
  - split; [by split|apply inv_start|]. split.
    + intros v d [<- <-]%lookup_singleton_Some Hne. done.
    + intros l1 v l2 u E. by destruct l1.
    + intros v u. by rewrite lookup_empty.
  - pose proof (leftover_bound rels n [] _ relsOf_length ltac:(lia)) as Hb. cbn [length]. unfold dijkstraFuel. pose proof (len_nonneg (outNbrs g)). pose proof (len_nonneg (inNbrs g)).
    rewrite Z2Nat.inj_mul by lia. lia.
Qed.

(** ** Paths *)

Section paths.
Context (p : ShortestPaths) (h : list dijkstraState) (done : list Z) (D : gmap Z cost) (P : gmap Z Z).
Hypothesis Hg : good closed p h done D P.

Lemma pathLoop_prev fuel path v u : v ≠ source → P !! v = Some u → 0 ≤ v < n → pathLoop (S fuel) p path v = pathLoop fuel p (path ++ [u]) u.
Proof using Hwf Hw Hsrc Hg.
  intros Hv Hu Hn. cbn [pathLoop]. destruct (gd_holds _ _ _ _ _ _ Hg) as [E _]. rewrite decide_False by congruence.
  rewrite (prevOf_ok n source (CSRIDSpace_u32 g) p D P v (gd_holds _ _ _ _ _ _ Hg) (good_ids _ _ _ _ _ _ Hg) Hn). cbn [mbind res_bind]. by rewrite Hu.
Qed.

Lemma pathLoop_source fuel path : pathLoop fuel p path source = Ok (Some (rev path)).
Proof using Hg. destruct (gd_holds _ _ _ _ _ _ Hg) as [E _]. destruct fuel; cbn [pathLoop]; by rewrite decide_True. Qed.

(** The loop at [v], with [acc] collected after it. *)
Definition leads (k : nat) (v : Z) (d : cost) : Prop :=
  ∃ path, route rels weight source path d v ∧ ∀ fuel acc, (k ≤ fuel)%nat → pathLoop fuel p (acc ++ [v]) v = Ok (Some (path ++ rev acc)).

Lemma leads_source k : leads k source (Fin 0).
Proof using Hg. exists [source]. split; [constructor|]. intros fuel acc _. rewrite pathLoop_source, rev_app_distr. done. Qed.

Lemma leads_before k u v d : P !! v = Some u → v ≠ source → 0 ≤ v < n → before rels weight D u v d → (∀ du, D !! u = Some du → leads k u du) → leads (S k) v d.
Proof using Hwf Hw Hsrc Hg.
  intros Hu Hv Hn (du & r & Hdu & Hr & <- & -> & Hi) Hk. destruct (Hk du Hdu) as (path & Hrt & Hp). exists (path ++ [Neighbor r]). split; [by constructor|].
  intros [|fuel] acc Hf; [lia|]. rewrite (pathLoop_prev _ _ _ u) by done. rewrite Hp by lia. by rewrite rev_app_distr, <- app_assoc.
Qed.

Lemma done_leads l2 : ∀ l1 v d, done = l1 ++ l2 → v ∈ l2 → D !! v = Some d → leads (length l2) v d.
Proof using Hwf Hw Hsrc Hg.
  pose proof (good_ids _ _ _ _ _ _ Hg) as Hii. induction l2 as [|x l2 IH]; intros l1 v d E Hv Hd; [by apply not_elem_of_nil in Hv|].
  assert (done = (l1 ++ [x]) ++ l2) as E' by (by rewrite <- app_assoc). apply elem_of_cons in Hv as [->|Hv].
  - destruct (decide (x = source)) as [->|Hx]; [rewrite (iv_source _ _ _ _ _ _ _ (gd_inv _ _ _ _ _ _ Hg)) in Hd; injection Hd as <-; apply leads_source|].
    destruct (pv_ok _ _ _ _ _ _ (gd_prevs _ _ _ _ _ _ Hg) x d Hd Hx) as (u & Hu & _ & Hb). pose proof (pv_order _ _ _ _ _ _ (gd_prevs _ _ _ _ _ _ Hg) l1 x l2 u E Hu) as Hin.
    cbn [length]. eapply leads_before; [done|done|by eapply ii_dist|done|]. intros du Hdu. by eapply IH.
  - destruct (IH (l1 ++ [x]) v d E' Hv Hd) as (path & Hr & Hp). exists path. split; [done|]. intros fuel acc Hf. apply Hp. cbn in Hf. lia.
Qed.

Lemma all_leads v d : D !! v = Some d → leads (S (length done)) v d.
Proof using Hwf Hw Hsrc Hg.
  intros Hd. destruct (decide (v = source)) as [->|Hv].
  { rewrite (iv_source _ _ _ _ _ _ _ (gd_inv _ _ _ _ _ _ Hg)) in Hd. injection Hd as <-. apply leads_source. }
  destruct (pv_ok _ _ _ _ _ _ (gd_prevs _ _ _ _ _ _ Hg) v d Hd Hv) as (u & Hu & Hin & Hb).
  eapply leads_before; [done|done|eapply ii_dist; [by eapply good_ids|done]|done|]. intros du Hdu. by apply (done_leads done []).
Qed.

Lemma pathFuel_ok : (S (length done) ≤ pathFuel p)%nat.
Proof using Hg.
  destruct (iv_done _ _ _ _ _ _ _ (gd_inv _ _ _ _ _ _ Hg)) as [Hnd Hin]. assert (length done ≤ size (dom D))%nat as Hl.
  { rewrite <- (size_list_to_set (C := gset Z) done) by done. apply subseteq_size. intros x. rewrite elem_of_list_to_set, elem_of_dom. apply Hin. }
  unfold pathFuel. destruct (gd_holds _ _ _ _ _ _ Hg) as [_ Hh]. destruct (pdense p).
  - destruct Hh as (_ & _ & _ & Hr & _). assert (size (dom D) ≤ length (reached p))%nat; [|lia].
    transitivity (size (list_to_set (reached p) : gset Z)); [apply subseteq_size; intros x; rewrite elem_of_list_to_set, elem_of_dom; apply Hr|].
    clear. induction (reached p) as [|x l IH]; [done|]. cbn [list_to_set length]. rewrite size_union_alt, size_singleton.
    pose proof (subseteq_size (list_to_set l ∖ {[x]} : gset Z) (list_to_set l) ltac:(apply subseteq_difference_l; reflexivity)). lia.
  - destruct Hh as [-> _]. rewrite size_dom in Hl. lia.
Qed.

(** Every reached node has its path, at its distance. *)
Lemma PathTo_ok v : 0 ≤ v → match D !! v with
  | Some d => ∃ path, PathTo p v = Ok (Some path) ∧ route rels weight source path d v
  | None => PathTo p v = Ok None end.
Proof using Hwf Hw Hsrc Hg.
  intros Hv. unfold PathTo, Reached. rewrite (Distance_ok n source p D P v (gd_holds _ _ _ _ _ _ Hg) (good_ids _ _ _ _ _ _ Hg) Hv). cbn [mbind res_bind].
  destruct (D !! v) as [d|] eqn:Hd; cbn [negb]; [|done]. destruct (all_leads v d Hd) as (path & Hr & Hp). exists path. split; [|done].
  pose proof (Hp (pathFuel p) [] pathFuel_ok) as E. cbn [app rev] in E. by rewrite app_nil_r in E.
Qed.
End paths.
End search.

(** ** Properties *)

(** The cost [d] is the least over all walks to [v]. *)
Definition least (rels : Z → list RelRef) (weight : Z → RelRef → cost) (source v : Z) (d : cost) : Prop :=
  walk rels weight source d v ∧ ∀ c, walk rels weight source c v → cle d c.

(** C9: Dijkstra's distances and paths are exact. On a graph whose neighbors lie in
    its id space, from any of its nodes, in any direction, with any type filter of
    the graph and any weights that are non-negative float64 values or +Inf,
    [Dijkstra] ends without panic, whether or not it switches to dense arrays. A
    node's [Distance] is the least cost over all walks, a walk's cost being the
    float64 sum of its weights in order; a node without one has no walk of finite
    cost; [Distances] lists the same answers; and [PathTo] answers the nodes of a
    walk of exactly that cost. *)
Theorem Dijkstra_exact {bm} `{RoaringSet bm} (g : Snapshot bm) ito m dir weight source :
  wfSearch g ito → matchOK g m → (∀ u r, wf_cost (weight u r)) → 0 ≤ source < CSRIDSpace g →
  ∃ p D, Dijkstra g source dir m weight = Ok p ∧ Distances p = Ok D ∧ ∀ v, 0 ≤ v → Distance p v = Ok (D !! v) ∧
    match D !! v with
    | Some d => least (λ v, relsOf g m ito v dir) weight source v d ∧
        ∃ path, PathTo p v = Ok (Some path) ∧ route (λ v, relsOf g m ito v dir) weight source path d v
    | None => (∀ c, ¬ walk (λ v, relsOf g m ito v dir) weight source c v) ∧ PathTo p v = Ok None
    end.
Proof.
  intros Hwf Hm Hw Hsrc. unfold Dijkstra. destruct (dijkstra_ok g ito m dir weight source Hwf Hm Hw Hsrc None) as (p & h & done & D & P & E & Hg & Hst).
  exists p, D. split; [done|]. assert (h = []) as -> by (destruct Hst as [|(t & d & ? & _)]; done). clear Hst. pose proof Hg as [Hh Hi Hp].
  pose proof (good_ids g ito m dir weight source Hwf Hw Hsrc _ _ _ _ _ _ Hg) as Hii. pose proof (CSRIDSpace_u32 g) as Hn.
  split; [by eapply Distances_ok|]. intros v Hv. split; [by eapply Distance_ok|].
  pose proof (PathTo_ok g ito m dir weight source Hwf Hw Hsrc p [] done D P Hg v Hv) as Hpath. destruct (inv_end _ _ _ Hw D done v Hi) as [Hdone Hend].
  destruct (D !! v) as [d|] eqn:Hd.
  - split; [|done]. split; [by eapply iv_walk|]. intros c Hc. eapply inv_exact; [exact Hw|exact Hi|by eapply Hdone|done|done].
  - split; [|done]. intros c (d & Hd' & _)%Hend. congruence.
Qed.

(** 0 -> 1, 0 -> 2, 2 -> 1, the first relationship ten times as long. *)
Definition triSnap : Snapshot (gset Z) :=
  mkSnapshot 3 3 [0; 2; 2; 3] [1; 2; 1] (mkRelTypes None [1] [0; 0; 0]) [0; 0; 2; 3] [0; 2; 0] (mkRelTypes None [1] [0; 0; 0]) None false
    ∅ {[1 := mkSet {[0; 1; 2]}]} None ∅ ∅ 0 None (NewAtoms [[]]).
Definition triWeight (u : Z) (r : RelRef) : cost := if decide (Pos r = 0) then Fin (10 * 2 ^ 1074) else one64.

Lemma triWeight_wf u r : wf_cost (triWeight u r).
Proof.
  unfold triWeight. case_decide; (split; [by vm_compute|]); [exists 10, 1074|exists 1, 1074]; lia.
Qed.

Lemma triSnap_search : wfSearch triSnap [].
Proof.
  assert (∀ os : list Z, os = [0; 2; 2; 3] ∨ os = [0; 0; 2; 3] → ∀ i a b, os !! i = Some a → os !! S i = Some b → a ≤ b) as Hmono.
  { intros os [->| ->] [|[|[|[|i]]]] a b Ha Hb; simplify_eq/=; lia. }
  assert (wf_types (mkRelTypes None [1] [0; 0; 0])) as Hty.
  { split; [by apply (bool_decide_unpack _); vm_compute|]. split; [done|]. repeat constructor; done. }
  split; [split; [split|split|done]|]; try (apply Hmono; by auto); try exact Hty; try done; try (by repeat constructor).
  intros out. apply (bool_decide_unpack _). by destruct out; vm_compute.
Qed.

Lemma Dijkstra_exact_witness : ∃ p D, Dijkstra triSnap 0 Outgoing MatchAll triWeight = Ok p ∧ Distances p = Ok D ∧ D !! 1 = Some (Fin (2 ^ 1075)) ∧
  least (λ v, relsOf triSnap MatchAll [] v Outgoing) triWeight 0 1 (Fin (2 ^ 1075)).
Proof.
  destruct (Dijkstra_exact triSnap [] MatchAll Outgoing triWeight 0 triSnap_search) as (p & D & E & ED & Hv); [done|apply triWeight_wf|done|].
  exists p, D. split; [done|]. split; [done|]. destruct (Hv 1) as [Hd Hl]; [lia|].
  assert ((p ← Dijkstra triSnap 0 Outgoing MatchAll triWeight; Distance p 1) = Ok (Some (Fin (2 ^ 1075)))) as Ec by (by vm_compute).
  rewrite E in Ec. cbn [mbind res_bind] in Ec. rewrite Hd in Ec. injection Ec as Ec. rewrite Ec in Hl. split; [done|apply Hl].
Defined.

(** The single-pair search is exact for its target. Under the same conditions
    [DijkstraTo] ends without panic, answers the target's least cost with a walk of
    that cost, or nothing when there is no walk of finite cost; every other
    distance it answers is the cost of a walk that [PathTo] spells out. *)
Theorem DijkstraTo_exact {bm} `{RoaringSet bm} (g : Snapshot bm) ito m dir weight source target :
  wfSearch g ito → matchOK g m → (∀ u r, wf_cost (weight u r)) → 0 ≤ source < CSRIDSpace g →
  ∃ p (D : gmap Z cost), DijkstraTo g source target dir m weight = Ok p ∧
    (∀ v, 0 ≤ v → Distance p v = Ok (D !! v) ∧ match D !! v with
      | Some d => ∃ path, PathTo p v = Ok (Some path) ∧ route (λ v, relsOf g m ito v dir) weight source path d v
      | None => PathTo p v = Ok None end) ∧
    match D !! target with
    | Some d => least (λ v, relsOf g m ito v dir) weight source target d
    | None => ∀ c, ¬ walk (λ v, relsOf g m ito v dir) weight source c target
    end.
Proof.
  intros Hwf Hm Hw Hsrc. unfold DijkstraTo. destruct (dijkstra_ok g ito m dir weight source Hwf Hm Hw Hsrc (Some target)) as (p & h & done & D & P & E & Hg & Hst).
  exists p, D. split; [done|]. pose proof (good_ids g ito m dir weight source Hwf Hw Hsrc _ _ _ _ _ _ Hg) as Hii. pose proof Hg as [Hh Hi Hp]. split.
  - intros v Hv. split; [by eapply Distance_ok|]. exact (PathTo_ok g ito m dir weight source Hwf Hw Hsrc p h done D P Hg v Hv).
  - destruct Hst as [->|(t & d & [= <-] & Hd & Hmin)].
    + destruct (inv_end _ _ _ Hw D done target Hi) as [Hdone Hend]. destruct (D !! target) as [d|] eqn:Hd.
      * split; [by eapply iv_walk|]. intros c Hc. eapply inv_exact; [exact Hw|exact Hi|by eapply Hdone|done|done].
      * intros c (d & Hd' & _)%Hend. congruence.
    + rewrite Hd. split; [by eapply iv_walk|]. intros c Hc. destruct (inv_cut _ _ _ Hw D h done c target Hi Hc) as [(d' & Hd' & Hle)|(s & Hs & Hle)]; [by simplify_eq|].
      eapply cle_trans; [by apply Hmin|done].
Qed.

Lemma DijkstraTo_exact_witness : ∃ p (D : gmap Z cost), DijkstraTo triSnap 0 2 Outgoing MatchAll triWeight = Ok p ∧ D !! 2 = Some one64 ∧
  least (λ v, relsOf triSnap MatchAll [] v Outgoing) triWeight 0 2 one64.
Proof.
  destruct (DijkstraTo_exact triSnap [] MatchAll Outgoing triWeight 0 2 triSnap_search) as (p & D & E & Hv & Hl); [done|apply triWeight_wf|done|].
  exists p, D. split; [done|]. destruct (Hv 2) as [Hd _]; [lia|].
  assert ((p ← DijkstraTo triSnap 0 2 Outgoing MatchAll triWeight; Distance p 2) = Ok (Some one64)) as Ec by (by vm_compute).
  rewrite E in Ec. cbn [mbind res_bind] in Ec. rewrite Hd in Ec. injection Ec as Ec. rewrite Ec in Hl. by split.
Defined.

(** A single-pair search leaves distances that are not shortest. On the triangle,
    stopping at node 2 leaves node 1 answered as reached at cost 10, though the walk
    over node 2 costs 2. *)
Theorem DijkstraTo_tentative : ∃ p, DijkstraTo triSnap 0 2 Outgoing MatchAll triWeight = Ok p ∧ Reached p 1 = Ok true ∧
  Distance p 1 = Ok (Some (Fin (10 * 2 ^ 1074))) ∧ walk (λ v, relsOf triSnap MatchAll [] v Outgoing) triWeight 0 (Fin (2 ^ 1075)) 1.
Proof.
  destruct (DijkstraTo triSnap 0 2 Outgoing MatchAll triWeight) as [p|e|] eqn:E; [|by vm_compute in E..]. exists p. split; [done|].
  assert ((p ← DijkstraTo triSnap 0 2 Outgoing MatchAll triWeight; Distance p 1) = Ok (Some (Fin (10 * 2 ^ 1074)))) as Ec by (by vm_compute).
  rewrite E in Ec. cbn [mbind res_bind] in Ec. unfold Reached. rewrite Ec. split; [done|]. split; [done|].
  pose (w := walk_step (λ v, relsOf triSnap MatchAll [] v Outgoing) triWeight 0).
  pose proof (w one64 2 (mkRelRef 1 1 Outgoing 2)) as H1. assert (cadd one64 (triWeight 2 (mkRelRef 1 1 Outgoing 2)) = Fin (2 ^ 1075)) as E1 by (by vm_compute). rewrite E1 in H1.
  assert (relsOf triSnap MatchAll [] 2 Outgoing = [mkRelRef 1 1 Outgoing 2]) as R2 by (by vm_compute).
  assert (relsOf triSnap MatchAll [] 0 Outgoing = [mkRelRef 1 1 Outgoing 0; mkRelRef 2 1 Outgoing 1]) as R0 by (by vm_compute).
  apply H1; [|rewrite R2; by left|done].
  pose proof (w (Fin 0) 0 (mkRelRef 2 1 Outgoing 1)) as H2. assert (cadd (Fin 0) (triWeight 0 (mkRelRef 2 1 Outgoing 1)) = one64) as E2 by (by vm_compute). rewrite E2 in H2.
  apply H2; [constructor|rewrite R0; right; by left|done].
Qed.
