(* ===== verification/WspSpec.v ===== *)
(** The bidirectional point-to-point search: [WeightedShortestPath] of
    [src/search_dijkstra.go].

    Two Dijkstra searches run towards each other. The answer is realized by a walk
    of each side, and for every path both sides can follow some cut of the path,
    its front summed forward and its rest summed backward, costs at least as much.
    Floating-point sums depend on where a path is cut; without rounding the cuts
    are all the same sum and the answer is the least cost. *)

From S2P Require Import Prelude Value AtomTable NodeSet RelTypes InToOut Snapshot TypedAdj Traverse SearchBfs SearchBfsSpec Cost SearchDijkstra DijkstraInv DijkstraSpec.

Lemma topOf_le h x : isHeap h → x ∈ h → cle (topOf h) (scost x).
Proof.
  intros Hh (i & Hi)%list_elem_of_lookup. rewrite <- (list_lookup_total_correct _ _ _ Hi). apply lookup_lt_Some in Hi. pose proof (isHeap_root h i Hh Hi) as Hr.
  destruct h as [|y h]; [cbn in Hi; lia|]. by apply stateLe_cost in Hr.
Qed.

(** ** One side *)

Lemma relaxSide_one weight D h u c r : relaxSide weight (mkState c u) r (D, h) =
  if decide (improves weight D u c r) then h ← push h (mkState (cadd c (weight u r)) (Neighbor r)); Ok (<[Neighbor r := cadd c (weight u r)]> D, h) else Ok (D, h).
Proof.
  unfold relaxSide. cbn [scost snode].
  destruct (decide (improves weight D u c r)) as [Himp|Hni]; [pose proof Himp as [Hinf Hlt]|unfold improves in Hni]; destruct (isInf (cadd c (weight u r))); try done;
    destruct (D !! Neighbor r) as [cur|]; try done; [by rewrite bool_decide_true|rewrite bool_decide_false by tauto; done|by exfalso; apply Hni].
Qed.

(** The candidate of settling a node at [c] the other side has at [o]. *)
Definition meet (best c : cost) (o : option cost) : cost :=
  match o with Some otherCost => if decide (clt (cadd c otherCost) best) then cadd c otherCost else best | None => best end.

Lemma meet_le best c o : cle (meet best c o) best.
Proof. unfold meet. destruct o as [b|]; [|apply cle_refl]. case_decide; [by apply clt_cle|apply cle_refl]. Qed.
Lemma meet_candidate best c b : cle (meet best c (Some b)) (cadd c b).
Proof. unfold meet. case_decide as D; [apply cle_refl|by apply not_clt]. Qed.

Section side.
Context {bm : Type} `{RoaringSet bm} (g : Snapshot bm) (ito : list Z) (m : RelMatch (Snapshot bm)) (d : Direction) (weight : Z → RelRef → cost) (origin : Z).
Hypothesis Hwf : wfSearch g ito.
Hypothesis Hm : matchOK g m.
Hypothesis Hw : ∀ u r, wf_cost (weight u r).
Hypothesis Horigin : 0 ≤ origin < CSRIDSpace g.

Abbreviation rels := (λ v, relsOf g m ito v d).
Abbreviation sinv := (inv rels weight origin).
Abbreviation n := (CSRIDSpace g).

Lemma relaxSide_ok u c rs : ∀ D h done, sinv (still u rs) D h done → u ∈ done → D !! u = Some c → (∀ r, r ∈ rs → r ∈ rels u) →
  (∀ v dv, v ∈ done → D !! v = Some dv → cle dv c) →
  ∃ D' h', yieldAll (tryYield (relaxSide weight (mkState c u))) rs (Ok (D, h)) = (true, Ok (D', h')) ∧ sinv (still u []) D' h' done ∧
    (length h' ≤ length h + length rs)%nat ∧ ∀ v, v ∈ done → D' !! v = D !! v.
Proof using Hw.
  induction rs as [|r rs IH]; intros D h done Hi Hu Hd Hsub Hmax; [exists D, h; by rewrite Nat.add_0_r|].
  cbn [yieldAll]. unfold tryYield at 1. rewrite relaxSide_one. destruct (decide (improves weight D u c r)) as [Himp|Hni].
  - destruct (push_ok h (mkState (cadd c (weight u r)) (Neighbor r)) (iv_heap _ _ _ _ _ _ _ Hi)) as (h1 & -> & Hh' & Hperm). cbn [mbind res_bind].
    destruct (inv_improve rels weight origin Hw D h done u c r rs h1 Hi Hu Hd (Hsub r ltac:(by left)) Himp Hmax Hh' Hperm) as [Hx Hi1].
    assert (∀ v, v ∈ done → <[Neighbor r := cadd c (weight u r)]> D !! v = D !! v) as Hk by (intros v Hv; apply lookup_insert_ne; intros E; by rewrite E in Hx).
    destruct (IH _ h1 done Hi1 Hu) as (D' & h' & E & Hi' & Hl & Hd').
    + by rewrite Hk.
    + intros y Hy. apply Hsub. by right.
    + intros v dv Hv. rewrite Hk by done. by apply Hmax.
    + exists D', h'. split; [done|]. split; [done|]. split; [rewrite Hperm in Hl; cbn [length] in *; lia|]. intros v Hv. by rewrite Hd', Hk.
  - destruct (IH D h done) as (D' & h' & E & Hi' & Hl & Hd'); [by eapply inv_keep|done|done|intros y Hy; apply Hsub; by right|done|].
    exists D', h'. split; [done|]. split; [done|]. split; [cbn [length]; lia|done].
Qed.

(** A round of a side drops a stale entry or settles a node. *)
Lemma settleSide_ok other D h done best : sinv closed D h done → h ≠ [] → ∃ D' h' best' done', settleSide g d m weight other D h best = Ok (D', h', best') ∧
  sinv closed D' h' done' ∧ (length h' + leftover rels n done' < length h + leftover rels n done)%nat ∧
  (D' = D ∧ best' = best ∧ done' = done ∨
   ∃ u c, done' = u :: done ∧ D !! u = Some c ∧ (∀ v, v ∈ done' → D' !! v = D !! v) ∧ best' = meet best c (other !! u)).
Proof using Hwf Hm Hw Horigin.
  intros Hi Hne. unfold settleSide. destruct (pop_inv rels weight origin D h done Hi Hne) as (s & h' & -> & Hh' & Hperm & Hmin & c & Hc & Hle). cbn [mbind res_bind]. rewrite Hc.
  assert (length h = S (length h')) as Hlen by (by rewrite Hperm). case_bool_decide as Hst.
  { exists D, h', best, done. split; [done|]. split; [by eapply inv_stale|]. split; [lia|by left]. }
  destruct (inv_settle rels weight origin D h done s h' c Hi Hh' Hperm Hmin Hc Hst) as (Ec & Hnd & Hi' & Hmax).
  assert (∀ u r, r ∈ rels u → 0 ≤ Neighbor r < n) as Hn by (intros u r; by eapply rels_space).
  pose proof (inv_space rels weight origin n Hn _ _ _ _ _ _ Hi Horigin Hc) as Hsn.
  unfold RelsMatch. rewrite (relsYield_ok g ito m (wse_graph _ _ Hwf) Hm) by lia. cbn [mbind res_bind].
  destruct (relaxSide_ok (snode s) c (rels (snode s)) D h' (snode s :: done) Hi') as (D1 & h1 & E & Hi1 & Hl1 & Hk); [by left|done|done|done|].
  assert (mkState c (snode s) = s) as Es by (destruct s; cbn in *; by subst). rewrite Es in E. rewrite E. cbn [snd mbind res_bind].
  pose proof (leftover_settle rels n done (snode s) Hsn Hnd) as Hlo. eexists D1, h1, _, (snode s :: done). split; [done|]. split; [by eapply inv_close|]. split; [lia|].
  right. exists (snode s), c. split; [done|]. split; [done|]. split; [done|]. by rewrite Ec.
Qed.
End side.

(** ** Cuts of a path *)

(** The rest of a path, summed from its end. *)
Fixpoint sufCost (p : list (cost * Z)) : cost := match p with [] => Fin 0 | (w, _) :: p => cadd (sufCost p) w end.

(** A path cut at each of its nodes: the front summed forward from [a], the rest backward. *)
Fixpoint cuts (a : cost) (p : list (cost * Z)) : list cost :=
  cadd a (sufCost p) :: match p with [] => [] | (w, _) :: p => cuts (cadd a w) p end.

Lemma sufCost_wf p : Forall (λ s, wf_cost s.1) p → wf_cost (sufCost p).
Proof. induction 1 as [|[w y] p Hw _ IH]; [apply wf_zero|by apply cadd_wf]. Qed.

(** ** Both sides *)

Section two.
Context {bm : Type} `{RoaringSet bm} (g : Snapshot bm) (ito : list Z) (m : RelMatch (Snapshot bm)) (dir : Direction) (weight : Z → RelRef → cost) (source target : Z).
Hypothesis Hwf : wfSearch g ito.
Hypothesis Hm : matchOK g m.
Hypothesis Hw : ∀ u r, wf_cost (weight u r).
Hypothesis Hsource : 0 ≤ source < CSRIDSpace g.
Hypothesis Htarget : 0 ≤ target < CSRIDSpace g.

Abbreviation relsF := (λ v, relsOf g m ito v dir).
Abbreviation relsB := (λ v, relsOf g m ito v (Reverse dir)).
Abbreviation walkF := (walk relsF weight source).
Abbreviation walkB := (walk relsB weight target).
Abbreviation n := (CSRIDSpace g).

(** A step both sides can take, at the same cost. *)
Definition edge (u : Z) (w : cost) (v : Z) : Prop :=
  (∃ r, r ∈ relsF u ∧ Neighbor r = v ∧ weight u r = w) ∧ (∃ r, r ∈ relsB v ∧ Neighbor r = u ∧ weight v r = w).

(** The state between rounds. *)
Record sides (DF DB : gmap Z cost) (HF HB : list dijkstraState) (best : cost) (doneF doneB : list Z) : Prop := {
  sd_f : inv relsF weight source closed DF HF doneF;
  sd_b : inv relsB weight target closed DB HB doneB;
  sd_best : best = Inf ∨ ∃ x a b, walkF a x ∧ walkB b x ∧ best = cadd a b;
  sd_cross : ∀ u v w a b, u ∈ doneF → v ∈ doneB → edge u w v → DF !! u = Some a → DB !! v = Some b → isInf (cadd a w) = false → isInf (cadd b w) = false →
    cle best (cadd (cadd a w) b) ∨ cle best (cadd a (cadd b w));
  sd_target : ∀ a, target ∈ doneF → DF !! target = Some a → cle best (cadd a (Fin 0));
  sd_source : ∀ b, source ∈ doneB → DB !! source = Some b → cle best (cadd b (Fin 0));
}.

Lemma sides_start : sides {[source := Fin 0]} {[target := Fin 0]} [mkState (Fin 0) source] [mkState (Fin 0) target] Inf [] [].
Proof using Type.
  split; [apply inv_start|apply inv_start|by left|..].
  - by intros u v w a b Hu%not_elem_of_nil.
  - by intros a Hu%not_elem_of_nil.
  - by intros b Hu%not_elem_of_nil.
Qed.

Lemma meet_best best c o x a b : (best = Inf ∨ ∃ x a b, walkF a x ∧ walkB b x ∧ best = cadd a b) →
  (∀ b', o = Some b' → walkF a x ∧ walkB b x ∧ cadd c b' = cadd a b) →
  meet best c o = Inf ∨ ∃ x a b, walkF a x ∧ walkB b x ∧ meet best c o = cadd a b.
Proof using Type.
  intros Hb Ho. unfold meet. destruct o as [b'|]; [|done]. case_decide; [|done]. destruct (Ho b' eq_refl) as (? & ? & ->). right. by exists x, a, b.
Qed.

(** The forward side moves. *)
Lemma sides_forward DF DB HF HB best doneF doneB DF' HF' best' doneF' : sides DF DB HF HB best doneF doneB →
  inv relsF weight source closed DF' HF' doneF' →
  (DF' = DF ∧ best' = best ∧ doneF' = doneF ∨
   ∃ u c, doneF' = u :: doneF ∧ DF !! u = Some c ∧ (∀ v, v ∈ doneF' → DF' !! v = DF !! v) ∧ best' = meet best c (DB !! u)) →
  sides DF' DB HF' HB best' doneF' doneB.
Proof using Hw.
  intros [Sf Sb Sbest Sx St Ss] Hi [(-> & -> & ->)|(u & c & -> & Hc & Hk & ->)]; [by split|].
  pose proof (iv_walk _ _ _ _ _ _ _ Sf u c Hc) as Hwc. destruct (walk_wf _ _ _ Hw _ _ Hwc) as [Hcw _].
  split; try done.
  - apply (meet_best best c (DB !! u) u c (default Inf (DB !! u))); [done|]. intros b' E. rewrite E. split; [done|]. split; [by eapply (iv_walk _ _ _ _ _ _ _ Sb)|done].
  - intros x v w a b [->|Hx]%elem_of_cons Hv He Ha Hb Hia Hib.
    + right. rewrite Hk, Hc in Ha by (by left). injection Ha as <-. destruct He as [_ (r & Hr & Enb & Ew)]. rewrite <- Ew in Hib.
      destruct (iv_relaxed _ _ _ _ _ _ _ Sb v b r Hv Hb Hr Hib) as [[]|(b' & Hb' & Hle)]. rewrite Enb in Hb'. rewrite Hb'.
      eapply cle_trans; [apply meet_candidate|]. rewrite <- Ew. pose proof (walk_wf _ _ _ Hw _ _ (iv_walk _ _ _ _ _ _ _ Sb _ _ Hb')) as [Hb'w _].
      pose proof (walk_wf _ _ _ Hw _ _ (iv_walk _ _ _ _ _ _ _ Sb _ _ Hb)) as [Hbw _]. apply cadd_mono_r; [done|done|by apply cadd_wf|done].
    + rewrite Hk in Ha by (by right). destruct (Sx x v w a b Hx Hv He Ha Hb Hia Hib) as [?|?]; [left|right]; (eapply cle_trans; [apply meet_le|done]).
  - intros a [E|Hin]%elem_of_cons Ha.
    + subst u. rewrite Hk, Hc in Ha by (by left). injection Ha as <-. rewrite (iv_source _ _ _ _ _ _ _ Sb). apply meet_candidate.
    + rewrite Hk in Ha by (by right). eapply cle_trans; [apply meet_le|by apply St].
  - intros b Hin Hb. eapply cle_trans; [apply meet_le|by apply Ss].
Qed.

(** The backward side moves. *)
Lemma sides_backward DF DB HF HB best doneF doneB DB' HB' best' doneB' : sides DF DB HF HB best doneF doneB →
  inv relsB weight target closed DB' HB' doneB' →
  (DB' = DB ∧ best' = best ∧ doneB' = doneB ∨
   ∃ u c, doneB' = u :: doneB ∧ DB !! u = Some c ∧ (∀ v, v ∈ doneB' → DB' !! v = DB !! v) ∧ best' = meet best c (DF !! u)) →
  sides DF DB' HF HB' best' doneF doneB'.
Proof using Hw.
  intros [Sf Sb Sbest Sx St Ss] Hi [(-> & -> & ->)|(u & c & -> & Hc & Hk & ->)]; [by split|].
  pose proof (iv_walk _ _ _ _ _ _ _ Sb u c Hc) as Hwc. destruct (walk_wf _ _ _ Hw _ _ Hwc) as [Hcw _].
  split; try done.
  - apply (meet_best best c (DF !! u) u (default Inf (DF !! u)) c); [done|]. intros a' E. rewrite E. split; [by eapply (iv_walk _ _ _ _ _ _ _ Sf)|]. split; [done|apply cadd_comm].
  - intros x v w a b Hx [->|Hv]%elem_of_cons He Ha Hb Hia Hib.
    + left. rewrite Hk, Hc in Hb by (by left). injection Hb as <-. destruct He as [(r & Hr & Enb & Ew) _]. rewrite <- Ew in Hia.
      destruct (iv_relaxed _ _ _ _ _ _ _ Sf x a r Hx Ha Hr Hia) as [[]|(a' & Ha' & Hle)]. rewrite Enb in Ha'. rewrite Ha'.
      eapply cle_trans; [apply meet_candidate|]. rewrite <- Ew, (cadd_comm _ c). pose proof (walk_wf _ _ _ Hw _ _ (iv_walk _ _ _ _ _ _ _ Sf _ _ Ha')) as [Ha'w _].
      pose proof (walk_wf _ _ _ Hw _ _ (iv_walk _ _ _ _ _ _ _ Sf _ _ Ha)) as [Haw _]. apply cadd_mono_r; [done|done|by apply cadd_wf|done].
    + rewrite Hk in Hb by (by right). destruct (Sx x v w a b Hx Hv He Ha Hb Hia Hib) as [?|?]; [left|right]; (eapply cle_trans; [apply meet_le|done]).
  - intros a Hin Ha. eapply cle_trans; [apply meet_le|by apply St].
  - intros b [E|Hin]%elem_of_cons Hb.
    + subst u. rewrite Hk, Hc in Hb by (by left). injection Hb as <-. rewrite (iv_source _ _ _ _ _ _ _ Sf). apply meet_candidate.
    + rewrite Hk in Hb by (by right). eapply cle_trans; [apply meet_le|by apply Ss].
Qed.
(** The loop ends within its fuel, and only when the frontiers cannot beat the best. *)
Abbreviation todo HF HB doneF doneB := (length HF + leftover relsF n doneF + (length HB + leftover relsB n doneB))%nat.

Lemma wspLoop_ok fuel : ∀ DF DB HF HB best doneF doneB, sides DF DB HF HB best doneF doneB → (todo HF HB doneF doneB ≤ fuel)%nat →
  ∃ DF' DB' HF' HB' best' doneF' doneB', wspLoop fuel g dir m weight DF DB HF HB best = Ok best' ∧
    sides DF' DB' HF' HB' best' doneF' doneB' ∧ cle best' (cadd (topOf HF') (topOf HB')).
Proof using Hwf Hm Hw Hsource Htarget.
  induction fuel as [|fuel IH]; intros DF DB HF HB best doneF doneB Hs Hf.
  all: cbn [wspLoop]; destruct (decide (HF = [] ∧ HB = [])) as [[-> ->]|Hne]; [exists DF, DB, [], [], best, doneF, doneB; split; [done|]; split; [done|by destruct best]|].
  all: destruct (decide (cle best (cadd (topOf HF) (topOf HB)))) as [Hstop|Hgo]; [by exists DF, DB, HF, HB, best, doneF, doneB|].
  { destruct HF; cbn [length] in Hf; [|lia]. destruct HB; cbn [length] in Hf; [tauto|lia]. }
  destruct (decide (clt (topOf HB) (topOf HF))) as [Hlt|Hge].
  - destruct (decide (HB = [])) as [->|HneB]; [done|].
    destruct (settleSide_ok g ito m (Reverse dir) weight target Hwf Hm Hw Htarget DF DB HB doneB best (sd_b _ _ _ _ _ _ _ Hs) HneB) as (DB' & HB' & best' & doneB' & -> & Hi & Hl & Hc).
    cbn [mbind res_bind]. apply (IH _ _ _ _ _ doneF doneB'); [by eapply sides_backward|lia].
  - destruct (decide (HF = [])) as [->|HneF]; [exfalso; apply Hgo; by destruct best|].
    destruct (settleSide_ok g ito m dir weight source Hwf Hm Hw Hsource DB DF HF doneF best (sd_f _ _ _ _ _ _ _ Hs) HneF) as (DF' & HF' & best' & doneF' & -> & Hi & Hl & Hc).
    cbn [mbind res_bind]. apply (IH _ _ _ _ _ doneF' doneB); [by eapply sides_forward|lia].
Qed.

(** ** Paths both sides can follow *)

(** The steps of a path from [x] to the target: cost and end. *)
Fixpoint twoWay (x : Z) (p : list (cost * Z)) : Prop :=
  match p with [] => x = target | (w, y) :: p => edge x w y ∧ twoWay y p end.

Lemma twoWay_walkB p : ∀ x, twoWay x p → isInf (sufCost p) = false → walkB (sufCost p) x.
Proof using Type.
  induction p as [|[w y] p IH]; cbn [twoWay sufCost]; intros x; [intros -> _; constructor|]. intros [[_ (r & Hr & <- & <-)] Hp] Hi.
  constructor; [|done|done]. apply IH; [done|]. by destruct (sufCost p).
Qed.

Lemma twoWay_wf p : ∀ x, twoWay x p → Forall (λ s, wf_cost s.1) p.
Proof using Hw. induction p as [|[w y] p IH]; intros x; [constructor|]. intros [[(r & _ & _ & <-) _] Hp]. constructor; [apply Hw|by eapply IH]. Qed.

(** A walk's end is settled within its cost, or the side's top is within it. *)
Lemma inv_front d o D h done c v : inv (λ v, relsOf g m ito v d) weight o closed D h done → walk (λ v, relsOf g m ito v d) weight o c v →
  (v ∈ done ∧ within D v c) ∨ cle (topOf h) c.
Proof using Hw.
  intros Hi Hwk. pose proof (iv_heap _ _ _ _ _ _ _ Hi) as Hh. destruct (inv_cut _ _ _ Hw _ _ _ _ _ Hi Hwk) as [(d' & Hd & Hle)|(s & Hs & Hle)].
  - destruct (decide (v ∈ done)) as [Hv|Hv]; [left; split; [done|by exists d']|right]. eapply cle_trans; [|exact Hle].
    exact (topOf_le h (mkState d' v) Hh (iv_pending _ _ _ _ _ _ _ Hi v d' Hd Hv)).
  - right. eapply cle_trans; [by apply topOf_le|done].
Qed.

Section stopped.
Context (DF DB : gmap Z cost) (HF HB : list dijkstraState) (best : cost) (doneF doneB : list Z).
Hypothesis Hs : sides DF DB HF HB best doneF doneB.
Hypothesis Hstop : cle best (cadd (topOf HF) (topOf HB)).

Lemma dist_nonneg d o D h done v c : inv (λ v, relsOf g m ito v d) weight o closed D h done → D !! v = Some c → cle (Fin 0) c.
Proof using Hw. intros Hi Hc. apply wf_nonneg. exact (proj1 (walk_wf _ _ _ Hw _ _ (iv_walk _ _ _ _ _ _ _ Hi _ _ Hc))). Qed.

Lemma topOf_nonneg D h done o d : inv (λ v, relsOf g m ito v d) weight o closed D h done → cle (Fin 0) (topOf h).
Proof using Hw.
  intros Hi. destruct h as [|s h]; [done|]. destruct (iv_entry _ _ _ _ _ _ _ Hi s ltac:(by left)) as (c & Hc & Hle).
  eapply cle_trans; [exact (dist_nonneg _ _ _ _ _ _ _ Hi Hc)|exact Hle].
Qed.

(** Where both fronts are behind a cut. *)
Lemma cut_both a b : cle (topOf HF) a → cle (topOf HB) b → cle best (cadd a b).
Proof using Hw Hs Hstop.
  intros Ha Hb. eapply cle_trans; [exact Hstop|]. destruct Hs as [Sf Sb _ _ _ _]. apply cadd_mono2; [exact (topOf_nonneg _ _ _ _ _ Sf)|exact (topOf_nonneg _ _ _ _ _ Sb)|done|done].
Qed.

(** A settled node on each end of a step. *)
Lemma cut_cross x w y a b : x ∈ doneF → y ∈ doneB → edge x w y → walkF a x → walkB b y → isInf (cadd a w) = false → isInf (cadd b w) = false →
  cle best (cadd (cadd a w) b) ∨ cle best (cadd a (cadd b w)).
Proof using Hw Hs.
  intros Hx Hy He Ha Hb Hia Hib. destruct Hs as [Sf Sb _ Sx _ _]. destruct (iv_done _ _ _ _ _ _ _ Sf) as [_ Hf]. destruct (Hf x Hx) as [a' Ha'].
  destruct (iv_done _ _ _ _ _ _ _ Sb) as [_ Hg]. destruct (Hg y Hy) as [b' Hb']. assert (wf_cost w) as Hww by (destruct He as [(r & _ & _ & <-) _]; apply Hw).
  pose proof (inv_exact _ _ _ Hw _ _ _ _ _ _ Sf Hx Ha' Ha) as Hla. pose proof (inv_exact _ _ _ Hw _ _ _ _ _ _ Sb Hy Hb' Hb) as Hlb.
  destruct (walk_wf _ _ _ Hw _ _ (iv_walk _ _ _ _ _ _ _ Sf _ _ Ha')) as [Hwa _]. destruct (walk_wf _ _ _ Hw _ _ (iv_walk _ _ _ _ _ _ _ Sb _ _ Hb')) as [Hwb _].
  assert (cle (cadd a' w) (cadd a w)) as Ma by (apply cadd_mono2; [by apply wf_nonneg..|done|apply cle_refl]).
  assert (cle (cadd b' w) (cadd b w)) as Mb by (apply cadd_mono2; [by apply wf_nonneg..|done|apply cle_refl]).
  assert (∀ c c', cle c c' → isInf c' = false → isInf c = false) as Hfin by (by intros [|] [|]).
  destruct (Sx x y w a' b' Hx Hy He Ha' Hb' (Hfin _ _ Ma Hia) (Hfin _ _ Mb Hib)) as [Hc|Hc]; [left|right]; (eapply cle_trans; [exact Hc|]).
  - apply cadd_mono2; [by apply wf_nonneg, cadd_wf|by apply wf_nonneg|done|done].
  - apply cadd_mono2; [by apply wf_nonneg|by apply wf_nonneg, cadd_wf|done|done].
Qed.

Lemma head_cut a p : cadd a (sufCost p) ∈ cuts a p.
Proof using Type. destruct p as [|[w y] p]; by left. Qed.

(** Some cut of the rest of a path from a settled node is not cheaper. *)
Lemma settled_cut p : ∀ x a, x ∈ doneF → walkF a x → twoWay x p → ∃ c, c ∈ cuts a p ∧ cle best c.
Proof using Hw Hs Hstop.
  induction p as [|[w y] p IH]; intros x a Hx Ha Hp; cbn [twoWay] in Hp.
  - subst x. exists (cadd a (Fin 0)). split; [by left|]. destruct Hs as [Sf Sb _ _ St _]. destruct (iv_done _ _ _ _ _ _ _ Sf) as [_ Hf]. destruct (Hf target Hx) as [a' Ha'].
    eapply cle_trans; [by apply St|]. apply cadd_mono2; [exact (dist_nonneg _ _ _ _ _ _ _ Sf Ha')|done|exact (inv_exact _ _ _ Hw _ _ _ _ _ _ Sf Hx Ha' Ha)|done].
  - destruct Hp as [He Hp]. cbn [cuts sufCost]. assert (∀ c, c ∈ cuts (cadd a w) p → c ∈ cadd a (cadd (sufCost p) w) :: cuts (cadd a w) p) as Htl by (intros c Hc; by right).
    destruct (isInf (cadd a w)) eqn:Hia.
    { exists (cadd (cadd a w) (sufCost p)). split; [apply Htl, head_cut|]. destruct (cadd a w); [done|]. by destruct best. }
    destruct (isInf (cadd (sufCost p) w)) eqn:Hib.
    { exists (cadd a (cadd (sufCost p) w)). split; [by left|]. destruct (cadd (sufCost p) w); [done|]. by destruct a, best. }
    assert (walkB (sufCost p) y) as Hwb by (apply twoWay_walkB; [done|by destruct (sufCost p)]).
    assert (walkF (cadd a w) y) as Hwa by (destruct He as [(r & Hr & <- & <-) _]; by constructor).
    destruct (inv_front _ _ _ _ _ _ _ (sd_b _ _ _ _ _ _ _ Hs) Hwb) as [[Hy _]|Htb].
    + destruct (cut_cross x w y a (sufCost p) Hx Hy He Ha Hwb Hia Hib) as [Hc|Hc]; eexists; (split; [|exact Hc]); [apply Htl, head_cut|by left].
    + destruct (inv_front _ _ _ _ _ _ _ (sd_f _ _ _ _ _ _ _ Hs) Hwa) as [[Hy _]|Htf].
      * destruct (IH y (cadd a w) Hy Hwa Hp) as (c & Hc & Hle). exists c. split; [by apply Htl|done].
      * exists (cadd (cadd a w) (sufCost p)). split; [apply Htl, head_cut|by apply cut_both].
Qed.

Lemma stopped_cut p : twoWay source p → ∃ c, c ∈ cuts (Fin 0) p ∧ cle best c.
Proof using Hw Hs Hstop.
  intros Hp. destruct (isInf (sufCost p)) eqn:Hib.
  { exists (cadd (Fin 0) (sufCost p)). split; [apply head_cut|]. destruct (sufCost p); [done|]. by destruct best. }
  pose proof (twoWay_walkB p source Hp Hib) as Hwb. assert (walkF (Fin 0) source) as Hwf0 by constructor.
  destruct (inv_front _ _ _ _ _ _ _ (sd_f _ _ _ _ _ _ _ Hs) Hwf0) as [[Hx _]|Htf]; [by eapply settled_cut|].
  exists (cadd (Fin 0) (sufCost p)). split; [apply head_cut|]. destruct (inv_front _ _ _ _ _ _ _ (sd_b _ _ _ _ _ _ _ Hs) Hwb) as [[Hy (b & Hb & Hle)]|Htb]; [|by apply cut_both].
  destruct Hs as [Sf Sb _ _ _ Ss]. eapply cle_trans; [by apply (Ss b)|]. rewrite cadd_comm. apply cadd_mono2; [done|exact (dist_nonneg _ _ _ _ _ _ _ Sb Hb)|done|done].
Qed.
End stopped.

(** ** The whole search *)

Lemma WeightedShortestPath_ok : source ≠ target → ∃ o, WeightedShortestPath g source target dir m weight = Ok o ∧
  (∀ c, o = Some c → ∃ x a b, walkF a x ∧ walkB b x ∧ c = cadd a b) ∧
  ∀ p, twoWay source p → ∃ c, c ∈ cuts (Fin 0) p ∧ cle (default Inf o) c.
Proof using Hwf Hm Hw Hsource Htarget.
  intros Hne. unfold WeightedShortestPath. rewrite decide_False by done.
  destruct (wspLoop_ok (dijkstraFuel g + dijkstraFuel g) _ _ _ _ _ _ _ sides_start) as (DF & DB & HF & HB & best & doneF & doneB & -> & Hs & Hstop).
  - pose proof (leftover_bound relsF n [] _ (relsOf_length g ito m dir Hwf) ltac:(lia)) as HbF. pose proof (leftover_bound relsB n [] _ (relsOf_length g ito m (Reverse dir) Hwf) ltac:(lia)) as HbB.
    cbn [length]. unfold dijkstraFuel. pose proof (len_nonneg (outNbrs g)). pose proof (len_nonneg (inNbrs g)). rewrite Z2Nat.inj_mul by lia. lia.
  - cbn [mbind res_bind]. eexists. split; [done|]. split.
    + intros c. destruct best as [u|] eqn:Eb; cbn [isInf]; [|done]. intros [= <-]. by destruct (sd_best _ _ _ _ _ _ _ Hs).
    + intros p Hp. destruct (stopped_cut _ _ _ _ _ _ _ Hs Hstop p Hp) as (c & Hc & Hle). exists c. split; [done|]. by destruct best.
Qed.
End two.

(** ** Paths whose sums are exact *)

Lemma cadd_scaled k a b : 0 ≤ k ≤ 2045 → 0 ≤ a → 0 ≤ b → a + b < 2 ^ 53 → cadd (Fin (a * 2 ^ k)) (Fin (b * 2 ^ k)) = Fin ((a + b) * 2 ^ k).
Proof.
  intros Hk Ha Hb Hs. unfold cadd. rewrite <- Z.mul_add_distr_r. rewrite round_fixed by (exists (a + b), k; lia). rewrite decide_True; [done|].
  unfold overflowAt. apply Z.lt_le_trans with (2 ^ 53 * 2 ^ k); [apply Z.mul_lt_mono_pos_r; [apply pow_pos; lia|done]|].
  rewrite <- Z.pow_add_r by lia. apply Z.pow_le_mono_r; lia.
Qed.

(** Steps whose costs are whole multiples of 2^k subnormals, and their sum. *)
Definition scaled (k : Z) (steps : list (Z * Z)) : list (cost * Z) := (λ s, (Fin (s.1 * 2 ^ k), s.2)) <$> steps.
Fixpoint total (steps : list (Z * Z)) : Z := match steps with [] => 0 | (z, _) :: steps => z + total steps end.

Lemma total_nonneg steps : Forall (λ s, 0 ≤ s.1) steps → 0 ≤ total steps.
Proof. induction 1 as [|[z y] steps Hz _ IH]; cbn [total]; [lia|]. cbn in Hz. lia. Qed.

Lemma sufCost_scaled k steps : 0 ≤ k ≤ 2045 → Forall (λ s, 0 ≤ s.1) steps → total steps < 2 ^ 53 → sufCost (scaled k steps) = Fin (total steps * 2 ^ k).
Proof.
  intros Hk Hs. induction Hs as [|[z y] steps Hz Hs IH]; intros Ht; [by rewrite Z.mul_0_l|]. cbn [total] in *. cbn in Hz. pose proof (total_nonneg _ Hs).
  unfold scaled in *. cbn [fmap list_fmap sufCost fst snd]. rewrite IH by lia. rewrite cadd_scaled by lia. do 2 f_equal. lia.
Qed.

(** Every cut of such a path has the same cost. *)
Lemma cuts_scaled k steps c : 0 ≤ k ≤ 2045 → Forall (λ s, 0 ≤ s.1) steps → ∀ a, 0 ≤ a → a + total steps < 2 ^ 53 → c ∈ cuts (Fin (a * 2 ^ k)) (scaled k steps) → c = Fin ((a + total steps) * 2 ^ k).
Proof.
  intros Hk Hs. induction Hs as [|[z y] steps Hz Hs IH]; intros a Ha Ht Hc.
  - apply list_elem_of_singleton in Hc as ->. cbn [sufCost]. pose proof (cadd_scaled k a 0) as E. rewrite Z.mul_0_l in E. cbn [total] in *. apply E; lia.
  - pose proof (total_nonneg _ Hs). cbn [total] in *. cbn in Hz. apply elem_of_cons in Hc as [->|Hc].
    + transitivity (cadd (Fin (a * 2 ^ k)) (sufCost (scaled k ((z, y) :: steps)))); [done|].
      rewrite sufCost_scaled by (try done; cbn [total]; try lia; by constructor). cbn [total]. by rewrite cadd_scaled by lia.
    + cbn [fmap list_fmap fst] in Hc. rewrite cadd_scaled in Hc by lia. rewrite (IH (a + z)) by (try lia; done). do 2 f_equal. lia.
Qed.

(** ** The property *)

(** C10: Bidirectional search meets at a least cost. On a graph whose neighbors lie in
    its id space, between any two of its nodes, in any direction, with any type
    filter and any non-negative float64 or infinite weights, [WeightedShortestPath]
    ends without panic. An answer is the sum of a forward walk from the source and a
    backward walk from the target that meet in a node (0 when they are the same
    node). For every path whose steps both sides can take at the same cost, no
    answer and an answer alike are within the cost of some cut of the path, its
    front summed forward and its rest backward; and where the path's costs are
    whole multiples of a power of two with a sum below 2^53 of them, so that no sum
    rounds, within the path's cost itself. *)
Theorem WeightedShortestPath_meets {bm} `{RoaringSet bm} (g : Snapshot bm) ito m dir weight source target :
  wfSearch g ito → matchOK g m → (∀ u r, wf_cost (weight u r)) → 0 ≤ source < CSRIDSpace g → 0 ≤ target < CSRIDSpace g →
  ∃ o, WeightedShortestPath g source target dir m weight = Ok o ∧
    (source = target → o = Some (Fin 0)) ∧
    (∀ c, o = Some c → ∃ x a b, walk (λ v, relsOf g m ito v dir) weight source a x ∧ walk (λ v, relsOf g m ito v (Reverse dir)) weight target b x ∧ c = cadd a b) ∧
    (∀ p, twoWay g ito m dir weight target source p → ∃ c, c ∈ cuts (Fin 0) p ∧ cle (default Inf o) c) ∧
    (∀ k steps, 0 ≤ k ≤ 2045 → Forall (λ s, 0 ≤ s.1) steps → total steps < 2 ^ 53 → twoWay g ito m dir weight target source (scaled k steps) →
      cle (default Inf o) (Fin (total steps * 2 ^ k))).
Proof.
  intros Hwf Hm Hw Hs Ht. assert (∃ o, WeightedShortestPath g source target dir m weight = Ok o ∧ (source = target → o = Some (Fin 0)) ∧
    (∀ c, o = Some c → ∃ x a b, walk (λ v, relsOf g m ito v dir) weight source a x ∧ walk (λ v, relsOf g m ito v (Reverse dir)) weight target b x ∧ c = cadd a b) ∧
    ∀ p, twoWay g ito m dir weight target source p → ∃ c, c ∈ cuts (Fin 0) p ∧ cle (default Inf o) c) as (o & E & Hsame & Hreal & Hcut).
  - destruct (decide (source = target)) as [->|Hne].
    + exists (Some (Fin 0)). unfold WeightedShortestPath. rewrite decide_True by done. do 2 (split; [done|]). split.
      * intros c [= <-]. exists target, (Fin 0), (Fin 0). split; [constructor|]. split; [constructor|done].
      * intros p Hp. exists (cadd (Fin 0) (sufCost p)). split; [apply head_cut|]. cbn [default]. rewrite cadd_zero; apply twoWay_wf in Hp; try done; by apply wf_nonneg, sufCost_wf || apply sufCost_wf.
    + destruct (WeightedShortestPath_ok g ito m dir weight source target Hwf Hm Hw Hs Ht Hne) as (o & E & Hr & Hc). by exists o.
  - exists o. do 4 (split; [done|]). intros k steps Hk Hst Htot Hp. destruct (Hcut _ Hp) as (c & Hc & Hle).
    by rewrite (cuts_scaled k steps c Hk Hst 0) in Hle by (try lia; by rewrite Z.mul_0_l).
Qed.

(** The same triangle, weighted alike from both ends. *)
Definition pairWeight (u : Z) (r : RelRef) : cost := if decide (u + Neighbor r = 1) then Fin (10 * 2 ^ 1074) else one64.

Lemma pairWeight_wf u r : wf_cost (pairWeight u r).
Proof. unfold pairWeight. case_decide; (split; [by vm_compute|]); [exists 10, 1074|exists 1, 1074]; lia. Qed.

Lemma WeightedShortestPath_meets_witness : WeightedShortestPath triSnap 0 1 Outgoing MatchAll pairWeight = Ok (Some (Fin (2 ^ 1075))) ∧
  twoWay triSnap [] MatchAll Outgoing pairWeight 1 0 (scaled 1074 [(1, 2); (1, 1)]) ∧ cle (Fin (2 ^ 1075)) (Fin (total [(1, 2); (1, 1)] * 2 ^ 1074)).
Proof.
  destruct (WeightedShortestPath_meets triSnap [] MatchAll Outgoing pairWeight 0 1 triSnap_search) as (o & E & _ & _ & _ & Hk); [done|apply pairWeight_wf|done|done|].
  assert (WeightedShortestPath triSnap 0 1 Outgoing MatchAll pairWeight = Ok (Some (Fin (2 ^ 1075)))) as Ec by (by vm_compute).
  assert (twoWay triSnap [] MatchAll Outgoing pairWeight 1 0 (scaled 1074 [(1, 2); (1, 1)])) as Hp.
  { assert (relsOf triSnap MatchAll [] 0 Outgoing = [mkRelRef 1 1 Outgoing 0; mkRelRef 2 1 Outgoing 1]) as R0 by (by vm_compute).
    assert (relsOf triSnap MatchAll [] 2 Outgoing = [mkRelRef 1 1 Outgoing 2]) as R2 by (by vm_compute).
    assert (relsOf triSnap MatchAll [] 1 Incoming = [mkRelRef 0 1 Incoming 0; mkRelRef 2 1 Incoming 1]) as I1 by (by vm_compute).
    assert (relsOf triSnap MatchAll [] 2 Incoming = [mkRelRef 0 1 Incoming 2]) as I2 by (by vm_compute).
    split; [|split; [|done]]; split.
    - rewrite R0. exists (mkRelRef 2 1 Outgoing 1). split; [right; by left|by split; vm_compute].
    - exists (mkRelRef 0 1 Incoming 2). split; [change (mkRelRef 0 1 Incoming 2 ∈ relsOf triSnap MatchAll [] 2 Incoming); rewrite I2; by left|by split; vm_compute].
    - exists (mkRelRef 1 1 Outgoing 2). split; [change (mkRelRef 1 1 Outgoing 2 ∈ relsOf triSnap MatchAll [] 2 Outgoing); rewrite R2; by left|by split; vm_compute].
    - exists (mkRelRef 2 1 Incoming 1). split; [change (mkRelRef 2 1 Incoming 1 ∈ relsOf triSnap MatchAll [] 1 Incoming); rewrite I1; right; by left|by split; vm_compute]. }
  rewrite Ec in E. injection E as <-. split; [done|]. split; [done|]. apply (Hk 1074 [(1, 2); (1, 1)]); [lia|by repeat constructor|cbn; lia|done].
Defined.
