(* ===== verification/ProbeTable.v ===== *)
(** Open addressing with linear probing: the loop the tables of [src/flatset] share,
    and its theory.

    A table is a power-of-two array of slots. A probe starts at the masked hash and
    steps on until it meets a free slot or a hit. The invariant is that every slot
    between a stored slot's home and its place is occupied, so a probe for a stored
    key finds it and a probe that meets a free slot proves the key absent. The slot
    type, its occupancy test, hash and key are parameters. *)

From S2P Require Import Prelude.

#[export] Instance len_perm {A} : Proper (Permutation ==> eq) (@len A).
Proof. intros l k E. unfold len. by rewrite E. Qed.

Section probing.
Context {slot K : Type} (occ : slot → bool) (home : slot → Z) (keyOf : slot → K).
Implicit Types (T : list slot) (s : slot) (k : K) (hit : slot → bool).

(** [for slots[i] is used { if hit { return }; i = (i + 1) & mask }]: whether it hit,
    and where it ended. *)
Fixpoint probe (fuel : nat) hit T (mask i : Z) : res (bool * Z) :=
  match fuel with
  | O => Panic
  | S fuel =>
      s ← idx T i;
      if occ s then if hit s then Ok (true, i) else probe fuel hit T mask (Z.land (to_u32 (i + 1)) mask)
      else Ok (false, i)
  end.

(** A probe visits no slot twice before it meets a free one. *)
Definition search hit T (mask h : Z) : res (bool * Z) := probe (length T) hit T mask (Z.land h mask).

(** A slot known to be absent goes to the first free place. *)
Definition place (mask : Z) T s : res (list slot) :=
  '(_, i) ← search (λ _, false) T mask (home s);
  upd T i s.

(** [for _, s := range old { if used { place } }] *)
Definition rehash (mask : Z) (old T : list slot) : res (list slot) :=
  foldM (λ T s, if occ s then place mask T s else Ok T) old T.

(** ** Positions *)

Context (b : Z) (Hb : 0 ≤ b ≤ 32).
Abbreviation n := (2 ^ b).
Abbreviation at_ p := (Z.to_nat (p `mod` n)).

Lemma width_pos : 0 < n.
Proof using Hb. apply Z.pow_pos_nonneg; lia. Qed.

Lemma land_mask x : 0 ≤ x → Z.land x (n - 1) = x `mod` n.
Proof using Hb. intros Hx. replace (n - 1) with (Z.ones b) by (rewrite Z.ones_equiv; lia). apply Z.land_ones. lia. Qed.

Lemma next_mask i : 0 ≤ i → Z.land (to_u32 (i + 1)) (n - 1) = (i + 1) `mod` n.
Proof using Hb.
  intros Hi. rewrite land_mask by (apply wrapU_range; lia). unfold wrapU. apply Z.mod_mod_divide.
  exists (2 ^ (32 - b)). rewrite <- Z.pow_add_r by lia. f_equal. lia.
Qed.

Lemma at_lookup T p : len T = n → ∃ s, T !! at_ p = Some s.
Proof using Hb.
  intros HT. pose proof (Z.mod_pos_bound p n width_pos). apply lookup_lt_is_Some_2. unfold len in HT. lia.
Qed.

(** ** The invariant *)

Definition occAt T (p : Z) : Prop := ∃ s, T !! at_ p = Some s ∧ occ s = true.
Definition entries T : list slot := filter (λ s, occ s = true) T.

Record wfTable T : Prop := {
  wt_len : len T = n;
  wt_chain : ∀ p s, 0 ≤ p < n → T !! Z.to_nat p = Some s → occ s = true → ∀ e, 0 ≤ e < (p - home s) `mod` n → occAt T (home s + e);
  wt_keys : NoDup (keyOf <$> entries T);
}.

(** Fewer entries than slots leave one free. *)
Lemma free_slot T : len T = n → len (entries T) < n → ∃ p, 0 ≤ p < n ∧ ¬ occAt T p.
Proof using Hb.
  intros HT Hlt. destruct (decide (Forall (λ s, occ s = true) T)) as [Hall|Hex].
  { exfalso. assert (entries T = T) as E; [|rewrite E in Hlt; lia]. clear HT Hlt. unfold entries. induction Hall as [|s T Hs _ IH]; [done|]. rewrite filter_cons_True by done. by f_equal. }
  apply not_Forall_Exists in Hex; [|apply _]. apply Exists_exists in Hex as (s & (i & Hi)%list_elem_of_lookup & Hs). exists (Z.of_nat i).
  pose proof (lookup_lt_Some _ _ _ Hi) as Hl. unfold len in HT. split; [lia|]. intros (s' & Hs' & Ho). rewrite Z.mod_small, Nat2Z.id in Hs' by lia. by simplify_eq.
Qed.

(** ** The loop *)

Lemma mod_shift i e : ((i + 1) `mod` n + e) `mod` n = (i + (e + 1)) `mod` n.
Proof using Hb. pose proof width_pos. rewrite Z.add_mod_idemp_l by lia. f_equal. lia. Qed.

(** What a probe from [i] answers. *)
Definition answers hit T (i d : Z) (found : bool) : Prop :=
  (∀ e, 0 ≤ e < d → ∃ s, T !! at_ (i + e) = Some s ∧ occ s = true ∧ hit s = false) ∧
  ∃ s, T !! at_ (i + d) = Some s ∧ occ s = found ∧ (found = true → hit s = true).

Lemma probe_ok (D : nat) : ∀ fuel hit T i, len T = n → 0 ≤ i < n → ¬ occAt T (i + Z.of_nat D) → (D < fuel)%nat →
  ∃ d found, 0 ≤ d ≤ Z.of_nat D ∧ probe fuel hit T (n - 1) i = Ok (found, (i + d) `mod` n) ∧ answers hit T i d found.
Proof using Hb.
  induction D as [|D IH]; intros fuel hit T i HT Hi Hfree Hf; (destruct fuel as [|fuel]; [lia|]).
  all: destruct (at_lookup T i HT) as (s & Hs); pose proof Hs as Hs0; rewrite Z.mod_small in Hs0 by lia; cbn [probe]; rewrite (idx_lookup _ _ _ (proj1 Hi) Hs0); cbn [mbind res_bind].
  all: assert (∀ found, occ s = found → (found = true → hit s = true) → answers hit T i 0 found) as Hend by (intros found Ho Hh; split; [lia|]; exists s; by rewrite Z.add_0_r).
  all: destruct (occ s) eqn:Ho; [destruct (hit s) eqn:Hh|]; try (eexists 0, _; rewrite Z.add_0_r, Z.mod_small by lia; split; [lia|]; split; [done|by apply Hend]).
  { exfalso. apply Hfree. exists s. by rewrite Z.add_0_r. }
  rewrite next_mask by lia. destruct (IH fuel hit T ((i + 1) `mod` n) HT) as (d & found & Hd & E & Hl & s' & Hs' & Ho' & Hh').
  - apply Z.mod_pos_bound, width_pos.
  - intros (s' & Hs' & Ho'). apply Hfree. exists s'. split; [|done]. rewrite mod_shift in Hs'. by rewrite Nat2Z.inj_succ.
  - lia.
  - exists (d + 1), found. rewrite mod_shift in E, Hs'. split; [lia|]. split; [done|]. split; [|by exists s'].
    intros e He. destruct (decide (e = 0)) as [->|Hne]; [exists s; by rewrite Z.add_0_r|]. destruct (Hl (e - 1)) as (x & Hx & ? & ?); [lia|]. rewrite mod_shift in Hx.
    exists x. by replace (e - 1 + 1) with e in Hx by lia.
Qed.

(** A probe of a table with a free slot ends. *)
Lemma probe_search_ok hit T h : len T = n → len (entries T) < n → 0 ≤ h →
  ∃ d found, 0 ≤ d < n ∧ search hit T (n - 1) h = Ok (found, (h + d) `mod` n) ∧ answers hit T h d found.
Proof using Hb.
  intros HT Hlt Hh. pose proof width_pos as Hn. unfold search. rewrite land_mask by done. pose proof (Z.mod_pos_bound h n Hn) as Hi. destruct (free_slot T HT Hlt) as (p & Hp & Hfree).
  set (D := (p - h `mod` n) `mod` n). pose proof (Z.mod_pos_bound (p - h `mod` n) n Hn) as HD. fold D in HD.
  destruct (probe_ok (Z.to_nat D) (length T) hit T (h `mod` n) HT Hi) as (d & found & Hd & E & Hl & s & Hs & Ho & Hhit).
  - intros (s & Hs & Ho). apply Hfree. exists s. split; [|done]. rewrite Z2Nat.id in Hs by lia. unfold D in Hs. rewrite Z.add_mod_idemp_r in Hs by lia.
    by replace (h `mod` n + (p - h `mod` n)) with p in Hs by lia.
  - unfold len in HT. lia.
  - rewrite Z.add_mod_idemp_l in E, Hs by lia. exists d, found. split; [lia|]. split; [done|]. split; [|by exists s].
    intros e He. destruct (Hl e He) as (x & Hx & ?). rewrite Z.add_mod_idemp_l in Hx by lia. by exists x.
Qed.

(** ** Insertion *)

Lemma entries_insert T i s s0 : T !! i = Some s0 → occ s0 = false → occ s = true → entries (<[i := s]> T) ≡ₚ s :: entries T.
Proof using Type.
  intros Hi H0 H1. pose proof (lookup_lt_Some _ _ _ Hi) as Hl. rewrite insert_take_drop by done. rewrite <- (take_drop_middle T i s0 Hi) at 3. unfold entries.
  rewrite !filter_app, !filter_cons, (decide_True (P := occ s = true)) by done. rewrite decide_False by (by rewrite H0). by rewrite Permutation_middle.
Qed.

Lemma occAt_insert T i s p : occ s = true → occAt T p → occAt (<[i := s]> T) p.
Proof using Type.
  intros Hs (x & Hx & Ho). destruct (decide (i = at_ p)) as [->|Hne]; [|exists x; by rewrite list_lookup_insert_ne].
  exists s. split; [|done]. apply list_lookup_insert_eq. by eapply lookup_lt_Some.
Qed.

(** A new key goes to the end of its probe. *)
Lemma wfTable_insert T s d hit : wfTable T → 0 ≤ d < n → answers hit T (home s) d false → occ s = true → keyOf s ∉ (keyOf <$> entries T) →
  wfTable (<[at_ (home s + d) := s]> T) ∧ entries (<[at_ (home s + d) := s]> T) ≡ₚ s :: entries T.
Proof using Hb.
  intros [HT Hc Hk] Hd [Hl (s0 & Hs0 & Ho0 & _)] Ho Hnew. pose proof width_pos as Hn. assert (entries (<[at_ (home s + d) := s]> T) ≡ₚ s :: entries T) as He by (by eapply entries_insert).
  split; [|done]. split.
  - by rewrite len_insert.
  - intros p x Hp Hx Hox e Hee. apply occAt_insert; [done|]. apply list_lookup_insert_Some in Hx as [(E & <- & _)|[Hne Hx]]; [|by eapply Hc].
    destruct (Hl e) as (y & Hy & Hoy & _); [|by exists y]. pose proof (Z.mod_pos_bound (home s + d) n Hn). assert (p = (home s + d) `mod` n) as -> by lia.
    rewrite Zminus_mod_idemp_l in Hee. replace (home s + d - home s) with d in Hee by lia. rewrite Z.mod_small in Hee by lia. lia.
  - rewrite He. cbn [fmap list_fmap]. by constructor.
Qed.

(** A stored slot changes what it carries besides its key. *)
Lemma wfTable_update T i s s' : wfTable T → T !! i = Some s → occ s = true → occ s' = true → home s' = home s → keyOf s' = keyOf s →
  wfTable (<[i := s']> T) ∧ ∃ l, entries T ≡ₚ s :: l ∧ entries (<[i := s']> T) ≡ₚ s' :: l.
Proof using Type.
  intros [HT Hc Hk] Hi Ho Ho' Eh Ek. pose proof (lookup_lt_Some _ _ _ Hi) as Hl. set (l := entries (take i T ++ drop (S i) T)).
  assert (∀ x, occ x = true → entries (take i T ++ x :: drop (S i) T) ≡ₚ x :: l) as Hp.
  { intros x Hx. unfold l, entries. by rewrite !filter_app, filter_cons_True, <- Permutation_middle by done. }
  pose proof (Hp s Ho) as E1. rewrite (take_drop_middle T i s Hi) in E1. pose proof (Hp s' Ho') as E2. rewrite <- insert_take_drop in E2 by done.
  split; [|by exists l]. split.
  - by rewrite len_insert.
  - intros p x Hp' [(E & <- & _)|[_ Hx]]%list_lookup_insert_Some Hox e He; (apply occAt_insert; [done|]); [|by eapply Hc].
    rewrite Eh in *. eapply Hc; [exact Hp'|by rewrite <- E|done|done].
  - rewrite E2. rewrite E1 in Hk. cbn [fmap list_fmap] in *. by rewrite Ek.
Qed.

(** A stored key is found by its probe. *)
Lemma stored_found T s d hit found : wfTable T → answers hit T (home s) d found → 0 ≤ d < n → s ∈ entries T → hit s = true → found = true.
Proof using Hb.
  intros [HT Hc _] [Hl (x & Hx & Hox & _)] Hd [Ho (i & Hi)%list_elem_of_lookup]%list_elem_of_filter Hh. pose proof width_pos as Hn. destruct found; [done|].
  pose proof (lookup_lt_Some _ _ _ Hi) as Hi'. unfold len in HT. set (e := (Z.of_nat i - home s) `mod` n). pose proof (Z.mod_pos_bound (Z.of_nat i - home s) n Hn) as He. fold e in He.
  assert (at_ (home s + e) = i) as Ei.
  { unfold e. rewrite Z.add_mod_idemp_r by lia. replace (home s + (Z.of_nat i - home s)) with (Z.of_nat i) by lia. rewrite Z.mod_small by lia. lia. }
  exfalso. destruct (decide (e < d)) as [Hlt|Hge].
  - destruct (Hl e) as (y & Hy & _ & Hhy); [lia|]. rewrite Ei in Hy. congruence.
  - destruct (decide (e = d)) as [E|Hne]; [rewrite <- E, Ei in Hx; congruence|].
    destruct (Hc (Z.of_nat i) s) with (e := d) as (y & Hy & Hoy); [lia|by rewrite Nat2Z.id|done|fold e; lia|congruence].
Qed.
(** ** Filling a table *)

Lemma probe_place_ok T s : wfTable T → len (entries T) < n → occ s = true → 0 ≤ home s → keyOf s ∉ (keyOf <$> entries T) →
  ∃ T', place (n - 1) T s = Ok T' ∧ wfTable T' ∧ entries T' ≡ₚ s :: entries T.
Proof using Hb.
  intros Hw Hlt Ho Hh Hnew. unfold place. destruct (probe_search_ok (λ _, false) T (home s) (wt_len _ Hw) Hlt Hh) as (d & found & Hd & -> & Ha). cbn [mbind res_bind].
  assert (found = false) as -> by (destruct Ha as [_ (x & _ & _ & Hx)]; destruct found; [by specialize (Hx eq_refl)|done]).
  unfold upd. rewrite (wt_len _ Hw), decide_True by apply Z.mod_pos_bound, width_pos. eexists. split; [done|]. by eapply wfTable_insert.
Qed.

Lemma rehash_ok old : ∀ T, wfTable T → (∀ s, s ∈ entries old → 0 ≤ home s) → NoDup (keyOf <$> (entries old ++ entries T)) → len (entries old ++ entries T) ≤ n →
  ∃ T', rehash (n - 1) old T = Ok T' ∧ wfTable T' ∧ entries T' ≡ₚ entries old ++ entries T.
Proof using Hb.
  induction old as [|s old IH]; intros T Hw Hh Hnd Hlen; [by exists T|]. cbn [rehash foldM]. destruct (occ s) eqn:Ho.
  - assert (entries (s :: old) = s :: entries old) as E by (unfold entries; by rewrite filter_cons_True). rewrite E in *. cbn [app fmap list_fmap] in Hnd. rewrite <- app_comm_cons, len_cons, len_app in Hlen.
    apply NoDup_cons in Hnd as [Hs Hnd]. rewrite fmap_app, elem_of_app in Hs. pose proof (len_nonneg (entries old)). destruct (probe_place_ok T s Hw) as (T1 & -> & Hw1 & E1); [lia|done|apply Hh; by left|tauto|].
    cbn [mbind res_bind]. fold (rehash (n - 1) old T1). destruct (IH T1 Hw1) as (T' & E' & Hw' & Hp').
    + intros x Hx. apply Hh. by right.
    + rewrite E1, <- Permutation_middle. cbn [fmap list_fmap]. constructor; [by rewrite fmap_app, elem_of_app|done].
    + rewrite E1, <- Permutation_middle, len_cons, len_app. lia.
    + exists T'. split; [done|]. split; [done|]. by rewrite Hp', E1, <- Permutation_middle.
  - cbn [mbind res_bind]. assert (entries (s :: old) = entries old) as E by (unfold entries; by rewrite filter_cons_False by (by rewrite Ho)). rewrite E in *. by apply IH.
Qed.

(** A table of free slots. *)
Lemma blank_table blank : occ blank = false → wfTable (replicate (Z.to_nat n) blank) ∧ entries (replicate (Z.to_nat n) blank) = [].
Proof using Hb.
  intros H0. pose proof width_pos as Hn. assert (∀ m, entries (replicate m blank) = []) as E.
  { induction m as [|m IH]; [done|]. cbn [replicate]. unfold entries in *. rewrite filter_cons_False by (by rewrite H0). done. }
  split; [|done]. split; [rewrite len_replicate; lia| |rewrite E; constructor]. intros p s _ [-> _]%lookup_replicate_1. by rewrite H0.
Qed.

(** The first slot of a key: a search for it, in a table that holds its hash's slots. *)
Lemma search_key T k h hit : wfTable T → len (entries T) < n → 0 ≤ h → (∀ s, s ∈ entries T → (hit s = true ↔ keyOf s = k) ∧ (keyOf s = k → home s = h)) →
  ∃ d, 0 ≤ d < n ∧
    ((∃ s, search hit T (n - 1) h = Ok (true, (h + d) `mod` n) ∧ T !! at_ (h + d) = Some s ∧ s ∈ entries T ∧ keyOf s = k) ∨
     (search hit T (n - 1) h = Ok (false, (h + d) `mod` n) ∧ k ∉ (keyOf <$> entries T) ∧ answers hit T h d false)).
Proof using Hb.
  intros Hw Hlt Hh Hkey. destruct (probe_search_ok hit T h (wt_len _ Hw) Hlt Hh) as (d & found & Hd & E & Ha). exists d. split; [done|]. destruct found.
  - left. destruct Ha as [_ (s & Hs & Ho & Hhit)]. exists s. assert (s ∈ entries T) as Hin by (apply list_elem_of_filter; split; [done|by eapply list_elem_of_lookup_2]).
    split; [done|]. split; [done|]. split; [done|]. by apply (Hkey s Hin), Hhit.
  - right. split; [done|]. split; [|done]. intros (s & Ek & Hin)%list_elem_of_fmap. destruct (Hkey s Hin) as [Hhit Hho]. symmetry in Ek. rewrite <- (Hho Ek) in Ha.
    by pose proof (stored_found T s d hit false Hw Ha Hd Hin (proj2 Hhit Ek)).
Qed.
End probing.
