(* ===== verification/FlatSet.v ===== *)
(** Flat sets and maps with integer keys: [src/flatset/flatset.go].

    A slice that is nil until the first insertion is an option. The recycler several
    sets share is passed along by the operations; every array it holds has been
    detached from its set. [create] and [visit] callbacks carry a state of their own. *)

From S2P Require Import Prelude ProbeTable.

(** The builtin [clear] of a slice. *)
Definition clear {A} (zero : A) (l : list A) : list A := (λ _, zero) <$> l.

(** ** Recycle *)

(** [byLog] is the array of 26 free lists; [held] the filed bytes. *)
Record Recycle := mkRecycle { byLog : list (list (list Z)); held : Z }.
Definition newRecycle : Recycle := mkRecycle (replicate 26 []) 0.

Definition HeldBytes (r : Recycle) : Z := held r.

Fixpoint logLoop (fuel : nat) (n lg : Z) : Z :=
  match fuel with
  | O => lg
  | S fuel => if decide (1 < n) then logLoop fuel (Z.shiftr n 1) (lg + 1) else lg
  end.
(** An [int] has at most 63 value bits. *)
Definition logOf (n : Z) : Z := let lg := logLoop 63 n 0 in if decide (26 ≤ lg) then 25 else lg.

Abbreviation rec_t := (option Recycle).

(** The array is cleared on reuse. *)
Definition Recycle_take (r : rec_t) (n : Z) : res (rec_t * option (list Z)) :=
  match r with
  | None => Ok (None, None)
  | Some r =>
      let lg := logOf n in
      free ← idx (byLog r) lg;
      if decide (len free = 0) then Ok (Some r, None)
      else
        a ← idx free (len free - 1);
        rest ← slice free 0 (len free - 1);
        byLog ← upd (byLog r) lg rest;
        Ok (Some (mkRecycle byLog (held r - 4 * len a)), Some (clear 0 a))
  end.

Definition Recycle_put (r : rec_t) (a : list Z) : res rec_t :=
  match r with
  | None => Ok None
  | Some r =>
      if decide (len a = 0) then Ok (Some r)
      else
        let lg := logOf (len a) in
        free ← idx (byLog r) lg;
        byLog ← upd (byLog r) lg (free ++ [a]);
        Ok (Some (mkRecycle byLog (held r + 4 * len a)))
  end.

(** ** RecycleBank *)

Record RecycleBank := mkBank { bfree : list Recycle; keep : Z; maxHeld : Z }.
Definition NewRecycleBank (keep maxHeld : Z) : RecycleBank := mkBank [] keep maxHeld.

Definition Checkout (b : RecycleBank) : res (Recycle * RecycleBank) :=
  let n := len (bfree b) in
  if decide (0 < n) then
    r ← idx (bfree b) (n - 1);
    rest ← slice (bfree b) 0 (n - 1);
    Ok (r, mkBank rest (keep b) (maxHeld b))
  else Ok (newRecycle, b).

Definition Checkin (b : RecycleBank) (r : rec_t) : RecycleBank :=
  match r with
  | None => b
  | Some r =>
      if decide (maxHeld b < held r) then b
      else if decide (len (bfree b) < keep b) then mkBank (bfree b ++ [r]) (keep b) (maxHeld b) else b
  end.

(** ** U32Set *)

(** Slots hold [id + 1]; zero is free. *)
Record U32Set := mkU32Set { slots : option (list Z); mask : Z; count : Z }.
Definition newU32Set : U32Set := mkU32Set None 0 0.

Definition u32Hash (id : Z) : Z := to_u32 (id * 2654435761).
Definition used (k : Z) : bool := bool_decide (k ≠ 0).
Definition u32Home (k : Z) : Z := u32Hash (to_u32 (k - 1)).

(** An array of [n] zeroed slots, recycled or new. *)
Definition makeSlots (rec : rec_t) (n : Z) : res (rec_t * list Z) :=
  '(rec, a) ← Recycle_take rec n;
  Ok (rec, match a with Some a => a | None => replicate (Z.to_nat n) 0 end).

Definition growU32 (rec : rec_t) (old : list Z) : res (rec_t * list Z * Z) :=
  '(rec, T) ← makeSlots rec (len old * 2);
  let mask := to_u32 (len T - 1) in
  T ← rehash used u32Home mask old T;
  rec ← Recycle_put rec old;
  Ok (rec, T, mask).

Definition AddU32 (rec : rec_t) (s : U32Set) (id : Z) : res (bool * rec_t * U32Set) :=
  '(rec, T, m) ← match slots s with
    | Some T => Ok (rec, T, mask s)
    | None => '(rec, T) ← makeSlots rec 16; Ok (rec, T, 15) end;
  '(rec, T, m) ← (if decide (len T * 3 ≤ count s * 4) then growU32 rec T else Ok (rec, T, m));
  let k := to_u32 (id + 1) in
  '(found, i) ← search used (λ x, bool_decide (x = k)) T m (u32Hash id);
  if found : bool then Ok (false, rec, mkU32Set (Some T) m (count s))
  else T ← upd T i k; Ok (true, rec, mkU32Set (Some T) m (count s + 1)).

Definition HasU32 (s : U32Set) (id : Z) : res bool :=
  match slots s with
  | None => Ok false
  | Some T =>
      let k := to_u32 (id + 1) in
      '(found, _) ← search used (λ x, bool_decide (x = k)) T (mask s) (u32Hash id);
      Ok found
  end.

Definition Release (rec : rec_t) (s : U32Set) : res (rec_t * U32Set) :=
  rec ← Recycle_put rec (default [] (slots s));
  Ok (rec, newU32Set).

Definition Presize (rec : rec_t) (s : U32Set) (n : Z) : res (rec_t * U32Set) :=
  if decide (is_Some (slots s) ∨ n ≤ 16) then Ok (rec, s)
  else '(rec, T) ← makeSlots rec n; Ok (rec, mkU32Set (Some T) (to_u32 (n - 1)) (count s)).

Definition LenU32 (s : U32Set) : Z := count s.
Definition ResetU32 (s : U32Set) : U32Set := mkU32Set (clear 0 <$> slots s) (mask s) 0.
Definition Built (s : U32Set) : bool := bool_decide (is_Some (slots s)).

(** ** U64Set *)

Definition u64Hash (key : Z) : Z := to_u32 (Z.shiftr (to_u64 (key * 11400714819323198485)) 32).

Record U64Set := mkU64Set { slots64 : option (list Z); mask64 : Z; count64 : Z }.
Definition newU64Set : U64Set := mkU64Set None 0 0.
Definition u64Home (k : Z) : Z := u64Hash (to_u64 (k - 1)).

Definition growU64 (old : list Z) : res (list Z * Z) :=
  let T := replicate (Z.to_nat (len old * 2)) 0 in
  let mask := to_u32 (len T - 1) in
  T ← rehash used u64Home mask old T;
  Ok (T, mask).

Definition AddU64 (s : U64Set) (key : Z) : res (bool * U64Set) :=
  let '(T, m) := match slots64 s with Some T => (T, mask64 s) | None => (replicate 16 0, 15) end in
  '(T, m) ← (if decide (len T * 3 ≤ count64 s * 4) then growU64 T else Ok (T, m));
  let k := to_u64 (key + 1) in
  '(found, i) ← search used (λ x, bool_decide (x = k)) T m (u64Hash key);
  if found : bool then Ok (false, mkU64Set (Some T) m (count64 s))
  else T ← upd T i k; Ok (true, mkU64Set (Some T) m (count64 s + 1)).

Definition HasU64 (s : U64Set) (key : Z) : res bool :=
  match slots64 s with
  | None => Ok false
  | Some T =>
      let k := to_u64 (key + 1) in
      '(found, _) ← search used (λ x, bool_decide (x = k)) T (mask64 s) (u64Hash key);
      Ok found
  end.

Definition LenU64 (s : U64Set) : Z := count64 s.
Definition ResetU64 (s : U64Set) : U64Set := mkU64Set (clear 0 <$> slots64 s) (mask64 s) 0.

(** ** U64Map *)

Record u64Slot := mkSlot { skey : Z; sval : Z; sused : bool }.
Definition freeSlot : u64Slot := mkSlot 0 0 false.
Record U64Map := mkU64Map { mslots : option (list u64Slot); mmask : Z; mcount : Z }.
Definition newU64Map : U64Map := mkU64Map None 0 0.
Definition slotHome (s : u64Slot) : Z := u64Hash (skey s).

Definition growMap (old : list u64Slot) : res (list u64Slot * Z) :=
  let T := replicate (Z.to_nat (len old * 2)) freeSlot in
  let mask := to_u32 (len T - 1) in
  T ← rehash sused slotHome mask old T;
  Ok (T, mask).

(** The table ready for one more key. *)
Definition readyMap (m : U64Map) : res (list u64Slot * Z) :=
  let '(T, mk) := match mslots m with Some T => (T, mmask m) | None => (replicate 16 freeSlot, 15) end in
  if decide (len T * 3 ≤ mcount m * 4) then growMap T else Ok (T, mk).

Definition hasKey (key : Z) (s : u64Slot) : bool := bool_decide (skey s = key).

(** [create] runs on its own state, only for a new key; the table keeps 32 bits. *)
Definition GetOrCreate {A} (m : U64Map) (key : Z) (create : A → Z * A) (st : A) : res (Z * U64Map * A) :=
  '(T, mk) ← readyMap m;
  '(found, i) ← search sused (hasKey key) T mk (u64Hash key);
  if found : bool then s ← idx T i; Ok (sval s, mkU64Map (Some T) mk (mcount m), st)
  else
    let '(v, st) := create st in
    T ← upd T i (mkSlot key (to_i32 v) true);
    Ok (v, mkU64Map (Some T) mk (mcount m + 1), st).

Definition GetMap (m : U64Map) (key : Z) : res (option Z) :=
  match mslots m with
  | None => Ok None
  | Some T =>
      '(found, i) ← search sused (hasKey key) T (mmask m) (u64Hash key);
      if found : bool then s ← idx T i; Ok (Some (sval s)) else Ok None
  end.

Definition ForEach {A} (m : U64Map) (visit : Z → Z → A → A) (st : A) : A :=
  foldl (λ st s, if sused s then visit (skey s) (sval s) st else st) st (default [] (mslots m)).

Definition LenMap (m : U64Map) : Z := mcount m.
Definition ResetMap (m : U64Map) : U64Map := mkU64Map (clear freeSlot <$> mslots m) (mmask m) 0.

Definition Inc (m : U64Map) (key : Z) : res U64Map :=
  '(T, mk) ← readyMap m;
  '(found, i) ← search sused (hasKey key) T mk (u64Hash key);
  if found : bool then
    s ← idx T i;
    T ← upd T i (mkSlot (skey s) (to_i32 (sval s + 1)) (sused s));
    Ok (mkU64Map (Some T) mk (mcount m))
  else T ← upd T i (mkSlot key 1 true); Ok (mkU64Map (Some T) mk (mcount m + 1)).

Definition AtMap (m : U64Map) (key : Z) : res Z := o ← GetMap m key; Ok (default 0 o).

(** Growth past twelve keys, and a recycled array handed to the next set. *)
Definition addAll (ids : list Z) (st : rec_t * U32Set) : res (rec_t * U32Set) :=
  foldM (λ st id, '(_, rec, s) ← AddU32 st.1 st.2 id; Ok (rec, s)) ids st.
Example U32Set_grows : (st ← addAll (zseq 20) (Some newRecycle, newU32Set);
  b ← HasU32 st.2 19; c ← HasU32 st.2 20; Ok (b, c, LenU32 st.2, option_map len (slots st.2), option_map HeldBytes st.1)) = Ok (true, false, 20, Some 32, Some 64).
Proof. by vm_compute. Qed.
Example U32Set_recycles : (st ← addAll (zseq 20) (Some newRecycle, newU32Set);
  st ← addAll (zseq 3) (st.1, newU32Set); b ← HasU32 st.2 7; Ok (b, LenU32 st.2, option_map HeldBytes st.1)) = Ok (false, 3, Some 0).
Proof. by vm_compute. Qed.
