(* ===== verification/FlatSetSpec.v ===== *)
(** The flat integer sets behave as sets: [src/flatset/flatset.go] against finite sets.

    The two integer sets share their table theory. Any number of [U32Set]s that share
    a recycler are independent sets; the recycler never hands out stale contents. *)

From S2P Require Import Prelude ProbeTable FlatSet.

(** ** Tables of ids *)

Section ids.
Context (w : Z) (hashOf : Z → Z) (b : Z).
Hypothesis Hw : 0 < w.
Hypothesis Hhash : ∀ id, 0 ≤ hashOf id.
Hypothesis Hb : 0 ≤ b ≤ 32.

Abbreviation homeOf := (λ k, hashOf (wrapU w (k - 1))).
Abbreviation idOf := (λ k : Z, k - 1).
Abbreviation keys T := (entries used T).
Definition idsOf (T : list Z) : gset Z := list_to_set (idOf <$> keys T).

(** The table holds exactly the ids of [X], shifted by one. *)
Record idTable (T : list Z) (X : gset Z) : Prop := {
  it_table : wfTable used homeOf idOf b T;
  it_range : ∀ k, k ∈ keys T → 0 < k < 2 ^ w;
  it_ids : idsOf T = X;
}.

Lemma used_false : used 0 = false.
Proof using Type. done. Qed.

Lemma elem_of_idsOf T id : id ∈ idsOf T ↔ id ∈ (idOf <$> keys T).
Proof using Type. unfold idsOf. by rewrite elem_of_list_to_set. Qed.

Lemma idTable_size T X : idTable T X → Z.of_nat (size X) = len (keys T).
Proof using Type.
  intros [Ht _ <-]. unfold idsOf. rewrite size_list_to_set by apply Ht. unfold len. by rewrite length_fmap.
Qed.

Lemma idTable_blank : idTable (replicate (Z.to_nat (2 ^ b)) 0) ∅.
Proof using Hb.
  destruct (blank_table used homeOf idOf b Hb 0 used_false) as [Ht E]. split; [done| |].
  - rewrite E. by intros k ?%not_elem_of_nil.
  - unfold idsOf. by rewrite E.
Qed.

(** A new key joins. *)
Lemma idTable_insert T X T' k : idTable T X → wfTable used homeOf idOf b T' → keys T' ≡ₚ k :: keys T → 0 < k < 2 ^ w → idTable T' ({[k - 1]} ∪ X).
Proof using Type.
  intros [Ht Hr <-] Ht' E Hk. split; [done| |].
  - intros x. rewrite E, elem_of_cons. intros [->|Hx]; [done|by apply Hr].
  - apply set_eq. intros x. rewrite elem_of_union, elem_of_singleton, !elem_of_idsOf, E. cbn [fmap list_fmap]. by rewrite elem_of_cons.
Qed.

(** Searching an id: a hit exactly when it is there, else the place to put it. *)
Lemma idTable_search T X id : idTable T X → Z.of_nat (size X) < 2 ^ b → 0 ≤ id < 2 ^ w - 1 →
  let k := wrapU w (id + 1) in
  ∃ i, search used (λ x, bool_decide (x = k)) T (2 ^ b - 1) (hashOf id) = Ok (bool_decide (id ∈ X), i) ∧
    (id ∉ X → ∃ T', upd T i k = Ok T' ∧ idTable T' ({[id]} ∪ X)).
Proof using Hw Hhash Hb.
  intros HT Hlt Hid k. assert (k = id + 1) as Ek by (apply wrapU_small; lia). pose proof (width_pos b Hb) as Hn. rewrite (idTable_size _ _ HT) in Hlt.
  pose proof HT as [Ht Hr HX]. assert (∀ x, x ∈ keys T → (bool_decide (x = k) = true ↔ idOf x = id) ∧ (idOf x = id → homeOf x = hashOf id)) as Hkey.
  { intros x Hx. rewrite bool_decide_eq_true. split; [lia|]. intros <-. f_equal. apply wrapU_small. apply Hr in Hx. lia. }
  destruct (search_key used homeOf idOf b Hb T id (hashOf id) _ Ht Hlt (Hhash id) Hkey) as (d & Hd & [(x & E & _ & Hx & Exid)|(E & Hnew & Ha)]); rewrite E.
  - exists ((hashOf id + d) `mod` 2 ^ b). assert (id ∈ X) as Hin by (rewrite <- HX, elem_of_idsOf; apply list_elem_of_fmap; by exists x). rewrite bool_decide_true by done. split; [done|]. by intros [].
  - exists ((hashOf id + d) `mod` 2 ^ b). assert (id ∉ X) as Hout by (by rewrite <- HX, elem_of_idsOf). rewrite bool_decide_false by done. split; [done|]. intros _.
    assert (homeOf k = hashOf id) as Eh by (f_equal; rewrite Ek, wrapU_small; lia). rewrite <- Eh in Ha.
    destruct (wfTable_insert used homeOf idOf b Hb T k d _ Ht Hd Ha) as [Ht' Ep]; [apply bool_decide_eq_true; lia|by replace (idOf k) with id by lia|].
    rewrite Eh in *. unfold upd. rewrite (wt_len _ _ _ _ _ Ht), decide_True by (by apply Z.mod_pos_bound). eexists. split; [done|].
    replace id with (k - 1) at 2 by lia. eapply idTable_insert; [done|done|done|lia].
Qed.
End ids.

(** Moving a table into another one. *)
Lemma idTable_rehash w hashOf b b' T X : (∀ id, 0 ≤ hashOf id) → 0 ≤ b' ≤ 32 → idTable w hashOf b T X → Z.of_nat (size X) ≤ 2 ^ b' →
  ∃ T', rehash used (λ k, hashOf (wrapU w (k - 1))) (2 ^ b' - 1) T (replicate (Z.to_nat (2 ^ b')) 0) = Ok T' ∧ idTable w hashOf b' T' X.
Proof.
  intros Hh Hb' HT Hs. rewrite (idTable_size _ _ _ _ _ HT) in Hs. destruct HT as [Ht Hr HX]. set (home := λ k, hashOf (wrapU w (k - 1))) in *.
  destruct (blank_table used home (λ k, k - 1) b' Hb' 0 used_false) as [H0 E0].
  destruct (rehash_ok used home (λ k, k - 1) b' Hb' T _ H0) as (T' & E & Ht' & Hp).
  - intros k _. apply Hh.
  - rewrite E0, app_nil_r. apply Ht.
  - by rewrite E0, app_nil_r.
  - rewrite E0, app_nil_r in Hp. exists T'. split; [done|]. split; [done| |].
    + intros k. rewrite Hp. apply Hr.
    + rewrite <- HX. apply set_eq. intros x. by rewrite !elem_of_idsOf, Hp.
Qed.

(** ** The recycler *)

Lemma logLoop_pow fuel : ∀ b lg, 0 ≤ b ≤ Z.of_nat fuel → logLoop fuel (2 ^ b) lg = lg + b.
Proof.
  induction fuel as [|fuel IH]; intros b lg Hb; [by replace b with 0 by lia; cbn; lia|]. cbn [logLoop]. destruct (decide (b = 0)) as [->|Hne].
  - rewrite decide_False by (cbn; lia). lia.
  - rewrite decide_True by (apply (Z.pow_lt_mono_r 2 0 b); lia). rewrite Z.shiftr_div_pow2 by lia. replace (2 ^ b / 2 ^ 1) with (2 ^ (b - 1)).
    + rewrite IH by lia. lia.
    + apply (Z.div_unique _ _ _ 0); [lia|]. rewrite Z.add_0_r, <- Z.pow_add_r by lia. f_equal. lia.
Qed.

Lemma logOf_pow b : 0 ≤ b ≤ 25 → logOf (2 ^ b) = b.
Proof. intros Hb. unfold logOf. rewrite logLoop_pow by lia. rewrite decide_False by lia. lia. Qed.

(** Filed bytes. *)
Definition classBytes (free : list (list Z)) : Z := foldr (λ a n, 4 * len a + n) 0 free.
Definition filedBytes (l : list (list (list Z))) : Z := foldr (λ free n, classBytes free + n) 0 l.

Lemma classBytes_app l k : classBytes (l ++ k) = classBytes l + classBytes k.
Proof. unfold classBytes. induction l as [|a l IH]; cbn [app foldr]; [lia|]. rewrite IH. lia. Qed.

Lemma filedBytes_insert l i free free' : l !! i = Some free → filedBytes (<[i := free']> l) = filedBytes l - classBytes free + classBytes free'.
Proof.
  revert i. induction l as [|x l IH]; intros [|i] Hi; simplify_eq/=; [lia|]. fold (filedBytes (<[i := free']> l)) (filedBytes l). rewrite (IH i) by done. lia.
Qed.

(** Every class holds arrays of its size, and [held] is what is filed. *)
Record wfRecycle (r : Recycle) : Prop := {
  wr_classes : length (byLog r) = 26%nat;
  wr_sizes : ∀ lg free a, byLog r !! lg = Some free → a ∈ free → len a = 2 ^ Z.of_nat lg;
  wr_held : held r = filedBytes (byLog r);
}.
Definition recOK (rec : rec_t) : Prop := match rec with Some r => wfRecycle r | None => True end.

(** The largest table's exponent: the size classes end at 2^25. *)
Definition lim (rec : rec_t) : Z := match rec with Some _ => 25 | None => 32 end.

Lemma newRecycle_wf : wfRecycle newRecycle.
Proof.
  split; [done| |done]. intros lg free a Hl Ha. apply lookup_replicate_1 in Hl as [-> _]. by apply not_elem_of_nil in Ha.
Qed.

Lemma byLog_class r lg : wfRecycle r → 0 ≤ lg ≤ 25 → ∃ free, byLog r !! Z.to_nat lg = Some free ∧ idx (byLog r) lg = Ok free.
Proof.
  intros Hr Hlg. destruct (idx_ok (byLog r) lg) as (free & E & Hl); [unfold len; rewrite (wr_classes _ Hr); lia|]. by exists free.
Qed.

Lemma wfRecycle_class r lg free free' h : wfRecycle r → 0 ≤ lg ≤ 25 → byLog r !! Z.to_nat lg = Some free → (∀ a, a ∈ free' → len a = 2 ^ lg) →
  h = held r - classBytes free + classBytes free' →
  upd (byLog r) lg free' = Ok (<[Z.to_nat lg := free']> (byLog r)) ∧ wfRecycle (mkRecycle (<[Z.to_nat lg := free']> (byLog r)) h).
Proof.
  intros Hr Hlg Hl Hf ->. split; [unfold upd, len; rewrite (wr_classes _ Hr), decide_True by lia; done|]. split; cbn.
  - by rewrite length_insert, (wr_classes _ Hr).
  - intros lg' free0 a [(E & <- & _)|[_ Hl']]%list_lookup_insert_Some Ha; [rewrite (Hf a Ha); f_equal; lia|by eapply wr_sizes].
  - by rewrite (filedBytes_insert _ _ free), (wr_held _ Hr).
Qed.

Lemma clear_zeros l : clear 0 l = replicate (length l) 0.
Proof. unfold clear. induction l as [|x l IH]; [done|]. cbn [fmap list_fmap length replicate]. by f_equal. Qed.

(** A table comes zeroed and of the size asked for. *)
Lemma makeSlots_ok rec b : recOK rec → 0 ≤ b ≤ lim rec → ∃ rec', makeSlots rec (2 ^ b) = Ok (rec', replicate (Z.to_nat (2 ^ b)) 0) ∧ recOK rec' ∧ lim rec' = lim rec.
Proof.
  intros Hr Hb. unfold makeSlots, Recycle_take. destruct rec as [r|]; cbn [lim recOK] in *; [|by exists None]. rewrite logOf_pow by lia.
  destruct (byLog_class r b Hr Hb) as (free & Hl & ->). cbn [mbind res_bind]. case_decide as E0; [by exists (Some r)|].
  destruct free as [|a free] using rev_ind; [done|clear IHfree E0]. assert (len (free ++ [a]) - 1 = len free) as -> by (rewrite len_app, len_cons, len_nil; lia).
  rewrite idx_app_mid. cbn [mbind res_bind]. rewrite slice_prefix. cbn [mbind res_bind]. pose proof (wr_sizes _ Hr _ _ a Hl ltac:(apply elem_of_app; right; by left)) as Ha.
  rewrite Z2Nat.id in Ha by lia. destruct (wfRecycle_class r b _ free (held r - 4 * len a) Hr Hb Hl) as [-> Hw].
  - intros x Hx. rewrite (wr_sizes _ Hr _ _ x Hl) by (apply elem_of_app; by left). f_equal. lia.
  - rewrite classBytes_app. cbn. lia.
  - cbn [mbind res_bind]. exists (Some (mkRecycle (<[Z.to_nat b := free]> (byLog r)) (held r - 4 * len a))). split; [|by split]. rewrite clear_zeros. unfold len in Ha. by replace (Z.to_nat (2 ^ b)) with (length a) by lia.
Qed.

Lemma Recycle_put_ok rec a b : recOK rec → 0 ≤ b ≤ lim rec → len a = 2 ^ b → ∃ rec', Recycle_put rec a = Ok rec' ∧ recOK rec' ∧ lim rec' = lim rec.
Proof.
  intros Hr Hb Ha. unfold Recycle_put. destruct rec as [r|]; cbn [lim recOK] in *; [|by exists None]. pose proof (width_pos b ltac:(lia)). rewrite decide_False by lia. rewrite Ha, logOf_pow by lia.
  destruct (byLog_class r b Hr Hb) as (free & Hl & ->). cbn [mbind res_bind].
  destruct (wfRecycle_class r b free (free ++ [a]) (held r + 4 * 2 ^ b) Hr Hb Hl) as [-> Hw].
  - intros x [Hx| ->%list_elem_of_singleton]%elem_of_app; [|done]. rewrite (wr_sizes _ Hr _ _ x Hl Hx). f_equal. lia.
  - rewrite classBytes_app. cbn. lia.
  - cbn [mbind res_bind]. eexists (Some _). by split_and!.
Qed.

(** ** U32Set *)

Lemma u32Hash_nonneg id : 0 ≤ u32Hash id.
Proof. apply wrapU_range. lia. Qed.

(** The set holds [X] in a table of at most [2 ^ L] slots, at most three quarters full. *)
Definition holdsU32 (L : Z) (s : U32Set) (X : gset Z) : Prop :=
  match slots s with
  | None => X = ∅ ∧ count s = 0
  | Some T => ∃ b, 4 ≤ b ≤ L ∧ mask s = 2 ^ b - 1 ∧ idTable 32 u32Hash b T X ∧ count s = Z.of_nat (size X) ∧ count s * 4 ≤ 2 ^ b * 3
  end.

Lemma growU32_ok rec b T X : recOK rec → 0 ≤ b → b + 1 ≤ lim rec → idTable 32 u32Hash b T X → Z.of_nat (size X) ≤ 2 ^ b →
  ∃ rec' T', growU32 rec T = Ok (rec', T', 2 ^ (b + 1) - 1) ∧ recOK rec' ∧ lim rec' = lim rec ∧ idTable 32 u32Hash (b + 1) T' X.
Proof.
  intros Hr Hb Hl HT Hs. assert (lim rec ≤ 32) by (destruct rec; cbn; lia). unfold growU32. rewrite (wt_len _ _ _ _ _ (it_table _ _ _ _ _ HT)).
  assert (2 ^ b * 2 = 2 ^ (b + 1)) as E2 by (by rewrite Z.pow_add_r, Z.pow_1_r by lia). rewrite E2.
  destruct (makeSlots_ok rec (b + 1) Hr ltac:(lia)) as (rec1 & -> & Hr1 & Hl1). cbn [mbind res_bind]. rewrite len_replicate.
  pose proof (width_pos (b + 1) ltac:(lia)) as Hp. rewrite Z2Nat.id by lia. assert (2 ^ (b + 1) ≤ 2 ^ 32) by (apply Z.pow_le_mono_r; lia). rewrite wrapU_small by lia.
  destruct (idTable_rehash 32 u32Hash b (b + 1) T X u32Hash_nonneg ltac:(lia) HT ltac:(lia)) as (T' & E & HT'). unfold u32Home. rewrite E. cbn [mbind res_bind].
  destruct (Recycle_put_ok rec1 T b Hr1 ltac:(lia) (wt_len _ _ _ _ _ (it_table _ _ _ _ _ HT))) as (rec2 & -> & Hr2 & Hl2). cbn [mbind res_bind].
  exists rec2, T'. split; [done|]. split; [done|]. split; [congruence|done].
Qed.

(** Room for one more key, after growing or without. *)
Lemma room_left b c : 4 ≤ b → ¬ 2 ^ b * 3 ≤ c * 4 → (c + 1) * 4 ≤ 2 ^ b * 3.
Proof.
  intros Hb. replace (2 ^ b) with (4 * 2 ^ (b - 2)); [lia|]. change 4 with (2 ^ 2) at 1. rewrite <- Z.pow_add_r by lia. f_equal. lia.
Qed.
Lemma room_grown b c : 4 ≤ b → c * 4 ≤ 2 ^ b * 3 → (c + 1) * 4 ≤ 2 ^ (b + 1) * 3.
Proof. intros Hb Hc. rewrite Z.pow_add_r by lia. pose proof (Z.pow_le_mono_r 2 4 b). lia. Qed.

Lemma grow_below b L c : 0 ≤ b → 0 ≤ L → 2 ^ b * 3 ≤ c * 4 → 4 * c < 3 * 2 ^ L → b + 1 ≤ L.
Proof. intros Hb HL H1 H2. assert (b < L); [|lia]. apply (Z.pow_lt_mono_r_iff 2); lia. Qed.

Lemma AddU32_ok rec s X id : recOK rec → holdsU32 (lim rec) s X → 0 ≤ id < 2 ^ 32 - 1 → 4 * Z.of_nat (size X) < 3 * 2 ^ lim rec →
  ∃ rec' s', AddU32 rec s id = Ok (bool_decide (id ∉ X), rec', s') ∧ recOK rec' ∧ lim rec' = lim rec ∧ holdsU32 (lim rec) s' ({[id]} ∪ X).
Proof.
  intros Hr Hs Hid Hfit. assert (25 ≤ lim rec ≤ 32) as HL by (destruct rec; cbn; lia). unfold AddU32.
  assert (∃ rec1 T b, match slots s with Some T => Ok (rec, T, mask s) | None => '(rec, T) ← makeSlots rec 16; Ok (rec, T, 15) end = Ok (rec1, T, 2 ^ b - 1) ∧
    recOK rec1 ∧ lim rec1 = lim rec ∧ 4 ≤ b ≤ lim rec ∧ idTable 32 u32Hash b T X ∧ count s = Z.of_nat (size X) ∧ count s * 4 ≤ 2 ^ b * 3) as (rec1 & T & b & -> & Hr1 & Hl1 & Hb & HT & Hc & Hload).
  { unfold holdsU32 in Hs. destruct (slots s) as [T|].
    - destruct Hs as (b & Hb & -> & HT & Hc & Hload). by exists rec, T, b.
    - destruct Hs as [-> Hc]. destruct (makeSlots_ok rec 4 Hr ltac:(lia)) as (rec1 & E & Hr1 & Hl1). change (2 ^ 4) with 16 in E. rewrite E. cbn [mbind res_bind].
      exists rec1, (replicate (Z.to_nat (2 ^ 4)) 0), 4. split; [done|]. split; [done|]. split; [done|]. split; [lia|]. split; [apply idTable_blank; lia|]. rewrite Hc. by split. }
  cbn [mbind res_bind]. rewrite (wt_len _ _ _ _ _ (it_table _ _ _ _ _ HT)). rewrite <- Hc in Hfit.
  assert (∃ rec2 T' b', (if decide (2 ^ b * 3 ≤ count s * 4) then growU32 rec1 T else Ok (rec1, T, 2 ^ b - 1)) = Ok (rec2, T', 2 ^ b' - 1) ∧
    recOK rec2 ∧ lim rec2 = lim rec ∧ 4 ≤ b' ≤ lim rec ∧ idTable 32 u32Hash b' T' X ∧ (count s + 1) * 4 ≤ 2 ^ b' * 3) as (rec2 & T' & b' & -> & Hr2 & Hl2 & Hb' & HT' & Hroom).
  { case_decide as Hg; [|exists rec1, T, b; split; [done|]; do 4 (split; [done|]); apply room_left; [lia|done]].
    pose proof (grow_below b (lim rec) (count s) ltac:(lia) ltac:(lia) Hg Hfit). pose proof (width_pos b ltac:(lia)).
    destruct (growU32_ok rec1 b T X Hr1 ltac:(lia) ltac:(lia) HT ltac:(lia)) as (rec2 & T' & -> & Hr2 & Hl2 & HT'). exists rec2, T', (b + 1).
    split; [done|]. split; [done|]. split; [congruence|]. split; [lia|]. split; [done|]. apply room_grown; [lia|done]. }
  cbn [mbind res_bind]. destruct (idTable_search 32 u32Hash b' ltac:(lia) u32Hash_nonneg ltac:(lia) T' X id HT' ltac:(lia) Hid) as (i & -> & Hnew). cbn [mbind res_bind].
  destruct (decide (id ∈ X)) as [Hin|Hout].
  - rewrite bool_decide_true, bool_decide_false by (auto; tauto). eexists _, _. split; [done|]. split; [done|]. split; [done|]. cbn. exists b'.
    replace ({[id]} ∪ X) with X by set_solver. split; [done|]. split; [done|]. split; [done|]. lia.
  - rewrite bool_decide_false, bool_decide_true by done. destruct (Hnew Hout) as (T2 & -> & HT2). cbn [mbind res_bind]. eexists _, _. split; [done|]. split; [done|]. split; [done|].
    cbn. exists b'. split; [done|]. split; [done|]. split; [done|]. rewrite size_union by set_solver. rewrite size_singleton. lia.
Qed.

Lemma HasU32_ok L s X id : holdsU32 L s X → L ≤ 32 → 0 ≤ id < 2 ^ 32 - 1 → HasU32 s id = Ok (bool_decide (id ∈ X)).
Proof.
  intros Hs HL Hid. unfold HasU32, holdsU32 in *. destruct (slots s) as [T|]; [|by destruct Hs as [-> _]]. destruct Hs as (b & Hb & -> & HT & Hc & Hload). pose proof (width_pos b ltac:(lia)).
  by destruct (idTable_search 32 u32Hash b ltac:(lia) u32Hash_nonneg ltac:(lia) T X id HT ltac:(lia) Hid) as (i & -> & _).
Qed.

Lemma LenU32_ok L s X : holdsU32 L s X → LenU32 s = Z.of_nat (size X).
Proof. unfold holdsU32, LenU32. destruct (slots s); [by intros (b & _ & _ & _ & ? & _)|by intros [-> ->]]. Qed.

Lemma ResetU32_ok L s X : holdsU32 L s X → L ≤ 32 → holdsU32 L (ResetU32 s) ∅.
Proof.
  unfold holdsU32, ResetU32. cbn. destruct (slots s) as [T|]; cbn; [|done]. intros (b & Hb & Hm & HT & _ & _) HL. exists b. split; [done|]. split; [done|].
  pose proof (wt_len _ _ _ _ _ (it_table _ _ _ _ _ HT)) as Hl. unfold len in Hl. pose proof (width_pos b ltac:(lia)). split; [|split; [done|lia]].
  rewrite clear_zeros. replace (length T) with (Z.to_nat (2 ^ b)) by lia. apply idTable_blank. lia.
Qed.

Lemma Release_ok rec s X : recOK rec → holdsU32 (lim rec) s X → ∃ rec' s', Release rec s = Ok (rec', s') ∧ recOK rec' ∧ lim rec' = lim rec ∧ holdsU32 (lim rec) s' ∅.
Proof.
  intros Hr Hs. unfold Release, holdsU32 in *. destruct (slots s) as [T|]; cbn [default from_option id].
  - destruct Hs as (b & Hb & _ & HT & _). destruct (Recycle_put_ok rec T b Hr ltac:(lia) (wt_len _ _ _ _ _ (it_table _ _ _ _ _ HT))) as (rec' & -> & Hr' & Hl'). by eexists _, _.
  - exists rec, newU32Set. destruct rec; by cbn.
Qed.

Lemma Presize_ok rec s X c : recOK rec → holdsU32 (lim rec) s X → 0 ≤ c ≤ lim rec → ∃ rec' s', Presize rec s (2 ^ c) = Ok (rec', s') ∧ recOK rec' ∧ lim rec' = lim rec ∧ holdsU32 (lim rec) s' X.
Proof.
  intros Hr Hs Hc. assert (lim rec ≤ 32) by (destruct rec; cbn; lia). unfold Presize. case_decide as D; [by eexists _, _|]. destruct (makeSlots_ok rec c Hr Hc) as (rec' & -> & Hr' & Hl'). cbn [mbind res_bind].
  unfold holdsU32 in Hs. destruct (slots s) as [T|]; [exfalso; apply D; left; by eexists|]. destruct Hs as [-> H0].
  assert (4 < c) as Hc4 by (apply (Z.pow_lt_mono_r_iff 2); lia). pose proof (Z.pow_le_mono_r 2 c 32). pose proof (width_pos c ltac:(lia)). eexists _, _. split; [done|]. split; [done|]. split; [done|].
  cbn. exists c. split; [lia|]. split; [apply wrapU_small; lia|]. split; [apply idTable_blank; lia|]. rewrite H0. split; [done|lia].
Qed.

(** ** Many sets on one recycler *)

Inductive setOp := OAdd (id : Z) | OHas (id : Z) | OLen | OReset | ORelease | OPresize (c : Z).
Inductive setOut := OutBool (b : bool) | OutLen (n : Z) | OutDone.

Definition setStep (rec : rec_t) (s : U32Set) (op : setOp) : res (setOut * rec_t * U32Set) :=
  match op with
  | OAdd id => '(b, rec, s) ← AddU32 rec s id; Ok (OutBool b, rec, s)
  | OHas id => b ← HasU32 s id; Ok (OutBool b, rec, s)
  | OLen => Ok (OutLen (LenU32 s), rec, s)
  | OReset => Ok (OutDone, rec, ResetU32 s)
  | ORelease => '(rec, s) ← Release rec s; Ok (OutDone, rec, s)
  | OPresize c => '(rec, s) ← Presize rec s (2 ^ c); Ok (OutDone, rec, s)
  end.

(** Operations on sets by number, one after the other. *)
Fixpoint runSets (rec : rec_t) (sets : list U32Set) (tr : list (nat * setOp)) : res (list setOut * rec_t * list U32Set) :=
  match tr with
  | [] => Ok ([], rec, sets)
  | (i, op) :: tr =>
      s ← idx sets (Z.of_nat i);
      '(o, rec, s) ← setStep rec s op;
      '(os, rec, sets) ← runSets rec (<[i := s]> sets) tr;
      Ok (o :: os, rec, sets)
  end.

(** The same on mathematical sets. *)
Definition specStep (X : gset Z) (op : setOp) : setOut * gset Z :=
  match op with
  | OAdd id => (OutBool (bool_decide (id ∉ X)), {[id]} ∪ X)
  | OHas id => (OutBool (bool_decide (id ∈ X)), X)
  | OLen => (OutLen (Z.of_nat (size X)), X)
  | OReset | ORelease => (OutDone, ∅)
  | OPresize _ => (OutDone, X)
  end.
Fixpoint specRun (Xs : list (gset Z)) (tr : list (nat * setOp)) : list setOut :=
  match tr with
  | [] => []
  | (i, op) :: tr => let '(o, X) := specStep (Xs !!! i) op in o :: specRun (<[i := X]> Xs) tr
  end.

(** Ids leave room for the shift by one, and no set outgrows [2 ^ L] slots. *)
Definition fitsOp (L : Z) (X : gset Z) (op : setOp) : Prop :=
  match op with
  | OAdd id => 0 ≤ id < 2 ^ 32 - 1 ∧ 4 * Z.of_nat (size X) < 3 * 2 ^ L
  | OHas id => 0 ≤ id < 2 ^ 32 - 1
  | OPresize c => 0 ≤ c ≤ L
  | _ => True
  end.
Fixpoint fits (L : Z) (Xs : list (gset Z)) (tr : list (nat * setOp)) : Prop :=
  match tr with
  | [] => True
  | (i, op) :: tr => (i < length Xs)%nat ∧ fitsOp L (Xs !!! i) op ∧ fits L (<[i := (specStep (Xs !!! i) op).2]> Xs) tr
  end.

#[export] Instance fitsOp_dec L X op : Decision (fitsOp L X op).
Proof. destruct op; apply _. Defined.
#[export] Instance fits_dec L tr : ∀ Xs, Decision (fits L Xs tr).
Proof. induction tr as [|[i op] tr IH]; intros Xs; cbn; apply _. Defined.

Lemma setStep_ok rec s X op : recOK rec → holdsU32 (lim rec) s X → fitsOp (lim rec) X op →
  ∃ rec' s', setStep rec s op = Ok ((specStep X op).1, rec', s') ∧ recOK rec' ∧ lim rec' = lim rec ∧ holdsU32 (lim rec) s' (specStep X op).2.
Proof.
  intros Hr Hs Hf. assert (lim rec ≤ 32) by (destruct rec; cbn; lia). destruct op as [id|id| | | |c]; cbn [setStep specStep fst snd fitsOp] in *.
  - destruct (AddU32_ok rec s X id) as (rec' & s' & -> & H'); [done|done|apply Hf..|]. by exists rec', s'.
  - rewrite (HasU32_ok (lim rec) s X) by done. by exists rec, s.
  - rewrite (LenU32_ok (lim rec) s X) by done. by exists rec, s.
  - exists rec, (ResetU32 s). do 3 (split; [done|]). by eapply ResetU32_ok.
  - destruct (Release_ok rec s X) as (rec' & s' & -> & H'); [done..|]. by exists rec', s'.
  - destruct (Presize_ok rec s X c) as (rec' & s' & -> & H'); [done..|]. by exists rec', s'.
Qed.

Lemma runSets_ok tr : ∀ rec sets Xs, recOK rec → Forall2 (holdsU32 (lim rec)) sets Xs → fits (lim rec) Xs tr →
  ∃ rec' sets', runSets rec sets tr = Ok (specRun Xs tr, rec', sets') ∧ recOK rec' ∧ lim rec' = lim rec.
Proof.
  induction tr as [|[i op] tr IH]; intros rec sets Xs Hr Hs Hf; [by exists rec, sets|]. cbn [runSets specRun fits] in *. destruct Hf as (Hi & Ho & Hf).
  destruct (lookup_lt_is_Some_2 Xs i Hi) as [X HX]. destruct (Forall2_lookup_r _ _ _ _ _ Hs HX) as (s & Hsi & Hh). rewrite (list_lookup_total_correct _ _ _ HX) in *.
  rewrite (idx_lookup sets (Z.of_nat i) s) by (try lia; by rewrite Nat2Z.id). cbn [mbind res_bind].
  destruct (setStep_ok rec s X op Hr Hh Ho) as (rec1 & s1 & -> & Hr1 & Hl1 & Hh1). destruct (specStep X op) as [o X1]. cbn [mbind res_bind fst snd] in *.
  destruct (IH rec1 (<[i := s1]> sets) (<[i := X1]> Xs) Hr1) as (rec2 & sets2 & -> & Hr2 & Hl2).
  - rewrite Hl1. by apply Forall2_insert.
  - by rewrite Hl1.
  - cbn [mbind res_bind]. exists rec2, sets2. split; [done|]. split; [done|congruence].
Qed.

(** C12: Flat sets are sets. Any number of [U32Set]s, on their own or sharing one
    recycler, driven by any interleaving of Add, Has, Len, Reset, Release and Presize
    on ids below 2^32-1, answer exactly as that many independent mathematical sets,
    without panic and with every probe ending, as long as no set outgrows 2^32 slots,
    2^25 when arrays are recycled; the recycler's books stay balanced: [HeldBytes] is
    the size of what it holds. *)
Theorem flat_sets_are_sets n rec tr : recOK rec → fits (lim rec) (replicate n ∅) tr →
  ∃ rec' sets', runSets rec (replicate n newU32Set) tr = Ok (specRun (replicate n ∅) tr, rec', sets') ∧
    ∀ r, rec' = Some r → HeldBytes r = filedBytes (byLog r).
Proof.
  intros Hr Hf. destruct (runSets_ok tr rec (replicate n newU32Set) (replicate n ∅)) as (rec' & sets' & E & Hr' & _); [done| |done|].
  - apply Forall2_replicate. by split.
  - exists rec', sets'. split; [done|]. intros r ->. apply Hr'.
Qed.

Lemma flat_sets_are_sets_witness :
  ∃ rec' sets', runSets (Some newRecycle) (replicate 2 newU32Set) [(0%nat, OAdd 7); (0%nat, OAdd 7); (1%nat, OHas 7); (0%nat, ORelease); (1%nat, OAdd 3); (1%nat, OHas 7); (1%nat, OLen)]
    = Ok ([OutBool true; OutBool false; OutBool false; OutDone; OutBool true; OutBool false; OutLen 1], rec', sets').
Proof.
  destruct (flat_sets_are_sets 2 (Some newRecycle) [(0%nat, OAdd 7); (0%nat, OAdd 7); (1%nat, OHas 7); (0%nat, ORelease); (1%nat, OAdd 3); (1%nat, OHas 7); (1%nat, OLen)])
    as (rec' & sets' & E & _); [apply newRecycle_wf|apply (bool_decide_unpack _); by vm_compute|]. exists rec', sets'. rewrite E. by vm_compute.
Defined.

(** ** Size classes and the bank *)

(** The last size class mixes sizes. An array of 2^26 slots is filed in the class
    of 2^25, and is handed out again for a request of any larger power of two, though
    [take] documents an array of exactly the slots asked for; a set that grows into it
    gets no larger table. *)
Theorem Recycle_class_clamped a b : len a = 2 ^ 26 → 25 ≤ b ≤ 62 →
  ∃ rec rec' a', Recycle_put (Some newRecycle) a = Ok rec ∧ Recycle_take rec (2 ^ b) = Ok (rec', Some a') ∧ len a' = 2 ^ 26.
Proof.
  intros Ha Hb. assert (∀ c, 25 ≤ c ≤ 62 → logOf (2 ^ c) = 25) as Hlog.
  { intros c Hc. unfold logOf. rewrite logLoop_pow by lia. case_decide; lia. }
  unfold Recycle_put. rewrite Ha, decide_False, Hlog by lia. cbn [mbind res_bind]. change (idx (byLog newRecycle) 25) with (@Ok (list (list Z)) []). cbn [mbind res_bind app].
  assert (∀ l, upd (byLog newRecycle) 25 l = Ok (<[25%nat := l]> (byLog newRecycle))) as Hu by done. rewrite Hu. cbn [mbind res_bind]. eexists _, _, _. split; [done|].
  unfold Recycle_take. rewrite Hlog by lia. cbn [byLog held].
  assert (idx (<[25%nat := [a]]> (byLog newRecycle)) 25 = Ok [a]) as -> by done. cbn [mbind res_bind]. rewrite decide_False by done.
  change (idx [a] (len [a] - 1)) with (Ok a). cbn [mbind res_bind]. change (slice [a] 0 (len [a] - 1)) with (@Ok (list (list Z)) []). cbn [mbind res_bind].
  unfold upd. rewrite decide_True by done. cbn [mbind res_bind]. split; [done|]. unfold clear. by rewrite len_fmap.
Qed.

Lemma Recycle_class_clamped_witness : ∃ rec rec' a', Recycle_put (Some newRecycle) (replicate (Z.to_nat (2 ^ 26)) 0) = Ok rec ∧ Recycle_take rec (2 ^ 27) = Ok (rec', Some a') ∧ len a' = 2 ^ 26.
Proof. apply Recycle_class_clamped; [rewrite len_replicate; lia|lia]. Defined.

Inductive bankOp := BOut | BIn (r : rec_t).
Definition bankStep (b : RecycleBank) (op : bankOp) : res RecycleBank :=
  match op with BOut => '(_, b) ← Checkout b; Ok b | BIn r => Ok (Checkin b r) end.

Record wfBank (b : RecycleBank) : Prop := {
  wb_keep : len (bfree b) ≤ Z.max 0 (keep b);
  wb_held : ∀ r, r ∈ bfree b → HeldBytes r ≤ maxHeld b;
  wb_wf : ∀ r, r ∈ bfree b → wfRecycle r;
}.

Lemma Checkout_ok b : wfBank b → ∃ r b', Checkout b = Ok (r, b') ∧ wfRecycle r ∧ wfBank b' ∧ keep b' = keep b ∧ maxHeld b' = maxHeld b.
Proof.
  intros Hw. unfold Checkout. case_decide as D; [|exists newRecycle, b; split; [done|]; split; [apply newRecycle_wf|done]]. destruct b as [free k mh]. destruct Hw as [Hk Hh Hf]. cbn in *.
  destruct free as [|r free] using rev_ind; [done|clear IHfree]. assert (len (free ++ [r]) - 1 = len free) as E by (rewrite len_app, len_cons, len_nil; lia).
  rewrite E, idx_app_mid. cbn [mbind res_bind]. rewrite slice_prefix. cbn [mbind res_bind]. eexists _, _. split; [done|]. split; [apply Hf, elem_of_app; right; by left|]. split; [|done].
  split; cbn; [lia|intros x Hx; apply Hh, elem_of_app; by left|intros x Hx; apply Hf, elem_of_app; by left].
Qed.

Lemma Checkin_ok b r : wfBank b → recOK r → wfBank (Checkin b r) ∧ keep (Checkin b r) = keep b ∧ maxHeld (Checkin b r) = maxHeld b.
Proof.
  intros Hw Hr. destruct r as [r|]; cbn; [|done]. case_decide; [done|]. case_decide; [|done]. destruct Hw as [Hk Hh Hf]. split; [|done]. split; cbn.
  - rewrite len_app, len_cons, len_nil. lia.
  - intros x [Hx| ->%list_elem_of_singleton]%elem_of_app; [by apply Hh|unfold HeldBytes; lia].
  - intros x [Hx| ->%list_elem_of_singleton]%elem_of_app; [by apply Hf|done].
Qed.

(** The bank keeps its memory contract. After any sequence of check-outs and
    check-ins of balanced recyclers it holds at most [keep] of them, each holding at
    most [maxHeld] bytes, its books balanced, and a check-out always succeeds with a
    balanced recycler. *)
Theorem RecycleBank_bounded keep_ maxHeld_ ops : Forall (λ op, ∀ r, op = BIn r → recOK r) ops →
  ∃ b, foldM bankStep ops (NewRecycleBank keep_ maxHeld_) = Ok b ∧ len (bfree b) ≤ Z.max 0 keep_ ∧
    (∀ r, r ∈ bfree b → HeldBytes r ≤ maxHeld_ ∧ HeldBytes r = filedBytes (byLog r)) ∧ ∃ r b', Checkout b = Ok (r, b') ∧ wfRecycle r.
Proof.
  intros Hops. assert (∀ b, wfBank b → ∃ b', foldM bankStep ops b = Ok b' ∧ wfBank b' ∧ keep b' = keep b ∧ maxHeld b' = maxHeld b) as Hrun.
  { induction Hops as [|op ops Hop _ IH]; intros b Hw; [by exists b|]. cbn [foldM]. destruct op as [|r]; cbn [bankStep].
    - destruct (Checkout_ok b Hw) as (r & b1 & -> & _ & Hw1 & <- & <-). cbn [mbind res_bind]. by apply IH.
    - destruct (Checkin_ok b r Hw (Hop r eq_refl)) as (Hw1 & <- & <-). cbn [mbind res_bind]. by apply IH. }
  destruct (Hrun (NewRecycleBank keep_ maxHeld_)) as (b & E & Hw & Ek & Em); [split; [apply Z.le_max_l|by intros r ?%not_elem_of_nil..]|]. exists b. split; [done|]. cbn in Ek, Em. rewrite <- Ek, <- Em.
  split; [apply Hw|]. split; [intros r Hr; split; [by apply Hw|by apply Hw]|]. destruct (Checkout_ok b Hw) as (r & b' & E' & Hr & _). by exists r, b'.
Qed.

Lemma RecycleBank_bounded_witness : ∃ b, foldM bankStep [BIn (Some newRecycle); BIn None; BIn (Some newRecycle); BOut] (NewRecycleBank 1 64) = Ok b ∧ len (bfree b) ≤ Z.max 0 1.
Proof.
  destruct (RecycleBank_bounded 1 64 [BIn (Some newRecycle); BIn None; BIn (Some newRecycle); BOut]) as (b & E & Hl & _); [|by exists b].
  repeat constructor; intros r [= <-]; try done; apply newRecycle_wf.
Defined.
