(* ===== verification/FlatMapSpec.v ===== *)
(** The 64-bit flat set and map behave as a set and a map: [src/flatset/flatset.go]
    against finite sets and finite maps. *)

From S2P Require Import Prelude ProbeTable FlatSet FlatSetSpec.

Lemma u64Hash_nonneg key : 0 ≤ u64Hash key.
Proof. apply wrapU_range. lia. Qed.

(** ** U64Set *)

Definition holdsU64 (s : U64Set) (X : gset Z) : Prop :=
  match slots64 s with
  | None => X = ∅ ∧ count64 s = 0
  | Some T => ∃ b, 4 ≤ b ≤ 32 ∧ mask64 s = 2 ^ b - 1 ∧ idTable 64 u64Hash b T X ∧ count64 s = Z.of_nat (size X) ∧ count64 s * 4 ≤ 2 ^ b * 3
  end.

(** The doubled table: its length and mask. *)
Lemma doubled {A} b (zero : A) : 0 ≤ b → b + 1 ≤ 32 → replicate (Z.to_nat (2 ^ b * 2)) zero = replicate (Z.to_nat (2 ^ (b + 1))) zero ∧
  to_u32 (len (replicate (Z.to_nat (2 ^ (b + 1))) zero) - 1) = 2 ^ (b + 1) - 1.
Proof.
  intros Hb Hl. split; [by rewrite Z.pow_add_r, Z.pow_1_r by lia|]. pose proof (width_pos (b + 1) ltac:(lia)). rewrite len_replicate, Z2Nat.id by lia.
  assert (2 ^ (b + 1) ≤ 2 ^ 32) by (apply Z.pow_le_mono_r; lia). apply wrapU_small. lia.
Qed.

Lemma growU64_ok b T X : 0 ≤ b → b + 1 ≤ 32 → idTable 64 u64Hash b T X → Z.of_nat (size X) ≤ 2 ^ b →
  ∃ T', growU64 T = Ok (T', 2 ^ (b + 1) - 1) ∧ idTable 64 u64Hash (b + 1) T' X.
Proof.
  intros Hb Hl HT Hs. unfold growU64. rewrite (wt_len _ _ _ _ _ (it_table _ _ _ _ _ HT)). destruct (doubled b 0 Hb Hl) as [-> ->]. pose proof (width_pos b ltac:(lia)).
  destruct (idTable_rehash 64 u64Hash b (b + 1) T X u64Hash_nonneg ltac:(lia) HT) as (T' & E & HT'); [rewrite Z.pow_add_r by lia; lia|].
  unfold u64Home. rewrite E. by exists T'.
Qed.

Lemma AddU64_ok s X key : holdsU64 s X → 0 ≤ key < 2 ^ 64 - 1 → 4 * Z.of_nat (size X) < 3 * 2 ^ 32 →
  ∃ s', AddU64 s key = Ok (bool_decide (key ∉ X), s') ∧ holdsU64 s' ({[key]} ∪ X).
Proof.
  intros Hs Hk Hfit. unfold AddU64.
  assert (∃ T b, match slots64 s with Some T => (T, mask64 s) | None => (replicate 16 0, 15) end = (T, 2 ^ b - 1) ∧
    4 ≤ b ≤ 32 ∧ idTable 64 u64Hash b T X ∧ count64 s = Z.of_nat (size X) ∧ count64 s * 4 ≤ 2 ^ b * 3) as (T & b & -> & Hb & HT & Hc & Hload).
  { unfold holdsU64 in Hs. destruct (slots64 s) as [T|]; [destruct Hs as (b & Hb & -> & ?); by exists T, b|]. destruct Hs as [-> ->].
    exists (replicate 16 0), 4. split; [done|]. split; [lia|]. split; [by apply idTable_blank|done]. }
  rewrite (wt_len _ _ _ _ _ (it_table _ _ _ _ _ HT)). rewrite <- Hc in Hfit.
  assert (∃ T' b', (if decide (2 ^ b * 3 ≤ count64 s * 4) then growU64 T else Ok (T, 2 ^ b - 1)) = Ok (T', 2 ^ b' - 1) ∧
    4 ≤ b' ≤ 32 ∧ idTable 64 u64Hash b' T' X ∧ (count64 s + 1) * 4 ≤ 2 ^ b' * 3) as (T' & b' & -> & Hb' & HT' & Hroom).
  { case_decide as Hg; [|exists T, b; split; [done|]; do 2 (split; [done|]); apply room_left; [lia|done]].
    pose proof (grow_below b 32 (count64 s) ltac:(lia) ltac:(lia) Hg Hfit). pose proof (width_pos b ltac:(lia)).
    destruct (growU64_ok b T X ltac:(lia) ltac:(lia) HT ltac:(lia)) as (T' & -> & HT'). exists T', (b + 1). split; [done|]. split; [lia|]. split; [done|]. apply room_grown; [lia|done]. }
  cbn [mbind res_bind]. destruct (idTable_search 64 u64Hash b' ltac:(lia) u64Hash_nonneg ltac:(lia) T' X key HT' ltac:(lia) Hk) as (i & -> & Hnew). cbn [mbind res_bind].
  destruct (decide (key ∈ X)) as [Hin|Hout].
  - rewrite bool_decide_true, bool_decide_false by (auto; tauto). eexists. split; [done|]. exists b'. replace ({[key]} ∪ X) with X by set_solver. split; [done|]. split; [done|]. split; [done|]. cbn. lia.
  - rewrite bool_decide_false, bool_decide_true by done. destruct (Hnew Hout) as (T2 & -> & HT2). cbn [mbind res_bind]. eexists. split; [done|].
    exists b'. split; [done|]. split; [done|]. split; [done|]. rewrite size_union by set_solver. rewrite size_singleton. cbn. lia.
Qed.

Lemma HasU64_ok s X key : holdsU64 s X → 0 ≤ key < 2 ^ 64 - 1 → HasU64 s key = Ok (bool_decide (key ∈ X)).
Proof.
  intros Hs Hk. unfold HasU64, holdsU64 in *. destruct (slots64 s) as [T|]; [|by destruct Hs as [-> _]]. destruct Hs as (b & Hb & -> & HT & Hc & Hload). pose proof (width_pos b ltac:(lia)).
  by destruct (idTable_search 64 u64Hash b ltac:(lia) u64Hash_nonneg ltac:(lia) T X key HT ltac:(lia) Hk) as (i & -> & _).
Qed.

Lemma LenU64_ok s X : holdsU64 s X → LenU64 s = Z.of_nat (size X).
Proof. unfold holdsU64, LenU64. destruct (slots64 s); [by intros (b & _ & _ & _ & ? & _)|by intros [-> ->]]. Qed.

Lemma ResetU64_ok s X : holdsU64 s X → holdsU64 (ResetU64 s) ∅.
Proof.
  unfold holdsU64, ResetU64. cbn. destruct (slots64 s) as [T|]; cbn; [|done]. intros (b & Hb & Hm & HT & _ & _). exists b. split; [done|]. split; [done|].
  pose proof (wt_len _ _ _ _ _ (it_table _ _ _ _ _ HT)) as Hl. unfold len in Hl. pose proof (width_pos b ltac:(lia)). split; [|split; [done|lia]].
  rewrite clear_zeros. replace (length T) with (Z.to_nat (2 ^ b)) by lia. apply idTable_blank. lia.
Qed.

(** ** Tables of a map *)

Abbreviation pairOf := (λ s : u64Slot, (skey s, sval s)).
Abbreviation stored := (entries sused).

(** The table holds exactly the pairs of [M]. *)
Record mapTable (b : Z) (T : list u64Slot) (M : gmap Z Z) : Prop := {
  mt_table : wfTable sused slotHome skey b T;
  mt_pairs : list_to_map (pairOf <$> stored T) = M;
}.

Lemma slotHome_nonneg s : 0 ≤ slotHome s.
Proof. apply u64Hash_nonneg. Qed.

Lemma pairs_keys l : (pairOf <$> l).*1 = skey <$> l.
Proof. rewrite <- list_fmap_compose. by apply list_fmap_ext. Qed.

Lemma mapTable_lookup b T M k v : mapTable b T M → M !! k = Some v ↔ ∃ s, s ∈ stored T ∧ skey s = k ∧ sval s = v.
Proof.
  intros [Ht <-]. rewrite <- elem_of_list_to_map, list_elem_of_fmap by (rewrite pairs_keys; apply Ht). split; [intros (s & [= -> ->] & Hs); by exists s|intros (s & Hs & <- & <-); by exists s].
Qed.

Lemma mapTable_size b T M : mapTable b T M → Z.of_nat (size M) = len (stored T).
Proof.
  intros [Ht <-]. rewrite <- size_dom, dom_list_to_map_L, pairs_keys, size_list_to_set by apply Ht. unfold len. by rewrite length_fmap.
Qed.

(** The pairs up to order. *)
Lemma mapTable_perm b T M l : mapTable b T M → stored T ≡ₚ l → M = list_to_map (pairOf <$> l).
Proof. intros [Ht <-] E. apply list_to_map_proper; [rewrite pairs_keys; apply Ht|by rewrite E]. Qed.

Lemma mapTable_intro b T l : wfTable sused slotHome skey b T → stored T ≡ₚ l → mapTable b T (list_to_map (pairOf <$> l)).
Proof. intros Ht E. split; [done|]. apply list_to_map_proper; [rewrite pairs_keys; apply Ht|by rewrite E]. Qed.

Lemma mapTable_blank b : 0 ≤ b ≤ 32 → mapTable b (replicate (Z.to_nat (2 ^ b)) freeSlot) ∅.
Proof. intros Hb. destruct (blank_table sused slotHome skey b Hb freeSlot eq_refl) as [Ht E]. split; [done|]. by rewrite E. Qed.

Lemma growMap_ok b T M : 0 ≤ b → b + 1 ≤ 32 → mapTable b T M → Z.of_nat (size M) ≤ 2 ^ b → ∃ T', growMap T = Ok (T', 2 ^ (b + 1) - 1) ∧ mapTable (b + 1) T' M.
Proof.
  intros Hb Hl HT Hs. unfold growMap. rewrite (wt_len _ _ _ _ _ (mt_table _ _ _ HT)). destruct (doubled b freeSlot Hb Hl) as [-> ->]. pose proof (width_pos b ltac:(lia)).
  assert (0 ≤ b + 1 ≤ 32) as Hb' by lia. rewrite (mapTable_size _ _ _ HT) in Hs. destruct (blank_table sused slotHome skey (b + 1) Hb' freeSlot eq_refl) as [H0 E0].
  destruct (rehash_ok sused slotHome skey (b + 1) Hb' T _ H0) as (T' & -> & Ht' & Hp).
  - intros s _. apply slotHome_nonneg.
  - rewrite E0, app_nil_r. apply HT.
  - rewrite E0, app_nil_r, Z.pow_add_r by lia. lia.
  - cbn [mbind res_bind]. exists T'. split; [done|]. rewrite E0, app_nil_r in Hp. rewrite (mapTable_perm _ _ _ _ HT (reflexivity _)). by apply mapTable_intro.
Qed.

(** Searching a key: its slot, or the place to put it. *)
Lemma mapTable_search b T M key : 0 ≤ b ≤ 32 → mapTable b T M → Z.of_nat (size M) < 2 ^ b →
  ∃ i, match M !! key with
    | Some v => search sused (hasKey key) T (2 ^ b - 1) (u64Hash key) = Ok (true, i) ∧ idx T i = Ok (mkSlot key v true)
    | None => search sused (hasKey key) T (2 ^ b - 1) (u64Hash key) = Ok (false, i)
    end ∧ ∀ v, ∃ T', upd T i (mkSlot key v true) = Ok T' ∧ mapTable b T' (<[key := v]> M).
Proof.
  intros Hb HT Hlt. rewrite (mapTable_size _ _ _ HT) in Hlt. pose proof (width_pos b Hb) as Hn. pose proof (mt_table _ _ _ HT) as Ht.
  assert (∀ d x, upd T ((u64Hash key + d) `mod` 2 ^ b) x = Ok (<[Z.to_nat ((u64Hash key + d) `mod` 2 ^ b) := x]> T)) as Hupd.
  { intros d x. unfold upd. by rewrite (wt_len _ _ _ _ _ Ht), decide_True by (by apply Z.mod_pos_bound). }
  assert (∀ s, s ∈ stored T → (hasKey key s = true ↔ skey s = key) ∧ (skey s = key → slotHome s = u64Hash key)) as Hkey.
  { intros s _. unfold hasKey. rewrite bool_decide_eq_true. split; [done|]. by intros <-. }
  destruct (search_key sused slotHome skey b Hb T key (u64Hash key) _ Ht Hlt (u64Hash_nonneg key) Hkey) as (d & Hd & [(s & E & Hs & Hin & Ek)|(E & Hnew & Ha)]); rewrite E; exists ((u64Hash key + d) `mod` 2 ^ b).
  - assert (M !! key = Some (sval s)) as -> by (apply (mapTable_lookup _ _ _ _ _ HT); by exists s). apply list_elem_of_filter in Hin as [Ho _].
    assert (s = mkSlot key (sval s) true) as Es by (destruct s; cbn in *; by subst). split.
    + split; [done|]. rewrite <- Es. apply idx_lookup; [by apply Z.mod_pos_bound|done].
    + intros v. rewrite Hupd. eexists. split; [done|]. destruct (wfTable_update sused slotHome skey b T _ s (mkSlot key v true) Ht Hs Ho) as [Ht' (l & E1 & E2)]; [done|unfold slotHome; cbn; congruence|by symmetry|].
      rewrite (mapTable_perm _ _ _ _ HT E1). assert (<[key := v]> (list_to_map (pairOf <$> s :: l)) = list_to_map (M := gmap Z Z) (pairOf <$> mkSlot key v true :: l)) as -> by (rewrite !fmap_cons, !list_to_map_cons; cbn [skey sval]; by rewrite Ek, insert_insert_eq).
      by apply mapTable_intro.
  - assert (M !! key = None) as ->.
    { destruct (M !! key) as [v|] eqn:Ev; [|done]. apply (mapTable_lookup _ _ _ _ _ HT) in Ev as (s & Hs & <- & _). exfalso. apply Hnew, list_elem_of_fmap. by exists s. }
    split; [done|]. intros v. rewrite Hupd. eexists. split; [done|]. destruct (wfTable_insert sused slotHome skey b Hb T (mkSlot key v true) d _ Ht Hd Ha eq_refl Hnew) as [Ht' E1].
    rewrite (mapTable_perm _ _ _ _ HT (reflexivity _)). by apply (mapTable_intro _ _ (mkSlot key v true :: stored T)).
Qed.

(** ** U64Map *)

Definition holdsMap (m : U64Map) (M : gmap Z Z) : Prop :=
  match mslots m with
  | None => M = ∅ ∧ mcount m = 0
  | Some T => ∃ b, 4 ≤ b ≤ 32 ∧ mmask m = 2 ^ b - 1 ∧ mapTable b T M ∧ mcount m = Z.of_nat (size M) ∧ mcount m * 4 ≤ 2 ^ b * 3
  end.

Lemma readyMap_ok m M : holdsMap m M → 4 * Z.of_nat (size M) < 3 * 2 ^ 32 →
  ∃ T b, readyMap m = Ok (T, 2 ^ b - 1) ∧ 4 ≤ b ≤ 32 ∧ mapTable b T M ∧ mcount m = Z.of_nat (size M) ∧ (mcount m + 1) * 4 ≤ 2 ^ b * 3.
Proof.
  intros Hs Hfit. unfold readyMap.
  assert (∃ T b, match mslots m with Some T => (T, mmask m) | None => (replicate 16 freeSlot, 15) end = (T, 2 ^ b - 1) ∧
    4 ≤ b ≤ 32 ∧ mapTable b T M ∧ mcount m = Z.of_nat (size M) ∧ mcount m * 4 ≤ 2 ^ b * 3) as (T & b & -> & Hb & HT & Hc & Hload).
  { unfold holdsMap in Hs. destruct (mslots m) as [T|]; [destruct Hs as (b & Hb & -> & ?); by exists T, b|]. destruct Hs as [-> ->].
    exists (replicate 16 freeSlot), 4. split; [done|]. split; [lia|]. split; [by apply mapTable_blank|done]. }
  rewrite (wt_len _ _ _ _ _ (mt_table _ _ _ HT)). rewrite <- Hc in Hfit. case_decide as Hg.
  - pose proof (grow_below b 32 (mcount m) ltac:(lia) ltac:(lia) Hg Hfit). pose proof (width_pos b ltac:(lia)).
    destruct (growMap_ok b T M ltac:(lia) ltac:(lia) HT ltac:(lia)) as (T' & -> & HT'). exists T', (b + 1). split; [done|]. split; [lia|]. split; [done|]. split; [done|]. apply room_grown; [lia|done].
  - exists T, b. split; [done|]. split; [done|]. split; [done|]. split; [done|]. apply room_left; [lia|done].
Qed.

(** What an update of a key leaves: the count follows the map. *)
Lemma holdsMap_insert m M b T key v c : 4 ≤ b ≤ 32 → mapTable b T (<[key := v]> M) → mcount m = Z.of_nat (size M) → (mcount m + 1) * 4 ≤ 2 ^ b * 3 →
  c = (match M !! key with Some _ => mcount m | None => mcount m + 1 end) → holdsMap (mkU64Map (Some T) (2 ^ b - 1) c) (<[key := v]> M).
Proof.
  intros Hb HT Hc Hroom ->. exists b. split; [done|]. split; [done|]. split; [done|]. cbn [mcount]. rewrite map_size_insert. destruct (M !! key); cbn [id]; lia.
Qed.

Lemma GetOrCreate_ok {A} m M key (create : A → Z * A) st : holdsMap m M → 4 * Z.of_nat (size M) < 3 * 2 ^ 32 →
  match M !! key with
  | Some v => ∃ m', GetOrCreate m key create st = Ok (v, m', st) ∧ holdsMap m' M
  | None => ∃ m', GetOrCreate m key create st = Ok ((create st).1, m', (create st).2) ∧ holdsMap m' (<[key := to_i32 (create st).1]> M)
  end.
Proof.
  intros Hm Hfit. unfold GetOrCreate. destruct (readyMap_ok m M Hm Hfit) as (T & b & -> & Hb & HT & Hc & Hroom). cbn [mbind res_bind].
  destruct (mapTable_search b T M key ltac:(lia) HT ltac:(lia)) as (i & Hf & Hput). destruct (M !! key) as [v|] eqn:Ev.
  - destruct Hf as [-> E]. cbn [mbind res_bind]. rewrite E. cbn [mbind res_bind sval]. eexists. split; [done|]. exists b. cbn. split; [done|]. split; [done|]. split; [done|]. lia.
  - rewrite Hf. cbn [mbind res_bind]. destruct (create st) as [v st']. cbn [fst snd]. destruct (Hput (to_i32 v)) as (T' & -> & HT'). cbn [mbind res_bind].
    eexists. split; [done|]. eapply holdsMap_insert; [done|done|done|done|by rewrite Ev].
Qed.

Lemma Inc_ok m M key : holdsMap m M → 4 * Z.of_nat (size M) < 3 * 2 ^ 32 →
  ∃ m', Inc m key = Ok m' ∧ holdsMap m' (<[key := match M !! key with Some v => to_i32 (v + 1) | None => 1 end]> M).
Proof.
  intros Hm Hfit. unfold Inc. destruct (readyMap_ok m M Hm Hfit) as (T & b & -> & Hb & HT & Hc & Hroom). cbn [mbind res_bind].
  destruct (mapTable_search b T M key ltac:(lia) HT ltac:(lia)) as (i & Hf & Hput). destruct (M !! key) as [v|] eqn:Ev.
  - destruct Hf as [-> E]. cbn [mbind res_bind]. rewrite E. cbn [mbind res_bind sval skey sused]. destruct (Hput (to_i32 (v + 1))) as (T' & -> & HT'). cbn [mbind res_bind].
    eexists. split; [done|]. eapply holdsMap_insert; [done|done|done|done|by rewrite Ev].
  - rewrite Hf. cbn [mbind res_bind]. destruct (Hput 1) as (T' & -> & HT'). cbn [mbind res_bind].
    eexists. split; [done|]. eapply holdsMap_insert; [done|done|done|done|by rewrite Ev].
Qed.

Lemma GetMap_ok m M key : holdsMap m M → GetMap m key = Ok (M !! key).
Proof.
  intros Hm. unfold GetMap, holdsMap in *. destruct (mslots m) as [T|]; [|by destruct Hm as [-> _]]. destruct Hm as (b & Hb & -> & HT & Hc & Hload). pose proof (width_pos b ltac:(lia)).
  destruct (mapTable_search b T M key ltac:(lia) HT ltac:(lia)) as (i & Hf & _). destruct (M !! key) as [v|]; [destruct Hf as [-> E]; cbn [mbind res_bind]; by rewrite E|by rewrite Hf].
Qed.

Lemma LenMap_ok m M : holdsMap m M → LenMap m = Z.of_nat (size M).
Proof. unfold holdsMap, LenMap. destruct (mslots m); [by intros (b & _ & _ & _ & ? & _)|by intros [-> ->]]. Qed.

Lemma ResetMap_ok m M : holdsMap m M → holdsMap (ResetMap m) ∅.
Proof.
  unfold holdsMap, ResetMap. cbn. destruct (mslots m) as [T|]; cbn; [|done]. intros (b & Hb & Hm & HT & _ & _). exists b. split; [done|]. split; [done|].
  pose proof (wt_len _ _ _ _ _ (mt_table _ _ _ HT)) as Hl. unfold len in Hl. pose proof (width_pos b ltac:(lia)). split; [|split; [done|lia]].
  replace (clear freeSlot T) with (replicate (Z.to_nat (2 ^ b)) freeSlot); [apply mapTable_blank; lia|]. replace (Z.to_nat (2 ^ b)) with (length T) by lia.
  unfold clear. clear. induction T as [|x T IH]; [done|]. cbn [length replicate fmap list_fmap]. by f_equal.
Qed.

(** Every pair once, in some order. *)
Lemma ForEach_ok {A} m M (visit : Z → Z → A → A) st : holdsMap m M → ∃ l, l ≡ₚ map_to_list M ∧ ForEach m visit st = foldl (λ st p, visit p.1 p.2 st) st l.
Proof.
  intros Hm. unfold ForEach, holdsMap in *. destruct (mslots m) as [T|]; cbn [default from_option id]; [|destruct Hm as [-> _]; exists []; by rewrite map_to_list_empty].
  destruct Hm as (b & _ & _ & HT & _). exists (pairOf <$> stored T). split.
  - rewrite (mapTable_perm _ _ _ _ HT (reflexivity _)). symmetry. apply map_to_list_to_map. rewrite pairs_keys. apply HT.
  - clear HT. unfold entries. revert st. induction T as [|s T IH]; intros st; [done|]. cbn [foldl]. rewrite filter_cons. destruct (sused s); [rewrite decide_True by done|rewrite decide_False by done]; apply IH.
Qed.

(** ** Sequences of operations *)

Inductive op64 := SAdd (key : Z) | SHas (key : Z) | SLen | SReset | MCreate (key : Z) | MGet (key : Z) | MInc (key : Z) | MAt (key : Z) | MLen | MReset.
Inductive out64 := OBool (b : bool) | OInt (n : Z) | OOpt (o : option Z) | ONone.

Section traces.
Context {A : Type} (create : A → Z * A).

(** One operation on a set, a map and the state [create] runs on. *)
Definition step64 (st : U64Set * U64Map * A) (op : op64) : res (out64 * (U64Set * U64Map * A)) :=
  let '(s, m, a) := st in
  match op with
  | SAdd key => '(b, s) ← AddU64 s key; Ok (OBool b, (s, m, a))
  | SHas key => b ← HasU64 s key; Ok (OBool b, (s, m, a))
  | SLen => Ok (OInt (LenU64 s), (s, m, a))
  | SReset => Ok (ONone, (ResetU64 s, m, a))
  | MCreate key => '(v, m, a) ← GetOrCreate m key create a; Ok (OInt v, (s, m, a))
  | MGet key => o ← GetMap m key; Ok (OOpt o, (s, m, a))
  | MInc key => m ← Inc m key; Ok (ONone, (s, m, a))
  | MAt key => v ← AtMap m key; Ok (OInt v, (s, m, a))
  | MLen => Ok (OInt (LenMap m), (s, m, a))
  | MReset => Ok (ONone, (s, ResetMap m, a))
  end.
Fixpoint run64 (st : U64Set * U64Map * A) (tr : list op64) : res (list out64 * (U64Set * U64Map * A)) :=
  match tr with
  | [] => Ok ([], st)
  | op :: tr => '(o, st) ← step64 st op; '(os, st) ← run64 st tr; Ok (o :: os, st)
  end.

(** The same on a set and a map of mathematics; stored values keep 32 bits. *)
Definition spec64 (st : gset Z * gmap Z Z * A) (op : op64) : out64 * (gset Z * gmap Z Z * A) :=
  let '(X, M, a) := st in
  match op with
  | SAdd key => (OBool (bool_decide (key ∉ X)), ({[key]} ∪ X, M, a))
  | SHas key => (OBool (bool_decide (key ∈ X)), (X, M, a))
  | SLen => (OInt (Z.of_nat (size X)), (X, M, a))
  | SReset => (ONone, (∅, M, a))
  | MCreate key =>
      match M !! key with
      | Some v => (OInt v, (X, M, a))
      | None => let '(v, a) := create a in (OInt v, (X, <[key := to_i32 v]> M, a))
      end
  | MGet key => (OOpt (M !! key), (X, M, a))
  | MInc key => (ONone, (X, <[key := match M !! key with Some v => to_i32 (v + 1) | None => 1 end]> M, a))
  | MAt key => (OInt (default 0 (M !! key)), (X, M, a))
  | MLen => (OInt (Z.of_nat (size M)), (X, M, a))
  | MReset => (ONone, (X, ∅, a))
  end.
Fixpoint specRun64 (st : gset Z * gmap Z Z * A) (tr : list op64) : list out64 * (gset Z * gmap Z Z * A) :=
  match tr with
  | [] => ([], st)
  | op :: tr => let '(o, st) := spec64 st op in let '(os, st) := specRun64 st tr in (o :: os, st)
  end.

(** Set keys leave room for the shift by one, and tables stay within 2^32 slots. *)
Definition fits64 (st : gset Z * gmap Z Z * A) (op : op64) : Prop :=
  match op with
  | SAdd key => 0 ≤ key < 2 ^ 64 - 1 ∧ 4 * Z.of_nat (size st.1.1) < 3 * 2 ^ 32
  | SHas key => 0 ≤ key < 2 ^ 64 - 1
  | MCreate _ | MInc _ => 4 * Z.of_nat (size st.1.2) < 3 * 2 ^ 32
  | _ => True
  end.
Fixpoint allFit64 (st : gset Z * gmap Z Z * A) (tr : list op64) : Prop :=
  match tr with [] => True | op :: tr => fits64 st op ∧ allFit64 (spec64 st op).2 tr end.
#[export] Instance fits64_dec st op : Decision (fits64 st op).
Proof. destruct op; cbn; apply _. Defined.
#[export] Instance allFit64_dec tr : ∀ st, Decision (allFit64 st tr).
Proof. induction tr as [|op tr IH]; intros st; cbn; apply _. Defined.

Definition holds64 (c : U64Set * U64Map * A) (st : gset Z * gmap Z Z * A) : Prop := holdsU64 c.1.1 st.1.1 ∧ holdsMap c.1.2 st.1.2 ∧ c.2 = st.2.

Lemma step64_ok c st op : holds64 c st → fits64 st op → ∃ c', step64 c op = Ok ((spec64 st op).1, c') ∧ holds64 c' (spec64 st op).2.
Proof.
  destruct c as [[s m] a], st as [[X M] a']. intros (Hs & Hm & Ha) Hf. cbn in Hs, Hm, Ha. subst a'. destruct op as [key|key| | |key|key|key|key| |]; cbn [step64 spec64 fits64 fst snd] in *.
  - destruct (AddU64_ok s X key) as (s' & -> & H'); [done|apply Hf..|]. eexists. split; [done|by split_and!].
  - rewrite (HasU64_ok s X) by done. eexists. split; [done|by split_and!].
  - rewrite (LenU64_ok s X) by done. eexists. split; [done|by split_and!].
  - eexists. split; [done|]. split_and!; [by eapply ResetU64_ok|done|done].
  - pose proof (GetOrCreate_ok m M key create a Hm Hf) as Hg. destruct (M !! key); destruct Hg as (m' & -> & Hm'); cbn [mbind res_bind]; [|destruct (create a) as [v a2]]; eexists; (split; [done|by split_and!]).
  - rewrite (GetMap_ok m M) by done. eexists. split; [done|by split_and!].
  - destruct (Inc_ok m M key Hm Hf) as (m' & -> & Hm'). eexists. split; [done|by split_and!].
  - unfold AtMap. rewrite (GetMap_ok m M) by done. eexists. split; [done|by split_and!].
  - rewrite (LenMap_ok m M) by done. eexists. split; [done|by split_and!].
  - eexists. split; [done|]. split_and!; [done|by eapply ResetMap_ok|done].
Qed.

Lemma run64_ok tr : ∀ c st, holds64 c st → allFit64 st tr → ∃ c', run64 c tr = Ok ((specRun64 st tr).1, c') ∧ holds64 c' (specRun64 st tr).2.
Proof.
  induction tr as [|op tr IH]; intros c st Hh Hf; [by exists c|]. cbn [run64 specRun64 allFit64] in *. destruct Hf as [Ho Hf].
  destruct (step64_ok c st op Hh Ho) as (c1 & -> & H1). destruct (spec64 st op) as [o st1]. cbn [mbind res_bind fst snd] in *.
  destruct (IH c1 st1 H1 Hf) as (c2 & -> & H2). destruct (specRun64 st1 tr) as [os st2]. by exists c2.
Qed.
End traces.

(** The 64-bit flat set and map are a set and a map. Any sequence of their
    operations (Add, Has, Len, Reset; GetOrCreate, Get, Inc, At, Len, Reset) on tables
    of at most 2^32 slots runs without panic, every probe ending, and answers exactly
    as a finite set and a finite map from keys to 32-bit values; [create] runs exactly
    for the keys not yet there, and [ForEach] then visits every pair of the map once. *)
Theorem flat64_exact {A B} (create : A → Z * A) a tr : allFit64 create (∅, ∅, a) tr →
  let '(os, (X, M, a')) := specRun64 create (∅, ∅, a) tr in
  ∃ s m, run64 create (newU64Set, newU64Map, a) tr = Ok (os, (s, m, a')) ∧
    ∀ (visit : Z → Z → B → B) b, ∃ l, l ≡ₚ map_to_list M ∧ ForEach m visit b = foldl (λ b p, visit p.1 p.2 b) b l.
Proof.
  intros Hf. destruct (run64_ok create tr (newU64Set, newU64Map, a) (∅, ∅, a)) as ([[s m] a2] & E & Hs & Hm & Ha); [by split_and!|done|].
  destruct (specRun64 create (∅, ∅, a) tr) as [os [[X M] a']]. cbn in *. subst a2. exists s, m. split; [done|]. intros visit b. by apply ForEach_ok.
Qed.

Lemma flat64_exact_witness : ∃ s m, run64 (λ n, (n, n + 1)) (newU64Set, newU64Map, 10) [SAdd 5; SAdd 5; MCreate 7; MCreate 7; MCreate 0; MInc 7; MGet 7; MAt 9; MLen]
  = Ok ([OBool true; OBool false; OInt 10; OInt 10; OInt 11; ONone; OOpt (Some 11); OInt 0; OInt 2], (s, m, 12)).
Proof.
  pose proof (flat64_exact (B := unit) (λ n, (n, n + 1)) 10 [SAdd 5; SAdd 5; MCreate 7; MCreate 7; MCreate 0; MInc 7; MGet 7; MAt 9; MLen] ltac:(apply (bool_decide_unpack _); by vm_compute)) as Hx.
  destruct Hx as (s & m & E & _). by exists s, m.
Defined.
