(* ===== verification/FlatBytes.v ===== *)
(** Flat sets and maps with byte keys: [src/flatset/flatset_bytes.go].

    Keys are copied into one arena; the probed slots hold hash, offset and length.
    The two slot types share what the probing reads of them through a class. *)

From S2P Require Import Prelude ProbeTable.

Record bsSlot := mkBsSlot { bs_hash : Z; bs_off : Z; bs_length : Z; bs_filled : bool }.
Record bmSlot := mkBmSlot { bm_hash : Z; bm_off : Z; bm_length : Z; bm_val : Z; bm_filled : bool }.

Class ByteSlot (S : Type) := { hash : S → Z; off : S → Z; length_ : S → Z; filled : S → bool }.
#[export] Instance bsSlot_bytes : ByteSlot bsSlot := { hash := bs_hash; off := bs_off; length_ := bs_length; filled := bs_filled }.
#[export] Instance bmSlot_bytes : ByteSlot bmSlot := { hash := bm_hash; off := bm_off; length_ := bm_length; filled := bm_filled }.

(** FNV-1a. *)
Definition bsHash (b : list byte) : Z := foldl (λ h c, to_u32 (Z.lxor h (byte.unsigned c) * 16777619)) 2166136261 b.

Section bytes.
Context {S : Type} `{ByteSlot S}.

(** The equality test of a probe; reading the arena may panic. *)
Definition sameKey (arena : list byte) (h : Z) (b : list byte) (s : S) : res bool :=
  if decide (hash s = h ∧ length_ s = len b) then
    key ← slice arena (off s) (to_u32 (off s + length_ s));
    Ok (bool_decide (key = b))
  else Ok false.

Fixpoint probeKey (fuel : nat) (arena : list byte) (h : Z) (b : list byte) (T : list S) (mask i : Z) : res (bool * Z) :=
  match fuel with
  | O => Panic
  | Datatypes.S fuel =>
      s ← idx T i;
      if filled s then
        same ← sameKey arena h b s;
        if same : bool then Ok (true, i) else probeKey fuel arena h b T mask (Z.land (to_u32 (i + 1)) mask)
      else Ok (false, i)
  end.
Definition searchKey (arena b : list byte) (T : list S) (mask : Z) : res (bool * Z) :=
  let h := bsHash b in probeKey (length T) arena h b T mask (Z.land h mask).

(** Doubling rehashes by the stored hash. *)
Definition growBytes (empty : S) (old : list S) : res (list S * Z) :=
  let T := replicate (Z.to_nat (len old * 2)) empty in
  let mask := to_u32 (len T - 1) in
  T ← rehash filled hash mask old T;
  Ok (T, mask).
End bytes.

(** ** ByteSet *)

Record ByteSet := mkByteSet {
  arena : list byte; bslots : option (list bsSlot); bmask : Z; bcount : Z;
  nSmall : Z; smLen : list Z; small : list (list byte);
}.
Definition newByteSet : ByteSet := mkByteSet [] None 0 0 0 (replicate 4 0) (replicate 4 (replicate 24 Byte.x00)).
Definition emptyBs : bsSlot := mkBsSlot 0 0 0 false.

(** [s.small[i][:s.smLen[i]]] *)
Definition inlineKey (s : ByteSet) (i : Z) : res (list byte) :=
  n ← idx (smLen s) i; a ← idx (small s) i; slice a 0 n.

(** [for i := 0; i < nSmall; i++]: whether some inline key equals [b]. *)
Definition inlineHas (s : ByteSet) (b : list byte) : res bool :=
  foldM (λ found i, if found : bool then Ok true else
    n ← idx (smLen s) i;
    if decide (n = len b) then k ← inlineKey s i; Ok (bool_decide (k = b)) else Ok false) (zseq (nSmall s)) false.

(** [copy(dst[:], src)] *)
Definition copyInto (dst src : list byte) : list byte := take (length dst) src ++ drop (length src) dst.

(** The arena and table with a key known to be absent. *)
Definition insertNew (st : list byte * list bsSlot) (mask : Z) (b : list byte) : res (list byte * list bsSlot) :=
  let '(arena, T) := st in
  let h := bsHash b in
  let s := mkBsSlot h (to_u32 (len arena)) (to_u32 (len b)) true in
  T ← place filled hash mask T s;
  Ok (arena ++ b, T).

Definition spill (s : ByteSet) : res (list byte * list bsSlot) :=
  foldM (λ st i, k ← inlineKey s i; insertNew st 15 k) (zseq (nSmall s)) (arena s, replicate 16 emptyBs).

(** The table form of [Add]. *)
Definition tableAdd (s : ByteSet) (arena : list byte) (T : list bsSlot) (m : Z) (b : list byte) : res (bool * ByteSet) :=
  '(T, m) ← (if decide (len T * 3 ≤ bcount s * 4) then growBytes emptyBs T else Ok (T, m));
  '(found, i) ← searchKey arena b T m;
  if found : bool then Ok (false, mkByteSet arena (Some T) m (bcount s) (nSmall s) (smLen s) (small s))
  else
    T ← upd T i (mkBsSlot (bsHash b) (to_u32 (len arena)) (to_u32 (len b)) true);
    Ok (true, mkByteSet (arena ++ b) (Some T) m (bcount s + 1) (nSmall s) (smLen s) (small s)).

Definition AddBytes (s : ByteSet) (b : list byte) : res (bool * ByteSet) :=
  match bslots s with
  | Some T => tableAdd s (arena s) T (bmask s) b
  | None =>
      seen ← inlineHas s b;
      if seen : bool then Ok (false, s)
      else if decide (nSmall s < len (small s) ∧ len b ≤ 24) then
        a ← idx (small s) (nSmall s);
        sm ← upd (small s) (nSmall s) (copyInto a b);
        ln ← upd (smLen s) (nSmall s) (to_u8 (len b));
        Ok (true, mkByteSet (arena s) None (bmask s) (bcount s + 1) (to_u8 (nSmall s + 1)) ln sm)
      else
        '(arena, T) ← spill s;
        tableAdd s arena T 15 b
  end.

Definition LenBytes (s : ByteSet) : Z := bcount s.

(** ** ByteMap *)

Record ByteMap := mkByteMap { marena : list byte; bmslots : option (list bmSlot); bmmask : Z; bmcount : Z }.
Definition newByteMap : ByteMap := mkByteMap [] None 0 0.
Definition emptyBm : bmSlot := mkBmSlot 0 0 0 0 false.

Definition GetOrCreateBytes {A} (m : ByteMap) (b : list byte) (create : A → Z * A) (st : A) : res (Z * ByteMap * A) :=
  let '(T, mk) := match bmslots m with Some T => (T, bmmask m) | None => (replicate 16 emptyBm, 15) end in
  '(T, mk) ← (if decide (len T * 3 ≤ bmcount m * 4) then growBytes emptyBm T else Ok (T, mk));
  '(found, i) ← searchKey (marena m) b T mk;
  if found : bool then s ← idx T i; Ok (bm_val s, mkByteMap (marena m) (Some T) mk (bmcount m), st)
  else
    let '(v, st) := create st in
    T ← upd T i (mkBmSlot (bsHash b) (to_u32 (len (marena m))) (to_u32 (len b)) v true);
    Ok (v, mkByteMap (marena m ++ b) (Some T) mk (bmcount m + 1), st).

Definition GetBytes (m : ByteMap) (b : list byte) : res (option Z) :=
  match bmslots m with
  | None => Ok None
  | Some T =>
      '(found, i) ← searchKey (marena m) b T (bmmask m);
      if found : bool then s ← idx T i; Ok (Some (bm_val s)) else Ok None
  end.

Definition LenByteMap (m : ByteMap) : Z := bmcount m.

(** FNV-1a of the empty string and of "a". *)
Example bsHash_ref : (bsHash [], bsHash [Byte.x61]) = (2166136261, 3826002220).
Proof. by vm_compute. Qed.
(** The fifth key spills the inline ones. *)
Example ByteSet_spills :
  (st ← foldM (λ st b, '(x, s) ← AddBytes st.2 b; Ok (st.1 ++ [x], s)) [[Byte.x61]; [Byte.x62]; [Byte.x61]; []; [Byte.x63]; [Byte.x64]; [Byte.x62]; [Byte.x64]] ([], newByteSet);
   Ok (st.1, LenBytes st.2, arena st.2)) = Ok ([true; true; false; true; true; true; false; false], 5, [Byte.x61; Byte.x62; Byte.x63; Byte.x64]).
Proof. by vm_compute. Qed.
