(* ===== verification/FlatBytesSpec.v ===== *)
(** The flat byte set and map behave as a set and a map: [src/flatset/flatset_bytes.go]
    against finite sets and maps of byte strings. *)

From S2P Require Import Prelude ProbeTable FlatSetSpec FlatMapSpec FlatBytes.

(** ** Slots and the arena *)

Section arenas.
Context {S : Type} `{ByteSlot S}.
Implicit Types (s : S) (T : list S) (arena k : list byte).

Definition keyAt arena s : list byte := take (Z.to_nat (length_ s)) (drop (Z.to_nat (off s)) arena).

(** The slot's bytes lie in the arena and hash to the stored hash. *)
Record slotOK arena s : Prop := {
  so_off : 0 ≤ off s;
  so_len : 0 ≤ length_ s;
  so_end : off s + length_ s ≤ len arena;
  so_hash : hash s = bsHash (keyAt arena s);
}.

Record byteTable (b : Z) arena T : Prop := {
  bt_table : wfTable filled hash (keyAt arena) b T;
  bt_slots : ∀ s, s ∈ entries filled T → slotOK arena s;
  bt_arena : len arena < 2 ^ 32;
}.

Lemma bsHash_nonneg k : 0 ≤ bsHash k.
Proof using Type.
  unfold bsHash. destruct k as [|c k] using rev_ind; [cbn; lia|]. rewrite foldl_app. cbn [foldl]. apply wrapU_range. lia.
Qed.

Lemma keyAt_len arena s : slotOK arena s → len (keyAt arena s) = length_ s.
Proof using Type. intros [H1 H2 H3 _]. unfold keyAt, len in *. rewrite length_take, length_drop. lia. Qed.

(** Appending leaves the keys alone. *)
Lemma keyAt_app arena k s : slotOK arena s → keyAt (arena ++ k) s = keyAt arena s.
Proof using Type.
  intros [H1 H2 H3 _]. unfold keyAt, len in *. rewrite drop_app_le by lia. rewrite take_app_le; [done|]. rewrite length_drop. lia.
Qed.
Lemma slotOK_app arena k s : slotOK arena s → slotOK (arena ++ k) s.
Proof using Type. intros Hs. pose proof (keyAt_app arena k s Hs) as E. destruct Hs as [H1 H2 H3 H4]. pose proof (len_nonneg k). split; [done|done|rewrite len_app; lia|by rewrite E]. Qed.

(** The slot of a key just appended. *)
Lemma slotOK_new arena k s : hash s = bsHash k → off s = len arena → length_ s = len k → slotOK (arena ++ k) s ∧ keyAt (arena ++ k) s = k.
Proof using Type.
  intros Eh Eo El. assert (keyAt (arena ++ k) s = k) as E.
  { unfold keyAt. rewrite Eo, El, !to_nat_len, drop_app_length. apply take_ge. done. }
  split; [|done]. pose proof (len_nonneg arena). pose proof (len_nonneg k). split; [lia|lia|rewrite len_app; lia|by rewrite E].
Qed.

Lemma sameKey_ok arena k s : slotOK arena s → len arena < 2 ^ 32 → sameKey arena (bsHash k) k s = Ok (bool_decide (keyAt arena s = k)).
Proof using Type.
  intros Hs Ha. pose proof (keyAt_len arena s Hs) as El. destruct Hs as [H1 H2 H3 H4]. unfold sameKey. case_decide as D.
  - rewrite wrapU_small by lia. unfold slice. rewrite decide_True by lia. cbn [mbind res_bind]. by replace (off s + length_ s - off s) with (length_ s) by lia.
  - rewrite bool_decide_false; [done|]. intros E. apply D. rewrite H4, E, <- El, E. done.
Qed.

Lemma probeKey_pure fuel arena h k T mask hit : (∀ s, s ∈ entries filled T → sameKey arena h k s = Ok (hit s)) →
  ∀ i, probeKey fuel arena h k T mask i = probe filled fuel hit T mask i.
Proof using Type.
  intros Hs. induction fuel as [|fuel IH]; intros i; [done|]. cbn [probeKey probe]. destruct (idx T i) as [s|e|] eqn:E; cbn [mbind res_bind]; [|done|done].
  destruct (filled s) eqn:Ef; [|done]. rewrite Hs; [cbn [mbind res_bind]; by rewrite IH|]. apply list_elem_of_filter. split; [done|].
  unfold idx in E. case_decide; [done|]. destruct (T !! Z.to_nat i) eqn:El; [|done]. injection E as <-. by eapply list_elem_of_lookup_2.
Qed.

(** The keys of a table after an append. *)
Lemma byteTable_append b arena T k : byteTable b arena T → len arena + len k < 2 ^ 32 → byteTable b (arena ++ k) T ∧ keyAt (arena ++ k) <$> entries filled T = keyAt arena <$> entries filled T.
Proof using Type.
  intros [[HT Hc Hk] Hs Ha] Hl. assert (keyAt (arena ++ k) <$> entries filled T = keyAt arena <$> entries filled T) as E.
  { apply list_fmap_ext. intros i s Hi. apply keyAt_app, Hs. by eapply list_elem_of_lookup_2. }
  split; [|done]. split; [split; [done|done|by rewrite E]|intros s Hin; by apply slotOK_app, Hs|rewrite len_app; lia].
Qed.

(** Searching a key: its slot, or a place for it. *)
Lemma byteTable_search b arena T k : 0 ≤ b ≤ 32 → byteTable b arena T → len (entries filled T) < 2 ^ b →
  ∃ i, (∃ s, searchKey arena k T (2 ^ b - 1) = Ok (true, i) ∧ idx T i = Ok s ∧ s ∈ entries filled T ∧ keyAt arena s = k) ∨
    (searchKey arena k T (2 ^ b - 1) = Ok (false, i) ∧ k ∉ (keyAt arena <$> entries filled T) ∧
     ∀ s, filled s = true → hash s = bsHash k → off s = len arena → length_ s = len k → len arena + len k < 2 ^ 32 →
       ∃ T', upd T i s = Ok T' ∧ byteTable b (arena ++ k) T' ∧ entries filled T' ≡ₚ s :: entries filled T).
Proof using Type.
  intros Hb HT Hlt. pose proof HT as [Ht Hs Ha]. pose proof (width_pos b Hb) as Hn. set (hit := λ s, bool_decide (keyAt arena s = k)). unfold searchKey.
  rewrite (probeKey_pure _ arena (bsHash k) k T _ hit) by (intros s Hin; by apply sameKey_ok; [apply Hs|]).
  change (probe filled (length T) hit T (2 ^ b - 1) (Z.land (bsHash k) (2 ^ b - 1))) with (search filled hit T (2 ^ b - 1) (bsHash k)).
  destruct (search_key filled hash (keyAt arena) b Hb T k (bsHash k) hit Ht Hlt (bsHash_nonneg k)) as (d & Hd & [(s & E & Hi & Hin & Ek)|(E & Hnew & Hans)]).
  - intros s Hin. unfold hit. rewrite bool_decide_eq_true. split; [done|]. intros <-. by apply Hs.
  - eexists. left. exists s. split; [done|]. split; [apply idx_lookup; [by apply Z.mod_pos_bound|done]|done].
  - eexists. right. split; [done|]. split; [done|]. intros s Hf Eh Eo El Hl. destruct (byteTable_append b arena T k HT Hl) as [[Ht1 Hs1 Ha1] Ek1]. destruct (slotOK_new arena k s Eh Eo El) as [Hsk Ekey].
    rewrite <- Eh in *. destruct (wfTable_insert filled hash (keyAt (arena ++ k)) b Hb T s d hit Ht1 Hd Hans Hf) as [Ht' Ep]; [by rewrite Ek1, Ekey|].
    unfold upd. rewrite (wt_len _ _ _ _ _ Ht), decide_True by (by apply Z.mod_pos_bound). eexists. split; [done|]. split; [|done]. split; [done| |done].
    intros x. rewrite Ep, elem_of_cons. intros [->|Hx]; [done|by apply Hs1].
Qed.

Lemma byteTable_blank b empty arena : 0 ≤ b ≤ 32 → filled empty = false → len arena < 2 ^ 32 →
  byteTable b arena (replicate (Z.to_nat (2 ^ b)) empty) ∧ entries filled (replicate (Z.to_nat (2 ^ b)) empty) = [].
Proof using Type.
  intros Hb He Ha. destruct (blank_table filled hash (keyAt arena) b Hb empty He) as [Ht E]. split; [|done]. split; [done| |done]. rewrite E. by intros s ?%not_elem_of_nil.
Qed.

Lemma growBytes_ok b empty arena T : 0 ≤ b → b + 1 ≤ 32 → filled empty = false → byteTable b arena T → len (entries filled T) ≤ 2 ^ b →
  ∃ T', growBytes empty T = Ok (T', 2 ^ (b + 1) - 1) ∧ byteTable (b + 1) arena T' ∧ entries filled T' ≡ₚ entries filled T.
Proof using Type.
  intros Hb Hl He [Ht Hs Ha] Hlen. unfold growBytes. rewrite (wt_len _ _ _ _ _ Ht). destruct (doubled b empty Hb Hl) as [-> ->]. pose proof (width_pos b ltac:(lia)).
  assert (0 ≤ b + 1 ≤ 32) as Hb' by lia. destruct (blank_table filled hash (keyAt arena) (b + 1) Hb' empty He) as [Hz E0].
  destruct (rehash_ok filled hash (keyAt arena) (b + 1) Hb' T _ Hz) as (T' & -> & Ht' & Hp).
  - intros s Hin. rewrite (so_hash _ _ (Hs s Hin)). apply bsHash_nonneg.
  - rewrite E0, app_nil_r. apply Ht.
  - rewrite E0, app_nil_r, Z.pow_add_r by lia. lia.
  - rewrite E0, app_nil_r in Hp. cbn [mbind res_bind]. exists T'. split; [done|]. split; [|done]. split; [done| |done]. intros s. rewrite Hp. apply Hs.
Qed.
End arenas.

(** ** ByteSet *)

Definition sumLen (ks : list (list byte)) : Z := foldr (λ k n, len k + n) 0 ks.
Lemma sumLen_nonneg ks : 0 ≤ sumLen ks.
Proof. induction ks as [|k ks IH]; cbn; [lia|]. pose proof (len_nonneg k). unfold sumLen in IH. lia. Qed.
Lemma sumLen_app l k : sumLen (l ++ k) = sumLen l + sumLen k.
Proof. unfold sumLen. induction l as [|x l IH]; cbn [app foldr]; [lia|]. rewrite IH. lia. Qed.

Abbreviation keysIn ar T := (keyAt ar <$> entries filled T).

(** The inline keys. *)
Record inlineOK (s : ByteSet) (ks : list (list byte)) : Prop := {
  in_n : nSmall s = len ks;
  in_max : len ks ≤ 4;
  in_lens : length (smLen s) = 4%nat;
  in_small : length (small s) = 4%nat;
  in_width : ∀ i a, small s !! i = Some a → length a = 24%nat;
  in_key : ∀ i k, ks !! i = Some k → inlineKey s (Z.of_nat i) = Ok k ∧ idx (smLen s) (Z.of_nat i) = Ok (len k);
}.

(** [X] within [u] bytes of keys and [n] insertions. *)
Definition holdsBytes (s : ByteSet) (X : gset (list byte)) (u n : Z) : Prop :=
  bcount s = Z.of_nat (size X) ∧ bcount s ≤ n ∧
  match bslots s with
  | None => ∃ ks, inlineOK s ks ∧ arena s = [] ∧ NoDup ks ∧ list_to_set ks = X ∧ sumLen ks ≤ u
  | Some T => ∃ b, 4 ≤ b ≤ 32 ∧ bmask s = 2 ^ b - 1 ∧ byteTable b (arena s) T ∧ list_to_set (keysIn (arena s) T) = X ∧ bcount s * 4 ≤ 2 ^ b * 3 ∧ len (arena s) ≤ u
  end.

Lemma holdsBytes_new : holdsBytes newByteSet ∅ 0 0.
Proof.
  split; [done|]. split; [done|]. exists []. split; [split; try done|by split_and!; [|constructor|..]]. intros i a Ha. by apply lookup_replicate_1 in Ha as [-> _].
Qed.

Lemma keys_size (b : Z) (ar : list byte) (T : list bsSlot) (X : gset (list byte)) : byteTable b ar T → list_to_set (keysIn ar T) = X → Z.of_nat (size X) = len (entries filled T).
Proof. intros [Ht _ _] <-. rewrite size_list_to_set by apply Ht. unfold len. by rewrite length_fmap. Qed.

Lemma set_cons (ks : list (list byte)) k X : list_to_set ks = X → list_to_set (k :: ks) = ({[k]} ∪ X : gset (list byte)).
Proof. by intros <-. Qed.

Lemma size_add (k : list byte) (X : gset (list byte)) : k ∉ X → Z.of_nat (size ({[k]} ∪ X)) = Z.of_nat (size X) + 1.
Proof. intros Hk. rewrite size_union by set_solver. rewrite size_singleton. lia. Qed.

Lemma tableAdd_ok s ar T b X k u n : 4 ≤ b ≤ 32 → byteTable b ar T → list_to_set (keysIn ar T) = X → bcount s = Z.of_nat (size X) → bcount s ≤ n → bcount s * 4 ≤ 2 ^ b * 3 →
  len ar ≤ u → 4 * (n + 1) < 3 * 2 ^ 32 → u + len k < 2 ^ 32 →
  ∃ s', tableAdd s ar T (2 ^ b - 1) k = Ok (bool_decide (k ∉ X), s') ∧ holdsBytes s' ({[k]} ∪ X) (u + len k) (n + 1).
Proof.
  intros Hb HT HX Hc Hn Hload Hu Hfit Hk. unfold tableAdd. rewrite (wt_len _ _ _ _ _ (bt_table _ _ _ HT)). pose proof (keys_size _ _ _ _ HT HX) as Hsz. pose proof (len_nonneg k) as Hk0.
  assert (∃ T' b', (if decide (2 ^ b * 3 ≤ bcount s * 4) then growBytes emptyBs T else Ok (T, 2 ^ b - 1)) = Ok (T', 2 ^ b' - 1) ∧
    4 ≤ b' ≤ 32 ∧ byteTable b' ar T' ∧ entries filled T' ≡ₚ entries filled T ∧ (bcount s + 1) * 4 ≤ 2 ^ b' * 3) as (T' & b' & -> & Hb' & HT' & Ep & Hroom).
  { case_decide as Hg; [|exists T, b; split; [done|]; do 3 (split; [done|]); apply room_left; [lia|done]].
    pose proof (grow_below b 32 (bcount s) ltac:(lia) ltac:(lia) Hg ltac:(lia)). pose proof (width_pos b ltac:(lia)).
    destruct (growBytes_ok b emptyBs ar T ltac:(lia) ltac:(lia) ltac:(done) HT ltac:(lia)) as (T' & -> & HT' & Ep). exists T', (b + 1). split; [done|]. split; [lia|]. split; [done|]. split; [done|]. apply room_grown; [lia|done]. }
  cbn [mbind res_bind]. assert (list_to_set (keysIn ar T') = X) as HX' by (rewrite <- HX; apply leibniz_equiv; by rewrite Ep).
  destruct (byteTable_search b' ar T' k ltac:(lia) HT') as (i & [(x & -> & _ & Hin & Ek)|(-> & Hnew & Hput)]); [rewrite Ep; lia|..]; cbn [mbind res_bind].
  - assert (k ∈ X) as HkX by (rewrite <- HX', elem_of_list_to_set; apply list_elem_of_fmap; by exists x). rewrite bool_decide_false by tauto. eexists. split; [done|].
    replace ({[k]} ∪ X) with X by set_solver. split; [done|]. split; [cbn; lia|]. cbn. exists b'. split; [done|]. split; [done|]. split; [done|]. split; [done|]. lia.
  - assert (k ∉ X) as HkX by (by rewrite <- HX', elem_of_list_to_set). rewrite bool_decide_true by done. pose proof (bt_arena _ _ _ HT') as Ha. pose proof (len_nonneg ar).
    destruct (Hput (mkBsSlot (bsHash k) (to_u32 (len ar)) (to_u32 (len k)) true)) as (T2 & -> & HT2 & E2); [done|done|cbn; apply wrapU_small; lia|cbn; apply wrapU_small; lia|lia|].
    cbn [mbind res_bind]. eexists. split; [done|]. split; [cbn; rewrite size_add by done; lia|]. split; [cbn; lia|]. cbn. exists b'. split; [done|]. split; [done|]. split; [done|].
    destruct (byteTable_append b' ar T' k HT' ltac:(lia)) as [_ Ek]. destruct (slotOK_new ar k (mkBsSlot (bsHash k) (to_u32 (len ar)) (to_u32 (len k)) true)) as [_ Es]; [done|cbn; apply wrapU_small; lia|cbn; apply wrapU_small; lia|].
    split; [|split; [lia|rewrite len_app; lia]]. rewrite <- (set_cons _ k _ HX'). apply leibniz_equiv. rewrite E2. cbn [fmap list_fmap]. by rewrite Es, Ek.
Qed.

(** A loop over indices that reads a list is a loop over the list. *)
Lemma foldM_read {A B} (f : Z → res A) (g : B → A → res B) l b : (∀ i x, l !! i = Some x → f (Z.of_nat i) = Ok x) → foldM (λ b i, x ← f i; g b x) (zseq (len l)) b = foldM g l b.
Proof.
  induction l as [|x l IH] using rev_ind; intros Hf; [done|]. rewrite len_app, len_cons, len_nil, Z.add_0_l, zseq_S by apply len_nonneg. rewrite !foldM_app, IH.
  - destruct (foldM g l b) as [b'|e|]; cbn [mbind res_bind foldM]; [|done..]. unfold len. rewrite (Hf (length l) x); [done|]. by rewrite lookup_app_r, Nat.sub_diag.
  - intros i y Hi. apply Hf. by apply lookup_app_l_Some.
Qed.

Lemma insertNew_ok ar T k : byteTable 4 ar T → len (entries filled T) < 16 → k ∉ keysIn ar T → len ar + len k < 2 ^ 32 →
  ∃ T', insertNew (ar, T) 15 k = Ok (ar ++ k, T') ∧ byteTable 4 (ar ++ k) T' ∧ keysIn (ar ++ k) T' ≡ₚ k :: keysIn ar T.
Proof.
  intros HT Hlt Hnew Hl. pose proof (len_nonneg ar). pose proof (len_nonneg k). unfold insertNew. rewrite !wrapU_small by lia. set (s := mkBsSlot (bsHash k) (len ar) (len k) true).
  destruct (byteTable_append 4 ar T k HT Hl) as [[Ht Hs Ha] Ek]. destruct (slotOK_new ar k s) as [Hsk Es]; [done..|].
  destruct (probe_place_ok filled hash (keyAt (ar ++ k)) 4 ltac:(lia) T s Ht Hlt ltac:(done) (bsHash_nonneg k)) as (T' & E & Ht' & Ep); [by rewrite Ek, Es|].
  change (2 ^ 4 - 1) with 15 in E. rewrite E. cbn [mbind res_bind]. exists T'. split; [done|]. split.
  - split; [done| |done]. intros x. rewrite Ep, elem_of_cons. intros [->|Hx]; [done|by apply Hs].
  - rewrite Ep. cbn [fmap list_fmap]. by rewrite Es, Ek.
Qed.

Lemma insertAll_ok ks : ∀ ar T, byteTable 4 ar T → NoDup (ks ++ keysIn ar T) → len (ks ++ keysIn ar T) ≤ 4 → len ar + sumLen ks < 2 ^ 32 →
  ∃ ar' T', foldM (λ st k, insertNew st 15 k) ks (ar, T) = Ok (ar', T') ∧ byteTable 4 ar' T' ∧ keysIn ar' T' ≡ₚ ks ++ keysIn ar T ∧ len ar' = len ar + sumLen ks.
Proof.
  induction ks as [|k ks IH]; intros ar T HT Hnd Hlen Hsum; [exists ar, T; cbn; split_and!; [done|done|done|lia]|]. cbn [foldM]. pose proof (sumLen_nonneg ks) as Hs0.
  cbn [app] in Hnd, Hlen. rewrite len_cons, len_app, len_fmap in Hlen. pose proof (len_nonneg ks). apply NoDup_cons in Hnd as [Hk Hnd]. rewrite elem_of_app in Hk. change (sumLen (k :: ks)) with (len k + sumLen ks) in *.
  destruct (insertNew_ok ar T k HT) as (T1 & -> & HT1 & E1); [lia|tauto|lia|]. cbn [mbind res_bind].
  destruct (IH (ar ++ k) T1 HT1) as (ar' & T' & E & HT' & Ep & El).
  - rewrite E1, <- Permutation_middle. constructor; [by rewrite elem_of_app|done].
  - rewrite E1, <- Permutation_middle, len_cons, len_app, len_fmap. lia.
  - rewrite len_app. lia.
  - exists ar', T'. split; [done|]. split; [done|]. split; [by rewrite Ep, E1, <- Permutation_middle|]. rewrite El, len_app. lia.
Qed.

Lemma spill_ok s ks : inlineOK s ks → arena s = [] → NoDup ks → sumLen ks < 2 ^ 32 →
  ∃ ar T, spill s = Ok (ar, T) ∧ byteTable 4 ar T ∧ keysIn ar T ≡ₚ ks ∧ len ar = sumLen ks.
Proof.
  intros Hin Ha Hnd Hsum. unfold spill. rewrite (in_n _ _ Hin), Ha, (foldM_read (inlineKey s) (λ st k, insertNew st 15 k) ks) by (intros i x Hx; by apply (in_key _ _ Hin)).
  destruct (byteTable_blank 4 emptyBs [] ltac:(lia) ltac:(done) ltac:(done)) as [HT E0]. change (Z.to_nat (2 ^ 4)) with 16%nat in *.
  destruct (insertAll_ok ks [] (replicate 16 emptyBs) HT) as (ar & T & E & HT' & Ep & El); [by rewrite E0, app_nil_r|rewrite E0, app_nil_r; apply Hin|done|].
  rewrite E0, app_nil_r in Ep. exists ar, T. split; [exact E|]. split; [done|]. split; [done|]. by rewrite El.
Qed.

Lemma inlineHas_ok s ks b : inlineOK s ks → inlineHas s b = Ok (bool_decide (b ∈ ks)).
Proof.
  intros Hin. unfold inlineHas. rewrite (in_n _ _ Hin).
  destruct (foldM_zseq (λ i found, found = bool_decide (b ∈ take (Z.to_nat i) ks)) (λ found i, if found : bool then Ok true else
    n ← idx (smLen s) i; if decide (n = len b) then k ← inlineKey s i; Ok (bool_decide (k = b)) else Ok false) (len ks) false) as (found & E & ->).
  - apply len_nonneg.
  - by rewrite bool_decide_false by apply not_elem_of_nil.
  - intros i found Hi ->. destruct (lookup_lt_is_Some_2 ks (Z.to_nat i)) as [k Hk]; [unfold len in Hi; lia|]. destruct (in_key _ _ Hin _ k Hk) as [E1 E2]. rewrite Z2Nat.id in E1, E2 by lia.
    replace (Z.to_nat (i + 1)) with (S (Z.to_nat i)) by lia. rewrite (take_S_r _ _ k) by done. case_bool_decide as D.
    + eexists. split; [done|]. symmetry. apply bool_decide_eq_true. apply elem_of_app. by left.
    + rewrite E2. cbn [mbind res_bind]. eexists. split; [|reflexivity]. case_decide as Dl; [rewrite E1; cbn [mbind res_bind]|]; f_equal; apply bool_decide_ext || symmetry; [|apply bool_decide_eq_false]; rewrite elem_of_app, list_elem_of_singleton.
      * split; [intros ->; by right|]. intros [?|?]; [done|by symmetry].
      * intros [?|E]; [done|]. by rewrite E in Dl.
  - by rewrite E, to_nat_len, take_ge.
Qed.

(** One more inline key. *)
Lemma inlineOK_add s ks b : inlineOK s ks → nSmall s < 4 → len b ≤ 24 → ∃ a sm ln, idx (small s) (nSmall s) = Ok a ∧ upd (small s) (nSmall s) (copyInto a b) = Ok sm ∧
  upd (smLen s) (nSmall s) (to_u8 (len b)) = Ok ln ∧ ∀ ar c, inlineOK (mkByteSet ar None c (bcount s + 1) (to_u8 (nSmall s + 1)) ln sm) (ks ++ [b]).
Proof.
  intros [Hn Hmax Hl Hs Hwd Hk] H4 H24. pose proof (len_nonneg ks) as H0. pose proof (len_nonneg b) as Hb0. assert (Z.to_nat (nSmall s) = length ks) as En by (rewrite Hn; apply to_nat_len).
  destruct (lookup_lt_is_Some_2 (small s) (length ks)) as [a Ha]; [lia|]. pose proof (Hwd _ _ Ha) as Ha24. unfold len in H24.
  assert (length (copyInto a b) = 24%nat) as Hcl by (unfold copyInto; rewrite length_app, length_take, length_drop; lia).
  exists a, (<[length ks := copyInto a b]> (small s)), (<[length ks := len b]> (smLen s)). rewrite wrapU_small by (unfold len in *; lia). split; [apply idx_lookup; [lia|by rewrite En]|].
  unfold upd. rewrite !decide_True by (unfold len in *; lia). rewrite En. split; [done|]. split; [done|]. intros ar c. split; cbn.
  - rewrite len_app, len_cons, len_nil, wrapU_small by lia. lia.
  - rewrite len_app, len_cons, len_nil. lia.
  - by rewrite length_insert.
  - by rewrite length_insert.
  - intros i x [(_ & <- & _)|[_ Hx]]%list_lookup_insert_Some; [done|by eapply Hwd].
  - intros i k Hik. unfold inlineKey in *. cbn [smLen small]. apply lookup_app_Some in Hik as [Hik|[Hge Hik]].
    + pose proof (lookup_lt_Some _ _ _ Hik). destruct (Hk i k Hik) as [E1 E2]. unfold idx in *. destruct (decide (Z.of_nat i < 0)); [lia|]. rewrite Nat2Z.id in *. by rewrite !list_lookup_insert_ne by lia.
    + apply list_lookup_singleton_Some in Hik as [Hi <-]. assert (i = length ks) as -> by lia. rewrite (idx_lookup _ (Z.of_nat (length ks)) (len b)) by (try lia; rewrite Nat2Z.id; apply list_lookup_insert_eq; lia).
      rewrite (idx_lookup _ (Z.of_nat (length ks)) (copyInto a b)) by (try lia; rewrite Nat2Z.id; apply list_lookup_insert_eq; lia). cbn [mbind res_bind]. split; [|done].
      unfold copyInto. rewrite take_ge by (rewrite Ha24; lia). apply slice_prefix.
Qed.

Lemma holdsBytes_weaken s X u n u' n' : holdsBytes s X u n → u ≤ u' → n ≤ n' → holdsBytes s X u' n'.
Proof.
  intros (Hc & Hn & Hs) Hu Hn'. split; [done|]. split; [lia|]. destruct (bslots s).
  - destruct Hs as (b & ? & ? & ? & ? & ? & ?). exists b. split_and!; try done; lia.
  - destruct Hs as (ks & ? & ? & ? & ? & ?). exists ks. split_and!; try done; lia.
Qed.

Lemma AddBytes_ok s X k u n : holdsBytes s X u n → 4 * (n + 1) < 3 * 2 ^ 32 → u + len k < 2 ^ 32 →
  ∃ s', AddBytes s k = Ok (bool_decide (k ∉ X), s') ∧ holdsBytes s' ({[k]} ∪ X) (u + len k) (n + 1).
Proof.
  intros Hh Hfit Hu. pose proof (len_nonneg k) as Hk0. pose proof Hh as (Hc & Hn & Hs). unfold AddBytes. destruct (bslots s) as [T|] eqn:Es.
  - destruct Hs as (b & Hb & -> & HT & HX & Hload & Ha). by apply (tableAdd_ok s (arena s) T b X k u n).
  - destruct Hs as (ks & Hin & Ha & Hnd & HX & Hsum). rewrite (inlineHas_ok s ks k Hin). cbn [mbind res_bind]. assert (k ∈ X ↔ k ∈ ks) as HkX by (by rewrite <- HX, elem_of_list_to_set).
    destruct (decide (k ∈ ks)) as [Hks|Hks]; [rewrite bool_decide_true by done|rewrite bool_decide_false by done].
    { rewrite bool_decide_false by tauto. exists s. split; [done|]. replace ({[k]} ∪ X) with X by set_solver. eapply holdsBytes_weaken; [done|lia|lia]. }
    rewrite bool_decide_true by tauto. assert (len (small s) = 4) as E4 by (unfold len; by rewrite (in_small _ _ Hin)). rewrite E4. case_decide as D.
    + destruct (inlineOK_add s ks k Hin) as (a & sm & ln & -> & E1 & E2 & Hin'); [lia|lia|]. cbn [mbind res_bind]. rewrite E1. cbn [mbind res_bind]. rewrite E2. cbn [mbind res_bind].
      eexists. split; [done|]. split; [cbn; rewrite size_add by tauto; lia|]. split; [cbn; lia|]. cbn. exists (ks ++ [k]). split; [apply Hin'|]. split; [done|].
      split; [apply NoDup_app; split; [done|]; split; [intros x Hx ->%list_elem_of_singleton; done|apply NoDup_singleton]|]. split; [rewrite <- HX, list_to_set_app_L; cbn; set_solver|]. rewrite sumLen_app. cbn. lia.
    + destruct (spill_ok s ks Hin Ha Hnd ltac:(lia)) as (ar & T & -> & HT & Ep & El). cbn [mbind res_bind].
      assert (list_to_set (keysIn ar T) = X) as HX' by (rewrite <- HX; apply leibniz_equiv; by rewrite Ep). pose proof (in_max _ _ Hin) as Hmax.
      assert (Z.of_nat (size X) = len ks) as Hsz by (rewrite <- HX, size_list_to_set by done; done).
      destruct (tableAdd_ok s ar T 4 X k u n) as (s' & E & Hs'); try done; try lia. rewrite (bool_decide_true (k ∉ X)) in E by tauto. change (2 ^ 4 - 1) with 15 in E. rewrite E. by exists s'.
Qed.

Lemma LenBytes_ok s X u n : holdsBytes s X u n → LenBytes s = Z.of_nat (size X).
Proof. by intros [? _]. Qed.

(** ** ByteMap *)

Abbreviation pairAt ar := (λ s, (keyAt ar s, bm_val s)).

Definition holdsBM (m : ByteMap) (M : gmap (list byte) Z) (u n : Z) : Prop :=
  bmcount m = Z.of_nat (size M) ∧ bmcount m ≤ n ∧
  match bmslots m with
  | None => M = ∅ ∧ marena m = [] ∧ 0 ≤ u
  | Some T => ∃ b, 4 ≤ b ≤ 32 ∧ bmmask m = 2 ^ b - 1 ∧ byteTable b (marena m) T ∧ list_to_map (pairAt (marena m) <$> entries filled T) = M ∧
      bmcount m * 4 ≤ 2 ^ b * 3 ∧ len (marena m) ≤ u
  end.

Lemma pairs_fst ar (l : list bmSlot) : (pairAt ar <$> l).*1 = keyAt ar <$> l.
Proof. rewrite <- list_fmap_compose. by apply list_fmap_ext. Qed.

Lemma bm_size (b : Z) (ar : list byte) (T : list bmSlot) (M : gmap (list byte) Z) : byteTable b ar T → list_to_map (pairAt ar <$> entries filled T) = M → Z.of_nat (size M) = len (entries filled T).
Proof.
  intros [Ht _ _] <-. rewrite <- size_dom, dom_list_to_map_L, pairs_fst, size_list_to_set by apply Ht. unfold len. by rewrite length_fmap.
Qed.

(** What a search of the table says of the map. *)
Lemma bm_search (b : Z) (ar : list byte) (T : list bmSlot) (M : gmap (list byte) Z) k : 0 ≤ b ≤ 32 → byteTable b ar T → list_to_map (pairAt ar <$> entries filled T) = M → Z.of_nat (size M) < 2 ^ b →
  ∃ i, match M !! k with
    | Some v => searchKey ar k T (2 ^ b - 1) = Ok (true, i) ∧ ∃ s, idx T i = Ok s ∧ bm_val s = v
    | None => searchKey ar k T (2 ^ b - 1) = Ok (false, i) ∧ ∀ v, len ar + len k < 2 ^ 32 →
        ∃ T', upd T i (mkBmSlot (bsHash k) (to_u32 (len ar)) (to_u32 (len k)) v true) = Ok T' ∧ byteTable b (ar ++ k) T' ∧
          list_to_map (pairAt (ar ++ k) <$> entries filled T') = <[k := v]> M
    end.
Proof.
  intros Hb HT HM Hlt. rewrite (bm_size _ _ _ _ HT HM) in Hlt. pose proof (len_nonneg ar). pose proof (len_nonneg k).
  destruct (byteTable_search b ar T k Hb HT Hlt) as (i & [(s & E & Ei & Hin & Ek)|(E & Hnew & Hput)]); exists i.
  - assert (M !! k = Some (bm_val s)) as ->; [|split; [done|by exists s]]. rewrite <- HM. apply elem_of_list_to_map_1; [rewrite pairs_fst; apply HT|]. apply list_elem_of_fmap. exists s. by rewrite Ek.
  - assert (M !! k = None) as ->. { rewrite <- HM. apply not_elem_of_list_to_map_1. by rewrite pairs_fst. }
    split; [done|]. intros v Hl. set (s := mkBmSlot (bsHash k) (to_u32 (len ar)) (to_u32 (len k)) v true).
    assert (off s = len ar) as Eo by (cbn; apply wrapU_small; lia). assert (length_ s = len k) as El by (cbn; apply wrapU_small; lia).
    destruct (Hput s) as (T' & -> & HT' & Ep); [done|done|done|done|done|]. exists T'. split; [done|]. split; [done|]. destruct (slotOK_new ar k s) as [_ Es]; [done..|].
    transitivity (list_to_map (M := gmap (list byte) Z) (pairAt (ar ++ k) <$> s :: entries filled T)).
    + apply list_to_map_proper; [rewrite pairs_fst; apply HT'|by rewrite Ep].
    + rewrite fmap_cons, list_to_map_cons, Es, <- HM. f_equal. f_equal. apply list_fmap_ext. intros j x Hx. f_equal. apply keyAt_app, (bt_slots _ _ _ HT). by eapply list_elem_of_lookup_2.
Qed.

Lemma GetOrCreateBytes_ok {A} m M k (create : A → Z * A) st u n : holdsBM m M u n → 4 * (n + 1) < 3 * 2 ^ 32 → u + len k < 2 ^ 32 →
  match M !! k with
  | Some v => ∃ m', GetOrCreateBytes m k create st = Ok (v, m', st) ∧ holdsBM m' M (u + len k) (n + 1)
  | None => ∃ m', GetOrCreateBytes m k create st = Ok ((create st).1, m', (create st).2) ∧ holdsBM m' (<[k := (create st).1]> M) (u + len k) (n + 1)
  end.
Proof.
  intros (Hc & Hn & Hs) Hfit Hu. pose proof (len_nonneg k) as Hk0. unfold GetOrCreateBytes.
  assert (∃ T b, match bmslots m with Some T => (T, bmmask m) | None => (replicate 16 emptyBm, 15) end = (T, 2 ^ b - 1) ∧ 4 ≤ b ≤ 32 ∧ byteTable b (marena m) T ∧
    list_to_map (pairAt (marena m) <$> entries filled T) = M ∧ bmcount m * 4 ≤ 2 ^ b * 3 ∧ len (marena m) ≤ u) as (T & b & -> & Hb & HT & HM & Hload & Ha).
  { destruct (bmslots m) as [T|]; [destruct Hs as (b & Hb & -> & ?); by exists T, b|]. destruct Hs as (-> & -> & ?). exists (replicate 16 emptyBm), 4. split; [done|]. split; [lia|].
    destruct (byteTable_blank 4 emptyBm [] ltac:(lia) ltac:(done) ltac:(done)) as [HT E0]. change (Z.to_nat (2 ^ 4)) with 16%nat in *. split; [done|]. split; [by rewrite E0|]. rewrite Hc. split; [done|by rewrite len_nil]. }
  pose proof (bm_size _ _ _ _ HT HM) as Hsz. rewrite (wt_len _ _ _ _ _ (bt_table _ _ _ HT)).
  assert (∃ T' b', (if decide (2 ^ b * 3 ≤ bmcount m * 4) then growBytes emptyBm T else Ok (T, 2 ^ b - 1)) = Ok (T', 2 ^ b' - 1) ∧
    4 ≤ b' ≤ 32 ∧ byteTable b' (marena m) T' ∧ list_to_map (pairAt (marena m) <$> entries filled T') = M ∧ (bmcount m + 1) * 4 ≤ 2 ^ b' * 3) as (T' & b' & -> & Hb' & HT' & HM' & Hroom).
  { case_decide as Hg; [|exists T, b; split; [done|]; do 3 (split; [done|]); apply room_left; [lia|done]].
    pose proof (grow_below b 32 (bmcount m) ltac:(lia) ltac:(lia) Hg ltac:(lia)). pose proof (width_pos b ltac:(lia)).
    destruct (growBytes_ok b emptyBm (marena m) T ltac:(lia) ltac:(lia) ltac:(done) HT ltac:(lia)) as (T' & -> & HT' & Ep). exists T', (b + 1). split; [done|]. split; [lia|]. split; [done|].
    split; [|apply room_grown; [lia|done]]. rewrite <- HM. apply list_to_map_proper; [rewrite pairs_fst; apply HT'|by rewrite Ep]. }
  cbn [mbind res_bind]. destruct (bm_search b' (marena m) T' M k ltac:(lia) HT' HM' ltac:(lia)) as (i & Hf). destruct (M !! k) as [v|] eqn:Ev.
  - destruct Hf as [-> (s & E & <-)]. cbn [mbind res_bind]. rewrite E. cbn [mbind res_bind]. eexists. split; [done|]. split; [done|]. split; [cbn; lia|]. exists b'. cbn. split_and!; try done; lia.
  - destruct Hf as [-> Hput]. cbn [mbind res_bind]. destruct (create st) as [v st']. cbn [fst snd]. destruct (Hput v ltac:(lia)) as (T2 & -> & HT2 & HM2). cbn [mbind res_bind].
    eexists. split; [done|]. split; [cbn; rewrite map_size_insert_None by done; lia|]. split; [cbn; lia|]. exists b'. cbn. rewrite len_app. split_and!; try done; lia.
Qed.

Lemma GetBytes_ok m M k u n : holdsBM m M u n → GetBytes m k = Ok (M !! k).
Proof.
  intros (Hc & _ & Hs). unfold GetBytes. destruct (bmslots m) as [T|]; [|by destruct Hs as [-> _]]. destruct Hs as (b & Hb & -> & HT & HM & Hload & _). pose proof (width_pos b ltac:(lia)).
  destruct (bm_search b (marena m) T M k ltac:(lia) HT HM ltac:(lia)) as (i & Hf). destruct (M !! k) as [v|]; [|by destruct Hf as [-> _]].
  destruct Hf as [-> (s & E & <-)]. cbn [mbind res_bind]. by rewrite E.
Qed.

(** ** Sequences of operations *)

Inductive opBytes := BAdd (k : list byte) | BLen | PCreate (k : list byte) | PGet (k : list byte) | PLen.

(** Bytes an operation may add to an arena. *)
Definition needs (op : opBytes) : Z := match op with BAdd k | PCreate k => len k | _ => 0 end.
Definition needAll (tr : list opBytes) : Z := foldr (λ op n, needs op + n) 0 tr.

Section traces.
Context {A : Type} (create : A → Z * A).

Definition stepBytes (st : ByteSet * ByteMap * A) (op : opBytes) : res (out64 * (ByteSet * ByteMap * A)) :=
  let '(s, m, a) := st in
  match op with
  | BAdd k => '(b, s) ← AddBytes s k; Ok (OBool b, (s, m, a))
  | BLen => Ok (OInt (LenBytes s), (s, m, a))
  | PCreate k => '(v, m, a) ← GetOrCreateBytes m k create a; Ok (OInt v, (s, m, a))
  | PGet k => o ← GetBytes m k; Ok (OOpt o, (s, m, a))
  | PLen => Ok (OInt (LenByteMap m), (s, m, a))
  end.
Fixpoint runBytes (st : ByteSet * ByteMap * A) (tr : list opBytes) : res (list out64 * (ByteSet * ByteMap * A)) :=
  match tr with
  | [] => Ok ([], st)
  | op :: tr => '(o, st) ← stepBytes st op; '(os, st) ← runBytes st tr; Ok (o :: os, st)
  end.

Definition specBytes (st : gset (list byte) * gmap (list byte) Z * A) (op : opBytes) : out64 * (gset (list byte) * gmap (list byte) Z * A) :=
  let '(X, M, a) := st in
  match op with
  | BAdd k => (OBool (bool_decide (k ∉ X)), ({[k]} ∪ X, M, a))
  | BLen => (OInt (Z.of_nat (size X)), (X, M, a))
  | PCreate k =>
      match M !! k with
      | Some v => (OInt v, (X, M, a))
      | None => let '(v, a) := create a in (OInt v, (X, <[k := v]> M, a))
      end
  | PGet k => (OOpt (M !! k), (X, M, a))
  | PLen => (OInt (Z.of_nat (size M)), (X, M, a))
  end.
Fixpoint specRunBytes (st : gset (list byte) * gmap (list byte) Z * A) (tr : list opBytes) : list out64 :=
  match tr with
  | [] => []
  | op :: tr => let '(o, st) := specBytes st op in o :: specRunBytes st tr
  end.

Definition holdsBoth (c : ByteSet * ByteMap * A) (st : gset (list byte) * gmap (list byte) Z * A) (u n : Z) : Prop :=
  holdsBytes c.1.1 st.1.1 u n ∧ holdsBM c.1.2 st.1.2 u n ∧ c.2 = st.2.

Lemma holdsBM_weaken m M u n u' n' : holdsBM m M u n → u ≤ u' → n ≤ n' → holdsBM m M u' n'.
Proof using Type.
  intros (Hc & Hn & Hs) Hu Hn'. split; [done|]. split; [lia|]. destruct (bmslots m).
  - destruct Hs as (b & ? & ? & ? & ? & ? & ?). exists b. split_and!; try done; lia.
  - destruct Hs as (? & ? & ?). split_and!; try done; lia.
Qed.

Lemma stepBytes_ok c st op u n : holdsBoth c st u n → 4 * (n + 1) < 3 * 2 ^ 32 → u + needs op < 2 ^ 32 →
  ∃ c', stepBytes c op = Ok ((specBytes st op).1, c') ∧ holdsBoth c' (specBytes st op).2 (u + needs op) (n + 1).
Proof using Type.
  destruct c as [[s m] a], st as [[X M] a']. intros (Hs & Hm & Ha) Hfit Hu. cbn in Hs, Hm, Ha. subst a'.
  assert (0 ≤ needs op) as H0 by (destruct op; cbn; try lia; apply len_nonneg).
  assert (holdsBytes s X (u + needs op) (n + 1) ∧ holdsBM m M (u + needs op) (n + 1)) as [Hs' Hm'] by (split; [eapply holdsBytes_weaken|eapply holdsBM_weaken]; done || lia).
  destruct op as [k| |k|k|]; cbn [stepBytes specBytes needs fst snd] in *.
  - destruct (AddBytes_ok s X k u n) as (s1 & -> & H1); [done|lia|lia|]. eexists. split; [done|by split_and!].
  - rewrite (LenBytes_ok s X u n) by done. eexists. split; [done|by split_and!].
  - pose proof (GetOrCreateBytes_ok m M k create a u n Hm Hfit Hu) as Hg. destruct (M !! k); destruct Hg as (m1 & -> & H1); cbn [mbind res_bind]; [|destruct (create a) as [v a2]]; eexists; (split; [done|by split_and!]).
  - rewrite (GetBytes_ok m M k u n) by done. eexists. split; [done|by split_and!].
  - unfold LenByteMap. rewrite (proj1 Hm). eexists. split; [done|by split_and!].
Qed.

Lemma runBytes_ok tr : ∀ c st u n, holdsBoth c st u n → 4 * (n + len tr) < 3 * 2 ^ 32 → u + needAll tr < 2 ^ 32 → ∃ c', runBytes c tr = Ok (specRunBytes st tr, c').
Proof using Type.
  induction tr as [|op tr IH]; intros c st u n Hh Hfit Hu; [by exists c|]. cbn [runBytes specRunBytes]. rewrite len_cons in Hfit. change (needAll (op :: tr)) with (needs op + needAll tr) in Hu. pose proof (len_nonneg tr).
  assert (0 ≤ needAll tr) as H0. { clear. induction tr as [|op tr IH]; [done|]. change (needAll (op :: tr)) with (needs op + needAll tr). assert (0 ≤ needs op); [destruct op; cbn; try lia; apply len_nonneg|lia]. }
  destruct (stepBytes_ok c st op u n Hh ltac:(lia) ltac:(lia)) as (c1 & -> & H1). destruct (specBytes st op) as [o st1]. cbn [mbind res_bind fst snd] in *.
  destruct (IH c1 st1 _ _ H1) as (c2 & ->); [lia|lia|]. by exists c2.
Qed.
End traces.

(** C13: The flat byte set and map are a set and a map. Any sequence of Add and Len on a
    byte set and GetOrCreate, Get and Len on a byte map whose keys total less than 4 GiB
    runs without panic, every probe ending, and answers exactly as a finite set and a
    finite map of byte strings, through the inline keys, their spill into the table and
    every doubling, whatever the hashes collide on. *)
Theorem flat_bytes_exact {A} (create : A → Z * A) a tr : 4 * len tr < 3 * 2 ^ 32 → needAll tr < 2 ^ 32 →
  ∃ c, runBytes create (newByteSet, newByteMap, a) tr = Ok (specRunBytes create (∅, ∅, a) tr, c).
Proof.
  intros Hfit Hu. apply (runBytes_ok create tr _ _ 0 0); [|lia|lia]. split; [apply holdsBytes_new|]. split; [|done]. by split_and!.
Qed.

Lemma flat_bytes_exact_witness : ∃ c, runBytes (λ n, (n, n + 1)) (newByteSet, newByteMap, 0) [BAdd [Byte.x61]; BAdd []; BAdd [Byte.x61]; PCreate [Byte.x62]; PCreate []; PCreate [Byte.x62]; PGet [Byte.x63]; BLen; PLen]
  = Ok ([OBool true; OBool true; OBool false; OInt 0; OInt 1; OInt 0; OOpt None; OInt 2; OInt 2], c).
Proof.
  apply (flat_bytes_exact (λ n, (n, n + 1)) 0 [BAdd [Byte.x61]; BAdd []; BAdd [Byte.x61]; PCreate [Byte.x62]; PCreate []; PCreate [Byte.x62]; PGet [Byte.x63]; BLen; PLen]); by vm_compute.
Defined.
