(* ===== verification/TypedQuery.v ===== *)
(** Bound-pair queries: [src/typedadj_query.go].

    Counting and seeking the matching relationships between two given nodes. Each
    query picks the shorter of the two nodes' runs, through the typed view, the run
    view or the sorted edge keys of the type, and falls back to a scan. *)

From S2P Require Import Prelude Value AtomTable NodeSet RelTypes InToOut Snapshot TypedAdj Traverse.

(** [for _, x := range run { if x == target { n++ } }] *)
Definition countHits (run : list Z) (target : Z) : Z := foldl (λ n x, if decide (x = target) then n + 1 else n) 0 run.

(** [for i := lo; i < len(keys) && keys[i] == key; i++ { n++ }] *)
Fixpoint keyRun (fuel : nat) (keys : list Z) (key i n : Z) : res Z :=
  if decide (len keys ≤ i) then Ok n
  else
    x ← idx keys i;
    if decide (x = key) then match fuel with O => Panic | S fuel => keyRun fuel keys key (i + 1) (n + 1) end
    else Ok n.

(** [slices.BinarySearch] finds the first key that is not below. *)
Definition countKeyHits (keys : list Z) (key : Z) : res Z :=
  lo ← bisect (length keys) (λ i, x ← idx keys i; Ok (bool_decide (x < key))) 0 (len keys);
  keyRun (length keys) keys key lo 0.

Definition appendPosEq (dst nbrs poss : list Z) (lo hi target : Z) : res (list Z) :=
  foldM (λ dst k, n ← idx nbrs k; if decide (n = target) then p ← idx poss k; Ok (dst ++ [p]) else Ok dst) (seqZ lo (hi - lo)) dst.

Definition sortTailU32 (dst : list Z) (base : Z) : res (list Z) :=
  if decide (1 < len dst - base) then
    tail ← slice dst base (len dst);
    head ← slice dst 0 base;
    Ok (head ++ merge_sort Z.le tail)
  else Ok dst.

(** [uint64(a)<<32 | uint64(uint32(b))] *)
Definition edgeKey (a b : Z) : Z := Z.lor (to_u64 (Z.shiftl a 32)) b.

Section query.
Context {bm : Type} `{RoaringSet bm}.
Abbreviation Match_t := (RelMatch (Snapshot bm)).
Implicit Types (g : Snapshot bm) (m : Match_t).

(** One node's keys. *)
Definition edgeKeysOf g (t u : Z) (keys : list Z) : res (list Z) :=
  lo ← idx (outOffsets g) u;
  hi ← idx (outOffsets g) (u + 1);
  foldM (λ keys k,
    ty ← At (outTypes g) k;
    if decide (ty = t) then n ← idx (outNbrs g) k; Ok (keys ++ [edgeKey (to_u32 u) n]) else Ok keys) (seqZ lo (hi - lo)) keys.

(** Built once per holder; the count only sizes the allocation. *)
Definition edgeKeys (p : typedPair (Snapshot bm)) : res (list Z) :=
  keys ← foldM (λ keys u, edgeKeysOf (tp_g p) (tp_t p) u keys) (zseq (len (outOffsets (tp_g p)) - 1)) [];
  Ok (merge_sort Z.le keys).

Definition countDirMatch g (u v : Z) (out : bool) m : res Z :=
  o ← view (tp m) out;
  match o with
  | Some tcU =>
      oV ← view (tp m) (negb out);
      '(loU, hiU) ← relRange (tc_offsets tcU) u;
      flip ← match oV with
        | Some tcV =>
            '(loV, hiV) ← relRange (tc_offsets tcV) v;
            if decide (hiV - loV < hiU - loU) then s ← slice (tc_nbrs tcV) loV hiV; Ok (Some (countHits s u)) else Ok None
        | None => Ok None end;
      match flip with
      | Some n => Ok n
      | None => s ← slice (tc_nbrs tcU) loU hiU; Ok (countHits s v)
      end
  | None =>
      match tp m with
      | Some p =>
          keys ← edgeKeys p;
          let '(a, b) := if out then (u, v) else (v, u) in
          countKeyHits keys (edgeKey a b)
      | None =>
          '(lo, hi) ← relRange (dirOffsets g out) u;
          if decide (kind m = 0) then
            foldM (λ n k, x ← idx (dirNbrs g out) k; Ok (if decide (x = v) then n + 1 else n)) (seqZ lo (hi - lo)) 0
          else if decide (lo < hi) then
            foldM (λ n k, x ← idx (dirNbrs g out) k;
              if decide (x = v) then b ← typeTest m (dirTypes g out) out (to_u32 k); Ok (if b : bool then n + 1 else n) else Ok n) (seqZ lo (hi - lo)) 0
          else Ok 0
      end
  end.

Definition CountNeighborsMatch g (u v : Z) (dir : Direction) m : res Z :=
  n ← (if goesOut dir then countDirMatch g u v true m else Ok 0);
  k ← (if goesIn dir then countDirMatch g u v false m else Ok 0);
  Ok (n + k).

(** A run of [u] against one of [v], the shorter one scanned when flipping is allowed. *)
Definition appendPicked (dst : list Z) (u v : Z) (flip : option (list Z * list Z * Z * Z)) (nbrsU possU : list Z) (loU hiU : Z) : res (list Z) :=
  let base := len dst in
  match flip with
  | Some (nbrsV, possV, loV, hiV) =>
      if decide (hiV - loV < hiU - loU) then dst ← appendPosEq dst nbrsV possV loV hiV u; sortTailU32 dst base
      else dst ← appendPosEq dst nbrsU possU loU hiU v; sortTailU32 dst base
  | None => dst ← appendPosEq dst nbrsU possU loU hiU v; sortTailU32 dst base
  end.

(** The scan fallback. *)
Definition appendScan g (dst : list Z) (u v : Z) (out : bool) m : res (list Z) :=
  posMap ← (if out then Ok [] else getInToOut g);
  '(lo, hi) ← relRange (dirOffsets g out) u;
  if decide (lo < hi) then
    foldM (λ dst k,
      n ← idx (dirNbrs g out) k;
      if decide (n = v) then
        b ← typeTest m (dirTypes g out) out (to_u32 k);
        if b : bool then p ← mapPos posMap k; Ok (dst ++ [p]) else Ok dst
      else Ok dst) (seqZ lo (hi - lo)) dst
  else Ok dst.

Definition appendDirPosMatch g (dst : list Z) (u v : Z) (out : bool) m : res (list Z) :=
  let flipOK := hasRelProps g in
  o ← view (tp m) out;
  match o with
  | Some tcU =>
      '(loU, hiU) ← relRange (tc_offsets tcU) u;
      oV ← view (tp m) (negb out);
      flip ← match oV with
        | Some tcV => if flipOK then '(loV, hiV) ← relRange (tc_offsets tcV) v; Ok (Some (tc_nbrs tcV, tc_poss tcV, loV, hiV)) else Ok None
        | None => Ok None end;
      appendPicked dst u v flip (tc_nbrs tcU) (tc_poss tcU) loU hiU
  | None =>
      r ← runs (tp m) out;
      match r with
      | Some trU =>
          '(loU, hiU) ← runRange trU u;
          rV ← runs (tp m) (negb out);
          flip ← match rV with
            | Some trV => if flipOK then '(loV, hiV) ← runRange trV v; Ok (Some (tr_nbrs trV, tr_poss trV, loV, hiV)) else Ok None
            | None => Ok None end;
          appendPicked dst u v flip (tr_nbrs trU) (tr_poss trU) loU hiU
      | None => appendScan g dst u v out m
      end
  end.

Definition AppendRelsBetweenMatch g (dst : list Z) (u v : Z) (dir : Direction) m : res (list Z) :=
  dst ← (if goesOut dir then appendDirPosMatch g dst u v true m else Ok dst);
  if goesIn dir then appendDirPosMatch g dst u v false m else Ok dst.
End query.
