(* ===== verification/TypedQuerySpec.v ===== *)
(** Bound-pair queries agree with enumeration: [src/typedadj_query.go].

    Counting or seeking the relationships between two nodes gives what enumerating
    one node's relationships and keeping those to the other gives, whichever side and
    whichever view is scanned. The interface is [mirrored]: a relationship is seen
    from both of its ends; finalized snapshots provide it. *)

From S2P Require Import Prelude Value AtomTable Columns NodeSet Csr RelTypes InToOut Snapshot TypedAdj Traverse Builder BuilderInv Compaction Finalize FinalizeSpec.
From S2P Require Import SearchBfsSpec BuiltSearch ProbeTable TypedQuery.

(** ** Counting in lists *)

Lemma countHits_ok run target : countHits run target = len (filter (λ x, x = target) run).
Proof.
  unfold countHits. assert (∀ n, foldl (λ n x, if decide (x = target) then n + 1 else n) n run = n + len (filter (λ x, x = target) run)) as E; [|by rewrite E].
  induction run as [|x run IH]; intros n; cbn [foldl]; [rewrite filter_nil, len_nil; lia|]. rewrite filter_cons, IH. case_decide; rewrite ?len_cons; lia.
Qed.

Lemma keyRun_ok fuel : ∀ keys key i n, StronglySorted Z.le keys → 0 ≤ i ≤ len keys → len keys - i ≤ Z.of_nat fuel →
  (∀ j x, i ≤ Z.of_nat j → keys !! j = Some x → key ≤ x) → keyRun fuel keys key i n = Ok (n + len (filter (λ x, x = key) (drop (Z.to_nat i) keys))).
Proof.
  induction fuel as [|fuel IH]; intros keys key i n Hs Hi Hf Hge; cbn [keyRun].
  { rewrite decide_True by lia. rewrite drop_ge by (unfold len in *; lia). rewrite filter_nil, len_nil. f_equal. lia. }
  case_decide as D; [rewrite drop_ge by (unfold len in *; lia); rewrite filter_nil, len_nil; f_equal; lia|].
  destruct (idx_ok keys i ltac:(lia)) as (x & -> & Hx). cbn [mbind res_bind]. rewrite (drop_S _ _ _ Hx), filter_cons. case_decide as E.
  - rewrite IH; [|done|lia|lia|intros j y Hj; apply Hge; lia]. replace (Z.to_nat (i + 1)) with (S (Z.to_nat i)) by lia. rewrite len_cons. f_equal. lia.
  - assert (filter (λ x, x = key) (drop (S (Z.to_nat i)) keys) = []) as ->; [|rewrite len_nil; f_equal; lia].
    assert (key < x) as Hlt by (specialize (Hge (Z.to_nat i) x ltac:(lia) Hx); lia). apply filter_empty, Forall_lookup. intros j y Hj Ey. rewrite lookup_drop in Hj.
    rewrite <- (take_drop_middle keys _ _ Hx) in Hs. apply StronglySorted_app in Hs as (_ & _ & Hs). apply StronglySorted_inv in Hs as [_ Hall].
    rewrite Forall_lookup in Hall. specialize (Hall j y). rewrite lookup_drop in Hall. specialize (Hall Hj). lia.
Qed.

Lemma countKeyHits_ok keys key : StronglySorted Z.le keys → countKeyHits keys key = Ok (len (filter (λ x, x = key) keys)).
Proof.
  intros Hs. unfold countKeyHits. assert (∀ i j x y, (i ≤ j)%nat → keys !! i = Some x → keys !! j = Some y → x ≤ y) as Hmono.
  { intros i j x y Hij Hx Hy. destruct (decide (i = j)) as [->|]; [simplify_eq; lia|]. rewrite <- (take_drop_middle keys _ _ Hx) in Hs. apply StronglySorted_app in Hs as (_ & _ & Hs). apply StronglySorted_inv in Hs as [_ Hall].
    rewrite Forall_lookup in Hall. apply (Hall (j - S i)%nat). rewrite lookup_drop, <- Hy. f_equal. lia. }
  destruct (partition_point (λ i, bool_decide (keys !!! Z.to_nat i < key)) (len keys) (len_nonneg keys)) as (p & Hp & Hpp).
  { intros i j Hij Hj. rewrite !bool_decide_eq_true. intros Hlt. destruct (idx_ok keys i ltac:(lia)) as (x & _ & Hx). destruct (idx_ok keys j ltac:(lia)) as (y & _ & Hy).
    rewrite (list_lookup_total_correct _ _ _ Hx). rewrite (list_lookup_total_correct _ _ _ Hy) in Hlt. assert (Z.to_nat i ≤ Z.to_nat j)%nat as Hn by lia. pose proof (Hmono _ _ _ _ Hn Hx Hy). lia. }
  rewrite (bisect_ok _ _ 0 p (len keys)); [|lia|unfold len; lia|].
  - cbn [mbind res_bind]. rewrite keyRun_ok; [|done|lia|unfold len; lia|].
    + rewrite Z.add_0_l. do 2 f_equal. rewrite <- (take_drop (Z.to_nat p) keys) at 2. rewrite filter_app.
      assert (filter (λ x, x = key) (take (Z.to_nat p) keys) = []) as ->; [|done]. apply filter_empty, Forall_lookup. intros j x Hj Ex.
      apply lookup_take_Some in Hj as [Hj Hlt]. pose proof (Hpp (Z.of_nat j) ltac:(apply lookup_lt_Some in Hj; unfold len; lia)) as E. rewrite Nat2Z.id, (list_lookup_total_correct _ _ _ Hj) in E.
      rewrite (bool_decide_true (Z.of_nat j < p)) in E by lia. apply bool_decide_eq_true in E. lia.
    + intros j x Hj Hx. pose proof (Hpp (Z.of_nat j) ltac:(apply lookup_lt_Some in Hx; unfold len; lia)) as E. rewrite Nat2Z.id, (list_lookup_total_correct _ _ _ Hx) in E.
      rewrite (bool_decide_false (Z.of_nat j < p)) in E by lia. apply bool_decide_eq_false in E. lia.
  - intros i Hi. destruct (idx_ok keys i Hi) as (x & -> & Hx). cbn [mbind res_bind]. rewrite <- (Hpp i Hi). by rewrite (list_lookup_total_correct _ _ _ Hx).
Qed.

Lemma edgeKey_sum a b : is_u32 a → is_u32 b → edgeKey a b = a * 2 ^ 32 + b.
Proof.
  intros Ha Hb. unfold edgeKey. rewrite wrapU_small by (rewrite Z.shiftl_mul_pow2 by lia; lia).
  assert (Z.land (Z.shiftl a 32) b = 0) as E0.
  { apply Z.bits_inj'. intros i Hi. rewrite Z.land_spec, Z.bits_0. destruct (decide (i < 32)); [by rewrite Z.shiftl_spec_low by lia|].
    rewrite (testbit_high b 32 i) by (cbn; lia). apply andb_false_r. }
  rewrite <- (Z.lxor_lor _ _ E0), <- (Z.add_nocarry_lxor _ _ E0), Z.shiftl_mul_pow2 by lia. done.
Qed.

Lemma edgeKey_inj a b a' b' : is_u32 a → is_u32 b → is_u32 a' → is_u32 b' → edgeKey a b = edgeKey a' b' → a = a' ∧ b = b'.
Proof. intros. rewrite !edgeKey_sum in * by done. lia. Qed.

(** ** Loops that keep *)

Lemma keep_loop {B} (P : Z → bool) (F : Z → B) (f : list B → Z → res (list B)) ks : (∀ dst k, k ∈ ks → f dst k = Ok (if P k then dst ++ [F k] else dst)) →
  ∀ dst, foldM f ks dst = Ok (dst ++ (F <$> filter (λ k, P k = true) ks)).
Proof.
  intros Hf dst. revert Hf dst. induction ks as [|k ks IH]; intros Hf dst; [by rewrite filter_nil, app_nil_r|]. cbn [foldM]. rewrite Hf by (by left). cbn [mbind res_bind].
  rewrite filter_cons, IH by (intros d x Hx; apply Hf; by right). destruct (P k); [rewrite decide_True by done|rewrite decide_False by done]; [|done]. by rewrite fmap_cons, <- app_assoc.
Qed.

Lemma count_loop (P : Z → bool) (f : Z → Z → res Z) ks : (∀ n k, k ∈ ks → f n k = Ok (if P k then n + 1 else n)) → ∀ n, foldM f ks n = Ok (n + len (filter (λ k, P k = true) ks)).
Proof.
  induction ks as [|k ks IH]; intros Hf n; [rewrite filter_nil, len_nil, Z.add_0_r; done|]. cbn [foldM]. rewrite Hf by (by left). cbn [mbind res_bind].
  rewrite filter_cons, IH by (intros d x Hx; apply Hf; by right). destruct (P k); [rewrite decide_True by done|rewrite decide_False by done]; [|done]. rewrite len_cons. f_equal. lia.
Qed.

Lemma sorted_filter (P : Z → Prop) `{!∀ x, Decision (P x)} l : StronglySorted Z.lt l → StronglySorted Z.lt (filter P l).
Proof.
  induction 1 as [|x l _ IH Hx]; [constructor|]. rewrite filter_cons. case_decide; [|done]. constructor; [done|].
  apply Forall_forall. intros y [_ Hy]%list_elem_of_filter. rewrite Forall_forall in Hx. by apply Hx.
Qed.

Lemma seqZ_sorted lo k : StronglySorted Z.lt (seqZ lo k).
Proof.
  destruct (decide (k ≤ 0)); [rewrite seqZ_nil by lia; constructor|]. rewrite <- (Z2Nat.id k) by lia. clear. revert lo. induction (Z.to_nat k) as [|j IH]; intros lo; [constructor|].
  rewrite seqZ_cons by lia. replace (Z.pred (Z.of_nat (S j))) with (Z.of_nat j) by lia. constructor; [apply IH|]. apply Forall_forall. intros x Hx%elem_of_seqZ. lia.
Qed.

(** Sorting a tail that is sorted changes nothing. *)
Lemma sortTail_sorted dst tail : StronglySorted Z.lt tail → sortTailU32 (dst ++ tail) (len dst) = Ok (dst ++ tail).
Proof.
  intros Hs. unfold sortTailU32. case_decide; [|done]. assert (slice (dst ++ tail) (len dst) (len (dst ++ tail)) = Ok tail) as ->.
  { pose proof (slice_mid dst tail []) as E. rewrite app_nil_r in E. rewrite len_app. exact E. }
  cbn [mbind res_bind]. rewrite slice_prefix. cbn [mbind res_bind]. do 2 f_equal. apply (StronglySorted_unique Z.le).
  - apply StronglySorted_merge_sort; apply _.
  - clear -Hs. induction Hs as [|x l _ IH Hx]; constructor; [done|]. eapply Forall_impl; [exact Hx|]. cbn. lia.
  - apply merge_sort_Permutation.
Qed.

(** ** Both ends *)

Section queries.
Context {bm : Type} `{RoaringSet bm}.

(** The relationships of [u] that end in [v]. *)
Definition between (g : Snapshot bm) (m : RelMatch (Snapshot bm)) (ito : list Z) (u v : Z) (out : bool) : list RelRef :=
  filter (λ r, Neighbor r = v) (relRefs g m ito u out).

(** A relationship between nodes of [V] is seen from both ends, the same number of
    times and, where positions are read, at the same positions in the same order. *)
Record mirrored (g : Snapshot bm) (ito : list Z) (V : Z → Prop) : Prop := {
  mi_space : ∀ u, V u → 0 ≤ u < CSRIDSpace g;
  mi_count : ∀ m u v out, V u → V v → len (between g m ito u v out) = len (between g m ito v u (negb out));
  mi_pos : ∀ m u v out, V u → V v → hasRelProps g = true → Pos <$> between g m ito u v out = Pos <$> between g m ito v u (negb out);
}.

Context (g : Snapshot bm) (ito : list Z) (m : RelMatch (Snapshot bm)) (V : Z → Prop).
Hypothesis Hwf : wfSearch g ito.
Hypothesis Hm : matchOK g m.
Hypothesis Hmi : mirrored g ito V.

Abbreviation Hg := (wse_graph _ _ Hwf).
Abbreviation found u v out := (filter (λ k, nb (dirNbrs g out) k = v) (nodeMatches g m out u)).

Lemma between_found u v out : len (between g m ito u v out) = len (found u v out) ∧ Pos <$> between g m ito u v out = storedPos ito out <$> found u v out.
Proof using Type.
  unfold between, relRefs. rewrite filter_fmap. cbn [Neighbor]. rewrite len_fmap, <- list_fmap_compose. done.
Qed.

Lemma run_count s u v out : s = nb (dirNbrs g out) <$> nodeMatches g m out u → countHits s v = len (between g m ito u v out).
Proof using Type. intros ->. rewrite countHits_ok, filter_fmap, len_fmap. by rewrite (proj1 (between_found u v out)). Qed.

(** The typed-view tier. *)
Lemma view_count u v out tcU : V u → V v → view (tp m) out = Ok (Some tcU) → countDirMatch g u v out m = Ok (len (between g m ito u v out)).
Proof using Hwf Hm Hmi.
  intros Hu Hv E. pose proof (mi_space _ _ _ Hmi u Hu). pose proof (mi_space _ _ _ Hmi v Hv). unfold countDirMatch. rewrite E. cbn [mbind res_bind].
  destruct (view_ok g ito m Hg Hm out u ltac:(lia)) as (o & E' & Hv1). rewrite E in E'. injection E' as <-. destruct Hv1 as (_ & loU & hiU & RU & SU & _).
  destruct (view_ok g ito m Hg Hm (negb out) v ltac:(lia)) as (oV & EV & HV). rewrite EV. cbn [mbind res_bind]. rewrite RU. cbn [mbind res_bind].
  destruct oV as [tcV|]; cbn [mbind res_bind]; [|rewrite SU; cbn [mbind res_bind]; f_equal; by apply run_count].
  destruct HV as (_ & loV & hiV & RV & SV & _). rewrite RV. cbn [mbind res_bind]. case_decide; [rewrite SV|cbn [mbind res_bind]; rewrite SU]; cbn [mbind res_bind]; f_equal; [|by apply run_count].
  rewrite (run_count _ v u (negb out)) by done. symmetry. by apply (mi_count _ _ _ Hmi).
Qed.

(** The scan tier. *)
Lemma row_test k out : 0 ≤ k < len (dirNbrs g out) → idx (dirNbrs g out) k = Ok (nb (dirNbrs g out) k) ∧ to_u32 k = k ∧
  typeTest m (dirTypes g out) out k = Ok (matches m (typesOf (dirTypes g out) !!! Z.to_nat k)).
Proof using Hwf Hm.
  intros Hk. pose proof (wfDir_of g ito Hg out) as Hd. destruct (row_ok _ _ _ [] Hd k Hk) as (E0 & _ & E2 & _). split; [done|]. split; [done|].
  destruct (lookup_lt_is_Some_2 (typesOf (dirTypes g out)) (Z.to_nat k)) as [t Ht]; [rewrite (wd_len _ _ _ Hd); unfold len in Hk; lia|].
  rewrite (list_lookup_total_correct _ _ _ Ht). apply typeTest_ok; [apply Hd|by apply tpOK_of|lia|done].
Qed.

Lemma found_filter lo hi u v out : nodeMatches g m out u = filter (λ k, matches m (typesOf (dirTypes g out) !!! Z.to_nat k) = true) (seqZ lo (hi - lo)) →
  found u v out = filter (λ k, bool_decide (nb (dirNbrs g out) k = v) && matches m (typesOf (dirTypes g out) !!! Z.to_nat k) = true) (seqZ lo (hi - lo)).
Proof using Type.
  intros ->. rewrite list_filter_filter. apply list_filter_iff. intros k. rewrite andb_true_iff, bool_decide_eq_true. tauto.
Qed.

Lemma scan_count u v out : V u → tp m = None → countDirMatch g u v out m = Ok (len (between g m ito u v out)).
Proof using Hwf Hm Hmi.
  intros Hu Htp. pose proof (mi_space _ _ _ Hmi u Hu). unfold countDirMatch. rewrite Htp. cbn [view mbind res_bind].
  destruct (range_ok g ito m Hg out u ltac:(lia)) as (lo & hi & -> & Hlo & Hhi & En). cbn [mbind res_bind]. rewrite (proj1 (between_found u v out)), (found_filter lo hi u v out En).
  set (P := λ k, bool_decide (nb (dirNbrs g out) k = v) && matches m (typesOf (dirTypes g out) !!! Z.to_nat k)).
  assert (∀ k, k ∈ seqZ lo (hi - lo) → 0 ≤ k < len (dirNbrs g out)) as Hk by (intros k Hk%elem_of_seqZ; lia). case_decide as D0.
  - rewrite (count_loop P); [done|]. intros n k Hin. destruct (row_test k out (Hk k Hin)) as (-> & _ & _). cbn [mbind res_bind]. unfold P, matches. rewrite (decide_True (P := kind m = 0)) by done.
    rewrite andb_true_r. f_equal. by case_decide as D; case_bool_decide.
  - case_decide as D1; [|rewrite seqZ_nil by lia; done]. rewrite (count_loop P); [done|]. intros n k Hin. destruct (row_test k out (Hk k Hin)) as (-> & Eu & Et). cbn [mbind res_bind]. rewrite Eu. unfold P.
    case_decide as D; [rewrite bool_decide_true by done; rewrite Et|rewrite bool_decide_false by done]; done.
Qed.

(** The edge-key tier. *)
Lemma nb_u32 k out : 0 ≤ k < len (dirNbrs g out) → is_u32 (nb (dirNbrs g out) k).
Proof using Hwf.
  intros Hk. destruct (idx_ok (dirNbrs g out) k Hk) as (x & _ & Hx). unfold nb. rewrite (list_lookup_total_correct _ _ _ Hx).
  pose proof (Forall_lookup_1 _ _ _ _ (wse_space _ _ Hwf out) Hx) as Hr. cbn in Hr. pose proof (CSRIDSpace_u32 g). lia.
Qed.

Lemma edgeKeysOf_ok t u keys : 0 ≤ u → u + 1 < len (outOffsets g) →
  edgeKeysOf g t u keys = Ok (keys ++ ((λ k, edgeKey u (nb (outNbrs g) k)) <$> hits (outTypes g) t (off (outOffsets g) u) (off (outOffsets g) (u + 1)))).
Proof using Hwf.
  intros Hu Hl. pose proof (wfDir_of g ito Hg true) as Hd. cbn [dirOffsets dirNbrs dirTypes] in Hd. destruct (off_range _ _ _ Hd u) as [E1 R1]; [lia|]. destruct (off_range _ _ _ Hd (u + 1)) as [E2 R2]; [lia|].
  pose proof (off_mono _ _ _ Hd u (u + 1) ltac:(lia) ltac:(lia)). pose proof (wd_space _ _ _ Hd). unfold edgeKeysOf. rewrite (idx_lookup _ u _) by (lia || exact E1). cbn [mbind res_bind]. rewrite (idx_lookup _ (u + 1) _) by (lia || exact E2). cbn [mbind res_bind].
  rewrite (keep_loop (λ k, bool_decide (typesOf (outTypes g) !!! Z.to_nat k = t)) (λ k, edgeKey u (nb (outNbrs g) k))).
  - unfold hits. do 3 f_equal. apply list_filter_iff. intros k. by rewrite bool_decide_eq_true.
  - intros dst k Hk%elem_of_seqZ. destruct (row_ok _ _ _ [] Hd k ltac:(lia)) as (_ & -> & E & _). cbn [mbind res_bind]. rewrite wrapU_small by lia. case_decide as D; [rewrite bool_decide_true by done; by rewrite E|by rewrite bool_decide_false].
Qed.

Lemma edgeKeys_ok a b : kind m = 1 → is_u32 a → is_u32 b →
  ∃ keys, edgeKeys (newTypedPair g (one m)) = Ok keys ∧ StronglySorted Z.le keys ∧ len (filter (λ x, x = edgeKey a b) keys) = len (between g m ito a b true).
Proof using Hwf Hm.
  intros Hk Ha Hb. pose proof (wfDir_of g ito Hg true) as Hd. cbn [dirOffsets dirNbrs dirTypes] in Hd. pose proof (wd_space _ _ _ Hd). unfold edgeKeys. cbn [newTypedPair tp_g tp_t].
  destruct (foldM_zseq (λ u keys, len (filter (λ x, x = edgeKey a b) keys) = if decide (a < u) then len (found a b true) else 0)
    (λ keys u, edgeKeysOf g (one m) u keys) (len (outOffsets g) - 1) []) as (keys & -> & Hc).
  - lia.
  - rewrite decide_False by lia. done.
  - intros u keys Hu Hc. rewrite edgeKeysOf_ok by lia. eexists. split; [done|]. rewrite filter_app, len_app, Hc, filter_fmap, len_fmap.
    assert (∀ k, k ∈ hits (outTypes g) (one m) (off (outOffsets g) u) (off (outOffsets g) (u + 1)) → edgeKey u (nb (outNbrs g) k) = edgeKey a b ↔ u = a ∧ nb (outNbrs g) k = b) as Hinj.
    { intros k [_ Hks%elem_of_seqZ]%list_elem_of_filter. destruct (off_range _ _ _ Hd u) as [_ R1]; [lia|]. destruct (off_range _ _ _ Hd (u + 1)) as [_ R2]; [lia|].
      split; [|by intros [-> ->]]. apply edgeKey_inj; [lia|apply (nb_u32 k true); cbn; lia|done|done]. }
    destruct (decide (u = a)) as [->|Hne].
    + rewrite decide_False, decide_True, Z.add_0_l by lia. rewrite <- (nodeHits_matches g m true a Hk). unfold nodeHits. rewrite decide_False by (cbn; lia). cbn [dirOffsets dirTypes dirNbrs].
      f_equal. apply filter_ext_in. intros k Hks. rewrite (Hinj k Hks). tauto.
    + rewrite (filter_empty (λ k, edgeKey u (nb (outNbrs g) k) = edgeKey a b)); [|apply Forall_forall; intros k Hks; rewrite (Hinj k Hks); tauto].
      change (len (@nil Z)) with 0. case_decide; case_decide; lia.
  - cbn [mbind res_bind]. eexists. split; [done|]. split; [apply StronglySorted_merge_sort; apply _|].
    assert (len (filter (λ x, x = edgeKey a b) (merge_sort Z.le keys)) = len (filter (λ x, x = edgeKey a b) keys)) as -> by (by rewrite merge_sort_Permutation).
    rewrite Hc, (proj1 (between_found a b true)). case_decide as D; [done|]. unfold nodeMatches. rewrite decide_True by (cbn; lia). done.
Qed.

Lemma countDirMatch_ok u v out : V u → V v → countDirMatch g u v out m = Ok (len (between g m ito u v out)).
Proof using Hwf Hm Hmi.
  intros Hu Hv. pose proof (mi_space _ _ _ Hmi u Hu) as Ru. pose proof (mi_space _ _ _ Hmi v Hv) as Rv. pose proof (CSRIDSpace_u32 g).
  destruct (view_ok g ito m Hg Hm out u ltac:(lia)) as ([tc|] & E & _); [by eapply view_count|]. destruct (tp m) as [p|] eqn:Ep; [|by apply scan_count].
  unfold countDirMatch. rewrite Ep, E. cbn [mbind res_bind]. pose proof Hm as Hm'. unfold matchOK in Hm'. rewrite Ep in Hm'. destruct Hm' as [Hk ->].
  destruct out; [destruct (edgeKeys_ok u v Hk) as (keys & -> & Hs & Hc)|destruct (edgeKeys_ok v u Hk) as (keys & -> & Hs & Hc)]; try lia; cbn [mbind res_bind]; rewrite countKeyHits_ok by done; rewrite Hc; [done|].
  f_equal. by apply (mi_count _ _ _ Hmi).
Qed.

Lemma CountNeighborsMatch_ok u v dir : V u → V v → CountNeighborsMatch g u v dir m = Ok (len (filter (λ r, Neighbor r = v) (relsOf g m ito u dir))).
Proof using Hwf Hm Hmi.
  intros Hu Hv. unfold CountNeighborsMatch, relsOf. rewrite filter_app, len_app.
  destruct dir; cbn [goesOut goesIn]; rewrite ?countDirMatch_ok by done; cbn [mbind res_bind]; rewrite ?countDirMatch_ok by done; cbn [mbind res_bind]; rewrite ?filter_nil, ?len_nil; done.
Qed.

(** ** Positions *)

Lemma seqZ_read (h : list Z) lo hi : len h = hi - lo → (λ k, h !!! Z.to_nat (k - lo)) <$> seqZ lo (hi - lo) = h.
Proof using Type.
  intros Hl. apply list_eq. intros i. rewrite list_lookup_fmap. destruct (decide (i < length h)%nat) as [Hi|Hi].
  - rewrite lookup_seqZ_lt by (unfold len in Hl; lia). cbn. replace (Z.to_nat (lo + Z.of_nat i - lo)) with i by lia. by rewrite list_lookup_lookup_total_lt.
  - rewrite lookup_seqZ_ge by (unfold len in Hl; lia). cbn. symmetry. apply lookup_ge_None. lia.
Qed.

Lemma appendPosEq_ok dst nbrs poss lo hi u v out : runIs g ito m out u nbrs poss lo hi → appendPosEq dst nbrs poss lo hi v = Ok (dst ++ (pm (dirMap ito out) <$> found u v out)).
Proof using Type.
  intros [Sn Sp]. unfold appendPosEq. set (h := nodeMatches g m out u) in *. pose proof (slice_len _ _ _ _ Sn) as Hl. rewrite len_fmap in Hl.
  rewrite (keep_loop (λ k, bool_decide (nb (dirNbrs g out) (h !!! Z.to_nat (k - lo)) = v)) (λ k, pm (dirMap ito out) (h !!! Z.to_nat (k - lo)))).
  - pose proof (filter_fmap (λ k, h !!! Z.to_nat (k - lo)) (λ k, nb (dirNbrs g out) k = v) (seqZ lo (hi - lo))) as E. rewrite (seqZ_read h lo hi Hl) in E. rewrite E, <- list_fmap_compose. do 3 f_equal. apply list_filter_iff. intros k. by rewrite bool_decide_eq_true.
  - intros d k Hk. destruct (slice_idx _ _ _ _ _ k Sn Hk) as (x & Hx & ->). destruct (slice_idx _ _ _ _ _ k Sp Hk) as (x' & Hx' & ->). assert (x' = x) as -> by congruence. cbn [mbind res_bind].
    rewrite (list_lookup_total_correct _ _ _ Hx). case_decide; [by rewrite bool_decide_true|by rewrite bool_decide_false].
Qed.

Lemma found_pos u v out : pm (dirMap ito out) <$> found u v out = Pos <$> between g m ito u v out.
Proof using Hwf.
  rewrite (proj2 (between_found u v out)). apply list_fmap_ext. intros i k Hi. apply list_elem_of_lookup_2, list_elem_of_filter in Hi as [_ Hi]. pose proof (nodeMatches_bounds g ito Hwf m out u k Hi).
  destruct out; [|done]. unfold pm, storedPos. cbn [dirMap]. by rewrite decide_False by (rewrite len_nil; lia).
Qed.

Lemma found_sorted u v out : StronglySorted Z.lt (found u v out).
Proof using Type.
  apply sorted_filter. unfold nodeMatches. case_decide; [constructor|]. apply sorted_filter, seqZ_sorted.
Qed.

Lemma between_sorted u v out : V u → V v → StronglySorted Z.lt (Pos <$> between g m ito u v out).
Proof using Hwf Hmi.
  assert (∀ u v out, out = true ∨ ito = [] → StronglySorted Z.lt (Pos <$> between g m ito u v out)) as Hraw.
  { intros x y o Ho. rewrite (proj2 (between_found x y o)). assert (storedPos ito o <$> found x y o = found x y o) as ->; [|apply found_sorted].
    rewrite <- (list_fmap_id (found x y o)) at 2. apply list_fmap_ext. intros i k Hi. apply list_elem_of_lookup_2, list_elem_of_filter in Hi as [_ Hi]. pose proof (nodeMatches_bounds g ito Hwf m o x k Hi).
    destruct Ho as [->|E]; [done|]. destruct o; [done|]. unfold storedPos, pm. rewrite E, decide_False by (rewrite len_nil; lia). done. }
  intros Hu Hv. destruct out; [by apply Hraw; left|]. destruct (hasRelProps g) eqn:Ep.
  - rewrite (mi_pos _ _ _ Hmi) by done. apply Hraw. by left.
  - apply Hraw. right. pose proof (wg_ito _ _ Hg) as E. unfold getInToOut in E. rewrite Ep in E. by injection E.
Qed.

Lemma appendPicked_ok dst u v out flip nbrs poss lo hi : V u → V v → runIs g ito m out u nbrs poss lo hi →
  match flip with Some (nbrsV, possV, loV, hiV) => hasRelProps g = true ∧ runIs g ito m (negb out) v nbrsV possV loV hiV | None => True end →
  appendPicked dst u v flip nbrs poss lo hi = Ok (dst ++ (Pos <$> between g m ito u v out)).
Proof using Hwf Hmi.
  intros Hu Hv HU HV. unfold appendPicked.
  assert (∀ l, l = Pos <$> between g m ito u v out → sortTailU32 (dst ++ l) (len dst) = Ok (dst ++ (Pos <$> between g m ito u v out))) as Hsort by (intros l ->; by apply sortTail_sorted, between_sorted).
  destruct flip as [[[[nbrsV possV] loV] hiV]|]; [destruct HV as [Hp HV]; case_decide; [rewrite (appendPosEq_ok _ _ _ _ _ v u (negb out) HV)|]|]; cbn [mbind res_bind].
  - apply Hsort. rewrite found_pos. symmetry. by apply (mi_pos _ _ _ Hmi).
  - rewrite (appendPosEq_ok _ _ _ _ _ u v out HU). cbn [mbind res_bind]. apply Hsort, found_pos.
  - rewrite (appendPosEq_ok _ _ _ _ _ u v out HU). cbn [mbind res_bind]. apply Hsort, found_pos.
Qed.

Lemma appendScan_ok dst u v out : V u → appendScan g dst u v out m = Ok (dst ++ (Pos <$> between g m ito u v out)).
Proof using Hwf Hm Hmi.
  intros Hu. pose proof (mi_space _ _ _ Hmi u Hu). unfold appendScan. assert ((if out then Ok [] else getInToOut g) = Ok (dirMap ito out)) as -> by (destruct out; [done|apply Hg]). cbn [mbind res_bind].
  destruct (range_ok g ito m Hg out u ltac:(lia)) as (lo & hi & -> & Hlo & Hhi & En). cbn [mbind res_bind]. rewrite <- found_pos, (found_filter lo hi u v out En).
  case_decide as D; [|rewrite seqZ_nil by lia; by rewrite app_nil_r].
  rewrite (keep_loop (λ k, bool_decide (nb (dirNbrs g out) k = v) && matches m (typesOf (dirTypes g out) !!! Z.to_nat k)) (pm (dirMap ito out))); [done|].
  intros d k Hk%elem_of_seqZ. assert (0 ≤ k < len (dirNbrs g out)) as Hk' by lia. destruct (row_test k out Hk') as (-> & Eu & Et). cbn [mbind res_bind]. rewrite Eu.
  case_decide as Dn; [rewrite bool_decide_true by done|by rewrite bool_decide_false]. rewrite Et. cbn [mbind res_bind andb].
  destruct (matches m _); [|done]. destruct (row_ok _ _ _ (dirMap ito out) (wfDir_of g ito Hg out) k Hk') as (_ & _ & _ & ->). done.
Qed.

Lemma appendDirPosMatch_ok dst u v out : V u → V v → appendDirPosMatch g dst u v out m = Ok (dst ++ (Pos <$> between g m ito u v out)).
Proof using Hwf Hm Hmi.
  intros Hu Hv. pose proof (mi_space _ _ _ Hmi u Hu). pose proof (mi_space _ _ _ Hmi v Hv). unfold appendDirPosMatch.
  destruct (view_ok g ito m Hg Hm out u ltac:(lia)) as ([tcU|] & -> & HU); cbn [mbind res_bind].
  - destruct HU as (_ & lo & hi & -> & HU). cbn [mbind res_bind]. destruct (view_ok g ito m Hg Hm (negb out) v ltac:(lia)) as (oV & -> & HV). cbn [mbind res_bind].
    destruct oV as [tcV|]; [destruct (hasRelProps g) eqn:Ep|]; cbn [mbind res_bind]; [|by apply appendPicked_ok..].
    destruct HV as (_ & loV & hiV & -> & HV). cbn [mbind res_bind]. by apply appendPicked_ok.
  - destruct (runs_ok g ito m Hg Hm out u ltac:(lia)) as ([trU|] & -> & HU'); cbn [mbind res_bind]; [|by apply appendScan_ok].
    destruct HU' as (_ & lo & hi & -> & HU'). cbn [mbind res_bind]. destruct (runs_ok g ito m Hg Hm (negb out) v ltac:(lia)) as (oV & -> & HV). cbn [mbind res_bind].
    destruct oV as [trV|]; [destruct (hasRelProps g) eqn:Ep|]; cbn [mbind res_bind]; [|by apply appendPicked_ok..].
    destruct HV as (_ & loV & hiV & -> & HV). cbn [mbind res_bind]. by apply appendPicked_ok.
Qed.

Lemma AppendRelsBetweenMatch_ok dst u v dir : V u → V v →
  AppendRelsBetweenMatch g dst u v dir m = Ok (dst ++ (Pos <$> filter (λ r, Neighbor r = v) (relsOf g m ito u dir))).
Proof using Hwf Hm Hmi.
  intros Hu Hv. unfold AppendRelsBetweenMatch, relsOf. rewrite filter_app, fmap_app.
  destruct dir; cbn [goesOut goesIn]; rewrite ?appendDirPosMatch_ok by done; cbn [mbind res_bind]; rewrite ?appendDirPosMatch_ok by done; rewrite ?filter_nil, ?fmap_nil, ?app_nil_r, ?app_nil_l, <- ?app_assoc; done.
Qed.
End queries.

(** ** Finalized snapshots *)

Section built.
Context {bm : Type} `{RoaringSetLaws bm}.

(** The staged relationships from [u] to [v], or back. *)
Lemma staged_between {G} rels ts pos (m : RelMatch G) u v (out : bool) :
  Pos <$> filter (λ r, Neighbor r = v) (stagedRefs rels ts pos m u out) =
  pos <$> filter (λ j, rels !!! Z.to_nat j = (if out then (u, v) else (v, u)) ∧ matches m (ts !!! Z.to_nat j) = true) (zseq (len rels)).
Proof using Type.
  unfold stagedRefs, ownedIdx. rewrite filter_fmap, <- list_fmap_compose. cbn [Neighbor]. rewrite !list_filter_filter. f_equal. apply list_filter_iff. intros j.
  unfold ownerOf, otherOf. destruct (rels !!! Z.to_nat j) as [a b]. destruct out; cbn; split; intros; destruct_and!; simplify_eq; auto.
Qed.

Lemma finalized_mirrored (b : Builder bm (Snapshot bm)) rels ts relProps g : finalized b rels ts relProps g →
  ∃ ito, wfSearch g ito ∧ mirrored g ito (λ v, v ∈ known b).
Proof using Type.
  intros Hf. destruct (fz_graph _ _ _ _ _ Hf) as (ito & Hg & Hr). exists ito. split; [split; [done|apply (fz_nbrs _ _ _ _ _ Hf)]|].
  assert (∀ m u v out, u ∈ known b → ∃ pos, Pos <$> between g m ito u v out =
    pos <$> filter (λ j, rels !!! Z.to_nat j = (if out : bool then (u, v) else (v, u)) ∧ matches m (ts !!! Z.to_nat j) = true) (zseq (len rels)) ∧
    ((out = true ∨ hasRelProps g = true) → ∀ j, 0 ≤ j < len rels → pos j = outSlot rels j)) as Hb.
  { intros m u v out Hu. destruct (Hr m u out Hu) as (pos & E & Hp). exists pos. unfold between. rewrite E. split; [apply staged_between|].
    intros Hc. apply Hp. destruct Hc as [?|Hc]; [by left|right]. by apply (fz_lazy _ _ _ _ _ Hf). }
  split.
  - apply (fz_space _ _ _ _ _ Hf).
  - intros m u v out Hu Hv. destruct (Hb m u v out Hu) as (p1 & E1 & _). destruct (Hb m v u (negb out) Hv) as (p2 & E2 & _).
    apply (f_equal len) in E1, E2. rewrite !len_fmap in E1, E2. rewrite E1, E2. by destruct out.
  - intros m u v out Hu Hv Hp. destruct (Hb m u v out Hu) as (p1 & -> & H1). destruct (Hb m v u (negb out) Hv) as (p2 & -> & H2).
    rewrite <- (list_fmap_ext (outSlot rels) p1), <- (list_fmap_ext (outSlot rels) p2); [by destruct out|..];
      intros i j [_ Hj%elem_of_zseq]%list_elem_of_lookup_2%list_elem_of_filter; symmetry; [apply H2|apply H1]; auto.
Qed.
End built.

(** ** Properties *)

(** C11: Bound-pair queries agree with enumeration. On the snapshot of any well-formed
    staging state, between any two known nodes, in any direction and with any type
    filter of the snapshot, [CountNeighborsMatch] counts and [AppendRelsBetweenMatch]
    appends the positions of exactly the relationships an enumeration of the first
    node would give and a test of the other end would keep, in the same order and
    with parallel relationships repeated, without panic, whichever node's run is
    scanned and whether a typed view, a run view, the sorted edge keys or a plain
    scan answers. *)
Theorem bound_pair_queries_exact {bm} `{RoaringSetLaws bm} (b : Builder bm (Snapshot bm)) : wf_builder b → src b = None → len (rels b) < 2147483648 →
  Forall (λ t, 0 ≤ t < MaxUint32) (relTypes b) →
  ∃ g ito, Finalize b = Ok g ∧ wfSearch g ito ∧ ∀ m dir u v dst, matchOK g m → u ∈ known b → v ∈ known b →
    CountNeighborsMatch g u v dir m = Ok (len (filter (λ r, Neighbor r = v) (relsOf g m ito u dir))) ∧
    AppendRelsBetweenMatch g dst u v dir m = Ok (dst ++ (Pos <$> filter (λ r, Neighbor r = v) (relsOf g m ito u dir))).
Proof.
  intros Hw Hsrc Hm Ht. destruct (Finalize_finalized b Hw Hsrc Hm Ht) as (g & E & Hf). destruct (finalized_mirrored _ _ _ _ _ Hf) as (ito & Hwf & Hmi).
  exists g, ito. split; [done|]. split; [done|]. intros m dir u v dst Hmg Hu Hv. split; [by eapply CountNeighborsMatch_ok|by eapply AppendRelsBetweenMatch_ok].
Qed.

(** On the graph of [finalOps] one relationship leads from 0 to 1. *)
Lemma bound_pair_queries_exact_witness : ∃ g ito, Finalize finalBuilder = Ok g ∧ CountNeighborsMatch g 0 1 Outgoing MatchAll = Ok 1 ∧
  len (filter (λ r, Neighbor r = 1) (relsOf g MatchAll ito 0 Outgoing)) = 1.
Proof.
  assert (wf_builder finalBuilder) as Hw.
  { destruct (runOps_wf (bm := gset Z) (Snap := Snapshot (gset Z)) finalOps (NewBuilder 2 2)) as (b & E & Hb).
    - repeat constructor; simpl; lia.
    - apply NewBuilder_wf. lia.
    - unfold finalBuilder. by rewrite E. }
  destruct (bound_pair_queries_exact finalBuilder Hw) as (g & ito & E & _ & Hq); [by vm_compute|by vm_compute|apply (bool_decide_unpack _); by vm_compute|].
  exists g, ito. split; [exact E|]. assert (bool_decide (0 ∈ known finalBuilder) = true) as Hk by (by vm_compute). apply bool_decide_eq_true in Hk.
  assert (bool_decide (1 ∈ known finalBuilder) = true) as Hk1 by (by vm_compute). apply bool_decide_eq_true in Hk1.
  destruct (Hq MatchAll Outgoing 0 1 [] I Hk Hk1) as [Hc _]. assert ((g ← Finalize finalBuilder; CountNeighborsMatch g 0 1 Outgoing MatchAll) = Ok 1) as Ec by (by vm_compute).
  rewrite E in Ec. cbn [mbind res_bind] in Ec. split; [exact Ec|]. rewrite Hc in Ec. by injection Ec.
Defined.
