(* ===== verification/LazyCache.v ===== *)
(** The lazily filled caches of a snapshot: the locking of
    [withPropValueIndex] ([src/propindex.go]), [ColRangeIndex]
    ([src/rangeindex.go]) and [labelDegreeStats] ([src/labelstats.go]).

    All three look under the lock, build outside it, and look again under the
    lock, keeping the entry that got there first. One definition serves them:
    the keys, the entries and what a build gives are its parameters. It is
    written twice, as the function a single caller runs and as the step relation of
    any number of callers, a locked section being one step. The theorems: a caller is
    given what the build gives, callers of one key are given one object, and every
    schedule ends. *)

From S2P Require Import Prelude.

(** An entry as the heap has it: an identity and its contents. *)
Record object (V : Type) := mkObject { oid : nat; content : V }.
Arguments mkObject {V} _ _.
Arguments oid {V} _.
Arguments content {V} _.

Section cache.
Context {K V : Type} `{Countable K}.
(** [None]: there is nothing to build the entry from, and nothing is stored. *)
Context (build : K → res (option V)).

(** ** One caller *)

Definition getOrBuild (c : gmap K V) (k : K) : res (option V * gmap K V) :=
  match c !! k with
  | Some v => Ok (Some v, c)
  | None =>
      o ← build k;
      Ok (match o with
          | None => (None, c)
          | Some built =>
              match c !! k with
              | Some existing => (Some existing, c)
              | None => (Some built, <[k := built]> c)
              end
          end)
  end.

(** ** Many callers *)

Inductive callPc := Look | Building | Publish (o : object V) | Returned (r : option (object V)).
Record caller := mkCaller { c_key : K; c_pc : callPc }.
(** [fresh] is the next unused identity. *)
Record callers := mkCallers { cached : gmap K (object V); fresh : nat; calls : list caller }.

Inductive cacheStep : callers → callers → Prop :=
| cache_hit s t k o : calls s !! t = Some (mkCaller k Look) → cached s !! k = Some o →
    cacheStep s (mkCallers (cached s) (fresh s) (<[t := mkCaller k (Returned (Some o))]> (calls s)))
| cache_miss s t k : calls s !! t = Some (mkCaller k Look) → cached s !! k = None →
    cacheStep s (mkCallers (cached s) (fresh s) (<[t := mkCaller k Building]> (calls s)))
| cache_nothing s t k : calls s !! t = Some (mkCaller k Building) → build k = Ok None →
    cacheStep s (mkCallers (cached s) (fresh s) (<[t := mkCaller k (Returned None)]> (calls s)))
| cache_built s t k v : calls s !! t = Some (mkCaller k Building) → build k = Ok (Some v) →
    cacheStep s (mkCallers (cached s) (S (fresh s)) (<[t := mkCaller k (Publish (mkObject (fresh s) v))]> (calls s)))
| cache_late s t k o o' : calls s !! t = Some (mkCaller k (Publish o)) → cached s !! k = Some o' →
    cacheStep s (mkCallers (cached s) (fresh s) (<[t := mkCaller k (Returned (Some o'))]> (calls s)))
| cache_store s t k o : calls s !! t = Some (mkCaller k (Publish o)) → cached s !! k = None →
    cacheStep s (mkCallers (<[k := o]> (cached s)) (fresh s) (<[t := mkCaller k (Returned (Some o))]> (calls s))).

(** No entry yet, every caller at its start. *)
Definition cacheStart (keys : list K) : callers := mkCallers ∅ 0 ((λ k, mkCaller k Look) <$> keys).

(** ** Lemmas *)

(** An entry is what its build gives. *)
Definition cacheOK (c : gmap K V) : Prop := ∀ k v, c !! k = Some v → build k = Ok (Some v).

Lemma cacheOK_empty : cacheOK ∅.
Proof. by intros k v Hk%lookup_empty_Some. Qed.

(** A caller is given what the build gives, whatever is stored already. *)
Lemma getOrBuild_ok c k o : cacheOK c → build k = Ok o → ∃ c', getOrBuild c k = Ok (o, c') ∧ cacheOK c'.
Proof.
  intros Hc Hb. unfold getOrBuild. destruct (c !! k) as [v|] eqn:E.
  { pose proof (Hc k v E) as Hv. assert (o = Some v) as -> by congruence. eauto. }
  rewrite Hb. cbn [mbind res_bind]. destruct o as [v|]; [|eauto]. eexists. split; [done|].
  intros k' v'. rewrite lookup_insert_Some. naive_solver.
Qed.

Definition callerOK (c : gmap K (object V)) (x : caller) : Prop :=
  match c_pc x with
  | Publish o => build (c_key x) = Ok (Some (content o))
  | Returned None => build (c_key x) = Ok None
  | Returned (Some o) => c !! c_key x = Some o
  | _ => True
  end.
Record callersOK (s : callers) : Prop := {
  co_cached : ∀ k o, cached s !! k = Some o → build k = Ok (Some (content o));
  co_calls : Forall (callerOK (cached s)) (calls s);
}.

Lemma callerOK_store c k o x : c !! k = None → callerOK c x → callerOK (<[k := o]> c) x.
Proof.
  intros Hk. destruct x as [k' [| | |[o'|]]]; unfold callerOK; simpl; try done.
  intros E. rewrite lookup_insert_ne; [done|congruence].
Qed.

Lemma cacheStep_ok s s' : cacheStep s s' → callersOK s → callersOK s'.
Proof.
  intros Hs [H1 H2]. destruct Hs as [s t k o Ht E|s t k Ht E|s t k Ht E|s t k v Ht E|s t k o o' Ht E|s t k o Ht E];
    pose proof (Forall_lookup_1 _ _ _ _ H2 Ht) as Hx; unfold callerOK in Hx; simpl in Hx; split; simpl;
    try apply H1; try (by apply Forall_insert).
  - intros k' o'. rewrite lookup_insert_Some. naive_solver.
  - apply Forall_insert.
    + eapply Forall_impl; [exact H2|]. intros x. by apply callerOK_store.
    + unfold callerOK. simpl. apply lookup_insert_eq.
Qed.

Lemma cacheSteps_ok s s' : rtc cacheStep s s' → callersOK s → callersOK s'.
Proof. induction 1; eauto using cacheStep_ok. Qed.

Lemma cacheStart_ok keys : callersOK (cacheStart keys).
Proof. split; [intros k o Hk; simpl in Hk; by rewrite lookup_empty in Hk|]. by apply Forall_fmap, Forall_forall. Qed.

(** Steps a caller has yet to take. *)
Definition callWork (x : caller) : nat := match c_pc x with Look => 3 | Building => 2 | Publish _ => 1 | Returned _ => 0 end.
Definition callsWork (l : list caller) : nat := sum_list (callWork <$> l).

Lemma callsWork_insert l t old new : l !! t = Some old → (callWork new < callWork old)%nat →
  (callsWork (<[t := new]> l) < callsWork l)%nat.
Proof.
  revert t. induction l as [|x l IH]; intros [|t] Ht Hw; [done..| |].
  - injection Ht as ->. change (<[0%nat := new]> (old :: l)) with (new :: l). unfold callsWork. cbn. lia.
  - specialize (IH t Ht Hw). change (<[S t := new]> (x :: l)) with (x :: <[t := new]> l). unfold callsWork in *. cbn in *. lia.
Qed.

Lemma cacheStep_work s s' : cacheStep s s' → (callsWork (calls s') < callsWork (calls s))%nat.
Proof. intros Hs. destruct Hs; (eapply callsWork_insert; [done|unfold callWork; simpl; lia]). Qed.

Lemma cacheStep_progress s t x : (∀ k, ∃ o, build k = Ok o) → calls s !! t = Some x → (∃ r, c_pc x = Returned r) ∨ ∃ s', cacheStep s s'.
Proof.
  intros Hb Ht. destruct x as [k [| |o|r]]; [right..|by left; exists r].
  - destruct (cached s !! k) as [o|] eqn:E; eexists; [by eapply cache_hit|by eapply cache_miss].
  - destruct (Hb k) as [[v|] E]; eexists; [by eapply cache_built|by eapply cache_nothing].
  - destruct (cached s !! k) as [o'|] eqn:E; eexists; [by eapply cache_late|by eapply cache_store].
Qed.
End cache.

(** ** Properties *)

(** C16: The lazy caches are transparent under any schedule: however the calls of any
    number of goroutines interleave - two may miss and build the same entry - every
    call that returned was given exactly what the build of its key gives, [nil] when
    there is nothing to build; two calls on one key were given the very same object; every step
    brings some call closer to its end; and when builds do not panic a
    schedule can only stop once every call has returned. *)
Theorem lazy_cache_transparent {K V} `{Countable K} (build : K → res (option V)) (keys : list K) (s : callers) :
  rtc (cacheStep build) (cacheStart keys) s →
  (∀ t k r, calls s !! t = Some (mkCaller k (Returned r)) → build k = Ok (content <$> r)) ∧
  (∀ t1 t2 k r1 r2, calls s !! t1 = Some (mkCaller k (Returned r1)) → calls s !! t2 = Some (mkCaller k (Returned r2)) → r1 = r2) ∧
  (∀ s', cacheStep build s s' → (callsWork (calls s') < callsWork (calls s))%nat) ∧
  ((∀ k, ∃ o, build k = Ok o) → (¬ ∃ s', cacheStep build s s') → Forall (λ x, ∃ r, c_pc x = Returned r) (calls s)).
Proof.
  intros Hs. destruct (cacheSteps_ok build _ _ Hs (cacheStart_ok build keys)) as [H1 H2].
  assert (∀ t k r, calls s !! t = Some (mkCaller k (Returned r)) → build k = Ok (content <$> r) ∧ ∀ o, r = Some o → cached s !! k = Some o) as Hr.
  { intros t k r Ht. pose proof (Forall_lookup_1 _ _ _ _ H2 Ht) as Hx. destruct r as [o|]; unfold callerOK in Hx; simpl in Hx.
    - split; [by apply H1|]. by intros ? [= <-].
    - by split. }
  split_and!.
  - intros t k r Ht. by destruct (Hr t k r Ht).
  - intros t1 t2 k r1 r2 Ht1 Ht2. destruct (Hr _ _ _ Ht1) as [B1 C1], (Hr _ _ _ Ht2) as [B2 C2].
    destruct r1 as [o1|], r2 as [o2|]; simpl in *; try congruence. by rewrite <- (C1 o1), <- (C2 o2).
  - intros s'. apply cacheStep_work.
  - intros Hb Hn. apply Forall_lookup. intros t x Ht. by destruct (cacheStep_progress build s t x Hb Ht).
Qed.

(** Two callers of key 7 both miss and build; the second to publish is given the
    first's object. *)
Lemma lazy_cache_transparent_witness : ∃ s, rtc (cacheStep (λ k, Ok (Some (k * k)))) (cacheStart [7; 7]) s ∧
  calls s = [mkCaller 7 (Returned (Some (mkObject 1 49))); mkCaller 7 (Returned (Some (mkObject 1 49)))] ∧
  (∀ t k r, calls s !! t = Some (mkCaller k (Returned r)) → Ok (Some (k * k)) = Ok (content <$> r)).
Proof.
  assert (rtc (cacheStep (λ k, Ok (Some (k * k)))) (cacheStart [7; 7])
    (mkCallers {[7 := mkObject 1 49]} 2 [mkCaller 7 (Returned (Some (mkObject 1 49))); mkCaller 7 (Returned (Some (mkObject 1 49)))])) as Hs.
  { eapply rtc_l; [by apply (cache_miss _ _ 0 7)|]. eapply rtc_l; [by apply (cache_miss _ _ 1 7)|].
    eapply rtc_l; [by apply (cache_built _ _ 0 7 49)|]. eapply rtc_l; [by apply (cache_built _ _ 1 7 49)|].
    eapply rtc_l; [by apply (cache_store _ _ 1 7 (mkObject 1 49))|].
    eapply rtc_l; [by apply (cache_late _ _ 0 7 (mkObject 0 49) (mkObject 1 49))|]. apply rtc_refl. }
  eexists. split; [exact Hs|]. split; [done|]. apply (lazy_cache_transparent _ _ _ Hs).
Defined.
