(* ===== verification/RangeIndex.v ===== *)
(** The sorted range view over an integer column: [src/rangeindex.go].

    [buildRangeIndex] collects a column's values and positions, sorts them by
    value then position and answers an interval of values by two binary searches.
    [slices.SortFunc] is a sort by the comparison function: entries it calls equal
    carry the same value and position, so every sort gathers the same arrays. The
    theorems: a window holds exactly the nodes whose value lies in the
    interval, ordered by value and id, at every bound of the 64-bit range; and the
    snapshot's view of a key answers what [Prop] answers. *)

From S2P Require Import Prelude Bitset Value AtomTable Narrow Columns NodeSet RelTypes InToOut Snapshot SnapshotSpec Serialize SerializeSpec LazyCache.

#[export] Instance Dtype_eq_dec : EqDecision Dtype.
Proof. solve_decision. Defined.

Record RangeIndex := mkRangeIndex { ri_vals : list Z; ri_ids : list Z }.

(** ** Building *)

(** [for pos, v := range column.Entries()]. *)
Definition collectStep (st : list Z * list Z) (e : Z * Value) : list Z * list Z :=
  let '(x, ok) := I64 e.2 in
  if ok : bool then (st.1 ++ [x], st.2 ++ [e.1]) else st.

(** The [switch] on the layout. *)
Definition collectPairs (column : Column) : res (list Z * list Z) :=
  match column with
  | denseI64Col c => Ok (c, to_u32 <$> zseq (len c))
  | sparseI64Col ids vals => Ok (vals, ids)
  | _ => es ← Column_Entries column; Ok (foldl collectStep ([], []) es)
  end.

(** The comparison is not positive: by value, then by id. An id out of range fails
    in the gathering loop, whatever the comparison made of it. *)
Definition permLe (vals ids : list Z) (a b : Z) : Prop :=
  let va := vals !!! Z.to_nat a in
  let vb := vals !!! Z.to_nat b in
  if decide (va ≠ vb) then va < vb else ids !!! Z.to_nat a ≤ ids !!! Z.to_nat b.

#[export] Instance permLe_dec vals ids : RelDecision (permLe vals ids).
Proof. intros a b. unfold permLe. case_decide; apply _. Defined.

(** [sv[i], si[i] = vals[p], ids[p]]. *)
Definition gatherStep (vals ids : list Z) (st : list Z * list Z) (ip : Z * Z) : res (list Z * list Z) :=
  v ← idx vals ip.2;
  d ← idx ids ip.2;
  sv ← upd st.1 ip.1 v;
  si ← upd st.2 ip.1 d;
  Ok (sv, si).

Definition buildRangeIndex (column : Column) : res RangeIndex :=
  _ ← Column_Len column;
  '(vals, ids) ← collectPairs column;
  let perm := merge_sort (permLe vals ids) (zseq (len vals)) in
  '(sv, si) ← foldM (gatherStep vals ids) (enum perm) (replicate (length vals) 0, replicate (length ids) 0);
  Ok (mkRangeIndex sv si).

(** ** Reading *)

Definition Len (r : RangeIndex) : Z := len (ri_ids r).

(** The position [slices.BinarySearch] returns. *)
Definition BinarySearch (x : list Z) (target : Z) : res Z :=
  bisect (length x) (λ h, v ← idx x h; Ok (bool_decide (v < target))) 0 (len x).

Definition maxInt64 : Z := 9223372036854775807.

Definition lowerBound (r : RangeIndex) (lo : Z) (incl : bool) : res Z :=
  if incl then BinarySearch (ri_vals r) lo
  else if decide (lo = maxInt64) then Ok (len (ri_vals r))
  else BinarySearch (ri_vals r) (to_i64 (lo + 1)).

Definition upperBound (r : RangeIndex) (hi : Z) (incl : bool) : res Z :=
  if negb incl then BinarySearch (ri_vals r) hi
  else if decide (hi = maxInt64) then Ok (len (ri_vals r))
  else BinarySearch (ri_vals r) (to_i64 (hi + 1)).

Definition Window (r : RangeIndex) (lo hi : Z) (loIncl hiIncl : bool) : res (list Z) :=
  start ← lowerBound r lo loIncl;
  end_ ← upperBound r hi hiIncl;
  if decide (end_ ≤ start) then Ok [] else slice (ri_ids r) start end_.

(** ** The snapshot's views *)

Section views.
Context {bm : Type} `{RoaringSet bm}.
Implicit Types g : Snapshot bm.

(** The build of a key's view; only keys of integer columns get to it. *)
Definition rangeBuild g (keyID : Z) : res (option RangeIndex) :=
  match columns g !! keyID with
  | None => Ok None
  | Some column => r ← buildRangeIndex column; Ok (Some r)
  end.

Definition ColRangeIndex g (cache : gmap Z RangeIndex) (key : gostring) : res (option RangeIndex * gmap Z RangeIndex) :=
  '(keyID, ok) ← PropertyKey g key;
  if negb ok then Ok (None, cache)
  else match columns g !! keyID with
  | None => Ok (None, cache)
  | Some column =>
      match Column_Dtype column with
      | DtypeI64 => getOrBuild (rangeBuild g) cache keyID
      | _ => Ok (None, cache)
      end
  end.
End views.

(** ** Gathering *)

Lemma collect_ok (ids vals : list Z) st : length ids = length vals → Forall isI64 vals →
  foldl collectStep st (zip ids (I64Value <$> vals)) = (st.1 ++ vals, st.2 ++ ids).
Proof.
  revert vals st. induction ids as [|i ids IH]; intros [|v vals] st Hl HF; try done.
  { by destruct st; rewrite !app_nil_r. }
  apply Forall_cons in HF as [Hv HF]. cbn [fmap list_fmap zip zip_with foldl]. unfold collectStep at 2. cbn [fst snd].
  rewrite I64_I64Value by done. rewrite IH by (done || by injection Hl). cbn [fst snd]. by rewrite <- !app_assoc.
Qed.

(** What a stored integer column is collected into. *)
Lemma collectPairs_ok c : storable c → Column_Dtype c = DtypeI64 → ∃ ids vals, collectPairs c = Ok (vals, ids) ∧
  length ids = length vals ∧ Forall isI64 vals ∧ Forall (λ i, 0 ≤ i) ids ∧ represents c (zip ids (I64Value <$> vals)).
Proof.
  intros Hc Ht. assert (∀ ids vals, fitPairs isI64 ids vals → length ids = length vals ∧ Forall isI64 vals ∧ Forall (λ i, 0 ≤ i) ids) as Hf.
  { intros ids vals [_ Hi _ Hl Hv]. split; [done|]. split; [done|]. eapply Forall_impl; [exact Hi|]. intros i Hx. simpl in Hx. lia. }
  assert (∃ ids vals, (length ids = length vals ∧ Forall isI64 vals ∧ Forall (λ i, 0 ≤ i) ids) ∧ represents c (zip ids (I64Value <$> vals)) ∧
    match c with denseI64Col v => vals = v ∧ ids = to_u32 <$> zseq (len v) | sparseI64Col i v => vals = v ∧ ids = i | _ => True end) as (ids & vals & (Hl & HF & Hi) & Hr & Hm).
  { destruct Hc as [vals c HF E| | | |ids vals HP|ids vals nv HP En| | | |r ids vals Hr HP|r ids vals nv Hr HP En| | |]; try done.
    - exists (zseq (len vals)), vals. pose proof (columnToData_denseI64 vals c HF E) as Ed. destruct HF as [Hl HF].
      destruct (narrowI64Column_ok vals HF ltac:(lia)) as (c' & E' & Hr & _). assert (c' = c) as -> by congruence.
      split; [split; [unfold zseq; by rewrite length_fmap, length_seq, to_nat_len|]; split; [done|]; apply Forall_forall; intros i Hi%elem_of_zseq; lia|]. split; [by unfold enum in Hr; rewrite len_fmap in Hr|].
      destruct c as [v| | | | | | | | | | | | | | |]; try done; [|cbn [columnToData] in Ed; by destruct (sparseData _ _)]. cbn [columnToData] in Ed. injection Ed as ->. split; [done|].
      rewrite <- (list_fmap_id (zseq (len vals))) at 1. apply list_fmap_ext. intros k i Hi%list_elem_of_lookup_2%elem_of_zseq. symmetry. apply wrapU_small. unfold id. lia.
    - exists ids, vals. split; [by apply Hf|]. split; [|done]. by eapply sparse_reload; [done|apply atVals_reads|..].
    - exists ids, vals. destruct (narrow_reads vals nv (fp_vals _ _ _ HP) En) as [_ Hat]. split; [by apply Hf|]. split; [|done]. by eapply sparse_reload; [done|exact Hat|..].
    - exists ids, vals. split; [by apply Hf|]. split; [|done]. by eapply rank_reload; [done|done|apply atVals_reads|..].
    - exists ids, vals. destruct (narrow_reads vals nv (fp_vals _ _ _ HP) En) as [Hn Hat]. split; [by apply Hf|]. split; [|done]. by eapply rank_reload; [done|done|exact Hat|..]. }
  exists ids, vals. split; [|done]. pose proof (rp_entries _ _ Hr) as He.
  destruct c; try discriminate Ht; try (by case Hm; intros -> ->); cbn [collectPairs]; rewrite He; cbn [mbind res_bind]; by rewrite collect_ok.
Qed.

(** Sorted by value, then by id. *)
Definition pairLe (x y : Z * Z) : Prop := x.1 < y.1 ∨ x.1 = y.1 ∧ x.2 ≤ y.2.

Section gather.
Context (ids vals : list Z).
Hypothesis Hl : length ids = length vals.

Definition pairAt (p : Z) : Z * Z := (vals !!! Z.to_nat p, ids !!! Z.to_nat p).
Abbreviation perm := (merge_sort (permLe vals ids) (zseq (len vals))).
(** The gathered pairs. *)
Definition ranked : list (Z * Z) := pairAt <$> perm.

Lemma permLe_pairs a b : permLe vals ids a b ↔ pairLe (pairAt a) (pairAt b).
Proof using. clear Hl. unfold permLe, pairLe, pairAt. simpl. case_decide; lia. Qed.

Lemma ranked_perm : ranked ≡ₚ zip vals ids.
Proof using Hl.
  unfold ranked. rewrite merge_sort_Permutation. assert (pairAt <$> zseq (len vals) = zip vals ids) as ->; [|done]. apply list_eq. intros k. rewrite list_lookup_fmap, lookup_zip_with.
  unfold zseq. rewrite to_nat_len, list_lookup_fmap. destruct (decide (k < length vals)%nat) as [Hk|Hk].
  - rewrite lookup_seq_lt by done. simpl. unfold pairAt. rewrite Nat2Z.id.
    destruct (lookup_lt_is_Some_2 vals k Hk) as [v Hv]. destruct (lookup_lt_is_Some_2 ids k ltac:(lia)) as [d Hd].
    by rewrite Hv, Hd, (list_lookup_total_correct _ _ _ Hv), (list_lookup_total_correct _ _ _ Hd).
  - rewrite lookup_seq_ge by lia. simpl. by rewrite (lookup_ge_None_2 vals k) by lia.
Qed.

Lemma ranked_sorted : StronglySorted pairLe ranked.
Proof using.
  clear Hl. unfold ranked. assert (Total (permLe vals ids)) as Ht by (intros a b; rewrite !permLe_pairs; unfold pairLe; lia).
  assert (Transitive (permLe vals ids)) as Htr by (intros a b c; rewrite !permLe_pairs; unfold pairLe; lia).
  pose proof (StronglySorted_merge_sort (permLe vals ids) (zseq (len vals))) as Hs. induction Hs as [|a l Hs IH HF]; [constructor|].
  cbn. constructor; [done|]. apply Forall_fmap. eapply Forall_impl; [exact HF|]. intros b. apply permLe_pairs.
Qed.

Lemma gather_ok : foldM (gatherStep vals ids) (enum perm) (replicate (length vals) 0, replicate (length ids) 0) = Ok (ranked.*1, ranked.*2).
Proof using Hl.
  assert (∀ p, p ∈ perm → 0 ≤ p < len vals) as Hp by (intros p; rewrite merge_sort_Permutation; apply elem_of_zseq).
  assert (length perm = length vals) as Hn by (rewrite merge_sort_Permutation; unfold zseq; by rewrite length_fmap, length_seq, to_nat_len).
  unfold ranked. rewrite <- !list_fmap_compose. set (F1 := fst ∘ pairAt). set (F2 := snd ∘ pairAt).
  destruct (foldM_inv (λ k st, st = ((F1 <$> take k perm) ++ replicate (length vals - k) 0, (F2 <$> take k perm) ++ replicate (length vals - k) 0))
    (gatherStep vals ids) (enum perm) (replicate (length vals) 0, replicate (length ids) 0)) as (st & E & Hst).
  - rewrite Hl. by rewrite Nat.sub_0_r.
  - intros k [i p] st Hk ->. apply lookup_enum in Hk as [-> Hk]. pose proof (Hp p (list_elem_of_lookup_2 _ _ _ Hk)) as Hr. pose proof (lookup_lt_Some _ _ _ Hk) as Hlt.
    unfold gatherStep. cbn [fst snd]. destruct (idx_ok vals p Hr) as (v & -> & Hv). destruct (idx_ok ids p) as (d & -> & Hd); [unfold len in *; lia|]. cbn [mbind res_bind].
    assert (∀ (F : Z → Z) x, F p = x → upd ((F <$> take k perm) ++ replicate (length vals - k) 0) (Z.of_nat k) x = Ok ((F <$> take (S k) perm) ++ replicate (length vals - S k) 0)) as Hu.
    { intros F x <-. unfold upd. 
      assert (0 ≤ Z.of_nat k < len ((F <$> take k perm) ++ replicate (length vals - k) 0)) as Hin.
      { rewrite len_app, len_fmap, len_replicate. unfold len at 1. rewrite length_take, Hn. lia. }
      rewrite decide_True by exact Hin. rewrite Nat2Z.id.
      rewrite insert_app_r_alt by (rewrite length_fmap, length_take; lia). rewrite length_fmap, length_take, Nat.min_l, Nat.sub_diag by lia.
      replace (length vals - k)%nat with (S (length vals - S k)) by lia. rewrite (take_S_r _ _ p Hk), fmap_app, <- app_assoc. done. }
    rewrite (Hu F1 v) by (by apply list_lookup_total_correct). rewrite (Hu F2 d) by (by apply list_lookup_total_correct). eauto.
  - rewrite E, Hst, length_enum. rewrite firstn_all, Hn, Nat.sub_diag. simpl. by rewrite !app_nil_r.
Qed.
End gather.

(** ** Windows *)

Lemma filter_sorted {A} (R : relation A) (P : A → Prop) `{!∀ x, Decision (P x)} (l : list A) : StronglySorted R l → StronglySorted R (filter P l).
Proof.
  induction 1 as [|x l Hl IH HF]; [constructor|]. destruct (decide (P x)); [rewrite filter_cons_True by done|by rewrite filter_cons_False by done].
  constructor; [done|]. apply Forall_forall. intros y [_ Hy]%list_elem_of_filter. rewrite Forall_forall in HF. auto.
Qed.

Section window.
Context (s : list (Z * Z)).
Hypothesis Hs : StronglySorted pairLe s.

(** The entries below a value. *)
Definition under (v : Z) : list (Z * Z) := filter (λ x, x.1 < v) s.
(** The entries in a half-open interval of values. *)
Definition between (a b : Z) : list (Z * Z) := filter (λ x, a ≤ x.1 < b) s.

Lemma under_split v : s = under v ++ filter (λ x, v ≤ x.1) s.
Proof using Hs.
  unfold under. induction Hs as [|x l Hl IH HF]; [done|]. destruct (decide (x.1 < v)) as [D|D].
  - rewrite filter_cons_True by done. rewrite (filter_cons_False (λ y : Z * Z, v ≤ y.1)) by lia. simpl. f_equal. by apply IH.
  - assert (∀ y, y ∈ l → v ≤ y.1) as Hy by (intros y Hy; rewrite Forall_forall in HF; specialize (HF y Hy); unfold pairLe in HF; lia).
    rewrite filter_cons_False by done. rewrite (filter_cons_True (λ y : Z * Z, v ≤ y.1)) by lia.
    rewrite (filter_whole (λ y : Z * Z, v ≤ y.1)) by (by apply Forall_forall). rewrite filter_empty; [done|]. apply Forall_forall. intros y Hin. specialize (Hy y Hin). lia.
Qed.

Lemma BinarySearch_ok v : BinarySearch s.*1 v = Ok (len (under v)).
Proof using Hs.
  unfold BinarySearch. pose proof (under_split v) as E. assert (len s.*1 = len (under v) + len (filter (λ x, v ≤ x.1) s)) as El by (rewrite len_fmap; rewrite E at 1; by rewrite len_app).
  apply bisect_ok; [pose proof (len_nonneg (under v)); pose proof (len_nonneg (filter (λ x, v ≤ x.1) s)); lia|unfold len; lia|].
  intros i Hi. destruct (idx_ok s.*1 i Hi) as (x & -> & Hx). cbn [mbind res_bind]. f_equal. apply bool_decide_ext.
  rewrite list_lookup_fmap in Hx. destruct (s !! Z.to_nat i) as [y|] eqn:Hy; [|done]. injection Hx as <-. rewrite E in Hy. apply lookup_app_Some in Hy as [Hy|[Hge Hy]].
  - pose proof (lookup_lt_Some _ _ _ Hy). apply list_elem_of_lookup_2, list_elem_of_filter in Hy as [Hy _]. unfold len. split; [lia|done].
  - apply list_elem_of_lookup_2, list_elem_of_filter in Hy as [Hy _]. unfold len. split; lia.
Qed.

Lemma between_under a b : a ≤ b → under b = under a ++ between a b.
Proof using Hs.
  intros Hab. unfold under at 1. rewrite (under_split a), filter_app. f_equal.
  - apply filter_whole, Forall_forall. intros x Hx. apply list_elem_of_filter in Hx. lia.
  - unfold between. rewrite list_filter_filter. apply list_filter_iff. intros x. lia.
Qed.

Lemma window_slice a b : (if decide (len (under b) ≤ len (under a)) then Ok [] else slice s.*2 (len (under a)) (len (under b))) = Ok (between a b).*2.
Proof using Hs.
  destruct (decide (a ≤ b)) as [Hab|Hab].
  - rewrite (between_under a b Hab), len_app. case_decide as D.
    + pose proof (len_nonneg (between a b)). destruct (between a b); [done|]. rewrite len_cons in D. pose proof (len_nonneg l). lia.
    + pose proof (under_split b) as E. rewrite (between_under a b Hab) in E. rewrite E at 1. rewrite <- app_assoc, !fmap_app.
      apply slice_at; by rewrite len_fmap.
  - assert (under a = under b ++ between b a) as -> by (apply between_under; lia). rewrite len_app, decide_True by (pose proof (len_nonneg (between b a)); lia).
    unfold between. rewrite filter_empty; [done|]. apply Forall_forall. intros x _. lia.
Qed.

(** The bounds, as the ends of a half-open interval. *)
Lemma Window_between lo hi loIncl hiIncl : is_i64 lo → is_i64 hi → Forall (λ x, is_i64 x.1) s →
  Window (mkRangeIndex s.*1 s.*2) lo hi loIncl hiIncl = Ok (between (if loIncl then lo else lo + 1) (if hiIncl then hi + 1 else hi)).*2.
Proof using Hs.
  intros Hlo Hhi HF. assert (∀ v incl, is_i64 v → (if incl : bool then Ok (len (under v)) else if decide (v = maxInt64) then Ok (len s.*1) else BinarySearch s.*1 (to_i64 (v + 1)))
    = Ok (len (under (if incl then v else v + 1)))) as Hb.
  { intros v [] Hv; [done|]. case_decide as D; [|by rewrite wrapS_small, BinarySearch_ok by (unfold maxInt64 in D; lia)].
    unfold under. rewrite filter_whole; [by rewrite len_fmap|]. apply Forall_forall. intros x Hx. rewrite Forall_forall in HF. specialize (HF x Hx). subst v. unfold maxInt64. lia. }
  unfold Window, lowerBound, upperBound. cbn [ri_vals ri_ids]. rewrite (BinarySearch_ok lo), (BinarySearch_ok hi), (Hb lo loIncl Hlo). cbn [mbind res_bind].
  assert (∀ A (x y : A), (if negb hiIncl then x else y) = if hiIncl then y else x) as Hn by (by destruct hiIncl). rewrite Hn.
  specialize (Hb hi (negb hiIncl) Hhi). rewrite !Hn in Hb. rewrite Hb. cbn [mbind res_bind]. apply window_slice.
Qed.
End window.

(** The interval of [Window], per-bound inclusivity. *)
Definition inWindow (lo hi : Z) (loIncl hiIncl : bool) (v : Z) : Prop :=
  (if loIncl then lo ≤ v else lo < v) ∧ (if hiIncl then v ≤ hi else v < hi).

(** ** Snapshots with readable columns *)

Record readable {bm} (g : Snapshot bm) : Prop := {
  rd_atoms : wf_atomTable (atoms g) ∧ len (strings (atoms g)) < 4294967296;
  rd_keys : keysOK (labelIndex g) ∧ keysOK (typeIndex g) ∧ keysOK (columns g) ∧ keysOK (relColumns g);
  rd_columns : ∀ k c, columns g !! k = Some c → storable c;
}.

(** What the builder finalizes and a file holds is readable. *)
Lemma fits_readable {bm} `{RoaringSetLaws bm} {HR : RcpgSection.Roaring bm} (g : Snapshot bm) : fits g → wf_atomTable (atoms g) → readable g.
Proof.
  intros [[Ha _] _ _ _ _ _ [_ K1] [_ K2] [_ K3] [_ K4] _] Hw. assert (∀ k, is_u32 k → 0 ≤ k) as Hk by (intros k Hk; lia). split; [done| |].
  - split_and!; intros k [x Hx]; [apply K1 in Hx|apply K2 in Hx|apply K3 in Hx|apply K4 in Hx]; destruct Hx; lia.
  - intros k c Hc. by apply K3 in Hc as [_ Hc].
Qed.

Lemma storable_represents c : storable c → ∃ l, represents c l.
Proof. intros (d & c' & _ & _ & _ & _ & l & Hl & _)%storable_reloads. by exists l. Qed.

Section readable.
Context {bm : Type} `{RoaringSetLaws bm}.
Implicit Types g : Snapshot bm.

(** Names resolve without a panic, to ids of the atom table. *)
Lemma readable_name g name : readable g → ∃ id ok, schemaID g name = Ok (id, ok) ∧ 0 ≤ id ∧ (ok = true → id < len (strings (atoms g))).
Proof.
  intros [[Hw _] (K1 & K2 & K3 & K4) _]. rewrite schemaID_ok by done. destruct (ID_ok (atoms g) name Hw) as ([id ok] & a' & -> & _ & _ & Ho).
  exists id, ok. split; [done|]. simpl in Ho. destruct Ho as [[-> [Hid [Hs _]]]|[[= -> ->] _]]; [|by split; [lia|]].
  split; [lia|]. intros _. apply lookup_lt_Some in Hs. unfold len. lia.
Qed.

(** A node's value is what the list its column represents holds. *)
Lemma readable_prop g key keyID c l n : readable g → PropertyKey g key = Ok (keyID, true) → columns g !! keyID = Some c → represents c l → 0 ≤ n →
  Prop_ g n key = Ok ((list_to_map l : gmap Z Value) !! n).
Proof.
  intros Hg Ek Hc Hr Hn. unfold Prop_, propOf. rewrite Ek. cbn [mbind res_bind]. rewrite Hc, (rp_get _ _ Hr n Hn). cbn [mbind res_bind].
  by destruct (list_to_map l !! n).
Qed.

Lemma rangeBuild_ok c : storable c → Column_Dtype c = DtypeI64 → ∃ ids vals, length ids = length vals ∧ Forall isI64 vals ∧ Forall (λ i, 0 ≤ i) ids ∧
  represents c (zip ids (I64Value <$> vals)) ∧ buildRangeIndex c = Ok (mkRangeIndex (ranked ids vals).*1 (ranked ids vals).*2).
Proof.
  intros Hs Ht. destruct (collectPairs_ok c Hs Ht) as (ids & vals & E & Hl & HF & Hi & Hr). exists ids, vals. do 4 (split; [done|]).
  unfold buildRangeIndex. rewrite (rp_len _ _ Hr). cbn [mbind res_bind]. rewrite E. cbn [mbind res_bind]. by rewrite (gather_ok ids vals Hl).
Qed.

(** The entries of a view are the readings of its key. *)
Lemma ranked_reads g key keyID c ids vals : readable g → PropertyKey g key = Ok (keyID, true) → columns g !! keyID = Some c → length ids = length vals →
  Forall (λ i, 0 ≤ i) ids → represents c (zip ids (I64Value <$> vals)) →
  NoDup (ranked ids vals).*2 ∧ (∀ v n, (v, n) ∈ ranked ids vals → 0 ≤ n ∧ Prop_ g n key = Ok (Some (I64Value v))) ∧
  ∀ n x, 0 ≤ n → Prop_ g n key = Ok (Some x) → ∃ v, x = I64Value v ∧ (v, n) ∈ ranked ids vals.
Proof.
  intros Hg Ek Hc Hl Hi Hr. pose proof (ranked_perm ids vals Hl) as HP. pose proof (rp_sorted _ _ Hr) as Hs. rewrite fst_zip in Hs by (rewrite length_fmap; lia).
  assert (∀ k n v, ids !! k = Some n → vals !! k = Some v → (list_to_map (zip ids (I64Value <$> vals)) : gmap Z Value) !! n = Some (I64Value v)) as Hk.
  { intros k n v Hn Hv. apply (lookup_pairs _ _ k); [done|by rewrite length_fmap|done|]. by rewrite list_lookup_fmap, Hv. }
  assert (∀ v n, (v, n) ∈ ranked ids vals ↔ ∃ k, ids !! k = Some n ∧ vals !! k = Some v) as Hin.
  { intros v n. rewrite HP, list_elem_of_lookup. apply exist_proper. intros k. rewrite lookup_zip_with_Some. naive_solver. }
  split_and!.
  - rewrite HP, snd_zip by lia. by apply sorted_NoDup.
  - intros v n (k & Hn & Hv)%Hin. pose proof (Forall_lookup_1 _ _ _ _ Hi Hn). split; [done|]. by rewrite (readable_prop g key keyID c _ n Hg Ek Hc Hr), (Hk k n v).
  - intros n x Hn. rewrite (readable_prop g key keyID c _ n Hg Ek Hc Hr) by done. intros [= Hx]. apply elem_of_list_to_map_2, list_elem_of_lookup in Hx as [k Hx].
    apply lookup_zip_with_Some in Hx as (n' & x' & [= <- <-] & Hn' & Hx). rewrite list_lookup_fmap in Hx. destruct (vals !! k) as [v|] eqn:Hv; [|done]. injection Hx as <-.
    exists v. split; [done|]. apply Hin. eauto.
Qed.

Lemma window_reads g key s lo hi loIncl hiIncl : StronglySorted pairLe s → Forall (λ x, is_i64 x.1) s → NoDup s.*2 →
  (∀ v n, (v, n) ∈ s → 0 ≤ n ∧ Prop_ g n key = Ok (Some (I64Value v))) →
  (∀ n x, 0 ≤ n → Prop_ g n key = Ok (Some x) → ∃ v, x = I64Value v ∧ (v, n) ∈ s) → is_i64 lo → is_i64 hi →
  ∃ ids vals, Window (mkRangeIndex s.*1 s.*2) lo hi loIncl hiIncl = Ok ids ∧ NoDup ids ∧ StronglySorted pairLe (zip vals ids) ∧
    Forall2 (λ n v, Prop_ g n key = Ok (Some (I64Value v))) ids vals ∧
    ∀ n v, 0 ≤ n → is_i64 v → Prop_ g n key = Ok (Some (I64Value v)) → n ∈ ids ↔ inWindow lo hi loIncl hiIncl v.
Proof.
  intros Hs HF Hnd Hin Hout Hlo Hhi. set (a := if loIncl then lo else lo + 1). set (b := if hiIncl then hi + 1 else hi). set (W := between s a b).
  assert (∀ v n, (v, n) ∈ W ↔ (v, n) ∈ s ∧ inWindow lo hi loIncl hiIncl v) as HW.
  { intros v n. unfold W, between. rewrite list_elem_of_filter. unfold inWindow, a, b. simpl. destruct loIncl, hiIncl; intuition lia. }
  exists W.*2, W.*1. split; [by apply Window_between|]. split; [|split; [|split]].
  - eapply sublist_NoDup; [exact Hnd|]. apply fmap_sublist. unfold W, between. apply sublist_filter.
  - rewrite zip_fst_snd. by apply filter_sorted.
  - apply Forall2_fmap, Forall_Forall2_diag, Forall_forall. intros [v n] [Hx _]%HW. by apply Hin.
  - intros n v Hn Hv Hp. rewrite list_elem_of_fmap. split.
    + intros ([v' n'] & -> & [Hx Hw]%HW). destruct (Hin v' n' Hx) as [_ Hp']. simpl in Hp. rewrite Hp' in Hp. injection Hp as Hp. rewrite Forall_forall in HF. specialize (HF _ Hx). simpl in HF.
      assert (v' = v) as <-; [|done]. rewrite <- (to_i64_to_u64 v'), <- (to_i64_to_u64 v) by done. by f_equal.
    + intros Hw. destruct (Hout n _ Hn Hp) as (v' & Hv' & Hx). exists (v', n). split; [done|]. apply HW. split; [done|]. rewrite Forall_forall in HF. specialize (HF _ Hx). simpl in HF.
      injection Hv' as Hv'. assert (v' = v) as ->; [|done]. rewrite <- (to_i64_to_u64 v'), <- (to_i64_to_u64 v) by done. by f_equal.
Qed.
End readable.

(** ** Properties *)

(** C14: Range scans are exact: on every snapshot with stored columns and whatever
    views are cached already, [ColRangeIndex] returns, a view exactly for keys of
    integer columns; and for all bounds of the 64-bit range, inclusive or not - the
    greatest integer excluded and inverted intervals too - [Window] returns, without
    repetition and ordered by value and then id, the nodes whose property [Prop]
    reads as an integer in the interval, and no others, in any of the seven storage
    layouts of integers. *)
Theorem range_scan_exact {bm} `{RoaringSetLaws bm} (g : Snapshot bm) (cache : gmap Z RangeIndex) (key : gostring) :
  readable g → cacheOK (rangeBuild g) cache →
  ∃ o cache', ColRangeIndex g cache key = Ok (o, cache') ∧ cacheOK (rangeBuild g) cache' ∧
    (is_Some o ↔ ∃ keyID c, PropertyKey g key = Ok (keyID, true) ∧ columns g !! keyID = Some c ∧ Column_Dtype c = DtypeI64) ∧
    ∀ r lo hi loIncl hiIncl, o = Some r → is_i64 lo → is_i64 hi →
      ∃ ids vals, Window r lo hi loIncl hiIncl = Ok ids ∧ NoDup ids ∧ StronglySorted pairLe (zip vals ids) ∧
        Forall2 (λ n v, Prop_ g n key = Ok (Some (I64Value v))) ids vals ∧
        ∀ n v, 0 ≤ n → is_i64 v → Prop_ g n key = Ok (Some (I64Value v)) → n ∈ ids ↔ inWindow lo hi loIncl hiIncl v.
Proof.
  intros Hg Hc. destruct (readable_name g key Hg) as (keyID & ok & Ek & _). unfold ColRangeIndex, PropertyKey. rewrite Ek. cbn [mbind res_bind].
  assert (∀ o, (o = None → ∀ c, ok = true → columns g !! keyID = Some c → Column_Dtype c ≠ DtypeI64) → (is_Some o → ∃ c, ok = true ∧ columns g !! keyID = Some c ∧ Column_Dtype c = DtypeI64) →
    is_Some (A := RangeIndex) o ↔ ∃ keyID' c, Ok (keyID, ok) = Ok (keyID', true) ∧ columns g !! keyID' = Some c ∧ Column_Dtype c = DtypeI64) as Hiff.
  { intros o Hn Hy. split; [naive_solver|]. intros (k & c & [= <- ->] & E & Ht). destruct o; [done|]. by destruct (Hn eq_refl c). }
  destruct ok; simpl; [|exists None, cache; do 2 (split; [done|]); split; [by apply Hiff; [|intros []]|done]].
  destruct (columns g !! keyID) as [c|] eqn:Ec; [|exists None, cache; do 2 (split; [done|]); split; [by apply Hiff; [|intros []]|done]].
  destruct (decide (Column_Dtype c = DtypeI64)) as [Ht|Ht].
  2: { exists None, cache. split; [by destruct (Column_Dtype c)|]. split; [done|]. split; [|done]. apply Hiff; [naive_solver|by intros []]. }
  rewrite Ht. destruct (rangeBuild_ok c (rd_columns _ Hg _ _ Ec) Ht) as (ids & vals & Hl & HF & Hi & Hr & Eb).
  destruct (getOrBuild_ok (rangeBuild g) cache keyID (Some (mkRangeIndex (ranked ids vals).*1 (ranked ids vals).*2)) Hc) as (cache' & E' & Hc').
  { unfold rangeBuild. rewrite Ec, Eb. done. }
  eexists _, cache'. split; [exact E'|]. split; [done|]. split; [apply Hiff; [done|eauto]|].
  intros r lo hi loIncl hiIncl [= <-] Hlo Hhi. destruct (ranked_reads g key keyID c ids vals Hg Ek Ec Hl Hi Hr) as (Hnd & Hin & Hout).
  apply (window_reads g key); try done; [apply ranked_sorted|]. apply Forall_forall. intros [v n]. rewrite ranked_perm by done.
  intros [k (v' & n' & [= -> ->] & Hv & _)%lookup_zip_with_Some]%list_elem_of_lookup. exact (Forall_lookup_1 _ _ _ _ HF Hv).
Qed.

(** Three nodes with an integer property "A", two of them with the same value. *)
Definition agesSnap : Snapshot (gset Z) :=
  mkSnapshot 6 0 [0; 0; 0; 0; 0; 0; 0] [] (mkRelTypes None [] []) [0; 0; 0; 0; 0; 0; 0] [] (mkRelTypes None [] []) None false
    {[2 := mkSet {[0; 5]}]} ∅ None {[1 := sparseI64Col [0; 2; 5] [7; -3; 7]]} ∅ 0 None (NewAtoms [[]; [Byte.x41]; [Byte.x42]]).

Lemma agesSnap_readable : readable agesSnap.
Proof.
  assert (∀ A : Type, keysOK (∅ : gmap Z A)) as Hno by (intros A k [v Hv]; by rewrite lookup_empty in Hv).
  split.
  - split; [by split|]. done.
  - split_and!; [|apply Hno| |apply Hno]; intros k [v Hv]; simpl in Hv; apply lookup_singleton_Some in Hv; lia.
  - intros k c Hc. simpl in Hc. apply lookup_singleton_Some in Hc as [_ <-]. apply st_sparseI64. split; [repeat constructor; lia|repeat constructor; lia|done|done|repeat constructor; lia].
Qed.

Lemma range_scan_exact_witness : ∃ r ids, ColRangeIndex agesSnap ∅ [Byte.x41] = Ok (Some r, {[1 := r]}) ∧ Window r (-3) maxInt64 false true = Ok ids ∧ NoDup ids ∧
  (5 ∈ ids ↔ inWindow (-3) maxInt64 false true 7) ∧ ids = [0; 5].
Proof.
  destruct (range_scan_exact agesSnap ∅ [Byte.x41] agesSnap_readable (cacheOK_empty _)) as (o & cache' & E & _ & _ & Hw).
  assert (ColRangeIndex agesSnap ∅ [Byte.x41] = Ok (Some (mkRangeIndex [-3; 7; 7] [2; 0; 5]), {[1 := mkRangeIndex [-3; 7; 7] [2; 0; 5]]})) as Er by (by vm_compute).
  rewrite Er in E. injection E as <- <-. destruct (Hw _ (-3) maxInt64 false true eq_refl) as (ids & vals & Ei & Hn & _ & _ & Hin); [unfold maxInt64; lia..|].
  exists (mkRangeIndex [-3; 7; 7] [2; 0; 5]), ids. split; [done|]. split; [done|]. split; [done|]. split; [apply Hin; [lia|lia|by vm_compute]|].
  assert (Window (mkRangeIndex [-3; 7; 7] [2; 0; 5]) (-3) maxInt64 false true = Ok [0; 5]) as E2 by (by vm_compute). rewrite E2 in Ei. by injection Ei.
Defined.
