(* ===== verification/PropIndex.v ===== *)
(** The lazy per-value property index: [src/propindex.go], and
    [ValueFromString] of [src/props.go].

    The index of a label and a key maps each value to the nodes that carry it; it
    is built from the key's column on first use and cached (see [LazyCache]).
    The theorems: label-scoped and label-free lookups answer exactly what reading
    every node's property would, whatever is cached. *)

From S2P Require Import Prelude Bitset Value AtomTable Columns NodeSet RelTypes Snapshot SnapshotSpec SerializeSpec LazyCache RangeIndex.

#[export] Instance ValueKind_countable : Countable ValueKind.
Proof.
  apply (inj_countable' (λ k, match k with KindStr => 0 | KindI64 => 1 | KindF64 => 2 | KindBool => 3 end)
    (λ z, if decide (z = 0) then KindStr else if decide (z = 1) then KindI64 else if decide (z = 2) then KindF64 else KindBool)). by intros [].
Defined.
#[export] Instance Value_countable : Countable Value.
Proof. apply (inj_countable' (λ v, (vkind v, vbits v)) (λ p, mkValue p.1 p.2)). by intros []. Defined.

(** [^uint32(0)]: the scope of the label-free index. *)
Definition anyLabel : Z := 4294967295.

(** What an [any] argument holds; [AnyOther] is a type the lookups do not take. *)
Inductive anyValue :=
| AnyValue (v : Value) | AnyString (s : gostring) | AnyInt64 (v : Z) | AnyInt (v : Z) | AnyInt32 (v : Z) | AnyFloat64 (bits : Z) | AnyBool (b : bool) | AnyOther.

Section propindex.
Context {bm : Type} `{RoaringSet bm}.
Implicit Types g : Snapshot bm.

(** [map[Value]*nodeset.Set]. *)
Abbreviation valueIndex := (gmap Value (Set_ bm)).
(** The snapshot's [propIndex], by label and key. *)
Abbreviation propCache := (gmap (Z * Z) (gmap Value (Set_ bm))).

Definition ValueFromString g (s : gostring) : res (Value * bool) :=
  '(id, ok) ← (ID (atoms g) s).1;
  Ok (StrValue id, ok).

Definition valueFromAny g (value : anyValue) : res (Value * bool) :=
  match value with
  | AnyValue v => Ok (v, true)
  | AnyString s => ValueFromString g s
  | AnyInt64 v => Ok (I64Value v, true)
  | AnyInt v => Ok (I64Value v, true)
  | AnyInt32 v => Ok (I64Value v, true)
  | AnyFloat64 v => Ok (F64Value v, true)
  | AnyBool v => Ok (BoolValue v, true)
  | AnyOther => Ok (Value0, false)
  end.

(** [grouped[v] = append(grouped[v], pos)]. *)
Definition valueStep (labelNodes : option (Set_ bm)) (grouped : gmap Value (list Z)) (e : Z * Value) : gmap Value (list Z) :=
  if (match labelNodes with None => true | Some s => Contains s e.1 end)
  then <[e.2 := default [] (grouped !! e.2) ++ [e.1]]> grouped
  else grouped.

Definition buildPropValueIndex (column : Column) (labelNodes : option (Set_ bm)) : res valueIndex :=
  es ← Column_Entries column;
  Ok ((λ ids, FromBitmap (bmAddMany bmNew ids)) <$> foldl (valueStep labelNodes) ∅ es).

(** A set and [ok] are an option. *)
Definition withPropValueIndex (cache : propCache) (indexKey : Z * Z) (build : res (option valueIndex)) (query : valueIndex → option (Set_ bm))
    : res (option (Set_ bm) * propCache) :=
  '(o, cache) ← getOrBuild (λ _, build) cache indexKey;
  Ok (match o with None => None | Some index => query index end, cache).

(** The closures of [NodesWithValue] and [NodeWithProperty]. *)
Definition labelBuild g (labelID keyID : Z) : res (option valueIndex) :=
  match labelIndex g !! labelID with
  | None => Ok None
  | Some labelNodes =>
      match columns g !! keyID with
      | None => Ok None
      | Some column => index ← buildPropValueIndex column (Some labelNodes); Ok (Some index)
      end
  end.
Definition anyBuild g (keyID : Z) : res (option valueIndex) :=
  match columns g !! keyID with
  | None => Ok None
  | Some column => index ← buildPropValueIndex column None; Ok (Some index)
  end.

Definition NodesWithValue g (cache : propCache) (label key : gostring) (v : Value) : res (option (Set_ bm) * propCache) :=
  '(labelID, ok) ← Label g label;
  if negb ok then Ok (None, cache)
  else
    '(keyID, ok) ← PropertyKey g key;
    if negb ok then Ok (None, cache)
    else withPropValueIndex cache (labelID, keyID) (labelBuild g labelID keyID) (λ index, index !! v).

Definition NodesWithProperty g (cache : propCache) (label key : gostring) (value : anyValue) : res (option (Set_ bm) * propCache) :=
  '(v, ok) ← valueFromAny g value;
  if negb ok then Ok (None, cache) else NodesWithValue g cache label key v.

Definition NodeWithProperty g (cache : propCache) (key : gostring) (value : anyValue) : res (Z * bool * propCache) :=
  '(keyID, ok) ← PropertyKey g key;
  if negb ok then Ok (0, false, cache)
  else
    '(v, ok) ← valueFromAny g value;
    if negb ok then Ok (0, false, cache)
    else
      '(set, cache) ← withPropValueIndex cache (anyLabel, keyID) (anyBuild g keyID) (λ index, index !! v);
      Ok (match set with None => (0, false) | Some set => NodeSet.Min set end, cache).

Definition NodeWithLabelProperty g (cache : propCache) (label key : gostring) (value : anyValue) : res (Z * bool * propCache) :=
  '(set, cache) ← NodesWithProperty g cache label key value;
  Ok (match set with None => (0, false) | Some set => NodeSet.Min set end, cache).

(** What is stored under a key, by whichever closure built it. *)
Definition propBuild g (k : Z * Z) : res (option valueIndex) :=
  if decide (k.1 = anyLabel) then anyBuild g k.2 else labelBuild g k.1 k.2.
End propindex.

(** ** Lemmas *)

(** The columns of a snapshot enumerate unsigned positions. *)
Lemma dense_positions n at_ l : denseEntries n at_ = Ok l → Forall (λ e : Z * Value, 0 ≤ e.1) l.
Proof.
  intros E%mapM_Ok. apply Forall_lookup. intros k e He. destruct (Forall2_lookup_r _ _ _ _ _ E He) as (i & _ & Hi).
  destruct (at_ i); cbn in Hi; try done. injection Hi as <-. simpl. pose proof (wrapU_range 32 i). lia.
Qed.

Lemma rank_positions r at_ l : rank_entries r at_ = Ok l → Forall (λ e : Z * Value, 0 ≤ e.1) l.
Proof.
  intros E. unfold rank_entries in E. set (f := λ '(slot, out) pos, _) in E.
  assert (∀ ps st out, foldM f ps st = Ok out → Forall (λ e : Z * Value, 0 ≤ e.1) st.2 → Forall (λ e : Z * Value, 0 ≤ e.1) out.2) as Hf.
  { induction ps as [|p ps IH]; intros [slot o] out Eo Hst; cbn [foldM] in Eo; [by injection Eo as <-|]. change (f (slot, o) p) with (v ← at_ slot; Ok (slot + 1, o ++ [(to_u32 p, v)])) in Eo. destruct (at_ slot); cbn [mbind res_bind] in Eo; try done.
    apply (IH _ _ Eo). simpl. apply Forall_app. split; [done|]. constructor; [|done]. simpl. pose proof (wrapU_range 32 p). lia. }
  destruct (foldM f (Ones (present r)) (0, [])) as [[s o]| |] eqn:Ef; cbn in E; try done. injection E as <-. by apply (Hf _ _ _ Ef).
Qed.

Lemma sparse_positions ids at_ l : Forall (λ i, is_u32 i) ids → sparseEntries ids at_ = Ok l → Forall (λ e : Z * Value, 0 ≤ e.1) l.
Proof.
  intros Hi E%mapM_Ok. apply Forall_lookup. intros k e He. destruct (Forall2_lookup_r _ _ _ _ _ E He) as ([i id] & [_ Hid]%lookup_enum & Hx).
  destruct (at_ i); cbn in Hx; try done. injection Hx as <-. simpl. pose proof (Forall_lookup_1 _ _ _ _ Hi Hid) as Hu. simpl in Hu. lia.
Qed.

Lemma storable_positions c l : storable c → Column_Entries c = Ok l → Forall (λ e : Z * Value, 0 ≤ e.1) l.
Proof.
  intros Hs. assert (match c with sparseI64Col ids _ | sparseF64Col ids _ | sparseStrCol ids _ | sparseBoolCol ids _ | sparseI64NarrowCol ids _ => Forall (λ i, is_u32 i) ids | _ => True end) as Hi.
  { destruct Hs as [vals c HF E| | | |? ? []|? ? ? []|? ? []|? ? []|? ? []| | | | |]; try done. pose proof (columnToData_denseI64 vals c HF E) as Ed.
    destruct c; try done; cbn [Serialize.columnToData] in Ed; by repeat (destruct (Serialize.sparseData _ _); try done). }
  destruct c; cbn [Column_Entries]; try (apply dense_positions); try (apply rank_positions); try (by apply sparse_positions).
  intros E. unfold denseI64Narrow.Entries in E. destruct (Narrow.nv_n v); cbn [mbind res_bind] in E; try done. by apply dense_positions in E.
Qed.

Section lookups.
Context {bm : Type} `{RoaringSetLaws bm}.
Implicit Types g : Snapshot bm.

(** The nodes of a lookup's answer. *)
Definition answer (o : option (Set_ bm)) : gset Z := from_option elems ∅ o.
Definition inScope (labelNodes : option (Set_ bm)) (x : Z) : Prop := match labelNodes with None => True | Some s => x ∈ elems s end.

Lemma valueSteps_ok labelNodes es m v x : (∃ ids, foldl (valueStep labelNodes) m es !! v = Some ids ∧ x ∈ ids) ↔
  (∃ ids, m !! v = Some ids ∧ x ∈ ids) ∨ (x, v) ∈ es ∧ inScope labelNodes x.
Proof.
  revert m. induction es as [|[y w] es IH]; intros m; simpl; [set_solver|]. rewrite IH, elem_of_cons. unfold valueStep. cbn [fst snd].
  assert ((match labelNodes with None => true | Some s => Contains s y end) = true ↔ inScope labelNodes y) as Hk.
  { destruct labelNodes as [s|]; simpl; [|done]. unfold Contains. rewrite bm_contains. apply bool_decide_eq_true. }
  destruct (match labelNodes with None => true | Some s => Contains s y end) eqn:E.
  - assert ((∃ ids, <[w := default [] (m !! w) ++ [y]]> m !! v = Some ids ∧ x ∈ ids) ↔ (∃ ids, m !! v = Some ids ∧ x ∈ ids) ∨ (x, v) = (y, w)) as ->; [|naive_solver].
    destruct (decide (w = v)) as [->|Hne].
    + rewrite lookup_insert_eq. split.
      * intros (ids & [= <-] & Hx). rewrite elem_of_app, list_elem_of_singleton in Hx. destruct Hx as [Hx| ->]; [|auto]. left. destruct (m !! v) as [ids|]; simpl in Hx; [eauto|by apply not_elem_of_nil in Hx].
      * intros [(ids & Em & Hx)|[= ->]]; eexists; (split; [done|]); rewrite elem_of_app, list_elem_of_singleton; [rewrite Em; auto|auto].
    + rewrite lookup_insert_ne by done. naive_solver.
  - assert (¬ inScope labelNodes y) by (rewrite <- Hk; done). naive_solver.
Qed.

Lemma valueSteps_full labelNodes es m : (∀ v ids, m !! v = Some ids → ids ≠ []) → ∀ v ids, foldl (valueStep labelNodes) m es !! v = Some ids → ids ≠ [].
Proof.
  revert m. induction es as [|[y w] es IH]; intros m Hm; simpl; [done|]. apply IH. unfold valueStep. cbn [fst snd]. destruct (match labelNodes with None => true | Some s => Contains s y end); [|done].
  intros v ids. rewrite lookup_insert_Some. intros [[_ <-]|[_ Hv]]; [by destruct (default [] _)|by eapply Hm].
Qed.

(** An index holds, under each value, the nodes in scope that carry it. *)
Lemma buildPropValueIndex_ok c l labelNodes : represents c l → ∃ index, buildPropValueIndex c labelNodes = Ok index ∧
  ∀ v, (∀ s, index !! v = Some s → elems s ≠ ∅) ∧ ∀ x, x ∈ answer (index !! v) ↔ (x, v) ∈ l ∧ inScope labelNodes x.
Proof.
  intros Hr. unfold buildPropValueIndex. rewrite (rp_entries _ _ Hr). cbn [mbind res_bind]. eexists. split; [done|]. intros v. rewrite lookup_fmap.
  pose proof (valueSteps_full labelNodes l ∅ ltac:(by intros ? ? ?%lookup_empty_Some) v) as Hfull.
  pose proof (λ x, valueSteps_ok labelNodes l ∅ v x) as Hx. destruct (foldl (valueStep labelNodes) ∅ l !! v) as [ids|] eqn:E; simpl.
  - assert (∀ x, x ∈ elems (FromBitmap (bmAddMany bmNew ids)) ↔ x ∈ ids) as He.
    { intros x. unfold elems, FromBitmap. simpl. rewrite bm_addMany, bm_new. set_solver. }
    split.
    + intros s [= <-] Hs. specialize (Hfull ids eq_refl). destruct ids as [|y ids]; [done|]. apply (not_elem_of_empty (C := gset Z) y). rewrite <- Hs. apply He. by left.
    + intros x. rewrite He. specialize (Hx x). rewrite lookup_empty in Hx. naive_solver.
  - split; [done|]. intros x. specialize (Hx x). rewrite lookup_empty in Hx. set_solver.
Qed.

(** Reading a node's value from what its column represents. *)
Lemma value_in_pairs g key keyID c l n v : readable g → PropertyKey g key = Ok (keyID, true) → columns g !! keyID = Some c → represents c l → 0 ≤ n →
  (n, v) ∈ l ↔ Prop_ g n key = Ok (Some v).
Proof.
  intros Hg Ek Hc Hr Hn. rewrite (readable_prop g key keyID c l n) by done. rewrite (elem_of_list_to_map (M := gmap Z)) by (apply sorted_NoDup, (rp_sorted _ _ Hr)). split; [by intros ->|by intros [= ->]].
Qed.

(** A query against the cached index of a key. *)
Lemma withIndex_ok g (cache : gmap (Z * Z) (gmap Value (Set_ bm))) k build o v : cacheOK (propBuild g) cache → build = propBuild g k → build = Ok o →
  ∃ cache', withPropValueIndex cache k build (λ index, index !! v) = Ok (match o with None => None | Some index => index !! v end, cache') ∧ cacheOK (propBuild g) cache'.
Proof.
  intros Hc -> Ho. destruct (getOrBuild_ok (propBuild g) cache k o Hc Ho) as (cache' & E & Hc'). exists cache'. split; [|done].
  unfold withPropValueIndex. assert (getOrBuild (λ _, propBuild g k) cache k = getOrBuild (propBuild g) cache k) as -> by done. by rewrite E.
Qed.

Lemma no_column g key keyID n v : PropertyKey g key = Ok (keyID, true) → columns g !! keyID = None → Prop_ g n key ≠ Ok (Some v).
Proof. intros Ek Hc. unfold Prop_, propOf. rewrite Ek. cbn [mbind res_bind]. by rewrite Hc. Qed.
Lemma no_key g key keyID n v : PropertyKey g key = Ok (keyID, false) → Prop_ g n key ≠ Ok (Some v).
Proof. intros Ek. unfold Prop_. by rewrite Ek. Qed.

Lemma HasLabel_scope g label labelID n : Label g label = Ok (labelID, true) →
  HasLabel g n label = Ok true ↔ ∃ s, labelIndex g !! labelID = Some s ∧ n ∈ elems s.
Proof.
  intros El. unfold HasLabel, NodesWithLabel. rewrite El. cbn [mbind res_bind]. destruct (labelIndex g !! labelID) as [s|]; [|naive_solver].
  unfold Contains. rewrite bm_contains. split; [|intros (s' & [= <-] & Hn); by rewrite bool_decide_eq_true_2]. intros [= Hn%bool_decide_eq_true]. eauto.
Qed.

Lemma NodesWithValue_ok g (cache : gmap (Z * Z) (gmap Value (Set_ bm))) label key v : readable g → cacheOK (propBuild g) cache →
  ∃ o cache', NodesWithValue g cache label key v = Ok (o, cache') ∧ cacheOK (propBuild g) cache' ∧ (∀ s, o = Some s → elems s ≠ ∅) ∧ (∀ n, n ∈ answer o → 0 ≤ n) ∧
    ∀ n, 0 ≤ n → n ∈ answer o ↔ HasLabel g n label = Ok true ∧ Prop_ g n key = Ok (Some v).
Proof.
  intros Hg Hc. unfold NodesWithValue. destruct (readable_name g label Hg) as (labelID & ok1 & El & _ & Hlt). destruct (readable_name g key Hg) as (keyID & ok2 & Ek & _).
  unfold Label, PropertyKey. rewrite El, Ek. cbn [mbind res_bind]. destruct ok1; simpl.
  2: { exists None, cache. split_and!; try done. intros n _. split; [set_solver|]. intros [Hl _]. unfold HasLabel, NodesWithLabel, Label in Hl. by rewrite El in Hl. }
  destruct ok2; simpl; [|exists None, cache; split_and!; try done; intros n _; split; [set_solver|]; intros [_ Hp]; by apply (no_key g key keyID n v) in Hp].
  assert (labelBuild g labelID keyID = propBuild g (labelID, keyID)) as Eb.
  { unfold propBuild. cbn [fst snd]. rewrite decide_False; [done|]. destruct Hg as [[_ Ha] _ _]. specialize (Hlt eq_refl). unfold anyLabel. lia. }
  destruct (labelIndex g !! labelID) as [s|] eqn:Es; [destruct (columns g !! keyID) as [c|] eqn:Ec|].
  - destruct (storable_represents c (rd_columns _ Hg _ _ Ec)) as [l Hr]. destruct (buildPropValueIndex_ok c l (Some s) Hr) as (index & Ei & Hi).
    destruct (withIndex_ok g cache (labelID, keyID) (labelBuild g labelID keyID) (Some index) v Hc Eb) as (cache' & E & Hc'); [unfold labelBuild; by rewrite Es, Ec, Ei|].
    destruct (Hi v) as [Hne Hx]. exists (index !! v), cache'. split_and!; [done..| |].
    + intros n [Hn _]%Hx. pose proof (storable_positions c l (rd_columns _ Hg _ _ Ec) (rp_entries _ _ Hr)) as HF. rewrite Forall_forall in HF. exact (HF _ Hn).
    + intros n Hn. rewrite Hx, (value_in_pairs g key keyID c l n v) by done. rewrite (HasLabel_scope g label labelID n El). simpl. naive_solver.
  - destruct (withIndex_ok g cache (labelID, keyID) (labelBuild g labelID keyID) None v Hc Eb) as (cache' & E & Hc'); [unfold labelBuild; by rewrite Es, Ec|].
    exists None, cache'. split_and!; try done. intros n _. split; [set_solver|]. intros [_ Hp]. by apply (no_column g key keyID n v) in Hp.
  - destruct (withIndex_ok g cache (labelID, keyID) (labelBuild g labelID keyID) None v Hc Eb) as (cache' & E & Hc'); [unfold labelBuild; by rewrite Es|].
    exists None, cache'. split_and!; try done. intros n _. split; [set_solver|]. rewrite (HasLabel_scope g label labelID n El). naive_solver.
Qed.

(** The label-free lookup, up to the choice of the smallest. *)
Lemma anyLookup_ok g (cache : gmap (Z * Z) (gmap Value (Set_ bm))) key keyID v : readable g → cacheOK (propBuild g) cache → PropertyKey g key = Ok (keyID, true) →
  ∃ o cache', withPropValueIndex cache (anyLabel, keyID) (anyBuild g keyID) (λ index, index !! v) = Ok (o, cache') ∧ cacheOK (propBuild g) cache' ∧
    (∀ s, o = Some s → elems s ≠ ∅) ∧ (∀ n, n ∈ answer o → 0 ≤ n) ∧ ∀ n, 0 ≤ n → n ∈ answer o ↔ Prop_ g n key = Ok (Some v).
Proof.
  intros Hg Hc Ek. destruct (columns g !! keyID) as [c|] eqn:Ec.
  - destruct (storable_represents c (rd_columns _ Hg _ _ Ec)) as [l Hr]. destruct (buildPropValueIndex_ok c l None Hr) as (index & Ei & Hi).
    destruct (withIndex_ok g cache (anyLabel, keyID) (anyBuild g keyID) (Some index) v Hc eq_refl) as (cache' & E & Hc'); [unfold anyBuild; by rewrite Ec, Ei|].
    destruct (Hi v) as [Hne Hx]. exists (index !! v), cache'. split_and!; [done..| |].
    + intros n [Hn _]%Hx. pose proof (storable_positions c l (rd_columns _ Hg _ _ Ec) (rp_entries _ _ Hr)) as HF. rewrite Forall_forall in HF. exact (HF _ Hn).
    + intros n Hn. rewrite Hx, (value_in_pairs g key keyID c l n v) by done. simpl. naive_solver.
  - destruct (withIndex_ok g cache (anyLabel, keyID) (anyBuild g keyID) None v Hc eq_refl) as (cache' & E & Hc'); [unfold anyBuild; by rewrite Ec|].
    exists None, cache'. split_and!; try done. intros n _. split; [set_solver|]. intros Hp. by apply (no_column g key keyID n v) in Hp.
Qed.

Lemma answer_min (o : option (Set_ bm)) : (∀ s, o = Some s → elems s ≠ ∅) →
  match (match o with None => (0, false) | Some s => NodeSet.Min s end) with
  | (n, true) => n ∈ answer o ∧ ∀ m, m ∈ answer o → n ≤ m
  | (_, false) => answer o = ∅
  end.
Proof.
  intros Hne. destruct o as [s|]; simpl; [|done]. specialize (Hne s eq_refl). unfold NodeSet.Min.
  assert (bmIsEmpty (sbm s) = false) as -> by (rewrite bm_isEmpty; by apply bool_decide_eq_false). exact (bm_minimum (sbm s) Hne).
Qed.

Lemma valueFromAny_ok g value : readable g → ∃ v ok, valueFromAny g value = Ok (v, ok).
Proof.
  intros [[Hw _] _ _]. destruct value; simpl; eauto. unfold ValueFromString. destruct (ID_ok (atoms g) s Hw) as ([id ok] & a' & -> & _). cbn [mbind res_bind fst]. eauto.
Qed.
End lookups.

(** ** Properties *)

(** C15: Property lookups are exact: on every snapshot with stored columns and whatever
    indexes are cached already, [NodesWithValue] returns, and its set holds exactly the
    nodes that carry the label and whose property reads the value, not-ok when
    there are none; [NodeWithProperty] gives the smallest node, of any label,
    whose property reads the value, and [NodeWithLabelProperty] the smallest
    that carries the label as well, not-ok exactly when no node does or the
    argument names no value; and every answer leaves the cache exact. *)
Theorem property_lookup_exact {bm} `{RoaringSetLaws bm} (g : Snapshot bm) (cache : gmap (Z * Z) (gmap Value (Set_ bm))) (label key : gostring) :
  readable g → cacheOK (propBuild g) cache →
  (∀ v, ∃ o cache', NodesWithValue g cache label key v = Ok (o, cache') ∧ cacheOK (propBuild g) cache' ∧
     (o = None ↔ answer o = ∅) ∧ ∀ n, 0 ≤ n → n ∈ answer o ↔ HasLabel g n label = Ok true ∧ Prop_ g n key = Ok (Some v)) ∧
  ∀ value v ok, valueFromAny g value = Ok (v, ok) →
    (∃ n found cache', NodeWithProperty g cache key value = Ok (n, found, cache') ∧ cacheOK (propBuild g) cache' ∧
       if found : bool then ok = true ∧ 0 ≤ n ∧ Prop_ g n key = Ok (Some v) ∧ ∀ m, 0 ≤ m → Prop_ g m key = Ok (Some v) → n ≤ m
       else ok = true → ∀ m, 0 ≤ m → Prop_ g m key ≠ Ok (Some v)) ∧
    (∃ n found cache', NodeWithLabelProperty g cache label key value = Ok (n, found, cache') ∧ cacheOK (propBuild g) cache' ∧
       if found : bool then ok = true ∧ 0 ≤ n ∧ HasLabel g n label = Ok true ∧ Prop_ g n key = Ok (Some v) ∧
         ∀ m, 0 ≤ m → HasLabel g m label = Ok true → Prop_ g m key = Ok (Some v) → n ≤ m
       else ok = true → ∀ m, 0 ≤ m → HasLabel g m label = Ok true → Prop_ g m key ≠ Ok (Some v)).
Proof.
  intros Hg Hc. split; [|intros value v ok Ev; split].
  - intros v. destruct (NodesWithValue_ok g cache label key v Hg Hc) as (o & cache' & E & Hc' & Hne & _ & Hx). exists o, cache'. split_and!; [done..| |done].
    destruct o as [s|]; [|done]. split; [done|]. intros He. by destruct (Hne s eq_refl).
  - unfold NodeWithProperty. destruct (readable_name g key Hg) as (keyID & ok2 & Ek & _). unfold PropertyKey. rewrite Ek, Ev. cbn [mbind res_bind].
    destruct ok2; simpl; [|exists 0, false, cache; split_and!; try done; intros _ m _; exact (no_key g key keyID m v Ek)].
    destruct ok; simpl; [|by exists 0, false, cache]. destruct (anyLookup_ok g cache key keyID v Hg Hc Ek) as (o & cache' & E & Hc' & Hne & Hpos & Hx). rewrite E. cbn [mbind res_bind].
    pose proof (answer_min o Hne) as Hm. destruct (match o with None => _ | Some s => _ end) as [n found]. exists n, found, cache'. split; [done|]. split; [done|]. destruct found.
    + destruct Hm as [Hn Hmin]. pose proof (Hpos n Hn). split; [done|]. split; [done|]. split; [by apply Hx|]. intros m Hm Hp. by apply Hmin, Hx.
    + intros _ m Hm' Hp%Hx; [|done]. rewrite Hm in Hp. set_solver.
  - unfold NodeWithLabelProperty, NodesWithProperty. rewrite Ev. cbn [mbind res_bind]. destruct ok; simpl; [|by exists 0, false, cache].
    destruct (NodesWithValue_ok g cache label key v Hg Hc) as (o & cache' & E & Hc' & Hne & Hpos & Hx). rewrite E. cbn [mbind res_bind].
    pose proof (answer_min o Hne) as Hm. destruct (match o with None => _ | Some s => _ end) as [n found]. exists n, found, cache'. split; [done|]. split; [done|]. destruct found.
    + destruct Hm as [Hn Hmin]. pose proof (Hpos n Hn) as Hn0. destruct (proj1 (Hx n Hn0) Hn) as [Hl Hp]. split_and!; try done. intros m Hm Hl' Hp'. by apply Hmin, Hx.
    + intros _ m Hm' Hl Hp. assert (m ∈ answer o) as Hin by (by apply Hx). rewrite Hm in Hin. set_solver.
Qed.

Lemma property_lookup_exact_witness :
  (∃ o cache', NodesWithValue agesSnap ∅ [Byte.x42] [Byte.x41] (I64Value 7) = Ok (o, cache') ∧ (5 ∈ answer o ↔ HasLabel agesSnap 5 [Byte.x42] = Ok true ∧ Prop_ agesSnap 5 [Byte.x41] = Ok (Some (I64Value 7)))) ∧
  ∃ n found cache', NodeWithProperty agesSnap ∅ [Byte.x41] (AnyInt (-3)) = Ok (n, found, cache') ∧ n = 2 ∧ found = true.
Proof.
  destruct (property_lookup_exact agesSnap ∅ [Byte.x42] [Byte.x41] agesSnap_readable (cacheOK_empty _)) as [H1 H2]. split.
  - destruct (H1 (I64Value 7)) as (o & cache' & E & _ & _ & Hx). exists o, cache'. split; [done|]. apply Hx. lia.
  - destruct (H2 (AnyInt (-3)) _ _ eq_refl) as [(n & found & cache' & E & _) _]. exists n, found, cache'. split; [done|].
    assert (∃ c, NodeWithProperty agesSnap ∅ [Byte.x41] (AnyInt (-3)) = Ok (2, true, c)) as [c E2] by (eexists; by vm_compute). rewrite E2 in E. by injection E as <- <- _.
Defined.
