(* ===== verification/CheckedInt.v ===== *)
(** Checked 64-bit arithmetic of the query language: [addChk], [mulChk],
    [floorDiv] and [floorMod] of [src/gql/internal/eval/temporal.go] and
    [temporal_component.go], and [combineInt], [scaleInt] and [checkedInt] of
    [arith.go].

    The operands are int64, a product or sum wraps, and a comparison or a
    division back decides whether it did. The theorem: the tests are exact, so a
    result is given precisely when the mathematical one fits. *)

From S2P Require Import Prelude.

Definition minInt64 : Z := -9223372036854775808.

(** [(c > a) == (b > 0) || b == 0]. *)
Definition addChk (a b : Z) : Z * bool :=
  let c := to_i64 (a + b) in
  (c, bool_decide (bool_decide (a < c) = bool_decide (0 < b)) || bool_decide (b = 0)).

Definition mulChk (a b : Z) : Z * bool :=
  if decide (a = 0 ∨ b = 0) then (0, true)
  else if decide (a = minInt64 ∧ b = -1 ∨ b = minInt64 ∧ a = -1) then (0, false)
  else
    let c := to_i64 (a * b) in
    (c, bool_decide (Z.quot c b = a)).

(** [ast.BinOp]. *)
Inductive BinOp := OpOr | OpAnd | OpEq | OpNeq | OpLt | OpLte | OpGt | OpGte | OpAdd | OpSub | OpMul | OpDiv | OpStartsWith | OpEndsWith | OpContains | OpXor | OpConcat.
#[export] Instance BinOp_eq_dec : EqDecision BinOp.
Proof. solve_decision. Defined.

Definition combineInt (op : BinOp) (a b : Z) : Z * bool :=
  match op with
  | OpSub =>
      let c := to_i64 (a - b) in
      (c, bool_decide (bool_decide (c < a) = bool_decide (0 < b)) || bool_decide (b = 0))
  | _ =>
      let c := to_i64 (a + b) in
      (c, bool_decide (bool_decide (a < c) = bool_decide (0 < b)) || bool_decide (b = 0))
  end.

(** Division truncates towards zero; the caller rejects a zero divisor. *)
Definition scaleInt (op : BinOp) (c k : Z) : Z * bool :=
  match op with
  | OpDiv => if decide (c = minInt64 ∧ k = -1) then (0, false) else (Z.quot c k, true)
  | _ =>
      if decide (c = 0 ∨ k = 0) then (0, true)
      else if decide (c = minInt64 ∧ k = -1 ∨ k = minInt64 ∧ c = -1) then (0, false)
      else
        let p := to_i64 (c * k) in
        (p, bool_decide (Z.quot p k = c))
  end.

(** [None] is [value.Null()]; only the arithmetic operators get here. *)
Definition checkedInt (op : BinOp) (a b : Z) : option Z :=
  match op with
  | OpAdd =>
      let c := to_i64 (a + b) in
      if bool_decide (bool_decide (a < c) = bool_decide (0 < b)) || bool_decide (b = 0) then Some c else None
  | OpSub =>
      let c := to_i64 (a - b) in
      if bool_decide (bool_decide (c < a) = bool_decide (0 < b)) || bool_decide (b = 0) then Some c else None
  | OpMul =>
      if decide (a = 0 ∨ b = 0) then Some 0
      else if decide (a = minInt64 ∧ b = -1 ∨ b = minInt64 ∧ a = -1) then None
      else
        let c := to_i64 (a * b) in
        if decide (Z.quot c b = a) then Some c else None
  | _ => if decide (b = 0 ∨ a = minInt64 ∧ b = -1) then None else Some (Z.quot a b)
  end.

Definition floorDiv (a b : Z) : Z :=
  let q := Z.quot a b in
  if bool_decide (Z.rem a b ≠ 0) && negb (bool_decide (bool_decide (a < 0) = bool_decide (b < 0))) then to_i64 (q - 1) else q.
Definition floorMod (a b : Z) : Z := to_i64 (a - floorDiv a b * b).

(** ** Lemmas *)

Definition fits64 (z : Z) : bool := bool_decide (is_i64 z).

(** A checked result, as an option. *)
Definition chk (p : Z * bool) : option Z := if p.2 then Some p.1 else None.
Definition exact (z : Z) : option Z := if fits64 z then Some z else None.

(** A 64-bit word is off by a multiple of 2^64. *)
Lemma to_i64_near z : ∃ k, to_i64 z = z + k * 18446744073709551616 ∧ is_i64 (to_i64 z).
Proof.
  exists (- ((z + 2 ^ 63) / 2 ^ 64)). unfold wrapS. change (2 ^ (64 - 1)) with 9223372036854775808. change (2 ^ 64) with 18446744073709551616. change (2 ^ 63) with 9223372036854775808.
  pose proof (Z.div_mod (z + 9223372036854775808) 18446744073709551616 ltac:(lia)). pose proof (Z.mod_pos_bound (z + 9223372036854775808) 18446744073709551616 ltac:(lia)). lia.
Qed.

Lemma sum_test a b : is_i64 a → is_i64 b →
  (if bool_decide (bool_decide (a < to_i64 (a + b)) = bool_decide (0 < b)) || bool_decide (b = 0) then Some (to_i64 (a + b)) else None) = exact (a + b).
Proof.
  intros Ha Hb. unfold exact, fits64. destruct (to_i64_near (a + b)) as (k & E & Hc). set (c := to_i64 (a + b)) in *.
  destruct (decide (is_i64 (a + b))) as [D|D].
  - assert (c = a + b) as Ec by (unfold c; apply wrapS_small; lia). rewrite (bool_decide_eq_true_2 (is_i64 (a + b))) by done. rewrite Ec.
    repeat case_bool_decide; simpl; try done; lia.
  - rewrite (bool_decide_eq_false_2 (is_i64 (a + b))) by done. repeat case_bool_decide; simpl; try done; exfalso; lia.
Qed.

Lemma diff_test a b : is_i64 a → is_i64 b →
  (if bool_decide (bool_decide (to_i64 (a - b) < a) = bool_decide (0 < b)) || bool_decide (b = 0) then Some (to_i64 (a - b)) else None) = exact (a - b).
Proof.
  intros Ha Hb. unfold exact, fits64. destruct (to_i64_near (a - b)) as (k & E & Hc). set (c := to_i64 (a - b)) in *.
  destruct (decide (is_i64 (a - b))) as [D|D].
  - assert (c = a - b) as Ec by (unfold c; apply wrapS_small; lia). rewrite (bool_decide_eq_true_2 (is_i64 (a - b))) by done. rewrite Ec.
    repeat case_bool_decide; simpl; try done; lia.
  - rewrite (bool_decide_eq_false_2 (is_i64 (a - b))) by done. repeat case_bool_decide; simpl; try done; exfalso; lia.
Qed.

(** Dividing a wrapped product back gives the factor only if nothing wrapped. *)
Lemma product_test a b : is_i64 a → is_i64 b → a ≠ 0 → b ≠ 0 → ¬ (a = minInt64 ∧ b = -1 ∨ b = minInt64 ∧ a = -1) →
  (if bool_decide (Z.quot (to_i64 (a * b)) b = a) then Some (to_i64 (a * b)) else None) = exact (a * b).
Proof.
  intros Ha Hb Ha0 Hb0 Hex. unfold exact, fits64. destruct (decide (is_i64 (a * b))) as [D|D].
  - rewrite (wrapS_small 64) by lia. rewrite !bool_decide_eq_true_2; [done|done|]. by apply Z.quot_mul.
  - rewrite (bool_decide_eq_false_2 (is_i64 (a * b))) by done. rewrite bool_decide_eq_false_2; [done|]. intros E.
    destruct (to_i64_near (a * b)) as (k & Ek & Hc). set (c := to_i64 (a * b)) in *.
    pose proof (Z.quot_rem' c b) as Hq. rewrite E in Hq. pose proof (Z.rem_bound_abs c b Hb0) as Hr.
    assert (k * 18446744073709551616 = Z.rem c b) as Hk by lia. unfold minInt64 in *.
    assert (k = 0 ∨ k = -1 ∨ k = 1 ∨ 2 ≤ Z.abs k) as [->|[->|[->|Hk2]]] by lia; lia.
Qed.

Lemma addChk_ok a b : is_i64 a → is_i64 b → chk (addChk a b) = exact (a + b).
Proof. intros Ha Hb. unfold chk, addChk. cbn [fst snd]. by apply sum_test. Qed.

Lemma mulChk_ok a b : is_i64 a → is_i64 b → chk (mulChk a b) = exact (a * b).
Proof.
  intros Ha Hb. unfold chk, mulChk. case_decide as D1.
  { cbn [fst snd]. assert (a * b = 0) as -> by lia. done. }
  case_decide as D2; cbn [fst snd].
  - unfold exact, fits64. rewrite bool_decide_eq_false_2; [done|]. unfold minInt64 in D2. lia.
  - apply product_test; [done|done|lia|lia|done].
Qed.

Lemma floorDiv_ok a b : is_i64 a → 0 < b → is_i64 b → floorDiv a b = a / b.
Proof.
  intros Ha Hb Hb'. unfold floorDiv. rewrite (bool_decide_eq_false_2 (b < 0)) by lia.
  pose proof (Z.quot_rem' a b) as Hq. pose proof (Z.div_mod a b ltac:(lia)) as Hd. pose proof (Z.mod_pos_bound a b Hb).
  destruct (decide (a < 0)) as [Hn|Hn].
  - pose proof (Z.rem_bound_pos_neg a b ltac:(lia) ltac:(lia)) as Hr. rewrite (bool_decide_eq_true_2 (a < 0)) by done. case_bool_decide as D; simpl.
    + assert (Z.quot a b - 1 = a / b) as E by nia. rewrite E. apply wrapS_small; [lia|]. assert (a ≤ a / b) by nia. assert (a / b < 0) by nia. lia.
    + nia.
  - pose proof (Z.rem_bound_pos a b ltac:(lia) ltac:(lia)) as Hr. rewrite (bool_decide_eq_false_2 (a < 0)) by done. rewrite (bool_decide_eq_true_2 (false = false)) by done. simpl. rewrite andb_false_r. nia.
Qed.

Lemma floorMod_ok a b : is_i64 a → 0 < b → is_i64 b → floorMod a b = a mod b.
Proof.
  intros Ha Hb Hb'. unfold floorMod. rewrite floorDiv_ok by done. pose proof (Z.mod_pos_bound a b Hb). pose proof (Z.div_mod a b ltac:(lia)).
  rewrite wrapS_small by nia. nia.
Qed.

(** The operation on unbounded integers. *)
Definition opExact (op : BinOp) (a b : Z) : option Z :=
  match op with
  | OpAdd => exact (a + b)
  | OpSub => exact (a - b)
  | OpMul => exact (a * b)
  | _ => if decide (b = 0) then None else exact (Z.quot a b)
  end.

Lemma quot_exact a b : is_i64 a → is_i64 b → b ≠ 0 → (if decide (a = minInt64 ∧ b = -1) then None else Some (Z.quot a b)) = exact (Z.quot a b).
Proof.
  intros Ha Hb Hb0. unfold exact, fits64, minInt64. case_decide as D.
  - destruct D as [-> ->]. by rewrite bool_decide_eq_false_2 by (vm_compute; intros [_ H]; discriminate H).
  - rewrite bool_decide_eq_true_2; [done|]. pose proof (Z.quot_rem' a b). pose proof (Z.rem_bound_abs a b Hb0).
    assert (Z.abs (Z.quot a b) ≤ Z.abs a) by (rewrite <- Z.quot_abs by done; apply Z.quot_le_upper_bound; nia).
    destruct (decide (Z.quot a b = 9223372036854775808)) as [E|E]; [|lia]. rewrite E in *. exfalso. apply D. nia.
Qed.

(** ** Properties *)

(** Checked arithmetic is exact: for all 64-bit operands, the sums, differences,
    products and quotients of the temporal path ([addChk], [mulChk]), of duration
    arithmetic ([combineInt], [scaleInt]) and of the query operators
    ([checkedInt]) give a result precisely when the mathematical result fits an
    int64, and then that one; division by zero gives none. *)
Theorem checked_arithmetic_exact (a b : Z) : is_i64 a → is_i64 b →
  chk (addChk a b) = exact (a + b) ∧ chk (mulChk a b) = exact (a * b) ∧
  chk (combineInt OpAdd a b) = opExact OpAdd a b ∧ chk (combineInt OpSub a b) = opExact OpSub a b ∧
  chk (scaleInt OpMul a b) = opExact OpMul a b ∧ (b ≠ 0 → chk (scaleInt OpDiv a b) = opExact OpDiv a b) ∧
  ∀ op, checkedInt op a b = opExact op a b.
Proof.
  intros Ha Hb. split_and!.
  - by apply addChk_ok.
  - by apply mulChk_ok.
  - unfold chk, combineInt, opExact. cbn [fst snd]. by apply sum_test.
  - unfold chk, combineInt, opExact. cbn [fst snd]. by apply diff_test.
  - exact (mulChk_ok a b Ha Hb).
  - intros Hb0. unfold opExact. rewrite decide_False by done. rewrite <- quot_exact by done. unfold scaleInt, chk. by case_decide.
  - assert ((if decide (b = 0 ∨ a = minInt64 ∧ b = -1) then None else Some (Z.quot a b)) = if decide (b = 0) then None else exact (Z.quot a b)) as Hdiv.
    { destruct (decide (b = 0)) as [->|Hb0]; [by rewrite decide_True by auto|]. rewrite <- quot_exact by done.
      destruct (decide (a = minInt64 ∧ b = -1)); [by rewrite decide_True by auto|]. by rewrite decide_False by tauto. }
    intros []; try exact Hdiv; unfold checkedInt, opExact; [by apply sum_test|by apply diff_test|].
    clear Hdiv. rewrite <- (mulChk_ok a b) by done. unfold mulChk, chk. case_decide; [done|]. case_decide; [done|]. cbn [fst snd]. case_decide as D; [by rewrite bool_decide_eq_true_2|by rewrite bool_decide_eq_false_2].
Qed.

Lemma checked_arithmetic_exact_witness : checkedInt OpMul 3037000500 3037000500 = None ∧ checkedInt OpDiv minInt64 (-1) = None ∧ chk (addChk minInt64 minInt64) = None.
Proof.
  destruct (checked_arithmetic_exact 3037000500 3037000500) as (_ & _ & _ & _ & _ & _ & H1); [lia..|].
  destruct (checked_arithmetic_exact minInt64 (-1)) as (_ & _ & _ & _ & _ & _ & H2); [unfold minInt64; lia..|].
  destruct (checked_arithmetic_exact minInt64 minInt64) as (H3 & _); [unfold minInt64; lia..|].
  rewrite H1, H2, H3. by vm_compute.
Defined.
