(* ===== verification/Temporal.v ===== *)
(** Dates, instants and durations of the query language:
    [src/gql/internal/eval/temporal.go] (the calendar) and
    [temporal_component.go].

    An instant is an int64 of milliseconds since 1970-01-01 UTC, a duration is
    months, days and milliseconds. Division truncates; values that are divided or
    compared are wrapped to their width first, sums and products of them once
    at the end. The theorems are in [TemporalSpec]. *)

From S2P Require Import Prelude CheckedInt.

Definition MSPerDay : Z := 86400000.
Definition maxCivilYear : Z := 300000000.

(** [DaysFromCivil(y, m, d)]: int64 year, uint32 month and day. *)
Definition DaysFromCivil (y m d : Z) : Z :=
  let y := if decide (m ≤ 2) then to_i64 (y - 1) else y in
  let era := if decide (y < 0) then to_i64 (y - 399) else y in
  let era := Z.quot era 400 in
  let yoe := to_i64 (y - era * 400) in
  let mp := Z.rem (to_u32 (m + 9)) 12 in
  let doy := Z.quot (153 * mp + 2) 5 + d - 1 in
  let doe := yoe * 365 + Z.quot yoe 4 - Z.quot yoe 100 + doy in
  to_i64 (era * 146097 + doe - 719468).

Definition CivilFromDays (z : Z) : Z * Z * Z :=
  let z := to_i64 (z + 719468) in
  let era := if decide (z < 0) then to_i64 (z - 146096) else z in
  let era := Z.quot era 146097 in
  let doe := to_i64 (z - era * 146097) in
  let yoe := Z.quot (to_i64 (doe - Z.quot doe 1460 + Z.quot doe 36524 - Z.quot doe 146096)) 365 in
  let y := to_i64 (yoe + era * 400) in
  let doy := to_i64 (doe - (365 * yoe + Z.quot yoe 4 - Z.quot yoe 100)) in
  let mp := Z.quot (to_i64 (5 * doy + 2)) 153 in
  let d := to_u32 (doy - Z.quot (to_i64 (153 * mp + 2)) 5 + 1) in
  let m := if decide (mp < 10) then to_u32 (mp + 3) else to_u32 (mp - 9) in
  let y := if decide (m ≤ 2) then to_i64 (y + 1) else y in
  (y, m, d).

Definition DaysInMonth (y m : Z) : Z :=
  if decide (m = 1 ∨ m = 3 ∨ m = 5 ∨ m = 7 ∨ m = 8 ∨ m = 10 ∨ m = 12) then 31
  else if decide (m = 4 ∨ m = 6 ∨ m = 9 ∨ m = 11) then 30
  else if decide (m = 2) then
    if decide (Z.rem y 4 = 0 ∧ Z.rem y 100 ≠ 0 ∨ Z.rem y 400 = 0) then 29 else 28
  else 30.

(** [(int64, bool)] results are options, [ok] being false as [None]. *)
Definition civilMillis (y m d msOfDay : Z) : option Z :=
  if decide (y < - maxCivilYear ∨ maxCivilYear < y) then None
  else
    ms ← chk (mulChk (DaysFromCivil y m d) MSPerDay);
    chk (addChk ms msOfDay).

(** The parts of an instant: its day and the milliseconds of that day. *)
Definition splitInstant (millis : Z) : Z * Z :=
  let days := floorDiv millis MSPerDay in
  (days, to_i64 (millis - days * MSPerDay)).

Definition Component (millis : Z) (key : string) : option Z :=
  let '(days, msOfDay) := splitInstant millis in
  let '(y, mo, d) := CivilFromDays days in
  if decide (key = "year"%string) then Some y
  else if decide (key = "month"%string) then Some mo
  else if decide (key = "day"%string) then Some d
  else if decide (key = "hour"%string) then Some (Z.quot msOfDay 3600000)
  else if decide (key = "minute"%string) then Some (Z.rem (Z.quot msOfDay 60000) 60)
  else if decide (key = "second"%string) then Some (Z.rem (Z.quot msOfDay 1000) 60)
  else if decide (key = "millisecond"%string) then Some (Z.rem msOfDay 1000)
  else if decide (key = "epochMillis"%string) then Some millis
  else if decide (key = "epochSeconds"%string) then Some (floorDiv millis 1000)
  else None.

Definition DurationComponent (months days millis : Z) (key : string) : option Z :=
  if decide (key = "years"%string) then Some (Z.quot months 12)
  else if decide (key = "quarters"%string) then Some (Z.quot months 3)
  else if decide (key = "months"%string) then Some months
  else if decide (key = "weeks"%string) then Some (Z.quot days 7)
  else if decide (key = "days"%string) then Some days
  else if decide (key = "hours"%string) then Some (Z.quot millis 3600000)
  else if decide (key = "minutes"%string) then Some (Z.quot millis 60000)
  else if decide (key = "seconds"%string) then Some (Z.quot millis 1000)
  else if decide (key = "milliseconds"%string) then Some millis
  else None.

Definition ApplyDuration (tMillis months days dMillis sign : Z) : option Z :=
  if decide (months = 0) then
    tick ← chk (mulChk days MSPerDay);
    tick ← chk (addChk tick dMillis);
    tick ← chk (mulChk sign tick);
    chk (addChk tMillis tick)
  else
    let '(baseDays, msOfDay) := splitInstant tMillis in
    let '(y0, m0, d0) := CivilFromDays baseDays in
    sm ← chk (mulChk sign months);
    total ← chk (addChk (m0 - 1) sm);
    let y := to_i64 (y0 + floorDiv total 12) in
    if decide (y < - maxCivilYear ∨ maxCivilYear < y) then None
    else
      let m := to_u32 (floorMod total 12 + 1) in
      let dim := DaysInMonth y m in
      let d := if decide (dim < d0) then dim else d0 in
      sd ← chk (mulChk sign days);
      newDays ← chk (addChk (DaysFromCivil y m d) sd);
      r ← chk (mulChk newDays MSPerDay);
      r ← chk (addChk r msOfDay);
      sdm ← chk (mulChk sign dMillis);
      chk (addChk r sdm).
