(* ===== verification/TemporalSpec.v ===== *)
(** The calendar is the Gregorian one, and instants shift without wrapping.

    The reference calendar is [nextDay]: the day after a date, by the lengths of
    the months. [dayNumber] is the closed form of the day count; an era of 400
    years repeats, so what remains of the two conversions is arithmetic within an
    era. *)

From S2P Require Import Prelude CheckedInt Temporal.

(** ** The reference calendar *)

Definition leap (y : Z) : Prop := y mod 4 = 0 ∧ y mod 100 ≠ 0 ∨ y mod 400 = 0.
#[export] Instance leap_dec y : Decision (leap y).
Proof. unfold leap. apply _. Defined.
Definition monthLength (y m : Z) : Z :=
  if decide (m = 2) then if decide (leap y) then 29 else 28
  else if decide (m = 4 ∨ m = 6 ∨ m = 9 ∨ m = 11) then 30 else 31.
Definition validDate (y m d : Z) : Prop := 1 ≤ m ≤ 12 ∧ 1 ≤ d ≤ monthLength y m.
Definition nextDay (date : Z * Z * Z) : Z * Z * Z :=
  let '(y, m, d) := date in
  if decide (d < monthLength y m) then (y, m, d + 1)
  else if decide (m < 12) then (y, m + 1, 1)
  else (y + 1, 1, 1).

(** ** Closed forms *)

(** Days before year [y] of the calendar that starts in March of year 0. *)
Definition yearStart (y : Z) : Z := 365 * y + y / 4 - y / 100 + y / 400.
(** Days before the [mp]-th month after March. *)
Definition monthStart (mp : Z) : Z := (153 * mp + 2) / 5.
Definition marchYear (y m : Z) : Z := if decide (m ≤ 2) then y - 1 else y.
Definition marchMonth (m : Z) : Z := if decide (m ≤ 2) then m + 9 else m - 3.
Definition dayNumber (y m d : Z) : Z := yearStart (marchYear y m) + monthStart (marchMonth m) + d - 1 - 719468.

(** The year of a day within its era. *)
Definition eraYear (doe : Z) : Z := (doe - doe / 1460 + doe / 36524 - doe / 146096) / 365.

Lemma DaysInMonth_ok y m : 1 ≤ m ≤ 12 → DaysInMonth y m = monthLength y m.
Proof.
  intros Hm. unfold DaysInMonth, monthLength. assert (∀ b, b ≠ 0 → Z.rem y b = 0 ↔ y mod b = 0) as Hr.
  { intros b Hb. by rewrite Z.rem_divide, Z.mod_divide by done. }
  unfold leap. assert (Decision (Z.rem y 4 = 0 ∧ Z.rem y 100 ≠ 0 ∨ Z.rem y 400 = 0)) by apply _.
  assert ((Z.rem y 4 = 0 ∧ Z.rem y 100 ≠ 0 ∨ Z.rem y 400 = 0) ↔ y mod 4 = 0 ∧ y mod 100 ≠ 0 ∨ y mod 400 = 0) as Hl by (rewrite !Hr by lia; done).
  repeat case_decide; try lia; tauto.
Qed.

Lemma DaysFromCivil_ok y m d : -1000000000000 ≤ y ≤ 1000000000000 → 1 ≤ m ≤ 12 → 0 ≤ d ≤ 31 → DaysFromCivil y m d = dayNumber y m d.
Proof.
  intros Hy Hm Hd. unfold DaysFromCivil. cbv zeta. rewrite (wrapU_small 32) by lia.
  assert ((if decide (m ≤ 2) then to_i64 (y - 1) else y) = marchYear y m) as -> by (unfold marchYear; case_decide; [apply wrapS_small; lia|done]).
  assert (Z.rem (m + 9) 12 = marchMonth m) as -> by (unfold marchMonth; rewrite Z.rem_mod_nonneg by lia; case_decide; dlia).
  set (y' := marchYear y m). assert (-1000000000001 ≤ y' ≤ 1000000000000) as Hy' by (unfold y', marchYear; case_decide; lia).
  assert (Z.quot (if decide (y' < 0) then to_i64 (y' - 399) else y') 400 = y' / 400) as ->.
  { case_decide; [rewrite wrapS_small by lia; rewrite Z.quot_div by lia; simpl; dlia|apply Z.quot_div_nonneg; lia]. }
  rewrite (wrapS_small 64 (y' - y' / 400 * 400)) by dlia.
  assert (0 ≤ y' - y' / 400 * 400 < 400) as Hyoe by dlia. set (yoe := y' - y' / 400 * 400) in *.
  assert (0 ≤ marchMonth m ≤ 11) by (unfold marchMonth; case_decide; lia).
  rewrite !Z.quot_div_nonneg by lia. rewrite wrapS_small by dlia. unfold dayNumber, yearStart, monthStart. fold y'. unfold yoe. dlia.
Qed.

(** ** Within an era *)

Lemma eraYear_bounds : forallb (λ y, bool_decide (eraYear (yearStart y) = y) && bool_decide (eraYear (yearStart (y + 1) - 1) = y)) (zseq 400) = true.
Proof. by vm_compute. Qed.

Lemma eraYear_mono a b : 0 ≤ a ≤ b → b < 146096 → eraYear a ≤ eraYear b.
Proof. intros Hab Hb. unfold eraYear. apply Z.div_le_mono; [lia|]. dlia. Qed.

Lemma yearStart_mono y : 0 ≤ y → yearStart y + 365 ≤ yearStart (y + 1) ≤ yearStart y + 366.
Proof. intros. unfold yearStart. dlia. Qed.

(** The era's formula for the year inverts the year starts. *)
Lemma eraYear_ok y doe : 0 ≤ y < 400 → yearStart y ≤ doe < yearStart (y + 1) → eraYear doe = y.
Proof.
  intros Hy Hd. pose proof eraYear_bounds as Hb. rewrite forallb_forall in Hb. specialize (Hb y ltac:(apply list_elem_of_In, elem_of_zseq; lia)).
  apply andb_prop in Hb as [H1%bool_decide_eq_true H2%bool_decide_eq_true].
  assert (0 ≤ yearStart y) by (unfold yearStart; dlia). assert (yearStart (y + 1) ≤ 146097) by (unfold yearStart; dlia).
  destruct (decide (doe = yearStart (y + 1) - 1)) as [->|Hne]; [done|].
  pose proof (eraYear_mono (yearStart y) doe ltac:(lia) ltac:(lia)) as L1. destruct (decide (yearStart (y + 1) - 1 < 146096)) as [L|L].
  - pose proof (eraYear_mono doe (yearStart (y + 1) - 1) ltac:(lia) ltac:(lia)). lia.
  - assert (y = 399) as -> by (unfold yearStart in *; dlia). unfold eraYear in *. dlia.
Qed.

Lemma eraYear_exists doe : 0 ≤ doe < 146097 → ∃ y, 0 ≤ y < 400 ∧ yearStart y ≤ doe < yearStart (y + 1).
Proof.
  intros Hd. assert (∀ n, 0 ≤ n → doe < yearStart n → ∃ y, 0 ≤ y < n ∧ yearStart y ≤ doe < yearStart (y + 1)) as Hn.
  { apply (natlike_ind (λ n, doe < yearStart n → _)).
    - change (yearStart 0) with 0. lia.
    - intros n Hn0 IH Hlt. unfold Z.succ in *. destruct (decide (doe < yearStart n)) as [D|D]; [destruct (IH D) as (y & ? & ?); exists y; lia|]. exists n. lia. }
  destruct (Hn 400) as (y & ? & ?); [lia|change (yearStart 400) with 146097; lia|]. eauto.
Qed.

Lemma marchMonth_of doy mp : 0 ≤ mp < 12 → monthStart mp ≤ doy < monthStart (mp + 1) → (5 * doy + 2) / 153 = mp.
Proof. unfold monthStart. intros. dlia. Qed.

(** ** The conversions *)

Lemma CivilFromDays_era z y mp d : let era := (z + 719468) / 146097 in let doe := (z + 719468) mod 146097 in
  -100000000000000 ≤ z ≤ 100000000000000 → 0 ≤ y < 400 → 0 ≤ mp < 12 → yearStart y ≤ doe < yearStart (y + 1) →
  doe - yearStart y = monthStart mp + d - 1 → 1 ≤ d → monthStart mp + d ≤ monthStart (mp + 1) →
  CivilFromDays z = (y + era * 400 + (if decide (mp < 10) then 0 else 1), if decide (mp < 10) then mp + 3 else mp - 9, d).
Proof.
  intros era doe Hz Hy Hmp Hd Hdoy H1 H2. unfold CivilFromDays. cbv zeta. rewrite (wrapS_small 64 (z + 719468)) by lia.
  assert (Z.quot (if decide (z + 719468 < 0) then to_i64 (z + 719468 - 146096) else z + 719468) 146097 = era) as ->.
  { unfold era. case_decide; [rewrite wrapS_small by lia; rewrite Z.quot_div by lia; simpl; dlia|apply Z.quot_div_nonneg; lia]. }
  assert (z + 719468 - era * 146097 = doe) as -> by (unfold era, doe; dlia). assert (0 ≤ doe < 146097) by (unfold doe; dlia).
  assert (-700000000 ≤ era ≤ 700000000) by (unfold era; dlia). rewrite (wrapS_small 64 doe) by lia.
  rewrite !(Z.quot_div_nonneg doe) by lia. rewrite (wrapS_small 64 (doe - doe / 1460 + doe / 36524 - doe / 146096)) by dlia.
  rewrite (Z.quot_div_nonneg (doe - doe / 1460 + doe / 36524 - doe / 146096) 365) by dlia. pose proof (eraYear_ok y doe Hy Hd) as Ey. unfold eraYear in Ey. rewrite Ey. clear Ey.
  rewrite !(Z.quot_div_nonneg y) by lia. assert (doe - (365 * y + y / 4 - y / 100) = monthStart mp + d - 1) as -> by (unfold yearStart in Hdoy; dlia).
  assert (0 ≤ monthStart mp ≤ 337) by (unfold monthStart; dlia). assert (monthStart (mp + 1) ≤ 367) by (unfold monthStart; dlia).
  rewrite (wrapS_small 64 (monthStart mp + d - 1)) by lia. rewrite (wrapS_small 64 (5 * _ + 2)) by lia. rewrite Z.quot_div_nonneg by lia.
  rewrite (marchMonth_of _ mp) by lia. rewrite (wrapS_small 64 (153 * mp + 2)) by lia. rewrite Z.quot_div_nonneg by lia. fold (monthStart mp).
  assert ((if decide (mp < 10) then to_u32 (mp + 3) else to_u32 (mp - 9)) = if decide (mp < 10) then mp + 3 else mp - 9) as -> by (case_decide; apply wrapU_small; lia).
  rewrite (wrapU_small 32) by lia. rewrite (wrapS_small 64 (y + era * 400)) by lia.
  f_equal; [f_equal|lia]. destruct (decide (mp < 10)); case_decide; try lia. rewrite wrapS_small by lia. lia.
Qed.

Lemma yearStart_era y : yearStart y = 146097 * (y / 400) + yearStart (y mod 400).
Proof. unfold yearStart. dlia. Qed.

(** A month after March has its length, February the leap day. *)
Lemma month_fits y m d : validDate y m d → monthStart (marchMonth m) + d ≤ monthStart (marchMonth m + 1) ∧
  monthStart (marchMonth m) + d - 1 < yearStart (marchYear y m + 1) - yearStart (marchYear y m).
Proof.
  intros [Hm Hd]. unfold validDate, monthLength, leap, marchMonth, marchYear, monthStart, yearStart in *.
  assert (m = 1 ∨ m = 2 ∨ m = 3 ∨ m = 4 ∨ m = 5 ∨ m = 6 ∨ m = 7 ∨ m = 8 ∨ m = 9 ∨ m = 10 ∨ m = 11 ∨ m = 12) as Hc by lia.
  repeat (destruct Hc as [->|Hc]); subst; simpl in *; repeat case_decide; try lia; split; try dlia.
Qed.

Lemma date_days_date y m d : -250000000000 ≤ y ≤ 250000000000 → validDate y m d → CivilFromDays (dayNumber y m d) = (y, m, d).
Proof.
  intros Hy Hv. destruct (month_fits y m d Hv) as [F1 F2]. destruct Hv as [Hm Hd]. set (y' := marchYear y m) in *. set (mp := marchMonth m) in *.
  assert (y' = y ∨ y' = y - 1) as Hy' by (unfold y', marchYear; case_decide; auto). assert (0 ≤ mp < 12) as Hmp by (unfold mp, marchMonth; case_decide; lia).
  pose proof (yearStart_era y') as E0. pose proof (yearStart_era (y' + 1)) as E1. set (yoe := y' mod 400) in *. assert (0 ≤ yoe < 400) as Hyoe by (unfold yoe; dlia).
  assert (dayNumber y m d + 719468 = 146097 * (y' / 400) + (yearStart yoe + monthStart mp + d - 1)) as Ez by (unfold dayNumber; fold y' mp; lia).
  assert (monthStart mp + d - 1 < yearStart (yoe + 1) - yearStart yoe) as F3 by (unfold yearStart, yoe in *; dlia).
  assert (0 ≤ monthStart mp) by (unfold monthStart; dlia). assert (0 ≤ yearStart yoe) by (unfold yearStart; dlia). assert (yearStart (yoe + 1) ≤ 146097) by (unfold yearStart; dlia).
  assert ((dayNumber y m d + 719468) / 146097 = y' / 400) as Ee by (rewrite Ez; symmetry; apply Z.div_unique with (yearStart yoe + monthStart mp + d - 1); lia).
  assert ((dayNumber y m d + 719468) mod 146097 = yearStart yoe + monthStart mp + d - 1) as Ed by (rewrite Ez; symmetry; apply Z.mod_unique with (y' / 400); lia).
  assert (-100000000000000 ≤ dayNumber y m d ≤ 100000000000000) as Hz by (assert (-250000000001 ≤ y' ≤ 250000000000) by lia; dlia).
  rewrite (CivilFromDays_era _ yoe mp d Hz Hyoe Hmp); rewrite ?Ed; try lia. rewrite Ee.
  do 2 f_equal; unfold yoe, y', mp, marchYear, marchMonth in *; repeat case_decide; try lia; dlia.
Qed.

Lemma days_date_days z : -90000000000000 ≤ z ≤ 90000000000000 → ∃ y m d, CivilFromDays z = (y, m, d) ∧ validDate y m d ∧ dayNumber y m d = z ∧ -250000000000 ≤ y ≤ 250000000000.
Proof.
  intros Hz. set (era := (z + 719468) / 146097). set (doe := (z + 719468) mod 146097). assert (0 ≤ doe < 146097) as Hdoe by (unfold doe; dlia).
  destruct (eraYear_exists doe Hdoe) as (yoe & Hyoe & Hd). set (doy := doe - yearStart yoe). pose proof (yearStart_mono yoe ltac:(lia)) as Hlen.
  set (mp := (5 * doy + 2) / 153). assert (0 ≤ doy ≤ 365) as Hdoy by (unfold doy; lia). assert (0 ≤ mp < 12) as Hmp by (unfold mp; dlia).
  assert (monthStart mp ≤ doy < monthStart (mp + 1)) as Hms by (unfold monthStart, mp; dlia). set (d := doy - monthStart mp + 1).
  pose proof (CivilFromDays_era z yoe mp d ltac:(lia) Hyoe Hmp Hd) as E. cbv zeta in E. fold era doe in E. rewrite E by (unfold d, doy in *; lia). clear E.
  eexists _, _, _. split; [done|]. set (y := yoe + era * 400 + _). set (m := if decide (mp < 10) then _ else _).
  assert (marchMonth m = mp) as Em by (unfold m, marchMonth; repeat case_decide; lia).
  assert (marchYear y m = yoe + era * 400) as Ey by (unfold y, m, marchYear; repeat case_decide; lia).
  assert (-620000000 ≤ era ≤ 620000000) by (unfold era; dlia). split; [|split].
  - split; [unfold m; case_decide; lia|]. assert (1 ≤ d) by (unfold d; lia). split; [done|].
    assert (doy < yearStart (yoe + 1) - yearStart yoe) as Hlt by (unfold doy; lia). unfold monthLength, leap.
    assert (mp = 0 ∨ mp = 1 ∨ mp = 2 ∨ mp = 3 ∨ mp = 4 ∨ mp = 5 ∨ mp = 6 ∨ mp = 7 ∨ mp = 8 ∨ mp = 9 ∨ mp = 10 ∨ mp = 11) as Hc by lia.
    clearbody mp. unfold y, m, d, monthStart in *. clear y m d Em Ey. unfold yearStart in Hlt. clearbody doy doe era.
    repeat (destruct Hc as [->|Hc]); subst; simpl in *; repeat case_decide; try lia; dlia.
  - unfold dayNumber. rewrite Em, Ey. pose proof (yearStart_era (yoe + era * 400)) as E0.
    assert ((yoe + era * 400) / 400 = era) as E1 by dlia. assert ((yoe + era * 400) mod 400 = yoe) as E2 by dlia. rewrite E1, E2 in E0. rewrite E0. unfold d, doy, doe, era. dlia.
  - unfold y. case_decide; lia.
Qed.

Lemma nextDay_number y m d : validDate y m d → let '(y', m', d') := nextDay (y, m, d) in validDate y' m' d' ∧ dayNumber y' m' d' = dayNumber y m d + 1.
Proof.
  intros [Hm Hd]. unfold nextDay. assert (∀ y m, 28 ≤ monthLength y m ≤ 31) as Hlen by (intros; unfold monthLength; repeat case_decide; lia).
  case_decide as D1; [|case_decide as D2].
  - split; [split; lia|]. unfold dayNumber. lia.
  - split; [split; [lia|]; pose proof (Hlen y (m + 1)); lia|]. assert (d = monthLength y m) as -> by lia. clear Hd D1 Hlen.
    assert (m = 1 ∨ m = 2 ∨ m = 3 ∨ m = 4 ∨ m = 5 ∨ m = 6 ∨ m = 7 ∨ m = 8 ∨ m = 9 ∨ m = 10 ∨ m = 11) as Hc by lia.
    unfold dayNumber, marchYear, marchMonth, monthStart, yearStart, monthLength, leap.
    repeat (destruct Hc as [->|Hc]); subst; simpl; repeat case_decide; try lia; dlia.
  - split; [split; [lia|]; pose proof (Hlen (y + 1) 1); lia|]. assert (m = 12) as -> by lia. assert (d = 31) as -> by (unfold monthLength in *; simpl in *; lia).
    unfold dayNumber, marchYear, marchMonth, monthStart, yearStart. simpl. dlia.
Qed.

(** ** Shifting an instant *)

Definition dateOf (t : Z) : Z * Z * Z := CivilFromDays (t / MSPerDay).
(** Calendar months later, the day clamped to the month. *)
Definition addMonths (date : Z * Z * Z) (k : Z) : Z * Z * Z :=
  let '(y, m, d) := date in
  let y' := y + (m - 1 + k) / 12 in
  let m' := (m - 1 + k) mod 12 + 1 in
  (y', m', Z.min d (monthLength y' m')).
Definition dayOf (date : Z * Z * Z) : Z := let '(y, m, d) := date in dayNumber y m d.

(** The shifted instant, on unbounded integers. *)
Definition shifted (t months days ms sign : Z) : Z :=
  (dayOf (addMonths (dateOf t) (sign * months)) + sign * days) * MSPerDay + t mod MSPerDay + sign * ms.

(** The numbers the computation passes through, on unbounded integers. *)
Definition shiftSteps (t months days ms sign : Z) : list Z :=
  if decide (months = 0) then [days * MSPerDay; days * MSPerDay + ms; sign * (days * MSPerDay + ms); shifted t months days ms sign]
  else
    let n := dayOf (addMonths (dateOf t) (sign * months)) + sign * days in
    [sign * months; (dateOf t).1.2 - 1 + sign * months; sign * days; n; n * MSPerDay; n * MSPerDay + t mod MSPerDay; sign * ms; shifted t months days ms sign].

Definition yearFits (t months sign : Z) : Prop := months = 0 ∨ - maxCivilYear ≤ (addMonths (dateOf t) (sign * months)).1.1 ≤ maxCivilYear.

Lemma splitInstant_ok t : is_i64 t → splitInstant t = (t / MSPerDay, t mod MSPerDay).
Proof.
  intros Ht. unfold splitInstant. rewrite floorDiv_ok by (unfold MSPerDay; lia). f_equal. pose proof (Z.mod_pos_bound t MSPerDay ltac:(unfold MSPerDay; lia)). pose proof (Z.div_mod t MSPerDay ltac:(unfold MSPerDay; lia)).
  assert (t - t / MSPerDay * MSPerDay = t mod MSPerDay) as -> by lia. apply wrapS_small; unfold MSPerDay in *; lia.
Qed.

Lemma dateOf_ok t : is_i64 t → ∃ y m d, dateOf t = (y, m, d) ∧ validDate y m d ∧ dayNumber y m d = t / MSPerDay ∧ -250000000000 ≤ y ≤ 250000000000.
Proof. intros Ht. apply days_date_days. unfold MSPerDay. dlia. Qed.

(** A checked chain ends exactly when every step fits. *)
Lemma exact_bind {A} z (k : Z → option A) (r : A) : (exact z ≫= k) = Some r ↔ is_i64 z ∧ k z = Some r.
Proof. unfold exact, fits64. case_bool_decide as D; simpl; [tauto|]. split; [done|tauto]. Qed.
Lemma exact_Some z r : exact z = Some r ↔ is_i64 z ∧ r = z.
Proof. unfold exact, fits64. case_bool_decide as D; naive_solver. Qed.
Lemma addChk_bind {A} a b (k : Z → option A) (r : A) : is_i64 a → is_i64 b → (chk (addChk a b) ≫= k) = Some r ↔ is_i64 (a + b) ∧ k (a + b) = Some r.
Proof. intros. by rewrite addChk_ok, exact_bind by done. Qed.
Lemma mulChk_bind {A} a b (k : Z → option A) (r : A) : is_i64 a → is_i64 b → (chk (mulChk a b) ≫= k) = Some r ↔ is_i64 (a * b) ∧ k (a * b) = Some r.
Proof. intros. by rewrite mulChk_ok, exact_bind by done. Qed.

Lemma and_iff_steps (P A Q R : Prop) : (P → (A ↔ Q ∧ R)) → (P ∧ A) ↔ (P ∧ Q) ∧ R.
Proof. tauto. Qed.

Lemma ApplyDuration_ok t months days ms sign r : is_i64 t → is_i64 months → is_i64 days → is_i64 ms → sign = 1 ∨ sign = -1 →
  ApplyDuration t months days ms sign = Some r ↔ Forall (λ z, is_i64 z) (shiftSteps t months days ms sign) ∧ yearFits t months sign ∧ r = shifted t months days ms sign.
Proof.
  intros Ht Hmo Hda Hms Hsg. assert (is_i64 sign) as Hs by lia. destruct (dateOf_ok t Ht) as (y0 & m0 & d0 & Ed & [Hm0 Hd0] & En & Hy0).
  unfold ApplyDuration, shiftSteps, yearFits. destruct (decide (months = 0)) as [->|Hm].
  - assert (shifted t 0 days ms sign = t + sign * (days * MSPerDay + ms)) as Esh.
    { unfold shifted, addMonths, dayOf. rewrite Ed, Z.mul_0_r, Z.add_0_r. rewrite (Z.div_small (m0 - 1) 12), (Z.mod_small (m0 - 1) 12) by lia.
      replace (m0 - 1 + 1) with m0 by lia. rewrite Z.add_0_r, Z.min_l by lia. rewrite En. pose proof (Z.div_mod t MSPerDay ltac:(unfold MSPerDay; lia)). lia. }
    rewrite Esh, !Forall_cons, Forall_nil. assert (is_i64 MSPerDay) by (unfold MSPerDay; lia). rewrite mulChk_bind by done.
    apply and_iff_steps. intros H1. rewrite addChk_bind by done. apply and_iff_steps. intros H2. rewrite mulChk_bind by done.
    apply and_iff_steps. intros H3. rewrite addChk_ok, exact_Some by done. tauto.
  - rewrite splitInstant_ok by done. cbn [fst snd]. fold (dateOf t). rewrite Ed. cbn [fst snd]. rewrite !Forall_cons, Forall_nil.
    assert (is_i64 MSPerDay) by (unfold MSPerDay; lia). rewrite mulChk_bind by done. apply and_iff_steps. intros H1.
    rewrite addChk_bind by (done || lia). apply and_iff_steps. intros H2. set (total := m0 - 1 + sign * months) in *.
    rewrite floorDiv_ok, floorMod_ok by lia. pose proof (Z.mod_pos_bound total 12 ltac:(lia)) as Hmod.
    assert (-768614336404564651 ≤ total / 12 ≤ 768614336404564651) as Hdiv by dlia. rewrite (wrapS_small 64 (y0 + total / 12)) by lia. rewrite (wrapU_small 32) by lia.
    unfold shifted, addMonths, dayOf. rewrite Ed. fold total. set (y := y0 + total / 12) in *. set (m := total mod 12 + 1) in *. cbn [fst snd].
    rewrite DaysInMonth_ok by lia. assert ((if decide (monthLength y m < d0) then monthLength y m else d0) = Z.min d0 (monthLength y m)) as -> by (case_decide; lia).
    assert (∀ y m, 28 ≤ monthLength y m ≤ 31) as Hlen by (intros; unfold monthLength; repeat case_decide; lia). pose proof (Hlen y m). set (d := Z.min d0 (monthLength y m)) in *. assert (1 ≤ d ≤ 31) as Hd by lia.
    destruct (decide (y < - maxCivilYear ∨ maxCivilYear < y)) as [Hy|Hy]; [split; [done|]; intros (_ & [?|Hy'] & _); [done|lia]|].
    assert (- maxCivilYear ≤ y ≤ maxCivilYear) as Hy' by lia. rewrite DaysFromCivil_ok by (unfold maxCivilYear in Hy'; lia).
    assert (is_i64 (dayNumber y m d)) as HD by (unfold dayNumber, yearStart, marchYear, monthStart, marchMonth, maxCivilYear in *; repeat case_decide; dlia). set (D := dayNumber y m d) in *.
    pose proof (Z.mod_pos_bound t MSPerDay ltac:(unfold MSPerDay; lia)) as Hmd. assert (is_i64 (t mod MSPerDay)) by (unfold MSPerDay in *; lia).
    rewrite mulChk_bind by done. apply and_iff_steps. intros G3. rewrite addChk_bind by done. apply and_iff_steps. intros G4. rewrite mulChk_bind by done. apply and_iff_steps. intros G5.
    rewrite addChk_bind by done. apply and_iff_steps. intros G6. rewrite mulChk_bind by done. apply and_iff_steps. intros G7. rewrite addChk_ok, exact_Some by done. tauto.
Qed.

Lemma Component_ok t : is_i64 t → ∃ y mo d h mi s ms, dateOf t = (y, mo, d) ∧
  Component t "year" = Some y ∧ Component t "month" = Some mo ∧ Component t "day" = Some d ∧ Component t "hour" = Some h ∧
  Component t "minute" = Some mi ∧ Component t "second" = Some s ∧ Component t "millisecond" = Some ms ∧
  0 ≤ h < 24 ∧ 0 ≤ mi < 60 ∧ 0 ≤ s < 60 ∧ 0 ≤ ms < 1000 ∧ t = dayOf (y, mo, d) * MSPerDay + h * 3600000 + mi * 60000 + s * 1000 + ms.
Proof.
  intros Ht. destruct (dateOf_ok t Ht) as (y & mo & d & E & _ & En & _). pose proof (Z.mod_pos_bound t MSPerDay ltac:(unfold MSPerDay; lia)) as Hm. pose proof (Z.div_mod t MSPerDay ltac:(unfold MSPerDay; lia)) as Hd.
  unfold Component. rewrite splitInstant_ok by done. fold (dateOf t). rewrite E. simpl. set (r := t mod MSPerDay) in *. unfold MSPerDay in Hm.
  assert (0 ≤ r / 60000 ∧ 0 ≤ r / 1000) as [Q1 Q2] by (split; apply Z.div_pos; lia).
  exists y, mo, d, (r / 3600000), (r / 60000 mod 60), (r / 1000 mod 60), (r mod 1000). rewrite !Z.quot_div_nonneg, !Z.rem_mod_nonneg by lia.
  split_and!; try done; try (apply Z.mod_pos_bound; lia); try (apply Z.div_pos; lia); try (apply Z.mod_pos_bound; lia).
  - apply Z.div_lt_upper_bound; lia.
  - rewrite En. unfold MSPerDay in *. clear -Hd Hm. clearbody r. dlia.
Qed.

(** ** Properties *)

(** C17: The calendar is the Gregorian one: day 0 is 1970-01-01; for all day numbers
    any 64-bit instant can have, and far beyond, the date of the next day is the next
    date - by the lengths of the months and the leap rule - and converting a day
    to its date and back, or a valid date to its day and back, is the identity;
    and the components read from any 64-bit instant are in their ranges and
    recompose to it. *)
Theorem calendar_is_gregorian (z : Z) : -80000000000000 ≤ z ≤ 80000000000000 →
  CivilFromDays 0 = (1970, 1, 1) ∧ CivilFromDays (z + 1) = nextDay (CivilFromDays z) ∧
  (let '(y, m, d) := CivilFromDays z in validDate y m d ∧ DaysFromCivil y m d = z) ∧
  (∀ y m d, -200000000000 ≤ y ≤ 200000000000 → validDate y m d → CivilFromDays (DaysFromCivil y m d) = (y, m, d)) ∧
  ∀ t, is_i64 t → ∃ y mo d h mi s ms, CivilFromDays (t / MSPerDay) = (y, mo, d) ∧
    Component t "year" = Some y ∧ Component t "month" = Some mo ∧ Component t "day" = Some d ∧ Component t "hour" = Some h ∧
    Component t "minute" = Some mi ∧ Component t "second" = Some s ∧ Component t "millisecond" = Some ms ∧
    0 ≤ h < 24 ∧ 0 ≤ mi < 60 ∧ 0 ≤ s < 60 ∧ 0 ≤ ms < 1000 ∧
    t = DaysFromCivil y mo d * MSPerDay + h * 3600000 + mi * 60000 + s * 1000 + ms.
Proof.
  intros Hz. assert (∀ y m, monthLength y m ≤ 31) as Hlen by (intros; unfold monthLength; repeat case_decide; lia).
  assert (∀ y m d, -250000000001 ≤ y ≤ 250000000001 → validDate y m d → DaysFromCivil y m d = dayNumber y m d) as Hdn.
  { intros y m d Hy [Hm Hd]. pose proof (Hlen y m). apply DaysFromCivil_ok; lia. }
  destruct (days_date_days z) as (y & m & d & E & Hv & En & Hy); [lia|].
  assert (-240000000000 ≤ y ≤ 240000000000) as Hy2 by (destruct Hv as [Hm Hd]; pose proof (Hlen y m); unfold dayNumber, yearStart, marchYear, monthStart, marchMonth in En; repeat case_decide; dlia). split_and!.
  - done.
  - rewrite E. pose proof (nextDay_number y m d Hv) as Hn. destruct (nextDay (y, m, d)) as [[y' m'] d'] eqn:En'. destruct Hn as [Hv' Hn].
    rewrite <- En, <- Hn. apply date_days_date; [|done]. unfold nextDay in En'. repeat case_decide; simplify_eq; lia.
  - rewrite E. split; [exact Hv|]. rewrite Hdn; [exact En|lia|exact Hv].
  - intros y1 m1 d1 Hy1 Hv1. rewrite Hdn by (exact Hv1 || lia). apply date_days_date; [lia|exact Hv1].
  - intros t Ht. destruct (Component_ok t Ht) as (y1 & mo & d1 & h & mi & s & ms & Ed & H'). exists y1, mo, d1, h, mi, s, ms. split; [exact Ed|].
    destruct (dateOf_ok t Ht) as (? & ? & ? & Ed' & Hv' & _ & Hy'). rewrite Ed in Ed'. injection Ed' as <- <- <-. rewrite Hdn by (exact Hv' || lia). exact H'.
Qed.

Lemma calendar_is_gregorian_witness : CivilFromDays 11016 = (2000, 2, 29) ∧ CivilFromDays (11016 + 1) = nextDay (2000, 2, 29) ∧ nextDay (2000, 2, 29) = (2000, 3, 1).
Proof.
  destruct (calendar_is_gregorian 11016) as (_ & H1 & _); [lia|]. assert (CivilFromDays 11016 = (2000, 2, 29)) as E by (by vm_compute).
  split; [exact E|]. split; [by rewrite H1, E|]. by vm_compute.
Defined.

(** C19: Shifting an instant never wraps: for all 64-bit instants and durations and
    both signs, [ApplyDuration] succeeds exactly when every number it passes through
    fits an int64 and the target year is in range, and then the result is the one of
    unbounded arithmetic: the calendar date moved by the months with its day
    clamped to the month, then the days and milliseconds added. *)
Theorem ApplyDuration_exact (t months days ms sign r : Z) : is_i64 t → is_i64 months → is_i64 days → is_i64 ms → sign = 1 ∨ sign = -1 →
  ApplyDuration t months days ms sign = Some r ↔
  Forall (λ z, is_i64 z) (shiftSteps t months days ms sign) ∧ yearFits t months sign ∧ r = shifted t months days ms sign.
Proof. apply ApplyDuration_ok. Qed.

(** Jan 31 plus one month is Feb 29 of a leap year. *)
Lemma ApplyDuration_exact_witness : ApplyDuration 1706659200000 1 0 0 1 = Some 1709164800000 ∧ shifted 1706659200000 1 0 0 1 = 1709164800000 ∧
  CivilFromDays (1706659200000 / MSPerDay) = (2024, 1, 31) ∧ CivilFromDays (1709164800000 / MSPerDay) = (2024, 2, 29).
Proof.
  split; [|by vm_compute]. apply (ApplyDuration_exact 1706659200000 1 0 0 1); [lia..|].
  split; [apply (bool_decide_unpack _); by vm_compute|]. split; [right; vm_compute; split; discriminate|by vm_compute].
Defined.
