(* ===== verification/TemporalText.v ===== *)
(** Temporal text: [ParseISO], [ISOString], [ParseISODuration] of
    [src/gql/internal/eval/temporal.go] and [parseI64] of
    [temporal_component.go].

    A string is the list of its bytes. The functions of package [strings] and the
    [%0wd] verb are written out as documented; [TrimSpace] removes the white space of
    Unicode in its UTF-8 form. The theorems are in [TemporalTextSpec]. *)

From S2P Require Import Prelude CheckedInt Temporal.

(** ** Package strings *)

Definition isAny (cs : list byte) (b : byte) : bool := bool_decide (b ∈ cs).

(** The text before and after the first byte of [cs]. *)
Fixpoint cutAny (cs : list byte) (s : gostring) : option (gostring * gostring) :=
  match s with
  | [] => None
  | b :: s => if isAny cs b then Some ([], s) else '(l, r) ← cutAny cs s; Some (b :: l, r)
  end.

(** [strings.Split] by one byte. *)
Fixpoint split (c : byte) (s : gostring) : list gostring :=
  match s with
  | [] => [[]]
  | b :: s =>
      if decide (b = c) then [] :: split c s
      else match split c s with [] => [[b]] | p :: ps => (b :: p) :: ps end
  end.

(** The encodings of white space. *)
Definition spaces : list gostring :=
  [[Byte.x09]; [Byte.x0a]; [Byte.x0b]; [Byte.x0c]; [Byte.x0d]; [Byte.x20]; [Byte.xc2; Byte.x85]; [Byte.xc2; Byte.xa0];
   [Byte.xe1; Byte.x9a; Byte.x80]; [Byte.xe2; Byte.x80; Byte.x80]; [Byte.xe2; Byte.x80; Byte.x81]; [Byte.xe2; Byte.x80; Byte.x82];
   [Byte.xe2; Byte.x80; Byte.x83]; [Byte.xe2; Byte.x80; Byte.x84]; [Byte.xe2; Byte.x80; Byte.x85]; [Byte.xe2; Byte.x80; Byte.x86];
   [Byte.xe2; Byte.x80; Byte.x87]; [Byte.xe2; Byte.x80; Byte.x88]; [Byte.xe2; Byte.x80; Byte.x89]; [Byte.xe2; Byte.x80; Byte.x8a];
   [Byte.xe2; Byte.x80; Byte.xa8]; [Byte.xe2; Byte.x80; Byte.xa9]; [Byte.xe2; Byte.x80; Byte.xaf]; [Byte.xe2; Byte.x81; Byte.x9f];
   [Byte.xe3; Byte.x80; Byte.x80]].

(** Drop leading occurrences of the given texts. *)
Fixpoint trimLeft (fuel : nat) (ws : list gostring) (s : gostring) : gostring :=
  match fuel with
  | O => s
  | S fuel =>
      match list_find (λ w, w `prefix_of` s) ws with
      | Some (_, w) => trimLeft fuel ws (drop (length w) s)
      | None => s
      end
  end.
Definition TrimSpace (s : gostring) : gostring :=
  let s := trimLeft (length s) spaces s in
  reverse (trimLeft (length s) (reverse <$> spaces) (reverse s)).

(** ** Numbers *)

Definition digit (b : byte) : option Z :=
  let v := byte.unsigned b in
  if decide (48 ≤ v ≤ 57) then Some (v - 48) else None.

(** [n = n*10 + int64(c-'0')], which wraps. *)
Fixpoint digitsLoop (n : Z) (s : gostring) : option Z :=
  match s with
  | [] => Some n
  | b :: s => d ← digit b; digitsLoop (to_i64 (n * 10 + d)) s
  end.

Definition parseI64 (s : gostring) : option Z :=
  let s := TrimSpace s in
  match s with
  | [] => None
  | b :: s' =>
      let neg := bool_decide (b = Byte.x2d) in
      if isAny [Byte.x2b; Byte.x2d] b then
        match s' with
        | [] => None
        | _ => n ← digitsLoop 0 s'; Some (if neg then to_i64 (- n) else n)
        end
      else digitsLoop 0 s
  end.

(** ** Instants *)

(** [for len(f) < 3 { f += "0" }] on at most three bytes. *)
Definition padFraction (frac : gostring) : gostring := let f := take 3 frac in f ++ replicate (3 - length f) Byte.x30.

(** The milliseconds of [HH[:MM[:SS[.mmm]]]]. *)
Definition parseTime (timePart : gostring) : option Z :=
  let t := match reverse timePart with b :: r => if decide (b = Byte.x5a) then reverse r else timePart | [] => timePart end in
  let t := match cutAny [Byte.x2b] t with Some (l, _) => l | None => t end in
  let ti := split Byte.x3a t in
  h ← parseI64 (default [] (ti !! 0%nat));
  mi ← (match ti !! 1%nat with Some x => parseI64 x | None => Some 0 end);
  '(sec, ms) ← (match ti !! 2%nat with
    | None => Some (0, 0)
    | Some x =>
        let '(secStr, frac) := match cutAny [Byte.x2e] x with Some (l, r) => (l, Some r) | None => (x, None) end in
        sec ← parseI64 secStr;
        Some (sec, match frac with None => 0 | Some f => default 0 (parseI64 (padFraction f)) end)
    end);
  Some (to_i64 (h * 3600000 + mi * 60000 + sec * 1000 + ms)).

Definition ParseISO (s : gostring) : option Z :=
  let s := TrimSpace s in
  let '(datePart, timePart) := match cutAny [Byte.x54; Byte.x20] s with Some (l, r) => (l, r) | None => (s, []) end in
  match split Byte.x2d datePart with
  | ys :: ms :: ds :: _ =>
      y ← parseI64 ys;
      mo ← parseI64 ms;
      d ← parseI64 ds;
      if decide (mo < 1 ∨ 12 < mo ∨ d < 1 ∨ 31 < d) then None
      else
        msOfDay ← (if decide (timePart = []) then Some 0 else parseTime timePart);
        civilMillis y (to_u32 mo) (to_u32 d) msOfDay
  | _ => None
  end.

(** The decimal digits of a number below [10^fuel]. *)
Fixpoint decimal (fuel : nat) (n : Z) : gostring :=
  match fuel with
  | O => []
  | S fuel => if decide (n < 10) then [byte.of_Z (48 + n)] else decimal fuel (n / 10) ++ [byte.of_Z (48 + n mod 10)]
  end.

(** [%0wd]: zeros after the sign up to the width. *)
Definition fmtInt (w : nat) (n : Z) : gostring :=
  let ds := decimal 20 (Z.abs n) in
  if decide (n < 0) then Byte.x2d :: replicate (w - 1 - length ds) Byte.x30 ++ ds
  else replicate (w - length ds) Byte.x30 ++ ds.

Inductive TemporalKind := Date | DateTime | LocalDateTime.
#[export] Instance TemporalKind_eq_dec : EqDecision TemporalKind.
Proof. solve_decision. Defined.

Definition ISOString (millis : Z) (kind : TemporalKind) : gostring :=
  let '(days, msOfDay) := splitInstant millis in
  let '(y, mo, d) := CivilFromDays days in
  let date := fmtInt 4 y ++ [Byte.x2d] ++ fmtInt 2 mo ++ [Byte.x2d] ++ fmtInt 2 d in
  if decide (kind = Date) then date
  else
    let h := Z.quot msOfDay 3600000 in
    let mi := Z.rem (Z.quot msOfDay 60000) 60 in
    let s := Z.rem (Z.quot msOfDay 1000) 60 in
    let frac := Z.rem msOfDay 1000 in
    let time := fmtInt 2 h ++ [Byte.x3a] ++ fmtInt 2 mi ++ [Byte.x3a] ++ fmtInt 2 s in
    date ++ [Byte.x54] ++ time ++ (if decide (frac ≠ 0) then [Byte.x2e] ++ fmtInt 3 frac else []).

(** ** Durations *)

(** The variables of [ParseISODuration]; -1 is no number, no fraction. *)
Record durState := mkDur { du_months : Z; du_days : Z; du_ms : Z; du_time : bool; du_saw : bool; du_num : Z; du_frac : Z }.

(** [scale(num, k)], then [add(acc, t)]. *)
Definition scaleAdd (acc num k : Z) : option Z :=
  t ← chk (mulChk num k);
  chk (addChk acc t).

(** The digits at the front. *)
Fixpoint spanDigits (s : gostring) : list Z * gostring :=
  match s with
  | [] => ([], [])
  | b :: s' => match digit b with None => ([], s) | Some d => let '(ds, r) := spanDigits s' in (d :: ds, r) end
  end.

(** The fraction: three digits, padded with zeros. *)
Definition fracMillis (ds : list Z) : Z :=
  let f := take 3 ds in
  foldl (λ f d, f * 10 + d) 0 (f ++ replicate (3 - length f) 0).

(** A designator after its number. *)
Definition designator (st : durState) (c : byte) : option durState :=
  let done months days ms frac := mkDur months days ms (du_time st) true (-1) frac in
  if decide (du_num st < 0) then None
  else if decide (du_time st = false ∧ isAny [Byte.x59; Byte.x79] c = true) then
    months ← scaleAdd (du_months st) (du_num st) 12; Some (done months (du_days st) (du_ms st) (du_frac st))
  else if isAny [Byte.x4d; Byte.x6d] c then
    if du_time st then ms ← scaleAdd (du_ms st) (du_num st) 60000; Some (done (du_months st) (du_days st) ms (du_frac st))
    else months ← chk (addChk (du_months st) (du_num st)); Some (done months (du_days st) (du_ms st) (du_frac st))
  else if decide (du_time st = false ∧ isAny [Byte.x57; Byte.x77] c = true) then
    days ← scaleAdd (du_days st) (du_num st) 7; Some (done (du_months st) days (du_ms st) (du_frac st))
  else if decide (du_time st = false ∧ isAny [Byte.x44; Byte.x64] c = true) then
    days ← chk (addChk (du_days st) (du_num st)); Some (done (du_months st) days (du_ms st) (du_frac st))
  else if decide (du_time st = true ∧ isAny [Byte.x48; Byte.x68] c = true) then
    ms ← scaleAdd (du_ms st) (du_num st) 3600000; Some (done (du_months st) (du_days st) ms (du_frac st))
  else if decide (du_time st = true ∧ isAny [Byte.x53; Byte.x73] c = true) then
    t ← chk (mulChk (du_num st) 1000);
    t ← (if decide (0 ≤ du_frac st) then chk (addChk t (du_frac st)) else Some t);
    ms ← chk (addChk (du_ms st) t);
    Some (done (du_months st) (du_days st) ms (-1))
  else None.

(** The loop over the bytes; a fraction is read up to its [S]. *)
Fixpoint durLoop (fuel : nat) (st : durState) (s : gostring) : option durState :=
  match fuel, s with
  | S fuel, c :: s =>
      match digit c with
      | Some d =>
          let num := if decide (du_num st < 0) then 0 else du_num st in
          t ← chk (mulChk num 10);
          num ← chk (addChk t d);
          durLoop fuel (mkDur (du_months st) (du_days st) (du_ms st) (du_time st) (du_saw st) num (du_frac st)) s
      | None =>
          if isAny [Byte.x54; Byte.x74] c then
            if decide (0 ≤ du_num st ∨ du_time st = true) then None
            else durLoop fuel (mkDur (du_months st) (du_days st) (du_ms st) true (du_saw st) (du_num st) (du_frac st)) s
          else if decide (c = Byte.x2e) then
            if decide (du_time st = false ∨ du_num st < 0 ∨ 0 ≤ du_frac st) then None
            else
              let '(ds, r) := spanDigits s in
              let atS := match r with c' :: _ => isAny [Byte.x53; Byte.x73] c' | [] => false end in
              if decide (ds = [] ∨ atS = false) then None
              else durLoop fuel (mkDur (du_months st) (du_days st) (du_ms st) (du_time st) (du_saw st) (du_num st) (fracMillis ds)) r
          else st ← designator st c; durLoop fuel st s
      end
  | _, _ => Some st
  end.

Definition ParseISODuration (s : gostring) : option (Z * Z * Z) :=
  let s := TrimSpace s in
  let '(neg, s) := match s with
    | b :: r => if isAny [Byte.x2b; Byte.x2d] b then (bool_decide (b = Byte.x2d), r) else (false, s)
    | [] => (false, s) end in
  match s with
  | p :: rest =>
      if decide (rest = [] ∨ isAny [Byte.x50; Byte.x70] p = false) then None
      else
        st ← durLoop (length rest) (mkDur 0 0 0 false false (-1) (-1)) rest;
        if decide (0 ≤ du_num st ∨ 0 ≤ du_frac st ∨ du_saw st = false) then None
        else if neg : bool then Some (to_i64 (- du_months st), to_i64 (- du_days st), to_i64 (- du_ms st))
        else Some (du_months st, du_days st, du_ms st)
  | [] => None
  end.
