(* ===== verification/TemporalTextSpec.v ===== *)
(** Printed instants parse back: theorems on [TemporalText]. *)

From S2P Require Import Prelude CheckedInt Temporal TemporalSpec TemporalText.

(** ** Digits *)

Definition isDigit (b : byte) : Prop := 48 ≤ byte.unsigned b ≤ 57.

Lemma digit_of k : 0 ≤ k < 10 → digit (byte.of_Z (48 + k)) = Some k ∧ isDigit (byte.of_Z (48 + k)).
Proof.
  intros Hk. unfold digit, isDigit. rewrite byte.unsigned_of_Z. unfold byte.wrap. rewrite Z.mod_small by lia. rewrite decide_True by lia. split; [f_equal; lia|lia].
Qed.

Lemma digitsLoop_app n s t : digitsLoop n (s ++ t) = (digitsLoop n s ≫= λ n, digitsLoop n t).
Proof. revert n. induction s as [|b s IH]; intros n; [done|]. simpl. destruct (digit b); simpl; [apply IH|done]. Qed.

Lemma decimal_ok fuel n : 0 ≤ n < 10 ^ Z.of_nat fuel → n < 9223372036854775808 →
  Forall isDigit (decimal fuel n) ∧ (fuel ≠ O → decimal fuel n ≠ []) ∧ digitsLoop 0 (decimal fuel n) = Some n.
Proof.
  revert n. induction fuel as [|fuel IH]; intros n Hn Hb.
  { simpl in Hn. assert (n = 0) as -> by lia. split_and!; [constructor|done|done]. }
  cbn [decimal]. case_decide as D.
  - destruct (digit_of n ltac:(lia)) as [E Hd]. split; [by constructor|]. split; [done|]. cbn [digitsLoop]. rewrite E. simpl. f_equal. apply wrapS_small; lia.
  - destruct (digit_of (n mod 10) ltac:(dlia)) as [E Hd]. destruct (IH (n / 10)) as (HF & _ & El).
    { rewrite Nat2Z.inj_succ, Z.pow_succ_r in Hn by lia. split; [dlia|]. apply Z.div_lt_upper_bound; lia. }
    { dlia. }
    split; [apply Forall_app; split; [done|by constructor]|]. split; [intros _ ?; by destruct (decimal fuel (n / 10))|].
    rewrite digitsLoop_app, El. cbn [mbind option_bind digitsLoop]. rewrite E. simpl. f_equal. rewrite wrapS_small by dlia. dlia.
Qed.

Lemma digitsLoop_zeros k s : digitsLoop 0 (replicate k Byte.x30 ++ s) = digitsLoop 0 s.
Proof. induction k as [|k IH]; [done|]. exact IH. Qed.

Lemma fmtInt_ok w n : 0 ≤ n < 9223372036854775808 → Forall isDigit (fmtInt w n) ∧ fmtInt w n ≠ [] ∧ digitsLoop 0 (fmtInt w n) = Some n.
Proof.
  intros Hn. unfold fmtInt. rewrite decide_False, Z.abs_eq by lia. destruct (decimal_ok 20 n ltac:(simpl; lia) ltac:(lia)) as (HF & Hne & El).
  split; [|split].
  - apply Forall_app. split; [|done]. apply Forall_replicate. by vm_compute.
  - intros E. apply app_eq_nil in E as [_ E]. by apply Hne.
  - by rewrite digitsLoop_zeros.
Qed.

(** ** Trimming *)

Lemma spaces_no_digit : Forall (λ w, ∃ c t, w = c :: t ∧ (byte.unsigned c < 45 ∨ 90 < byte.unsigned c)) spaces ∧ Forall (λ w, ∃ c t, w = c :: t ∧ (byte.unsigned c < 45 ∨ 90 < byte.unsigned c)) (reverse <$> spaces).
Proof. split; repeat (constructor; [eexists _, _; split; [by vm_compute|vm_compute; by (left; done) || (right; done)]|]); constructor. Qed.

Lemma trimLeft_id fuel ws b s : Forall (λ w, ∃ c t, w = c :: t ∧ (byte.unsigned c < 45 ∨ 90 < byte.unsigned c)) ws → 45 ≤ byte.unsigned b ≤ 90 → trimLeft fuel ws (b :: s) = b :: s.
Proof.
  intros HF Hb. destruct fuel as [|fuel]; [done|]. cbn [trimLeft]. destruct (list_find _ ws) as [[i w]|] eqn:E; [|done].
  apply list_find_Some in E as (Hi & Hp & _). destruct (Forall_lookup_1 _ _ _ _ HF Hi) as (c & t & -> & Hc). destruct Hp as [r Hr]. simpl in Hr. injection Hr as -> _. lia.
Qed.

(** Nothing is trimmed between two such bytes. *)
Lemma TrimSpace_id b s : 45 ≤ byte.unsigned b ≤ 90 → (∀ c, last (b :: s) = Some c → 45 ≤ byte.unsigned c ≤ 90) → TrimSpace (b :: s) = b :: s.
Proof.
  intros Hb Hl. destruct spaces_no_digit as [S1 S2]. unfold TrimSpace. rewrite trimLeft_id by done.
  assert (reverse (b :: s) ≠ []) as Hne by (intros E; apply (f_equal length) in E; rewrite length_reverse in E; done).
  destruct (reverse (b :: s)) as [|c r] eqn:E; [done|]. rewrite trimLeft_id; [by rewrite <- E, reverse_involutive|done|]. apply Hl.
  rewrite <- (reverse_involutive (b :: s)), E, reverse_cons. apply last_snoc.
Qed.

Lemma parseI64_digits s n : Forall isDigit s → s ≠ [] → digitsLoop 0 s = Some n → parseI64 s = Some n.
Proof.
  intros HF Hne E. destruct s as [|b s]; [done|]. unfold parseI64. rewrite TrimSpace_id.
  - apply Forall_cons in HF as [Hb HF]. unfold isAny. rewrite bool_decide_eq_false_2; [done|]. unfold isDigit in Hb. intros Hin. rewrite !elem_of_cons in Hin.
    destruct Hin as [->|[->|Hin]]; [change (48 ≤ 43 ≤ 57) in Hb; lia|change (48 ≤ 45 ≤ 57) in Hb; lia|by apply not_elem_of_nil in Hin].
  - apply Forall_cons in HF as [Hb _]. unfold isDigit in Hb. lia.
  - intros c Hc. apply last_Some_elem_of in Hc. rewrite Forall_forall in HF. specialize (HF c Hc). unfold isDigit in HF. lia.
Qed.

Lemma parse_fmtInt w n : 0 ≤ n < 9223372036854775808 → parseI64 (fmtInt w n) = Some n.
Proof. intros Hn. destruct (fmtInt_ok w n Hn) as (? & ? & ?). by apply parseI64_digits. Qed.

(** ** Cutting *)

Lemma cutAny_none cs l : Forall (λ b, b ∉ cs) l → cutAny cs l = None.
Proof. induction 1 as [|b l Hb HF IH]; [done|]. cbn [cutAny]. unfold isAny. rewrite bool_decide_eq_false_2 by done. by rewrite IH. Qed.
Lemma cutAny_at cs l c r : Forall (λ b, b ∉ cs) l → c ∈ cs → cutAny cs (l ++ c :: r) = Some (l, r).
Proof.
  intros HF Hc. induction HF as [|b l Hb HF IH]; cbn [cutAny app]; unfold isAny; [by rewrite bool_decide_eq_true_2|].
  rewrite bool_decide_eq_false_2 by done. by rewrite IH.
Qed.
Lemma split_none c l : Forall (λ b, b ≠ c) l → split c l = [l].
Proof. induction 1 as [|b l Hb HF IH]; [done|]. cbn [split]. rewrite decide_False by done. by rewrite IH. Qed.
Lemma split_at c l r : Forall (λ b, b ≠ c) l → split c (l ++ c :: r) = l :: split c r.
Proof. induction 1 as [|b l Hb HF IH]; cbn [split app]; [by rewrite decide_True|]. rewrite decide_False by done. by rewrite IH. Qed.

(** A byte outside the digits is none of them. *)
Lemma digits_avoid (c : byte) s : Forall isDigit s → byte.unsigned c < 48 ∨ 57 < byte.unsigned c → Forall (λ b, b ≠ c) s.
Proof. intros HF Hc. eapply Forall_impl; [exact HF|]. intros b Hb ->. unfold isDigit in Hb. lia. Qed.
Lemma digits_avoid_all (cs : list byte) s : Forall isDigit s → Forall (λ c, byte.unsigned c < 48 ∨ 57 < byte.unsigned c) cs → Forall (λ b, b ∉ cs) s.
Proof. intros HF Hc. eapply Forall_impl; [exact HF|]. intros b Hb Hin. unfold isDigit in Hb. rewrite Forall_forall in Hc. specialize (Hc b Hin). lia. Qed.

(** ** The forms [ISOString] prints *)

Definition dateText (y mo d : Z) : gostring := fmtInt 4 y ++ [Byte.x2d] ++ fmtInt 2 mo ++ [Byte.x2d] ++ fmtInt 2 d.
Definition timeText (h mi s frac : Z) : gostring :=
  fmtInt 2 h ++ [Byte.x3a] ++ fmtInt 2 mi ++ [Byte.x3a] ++ fmtInt 2 s ++ (if decide (frac ≠ 0) then [Byte.x2e] ++ fmtInt 3 frac else []).

(** A text ends in a digit. *)
Definition endsInDigit (s : gostring) : Prop := ∃ l b, s = l ++ [b] ∧ isDigit b.
Lemma ends_fmtInt w n : 0 ≤ n < 9223372036854775808 → endsInDigit (fmtInt w n).
Proof.
  intros Hn. destruct (fmtInt_ok w n Hn) as (HF & Hne & _). destruct (exists_last Hne) as (l & b & E). exists l, b. split; [done|].
  rewrite E in HF. apply Forall_app in HF as [_ HF]. by inversion HF.
Qed.
Lemma ends_app l s : endsInDigit s → endsInDigit (l ++ s).
Proof. intros (l' & b & -> & Hb). exists (l ++ l'), b. by rewrite app_assoc. Qed.

Lemma TrimSpace_text b s : 45 ≤ byte.unsigned b ≤ 90 → endsInDigit (b :: s) → TrimSpace (b :: s) = b :: s.
Proof. intros Hb (l & c & E & Hc). apply TrimSpace_id; [done|]. rewrite E, last_snoc. intros ? [= <-]. unfold isDigit in Hc. lia. Qed.

Lemma fmtInt_head w n : 0 ≤ n < 9223372036854775808 → ∃ b s, fmtInt w n = b :: s ∧ isDigit b.
Proof. intros Hn. destruct (fmtInt_ok w n Hn) as (HF & Hne & _). destruct (fmtInt w n) as [|b s]; [done|]. exists b, s. split; [done|]. by inversion HF. Qed.

Lemma decimal_S fuel n : decimal (S fuel) n = if decide (n < 10) then [byte.of_Z (48 + n)] else decimal fuel (n / 10) ++ [byte.of_Z (48 + n mod 10)].
Proof. done. Qed.

Lemma padded_fraction frac : 0 < frac < 1000 → padFraction (fmtInt 3 frac) = fmtInt 3 frac.
Proof.
  intros Hf. assert (length (fmtInt 3 frac) = 3%nat) as El.
  { unfold fmtInt. rewrite decide_False, Z.abs_eq by lia. rewrite length_app, length_replicate.
    assert (1 ≤ length (decimal 20 frac) ≤ 3)%nat; [|lia]. rewrite decimal_S. case_decide; [simpl; lia|]. rewrite length_app, decimal_S. case_decide; [simpl; lia|].
    rewrite length_app, decimal_S. rewrite decide_True by dlia. simpl. lia. }
  unfold padFraction. rewrite firstn_all2 by lia. rewrite El. by rewrite app_nil_r.
Qed.

Lemma parseTime_ok h mi s frac : 0 ≤ h < 24 → 0 ≤ mi < 60 → 0 ≤ s < 60 → 0 ≤ frac < 1000 →
  parseTime (timeText h mi s frac) = Some (h * 3600000 + mi * 60000 + s * 1000 + frac).
Proof.
  intros Hh Hmi Hs Hf. assert (endsInDigit (timeText h mi s frac)) as He.
  { unfold timeText. do 4 apply ends_app. case_decide; [do 2 apply ends_app; apply ends_fmtInt; lia|]. rewrite app_nil_r. apply ends_fmtInt. lia. }
  destruct (fmtInt_ok 2 h) as (F1 & _ & _); [lia|]. destruct (fmtInt_ok 2 mi) as (F2 & _ & _); [lia|]. destruct (fmtInt_ok 2 s) as (F3 & _ & _); [lia|]. destruct (fmtInt_ok 3 frac) as (F4 & _ & _); [lia|].
  assert (match reverse (timeText h mi s frac) with b :: r => if decide (b = Byte.x5a) then reverse r else timeText h mi s frac | [] => timeText h mi s frac end = timeText h mi s frac) as Ez.
  { destruct He as (l & b & E & Hb). rewrite E, reverse_app. simpl. rewrite decide_False; [done|]. intros ->. unfold isDigit in Hb. change (48 ≤ 90 ≤ 57) in Hb. lia. }
  unfold parseTime. rewrite Ez. clear Ez. set (sec := fmtInt 2 s ++ (if decide (frac ≠ 0) then [Byte.x2e] ++ fmtInt 3 frac else [])). assert (timeText h mi s frac = fmtInt 2 h ++ Byte.x3a :: fmtInt 2 mi ++ Byte.x3a :: sec) as -> by done.
  assert (∀ c, c = Byte.x2b ∨ c = Byte.x3a → Forall (λ b, b ≠ c) sec) as Hsec.
  { intros c Hc. assert (byte.unsigned c < 48 ∨ 57 < byte.unsigned c) by (destruct Hc as [->| ->]; vm_compute; auto). unfold sec. apply Forall_app. split; [by apply digits_avoid|]. case_decide; [|constructor].
    constructor; [destruct Hc as [->| ->]; done|by apply digits_avoid]. }
  rewrite cutAny_none.
  2: { assert (∀ l, Forall isDigit l → Forall (λ b, b ∉ [Byte.x2b]) l) as Hd by (intros l Hl; apply digits_avoid_all; [done|repeat constructor; vm_compute; auto]).
       apply Forall_app. split; [by apply Hd|]. constructor; [set_solver|]. apply Forall_app. split; [by apply Hd|]. constructor; [set_solver|].
       eapply Forall_impl; [apply (Hsec Byte.x2b); auto|]. intros b Hb. set_solver. }
  rewrite !split_at by (apply digits_avoid; [done|vm_compute; auto]). rewrite split_none by (apply Hsec; auto). simpl. rewrite !parse_fmtInt by lia. simpl.
  assert (cutAny [Byte.x2e] sec = if decide (frac ≠ 0) then Some (fmtInt 2 s, fmtInt 3 frac) else None) as ->.
  { unfold sec. case_decide; [apply cutAny_at; [|set_solver]|rewrite app_nil_r; apply cutAny_none]; (apply digits_avoid_all; [done|repeat constructor; vm_compute; auto]). }
  destruct (decide (frac ≠ 0)) as [D|D].
  - rewrite parse_fmtInt by lia. simpl. rewrite padded_fraction by lia. rewrite parse_fmtInt by lia. simpl. f_equal. apply wrapS_small; lia.
  - assert (frac = 0) as -> by lia. unfold sec. rewrite app_nil_r, parse_fmtInt by lia. simpl. f_equal. rewrite wrapS_small; lia.
Qed.

(** [ys-ms-ds], and a time after [T]. *)
Definition digitsDate (ys ms ds : gostring) : gostring := ys ++ [Byte.x2d] ++ ms ++ [Byte.x2d] ++ ds.
Definition withTime (date time : gostring) : gostring := date ++ (if decide (time = []) then [] else Byte.x54 :: time).

Lemma ends_digits s : Forall isDigit s → s ≠ [] → endsInDigit s.
Proof. intros HF Hne. destruct (exists_last Hne) as (l & b & ->). exists l, b. split; [done|]. apply Forall_app in HF as [_ HF]. by inversion HF. Qed.

(** A date of three digit strings is cut into them, whatever time follows. *)
Lemma ParseISO_digits ys ms ds time y mo d : Forall isDigit ys → Forall isDigit ms → Forall isDigit ds → ys ≠ [] → ms ≠ [] → ds ≠ [] →
  digitsLoop 0 ys = Some y → digitsLoop 0 ms = Some mo → digitsLoop 0 ds = Some d → time = [] ∨ endsInDigit time →
  ParseISO (withTime (digitsDate ys ms ds) time) =
  if decide (mo < 1 ∨ 12 < mo ∨ d < 1 ∨ 31 < d) then None
  else (msOfDay ← (if decide (time = []) then Some 0 else parseTime time); civilMillis y mo d msOfDay).
Proof.
  intros F1 F2 F3 N1 N2 N3 L1 L2 L3 Ht. set (text := withTime _ time).
  assert (TrimSpace text = text) as Etrim.
  { assert (endsInDigit text) as He.
    { unfold text, withTime. case_decide as D; [rewrite app_nil_r; unfold digitsDate; do 4 apply ends_app; by apply ends_digits|]. apply ends_app, (ends_app [Byte.x54]). naive_solver. }
    revert He. unfold text, withTime, digitsDate. destruct ys as [|b s]; [done|]. intros He. apply Forall_cons in F1 as [Hb _]. apply TrimSpace_text; [unfold isDigit in Hb; lia|exact He]. }
  unfold ParseISO. rewrite Etrim. assert (∀ l, Forall isDigit l → Forall (λ b, b ∉ [Byte.x54; Byte.x20]) l) as Hav by (intros l Hl; apply digits_avoid_all; [done|repeat constructor; vm_compute; auto]).
  assert (Forall (λ b, b ∉ [Byte.x54; Byte.x20]) (digitsDate ys ms ds)) as Hdt.
  { unfold digitsDate. apply Forall_app; split; [by apply Hav|]. constructor; [set_solver|]. apply Forall_app; split; [by apply Hav|]. constructor; [set_solver|by apply Hav]. }
  assert (match cutAny [Byte.x54; Byte.x20] text with Some (l, r) => (l, r) | None => (text, []) end = (digitsDate ys ms ds, time)) as ->.
  { unfold text, withTime. case_decide as D; [rewrite app_nil_r, cutAny_none by done; by rewrite D|]. by rewrite cutAny_at by (done || set_solver). }
  assert (split Byte.x2d (digitsDate ys ms ds) = [ys; ms; ds]) as ->.
  { unfold digitsDate. simpl app. rewrite !split_at by (apply digits_avoid; [done|vm_compute; auto]). by rewrite split_none by (apply digits_avoid; [done|vm_compute; auto]). }
  rewrite (parseI64_digits ys y), (parseI64_digits ms mo), (parseI64_digits ds d) by done. simpl. case_decide as D; [done|]. by rewrite !(wrapU_small 32) by lia.
Qed.

Lemma ParseISO_text y mo d time : 0 ≤ y < 9223372036854775808 → 1 ≤ mo ≤ 12 → 1 ≤ d ≤ 31 → time = [] ∨ endsInDigit time →
  ParseISO (dateText y mo d ++ (if decide (time = []) then [] else Byte.x54 :: time)) =
  (msOfDay ← (if decide (time = []) then Some 0 else parseTime time); civilMillis y mo d msOfDay).
Proof.
  intros Hy Hmo Hd Ht. destruct (fmtInt_ok 4 y Hy) as (? & ? & ?). destruct (fmtInt_ok 2 mo) as (? & ? & ?); [lia|]. destruct (fmtInt_ok 2 d) as (? & ? & ?); [lia|].
  etransitivity; [by apply (ParseISO_digits (fmtInt 4 y) (fmtInt 2 mo) (fmtInt 2 d) time y mo d)|]. by rewrite decide_False by lia.
Qed.

(** ** Digit strings of any length *)

(** The number a digit string writes, unbounded. *)
Definition digitsValue (s : gostring) : Z := foldl (λ n b, n * 10 + (byte.unsigned b - 48)) 0 s.

Lemma to_i64_cong a b : a `mod` 18446744073709551616 = b `mod` 18446744073709551616 → to_i64 a = to_i64 b.
Proof. intros E. change ((a + 9223372036854775808) `mod` 18446744073709551616 - 9223372036854775808 = (b + 9223372036854775808) `mod` 18446744073709551616 - 9223372036854775808). f_equal. dlia. Qed.

Lemma digits_check (s : gostring) : forallb (λ b, bool_decide (48 ≤ byte.unsigned b ≤ 57)) s = true → Forall isDigit s.
Proof. intros E. apply Forall_forall. intros b Hb. apply list_elem_of_In, (proj1 (forallb_forall _ _) E), bool_decide_eq_true_1 in Hb. done. Qed.

(** What the wrapping loop computes. *)
Lemma digitsLoop_value s a : Forall isDigit s → digitsLoop (to_i64 a) s = Some (to_i64 (foldl (λ n b, n * 10 + (byte.unsigned b - 48)) a s)).
Proof.
  intros HF. revert a. induction HF as [|b s Hb HF IH]; intros a; [done|]. cbn [digitsLoop foldl]. unfold digit, isDigit in *. rewrite decide_True by done. cbn [mbind option_bind].
  rewrite <- IH. f_equal. apply to_i64_cong. destruct (to_i64_near a) as (k & -> & _). dlia.
Qed.

Lemma digitsLoop_0 s : Forall isDigit s → digitsLoop 0 s = Some (to_i64 (digitsValue s)).
Proof. apply (digitsLoop_value s 0). Qed.

(** A time of hours only. *)
Lemma parseTime_hours hs : Forall isDigit hs → hs ≠ [] → parseTime hs = Some (to_i64 (digitsValue hs * 3600000)).
Proof.
  intros HF Hne. unfold parseTime.
  assert (match reverse hs with b :: r => if decide (b = Byte.x5a) then reverse r else hs | [] => hs end = hs) as ->.
  { destruct (exists_last Hne) as (l & b & ->). rewrite reverse_app. simpl. rewrite decide_False; [done|]. intros ->. apply Forall_app in HF as [_ HF]. apply Forall_cons in HF as [Hb _]. unfold isDigit in Hb. change (48 ≤ 90 ≤ 57) in Hb. lia. }
  rewrite cutAny_none by (apply digits_avoid_all; [done|repeat constructor; vm_compute; auto]). rewrite split_none by (apply digits_avoid; [done|vm_compute; auto]). simpl.
  rewrite (parseI64_digits hs (to_i64 (digitsValue hs))) by (done || by apply digitsLoop_0). simpl. f_equal. apply to_i64_cong. destruct (to_i64_near (digitsValue hs)) as (k & -> & _). dlia.
Qed.

Lemma civilMillis_ok t y mo d r : is_i64 t → dateOf t = (y, mo, d) → - maxCivilYear ≤ y ≤ maxCivilYear → 0 ≤ y → 0 ≤ r ≤ t mod MSPerDay →
  civilMillis y mo d r = Some (t / MSPerDay * MSPerDay + r).
Proof.
  intros Ht E Hy Hy0 Hr. destruct (dateOf_ok t Ht) as (? & ? & ? & E' & [Hm Hd] & En & Hb). rewrite E in E'. injection E' as <- <- <-.
  unfold civilMillis. rewrite decide_False by lia. assert (monthLength y mo ≤ 31) by (unfold monthLength; repeat case_decide; lia). rewrite DaysFromCivil_ok by (unfold maxCivilYear in Hy; lia).
  assert (-800000 ≤ dayNumber y mo d ≤ 110000000000) as HD.
  { split; [|rewrite En; unfold MSPerDay; dlia]. unfold dayNumber, yearStart, marchYear, monthStart, marchMonth. repeat case_decide; dlia. }
  pose proof (Z.div_mod t MSPerDay ltac:(unfold MSPerDay; lia)) as Hdm. pose proof (Z.mod_pos_bound t MSPerDay ltac:(unfold MSPerDay; lia)).
  rewrite mulChk_ok by (unfold MSPerDay; lia). unfold exact at 1, fits64. rewrite bool_decide_eq_true_2 by (unfold MSPerDay in *; lia). simpl.
  rewrite addChk_ok by (unfold MSPerDay in *; lia). unfold exact, fits64. rewrite bool_decide_eq_true_2; [by rewrite En|]. rewrite En in *. unfold MSPerDay in *. lia.
Qed.

(** The year of an instant is in the calendar's range. *)
Lemma instant_year t y mo d : is_i64 t → dateOf t = (y, mo, d) → - maxCivilYear ≤ y ≤ maxCivilYear.
Proof.
  intros Ht E. destruct (dateOf_ok t Ht) as (? & ? & ? & E' & [Hm Hd] & En & Hb). rewrite E in E'. injection E' as <- <- <-.
  assert (-107000000000 ≤ dayNumber y mo d ≤ 107000000000) as HD by (rewrite En; unfold MSPerDay; dlia). assert (monthLength y mo ≤ 31) by (unfold monthLength; repeat case_decide; lia).
  unfold dayNumber, yearStart, marchYear, monthStart, marchMonth, maxCivilYear in *. repeat case_decide; dlia.
Qed.

Lemma ISOString_form t kind y mo d : is_i64 t → dateOf t = (y, mo, d) → let r := t mod MSPerDay in
  ISOString t kind = dateText y mo d ++ (if decide (kind = Date) then [] else Byte.x54 :: timeText (r / 3600000) (r / 60000 mod 60) (r / 1000 mod 60) (r mod 1000)).
Proof.
  intros Ht E r. pose proof (Z.mod_pos_bound t MSPerDay ltac:(unfold MSPerDay; lia)) as Hr. fold r in Hr. assert (0 ≤ r / 60000 ∧ 0 ≤ r / 1000) as [Q1 Q2] by (split; apply Z.div_pos; lia).
  unfold ISOString. rewrite splitInstant_ok by done. fold (dateOf t). rewrite E. fold r. case_decide; [by rewrite app_nil_r|].
  rewrite !Z.quot_div_nonneg, !Z.rem_mod_nonneg by lia. unfold dateText, timeText. by rewrite <- !app_assoc.
Qed.

(** ** Durations *)

Definition withNum (st : durState) (n : Z) : durState := mkDur (du_months st) (du_days st) (du_ms st) (du_time st) (du_saw st) n (du_frac st).

Lemma exact_fits z : is_i64 z → exact z = Some z.
Proof. intros Hz. unfold exact, fits64. by rewrite bool_decide_eq_true_2. Qed.
Lemma exact_wide z : ¬ is_i64 z → exact z = None.
Proof. intros Hz. unfold exact, fits64. by rewrite bool_decide_eq_false_2. Qed.

Lemma durLoop_digit f st b d rest : digit b = Some d → 0 ≤ d < 10 → let num := if decide (du_num st < 0) then 0 else du_num st in num * 10 + d < 9223372036854775808 →
  durLoop (S f) st (b :: rest) = durLoop f (withNum st (num * 10 + d)) rest.
Proof.
  intros Hb Hd num Hn. cbn [durLoop]. rewrite Hb. fold num. assert (0 ≤ num) by (unfold num; case_decide; lia).
  rewrite mulChk_ok, exact_fits by lia. cbn [mbind option_bind]. rewrite addChk_ok, exact_fits by lia. done.
Qed.

(** Reading a number that fits. *)
Lemma durLoop_number fuel n st f rest : (fuel ≠ 0)%nat → 0 ≤ n < 10 ^ Z.of_nat fuel → n < 9223372036854775808 → du_num st = -1 →
  durLoop (length (decimal fuel n) + f) st (decimal fuel n ++ rest) = durLoop f (withNum st n) rest.
Proof.
  revert n f rest. induction fuel as [|fuel IH]; intros n f rest Hf Hn Hb Hst; [done|]. rewrite decimal_S. case_decide as D.
  - destruct (digit_of n ltac:(lia)) as [E _]. cbn [length app Nat.add]. rewrite (durLoop_digit _ _ _ n _ E) by (rewrite ?Hst; simpl; lia). by rewrite Hst.
  - destruct (digit_of (n mod 10) ltac:(dlia)) as [E _]. rewrite length_app, <- app_assoc. cbn [length app]. replace (length (decimal fuel (n / 10)) + 1 + f)%nat with (length (decimal fuel (n / 10)) + S f)%nat by lia.
    assert (0 ≤ n / 10 < 10 ^ Z.of_nat fuel) as Hn' by (rewrite Nat2Z.inj_succ, Z.pow_succ_r in Hn by lia; split; [dlia|apply Z.div_lt_upper_bound; lia]).
    rewrite IH; [|intros ->; simpl in Hn'; dlia|done|dlia|done]. rewrite (durLoop_digit _ _ _ (n mod 10) _ E); cbn [withNum du_num]; rewrite ?decide_False by dlia; try dlia.
    f_equal. unfold withNum. simpl. f_equal. dlia.
Qed.

(** A number and its designator. *)
Lemma durLoop_field n c st st' f rest : 0 ≤ n < 9223372036854775808 → du_num st = -1 → digit c = None → isAny [Byte.x54; Byte.x74] c = false → c ≠ Byte.x2e →
  designator (withNum st n) c = st' → durLoop (length (decimal 20 n ++ [c]) + f) st ((decimal 20 n ++ [c]) ++ rest) = (st' ≫= λ st, durLoop f st rest).
Proof.
  intros Hn Hst Hc Ht Hdot Hd. rewrite length_app, <- app_assoc. cbn [length app]. replace (length (decimal 20 n) + 1 + f)%nat with (length (decimal 20 n) + S f)%nat by lia.
  rewrite durLoop_number by (done || simpl; lia). cbn [durLoop]. rewrite Hc, Ht, decide_False by done. by rewrite Hd.
Qed.

(** Every component, in the order of the standard. *)
Definition durText (y mo w d h mi s : Z) : gostring :=
  (decimal 20 y ++ [Byte.x59]) ++ (decimal 20 mo ++ [Byte.x4d]) ++ (decimal 20 w ++ [Byte.x57]) ++ (decimal 20 d ++ [Byte.x44]) ++ [Byte.x54] ++
  (decimal 20 h ++ [Byte.x48]) ++ (decimal 20 mi ++ [Byte.x4d]) ++ (decimal 20 s ++ [Byte.x53]).

(** Adding non-negative components: the last sum decides. *)
Lemma scaleAdd_ok acc n k : 0 ≤ acc < 9223372036854775808 → 0 ≤ n < 9223372036854775808 → 0 < k < 9223372036854775808 →
  scaleAdd acc n k = if decide (acc + n * k < 9223372036854775808) then Some (acc + n * k) else None.
Proof.
  intros Ha Hn Hk. unfold scaleAdd. rewrite mulChk_ok by lia. destruct (decide (is_i64 (n * k))) as [D|D].
  - rewrite exact_fits by done. cbn [mbind option_bind]. rewrite addChk_ok by lia. case_decide; [rewrite exact_fits by nia; done|rewrite exact_wide by lia; done].
  - rewrite exact_wide by done. cbn. rewrite decide_False by nia. done.
Qed.
Lemma addChk_nonneg acc n : 0 ≤ acc < 9223372036854775808 → 0 ≤ n < 9223372036854775808 →
  chk (addChk acc n) = if decide (acc + n < 9223372036854775808) then Some (acc + n) else None.
Proof. intros Ha Hn. rewrite addChk_ok by lia. case_decide; [by rewrite exact_fits by lia|by rewrite exact_wide by lia]. Qed.

(** One field: read the number, apply the designator, and split on its overflow. *)
Ltac dur_read := rewrite length_app; erewrite durLoop_field; [|first [done | lia]..]; unfold designator; cbn [withNum du_months du_days du_ms du_time du_saw du_num du_frac];
  rewrite (decide_False (P := _ < 0)) by lia;
  repeat match goal with |- context [isAny ?l ?c] => let v := eval vm_compute in (isAny l c) in change (isAny l c) with v end;
  repeat match goal with |- context [decide (?a = ?b ∧ ?c = ?d)] => destruct (decide (a = b ∧ c = d)) as [[? ?]|?]; [try discriminate|try (exfalso; tauto)] end; cbv iota.
Ltac dur_fits := match goal with |- context [decide (?a < 9223372036854775808)] => destruct (decide (a < 9223372036854775808)); [|cbn [mbind option_bind]; rewrite decide_False by lia; done] end;
  cbn [mbind option_bind].
Ltac dur_field := dur_read; rewrite ?scaleAdd_ok, ?addChk_nonneg by lia; dur_fits.

Lemma durLoop_text y mo w d h mi s : (∀ n, n ∈ [y; mo; w; d; h; mi; s] → 0 ≤ n < 9223372036854775808) →
  durLoop (length (durText y mo w d h mi s)) (mkDur 0 0 0 false false (-1) (-1)) (durText y mo w d h mi s) =
  if decide (y * 12 + mo < 9223372036854775808 ∧ w * 7 + d < 9223372036854775808 ∧ h * 3600000 + mi * 60000 + s * 1000 < 9223372036854775808)
  then Some (mkDur (y * 12 + mo) (w * 7 + d) (h * 3600000 + mi * 60000 + s * 1000) true true (-1) (-1)) else None.
Proof.
  intros Hn. assert (0 ≤ y < 9223372036854775808 ∧ 0 ≤ mo < 9223372036854775808 ∧ 0 ≤ w < 9223372036854775808 ∧ 0 ≤ d < 9223372036854775808 ∧ 0 ≤ h < 9223372036854775808 ∧
    0 ≤ mi < 9223372036854775808 ∧ 0 ≤ s < 9223372036854775808) as (H1 & H2 & H3 & H4 & H5 & H6 & H7) by (split_and!; apply Hn; set_solver).
  unfold durText. do 4 dur_field. cbn [app length durLoop digit].
  change (digit Byte.x54) with (@None Z). cbv iota. change (isAny [Byte.x54; Byte.x74] Byte.x54) with true. cbv iota. cbn [du_months du_days du_ms du_time du_saw du_num du_frac].
  rewrite (decide_False (P := 0 ≤ -1 ∨ _)) by (intros [?|[=]]; lia). do 2 dur_field.
  rewrite <- (app_nil_r (decimal 20 s ++ [Byte.x53])). dur_read.
  rewrite mulChk_ok by lia. destruct (decide (is_i64 (s * 1000))) as [D|D]; [rewrite exact_fits by done|rewrite exact_wide by done; cbn [mbind option_bind]; rewrite decide_False by lia; done].
  cbn [mbind option_bind]. rewrite (decide_False (P := 0 ≤ -1)) by lia. cbn [mbind option_bind]. rewrite addChk_nonneg by lia. dur_fits. rewrite decide_True by lia. cbn [length durLoop]. do 2 f_equal; lia.
Qed.

(** ** Properties *)

(** C18: Printed instants parse back: every 64-bit instant of year 0 or later, printed
    by [ISOString] as a date and time, with or without a fraction, is read by
    [ParseISO] as the same instant, and printed as a date as its midnight; the
    text of an instant before year 0 is refused, though [ISOString] documents
    itself as the inverse of [ParseISO]. *)
Theorem iso_text_roundtrip (t y mo d : Z) : is_i64 t → CivilFromDays (t / MSPerDay) = (y, mo, d) →
  (0 ≤ y → ParseISO (ISOString t DateTime) = Some t ∧ ParseISO (ISOString t LocalDateTime) = Some t ∧ ParseISO (ISOString t Date) = Some (t / MSPerDay * MSPerDay)) ∧
  (y < 0 → ∀ kind, ParseISO (ISOString t kind) = None).
Proof.
  intros Ht E. destruct (dateOf_ok t Ht) as (? & ? & ? & E' & [Hm Hd] & En & Hb). unfold dateOf in E'. rewrite E in E'. injection E' as <- <- <-.
  pose proof (instant_year t y mo d Ht E) as Hy. assert (monthLength y mo ≤ 31) by (unfold monthLength; repeat case_decide; lia).
  pose proof (Z.mod_pos_bound t MSPerDay ltac:(unfold MSPerDay; lia)) as Hr. pose proof (Z.div_mod t MSPerDay ltac:(unfold MSPerDay; lia)) as Hdm. split.
  - intros Hy0. assert (∀ kind, kind ≠ Date → ParseISO (ISOString t kind) = Some t) as Hk.
    { intros kind Hk. rewrite (ISOString_form t kind y mo d Ht E). cbv zeta. rewrite decide_False by done. set (r := t mod MSPerDay) in *. unfold MSPerDay in Hr.
      set (time := timeText _ _ _ _). assert (time ≠ []) as Hne by (unfold time, timeText; destruct (fmtInt_head 2 (r / 3600000)) as (b & s & -> & _); [dlia|done]).
      assert (endsInDigit time) as He by (unfold time, timeText; do 4 apply ends_app; case_decide; [do 2 apply ends_app; apply ends_fmtInt; dlia|rewrite app_nil_r; apply ends_fmtInt; dlia]).
      pose proof (ParseISO_text y mo d time ltac:(unfold maxCivilYear in Hy; lia) Hm ltac:(lia) ltac:(auto)) as Ep. rewrite !decide_False in Ep by done. rewrite Ep.
      unfold time. rewrite parseTime_ok by dlia. simpl. rewrite (civilMillis_ok t); [|done|exact E|done|done|fold r; dlia]. f_equal. unfold MSPerDay in *. clearbody r. dlia. }
    split; [by apply Hk|]. split; [by apply Hk|]. rewrite (ISOString_form t Date y mo d Ht E). cbv zeta. rewrite decide_True by done.
    pose proof (ParseISO_text y mo d [] ltac:(unfold maxCivilYear in Hy; lia) Hm ltac:(lia) ltac:(auto)) as Ep. rewrite !decide_True in Ep by done. rewrite Ep. simpl.
    rewrite (civilMillis_ok t); [f_equal; lia|done|exact E|done|done|lia].
  - intros Hneg kind. rewrite (ISOString_form t kind y mo d Ht E). cbv zeta. set (rest := if decide (kind = Date) then _ else _).
    assert (endsInDigit (dateText y mo d ++ rest)) as He.
    { set (r := t mod MSPerDay) in *. unfold MSPerDay in Hr. unfold rest. case_decide; [rewrite app_nil_r; unfold dateText; do 4 apply ends_app; apply ends_fmtInt; lia|]. apply ends_app, (ends_app [Byte.x54]). unfold timeText. do 4 apply ends_app. case_decide; [do 2 apply ends_app; apply ends_fmtInt; dlia|rewrite app_nil_r; apply ends_fmtInt; dlia]. }
    assert (∃ s, dateText y mo d ++ rest = Byte.x2d :: s) as [s Es] by (unfold dateText, fmtInt; rewrite (decide_True (P := y < 0)) by done; eexists; done).
    rewrite Es in *. unfold ParseISO. rewrite TrimSpace_text by (done || vm_compute; split; discriminate). cbn [cutAny]. unfold isAny at 1. rewrite bool_decide_eq_false_2 by set_solver.
    destruct (cutAny [Byte.x54; Byte.x20] s) as [[l r]|]; cbn [mbind option_bind split]; rewrite decide_True by done; by repeat case_match.
Qed.

Lemma iso_text_roundtrip_witness : ISOString 1709168523500 DateTime = String.list_byte_of_string "2024-02-29T01:02:03.500" ∧
  ParseISO (ISOString 1709168523500 DateTime) = Some 1709168523500 ∧ ParseISO (ISOString (-62198755200000) Date) = None.
Proof.
  split; [by vm_compute|]. split.
  - destruct (iso_text_roundtrip 1709168523500 2024 2 29) as [H1 _]; [lia|by vm_compute|]. apply H1. lia.
  - destruct (iso_text_roundtrip (-62198755200000) (-1) 1 1) as [_ H2]; [lia|by vm_compute|]. apply H2. lia.
Defined.

(** C38: [ParseISO] reads every number of a date modulo 2^64: for any digit
    strings, whatever their length, the year, month and day of [ys-ms-ds] are
    the written numbers wrapped to 64 bits, refused only when the wrapped month
    or day is out of range or the wrapped year is out of the calendar's; hours
    after [T] are the written number of milliseconds wrapped. Two texts whose
    numbers agree modulo 2^64 are therefore the same instant (a year of
    2^64 + 2024 is 2024), though the code means a constructed instant never to
    wrap. *)
Theorem ParseISO_wraps (ys ms ds hs : gostring) : (∀ s, s ∈ [ys; ms; ds; hs] → Forall isDigit s ∧ s ≠ []) →
  let y := to_i64 (digitsValue ys) in let mo := to_i64 (digitsValue ms) in let d := to_i64 (digitsValue ds) in
  let read (ms : Z) := if decide (1 ≤ mo ≤ 12 ∧ 1 ≤ d ≤ 31) then civilMillis y mo d ms else None in
  ParseISO (digitsDate ys ms ds) = read 0 ∧
  ParseISO (digitsDate ys ms ds ++ Byte.x54 :: hs) = read (to_i64 (digitsValue hs * 3600000)) ∧
  ∀ ys', Forall isDigit ys' → ys' ≠ [] → digitsValue ys' `mod` 18446744073709551616 = digitsValue ys `mod` 18446744073709551616 →
    ParseISO (digitsDate ys' ms ds) = ParseISO (digitsDate ys ms ds) ∧ ParseISO (digitsDate ys' ms ds ++ Byte.x54 :: hs) = ParseISO (digitsDate ys ms ds ++ Byte.x54 :: hs).
Proof.
  intros Hs y mo d read. destruct (Hs ms ltac:(set_solver)) as [F2 N2]. destruct (Hs ds ltac:(set_solver)) as [F3 N3]. destruct (Hs hs ltac:(set_solver)) as [F4 N4].
  assert (∀ y' ys', Forall isDigit ys' → ys' ≠ [] → to_i64 (digitsValue ys') = y' → y' = y →
    ParseISO (digitsDate ys' ms ds) = read 0 ∧ ParseISO (digitsDate ys' ms ds ++ Byte.x54 :: hs) = read (to_i64 (digitsValue hs * 3600000))) as Hread.
  { intros y' ys' F1 N1 E1 E2. rewrite E2 in E1. assert (∀ time, time = [] ∨ endsInDigit time → ParseISO (withTime (digitsDate ys' ms ds) time) =
      if decide (mo < 1 ∨ 12 < mo ∨ d < 1 ∨ 31 < d) then None else (msOfDay ← (if decide (time = []) then Some 0 else parseTime time); civilMillis y mo d msOfDay)) as Hp
      by (intros time Ht; apply ParseISO_digits; try done; rewrite digitsLoop_0 by done; by rewrite ?E1).
    split.
    - pose proof (Hp [] ltac:(auto)) as E. unfold withTime in E. rewrite !(decide_True (P := [] = [])), app_nil_r in E by done. rewrite E. unfold read. cbn [mbind option_bind]. repeat case_decide; done || lia.
    - pose proof (Hp hs ltac:(right; by apply ends_digits)) as E. unfold withTime in E. rewrite !(decide_False (P := hs = [])), parseTime_hours in E by done. rewrite E. unfold read. cbn [mbind option_bind]. repeat case_decide; done || lia. }
  destruct (Hs ys ltac:(set_solver)) as [F1 N1]. destruct (Hread y ys F1 N1 eq_refl eq_refl) as [E1 E2]. split; [done|]. split; [done|].
  intros ys' F1' N1' E. destruct (Hread y ys' F1' N1' (to_i64_cong _ _ E) eq_refl) as [-> ->]. by rewrite E1, E2.
Qed.

Lemma ParseISO_wraps_witness : let str := String.list_byte_of_string in
  ParseISO (str "18446744073709553640-01-01"%string) = Some 1704067200000 ∧ ParseISO (str "2024-01-01"%string) = Some 1704067200000 ∧
  ParseISO (str "2024-01-01T5124095576031"%string) = Some (1704067200000 + 2048384).
Proof.
  intros str. destruct (ParseISO_wraps (str "18446744073709553640"%string) (str "01"%string) (str "01"%string) (str "00"%string)) as (E1 & _ & H1).
  { apply Forall_forall. repeat (constructor; [split; [by apply digits_check|done]|]). constructor. }
  destruct (ParseISO_wraps (str "2024"%string) (str "01"%string) (str "01"%string) (str "5124095576031"%string)) as (_ & E2 & _).
  { apply Forall_forall. repeat (constructor; [split; [by apply digits_check|done]|]). constructor. }
  split; [etransitivity; [exact E1|by vm_compute]|].
  split; [etransitivity; [apply (proj1 (H1 (str "2024"%string) ltac:(by apply digits_check) ltac:(done) ltac:(by vm_compute)))|]; etransitivity; [exact E1|by vm_compute]|].
  etransitivity; [exact E2|by vm_compute].
Defined.

Lemma durText_ends y mo w d h mi s : ∃ b l, durText y mo w d h mi s = l ++ [b] ∧ b = Byte.x53.
Proof. unfold durText. rewrite !app_assoc. eauto. Qed.

(** Duration text is read exactly or refused: for all components below 2^63 and any
    sign, the text with all seven components parses to years and months in months,
    weeks and days in days and the rest in milliseconds, negated with a minus sign,
    when these three numbers fit, and is refused when one of them does not. *)
Theorem ParseISODuration_exact (y mo w d h mi s : Z) : (∀ n, n ∈ [y; mo; w; d; h; mi; s] → 0 ≤ n < 9223372036854775808) →
  let months := y * 12 + mo in let days := w * 7 + d in let ms := h * 3600000 + mi * 60000 + s * 1000 in
  let fit := bool_decide (months < 9223372036854775808 ∧ days < 9223372036854775808 ∧ ms < 9223372036854775808) in
  ParseISODuration (Byte.x50 :: durText y mo w d h mi s) = (if fit then Some (months, days, ms) else None) ∧
  ParseISODuration (Byte.x2d :: Byte.x50 :: durText y mo w d h mi s) = (if fit then Some (- months, - days, - ms) else None).
Proof.
  intros Hn months days ms fit. pose proof (durLoop_text y mo w d h mi s Hn) as E. destruct (durText_ends y mo w d h mi s) as (b & l & El & ->).
  assert (durText y mo w d h mi s ≠ []) as Hne by (rewrite El; by destruct l).
  assert (∀ p, 45 ≤ byte.unsigned p ≤ 90 → ∀ q, TrimSpace (p :: q ++ durText y mo w d h mi s) = p :: q ++ durText y mo w d h mi s) as Ht.
  { intros p Hp q. apply TrimSpace_id; [done|]. rewrite El, app_comm_cons, app_assoc, last_snoc. intros c [= <-]. vm_compute. split; discriminate. }
  assert (∀ n, n ∈ [y; mo; w; d; h; mi; s] → 0 ≤ n) as Hpos by (intros n Hin; apply Hn, Hin). assert (0 ≤ y ∧ 0 ≤ mo ∧ 0 ≤ w ∧ 0 ≤ d ∧ 0 ≤ h ∧ 0 ≤ mi ∧ 0 ≤ s) as Hp by (split_and!; apply Hpos; set_solver).
  unfold ParseISODuration. pose proof (Ht Byte.x50 ltac:(vm_compute; split; discriminate) []) as T1. simpl app in T1. pose proof (Ht Byte.x2d ltac:(vm_compute; split; discriminate) [Byte.x50]) as T2. simpl app in T2. rewrite T1, T2.
  change (isAny [Byte.x2b; Byte.x2d] Byte.x50) with false. change (isAny [Byte.x2b; Byte.x2d] Byte.x2d) with true. cbv iota.
  rewrite !(decide_False (P := durText y mo w d h mi s = [] ∨ _)) by (intros [?|Hx]; [done|by vm_compute in Hx]). rewrite E. unfold fit, months, days, ms. case_decide as D.
  - rewrite bool_decide_eq_true_2 by done. cbn [mbind option_bind du_num du_frac du_saw du_months du_days du_ms]. rewrite !(decide_False (P := 0 ≤ -1 ∨ _)) by (intros [?|[?|[=]]]; lia).
    split; [done|]. rewrite bool_decide_eq_true_2 by done. rewrite !wrapS_small by lia. done.
  - by rewrite bool_decide_eq_false_2.
Qed.

Lemma ParseISODuration_exact_witness : ParseISODuration (String.list_byte_of_string "-P1Y2M3W4DT5H6M7S") = Some (-14, -25, -18367000).
Proof.
  destruct (ParseISODuration_exact 1 2 3 4 5 6 7) as [_ H2]; [intros n Hn; rewrite !elem_of_cons in Hn; destruct Hn as [->|[->|[->|[->|[->|[->|[->|Hn]]]]]]]; try lia; by apply not_elem_of_nil in Hn|].
  assert (String.list_byte_of_string "-P1Y2M3W4DT5H6M7S" = Byte.x2d :: Byte.x50 :: durText 1 2 3 4 5 6 7) as -> by (by vm_compute). rewrite H2. by vm_compute.
Defined.
