(* ===== verification/Float64.v ===== *)
(** float64 values as their IEEE 754 bits.

    The runtime values of the query language keep a float64 as the 64 bits of
    [math.Float64bits]. [fval] reads such bits as an integer number of smallest
    subnormals (2^-1074), infinities included as the values next after the largest
    finite ones, so that IEEE comparison of floats that are not NaN is comparison of
    integers; [ofInt] is the conversion [float64(i)] (nearest, ties to even),
    [truncBits] is [math.Trunc] and [toInt] the conversion [int64(f)]. Out of range
    Go leaves the result of that conversion to the implementation: it is the
    parameter [oor], and no theorem depends on it. *)

From S2P Require Import Prelude Cost.

(** The bits without the sign. *)
Definition absBits (b : Z) : Z := b `mod` 2 ^ 63.
Definition signBit (b : Z) : bool := bool_decide (2 ^ 63 ≤ b).

(** 1.0 in smallest subnormals. *)
Definition f64one : Z := 2 ^ 1074.

Definition mag (m : Z) : Z := if decide (m < 2 ^ 52) then m else (2 ^ 52 + m `mod` 2 ^ 52) * 2 ^ (m / 2 ^ 52 - 1).
Definition fval (b : Z) : Z := if signBit b then - mag (absBits b) else mag (absBits b).

Definition infBits : Z := 2047 * 2 ^ 52.
Definition isNaN (b : Z) : bool := bool_decide (infBits < absBits b).

(** The comparisons of Go: false when a side is NaN. *)
Definition flt (x y : Z) : bool := negb (isNaN x) && negb (isNaN y) && bool_decide (fval x < fval y).
Definition feq (x y : Z) : bool := negb (isNaN x) && negb (isNaN y) && bool_decide (fval x = fval y).
Definition fle (x y : Z) : bool := negb (isNaN x) && negb (isNaN y) && bool_decide (fval x ≤ fval y).

(** The bits of a magnitude with at most 53 significant bits. *)
Definition magBits (u : Z) : Z :=
  if decide (u < 2 ^ 52) then u else let k := Z.log2 u - 52 in (k + 1) * 2 ^ 52 + (u / 2 ^ k - 2 ^ 52).

(** [float64(i)] of an int64. *)
Definition ofInt (i : Z) : Z :=
  let m := magBits (round (Z.abs i * f64one)) in if decide (i < 0) then 2 ^ 63 + m else m.

(** [math.Trunc]: clear the bits below the units. *)
Definition truncBits (b : Z) : Z :=
  let m := absBits b in
  let e := m / 2 ^ 52 in
  if decide (e < 1023) then b - m
  else if decide (1075 ≤ e) then b
  else b - m `mod` 2 ^ (1075 - e).

(** [int64(f)]. *)
Definition toInt (oor : Z → Z) (b : Z) : Z :=
  let t := Z.quot (fval b) f64one in
  if isNaN b then oor b else if decide (is_i64 t) then t else oor b.

(** An integral value. *)
Definition integral (b : Z) : Prop := fval b `mod` f64one = 0.
#[export] Instance integral_dec b : Decision (integral b).
Proof. unfold integral. apply _. Defined.

(** ** Magnitudes *)

Lemma absBits_range b : 0 ≤ absBits b < 2 ^ 63.
Proof. unfold absBits. apply Z.mod_pos_bound. lia. Qed.

Lemma absBits_signed b : is_u64 b → b = (if signBit b then 2 ^ 63 else 0) + absBits b.
Proof.
  intros Hb. unfold signBit, absBits. case_bool_decide.
  - rewrite <- (Zmod_unique b (2 ^ 63) 1 (b - 2 ^ 63)); lia.
  - rewrite Z.mod_small; lia.
Qed.

Lemma mag_nonneg m : 0 ≤ m → 0 ≤ mag m.
Proof.
  intros Hm. unfold mag. case_decide; [done|]. pose proof (Z.mod_pos_bound m (2 ^ 52) ltac:(lia)).
  assert (0 ≤ 2 ^ (m / 2 ^ 52 - 1)) by (apply Z.pow_nonneg; lia). nia.
Qed.

Lemma mag_split m : 2 ^ 52 ≤ m → ∃ s e, 2 ^ 52 ≤ s < 2 ^ 53 ∧ 0 ≤ e ∧ m = (e + 1) * 2 ^ 52 + (s - 2 ^ 52) ∧ mag m = s * 2 ^ e.
Proof.
  intros Hm. exists (2 ^ 52 + m `mod` 2 ^ 52), (m / 2 ^ 52 - 1). pose proof (Z.mod_pos_bound m (2 ^ 52) ltac:(lia)).
  pose proof (Z.div_mod m (2 ^ 52) ltac:(lia)). assert (1 ≤ m / 2 ^ 52) by (apply Z.div_le_lower_bound; lia).
  unfold mag. rewrite decide_False by lia. repeat split; lia.
Qed.

Lemma mag_representable m : 0 ≤ m → representable (mag m).
Proof.
  intros Hm. destruct (decide (m < 2 ^ 52)).
  - exists m, 0. unfold mag. rewrite decide_True by done. lia.
  - destruct (mag_split m ltac:(lia)) as (s & e & Hs & He & _ & ->). exists s, e. lia.
Qed.

(** Magnitudes grow with their bits. *)
Lemma mag_lt m n : 0 ≤ m < n → mag m < mag n.
Proof.
  intros Hmn. destruct (decide (n < 2 ^ 52)).
  { unfold mag. rewrite !decide_True by lia. lia. }
  destruct (mag_split n ltac:(lia)) as (t & e & Ht & He & En & ->). pose proof (pow_pos e He).
  destruct (decide (m < 2 ^ 52)).
  { unfold mag. rewrite decide_True by done. nia. }
  destruct (mag_split m ltac:(lia)) as (s & d & Hs & Hd & Em & ->). destruct (decide (d = e)) as [->|]; [apply Z.mul_lt_mono_pos_r; lia|].
  assert (d < e) by lia. replace e with (d + 1 + (e - d - 1)) by lia. rewrite !Z.pow_add_r by lia.
  pose proof (pow_pos d Hd). pose proof (pow_pos (e - d - 1) ltac:(lia)). change (2 ^ 1) with 2.
  apply Z.lt_le_trans with (2 ^ 53 * 2 ^ d); [apply Z.mul_lt_mono_pos_r; lia|].
  apply Z.le_trans with (t * (2 ^ d * 2)).
  { change (2 ^ 53) with (2 ^ 52 * 2). rewrite <- !(Z.mul_comm (2 ^ d * 2)), <- Z.mul_assoc, (Z.mul_comm 2). rewrite Z.mul_comm. apply Z.mul_le_mono_nonneg_l; lia. }
  apply Z.mul_le_mono_nonneg_l; [lia|]. rewrite <- (Z.mul_1_r (2 ^ d * 2)) at 1. apply Z.mul_le_mono_nonneg_l; lia.
Qed.

Lemma mag_inj m n : 0 ≤ m → 0 ≤ n → mag m = mag n → m = n.
Proof.
  intros Hm Hn E. destruct (Z.lt_trichotomy m n) as [L|[|L]]; [|done|]; [pose proof (mag_lt m n)|pose proof (mag_lt n m)]; lia.
Qed.

Lemma magBits_nonneg u : 0 ≤ u → 0 ≤ magBits u.
Proof.
  intros Hu. unfold magBits. case_decide as D; [done|]. cbv zeta. destruct (Z.log2_spec u ltac:(lia)) as [Hl Hh].
  assert (52 ≤ Z.log2 u) as H52 by (change 52 with (Z.log2 (2 ^ 52)); apply Z.log2_le_mono; lia).
  assert (2 ^ 52 ≤ u / 2 ^ (Z.log2 u - 52)); [|nia]. apply Z.div_le_lower_bound; [apply pow_pos; lia|].
  rewrite <- Z.pow_add_r by lia. by replace (Z.log2 u - 52 + 52) with (Z.log2 u) by lia.
Qed.

Lemma mag_magBits u : 0 ≤ u → representable u → mag (magBits u) = u.
Proof.
  intros Hu (m & j & Hm & Hj & E). unfold magBits. case_decide as D; [unfold mag; by rewrite decide_True by done|]. cbv zeta.
  destruct (Z.log2_spec u ltac:(lia)) as [Hl Hh]. rewrite Z.pow_succ_r in Hh by (apply Z.log2_nonneg).
  assert (52 ≤ Z.log2 u) as H52 by (change 52 with (Z.log2 (2 ^ 52)); apply Z.log2_le_mono; lia).
  set (k := Z.log2 u - 52) in *. assert (2 ^ Z.log2 u = 2 ^ 52 * 2 ^ k) as Ek by (rewrite <- Z.pow_add_r by lia; f_equal; lia).
  pose proof (pow_pos k ltac:(lia)) as Hk. rewrite Ek in Hl, Hh.
  assert ((2 ^ k | u)) as [q Eq].
  { assert (k ≤ j) as Hkj.
    { destruct (decide (k ≤ j)); [done|]. exfalso. assert (2 ^ j * 2 ≤ 2 ^ k).
      { replace (2 ^ j * 2) with (2 ^ (j + 1)) by (by rewrite Z.pow_add_r by lia). apply Z.pow_le_mono_r; lia. }
      pose proof (pow_pos j Hj). nia. }
    exists (m * 2 ^ (j - k)). rewrite E, <- Z.mul_assoc, <- Z.pow_add_r by lia. do 2 f_equal. lia. }
  assert (u / 2 ^ k = q) as -> by (rewrite Eq; apply Z.div_mul; lia).
  assert (2 ^ 52 ≤ q < 2 ^ 53) as Hq by nia.
  unfold mag. rewrite decide_False by nia. replace ((k + 1) * 2 ^ 52 + (q - 2 ^ 52)) with ((q - 2 ^ 52) + (k + 1) * 2 ^ 52) by lia.
  rewrite Z.mod_add, Z.div_add, Z.mod_small, Z.div_small by lia. rewrite Eq. replace (0 + (k + 1) - 1) with k by lia. lia.
Qed.

Lemma magBits_mag m : 0 ≤ m → magBits (mag m) = m.
Proof.
  intros Hm. apply mag_inj; [apply magBits_nonneg; by apply mag_nonneg|done|]. apply mag_magBits; [by apply mag_nonneg|by apply mag_representable].
Qed.

Lemma magBits_lt u w : 0 ≤ u → representable u → 0 ≤ w → u < mag w → magBits u < w.
Proof.
  intros Hu Hr Hw L. pose proof (magBits_nonneg u Hu). destruct (decide (magBits u < w)) as [|G]; [done|]. exfalso.
  pose proof (mag_magBits u Hu Hr) as E. destruct (decide (w = magBits u)) as [->|]; [lia|]. pose proof (mag_lt w (magBits u)). lia.
Qed.

(** The value of a float determines its bits up to the sign of zero. *)
Lemma fval_inj x y : is_u64 x → is_u64 y → fval x = fval y → x = y ∨ (fval x = 0 ∧ absBits x = 0 ∧ absBits y = 0).
Proof.
  intros Hx Hy E. pose proof (absBits_range x) as Rx. pose proof (absBits_range y) as Ry.
  pose proof (absBits_signed x Hx) as Sx. pose proof (absBits_signed y Hy) as Sy.
  pose proof (mag_nonneg (absBits x)). pose proof (mag_nonneg (absBits y)).
  assert (∀ m, 0 ≤ m → mag m = 0 → m = 0) as Hz.
  { intros m Hm E0. destruct (decide (m = 0)); [done|]. pose proof (mag_lt 0 m ltac:(lia)). unfold mag in *. rewrite decide_True in * by lia. lia. }
  unfold fval in *. destruct (signBit x), (signBit y).
  - left. rewrite Sx, Sy. f_equal. apply mag_inj; lia.
  - right. assert (mag (absBits x) = 0) as Ex by lia. assert (mag (absBits y) = 0) as Ey by lia. rewrite Ex, (Hz _ (proj1 Rx) Ex), (Hz _ (proj1 Ry) Ey). done.
  - right. assert (mag (absBits x) = 0) as Ex by lia. assert (mag (absBits y) = 0) as Ey by lia. rewrite Ex, (Hz _ (proj1 Rx) Ex), (Hz _ (proj1 Ry) Ey). done.
  - left. rewrite Sx, Sy. f_equal. apply mag_inj; lia.
Qed.

(** ** Integers as floats *)

Lemma round_nonneg u : 0 ≤ u → 0 ≤ round u.
Proof. intros Hu. change 0 with (round 0). apply round_mono. lia. Qed.

Lemma f64one_pos : 0 < f64one.
Proof. apply pow_pos. lia. Qed.

(** The magnitude of a converted int64. *)
Lemma ofInt_shape i : is_i64 i → let m := magBits (round (Z.abs i * f64one)) in
  0 ≤ m < infBits ∧ absBits (ofInt i) = m ∧ signBit (ofInt i) = bool_decide (i < 0) ∧ is_u64 (ofInt i).
Proof.
  intros Hi. cbv zeta. set (u := Z.abs i * f64one). pose proof f64one_pos as Hu. assert (0 ≤ u) as Hu0 by (unfold u; nia).
  assert (round u ≤ 2 ^ 63 * f64one) as Hle.
  { rewrite <- (round_fixed (2 ^ 63 * f64one)).
    - apply round_mono. unfold u. nia.
    - exists 1, (63 + 1074). unfold f64one. rewrite <- Z.pow_add_r by lia. lia. }
  assert (0 ≤ round u) as Hr0 by (apply round_nonneg; done).
  assert (magBits (round u) < infBits) as Hlt.
  { apply magBits_lt; [done|by apply round_representable|by vm_compute|]. eapply Z.le_lt_trans; [exact Hle|]. by vm_compute. }
  pose proof (magBits_nonneg (round u) Hr0) as Hm0. assert (infBits < 2 ^ 63) as Hinf by (by vm_compute).
  unfold ofInt. fold u. cbv zeta. set (m := magBits (round u)) in *. repeat split; try lia.
  - unfold absBits. case_decide; [symmetry; apply (Zmod_unique _ _ 1); lia|apply Z.mod_small; lia].
  - unfold signBit. case_decide as D; case_bool_decide; try lia; [by rewrite bool_decide_true|by rewrite bool_decide_false by lia].
  - case_decide; lia.
  - case_decide; lia.
Qed.

Lemma ofInt_u64 i : is_i64 i → is_u64 (ofInt i).
Proof. intros Hi. by destruct (ofInt_shape i Hi) as (_ & _ & _ & ?). Qed.

Lemma ofInt_not_nan i : is_i64 i → isNaN (ofInt i) = false.
Proof. intros Hi. destruct (ofInt_shape i Hi) as (? & E & _). unfold isNaN. rewrite E. apply bool_decide_false. lia. Qed.

Lemma fval_ofInt i : is_i64 i → fval (ofInt i) = Z.sgn i * round (Z.abs i * f64one).
Proof.
  intros Hi. destruct (ofInt_shape i Hi) as (_ & E & S & _). unfold fval. rewrite E, S. pose proof f64one_pos.
  rewrite mag_magBits by (try apply round_nonneg; try apply round_representable; nia).
  case_bool_decide; [rewrite Z.sgn_neg by done; lia|]. destruct (decide (i = 0)) as [->|]; [done|]. rewrite Z.sgn_pos; lia.
Qed.

(** A value that has a float64 converts to it. *)
Lemma fval_ofInt_exact i : is_i64 i → representable (Z.abs i * f64one) → fval (ofInt i) = i * f64one.
Proof. intros Hi Hr. rewrite fval_ofInt, round_fixed by done. rewrite Z.mul_assoc. f_equal. lia. Qed.

Lemma representable_small i : -2 ^ 53 ≤ i ≤ 2 ^ 53 → representable (Z.abs i * f64one).
Proof.
  intros Hi. destruct (decide (Z.abs i = 2 ^ 53)) as [->|].
  - exists 1, (53 + 1074). unfold f64one. rewrite Z.pow_add_r by lia. lia.
  - exists (Z.abs i), 1074. unfold f64one. lia.
Qed.

Lemma representable_fval b : representable (Z.abs (fval b)).
Proof.
  pose proof (absBits_range b). pose proof (mag_nonneg (absBits b)). pose proof (mag_representable (absBits b)).
  unfold fval. destruct (signBit b); [rewrite Z.abs_opp|]; rewrite Z.abs_eq by lia; auto with lia.
Qed.

Lemma fval_ofInt_small i : -2 ^ 53 ≤ i ≤ 2 ^ 53 → fval (ofInt i) = i * f64one.
Proof. intros Hi. apply fval_ofInt_exact; [lia|by apply representable_small]. Qed.

(** An integral float is the float of its integer. *)
Lemma fval_ofInt_integral i b : is_i64 i → fval b = i * f64one → fval (ofInt i) = fval b.
Proof.
  intros Hi E. rewrite E. apply fval_ofInt_exact; [done|]. pose proof (representable_fval b) as Hr. rewrite E, Z.abs_mul in Hr.
  by rewrite (Z.abs_eq f64one) in Hr by (pose proof f64one_pos; lia).
Qed.

(** Conversion to float64 is monotone. *)
Lemma fval_ofInt_mono i j : is_i64 i → is_i64 j → i ≤ j → fval (ofInt i) ≤ fval (ofInt j).
Proof.
  intros Hi Hj L. rewrite !fval_ofInt by done. pose proof f64one_pos.
  pose proof (round_nonneg (Z.abs i * f64one)). pose proof (round_nonneg (Z.abs j * f64one)).
  destruct (Z.lt_trichotomy i 0) as [Ni|[->|Pi]], (Z.lt_trichotomy j 0) as [Nj|[->|Pj]]; try lia;
    rewrite ?(Z.sgn_neg i), ?(Z.sgn_neg j), ?(Z.sgn_pos i), ?(Z.sgn_pos j) by done; try (simpl; nia).
  - pose proof (round_mono (Z.abs j * f64one) (Z.abs i * f64one)). nia.
  - pose proof (round_mono (Z.abs i * f64one) (Z.abs j * f64one)). nia.
Qed.

(** ** Truncation *)

Lemma mag_small m : 0 ≤ m < 1023 * 2 ^ 52 → mag m < f64one.
Proof. intros Hm. pose proof (mag_lt m (1023 * 2 ^ 52) Hm) as L. by replace (mag (1023 * 2 ^ 52)) with f64one in L by (by vm_compute). Qed.

Lemma mod_zero_iff m : 0 ≤ m < f64one → m `mod` f64one = 0 ↔ m = 0.
Proof. intros Hm. by rewrite Z.mod_small. Qed.

Lemma opp_mod_zero a n : 0 < n → (- a) `mod` n = 0 ↔ a `mod` n = 0.
Proof.
  intros Hn. split; intros H; [rewrite <- (Z.opp_involutive a)|]; apply Z.mod_opp_l_z; lia.
Qed.

Lemma integral_mag b : integral b ↔ mag (absBits b) `mod` f64one = 0.
Proof. unfold integral, fval. destruct (signBit b); [apply opp_mod_zero, f64one_pos|done]. Qed.

(** Clearing low bits keeps the sign and lowers the magnitude bits. *)
Lemma clear_low b c : is_u64 b → 0 ≤ c ≤ absBits b → absBits (b - c) = absBits b - c ∧ signBit (b - c) = signBit b.
Proof.
  intros Hb Hc. pose proof (absBits_range b). pose proof (absBits_signed b Hb) as S.
  unfold signBit in *. case_bool_decide.
  - split; [|apply bool_decide_true; lia]. unfold absBits at 1. symmetry. apply (Zmod_unique _ _ 1); lia.
  - split; [|apply bool_decide_false; lia]. unfold absBits at 1. rewrite Z.mod_small; lia.
Qed.

(** A significand at an exponent below the units. *)
Lemma mag_mid m : 1023 ≤ m / 2 ^ 52 < 1075 → let k := 1075 - m / 2 ^ 52 in let r := m `mod` 2 ^ k in
  (mag m `mod` f64one = 0 ↔ r = 0) ∧ (mag (m - r) = mag m ↔ r = 0) ∧ 0 ≤ r ≤ m.
Proof.
  intros He. cbv zeta. set (k := 1075 - m / 2 ^ 52). set (r := m `mod` 2 ^ k). pose proof (pow_pos k ltac:(lia)) as Hk.
  pose proof (Z.mod_pos_bound m (2 ^ k) Hk) as Hr. fold r in Hr.
  assert (2 ^ 52 ≤ m) as Hm by (pose proof (Z.div_mod m (2 ^ 52)); pose proof (Z.mod_pos_bound m (2 ^ 52)); lia).
  assert (r ≤ m) as Hrm by (apply Z.mod_le; lia).
  assert (∃ e, 0 ≤ e ∧ mag m `mod` f64one = r * 2 ^ e) as (e & He0 & ->).
  { destruct (mag_split m Hm) as (s & e & Hs & Ee & Em & ->). exists e. split; [done|].
    assert (m / 2 ^ 52 = e + 1) as Ed by (symmetry; apply (Z.div_unique _ _ _ (s - 2 ^ 52)); lia).
    assert (f64one = 2 ^ k * 2 ^ e) as -> by (unfold f64one, k; rewrite Ed, <- Z.pow_add_r by lia; f_equal; lia).
    pose proof (pow_pos e Ee). rewrite Z.mul_mod_distr_r by lia. f_equal. unfold r. rewrite Em.
    replace ((e + 1) * 2 ^ 52 + (s - 2 ^ 52)) with (s + e * 2 ^ (52 - k) * 2 ^ k); [by rewrite Z.mod_add by lia|].
    rewrite <- Z.mul_assoc, <- Z.pow_add_r by lia. replace (52 - k + k) with 52 by lia. lia. }
  pose proof (pow_pos e He0). split; [nia|]. split; [|lia]. split; [|intros ->; f_equal; lia]. intros E. apply mag_inj in E; lia.
Qed.

Lemma truncBits_spec b : is_u64 b → feq b (truncBits b) = negb (isNaN b) && bool_decide (integral b).
Proof.
  intros Hb. pose proof (absBits_range b) as Hm. unfold feq, truncBits. set (m := absBits b) in *.
  assert (∃ c, 0 ≤ c ≤ m ∧ (fval (b - c) = fval b ↔ integral b) ∧
    (if decide (m / 2 ^ 52 < 1023) then b - m else if decide (1075 ≤ m / 2 ^ 52) then b else b - m `mod` 2 ^ (1075 - m / 2 ^ 52)) = b - c) as (c & Hc & Hv & ->).
  { pose proof (integral_mag b) as Hi. fold m in Hi. setoid_rewrite Hi. case_decide as D1; [|case_decide as D2].
    - exists m. destruct (clear_low b m Hb ltac:(subst m; lia)) as [Ea Es]. split; [lia|]. split; [|done].
      assert (m < 1023 * 2 ^ 52) by (pose proof (Z.div_mod m (2 ^ 52)); pose proof (Z.mod_pos_bound m (2 ^ 52)); lia).
      pose proof (mag_nonneg m). rewrite mod_zero_iff by (split; [lia|apply mag_small; lia]). unfold fval. rewrite Ea, Es. fold m.
      replace (m - m) with 0 by lia. change (mag 0) with 0. destruct (signBit b); lia.
    - exists 0. replace (b - 0) with b by lia. split; [lia|]. split; [|done]. split; [intros _|done].
      assert (2 ^ 52 ≤ m) as Hm52 by (pose proof (Z.div_mod m (2 ^ 52)); pose proof (Z.mod_pos_bound m (2 ^ 52)); lia).
      destruct (mag_split m Hm52) as (s & e & Hs & Ee & Em & ->). assert (m / 2 ^ 52 = e + 1) as Ed by (symmetry; apply (Z.div_unique _ _ _ (s - 2 ^ 52)); lia).
      apply Z.mod_divide; [pose proof f64one_pos; lia|]. exists (s * 2 ^ (e - 1074)). unfold f64one. rewrite <- Z.mul_assoc, <- Z.pow_add_r by lia. do 2 f_equal. lia.
    - destruct (mag_mid m ltac:(lia)) as (H1 & H2 & H3). exists (m `mod` 2 ^ (1075 - m / 2 ^ 52)). split; [done|]. split; [|done].
      destruct (clear_low b _ Hb H3) as [Ea Es]. rewrite H1, <- H2. unfold fval. rewrite Ea, Es. fold m. destruct (signBit b); lia. }
  destruct (isNaN b) eqn:N; [done|]. assert (isNaN (b - c) = false) as ->.
  { unfold isNaN in *. destruct (clear_low b c Hb Hc) as [-> _]. apply bool_decide_eq_false in N. apply bool_decide_false. fold m in N. fold m. lia. }
  cbn. apply bool_decide_ext. rewrite <- Hv. done.
Qed.

(** The conversion of an integral float in range is its integer. *)
Lemma toInt_integral oor b i : is_i64 i → isNaN b = false → fval b = i * f64one → toInt oor b = i.
Proof.
  intros Hi N E. unfold toInt. rewrite N, E, Z.quot_mul by (pose proof f64one_pos; lia). by rewrite decide_True.
Qed.
