(* ===== verification/GqlValue.v ===== *)
(** Runtime values of the query language (gql/value: value.go, compare.go,
    groupkey.go).

    A [gvalue] is the tagged union of value.go: the payload word [num] of a scalar is
    kept at its type (an int64, the bits of a float64, a node id), and the accessors
    [num], [aux], [str], [list], [entries] read a value the way the code reads the
    fields of its struct. Comparison is three-valued ([Compare], [None] when the code
    reports not ok); [OrderCmp] is the order of ORDER BY; [AppendKey] is the byte
    encoding that DISTINCT and grouping use as a map key.

    Entries of a map are visited in key order in two places. [keySorted] returns the
    entries themselves instead of their indices, and is generic in the values, so
    that the recursive calls can be made before sorting: sorting looks at keys only.
    sort.Slice leaves the order of equal keys open; with distinct keys, which
    well-formed values have, the order is determined. *)

From S2P Require Import Prelude AtomTable Float64 TemporalText.

#[local] Unset Elimination Schemes.
Inductive gvalue :=
| Null
| Bool (b : bool)
| Int (i : Z)
| Float (bits : Z)
| Str (s : gostring)
| List (vs : list gvalue)
| Node (id : Z)
| Rel (pos : Z)
| Path (nodes rels : list Z)
| Map (es : list (gostring * gvalue))
| Temporal (millis : Z) (k : TemporalKind)
| Duration (months days millis : Z).

(** Induction with a hypothesis for every element of a list and every value of a map. *)
Section gvalue_ind.
  Variable P : gvalue → Prop.
  Hypothesis HNull : P Null.
  Hypothesis HBool : ∀ b, P (Bool b).
  Hypothesis HInt : ∀ i, P (Int i).
  Hypothesis HFloat : ∀ f, P (Float f).
  Hypothesis HStr : ∀ s, P (Str s).
  Hypothesis HList : ∀ vs, Forall P vs → P (List vs).
  Hypothesis HNode : ∀ n, P (Node n).
  Hypothesis HRel : ∀ n, P (Rel n).
  Hypothesis HPath : ∀ ns rs, P (Path ns rs).
  Hypothesis HMap : ∀ es, Forall (λ e, P e.2) es → P (Map es).
  Hypothesis HTemporal : ∀ m k, P (Temporal m k).
  Hypothesis HDuration : ∀ m d l, P (Duration m d l).

Fixpoint gvalue_ind (v : gvalue) : P v :=
    match v with
    | Null => HNull
    | Bool b => HBool b
    | Int i => HInt i
    | Float f => HFloat f
    | Str s => HStr s
    | List vs => HList vs ((fix go l := match l return Forall P l with
        | [] => Forall_nil_2 _ | x :: l => Forall_cons_2 _ x l (gvalue_ind x) (go l) end) vs)
    | Node n => HNode n
    | Rel n => HRel n
    | Path ns rs => HPath ns rs
    | Map es => HMap es ((fix go l := match l return Forall (λ e, P e.2) l with
        | [] => Forall_nil_2 _ | x :: l => Forall_cons_2 _ x l (gvalue_ind x.2) (go l) end) es)
    | Temporal m k => HTemporal m k
    | Duration m d l => HDuration m d l
    end.
End gvalue_ind.

(** ** The fields of the struct *)

Definition kindCode (k : TemporalKind) : Z := match k with Date => 0 | DateTime => 1 | LocalDateTime => 2 end.
Definition num (v : gvalue) : Z :=
  match v with
  | Bool b => if b then 1 else 0
  | Int i => to_u64 i
  | Float f => f
  | Node n | Rel n => n
  | Temporal ms _ | Duration _ _ ms => to_u64 ms
  | _ => 0
  end.
(** [int64(v.num)] of the kinds that store an int64. *)
Definition inum (v : gvalue) : Z := match v with Int i => i | Temporal ms _ | Duration _ _ ms => ms | _ => 0 end.
Definition aux (v : gvalue) : Z := match v with Temporal _ k => kindCode k | _ => 0 end.
Definition str (v : gvalue) : gostring := match v with Str s => s | _ => [] end.
Definition list (v : gvalue) : Datatypes.list gvalue := match v with List vs => vs | _ => [] end.
Definition entries (v : gvalue) : Datatypes.list (gostring * gvalue) := match v with Map es => es | _ => [] end.
Definition nodes (v : gvalue) : Datatypes.list Z := match v with Path ns _ => ns | _ => [] end.
Definition rels (v : gvalue) : Datatypes.list Z := match v with Path _ rs => rs | _ => [] end.
Definition months (v : gvalue) : Z := match v with Duration m _ _ => m | _ => 0 end.
Definition days (v : gvalue) : Z := match v with Duration _ d _ => d | _ => 0 end.

Definition IsNull (v : gvalue) : bool := match v with Null => true | _ => false end.
Definition IsTruthy (v : gvalue) : bool := match v with Bool b => b | _ => false end.
Definition AsInt (v : gvalue) : option Z := match v with Int i => Some i | _ => None end.
Definition asNum (v : gvalue) : option Z :=
  match v with Int i => Some (ofInt i) | Float f => Some f | _ => None end.

(** The other numeric spelling of a value; [oor] is what [int64] gives out of range. *)
Definition maxExact : Z := 2 ^ 53.
Definition NumericTwin (oor : Z → Z) (v : gvalue) : option gvalue :=
  match v with
  | Int i => if decide (- maxExact ≤ i ≤ maxExact) then Some (Float (ofInt i)) else None
  | Float f =>
      if feq f (ofInt (toInt oor f)) && fle (ofInt (- maxExact)) f && fle f (ofInt maxExact)
      then Some (Int (toInt oor f)) else None
  | _ => None
  end.

(** ** Comparison helpers *)

Definition cmpInt (a b : Z) : Z := if decide (a < b) then -1 else if decide (b < a) then 1 else 0.
Definition cmpUint (a b : Z) : Z := if decide (a < b) then -1 else if decide (b < a) then 1 else 0.

(** Go's order of strings: bytewise, a prefix first. *)
Definition strLt (a b : gostring) : bool := negb (strLe b a).
Definition cmpStr (a b : gostring) : Z := if strLt a b then -1 else if strLt b a then 1 else 0.

(** cmpSlices: lexicographic, then by length. *)
Fixpoint cmpCommon (x y : Datatypes.list Z) : Z :=
  match x, y with
  | a :: x, b :: y => let c := cmpUint a b in if decide (c ≠ 0) then c else cmpCommon x y
  | _, _ => 0
  end.
Definition cmpSlices (x y : Datatypes.list Z) : Z :=
  let c := cmpCommon x y in if decide (c ≠ 0) then c else cmpInt (len x) (len y).
Definition slicesEqual (x y : Datatypes.list Z) : bool := bool_decide (x = y).

(** ** Three-valued comparison *)

Section with_cmp.
  Variable A : Type.
  Variable cmp : A → gvalue → option Z.

  (** compareLists: the first pair that differs or does not compare decides. *)
Fixpoint compareCommon (x : Datatypes.list A) (y : Datatypes.list gvalue) : option Z :=
    match x, y with
    | a :: x, b :: y =>
        match cmp a b with
        | None => None
        | Some c => if decide (c ≠ 0) then Some c else compareCommon x y
        end
    | _, _ => Some 0
    end.
Definition compareLists (x : Datatypes.list A) (y : Datatypes.list gvalue) : option Z :=
    c ← compareCommon x y; if decide (c ≠ 0) then Some c else Some (cmpInt (len x) (len y)).

Definition equalBy (a : A) (b : gvalue) : bool := bool_decide (cmp a b = Some 0).

  (** The first entry of a key decides. *)
Definition findKey {B} (k : gostring) (y : Datatypes.list (gostring * B)) : option B :=
    snd <$> List.find (λ f, bool_decide (f.1 = k)) y.

  (** mapsEqual: same size, and every entry of the first has an equal one in the second. *)
Definition entryFound (y : Datatypes.list (gostring * gvalue)) (e : gostring * A) : bool :=
    match findKey e.1 y with Some v => equalBy e.2 v | None => false end.
Definition mapsEqual (x : Datatypes.list (gostring * A)) (y : Datatypes.list (gostring * gvalue)) : bool :=
    bool_decide (len x = len y) && forallb (entryFound y) x.
End with_cmp.
Arguments compareCommon {A} cmp x y.
Arguments compareLists {A} cmp x y.
Arguments equalBy {A} cmp a b.
Arguments entryFound {A} cmp y e.
Arguments mapsEqual {A} cmp x y.

Definition compareNums (x y : Z) : option Z :=
  if flt x y then Some (-1) else if flt y x then Some 1 else if feq x y then Some 0 else None.

Fixpoint Compare (a b : gvalue) {struct a} : option Z :=
  match a, b with
  | Null, _ | _, Null => None
  | Bool _, Bool _ => Some (cmpUint (num a) (num b))
  | Str s, Str t => Some (cmpStr s t)
  | Node _, Node _ | Rel _, Rel _ => Some (cmpUint (num a) (num b))
  | List x, List y => compareLists Compare x y
  | Map x, Map y => if mapsEqual Compare x y then Some 0 else None
  | Path ns rs, Path ns' rs' => if slicesEqual ns ns' && slicesEqual rs rs' then Some 0 else None
  | Temporal t _, Temporal u _ | Temporal t _, Int u | Int t, Temporal u _ => Some (cmpInt t u)
  | Duration m d l, Duration m' d' l' => if bool_decide (m = m' ∧ d = d' ∧ l = l') then Some 0 else None
  | _, _ => x ← asNum a; y ← asNum b; compareNums x y
  end.
Definition Equal (a b : gvalue) : bool := equalBy Compare a b.

(** ** Kleene logic *)

Definition ThreeValued (v : gvalue) : bool * bool :=
  match v with Bool b => (b, true) | Null => (false, false) | _ => (false, true) end.
Definition KleeneAnd (l lknown r rknown : bool) : gvalue :=
  if (lknown && negb l) || (rknown && negb r) then Bool false
  else if lknown && rknown then Bool true else Null.
Definition KleeneOr (l lknown r rknown : bool) : gvalue :=
  if (lknown && l) || (rknown && r) then Bool true
  else if lknown && rknown then Bool false else Null.

(** ** The order of ORDER BY *)

Definition orderRank (v : gvalue) : Z :=
  match v with
  | Bool _ => 0 | Int _ | Float _ => 1 | Str _ => 2 | List _ => 3 | Node _ => 4 | Rel _ => 5
  | Path _ _ => 6 | Map _ => 7 | Temporal _ _ => 8 | Duration _ _ _ => 9 | Null => 255
  end.

(** A NaN, for a value that is no number. *)
Definition nanBits : Z := 9221120237041090561.
Definition orderNum (v : gvalue) : Z := default nanBits (asNum v).

Definition MaxInt64 : Z := 9223372036854775807.
Definition totalKey (b : Z) : Z :=
  let xb := to_i64 b in Z.lxor xb (Z.land (Z.shiftr xb 63) MaxInt64).
Definition totalCmpF64 (x y : Z) : Z := cmpInt (totalKey x) (totalKey y).

(** Entries in ascending key order. *)
Definition keyLe {A} (e f : gostring * A) : Prop := strLe e.1 f.1 = true.
#[export] Instance keyLe_dec A : RelDecision (@keyLe A).
Proof. intros e f. unfold keyLe. apply _. Defined.
Definition keySorted {A} (m : Datatypes.list (gostring * A)) : Datatypes.list (gostring * A) := merge_sort keyLe m.

Section with_order.
  Variable A B : Type.
  Variable ord : A → B → Z.
Fixpoint orderCommon (x : Datatypes.list A) (y : Datatypes.list B) : Z :=
    match x, y with
    | a :: x, b :: y => let c := ord a b in if decide (c ≠ 0) then c else orderCommon x y
    | _, _ => 0
    end.
Definition orderLists (x : Datatypes.list A) (y : Datatypes.list B) : Z :=
    let c := orderCommon x y in if decide (c ≠ 0) then c else cmpInt (len x) (len y).
End with_order.
Arguments orderCommon {A B} ord x y.
Arguments orderLists {A B} ord x y.

(** mapOrder, on entries that carry the comparison with their value. *)
Definition entryOrder (ex : gostring * (gvalue → Z)) (ey : gostring * gvalue) : Z :=
  let c := cmpStr ex.1 ey.1 in if decide (c ≠ 0) then c else ex.2 ey.2.
Definition mapOrder (x : Datatypes.list (gostring * (gvalue → Z))) (y : Datatypes.list (gostring * gvalue)) : Z :=
  orderLists entryOrder (keySorted x) (keySorted y).

Fixpoint OrderCmp (a b : gvalue) {struct a} : Z :=
  if decide (orderRank a ≠ orderRank b) then cmpInt (orderRank a) (orderRank b)
  else match a with
  | Null => 0
  | Bool _ => cmpUint (num a) (num b)
  | Int _ | Float _ => totalCmpF64 (orderNum a) (orderNum b)
  | Str s => cmpStr s (str b)
  | List x => orderLists OrderCmp x (list b)
  | Node _ | Rel _ => cmpUint (num a) (num b)
  | Path ns rs => let c := cmpSlices ns (nodes b) in if decide (c ≠ 0) then c else cmpSlices rs (rels b)
  | Map x => mapOrder (map (λ e, (e.1, OrderCmp e.2)) x) (entries b)
  | Temporal ms k =>
      let c := cmpInt ms (inum b) in if decide (c ≠ 0) then c else cmpInt (kindCode k) (aux b)
  | Duration m d l =>
      let c := cmpInt m (months b) in
      if decide (c ≠ 0) then c else
      let c := cmpInt d (days b) in
      if decide (c ≠ 0) then c else cmpInt l (inum b)
  end.

(** ** Bit-exact identity *)

Section identical_by.
  Variable A : Type.
  Variable same : A → gvalue → bool.
Fixpoint identicalElems (x : Datatypes.list A) (y : Datatypes.list gvalue) : bool :=
    match x, y with
    | a :: x, b :: y => same a b && identicalElems x y
    | _, _ => true
    end.
Fixpoint identicalEntries (x : Datatypes.list (gostring * A)) (y : Datatypes.list (gostring * gvalue)) : bool :=
    match x, y with
    | (k, a) :: x, (k', b) :: y => bool_decide (k = k') && same a b && identicalEntries x y
    | _, _ => true
    end.
End identical_by.
Arguments identicalElems {A} same x y.
Arguments identicalEntries {A} same x y.

Fixpoint Identical (a b : gvalue) {struct a} : bool :=
  match a, b with
  | Null, Null => true
  | Bool _, Bool _ | Int _, Int _ | Float _, Float _ | Node _, Node _ | Rel _, Rel _ => bool_decide (num a = num b)
  | Temporal _ _, Temporal _ _ => bool_decide (num a = num b ∧ aux a = aux b)
  | Str s, Str t => bool_decide (s = t)
  | List x, List y => bool_decide (len x = len y) && identicalElems Identical x y
  | Path ns rs, Path ns' rs' => slicesEqual ns ns' && slicesEqual rs rs'
  | Duration m d _, Duration m' d' _ => bool_decide (num a = num b ∧ m = m' ∧ d = d')
  | Map x, Map y => bool_decide (len x = len y) && identicalEntries Identical x y
  | _, _ => false
  end.

(** ** Group keys *)

Definition tagNull : byte := Byte.x00.
Definition tagBool : byte := Byte.x01.
Definition tagInt : byte := Byte.x02.
Definition tagFloat : byte := Byte.x03.
Definition tagStr : byte := Byte.x04.
Definition tagList : byte := Byte.x05.
Definition tagNode : byte := Byte.x06.
Definition tagRel : byte := Byte.x07.
Definition tagPath : byte := Byte.x08.
Definition tagMap : byte := Byte.x09.
Definition tagTemporal : byte := Byte.x0a.
Definition tagDuration : byte := Byte.x0b.

(** binary.BigEndian.AppendUint64 and AppendUint32. *)
Definition appendU64 (b : gostring) (v : Z) : gostring := b ++ rev (le_split 8 v).
Definition appendU32 (b : gostring) (v : Z) : gostring := b ++ rev (le_split 4 v).
Definition appendLen (b : gostring) (n : Z) : gostring := appendU32 b (to_u32 n).

(** -2^63 and 2^63 as floats. *)
Definition minInt64F : Z := 2 ^ 63 + 1086 * 2 ^ 52.
Definition twoTo63F : Z := 1086 * 2 ^ 52.
Definition integralInRange (f : Z) : bool := feq f (truncBits f) && fle minInt64F f && flt f twoTo63F.
(** [int64(f)] where the guard keeps it in range. *)
Definition truncInt (f : Z) : Z := Z.quot (fval f) f64one.
Definition appendFloatKey (b : gostring) (f : Z) : gostring :=
  if integralInRange f then appendU64 (b ++ [tagInt]) (to_u64 (truncInt f))
  else appendU64 (b ++ [tagFloat]) f.

Fixpoint AppendKey (b : gostring) (v : gvalue) {struct v} : gostring :=
  match v with
  | Null => b ++ [tagNull]
  | Bool _ => b ++ [tagBool; byte.of_Z (num v)]
  | Int _ => appendU64 (b ++ [tagInt]) (num v)
  | Float f => appendFloatKey b f
  | Str s => appendLen (b ++ [tagStr]) (len s) ++ s
  | List vs => fold_left (λ b e, AppendKey b e) vs (appendLen (b ++ [tagList]) (len vs))
  | Node n => appendU32 (b ++ [tagNode]) (to_u32 n)
  | Rel n => appendU32 (b ++ [tagRel]) (to_u32 n)
  | Path ns rs =>
      let b := fold_left appendU32 ns (appendLen (b ++ [tagPath]) (len ns)) in
      fold_left appendU32 rs (appendLen b (len rs))
  | Map es =>
      fold_left (λ b e, e.2 (appendLen b (len e.1) ++ e.1)) (keySorted (map (λ e, (e.1, λ b, AppendKey b e.2)) es))
        (appendLen (b ++ [tagMap]) (len es))
  | Temporal _ _ => appendU64 (b ++ [tagTemporal]) (num v) ++ [byte.of_Z (aux v)]
  | Duration m d _ => appendU64 (appendU64 (appendU64 (b ++ [tagDuration]) (to_u64 m)) (to_u64 d)) (num v)
  end.
Definition Key (v : gvalue) : gostring := AppendKey [] v.
