(* ===== verification/GqlOrder.v ===== *)
(** The order of ORDER BY is a total order on values.

    [OrderCmp] compares values of twelve kinds, through lists and maps. The proof
    embeds a value into a rose tree of integers, its sort key: the rank of its kind
    at the root, its payload below. Trees compare by root, then by children from
    left to right, then by their number ([tcmp]), which is a total order on trees,
    once and for all kinds; [OrderCmp] is that comparison of sort keys. So two values
    tie exactly when they are the same up to the coercion of integers to float64 and
    the order of map entries ([ordCanon]). *)

From S2P Require Import Prelude AtomTable Float64 TemporalText GqlValue.

(** ** Well-formed values

    Payloads of their Go width, slices of fewer than 2^32 elements, maps with
    distinct keys. *)
Definition u32b (n : Z) : bool := bool_decide (is_u32 n).
Definition i64b (n : Z) : bool := bool_decide (is_i64 n).
Definition shortb {A} (l : Datatypes.list A) : bool := bool_decide (len l < 2 ^ 32).
Fixpoint wfValue (v : gvalue) : bool :=
  match v with
  | Null | Bool _ => true
  | Int i => i64b i
  | Float f => bool_decide (is_u64 f)
  | Str s => shortb s
  | List vs => shortb vs && forallb wfValue vs
  | Node n | Rel n => u32b n
  | Path ns rs => shortb ns && shortb rs && forallb u32b ns && forallb u32b rs
  | Map es => shortb es && bool_decide (NoDup es.*1) && forallb (λ e, shortb e.1 && wfValue e.2) es
  | Temporal ms _ => i64b ms
  | Duration m d l => i64b m && i64b d && i64b l
  end.

(** ** Sorting by key *)

Lemma list_merge_map {A B} (f : A → B) (R : relation A) (S : relation B) `{!RelDecision R, !RelDecision S} l1 l2 :
  (∀ x y, R x y ↔ S (f x) (f y)) → list_merge S (f <$> l1) (f <$> l2) = f <$> list_merge R l1 l2.
Proof.
  intros HR. revert l2. induction l1 as [|x l1 IH1]; intros l2; [by destruct l2|].
  induction l2 as [|y l2 IH2]; [done|]. rewrite !fmap_cons, !list_merge_cons.
  destruct (decide (R x y)) as [D|D]; [rewrite decide_True by (by apply HR)|rewrite decide_False by (by rewrite <- HR)]; rewrite fmap_cons; f_equal.
  - by rewrite <- IH1, fmap_cons.
  - by rewrite <- IH2, fmap_cons.
Qed.

Lemma merge_sort_map {A B} (f : A → B) (R : relation A) (S : relation B) `{!RelDecision R, !RelDecision S} l :
  (∀ x y, R x y ↔ S (f x) (f y)) → merge_sort S (f <$> l) = f <$> merge_sort R l.
Proof.
  intros HR. pose (g := λ st : Datatypes.list (option (Datatypes.list A)), fmap (M:=option) (fmap (M:=Datatypes.list) f) <$> st).
  assert (∀ st l, merge_list_to_stack S (g st) (f <$> l) = g (merge_list_to_stack R st l)) as Hpush.
  { induction st as [|[l'|] st IH]; intros k; cbn; [done| |done]. rewrite (list_merge_map f R S) by done. f_equal. apply IH. }
  assert (∀ st, merge_stack S (g st) = f <$> merge_stack R st) as Hstack.
  { induction st as [|[l'|] st IH]; cbn; [done| |done]. fold (g st). rewrite IH. by apply list_merge_map. }
  unfold merge_sort. change (@nil (option (Datatypes.list B))) with (g []). generalize (@nil (option (Datatypes.list A))).
  induction l as [|x l IH]; intros st; cbn; [apply Hstack|]. rewrite <- IH. f_equal. apply (Hpush st [x]).
Qed.

Lemma keySorted_map {A B} (f : A → B) (m : Datatypes.list (gostring * A)) :
  keySorted ((λ e, (e.1, f e.2)) <$> m) = (λ e, (e.1, f e.2)) <$> keySorted m.
Proof. by apply merge_sort_map. Qed.

#[export] Instance keyLe_trans A : Transitive (@keyLe A).
Proof. intros x y z. apply strLe_trans. Qed.
#[export] Instance keyLe_total A : Total (@keyLe A).
Proof. intros x y. apply strLe_total. Qed.
Lemma keySorted_perm {A} (m : Datatypes.list (gostring * A)) : keySorted m ≡ₚ m.
Proof. apply merge_sort_Permutation. Qed.
Lemma keySorted_sorted {A} (m : Datatypes.list (gostring * A)) : StronglySorted keyLe (keySorted m).
Proof. apply StronglySorted_merge_sort; apply _. Qed.

(** With distinct keys the sorted order is determined. *)
Lemma keySorted_unique {A} (m m' : Datatypes.list (gostring * A)) : NoDup m.*1 → m ≡ₚ m' → keySorted m = keySorted m'.
Proof.
  intros Hn Hp. assert (keySorted m ≡ₚ keySorted m') as Hp' by (by rewrite !keySorted_perm).
  assert (NoDup (keySorted m).*1) as Hn' by (by rewrite keySorted_perm).
  pose proof (keySorted_sorted m) as S1. pose proof (keySorted_sorted m') as S2. revert Hp' Hn' S1 S2.
  generalize (keySorted m), (keySorted m'). clear. intros l. induction l as [|x l IH]; intros k Hp Hn S1 S2.
  { symmetry in Hp. by apply Permutation_nil_r in Hp. }
  destruct k as [|y k]; [by apply Permutation_nil_r in Hp|].
  apply NoDup_cons in Hn as [Hx Hn]. apply StronglySorted_inv in S1 as [S1 F1]. apply StronglySorted_inv in S2 as [S2 F2].
  assert (x = y) as ->.
  { assert (x ∈ y :: k) as Ix by (rewrite <- Hp; left). assert (y ∈ x :: l) as Iy by (rewrite Hp; left).
    apply elem_of_cons in Ix as [|Ix]; [done|]. apply elem_of_cons in Iy as [|Iy]; [done|]. exfalso. apply Hx.
    rewrite Forall_forall in F1, F2. pose proof (strLe_antisym _ _ (F1 _ Iy) (F2 _ Ix)) as ->. by apply list_elem_of_fmap_2. }
  f_equal. apply IH; [|done..]. by apply Permutation_cons_inv in Hp.
Qed.

(** ** Laws of the comparison helpers *)

Lemma cmpInt_eq a b : cmpInt a b = 0 ↔ a = b.
Proof. unfold cmpInt. repeat case_decide; lia. Qed.
Lemma cmpInt_opp a b : cmpInt b a = - cmpInt a b.
Proof. unfold cmpInt. repeat case_decide; lia. Qed.
Lemma cmpInt_trans a b c : cmpInt a b < 0 → cmpInt b c < 0 → cmpInt a c < 0.
Proof. unfold cmpInt. repeat case_decide; lia. Qed.

Lemma orderLists_cons {A B} (ord : A → B → Z) a x b y :
  orderLists ord (a :: x) (b :: y) = if decide (ord a b ≠ 0) then ord a b else orderLists ord x y.
Proof.
  unfold orderLists. cbn [orderCommon]. cbv zeta. destruct (decide (ord a b ≠ 0)) as [D|D]; [by rewrite decide_True|].
  case_decide; [done|]. rewrite !len_cons. unfold cmpInt. repeat case_decide; lia.
Qed.
Lemma orderLists_nil_l {A B} (ord : A → B → Z) y : orderLists ord [] y = match y with [] => 0 | _ => -1 end.
Proof. destruct y as [|b y]; [done|]. unfold orderLists. cbn [orderCommon]. unfold cmpInt. lens. repeat case_decide; lia. Qed.
Lemma orderLists_nil_r {A B} (ord : A → B → Z) x : orderLists ord x [] = match x with [] => 0 | _ => 1 end.
Proof. destruct x as [|a x]; [done|]. unfold orderLists. cbn [orderCommon]. unfold cmpInt. lens. repeat case_decide; lia. Qed.

Lemma orderLists_map {A B C D} (ord : A → B → Z) (ord' : C → D → Z) (f : A → C) (g : B → D) x y :
  Forall (λ a, Forall (λ b, ord a b = ord' (f a) (g b)) y) x → orderLists ord x y = orderLists ord' (f <$> x) (g <$> y).
Proof.
  intros HF. revert y HF. induction x as [|a x IH]; intros [|b y] HF; rewrite ?fmap_nil, ?fmap_cons, ?orderLists_nil_l, ?orderLists_nil_r; try done.
  apply Forall_cons in HF as [Ha HF]. rewrite !orderLists_cons. apply Forall_cons in Ha as [E _]. rewrite <- E, IH; [done|].
  eapply Forall_impl; [exact HF|]. intros a' Ha'. by apply Forall_cons in Ha' as [_ ?].
Qed.

Section list_laws.
  Context {A : Type} (ord : A → A → Z).
Lemma orderLists_eq x y : Forall (λ a, ∀ b, ord a b = 0 ↔ a = b) x → orderLists ord x y = 0 ↔ x = y.
  Proof.
    intros HF. revert y. induction HF as [|a x Ha HF IH]; intros [|b y]; rewrite ?orderLists_nil_l, ?orderLists_nil_r; try done.
    rewrite orderLists_cons. case_decide as D; [|rewrite IH].
    - split; [done|]. intros E. simplify_eq. by destruct D; apply Ha.
    - assert (a = b) as -> by (apply Ha; lia). split; [by intros ->|by intros [=]].
  Qed.
Lemma orderLists_opp x y : Forall (λ a, ∀ b, ord b a = - ord a b) x → orderLists ord y x = - orderLists ord x y.
  Proof.
    intros HF. revert y. induction HF as [|a x Ha HF IH]; intros [|b y]; rewrite ?orderLists_nil_l, ?orderLists_nil_r; try done.
    rewrite !orderLists_cons, Ha, IH. repeat case_decide; lia.
  Qed.
Lemma orderLists_trans x y z : (∀ a b, ord a b = 0 ↔ a = b) → Forall (λ a, ∀ b c, ord a b < 0 → ord b c < 0 → ord a c < 0) x →
    orderLists ord x y < 0 → orderLists ord y z < 0 → orderLists ord x z < 0.
  Proof.
    intros He HF. revert y z. induction HF as [|a x Ha HF IH]; intros [|b y] [|c z]; rewrite ?orderLists_nil_l, ?orderLists_nil_r; try done.
    rewrite !orderLists_cons. case_decide as D1.
    - intros L1. case_decide as D2.
      + intros L2. pose proof (Ha b c L1 L2). rewrite decide_True by lia. done.
      + assert (b = c) as -> by (apply He; lia). intros _. by rewrite decide_True.
    - assert (a = b) as -> by (apply He; lia). case_decide as D2; [done|]. apply IH.
  Qed.
End list_laws.

(** ** Sort keys *)

#[local] Unset Elimination Schemes.
Inductive stree := T (z : Z) (l : Datatypes.list stree).
Fixpoint stree_ind (P : stree → Prop) (H : ∀ z l, Forall P l → P (T z l)) (t : stree) : P t :=
  match t with
  | T z l => H z l ((fix go l := match l return Forall P l with
      | [] => Forall_nil_2 _ | x :: l => Forall_cons_2 _ x l (stree_ind P H x) (go l) end) l)
  end.

Fixpoint tcmp (t u : stree) {struct t} : Z :=
  match t, u with
  | T a x, T b y => if decide (cmpInt a b ≠ 0) then cmpInt a b else orderLists tcmp x y
  end.

Lemma tcmp_eq t u : tcmp t u = 0 ↔ t = u.
Proof.
  revert u. induction t as [a x HF] using stree_ind; intros [b y]; cbn. case_decide as D.
  - split; [done|]. intros [= -> ->]. by destruct D; apply cmpInt_eq.
  - rewrite orderLists_eq by done. assert (a = b) as -> by (apply cmpInt_eq; lia). split; [by intros ->|by intros [=]].
Qed.
Lemma tcmp_opp t u : tcmp u t = - tcmp t u.
Proof.
  revert u. induction t as [a x HF] using stree_ind; intros [b y]; cbn. rewrite (cmpInt_opp a b), orderLists_opp by done. repeat case_decide; lia.
Qed.
Lemma tcmp_trans t u w : tcmp t u < 0 → tcmp u w < 0 → tcmp t w < 0.
Proof.
  revert u w. induction t as [a x HF] using stree_ind; intros [b y] [c z]; cbn. pose proof (cmpInt_trans a b c) as Ht. case_decide as D1.
  - intros L1. case_decide as D2.
    + intros L2. rewrite decide_True by lia. auto.
    + assert (b = c) as -> by (apply cmpInt_eq; lia). intros _. by rewrite decide_True.
  - assert (a = b) as -> by (apply cmpInt_eq; lia). case_decide; [done|]. intros L1 L2. eapply orderLists_trans; [apply tcmp_eq|done..].
Qed.

Definition leaf (z : Z) : stree := T z [].
Definition strTree (s : gostring) : stree := T 0 ((λ b, leaf (byte.unsigned b)) <$> s).
Definition seqTree (l : Datatypes.list Z) : stree := T 0 (leaf <$> l).
Definition entryTree (e : gostring * stree) : stree := T 0 [strTree e.1; e.2].

Fixpoint sortKey (v : gvalue) : stree :=
  T (orderRank v)
    match v with
    | Null => []
    | Bool _ | Node _ | Rel _ => [leaf (num v)]
    | Int _ | Float _ => [leaf (totalKey (orderNum v))]
    | Str s => [strTree s]
    | List vs => map sortKey vs
    | Path ns rs => [seqTree ns; seqTree rs]
    | Map es => map entryTree (keySorted (map (λ e, (e.1, sortKey e.2)) es))
    | Temporal ms k => [leaf ms; leaf (kindCode k)]
    | Duration m d l => [leaf m; leaf d; leaf l]
    end.

Lemma tcmp_leaf a b : tcmp (leaf a) (leaf b) = cmpInt a b.
Proof. cbn. case_decide; [done|]. rewrite orderLists_nil_l. lia. Qed.

Lemma tcmp_node z x y : tcmp (T z x) (T z y) = orderLists tcmp x y.
Proof. cbn. rewrite decide_False; [done|]. assert (cmpInt z z = 0) as -> by (by apply cmpInt_eq). lia. Qed.

Lemma orderLists_one {A B} (ord : A → B → Z) a b : orderLists ord [a] [b] = ord a b.
Proof. rewrite orderLists_cons, orderLists_nil_l. case_decide; lia. Qed.

Lemma tcmp_strTree s t : tcmp (strTree s) (strTree t) = cmpStr s t.
Proof.
  unfold strTree. rewrite tcmp_node. unfold cmpStr, strLt. revert t. induction s as [|x s IH]; intros [|y t]; [done..|].
  rewrite !fmap_cons, orderLists_cons, tcmp_leaf, IH. cbn [strLe]. unfold cmpInt. repeat (case_decide; try lia); try done.
Qed.

Lemma cmpSlices_orderLists x y : cmpSlices x y = orderLists cmpInt x y.
Proof. done. Qed.

Lemma tcmp_seqTree x y : tcmp (seqTree x) (seqTree y) = cmpSlices x y.
Proof.
  unfold seqTree. rewrite tcmp_node, cmpSlices_orderLists. symmetry. apply orderLists_map. apply Forall_forall. intros a _.
  apply Forall_forall. intros b _. by rewrite tcmp_leaf.
Qed.

Lemma tcmp_rank a b x y : a ≠ b → tcmp (T a x) (T b y) = cmpInt a b.
Proof. intros Hne. cbn. rewrite decide_True; [done|]. by rewrite cmpInt_eq. Qed.

Lemma OrderCmp_rank a b : orderRank a ≠ orderRank b → OrderCmp a b = cmpInt (orderRank a) (orderRank b).
Proof. intros Hne. destruct a; cbn [OrderCmp]; by rewrite decide_True by exact Hne. Qed.

Lemma entryOrder_tcmp f k v (e : gostring * gvalue) : f e.2 = tcmp v (sortKey e.2) →
  entryOrder (k, f) e = tcmp (entryTree (k, v)) (entryTree (e.1, sortKey e.2)).
Proof.
  intros E. unfold entryTree, entryOrder. cbn [fst snd]. rewrite tcmp_node, orderLists_cons, tcmp_strTree, orderLists_one. cbv zeta.
  by rewrite E.
Qed.

Lemma sortKey_rank v : ∃ x, sortKey v = T (orderRank v) x.
Proof. destruct v; cbn [sortKey]; eauto. Qed.

Lemma OrderCmp_ranks a b : orderRank a ≠ orderRank b → OrderCmp a b = tcmp (sortKey a) (sortKey b).
Proof. intros Hne. rewrite OrderCmp_rank by done. destruct (sortKey_rank a) as [x ->], (sortKey_rank b) as [y ->]. by rewrite tcmp_rank. Qed.

(** [OrderCmp] compares sort keys. *)
Lemma OrderCmp_sortKey a b : OrderCmp a b = tcmp (sortKey a) (sortKey b).
Proof.
  revert b. induction a as [| | | | |vs IH| | | |es IH| |] using gvalue_ind; intros v.
  all: match goal with |- OrderCmp ?a ?b = _ => destruct (decide (orderRank a = orderRank b)) as [E|E]; [|by apply OrderCmp_ranks] end.
  all: destruct v; try discriminate E; cbn [OrderCmp sortKey]; rewrite decide_False by (intros NE; exact (NE E)); rewrite tcmp_node.
  all: rewrite ?orderLists_one, ?tcmp_leaf, ?tcmp_strTree; try done.
  - apply (orderLists_map _ _ sortKey sortKey).
    eapply Forall_impl; [exact IH|]. intros a Ha. apply Forall_forall. intros b _. apply Ha.
  - rewrite orderLists_cons, orderLists_one, !tcmp_seqTree. done.
  - cbn [entries]. unfold mapOrder.
    change (map (λ e, (e.1, OrderCmp e.2)) es) with ((λ e : gostring * gvalue, (e.1, OrderCmp e.2)) <$> es).
    change (map ?f ?l) with (f <$> l). rewrite !keySorted_map, <- !list_fmap_compose.
    rewrite <- (list_fmap_id (keySorted es0)) at 1. rewrite <- (orderLists_map (λ e, entryOrder (e.1, OrderCmp e.2)) entryOrder _ id).
    2: { apply Forall_forall. intros e _. by apply Forall_forall. }
    apply orderLists_map. apply Forall_forall. intros e He. apply Forall_forall. intros e' _. apply entryOrder_tcmp.
    rewrite keySorted_perm in He. rewrite Forall_forall in IH. by apply IH.
  - rewrite orderLists_cons, orderLists_one, !tcmp_leaf. done.
  - rewrite !orderLists_cons, orderLists_nil_l, !tcmp_leaf. cbv zeta. cbn. repeat case_decide; lia.
Qed.

(** ** The total order of float64 bits *)

Lemma lxor_ones y : 0 ≤ y < 2 ^ 63 → Z.lxor y MaxInt64 = MaxInt64 - y.
Proof.
  intros Hy. change MaxInt64 with (Z.ones 63). assert (Z.ldiff y (Z.ones 63) = 0) as E.
  { rewrite Z.ldiff_ones_r by lia. rewrite Z.shiftr_div_pow2, Z.div_small by lia. done. }
  rewrite Z.sub_nocarry_ldiff by exact E. apply Z.bits_inj'. intros n Hn. rewrite Z.lxor_spec, Z.ldiff_spec.
  assert (Z.testbit (Z.ldiff y (Z.ones 63)) n = false) as En by (by rewrite E, Z.bits_0). rewrite Z.ldiff_spec in En.
  by destruct (Z.testbit y n), (Z.testbit (Z.ones 63) n).
Qed.

Lemma totalKey_spec b : is_u64 b → totalKey b = if signBit b then -1 - absBits b else absBits b.
Proof.
  intros Hb. pose proof (absBits_range b) as Hm. pose proof (absBits_signed b Hb) as E. unfold totalKey. destruct (signBit b).
  - assert (to_i64 b = Z.lnot (MaxInt64 - absBits b)) as ->.
    { rewrite E at 1. unfold wrapS, Z.lnot, MaxInt64, Z.pred. dlia. }
    rewrite Z.shiftr_div_pow2 by lia. unfold Z.lnot at 2. assert (Z.pred (- (MaxInt64 - absBits b)) / 2 ^ 63 = -1) as -> by (unfold MaxInt64; dlia).
    rewrite Z.land_m1_l. rewrite <- Z.lnot_lxor_l. rewrite lxor_ones by (unfold MaxInt64; lia). unfold Z.lnot, MaxInt64. lia.
  - rewrite Z.add_0_l in E. rewrite wrapS_small by lia. rewrite Z.shiftr_div_pow2, Z.div_small by lia. rewrite Z.land_0_l, Z.lxor_0_r. lia.
Qed.

Lemma totalKey_inj x y : is_u64 x → is_u64 y → totalKey x = totalKey y → x = y.
Proof.
  intros Hx Hy. rewrite !totalKey_spec by done. pose proof (absBits_range x). pose proof (absBits_range y).
  pose proof (absBits_signed x Hx) as Ex. pose proof (absBits_signed y Hy) as Ey. destruct (signBit x), (signBit y); lia.
Qed.

(** The total order refines the numeric one. *)
Lemma totalKey_lt x y : is_u64 x → is_u64 y → fval x < fval y → totalKey x < totalKey y.
Proof.
  intros Hx Hy. rewrite !totalKey_spec by done. unfold fval. pose proof (absBits_range x) as Rx. pose proof (absBits_range y) as Ry.
  pose proof (mag_nonneg (absBits x)). pose proof (mag_nonneg (absBits y)).
  assert (∀ m n, 0 ≤ m → 0 ≤ n → mag m < mag n → m < n) as Hm.
  { intros m n Hm Hn L. destruct (decide (m < n)) as [|G]; [done|]. destruct (decide (m = n)) as [->|]; [lia|]. pose proof (mag_lt n m). lia. }
  destruct (signBit x), (signBit y); intros L; try lia.
  - assert (absBits y < absBits x); [|lia]. apply Hm; lia.
  - apply Hm; lia.
Qed.

(** ** Ties *)

(** Integers as floats, map entries in key order. *)
Fixpoint ordCanon (v : gvalue) : gvalue :=
  match v with
  | Int i => Float (ofInt i)
  | List vs => List (map ordCanon vs)
  | Map es => Map (keySorted (map (λ e, (e.1, ordCanon e.2)) es))
  | _ => v
  end.

Lemma fmap_eq_iff {A B C} (f : A → B) (g : A → C) x y :
  Forall (λ a, Forall (λ b, f a = f b ↔ g a = g b) y) x → f <$> x = f <$> y ↔ g <$> x = g <$> y.
Proof.
  revert y. induction x as [|a x IH]; intros [|b y] HF; [done..|]. apply Forall_cons in HF as [Ha HF]. apply Forall_cons in Ha as [Hab _].
  rewrite !fmap_cons.
  assert (f <$> x = f <$> y ↔ g <$> x = g <$> y) as Hxy.
  { apply IH. eapply Forall_impl; [exact HF|]. intros ? H. by apply Forall_cons in H as [_ ?]. }
  split; intros [= E1 E2]; f_equal; tauto.
Qed.

Lemma leaf_inj : Inj (=) (=) leaf.
Proof. by intros x y [=]. Qed.
Lemma strTree_inj s t : strTree s = strTree t ↔ s = t.
Proof.
  split; [|by intros ->]. unfold strTree. intros [= E]. apply list_fmap_eq_inj in E; [done|]. intros x y [= Exy]. by apply byte.unsigned_inj.
Qed.
Lemma seqTree_inj s t : seqTree s = seqTree t ↔ s = t.
Proof. split; [|by intros ->]. unfold seqTree. intros [= E]. apply list_fmap_eq_inj in E; [done|apply leaf_inj]. Qed.

(** The boolean well-formedness of the parts of a value, as list properties. *)
Lemma wf_list vs : wfValue (List vs) = true ↔ len vs < 2 ^ 32 ∧ Forall (λ v, wfValue v = true) vs.
Proof. cbn. unfold shortb. rewrite andb_true_iff, bool_decide_eq_true, forallb_forall, Forall_forall. by setoid_rewrite list_elem_of_In. Qed.
Lemma wf_map es : wfValue (Map es) = true ↔
  len es < 2 ^ 32 ∧ NoDup es.*1 ∧ Forall (λ e, len e.1 < 2 ^ 32 ∧ wfValue e.2 = true) es.
Proof.
  cbn. unfold shortb. rewrite !andb_true_iff, !bool_decide_eq_true, forallb_forall, Forall_forall. setoid_rewrite <- list_elem_of_In.
  setoid_rewrite andb_true_iff. setoid_rewrite bool_decide_eq_true. tauto.
Qed.

Lemma numKey_inj x y : is_u64 x → is_u64 y → T 1 [leaf (totalKey x)] = T 1 [leaf (totalKey y)] ↔ Float x = Float y.
Proof. intros Hx Hy. split; [intros [= E]; f_equal; by apply totalKey_inj|by intros [= ->]]. Qed.

(** Same sort key exactly when the same up to coercion and entry order. *)
Lemma sortKey_canon a b : wfValue a = true → wfValue b = true → sortKey a = sortKey b ↔ ordCanon a = ordCanon b.
Proof.
  revert b. induction a as [|b|i|f|s|vs IH| | |ns rs|es IH|ms k|] using gvalue_ind; intros v Ha Hb; destruct v; try (split; intros [=]; congruence).
  all: try (cbn in Ha, Hb; unfold i64b in *; rewrite ?bool_decide_eq_true in *; apply numKey_inj; first [done|by apply ofInt_u64]).
  - by destruct b, b0.
  - cbn. split; [intros [= E]|by intros [= ->]]. f_equal. apply strTree_inj. unfold strTree. by f_equal.
  - apply wf_list in Ha as [_ Ha], Hb as [_ Hb]. cbn. change (map ?f ?l) with (f <$> l).
    assert (sortKey <$> vs = sortKey <$> vs0 ↔ ordCanon <$> vs = ordCanon <$> vs0) as E.
    { apply fmap_eq_iff. rewrite !Forall_forall in *. intros a Hin. apply Forall_forall. auto. }
    split; intros [= Ev]; f_equal; by apply E.
  - cbn. split; [intros [= E1 E2]|by intros [= -> ->]]. f_equal; by apply seqTree_inj; unfold seqTree; f_equal.
  - apply wf_map in Ha as (_ & _ & Ha), Hb as (_ & _ & Hb). cbn. change (map ?f ?l) with (f <$> l). rewrite !keySorted_map, <- !list_fmap_compose.
    match goal with |- T _ ?x = T _ ?y ↔ Map ?u = Map ?w => assert (x = y ↔ u = w) as E end.
    { apply fmap_eq_iff. rewrite !Forall_forall in *. intros e He. apply Forall_forall. intros e' He'. rewrite keySorted_perm in He, He'.
      unfold compose, entryTree. cbn. pose proof (IH e He e'.2 (proj2 (Ha e He)) (proj2 (Hb e' He'))) as E.
      split; intros [= E1 E2]; [|apply E in E2; by rewrite E1, E2].
      f_equal; [apply strTree_inj; unfold strTree; by f_equal|by apply E]. }
    split; intros [= Ev]; f_equal; by apply E.
  - cbn. split; [intros [= E1 E2]|by intros [= -> ->]]. subst. destruct k, k0; done.
Qed.

(** ** The order *)

Lemma OrderCmp_ties a b : wfValue a = true → wfValue b = true → OrderCmp a b = 0 ↔ ordCanon a = ordCanon b.
Proof. intros Ha Hb. rewrite OrderCmp_sortKey, tcmp_eq. by apply sortKey_canon. Qed.

(** C22: OrderCmp, the order of ORDER BY, is a total order on well-formed values of all kinds, nested lists and maps included: swapping its arguments negates it, it is transitive, and two values tie exactly when they are the same once integers are read as float64 and map entries are put in key order. *)
Theorem OrderCmp_total_order a b c : wfValue a = true → wfValue b = true → wfValue c = true →
  OrderCmp b a = - OrderCmp a b ∧
  (OrderCmp a b = 0 ↔ ordCanon a = ordCanon b) ∧
  (OrderCmp a b ≤ 0 → OrderCmp b c ≤ 0 → OrderCmp a c ≤ 0).
Proof.
  intros Ha Hb Hc. split; [|split; [by apply OrderCmp_ties|]]; rewrite !OrderCmp_sortKey; [apply tcmp_opp|].
  intros L1 L2. destruct (decide (tcmp (sortKey a) (sortKey b) = 0)) as [E|]; [by apply tcmp_eq in E as ->|].
  destruct (decide (tcmp (sortKey b) (sortKey c) = 0)) as [E|]; [by apply tcmp_eq in E as <-|].
  pose proof (tcmp_trans (sortKey a) (sortKey b) (sortKey c)). lia.
Qed.

(** Three nested values with a tie between a map of integers and one of floats. *)
Definition orderA : gvalue := Map [([Byte.x62], Null); ([Byte.x61], Int 3)].
Definition orderB : gvalue := Map [([Byte.x61], Float (ofInt 3)); ([Byte.x62], Null)].
Definition orderC : gvalue := Map [([Byte.x61], Float (ofInt 3)); ([Byte.x62], Null); ([Byte.x63], List [Bool true; Temporal 7 Date])].
Lemma OrderCmp_total_order_witness : OrderCmp orderB orderA = - OrderCmp orderA orderB ∧
  (OrderCmp orderA orderB = 0 ↔ ordCanon orderA = ordCanon orderB) ∧
  (OrderCmp orderA orderB ≤ 0 → OrderCmp orderB orderC ≤ 0 → OrderCmp orderA orderC ≤ 0).
Proof. apply (OrderCmp_total_order orderA orderB orderC); vm_compute; reflexivity. Defined.
