(* ===== verification/GqlKey.v ===== *)
(** Group keys identify values (gql/value/groupkey.go).

    [Key] is the map key of DISTINCT, grouping and deduplication. It is the encoding
    [enc] of a canonical form ([groupCanon]: integral floats in the int64 range as
    integers, map entries in key order), and no encoding is a prefix of another, so
    two values share a key exactly when their canonical forms are equal. *)

From S2P Require Import Prelude AtomTable Cost Float64 TemporalText GqlValue GqlOrder.

Fixpoint groupCanon (v : gvalue) : gvalue :=
  match v with
  | Float f => if integralInRange f then Int (truncInt f) else v
  | List vs => List (map groupCanon vs)
  | Map es => Map (keySorted (map (λ e, (e.1, groupCanon e.2)) es))
  | _ => v
  end.

Definition be (n : nat) (v : Z) : gostring := rev (le_split n v).
Definition lenBE {A} (l : Datatypes.list A) : gostring := be 4 (to_u32 (len l)).

(** The encoding without canonicalization. *)
Fixpoint enc (v : gvalue) : gostring :=
  match v with
  | Null => [tagNull]
  | Bool b => [tagBool; byte.of_Z (if b then 1 else 0)]
  | Int i => tagInt :: be 8 (to_u64 i)
  | Float f => tagFloat :: be 8 f
  | Str s => tagStr :: lenBE s ++ s
  | List vs => tagList :: lenBE vs ++ concat (map enc vs)
  | Node n => tagNode :: be 4 (to_u32 n)
  | Rel n => tagRel :: be 4 (to_u32 n)
  | Path ns rs => tagPath :: lenBE ns ++ concat (be 4 <$> ns) ++ lenBE rs ++ concat (be 4 <$> rs)
  | Map es => tagMap :: lenBE es ++ concat (map (λ e, lenBE e.1 ++ e.1 ++ enc e.2) es)
  | Temporal ms k => tagTemporal :: be 8 (to_u64 ms) ++ [byte.of_Z (kindCode k)]
  | Duration m d l => tagDuration :: be 8 (to_u64 m) ++ be 8 (to_u64 d) ++ be 8 (to_u64 l)
  end.

Lemma fold_append {A B} (f : A → Datatypes.list B) (step : Datatypes.list B → A → Datatypes.list B) l b :
  Forall (λ a, ∀ b, step b a = b ++ f a) l → fold_left step l b = b ++ concat (f <$> l).
Proof.
  intros HF. revert b. induction HF as [|a l Ha HF IH]; intros b; cbn; [by rewrite app_nil_r|]. by rewrite IH, Ha, <- app_assoc.
Qed.

Lemma fold_appendU32 l b : fold_left appendU32 l b = b ++ concat (be 4 <$> l).
Proof. apply (fold_append (be 4)). by apply Forall_forall. Qed.

Lemma fold_left_fmap {A B C} (g : A → B) (step : C → B → C) l c : fold_left step (g <$> l) c = fold_left (λ c a, step c (g a)) l c.
Proof. revert c. induction l as [|a l IH]; intros c; [done|apply IH]. Qed.

(** The key is the encoding of the canonical form. *)
Lemma AppendKey_enc b v : AppendKey b v = b ++ enc (groupCanon v).
Proof.
  revert b. induction v as [| | |f| |vs IH| | | |es IH| |] using gvalue_ind; intros b0; cbn [AppendKey groupCanon enc];
    unfold appendLen, appendU64, appendU32, lenBE; rewrite <- ?app_assoc; try done.
  - unfold appendFloatKey, appendU64. by destruct (integralInRange f); cbn [enc]; rewrite <- app_assoc.
  - rewrite (fold_append (λ e, enc (groupCanon e))) by done. repeat change (map ?f ?l) with (f <$> l).
    rewrite len_fmap, <- list_fmap_compose, <- !app_assoc. done.
  - cbv zeta. rewrite !fold_appendU32, <- !app_assoc. done.
  - repeat change (map ?f ?l) with (f <$> l). rewrite (keySorted_map (λ v b, AppendKey b v)), fold_left_fmap, (keySorted_map groupCanon), <- list_fmap_compose, len_fmap.
    rewrite (fold_append (λ e, lenBE e.1 ++ e.1 ++ enc (groupCanon e.2))).
    + rewrite <- !app_assoc. unfold len. by rewrite (Permutation_length (keySorted_perm es)).
    + apply Forall_forall. intros e He b. rewrite keySorted_perm in He. rewrite Forall_forall in IH. cbn.
      rewrite IH by done. by rewrite <- !app_assoc.
Qed.

(** ** No encoding is a prefix of another *)

Lemma be_length n v : length (be n v) = n.
Proof. unfold be. by rewrite length_rev, length_le_split. Qed.

Lemma be_prefix n x y r r' : 0 ≤ x < 2 ^ (8 * Z.of_nat n) → 0 ≤ y < 2 ^ (8 * Z.of_nat n) → be n x ++ r = be n y ++ r' → x = y ∧ r = r'.
Proof.
  intros Hx Hy E. apply app_inj_1 in E as [E Er]; [|by rewrite !be_length]. split; [|done].
  unfold be in E. apply (f_equal (@rev _)) in E. rewrite !rev_involutive in E. apply (f_equal le_combine) in E.
  rewrite !LittleEndianList.le_combine_split in E. rewrite !(Z.mul_comm (Z.of_nat n) 8), !Z.mod_small in E by done. done.
Qed.

Lemma u64_prefix x y r r' : is_i64 x → is_i64 y → be 8 (to_u64 x) ++ r = be 8 (to_u64 y) ++ r' → x = y ∧ r = r'.
Proof.
  intros Hx Hy E. pose proof (wrapU_range 64 x). pose proof (wrapU_range 64 y). apply be_prefix in E as [E ->]; [|simpl; lia..].
  split; [|done]. by rewrite <- (to_i64_to_u64 x), <- (to_i64_to_u64 y), E by done.
Qed.
Lemma u32_prefix x y r r' : is_u32 x → is_u32 y → be 4 (to_u32 x) ++ r = be 4 (to_u32 y) ++ r' → x = y ∧ r = r'.
Proof. intros Hx Hy. rewrite !wrapU_small by lia. apply be_prefix; simpl; lia. Qed.
Lemma lenBE_prefix {A B} (x : Datatypes.list A) (y : Datatypes.list B) r r' : len x < 2 ^ 32 → len y < 2 ^ 32 →
  lenBE x ++ r = lenBE y ++ r' → length x = length y ∧ r = r'.
Proof. intros Hx Hy E. unfold lenBE in E. pose proof (len_nonneg x). pose proof (len_nonneg y). apply u32_prefix in E as [E ->]; unfold len in *; [|lia..]. split; [lia|done]. Qed.

Lemma concat_prefix {A} (f : A → gostring) (Q : A → Prop) x y r r' :
  Forall (λ a, ∀ b r r', Q b → f a ++ r = f b ++ r' → a = b ∧ r = r') x → Forall Q y → length x = length y →
  concat (f <$> x) ++ r = concat (f <$> y) ++ r' → x = y ∧ r = r'.
Proof.
  intros HF. revert y. induction HF as [|a x Ha HF IH]; intros [|b y] HQ L; [done|discriminate L..|]. apply Forall_cons in HQ as [Hb HQ].
  rewrite !fmap_cons. cbn. rewrite <- !app_assoc. intros E. apply Ha in E as [-> E]; [|done]. apply IH in E as [-> ->]; [done..|]. by injection L.
Qed.

Lemma str_prefix (s t : gostring) r r' : len s < 2 ^ 32 → len t < 2 ^ 32 → lenBE s ++ s ++ r = lenBE t ++ t ++ r' → s = t ∧ r = r'.
Proof. intros Hs Ht E. apply lenBE_prefix in E as [L E]; [|done..]. by apply app_inj_1 in E. Qed.

Lemma wf_u32s l : forallb u32b l = true ↔ Forall (λ n, is_u32 n) l.
Proof. rewrite forallb_forall, Forall_forall. setoid_rewrite list_elem_of_In. unfold u32b. by setoid_rewrite bool_decide_eq_true. Qed.

Ltac wf_inv := repeat match goal with
  | H : wfValue (List _) = true |- _ => apply wf_list in H as [? ?]
  | H : wfValue (Map _) = true |- _ => apply wf_map in H as (? & ? & ?)
  | H : wfValue (_ _) = true |- _ => cbn in H
  | H : wfValue (_ _ _) = true |- _ => cbn in H
  | H : wfValue (_ _ _ _) = true |- _ => cbn in H
  | H : _ && _ = true |- _ => apply andb_true_iff in H as [? ?]
  | H : i64b _ = true |- _ => unfold i64b in H
  | H : u32b _ = true |- _ => unfold u32b in H
  | H : shortb _ = true |- _ => unfold shortb in H
  | H : bool_decide _ = true |- _ => apply bool_decide_eq_true in H
  | H : forallb u32b _ = true |- _ => apply wf_u32s in H
  end.

Lemma u32s_prefix x y r r' : Forall (λ n, is_u32 n) x → Forall (λ n, is_u32 n) y → length x = length y →
  concat (be 4 <$> x) ++ r = concat (be 4 <$> y) ++ r' → x = y ∧ r = r'.
Proof.
  intros Hx Hy. apply (concat_prefix _ (λ n, is_u32 n)); [|done]. eapply Forall_impl; [exact Hx|]. cbn. intros a Ha b s s' Hb. apply be_prefix; simpl; lia.
Qed.

Lemma tail_eq {A} (x y : A) l k : x :: l = y :: k → l = k.
Proof. by intros [= _ ?]. Qed.

Lemma kindByte_prefix k k' r r' : [byte.of_Z (kindCode k)] ++ r = [byte.of_Z (kindCode k')] ++ r' → k = k' ∧ r = r'.
Proof.
  intros E. split; [|by apply tail_eq in E]. apply (f_equal (λ l, byte.unsigned <$> head l)) in E. cbn [head app fmap option_fmap option_map] in E.
  apply (inj Some) in E. revert E. by destruct k, k'; vm_compute.
Qed.

Lemma enc_prefix a b r r' : wfValue a = true → wfValue b = true → enc a ++ r = enc b ++ r' → a = b ∧ r = r'.
Proof.
  revert b r r'. induction a as [|b|i|f|s|vs IH|n|n|ns rs|es IH|ms k|m d l] using gvalue_ind; intros v r r' Ha Hb; destruct v; cbn [enc]; try discriminate;
    rewrite <- ?app_comm_cons, <- ?app_assoc; intros E%tail_eq; wf_inv.
  - done.
  - destruct b, b0; vm_compute in E; simplify_eq; done.
  - by apply u64_prefix in E as [-> ->].
  - apply be_prefix in E as [-> ->]; [done|simpl; lia..].
  - by apply str_prefix in E as [-> ->].
  - apply lenBE_prefix in E as [L E]; [|done..]. repeat change (map ?f ?l) with (f <$> l) in E.
    apply (concat_prefix _ (λ v, wfValue v = true)) in E as [-> ->]; [done| |done..].
    rewrite Forall_forall in *. intros a Hin b s s' Hb. auto.
  - by apply u32_prefix in E as [-> ->].
  - by apply u32_prefix in E as [-> ->].
  - apply lenBE_prefix in E as [L E]; [|done..]. apply u32s_prefix in E as [-> E]; [|done..].
    apply lenBE_prefix in E as [L' E]; [|done..]. by apply u32s_prefix in E as [-> ->].
  - apply lenBE_prefix in E as [L E]; [|done..]. repeat change (map ?f ?l) with (f <$> l) in E.
    apply (concat_prefix _ (λ e, len e.1 < 2 ^ 32 ∧ wfValue e.2 = true)) in E as [-> ->]; [done| |done..].
    rewrite Forall_forall in *. intros e Hin e' s s' [Hk Hb] E'. rewrite <- !app_assoc in E'.
    match goal with H : ∀ x, x ∈ es → len x.1 < _ ∧ _ |- _ => destruct (H e Hin) as [Hke Hwe] end.
    apply str_prefix in E' as [Ek E']; [|done..]. apply (IH _ Hin) in E' as [Ev ->]; [|done..]. destruct e, e'. cbn in *. by subst.
  - apply u64_prefix in E as [-> E]; [|done..]. apply kindByte_prefix in E as [-> ->]. done.
  - apply u64_prefix in E as [-> E]; [|done..]. apply u64_prefix in E as [-> E]; [|done..]. by apply u64_prefix in E as [-> ->].
Qed.

(** ** Canonical forms are well formed *)

Lemma integralInRange_spec f : is_u64 f → integralInRange f = true ↔ isNaN f = false ∧ ∃ i, is_i64 i ∧ fval f = i * f64one.
Proof.
  intros Hf. unfold integralInRange. rewrite truncBits_spec by done. unfold fle, flt.
  assert (isNaN minInt64F = false) as -> by (by vm_compute). assert (isNaN twoTo63F = false) as -> by (by vm_compute).
  assert (fval minInt64F = - 2 ^ 63 * f64one) as -> by (by vm_compute). assert (fval twoTo63F = 2 ^ 63 * f64one) as -> by (by vm_compute).
  destruct (isNaN f); [split; [done|by intros [? _]]|]. cbn. rewrite !andb_true_iff, !bool_decide_eq_true. pose proof f64one_pos. unfold integral. split.
  - intros [[E L] U]. split; [done|]. exists (fval f / f64one). pose proof (Z.div_mod (fval f) f64one ltac:(lia)). split; [nia|lia].
  - intros [_ (i & Hi & ->)]. rewrite Z.mod_mul by lia. split; [split; [done|nia]|nia].
Qed.

Lemma truncInt_integral f i : fval f = i * f64one → truncInt f = i.
Proof. intros E. unfold truncInt. rewrite E, Z.quot_mul; [done|]. pose proof f64one_pos. lia. Qed.

(** The conversion of appendFloatKey is [int64(f)] whatever that gives out of range. *)
Lemma truncInt_conv oor f : is_u64 f → integralInRange f = true → toInt oor f = truncInt f.
Proof. intros Hf (N & i & Hi & E)%integralInRange_spec; [|done]. by rewrite (truncInt_integral f i), (toInt_integral _ _ i). Qed.

Lemma wf_canon v : wfValue v = true → wfValue (groupCanon v) = true.
Proof.
  induction v as [| | |f| |vs IH| | | |es IH| |] using gvalue_ind; intros Hv; try done; cbn [groupCanon].
  - destruct (integralInRange f) eqn:E; [|done]. wf_inv. apply integralInRange_spec in E as (_ & i & Hi & Ef); [|done].
    rewrite (truncInt_integral f i) by done. by apply bool_decide_eq_true.
  - wf_inv. apply wf_list. rewrite len_fmap. split; [done|]. apply Forall_fmap. rewrite Forall_forall in *. cbn. auto.
  - wf_inv. apply wf_map. unfold len. rewrite (Permutation_length (keySorted_perm _)), length_fmap. split; [done|]. split.
    + rewrite keySorted_perm. change (map ?f ?l) with (f <$> l). by rewrite <- list_fmap_compose.
    + rewrite keySorted_perm. change (map ?f ?l) with (f <$> l). apply Forall_fmap. rewrite Forall_forall in *. cbn. naive_solver.
Qed.

Lemma Key_enc v : Key v = enc (groupCanon v).
Proof. apply (AppendKey_enc []). Qed.

Lemma Key_canon a b : wfValue a = true → wfValue b = true → Key a = Key b ↔ groupCanon a = groupCanon b.
Proof.
  intros Ha Hb. rewrite !Key_enc. split; [|by intros ->]. intros E. apply (f_equal (λ l, l ++ [])) in E.
  by apply enc_prefix in E as [? _]; [|apply wf_canon..].
Qed.

(** C23: Key, the map key of DISTINCT and grouping, identifies values: two well-formed values have the same key exactly when they are the same once integral floats in the int64 range are read as integers and map entries are put in key order, at every depth, and a key never runs into what is appended after it. *)
Theorem group_keys_identify_values a b rest rest' : wfValue a = true → wfValue b = true →
  (Key a = Key b ↔ groupCanon a = groupCanon b) ∧
  (AppendKey [] a ++ rest = AppendKey [] b ++ rest' → Key a = Key b ∧ rest = rest').
Proof.
  intros Ha Hb. split; [by apply Key_canon|]. rewrite !AppendKey_enc. cbn. intros E.
  apply enc_prefix in E as [E ->]; [|by apply wf_canon..]. split; [|done]. by rewrite !Key_enc, E.
Qed.
Lemma group_keys_identify_values_witness :
  (Key (List [Float (ofInt 5); Str [Byte.x61]]) = Key (List [Int 5; Str [Byte.x61]]) ↔
   groupCanon (List [Float (ofInt 5); Str [Byte.x61]]) = groupCanon (List [Int 5; Str [Byte.x61]])) ∧
  (AppendKey [] (List [Float (ofInt 5); Str [Byte.x61]]) ++ [Byte.x00] = AppendKey [] (List [Int 5; Str [Byte.x61]]) ++ [Byte.x00] →
   Key (List [Float (ofInt 5); Str [Byte.x61]]) = Key (List [Int 5; Str [Byte.x61]]) ∧ [Byte.x00] = [Byte.x00]).
Proof. apply (group_keys_identify_values (List [Float (ofInt 5); Str [Byte.x61]]) (List [Int 5; Str [Byte.x61]]) [Byte.x00] [Byte.x00]); vm_compute; reflexivity. Defined.
