(* ===== verification/GqlAgree.v ===== *)
(** Equality, order, grouping and index probes agree.

    The query language compares values in four places: three-valued comparison
    ([Compare], behind =, < and IN), the order of ORDER BY ([OrderCmp]), the keys of
    DISTINCT and grouping ([Key]) and the probes of a property index ([seekProbes],
    gql/internal/exec/scan.go). This file proves where they agree and, on concrete
    values, where they do not: comparison goes through float64, which merges integers
    beyond 2^53, and ignores the kind of a temporal; keys and indexes do neither. *)

From S2P Require Import Prelude AtomTable Cost Float64 TemporalText GqlValue GqlOrder GqlKey.

(** seekProbes of scan.go: the value and its numeric twin. *)
Definition seekProbes (oor : Z → Z) (v : gvalue) : Datatypes.list gvalue :=
  match NumericTwin oor v with Some tw => [v; tw] | None => [v] end.

(** ** Maps with distinct keys *)

Lemma findKey_elem {B} k (v : B) y : NoDup y.*1 → findKey k y = Some v ↔ (k, v) ∈ y.
Proof.
  unfold findKey. induction y as [|[k' v'] y IH]; intros Hn; cbn; [split; [done|by intros ?%not_elem_of_nil]|].
  apply NoDup_cons in Hn as [Hk Hn]. rewrite elem_of_cons. case_bool_decide as D; cbn in *.
  - subst k'. split; [intros [= ->]; by left|intros [[= ->]|Hin]; [done|]]. destruct Hk. by apply (list_elem_of_fmap_2 fst) in Hin.
  - rewrite IH by done. naive_solver.
Qed.

Lemma mapsEqual_perm {A} (cmp : A → gvalue → option Z) x y : NoDup x.*1 → NoDup y.*1 →
  mapsEqual cmp x y = true ↔ ∃ y', y ≡ₚ y' ∧ Forall2 (λ e f, e.1 = f.1 ∧ cmp e.2 f.2 = Some 0) x y'.
Proof.
  intros Hx Hy. unfold mapsEqual. rewrite andb_true_iff, bool_decide_eq_true, forallb_forall. setoid_rewrite <- list_elem_of_In.
  unfold entryFound, equalBy. split.
  - intros [L HF]. pose (y' := (λ e, (e.1, default Null (findKey e.1 y))) <$> x). exists y'.
    assert (∀ e, e ∈ x → ∃ v, findKey e.1 y = Some v ∧ cmp e.2 v = Some 0) as Hf.
    { intros e He. specialize (HF e He). destruct (findKey e.1 y) as [v|]; [|done]. exists v. by apply bool_decide_eq_true in HF. }
    split.
    + symmetry. apply submseteq_length_Permutation; [|unfold y'; rewrite length_fmap; unfold len in L; lia].
      apply NoDup_submseteq.
      * apply (NoDup_fmap_1 fst). unfold y'. by rewrite <- list_fmap_compose.
      * intros f Hin. unfold y' in Hin. apply list_elem_of_fmap in Hin as (e & -> & He). destruct (Hf e He) as (v & Ev & _). rewrite Ev. by apply findKey_elem.
    + unfold y'. apply Forall2_fmap_r, Forall_Forall2_diag, Forall_forall. intros e He. cbn. destruct (Hf e He) as (v & -> & ?). done.
  - intros (y' & Hp & HF). split; [unfold len; by rewrite (Forall2_length _ _ _ HF), (Permutation_length Hp)|].
    intros e He. apply list_elem_of_lookup in He as [i Hi]. destruct (Forall2_lookup_l _ _ _ _ _ HF Hi) as (f & Hf & Ek & Ec).
    assert (findKey e.1 y = Some f.2) as ->; [|by apply bool_decide_eq_true]. apply findKey_elem; [done|]. rewrite Hp, Ek. destruct f. by eapply list_elem_of_lookup_2.
Qed.

(** Canonical entries agree when some reordering agrees entry by entry. *)
Lemma keySorted_agree {A B} (f : A → B) x y : NoDup x.*1 → NoDup y.*1 →
  keySorted ((λ e, (e.1, f e.2)) <$> x) = keySorted ((λ e, (e.1, f e.2)) <$> y) ↔
  ∃ y', y ≡ₚ y' ∧ Forall2 (λ e e', e.1 = e'.1 ∧ f e.2 = f e'.2) x y'.
Proof.
  intros Hx Hy. split.
  - intros E. assert ((λ e, (e.1, f e.2)) <$> x ≡ₚ (λ e, (e.1, f e.2)) <$> y) as Hp.
    { rewrite <- (keySorted_perm (_ <$> x)), E. apply keySorted_perm. }
    apply Permutation_map_inv in Hp as (y' & Ey & Hp). exists y'. split; [done|]. clear E Hx Hy Hp y. revert y' Ey.
    induction x as [|e x IH]; intros [|e' y'] Ey; [constructor|discriminate Ey..|]. injection Ey as E1 E2 E3. constructor; auto.
  - intros (y' & Hp & HF). rewrite (keySorted_unique (_ <$> y) ((λ e, (e.1, f e.2)) <$> y')); [|by rewrite <- list_fmap_compose|by rewrite Hp].
    f_equal. clear -HF. induction HF as [|e e' x y' [E1 E2] HF IH]; [done|]. rewrite !fmap_cons, IH, E1, E2. done.
Qed.

(** ** Comparison, kind by kind *)

Lemma cmpStr_eq s t : cmpStr s t = 0 ↔ s = t.
Proof. rewrite <- tcmp_strTree, tcmp_eq. apply strTree_inj. Qed.

Lemma compareNums_eq x y : isNaN x = false → isNaN y = false → compareNums x y = Some (cmpInt (fval x) (fval y)).
Proof.
  intros Nx Ny. unfold compareNums, flt, feq, cmpInt. rewrite Nx, Ny. cbn. repeat case_bool_decide; repeat case_decide; done || (exfalso; lia).
Qed.
Lemma compareNums_nan x y : isNaN x = true ∨ isNaN y = true → compareNums x y = None.
Proof. intros N. unfold compareNums, flt, feq. by destruct (isNaN x), (isNaN y), N. Qed.

Lemma compareLists_zero {A} (cmp : A → gvalue → option Z) x y :
  compareLists cmp x y = Some 0 ↔ Forall2 (λ a b, cmp a b = Some 0) x y.
Proof.
  revert y. unfold compareLists. induction x as [|a x IH]; intros [|b y].
  - split; [constructor|done].
  - cbn [compareCommon mbind option_bind]. split; [|by intros ?%Forall2_nil_cons_inv]. unfold cmpInt. lens. repeat case_decide; done || lia.
  - cbn [compareCommon mbind option_bind]. split; [|by intros ?%Forall2_cons_nil_inv]. unfold cmpInt. lens. repeat case_decide; done || lia.
  - rewrite Forall2_cons, <- IH. cbn [compareCommon]. destruct (cmp a b) as [c|]; [|naive_solver]. cbn. destruct (decide (c ≠ 0)) as [D|D]; cbn.
    + rewrite decide_True by done. naive_solver.
    + assert (c = 0) as -> by lia. rewrite !len_cons. unfold cmpInt.
      destruct (compareCommon cmp x y); cbn; [|naive_solver]. repeat case_decide; try lia; naive_solver lia.
Qed.

(** ** Equality and grouping *)

(** Values on which comparison is exact: integers up to 2^53, and no null, NaN or
    temporal at any depth. *)
Fixpoint groupable (v : gvalue) : bool :=
  match v with
  | Null | Temporal _ _ => false
  | Int i => bool_decide (- maxExact ≤ i ≤ maxExact)
  | Float f => negb (isNaN f)
  | List vs => forallb groupable vs
  | Map es => forallb (λ e, groupable e.2) es
  | _ => true
  end.

#[local] Instance List_inj : Inj (=) (=) List.
Proof. by intros ?? [=]. Qed.
#[local] Instance Map_inj : Inj (=) (=) Map.
Proof. by intros ?? [=]. Qed.

Lemma groupable_list vs : groupable (List vs) = true ↔ Forall (λ v, groupable v = true) vs.
Proof. cbn. rewrite forallb_forall, Forall_forall. by setoid_rewrite list_elem_of_In. Qed.
Lemma groupable_map es : groupable (Map es) = true ↔ Forall (λ e, groupable e.2 = true) es.
Proof. cbn. rewrite forallb_forall, Forall_forall. by setoid_rewrite list_elem_of_In. Qed.

Lemma Compare_nums a b x y : asNum a = Some x → asNum b = Some y → Compare a b = compareNums x y.
Proof. destruct a, b; cbn; intros Ea Eb; simplify_eq; done. Qed.

Lemma asNum_wf a x : wfValue a = true → asNum a = Some x → is_u64 x.
Proof. destruct a; cbn; intros Hw E; simplify_eq; wf_inv; [by apply ofInt_u64|done]. Qed.

Lemma asNum_exact a x : groupable a = true → asNum a = Some x → isNaN x = false.
Proof.
  destruct a; cbn; intros Hg E; simplify_eq; [|by apply negb_true_iff]. apply bool_decide_eq_true in Hg. apply ofInt_not_nan. unfold maxExact in Hg. lia.
Qed.

(** A number has the canonical form of its value. *)
Lemma num_canon a x : wfValue a = true → groupable a = true → asNum a = Some x →
  groupCanon a = if integralInRange x then Int (truncInt x) else Float x.
Proof.
  destruct a; cbn; intros Hw Hg E; simplify_eq; wf_inv; [|done]. unfold maxExact in *.
  assert (fval (ofInt i) = i * f64one) as Ei by (by apply fval_ofInt_small).
  rewrite (truncInt_integral _ i), (proj2 (integralInRange_spec _ (ofInt_u64 i ltac:(lia)))); [done| |done].
  split; [apply ofInt_not_nan; lia|by exists i].
Qed.

Lemma zero_integral x : is_u64 x → isNaN x = false → fval x = 0 → integralInRange x = true.
Proof. intros Hx Nx E. apply integralInRange_spec; [done|]. split; [done|]. exists 0. lia. Qed.

Lemma num_canon_eq x y : is_u64 x → is_u64 y → isNaN x = false → isNaN y = false →
  (if integralInRange x then Int (truncInt x) else Float x) = (if integralInRange y then Int (truncInt y) else Float y) ↔ fval x = fval y.
Proof.
  intros Hx Hy Nx Ny. pose proof f64one_pos as Hu.
  destruct (integralInRange x) eqn:Ix, (integralInRange y) eqn:Iy.
  - apply integralInRange_spec in Ix as (_ & i & Hi & Ei); [|done]. apply integralInRange_spec in Iy as (_ & j & Hj & Ej); [|done].
    rewrite (truncInt_integral x i), (truncInt_integral y j), Ei, Ej by done. split; [by intros [= ->]|]. intros E. f_equal. nia.
  - split; [done|]. intros E. apply integralInRange_spec in Ix as (_ & i & Hi & Ei); [|done].
    rewrite (proj2 (integralInRange_spec y Hy)) in Iy; [done|]. split; [done|]. exists i. by rewrite <- E.
  - split; [done|]. intros E. apply integralInRange_spec in Iy as (_ & i & Hi & Ei); [|done].
    rewrite (proj2 (integralInRange_spec x Hx)) in Ix; [done|]. split; [done|]. exists i. by rewrite E.
  - split; [by intros [= ->]|]. intros E. destruct (fval_inj x y Hx Hy E) as [->|[Z _]]; [done|]. by rewrite (zero_integral x) in Ix.
Qed.

Lemma Compare_nums_canon a b x y : wfValue a = true → wfValue b = true → groupable a = true → groupable b = true →
  asNum a = Some x → asNum b = Some y → Compare a b = Some 0 ↔ groupCanon a = groupCanon b.
Proof.
  intros Wa Wb Ga Gb Ea Eb. rewrite (Compare_nums a b x y), (num_canon a x), (num_canon b y) by done.
  rewrite num_canon_eq by eauto using asNum_wf, asNum_exact. rewrite compareNums_eq by eauto using asNum_exact.
  rewrite <- cmpInt_eq. split; congruence.
Qed.

(** Canonical forms keep the kind, numbers apart. *)
Lemma asNum_canon a : is_Some (asNum a) ↔ is_Some (asNum (groupCanon a)).
Proof. destruct a; cbn; try done. destruct (integralInRange bits); cbn; naive_solver. Qed.

Lemma Compare_canon_num a b : is_Some (asNum a) ∨ is_Some (asNum b) →
  wfValue a = true → wfValue b = true → groupable a = true → groupable b = true → Compare a b = Some 0 ↔ groupCanon a = groupCanon b.
Proof.
  intros Hn Wa Wb Ga Gb. pose proof (asNum_canon a) as Ha. pose proof (asNum_canon b) as Hb.
  destruct (asNum a) as [x|] eqn:Ea, (asNum b) as [y|] eqn:Eb; [by apply (Compare_nums_canon a b x y)|..|by destruct Hn as [[]|[]]].
  - split; [by destruct a, b|]. intros E. rewrite E, <- Hb in Ha. by destruct (proj1 Ha ltac:(eauto)).
  - split; [by destruct a, b|]. intros E. rewrite <- E, <- Ha in Hb. by destruct (proj1 Hb ltac:(eauto)).
Qed.

Lemma fmap_eq_Forall2 {A B} (f : A → B) x y : f <$> x = f <$> y ↔ Forall2 (λ a b, f a = f b) x y.
Proof.
  split; [|by induction 1 as [|a b x y E _ IH]; [|rewrite !fmap_cons, E, IH]]. revert y.
  induction x as [|a x IH]; intros [|b y] E; [constructor|discriminate E..|]. injection E as E1 E2. constructor; auto.
Qed.

Lemma Forall2_iff_on {A B} (R S : A → B → Prop) x y : (∀ a b, a ∈ x → b ∈ y → R a b ↔ S a b) →
  Forall2 R x y ↔ Forall2 S x y.
Proof.
  intros HRS. rewrite !Forall2_same_length_lookup. split; intros [L HF]; (split; [done|]); intros i a b Ha Hb; apply HRS || apply (proj1 (HRS _ _ _ _));
    eauto using list_elem_of_lookup_2.
Qed.

(** Where comparison is exact, equal values are those with one canonical form. *)
Lemma Compare_canon a b : wfValue a = true → wfValue b = true → groupable a = true → groupable b = true →
  Compare a b = Some 0 ↔ groupCanon a = groupCanon b.
Proof.
  revert b. induction a as [|b|i|f|s|vs IH|n|n|ns rs|es IH|ms k|m d l] using gvalue_ind; intros v Wa Wb Ga Gb; destruct v;
    try done; try (by apply Compare_canon_num; eauto).
  - cbn. destruct b, b0; done.
  - cbn. rewrite (inj_iff Some), cmpStr_eq. split; congruence.
  - rewrite groupable_list in Ga, Gb. wf_inv. cbn. repeat change (map ?f ?l) with (f <$> l). rewrite compareLists_zero, (inj_iff List), fmap_eq_Forall2.
    rewrite Forall_forall in *. apply Forall2_iff_on; auto.
  - cbn. rewrite (inj_iff Some), (cmpInt_eq n). split; congruence.
  - cbn. rewrite (inj_iff Some), (cmpInt_eq n). split; congruence.
  - cbn. unfold slicesEqual. repeat case_bool_decide; split; cbn; congruence.
  - rewrite groupable_map in Ga, Gb. wf_inv. cbn. repeat change (map ?f ?l) with (f <$> l). rewrite (inj_iff Map), keySorted_agree by done.
    transitivity (mapsEqual Compare es es0 = true); [by destruct (mapsEqual Compare es es0)|]. rewrite mapsEqual_perm by done.
    assert (∀ y', es0 ≡ₚ y' → ∀ e e', e ∈ es → e' ∈ y' → (e.1 = e'.1 ∧ Compare e.2 e'.2 = Some 0) ↔ (e.1 = e'.1 ∧ groupCanon e.2 = groupCanon e'.2)) as Hee.
    { intros y' Hp e e' He He'. rewrite <- Hp in He'. rewrite Forall_forall in *. apply and_iff_compat_l.
      apply IH; [done| | |by apply Ga|by apply Gb]; match goal with H : ∀ x, x ∈ _ → _ ∧ _ |- _ => by apply H end. }
    split; intros (y' & Hp & HF); exists y'; (split; [done|]); by apply (Forall2_iff_on _ _ _ _ (Hee y' Hp)).
  - cbn. case_bool_decide as D; [destruct_and! D; subst; done|]. split; [done|]. intros [=]. destruct D. done.
Qed.

(** C24: DISTINCT and grouping agree with =: two values built from integers up to 2^53, floats that are not NaN, booleans, strings, handles, paths, durations, lists and maps with distinct keys have the same group key exactly when Equal holds of them. *)
Theorem grouping_agrees_with_equality a b : wfValue a = true → wfValue b = true → groupable a = true → groupable b = true →
  Key a = Key b ↔ Equal a b = true.
Proof. intros Wa Wb Ga Gb. rewrite Key_canon by done. unfold Equal, equalBy. rewrite bool_decide_eq_true. symmetry. by apply Compare_canon. Qed.
(** A map with an integral float and -0.0 next to its integer spelling. *)
Definition groupA : gvalue := Map [([Byte.x61], Int 3); ([Byte.x62], List [Float (2 ^ 63)])].
Definition groupB : gvalue := Map [([Byte.x62], List [Int 0]); ([Byte.x61], Float (ofInt 3))].
Lemma grouping_agrees_with_equality_witness : Key groupA = Key groupB ↔ Equal groupA groupB = true.
Proof. apply (grouping_agrees_with_equality groupA groupB); vm_compute; reflexivity. Defined.

(** Equal under =, but two groups. *)
Definition splitByGrouping (a b : gvalue) : Prop := Equal a b = true ∧ Key a ≠ Key b.

(** Outside those values grouping and = part, although the comment of AppendKey says they agree: two integers beyond 2^53 with one float64, a date and a datetime of one instant, and a temporal and its epoch milliseconds are equal under = and fall into different groups. *)
Theorem grouping_splits_equal_values :
  splitByGrouping (Int 9007199254740992) (Int 9007199254740993) ∧
  splitByGrouping (Temporal 0 Date) (Temporal 0 DateTime) ∧
  splitByGrouping (Temporal 0 Date) (Int 0).
Proof. unfold splitByGrouping. repeat split; by vm_compute. Qed.

(** ** Comparison and the order of ORDER BY *)

(** Values without -0.0, which only the total order tells from 0.0, and without
    temporals, which only comparison sets against integers. *)
Fixpoint orderly (v : gvalue) : bool :=
  match v with
  | Float f => bool_decide (f ≠ 2 ^ 63)
  | Temporal _ _ => false
  | List vs => forallb orderly vs
  | Map es => forallb (λ e, orderly e.2) es
  | _ => true
  end.
Lemma orderly_list vs : orderly (List vs) = true ↔ Forall (λ v, orderly v = true) vs.
Proof. cbn. rewrite forallb_forall, Forall_forall. by setoid_rewrite list_elem_of_In. Qed.
Lemma orderly_map es : orderly (Map es) = true ↔ Forall (λ e, orderly e.2 = true) es.
Proof. cbn. rewrite forallb_forall, Forall_forall. by setoid_rewrite list_elem_of_In. Qed.

Lemma ofInt_not_negzero i : is_i64 i → ofInt i ≠ 2 ^ 63.
Proof.
  intros Hi E. destruct (ofInt_shape i Hi) as (_ & _ & S & _). rewrite E in S. change (signBit (2 ^ 63)) with true in S.
  symmetry in S. apply bool_decide_eq_true in S. pose proof (fval_ofInt_mono i (-1) Hi ltac:(lia) ltac:(lia)) as L. rewrite E in L.
  rewrite (fval_ofInt_small (-1)) in L by lia. change (fval (2 ^ 63)) with 0 in L. pose proof f64one_pos. lia.
Qed.

Lemma asNum_orderly a x : wfValue a = true → orderly a = true → asNum a = Some x → x ≠ 2 ^ 63.
Proof. destruct a; cbn; intros Hw Ho E; simplify_eq; wf_inv; [by apply ofInt_not_negzero|done]. Qed.

Lemma totalCmp_agrees x y c : is_u64 x → is_u64 y → x ≠ 2 ^ 63 → y ≠ 2 ^ 63 → compareNums x y = Some c → totalCmpF64 x y = c.
Proof.
  intros Hx Hy Zx Zy. destruct (isNaN x) eqn:Nx; [rewrite compareNums_nan by auto; done|]. destruct (isNaN y) eqn:Ny; [rewrite compareNums_nan by auto; done|].
  rewrite compareNums_eq by done. intros [= <-]. unfold totalCmpF64. destruct (Z.lt_trichotomy (fval x) (fval y)) as [L|[E|L]].
  - pose proof (totalKey_lt x y Hx Hy L). unfold cmpInt. repeat case_decide; lia.
  - assert (x = y) as ->; [|unfold cmpInt; repeat case_decide; lia]. destruct (fval_inj x y Hx Hy E) as [|(_ & Ax & Ay)]; [done|].
    pose proof (absBits_signed x Hx). pose proof (absBits_signed y Hy). destruct (signBit x), (signBit y); lia.
  - pose proof (totalKey_lt y x Hy Hx L). unfold cmpInt. repeat case_decide; lia.
Qed.

Lemma OrderCmp_nums a b x y : asNum a = Some x → asNum b = Some y → OrderCmp a b = totalCmpF64 x y.
Proof. destruct a, b; cbn; intros Ea Eb; simplify_eq; done. Qed.

Lemma compareLists_order {A} (cmp : A → gvalue → option Z) (ord : A → gvalue → Z) x y c :
  (∀ a b c, a ∈ x → b ∈ y → cmp a b = Some c → ord a b = c) → compareLists cmp x y = Some c → orderLists ord x y = c.
Proof.
  intros Hab. assert (∀ d, compareCommon cmp x y = Some d → orderCommon ord x y = d) as Hc.
  { revert y Hab. induction x as [|a x IH]; intros [|b y] Hab d; cbn; try by intros [= <-].
    destruct (cmp a b) as [e|] eqn:E; [|done]. rewrite (Hab a b e) by (try left; done). case_decide; [congruence|]. apply IH. intros; apply Hab; by try right. }
  unfold compareLists, orderLists. destruct (compareCommon cmp x y) as [d|]; [|done]. rewrite (Hc d) by done. cbn. case_decide; congruence.
Qed.

(** C25: ORDER BY refines the comparison operators: whenever Compare orders two well-formed values that hold no temporal and no -0.0 at any depth, OrderCmp gives the same answer, through nested lists and maps in any entry order. *)
Theorem OrderCmp_refines_Compare a b c : wfValue a = true → wfValue b = true → orderly a = true → orderly b = true →
  Compare a b = Some c → OrderCmp a b = c.
Proof.
  revert b c. induction a as [|b|i|f|s|vs IH|n|n|ns rs|es IH|ms k|m d l] using gvalue_ind; intros v c Wa Wb Oa Ob; destruct v; try done.
  all: try (erewrite Compare_nums, OrderCmp_nums by done; apply totalCmp_agrees; by eauto using asNum_wf, asNum_orderly).
  all: try (cbn; by intros [= <-]).
  - rewrite orderly_list in Oa, Ob. wf_inv. rewrite Forall_forall in *. cbn. apply compareLists_order. intros a b d Ha Hb. apply IH; auto.
  - cbn [Compare]. unfold slicesEqual. repeat case_bool_decide; try done. intros [= <-]. subst. apply OrderCmp_ties; done.
  - cbn [Compare]. intros E. assert (c = 0 ∧ mapsEqual Compare es es0 = true) as [-> Em] by (destruct (mapsEqual Compare es es0); naive_solver).
    apply OrderCmp_ties; [done..|]. rewrite orderly_map in Oa, Ob. wf_inv. cbn. repeat change (map ?f ?l) with (f <$> l). f_equal.
    apply keySorted_agree; [done..|]. apply mapsEqual_perm in Em as (y' & Hp & HF); [|done..]. exists y'. split; [done|].
    rewrite Forall2_same_length_lookup in *. destruct HF as [L HF]. split; [done|]. intros j e e' He He'. destruct (HF j e e' He He') as [Ek Ec]. split; [done|].
    rewrite Forall_forall in *. apply list_elem_of_lookup_2 in He, He'. rewrite <- Hp in He'.
    apply OrderCmp_ties; [naive_solver..|]. apply IH; naive_solver.
  - cbn [Compare]. case_bool_decide as D; [|done]. intros [= <-]. destruct D as (-> & -> & ->). apply OrderCmp_ties; done.
Qed.
Lemma OrderCmp_refines_Compare_witness : Compare (List [Int 1; Float (ofInt 2)]) (List [Float (ofInt 1); Int 3]) = Some (-1) ∧
  OrderCmp (List [Int 1; Float (ofInt 2)]) (List [Float (ofInt 1); Int 3]) = -1.
Proof. split; [vm_compute; reflexivity|]. apply (OrderCmp_refines_Compare (List _) (List _) (-1)); vm_compute; reflexivity. Defined.

(** Comparison turns around with its arguments. *)
Lemma Compare_nums_opp x y : compareNums y x = Z.opp <$> compareNums x y.
Proof.
  destruct (isNaN x) eqn:Nx; [rewrite !compareNums_nan by auto; done|]. destruct (isNaN y) eqn:Ny; [rewrite !compareNums_nan by auto; done|].
  rewrite !compareNums_eq by done. cbn. f_equal. apply cmpInt_opp.
Qed.

Lemma cmpStr_opp s t : cmpStr t s = - cmpStr s t.
Proof. rewrite <- !tcmp_strTree. apply tcmp_opp. Qed.

(** ** Index probes *)

Lemma Equal_nums v w x y : groupable v = true → groupable w = true → asNum v = Some x → asNum w = Some y →
  Equal v w = true ↔ fval x = fval y.
Proof.
  intros Gv Gw Ev Ew. unfold Equal, equalBy. rewrite bool_decide_eq_true, (Compare_nums v w x y), compareNums_eq by eauto using asNum_exact.
  rewrite <- cmpInt_eq. split; congruence.
Qed.

Lemma twin_float oor f i : is_u64 f → isNaN f = false → - maxExact ≤ i ≤ maxExact → fval f = i * f64one → NumericTwin oor (Float f) = Some (Int i).
Proof.
  unfold maxExact. intros Hf Nf Hi E. cbn. rewrite (toInt_integral oor f i) by (done || lia). unfold feq, fle, maxExact. rewrite !ofInt_not_nan by lia.
  rewrite Nf, !fval_ofInt_small, E by lia. cbn. pose proof f64one_pos. rewrite !bool_decide_true; [done|..]; nia.
Qed.

(** A property seek probes the right keys: of the stored numbers whose integers stay within 2^53, exactly those equal to the wanted number under = are among its probes (the value and its numeric twin), for every wanted number that is not zero, whatever int64 gives for a float out of range. *)
Theorem seek_probes_are_the_equal_numbers oor v w x y : wfValue v = true → wfValue w = true → groupable v = true → groupable w = true →
  asNum v = Some x → asNum w = Some y → fval x ≠ 0 → w ∈ seekProbes oor v ↔ Equal v w = true.
Proof.
  intros Wv Ww Gv Gw Ev Ew Hz. rewrite (Equal_nums v w x y) by done. pose proof (asNum_wf v x Wv Ev) as Ux. pose proof (asNum_wf w y Ww Ew) as Uy.
  assert (fval x = fval y → x = y) as Hxy by (intros E; by destruct (fval_inj x y Ux Uy E) as [|[? _]]).
  pose proof (asNum_exact v x Gv Ev) as Nx. pose proof (asNum_exact w y Gw Ew) as Ny. pose proof f64one_pos.
  unfold seekProbes. destruct v as [| |i|f| | | | | | | |]; try done; destruct w as [| |j|g| | | | | | | |]; try done; cbn in Ev, Ew; simplify_eq; cbn in Gv, Gw; rewrite ?bool_decide_eq_true in *.
  - cbn. rewrite decide_True by done. rewrite !elem_of_cons, elem_of_nil, !fval_ofInt_small by done. split; [intros [[= ->]|[?|?]]; done|]. intros E. left. f_equal. nia.
  - cbn. rewrite decide_True by done. rewrite !elem_of_cons, elem_of_nil. split; [intros [?|[[= ->]|?]]; done|]. intros E. right. left. f_equal. by rewrite Hxy.
  - split.
    + destruct (NumericTwin oor (Float x)) as [tw|] eqn:Et; rewrite !elem_of_cons, elem_of_nil; [|by intros [?|?]]. intros [?|[<-|?]]; [done| |done].
      cbn in Et. destruct (feq x _ && _ && _) eqn:F; [|done]. injection Et as <-. rewrite !andb_true_iff in F. destruct F as [[F _] _].
      unfold feq in F. rewrite !andb_true_iff, bool_decide_eq_true in F. tauto.
    + intros E. rewrite (twin_float oor x j) by (done || by rewrite E, fval_ofInt_small). right. left.
  - destruct (NumericTwin oor (Float x)) as [tw|] eqn:Et; rewrite !elem_of_cons, elem_of_nil.
    + cbn in Et. destruct (feq x _ && _ && _); [|done]. injection Et as <-. split; [intros [[= ->]|[?|?]]; done|]. intros E. left. f_equal. by rewrite Hxy.
    + split; [intros [[= ->]|?]; done|]. intros E. left. f_equal. by rewrite Hxy.
Qed.
Lemma seek_probes_are_the_equal_numbers_witness : Float (ofInt 30) ∈ seekProbes (λ _, 0) (Int 30) ↔ Equal (Int 30) (Float (ofInt 30)) = true.
Proof.
  apply (seek_probes_are_the_equal_numbers (λ _, 0) (Int 30) (Float (ofInt 30)) (ofInt 30) (ofInt 30)); try (vm_compute; reflexivity). vm_compute. discriminate.
Defined.

(** Zero is the exception: -0.0 equals 0 and is no probe of it, so a seek for 0 does
    not find a row that stores -0.0. *)
Lemma seek_for_zero_misses_negative_zero oor : Equal (Int 0) (Float (2 ^ 63)) = true ∧ Float (2 ^ 63) ∉ seekProbes oor (Int 0).
Proof.
  split; [by vm_compute|]. unfold seekProbes, NumericTwin, maxExact. rewrite decide_True by lia. change (ofInt 0) with 0.
  rewrite !elem_of_cons, elem_of_nil. intros [?|[[=]|?]]; done.
Qed.

(** ** Identity and logic *)

Lemma kindCode_inj k k' : kindCode k = kindCode k' → k = k'.
Proof. by destruct k, k'. Qed.

Lemma identicalElems_eq (same : gvalue → gvalue → bool) x y : Forall (λ a, ∀ b, b ∈ y → same a b = true ↔ a = b) x →
  len x = len y → identicalElems same x y = true ↔ x = y.
Proof.
  revert y. induction x as [|a x IH]; intros [|b y] HF L; unfold len in L; try done. apply Forall_cons in HF as [Ha HF]. cbn.
  rewrite andb_true_iff, (Ha b), IH; [naive_solver| |unfold len; simpl in L; lia|left].
  eapply Forall_impl; [exact HF|]. cbn. intros a' Ha' b' Hb'. apply Ha'. by right.
Qed.
Lemma identicalEntries_eq (same : gvalue → gvalue → bool) x y : Forall (λ e, ∀ f, f ∈ y → same e.2 f.2 = true ↔ e.2 = f.2) x →
  len x = len y → identicalEntries same x y = true ↔ x = y.
Proof.
  revert y. induction x as [|[k a] x IH]; intros [|[k' b] y] HF L; unfold len in L; try done. apply Forall_cons in HF as [Ha HF]. cbn.
  rewrite !andb_true_iff, (Ha (k', b)), bool_decide_eq_true, IH; cbn; [naive_solver| |unfold len; simpl in L; lia|left].
  eapply Forall_impl; [exact HF|]. cbn. intros a' Ha' b' Hb'. apply Ha'. by right.
Qed.

Lemma to_u64_inj x y : is_i64 x → is_i64 y → to_u64 x = to_u64 y → x = y.
Proof. intros Hx Hy E. by rewrite <- (to_i64_to_u64 x), <- (to_i64_to_u64 y), E. Qed.

(** Identical is equality of values. *)
Lemma Identical_eq a b : wfValue a = true → wfValue b = true → Identical a b = true ↔ a = b.
Proof.
  revert b. induction a as [|b|i|f|s|vs IH|n|n|ns rs|es IH|ms k|m d l] using gvalue_ind; intros v Wa Wb; destruct v; try done; wf_inv; cbn.
  - by destruct b, b0.
  - rewrite bool_decide_eq_true. split; [|congruence]. intros E. f_equal. by apply to_u64_inj.
  - rewrite bool_decide_eq_true. split; congruence.
  - rewrite bool_decide_eq_true. split; congruence.
  - rewrite andb_true_iff, bool_decide_eq_true. split; [|intros [= <-]; split; [done|apply identicalElems_eq; [|done..]]].
    + intros [L E]. f_equal. revert E. apply identicalElems_eq; [|done]. rewrite Forall_forall in *. eauto.
    + rewrite Forall_forall in *. eauto.
  - rewrite bool_decide_eq_true. split; congruence.
  - rewrite bool_decide_eq_true. split; congruence.
  - unfold slicesEqual. rewrite andb_true_iff, !bool_decide_eq_true. split; [intros [-> ->]; done|by intros [= -> ->]].
  - assert (Forall (λ e, ∀ f, f ∈ es0 → Identical e.2 f.2 = true ↔ e.2 = f.2) es) as HF.
    { rewrite Forall_forall in *. intros e He f Hf. apply IH; [done|..]; match goal with H : ∀ x, x ∈ _ → _ ∧ _ |- _ => by apply H end. }
    rewrite andb_true_iff, bool_decide_eq_true. split; [intros [L E]; f_equal; by apply (identicalEntries_eq _ _ _ HF L)|].
    intros [= <-]. split; [done|by apply (identicalEntries_eq _ _ _ HF)].
  - rewrite bool_decide_eq_true. split; [|intros [= -> ->]; done]. intros [E1 E2]. f_equal; [by apply to_u64_inj|by apply kindCode_inj].
  - rewrite bool_decide_eq_true. split; [|intros [= -> -> ->]; done]. intros (E1 & -> & ->). f_equal. by apply to_u64_inj.
Qed.

(** AND and OR are minimum and maximum of false < null < true. *)
Definition truthRank (v : gvalue) : Z := match v with Bool true => 2 | Null => 1 | _ => 0 end.
Lemma Kleene_lattice v w : let '(l, lk) := ThreeValued v in let '(r, rk) := ThreeValued w in
  truthRank (KleeneAnd l lk r rk) = Z.min (truthRank v) (truthRank w) ∧ truthRank (KleeneOr l lk r rk) = Z.max (truthRank v) (truthRank w).
Proof. by destruct v as [|[]| | | | | | | | | |], w as [|[]| | | | | | | | | |]. Qed.
