(* ===== verification/TopK.v ===== *)
(** ORDER BY, LIMIT and OFFSET (gql/internal/exec: project_sort.go, project_topk.go).

    Two implementations of sort-then-paginate: [sortRowsByOrder] decorates the
    materialized rows with typed or packed sort keys, selects the leading rows with a
    bounded heap when a LIMIT allows it and sorts the survivors; [topKRows] is the
    streaming accumulator, which keeps at most the wanted number of rows in a heap
    while they arrive and refuses most of them on a float64 shadow of its worst
    survivor. The flat key array of the code, nk keys per row, is a list of key
    vectors; the parallel arrays of [topKRows] are one array of entries. Key vectors
    are evaluated by the caller. *)

From S2P Require Import Prelude Heap Float64 TemporalText GqlValue.

#[export] Instance gvalue_inhabited : Inhabited gvalue := populate Null.
Abbreviation row := (Datatypes.list gvalue).

(** What the ordering reads of plan.ProjPlan: the direction of each ORDER BY key
    and the OFFSET and LIMIT counts (uint64). *)
Record ProjPlan := mkProj { Desc : Datatypes.list bool; Skip : option Z; Limit : option Z }.

Definition orderBound (proj : ProjPlan) : Z :=
  match Limit proj with
  | None => -1
  | Some k =>
      let k := match Skip proj with Some s => to_u64 (k + s) | None => k end in
      if decide (MaxInt64 < k) then -1 else k
  end.

Definition paginate {A} (v : Datatypes.list A) (skip limit : option Z) : res (Datatypes.list A) :=
  let truncate (v : Datatypes.list A) :=
    match limit with
    | Some l => if decide (l < len v) then slice v 0 l else Ok v
    | None => Ok v
    end in
  match skip with
  | Some s =>
      let s := to_i64 s in
      if decide (len v ≤ s) then Ok [] else v ← slice v s (len v); truncate v
  | None => truncate v
  end.

(** ** Bounded selection of row indices *)

Section by_cmp.
Context {A : Type} (cmp : A → A → Z).

(** The max-heap order: what sorts later goes nearer to the root. *)
Definition cmpAfter (x y : A) : Prop := 0 < cmp x y.
#[export] Instance cmpAfter_dec : RelDecision cmpAfter.
Proof. intros x y. unfold cmpAfter. apply _. Defined.

(** The order slices.SortFunc sorts by. *)
Definition cmpLe (x y : A) : Prop := cmp x y ≤ 0.
#[export] Instance cmpLe_dec : RelDecision cmpLe.
Proof. intros x y. unfold cmpLe. apply _. Defined.
Definition SortFunc (l : Datatypes.list A) : Datatypes.list A := merge_sort cmpLe l.

Definition siftDownIdx (h : Datatypes.list A) (i : Z) : res (Datatypes.list A) :=
  heapDown cmpAfter (length h) h (len h) i.

Definition topKStep (h : Datatypes.list A) (cand : A) : res (Datatypes.list A) :=
  root ← idx h 0;
  if decide (cmp cand root < 0) then h ← upd h 0 cand; siftDownIdx h 0 else Ok h.

Definition topKIdx (ix : Datatypes.list A) (k : Z) : res (Datatypes.list A) :=
  if decide (k = 0) then slice ix 0 0
  else
    h ← slice ix 0 k;
    h ← foldM siftDownIdx (rev (zseq (k / 2))) h;
    rest ← slice ix k (len ix);
    foldM topKStep rest h.
End by_cmp.

(** ** Sort keys *)

(** One key after the other, descending keys turned around. *)
Fixpoint cmpKeysFrom (k : nat) (desc : Datatypes.list bool) (x y : row) : Z :=
  match desc with
  | [] => 0
  | d :: desc =>
      let ord := OrderCmp (x !!! k) (y !!! k) in
      let ord := if d : bool then - ord else ord in
      if decide (ord ≠ 0) then ord else cmpKeysFrom (S k) desc x y
  end.
Definition cmpKeys (desc : Datatypes.list bool) (x y : row) : Z := cmpKeysFrom 0 desc x y.

Inductive colClass := colGeneric | colNumeric | colEntity.
#[export] Instance colClass_eq_dec : EqDecision colClass.
Proof. solve_decision. Defined.
#[export] Instance colClass_inhabited : Inhabited colClass := populate colGeneric.

(** The flags numeric, node, rel over a key column. *)
Fixpoint classLoop (f : bool * bool * bool) (col : Datatypes.list gvalue) : bool * bool * bool :=
  match col with
  | [] => f
  | v :: col =>
      let '(numeric, node, rel) := f in
      let f := match v with
        | Int _ | Float _ => (numeric, false, false)
        | Node _ => (false, node, false)
        | Rel _ => (false, false, rel)
        | _ => (false, false, false)
        end in
      if decide (f = (false, false, false)) then f else classLoop f col
  end.
Definition classOf (col : Datatypes.list gvalue) : colClass :=
  match col with
  | [] => colGeneric
  | _ =>
      let '(numeric, node, rel) := classLoop (true, true, true) col in
      if numeric : bool then colNumeric else if node || rel : bool then colEntity else colGeneric
  end.
Definition entityKey (v : gvalue) : Z := match v with Node n | Rel n => to_u32 n | _ => 0 end.

(** The comparison of one key by its class. *)
Definition classCmp (c : colClass) (x y : gvalue) : Z :=
  match c with
  | colNumeric => totalCmpF64 (orderNum x) (orderNum y)
  | colEntity => cmpUint (entityKey x) (entityKey y)
  | colGeneric => OrderCmp x y
  end.
Fixpoint typedCmpFrom (k : nat) (desc : Datatypes.list bool) (classes : Datatypes.list colClass) (x y : row) : Z :=
  match desc with
  | [] => 0
  | d :: desc =>
      let ord := classCmp (classes !!! k) (x !!! k) (y !!! k) in
      let ord := if d : bool then - ord else ord in
      if decide (ord ≠ 0) then ord else typedCmpFrom (S k) desc classes x y
  end.

(** The monotone encoding of a float64 for unsigned comparison. *)
Definition not64 (w : Z) : Z := 2 ^ 64 - 1 - w.
Definition packSortWordF64 (w : Z) : Z :=
  if decide (Z.land w (2 ^ 63) ≠ 0) then not64 w else Z.lor w (2 ^ 63).
Definition sortWord (c : colClass) (d : bool) (v : gvalue) : Z :=
  let w := match c with colNumeric => packSortWordF64 (orderNum v) | _ => entityKey v end in
  if d then not64 w else w.
Fixpoint wordsCmpFrom (k : nat) (desc : Datatypes.list bool) (classes : Datatypes.list colClass) (x y : row) : Z :=
  match desc with
  | [] => 0
  | d :: desc =>
      let u := sortWord (classes !!! k) d (x !!! k) in
      let w := sortWord (classes !!! k) d (y !!! k) in
      if decide (u ≠ w) then (if decide (u < w) then -1 else 1) else wordsCmpFrom (S k) desc classes x y
  end.

(** The index tiebreak. *)
Definition byIndex (keys : Datatypes.list row) (cmp : row → row → Z) (a b : Z) : Z :=
  let c := cmp (keys !!! Z.to_nat a) (keys !!! Z.to_nat b) in
  if decide (c ≠ 0) then c else a - b.

Definition sortRowsByOrder {B} (proj : ProjPlan) (keys : Datatypes.list row) (outs : Datatypes.list B) : res (Datatypes.list B) :=
  let nk := length (Desc proj) in
  let classes := (λ k, classOf ((λ x : row, x !!! k) <$> keys)) <$> seq 0 nk in
  let allTyped := bool_decide (0 < len outs) && forallb (λ c, bool_decide (c ≠ colGeneric)) classes in
  let cmp := byIndex keys (if allTyped then wordsCmpFrom 0 (Desc proj) classes else typedCmpFrom 0 (Desc proj) classes) in
  let ix := zseq (len outs) in
  let bound := orderBound proj in
  ix ← (if decide (0 ≤ bound < len ix) then topKIdx cmp ix bound else Ok ix);
  mapM (λ j, idx outs j) (SortFunc cmp ix).

(** ** The streaming accumulator *)

Record entry := mkEntry { ekeys : row; eout : row; eseq : Z }.
#[export] Instance entry_inhabited : Inhabited entry := populate (mkEntry [] [] 0).

Record topKRows := mkTopK {
  bound : Z; desc : Datatypes.list bool;
  ents : Datatypes.list entry; seq_ : Z;
  typedArmed : bool; thr : Datatypes.list Z; thrValid : bool;
}.
Definition set_ents (es : Datatypes.list entry) (t : topKRows) : topKRows :=
  mkTopK (bound t) (desc t) es (seq_ t) (typedArmed t) (thr t) (thrValid t).
Definition bumpSeq (t : topKRows) : topKRows :=
  mkTopK (bound t) (desc t) (ents t) (seq_ t + 1) (typedArmed t) (thr t) (thrValid t).
Definition set_thr (l : Datatypes.list Z) (v : bool) (t : topKRows) : topKRows :=
  mkTopK (bound t) (desc t) (ents t) (seq_ t) (typedArmed t) l v.

Definition newTopKRows (bound : Z) (order : Datatypes.list bool) : topKRows := mkTopK bound order [] 0 false [] false.
(** The arming of the typed shadow in newProjSink. *)
Definition armTyped (t : topKRows) : topKRows :=
  mkTopK (bound t) (desc t) (ents t) (seq_ t) true (replicate (length (desc t)) 0) (thrValid t).

Definition entryCmp (desc : Datatypes.list bool) (x y : entry) : Z :=
  let c := cmpKeys desc (ekeys x) (ekeys y) in if decide (c ≠ 0) then c else eseq x - eseq y.
Definition cmpTo (t : topKRows) (keys : row) (seq i : Z) : res Z :=
  e ← idx (ents t) i; Ok (entryCmp (desc t) (mkEntry keys [] seq) e).

(** The loop of refreshTyped: keys from [k] on. *)
Fixpoint shadowFrom (k n : nat) (keys : row) (l : Datatypes.list Z) : Datatypes.list Z * bool :=
  match n with
  | O => (l, true)
  | S n =>
      match AsInt (keys !!! k) with
      | Some v => shadowFrom (S k) n keys (<[k := ofInt v]> l)
      | None => (l, false)
      end
  end.
Definition refreshTyped (t : topKRows) : topKRows :=
  if negb (typedArmed t) || bool_decide (len (ents t) < bound t) then set_thr (thr t) false t
  else let '(l, v) := shadowFrom 0 (length (desc t)) (ekeys (ents t !!! 0%nat)) (thr t) in set_thr l v t.

Fixpoint typedRejectFrom (k : nat) (desc : Datatypes.list bool) (thr keys : Datatypes.list Z) : bool :=
  match desc with
  | [] => true
  | d :: desc =>
      if negb (feq (keys !!! k) (thr !!! k)) then
        let less := flt (keys !!! k) (thr !!! k) in
        negb (if d : bool then negb less else less)
      else typedRejectFrom (S k) desc thr keys
  end.
Definition typedReject (t : topKRows) (keys : Datatypes.list Z) : bool := typedRejectFrom 0 (desc t) (thr t) keys.

Definition wouldAccept (t : topKRows) (keys : row) : bool :=
  if decide (bound t = 0) then false
  else if decide (len (ents t) < bound t) then true
  else bool_decide (cmpKeys (desc t) keys (ekeys (ents t !!! 0%nat)) < 0).

Definition siftUp (t : topKRows) (i : Z) : res topKRows :=
  es ← heapUp (cmpAfter (entryCmp (desc t))) (length (ents t)) (ents t) i; Ok (set_ents es t).
Definition siftDown (t : topKRows) (i : Z) : res topKRows :=
  es ← heapDown (cmpAfter (entryCmp (desc t))) (length (ents t)) (ents t) (len (ents t)) i; Ok (set_ents es t).

Definition offer (t : topKRows) (keys out : row) : res (bool * topKRows) :=
  let seq := seq_ t in
  let t := bumpSeq t in
  if decide (bound t = 0) then Ok (false, t)
  else
    refused ← (if decide (len (ents t) = bound t) then c ← cmpTo t keys seq 0; Ok (bool_decide (0 ≤ c)) else Ok false);
    if refused : bool then Ok (false, t)
    else if decide (len (ents t) < bound t) then
      let t := set_ents (ents t ++ [mkEntry keys out seq]) t in
      t ← siftUp t (len (ents t) - 1);
      Ok (true, refreshTyped t)
    else
      es ← upd (ents t) 0 (mkEntry keys out seq);
      t ← siftDown (set_ents es t) 0;
      Ok (true, refreshTyped t).

(** The survivors in final order. *)
Definition sorted (t : topKRows) : Datatypes.list row := eout <$> SortFunc (entryCmp (desc t)) (ents t).
