(* ===== verification/TopKSpec.v ===== *)
(** Bounded selection equals sort-then-truncate.

    A comparison with the laws of a total preorder ([TotalCmp]) sorts; a heap under
    it keeps a selection: what it holds precedes what it refused. So the survivors,
    sorted, are the leading part of everything sorted. The typed and the packed
    comparison of sortRowsByOrder decide like [OrderCmp], and the streaming
    accumulator, with or without its float64 shadow, keeps what sorting would keep. *)

From S2P Require Import Prelude Heap AtomTable Float64 TemporalText GqlValue GqlOrder GqlAgree TopK.

(** ** Comparisons *)

Class TotalCmp {A} (cmp : A → A → Z) : Prop := {
  tc_opp : ∀ x y, cmp y x = - cmp x y;
  tc_trans : ∀ x y z, cmp x y ≤ 0 → cmp y z ≤ 0 → cmp x z ≤ 0;
}.

Section total.
Context {A : Type} (cmp : A → A → Z) `{!TotalCmp cmp}.
Lemma tc_refl x : cmp x x = 0.
Proof. pose proof (tc_opp (cmp:=cmp) x x). lia. Qed.
(** A strict step makes the whole strict. *)
Lemma tc_strict_l x y z : cmp x y < 0 → cmp y z ≤ 0 → cmp x z < 0.
Proof.
  intros H1 H2. pose proof (tc_trans (cmp:=cmp) x y z ltac:(lia) H2). destruct (decide (cmp x z = 0)) as [E|]; [|lia].
  pose proof (tc_opp (cmp:=cmp) x z). pose proof (tc_opp (cmp:=cmp) x y). pose proof (tc_trans (cmp:=cmp) y z x H2 ltac:(lia)). lia.
Qed.
Lemma tc_strict_r x y z : cmp x y ≤ 0 → cmp y z < 0 → cmp x z < 0.
Proof.
  intros H1 H2. pose proof (tc_trans (cmp:=cmp) x y z H1 ltac:(lia)). destruct (decide (cmp x z = 0)) as [E|]; [|lia].
  pose proof (tc_opp (cmp:=cmp) x z). pose proof (tc_opp (cmp:=cmp) y z). pose proof (tc_trans (cmp:=cmp) z x y ltac:(lia) H1). lia.
Qed.
#[export] Instance cmpAfter_heap : HeapOrder (cmpAfter cmp).
Proof.
  unfold cmpAfter. split.
  - intros x. rewrite tc_refl. lia.
  - intros x y H. rewrite (tc_opp (cmp:=cmp) x y). lia.
  - intros x y z H1 H2. pose proof (tc_trans (cmp:=cmp) z y x). lia.
Qed.
#[export] Instance cmpLe_trans : Transitive (cmpLe cmp).
Proof. intros x y z. apply tc_trans. Qed.
#[export] Instance cmpLe_total : Total (cmpLe cmp).
Proof. intros x y. unfold cmpLe. rewrite (tc_opp (cmp:=cmp) x y). lia. Qed.
Lemma SortFunc_perm l : SortFunc cmp l ≡ₚ l.
Proof. apply merge_sort_Permutation. Qed.
Lemma SortFunc_sorted l : StronglySorted (cmpLe cmp) (SortFunc cmp l).
Proof. apply StronglySorted_merge_sort; apply _. Qed.
End total.

(** First one comparison, then another. *)
Lemma tc_then {A} (c1 c2 : A → A → Z) : TotalCmp c1 → TotalCmp c2 → TotalCmp (λ x y, if decide (c1 x y ≠ 0) then c1 x y else c2 x y).
Proof.
  intros H1 H2. split.
  - intros x y. rewrite (tc_opp (cmp:=c1) x y), (tc_opp (cmp:=c2) x y). repeat case_decide; lia.
  - intros x y z. pose proof (tc_trans (cmp:=c1) x y z) as Ht. pose proof (tc_trans (cmp:=c2) x y z). pose proof (tc_strict_l c1 x y z). pose proof (tc_strict_r c1 x y z).
    repeat case_decide; intros; lia.
Qed.
Lemma tc_pull {A B} (f : A → B) (c : B → B → Z) : TotalCmp c → TotalCmp (λ x y, c (f x) (f y)).
Proof. intros H. split; intros; [apply tc_opp|by eapply tc_trans]. Qed.
Lemma tc_neg {A} (d : bool) (c : A → A → Z) : TotalCmp c → TotalCmp (λ x y, if d then - c x y else c x y).
Proof.
  intros H. destruct d; [|done]. split; intros; [by rewrite tc_opp|].
  pose proof (tc_trans (cmp:=c) z y x). rewrite (tc_opp (cmp:=c) y x), (tc_opp (cmp:=c) z y), (tc_opp (cmp:=c) z x) in *. lia.
Qed.

#[export] Instance cmpInt_total : TotalCmp cmpInt.
Proof. split; unfold cmpInt; intros; repeat case_decide; lia. Qed.
#[export] Instance sub_total : TotalCmp Z.sub.
Proof. split; lia. Qed.
#[export] Instance zero_total A : TotalCmp (λ _ _ : A, 0).
Proof. split; lia. Qed.
#[export] Instance OrderCmp_total : TotalCmp OrderCmp.
Proof.
  split; intros; rewrite !OrderCmp_sortKey in *; [apply tcmp_opp|].
  destruct (decide (tcmp (sortKey x) (sortKey y) = 0)) as [E|]; [by apply tcmp_eq in E as ->|].
  destruct (decide (tcmp (sortKey y) (sortKey z) = 0)) as [E|]; [by apply tcmp_eq in E as <-|].
  pose proof (tcmp_trans (sortKey x) (sortKey y) (sortKey z)). lia.
Qed.
#[export] Instance cmpKeysFrom_total k desc : TotalCmp (cmpKeysFrom k desc).
Proof.
  revert k. induction desc as [|d desc IH]; intros k; [apply zero_total|].
  apply (tc_then (λ x y, if d then - OrderCmp (x !!! k) (y !!! k) else OrderCmp (x !!! k) (y !!! k))); [|apply IH].
  apply (tc_neg d (λ x y : row, OrderCmp (x !!! k) (y !!! k))). apply (tc_pull (λ x : row, x !!! k)). apply _.
Qed.
#[export] Instance classCmp_total c : TotalCmp (classCmp c).
Proof.
  destruct c; [apply OrderCmp_total|apply (tc_pull (λ v, totalKey (orderNum v)))|apply (tc_pull entityKey cmpUint)]; apply cmpInt_total.
Qed.
#[export] Instance typedCmpFrom_total k desc classes : TotalCmp (typedCmpFrom k desc classes).
Proof.
  revert k. induction desc as [|d desc IH]; intros k; [apply zero_total|].
  apply (tc_then (λ x y, if d then - classCmp (classes !!! k) (x !!! k) (y !!! k) else classCmp (classes !!! k) (x !!! k) (y !!! k))); [|apply IH].
  apply (tc_neg d (λ x y : row, classCmp (classes !!! k) (x !!! k) (y !!! k))). apply (tc_pull (λ x : row, x !!! k)). apply _.
Qed.
#[export] Instance wordsCmpFrom_total k desc classes : TotalCmp (wordsCmpFrom k desc classes).
Proof.
  revert k. induction desc as [|d desc IH]; intros k; [apply zero_total|].
  pose proof (tc_then _ _ (tc_pull (λ x : row, sortWord (classes !!! k) d (x !!! k)) cmpInt _) (IH (S k))) as [H1 H2].
  assert (∀ x y, wordsCmpFrom k (d :: desc) classes x y = if decide (cmpInt (sortWord (classes !!! k) d (x !!! k)) (sortWord (classes !!! k) d (y !!! k)) ≠ 0)
    then cmpInt (sortWord (classes !!! k) d (x !!! k)) (sortWord (classes !!! k) d (y !!! k)) else wordsCmpFrom (S k) desc classes x y) as E.
  { intros x y. cbn. unfold cmpInt. repeat case_decide; lia. }
  split; intros; rewrite !E in *; [apply H1|by eapply H2].
Qed.
#[export] Instance byIndex_total keys cmp : TotalCmp cmp → TotalCmp (byIndex keys cmp).
Proof. intros H. apply (tc_then (λ a b, cmp (keys !!! Z.to_nat a) (keys !!! Z.to_nat b)) Z.sub); [|apply _]. by apply (tc_pull (λ a, keys !!! Z.to_nat a)). Qed.
#[export] Instance entryCmp_total desc : TotalCmp (entryCmp desc).
Proof. apply (tc_then (λ x y, cmpKeys desc (ekeys x) (ekeys y)) (λ x y, eseq x - eseq y)); [apply (tc_pull ekeys (cmpKeysFrom 0 desc))|apply (tc_pull eseq)]; apply _. Qed.

(** ** Selections *)

Section selection.
Context {A : Type} `{!Inhabited A} (cmp : A → A → Z) `{!TotalCmp cmp}.

(** [h] holds entries of [l], and none it left out precedes any of them. *)
Definition selects (h l : Datatypes.list A) : Prop :=
  ∃ rest, l ≡ₚ h ++ rest ∧ ∀ x y, x ∈ h → y ∈ rest → cmp x y ≤ 0.

(** Ties only between equal entries. *)
Definition separates (l : Datatypes.list A) : Prop := ∀ x y, x ∈ l → y ∈ l → cmp x y = 0 → x = y.

Lemma sorted_unique l k : separates l → l ≡ₚ k → StronglySorted (cmpLe cmp) l → StronglySorted (cmpLe cmp) k → l = k.
Proof.
  intros Hs Hp Sl Sk. apply (StronglySorted_unique_strong (cmpLe cmp)); [|done..]. intros x y Hx Hy H1 H2. rewrite <- Hp in Hy. apply Hs; [done..|].
  unfold cmpLe in *. rewrite (tc_opp x y) in H2. lia.
Qed.

Lemma selects_sorted h l : separates l → selects h l → SortFunc cmp h = take (length h) (SortFunc cmp l).
Proof.
  intros Hs (rest & Hp & Hle). assert (SortFunc cmp h ++ SortFunc cmp rest = SortFunc cmp l) as <-.
  { apply sorted_unique.
    - intros x y Hx Hy. rewrite !SortFunc_perm, <- Hp in Hx, Hy. by apply Hs.
    - by rewrite !SortFunc_perm.
    - apply StronglySorted_app. split; [|split; by apply SortFunc_sorted]. intros x y Hx Hy.
      rewrite SortFunc_perm in Hx, Hy. by apply Hle.
    - by apply SortFunc_sorted. }
  rewrite take_app_le by (by rewrite SortFunc_perm). by rewrite take_ge by (by rewrite SortFunc_perm).
Qed.

Abbreviation maxHeap := (heapOrdered (cmpAfter cmp)).
Lemma maxHeap_root h x : maxHeap h → x ∈ h → cmp x (h !!! 0%nat) ≤ 0.
Proof.
  intros Hh Hx. apply list_elem_of_lookup in Hx as [i Hi]. rewrite <- (list_lookup_total_correct _ _ _ Hi). apply lookup_lt_Some in Hi.
  pose proof (heapOrdered_root (cmpAfter cmp) h i Hh Hi) as H. unfold heapLe, cmpAfter in H. lia.
Qed.

(** A full selection takes one more candidate. *)
Lemma selects_refuse h l c : maxHeap h → h ≠ [] → selects h l → 0 ≤ cmp c (h !!! 0%nat) → selects h (c :: l).
Proof.
  intros Hh Hne (rest & Hp & Hle) Hc. exists (c :: rest). split; [rewrite Hp; by rewrite Permutation_middle|].
  intros x y Hx [->|Hy]%elem_of_cons; [|by apply Hle]. eapply tc_trans; [by apply maxHeap_root|]. rewrite tc_opp. lia.
Qed.
Lemma selects_replace h l c : maxHeap h → h ≠ [] → selects h l → cmp c (h !!! 0%nat) < 0 → ∃ h',
  (a ← upd h 0 c; heapDown (cmpAfter cmp) (length a) a (len a) 0) = Ok h' ∧ maxHeap h' ∧ length h' = length h ∧ selects h' (c :: l).
Proof.
  intros Hh Hne (rest & Hp & Hle) Hc. destruct (replaceRoot_ok (cmpAfter cmp) h c Hh Hne) as (h' & t & E & Hh' & P1 & P2).
  pose proof (λ x, maxHeap_root h x Hh) as Hr. set (r := h !!! 0%nat) in *. clearbody r.
  exists h'. split; [done|]. split; [done|]. split; [by rewrite P2, P1|]. exists (r :: rest). split.
  - rewrite P2, Hp, P1. cbn. by rewrite Permutation_middle.
  - intros x y. rewrite P2. intros [->|Hx]%elem_of_cons [->|Hy]%elem_of_cons.
    + lia.
    + assert (cmp c y < 0); [|lia]. eapply tc_strict_l; [done|done|]. apply Hle; [rewrite P1; left|done].
    + apply Hr. rewrite P1. by right.
    + apply Hle; [rewrite P1; by right|done].
Qed.

Lemma topKStep_ok h l c : maxHeap h → h ≠ [] → selects h l → ∃ h',
  topKStep cmp h c = Ok h' ∧ maxHeap h' ∧ length h' = length h ∧ selects h' (c :: l).
Proof.
  intros Hh Hne Hs. unfold topKStep. rewrite (idx_lookup h 0 (h !!! 0%nat)) by (try lia; by destruct h). cbn [mbind res_bind]. case_decide as D.
  - by apply selects_replace.
  - exists h. split; [done|]. split; [done|]. split; [done|]. apply selects_refuse; [done..|lia].
Qed.

Lemma topKLoop_ok rest : ∀ h l, maxHeap h → h ≠ [] → selects h l → ∃ h',
  foldM (topKStep cmp) rest h = Ok h' ∧ length h' = length h ∧ selects h' (rev rest ++ l).
Proof.
  induction rest as [|c rest IH]; intros h l Hh Hne Hs; [by exists h|]. destruct (topKStep_ok h l c Hh Hne Hs) as (h1 & E & Hh1 & L1 & Hs1).
  destruct (IH h1 (c :: l)) as (h' & E' & L' & Hs'); [done|by destruct h1, h|done|]. exists h'. split; [cbn [foldM]; by rewrite E|].
  split; [lia|]. cbn [rev]. by rewrite <- app_assoc.
Qed.

(** topKIdx selects the [k] least. *)
Lemma topKIdx_ok ix k : 0 ≤ k ≤ len ix → ∃ h, topKIdx cmp ix k = Ok h ∧ length h = Z.to_nat k ∧ selects h ix.
Proof.
  intros Hk. unfold topKIdx. case_decide as D.
  { exists []. rewrite slice_ok by lia. subst k. split; [done|]. split; [done|]. exists ix. split; [done|]. by intros x y ?%not_elem_of_nil. }
  rewrite !slice_ok by lia. cbn [mbind res_bind]. rewrite Z.sub_0_r. change (drop (Z.to_nat 0) ix) with ix. set (h := take (Z.to_nat k) ix).
  assert (length h = Z.to_nat k) as Lh by (unfold h; rewrite length_take; unfold len in Hk; lia).
  destruct (heapify_ok (cmpAfter cmp) (Z.to_nat (k / 2)) h) as (h1 & E & Hh & Hp).
  { rewrite Lh. apply Z2Nat.inj_le; dlia. }
  { apply heapFrom_leaves. rewrite Lh. dlia. }
  rewrite Z2Nat.id in E by dlia. unfold siftDownIdx. rewrite E. cbn [mbind res_bind].
  rewrite take_ge by (rewrite length_drop; unfold len; lia).
  destruct (topKLoop_ok (drop (Z.to_nat k) ix) h1 h) as (h' & E' & L' & Hs); [done| | |].
  - intros ->. apply Permutation_length in Hp. rewrite Lh in Hp. cbn in Hp. lia.
  - exists []. split; [by rewrite app_nil_r|]. by intros x y _ ?%not_elem_of_nil.
  - exists h'. split; [done|]. split; [by rewrite L', Hp|]. destruct Hs as (r & Hp' & Hle). exists r. split; [|done].
    rewrite <- Hp', <- (take_drop (Z.to_nat k) ix) at 1. fold h. rewrite Permutation_app_comm. f_equiv. apply Permutation_rev.
Qed.
End selection.

(** Comparisons that agree on a list sort it alike. *)
Lemma SortFunc_ext {A} (c1 c2 : A → A → Z) `{!TotalCmp c1, !TotalCmp c2} l : separates c1 l → (∀ x y, x ∈ l → y ∈ l → c1 x y = c2 x y) →
  SortFunc c1 l = SortFunc c2 l.
Proof.
  intros Hs He. apply (sorted_unique c1).
  - intros x y. rewrite !SortFunc_perm. apply Hs.
  - by rewrite !SortFunc_perm.
  - apply SortFunc_sorted, _.
  - assert (∀ x y, x ∈ SortFunc c2 l → y ∈ SortFunc c2 l → c1 x y = c2 x y) as He' by (intros x y; rewrite !SortFunc_perm; apply He).
    pose proof (SortFunc_sorted c2 l) as S. revert S He'. generalize (SortFunc c2 l). clear. intros k S. induction S as [|a k S IH HF]; intros He; constructor.
    + apply IH. intros x y Hx Hy. apply He; by right.
    + rewrite Forall_forall in *. intros x Hx. unfold cmpLe. rewrite He; [by apply HF|left|by right].
Qed.

(** ** The typed and the packed comparison *)

Definition isNum (v : gvalue) : bool := match v with Int _ | Float _ => true | _ => false end.
Definition isNode (v : gvalue) : bool := match v with Node _ => true | _ => false end.
Definition isRel (v : gvalue) : bool := match v with Rel _ => true | _ => false end.

Lemma classLoop_spec col : ∀ a b c, classLoop (a, b, c) col = (a && forallb isNum col, b && forallb isNode col, c && forallb isRel col).
Proof.
  induction col as [|v col IH]; intros a b c; cbn [classLoop forallb]; [by rewrite !andb_true_r|].
  destruct v; cbn [isNum isNode isRel]; case_decide as D; rewrite ?IH; simplify_eq; rewrite ?andb_false_r, ?andb_true_l; try done.
Qed.

Lemma classOf_numeric col : classOf col = colNumeric → Forall (λ v, isNum v = true) col.
Proof.
  destruct col as [|v col]; [done|]. unfold classOf. rewrite classLoop_spec. cbn [andb]. intros H. apply Forall_forall. intros x Hx.
  destruct (forallb isNum (v :: col)) eqn:E; [|by destruct (_ || _)]. rewrite forallb_forall in E. apply E. by apply list_elem_of_In.
Qed.
Lemma classOf_entity col : classOf col = colEntity → Forall (λ v, isNode v = true) col ∨ Forall (λ v, isRel v = true) col.
Proof.
  destruct col as [|v col]; [done|]. unfold classOf. rewrite classLoop_spec. cbn [andb]. destruct (forallb isNum (v :: col)); [done|].
  destruct (forallb isNode (v :: col)) eqn:E1; [intros _; left|destruct (forallb isRel (v :: col)) eqn:E2; [intros _; right|done]];
    apply Forall_forall; intros x Hx; rewrite forallb_forall in *; apply list_elem_of_In in Hx; auto.
Qed.

Lemma classCmp_agrees col x y : x ∈ col → y ∈ col → wfValue x = true → wfValue y = true → classCmp (classOf col) x y = OrderCmp x y.
Proof.
  intros Hx Hy Wx Wy. destruct (classOf col) eqn:E; [done|..]; cbn [classCmp].
  - apply classOf_numeric in E. rewrite Forall_forall in E. apply E in Hx, Hy. by destruct x, y.
  - apply classOf_entity in E as [E|E]; rewrite Forall_forall in E; apply E in Hx, Hy; destruct x, y; try done; cbn in Wx, Wy; unfold u32b in *; rewrite bool_decide_eq_true in *;
      cbn; rewrite !wrapU_small by lia; done.
Qed.

Lemma packSortWordF64_key w : is_u64 w → packSortWordF64 w = 2 ^ 63 + totalKey w.
Proof.
  intros Hw. rewrite totalKey_spec by done. pose proof (absBits_range w) as Hm. pose proof (absBits_signed w Hw) as E. unfold packSortWordF64.
  assert (Z.land w (2 ^ 63) ≠ 0 ↔ signBit w = true) as Hl.
  { pose proof (land_shiftl1 w 63 ltac:(lia)) as Hb. change (2 ^ 63) with (Z.shiftl 1 63) at 1. rewrite <- (bool_decide_eq_true (Z.land w (Z.shiftl 1 63) ≠ 0)), Hb.
    rewrite Z.testbit_true by lia. unfold signBit. rewrite bool_decide_eq_true. dlia. }
  case_decide as D.
  - rewrite (proj1 Hl D) in *. unfold not64. lia.
  - destruct (signBit w); [by apply Hl in D|]. rewrite <- Z.lxor_lor, <- Z.add_nocarry_lxor by exact D. lia.
Qed.

Lemma sortWord_agrees c d x y : c ≠ colGeneric → wfValue x = true → wfValue y = true →
  cmpInt (sortWord c d x) (sortWord c d y) = if d then - classCmp c x y else classCmp c x y.
Proof.
  intros Hc Wx Wy. assert (∀ u w, cmpInt (not64 u) (not64 w) = - cmpInt u w) as Hn by (intros; unfold cmpInt, not64; repeat case_decide; lia).
  assert (∀ v, wfValue v = true → is_u64 (orderNum v)) as Hu.
  { intros v Wv. unfold orderNum. destruct (asNum v) as [b|] eqn:E; [by eapply asNum_wf|]. cbn. unfold nanBits. lia. }
  assert (cmpInt (match c with colNumeric => packSortWordF64 (orderNum x) | _ => entityKey x end) (match c with colNumeric => packSortWordF64 (orderNum y) | _ => entityKey y end) = classCmp c x y) as E.
  { destruct c; [done| |done]. rewrite !packSortWordF64_key by auto. unfold classCmp, totalCmpF64, cmpInt. repeat case_decide; lia. }
  unfold sortWord. destruct d; [rewrite Hn|]; by rewrite E.
Qed.

Lemma typedCmp_agrees classes x y desc : ∀ k,
  (∀ j, (k ≤ j < k + length desc)%nat → classCmp (classes !!! j) (x !!! j) (y !!! j) = OrderCmp (x !!! j) (y !!! j)) →
  typedCmpFrom k desc classes x y = cmpKeysFrom k desc x y.
Proof.
  induction desc as [|d desc IH]; intros k H; cbn [typedCmpFrom cmpKeysFrom length]; [done|]. rewrite H by (cbn; lia).
  rewrite IH by (intros j Hj; apply H; cbn; lia). done.
Qed.

Lemma wordsCmp_agrees classes x y desc : ∀ k,
  (∀ j, (k ≤ j < k + length desc)%nat → classes !!! j ≠ colGeneric ∧ wfValue (x !!! j) = true ∧ wfValue (y !!! j) = true) →
  wordsCmpFrom k desc classes x y = typedCmpFrom k desc classes x y.
Proof.
  induction desc as [|d desc IH]; intros k H; cbn [typedCmpFrom wordsCmpFrom]; [done|]. destruct (H k) as (Hc & Wx & Wy); [cbn; lia|].
  rewrite IH by (intros j Hj; apply H; cbn; lia). pose proof (sortWord_agrees _ d _ _ Hc Wx Wy) as E. cbv zeta. rewrite <- E. unfold cmpInt. repeat case_decide; lia.
Qed.

(** ** Rows in order *)

(** The reference: row indices sorted by the ORDER BY keys, ties by position. *)
Definition refCmp (desc : Datatypes.list bool) (keys : Datatypes.list row) : Z → Z → Z := byIndex keys (cmpKeys desc).
Definition inOrder {B} `{!Inhabited B} (desc : Datatypes.list bool) (keys : Datatypes.list row) (outs : Datatypes.list B) : Datatypes.list B :=
  (λ j, outs !!! Z.to_nat j) <$> SortFunc (refCmp desc keys) (zseq (len outs)).

#[export] Instance refCmp_total desc keys : TotalCmp (refCmp desc keys).
Proof. apply byIndex_total, cmpKeysFrom_total. Qed.

Lemma byIndex_separates keys cmp l : separates (byIndex keys cmp) l.
Proof. intros x y _ _. unfold byIndex. case_decide; lia. Qed.

(** Key vectors of the plan's width, of well-formed values. *)
Definition wfKeys (proj : ProjPlan) (keys : Datatypes.list row) : Prop :=
  Forall (λ x, length x = length (Desc proj) ∧ Forall (λ v, wfValue v = true) x) keys.

Lemma wfKeys_at proj keys i k : wfKeys proj keys → (i < length keys)%nat → (k < length (Desc proj))%nat → wfValue ((keys !!! i : row) !!! k) = true.
Proof.
  intros Hw Hi Hk. destruct (lookup_lt_is_Some_2 keys i Hi) as [x Hx]. rewrite (list_lookup_total_correct _ _ _ Hx).
  unfold wfKeys in Hw. rewrite Forall_forall in Hw. destruct (Hw x) as [L W]; [by eapply list_elem_of_lookup_2|].
  destruct (lookup_lt_is_Some_2 x k ltac:(lia)) as [v Hv]. rewrite (list_lookup_total_correct _ _ _ Hv). rewrite Forall_forall in W. apply W. by eapply list_elem_of_lookup_2.
Qed.

Definition classesOf (proj : ProjPlan) (keys : Datatypes.list row) : Datatypes.list colClass :=
  (λ k, classOf ((λ x : row, x !!! k) <$> keys)) <$> seq 0 (length (Desc proj)).
Lemma classesOf_at proj keys k : (k < length (Desc proj))%nat → classesOf proj keys !!! k = classOf ((λ x : row, x !!! k) <$> keys).
Proof. intros Hk. apply list_lookup_total_correct. unfold classesOf. by rewrite list_lookup_fmap, lookup_seq_lt by done. Qed.

(** The comparison sortRowsByOrder picks decides like the reference. *)
Lemma chosen_cmp_agrees proj keys (typed : bool) a b : wfKeys proj keys → (typed = true → forallb (λ c, bool_decide (c ≠ colGeneric)) (classesOf proj keys) = true) →
  a ∈ zseq (len keys) → b ∈ zseq (len keys) →
  byIndex keys (if typed then wordsCmpFrom 0 (Desc proj) (classesOf proj keys) else typedCmpFrom 0 (Desc proj) (classesOf proj keys)) a b = refCmp (Desc proj) keys a b.
Proof.
  intros Hw Ht Ha Hb. rewrite elem_of_zseq in Ha, Hb. unfold len in Ha, Hb. unfold refCmp, byIndex. set (x := keys !!! Z.to_nat a). set (y := keys !!! Z.to_nat b).
  assert (∀ j, (j < length (Desc proj))%nat → wfValue (x !!! j) = true ∧ wfValue (y !!! j) = true) as Hxy by (intros j Hj; split; apply (wfKeys_at proj); auto; lia).
  assert (typedCmpFrom 0 (Desc proj) (classesOf proj keys) x y = cmpKeys (Desc proj) x y) as E1.
  { apply typedCmp_agrees. intros j Hj. rewrite classesOf_at by lia. destruct (Hxy j) as [? ?]; [lia|].
    apply classCmp_agrees; [apply (list_elem_of_fmap_2 (λ x : row, x !!! j)), list_elem_of_lookup_total_2; lia..|done|done]. }
  assert (typed = true → wordsCmpFrom 0 (Desc proj) (classesOf proj keys) x y = cmpKeys (Desc proj) x y) as E2.
  { intros ->. rewrite wordsCmp_agrees; [done|]. intros j Hj. split; [|apply Hxy; lia]. specialize (Ht eq_refl). rewrite forallb_forall in Ht.
    apply (bool_decide_eq_true_1 _), Ht, list_elem_of_In, list_elem_of_lookup_total_2. unfold classesOf. rewrite length_fmap, length_seq. lia. }
  destruct typed; [by rewrite E2|by rewrite E1].
Qed.

Lemma mapM_idx {B} `{!Inhabited B} (outs : Datatypes.list B) l : (∀ j, j ∈ l → 0 ≤ j < len outs) → mapM (λ j, idx outs j) l = Ok ((λ j, outs !!! Z.to_nat j) <$> l).
Proof.
  induction l as [|j l IH]; intros H; [done|]. cbn. destruct (H j) as [H1 H2]; [left|].
  destruct (lookup_lt_is_Some_2 outs (Z.to_nat j)) as [x Hx]; [unfold len in H2; lia|]. rewrite (idx_lookup _ _ x) by done. cbn.
  rewrite IH by (intros; apply H; by right). cbn. by rewrite (list_lookup_total_correct _ _ _ Hx).
Qed.

(** The rows kept by the bound. *)
Definition keptBy {B} (bound : Z) (l : Datatypes.list B) : Datatypes.list B := if decide (0 ≤ bound) then take (Z.to_nat bound) l else l.

Lemma sortRowsByOrder_ok {B} `{!Inhabited B} proj keys (outs : Datatypes.list B) : wfKeys proj keys → length keys = length outs →
  sortRowsByOrder proj keys outs = Ok (keptBy (orderBound proj) (inOrder (Desc proj) keys outs)).
Proof.
  intros Hw L. unfold sortRowsByOrder. fold (classesOf proj keys). set (typed := bool_decide (0 < len outs) && _).
  assert (typed = true → forallb (λ c, bool_decide (c ≠ colGeneric)) (classesOf proj keys) = true) as Ht by (unfold typed; rewrite andb_true_iff; tauto). clearbody typed.
  pose proof (λ a b, chosen_cmp_agrees proj keys typed a b Hw Ht) as He. set (cmp := byIndex keys _) in *.
  assert (TotalCmp cmp) as Hc by (unfold cmp; destruct typed; apply _). assert (∀ l, separates cmp l) as Hs by (intros l; apply byIndex_separates).
  assert (len keys = len outs) as Lk by (unfold len; lia). rewrite Lk in He. clearbody cmp. set (ix := zseq (len outs)) in *.
  assert (SortFunc cmp ix = SortFunc (refCmp (Desc proj) keys) ix) as Ex by (apply SortFunc_ext; [apply _|apply _|apply Hs|exact He]).
  assert (len ix = len outs) as Lix by (unfold ix, zseq; rewrite len_fmap; unfold len; rewrite length_seq; lia).
  assert (∀ j, j ∈ SortFunc cmp ix → 0 ≤ j < len outs) as Hin by (intros j; rewrite SortFunc_perm; unfold ix; by rewrite elem_of_zseq).
  assert (∀ n, mapM (λ j, idx outs j) (take n (SortFunc cmp ix)) = Ok (take n (inOrder (Desc proj) keys outs))) as Hm.
  { intros n. rewrite mapM_idx; [|intros j Hj; apply Hin; by eapply elem_of_take in Hj as (? & ?%list_elem_of_lookup_2 & _)].
    rewrite fmap_take, Ex. done. }
  unfold keptBy. destruct (decide (0 ≤ orderBound proj < len ix)) as [D|D]; cbn [mbind res_bind].
  - destruct (topKIdx_ok cmp ix (orderBound proj)) as (h & -> & Lh & Hsel); [lia|]. cbn [mbind res_bind].
    rewrite (selects_sorted cmp h ix) by done. rewrite Lh, Hm, decide_True by lia. done.
  - rewrite <- (take_ge (SortFunc cmp ix) (length ix)) by (by rewrite SortFunc_perm). rewrite Hm.
    assert (length (inOrder (Desc proj) keys outs) = length ix) as Lr by (unfold inOrder; rewrite length_fmap; by rewrite SortFunc_perm).
    rewrite take_ge by lia. case_decide; [|done]. rewrite take_ge; [done|]. unfold len in *. lia.
Qed.

(** SKIP and LIMIT of a sequence. *)
Definition page {B} (skip limit : option Z) (l : Datatypes.list B) : Datatypes.list B :=
  let l := match skip with Some s => drop (Z.to_nat s) l | None => l end in
  match limit with Some k => take (Z.to_nat k) l | None => l end.

Lemma paginate_ok {B} (l : Datatypes.list B) skip limit : (∀ s, skip = Some s → 0 ≤ s < 2 ^ 63) → (∀ k, limit = Some k → 0 ≤ k) →
  paginate l skip limit = Ok (page skip limit l).
Proof.
  intros Hs Hk. assert (∀ v : Datatypes.list B, match limit with Some k => if decide (k < len v) then slice v 0 k else Ok v | None => Ok v end
    = Ok (match limit with Some k => take (Z.to_nat k) v | None => v end)) as Ht.
  { intros v. destruct limit as [k|]; [|done]. specialize (Hk k eq_refl). case_decide.
    - rewrite slice_ok by lia. by rewrite Z.sub_0_r.
    - by rewrite take_ge by (unfold len in *; lia). }
  unfold paginate, page. destruct skip as [s|]; [|apply Ht]. specialize (Hs s eq_refl). rewrite wrapS_small by lia. case_decide.
  - rewrite drop_ge by (unfold len in *; lia). by destruct limit; [rewrite take_nil|].
  - rewrite slice_ok by lia. cbn [mbind res_bind]. rewrite take_ge by (rewrite length_drop; unfold len; lia). apply Ht.
Qed.

(** Counts for which skip+limit stays a uint64 and skip an int. *)
Definition wfCounts (proj : ProjPlan) : Prop :=
  (∀ s, Skip proj = Some s → 0 ≤ s < 2 ^ 63) ∧ (∀ k, Limit proj = Some k → 0 ≤ k < 2 ^ 64 ∧ k + default 0 (Skip proj) < 2 ^ 64).

(** What the bound drops, pagination would drop. *)
Lemma page_kept {B} proj (l : Datatypes.list B) : wfCounts proj → page (Skip proj) (Limit proj) (keptBy (orderBound proj) l) = page (Skip proj) (Limit proj) l.
Proof.
  intros [Hs Hk]. unfold keptBy, orderBound. destruct (Limit proj) as [k|]; [|done]. destruct (Hk k eq_refl) as [Hk0 Hk1]. unfold page.
  destruct (Skip proj) as [s|]; cbn [default from_option] in Hk1; unfold id in Hk1.
  - specialize (Hs s eq_refl). rewrite wrapU_small by lia. destruct (decide (MaxInt64 < k + s)); [by rewrite decide_False by lia|]. rewrite decide_True by lia. rewrite !skipn_firstn_comm, take_take. f_equal. lia.
  - destruct (decide (MaxInt64 < k)); [by rewrite decide_False by lia|]. rewrite decide_True by lia. rewrite take_take. f_equal. lia.
Qed.

(** ** The accumulator *)

Section accumulator.
Context (bnd : Z) (dirs : Datatypes.list bool) (Hbnd : 0 ≤ bnd).

(** The shadow is the root's key vector, all integers, as floats. *)
Definition shadowOk (t : topKRows) : Prop := thrValid t = true → bnd ≠ 0 ∧ len (ents t) = bnd ∧
  ∀ k, (k < length dirs)%nat → ∃ v, ekeys (ents t !!! 0%nat) !!! k = Int v ∧ thr t !!! k = ofInt v.

Record accCore (t : topKRows) (all : Datatypes.list entry) : Prop := {
  ai_bound : bound t = bnd; ai_desc : desc t = dirs; ai_seq : seq_ t = len all;
  ai_heap : heapOrdered (cmpAfter (entryCmp dirs)) (ents t);
  ai_sel : selects (entryCmp dirs) (ents t) all;
  ai_len : len (ents t) = Z.min bnd (len all);
  ai_thr : length (thr t) = if typedArmed t then length dirs else 0%nat;
}.
Definition accInv (t : topKRows) (all : Datatypes.list entry) : Prop := accCore t all ∧ shadowOk t.

Lemma accInv_new : accInv (newTopKRows bnd dirs) [].
Proof.
  split; [split; try done|done].
  - intros j Hj. cbn in Hj. lia.
  - exists []. split; [done|]. by intros x y ?%not_elem_of_nil.
  - cbn. rewrite len_nil. lia.
Qed.

Lemma shadowFrom_spec keys : ∀ n k l l' v, shadowFrom k n keys l = (l', v) → (k + n ≤ length l)%nat →
  length l' = length l ∧ (∀ j, (j < k)%nat → l' !!! j = l !!! j) ∧ (v = true → ∀ j, (k ≤ j < k + n)%nat → ∃ i, keys !!! j = Int i ∧ l' !!! j = ofInt i).
Proof.
  induction n as [|n IH]; intros k l l' v E Hl; cbn in E.
  { simplify_eq. split; [done|]. split; [done|]. intros; lia. }
  destruct (AsInt (keys !!! k)) as [i|] eqn:Ek; [|by simplify_eq]. destruct (keys !!! k) eqn:Ev; simplify_eq/=.
  destruct (IH _ _ _ _ E) as (L & Hlow & Hk); [rewrite length_insert; lia|]. rewrite length_insert in L. split; [done|]. split.
  - intros j Hj. rewrite Hlow by lia. by rewrite list_lookup_total_insert_ne by lia.
  - intros Hv j Hj. destruct (decide (j = k)) as [->|]; [|apply Hk; [done|lia]]. exists i. rewrite Hlow by lia. by rewrite list_lookup_total_insert_eq by lia.
Qed.

Lemma accInv_armed : accInv (armTyped (newTopKRows bnd dirs)) [].
Proof. destruct accInv_new as [[H1 H2 H3 H4 H5 H6 H7] Hs]. split; [split; try done|done]. cbn. by rewrite length_replicate. Qed.

Lemma refreshTyped_inv t all : accCore t all → ents t ≠ [] → accInv (refreshTyped t) all ∧ typedArmed (refreshTyped t) = typedArmed t.
Proof.
  intros [H1 H2 H3 H4 H5 H6 H7] Hne. unfold refreshTyped. destruct (negb (typedArmed t) || bool_decide (len (ents t) < bound t)) eqn:E; [by split; [split; [split|]|]|].
  apply orb_false_iff in E as [Ea Eb]. apply negb_false_iff in Ea. apply bool_decide_eq_false in Eb. rewrite Ea in H7.
  destruct (shadowFrom 0 (length (desc t)) (ekeys (ents t !!! 0%nat)) (thr t)) as [l v] eqn:Es.
  destruct (shadowFrom_spec _ _ _ _ _ _ Es) as (L & _ & Hk); [rewrite H2; lia|]. split; [|done]. split; [split; try done; cbn; rewrite Ea; lia|].
  intros Hv. cbn in Hv. assert (0 < len (ents t)) by (destruct (ents t); [done|rewrite len_cons; pose proof (len_nonneg l0); lia]).
  split; [lia|]. split; [cbn; lia|]. intros k Hkn. apply Hk; [done|]. rewrite H2. lia.
Qed.

(** Refused for good: what the heap holds stays a selection. *)
Lemma accInv_refuse t all e : accInv t all → len (ents t) = bnd → selects (entryCmp dirs) (ents t) (e :: all) → accInv (bumpSeq t) (all ++ [e]).
Proof.
  intros [[H1 H2 H3 H4 H5 H6 H7] Hs] Hn (r & Hp & Hle). split; [split; try done|exact Hs].
  - cbn. rewrite len_app, H3. done.
  - exists r. split; [|done]. by rewrite <- Hp, <- Permutation_cons_append.
  - cbn. rewrite len_app. change (len [e]) with 1. lia.
Qed.

(** Taken in: a new heap over one entry more. *)
Lemma accCore_take t all e es : accInv t all → heapOrdered (cmpAfter (entryCmp dirs)) es → selects (entryCmp dirs) es (e :: all) → len es = Z.min bnd (len all + 1) →
  accCore (set_ents es (bumpSeq t)) (all ++ [e]).
Proof.
  intros [[H1 H2 H3 H4 H5 H6 H7] Hs] Hh (r & Hp & Hle) L. split; try done.
  - cbn. rewrite len_app, H3. done.
  - exists r. split; [|done]. by rewrite <- Hp, <- Permutation_cons_append.
  - cbn. rewrite len_app. change (len [e]) with 1. lia.
Qed.

Lemma cmpTo_root t keys out seq : desc t = dirs → ents t ≠ [] → cmpTo t keys seq 0 = Ok (entryCmp dirs (mkEntry keys out seq) (ents t !!! 0%nat)).
Proof. intros Hd Hne. unfold cmpTo. rewrite (idx_lookup _ _ (ents t !!! 0%nat)) by (try lia; by destruct (ents t)). cbn. by rewrite Hd. Qed.

(** An offer keeps the invariant. *)
Lemma offer_ok t all keys out : accInv t all → ∃ b t', offer t keys out = Ok (b, t') ∧ accInv t' (all ++ [mkEntry keys out (len all)]) ∧ typedArmed t' = typedArmed t.
Proof.
  intros Hi. pose proof Hi as [[H1 H2 H3 H4 H5 H6 H7] Hs]. unfold offer. change (bound (bumpSeq t)) with (bound t). change (ents (bumpSeq t)) with (ents t). rewrite H1, H3.
  set (e := mkEntry keys out (len all)). pose proof (len_nonneg all) as Hall. destruct (decide (bnd = 0)) as [Hz|Hz].
  { exists false, (bumpSeq t). split; [done|]. split; [|done]. apply accInv_refuse; [done|lia|]. exists (e :: all).
    assert (ents t = []) as -> by (destruct (ents t); [done|rewrite len_cons in H6; pose proof (len_nonneg l); lia]). split; [done|]. by intros x y ?%not_elem_of_nil. }
  destruct (decide (len (ents t) = bnd)) as [Hf|Hf].
  - assert (ents t ≠ []) as Hne by (intros E; rewrite E, len_nil in Hf; lia). rewrite (cmpTo_root _ keys out) by done. cbn [mbind res_bind]. fold e.
    change (ents (bumpSeq t)) with (ents t). case_bool_decide as Hc.
    + exists false, (bumpSeq t). split; [done|]. split; [|done]. apply accInv_refuse; [done..|]. by apply selects_refuse; [apply _|..].
    + rewrite decide_False by lia. destruct (selects_replace (entryCmp dirs) (ents t) all e H4 Hne H5 ltac:(lia)) as (h & E & Hh & Lh & Hsel).
      unfold siftDown. change (desc (bumpSeq t)) with (desc t). destruct (upd (ents t) 0 e) as [es| |] eqn:Eu; [|done..]. cbn [mbind res_bind] in E |- *. cbn [set_ents ents desc bumpSeq]. rewrite H2, E. cbn [mbind res_bind].
      match goal with |- context [refreshTyped ?u] => destruct (refreshTyped_inv u (all ++ [e])) as [Hi' Ha] end.
      * apply (accCore_take t all e h); [done..|unfold len in *; lia].
      * cbn. by destruct h, (ents t).
      * eexists _, _. split; [done|]. split; [exact Hi'|exact Ha].
  - cbn [mbind res_bind]. rewrite decide_True by lia. destruct (heapPush_ok (cmpAfter (entryCmp dirs)) (ents t) e H4) as (h & E & Hh & Hp).
    unfold siftUp. cbn [set_ents ents desc bumpSeq]. rewrite H2, E. cbn [mbind res_bind].
    match goal with |- context [refreshTyped ?u] => destruct (refreshTyped_inv u (all ++ [e])) as [Hi' Ha] end.
    + apply (accCore_take t all e h); [done..| |].
      * destruct H5 as (r & Hpr & _). exists []. split; [|by intros x y _ ?%not_elem_of_nil]. rewrite app_nil_r, Hp. f_equiv.
        assert (r = []) as -> by (apply nil_length_inv; apply Permutation_length in Hpr; rewrite length_app in Hpr; unfold len in *; lia). by rewrite app_nil_r in Hpr.
      * unfold len. rewrite Hp. cbn. unfold len in *. lia.
    + cbn. intros ->. by apply Permutation_nil_l in Hp.
    + eexists _, _. split; [done|]. split; [exact Hi'|exact Ha].
Qed.

(** The gate of the sink: a row the gate refuses would be refused by the offer. *)
Lemma offer_refused t all keys out : accInv t all → Forall (λ e, eseq e < len all) all → wouldAccept t keys = false → offer t keys out = Ok (false, bumpSeq t).
Proof.
  intros [[H1 H2 H3 H4 H5 H6 H7] Hs] Hseq. unfold wouldAccept, offer. change (bound (bumpSeq t)) with (bound t). change (ents (bumpSeq t)) with (ents t). rewrite H1, H2, H3.
  destruct (decide (bnd = 0)) as [Hz|Hz]; [done|]. case_decide as Hn; [done|]. intros Hc%bool_decide_eq_false.
  assert (len (ents t) = bnd) as Hf by lia. rewrite decide_True by done. assert (ents t ≠ []) as Hne by (intros E; rewrite E, len_nil in Hf; lia).
  rewrite (cmpTo_root _ keys out) by done. cbn [mbind res_bind]. change (ents (bumpSeq t)) with (ents t). rewrite bool_decide_true; [done|]. unfold entryCmp. cbn.
  case_decide; [lia|]. assert (ents t !!! 0%nat ∈ all) as Hin.
  { destruct H5 as (r & -> & _). apply elem_of_app. left. destruct (ents t); [done|left]. }
  rewrite Forall_forall in Hseq. apply Hseq in Hin. lia.
Qed.

(** Integers compare as the floats of the shadow do. *)
Lemma OrderCmp_ints i v : is_i64 i → is_i64 v → OrderCmp (Int i) (Int v) = cmpInt (fval (ofInt i)) (fval (ofInt v)).
Proof.
  intros Hi Hv. rewrite (OrderCmp_nums (Int i) (Int v) (ofInt i) (ofInt v)) by done. apply totalCmp_agrees; first [by apply ofInt_u64|by apply ofInt_not_negzero|idtac].
  apply compareNums_eq; by apply ofInt_not_nan.
Qed.

Lemma typedReject_agrees x y fs l ds : ∀ k,
  (∀ j, (k ≤ j < k + length ds)%nat → ∃ i v, is_i64 i ∧ is_i64 v ∧ x !!! j = Int i ∧ fs !!! j = ofInt i ∧ y !!! j = Int v ∧ l !!! j = ofInt v) →
  typedRejectFrom k ds l fs = bool_decide (0 ≤ cmpKeysFrom k ds x y).
Proof.
  induction ds as [|d ds IH]; intros k H; cbn [typedRejectFrom cmpKeysFrom]; [by rewrite bool_decide_true|].
  destruct (H k) as (i & v & Hi & Hv & -> & -> & -> & ->); [cbn; lia|]. rewrite OrderCmp_ints by done. rewrite IH by (intros j Hj; apply H; cbn; lia).
  unfold feq, flt. rewrite !ofInt_not_nan by done. cbn [negb andb]. cbv zeta. set (a := fval (ofInt i)). set (b := fval (ofInt v)). clearbody a b.
  destruct (Z.lt_trichotomy a b) as [L|[E|L]].
  - assert (cmpInt a b = -1) as -> by (unfold cmpInt; by rewrite decide_True). rewrite (bool_decide_false (a = b)), (bool_decide_true (a < b)) by lia.
    destruct d; rewrite decide_True by lia; by vm_compute.
  - assert (cmpInt a b = 0) as -> by (by apply cmpInt_eq). rewrite (bool_decide_true (a = b)) by done. destruct d; by rewrite decide_False by lia.
  - assert (cmpInt a b = 1) as -> by (unfold cmpInt; by rewrite decide_False, decide_True by lia). rewrite (bool_decide_false (a = b)), (bool_decide_false (a < b)) by lia.
    destruct d; rewrite decide_True by lia; by vm_compute.
Qed.

Lemma wf_at_int (l : row) j v : Forall (λ v, wfValue v = true) l → l !!! j = Int v → is_i64 v.
Proof.
  intros Hw E. destruct (l !! j) as [u|] eqn:El.
  - rewrite (list_lookup_total_correct _ _ _ El) in E. subst u. rewrite Forall_forall in Hw. apply list_elem_of_lookup_2, Hw in El. cbn in El. by apply bool_decide_eq_true in El.
  - by rewrite list_lookup_total_alt, El in E.
Qed.

(** Typed keys of a row: the float64 of every key, all of them integers. *)
Definition typedKeys (keys : row) (fs : Datatypes.list Z) : Prop :=
  ∀ j, (j < length dirs)%nat → ∃ i, is_i64 i ∧ keys !!! j = Int i ∧ fs !!! j = ofInt i.

Lemma typedReject_gate t all keys fs : accInv t all → Forall (λ e, Forall (λ v, wfValue v = true) (ekeys e)) all → thrValid t = true → typedKeys keys fs →
  typedReject t fs = negb (wouldAccept t keys).
Proof.
  intros [[H1 H2 H3 H4 H5 H6 H7] Hs] Hw Hv Hk. destruct (Hs Hv) as (Hz & Hf & Hr). unfold typedReject, wouldAccept. rewrite H1, H2.
  rewrite decide_False by done. rewrite decide_False by lia. rewrite <- bool_decide_not. unfold cmpKeys.
  rewrite (typedReject_agrees keys (ekeys (ents t !!! 0%nat)) fs (thr t) dirs 0).
  { apply bool_decide_ext. lia. }
  intros j Hj. destruct (Hk j) as (i & Hi & Ei & Ef); [lia|]. destruct (Hr j) as (v & Ev & Et); [lia|]. exists i, v. split; [done|]. split; [|done].
  assert (ents t !!! 0%nat ∈ all) as Hin.
  { destruct H5 as (r & -> & _). apply elem_of_app. left. destruct (ents t); [rewrite len_nil in Hf; lia|left]. }
  rewrite Forall_forall in Hw. by eapply wf_at_int; [apply Hw|].
Qed.
End accumulator.

(** ** Survivors *)

(** The rows offered so far, as entries. *)
Definition numbered (l : Datatypes.list (row * row)) : Datatypes.list entry :=
  imap (λ i p, mkEntry p.1 p.2 (Z.of_nat i)) l.

Lemma len_numbered l : len (numbered l) = len l.
Proof. unfold len, numbered. by rewrite length_imap. Qed.

Lemma numbered_snoc l k o : numbered (l ++ [(k, o)]) = numbered l ++ [mkEntry k o (len (numbered l))].
Proof. rewrite len_numbered. unfold numbered. rewrite imap_app. cbn. unfold len. by rewrite Nat.add_0_r. Qed.

Lemma numbered_lookup l i : numbered l !! i = (λ p, mkEntry p.1 p.2 (Z.of_nat i)) <$> l !! i.
Proof. unfold numbered. by rewrite list_lookup_imap. Qed.

Lemma numbered_seq l : Forall (λ e, eseq e < len (numbered l)) (numbered l).
Proof.
  apply Forall_forall. intros e (i & Hi)%list_elem_of_lookup. pose proof (lookup_lt_Some _ _ _ Hi). rewrite numbered_lookup in Hi.
  destruct (l !! i); simplify_eq/=. unfold len. lia.
Qed.

Lemma numbered_separates dirs l : separates (entryCmp dirs) (numbered l).
Proof.
  intros x y (i & Hi)%list_elem_of_lookup (j & Hj)%list_elem_of_lookup E. assert (eseq x = eseq y) as Es by (revert E; unfold entryCmp; case_decide; lia).
  rewrite numbered_lookup in Hi, Hj. destruct (l !! i) as [p|] eqn:Ei; [|done]. destruct (l !! j) as [q|] eqn:Ej; [|done]. cbn in Hi, Hj. injection Hi as <-. injection Hj as <-. cbn in Es. apply Nat2Z.inj in Es as ->. by simplify_eq.
Qed.

Lemma numbered_zseq l : numbered l = (λ j, mkEntry (l.*1 !!! Z.to_nat j) (l.*2 !!! Z.to_nat j) j) <$> zseq (len l).
Proof.
  apply list_eq. intros i. rewrite numbered_lookup, list_lookup_fmap. unfold zseq. rewrite list_lookup_fmap, to_nat_len. destruct (l !! i) as [p|] eqn:E.
  - rewrite lookup_seq_lt by (by eapply lookup_lt_Some). cbn. rewrite Nat2Z.id. f_equal. f_equal; symmetry; apply list_lookup_total_correct; by rewrite list_lookup_fmap, E.
  - rewrite lookup_seq_ge by (by apply lookup_ge_None). done.
Qed.

Lemma numbered_inOrder dirs l : eout <$> SortFunc (entryCmp dirs) (numbered l) = inOrder dirs l.*1 l.*2.
Proof.
  rewrite numbered_zseq. unfold SortFunc, inOrder. rewrite (merge_sort_map _ (cmpLe (refCmp dirs l.*1)) (cmpLe (entryCmp dirs))) by done.
  rewrite <- list_fmap_compose, len_fmap. done.
Qed.

Lemma sorted_ok bnd dirs t l : 0 ≤ bnd → accInv bnd dirs t (numbered l) → sorted t = keptBy bnd (inOrder dirs l.*1 l.*2).
Proof.
  intros Hb [[H1 H2 H3 H4 H5 H6 H7] _]. unfold sorted, keptBy. rewrite H2, (selects_sorted (entryCmp dirs) (ents t) (numbered l)) by (done || apply numbered_separates).
  rewrite decide_True by done. rewrite fmap_take, numbered_inOrder.
  assert (length (inOrder dirs l.*1 l.*2) = length l) as L by (unfold inOrder, zseq; rewrite length_fmap, SortFunc_perm; by rewrite length_fmap, length_seq, len_fmap, to_nat_len).
  rewrite len_numbered in H6. unfold len in H6. destruct (decide (bnd ≤ Z.of_nat (length l))); [f_equal; lia|]. by rewrite !take_ge by lia.
Qed.
