(* ===== verification/Projection.v ===== *)
(** The projection sink (gql/internal/exec: project.go, aggregate_distinct.go).

    A query's matched rows arrive one by one; the sink evaluates the RETURN columns,
    drops duplicates under DISTINCT, keeps the leading rows under ORDER BY and LIMIT,
    stops the producer when a LIMIT without ORDER BY is met, and finally sorts and
    paginates. The sink is given first over any way to evaluate a row: [outOf] for the
    columns, [pushKeys] for the ORDER BY keys of a built row, [preKeys] for the keys the
    gated path evaluates before the row is built, and [typedOf] for the typed column
    reads of the prefilter. The last part is the plan they come from: expressions,
    scopes, the choice of the gate and of the typed keys in [newProjSink], and the run
    of a plan over its input, [runProjection]. *)

From Stdlib Require String.
From S2P Require Import Prelude Heap AtomTable Float64 Temporal TemporalText GqlValue GqlOrder GqlKey GqlAgree TopK TopKSpec.

(** ** DISTINCT *)

(** A probe set, [None] until its first entry; flatset is verified on its own. *)
Abbreviation u32set := (option (gset Z)).
Definition Built (s : u32set) : bool := match s with Some _ => true | None => false end.
Definition setAdd (id : Z) (s : u32set) : bool * u32set :=
  let s := default ∅ s in (bool_decide (id ∉ s), Some ({[id]} ∪ s)).

Record distinctSet := mkDistinct { smRel : bool; small : Datatypes.list Z; dnodes : u32set; drels : u32set; dother : gset gostring }.
Definition emptyDistinct : distinctSet := mkDistinct false [] None None ∅.

Definition setOf (isRel : bool) (d : distinctSet) : u32set := if isRel then drels d else dnodes d.
Definition put (isRel : bool) (s : u32set) (d : distinctSet) : distinctSet :=
  if isRel then mkDistinct (smRel d) (small d) (dnodes d) s (dother d) else mkDistinct (smRel d) (small d) s (drels d) (dother d).
Definition setSmall (isRel : bool) (l : Datatypes.list Z) (d : distinctSet) : distinctSet :=
  mkDistinct isRel l (dnodes d) (drels d) (dother d).

(** The inline array holds at most eight ids of the kind that claimed it. *)
Definition addEntity (id : Z) (isRel : bool) (d : distinctSet) : bool * distinctSet :=
  let spill (d : distinctSet) : bool * distinctSet :=
    let m := if bool_decide (smRel d = isRel) then Some (list_to_set (small d) ∪ default ∅ (setOf isRel d)) else setOf isRel d in
    let '(b, m) := setAdd id m in (b, put isRel m d) in
  if Built (setOf isRel d) then let '(b, m) := setAdd id (setOf isRel d) in (b, put isRel m d)
  else if bool_decide (small d = []) || bool_decide (smRel d = isRel) then
    let d := setSmall isRel (small d) d in
    if bool_decide (id ∈ small d) then (false, d)
    else if decide (len (small d) < 8) then (true, setSmall isRel (small d ++ [id]) d)
    else spill d
  else spill d.

Definition distinctAdd (v : gvalue) (d : distinctSet) : bool * distinctSet :=
  match v with
  | Node n => addEntity (to_u32 n) false d
  | Rel n => addEntity (to_u32 n) true d
  | _ => let k := AppendKey [] v in
      (bool_decide (k ∉ dother d), mkDistinct (smRel d) (small d) (dnodes d) (drels d) ({[k]} ∪ dother d))
  end.

(** One output column dedups through a distinctSet, several through the
    concatenated group keys. *)
Inductive dedup := SeenOne (d : distinctSet) | Seen (s : gset gostring).
Definition dedupAdd (out : row) (d : dedup) : bool * dedup :=
  match d with
  | SeenOne d => let '(b, d) := distinctAdd (out !!! 0%nat) d in (b, SeenOne d)
  | Seen s => let k := fold_left AppendKey out [] in (bool_decide (k ∉ s), Seen ({[k]} ∪ s))
  end.

(** ** The sink *)

Section sink.
Context {R : Type}.
Variable outOf : R → row.
Variable pushKeys : row → R → row.
Variable preKeys : R → row.
Variable typedOf : R → option (Datatypes.list Z).

Record projSink := mkSink {
  souts : Datatypes.list (row * R); limitCap : Z; topk : option topKRows;
  kGate : bool; kTyped : bool; seen : option dedup;
}.
Definition set_topk (t : topKRows) (p : projSink) : projSink := mkSink (souts p) (limitCap p) (Some t) (kGate p) (kTyped p) (seen p).
Definition set_seen (d : dedup) (p : projSink) : projSink := mkSink (souts p) (limitCap p) (topk p) (kGate p) (kTyped p) (Some d).
Definition addOut (o : row * R) (p : projSink) : projSink := mkSink (souts p ++ [o]) (limitCap p) (topk p) (kGate p) (kTyped p) (seen p).

(** [gateable]: every key evaluates before the row is built; [allTyped]: every key
    is a plain integer column read; [width]: the number of RETURN columns. *)
Definition sinkOf (proj : ProjPlan) (distinct gateable allTyped : bool) (width : Z) : projSink :=
  let seen := if distinct then Some (if decide (width = 1) then SeenOne emptyDistinct else Seen ∅) else None in
  let bound := orderBound proj in
  if decide (0 ≤ bound) then
    if decide (0 < len (Desc proj)) then
      let gate := negb distinct && gateable in
      let typed := gate && allTyped in
      let t := newTopKRows bound (Desc proj) in
      mkSink [] (-1) (Some (if typed then armTyped t else t)) gate typed seen
    else mkSink [] bound None false false seen
  else mkSink [] (-1) None false false seen.

(** The accumulator takes, or is told of, one row. *)
Definition offerRow (t : topKRows) (p : projSink) (out : row) (r : R) : res (bool * projSink) :=
  '(_, t) ← offer t (pushKeys out r) out; Ok (true, set_topk t p).

Definition typedRefuses (t : topKRows) (p : projSink) (r : R) : bool :=
  kTyped p && bool_decide (len (ents t) = bound t) && thrValid t &&
  match typedOf r with Some fs => typedReject t fs | None => false end.

Definition push (p : projSink) (r : R) : res (bool * projSink) :=
  if decide (0 ≤ limitCap p ≤ len (souts p)) then Ok (false, p)
  else match kGate p, topk p with
  | true, Some t =>
      if typedRefuses t p r then Ok (true, set_topk (bumpSeq t) p)
      else if negb (wouldAccept t (preKeys r)) then Ok (true, set_topk (bumpSeq t) p)
      else offerRow t p (outOf r) r
  | _, _ =>
      let out := outOf r in
      let '(fresh, p) := match seen p with
        | Some d => let '(b, d) := dedupAdd out d in (b, set_seen d p)
        | None => (true, p)
        end in
      if negb fresh then Ok (true, p)
      else match topk p with
      | Some t => offerRow t p out r
      | None =>
          let p := addOut (out, r) p in
          Ok (bool_decide (limitCap p < 0) || bool_decide (len (souts p) < limitCap p), p)
      end
  end.

(** The producer pushes until the sink has enough. *)
Fixpoint pushAll (p : projSink) (rs : Datatypes.list R) : res projSink :=
  match rs with
  | [] => Ok p
  | r :: rs => '(more, p) ← push p r; if more : bool then pushAll p rs else Ok p
  end.

Definition finalize (proj : ProjPlan) (p : projSink) : res (Datatypes.list row) :=
  match topk p with
  | Some t => paginate (sorted t) (Skip proj) (Limit proj)
  | None =>
      outs ← (if decide (0 < len (Desc proj)) then sortRowsByOrder proj ((λ o, pushKeys o.1 o.2) <$> souts p) (fst <$> souts p) else Ok (fst <$> souts p));
      paginate outs (Skip proj) (Limit proj)
  end.

Definition project (proj : ProjPlan) (distinct gateable allTyped : bool) (width : Z) (rs : Datatypes.list R) : res (Datatypes.list row) :=
  p ← pushAll (sinkOf proj distinct gateable allTyped width) rs;
  finalize proj p.
End sink.

(** ** Candidate batches

    A final match level hands its candidates over in one call; [cands] are the rows
    with the level's slot bound. Key [k] reads the bound slot ([onSlot]) or another one;
    [fnOf] is its typed read of a row and [bulkOf] the bulk column read of a candidate.
    The keys off the slot are read once, from the template row [r0]. *)

Section candidates.
Context {R : Type}.
Variable outOf : R → row.
Variable pushKeys : row → R → row.
Variable preKeys : R → row.
Variable nk : nat.
Variable onSlot : nat → bool.
Variable fnOf bulkOf : nat → R → option Z.

Definition typedRead (r : R) : option (Datatypes.list Z) := mapM (λ k, fnOf k r) (seq 0 nk).
Abbreviation pushRow := (push outOf pushKeys preKeys typedRead).

(** Row by row until the sink has enough. *)
Fixpoint pushEach (p : projSink (R := R)) (rs : Datatypes.list R) : res (bool * projSink) :=
  match rs with
  | [] => Ok (true, p)
  | r :: rs => '(more, p) ← pushRow p r; if more : bool then pushEach p rs else Ok (false, p)
  end.

Definition hot (t : topKRows) : bool := bool_decide (len (ents t) = bound t) && thrValid t.
Definition constOK (r0 : R) : bool := forallb (λ k, onSlot k || bool_decide (is_Some (fnOf k r0))) (seq 0 nk).
Definition bulkKeys (r0 r : R) : option (Datatypes.list Z) := mapM (λ k, if onSlot k then bulkOf k r else fnOf k r0) (seq 0 nk).

Definition rejected (p : projSink (R := R)) (r0 r : R) : option topKRows :=
  match topk p, bulkKeys r0 r with
  | Some t, Some fs => if hot t && typedReject t fs then Some t else None
  | _, _ => None
  end.
Fixpoint pushSegment (r0 : R) (p : projSink (R := R)) (seg : Datatypes.list R) : res (bool * projSink) :=
  match seg with
  | [] => Ok (true, p)
  | r :: seg =>
      match rejected p r0 r with
      | Some t => pushSegment r0 (set_topk (bumpSeq t) p) seg
      | None => '(more, p) ← pushRow p r; if more : bool then pushSegment r0 p seg else Ok (false, p)
      end
  end.

Definition chunkKeyBatch : nat := 1024.
Definition isHot (p : projSink (R := R)) : bool := match topk p with Some t => hot t | None => false end.
Fixpoint candLoop (fuel : nat) (r0 : R) (p : projSink (R := R)) (cands : Datatypes.list R) : res (bool * projSink) :=
  match fuel, cands with
  | _, [] => Ok (true, p)
  | 0%nat, _ => Panic
  | S fuel, r :: rest =>
      if negb (isHot p) then '(more, p) ← pushRow p r; if more : bool then candLoop fuel r0 p rest else Ok (false, p)
      else
        let seg := take chunkKeyBatch cands in
        '(more, p) ← (if constOK r0 then pushSegment r0 p seg else pushEach p seg);
        if more : bool then candLoop fuel r0 p (drop chunkKeyBatch cands) else Ok (false, p)
  end.

Definition pushCandidates (r0 : R) (p : projSink (R := R)) (cands : Datatypes.list R) : res (bool * projSink) :=
  if negb (kGate p) || negb (kTyped p) || bool_decide (topk p = None) then pushEach p cands else candLoop (length cands) r0 p cands.
End candidates.

(** ** The stream of rows and batches *)

Inductive projInput {R : Type} := OneRow (r : R) | Batch (slot : Z) (r0 : R) (cands : Datatypes.list R).
Arguments projInput : clear implicits.

Section stream.
Context {R : Type}.
Variable outOf : R → row.
Variable pushKeys : row → R → row.
Variable preKeys : R → row.
Variable nk : nat.
Variable keySlot : nat → Z.
Variable fnOf bulkOf : nat → R → option Z.

Definition pushInput (p : projSink (R := R)) (i : projInput R) : res (bool * projSink) :=
  match i with
  | OneRow r => push outOf pushKeys preKeys (typedRead nk fnOf) p r
  | Batch slot r0 cands => pushCandidates outOf pushKeys preKeys nk (λ k, bool_decide (keySlot k = slot)) fnOf bulkOf r0 p cands
  end.
Fixpoint pushInputs (p : projSink (R := R)) (ins : Datatypes.list (projInput R)) : res projSink :=
  match ins with
  | [] => Ok p
  | i :: ins => '(more, p) ← pushInput p i; if more : bool then pushInputs p ins else Ok p
  end.
Definition projectStream (proj : ProjPlan) (distinct gateable allTyped : bool) (width : Z) (ins : Datatypes.list (projInput R)) : res (Datatypes.list row) :=
  p ← pushInputs (sinkOf proj distinct gateable allTyped width) ins;
  finalize pushKeys proj p.
End stream.

(** ** Expressions

    What the sink can tell of an expression: a bare variable, a property read of a
    variable, or any other node of the syntax tree, whose check and evaluation are the
    evaluator's ([semantics.CheckRefs], [eval.Eval] and the compiled form of it). *)

Inductive Expr (X : Type) := EVar (name : gostring) | EProp (v key : gostring) | EOther (x : X).
Arguments EVar {X} name.
Arguments EProp {X} v key.
Arguments EOther {X} x.
#[export] Instance Expr_eq_dec `{EqDecision X} : EqDecision (Expr X).
Proof. solve_decision. Defined.

Abbreviation scope := (gmap gostring Z).

(** The slot of a name, [Null] when the name or the slot is missing. *)
Definition slotValue (r : row) (s : scope) (name : gostring) : gvalue :=
  match s !! name with
  | Some i => if decide (0 ≤ i) then default Null (r !! Z.to_nat i) else Null
  | None => Null
  end.

Class Evaluator (X : Type) := {
  otherEq :: EqDecision X;
  otherChecks : X → scope → bool;
  otherNames : X → Datatypes.list gostring;
  otherEval : X → row → scope → gvalue;
}.

(** A name is read alike under two scopes. *)
Definition agreeAt (r : row) (s : scope) (r' : row) (s' : scope) (name : gostring) : Prop :=
  (is_Some (s !! name) ↔ is_Some (s' !! name)) ∧ slotValue r s name = slotValue r' s' name.

(** Evaluation depends on the names an expression mentions, and yields values. *)
Class EvaluatorLaws (X : Type) `{Evaluator X} : Prop := {
  other_agree : ∀ x r s r' s', Forall (agreeAt r s r' s') (otherNames x) → otherEval x r s = otherEval x r' s';
  other_wf : ∀ x r s, Forall (λ v, wfValue v = true) r → wfValue (otherEval x r s) = true;
}.

(** Property reads of the graph; [graphI64] is the reader of an integer column. *)
Class GraphReads := {
  graphNode : Z → gostring → option gvalue;
  graphRel : Z → gostring → option gvalue;
  graphI64 : gostring → option (Z → option Z);
}.
Class GraphReadsLaws `{GraphReads} : Prop := {
  graphNode_wf : ∀ n key v, graphNode n key = Some v → wfValue v = true;
  graphRel_wf : ∀ n key v, graphRel n key = Some v → wfValue v = true;
  graphI64_node : ∀ key col n, graphI64 key = Some col → graphNode n key = Int <$> col n;
}.

Section expressions.
Context {X : Type} `{Evaluator X} `{GraphReads}.
Implicit Types e : Expr X.

Definition mapGet (es : Datatypes.list (gostring * gvalue)) (key : gostring) : gvalue :=
  match list_find (λ f, f.1 = key) es with Some (_, f) => f.2 | None => Null end.
Definition keyString (key : gostring) : String.string := String.string_of_list_byte key.
Definition temporalComponentOf (millis : Z) (key : gostring) : gvalue :=
  match Component millis (keyString key) with Some c => Int c | None => Null end.

Definition propRead (base : gvalue) (key : gostring) : gvalue :=
  match base with
  | Node n => default Null (graphNode n key)
  | Rel p => default Null (graphRel p key)
  | Map es => mapGet es key
  | Temporal ms _ => temporalComponentOf ms key
  | Int ms => temporalComponentOf ms key
  | Duration mo d ms => match DurationComponent mo d ms (keyString key) with Some c => Int c | None => Null end
  | _ => Null
  end.

Definition Eval e (r : row) (s : scope) : gvalue :=
  match e with
  | EVar name => slotValue r s name
  | EProp v key => propRead (slotValue r s v) key
  | EOther x => otherEval x r s
  end.

Definition CheckRefs e (s : scope) : bool :=
  match e with
  | EVar name => bool_decide (is_Some (s !! name))
  | EProp v _ => bool_decide (is_Some (s !! v))
  | EOther x => otherChecks x s
  end.
Definition namesOf e : Datatypes.list gostring :=
  match e with EVar name => [name] | EProp v _ => [v] | EOther x => otherNames x end.

(** ** The plan *)

Record Plan := mkPlan {
  Returns : Datatypes.list (Expr X); Columns : Datatypes.list gostring; OrderBy : Datatypes.list (Expr X * bool);
  PSkip : option Z; PLimit : option Z; Distinct : bool;
}.
Definition projOf (q : Plan) : ProjPlan := mkProj (snd <$> OrderBy q) (PSkip q) (PLimit q).

Definition findIndex {A} (P : A → Prop) `{!∀ x, Decision (P x)} (l : Datatypes.list A) : option Z := (λ f, Z.of_nat f.1) <$> list_find P l.
Definition OrderColIndex e (columns : Datatypes.list gostring) (returns : Datatypes.list (Expr X)) : Z :=
  match (match e with EVar name => findIndex (λ c, c = name) columns | _ => None end) with
  | Some i => i
  | None => default (-1) (findIndex (λ r, r = e) returns)
  end.

(** A key that reads a bare integer column of a node slot. *)
Definition typedKeyReader e (slots : scope) : option (Z * (Z → option Z)) :=
  match e with
  | EProp v key => slot ← slots !! v; col ← graphI64 key; Some (slot, col)
  | _ => None
  end.

Section plan.
Context (q : Plan) (slots : scope) (width : Z).

Definition colIdx e : Z := OrderColIndex e (Columns q) (Returns q).
Definition needM : bool := existsb (λ o, bool_decide (colIdx o.1 < 0)) (OrderBy q).
Definition kBase : Z := if needM then width else 0.
(** The matched variables, then the output columns over them. *)
Definition kScope : scope := foldl (λ s c, <[c.2 := kBase + c.1]> s) slots (enum (Columns q)).

Definition outRow (r : row) : row := (λ e, Eval e r slots) <$> Returns q.
(** Keys of a built row: an output column, or evaluated over both rows. *)
Definition builtKeys (out r : row) : row :=
  (λ o, if decide (0 ≤ colIdx o.1) then out !!! Z.to_nat (colIdx o.1) else Eval o.1 (r ++ out) kScope) <$> OrderBy q.
(** The expression a key evaluates before the row is built, in the matched row's scope. *)
Definition keyExpr (o : Expr X * bool) : Expr X := if decide (0 ≤ colIdx o.1) then default o.1 (Returns q !! Z.to_nat (colIdx o.1)) else o.1.
Definition earlyKeys (r : row) : row := (λ o, Eval (keyExpr o) r slots) <$> OrderBy q.

Definition gateable : bool := forallb (λ o, bool_decide (0 ≤ colIdx o.1) || CheckRefs o.1 slots) (OrderBy q).
Definition typedReaders : option (Datatypes.list (Z * (Z → option Z))) := mapM (λ o, typedKeyReader (keyExpr o) slots) (OrderBy q).
Definition allTyped : bool := gateable && bool_decide (is_Some typedReaders).

(** The [k]th typed key: its slot, its read of a row and its bulk read of a candidate's id. *)
Definition reader (k : nat) : Z * (Z → option Z) := default (0, λ _, None) (default [] typedReaders !! k).
Definition typedFn (k : nat) (r : row) : option Z :=
  match r !!! Z.to_nat (reader k).1 with Node n => ofInt <$> (reader k).2 n | _ => None end.
Definition bulkFn (k : nat) (r : row) : option Z := ofInt <$> (reader k).2 (match r !!! Z.to_nat (reader k).1 with Node n => n | _ => 0 end).

Definition newProjSink : projSink (R := row) := sinkOf (projOf q) (Distinct q) gateable allTyped (len (Returns q)).

Inductive sinkInput := SinkRow (r : row) | SinkCands (r : row) (slot : Z) (cands : Datatypes.list Z).
Definition candRow (r : row) (slot c : Z) : row := <[Z.to_nat slot := Node c]> r.
Definition inputOf (i : sinkInput) : projInput row :=
  match i with SinkRow r => OneRow r | SinkCands r slot cands => Batch slot r (candRow r slot <$> cands) end.

Definition runProjection (ins : Datatypes.list sinkInput) : res (Datatypes.list row) :=
  p ← pushInputs outRow builtKeys earlyKeys (length (OrderBy q)) (λ k, (reader k).1) typedFn bulkFn newProjSink (inputOf <$> ins);
  finalize builtKeys (projOf q) p.
End plan.
End expressions.
Arguments Plan X : clear implicits.
Arguments mkPlan {X}.
