(* ===== verification/ProjectionSpec.v ===== *)
(** The projection sink computes map, distinct, sort, skip and limit.

    Whatever the sink does on the way (inline dedup arrays, gated and typed refusals,
    a bounded heap, stopping the producer early, packed sort keys), the rows it
    returns are those of the plain relational pipeline: evaluate the columns, keep
    the first row of every group of equal rows under DISTINCT, sort by the ORDER BY
    keys with ties in arrival order, skip, limit. *)

From S2P Require Import Prelude Heap AtomTable Float64 TemporalText GqlValue GqlOrder GqlKey GqlAgree TopK TopKSpec Projection.
From S2P Require Import CheckedInt Temporal.

(** ** DISTINCT *)

Lemma rowKey_concat out b : fold_left AppendKey out b = b ++ concat (Key <$> out).
Proof. apply (fold_append Key). apply Forall_forall. intros v _ b'. by rewrite Key_enc, AppendKey_enc. Qed.

(** Rows of one width have one concatenated key exactly when they agree column by column. *)
Lemma rowKey_inj x y : length x = length y → Forall (λ v, wfValue v = true) x → Forall (λ v, wfValue v = true) y →
  fold_left AppendKey x [] = fold_left AppendKey y [] ↔ Key <$> x = Key <$> y.
Proof.
  intros L Hx Hy. rewrite !rowKey_concat. cbn. split; [|by intros ->]. intros E. revert y L Hy E. induction Hx as [|a x Wa Hx IH]; intros [|b y] L Hy E; try done.
  apply Forall_cons in Hy as [Wb Hy]. rewrite !fmap_cons in *. cbn in E. rewrite !Key_enc in E. apply enc_prefix in E as [Ek E]; [|by apply wf_canon..].
  rewrite !Key_enc, Ek. f_equal. apply IH; [by injection L|done|done].
Qed.

(** Membership in a distinctSet. *)
Definition entityIn (d : distinctSet) (isRel : bool) (id : Z) : Prop :=
  id ∈ (default ∅ (setOf isRel d) : gset Z) ∨ (smRel d = isRel ∧ id ∈ small d).
(** A set that took over holds what the inline array held. *)
Definition wfDistinct (d : distinctSet) : Prop := Built (setOf (smRel d) d) = true → ∀ id, id ∈ small d → id ∈ (default ∅ (setOf (smRel d) d) : gset Z).

Lemma setOf_put k k' s d : setOf k' (put k s d) = if decide (k' = k) then s else setOf k' d.
Proof. by destruct k, k'. Qed.
Lemma setOf_setSmall k k' l d : setOf k' (setSmall k l d) = setOf k' d.
Proof. by destruct k'. Qed.
Lemma put_fields k s d : smRel (put k s d) = smRel d ∧ small (put k s d) = small d ∧ dother (put k s d) = dother d.
Proof. by destruct k. Qed.

(** What adding an entity promises. *)
Definition entityAdded (d : distinctSet) (k : bool) (id : Z) (b : bool) (d' : distinctSet) : Prop :=
  wfDistinct d' ∧ (b = true ↔ ¬ entityIn d k id) ∧ (∀ k' i, entityIn d' k' i ↔ entityIn d k' i ∨ (k' = k ∧ i = id)) ∧ dother d' = dother d.

(** Adding to the set of a kind whose inline ids, if any, it holds. *)
Lemma setAdd_spec d k id m : (∀ i, i ∈ (default ∅ m : gset Z) ↔ entityIn d k i) → wfDistinct d →
  let '(b, m') := setAdd id m in entityAdded d k id b (put k m' d).
Proof.
  intros Hm Hw. unfold setAdd. destruct (put_fields k (Some ({[id]} ∪ default ∅ m)) d) as (E1 & E2 & E3). split; [|split; [|split; [|done]]].
  - unfold wfDistinct. rewrite E1, E2, setOf_put. case_decide as D; [|exact Hw]. intros _ i Hi. cbn. apply elem_of_union. right. apply Hm. right. done.
  - rewrite bool_decide_eq_true, Hm. done.
  - intros k' i. unfold entityIn at 1. rewrite E1, E2, setOf_put. case_decide as D.
    + subst k'. cbn. rewrite elem_of_union, elem_of_singleton, Hm. unfold entityIn. naive_solver.
    + unfold entityIn. naive_solver.
Qed.

Lemma addEntity_spec id k d : wfDistinct d → let '(b, d') := addEntity id k d in entityAdded d k id b d'.
Proof.
  intros Hw. unfold addEntity. destruct (Built (setOf k d)) eqn:B.
  { apply (setAdd_spec d k id (setOf k d)); [|done]. intros i. unfold entityIn. split; [by left|]. intros [?|[Ek Hi]]; [done|]. subst k. by apply Hw. }
  assert (setOf k d = None) as En by (by destruct (setOf k d)).
  destruct (bool_decide (small d = []) || bool_decide (smRel d = k)) eqn:C.
  - set (d1 := setSmall k (small d) d).
    assert (∀ k' i, entityIn d1 k' i ↔ entityIn d k' i) as Hd1.
    { intros k' i. unfold entityIn, d1. rewrite setOf_setSmall. cbn. apply orb_true_iff in C as [C|C]; apply bool_decide_eq_true in C; [|by rewrite C].
      rewrite C. rewrite !elem_of_nil. naive_solver. }
    assert (∀ l, wfDistinct (setSmall k l d)) as Hw1 by (intros l; unfold wfDistinct; rewrite setOf_setSmall; cbn; by rewrite En).
    assert (small d1 = small d) as Es1 by done. destruct (decide (id ∈ small d)) as [Hin|Hin].
    { rewrite bool_decide_true by (by rewrite Es1). split; [apply Hw1|]. split; [|split; [|done]]; [|intros k' i; rewrite Hd1].
      - split; [done|]. intros Hn. exfalso. apply Hn, Hd1. by right.
      - split; [by left|]. intros [?|[-> ->]]; [done|]. apply Hd1. right. done. }
    rewrite (bool_decide_false (id ∈ small d1)) by (by rewrite Es1). destruct (decide (len (small d1) < 8)) as [L|L].
    { split; [apply (Hw1 (small d ++ [id]))|]. split; [|split; [|done]].
      - split; [|done]. intros _ [H|[H1 H2]]; [by rewrite En in H|done].
      - intros k' i. rewrite <- Hd1. unfold entityIn, d1. rewrite !setOf_setSmall. cbn. rewrite elem_of_app, list_elem_of_singleton. naive_solver. }
    rewrite bool_decide_true by done. assert (setOf k d1 = None) as -> by (unfold d1; by rewrite setOf_setSmall).
    pose proof (setAdd_spec d1 k id (Some (list_to_set (small d1) ∪ default ∅ None))) as Ha. destruct (setAdd id _) as [b m] eqn:Es.
    destruct Ha as (A1 & A2 & A3 & A4); [|by apply Hw1|].
    + intros i. unfold entityIn, d1. rewrite setOf_setSmall, En. cbn. rewrite elem_of_union, elem_of_list_to_set. naive_solver.
    + split; [done|]. rewrite Hd1 in A2. split; [done|]. split; [|done]. intros k' i. by rewrite A3, Hd1.
  - apply orb_false_iff in C as [C1 C2]. apply bool_decide_eq_false in C1, C2. rewrite bool_decide_false by done.
    apply (setAdd_spec d k id (setOf k d)); [|done]. intros i. unfold entityIn. naive_solver.
Qed.

Definition valueIn (d : distinctSet) (v : gvalue) : Prop :=
  match v with Node n => entityIn d false n | Rel n => entityIn d true n | _ => Key v ∈ dother d end.
Definition distinctRep (d : distinctSet) (seenL : Datatypes.list (Datatypes.list gostring)) : Prop :=
  wfDistinct d ∧ ∀ v, wfValue v = true → valueIn d v ↔ [Key v] ∈ seenL.

Definition entityValue (k : bool) (n : Z) : gvalue := if k then Rel n else Node n.
Lemma Key_entity k n v : wfValue v = true → wfValue (entityValue k n) = true → Key v = Key (entityValue k n) ↔ v = entityValue k n.
Proof.
  intros Hv Hn. rewrite Key_canon by done. split; [|by intros ->]. destruct k; destruct v; cbn; try done; destruct (integralInRange bits); done.
Qed.
Lemma one_key (x y : gostring) : [x] = [y] ↔ x = y.
Proof. split; congruence. Qed.

Lemma distinctAdd_spec v d seenL : wfValue v = true → distinctRep d seenL →
  let '(b, d') := distinctAdd v d in b = bool_decide ([Key v] ∉ seenL) ∧ distinctRep d' ([Key v] :: seenL).
Proof.
  intros Wv [Hw Hm].
  assert (∀ k n, v = entityValue k n → let '(b, d') := addEntity n k d in b = bool_decide ([Key v] ∉ seenL) ∧ distinctRep d' ([Key v] :: seenL)) as Hent.
  { intros k n ->. pose proof (addEntity_spec n k d Hw) as Ha. destruct (addEntity n k d) as [b d']. destruct Ha as (A1 & A2 & A3 & A4).
    assert (entityIn d k n ↔ [Key (entityValue k n)] ∈ seenL) as Hn by (rewrite <- Hm by done; by destruct k).
    split; [|split; [done|]].
    - rewrite Hn in A2. symmetry. destruct b; [apply bool_decide_true; tauto|apply bool_decide_false]. intros Hno. by apply A2 in Hno.
    - intros u Wu. rewrite elem_of_cons, one_key, Key_entity, <- Hm by done. destruct k, u; cbn; rewrite ?A3, ?A4; naive_solver. }
  destruct v; cbn [distinctAdd]; try (by cbn in Wv; apply bool_decide_eq_true in Wv; rewrite wrapU_small by lia; first [by apply (Hent false)|by apply (Hent true)]).
  all: match goal with |- context [AppendKey [] ?v] => change (AppendKey [] v) with (Key v); pose proof (Hm v Wv) as Hv; cbn [valueIn] in Hv end.
  all: split; [by apply bool_decide_ext; rewrite Hv|]; split; [exact Hw|]; intros u Wu; rewrite elem_of_cons, one_key, <- Hm by done.
  all: destruct u; cbn [valueIn dother]; try (rewrite elem_of_union, elem_of_singleton; tauto).
  all: split; [by right|]; intros [E|?]; [|done].
  all: match type of E with Key (Node ?n) = _ => symmetry in E; by apply (Key_entity false n) in E | Key (Rel ?n) = _ => symmetry in E; by apply (Key_entity true n) in E end.
Qed.

(** A dedup state that has seen these rows, by the keys of their columns. *)
Definition dedupRep (width : nat) (d : dedup) (seenL : Datatypes.list (Datatypes.list gostring)) : Prop :=
  match d with
  | SeenOne d => width = 1%nat ∧ distinctRep d seenL
  | Seen s => ∀ out, length out = width → Forall (λ v, wfValue v = true) out → fold_left AppendKey out [] ∈ s ↔ Key <$> out ∈ seenL
  end.

Lemma dedupAdd_spec width out d seenL : length out = width → Forall (λ v, wfValue v = true) out → dedupRep width d seenL →
  let '(b, d') := dedupAdd out d in b = bool_decide (Key <$> out ∉ seenL) ∧ dedupRep width d' ((Key <$> out) :: seenL).
Proof.
  intros L Hw. destruct d as [d|s]; cbn [dedupRep dedupAdd].
  - intros [-> Hd]. destruct out as [|v [|]]; try done. cbn. apply Forall_cons in Hw as [Wv _]. pose proof (distinctAdd_spec v d seenL Wv Hd) as Ha.
    destruct (distinctAdd v d). by destruct Ha.
  - intros Hs. split; [apply bool_decide_ext; by rewrite Hs|]. intros o Lo Wo. rewrite elem_of_union, elem_of_singleton, elem_of_cons, Hs by done.
    by rewrite rowKey_inj by (done || lia).
Qed.

(** ** The sink *)

Section spec.
Context {R : Type} (outOf : R → row) (pushKeys : row → R → row) (preKeys : R → row) (typedOf : R → option (Datatypes.list Z)).
Context (Dom : R → Prop) (proj : ProjPlan) (distinct gateable allTyped : bool) (width : nat).

Abbreviation keyOf := (λ r, pushKeys (outOf r) r).
Abbreviation rowKeys := (λ r, Key <$> outOf r).

(** When the gate can be on: keys are evaluated before the row is built. *)
Definition gates : bool := negb distinct && gateable && bool_decide (0 ≤ orderBound proj).

(** What the sink relies on of the rows [Dom] it is given: columns and keys of the plan's
    width and of well-formed values; keys evaluated early are the keys of the built row;
    typed reads are the floats of integer keys; counts that do not overflow. *)
Record evaluates : Prop := {
  ev_out : ∀ r, Dom r → length (outOf r) = width ∧ Forall (λ v, wfValue v = true) (outOf r);
  ev_keys : ∀ r, Dom r → length (keyOf r) = length (Desc proj) ∧ Forall (λ v, wfValue v = true) (keyOf r);
  ev_pre : gates = true → ∀ r, Dom r → preKeys r = keyOf r;
  ev_typed : gates = true → allTyped = true → ∀ r fs, Dom r → typedOf r = Some fs → typedKeys (Desc proj) (keyOf r) fs;
  ev_counts : wfCounts proj;
}.

(** The first row of every group of rows with equal columns. *)
Fixpoint distinctRows (seenL : Datatypes.list (Datatypes.list gostring)) (rs : Datatypes.list R) : Datatypes.list R :=
  match rs with
  | [] => []
  | r :: rs => (if decide (rowKeys r ∈ seenL) then [] else [r]) ++ distinctRows (rowKeys r :: seenL) rs
  end.
Definition keptRows (seenL : Datatypes.list (Datatypes.list gostring)) (rs : Datatypes.list R) : Datatypes.list R :=
  if distinct then distinctRows seenL rs else rs.

(** The plain pipeline. *)
Definition pipeline (rs : Datatypes.list R) : Datatypes.list row :=
  let l := keptRows [] rs in
  page (Skip proj) (Limit proj) (inOrder (Desc proj) (keyOf <$> l) (outOf <$> l)).

Hypothesis Hev : evaluates.

Definition entriesOf (kept : Datatypes.list R) : Datatypes.list entry := numbered ((λ r, (keyOf r, outOf r)) <$> kept).

Record sinkInv (p : projSink) (seenL : Datatypes.list (Datatypes.list gostring)) (kept : Datatypes.list R) : Prop := {
  si_seen : if distinct then ∃ d, seen p = Some d ∧ dedupRep width d seenL else seen p = None;
  si_mode : match topk p with
    | Some t => 0 ≤ orderBound proj ∧ 0 < len (Desc proj) ∧ limitCap p = -1 ∧ accInv (orderBound proj) (Desc proj) t (entriesOf kept) ∧
        kGate p = negb distinct && gateable ∧ kTyped p = kGate p && allTyped
    | None => kGate p = false ∧ limitCap p = (if decide (0 < len (Desc proj)) then -1 else orderBound proj) ∧ souts p = (λ r, (outOf r, r)) <$> kept ∧
        (0 < len (Desc proj) → orderBound proj < 0)
    end;
  si_rows : Forall Dom kept;
}.

Lemma orderBound_ge : -1 ≤ orderBound proj.
Proof.
  destruct (ev_counts Hev) as [Hs Hl]. unfold orderBound. destruct (Limit proj) as [k|]; [|lia]. destruct (Hl k eq_refl) as [Hk _].
  case_decide; [lia|]. destruct (Skip proj) as [s|]; [|lia]. pose proof (wrapU_range 64 (k + s)). lia.
Qed.

Lemma sinkInv_new : sinkInv (sinkOf proj distinct gateable allTyped (Z.of_nat width)) [] [].
Proof.
  pose proof orderBound_ge as Hb. unfold sinkOf.
  set (sn := if distinct then Some _ else None). assert (if distinct then ∃ d, sn = Some d ∧ dedupRep width d [] else sn = None) as Hsn.
  { subst sn. destruct distinct; [|done]. eexists. split; [done|]. case_decide; cbn.
    - split; [lia|]. split; [done|]. intros v _. split; [|by intros ?%not_elem_of_nil]. destruct v; cbn; unfold entityIn; cbn; set_solver.
    - intros out _ _. set_solver. }
  clearbody sn. destruct (decide (0 ≤ orderBound proj)) as [H0|H0]; [destruct (decide (0 < len (Desc proj))) as [Hd|Hd]|]; (split; [exact Hsn| |constructor]); cbn.
  - do 3 (split; [done|]). split; [|done]. destruct (negb distinct && gateable && allTyped); [by apply accInv_armed|by apply accInv_new].
  - rewrite decide_False by done. done.
  - split; [done|]. split; [case_decide; lia|]. split; [done|lia].
Qed.

Lemma entriesOf_snoc kept r : entriesOf (kept ++ [r]) = entriesOf kept ++ [mkEntry (keyOf r) (outOf r) (len (entriesOf kept))].
Proof. unfold entriesOf. rewrite fmap_app. apply numbered_snoc. Qed.

Lemma sinkEntries_wf kept : Forall Dom kept → Forall (λ e, Forall (λ v, wfValue v = true) (ekeys e)) (entriesOf kept).
Proof.
  intros HD. apply Forall_forall. intros e (i & Hi)%list_elem_of_lookup. unfold entriesOf in Hi. rewrite numbered_lookup, list_lookup_fmap in Hi.
  destruct (kept !! i) as [r|] eqn:Er; [|done]. cbn in Hi. injection Hi as <-. cbn. apply (ev_keys Hev). by eapply Forall_lookup_1.
Qed.

(** One row offered, or refused by the gate: the same accumulator. *)
Lemma offerRow_ok t p kept r : 0 ≤ orderBound proj → accInv (orderBound proj) (Desc proj) t (entriesOf kept) →
  ∃ t', offerRow pushKeys t p (outOf r) r = Ok (true, set_topk t' p) ∧ accInv (orderBound proj) (Desc proj) t' (entriesOf (kept ++ [r])).
Proof.
  intros Hb Hi. destruct (offer_ok _ _ Hb t (entriesOf kept) (keyOf r) (outOf r) Hi) as (b & t' & E & Hi' & _). exists t'. unfold offerRow. rewrite E. cbn. split; [done|].
  by rewrite entriesOf_snoc.
Qed.
Lemma refused_ok t kept r : 0 ≤ orderBound proj → accInv (orderBound proj) (Desc proj) t (entriesOf kept) → wouldAccept t (keyOf r) = false →
  accInv (orderBound proj) (Desc proj) (bumpSeq t) (entriesOf (kept ++ [r])).
Proof.
  intros Hb Hi Hw. destruct (offer_ok _ _ Hb t (entriesOf kept) (keyOf r) (outOf r) Hi) as (b & t' & E & Hi' & _).
  rewrite (offer_refused _ _ Hb t (entriesOf kept)) in E by (done || apply numbered_seq). injection E as _ <-. by rewrite entriesOf_snoc.
Qed.

(** One push: either the sink is full and nothing more can surface, or the row is taken into account. *)
Lemma push_gated p t seenL kept r : Dom r → sinkInv p seenL kept → topk p = Some t → kGate p = true →
  ∃ t', push outOf pushKeys preKeys typedOf p r = Ok (true, set_topk t' p) ∧ accInv (orderBound proj) (Desc proj) t' (entriesOf (kept ++ [r])).
Proof.
  intros HD [Hs Hm Hk] Et Eg. rewrite Et in Hm. destruct Hm as (Hb & Hd & Hc & Hi & Hg & Hty). unfold push. rewrite decide_False by lia. rewrite Eg, Et.
  rewrite Eg in Hg, Hty. symmetry in Hg. assert (gates = true) as Hga by (unfold gates; by rewrite Hg, bool_decide_true). rewrite (ev_pre Hev Hga r HD).
  assert (typedRefuses typedOf t p r = true → wouldAccept t (keyOf r) = false) as Hr.
  { unfold typedRefuses. rewrite !andb_true_iff. intros [[[Ht _] Hv] Hf]. destruct (typedOf r) as [fs|] eqn:Ef; [|done].
    rewrite Hty in Ht. cbn in Ht. pose proof (typedReject_gate _ _ Hb t _ (keyOf r) fs Hi (sinkEntries_wf kept Hk) Hv (ev_typed Hev Hga Ht r fs HD Ef)) as E.
    rewrite Hf in E. symmetry in E. by apply negb_true_iff in E. }
  destruct (typedRefuses typedOf t p r); [exists (bumpSeq t); split; [done|]; apply refused_ok; auto|].
  destruct (wouldAccept t (keyOf r)) eqn:Ew; cbn [negb].
  - destruct (offerRow_ok t p kept r Hb Hi) as (t' & E & Hi'). by exists t'.
  - exists (bumpSeq t). split; [done|]. by apply refused_ok.
Qed.

Definition taken (seenL : Datatypes.list (Datatypes.list gostring)) (r : R) : Datatypes.list R :=
  if distinct then (if decide (rowKeys r ∈ seenL) then [] else [r]) else [r].

(** The dedup step. *)
Lemma dedup_step p seenL kept r : Dom r → sinkInv p seenL kept → ∃ p1,
  (match seen p with Some d => let '(b, d) := dedupAdd (outOf r) d in (b, set_seen d p) | None => (true, p) end) =
    (bool_decide (taken seenL r ≠ []), p1) ∧
  sinkInv p1 (rowKeys r :: seenL) kept ∧ topk p1 = topk p.
Proof.
  intros HD [Hs Hm Hk]. unfold taken. destruct distinct eqn:Edi.
  - destruct Hs as (d & -> & Hd). pose proof (dedupAdd_spec width (outOf r) d seenL (proj1 (ev_out Hev r HD)) (proj2 (ev_out Hev r HD)) Hd) as Ha.
    destruct (dedupAdd (outOf r) d) as [b d']. destruct Ha as [-> Hd']. exists (set_seen d' p). split; [|split; [split; [rewrite Edi; by exists d'|rewrite Edi; exact Hm|done]|done]].
    f_equal. apply bool_decide_ext. destruct (decide (rowKeys r ∈ seenL)) as [D|D]; [rewrite decide_True by done|rewrite decide_False by done]; split; intros H; [by apply H in D|exfalso; by apply H|done|exact D].
  - rewrite Hs. exists p. split; [by rewrite bool_decide_true|]. split; [split; [by rewrite Edi|rewrite Edi; exact Hm|done]|done].
Qed.

Lemma taken_new seenL r : taken seenL r ≠ [] → taken seenL r = [r].
Proof. unfold taken. destruct distinct; [|done]. by destruct (decide _). Qed.

Lemma taken_rows seenL r : Dom r → Forall Dom (taken seenL r).
Proof. intros HD. unfold taken. destruct distinct; [destruct (decide _)|]; repeat constructor; done. Qed.

Lemma sinkPush_ok p seenL kept r : Dom r → sinkInv p seenL kept → ∃ more p', push outOf pushKeys preKeys typedOf p r = Ok (more, p') ∧
  ((more = false ∧ p' = p ∧ topk p = None ∧ len (Desc proj) = 0 ∧ 0 ≤ orderBound proj ≤ len kept) ∨
   (sinkInv p' (rowKeys r :: seenL) (kept ++ taken seenL r) ∧
    (more = false → topk p' = None ∧ len (Desc proj) = 0 ∧ 0 ≤ orderBound proj ≤ len (kept ++ taken seenL r)))).
Proof.
  intros HD Hinv. assert (Forall Dom (kept ++ taken seenL r)) as HDk by (apply Forall_app; split; [apply (si_rows _ _ _ Hinv)|by apply taken_rows]). destruct (topk p) as [t|] eqn:Et; [destruct (kGate p) eqn:Eg|].
  - destruct (push_gated p t seenL kept r HD Hinv Et Eg) as (t' & E & Hi). destruct Hinv as [Hs Hm _]. rewrite Et in Hm. destruct Hm as (Hb & Hd & Hc & _ & Hg & Hty).
    rewrite Eg in Hg. symmetry in Hg. apply andb_true_iff in Hg as [Hnd Hga]. apply negb_true_iff in Hnd. eexists _, _. split; [exact E|]. right. split; [|done].
    unfold taken in *. rewrite Hnd in *. split; [by rewrite Hnd| |done]. cbn. rewrite Hnd, Eg, Hga. rewrite Eg in Hty. done.
  - destruct (dedup_step p seenL kept r HD Hinv) as (p1 & Ed & Hi1 & Et1). unfold push. pose proof (si_mode _ _ _ Hinv) as Hm. rewrite Et in Hm. rewrite decide_False by lia.
    rewrite Eg, Ed. pose proof (si_mode _ _ _ Hi1) as Hm1. rewrite Et1, Et in Hm1 |- *. destruct Hm1 as (Hb & Hd & Hc & Hi & Hg & Hty).
    case_bool_decide as Hk; cbn [negb].
    + destruct (offerRow_ok t p1 kept r Hb Hi) as (t' & E & Hi'). eexists _, _. split; [exact E|]. right. split; [|done].
      rewrite (taken_new _ _ Hk) in *. split; [exact (si_seen _ _ _ Hi1)| |done]. cbn. done.
    + eexists _, _. split; [done|]. right. rewrite Hk, app_nil_r. done.
  - pose proof (si_mode _ _ _ Hinv) as Hm. rewrite Et in Hm. destruct Hm as (Eg & Hc & Ho & Hd). unfold push.
    assert (len (souts p) = len kept) as Lo by (rewrite Ho; by rewrite len_fmap). rewrite Hc, Lo. pose proof (len_nonneg (Desc proj)) as Hdn.
    destruct (decide (0 ≤ _ ≤ len kept)) as [Hfull|Hfull].
    { eexists _, _. split; [done|]. left. destruct (decide (0 < len (Desc proj))); [lia|]. repeat split; lia. }
    rewrite Eg. destruct (dedup_step p seenL kept r HD Hinv) as (p1 & Ed & Hi1 & Et1). rewrite Ed. pose proof (si_mode _ _ _ Hi1) as Hm1. rewrite Et1, Et in Hm1 |- *. destruct Hm1 as (Eg1 & Hc1 & Ho1 & _).
    case_bool_decide as Hk; cbn [negb].
    + eexists _, _. split; [done|]. right. rewrite (taken_new _ _ Hk) in *. split.
      * split; [exact (si_seen _ _ _ Hi1)| |done]. cbn. rewrite Et1, Et. split; [done|]. split; [done|]. split; [|done]. by rewrite Ho1, fmap_app.
      * intros E. apply orb_false_iff in E as [E1 E2]. apply bool_decide_eq_false in E1, E2. cbn [addOut limitCap souts topk] in *.
        rewrite len_app, Ho1, len_fmap in E2. rewrite len_app, Et1. change (len [_]) with 1 in *. rewrite Hc1 in E1, E2.
        destruct (decide (0 < len (Desc proj))); [lia|]. repeat split; [done|lia..].
    + eexists _, _. split; [done|]. right. rewrite Hk, app_nil_r. done.
Qed.

Lemma keptRows_cons seenL r rs : keptRows seenL (r :: rs) = taken seenL r ++ keptRows (rowKeys r :: seenL) rs.
Proof. unfold keptRows, taken. by destruct distinct. Qed.

(** The sink ends having kept the rows of the pipeline, or a part that pagination cannot tell from them. *)
Lemma pushAll_ok rs : Forall Dom rs → ∀ p seenL kept, sinkInv p seenL kept → ∃ p' seenL' kept' tail, pushAll outOf pushKeys preKeys typedOf p rs = Ok p' ∧ sinkInv p' seenL' kept' ∧
  kept ++ keptRows seenL rs = kept' ++ tail ∧ (tail = [] ∨ topk p' = None ∧ len (Desc proj) = 0 ∧ 0 ≤ orderBound proj ≤ len kept').
Proof.
  induction 1 as [|r rs HD _ IH]; intros p seenL kept Hi; cbn [pushAll].
  { exists p, seenL, kept, []. split; [done|]. split; [done|]. split; [unfold keptRows; by destruct distinct|by left]. }
  destruct (sinkPush_ok p seenL kept r HD Hi) as (more & p1 & E & Hp). rewrite E. cbn [mbind res_bind]. rewrite keptRows_cons. destruct Hp as [(-> & -> & H)|[Hi1 H]].
  - exists p, seenL, kept, (taken seenL r ++ keptRows (rowKeys r :: seenL) rs). split; [done|]. split; [done|]. split; [done|]. by right.
  - rewrite app_assoc. destruct more.
    + destruct (IH p1 _ _ Hi1) as (p' & seenL' & kept' & tail & E' & H'). exists p', seenL', kept', tail. done.
    + exists p1, (rowKeys r :: seenL), (kept ++ taken seenL r), (keptRows (rowKeys r :: seenL) rs). split; [done|]. split; [done|]. split; [done|]. right. by apply H.
Qed.

Lemma inOrder_nil {B} `{!Inhabited B} keys (outs : Datatypes.list B) : inOrder [] keys outs = outs.
Proof.
  unfold inOrder. replace (SortFunc (refCmp [] keys) (zseq (len outs))) with (zseq (len outs)).
  - apply list_eq. intros i. rewrite list_lookup_fmap. unfold zseq. rewrite list_lookup_fmap, to_nat_len. destruct (outs !! i) as [x|] eqn:E.
    + rewrite lookup_seq_lt by (by eapply lookup_lt_Some). cbn. rewrite Nat2Z.id. f_equal. by apply list_lookup_total_correct.
    + by rewrite lookup_seq_ge by (by apply lookup_ge_None).
  - apply (sorted_unique (refCmp [] keys)); [apply byIndex_separates|by rewrite SortFunc_perm| |by apply SortFunc_sorted; apply _].
    pose proof (zseq_sorted (len outs)) as Hz. induction Hz as [|x l Hz IH HF]; constructor; [done|]. eapply Forall_impl; [exact HF|].
    intros y Hxy. unfold cmpLe, refCmp, byIndex. cbn. case_decide; lia.
Qed.

Lemma wfKeys_kept kept : Forall Dom kept → wfKeys proj (keyOf <$> kept).
Proof. intros HD. apply Forall_fmap. eapply Forall_impl; [exact HD|]. intros r Hr. by apply (ev_keys Hev). Qed.

Lemma page_prefix {B} (l k : Datatypes.list B) : 0 ≤ orderBound proj ≤ len l → page (Skip proj) (Limit proj) l = page (Skip proj) (Limit proj) (l ++ k).
Proof.
  intros Hb. rewrite <- (page_kept proj l), <- (page_kept proj (l ++ k)) by apply (ev_counts Hev). f_equal. unfold keptBy. rewrite !decide_True by lia.
  by rewrite take_app_le by (unfold len in Hb; lia).
Qed.

Lemma finalize_ok p seenL kept : sinkInv p seenL kept →
  finalize pushKeys proj p = Ok (page (Skip proj) (Limit proj) (inOrder (Desc proj) (keyOf <$> kept) (outOf <$> kept))).
Proof.
  intros [Hs Hm HD]. pose proof (ev_counts Hev) as Hc. assert (∀ l : Datatypes.list row, paginate l (Skip proj) (Limit proj) = Ok (page (Skip proj) (Limit proj) l)) as Hp.
  { intros l. destruct Hc as [H1 H2]. apply paginate_ok; [done|]. intros k Hk. destruct (H2 k Hk). lia. }
  unfold finalize. destruct (topk p) as [t|].
  - destruct Hm as (Hb & _ & _ & Hi & _). rewrite Hp. unfold entriesOf in Hi. rewrite (sorted_ok _ _ _ _ Hb Hi), page_kept by done. by rewrite <- !list_fmap_compose.
  - destruct Hm as (_ & _ & Ho & _). rewrite Ho, <- !list_fmap_compose. unfold compose. cbn. case_decide as D.
    + rewrite (sortRowsByOrder_ok proj (keyOf <$> kept) (outOf <$> kept)) by (by apply wfKeys_kept || by rewrite !length_fmap). cbn [mbind res_bind]. by rewrite Hp, page_kept.
    + cbn [mbind res_bind]. rewrite Hp. assert (Desc proj = []) as -> by (destruct (Desc proj); [done|rewrite len_cons in D; pose proof (len_nonneg l); lia]). by rewrite inOrder_nil.
Qed.

Lemma project_exact rs : Forall Dom rs → project outOf pushKeys preKeys typedOf proj distinct gateable allTyped (Z.of_nat width) rs = Ok (pipeline rs).
Proof.
  intros HD. unfold project. destruct (pushAll_ok rs HD _ _ _ sinkInv_new) as (p & seenL & kept & tail & E & Hi & Ek & Ht). rewrite E. cbn [mbind res_bind].
  rewrite (finalize_ok p seenL kept Hi). unfold pipeline. cbn in Ek. rewrite Ek. destruct Ht as [->|(_ & Hd & Hb)]; [by rewrite app_nil_r|].
  assert (Desc proj = []) as -> by (destruct (Desc proj); [done|rewrite len_cons in Hd; pose proof (len_nonneg l); lia]). rewrite !inOrder_nil, fmap_app. f_equal. apply page_prefix. by rewrite len_fmap.
Qed.
End spec.

(** ** Candidate batches *)

Section candidates.
Context {R : Type} (outOf : R → row) (pushKeys : row → R → row) (preKeys : R → row) (nk : nat) (onSlot : nat → bool) (fnOf bulkOf : nat → R → option Z).
Context (r0 : R) (cands : Datatypes.list R).

(** Keys off the bound slot read the same on every row of the batch; the bulk read of a
    key on the slot is its read of the row. *)
Definition batched : Prop := ∀ r k, r ∈ cands → (k < nk)%nat → fnOf k r = if onSlot k then bulkOf k r else fnOf k r0.
Hypothesis Hb : batched.

Abbreviation typed := (typedRead nk fnOf).
Abbreviation pushRow := (push outOf pushKeys preKeys typed).
Abbreviation each := (pushEach outOf pushKeys preKeys nk fnOf).

(** The regime the chunked path runs in, kept by every push. *)
Definition typedRegime (p : projSink (R := R)) : Prop := kGate p = true ∧ kTyped p = true ∧ limitCap p < 0.

Lemma push_regime p r b p' : typedRegime p → pushRow p r = Ok (b, p') → typedRegime p'.
Proof.
  intros (H1 & H2 & H3). unfold push, offerRow. rewrite decide_False by lia. rewrite H1. destruct (topk p) as [t|].
  - destruct (typedRefuses typed t p r); [by intros [= <- <-]|]. destruct (negb _); [by intros [= <- <-]|]. destruct (offer _ _ _) as [[? ?]| |]; cbn; [|done..]. by intros [= <- <-].
  - destruct (match seen p with Some _ => _ | None => _ end) as [fresh p1] eqn:E. assert (typedRegime p1) as Hp1.
    { destruct (seen p) as [d|]; [|by injection E as <- <-]. destruct (dedupAdd _ d). by injection E as <- <-. }
    destruct (negb fresh); [by intros [= <- <-]|]. destruct (topk p1); [|by intros [= <- <-]]. destruct (offer _ _ _) as [[? ?]| |]; cbn; [|done..]. by intros [= <- <-].
Qed.

Lemma mapM_same {A B} (f g : A → option B) l : (∀ x, x ∈ l → f x = g x) → mapM f l = mapM g l.
Proof. intros H. induction l as [|x l IH]; [done|]. cbn. rewrite H by (by left). by rewrite IH by (intros; apply H; by right). Qed.

Lemma bulk_typed r : r ∈ cands → bulkKeys nk onSlot fnOf bulkOf r0 r = typed r.
Proof. intros Hr. apply mapM_same. intros k Hk%elem_of_seq. symmetry. apply Hb; [done|lia]. Qed.

(** A candidate refused in bulk is one the per-row prefilter refuses. *)
Lemma rejected_push p r t : typedRegime p → r ∈ cands → rejected nk onSlot fnOf bulkOf p r0 r = Some t → pushRow p r = Ok (true, set_topk (bumpSeq t) p).
Proof.
  intros (H1 & H2 & H3) Hr. unfold rejected. rewrite bulk_typed by done. destruct (topk p) as [t'|] eqn:Et; [|done]. destruct (typed r) as [fs|] eqn:Ef; [|done].
  destruct (hot t' && typedReject t' fs) eqn:Eh; [|done]. intros [= <-]. unfold push. rewrite decide_False by lia. rewrite H1, Et. unfold typedRefuses. rewrite Ef, H2. cbn [andb]. unfold hot in Eh.
  by rewrite Eh.
Qed.

Lemma pushSegment_each seg : seg ⊆ cands → ∀ p, typedRegime p → pushSegment outOf pushKeys preKeys nk onSlot fnOf bulkOf r0 p seg = each p seg.
Proof.
  induction seg as [|r seg IH]; intros Hs p Hp; [done|]. assert (r ∈ cands) as Hr by (apply Hs; by left). assert (seg ⊆ cands) as Hs' by (intros x Hx; apply Hs; by right). cbn [pushSegment pushEach].
  destruct (rejected _ _ _ _ p r0 r) as [t|] eqn:Er.
  - rewrite (rejected_push p r t Hp Hr Er). cbn [mbind res_bind]. apply IH; [done|]. done.
  - destruct (pushRow p r) as [[[] p1]| |] eqn:E; cbn [mbind res_bind]; [|done..]. apply IH; [done|]. by eapply push_regime.
Qed.

Lemma each_regime rs : ∀ p b p', typedRegime p → each p rs = Ok (b, p') → typedRegime p'.
Proof.
  induction rs as [|r rs IH]; intros p b p' Hp; cbn [pushEach]; [by intros [= <- <-]|]. destruct (pushRow p r) as [[[] p1]| |] eqn:E; cbn [mbind res_bind]; [|intros [= <- <-]|done..].
  - apply IH. by eapply push_regime.
  - by eapply push_regime.
Qed.
Lemma each_app l k p : each p (l ++ k) = '(more, p) ← each p l; if more : bool then each p k else Ok (false, p).
Proof. revert p. induction l as [|r l IH]; intros p; [done|]. cbn [app pushEach]. destruct (pushRow p r) as [[[] p1]| |]; cbn [mbind res_bind]; [apply IH|done..]. Qed.

Lemma candLoop_each fuel : ∀ rs p, (length rs ≤ fuel)%nat → rs ⊆ cands → typedRegime p → candLoop outOf pushKeys preKeys nk onSlot fnOf bulkOf fuel r0 p rs = each p rs.
Proof.
  induction fuel as [|fuel IH]; intros rs p L Hs Hp; (destruct rs as [|r rest]; [done|]); cbn [length] in L; [lia|]. cbn [candLoop]. destruct (negb (isHot p)).
  - cbn [pushEach]. destruct (pushRow p r) as [[[] p1]| |] eqn:E; cbn [mbind res_bind]; [|done..]. apply IH; [lia|intros x Hx; apply Hs; by right|by eapply push_regime].
  - rewrite <- (take_drop chunkKeyBatch (r :: rest)) at 3. rewrite each_app.
    assert (take chunkKeyBatch (r :: rest) ⊆ cands) as Ht by (intros x Hx; apply Hs; rewrite <- (take_drop chunkKeyBatch (r :: rest)); apply elem_of_app; by left).
    assert (drop chunkKeyBatch (r :: rest) ⊆ cands) as Hd by (intros x Hx; apply Hs; rewrite <- (take_drop chunkKeyBatch (r :: rest)); apply elem_of_app; by right).
    assert ((if constOK nk onSlot fnOf r0 then pushSegment outOf pushKeys preKeys nk onSlot fnOf bulkOf r0 p (take chunkKeyBatch (r :: rest)) else each p (take chunkKeyBatch (r :: rest))) =
      each p (take chunkKeyBatch (r :: rest))) as -> by (destruct (constOK _ _ _ _); [by apply pushSegment_each|done]).
    destruct (each p (take chunkKeyBatch (r :: rest))) as [[[] p1]| |] eqn:E; cbn [mbind res_bind]; [|done..]. apply IH; [|done|by eapply each_regime].
    rewrite length_drop. cbn [length]. unfold chunkKeyBatch. lia.
Qed.

(** A batch is its candidates pushed one by one. *)
Lemma pushCandidates_each p : (kGate p = true → limitCap p < 0) → pushCandidates outOf pushKeys preKeys nk onSlot fnOf bulkOf r0 p cands = each p cands.
Proof.
  intros Hl. unfold pushCandidates. destruct (kGate p) eqn:E1; [|done]. destruct (kTyped p) eqn:E2; [|done]. cbn [negb orb]. case_bool_decide; [done|]. apply candLoop_each; [done|done|]. split; [done|]. split; [done|by apply Hl].
Qed.
End candidates.

(** ** The stream *)

Section stream.
Context {R : Type} (outOf : R → row) (pushKeys : row → R → row) (preKeys : R → row) (nk : nat) (keySlot : nat → Z) (fnOf bulkOf : nat → R → option Z).
Abbreviation typed := (typedRead nk fnOf).

Definition inputRows (i : projInput R) : Datatypes.list R := match i with OneRow r => [r] | Batch _ _ cands => cands end.
Definition wfBatch (i : projInput R) : Prop :=
  match i with OneRow _ => True | Batch slot r0 cands => batched nk (λ k, bool_decide (keySlot k = slot)) fnOf bulkOf r0 cands end.

Definition gateCap (p : projSink (R := R)) : Prop := kGate p = true → limitCap p < 0.
Lemma push_cap p r b p' : gateCap p → push outOf pushKeys preKeys typed p r = Ok (b, p') → gateCap p'.
Proof.
  intros Hp. unfold push, offerRow. destruct (decide _); [by intros [= <- <-]|].
  assert (∀ fresh p1, (match seen p with Some d => let '(b, d) := dedupAdd (outOf r) d in (b, set_seen d p) | None => (true, p) end) = (fresh, p1) → gateCap p1) as Hd.
  { intros fresh p1 E. destruct (seen p) as [d|]; [|by injection E as <- <-]. destruct (dedupAdd _ d). by injection E as <- <-. }
  assert (∀ fresh p1 more p2, gateCap p1 → (if negb fresh then Ok (true, p1) else match topk p1 with
    | Some t => '(_, t) ← offer t (pushKeys (outOf r) r) (outOf r); Ok (true, set_topk t p1)
    | None => let p := addOut (outOf r, r) p1 in Ok (bool_decide (limitCap p < 0) || bool_decide (len (souts p) < limitCap p), p) end) = Ok (more, p2) → gateCap p2) as Hrest.
  { intros fresh p1 more p2 H1. destruct (negb fresh); [by intros [= <- <-]|]. destruct (topk p1); [|by intros [= <- <-]]. destruct (offer _ _ _) as [[? ?]| |]; cbn; [|done..]. by intros [= <- <-]. }
  destruct (kGate p) eqn:Eg; [destruct (topk p) as [t|]|].
  - destruct (typedRefuses typed t p r); [by intros [= <- <-]|]. destruct (negb _); [by intros [= <- <-]|]. destruct (offer _ _ _) as [[? ?]| |]; cbn; [|done..]. by intros [= <- <-].
  - destruct (match seen p with Some _ => _ | None => _ end) as [fresh p1] eqn:E. apply Hrest. by eapply Hd.
  - destruct (match seen p with Some _ => _ | None => _ end) as [fresh p1] eqn:E. apply Hrest. by eapply Hd.
Qed.
Lemma each_cap rs : ∀ p b p', gateCap p → pushEach outOf pushKeys preKeys nk fnOf p rs = Ok (b, p') → gateCap p'.
Proof.
  induction rs as [|r rs IH]; intros p b p' Hp; cbn [pushEach]; [by intros [= <- <-]|]. destruct (push _ _ _ _ p r) as [[[] p1]| |] eqn:E; cbn [mbind res_bind]; [|intros [= <- <-]|done..].
  - apply IH. by eapply push_cap.
  - by eapply push_cap.
Qed.

Lemma pushAll_each rs k : ∀ p, pushAll outOf pushKeys preKeys typed p (rs ++ k) =
  '(more, p) ← pushEach outOf pushKeys preKeys nk fnOf p rs; if more : bool then pushAll outOf pushKeys preKeys typed p k else Ok p.
Proof. induction rs as [|r rs IH]; intros p; [done|]. cbn [app pushAll pushEach]. destruct (push _ _ _ _ p r) as [[[] p1]| |]; cbn [mbind res_bind]; [apply IH|done..]. Qed.

Lemma pushInputs_all ins : Forall wfBatch ins → ∀ p, gateCap p → pushInputs outOf pushKeys preKeys nk keySlot fnOf bulkOf p ins = pushAll outOf pushKeys preKeys typed p (concat (inputRows <$> ins)).
Proof.
  induction 1 as [|i ins Hi _ IH]; intros p Hp; [done|]. cbn [pushInputs fmap list_fmap concat]. rewrite pushAll_each.
  assert (pushInput outOf pushKeys preKeys nk keySlot fnOf bulkOf p i = pushEach outOf pushKeys preKeys nk fnOf p (inputRows i)) as ->.
  { destruct i as [r|slot r0 cands]; cbn [pushInput inputRows].
    - cbn [pushEach]. destruct (push _ _ _ _ p r) as [[[] p1]| |]; done.
    - by apply pushCandidates_each. }
  destruct (pushEach _ _ _ _ _ p (inputRows i)) as [[[] p1]| |] eqn:E; cbn [mbind res_bind]; [|done..]. apply IH. by eapply each_cap.
Qed.

Lemma projectStream_rows proj distinct gateable allTyped w ins : Forall wfBatch ins →
  projectStream outOf pushKeys preKeys nk keySlot fnOf bulkOf proj distinct gateable allTyped w ins = project outOf pushKeys preKeys typed proj distinct gateable allTyped w (concat (inputRows <$> ins)).
Proof.
  intros Hi. unfold projectStream, project. rewrite pushInputs_all; [done|done|]. unfold gateCap, sinkOf. repeat case_decide; cbn; try done. 
Qed.
End stream.

(** ** Plans *)

Section plans.
Context {X : Type} `{HX : EvaluatorLaws X} `{HG : GraphReadsLaws}.
Implicit Types (e : Expr X) (q : Plan X) (s : scope).

Abbreviation wfRow := (Forall (λ v, wfValue v = true)).

Lemma slotValue_wf r s name : wfRow r → wfValue (slotValue r s name) = true.
Proof.
  intros Hr. unfold slotValue. destruct (s !! name) as [i|]; [|done]. case_decide; [|done]. destruct (r !! Z.to_nat i) as [v|] eqn:E; [|done]. exact (Forall_lookup_1 _ _ _ _ Hr E).
Qed.

Lemma quot_i64 a b : is_i64 a → 0 < b → is_i64 (Z.quot a b).
Proof.
  intros Ha Hb. assert (∀ c, 0 ≤ c → 0 ≤ Z.quot c b ≤ c) as Hp by (intros c Hc; split; [by apply Z.quot_pos|apply Z.quot_le_upper_bound; nia]).
  destruct (decide (0 ≤ a)); [pose proof (Hp a); lia|]. pose proof (Hp (- a)) as H'. rewrite Z.quot_opp_l in H' by lia. lia.
Qed.
Lemma rem_i64 a b : is_i64 a → 0 < b → is_i64 (Z.rem a b).
Proof.
  intros Ha Hb. destruct (decide (0 ≤ a)); [pose proof (Z.rem_bound_pos a b); pose proof (Z.rem_le a b); lia|].
  pose proof (Z.rem_bound_pos (- a) b ltac:(lia) ltac:(lia)). pose proof (Z.rem_le (- a) b ltac:(lia) ltac:(lia)). rewrite Z.rem_opp_l in * by lia. lia.
Qed.
Lemma floorDiv_i64 a b : is_i64 a → 0 < b → is_i64 (floorDiv a b).
Proof. intros Ha Hb. unfold floorDiv. case_match; [apply (wrapS_range 64); lia|by apply quot_i64]. Qed.

Lemma CivilFromDays_i64 days : let '(y, m, d) := CivilFromDays days in is_i64 y ∧ is_i64 m ∧ is_i64 d.
Proof.
  unfold CivilFromDays. cbv zeta. assert (∀ z, is_i64 (to_i64 z)) as Hs by (intros; apply (wrapS_range 64); lia). assert (∀ z, is_i64 (to_u32 z)) as Hu by (intros z; pose proof (wrapU_range 32 z ltac:(lia)); lia).
  assert (∀ (P : Prop) (d : Decision P) x y, is_i64 x → is_i64 y → is_i64 (if d then x else y)) as Hif by (by intros ? []).
  split; [|split]; repeat first [apply Hs|apply Hu|apply Hif].
Qed.
Lemma Component_i64 ms key c : is_i64 ms → Component ms key = Some c → is_i64 c.
Proof.
  intros Hm. unfold Component. pose proof (wrapS_range 64 (ms - floorDiv ms MSPerDay * MSPerDay) ltac:(lia)) as Hr. unfold splitInstant. set (days := floorDiv ms MSPerDay) in *. set (r := to_i64 _) in *. clearbody r days.
  pose proof (CivilFromDays_i64 days) as Hc. destruct (CivilFromDays days) as [[y mo] d]. destruct Hc as (Hy & Hmo & Hd).
  repeat (case_decide; [intros [= <-]; first [done|by apply floorDiv_i64|by apply quot_i64|by apply rem_i64|by apply rem_i64; [apply quot_i64|]]|]). done.
Qed.
Lemma DurationComponent_i64 mo d ms key c : is_i64 mo → is_i64 d → is_i64 ms → DurationComponent mo d ms key = Some c → is_i64 c.
Proof. intros H1 H2 H3. unfold DurationComponent. repeat case_decide; intros [= <-]; try done; by apply quot_i64. Qed.

Lemma propRead_wf v key : wfValue v = true → wfValue (propRead v key) = true.
Proof using HG.
  assert (∀ ms, is_i64 ms → wfValue (temporalComponentOf ms key) = true) as Ht.
  { intros ms Hm. unfold temporalComponentOf. destruct (Component ms _) as [c|] eqn:E; [|done]. cbn. apply bool_decide_true. by eapply Component_i64. }
  destruct v; cbn [propRead]; try done; intros Hv.
  - apply Ht. cbn in Hv. by apply bool_decide_eq_true in Hv.
  - destruct (graphNode id key) eqn:E; [|done]. by eapply graphNode_wf.
  - destruct (graphRel pos key) eqn:E; [|done]. by eapply graphRel_wf.
  - unfold mapGet. destruct (list_find _ es) as [[k f]|] eqn:E; [|done]. apply list_find_Some in E as (E & _). apply wf_map in Hv as (_ & _ & Hv). by apply (Forall_lookup_1 _ _ _ _ Hv E).
  - apply Ht. cbn in Hv. by apply bool_decide_eq_true in Hv.
  - destruct (DurationComponent _ _ _ _) as [c|] eqn:E; [|done]. cbn in Hv. unfold i64b in Hv. rewrite !andb_true_iff, !bool_decide_eq_true in Hv. cbn. apply bool_decide_true. destruct Hv as [[? ?] ?]. by eapply DurationComponent_i64 in E.
Qed.

Lemma Eval_wf e r s : wfRow r → wfValue (Eval e r s) = true.
Proof using HX HG. intros Hr. destruct e; cbn; [by apply slotValue_wf|by apply propRead_wf, slotValue_wf|by apply other_wf]. Qed.

(** Evaluation reads the names an expression mentions, and nothing else of the scope. *)
Lemma Eval_agree e r s r' s' : Forall (agreeAt r s r' s') (namesOf e) → Eval e r s = Eval e r' s'.
Proof using HX.
  destruct e; cbn [namesOf Eval]; [intros [[_ ->] _]%Forall_cons; done|intros [[_ ->] _]%Forall_cons; done|]. apply other_agree.
Qed.

Section plan.
Context (q : Plan X) (slots : scope) (width : Z).

(** A bound plan: a name per column, and every variable in the matched row. *)
Record wfPlan : Prop := {
  wp_columns : length (Columns q) = length (Returns q);
  wp_slots : ∀ x i, slots !! x = Some i → 0 ≤ i < width;
  wp_counts : wfCounts (projOf q);
}.

(** A key the gate evaluates early means the same before and after the row is built:
    a name it mentions is no output column, or one that projects the variable itself. *)
Definition unshadowed : Prop := ∀ o x i, o ∈ OrderBy q → colIdx q o.1 < 0 → x ∈ namesOf o.1 → Columns q !! i = Some x →
  Returns q !! i = Some (EVar x) ∧ is_Some (slots !! x).

Definition given (r : row) : Prop := len r = width ∧ wfRow r.
Definition wfSinkInput (i : sinkInput) : Prop :=
  match i with
  | SinkRow r => given r
  | SinkCands r slot cands => given r ∧ 0 ≤ slot < width ∧ Forall (λ c, is_u32 c) cands
  end.
Definition rowsOf (i : sinkInput) : Datatypes.list row := match i with SinkRow r => [r] | SinkCands r slot cands => candRow r slot <$> cands end.

Hypothesis Hq : wfPlan.

Lemma outRow_wf r : wfRow r → wfRow (outRow q slots r).
Proof using HX HG. intros Hr. apply Forall_fmap, Forall_forall. intros e _. by apply Eval_wf. Qed.

Lemma colIdx_lt e : 0 ≤ colIdx q e → colIdx q e < len (Returns q).
Proof using Hq.
  unfold colIdx, OrderColIndex. assert (∀ {A} (P : A → Prop) `{!∀ x, Decision (P x)} l i, findIndex P l = Some i → 0 ≤ i < len l) as Hf.
  { intros A P HP l i. unfold findIndex. destruct (list_find P l) as [[k x]|] eqn:E; [|done]. cbn. intros [= <-]. apply list_find_Some in E as (E%lookup_lt_Some & _). unfold len. lia. }
  destruct (match e with EVar name => _ | _ => None end) as [i|] eqn:E.
  - destruct e; try done. intros _. apply Hf in E. pose proof (wp_columns Hq). unfold len in *. lia.
  - destruct (findIndex _ (Returns q)) as [i|] eqn:E'; cbn; [|lia]. intros _. apply Hf in E'. lia.
Qed.

Lemma kScope_lookup x : kScope q slots width !! x = slots !! x ∧ x ∉ Columns q ∨
  ∃ i, kScope q slots width !! x = Some (kBase q width + Z.of_nat i) ∧ Columns q !! i = Some x.
Proof using.
  unfold kScope. generalize (kBase q width) as base. intros base. generalize (Columns q) as cs. induction cs as [|c cs IH] using rev_ind; [left; split; [done|by intros ?%not_elem_of_nil]|].
  rewrite enum_app, foldl_app. cbn. rewrite lookup_insert. case_decide as D.
  - subst c. right. exists (length cs). split; [f_equal; unfold len; lia|]. by rewrite lookup_app_r, Nat.sub_diag by lia.
  - destruct IH as [[E Hn]|(i & E & Hi)]; [left; split; [done|]; rewrite elem_of_app, list_elem_of_singleton; naive_solver|]. right. exists i. split; [done|]. by apply lookup_app_l_Some.
Qed.

(** The keys evaluated early are the keys of the built row. *)
Lemma earlyKeys_built r : unshadowed → given r → earlyKeys q slots r = builtKeys q slots width (outRow q slots r) r.
Proof using HX Hq.
  intros Hu [Lr Wr]. unfold earlyKeys, builtKeys. apply list_fmap_ext. intros k o Ho. apply list_elem_of_lookup_2 in Ho. unfold keyExpr. case_decide as D.
  - pose proof (colIdx_lt o.1 D) as L. destruct (lookup_lt_is_Some_2 (Returns q) (Z.to_nat (colIdx q o.1))) as [e Ee]; [unfold len in L; lia|]. rewrite Ee. cbn.
    symmetry. apply list_lookup_total_correct. unfold outRow. by rewrite list_lookup_fmap, Ee.
  - symmetry. apply Eval_agree. apply Forall_forall. intros x Hx. unfold agreeAt.
    assert (kBase q width = width) as Eb.
    { unfold kBase, needM. destruct (existsb _ (OrderBy q)) eqn:E; [done|]. exfalso. apply not_true_iff_false in E. apply E, existsb_exists. exists o. split; [by apply list_elem_of_In|]. apply bool_decide_true. lia. }
    destruct (kScope_lookup x) as [[E Hn]|(i & E & Hi)].
    + rewrite E. split; [done|]. unfold slotValue. rewrite E. destruct (slots !! x) as [i|] eqn:Es; [|done]. pose proof (wp_slots Hq x i Es). rewrite !decide_True by lia. by rewrite lookup_app_l by (unfold len in Lr; lia).
    + pose proof (len_nonneg r). destruct (Hu o x i Ho ltac:(lia) Hx Hi) as [Er Hs]. rewrite E, Eb. split; [split; intros _; [done|eauto]|]. unfold slotValue at 1. rewrite E, Eb, decide_True by lia.
      rewrite lookup_app_r by (unfold len in Lr; lia). replace (Z.to_nat (width + Z.of_nat i) - length r)%nat with i by (unfold len in Lr; lia). unfold outRow. by rewrite list_lookup_fmap, Er.
Qed.

Lemma builtKeys_wf r : given r → length (builtKeys q slots width (outRow q slots r) r) = length (Desc (projOf q)) ∧ wfRow (builtKeys q slots width (outRow q slots r) r).
Proof using HX HG.
  intros [Lr Wr]. split; [unfold builtKeys, projOf; cbn; by rewrite !length_fmap|]. apply Forall_fmap, Forall_forall. intros o _. cbn. pose proof (outRow_wf r Wr) as Wo. case_decide.
  - destruct (outRow q slots r !! Z.to_nat (colIdx q o.1)) as [v|] eqn:E; [rewrite (list_lookup_total_correct _ _ _ E); exact (Forall_lookup_1 _ _ _ _ Wo E)|]. rewrite list_lookup_total_alt, E. done.
  - apply Eval_wf, Forall_app. done.
Qed.

Lemma reader_at k : is_Some (typedReaders q slots) → (k < length (OrderBy q))%nat → ∃ o v key col slot, OrderBy q !! k = Some o ∧ keyExpr q o = EProp v key ∧
  slots !! v = Some slot ∧ graphI64 key = Some col ∧ reader q slots k = (slot, col).
Proof using.
  intros [rs Hrs] Hk. destruct (lookup_lt_is_Some_2 _ _ Hk) as [o Ho]. unfold reader. rewrite Hrs. cbn. apply mapM_Some in Hrs. destruct (Forall2_lookup_l _ _ _ _ _ Hrs Ho) as (rd & Hrd & E). rewrite Hrd. cbn.
  unfold typedKeyReader in E. destruct (keyExpr q o) as [|v key|] eqn:Ek; try done. destruct (slots !! v) as [slot|] eqn:Es; [|done]. cbn in E. destruct (graphI64 key) as [col|] eqn:Ec; [|done]. injection E as <-. by exists o, v, key, col, slot.
Qed.

(** A typed read is the float of the integer the key evaluates to. *)
Lemma typedFn_key r k f : allTyped q slots = true → given r → (k < length (OrderBy q))%nat → typedFn q slots k r = Some f →
  ∃ i, is_i64 i ∧ earlyKeys q slots r !! k = Some (Int i) ∧ f = ofInt i.
Proof using Hq HG.
  intros Ht [Lr Wr] Hk. unfold allTyped in Ht. apply andb_true_iff in Ht as [_ Ht%bool_decide_eq_true]. destruct (reader_at k Ht Hk) as (o & v & key & col & slot & Ho & Ek & Es & Ec & Er). unfold typedFn. rewrite Er. cbn [fst snd]. pose proof (wp_slots Hq v slot Es) as Hs.
  destruct (lookup_lt_is_Some_2 r (Z.to_nat slot)) as [w Hw]; [unfold len in Lr; lia|]. rewrite (list_lookup_total_correct _ _ _ Hw). destruct w; try done. destruct (col id) as [i|] eqn:Ei; [|done]. cbn. intros [= <-].
  pose proof (graphI64_node key col id Ec) as Eg. rewrite Ei in Eg. cbn in Eg. exists i. split; [|split; [|done]].
  - apply graphNode_wf in Eg. cbn in Eg. by apply bool_decide_eq_true in Eg.
  - unfold earlyKeys. rewrite list_lookup_fmap, Ho. cbn. rewrite Ek. cbn. unfold slotValue. rewrite Es, decide_True, Hw by lia. cbn. by rewrite Eg.
Qed.

(** The gate is on: LIMIT, no DISTINCT, and keys that evaluate over the matched row. *)
Definition gated : bool := gates (projOf q) (Distinct q) (gateable q slots).

Lemma plan_evaluates : (gated = true → unshadowed) →
  evaluates (outRow q slots) (builtKeys q slots width) (earlyKeys q slots) (typedRead (length (OrderBy q)) (typedFn q slots)) given (projOf q) (Distinct q) (gateable q slots) (allTyped q slots) (length (Returns q)).
Proof using HX HG Hq.
  intros Hu. split.
  - intros r [_ Wr]. split; [unfold outRow; by rewrite length_fmap|by apply outRow_wf].
  - apply builtKeys_wf.
  - intros Hg r Hr. by apply earlyKeys_built; [apply Hu|].
  - intros Hg Ht r fs Hr Hf. rewrite <- earlyKeys_built by (auto || done).
    intros j Hj. unfold projOf in Hj. cbn in Hj. rewrite length_fmap in Hj. unfold typedRead in Hf. apply mapM_Some in Hf. assert (seq 0 (length (OrderBy q)) !! j = Some j) as Hs by (by rewrite lookup_seq_lt).
    destruct (Forall2_lookup_l _ _ _ _ _ Hf Hs) as (f & Hf' & E). destruct (typedFn_key r j f Ht Hr Hj E) as (i & Hi & Ek & ->). exists i. split; [done|]. split; [by apply list_lookup_total_correct|by apply list_lookup_total_correct].
  - apply (wp_counts Hq).
Qed.

Lemma candRow_given r slot c : given r → is_u32 c → given (candRow r slot c).
Proof using. intros [Lr Wr] Hc. split; [unfold candRow; by rewrite len_insert|]. apply Forall_insert; [done|]. cbn. by apply bool_decide_true. Qed.

(** Keys on the bound slot are read in bulk, the others are those of the template. *)
Lemma plan_batch i : wfSinkInput i → wfBatch (length (OrderBy q)) (λ k, (reader q slots k).1) (typedFn q slots) (bulkFn q slots) (inputOf i).
Proof using Hq.
  intros Hi. destruct i as [r|r slot cands]; [done|]. destruct Hi as ([Lr Wr] & Hs & Hc). intros r' k (c & -> & Hin)%list_elem_of_fmap Hk. unfold typedFn, bulkFn.
  destruct (typedReaders q slots) as [rs|] eqn:Et; [|unfold reader; rewrite Et; cbn; repeat case_match; done].
  destruct (reader_at k ltac:(eauto) Hk) as (o & v & key & col & s & _ & _ & Es & _ & ->). pose proof (wp_slots Hq v s Es). cbn [fst snd]. case_bool_decide as E.
  - subst s. unfold candRow. by rewrite list_lookup_total_insert_eq by (unfold len in Lr; lia).
  - unfold candRow. by rewrite list_lookup_total_insert_ne by lia.
Qed.
End plan.
End plans.

Lemma inputOf_rows (ins : Datatypes.list sinkInput) : concat (inputRows <$> (inputOf <$> ins)) = concat (rowsOf <$> ins).
Proof. rewrite <- list_fmap_compose. f_equal. apply list_fmap_ext. by intros k [|] _. Qed.
Lemma rowsOf_given width (ins : Datatypes.list sinkInput) : Forall (wfSinkInput width) ins → Forall (given width) (concat (inputRows <$> (inputOf <$> ins))).
Proof.
  intros Hi. rewrite inputOf_rows. apply Forall_concat, Forall_fmap. eapply Forall_impl; [exact Hi|]. intros [r|r slot cands]; cbn; [intros Hr; by apply Forall_singleton|].
  intros (Hr & _ & Hc). apply Forall_fmap. eapply Forall_impl; [exact Hc|]. intros c Hc'. by apply candRow_given.
Qed.

(** C20: The projection sink is the plain pipeline: for every bound plan whose OFFSET and OFFSET + LIMIT do not overflow, and any sequence of matched rows and candidate batches, with or without DISTINCT, ORDER BY, OFFSET and LIMIT, whichever of the gate and the typed prefilter the plan turns on, evaluating the columns, dropping duplicates, refusing candidates early or in bulk, keeping rows in the bounded heap, stopping the producer early, sorting by packed keys and paginating never panics and returns exactly the rows of evaluate, keep the first of equal rows, sort by the ORDER BY keys with ties in arrival order, skip, limit; provided that, when the gate is on, no ORDER BY key mentions an output column that hides a matched variable with another value. *)
Theorem projection_is_plain_pipeline {X} `{EvaluatorLaws X} `{GraphReadsLaws} (q : Plan X) (slots : scope) (width : Z) (ins : Datatypes.list sinkInput) :
  wfPlan q slots width → (gated q slots = true → unshadowed q slots) → Forall (wfSinkInput width) ins →
  runProjection q slots width ins = Ok (pipeline (outRow q slots) (builtKeys q slots width) (projOf q) (Distinct q) (concat (rowsOf <$> ins))).
Proof.
  intros Hq Hu Hi. rewrite <- inputOf_rows. rewrite <- (project_exact _ _ _ _ _ _ _ _ _ _ (plan_evaluates q slots width Hq Hu)); [|by apply rowsOf_given].
  rewrite <- (projectStream_rows _ _ _ _ (λ k, (reader q slots k).1) _ (bulkFn q slots)); [done|]. apply Forall_fmap. eapply Forall_impl; [exact Hi|]. intros i Hw. by apply (plan_batch q slots width Hq).
Qed.

(** MATCH (a)-->(b) RETURN a, b.v AS w ORDER BY a.v DESC LIMIT 2, over nodes whose property v is their id; literals of truth values are the other expressions. *)
#[export] Instance boolEvaluator : Evaluator bool := {| otherChecks _ _ := true; otherNames _ := []; otherEval b _ _ := Bool b |}.
#[export] Instance boolEvaluatorLaws : EvaluatorLaws bool.
Proof. by split. Qed.
Definition idOf (n : Z) : option Z := if decide (is_u32 n) then Some n else None.
#[export] Instance idReads : GraphReads := {| graphNode n _ := Int <$> idOf n; graphRel _ _ := None; graphI64 _ := Some idOf |}.
#[export] Instance idReadsLaws : GraphReadsLaws.
Proof.
  split; [|done|by intros key col n [= <-]]. intros n key v. cbn. unfold idOf. case_decide as D; [|done]. intros [= <-]. cbn. apply bool_decide_true. lia.
Qed.
Definition nameA : gostring := [Byte.x61].
Definition nameB : gostring := [Byte.x62].
Definition nameV : gostring := [Byte.x76].
Definition abSlots : scope := {[nameA := 0; nameB := 1]}.
Definition abPlan : Plan bool := mkPlan [EVar nameA; EProp nameB nameV] [nameA; nameV] [(EProp nameA nameV, true)] None (Some 2) false.
Definition abIns : Datatypes.list sinkInput := [SinkRow [Node 4; Node 9]; SinkCands [Node 6; Null] 1 [3; 5]].

Lemma abSlots_in x i : abSlots !! x = Some i → 0 ≤ i < 2.
Proof. unfold abSlots. rewrite lookup_insert_Some, lookup_singleton_Some. lia. Qed.
Lemma abIns_wf : Forall (wfSinkInput 2) abIns.
Proof. repeat constructor; try done; cbn; lia. Qed.

Lemma projection_is_plain_pipeline_witness : runProjection abPlan abSlots 2 abIns =
  Ok (pipeline (outRow abPlan abSlots) (builtKeys abPlan abSlots 2) (projOf abPlan) false [[Node 4; Node 9]; [Node 6; Node 3]; [Node 6; Node 5]]).
Proof.
  apply (projection_is_plain_pipeline abPlan abSlots 2 abIns); [|intros _|apply abIns_wf].
  - split; [done|apply abSlots_in|]. split; [done|]. intros k [= <-]. cbn. lia.
  - intros o x i Ho%list_elem_of_singleton _. subst o. cbn. rewrite list_elem_of_singleton. intros ->. destruct i as [|[|i]]; cbn; [intros _; split; [done|by eexists]|intros [=]|done].
Defined.

(** Rows of one integer column, ordered by it downwards. *)
Definition bitOut (b : bool) : row := [Int (if b then 1 else 0)].
Definition bitFn (k : nat) (b : bool) : option Z := Some (ofInt (if b then 1 else 0)).
Abbreviation bitTyped := (typedRead 1 bitFn).
Definition bitPlan : ProjPlan := mkProj [true] (Some 1) (Some 2).
(** MATCH (a)-->(b) RETURN b AS a ORDER BY a.v LIMIT 1. *)
Definition shadowPlan (X : Type) (a b v : gostring) : Plan X := mkPlan [EVar b] [a] [(EProp a v, false)] None (Some 1) false.
Definition shadowIns : Datatypes.list sinkInput := [SinkRow [Node 1; Node 9]; SinkRow [Node 20; Node 3]].

(** An alias that hides a matched variable makes the gate read the wrong key: for RETURN b AS a ORDER BY a.v LIMIT 1, whatever the names, the graph and the row, the gate is on and refuses candidates by the property of the matched a, while a built row is ordered by the property of the output column a, which is b; so over two rows the sink returns the row that sorts last. *)
Theorem alias_hides_order_key :
  (∀ X (HX : Evaluator X) (HG : GraphReads) a b v x y, a ≠ b →
    let q := shadowPlan X a b v in let slots : scope := {[a := 0; b := 1]} in
    gated q slots = true ∧ earlyKeys q slots [x; y] = [propRead x v] ∧ builtKeys q slots 2 (outRow q slots [x; y]) [x; y] = [propRead y v]) ∧
  (let q := shadowPlan bool nameA nameB nameV in
   runProjection q abSlots 2 shadowIns = Ok [[Node 9]] ∧
   pipeline (outRow q abSlots) (builtKeys q abSlots 2) (projOf q) false (concat (rowsOf <$> shadowIns)) = [[Node 3]]).
Proof.
  split; [|split; by vm_compute]. intros X HX HG a b v x y Hab q slots.
  assert (slots !! a = Some 0) as Ea by (unfold slots; by rewrite lookup_insert_eq). assert (slots !! b = Some 1) as Eb by (unfold slots; by rewrite lookup_insert_ne, lookup_singleton_eq). clearbody slots.
  assert (colIdx q (EProp a v) = -1) as Ec by (unfold colIdx, OrderColIndex, findIndex; cbn; by rewrite decide_False by done).
  split; [|split].
  - unfold gated, gates, gateable. cbn [q shadowPlan OrderBy forallb fst]. rewrite Ec. cbn [CheckRefs]. by rewrite Ea.
  - unfold earlyKeys, keyExpr. cbn [q shadowPlan OrderBy fmap list_fmap fst]. fold q. rewrite Ec. rewrite decide_False by lia. cbn. unfold slotValue. by rewrite Ea.
  - assert (kScope q slots 2 !! a = Some 2) as Ek by (unfold kScope, kBase, needM; cbn [q shadowPlan OrderBy existsb fst Columns]; fold q; rewrite Ec; apply lookup_insert_eq).
    unfold builtKeys. cbn [q shadowPlan OrderBy fmap list_fmap fst]. fold q. rewrite Ec. rewrite decide_False by lia. cbn [Eval]. unfold slotValue at 1. rewrite Ek. cbn. unfold slotValue. by rewrite Eb.
Qed.

(** C39: Counts that overflow break pagination: an OFFSET from 2^63 on, which the parser accepts, makes paginate panic on every input, and an OFFSET and LIMIT whose sum passes 2^64 wrap in orderBound, so that rows the query should return are dropped. *)
Theorem large_counts_break_pagination :
  (∀ (v : Datatypes.list row) s limit, 2 ^ 63 ≤ s < 2 ^ 64 → paginate v (Some s) limit = Panic) ∧
  (let proj := mkProj [true] (Some 1) (Some (2 ^ 64 - 1)) in
   project bitOut (λ out _, out) bitOut bitTyped proj false true true 1 [false; true; false] = Ok [] ∧
   pipeline bitOut (λ out _, out) proj false [false; true; false] = [bitOut false; bitOut false]).
Proof.
  split.
  - intros v s limit Hs. unfold paginate. assert (to_i64 s = s - 2 ^ 64) as -> by (unfold wrapS; dlia). pose proof (len_nonneg v). rewrite decide_False by lia.
    unfold slice. by rewrite decide_False by lia.
  - cbv zeta. split; [by vm_compute|]. unfold pipeline. cbn [Skip Limit Desc keptRows]. unfold page. rewrite take_ge; [by vm_compute|].
    rewrite length_drop. assert (length (inOrder [true] ((λ r, bitOut r) <$> [false; true; false]) (bitOut <$> [false; true; false])) = 3%nat) as -> by (by vm_compute). lia.
Qed.
