(* ===== verification/FloatOps.v ===== *)
(** float64 arithmetic on IEEE bits.

    The operators [+], [-], [*], [/] and [math.Sqrt], [math.Floor], [math.Ceil] of Go
    on floats kept as their bits: the bits are read as a [spec_float], the operation
    is the Standard Library's, and the result is written back. Which NaN an operation
    returns is left open by IEEE 754 ([nanOf], a function of the operands), and Go
    lets a compiler contract [x*y + z] into one rounding ([fused]). *)

From Stdlib Require Import SpecFloat.
From S2P Require Import Prelude Cost Float64.

Record FloatEnv := mkFloatEnv { nanOf : Z → Z → Z; fused : bool; outOfRange : Z → Z }.

(** ** Bits and spec_floats *)

Definition decode (b : Z) : spec_float :=
  let s := signBit b in
  let e := absBits b / 2 ^ 52 in
  let f := absBits b `mod` 2 ^ 52 in
  if decide (e = 2047) then (if decide (f = 0) then S754_infinity s else S754_nan)
  else if decide (e = 0) then match f with Zpos p => S754_finite s p (-1074) | _ => S754_zero s end
  else match 2 ^ 52 + f with Zpos p => S754_finite s p (e - 1075) | _ => S754_nan end.

Definition signed (s : bool) (m : Z) : Z := if s then 2 ^ 63 + m else m.
Definition encode (nan : Z) (f : spec_float) : Z :=
  match f with
  | S754_nan => nan
  | S754_infinity s => signed s infBits
  | S754_zero s => signed s 0
  | S754_finite s m e => signed s (magBits (Zpos m * 2 ^ (e + 1074)))
  end.

(** ** Operators *)

Section ops.
Context (fe : FloatEnv).

Definition fadd (x y : Z) : Z := encode (nanOf fe x y) (SFadd 53 1024 (decode x) (decode y)).
Definition fsub (x y : Z) : Z := encode (nanOf fe x y) (SFsub 53 1024 (decode x) (decode y)).
Definition fmul (x y : Z) : Z := encode (nanOf fe x y) (SFmul 53 1024 (decode x) (decode y)).
Definition fdiv (x y : Z) : Z := encode (nanOf fe x y) (SFdiv 53 1024 (decode x) (decode y)).
Definition fsqrt (x : Z) : Z := encode (nanOf fe x x) (SFsqrt 53 1024 (decode x)).

(** The exact product of two finite floats plus a third, rounded once; an operand
    that is not finite, or a zero product, leaves nothing to round twice. *)
Definition exactFma (x y z : spec_float) : spec_float :=
  match x, y, z with
  | S754_finite sx mx ex, S754_finite sy my ey, S754_finite sz mz ez =>
      let m := cond_Zopp (xorb sx sy) (Zpos (mx * my)) in
      let e := ex + ey in
      let k := Z.min e ez in
      binary_normalize 53 1024 (m * 2 ^ (e - k) + cond_Zopp sz (Zpos mz) * 2 ^ (ez - k)) k false
  | S754_finite sx mx ex, S754_finite sy my ey, S754_zero _ =>
      binary_normalize 53 1024 (cond_Zopp (xorb sx sy) (Zpos (mx * my))) (ex + ey) false
  | _, _, _ => SFadd 53 1024 (SFmul 53 1024 x y) z
  end.

(** [z + x*y] of Go. *)
Definition mulAdd (z x y : Z) : Z :=
  if fused fe then encode (nanOf fe z (nanOf fe x y)) (exactFma (decode x) (decode y) (decode z)) else fadd z (fmul x y).

Definition fneg (x : Z) : Z := signed (negb (signBit x)) (absBits x).
Definition isInf64 (x : Z) : bool := bool_decide (absBits x = infBits).
Definition one64F : Z := 1023 * 2 ^ 52.

(** [math.Floor] and [math.Ceil]. *)
Definition floorF (x : Z) : Z :=
  if bool_decide (fval x = 0) || isNaN x || isInf64 x then x
  else if decide (fval x < 0) then
    let d := truncBits (fneg x) in
    fneg (if feq d (fneg x) then d else fadd d one64F)
  else truncBits x.
Definition ceilF (x : Z) : Z := fneg (floorF (fneg x)).

(** [int(f)]. *)
Definition intF (x : Z) : Z := toInt (outOfRange fe) x.
End ops.

(** ** Decoding and encoding are inverse *)

Lemma signed_range s m : 0 ≤ m < 2 ^ 63 → is_u64 (signed s m) ∧ signBit (signed s m) = s ∧ absBits (signed s m) = m.
Proof.
  intros Hm. unfold signed, signBit, absBits. destruct s.
  - split; [lia|]. split; [apply bool_decide_true; lia|]. symmetry. apply (Zmod_unique _ _ 1); lia.
  - split; [lia|]. split; [apply bool_decide_false; lia|]. apply Z.mod_small. lia.
Qed.

Lemma signed_bits b : is_u64 b → signed (signBit b) (absBits b) = b.
Proof. intros Hb. pose proof (absBits_signed b Hb). unfold signed. destruct (signBit b); lia. Qed.

(** A finite float decodes to its magnitude. *)
Lemma decode_mag b : isNaN b = false → absBits b ≠ infBits →
  absBits b = 0 ∨ ∃ p e, decode b = S754_finite (signBit b) p e ∧ -1074 ≤ e ∧ Zpos p * 2 ^ (e + 1074) = mag (absBits b).
Proof.
  intros Hn Hi. pose proof (absBits_range b) as Hr. unfold isNaN in Hn. apply bool_decide_eq_false in Hn.
  assert (0 ≤ absBits b < infBits) as Hb by lia. unfold infBits in Hb.
  pose proof (Z.div_mod (absBits b) (2 ^ 52) ltac:(lia)) as Hd. pose proof (Z.mod_pos_bound (absBits b) (2 ^ 52) ltac:(lia)) as Hf.
  assert (0 ≤ absBits b / 2 ^ 52 < 2047) as He by (split; [apply Z.div_pos; lia|apply Z.div_lt_upper_bound; lia]).
  unfold decode. rewrite (decide_False (P := absBits b / 2 ^ 52 = 2047)) by lia.
  destruct (decide (absBits b / 2 ^ 52 = 0)) as [E0|E0].
  - assert (absBits b `mod` 2 ^ 52 = absBits b) as -> by lia. unfold mag. rewrite decide_True by lia.
    destruct (absBits b) as [|p|p] eqn:Ea; [by left| |lia]. right. exists p, (-1074). split; [done|]. split; [lia|]. simpl. lia.
  - right. unfold mag. rewrite decide_False by lia. destruct (2 ^ 52 + absBits b `mod` 2 ^ 52) as [|p|p] eqn:Ep; [lia| |lia].
    exists p, (absBits b / 2 ^ 52 - 1075). split; [done|]. split; [lia|]. do 2 f_equal. lia.
Qed.

Lemma encode_decode nan b : is_u64 b → encode nan (decode b) = if isNaN b then nan else b.
Proof.
  intros Hb. pose proof (absBits_range b) as Hr. destruct (isNaN b) eqn:N.
  - unfold isNaN in N. apply bool_decide_eq_true in N. unfold infBits in N. unfold decode.
    assert (absBits b / 2 ^ 52 = 2047) as E by (symmetry; apply (Z.div_unique _ _ _ (absBits b - 2047 * 2 ^ 52)); lia).
    rewrite decide_True by done. rewrite decide_False; [done|]. rewrite (Z.mod_eq _ (2 ^ 52)) by lia. rewrite E. lia.
  - destruct (decide (absBits b = infBits)) as [Ei|Ei].
    { unfold decode. rewrite Ei. change (infBits / 2 ^ 52) with 2047. change (infBits `mod` 2 ^ 52) with 0. rewrite !decide_True by done. cbn. rewrite <- Ei. by apply signed_bits. }
    destruct (decode_mag b N Ei) as [Ez|(p & e & -> & He & Em)].
    + unfold decode. rewrite Ez. change (0 / 2 ^ 52) with 0. change (0 `mod` 2 ^ 52) with 0. rewrite decide_False, decide_True by done. cbn. rewrite <- Ez. by apply signed_bits.
    + cbn [encode]. rewrite Em, magBits_mag by lia. by apply signed_bits.
Qed.
