(* ===== verification/Slab.v ===== *)
(** Slabs: the chunked group storage of the aggregator (gql/internal/exec/aggregate.go).

    The aggregator keeps the state of group [i] in a window of a chunk: the first
    chunks hold 128, 512 and 2048 groups, every later one 4096. A slab is the list of
    its chunks; some slabs are appended to window by window, others are made zeroed a
    chunk at a time. [slab k fill rows] is the slab whose window [i] is [rows !! i]. *)

From S2P Require Import Prelude.

Definition chunkGroups : Z := 4096.
Definition tierGroups : list Z := [128; 512; 2048].
Definition tierBounds : list Z := [128; 640; 2688].

Definition chunkCap (c : Z) : Z := if decide (c < 3) then tierGroups !!! Z.to_nat c else chunkGroups.

Definition chunkWindow (i : Z) : Z * Z :=
  if decide (i < 128) then (0, i)
  else if decide (i < 640) then (1, i - 128)
  else if decide (i < 2688) then (2, i - 640)
  else let r := i - 2688 in (3 + Z.quot r chunkGroups, Z.rem r chunkGroups).

Section slabs.
Context {A : Type}.

(** The window of group [i] in a slab of stride [k]. *)
Definition window (k : Z) (cs : list (list A)) (i : Z) : res (list A) :=
  let '(c, w) := chunkWindow i in
  ch ← idx cs c;
  slice ch (w * k) ((w + 1) * k).

(** A window is a slice of its chunk: what is written to it lands in the slab. *)
Definition putWindow (k : Z) (cs : list (list A)) (i : Z) (win : list A) : res (list (list A)) :=
  let '(c, w) := chunkWindow i in
  ch ← idx cs c;
  upd cs c (take (Z.to_nat (w * k)) ch ++ win ++ drop (Z.to_nat ((w + 1) * k)) ch).

(** The first group of a chunk opens it. *)
Definition openChunk (i : Z) (chunk : Z → list A) (cs : list (list A)) : list (list A) :=
  let '(c, w) := chunkWindow i in if decide (w = 0) then cs ++ [chunk (chunkCap c)] else cs.

(** [cs[c] = append(cs[c], xs...)] for the chunk of group [i]. *)
Definition appendTo (i : Z) (xs : list A) (cs : list (list A)) : res (list (list A)) :=
  let '(c, _) := chunkWindow i in ch ← idx cs c; upd cs c (ch ++ xs).
End slabs.

(** ** Chunk geometry *)

(** The first group of chunk [c]. *)
Definition chunkBase (c : Z) : Z :=
  if decide (c ≤ 0) then 0 else if decide (c = 1) then 128 else if decide (c = 2) then 640 else 2688 + (c - 3) * 4096.

Lemma chunkCap_cases c : 0 ≤ c → (c = 0 ∧ chunkCap c = 128) ∨ (c = 1 ∧ chunkCap c = 512) ∨ (c = 2 ∧ chunkCap c = 2048) ∨ (3 ≤ c ∧ chunkCap c = 4096).
Proof.
  intros Hc. unfold chunkCap. case_decide; [|right; right; right; split; [lia|done]].
  assert (c = 0 ∨ c = 1 ∨ c = 2) as [->|[->| ->]] by lia; [by left|right; by left|right; right; by left].
Qed.

Ltac base := unfold chunkBase; repeat case_decide; lia.

Lemma chunkBase_succ c : 0 ≤ c → chunkBase (c + 1) = chunkBase c + chunkCap c.
Proof. intros Hc. destruct (chunkCap_cases c Hc) as [[-> ->]|[[-> ->]|[[-> ->]|[? ->]]]]; base. Qed.

Lemma chunkBase_mono c d : c ≤ d → chunkBase c ≤ chunkBase d.
Proof. intros H. base. Qed.

Lemma chunkBase_nonneg c : 0 ≤ chunkBase c.
Proof. base. Qed.

Lemma chunkWindow_spec i c w : 0 ≤ i → chunkWindow i = (c, w) → 0 ≤ c ∧ 0 ≤ w < chunkCap c ∧ i = chunkBase c + w.
Proof.
  intros Hi. unfold chunkWindow, chunkGroups. repeat case_decide; intros [= <- <-]; try (change (chunkCap 0) with 128; change (chunkCap 1) with 512; change (chunkCap 2) with 2048; base).
  rewrite Z.quot_div_nonneg, Z.rem_mod_nonneg by lia. pose proof (Z.div_pos (i - 2688) 4096). pose proof (Z.mod_pos_bound (i - 2688) 4096).
  pose proof (Z.div_mod (i - 2688) 4096). destruct (chunkCap_cases (3 + (i - 2688) / 4096)) as [?|[?|[?|[_ ->]]]]; [lia..|]. base.
Qed.

Lemma chunkWindow_at c w : 0 ≤ c → 0 ≤ w < chunkCap c → chunkWindow (chunkBase c + w) = (c, w).
Proof.
  intros Hc Hw. destruct (chunkWindow (chunkBase c + w)) as [c' w'] eqn:E. pose proof (chunkBase_nonneg c).
  apply chunkWindow_spec in E as (Hc' & Hw' & Eb); [|lia]. destruct (Z.lt_trichotomy c c') as [L|[->|L]].
  - pose proof (chunkBase_mono (c + 1) c'). rewrite chunkBase_succ in *; lia.
  - f_equal. lia.
  - pose proof (chunkBase_mono (c' + 1) c). rewrite chunkBase_succ in *; lia.
Qed.

(** How many chunks [n] groups open. *)
Definition chunksFor (n : Z) : Z := if decide (n ≤ 0) then 0 else (chunkWindow (n - 1)).1 + 1.

Lemma chunksFor_succ n c w : 0 ≤ n → chunkWindow n = (c, w) → chunksFor (n + 1) = c + 1 ∧ chunksFor n = if decide (w = 0) then c else c + 1.
Proof.
  intros Hn E. unfold chunksFor. rewrite decide_False by lia. replace (n + 1 - 1) with n by lia. rewrite E. split; [done|].
  apply chunkWindow_spec in E as (Hc & Hw & En); [|done]. case_decide as D.
  - pose proof (chunkBase_nonneg c). rewrite decide_True by lia. assert (chunkBase c = 0) as E0 by lia. destruct (decide (c = 0)); [done|].
    pose proof (chunkBase_mono 1 c ltac:(lia)). change (chunkBase 1) with 128 in *. lia.
  - destruct (decide (w = 0)) as [->|].
    + assert (0 < c) as H0 by (destruct (decide (c = 0)) as [->|]; [change (chunkBase 0) with 0 in En; lia|lia]).
      pose proof (chunkBase_succ (c - 1) ltac:(lia)) as Eb. replace (c - 1 + 1) with c in Eb by lia.
      destruct (chunkCap_cases (c - 1) ltac:(lia)) as [[_ Ek]|[[_ Ek]|[[_ Ek]|[_ Ek]]]]; (replace (n - 1) with (chunkBase (c - 1) + (chunkCap (c - 1) - 1)) by lia; rewrite chunkWindow_at by lia; simpl; lia).
    + replace (n - 1) with (chunkBase c + (w - 1)) by lia. by rewrite chunkWindow_at by lia.
Qed.

Lemma chunksFor_nonneg n : 0 ≤ chunksFor n.
Proof.
  unfold chunksFor. case_decide; [done|]. destruct (chunkWindow (n - 1)) as [c w] eqn:E. apply chunkWindow_spec in E; simpl; lia.
Qed.

Lemma chunksFor_gt n i c w : 0 ≤ i < n → chunkWindow i = (c, w) → 0 ≤ c < chunksFor n.
Proof.
  intros Hi E. unfold chunksFor. rewrite decide_False by lia. destruct (chunkWindow (n - 1)) as [d v] eqn:E'. simpl.
  apply chunkWindow_spec in E as (? & ? & ?), E' as (? & ? & ?); try lia. destruct (decide (c ≤ d)); [lia|].
  pose proof (chunkBase_mono (d + 1) c). rewrite chunkBase_succ in * by lia. lia.
Qed.

(** ** Contents *)

Section contents.
Context {A : Type} (k : Z) (fill : Z → list A).
Implicit Types (rows : list (list A)).

Definition chunkRows rows (c : Z) : list (list A) := take (Z.to_nat (chunkCap c)) (drop (Z.to_nat (chunkBase c)) rows).
(** A chunk holds its groups' windows and, made ahead, what the missing ones will be. *)
Definition chunkOf rows (c : Z) : list A := concat (chunkRows rows c) ++ fill (chunkCap c - len (chunkRows rows c)).
Definition slab rows : list (list A) := chunkOf rows <$> zseq (chunksFor (len rows)).

Definition strided rows : Prop := Forall (λ r, len r = k) rows.

Lemma slab_lookup rows c : 0 ≤ c < chunksFor (len rows) → slab rows !! Z.to_nat c = Some (chunkOf rows c).
Proof.
  intros Hc. unfold slab. rewrite list_lookup_fmap. unfold zseq. rewrite list_lookup_fmap, lookup_seq_lt by lia. simpl. by rewrite Z2Nat.id by lia.
Qed.

Lemma len_slab rows : len (slab rows) = chunksFor (len rows).
Proof. unfold slab, zseq, len at 1. rewrite !length_fmap, length_seq. pose proof (chunksFor_nonneg (len rows)). lia. Qed.

Lemma concat_strided rows : strided rows → len (concat rows) = len rows * k.
Proof. induction 1 as [|r rows E _ IH]; [done|]. simpl. rewrite len_app, len_cons. lia. Qed.

(** The chunk of a row, split around it. *)
Lemma chunk_split l1 r l2 c w : chunkWindow (len l1) = (c, w) →
  chunkRows (l1 ++ r :: l2) c = drop (Z.to_nat (chunkBase c)) l1 ++ r :: take (Z.to_nat (chunkCap c - w - 1)) l2 ∧
  len (drop (Z.to_nat (chunkBase c)) l1) = w.
Proof.
  intros E. apply chunkWindow_spec in E as (Hc & Hw & Ei); [|apply len_nonneg]. pose proof (chunkBase_nonneg c). unfold len in *.
  assert (length (drop (Z.to_nat (chunkBase c)) l1) = Z.to_nat w) as Ld by (rewrite length_drop; lia). split; [|lia].
  unfold chunkRows. rewrite drop_app_le by lia. rewrite take_app_ge by lia. f_equal. rewrite Ld.
  replace (Z.to_nat (chunkCap c) - Z.to_nat w)%nat with (S (Z.to_nat (chunkCap c - w - 1))) by lia. done.
Qed.

(** The chunk as one list around the row's window. *)
Lemma chunkOf_split l1 r l2 c w : chunkWindow (len l1) = (c, w) →
  chunkOf (l1 ++ r :: l2) c = concat (drop (Z.to_nat (chunkBase c)) l1) ++ r ++ (concat (take (Z.to_nat (chunkCap c - w - 1)) l2) ++
    fill (chunkCap c - (w + 1 + len (take (Z.to_nat (chunkCap c - w - 1)) l2)))).
Proof.
  intros E. destruct (chunk_split l1 r l2 c w E) as [Ec Lw]. unfold chunkOf. rewrite Ec, len_app, len_cons, Lw, concat_app. simpl. rewrite <- !app_assoc. do 4 f_equal. lia.
Qed.

Lemma strided_app l1 l2 : strided (l1 ++ l2) ↔ strided l1 ∧ strided l2.
Proof. apply Forall_app. Qed.
Lemma strided_drop n rows : strided rows → strided (drop n rows).
Proof. apply Forall_drop. Qed.

Lemma window_at l1 r l2 : strided (l1 ++ r :: l2) → window k (slab (l1 ++ r :: l2)) (len l1) = Ok r.
Proof.
  intros [H1 [Hr _]%Forall_cons]%strided_app. unfold window. destruct (chunkWindow (len l1)) as [c w] eqn:E. pose proof (len_nonneg l1). pose proof (len_nonneg l2).
  assert (0 ≤ c < chunksFor (len (l1 ++ r :: l2))) as Hc by (eapply chunksFor_gt; [|exact E]; rewrite len_app, len_cons; lia).
  rewrite (idx_lookup _ _ (chunkOf (l1 ++ r :: l2) c)) by (done || lia || by apply slab_lookup). cbn [mbind res_bind].
  destruct (chunk_split l1 r l2 c w E) as [_ Lw]. rewrite (chunkOf_split _ _ _ _ _ E).
  replace (w * k) with (len (concat (drop (Z.to_nat (chunkBase c)) l1))) by (rewrite concat_strided by (by apply strided_drop); lia).
  replace ((w + 1) * k) with (len (concat (drop (Z.to_nat (chunkBase c)) l1)) + len r) by (rewrite concat_strided by (by apply strided_drop); lia).
  apply slice_mid.
Qed.

(** A chunk that does not hold the row does not see it. *)
Lemma chunkOf_other l1 r r' l2 c w d : chunkWindow (len l1) = (c, w) → 0 ≤ d → d ≠ c → chunkOf (l1 ++ r :: l2) d = chunkOf (l1 ++ r' :: l2) d.
Proof.
  intros E Hd Hn. apply chunkWindow_spec in E as (Hc & Hw & Ei); [|apply len_nonneg]. unfold chunkOf.
  assert (chunkRows (l1 ++ r :: l2) d = chunkRows (l1 ++ r' :: l2) d) as ->; [|done].
  pose proof (chunkBase_nonneg c). pose proof (chunkBase_nonneg d). unfold chunkRows, len in *. destruct (decide (d < c)) as [L|L].
  - pose proof (chunkBase_mono (d + 1) c ltac:(lia)) as Hb. rewrite chunkBase_succ in Hb by done.
    destruct (chunkCap_cases d Hd) as [[_ Ek]|[[_ Ek]|[[_ Ek]|[_ Ek]]]]; rewrite Ek in *; rewrite !drop_app_le, !take_app_le by (rewrite ?length_drop; lia); done.
  - pose proof (chunkBase_mono (c + 1) d ltac:(lia)) as Hb. rewrite chunkBase_succ in Hb by done.
    rewrite !drop_app_ge by lia. by replace (Z.to_nat (chunkBase d) - length l1)%nat with (S (Z.to_nat (chunkBase d) - length l1 - 1)) by lia.
Qed.

Lemma putWindow_at l1 r r' l2 : strided (l1 ++ r :: l2) → len r' = k → putWindow k (slab (l1 ++ r :: l2)) (len l1) r' = Ok (slab (l1 ++ r' :: l2)).
Proof.
  intros [H1 [Hr _]%Forall_cons]%strided_app Hr'. unfold putWindow. destruct (chunkWindow (len l1)) as [c w] eqn:E. pose proof (len_nonneg l1). pose proof (len_nonneg l2).
  assert (0 ≤ c < chunksFor (len (l1 ++ r :: l2))) as Hc by (eapply chunksFor_gt; [|exact E]; rewrite len_app, len_cons; lia).
  rewrite (idx_lookup _ _ (chunkOf (l1 ++ r :: l2) c)) by (done || lia || by apply slab_lookup). cbn [mbind res_bind].
  destruct (chunk_split l1 r l2 c w E) as [_ Lw]. pose proof (concat_strided _ (strided_drop (Z.to_nat (chunkBase c)) _ H1)) as Lc. rewrite Lw in Lc.
  unfold upd. rewrite decide_True by (by rewrite len_slab). f_equal. apply list_eq. intros j. destruct (decide (j = Z.to_nat c)) as [->|Hj].
  - rewrite list_lookup_insert_eq by (pose proof (len_slab (l1 ++ r :: l2)); unfold len in *; lia). rewrite slab_lookup by (rewrite len_app, len_cons in *; lia). f_equal.
    rewrite !(chunkOf_split _ _ _ _ _ E). rewrite take_app_length' by (unfold len in *; lia). f_equal. f_equal. rewrite drop_app_ge by (unfold len in *; lia).
    rewrite drop_app_ge by (unfold len in *; nia). replace (_ - _ - _)%nat with 0%nat by (unfold len in *; nia). done.
  - rewrite list_lookup_insert_ne by done. unfold slab. rewrite !list_lookup_fmap. replace (len (l1 ++ r' :: l2)) with (len (l1 ++ r :: l2)) by (rewrite !len_app, !len_cons; lia).
    destruct (zseq _ !! j) as [d|] eqn:Ed; [|done]. simpl. f_equal. unfold zseq in Ed. rewrite list_lookup_fmap in Ed. apply fmap_Some in Ed as (m & Hm & ->). apply lookup_seq in Hm as [-> Hm].
    apply (chunkOf_other _ _ _ _ c w); [done|lia|lia].
Qed.
End contents.

(** ** New groups *)

Section growth.
Context {A : Type} (fill : Z → list A).
Implicit Types (rows : list (list A)).

(** [rows] in a slab whose chunks are open for [n] groups. *)
Definition slabFor (n : Z) rows : list (list A) := chunkOf fill rows <$> zseq (chunksFor n).

Lemma chunkRows_snoc rows r c w d : chunkWindow (len rows) = (c, w) → 0 ≤ d →
  chunkRows (rows ++ [r]) d = if decide (d = c) then chunkRows rows d ++ [r] else chunkRows rows d.
Proof.
  intros E Hd. pose proof (chunkWindow_spec _ _ _ (len_nonneg rows) E) as (Hc & Hw & Ei). pose proof (chunkBase_nonneg c). pose proof (chunkBase_nonneg d). unfold chunkRows, len in *.
  destruct (chunkCap_cases d Hd) as [[_ Ek]|[[_ Ek]|[[_ Ek]|[_ Ek]]]]; case_decide as D; try (subst d);
    try (rewrite Ek in *; rewrite drop_app_le by lia; rewrite take_app_ge by (rewrite length_drop; lia); rewrite (take_ge (drop _ _)) by (rewrite length_drop; lia);
      f_equal; rewrite take_ge; [done|]; rewrite length_drop; simpl; lia).
  all: destruct (decide (d < c)) as [L|L]; [pose proof (chunkBase_mono (d + 1) c ltac:(lia)) as Hb; rewrite chunkBase_succ in Hb by done; rewrite Ek in *;
    rewrite drop_app_le, take_app_le by (rewrite ?length_drop; lia); done|].
  all: pose proof (chunkBase_mono (c + 1) d ltac:(lia)) as Hb; rewrite chunkBase_succ in Hb by done; rewrite !drop_ge by (rewrite ?length_app; simpl; lia); done.
Qed.

Lemma chunkRows_end rows c w : chunkWindow (len rows) = (c, w) → len (chunkRows rows c) = w.
Proof.
  intros E. pose proof (chunkWindow_spec _ _ _ (len_nonneg rows) E) as (Hc & Hw & Ei). pose proof (chunkBase_nonneg c). unfold chunkRows, len in *.
  rewrite length_take, length_drop. lia.
Qed.

(** Opening the chunk of the next group. *)
Lemma openChunk_at rows chunk : (∀ c, chunkWindow (len rows) = (c, 0) → chunk (chunkCap c) = fill (chunkCap c)) →
  openChunk (len rows) chunk (slabFor (len rows) rows) = slabFor (len rows + 1) rows.
Proof.
  intros Hf. unfold openChunk, slabFor. destruct (chunkWindow (len rows)) as [c w] eqn:E. pose proof (len_nonneg rows).
  destruct (chunksFor_succ _ _ _ (len_nonneg rows) E) as [E1 E2]. rewrite E1, E2. case_decide as D; [|done]. subst w.
  apply chunkWindow_spec in E as E'; [|done]. rewrite zseq_S, fmap_app by lia. f_equal. simpl. f_equal. rewrite Hf by done. unfold chunkOf.
  pose proof (chunkRows_end _ _ _ E) as L. assert (chunkRows rows c = []) as -> by (apply length_zero_iff_nil; unfold len in L; lia). simpl. by rewrite Z.sub_0_r.
Qed.

End growth.

(** A slab filled with zeros takes a zero row without touching a chunk. *)
Definition zeroed {A} (k : Z) (z : A) (n : Z) : list A := replicate (Z.to_nat (n * k)) z.

Lemma zeroed_snoc {A} (k : Z) (z : A) rows c : 0 ≤ k → 0 ≤ c → chunkOf (zeroed k z) (rows ++ [replicate (Z.to_nat k) z]) c = chunkOf (zeroed k z) rows c.
Proof.
  intros Hk Hc. unfold chunkOf. destruct (chunkWindow (len rows)) as [c' w] eqn:E. rewrite (chunkRows_snoc _ _ _ _ _ E) by done. case_decide as D; [|done]. subst c'.
  rewrite (len_app _ [_]). change (len [_]) with 1. rewrite (chunkRows_end _ _ _ E). apply chunkWindow_spec in E as (_ & Hw & _); [|apply len_nonneg].
  rewrite concat_app. simpl. rewrite app_nil_r, <- app_assoc. f_equal. unfold zeroed. rewrite <- replicate_add. f_equal. nia.
Qed.

Lemma slab_zeroed_snoc {A} (k : Z) (z : A) rows : 0 ≤ k →
  openChunk (len rows) (zeroed k z) (slab (zeroed k z) rows) = slab (zeroed k z) (rows ++ [replicate (Z.to_nat k) z]).
Proof.
  intros Hk. pose proof (openChunk_at (zeroed k z) rows (zeroed k z) (λ _ _, eq_refl)) as E. unfold slabFor in E. unfold slab at 1. rewrite E.
  unfold slab. rewrite len_app. change (len [_]) with 1. apply list_fmap_ext. intros j d Hd. unfold zseq in Hd. rewrite list_lookup_fmap in Hd.
  apply fmap_Some in Hd as (m & Hm & ->). symmetry. apply zeroed_snoc; lia.
Qed.

(** A slab that grows by appending. *)
Abbreviation grown := (λ _, []).

Lemma appendTo_at {A} n (rows : list (list A)) r : len rows < n → appendTo (len rows) r (slabFor grown n rows) = Ok (slabFor grown n (rows ++ [r])).
Proof.
  intros Hn. unfold appendTo. destruct (chunkWindow (len rows)) as [c w] eqn:E. pose proof (len_nonneg rows).
  assert (0 ≤ c < chunksFor n) as Hc by (eapply chunksFor_gt; [|exact E]; lia).
  assert (∀ d (rows : list (list A)), 0 ≤ d < chunksFor n → slabFor grown n rows !! Z.to_nat d = Some (chunkOf grown rows d)) as Hl.
  { intros d rs Hd. unfold slabFor. rewrite list_lookup_fmap. unfold zseq. rewrite list_lookup_fmap, lookup_seq_lt by lia. simpl. by rewrite Z2Nat.id by lia. }
  assert (∀ rows : list (list A), length (slabFor grown n rows) = Z.to_nat (chunksFor n)) as Ln by (intros rs; unfold slabFor, zseq; by rewrite !length_fmap, length_seq).
  rewrite (idx_lookup _ _ _ (proj1 Hc) (Hl c rows Hc)). cbn [mbind res_bind]. unfold upd. rewrite decide_True by (unfold len; rewrite Ln; lia). f_equal.
  apply list_eq. intros j. destruct (decide (j < Z.to_nat (chunksFor n))%nat) as [Lj|Lj].
  2: { rewrite !lookup_ge_None_2; [done|by rewrite Ln; lia|by rewrite length_insert, Ln; lia]. }
  rewrite <- (Nat2Z.id j). rewrite (Hl (Z.of_nat j)) by lia. unfold chunkOf at 2. rewrite (chunkRows_snoc _ _ _ _ _ E) by lia. case_decide as D.
  - subst c. rewrite list_lookup_insert_eq by (rewrite Ln; lia). unfold chunkOf. rewrite concat_app. simpl. by rewrite !app_nil_r.
  - rewrite list_lookup_insert_ne by lia. by rewrite Hl by lia.
Qed.

Lemma slab_grown_snoc {A} (rows : list (list A)) r : appendTo (len rows) r (openChunk (len rows) grown (slab grown rows)) = Ok (slab grown (rows ++ [r])).
Proof.
  pose proof (openChunk_at grown rows grown (λ _ _, eq_refl)) as E. change (slab grown rows) with (slabFor grown (len rows) rows). rewrite E, appendTo_at by lia.
  unfold slab, slabFor. by rewrite len_app.
Qed.
