(* ===== verification/Aggregate.v ===== *)
(** The group-by aggregator (gql/internal/exec: aggregate.go, aggregate_exec.go,
    aggregate_packedkeys.go, aggregate_chunk.go).

    Rows route to their group by a packed 64-bit key or by the canonical byte key of
    their group columns; every group owns one window of each slab, holding its
    accumulators; at the end one row per group is assembled, ordered and paginated.
    Compiled expressions are parameters of the plan: a [RowEval] is the function it
    computes. The probe tables of flatset are finite maps here (they are verified
    against them in FlatMapSpec and FlatBytesSpec), and the recycled backing arrays,
    which no result depends on, are left out. *)

From S2P Require Import Prelude Int128 Float64 FloatOps TemporalText GqlValue TopK Projection Slab.

Inductive AggKind := AggCount | AggSum | AggAvg | AggMin | AggMax | AggCollect | AggStddevSamp | AggStddevPop | AggPercentileCont | AggPercentileDisc.
#[export] Instance AggKind_eq_dec : EqDecision AggKind.
Proof. solve_decision. Defined.

Record AggCol := mkAggCol { Kind : AggKind; CDistinct : bool; OutIdx : Z }.
Abbreviation RowEval := (row → gvalue).

(** The compiled plan: group keys and their row slots when all are bare variables,
    aggregate arguments ([None] for [*]) and theirs (negative otherwise), percentile
    constants, output positions, post-aggregation wrappers, and the ORDER BY keys of
    an output row. *)
Record AggPlan := mkAggPlan {
  groupC : Datatypes.list RowEval; keySlots : option (Datatypes.list Z);
  aggC : Datatypes.list (option RowEval); argSlots : Datatypes.list Z; pctC : Datatypes.list (option gvalue);
  Aggs : Datatypes.list AggCol; GroupIdx : Datatypes.list Z; Post : Datatypes.list (Z * RowEval);
  nCols : Z; NHidden : Z; orderKeys : row → row; aproj : ProjPlan; ADistinct : bool;
}.

(** ** Accumulators *)

Record aggState := mkState { acount : Z; akind : AggKind }.
Record numAcc := mkNum { sumI : acc128; sumF : Z; avgSum : Z; avgN : Z; sdMean : Z; sdM2 : Z; isFloat : bool; any : bool }.
Definition zeroNum : numAcc := mkNum acc128_zero 0 0 0 0 0 false false.

(** The total as a float: exact when it fits an int64, else hi * 2^64 + lo. *)
Definition two64F : Z := (1023 + 64) * 2 ^ 52.
Definition ofUint (u : Z) : Z := magBits (Cost.round (u * f64one)).
Definition acc128_float64 (fe : FloatEnv) (a : acc128) : Z :=
  let '(v, ok) := acc128_int64 a in
  if ok then ofInt v else mulAdd fe (ofUint (lo a)) (ofInt (to_i64 (hi a))) two64F.

Section accumulate.
Context (fe : FloatEnv).

Definition sumAdd (na : numAcc) (arg : gvalue) : numAcc :=
  match arg with
  | Int i => mkNum (acc128_add (sumI na) i) (sumF na) (avgSum na) (avgN na) (sdMean na) (sdM2 na) (isFloat na) true
  | Float f => mkNum (sumI na) (fadd fe (sumF na) f) (avgSum na) (avgN na) (sdMean na) (sdM2 na) true true
  | _ => na
  end.
Definition avgAdd (na : numAcc) (arg : gvalue) : numAcc :=
  match asNum arg with
  | Some f => mkNum (sumI na) (sumF na) (fadd fe (avgSum na) f) (to_i64 (avgN na + 1)) (sdMean na) (sdM2 na) (isFloat na) (any na)
  | None => na
  end.
Definition welford (na : numAcc) (arg : gvalue) : numAcc :=
  match asNum arg with
  | Some f =>
      let n := to_i64 (avgN na + 1) in
      let d := fsub fe f (sdMean na) in
      let mean := fadd fe (sdMean na) (fdiv fe d (ofInt n)) in
      mkNum (sumI na) (sumF na) (avgSum na) n mean (mulAdd fe (sdM2 na) d (fsub fe f mean)) (isFloat na) (any na)
  | None => na
  end.

(** One argument into an accumulator; [na] is nil for a count-only aggregator. *)
Definition stateUpdate (s : aggState) (na : option numAcc) (arg : gvalue) (present : bool) : res (aggState * option numAcc) :=
  let onNum (f : numAcc → gvalue → numAcc) := match na with Some na => Ok (s, Some (f na arg)) | None => Panic end in
  match akind s with
  | AggCount => Ok (if negb present || negb (IsNull arg) then mkState (to_i64 (acount s + 1)) (akind s) else s, na)
  | AggSum => match arg with Int _ | Float _ => onNum sumAdd | _ => Ok (s, na) end
  | AggAvg => match asNum arg with Some _ => onNum avgAdd | None => Ok (s, na) end
  | AggStddevSamp | AggStddevPop => match asNum arg with Some _ => onNum welford | None => Ok (s, na) end
  | _ => Ok (s, na)
  end.

Definition sumValue (na : numAcc) : gvalue :=
  if negb (any na) then Int 0
  else if isFloat na then Float (fadd fe (sumF na) (acc128_float64 fe (sumI na)))
  else let '(v, ok) := acc128_int64 (sumI na) in if ok then Int v else Null.
Definition avgValue (na : numAcc) : gvalue := if decide (avgN na = 0) then Null else Float (fdiv fe (avgSum na) (ofInt (avgN na))).
Definition sampValue (na : numAcc) : gvalue :=
  if decide (avgN na < 2) then Float 0 else Float (fsqrt fe (fdiv fe (sdM2 na) (ofInt (to_i64 (avgN na - 1))))).
Definition popValue (na : numAcc) : gvalue :=
  if decide (avgN na = 0) then Float 0 else Float (fsqrt fe (fdiv fe (sdM2 na) (ofInt (avgN na)))).

Definition stateFinalize (s : aggState) (na : option numAcc) : res gvalue :=
  let onNum (f : numAcc → gvalue) := match na with Some na => Ok (f na) | None => Panic end in
  match akind s with
  | AggCount => Ok (Int (acount s))
  | AggSum => onNum sumValue
  | AggAvg => onNum avgValue
  | AggStddevSamp => onNum sampValue
  | AggStddevPop => onNum popValue
  | _ => Ok Null
  end.

(** [cmp.Compare] of floats: NaN below everything. *)
Definition floatCompare (x y : Z) : Z :=
  if isNaN x then (if isNaN y then 0 else -1) else if isNaN y then 1 else cmpInt (fval x) (fval y).
Definition numOf (v : gvalue) : Z := default 0 (asNum v).

Definition percentileOf (pc : option gvalue) (vals : Datatypes.list gvalue) (cont : bool) : res gvalue :=
  match pc with
  | None => Ok Null
  | Some pv =>
      if decide (len vals = 0) then Ok Null
      else match asNum pv with
      | None => Ok Null
      | Some p =>
          if flt p 0 || flt one64F p then Ok Null
          else
            let vals := SortFunc (λ a b, floatCompare (numOf a) (numOf b)) vals in
            let n := len vals in
            if cont then
              let rank := fmul fe p (ofInt (n - 1)) in
              let lo := intF fe (floorF fe rank) in
              let hi := intF fe (ceilF fe rank) in
              lov ← idx vals lo;
              hiv ← idx vals hi;
              Ok (Float (mulAdd fe (numOf lov) (fsub fe (numOf hiv) (numOf lov)) (fsub fe rank (ofInt lo))))
            else
              let i := intF fe (ceilF fe (fmul fe p (ofInt n))) in
              let i := if decide (i < 1) then 1 else i in
              idx vals (i - 1)
      end
  end.
End accumulate.

(** ** Packed group keys *)

Definition packGroupKey1 (v : gvalue) : option Z :=
  match v with
  | Int i => if decide (i < - 2 ^ 61 ∨ 2 ^ 61 ≤ i) then None else Some (Z.land (to_u64 i) (2 ^ 62 - 1))
  | Node n => Some (Z.lor (Z.shiftl 1 62) (to_u32 n))
  | Rel n => Some (Z.lor (Z.shiftl 2 62) (to_u32 n))
  | _ => None
  end.

Definition packedEntity30 (v : gvalue) : option Z :=
  let pack (id kind : Z) := if decide (2 ^ 30 ≤ id) then None else Some (Z.lor (Z.shiftl kind 30) id) in
  match v with Node n => pack (to_u32 n) 0 | Rel n => pack (to_u32 n) 1 | _ => None end.

Definition packGroupKey2 (a b : gvalue) : option Z :=
  match packedEntity30 a, packedEntity30 b with
  | Some e1, Some e2 => Some (Z.lor (Z.lor (Z.shiftl 3 62) (Z.shiftl e1 31)) e2)
  | _, _ => None
  end.

Definition packGroupKey (keys : row) : option Z :=
  match keys with [v] => packGroupKey1 v | [a; b] => packGroupKey2 a b | _ => None end.

Definition unpackEntity30 (e : Z) : gvalue :=
  let id := to_u32 (Z.land e (2 ^ 30 - 1)) in
  if decide (Z.land e (2 ^ 30) ≠ 0) then Rel id else Node id.

Definition unpackedKey (gk nk : Z) : row :=
  if decide (nk = 2) then [unpackEntity30 (Z.land (Z.shiftr gk 31) (2 ^ 31 - 1)); unpackEntity30 (Z.land gk (2 ^ 31 - 1))]
  else if decide (Z.shiftr gk 62 = 0) then
    let v := Z.land gk (2 ^ 62 - 1) in
    [Int (to_i64 (if decide (Z.land v (2 ^ 61) ≠ 0) then Z.lor v 13835058055282163712 else v))]
  else if decide (Z.shiftr gk 62 = 1) then [Node (to_u32 gk)]
  else [Rel (to_u32 gk)].

(** ** The aggregator *)

Record slabs := mkSlabs {
  stateChunks : Datatypes.list (Datatypes.list aggState); seenChunks : Datatypes.list (Datatypes.list distinctSet);
  numChunks : Datatypes.list (Datatypes.list numAcc); mmChunks : Datatypes.list (Datatypes.list gvalue);
  itemsChunks : Datatypes.list (Datatypes.list (Datatypes.list gvalue));
}.
Record aggregator := mkAggregator {
  index : gmap gostring Z; indexI : gmap Z Z; nGroups : Z;
  keysPacked : bool; packedKeys : Datatypes.list Z; keysChunks : Datatypes.list (Datatypes.list gvalue); groupSlabs : slabs;
}.
Definition emptyAggregator : aggregator := mkAggregator ∅ ∅ 0 false [] [] (mkSlabs [] [] [] [] []).

Definition set_index (ix : gmap gostring Z) (a : aggregator) : aggregator := mkAggregator ix (indexI a) (nGroups a) (keysPacked a) (packedKeys a) (keysChunks a) (groupSlabs a).
Definition set_indexI (ix : gmap Z Z) (a : aggregator) : aggregator := mkAggregator (index a) ix (nGroups a) (keysPacked a) (packedKeys a) (keysChunks a) (groupSlabs a).
Definition set_keys (packed : bool) (pk : Datatypes.list Z) (kc : Datatypes.list (Datatypes.list gvalue)) (a : aggregator) : aggregator :=
  mkAggregator (index a) (indexI a) (nGroups a) packed pk kc (groupSlabs a).
Definition set_slabs (s : slabs) (a : aggregator) : aggregator := mkAggregator (index a) (indexI a) (nGroups a) (keysPacked a) (packedKeys a) (keysChunks a) s.

(** GetOrCreate of flatset. *)
Definition getOrCreate {K A} `{Countable K} (ix : gmap K Z) (key : K) (create : A → res (Z * A)) (a : A) : res (Z * gmap K Z * A) :=
  match ix !! key with
  | Some i => Ok (i, ix, a)
  | None => '(i, a) ← create a; Ok (i, <[key := i]> ix, a)
  end.

Section aggregate.
Context (fe : FloatEnv) (p : AggPlan) (disablePackedKeys : bool).

Definition stride : Z := len (Aggs p).
Definition hasDistinct : bool := existsb CDistinct (Aggs p).
Definition isNumKind (k : AggKind) : bool := match k with AggSum | AggAvg | AggStddevSamp | AggStddevPop => true | _ => false end.
Definition isMinMax (k : AggKind) : bool := match k with AggMin | AggMax => true | _ => false end.
Definition isCollect (k : AggKind) : bool := match k with AggCollect | AggPercentileCont | AggPercentileDisc => true | _ => false end.
Definition hasNumAcc : bool := existsb (λ a, isNumKind (Kind a)) (Aggs p).
Definition hasMinMax : bool := existsb (λ a, isMinMax (Kind a)) (Aggs p).
Definition hasCollect : bool := existsb (λ a, isCollect (Kind a)) (Aggs p).

(** A slab that exists only when an aggregate needs it. *)
Definition openIf {A} (has : bool) (i : Z) (zero : A) (cs : Datatypes.list (Datatypes.list A)) : Datatypes.list (Datatypes.list A) :=
  if has then openChunk i (zeroed stride zero) cs else cs.

Definition openSlabs (i : Z) (s : slabs) : res slabs :=
  states ← appendTo i ((λ c, mkState 0 (Kind c)) <$> Aggs p) (openChunk i (λ _, []) (stateChunks s));
  Ok (mkSlabs states (openIf hasDistinct i emptyDistinct (seenChunks s)) (openIf hasNumAcc i zeroNum (numChunks s))
    (openIf hasMinMax i Null (mmChunks s)) (openIf hasCollect i [] (itemsChunks s))).

(** The shared slab bookkeeping: a group past the last takes the next windows. *)
Definition appendGroupSlots (a : aggregator) : res (Z * aggregator) :=
  let i := nGroups a in
  s ← openSlabs i (groupSlabs a);
  Ok (i, mkAggregator (index a) (indexI a) (i + 1) (keysPacked a) (packedKeys a) (openChunk i (λ _, []) (keysChunks a)) s).

Definition appendGroup (keys : row) (a : aggregator) : res (Z * aggregator) :=
  '(i, a) ← appendGroupSlots a;
  kc ← appendTo i keys (keysChunks a);
  Ok (i, set_keys (keysPacked a) (packedKeys a) kc a).

Definition appendGroupPacked (gk : Z) (a : aggregator) : res (Z * aggregator) :=
  '(i, a) ← appendGroupSlots a;
  Ok (i, set_keys (keysPacked a) (packedKeys a ++ [gk]) (keysChunks a) a).

(** The packed regime ends: every packed key is materialized. *)
Definition demoteKeys (a : aggregator) : res aggregator :=
  if negb (keysPacked a) then Ok a
  else
    kc ← foldM (λ kc e, appendTo e.1 (unpackedKey e.2 (len (groupC p))) kc) (enum (packedKeys a)) (keysChunks a);
    Ok (set_keys false [] kc a).

(** The group of a key tuple, made on first sight. *)
Definition groupIdx (keys : row) (a : aggregator) : res (Z * aggregator) :=
  match packGroupKey keys with
  | Some gk => '(i, ix, a) ← getOrCreate (indexI a) gk (appendGroup keys) a; Ok (i, set_indexI ix a)
  | None =>
      let gk := fold_left AppendKey keys [] in
      '(i, ix, a) ← getOrCreate (index a) gk (appendGroup keys) a; Ok (i, set_index ix a)
  end.

(** The packed key read straight off the row. *)
Definition packSlots (m : row) (ss : Datatypes.list Z) : res (option Z) :=
  match ss with
  | [s] => v ← idx m s; Ok (packGroupKey1 v)
  | s1 :: s2 :: _ => v1 ← idx m s1; v2 ← idx m s2; Ok (packGroupKey2 v1 v2)
  | [] => Panic
  end.

(** A new group seen through its packed key. *)
Definition seedPacked (m : row) (ss : Datatypes.list Z) (gk : Z) (a : aggregator) : res (Z * aggregator) :=
  let boxed a := keys ← mapM (idx m) ss; appendGroup keys a in
  if disablePackedKeys then boxed a
  else
    let a := if decide (nGroups a = 0) then set_keys true (packedKeys a) (keysChunks a) a else a in
    if keysPacked a then appendGroupPacked gk a else boxed a.

(** The group of a row whose bare key slots pack. *)
Definition slotGroup (m : row) (a : aggregator) : res (option Z * aggregator) :=
  match keySlots p with
  | None => Ok (None, a)
  | Some ss =>
      o ← packSlots m ss;
      match o with
      | None => Ok (None, a)
      | Some gk => '(i, ix, a) ← getOrCreate (indexI a) gk (seedPacked m ss gk) a; Ok (Some i, set_indexI ix a)
      end
  end.

Definition route (m : row) (a : aggregator) : res (Z * aggregator) :=
  '(o, a) ← slotGroup m a;
  match o with
  | Some i => Ok (i, a)
  | None => a ← demoteKeys a; groupIdx ((λ e, e m) <$> groupC p) a
  end.

(** ** Folding a row into its group *)

Record windows := mkWindows {
  wstates : Datatypes.list aggState; wseen : Datatypes.list distinctSet; wnum : Datatypes.list numAcc;
  wmm : Datatypes.list gvalue; witems : Datatypes.list (Datatypes.list gvalue);
}.
Definition winIf {A} (has : bool) (cs : Datatypes.list (Datatypes.list A)) (i : Z) : res (Datatypes.list A) :=
  if has then window stride cs i else Ok [].
Definition putIf {A} (has : bool) (cs : Datatypes.list (Datatypes.list A)) (i : Z) (win : Datatypes.list A) : res (Datatypes.list (Datatypes.list A)) :=
  if has then putWindow stride cs i win else Ok cs.
Definition windowsOf (s : slabs) (i : Z) : res windows :=
  st ← window stride (stateChunks s) i;
  se ← winIf hasDistinct (seenChunks s) i;
  mm ← winIf hasMinMax (mmChunks s) i;
  nu ← winIf hasNumAcc (numChunks s) i;
  it ← winIf hasCollect (itemsChunks s) i;
  Ok (mkWindows st se nu mm it).
(** The windows are slices: the slabs hold what was written through them. *)
Definition storeWindows (s : slabs) (i : Z) (w : windows) : res slabs :=
  st ← putWindow stride (stateChunks s) i (wstates w);
  se ← putIf hasDistinct (seenChunks s) i (wseen w);
  mm ← putIf hasMinMax (mmChunks s) i (wmm w);
  nu ← putIf hasNumAcc (numChunks s) i (wnum w);
  it ← putIf hasCollect (itemsChunks s) i (witems w);
  Ok (mkSlabs st se nu mm it).

Definition set_wseen x w := mkWindows (wstates w) x (wnum w) (wmm w) (witems w).
Definition set_wmm x w := mkWindows (wstates w) (wseen w) (wnum w) x (witems w).
Definition set_witems x w := mkWindows (wstates w) (wseen w) (wnum w) (wmm w) x.

Definition argOf (m : row) (j : Z) : res (bool * gvalue) :=
  ev ← idx (aggC p) j;
  match ev with
  | None => Ok (false, Null)
  | Some e => s ← idx (argSlots p) j; v ← (if decide (0 ≤ s) then idx m s else Ok (e m)); Ok (true, v)
  end.

Definition numAt (num : Datatypes.list numAcc) (j : Z) : res (option numAcc) :=
  if hasNumAcc then na ← idx num j; Ok (Some na) else Ok None.

(** The switch over the aggregate's kind. *)
Definition accumulateAt (c : AggCol) (j : Z) (present : bool) (arg : gvalue) (w : windows) : res windows :=
  match Kind c with
  | AggMin | AggMax =>
      if IsNull arg then Ok w
      else
        x ← idx (wmm w) j;
        let take := match x with Null => true | _ => match Compare arg x with
          | Some o => (bool_decide (Kind c = AggMin) && bool_decide (o < 0)) || (bool_decide (Kind c = AggMax) && bool_decide (0 < o))
          | None => false end end in
        if take : bool then mm ← upd (wmm w) j arg; Ok (set_wmm mm w) else Ok w
  | AggCollect =>
      if IsNull arg then Ok w else l ← idx (witems w) j; it ← upd (witems w) j (l ++ [arg]); Ok (set_witems it w)
  | AggPercentileCont | AggPercentileDisc =>
      match asNum arg with
      | Some _ => l ← idx (witems w) j; it ← upd (witems w) j (l ++ [arg]); Ok (set_witems it w)
      | None => Ok w
      end
  | _ =>
      s ← idx (wstates w) j;
      na ← numAt (wnum w) j;
      '(s, na) ← stateUpdate fe s na arg present;
      st ← upd (wstates w) j s;
      nu ← match na with Some na => upd (wnum w) j na | None => Ok (wnum w) end;
      Ok (mkWindows st (wseen w) nu (wmm w) (witems w))
  end.

(** A DISTINCT aggregate sees an argument once. *)
Definition foldArg (c : AggCol) (j : Z) (present : bool) (arg : gvalue) (w : windows) : res windows :=
  '(fresh, w) ← (if CDistinct c && present && negb (IsNull arg) then
      d ← idx (wseen w) j;
      let '(b, d) := distinctAdd arg d in
      se ← upd (wseen w) j d; Ok (b, set_wseen se w)
    else Ok (true, w));
  if negb fresh then Ok w else accumulateAt c j present arg w.

(** A row into the resolved group [i]. *)
Definition updateInto (i : Z) (m : row) (a : aggregator) : res aggregator :=
  w ← windowsOf (groupSlabs a) i;
  w ← foldM (λ w j, c ← idx (Aggs p) j; '(present, arg) ← argOf m j; foldArg c j present arg w) (zseq stride) w;
  s ← storeWindows (groupSlabs a) i w;
  Ok (set_slabs s a).

Definition update (m : row) (a : aggregator) : res aggregator :=
  '(i, a) ← route m a;
  updateInto i m a.

(** ** Emitting the groups *)

Definition keysOf (a : aggregator) (i : Z) : res row :=
  if keysPacked a then gk ← idx (packedKeys a) i; Ok (unpackedKey gk (len (groupC p)))
  else window (len (groupC p)) (keysChunks a) i.

Definition aggValue (w : windows) (c : AggCol) (j : Z) : res gvalue :=
  match Kind c with
  | AggMin | AggMax => idx (wmm w) j
  | AggCollect => l ← idx (witems w) j; Ok (List l)
  | AggPercentileCont => pc ← idx (pctC p) j; l ← idx (witems w) j; percentileOf fe pc l true
  | AggPercentileDisc => pc ← idx (pctC p) j; l ← idx (witems w) j; percentileOf fe pc l false
  | _ => s ← idx (wstates w) j; na ← numAt (wnum w) j; stateFinalize fe s na
  end.

(** The output row of group [i]: keys, aggregates, then the wrappers over them. *)
Definition emitGroup (a : aggregator) (i : Z) (r : row) : res row :=
  keys ← keysOf a i;
  r ← foldM (λ r e, v ← idx keys e.1; upd r e.2 v) (enum (GroupIdx p)) r;
  w ← windowsOf (groupSlabs a) i;
  r ← foldM (λ r e, v ← aggValue w e.2 e.1; upd r (OutIdx e.2) v) (enum (Aggs p)) r;
  foldM (λ r e, upd r e.1 (e.2 r)) (Post p) r.

Definition emptyRow : row := replicate (Z.to_nat (nCols p + NHidden p)) Null.

(** A keyless aggregate over no input still has its one group. *)
Definition closeGroups (a : aggregator) : res aggregator :=
  if decide (nGroups a = 0 ∧ len (GroupIdx p) = 0) then '(_, a) ← appendGroup [] a; Ok a else Ok a.

Definition forEachGroup (a : aggregator) : res (Datatypes.list row) :=
  a ← closeGroups a;
  mapM (λ i, r ← emitGroup a i emptyRow; slice r 0 (nCols p)) (zseq (nGroups a)).

(** ORDER BY with LIMIT: only rows the bounded accumulator admits are kept. *)
Definition offerGroup (a : aggregator) (t : topKRows) (i : Z) : res topKRows :=
  r ← emitGroup a i emptyRow;
  out ← slice r 0 (nCols p);
  let keys := orderKeys p out in
  if negb (wouldAccept t keys) then Ok (bumpSeq t) else '(_, t) ← offer t keys out; Ok t.
Definition finalizeTopK (a : aggregator) (bound : Z) : res (Datatypes.list row) :=
  t ← foldM (offerGroup a) (zseq (nGroups a)) (newTopKRows bound (Desc (aproj p)));
  paginate (sorted t) (Skip (aproj p)) (Limit (aproj p)).

Definition aggFinalize (disableAggTopk : bool) (a : aggregator) : res (Datatypes.list row) :=
  a ← closeGroups a;
  let bound := orderBound (aproj p) in
  if decide (0 ≤ bound < nGroups a ∧ 0 < len (Desc (aproj p)) ∧ ADistinct p = false ∧ disableAggTopk = false) then finalizeTopK a bound
  else
    outs ← mapM (λ i, r ← emitGroup a i emptyRow; slice r 0 (nCols p)) (zseq (nGroups a));
    outs ← (if decide (0 < len (Desc (aproj p))) then sortRowsByOrder (aproj p) (orderKeys p <$> outs) outs else Ok outs);
    paginate outs (Skip (aproj p)) (Limit (aproj p)).

(** ** Candidate batches *)

(** Every aggregate a plain count of the bound variable or of [*]: the batch counts at once. *)
Definition bulkUpdate (i : Z) (slot n : Z) (a : aggregator) : res (option aggregator) :=
  ok ← foldM (λ ok e, ev ← idx (aggC p) e.1; s ← idx (argSlots p) e.1;
      Ok (ok && bool_decide (Kind e.2 = AggCount) && negb (CDistinct e.2) && (bool_decide (ev = None :> option RowEval) || bool_decide (s = slot))))
    (enum (Aggs p)) true;
  if ok : bool then
    w ← window stride (stateChunks (groupSlabs a)) i;
    st ← putWindow stride (stateChunks (groupSlabs a)) i ((λ s, mkState (to_i64 (acount s + n)) (akind s)) <$> w);
    Ok (Some (set_slabs (mkSlabs st (seenChunks (groupSlabs a)) (numChunks (groupSlabs a)) (mmChunks (groupSlabs a)) (itemsChunks (groupSlabs a))) a))
  else Ok None.

(** A final match level's candidates for [slot] in one call. *)
Definition pushCandidates (m : row) (slot : Z) (cands : Datatypes.list Z) (a : aggregator) : res aggregator :=
  let each a := foldM (λ a c, m ← upd m slot (Node c); update m a) cands a in
  match keySlots p with
  | None => each a
  | Some ss =>
      if decide (slot ∈ ss) then each a
      else
        o ← packSlots m ss;
        match o with
        | None => each a
        | Some gk =>
            '(i, ix, a) ← getOrCreate (indexI a) gk (seedPacked m ss gk) a;
            let a := set_indexI ix a in
            o ← bulkUpdate i slot (len cands) a;
            match o with
            | Some a => Ok a
            | None => foldM (λ a c, m ← upd m slot (Node c); updateInto i m a) cands a
            end
        end
  end.

(** ** The sink: rows and candidate batches, then the groups *)

Inductive aggInput := PushRow (m : row) | PushCandidates (m : row) (slot : Z) (cands : Datatypes.list Z).
Definition aggPush (a : aggregator) (i : aggInput) : res aggregator :=
  match i with PushRow m => update m a | PushCandidates m slot cands => pushCandidates m slot cands a end.
Definition aggregate (disableAggTopk : bool) (ins : Datatypes.list aggInput) : res (Datatypes.list row) :=
  a ← foldM aggPush ins emptyAggregator;
  aggFinalize disableAggTopk a.
End aggregate.
