(* ===== verification/AggregateInv.v ===== *)
(** The aggregator's state as a list of groups.

    A group is its key tuple and one cell of accumulators per aggregate. [aggInv] says
    which groups a state holds: the indexes lead every group identity to its position,
    the slabs' windows are the groups' cells, and the keys are either boxed in their
    slab or kept packed. [update] is [refStep] on the list of groups.

    Packed keys come first: unpacking inverts packing, and two tuples share a packed
    key exactly when they are the same tuple. *)

From S2P Require Import Prelude Int128 Float64 FloatOps TemporalText GqlValue GqlOrder GqlKey GqlAgree TopK Projection ProjectionSpec Slab Aggregate.

(** ** Bits *)

(** [a] placed above [n] bits of [b]. *)
Lemma lor_high a b n : 0 ≤ n → 0 ≤ b < 2 ^ n → Z.lor (Z.shiftl a n) b = a * 2 ^ n + b.
Proof.
  intros Hn Hb. assert (Z.land (Z.shiftl a n) b = 0) as E.
  { apply Z.bits_inj'. intros j Hj. rewrite Z.land_spec, Z.bits_0. destruct (decide (j < n)).
    - by rewrite Z.shiftl_spec_low.
    - rewrite <- (Z.mod_small b (2 ^ n)) by done. rewrite Z.mod_pow2_bits_high by lia. by rewrite andb_false_r. }
  rewrite <- Z.lxor_lor, <- Z.add_nocarry_lxor by done. by rewrite Z.shiftl_mul_pow2.
Qed.

Lemma land_low v n : 0 ≤ n → Z.land v (2 ^ n - 1) = v `mod` 2 ^ n.
Proof. intros Hn. rewrite <- Z.land_ones by done. f_equal. rewrite Z.ones_equiv. lia. Qed.

Lemma land_top v n : 0 ≤ n → 0 ≤ v < 2 ^ (n + 1) → Z.land v (2 ^ n) ≠ 0 ↔ 2 ^ n ≤ v.
Proof.
  intros Hn Hv. rewrite Z.pow_add_r in Hv by lia. change (2 ^ 1) with 2 in Hv. pose proof (Z.pow_pos_nonneg 2 n ltac:(lia) Hn) as Hp.
  assert (Z.testbit v n = bool_decide (2 ^ n ≤ v)) as Ht.
  { rewrite Z.testbit_eqb by done. case_bool_decide as D; [rewrite <- (Z.div_unique v (2 ^ n) 1 (v - 2 ^ n)) by lia; done|]. by rewrite Z.div_small by lia. }
  assert (Z.land v (2 ^ n) = if Z.testbit v n then 2 ^ n else 0) as ->.
  { apply Z.bits_inj'. intros j Hj. rewrite Z.land_spec, Z.pow2_bits_eqb by done. destruct (Z.eqb_spec n j) as [->|Hne].
    - destruct (Z.testbit v j) eqn:E; [by rewrite Z.pow2_bits_true|by rewrite Z.bits_0].
    - rewrite andb_false_r. destruct (Z.testbit v n); [by rewrite Z.pow2_bits_false|by rewrite Z.bits_0]. }
  rewrite Ht. case_bool_decide; lia.
Qed.

(** ** One key *)

Lemma pack1_word v w : wfValue v = true → packGroupKey1 v = Some w → is_u64 w ∧ unpackedKey w 1 = [v].
Proof.
  intros Wv. destruct v; try done; cbn in Wv; apply bool_decide_eq_true in Wv; cbn [packGroupKey1].
  - case_decide as D; [done|]. intros [= <-]. rewrite land_low by lia. set (u := to_u64 _ `mod` 2 ^ 62).
    assert (u = if decide (i < 0) then i + 2 ^ 62 else i) as Eu.
    { unfold u, wrapU. rewrite Z.mod_mod_divide by (exists 4; lia). case_decide; dlia. }
    unfold unpackedKey. rewrite decide_False, Z.shiftr_div_pow2 by lia. rewrite Z.div_small by (case_decide; lia). rewrite decide_True, land_low by (done || lia).
    rewrite (Z.mod_small u) by (case_decide; lia). split; [case_decide; lia|]. do 2 f_equal.
    destruct (decide (Z.land u (2 ^ 61) ≠ 0)) as [L|L]; rewrite land_top in L by (case_decide; lia).
    + replace 13835058055282163712 with (Z.shiftl 3 62) by done. rewrite Z.lor_comm, lor_high by (case_decide; lia). rewrite decide_True in Eu by (case_decide; lia). unfold wrapS. dlia.
    + rewrite decide_False in Eu by (case_decide; lia). rewrite wrapS_small; lia.
  - intros [= <-]. rewrite wrapU_small, lor_high by lia. split; [lia|]. unfold unpackedKey. rewrite decide_False, Z.shiftr_div_pow2 by lia.
    rewrite <- (Z.div_unique _ (2 ^ 62) 1 id) by lia. rewrite decide_False, decide_True by lia. do 2 f_equal. unfold wrapU. dlia.
  - intros [= <-]. rewrite wrapU_small, lor_high by lia. split; [lia|]. unfold unpackedKey. rewrite decide_False, Z.shiftr_div_pow2 by lia.
    rewrite <- (Z.div_unique _ (2 ^ 62) 2 pos) by lia. rewrite !decide_False by lia. do 2 f_equal. unfold wrapU. dlia.
Qed.

(** ** Pairs of entities *)

Lemma packedEntity30_word v e : wfValue v = true → packedEntity30 v = Some e → 0 ≤ e < 2 ^ 31 ∧ unpackEntity30 e = v.
Proof.
  intros Wv. unfold packedEntity30. destruct v; try done; cbn in Wv; apply bool_decide_eq_true in Wv; rewrite wrapU_small by lia;
    case_decide; try done; intros [= <-]; rewrite lor_high by lia; (split; [lia|]); unfold unpackEntity30; rewrite land_low by lia.
  - rewrite decide_False; [f_equal; rewrite Z.mod_small, wrapU_small; lia|]. intros L%land_top; lia.
  - rewrite decide_True by (apply land_top; lia). f_equal. unfold wrapU. dlia.
Qed.

Lemma pack2_word a b w : wfValue a = true → wfValue b = true → packGroupKey2 a b = Some w → is_u64 w ∧ unpackedKey w 2 = [a; b].
Proof.
  intros Wa Wb. unfold packGroupKey2. destruct (packedEntity30 a) as [e1|] eqn:E1; [|done]. destruct (packedEntity30 b) as [e2|] eqn:E2; [|done]. intros [= <-].
  apply packedEntity30_word in E1 as [R1 U1], E2 as [R2 U2]; try done.
  assert (Z.lor (Z.lor (Z.shiftl 3 62) (Z.shiftl e1 31)) e2 = 3 * 2 ^ 62 + e1 * 2 ^ 31 + e2) as ->.
  { rewrite <- (Z.mul_1_r 3) at 1. replace (Z.shiftl (3 * 1) 62) with (Z.shiftl (Z.shiftl 3 31) 31) by done. rewrite <- Z.shiftl_lor, !lor_high by lia. lia. }
  split; [lia|]. unfold unpackedKey. rewrite decide_True, Z.shiftr_div_pow2, !land_low by (done || lia). rewrite <- U1, <- U2. f_equal; [|f_equal]; f_equal; dlia.
Qed.

Lemma unpack_pack keys w : Forall (λ v, wfValue v = true) keys → packGroupKey keys = Some w → unpackedKey w (len keys) = keys.
Proof.
  intros Hk. destruct keys as [|a [|b [|]]]; try done; cbn.
  - intros E. apply Forall_cons in Hk as [Wa _]. by apply pack1_word in E as [_ E].
  - intros E. apply Forall_cons in Hk as [Wa [Wb _]%Forall_cons]. by apply pack2_word in E as [_ E].
Qed.

(** ** Group identity *)

(** What routes a key tuple to its group. *)
Definition groupId (keys : row) : Z + gostring :=
  match packGroupKey keys with Some w => inl w | None => inr (fold_left AppendKey keys []) end.
Definition packs (keys : row) : bool := match packGroupKey keys with Some _ => true | None => false end.

(** Entities and integers that pack have the key of nothing else that packs. *)
Lemma pack1_key u v x y : wfValue u = true → wfValue v = true → packGroupKey1 u = Some x → packGroupKey1 v = Some y → Key u = Key v → u = v.
Proof. intros Wu Wv Hu Hv E%Key_canon; [|done..]. destruct u, v; try done. Qed.
Lemma packedEntity30_key u v x y : wfValue u = true → wfValue v = true → packedEntity30 u = Some x → packedEntity30 v = Some y → Key u = Key v → u = v.
Proof. intros Wu Wv Hu Hv E%Key_canon; [|done..]. destruct u, v; try done. Qed.

Lemma packed_key x y w w' : Forall (λ v, wfValue v = true) x → Forall (λ v, wfValue v = true) y → packGroupKey x = Some w → packGroupKey y = Some w' →
  Key <$> x = Key <$> y → x = y.
Proof.
  intros Hx Hy. destruct x as [|a [|b [|]]], y as [|c [|d [|]]]; try done; cbn; intros Ex Ey E.
  - apply Forall_cons in Hx as [Wa _], Hy as [Wc _]. injection E as E. f_equal. by eapply pack1_key.
  - apply Forall_cons in Hx as [Wa [Wb _]%Forall_cons], Hy as [Wc [Wd _]%Forall_cons]. injection E as E1 E2. unfold packGroupKey2 in Ex, Ey.
    destruct (packedEntity30 a) eqn:Pa; [|done]. destruct (packedEntity30 b) eqn:Pb; [|done]. destruct (packedEntity30 c) eqn:Pc; [|done]. destruct (packedEntity30 d) eqn:Pd; [|done].
    f_equal; [|f_equal]; by eapply packedEntity30_key.
Qed.

(** Tuples of one width go to one group exactly when they have the same keys and are
    packed alike. *)
Lemma groupId_keys x y : length x = length y → Forall (λ v, wfValue v = true) x → Forall (λ v, wfValue v = true) y →
  groupId x = groupId y ↔ Key <$> x = Key <$> y ∧ packs x = packs y.
Proof.
  intros L Hx Hy. unfold groupId, packs. destruct (packGroupKey x) as [w|] eqn:Ex, (packGroupKey y) as [w'|] eqn:Ey.
  - split.
    + intros [= ->]. apply unpack_pack in Ex, Ey; try done. unfold len in *. rewrite <- Ex, L, Ey. done.
    + intros [E _]. assert (x = y) as -> by (by eapply packed_key). congruence.
  - split; [done|by intros [_ ?]].
  - split; [done|by intros [_ ?]].
  - rewrite <- (rowKey_inj x y L Hx Hy). split; [by intros [= ->]|by intros [-> _]].
Qed.

(** ** Cells and groups *)

Record cell := mkCell { c_state : aggState; c_seen : distinctSet; c_num : numAcc; c_mm : gvalue; c_items : Datatypes.list gvalue }.
Definition newCell (c : AggCol) : cell := mkCell (mkState 0 (Kind c)) emptyDistinct zeroNum Null [].
Record group := mkGroup { g_keys : row; g_cells : Datatypes.list cell }.

Lemma upd_app_mid {A} (l1 : Datatypes.list A) x y l2 : upd (l1 ++ x :: l2) (len l1) y = Ok (l1 ++ y :: l2).
Proof.
  unfold upd. rewrite decide_True by lens. f_equal. unfold len. rewrite Nat2Z.id. by rewrite insert_app_r_alt, Nat.sub_diag by lia.
Qed.

Section cells.
Context (fe : FloatEnv).

Definition with_seen d (x : cell) : cell := mkCell (c_state x) d (c_num x) (c_mm x) (c_items x).
Definition with_num n (x : cell) : cell := mkCell (c_state x) (c_seen x) n (c_mm x) (c_items x).
Definition with_mm v (x : cell) : cell := mkCell (c_state x) (c_seen x) (c_num x) v (c_items x).
Definition with_items l (x : cell) : cell := mkCell (c_state x) (c_seen x) (c_num x) (c_mm x) l.

(** Whether an argument replaces the extremum held so far. *)
Definition beats (k : AggKind) (arg x : gvalue) : bool :=
  match x with Null => true | _ => match Compare arg x with
    | Some o => (bool_decide (k = AggMin) && bool_decide (o < 0)) || (bool_decide (k = AggMax) && bool_decide (0 < o))
    | None => false end end.

(** One argument into the accumulators of its aggregate. *)
Definition accumulate (k : AggKind) (present : bool) (arg : gvalue) (x : cell) : cell :=
  match k with
  | AggMin | AggMax => if IsNull arg then x else if beats k arg (c_mm x) then with_mm arg x else x
  | AggCollect => if IsNull arg then x else with_items (c_items x ++ [arg]) x
  | AggPercentileCont | AggPercentileDisc => match asNum arg with Some _ => with_items (c_items x ++ [arg]) x | None => x end
  | AggCount => if negb present || negb (IsNull arg) then mkCell (mkState (to_i64 (acount (c_state x) + 1)) (akind (c_state x))) (c_seen x) (c_num x) (c_mm x) (c_items x) else x
  | AggSum => with_num (sumAdd fe (c_num x) arg) x
  | AggAvg => with_num (avgAdd fe (c_num x) arg) x
  | AggStddevSamp | AggStddevPop => with_num (welford fe (c_num x) arg) x
  end.

Definition stepCell (c : AggCol) (e : bool * gvalue) (x : cell) : cell :=
  let '(present, arg) := e in
  if CDistinct c && present && negb (IsNull arg) then
    let '(fresh, d) := distinctAdd arg (c_seen x) in
    let x := with_seen d x in if fresh then accumulate (Kind c) present arg x else x
  else accumulate (Kind c) present arg x.
End cells.

Lemma with_num_id x : with_num (c_num x) x = x.
Proof. by destruct x. Qed.

Section inv.
Context (fe : FloatEnv) (p : AggPlan) (dpk : bool).

(** The argument of aggregate [j] on a row, and whether there is one. *)
Definition argAt (m : row) (j : nat) : bool * gvalue :=
  match aggC p !! j with Some (Some e) => (true, e m) | _ => (false, Null) end.
Definition keysAt (m : row) : row := (λ e, e m) <$> groupC p.

Record wfPlan : Prop := {
  wp_aggC : length (aggC p) = length (Aggs p);
  wp_args : length (argSlots p) = length (Aggs p);
  wp_pct : length (pctC p) = length (Aggs p);
  wp_slots : ∀ ss, keySlots p = Some ss → length ss = length (groupC p) ∧ (length ss = 1 ∨ length ss = 2)%nat;
}.

(** A row the plan applies to: values are well formed, and a bare variable evaluates
    to its row slot. *)
Record wfRow (m : row) : Prop := {
  wr_keys : Forall (λ v, wfValue v = true) (keysAt m);
  wr_args : ∀ j, wfValue (argAt m j).2 = true;
  wr_argSlots : ∀ j s e, aggC p !! j = Some (Some e) → argSlots p !! j = Some s → 0 ≤ s → m !! Z.to_nat s = Some (e m);
  wr_keySlots : ∀ ss, keySlots p = Some ss → Forall (λ s, 0 ≤ s) ss ∧ mapM (λ s, m !! Z.to_nat s) ss = Some (keysAt m);
}.

Definition kindsOf (cells : Datatypes.list cell) : Prop := (λ x, akind (c_state x)) <$> cells = Kind <$> Aggs p.
Record wfGroup (g : group) : Prop := {
  wg_cells : kindsOf (g_cells g);
  wg_keys : len (g_keys g) = len (groupC p);
  wg_wf : Forall (λ v, wfValue v = true) (g_keys g);
}.

Abbreviation k := (stride p).
Definition whenIf {A} (has : bool) (l : Datatypes.list A) : Datatypes.list A := if has then l else [].

Definition windowsAt (cells : Datatypes.list cell) : windows :=
  mkWindows (c_state <$> cells) (whenIf (hasDistinct p) (c_seen <$> cells)) (whenIf (hasNumAcc p) (c_num <$> cells))
    (whenIf (hasMinMax p) (c_mm <$> cells)) (whenIf (hasCollect p) (c_items <$> cells)).

(** ** One argument *)

Lemma has_kind (f : AggKind → bool) l1 c l2 : Aggs p = l1 ++ c :: l2 → f (Kind c) = true → existsb (λ a, f (Kind a)) (Aggs p) = true.
Proof. intros -> Hf. rewrite existsb_app. cbn. rewrite Hf. by rewrite orb_true_r. Qed.

Lemma idx_mid {A} (f : cell → A) l1 x l2 : idx (f <$> l1 ++ x :: l2) (len l1) = Ok (f x).
Proof. rewrite fmap_app, fmap_cons, <- (len_fmap f l1). apply idx_app_mid. Qed.
Lemma upd_mid {A} (f : cell → A) l1 x y l2 : upd (f <$> l1 ++ x :: l2) (len l1) (f y) = Ok (f <$> l1 ++ y :: l2).
Proof. rewrite !fmap_app, !fmap_cons, <- (len_fmap f l1). apply upd_app_mid. Qed.
Lemma same_mid {A} (f : cell → A) l1 x y l2 : f x = f y → f <$> l1 ++ x :: l2 = f <$> l1 ++ y :: l2.
Proof. intros E. by rewrite !fmap_app, !fmap_cons, E. Qed.

Lemma upd_if {A} (f : cell → A) has l1 x y l2 : has = true → upd (whenIf has (f <$> l1 ++ x :: l2)) (len l1) (f y) = Ok (whenIf has (f <$> l1 ++ y :: l2)).
Proof. intros ->. apply upd_mid. Qed.
Lemma idx_if {A} (f : cell → A) has l1 x l2 : has = true → idx (whenIf has (f <$> l1 ++ x :: l2)) (len l1) = Ok (f x).
Proof. intros ->. apply idx_mid. Qed.

(** Writes to the windows are writes to a cell. *)
Lemma windows_eq l1 y l2 st se nu mm it :
  st = c_state <$> l1 ++ y :: l2 → se = whenIf (hasDistinct p) (c_seen <$> l1 ++ y :: l2) → nu = whenIf (hasNumAcc p) (c_num <$> l1 ++ y :: l2) →
  mm = whenIf (hasMinMax p) (c_mm <$> l1 ++ y :: l2) → it = whenIf (hasCollect p) (c_items <$> l1 ++ y :: l2) →
  mkWindows st se nu mm it = windowsAt (l1 ++ y :: l2).
Proof. by intros -> -> -> -> ->. Qed.

Lemma write_mm l1 x l2 v : hasMinMax p = true →
  (mm ← upd (wmm (windowsAt (l1 ++ x :: l2))) (len l1) v; Ok (set_wmm mm (windowsAt (l1 ++ x :: l2)))) = Ok (windowsAt (l1 ++ with_mm v x :: l2)).
Proof. intros H. cbn. change v with (c_mm (with_mm v x)) at 1. rewrite (upd_if c_mm _ l1 x (with_mm v x) l2 H). cbn. f_equal. apply (windows_eq l1); cbn [wstates wseen wnum wmm witems windowsAt]; try done; solve [by apply same_mid|f_equal; by apply same_mid]. Qed.
Lemma write_items l1 x l2 v : hasCollect p = true →
  (it ← upd (witems (windowsAt (l1 ++ x :: l2))) (len l1) v; Ok (set_witems it (windowsAt (l1 ++ x :: l2)))) = Ok (windowsAt (l1 ++ with_items v x :: l2)).
Proof. intros H. cbn. change v with (c_items (with_items v x)) at 1. rewrite (upd_if c_items _ l1 x (with_items v x) l2 H). cbn. f_equal. apply (windows_eq l1); cbn [wstates wseen wnum wmm witems windowsAt]; try done; solve [by apply same_mid|f_equal; by apply same_mid]. Qed.
Lemma write_seen l1 x l2 v : hasDistinct p = true →
  ∃ se, upd (wseen (windowsAt (l1 ++ x :: l2))) (len l1) v = Ok se ∧ set_wseen se (windowsAt (l1 ++ x :: l2)) = windowsAt (l1 ++ with_seen v x :: l2).
Proof. intros H. eexists. cbn. change v with (c_seen (with_seen v x)) at 1. rewrite (upd_if c_seen _ l1 x (with_seen v x) l2 H). split; [done|]. apply (windows_eq l1); cbn [wstates wseen wnum wmm witems windowsAt]; try done; solve [by apply same_mid|f_equal; by apply same_mid]. Qed.
(** A counted argument: the state, and the number accumulator when there is one. *)
Lemma write_state l1 x l2 s (o : option numAcc) y : c_state y = s → c_seen x = c_seen y → c_mm x = c_mm y → c_items x = c_items y →
  (if hasNumAcc p then o = Some (c_num y) else o = None ∧ c_num x = c_num y) →
  (st ← upd (wstates (windowsAt (l1 ++ x :: l2))) (len l1) s;
   nu ← match o with Some na => upd (wnum (windowsAt (l1 ++ x :: l2))) (len l1) na | None => Ok (wnum (windowsAt (l1 ++ x :: l2))) end;
   Ok (mkWindows st (wseen (windowsAt (l1 ++ x :: l2))) nu (wmm (windowsAt (l1 ++ x :: l2))) (witems (windowsAt (l1 ++ x :: l2))))) = Ok (windowsAt (l1 ++ y :: l2)).
Proof.
  intros <- H1 H2 H3 Ho. cbn [windowsAt wstates wseen wnum wmm witems]. rewrite (upd_mid c_state l1 x y l2). cbn [mbind res_bind].
  assert ((match o with Some na => upd (whenIf (hasNumAcc p) (c_num <$> l1 ++ x :: l2)) (len l1) na | None => Ok (whenIf (hasNumAcc p) (c_num <$> l1 ++ x :: l2)) end) =
    Ok (whenIf (hasNumAcc p) (c_num <$> l1 ++ y :: l2))) as ->.
  { destruct (hasNumAcc p) eqn:Hn; [subst o; apply (upd_mid c_num)|]. destruct Ho as [-> _]. done. }
  cbn. f_equal. apply (windows_eq l1); try done; f_equal; by apply same_mid.
Qed.

Lemma accumulateAt_ok l1 x l2 c a1 a2 present arg : Aggs p = a1 ++ c :: a2 → akind (c_state x) = Kind c →
  accumulateAt fe p c (len l1) present arg (windowsAt (l1 ++ x :: l2)) = Ok (windowsAt (l1 ++ accumulate fe (Kind c) present arg x :: l2)).
Proof.
  intros Ea Hx. pose proof (has_kind isNumKind a1 c a2 Ea) as Hnum. fold (hasNumAcc p) in Hnum. pose proof (has_kind isMinMax a1 c a2 Ea) as Hmm. fold (hasMinMax p) in Hmm.
  pose proof (has_kind isCollect a1 c a2 Ea) as Hcol. fold (hasCollect p) in Hcol.
  assert (numAt p (wnum (windowsAt (l1 ++ x :: l2))) (len l1) = Ok (if hasNumAcc p then Some (c_num x) else None)) as Hna.
  { unfold numAt. cbn [wnum windowsAt]. destruct (hasNumAcc p); [|done]. cbn [whenIf]. by rewrite idx_mid. }
  assert (∀ y o', stateUpdate fe (c_state x) (if hasNumAcc p then Some (c_num x) else None) arg present = Ok (c_state y, o') →
    c_seen x = c_seen y → c_mm x = c_mm y → c_items x = c_items y → (if hasNumAcc p then o' = Some (c_num y) else o' = None ∧ c_num x = c_num y) →
    (s ← idx (wstates (windowsAt (l1 ++ x :: l2))) (len l1); na ← numAt p (wnum (windowsAt (l1 ++ x :: l2))) (len l1); '(s, na) ← stateUpdate fe s na arg present;
     st ← upd (wstates (windowsAt (l1 ++ x :: l2))) (len l1) s;
     nu ← match na with Some na => upd (wnum (windowsAt (l1 ++ x :: l2))) (len l1) na | None => Ok (wnum (windowsAt (l1 ++ x :: l2))) end;
     Ok (mkWindows st (wseen (windowsAt (l1 ++ x :: l2))) nu (wmm (windowsAt (l1 ++ x :: l2))) (witems (windowsAt (l1 ++ x :: l2))))) = Ok (windowsAt (l1 ++ y :: l2))) as Hst.
  { intros y o' E2 H1 H2 H3 H4. rewrite (idx_mid c_state l1 x l2 : idx (wstates (windowsAt (l1 ++ x :: l2))) _ = _). cbn [mbind res_bind]. rewrite Hna. cbn [mbind res_bind]. rewrite E2. cbn [mbind res_bind]. by apply write_state. }
  unfold accumulateAt, accumulate. destruct (Kind c) eqn:Kc; try (specialize (Hnum eq_refl)); try (specialize (Hmm eq_refl)); try (specialize (Hcol eq_refl)).
  all: lazymatch type of Hnum with hasNumAcc p = true => rewrite Hnum in Hst | _ => idtac end.
  all: unfold stateUpdate in Hst at 1; rewrite Hx in Hst.
  - eapply Hst; [by destruct (negb present || negb (IsNull arg)); cbn; rewrite ?Hx|by destruct (negb present || negb (IsNull arg))..|].
    by destruct (hasNumAcc p), (negb present || negb (IsNull arg)).
  - eapply Hst; [|done..]. by destruct arg.
  - eapply Hst; [|done..]. cbn. unfold avgAdd. by destruct (asNum arg).
  - destruct (IsNull arg); [done|]. rewrite (idx_if c_mm _ l1 x l2 Hmm : idx (wmm (windowsAt (l1 ++ x :: l2))) _ = _). cbn [mbind res_bind]. fold (beats AggMin arg (c_mm x)). destruct (beats _ _ _); [by apply write_mm|done].
  - destruct (IsNull arg); [done|]. rewrite (idx_if c_mm _ l1 x l2 Hmm : idx (wmm (windowsAt (l1 ++ x :: l2))) _ = _). cbn [mbind res_bind]. fold (beats AggMax arg (c_mm x)). destruct (beats _ _ _); [by apply write_mm|done].
  - destruct (IsNull arg); [done|]. rewrite (idx_if c_items _ l1 x l2 Hcol : idx (witems (windowsAt (l1 ++ x :: l2))) _ = _). cbn [mbind res_bind]. by apply write_items.
  - eapply Hst; [|done..]. cbn. unfold welford. by destruct (asNum arg).
  - eapply Hst; [|done..]. cbn. unfold welford. by destruct (asNum arg).
  - destruct (asNum arg); [|done]. rewrite (idx_if c_items _ l1 x l2 Hcol : idx (witems (windowsAt (l1 ++ x :: l2))) _ = _). cbn [mbind res_bind]. by apply write_items.
  - destruct (asNum arg); [|done]. rewrite (idx_if c_items _ l1 x l2 Hcol : idx (witems (windowsAt (l1 ++ x :: l2))) _ = _). cbn [mbind res_bind]. by apply write_items.
Qed.

Lemma accumulate_kind k b v x : akind (c_state (accumulate fe k b v x)) = akind (c_state x).
Proof. unfold accumulate. destruct k; repeat case_match; done. Qed.
Lemma stepCell_kind c e x : akind (c_state (stepCell fe c e x)) = akind (c_state x).
Proof. unfold stepCell. destruct e as [b v]. repeat case_match; rewrite ?accumulate_kind; done. Qed.

Lemma foldArg_ok l1 x l2 c a1 a2 present arg : Aggs p = a1 ++ c :: a2 → akind (c_state x) = Kind c →
  foldArg fe p c (len l1) present arg (windowsAt (l1 ++ x :: l2)) = Ok (windowsAt (l1 ++ stepCell fe c (present, arg) x :: l2)).
Proof.
  intros Ea Hx. unfold foldArg, stepCell. destruct (CDistinct c && present && negb (IsNull arg)) eqn:Hd.
  - assert (hasDistinct p = true) as Hp.
    { unfold hasDistinct. rewrite Ea, existsb_app. cbn. apply andb_true_iff in Hd as [[-> _]%andb_true_iff _]. by rewrite orb_true_r. }
    rewrite (idx_if c_seen _ l1 x l2 Hp : idx (wseen (windowsAt (l1 ++ x :: l2))) _ = _). cbn [mbind res_bind].
    destruct (distinctAdd arg (c_seen x)) as [b d]. destruct (write_seen l1 x l2 d Hp) as (se & Eu & Es). rewrite Eu. cbn [mbind res_bind]. rewrite Es.
    destruct b; cbn [negb]; [|done]. by apply (accumulateAt_ok l1 (with_seen d x) l2 c a1 a2).
  - cbn [mbind res_bind negb]. by apply (accumulateAt_ok l1 x l2 c a1 a2).
Qed.

(** ** One row *)

(** Every aggregate's argument into its cell. *)
Definition foldRow (m : row) (cells : Datatypes.list cell) : Datatypes.list cell :=
  imap (λ j e, stepCell fe e.1 (argAt m j) e.2) (zip (Aggs p) cells).

Lemma argOf_ok m j : wfPlan → wfRow m → (j < length (Aggs p))%nat → argOf p m (Z.of_nat j) = Ok (argAt m j).
Proof.
  intros Hp Hm Hj. unfold argOf, argAt. destruct (lookup_lt_is_Some_2 (aggC p) j) as [o Eo]; [by rewrite wp_aggC|].
  destruct (lookup_lt_is_Some_2 (argSlots p) j) as [s Es]; [by rewrite wp_args|].
  rewrite (idx_lookup _ _ o) by (rewrite ?Nat2Z.id; done || lia). cbn [mbind res_bind]. rewrite Eo. destruct o as [e|]; [|done].
  rewrite (idx_lookup _ _ s) by (rewrite ?Nat2Z.id; done || lia). cbn [mbind res_bind]. case_decide as D; [|done].
  rewrite (idx_lookup m s (e m)); [done|done|]. by apply (wr_argSlots m Hm j).
Qed.

Lemma imap_split {A B} (f : nat → A → B) l1 x l2 : imap f (l1 ++ x :: l2) = imap f l1 ++ f (length l1) x :: imap (f ∘ (Nat.add (S (length l1)))) l2.
Proof. rewrite imap_app. f_equal. cbn. rewrite Nat.add_0_r. f_equal. apply imap_ext. intros. cbn. f_equal. lia. Qed.

Lemma kindsOf_length cells : kindsOf cells → length cells = length (Aggs p).
Proof. intros E. apply (f_equal length) in E. by rewrite !length_fmap in E. Qed.

Lemma foldRow_kinds m cells : kindsOf cells → kindsOf (foldRow m cells).
Proof.
  intros Hk. pose proof (kindsOf_length _ Hk) as L. unfold kindsOf in *. rewrite <- Hk. apply list_eq. intros j. unfold foldRow. rewrite !list_lookup_fmap, list_lookup_imap.
  destruct (cells !! j) as [x|] eqn:Ex.
  - destruct (lookup_lt_is_Some_2 (Aggs p) j) as [c Ec]; [rewrite <- L; by eapply lookup_lt_Some|].
    rewrite (proj2 (lookup_zip_with_Some pair (Aggs p) cells j (c, x))) by (by exists c, x). cbn. by rewrite stepCell_kind.
  - rewrite (proj2 (lookup_zip_with_None _ _ _ _)) by (by right). done.
Qed.

Lemma foldLoop_ok m : wfPlan → wfRow m → ∀ cells, kindsOf cells →
  foldM (λ w j, c ← idx (Aggs p) j; '(present, arg) ← argOf p m j; foldArg fe p c j present arg w) (zseq k) (windowsAt cells) = Ok (windowsAt (foldRow m cells)).
Proof.
  intros Hp Hm cells Hk. pose proof (kindsOf_length _ Hk) as L. pose proof (foldRow_kinds m cells Hk) as Hk'. pose proof (kindsOf_length _ Hk') as L'.
  destruct (foldM_zseq (λ j w, w = windowsAt (take (Z.to_nat j) (foldRow m cells) ++ drop (Z.to_nat j) cells))
    (λ w j, c ← idx (Aggs p) j; '(present, arg) ← argOf p m j; foldArg fe p c j present arg w) k (windowsAt cells)) as (w & E & Hw).
  - apply len_nonneg.
  - done.
  - intros j w Hj ->. assert ((Z.to_nat j < length (Aggs p))%nat) as Hjn by (unfold stride, len in Hj; lia).
    destruct (lookup_lt_is_Some_2 (Aggs p) (Z.to_nat j) Hjn) as [c Ec]. destruct (lookup_lt_is_Some_2 cells (Z.to_nat j)) as [x Ex]; [lia|].
    assert (foldRow m cells !! Z.to_nat j = Some (stepCell fe c (argAt m (Z.to_nat j)) x)) as Ef.
    { unfold foldRow. rewrite list_lookup_imap. rewrite (proj2 (lookup_zip_with_Some pair (Aggs p) cells (Z.to_nat j) (c, x))) by (by exists c, x). done. }
    pose proof (argOf_ok m (Z.to_nat j) Hp Hm Hjn) as Eo. rewrite Z2Nat.id in Eo by lia.
    rewrite (idx_lookup _ _ c) by (done || lia). cbn [mbind res_bind]. rewrite Eo. cbn [mbind res_bind].
    destruct (argAt m (Z.to_nat j)) as [present arg] eqn:Ea. rewrite (drop_S cells x) by done.
    assert (len (take (Z.to_nat j) (foldRow m cells)) = j) as Lt by (unfold len; rewrite length_take; lia).
    replace (foldArg fe p c j present arg) with (foldArg fe p c (len (take (Z.to_nat j) (foldRow m cells))) present arg) by (by rewrite Lt).
    rewrite (foldArg_ok _ x _ c (take (Z.to_nat j) (Aggs p)) (drop (S (Z.to_nat j)) (Aggs p))).
    + eexists. split; [done|]. replace (Z.to_nat (j + 1)) with (S (Z.to_nat j)) by lia. rewrite (take_S_r (foldRow m cells) _ (stepCell fe c (present, arg) x)) by done.
      by rewrite <- app_assoc.
    + by rewrite take_drop_middle.
    + apply (f_equal (λ l, l !! Z.to_nat j)) in Hk. rewrite !list_lookup_fmap, Ex, Ec in Hk. by injection Hk.
  - rewrite E, Hw. do 2 f_equal. unfold stride. rewrite to_nat_len, take_ge, drop_ge by lia. apply app_nil_r.
Qed.

(** ** Groups in slabs *)

Definition rowsOf {A} (f : cell → A) (gs : Datatypes.list group) : Datatypes.list (Datatypes.list A) := (λ g, f <$> g_cells g) <$> gs.
Definition slabIf {A} (has : bool) (z : A) (f : cell → A) (gs : Datatypes.list group) : Datatypes.list (Datatypes.list A) :=
  if has then slab (zeroed k z) (rowsOf f gs) else [].
Definition slabsOf (gs : Datatypes.list group) : slabs :=
  mkSlabs (slab (λ _, []) (rowsOf c_state gs)) (slabIf (hasDistinct p) emptyDistinct c_seen gs) (slabIf (hasNumAcc p) zeroNum c_num gs)
    (slabIf (hasMinMax p) Null c_mm gs) (slabIf (hasCollect p) [] c_items gs).

Lemma len_rowsOf {A} (f : cell → A) gs : len (rowsOf f gs) = len gs.
Proof. apply len_fmap. Qed.
Lemma cellRows_split {A} (f : cell → A) g1 g g2 : rowsOf f (g1 ++ g :: g2) = rowsOf f g1 ++ (f <$> g_cells g) :: rowsOf f g2.
Proof. unfold rowsOf. by rewrite fmap_app, fmap_cons. Qed.
Lemma rowsOf_strided {A} (f : cell → A) gs : Forall wfGroup gs → strided k (rowsOf f gs).
Proof.
  intros H. apply Forall_fmap. eapply Forall_impl; [exact H|]. intros g Hg. cbn. rewrite len_fmap. unfold stride, len. by rewrite (kindsOf_length _ (wg_cells _ Hg)).
Qed.

Section at_group.
Context (g1 : Datatypes.list group) (g : group) (g2 : Datatypes.list group) (Hwf : Forall wfGroup (g1 ++ g :: g2)).

Lemma winIf_at {A} has (z : A) f : winIf p has (slabIf has z f (g1 ++ g :: g2)) (len g1) = Ok (whenIf has (f <$> g_cells g)).
Proof.
  unfold winIf, slabIf, whenIf. destruct has; [|done]. rewrite cellRows_split, <- (len_rowsOf f g1). apply window_at. rewrite <- cellRows_split. by apply rowsOf_strided.
Qed.
Lemma putIf_at {A} has (z : A) f cells : kindsOf cells → putIf p has (slabIf has z f (g1 ++ g :: g2)) (len g1) (whenIf has (f <$> cells)) = Ok (slabIf has z f (g1 ++ mkGroup (g_keys g) cells :: g2)).
Proof.
  intros Hc. unfold putIf, slabIf, whenIf. destruct has; [|done]. rewrite !cellRows_split, <- (len_rowsOf f g1). apply putWindow_at.
  - rewrite <- cellRows_split. by apply rowsOf_strided.
  - cbn [g_cells]. rewrite len_fmap. unfold stride, len. by rewrite (kindsOf_length _ Hc).
Qed.
Lemma state_window : window k (slab (λ _, []) (rowsOf c_state (g1 ++ g :: g2))) (len g1) = Ok (c_state <$> g_cells g).
Proof. rewrite cellRows_split, <- (len_rowsOf c_state g1). apply window_at. rewrite <- cellRows_split. by apply rowsOf_strided. Qed.
Lemma state_put cells : kindsOf cells → putWindow k (slab (λ _, []) (rowsOf c_state (g1 ++ g :: g2))) (len g1) (c_state <$> cells) = Ok (slab (λ _, []) (rowsOf c_state (g1 ++ mkGroup (g_keys g) cells :: g2))).
Proof.
  intros Hc. rewrite !cellRows_split, <- (len_rowsOf c_state g1). apply putWindow_at; [rewrite <- cellRows_split; by apply rowsOf_strided|].
  cbn [g_cells]. rewrite len_fmap. unfold stride, len. by rewrite (kindsOf_length _ Hc).
Qed.

Lemma windowsOf_at : windowsOf p (slabsOf (g1 ++ g :: g2)) (len g1) = Ok (windowsAt (g_cells g)).
Proof. unfold windowsOf, slabsOf. cbn [stateChunks seenChunks numChunks mmChunks itemsChunks]. rewrite state_window, !winIf_at. done. Qed.
Lemma storeWindows_at cells : kindsOf cells → storeWindows p (slabsOf (g1 ++ g :: g2)) (len g1) (windowsAt cells) = Ok (slabsOf (g1 ++ mkGroup (g_keys g) cells :: g2)).
Proof.
  intros Hc. unfold storeWindows, slabsOf, windowsAt. cbn [stateChunks seenChunks numChunks mmChunks itemsChunks wstates wseen wnum wmm witems].
  rewrite state_put by done. cbn [mbind res_bind]. rewrite !putIf_at by done. done.
Qed.
End at_group.

(** A new group's windows. *)
Definition newGroup (keys : row) : group := mkGroup keys (newCell <$> Aggs p).

Lemma newGroup_kinds keys : kindsOf (g_cells (newGroup keys)).
Proof. unfold kindsOf. cbn. rewrite <- list_fmap_compose. done. Qed.

Lemma openIf_snoc {A} has (z : A) f keys gs : (∀ c, f (newCell c) = z) →
  openIf p has (len gs) z (slabIf has z f gs) = slabIf has z f (gs ++ [newGroup keys]).
Proof.
  intros Hz. unfold openIf, slabIf. destruct has; [|done]. unfold rowsOf at 2. rewrite fmap_app. rewrite <- (len_rowsOf f gs), slab_zeroed_snoc by apply len_nonneg. do 2 f_equal. cbn. f_equal.
  rewrite <- list_fmap_compose. unfold stride. rewrite to_nat_len. symmetry. apply list_eq. intros i. rewrite list_lookup_fmap. cbn.
  destruct (Aggs p !! i) as [c|] eqn:E.
  - rewrite lookup_replicate_2 by (by eapply lookup_lt_Some). cbn. by rewrite Hz.
  - symmetry. apply lookup_ge_None_2. rewrite length_replicate. by apply lookup_ge_None.
Qed.

Lemma openSlabs_snoc keys gs : openSlabs p (len gs) (slabsOf gs) = Ok (slabsOf (gs ++ [newGroup keys])).
Proof.
  unfold openSlabs, slabsOf. cbn [stateChunks seenChunks numChunks mmChunks itemsChunks]. rewrite <- (len_rowsOf c_state gs) at 1 2. rewrite slab_grown_snoc. cbn [mbind res_bind].
  do 2 f_equal; try (by apply openIf_snoc). do 2 f_equal. unfold rowsOf. rewrite fmap_app. do 2 f_equal. cbn. rewrite <- list_fmap_compose. done.
Qed.

(** ** The invariant *)

Definition idsOf (gs : Datatypes.list group) : Datatypes.list (Z + gostring) := (λ g, groupId (g_keys g)) <$> gs.

(** The group storage. *)
Record coreInv (a : aggregator) (gs : Datatypes.list group) : Prop := {
  ci_n : nGroups a = len gs;
  ci_keys : if keysPacked a then inl <$> packedKeys a = idsOf gs ∧ keysChunks a = slabFor (λ _, []) (len gs) []
    else packedKeys a = [] ∧ keysChunks a = slab (λ _, []) (g_keys <$> gs);
  ci_slabs : groupSlabs a = slabsOf gs;
  ci_wf : Forall wfGroup gs;
}.

(** An index leads a group identity to its position. *)
Definition indexes {K} `{Countable K} (f : K → Z + gostring) (ix : gmap K Z) (gs : Datatypes.list group) : Prop :=
  ∀ w i, ix !! w = Some i ↔ 0 ≤ i ∧ idsOf gs !! Z.to_nat i = Some (f w).
Record aggInv (a : aggregator) (gs : Datatypes.list group) : Prop := {
  ag_core : coreInv a gs;
  ag_ids : NoDup (idsOf gs);
  ag_packed : indexes inl (indexI a) gs;
  ag_bytes : indexes inr (index a) gs;
  ag_regime : keysPacked a = true → dpk = false;
}.

Lemma len_idsOf gs : len (idsOf gs) = len gs.
Proof. apply len_fmap. Qed.

Lemma coreInv_new : coreInv emptyAggregator [].
Proof.
  split; [done|done| |by constructor]. unfold slabsOf, slabIf, rowsOf, slab. cbn. by destruct (hasDistinct p), (hasNumAcc p), (hasMinMax p), (hasCollect p).
Qed.
Lemma aggInv_new : aggInv emptyAggregator [].
Proof. split; [apply coreInv_new|constructor|intros w i; cbn; rewrite lookup_empty; naive_solver..|done]. Qed.

(** What a tuple of keys must satisfy to found a group. *)
Definition wfKeyRow (keys : row) : Prop := len keys = len (groupC p) ∧ Forall (λ v, wfValue v = true) keys.

Lemma newGroup_wf keys : wfKeyRow keys → wfGroup (newGroup keys).
Proof. intros [H1 H2]. split; [apply newGroup_kinds|done|done]. Qed.

Definition founded (a a' : aggregator) (gs : Datatypes.list group) (keys : row) : Prop :=
  coreInv a' (gs ++ [newGroup keys]) ∧ index a' = index a ∧ indexI a' = indexI a ∧ (keysPacked a' = true → keysPacked a = true ∨ dpk = false).

Lemma appendGroup_ok a gs keys : coreInv a gs → keysPacked a = false → wfKeyRow keys →
  ∃ a', appendGroup p keys a = Ok (len gs, a') ∧ founded a a' gs keys.
Proof.
  intros [Hn Hk Hs Hw] Hp Hkr. rewrite Hp in Hk. destruct Hk as [Hk1 Hk2]. unfold appendGroup, appendGroupSlots. rewrite Hn, Hs, (openSlabs_snoc keys). cbn [mbind res_bind keysChunks keysPacked packedKeys].
  rewrite Hk2, <- (len_fmap g_keys gs), slab_grown_snoc. cbn [mbind res_bind]. rewrite len_fmap. eexists. split; [done|]. split; [|split; [done|split; [done|by left]]]. split; cbn.
  - rewrite len_app. done.
  - rewrite Hp, Hk1, fmap_app. done.
  - done.
  - apply Forall_app. split; [done|]. constructor; [by apply newGroup_wf|constructor].
Qed.

Lemma appendGroupPacked_ok a gs keys w : packGroupKey keys = Some w → coreInv a gs → keysPacked a = true → wfKeyRow keys →
  ∃ a', appendGroupPacked p w a = Ok (len gs, a') ∧ founded a a' gs keys.
Proof.
  intros Ew [Hn Hk Hs Hw] Hp Hkr. rewrite Hp in Hk. destruct Hk as [Hk1 Hk2]. unfold appendGroupPacked, appendGroupSlots. rewrite Hn, Hs, (openSlabs_snoc keys). cbn [mbind res_bind keysChunks keysPacked packedKeys].
  eexists. split; [done|]. split; [|split; [done|split; [done|by left]]]. split; cbn.
  - rewrite len_app. done.
  - rewrite Hp. split.
    + unfold idsOf. rewrite !fmap_app. f_equal; [exact Hk1|]. cbn. unfold groupId. by rewrite Ew.
    + rewrite Hk2. unfold slabFor at 1, openChunk. rewrite len_app. change (len [_]) with 1. destruct (chunkWindow (len gs)) as [c v] eqn:E.
      destruct (chunksFor_succ _ _ _ (len_nonneg gs) E) as [E1 E2]. unfold slabFor. rewrite E1, E2. case_decide; [|done]. apply chunkWindow_spec in E; [|apply len_nonneg].
      rewrite zseq_S, fmap_app by lia. f_equal. cbn. f_equal. unfold chunkOf, chunkRows. by rewrite drop_nil, take_nil.
  - done.
  - apply Forall_app. split; [done|]. constructor; [by apply newGroup_wf|constructor].
Qed.

Lemma demoteKeys_ok a gs : coreInv a gs → ∃ a', demoteKeys p a = Ok a' ∧ coreInv a' gs ∧ keysPacked a' = false ∧ index a' = index a ∧ indexI a' = indexI a.
Proof.
  intros Hc. unfold demoteKeys. destruct (keysPacked a) eqn:Hp; cbn [negb]; [|by exists a]. destruct Hc as [Hn Hk Hs Hw]. rewrite Hp in Hk. destruct Hk as [Hk1 Hk2].
  assert (length (packedKeys a) = length gs) as L by (apply (f_equal length) in Hk1; unfold idsOf in Hk1; by rewrite !length_fmap in Hk1).
  destruct (foldM_inv (λ i kc, kc = slabFor (λ _, []) (len gs) (take i (g_keys <$> gs)))
    (λ kc e, appendTo e.1 (unpackedKey e.2 (len (groupC p))) kc) (enum (packedKeys a)) (keysChunks a)) as (kc & E & Hkc).
  - by rewrite Hk2.
  - intros i [z w] kc Hi ->. apply lookup_enum in Hi as [-> Hi]. cbn [fst snd].
    assert (idsOf gs !! i = Some (inl w)) as Hg by (by rewrite <- Hk1, list_lookup_fmap, Hi). unfold idsOf in Hg. rewrite list_lookup_fmap in Hg. apply fmap_Some in Hg as (g & Hg & Eg).
    assert (packGroupKey (g_keys g) = Some w) as Ew by (unfold groupId in Eg; destruct (packGroupKey (g_keys g)); congruence).
    pose proof (proj1 (Forall_lookup _ _) Hw i g Hg) as [_ Lk Wk]. rewrite <- Lk, (unpack_pack _ _ Wk Ew). pose proof (lookup_lt_Some _ _ _ Hg) as Hlt.
    assert (len (take i (g_keys <$> gs)) = Z.of_nat i) as Lt by (unfold len; rewrite length_take, length_fmap; lia).
    pose proof (appendTo_at (len gs) (take i (g_keys <$> gs)) (g_keys g)) as Ha. rewrite Lt in Ha. rewrite Ha by (unfold len; lia). eexists. split; [done|]. rewrite (take_S_r _ _ (g_keys g)); [done|]. by rewrite list_lookup_fmap, Hg.
  - rewrite E. cbn [mbind res_bind]. eexists. split; [done|]. split; [|done]. split; cbn; [done| |done|done]. split; [done|]. rewrite Hkc. unfold slab, slabFor. rewrite len_fmap.
    rewrite take_ge; [done|]. rewrite length_fmap. rewrite length_enum. lia.
Qed.

(** ** Routing *)

(** The group of a key tuple in a list of groups, founded when there is none. *)
Definition refRoute (gs : Datatypes.list group) (keys : row) : nat * Datatypes.list group :=
  match list_find (λ g, groupId (g_keys g) = groupId keys) gs with
  | Some (i, _) => (i, gs)
  | None => (length gs, gs ++ [newGroup keys])
  end.

Lemma refRoute_found gs keys i : NoDup (idsOf gs) → idsOf gs !! i = Some (groupId keys) → refRoute gs keys = (i, gs).
Proof.
  intros Hnd Hi. unfold refRoute. destruct (list_find _ gs) as [[j g]|] eqn:E.
  - apply list_find_Some in E as (Hj & Ej & _). f_equal. apply (NoDup_lookup (idsOf gs) j i (groupId keys)); [done| |done]. unfold idsOf. rewrite list_lookup_fmap, Hj. cbn. by rewrite Ej.
  - apply list_find_None in E. unfold idsOf in Hi. rewrite list_lookup_fmap in Hi. apply fmap_Some in Hi as (g & Hg & Eg). rewrite Forall_lookup in E. exfalso. by apply (E i g Hg).
Qed.
Lemma refRoute_new gs keys : groupId keys ∉ idsOf gs → refRoute gs keys = (length gs, gs ++ [newGroup keys]).
Proof.
  intros Hn. unfold refRoute. destruct (list_find _ gs) as [[j g]|] eqn:E; [|done]. apply list_find_Some in E as (Hj & Ej & _). exfalso. apply Hn. rewrite <- Ej.
  unfold idsOf. apply list_elem_of_fmap. exists g. split; [done|]. by eapply list_elem_of_lookup_2.
Qed.

Lemma idsOf_snoc gs keys : idsOf (gs ++ [newGroup keys]) = idsOf gs ++ [groupId keys].
Proof. unfold idsOf. by rewrite fmap_app. Qed.

Section indexed.
Context {K : Type} `{Countable K} (f : K → Z + gostring).

Lemma indexes_miss ix gs w : indexes f ix gs → ix !! w = None → f w ∉ idsOf gs.
Proof.
  intros Hi Hw (i & Hx)%list_elem_of_lookup. assert (ix !! w = Some (Z.of_nat i)) by (apply Hi; rewrite Nat2Z.id; split; [lia|done]). congruence.
Qed.
Lemma indexes_new `{!Inj (=) (=) f} ix gs keys w : indexes f ix gs → groupId keys = f w → f w ∉ idsOf gs → indexes f (<[w := len gs]> ix) (gs ++ [newGroup keys]).
Proof.
  intros Hi Ek Hn u i. rewrite idsOf_snoc, Ek. destruct (decide (u = w)) as [->|Hu].
  - rewrite lookup_insert_eq. split.
    + intros [= <-]. split; [apply len_nonneg|]. rewrite to_nat_len. unfold idsOf. rewrite lookup_app_r by (by rewrite length_fmap). by rewrite length_fmap, Nat.sub_diag.
    + intros [H0 E]. f_equal. apply lookup_app_Some in E as [E|[L E]].
      * exfalso. apply Hn. by eapply list_elem_of_lookup_2.
      * apply list_lookup_singleton_Some in E as [E _]. unfold idsOf in *. rewrite length_fmap in *. unfold len. lia.
  - rewrite lookup_insert_ne by done. rewrite (Hi u i). split.
    + intros [H0 E]. split; [done|]. by apply lookup_app_l_Some.
    + intros [H0 E]. split; [done|]. apply lookup_app_Some in E as [E|[L E]]; [done|]. apply list_lookup_singleton_Some in E as [_ E]. by apply (inj f) in E.
Qed.
Lemma indexes_keep ix gs keys : indexes f ix gs → (∀ w, f w ≠ groupId keys) → indexes f ix (gs ++ [newGroup keys]).
Proof.
  intros Hi Hf u i. rewrite (Hi u i), idsOf_snoc. split; intros [H0 E]; (split; [done|]); [by apply lookup_app_l_Some|].
  apply lookup_app_Some in E as [E|[L E]]; [done|]. apply list_lookup_singleton_Some in E as [_ E]. by destruct (Hf u).
Qed.

(** A lookup that founds the group on a miss. *)
Lemma getOrCreate_ok `{!Inj (=) (=) f} ix gs w keys (create : aggregator → res (Z * aggregator)) a : coreInv a gs → NoDup (idsOf gs) → indexes f ix gs → groupId keys = f w →
  (∃ a', create a = Ok (len gs, a') ∧ founded a a' gs keys) →
  ∃ ix' a', getOrCreate ix w create a = Ok (Z.of_nat (refRoute gs keys).1, ix', a') ∧ coreInv a' (refRoute gs keys).2 ∧ NoDup (idsOf (refRoute gs keys).2) ∧
    indexes f ix' (refRoute gs keys).2 ∧ index a' = index a ∧ indexI a' = indexI a ∧ (keysPacked a' = true → keysPacked a = true ∨ dpk = false).
Proof.
  intros Hc Hnd Hi Ek Hcr. unfold getOrCreate. destruct (ix !! w) as [i|] eqn:Ew.
  - apply Hi in Ew as Ew'. destruct Ew' as [H0 E]. rewrite (refRoute_found gs keys (Z.to_nat i)) by (done || by rewrite Ek). cbn. rewrite Z2Nat.id by done. exists ix, a. do 5 (split; [done|]). split; [done|]. by left.
  - pose proof (indexes_miss ix gs w Hi Ew) as Hn. rewrite refRoute_new by (by rewrite Ek). destruct Hcr as (a' & -> & Hc' & E1 & E2 & E3). cbn. eexists _, a'. split; [done|]. split; [done|].
    split; [|split; [by apply indexes_new|done]]. rewrite idsOf_snoc, Ek. apply NoDup_app. split; [done|]. split; [|apply NoDup_singleton]. intros x Hx ->%list_elem_of_singleton. done.
Qed.
End indexed.

Lemma keep_index {K} `{Countable K} (f : K → Z + gostring) ix gs keys : indexes f ix gs → (∀ w, f w ≠ groupId keys) → indexes f ix (refRoute gs keys).2.
Proof. intros Hi Hf. unfold refRoute. destruct (list_find _ gs) as [[]|]; [done|]. by apply indexes_keep. Qed.

Lemma keysAt_wf m : wfRow m → wfKeyRow (keysAt m).
Proof. intros Hm. split; [apply len_fmap|apply (wr_keys m Hm)]. Qed.

Lemma groupIdx_ok a gs keys : aggInv a gs → keysPacked a = false → wfKeyRow keys →
  ∃ a', groupIdx p keys a = Ok (Z.of_nat (refRoute gs keys).1, a') ∧ aggInv a' (refRoute gs keys).2.
Proof.
  intros [Hc Hnd Hp Hb Hr] Hk Hw. pose proof (appendGroup_ok a gs keys Hc Hk Hw) as Happ. unfold groupIdx. destruct (packGroupKey keys) as [w|] eqn:Ew.
  - destruct (getOrCreate_ok inl (indexI a) gs w keys (appendGroup p keys) a) as (ix & a' & -> & H1 & H2 & H3 & H4 & H5 & H6); try done; [unfold groupId; by rewrite Ew|].
    cbn. eexists. split; [done|]. split; cbn; [by destruct H1; split|done|done| |intros [?|?]%H6; [by apply Hr|done]]. rewrite H4. apply keep_index; [done|]. intros u. unfold groupId. by rewrite Ew.
  - destruct (getOrCreate_ok inr (index a) gs (fold_left AppendKey keys []) keys (appendGroup p keys) a) as (ix & a' & -> & H1 & H2 & H3 & H4 & H5 & H6); try done; [unfold groupId; by rewrite Ew|].
    cbn. eexists. split; [done|]. split; cbn; [by destruct H1; split|done| |done|intros [?|?]%H6; [by apply Hr|done]]. rewrite H5. apply keep_index; [done|]. intros u. unfold groupId. by rewrite Ew.
Qed.

Lemma slots_boxed (m keys : row) ss : Forall (λ s, 0 ≤ s) ss → mapM (λ s, m !! Z.to_nat s) ss = Some keys → mapM (idx m) ss = Ok keys.
Proof.
  intros Hs. revert keys. induction Hs as [|s ss H0 _ IH]; intros keys; cbn; [by intros [= <-]|].
  destruct (m !! Z.to_nat s) as [v|] eqn:Ev; [|done]. cbn. destruct (mapM _ ss) as [vs|]; [|done]. intros [= <-]. rewrite (idx_lookup m s v) by done. cbn. by rewrite (IH vs).
Qed.

Lemma packSlots_ok m ss : wfPlan → wfRow m → keySlots p = Some ss → packSlots m ss = Ok (packGroupKey (keysAt m)) ∧ mapM (idx m) ss = Ok (keysAt m).
Proof.
  intros Hp Hm Hs. destruct (wr_keySlots m Hm ss Hs) as [H0 E]. pose proof (slots_boxed m _ ss H0 E) as Eb. split; [|done].
  destruct (wp_slots Hp ss Hs) as [_ L]. destruct ss as [|s1 [|s2 [|]]]; try (cbn in L; lia); cbn in Eb |- *.
  - destruct (idx m s1); [|done..]. cbn in *. by injection Eb as <-.
  - destruct (idx m s1); [|done..]. cbn in *. destruct (idx m s2); [|done..]. cbn in *. by injection Eb as <-.
Qed.

Lemma seedPacked_ok m ss w a gs : wfPlan → wfRow m → keySlots p = Some ss → packGroupKey (keysAt m) = Some w → coreInv a gs →
  (keysPacked a = true → dpk = false) → ∃ a', seedPacked p dpk m ss w a = Ok (len gs, a') ∧ founded a a' gs (keysAt m).
Proof.
  intros Hp Hm Hs Ew Hc Hd. destruct (packSlots_ok m ss Hp Hm Hs) as [_ Eb]. pose proof (keysAt_wf m Hm) as Hw. unfold seedPacked. rewrite Eb.
  destruct dpk eqn:Ed; cbn [mbind res_bind].
  { apply appendGroup_ok; [done| |done]. destruct (keysPacked a); [by specialize (Hd eq_refl)|done]. }
  set (b := if decide (nGroups a = 0) then _ else a). assert (coreInv b gs ∧ index b = index a ∧ indexI b = indexI a) as (Hb & E1 & E2).
  { subst b. case_decide as D; [|done]. split; [|done]. destruct Hc as [Hn Hk Hsl Hwf]. assert (gs = []) as -> by (apply length_zero_iff_nil; unfold len in Hn; lia).
    split; cbn; [done| |done|done]. destruct (keysPacked a); [done|]. destruct Hk as [-> ->]. done. }
  assert (∀ a', founded b a' gs (keysAt m) → founded a a' gs (keysAt m)) as Hf.
  { intros a' (H1 & H2 & H3 & _). split; [done|]. rewrite H2, H3. rewrite Ed. auto. }
  destruct (keysPacked b) eqn:Hkb.
  - destruct (appendGroupPacked_ok b gs (keysAt m) w Ew Hb Hkb Hw) as (a' & E & Hfa). exists a'. auto.
  - destruct (appendGroup_ok b gs (keysAt m) Hb Hkb Hw) as (a' & E & Hfa). exists a'. auto.
Qed.

Lemma slotGroup_ok a gs m : wfPlan → wfRow m → aggInv a gs →
  ∃ o a', slotGroup p dpk m a = Ok (o, a') ∧
    match o with
    | Some i => i = Z.of_nat (refRoute gs (keysAt m)).1 ∧ aggInv a' (refRoute gs (keysAt m)).2
    | None => a' = a
    end.
Proof.
  intros Hp Hm [Hc Hnd Hpk Hb Hr]. unfold slotGroup. destruct (keySlots p) as [ss|] eqn:Es; [|by exists None, a].
  destruct (packSlots_ok m ss Hp Hm Es) as [Eq _]. rewrite Eq. cbn [mbind res_bind]. destruct (packGroupKey (keysAt m)) as [w|] eqn:Ew; [|by exists None, a].
  destruct (getOrCreate_ok inl (indexI a) gs w (keysAt m) (seedPacked p dpk m ss w) a) as (ix & a' & -> & H1 & H2 & H3 & H4 & H5 & H6); try done;
    [unfold groupId; by rewrite Ew|by apply seedPacked_ok|].
  cbn. eexists _, _. split; [done|]. cbn. split; [done|]. split; cbn; [by destruct H1; split|done|done| |intros [?|?]%H6; [by apply Hr|done]].
  rewrite H4. apply keep_index; [done|]. intros u. unfold groupId. by rewrite Ew.
Qed.

Lemma route_ok a gs m : wfPlan → wfRow m → aggInv a gs →
  ∃ a', route p dpk m a = Ok (Z.of_nat (refRoute gs (keysAt m)).1, a') ∧ aggInv a' (refRoute gs (keysAt m)).2.
Proof.
  intros Hp Hm Ha. unfold route. destruct (slotGroup_ok a gs m Hp Hm Ha) as (o & a' & -> & Ho). cbn [mbind res_bind]. destruct o as [i|].
  - destruct Ho as [-> Ho]. by exists a'.
  - subst a'. destruct Ha as [Hc Hnd Hpk Hb Hr]. destruct (demoteKeys_ok a gs Hc) as (a' & -> & Hc' & Hk & E1 & E2). cbn [mbind res_bind].
    apply groupIdx_ok; [|done|by apply keysAt_wf]. split; [done|done|by rewrite E2|by rewrite E1|by rewrite Hk].
Qed.

(** ** The update of a row *)

Lemma updateInto_ok a gs m i g : wfPlan → wfRow m → aggInv a gs → gs !! i = Some g →
  ∃ a', updateInto fe p (Z.of_nat i) m a = Ok a' ∧ aggInv a' (<[i := mkGroup (g_keys g) (foldRow m (g_cells g))]> gs).
Proof.
  intros Hp Hm [[Hn Hk Hs Hw] Hnd Hpk Hb Hr] Hg. destruct (list_elem_of_split_length gs i g Hg) as (g1 & g2 & -> & ->).
  pose proof (proj1 (Forall_lookup _ _) Hw _ g Hg) as [Wc Wl Wk]. pose proof (foldRow_kinds m _ Wc) as Wc'. unfold updateInto. rewrite Hs.
  change (Z.of_nat (length g1)) with (len g1).
  rewrite windowsOf_at by done. cbn [mbind res_bind]. rewrite foldLoop_ok by done. cbn [mbind res_bind]. rewrite storeWindows_at by done. cbn [mbind res_bind].
  eexists. split; [done|]. assert (<[length g1:=mkGroup (g_keys g) (foldRow m (g_cells g))]> (g1 ++ g :: g2) = g1 ++ mkGroup (g_keys g) (foldRow m (g_cells g)) :: g2) as ->.
  { by rewrite insert_app_r_alt, Nat.sub_diag by lia. }
  assert (idsOf (g1 ++ mkGroup (g_keys g) (foldRow m (g_cells g)) :: g2) = idsOf (g1 ++ g :: g2)) as Ei by (unfold idsOf; by rewrite !fmap_app, !fmap_cons).
  assert (∀ f : group → row, f = g_keys → f <$> g1 ++ mkGroup (g_keys g) (foldRow m (g_cells g)) :: g2 = f <$> g1 ++ g :: g2) as Ek by (intros f ->; by rewrite !fmap_app, !fmap_cons).
  assert (len (g1 ++ mkGroup (g_keys g) (foldRow m (g_cells g)) :: g2) = len (g1 ++ g :: g2)) as El by (rewrite !len_app, !len_cons; done).
  split; [split|..]; cbn; unfold indexes in *; rewrite ?Ei, ?El, ?(Ek g_keys eq_refl); try done.
  apply Forall_app in Hw as [Hw1 [_ Hw2]%Forall_cons]. apply Forall_app. split; [done|]. constructor; [by split|done].
Qed.

(** [update] on the list of groups. *)
Definition refStep (gs : Datatypes.list group) (m : row) : Datatypes.list group :=
  let '(i, gs) := refRoute gs (keysAt m) in alter (λ g, mkGroup (g_keys g) (foldRow m (g_cells g))) i gs.

Lemma refRoute_lookup gs keys : ∃ g, (refRoute gs keys).2 !! (refRoute gs keys).1 = Some g ∧ groupId (g_keys g) = groupId keys.
Proof.
  unfold refRoute. destruct (list_find _ gs) as [[i g]|] eqn:E.
  - apply list_find_Some in E as (Hi & Ei & _). by exists g.
  - exists (newGroup keys). cbn. by rewrite lookup_app_r, Nat.sub_diag by lia.
Qed.

Lemma update_ok a gs m : wfPlan → wfRow m → aggInv a gs → ∃ a', update fe p dpk m a = Ok a' ∧ aggInv a' (refStep gs m).
Proof.
  intros Hp Hm Ha. unfold update, refStep. destruct (route_ok a gs m Hp Hm Ha) as (a1 & -> & Ha1). cbn [mbind res_bind].
  destruct (refRoute_lookup gs (keysAt m)) as (g & Hg & _). destruct (refRoute gs (keysAt m)) as [i gs1]. cbn in *.
  destruct (updateInto_ok a1 gs1 m i g Hp Hm Ha1 Hg) as (a2 & E & Ha2). exists a2. split; [done|].
  replace (alter _ i gs1) with (<[i := mkGroup (g_keys g) (foldRow m (g_cells g))]> gs1); [done|].
  apply list_eq. intros j. destruct (decide (j = i)) as [->|].
  - rewrite list_lookup_insert_eq, list_lookup_alter_eq, Hg by (by eapply lookup_lt_Some). done.
  - by rewrite list_lookup_insert_ne, list_lookup_alter_ne by done.
Qed.

(** ** A batch of candidates *)

Definition bound_ (m : row) (slot c : Z) : row := <[Z.to_nat slot := Node c]> m.

Lemma foldUpdates_ok ms : wfPlan → Forall wfRow ms → ∀ a gs, aggInv a gs → ∃ a', foldM (λ a m, update fe p dpk m a) ms a = Ok a' ∧ aggInv a' (foldl refStep gs ms).
Proof.
  intros Hp. induction 1 as [|m ms Hm _ IH]; intros a gs Ha; [by exists a|]. cbn [foldM foldl]. destruct (update_ok a gs m Hp Hm Ha) as (a1 & -> & Ha1). cbn [mbind res_bind]. by apply IH.
Qed.

Lemma upd_slot m slot c : 0 ≤ slot < len m → upd m slot (Node c) = Ok (bound_ m slot c).
Proof. intros H. unfold upd. by rewrite decide_True. Qed.

Lemma each_candidate {B} (f : row → B → res B) m slot cands : 0 ≤ slot < len m → ∀ a,
  foldM (λ a c, m ← upd m slot (Node c); f m a) cands a = foldM (λ a m, f m a) (bound_ m slot <$> cands) a.
Proof. intros Hs. induction cands as [|c cands IH]; intros a; [done|]. cbn [foldM fmap list_fmap]. rewrite upd_slot by done. cbn [mbind res_bind]. destruct (f (bound_ m slot c) a); [apply IH|done|done]. Qed.

(** Binding a slot outside the key slots does not move the keys. *)
Lemma bound_slots m slot c ss : 0 ≤ slot → slot ∉ ss → Forall (λ s, 0 ≤ s) ss → mapM (idx m) ss = mapM (idx (bound_ m slot c)) ss ∧ packSlots m ss = packSlots (bound_ m slot c) ss.
Proof.
  intros H0 Hn Hs. assert (∀ s, s ∈ ss → idx m s = idx (bound_ m slot c) s) as E.
  { intros s Hin. unfold idx, bound_. case_decide as D; [done|]. rewrite list_lookup_insert_ne; [done|]. intros E. apply Hn. replace slot with s by lia. done. }
  split.
  - clear Hn Hs. induction ss as [|s ss IH]; [done|]. cbn [mapM]. rewrite E by (by left). by rewrite IH by (intros; apply E; by right).
  - destruct ss as [|s1 [|s2 ss]]; [done| |]; unfold packSlots; rewrite !E by set_solver; done.
Qed.

Lemma keys_same m slot ss c d : keySlots p = Some ss → 0 ≤ slot → slot ∉ ss → wfPlan → wfRow (bound_ m slot c) → wfRow (bound_ m slot d) → keysAt (bound_ m slot c) = keysAt (bound_ m slot d).
Proof.
  intros Hk H0 Hn Hp Hc Hd. destruct (packSlots_ok _ ss Hp Hc Hk) as [_ E1]. destruct (packSlots_ok _ ss Hp Hd Hk) as [_ E2]. destruct (wr_keySlots _ Hc ss Hk) as [Hs _].
  destruct (bound_slots m slot c ss H0 Hn Hs) as [F1 _]. destruct (bound_slots m slot d ss H0 Hn Hs) as [F2 _]. congruence.
Qed.

(** Folding rows of one key into their group. *)
Definition foldGroup (ms : Datatypes.list row) (g : group) : group := mkGroup (g_keys g) (foldl (λ cs m, foldRow m cs) (g_cells g) ms).

Lemma refSteps_same keys ms : Forall (λ m, keysAt m = keys) ms → ∀ gs i g, NoDup (idsOf gs) → gs !! i = Some g → groupId (g_keys g) = groupId keys →
  foldl refStep gs ms = <[i := foldGroup ms g]> gs.
Proof.
  induction 1 as [|m ms Hm _ IH]; intros gs i g Hnd Hg Eg; cbn [foldl].
  { rewrite list_insert_id; [done|]. rewrite Hg. by destruct g. }
  unfold refStep at 2. rewrite Hm, (refRoute_found gs keys i); [|done|unfold idsOf; rewrite list_lookup_fmap, Hg; cbn; by rewrite Eg].
  set (g' := mkGroup (g_keys g) (foldRow m (g_cells g))).
  assert (alter (λ g, mkGroup (g_keys g) (foldRow m (g_cells g))) i gs = <[i := g']> gs) as ->.
  { apply list_eq. intros j. destruct (decide (j = i)) as [->|]; [rewrite list_lookup_alter_eq, list_lookup_insert_eq, Hg by (by eapply lookup_lt_Some); done|by rewrite list_lookup_alter_ne, list_lookup_insert_ne]. }
  rewrite (IH _ i g').
  - rewrite list_insert_insert_eq. done.
  - assert (idsOf (<[i:=g']> gs) = idsOf gs) as ->; [|done]. unfold idsOf. rewrite list_fmap_insert. apply list_insert_id. by rewrite list_lookup_fmap, Hg.
  - apply list_lookup_insert_eq. by eapply lookup_lt_Some.
  - done.
Qed.

Lemma updatesInto_ok ms : wfPlan → Forall wfRow ms → ∀ a gs i g, aggInv a gs → gs !! i = Some g →
  ∃ a', foldM (λ a m, updateInto fe p (Z.of_nat i) m a) ms a = Ok a' ∧ aggInv a' (<[i := foldGroup ms g]> gs).
Proof.
  intros Hp. induction 1 as [|m ms Hm _ IH]; intros a gs i g Ha Hg; cbn [foldM].
  { exists a. split; [done|]. rewrite list_insert_id; [done|]. rewrite Hg. by destruct g. }
  destruct (updateInto_ok a gs m i g Hp Hm Ha Hg) as (a1 & -> & Ha1). cbn [mbind res_bind].
  destruct (IH a1 _ i (mkGroup (g_keys g) (foldRow m (g_cells g))) Ha1) as (a2 & E & Ha2); [apply list_lookup_insert_eq; by eapply lookup_lt_Some|].
  exists a2. split; [done|]. by rewrite list_insert_insert_eq in Ha2.
Qed.

(** Counting [n] arguments at once. *)
Definition bump (n : Z) (x : cell) : cell := mkCell (mkState (to_i64 (acount (c_state x) + n)) (akind (c_state x))) (c_seen x) (c_num x) (c_mm x) (c_items x).

Lemma wrap_add a b : to_i64 (to_i64 a + b) = to_i64 (a + b).
Proof. unfold wrapS. change (64 - 1) with 63. dlia. Qed.
Lemma bump_bump m n x : bump n (bump m x) = bump (m + n) x.
Proof. unfold bump. cbn. rewrite wrap_add. do 2 f_equal. f_equal. lia. Qed.
Lemma bumps n x (cells : Datatypes.list cell) : 0 ≤ n → Nat.iter (Z.to_nat n) (fmap (bump 1)) (bump x <$> cells) = bump (x + n) <$> cells.
Proof.
  intros Hn. rewrite <- (Z2Nat.id n) at 2 by done. generalize (Z.to_nat n) as k. induction k as [|k IH]; [by rewrite Z.add_0_r|].
  rewrite Nat.iter_succ, IH, <- list_fmap_compose. apply list_fmap_ext. intros i y _. cbn. rewrite bump_bump. f_equal. lia.
Qed.

(** Every aggregate a plain count of [slot] or of rows. *)
Definition plainCounts (slot : Z) : Prop :=
  ∀ j c, Aggs p !! j = Some c → Kind c = AggCount ∧ CDistinct c = false ∧ (aggC p !! j = Some None ∨ argSlots p !! j = Some slot).

Lemma foldRow_plain m slot c cells : plainCounts slot → 0 ≤ slot < len m → wfRow (bound_ m slot c) → length cells = length (Aggs p) → foldRow (bound_ m slot c) cells = bump 1 <$> cells.
Proof.
  intros Hpl Hs Hm L. apply list_eq. intros j. unfold foldRow. rewrite list_lookup_imap, list_lookup_fmap. destruct (cells !! j) as [x|] eqn:Ex; [|by rewrite (proj2 (lookup_zip_with_None _ _ _ _)) by (by right)].
  destruct (lookup_lt_is_Some_2 (Aggs p) j) as [col Ec]; [rewrite <- L; by eapply lookup_lt_Some|].
  rewrite (proj2 (lookup_zip_with_Some pair (Aggs p) cells j (col, x))) by (by exists col, x). cbn [fmap option_fmap option_map]. f_equal.
  destruct (Hpl j col Ec) as (Hk & Hd & Ha). unfold stepCell. destruct (argAt (bound_ m slot c) j) as [b v] eqn:Ea. cbn [fst snd]. rewrite Hd. cbn [andb]. rewrite Hk. cbn [accumulate].
  assert (negb b || negb (IsNull v) = true) as ->; [|done]. unfold argAt in Ea. destruct (aggC p !! j) as [[e|]|] eqn:Eg; try (by injection Ea as <- <-). injection Ea as <- <-.
  destruct Ha as [?|Ha]; [done|]. pose proof (wr_argSlots _ Hm j slot e Eg Ha ltac:(lia)) as El. unfold bound_ in El at 1. rewrite list_lookup_insert_eq in El by (unfold len in Hs; lia).
  injection El as El. by rewrite <- El.
Qed.

Lemma foldGroup_plain m slot cands g : plainCounts slot → 0 ≤ slot < len m → cands ≠ [] → Forall (λ c, wfRow (bound_ m slot c)) cands → length (g_cells g) = length (Aggs p) →
  foldGroup (bound_ m slot <$> cands) g = mkGroup (g_keys g) (bump (len cands) <$> g_cells g).
Proof.
  intros Hpl Hs Hne Hw L. unfold foldGroup. f_equal. destruct cands as [|c cands]; [done|]. apply Forall_cons in Hw as [Hc Hw]. cbn [fmap list_fmap foldl]. rewrite (foldRow_plain m slot c) by done.
  rewrite len_cons, Z.add_comm, <- bumps by apply len_nonneg. rewrite to_nat_len. generalize (bump 1 <$> g_cells g) as cells, (eq_trans (length_fmap (bump 1) (g_cells g)) L). clear L Hc Hne.
  induction Hw as [|d cands Hd _ IH]; intros cells L; [done|]. cbn [fmap list_fmap foldl length]. rewrite (foldRow_plain m slot d), Nat.iter_succ_r by done. apply IH. by rewrite length_fmap.
Qed.

Lemma bulkUpdate_ok a gs i g slot n : wfPlan → aggInv a gs → gs !! i = Some g →
  ∃ o, bulkUpdate p (Z.of_nat i) slot n a = Ok o ∧ match o with Some a' => plainCounts slot ∧ aggInv a' (<[i := mkGroup (g_keys g) (bump n <$> g_cells g)]> gs) | None => True end.
Proof.
  intros Hp [[Hn Hk Hs Hw] Hnd Hpk Hb Hr] Hg. unfold bulkUpdate.
  set (step := λ (ok : bool) (e : Z * AggCol), ev ← idx (aggC p) e.1; s ← idx (argSlots p) e.1;
    Ok (ok && bool_decide (Kind e.2 = AggCount) && negb (CDistinct e.2) && (bool_decide (ev = None :> option RowEval) || bool_decide (s = slot)))).
  destruct (foldM_inv (λ k (ok : bool), ok = true → ∀ j c, (j < k)%nat → Aggs p !! j = Some c → Kind c = AggCount ∧ CDistinct c = false ∧ (aggC p !! j = Some None ∨ argSlots p !! j = Some slot))
    step (enum (Aggs p)) true) as (ok & E & Hok).
  - intros _ j c Hj. lia.
  - intros j [z c] ok Hj Hok. apply lookup_enum in Hj as [-> Hj]. pose proof (lookup_lt_Some _ _ _ Hj) as Hlt. unfold step. cbn [fst snd].
    destruct (lookup_lt_is_Some_2 (aggC p) j) as [ev Ev]; [by rewrite (wp_aggC Hp)|]. destruct (lookup_lt_is_Some_2 (argSlots p) j) as [s Es]; [by rewrite (wp_args Hp)|].
    rewrite (idx_lookup _ _ ev), (idx_lookup _ _ s) by (rewrite ?Nat2Z.id; done || lia). cbn [mbind res_bind]. eexists. split; [done|].
    rewrite !andb_true_iff, orb_true_iff, !bool_decide_eq_true, negb_true_iff. intros [[[Ho H1] H2] H3] j' c' Hj' Hc'. destruct (decide (j' = j)) as [->|]; [|apply Hok; [done|lia|done]].
    rewrite Hj in Hc'. injection Hc' as <-. split; [done|]. split; [done|]. destruct H3 as [->| ->]; [by left|by right].
  - rewrite E. cbn [mbind res_bind]. destruct ok; [|by exists None]. destruct (list_elem_of_split_length _ _ _ Hg) as (g1 & g2 & -> & ->). rewrite Hs. cbn [stateChunks slabsOf].
    change (Z.of_nat (length g1)) with (len g1). rewrite state_window by done. cbn [mbind res_bind]. pose proof (proj1 (Forall_lookup _ _) Hw _ g Hg) as [Wc Wl Wk].
    assert (kindsOf (bump n <$> g_cells g)) as Wc' by (unfold kindsOf in *; rewrite <- Wc, <- list_fmap_compose; done).
    assert ((λ s, mkState (to_i64 (acount s + n)) (akind s)) <$> (c_state <$> g_cells g) = c_state <$> (bump n <$> g_cells g)) as -> by (rewrite <- !list_fmap_compose; done).
    rewrite state_put by done. cbn [mbind res_bind]. eexists. split; [done|]. split; [intros j c Hj; apply Hok; [done|rewrite length_enum; by eapply lookup_lt_Some|done]|].
    rewrite insert_app_r_alt, Nat.sub_diag by lia. cbn [insert list_insert]. set (g' := mkGroup (g_keys g) (bump n <$> g_cells g)).
    assert (idsOf (g1 ++ g' :: g2) = idsOf (g1 ++ g :: g2)) as Ei by (unfold idsOf; by rewrite !fmap_app, !fmap_cons).
    assert (g_keys <$> g1 ++ g' :: g2 = g_keys <$> g1 ++ g :: g2) as Ek by (by rewrite !fmap_app, !fmap_cons).
    assert (len (g1 ++ g' :: g2) = len (g1 ++ g :: g2)) as El by (rewrite !len_app, !len_cons; done).
    assert (∀ {A} has (z : A) f, f <$> g_cells g' = f <$> g_cells g → slabIf has z f (g1 ++ g' :: g2) = slabIf has z f (g1 ++ g :: g2)) as Es by (intros A has z f Ef; unfold slabIf; by rewrite !cellRows_split, Ef).
    split; [split|..]; cbn; unfold indexes in *; rewrite ?Ei, ?El, ?Ek; try done.
    + unfold slabsOf. rewrite !Es; [done|..]; cbn; by rewrite <- list_fmap_compose.
    + apply Forall_app in Hw as [Hw1 [_ Hw2]%Forall_cons]. apply Forall_app. split; [done|]. constructor; [by split|done].
Qed.

Lemma pushCandidates_ok a gs m slot cands : wfPlan → 0 ≤ slot < len m → cands ≠ [] → Forall (λ c, wfRow (bound_ m slot c)) cands → aggInv a gs →
  ∃ a', pushCandidates fe p dpk m slot cands a = Ok a' ∧ aggInv a' (foldl refStep gs (bound_ m slot <$> cands)).
Proof.
  intros Hp Hs Hne Hw Ha. assert (Forall wfRow (bound_ m slot <$> cands)) as Hw' by (by apply Forall_fmap). unfold pushCandidates. rewrite (each_candidate (update fe p dpk)) by done.
  pose proof (foldUpdates_ok _ Hp Hw' a gs Ha) as Heach. destruct (keySlots p) as [ss|] eqn:Es; [|done]. case_decide as D; [done|].
  destruct cands as [|c0 cands0] eqn:Ec; [done|]. rewrite <- Ec in *. assert (wfRow (bound_ m slot c0)) as H0 by (rewrite Ec in Hw; by apply Forall_cons in Hw as [? _]).
  destruct (wr_keySlots _ H0 ss Es) as [Hss _]. destruct (bound_slots m slot c0 ss (proj1 Hs) D Hss) as [Eb Epk]. rewrite Epk.
  destruct (packSlots_ok _ ss Hp H0 Es) as [Eq _]. rewrite Eq. cbn [mbind res_bind]. destruct (packGroupKey (keysAt (bound_ m slot c0))) as [w|] eqn:Ew; [|done].
  assert (seedPacked p dpk m ss w = seedPacked p dpk (bound_ m slot c0) ss w) as -> by (unfold seedPacked; by rewrite Eb).
  destruct (slotGroup_ok a gs _ Hp H0 Ha) as (o & a1 & Esg & Ho). unfold slotGroup in Esg. rewrite Es, Eq in Esg. cbn [mbind res_bind] in Esg.
  destruct (getOrCreate _ _ _ _) as [[[i ix] a2]| |]; cbn [mbind res_bind] in Esg |- *; [|done..]. injection Esg as <- <-. destruct Ho as [-> Ha1].
  destruct (refRoute_lookup gs (keysAt (bound_ m slot c0))) as (g & Hg & Eg). destruct (refRoute gs (keysAt (bound_ m slot c0))) as [i gs1] eqn:Er. cbn [fst snd] in *.
  assert (foldl refStep gs (bound_ m slot <$> cands) = <[i := foldGroup (bound_ m slot <$> cands) g]> gs1) as ->.
  { assert (foldl refStep gs (bound_ m slot <$> cands) = foldl refStep gs1 (bound_ m slot <$> cands)) as ->.
    { rewrite Ec. cbn [fmap list_fmap foldl]. f_equal. unfold refStep. rewrite Er. rewrite (refRoute_found gs1 _ i); [done|apply (ag_ids _ _ Ha1)|]. unfold idsOf. rewrite list_lookup_fmap, Hg. cbn. by rewrite Eg. }
    apply (refSteps_same (keysAt (bound_ m slot c0))); [|apply (ag_ids _ _ Ha1)|done|done]. apply Forall_fmap. eapply Forall_impl; [exact Hw|]. intros c Hc. cbn. apply (keys_same m slot ss); (done || lia). }
  destruct (bulkUpdate_ok (set_indexI ix a2) gs1 i g slot (len cands) Hp Ha1 Hg) as (ob & -> & Hob). cbn [mbind res_bind]. destruct ob as [a3|].
  - exists a3. split; [done|]. destruct Hob as [Hpl Ha3]. rewrite (foldGroup_plain m slot cands g); try done. apply kindsOf_length.
    apply (wg_cells _ (proj1 (Forall_lookup _ _) (ci_wf _ _ (ag_core _ _ Ha1)) i g Hg)).
  - rewrite (each_candidate (updateInto fe p (Z.of_nat i))) by done. by apply updatesInto_ok.
Qed.

(** ** The sink *)

(** The rows an input stands for. *)
Definition rowsIn (i : aggInput) : Datatypes.list row := match i with PushRow m => [m] | PushCandidates m slot cands => bound_ m slot <$> cands end.
(** A batch binds a slot of its row to at least one candidate. *)
Definition wfInput (i : aggInput) : Prop := match i with PushRow _ => True | PushCandidates m slot cands => 0 ≤ slot < len m ∧ cands ≠ [] end.

Lemma aggPush_ok a gs i : wfPlan → wfInput i → Forall wfRow (rowsIn i) → aggInv a gs → ∃ a', aggPush fe p dpk a i = Ok a' ∧ aggInv a' (foldl refStep gs (rowsIn i)).
Proof.
  intros Hp Hi Hw Ha. destruct i as [m|m slot cands]; cbn [rowsIn aggPush foldl] in *.
  - apply Forall_cons in Hw as [Hm _]. by apply update_ok.
  - destruct Hi as [Hs Hne]. rewrite Forall_fmap in Hw. by apply pushCandidates_ok.
Qed.
End inv.
