(* ===== verification/AggregateFold.v ===== *)
(** What the accumulators of a group compute.

    [aggregateOf] is each aggregate function as a function of the arguments it sees, in
    order; [cell_result] shows that folding the arguments into a fresh cell and
    finalizing it computes exactly that, and [distinct_fold] that a DISTINCT aggregate
    sees the first of every group of equal arguments. *)

From S2P Require Import Prelude Int128 Float64 FloatOps TemporalText GqlValue GqlOrder GqlKey GqlAgree TopK Projection ProjectionSpec Slab Aggregate AggregateInv.

Abbreviation arg := (bool * gvalue)%type.

Definition AsFloatOnly (v : gvalue) : option Z := match v with Float f => Some f | _ => None end.
Definition nonNull (vs : Datatypes.list gvalue) : Datatypes.list gvalue := filter (λ v, IsNull v = false) vs.
Definition numbers (vs : Datatypes.list gvalue) : Datatypes.list gvalue := filter (λ v, is_Some (asNum v)) vs.

Section results.
Context (fe : FloatEnv).

(** An exact integer total as a float. *)
Definition totalF (t : Z) : Z := if decide (is_i64 t) then ofInt t else mulAdd fe (ofUint (t `mod` 2 ^ 64)) (ofInt (t / 2 ^ 64)) two64F.
Definition sumOf (vs : Datatypes.list gvalue) : gvalue :=
  let ns := omap AsInt vs in
  let fs := omap AsFloatOnly vs in
  match fs with
  | [] => if decide (is_i64 (total ns)) then Int (total ns) else Null
  | _ => Float (fadd fe (foldl (fadd fe) 0 fs) (totalF (total ns)))
  end.
Definition avgOf (vs : Datatypes.list gvalue) : gvalue :=
  let ns := omap asNum vs in
  match ns with [] => Null | _ => Float (fdiv fe (foldl (fadd fe) 0 ns) (ofInt (len ns))) end.
(** Welford's recurrence: count, mean and sum of squared deviations. *)
Definition welfordStep (w : Z * Z * Z) (f : Z) : Z * Z * Z :=
  let '(n, mean, m2) := w in
  let d := fsub fe f mean in
  let mean := fadd fe mean (fdiv fe d (ofInt (n + 1))) in
  (n + 1, mean, mulAdd fe m2 d (fsub fe f mean)).
Definition welfordOf (vs : Datatypes.list gvalue) : Z * Z * Z := foldl welfordStep (0, 0, 0) (omap asNum vs).
Definition stddevOf (samp : bool) (vs : Datatypes.list gvalue) : gvalue :=
  let '(n, _, m2) := welfordOf vs in
  if decide (n < if samp then 2 else 1) then Float 0 else Float (fsqrt fe (fdiv fe m2 (ofInt (if samp then n - 1 else n)))).
Definition extremeOf (k : AggKind) (vs : Datatypes.list gvalue) : gvalue :=
  foldl (λ x v, if beats k v x then v else x) Null (nonNull vs).

Definition aggregateOf (k : AggKind) (pc : option gvalue) (args : Datatypes.list arg) : res gvalue :=
  let vs := args.*2 in
  match k with
  | AggCount => Ok (Int (len (filter (λ e : arg, e.1 = false ∨ IsNull e.2 = false) args)))
  | AggSum => Ok (sumOf vs)
  | AggAvg => Ok (avgOf vs)
  | AggMin | AggMax => Ok (extremeOf k vs)
  | AggCollect => Ok (List (nonNull vs))
  | AggStddevSamp => Ok (stddevOf true vs)
  | AggStddevPop => Ok (stddevOf false vs)
  | AggPercentileCont => percentileOf fe pc (numbers vs) true
  | AggPercentileDisc => percentileOf fe pc (numbers vs) false
  end.

(** What the terminal reads of a cell. *)
Definition cellValue (k : AggKind) (pc : option gvalue) (x : cell) : res gvalue :=
  match k with
  | AggMin | AggMax => Ok (c_mm x)
  | AggCollect => Ok (List (c_items x))
  | AggPercentileCont => percentileOf fe pc (c_items x) true
  | AggPercentileDisc => percentileOf fe pc (c_items x) false
  | AggCount => Ok (Int (acount (c_state x)))
  | AggSum => Ok (sumValue fe (c_num x))
  | AggAvg => Ok (avgValue fe (c_num x))
  | AggStddevSamp => Ok (sampValue fe (c_num x))
  | AggStddevPop => Ok (popValue fe (c_num x))
  end.

Definition accumulated (k : AggKind) (args : Datatypes.list arg) (x : cell) : cell := foldl (λ x e, accumulate fe k e.1 e.2 x) x args.

Lemma accumulated_snoc k args e x : accumulated k (args ++ [e]) x = accumulate fe k e.1 e.2 (accumulated k args x).
Proof. unfold accumulated. by rewrite foldl_app. Qed.

Section kinds.
Context (c : AggCol).
Abbreviation after k args := (accumulated k args (newCell c)).

Lemma count_after args : len args < 2 ^ 63 → acount (c_state (after AggCount args)) = len (filter (λ e : arg, e.1 = false ∨ IsNull e.2 = false) args).
Proof.
  induction args as [|e args IH] using rev_ind; [done|]. rewrite len_app. change (len [e]) with 1. intros L. rewrite accumulated_snoc, filter_app, len_app. cbn [accumulate].
  assert (len (filter (λ e : arg, e.1 = false ∨ IsNull e.2 = false) args) ≤ len args) as Lf by (unfold len; apply inj_le, length_filter).
  pose proof (len_nonneg (filter (λ e : arg, e.1 = false ∨ IsNull e.2 = false) args)). specialize (IH ltac:(lia)).
  destruct (negb e.1 || negb (IsNull e.2)) eqn:E; cbn [c_state acount].
  - rewrite IH, filter_cons_True, filter_nil; [|apply orb_true_iff in E as [E|E]; apply negb_true_iff in E; auto]. rewrite wrapS_small; [done|lia|]. change (2 ^ (64 - 1)) with (2 ^ 63). change (len [e]) with 1. lia.
  - rewrite IH, filter_cons_False, filter_nil; [by rewrite len_nil, Z.add_0_r|]. apply orb_false_iff in E as [E1 E2]. apply negb_false_iff in E1, E2. rewrite E1, E2. naive_solver.
Qed.

Lemma items_collect args : c_items (after AggCollect args) = nonNull args.*2.
Proof.
  induction args as [|e args IH] using rev_ind; [done|]. rewrite accumulated_snoc, fmap_app. unfold nonNull. rewrite filter_app. cbn [accumulate].
  destruct (IsNull e.2) eqn:E; cbn [with_items c_items fmap list_fmap]; rewrite IH.
  - by rewrite filter_cons_False, filter_nil, app_nil_r by congruence.
  - by rewrite filter_cons_True, filter_nil by done.
Qed.

Lemma items_numbers k args : k = AggPercentileCont ∨ k = AggPercentileDisc → c_items (after k args) = numbers args.*2.
Proof.
  intros Hk. induction args as [|e args IH] using rev_ind; [done|]. rewrite accumulated_snoc, fmap_app. unfold numbers. rewrite filter_app. fold (numbers args.*2). rewrite <- IH.
  assert (c_items (accumulate fe k e.1 e.2 (after k args)) = match asNum e.2 with Some _ => c_items (after k args) ++ [e.2] | None => c_items (after k args) end) as ->.
  { destruct Hk as [-> | ->]; cbn [accumulate]; by destruct (asNum e.2). }
  cbn [fmap list_fmap]. destruct (asNum e.2) eqn:E.
  - by rewrite filter_cons_True, filter_nil by (by rewrite E).
  - rewrite filter_cons_False, filter_nil, app_nil_r; [done|]. rewrite E. by intros [].
Qed.

Lemma extreme_after k args : k = AggMin ∨ k = AggMax → c_mm (after k args) = extremeOf k args.*2.
Proof.
  intros Hk. induction args as [|e args IH] using rev_ind; [done|]. rewrite accumulated_snoc, fmap_app. unfold extremeOf, nonNull. rewrite filter_app, foldl_app. fold (nonNull args.*2). fold (extremeOf k args.*2). rewrite <- IH.
  assert (c_mm (accumulate fe k e.1 e.2 (after k args)) = if IsNull e.2 then c_mm (after k args) else if beats k e.2 (c_mm (after k args)) then e.2 else c_mm (after k args)) as ->.
  { destruct Hk as [-> | ->]; cbn [accumulate]; destruct (IsNull e.2); [done| |done|]; by destruct (beats _ _ _). }
  cbn [fmap list_fmap]. destruct (IsNull e.2) eqn:E.
  - by rewrite filter_cons_False, filter_nil by congruence.
  - by rewrite filter_cons_True, filter_nil by done.
Qed.

Lemma omap_snoc {A B} (f : A → option B) l x : omap f (l ++ [x]) = omap f l ++ match f x with Some y => [y] | None => [] end.
Proof. rewrite omap_app. cbn. by destruct (f x). Qed.

Lemma omap_length {A B} (f : A → option B) l : (length (omap f l) ≤ length l)%nat.
Proof. induction l as [|x l IH]; cbn; [done|]. destruct (f x); cbn; lia. Qed.

(** The number accumulator of a sum. *)
Record sumHolds (n : numAcc) (vs : Datatypes.list gvalue) : Prop := {
  sh_int : holds (sumI n) (total (omap AsInt vs));
  sh_float : sumF n = foldl (fadd fe) 0 (omap AsFloatOnly vs);
  sh_isFloat : isFloat n = negb (bool_decide (omap AsFloatOnly vs = []));
  sh_any : any n = negb (bool_decide (omap AsInt vs = [])) || negb (bool_decide (omap AsFloatOnly vs = []));
}.

Lemma bool_snoc {A} (l : Datatypes.list A) x : bool_decide (l ++ [x] = []) = false.
Proof. apply bool_decide_false. by destruct l. Qed.

Lemma sum_after args : Forall (λ v, wfValue v = true) args.*2 → sumHolds (c_num (after AggSum args)) args.*2.
Proof.
  induction args as [|e args IH] using rev_ind; intros Hw.
  { split; [apply holds_zero|done..]. }
  rewrite fmap_app in Hw. apply Forall_app in Hw as [Hw [We _]%Forall_cons]. destruct (IH Hw) as [H1 H2 H3 H4]. rewrite accumulated_snoc. cbn [accumulate]. unfold with_num. cbn [c_num].
  rewrite fmap_app. cbn [fmap list_fmap]. destruct e as [b v]. cbn [fst snd] in *. destruct v; cbn [sumAdd]; split; rewrite ?omap_snoc; cbn [AsInt AsFloatOnly sumI sumF isFloat any]; rewrite ?app_nil_r, ?bool_snoc; try done.
  - rewrite total_app. replace (total [i]) with i by (unfold total; simpl; lia). apply add_holds; [done|]. cbn in We. by apply bool_decide_eq_true in We.
  - by rewrite foldl_app, H2.
  - by rewrite orb_true_r.
Qed.

Lemma ints_wf vs : Forall (λ v, wfValue v = true) vs → Forall (λ v, is_i64 v) (omap AsInt vs).
Proof. induction 1 as [|v vs Wv _ IH]; [constructor|]. cbn. destruct v; cbn; try done. constructor; [|done]. cbn in Wv. by apply bool_decide_eq_true in Wv. Qed.

Lemma wide_words a z : holds a z → - 2 ^ 127 ≤ z < 2 ^ 127 → lo a = z `mod` 2 ^ 64 ∧ to_i64 (hi a) = z / 2 ^ 64.
Proof.
  intros [[Hl Hh] Hb] Hz. unfold bits128, wrapU in Hb. change (2 ^ 127) with 170141183460469231731687303715884105728 in *. change (2 ^ 128) with 340282366920938463463374607431768211456 in *.
  change (2 ^ 64) with 18446744073709551616 in *. unfold wrapS. change (2 ^ 64) with 18446744073709551616. change (2 ^ (64 - 1)) with 9223372036854775808. dlia.
Qed.

Lemma acc128_float64_ok a z : holds a z → - 2 ^ 127 ≤ z < 2 ^ 127 → acc128_float64 fe a = totalF z.
Proof.
  intros Ha Hz. unfold acc128_float64, totalF. rewrite (int64_holds a z Ha Hz). case_bool_decide as D.
  - rewrite decide_True by done. by rewrite wrapS_small by lia.
  - rewrite decide_False by done. destruct (wide_words a z Ha Hz) as [-> ->]. done.
Qed.

Lemma sumValue_ok n vs : Forall (λ v, wfValue v = true) vs → len vs < 2 ^ 63 → sumHolds n vs → sumValue fe n = sumOf vs.
Proof.
  intros Hw L [H1 H2 H3 H4]. pose proof (total_bound _ (ints_wf vs Hw)) as Hb. assert (len (omap AsInt vs) < 2 ^ 63) as Li by (pose proof (omap_length AsInt vs); unfold len in *; lia).
  pose proof (len_nonneg (omap AsInt vs)). assert (- 2 ^ 127 ≤ total (omap AsInt vs) < 2 ^ 127) as Ht by (change (2 ^ 127) with (9223372036854775808 * 2 ^ 64); lia).
  unfold sumValue, sumOf. rewrite H4, H3, H2. clear H2 H3 H4. destruct (omap AsFloatOnly vs) as [|f fs].
  - destruct (omap AsInt vs) as [|i ns]; [done|]. rewrite (bool_decide_false (i :: ns = [])) by done. rewrite (bool_decide_true ([] = [])) by done. cbn [negb orb].
    rewrite (int64_holds _ _ H1 Ht). case_bool_decide as D; [rewrite decide_True by done; by rewrite wrapS_small by lia|by rewrite decide_False].
  - rewrite (bool_decide_false (f :: fs = [])) by done. cbn [negb]. rewrite orb_true_r. cbn [negb]. by rewrite (acc128_float64_ok _ _ H1 Ht).
Qed.

Lemma avg_after args : len args < 2 ^ 63 → avgSum (c_num (after AggAvg args)) = foldl (fadd fe) 0 (omap asNum args.*2) ∧ avgN (c_num (after AggAvg args)) = len (omap asNum args.*2).
Proof.
  induction args as [|e args IH] using rev_ind; [done|]. rewrite len_app. change (len [e]) with 1. intros L. destruct IH as [H1 H2]; [lia|].
  rewrite accumulated_snoc, fmap_app. cbn [accumulate fmap list_fmap with_num c_num]. rewrite omap_snoc. unfold avgAdd. destruct (asNum e.2) as [f|]; [|by rewrite app_nil_r].
  cbn [avgSum avgN]. rewrite foldl_app, len_app, H1, H2. split; [done|]. rewrite wrapS_small; [done|lia|].
  pose proof (omap_length asNum args.*2) as Lo. rewrite length_fmap in Lo. unfold len in *. lia.
Qed.

Lemma sd_after k args : k = AggStddevSamp ∨ k = AggStddevPop → len args < 2 ^ 63 →
  (avgN (c_num (after k args)), sdMean (c_num (after k args)), sdM2 (c_num (after k args))) = welfordOf args.*2 ∧ avgN (c_num (after k args)) = len (omap asNum args.*2).
Proof.
  intros Hk. induction args as [|e args IH] using rev_ind; [done|]. rewrite len_app. change (len [e]) with 1. intros L. destruct IH as [H1 H2]; [lia|].
  rewrite accumulated_snoc, fmap_app. assert (accumulate fe k e.1 e.2 (after k args) = with_num (welford fe (c_num (after k args)) e.2) (after k args)) as -> by (by destruct Hk as [-> | ->]).
  cbn [fmap list_fmap with_num c_num]. unfold welfordOf. rewrite omap_snoc. unfold welford. fold (welfordOf args.*2) in *. destruct (asNum e.2) as [f|].
  - rewrite foldl_app. fold (welfordOf args.*2). rewrite <- H1. cbn. rewrite len_app. change (len [f]) with 1.
    assert (to_i64 (avgN (c_num (after k args)) + 1) = avgN (c_num (after k args)) + 1) as ->; [|by rewrite H2].
    rewrite wrapS_small; [done|lia|]. pose proof (omap_length asNum args.*2) as Lo. rewrite length_fmap in Lo. unfold len in *. lia.
  - rewrite app_nil_r. by rewrite H1.
Qed.

(** The arguments a cell has seen determine the value it gives. *)
Lemma cell_result k pc args : Forall (λ v, wfValue v = true) args.*2 → len args < 2 ^ 63 → cellValue k pc (after k args) = aggregateOf k pc args.
Proof.
  intros Hw L. destruct k; cbn [cellValue aggregateOf].
  - by rewrite count_after.
  - f_equal. apply sumValue_ok; [done|by rewrite len_fmap|by apply sum_after].
  - f_equal. destruct (avg_after args L) as [H1 H2]. unfold avgValue, avgOf. rewrite H1, H2. destruct (omap asNum args.*2); [done|].
    rewrite decide_False; [done|]. rewrite len_cons. pose proof (len_nonneg l). lia.
  - f_equal. apply extreme_after. by left.
  - f_equal. apply extreme_after. by right.
  - by rewrite items_collect.
  - f_equal. destruct (sd_after AggStddevSamp args) as [H1 H2]; [by left|done|]. unfold sampValue, stddevOf. rewrite <- H1. case_decide; [done|]. do 4 f_equal.
    rewrite wrapS_small; [done|lia|]. rewrite H2 in *. pose proof (omap_length asNum args.*2) as Lo. rewrite length_fmap in Lo. unfold len in *. lia.
  - f_equal. destruct (sd_after AggStddevPop args) as [H1 H2]; [by right|done|]. unfold popValue, stddevOf. rewrite <- H1. pose proof (len_nonneg (omap asNum args.*2)).
    destruct (decide (avgN _ = 0)); [by rewrite decide_True by lia|by rewrite decide_False by lia].
  - by rewrite items_numbers by (by left).
  - by rewrite items_numbers by (by right).
Qed.
End kinds.

(** ** DISTINCT *)

(** The arguments a DISTINCT aggregate sees: absent and null ones, and the first of
    every group of equal ones. *)
Fixpoint distinctArgs (seenL : Datatypes.list (Datatypes.list gostring)) (args : Datatypes.list arg) : Datatypes.list arg :=
  match args with
  | [] => []
  | (present, v) :: args =>
      if present && negb (IsNull v) then (if decide ([Key v] ∈ seenL) then [] else [(present, v)]) ++ distinctArgs ([Key v] :: seenL) args
      else (present, v) :: distinctArgs seenL args
  end.
Definition seenArgs (distinct : bool) (args : Datatypes.list arg) : Datatypes.list arg := if distinct then distinctArgs [] args else args.

Lemma accumulate_seen k b v d x : accumulate fe k b v (with_seen d x) = with_seen d (accumulate fe k b v x).
Proof. destruct k; cbn; repeat case_match; done. Qed.
Lemma accumulated_seen k args d : ∀ x, accumulated k args (with_seen d x) = with_seen d (accumulated k args x).
Proof. unfold accumulated. induction args as [|e args IH]; intros x; cbn; [done|]. by rewrite accumulate_seen, IH. Qed.

Lemma distinct_fold c args : CDistinct c = true → Forall (λ v, wfValue v = true) args.*2 → ∀ seenL x, distinctRep (c_seen x) seenL →
  ∃ d, foldl (λ x e, stepCell fe c e x) x args = with_seen d (accumulated (Kind c) (distinctArgs seenL args) x).
Proof.
  intros Hd. induction args as [|[b v] args IH]; intros Hw seenL x Hx.
  { exists (c_seen x). by destruct x. }
  cbn [fmap list_fmap] in Hw. apply Forall_cons in Hw as [Wv Hw]. cbn [foldl distinctArgs stepCell]. rewrite Hd. cbn [andb]. destruct (b && negb (IsNull v)).
  - pose proof (distinctAdd_spec v (c_seen x) seenL Wv Hx) as Ha. destruct (distinctAdd v (c_seen x)) as [fresh d]. destruct Ha as [-> Hd']. case_bool_decide as D.
    + rewrite decide_False by done. destruct (IH Hw ([Key v] :: seenL) (accumulate fe (Kind c) b v (with_seen d x))) as (d' & ->); [by rewrite accumulate_seen|].
      exists d'. rewrite accumulate_seen, accumulated_seen. done.
    + rewrite decide_True by (destruct (decide ([Key v] ∈ seenL)); tauto). destruct (IH Hw ([Key v] :: seenL) (with_seen d x)) as (d' & ->); [done|]. exists d'. by rewrite accumulated_seen.
  - destruct (IH Hw seenL (accumulate fe (Kind c) b v x)) as (d' & ->); [|by exists d'].
    assert (c_seen (accumulate fe (Kind c) b v x) = c_seen x) as ->; [|done]. destruct (Kind c); cbn; repeat case_match; done.
Qed.

Lemma plain_fold c args : CDistinct c = false → ∀ x, foldl (λ x e, stepCell fe c e x) x args = accumulated (Kind c) args x.
Proof. intros Hd. unfold accumulated. induction args as [|[b v] args IH]; intros x; cbn; [done|]. rewrite Hd. cbn. by rewrite IH. Qed.

Lemma distinctArgs_sub args : ∀ seenL, sublist (distinctArgs seenL args) args.
Proof.
  induction args as [|[b v] args IH]; intros seenL; cbn; [done|]. destruct (b && negb (IsNull v)); [|by apply sublist_skip]. case_decide; cbn; [by apply sublist_cons|by apply sublist_skip].
Qed.

(** The value of an aggregate over the arguments of a group. *)
Lemma cell_value c pc args : Forall (λ v, wfValue v = true) args.*2 → len args < 2 ^ 63 →
  cellValue (Kind c) pc (foldl (λ x e, stepCell fe c e x) (newCell c) args) = aggregateOf (Kind c) pc (seenArgs (CDistinct c) args).
Proof.
  intros Hw L. unfold seenArgs. destruct (CDistinct c) eqn:Hd; [|by rewrite plain_fold, cell_result].
  pose proof (distinctArgs_sub args []) as Hs.
  assert (distinctRep (c_seen (newCell c)) []) as H0.
  { split; [done|]. intros v _. split; [|by intros ?%not_elem_of_nil]. destruct v; cbn; unfold entityIn; cbn; set_solver. }
  destruct (distinct_fold c args Hd Hw [] (newCell c) H0) as (d & ->).
  assert (∀ x, cellValue (Kind c) pc (with_seen d x) = cellValue (Kind c) pc x) as -> by (intros x; by destruct (Kind c)).
  apply cell_result.
  - eapply Forall_forall. intros v (e & -> & He)%list_elem_of_fmap. rewrite Forall_forall in Hw. apply Hw, list_elem_of_fmap. exists e. split; [done|]. by eapply elem_of_sublist.
  - apply sublist_length in Hs. unfold len in *. lia.
Qed.
End results.

(** ** Extremes *)

(** Over numbers that are not NaN, min and max are a least and a greatest argument. *)
Lemma extreme_numbers k vs : k = AggMin ∨ k = AggMax → vs ≠ [] → Forall (λ v, ∃ x, asNum v = Some x ∧ isNaN x = false) vs →
  extremeOf k vs ∈ vs ∧ Forall (λ v, if decide (k = AggMin) then fval (numOf (extremeOf k vs)) ≤ fval (numOf v) else fval (numOf v) ≤ fval (numOf (extremeOf k vs))) vs.
Proof.
  intros Hk. induction vs as [|v vs IH] using rev_ind; [done|]. intros _ [Hvs [(x & Ex & Nx) _]%Forall_cons]%Forall_app.
  assert (IsNull v = false) as Hnull by (by destruct v). unfold extremeOf, nonNull. rewrite filter_app, foldl_app, (filter_cons_True _ v), filter_nil by done. fold (nonNull vs). fold (extremeOf k vs). cbn [foldl].
  destruct (decide (vs = [])) as [->|Hne]; [cbn; split; [by left|]; constructor; [case_decide; lia|constructor]|]. destruct (IH Hne Hvs) as [Hin Hb]. set (r := extremeOf k vs) in *.
  rewrite Forall_forall in Hvs. destruct (Hvs r Hin) as (y & Ey & Ny).
  assert (beats k v r = if decide (k = AggMin) then bool_decide (fval x < fval y) else bool_decide (fval y < fval x)) as ->.
  { unfold beats. assert (Compare v r = Some (cmpInt (fval x) (fval y))) as E by (by rewrite (Compare_nums v r x y), compareNums_eq). rewrite E. destruct r; try done.
    all: unfold cmpInt; destruct Hk as [-> | ->]; cbn; repeat case_decide; repeat case_bool_decide; cbn; try done; lia. }
  assert (numOf v = x) as Nv by (unfold numOf; by rewrite Ex). assert (numOf r = y) as Nr by (unfold numOf; by rewrite Ey). rewrite Nr in Hb.
  destruct (decide (k = AggMin)) as [Dk|Dk]; case_bool_decide as D; (split; [rewrite elem_of_app, ?list_elem_of_singleton; auto|]); apply Forall_app; split; rewrite ?Nv, ?Nr;
    try (eapply Forall_impl; [exact Hb|]; intros w; cbn; lia); repeat constructor; rewrite Nv; lia.
Qed.
