(* ===== verification/AggregateSpec.v ===== *)
(** The aggregator computes GROUP BY.

    The reference: the groups are the distinct key tuples in order of first sight, a
    group's members are the rows with its key, each aggregate is [aggregateOf] of its
    members' arguments, and the rows so assembled are sorted and paginated. The theorem
    is that the aggregator returns those rows whatever its packed keys, slabs, demotion
    and bounded heap do on the way. *)

From S2P Require Import Prelude Int128 Float64 FloatOps TemporalText GqlValue GqlOrder GqlKey GqlAgree TopK TopKSpec Projection ProjectionSpec Slab Aggregate AggregateInv AggregateFold.

(** ** Grouping a list *)

Section grouping.
Context {R K : Type} `{EqDecision K} (key : R → K).

(** The first element of every group. *)
Definition firstsBy (rs : Datatypes.list R) : Datatypes.list R := foldl (λ acc m, if decide (key m ∈ key <$> acc) then acc else acc ++ [m]) [] rs.
Definition membersBy (rs : Datatypes.list R) (m : R) : Datatypes.list R := filter (λ r, key r = key m) rs.

Lemma firstsBy_snoc rs m : firstsBy (rs ++ [m]) = if decide (key m ∈ key <$> firstsBy rs) then firstsBy rs else firstsBy rs ++ [m].
Proof. unfold firstsBy. by rewrite foldl_app. Qed.
Lemma membersBy_snoc rs m x : membersBy (rs ++ [m]) x = membersBy rs x ++ (if decide (key m = key x) then [m] else []).
Proof. unfold membersBy. by rewrite filter_app. Qed.

Lemma firstsBy_keys rs x : x ∈ key <$> firstsBy rs ↔ x ∈ key <$> rs.
Proof.
  induction rs as [|m rs IH] using rev_ind; [done|]. rewrite firstsBy_snoc, fmap_app, elem_of_app, <- IH. cbn. rewrite list_elem_of_singleton. case_decide as D.
  - split; [by left|]. intros [?| ->]; done.
  - rewrite fmap_app, elem_of_app. cbn. by rewrite list_elem_of_singleton.
Qed.
Lemma firstsBy_sub rs m : m ∈ firstsBy rs → m ∈ rs.
Proof.
  induction rs as [|r rs IH] using rev_ind; [done|]. rewrite firstsBy_snoc, elem_of_app. case_decide; [by left; apply IH|]. rewrite elem_of_app. naive_solver.
Qed.
Lemma firstsBy_nodup rs : NoDup (key <$> firstsBy rs).
Proof.
  induction rs as [|m rs IH] using rev_ind; [constructor|]. rewrite firstsBy_snoc. case_decide as D; [done|]. rewrite fmap_app. apply NoDup_app. split; [done|]. split; [|apply NoDup_singleton].
  intros x Hx ->%list_elem_of_singleton. done.
Qed.
Lemma membersBy_none rs m : key m ∉ key <$> rs → membersBy rs m = [].
Proof.
  intros Hn. unfold membersBy. induction rs as [|r rs IH]; [done|]. rewrite fmap_cons, not_elem_of_cons in Hn. destruct Hn as [Hr Hn]. rewrite filter_cons_False by congruence. by apply IH.
Qed.
End grouping.

(** Two keys that tell the same elements apart group alike. *)
Lemma groupBy_ext {R K L} `{EqDecision K, EqDecision L} (f : R → K) (g : R → L) rs : (∀ x y, x ∈ rs → y ∈ rs → f x = f y ↔ g x = g y) →
  firstsBy f rs = firstsBy g rs ∧ ∀ m, m ∈ rs → membersBy f rs m = membersBy g rs m.
Proof.
  intros H. split.
  - induction rs as [|m rs IH] using rev_ind; [done|]. rewrite !firstsBy_snoc, IH; [|intros; apply H; apply elem_of_app; by left].
    assert (f m ∈ f <$> firstsBy g rs ↔ g m ∈ g <$> firstsBy g rs) as E.
    { rewrite !list_elem_of_fmap. split; intros (x & Ex & Hx); exists x; (split; [|done]); pose proof (firstsBy_sub g rs x Hx) as Hr; apply H; try done; rewrite elem_of_app, ?list_elem_of_singleton; auto. }
    destruct (decide (f m ∈ f <$> firstsBy g rs)), (decide (g m ∈ g <$> firstsBy g rs)); tauto.
  - intros m Hm. unfold membersBy. assert (∀ l : Datatypes.list R, (∀ x, x ∈ l → f x = f m ↔ g x = g m) → filter (λ r, f r = f m) l = filter (λ r, g r = g m) l) as Hf; [|apply Hf; auto].
    induction l as [|x l IH]; intros Hl; [done|]. rewrite !filter_cons, IH by (intros; apply Hl; by right). assert (f x = f m ↔ g x = g m) by (apply Hl; by left). destruct (decide (f x = f m)), (decide (g x = g m)); tauto.
Qed.

(** ** Placing values in a row *)

Definition placeAll (ps : Datatypes.list (Z * gvalue)) (r : row) : row := foldl (λ r e, <[Z.to_nat e.1 := e.2]> r) r ps.

Lemma placeAll_length ps : ∀ r, length (placeAll ps r) = length r.
Proof. unfold placeAll. induction ps as [|e ps IH]; intros r; cbn; [done|]. by rewrite IH, length_insert. Qed.

Lemma foldM_place {E} (val : E → res gvalue) (pos : E → Z) l : ∀ r, Forall (λ e, 0 ≤ pos e < len r) l →
  foldM (λ r e, v ← val e; upd r (pos e) v) l r = vals ← mapM val l; Ok (placeAll (zip (pos <$> l) vals) r).
Proof.
  induction l as [|e l IH]; intros r; [done|]. intros [He Hl]%Forall_cons. cbn [mapM foldM]. destruct (val e) as [v| |]; cbn [mbind res_bind]; [|done..].
  assert (upd r (pos e) v = Ok (<[Z.to_nat (pos e) := v]> r)) as -> by (unfold upd; by rewrite decide_True by done). cbn [mbind res_bind]. rewrite IH.
  - by destruct (mapM val l).
  - eapply Forall_impl; [exact Hl|]. intros x. cbv beta. by rewrite len_insert.
Qed.

(** Mapping over the positions of a list, and a fold that fails where the map does. *)
Lemma mapM_positions {A B} (f : Z → res B) (g : A → res B) l : (∀ i x, l !! i = Some x → f (Z.of_nat i) = g x) → mapM f (zseq (len l)) = mapM g l.
Proof.
  rewrite zseq_seqZ. assert (∀ k, (∀ i x, l !! i = Some x → f (k + Z.of_nat i) = g x) → mapM f (seqZ k (len l)) = mapM g l) as H; [|intros Hf; apply H; intros i x; rewrite Z.add_0_l; apply Hf].
  induction l as [|x l IH]; intros k Hf; [done|]. rewrite len_cons, seqZ_cons by (pose proof (len_nonneg l); lia). cbn [mapM]. rewrite <- (Hf 0%nat x eq_refl), Z.add_0_r. destruct (f k); cbn [mbind res_bind]; [|done..].
  replace (Z.pred (len l + 1)) with (len l) by lia. rewrite (IH (Z.succ k)); [done|]. intros i y Hy. rewrite <- (Hf (S i) y Hy). f_equal. lia.
Qed.

Lemma foldM_fails {A B C} (I : C → Prop) (f : C → A → res C) (h : A → res B) l : (∀ x t, x ∈ l → I t → match h x with Ok _ => ∃ t', f t x = Ok t' ∧ I t' | Err e => f t x = Err e | Panic => f t x = Panic end) →
  ∀ t, I t → match mapM h l with Ok _ => True | Err e => foldM f l t = Err e | Panic => foldM f l t = Panic end.
Proof.
  induction l as [|x l IH]; intros Hf t Ht; [done|]. cbn [mapM foldM]. pose proof (Hf x t ltac:(by left) Ht) as Hx. destruct (h x) as [y| |]; cbn [mbind res_bind]; [|by rewrite Hx..].
  destruct Hx as (t' & -> & Ht'). cbn [mbind res_bind]. specialize (IH (λ x t Hx, Hf x t ltac:(by right)) t' Ht'). by destruct (mapM h l).
Qed.

Section spec.
Context (fe : FloatEnv) (p : AggPlan) (dpk : bool).

(** ** The reference groups *)

Abbreviation idAt := (λ m, groupId (keysAt p m)).
Definition cellsOf (ms : Datatypes.list row) : Datatypes.list cell := foldl (λ cs m, foldRow fe p m cs) (newCell <$> Aggs p) ms.
Definition refGroups (rs : Datatypes.list row) : Datatypes.list group := (λ m, mkGroup (keysAt p m) (cellsOf (membersBy idAt rs m))) <$> firstsBy idAt rs.

Lemma refGroups_ids rs : idsOf (refGroups rs) = idAt <$> firstsBy idAt rs.
Proof. unfold idsOf, refGroups. by rewrite <- list_fmap_compose. Qed.

Lemma cellsOf_snoc ms m : cellsOf (ms ++ [m]) = foldRow fe p m (cellsOf ms).
Proof. unfold cellsOf. by rewrite foldl_app. Qed.

Lemma groups_after rs : foldl (refStep fe p) [] rs = refGroups rs.
Proof.
  induction rs as [|m rs IH] using rev_ind; [done|]. rewrite foldl_app. cbn [foldl]. rewrite IH. unfold refStep. pose proof (firstsBy_nodup idAt rs) as Hnd.
  destruct (decide (idAt m ∈ idAt <$> firstsBy idAt rs)) as [D|D].
  - apply list_elem_of_lookup in D as D'. destruct D' as (i & Hi). rewrite (refRoute_found p (refGroups rs) (keysAt p m) i) by (by rewrite refGroups_ids).
    unfold refGroups. rewrite firstsBy_snoc, decide_True by done. apply list_eq. intros j. rewrite list_lookup_fmap in Hi. apply fmap_Some in Hi as (m0 & Hm0 & E0).
    destruct (decide (j = i)) as [->|Hj].
    + rewrite list_lookup_alter_eq, !list_lookup_fmap, Hm0. cbn. do 2 f_equal. by rewrite membersBy_snoc, decide_True, cellsOf_snoc by done.
    + rewrite list_lookup_alter_ne, !list_lookup_fmap by done. destruct (firstsBy idAt rs !! j) as [mj|] eqn:Ej; [|done]. cbn. do 2 f_equal.
      rewrite membersBy_snoc, decide_False, app_nil_r; [done|]. intros E. apply Hj. apply (NoDup_lookup (idAt <$> firstsBy idAt rs) j i (idAt m)); [done|by rewrite list_lookup_fmap, Ej; cbn; rewrite E|by rewrite list_lookup_fmap, Hm0; cbn; rewrite E0].
  - rewrite refRoute_new by (by rewrite refGroups_ids). unfold refGroups at 3. rewrite firstsBy_snoc, decide_False, fmap_app by done.
    assert (alter (λ g, mkGroup (g_keys g) (foldRow fe p m (g_cells g))) (length (refGroups rs)) (refGroups rs ++ [newGroup p (keysAt p m)]) =
      refGroups rs ++ [mkGroup (keysAt p m) (foldRow fe p m (newCell <$> Aggs p))]) as ->.
    { rewrite alter_app_r_alt, Nat.sub_diag by lia. done. }
    assert (idAt m ∉ idAt <$> rs) as Dr by (by rewrite <- (firstsBy_keys idAt rs)). f_equal.
    + apply list_fmap_ext. intros j mj Hj. f_equal. rewrite membersBy_snoc, decide_False, app_nil_r; [done|]. intros E. apply D. cbn in E |- *. rewrite E. apply list_elem_of_fmap. exists mj. split; [done|]. by eapply list_elem_of_lookup_2.
    + cbn. do 2 f_equal. rewrite membersBy_snoc, decide_True, membersBy_none by done. done.
Qed.

Lemma aggregate_groups ins : wfPlan p → Forall wfInput ins → Forall (wfRow p) (concat (rowsIn <$> ins)) →
  ∃ a, foldM (aggPush fe p dpk) ins emptyAggregator = Ok a ∧ aggInv p dpk a (refGroups (concat (rowsIn <$> ins))).
Proof.
  intros Hp Hi Hr. rewrite <- groups_after. induction ins as [|i ins IH] using rev_ind; [exists emptyAggregator; split; [done|apply aggInv_new]|].
  rewrite fmap_app, concat_app in Hr |- *. apply Forall_app in Hr as [Hr Hm]. apply Forall_app in Hi as [Hi [H1 _]%Forall_cons]. destruct (IH Hi Hr) as (a & E & Ha). cbn [fmap list_fmap concat] in *. rewrite app_nil_r in *.
  destruct (aggPush_ok fe p dpk a _ i Hp H1 Hm Ha) as (a' & E' & Ha'). exists a'. rewrite foldM_app, E, foldl_app. cbn [mbind res_bind foldM]. by rewrite E'.
Qed.

(** The cell of aggregate [j] has seen the members' arguments. *)
Lemma cellsOf_at ms j c : Aggs p !! j = Some c → cellsOf ms !! j = Some (foldl (λ x e, stepCell fe c e x) (newCell c) ((λ m, argAt p m j) <$> ms)).
Proof.
  intros Hc. induction ms as [|m ms IH] using rev_ind; [unfold cellsOf; cbn; by rewrite list_lookup_fmap, Hc|].
  rewrite cellsOf_snoc, fmap_app, foldl_app. unfold foldRow. rewrite list_lookup_imap. rewrite (proj2 (lookup_zip_with_Some pair (Aggs p) (cellsOf ms) j (c, _))) by (eexists _, _; done). done.
Qed.

(** ** Output rows *)

Definition pctAt (j : nat) : option gvalue := default None (pctC p !! j).
Definition width : Z := nCols p + NHidden p.
(** Positions of the output row. *)
Record wfLayout : Prop := {
  wl_cols : 0 ≤ nCols p ∧ 0 ≤ NHidden p;
  wl_keys : length (GroupIdx p) = length (groupC p) ∧ Forall (λ i, 0 ≤ i < width) (GroupIdx p);
  wl_aggs : Forall (λ c, 0 ≤ OutIdx c < width) (Aggs p);
  wl_post : Forall (λ e, 0 ≤ e.1 < width) (Post p);
}.

(** Keys and aggregates in their columns, the wrappers over them, the visible prefix. *)
Definition assemble (keys vals : row) : row :=
  let r := placeAll (zip (OutIdx <$> Aggs p) vals) (placeAll (zip (GroupIdx p) keys) (emptyRow p)) in
  take (Z.to_nat (nCols p)) (foldl (λ r e, <[Z.to_nat e.1 := e.2 r]> r) r (Post p)).

Lemma emptyRow_len : wfLayout → len (emptyRow p) = width.
Proof. intros [[? ?] _ _ _]. unfold emptyRow. rewrite len_replicate. unfold width. lia. Qed.

Lemma post_place l : ∀ r, Forall (λ e : Z * RowEval, 0 ≤ e.1 < len r) l → foldM (λ r e, upd r e.1 (e.2 r)) l r = Ok (foldl (λ r e, <[Z.to_nat e.1 := e.2 r]> r) r l) ∧
  len (foldl (λ r e, <[Z.to_nat e.1 := e.2 r]> r) r l) = len r.
Proof.
  induction l as [|e l IH]; intros r; [done|]. intros [He Hl]%Forall_cons. cbn [foldM foldl]. assert (upd r e.1 (e.2 r) = Ok (<[Z.to_nat e.1 := e.2 r]> r)) as -> by (unfold upd; by rewrite decide_True by done). cbn [mbind res_bind].
  destruct (IH (<[Z.to_nat e.1 := e.2 r]> r)) as [E L]; [by rewrite len_insert|]. rewrite E, L, len_insert. done.
Qed.

(** The values of a group's cells. *)
Definition valuesOf (cells : Datatypes.list cell) : res row :=
  mapM (λ e, match cells !! Z.to_nat e.1 with Some x => cellValue fe (Kind e.2) (pctAt (Z.to_nat e.1)) x | None => Panic end) (enum (Aggs p)).

Lemma numAt_cell cells j x c : cells !! j = Some x → Aggs p !! j = Some c → isNumKind (Kind c) = true → numAt p (wnum (windowsAt p cells)) (Z.of_nat j) = Ok (Some (c_num x)).
Proof.
  intros Hx Hc Hk. destruct (list_elem_of_split_length _ _ _ Hc) as (a1 & a2 & Ea & _). destruct (list_elem_of_split_length _ _ _ Hx) as (l1 & l2 & -> & ->).
  unfold numAt. assert (hasNumAcc p = true) as Hn by (by apply (has_kind p isNumKind a1 c a2)). rewrite Hn. change (Z.of_nat (length l1)) with (len l1).
  assert (idx (wnum (windowsAt p (l1 ++ x :: l2))) (len l1) = Ok (c_num x)) as -> by (by apply (idx_if c_num)). done.
Qed.

Lemma aggValue_cell cells j x c : wfPlan p → kindsOf p cells → cells !! j = Some x → Aggs p !! j = Some c →
  aggValue fe p (windowsAt p cells) c (Z.of_nat j) = cellValue fe (Kind c) (pctAt j) x.
Proof.
  intros Hp Hk Hx Hc. assert (akind (c_state x) = Kind c) as Ek.
  { apply (f_equal (λ l, l !! j)) in Hk. rewrite !list_lookup_fmap, Hx, Hc in Hk. by injection Hk. }
  destruct (lookup_lt_is_Some_2 (pctC p) j) as [pc Epc]; [rewrite (wp_pct p Hp); by eapply lookup_lt_Some|].
  assert (pctAt j = pc) as Ep by (unfold pctAt; by rewrite Epc). assert (idx (pctC p) (Z.of_nat j) = Ok pc) as Ei by (apply idx_lookup; [lia|by rewrite Nat2Z.id]).
  pose proof (numAt_cell cells j x c Hx Hc) as Hna. destruct (list_elem_of_split_length _ _ _ Hc) as (a1 & a2 & Ea & _). destruct (list_elem_of_split_length _ _ _ Hx) as (l1 & l2 & -> & ->).
  change (Z.of_nat (length l1)) with (len l1) in *. pose proof (has_kind p isMinMax a1 c a2 Ea) as Hmm. fold (hasMinMax p) in Hmm. pose proof (has_kind p isCollect a1 c a2 Ea) as Hco. fold (hasCollect p) in Hco.
  unfold aggValue, cellValue. rewrite Ep, Ei. cbn [mbind res_bind].
  assert (idx (wstates (windowsAt p (l1 ++ x :: l2))) (len l1) = Ok (c_state x)) as Hs by (apply (idx_mid c_state)).
  destruct (Kind c) eqn:Kc; try specialize (Hmm eq_refl); try specialize (Hco eq_refl); try specialize (Hna eq_refl); rewrite ?Hs; cbn [mbind res_bind].
  - unfold numAt. destruct (hasNumAcc p) eqn:Hn; cbn [mbind res_bind]; [|unfold stateFinalize; by rewrite Ek].
    assert (idx (wnum (windowsAt p (l1 ++ x :: l2))) (len l1) = Ok (c_num x)) as -> by (by apply (idx_if c_num)). cbn [mbind res_bind]. unfold stateFinalize. by rewrite Ek.
  - rewrite Hna. cbn [mbind res_bind]. unfold stateFinalize. by rewrite Ek.
  - rewrite Hna. cbn [mbind res_bind]. unfold stateFinalize. by rewrite Ek.
  - by apply (idx_if c_mm).
  - by apply (idx_if c_mm).
  - assert (idx (witems (windowsAt p (l1 ++ x :: l2))) (len l1) = Ok (c_items x)) as -> by (by apply (idx_if c_items)). done.
  - rewrite Hna. cbn [mbind res_bind]. unfold stateFinalize. by rewrite Ek.
  - rewrite Hna. cbn [mbind res_bind]. unfold stateFinalize. by rewrite Ek.
  - assert (idx (witems (windowsAt p (l1 ++ x :: l2))) (len l1) = Ok (c_items x)) as -> by (by apply (idx_if c_items)). done.
  - assert (idx (witems (windowsAt p (l1 ++ x :: l2))) (len l1) = Ok (c_items x)) as -> by (by apply (idx_if c_items)). done.
Qed.

Lemma mapM_ext_in {A B} (f g : A → res B) l : (∀ x, x ∈ l → f x = g x) → mapM f l = mapM g l.
Proof. intros H. induction l as [|x l IH]; [done|]. cbn [mapM]. rewrite H by (by left). by rewrite IH by (intros; apply H; by right). Qed.

Lemma in_enum {A} (l : Datatypes.list A) i x : (i, x) ∈ enum l → 0 ≤ i ∧ l !! Z.to_nat i = Some x.
Proof. intros (k & Hk)%list_elem_of_lookup. apply lookup_enum in Hk as [-> Hk]. split; [lia|]. by rewrite Nat2Z.id. Qed.

Lemma enum_snd {A} (l : Datatypes.list A) : (enum l).*2 = l.
Proof.
  unfold enum. apply list_eq. intros i. rewrite list_lookup_fmap. fold (enum l). destruct (enum l !! i) as [[z x]|] eqn:E.
  - apply lookup_enum in E as [_ E]. by rewrite E.
  - cbn. apply lookup_ge_None in E. rewrite length_enum in E. symmetry. by apply lookup_ge_None.
Qed.

Lemma keysOf_at a gs i g : coreInv p a gs → gs !! i = Some g → keysOf p a (Z.of_nat i) = Ok (g_keys g).
Proof.
  intros [Hn Hk Hs Hw] Hg. pose proof (proj1 (Forall_lookup _ _) Hw i g Hg) as [_ Lk Wk]. unfold keysOf. destruct (keysPacked a).
  - destruct Hk as [Hk _]. assert (idsOf gs !! i = Some (groupId (g_keys g))) as Hi by (unfold idsOf; by rewrite list_lookup_fmap, Hg).
    rewrite <- Hk, list_lookup_fmap in Hi. apply fmap_Some in Hi as (w & Hw' & Ew). rewrite (idx_lookup _ _ w) by (rewrite ?Nat2Z.id; done || lia). cbn [mbind res_bind].
    f_equal. rewrite <- Lk. apply unpack_pack; [done|]. unfold groupId in Ew. destruct (packGroupKey (g_keys g)); congruence.
  - destruct Hk as [_ ->]. destruct (list_elem_of_split_length _ _ _ Hg) as (g1 & g2 & -> & ->). rewrite fmap_app, fmap_cons. change (Z.of_nat (length g1)) with (len g1). rewrite <- (len_fmap g_keys g1).
    apply window_at. rewrite <- fmap_cons, <- fmap_app. apply Forall_fmap. eapply Forall_impl; [exact Hw|]. intros h Hh. apply (wg_keys _ _ Hh).
Qed.

Lemma mapM_Forall2 {A B} (f : A → res B) l k : Forall2 (λ x y, f x = Ok y) l k → mapM f l = Ok k.
Proof. induction 1 as [|x y l k E _ IH]; [done|]. cbn [mapM]. by rewrite E, IH. Qed.
Lemma mapM_Ok_Forall2 {A B} (f : A → res B) l : ∀ k, mapM f l = Ok k → Forall2 (λ x y, f x = Ok y) l k.
Proof.
  induction l as [|x l IH]; intros k; cbn [mapM]; [intros [= <-]; constructor|]. destruct (f x) as [y| |] eqn:E; cbn [mbind res_bind]; [|done..].
  destruct (mapM f l) as [ys| |]; cbn [mbind res_bind]; [|done..]. intros [= <-]. constructor; [done|]. by apply IH.
Qed.

Lemma keys_read (keys : row) (ps : Datatypes.list Z) : length keys = length ps → mapM (λ e : Z * Z, idx keys e.1) (enum ps) = Ok keys.
Proof.
  intros L. apply mapM_Forall2, Forall2_same_length_lookup_2; [by rewrite length_enum|]. intros i [z x] y Hi Hy. apply lookup_enum in Hi as [-> _]. apply idx_lookup; [cbn; lia|]. cbn. by rewrite Nat2Z.id.
Qed.

Lemma emitGroup_at a gs i g : wfPlan p → wfLayout → coreInv p a gs → gs !! i = Some g →
  (r ← emitGroup fe p a (Z.of_nat i) (emptyRow p); slice r 0 (nCols p)) = vals ← valuesOf (g_cells g); Ok (assemble (g_keys g) vals).
Proof.
  intros Hp Hl Hc Hg. pose proof (emptyRow_len Hl) as Le. destruct Hl as [[Hc0 Hh0] [Lk Hpk] Hpa Hpp]. unfold emitGroup. rewrite (keysOf_at a gs i g Hc Hg). cbn [mbind res_bind].
  destruct Hc as [Hn Hk Hs Hw]. pose proof (proj1 (Forall_lookup _ _) Hw i g Hg) as [Wc Wl Wk]. assert (length (g_keys g) = length (GroupIdx p)) as Lg by (unfold len in Wl; lia).
  rewrite (foldM_place (λ e : Z * Z, idx (g_keys g) e.1) (λ e, e.2) (enum (GroupIdx p)) (emptyRow p)), (keys_read _ _ Lg); cycle 1.
  { rewrite Le. apply Forall_forall. intros [z x] Hx%in_enum. cbn. eapply (proj1 (Forall_forall _ _) Hpk). by eapply list_elem_of_lookup_2, Hx. }
  change ((λ e : Z * Z, e.2) <$> enum (GroupIdx p)) with ((enum (GroupIdx p)).*2). rewrite enum_snd. cbn [mbind res_bind]. set (r1 := placeAll (zip (GroupIdx p) (g_keys g)) (emptyRow p)).
  assert (len r1 = width) as L1 by (rewrite <- Le; unfold len, r1; by rewrite placeAll_length).
  destruct (list_elem_of_split_length _ _ _ Hg) as (g1 & g2 & E1 & E2). change (Z.of_nat i) with (Z.of_nat i). rewrite Hs, E1, E2. change (Z.of_nat (length g1)) with (len g1).
  rewrite windowsOf_at by (by rewrite <- E1). cbn [mbind res_bind].
  rewrite (foldM_place (λ e, aggValue fe p (windowsAt p (g_cells g)) e.2 e.1) (λ e, OutIdx e.2) (enum (Aggs p)) r1); cycle 1.
  { rewrite L1. apply Forall_forall. intros [z c] Hx%in_enum. cbn. eapply (proj1 (Forall_forall _ _) Hpa). by eapply list_elem_of_lookup_2, Hx. }
  assert (mapM (λ e, aggValue fe p (windowsAt p (g_cells g)) e.2 e.1) (enum (Aggs p)) = valuesOf (g_cells g)) as ->.
  { unfold valuesOf. apply mapM_ext_in. intros [z c] [H0 Hz]%in_enum. cbn. destruct (lookup_lt_is_Some_2 (g_cells g) (Z.to_nat z)) as [x Hx].
    { rewrite (kindsOf_length _ _ Wc). by eapply lookup_lt_Some. }
    rewrite Hx. rewrite <- (Z2Nat.id z) at 1 by done. by apply aggValue_cell. }
  destruct (valuesOf (g_cells g)) as [vals| |]; cbn [mbind res_bind]; [|done..]. change ((λ e : Z * AggCol, OutIdx e.2) <$> enum (Aggs p)) with ((OutIdx ∘ snd) <$> enum (Aggs p)). rewrite list_fmap_compose, enum_snd.
  set (r2 := placeAll (zip (OutIdx <$> Aggs p) vals) r1). assert (len r2 = width) as L2 by (rewrite <- L1; unfold len, r2; by rewrite placeAll_length).
  destruct (post_place (Post p) r2) as [-> L3]; [by rewrite L2|]. cbn [mbind res_bind]. rewrite L2 in L3. unfold width in L3. rewrite slice_ok by lia. rewrite Z.sub_0_r, drop_0. done.
Qed.

(** ** The reference rows *)

(** The groups as key tuple and members; a keyless aggregate over no rows has one. *)
Definition groupsWith {K} `{EqDecision K} (key : row → K) (rs : Datatypes.list row) : Datatypes.list (row * Datatypes.list row) :=
  if decide (rs = [] ∧ len (GroupIdx p) = 0) then [([], [])] else (λ m, (keysAt p m, membersBy key rs m)) <$> firstsBy key rs.

Definition groupValues (ms : Datatypes.list row) : res row :=
  mapM (λ e, aggregateOf fe (Kind e.2) (pctAt (Z.to_nat e.1)) (seenArgs (CDistinct e.2) ((λ m, argAt p m (Z.to_nat e.1)) <$> ms))) (enum (Aggs p)).
Definition groupRow (g : row * Datatypes.list row) : res row := vals ← groupValues g.2; Ok (assemble g.1 vals).

Lemma valuesOf_cells ms : Forall (wfRow p) ms → len ms < 2 ^ 63 → valuesOf (cellsOf ms) = groupValues ms.
Proof.
  intros Hw L. apply mapM_ext_in. intros [z c] [H0 Hz]%in_enum. cbn [fst snd]. rewrite (cellsOf_at ms (Z.to_nat z) c Hz). apply cell_value; [|by rewrite len_fmap].
  rewrite <- list_fmap_compose. apply Forall_fmap. eapply Forall_impl; [exact Hw|]. intros m Hm. apply (wr_args _ _ Hm).
Qed.

Lemma firstsBy_nil {K} `{EqDecision K} (key : row → K) rs : firstsBy key rs = [] ↔ rs = [].
Proof.
  split; [|by intros ->]. intros E. destruct rs as [|m rs]; [done|]. pose proof (firstsBy_keys key (m :: rs) (key m)) as H. rewrite E in H. cbn in H. exfalso.
  apply (not_elem_of_nil (key m)), H. by left.
Qed.

Lemma closeGroups_ok rs a : wfLayout → (rs = [] → a = emptyAggregator) → aggInv p dpk a (refGroups rs) →
  ∃ a', closeGroups p a = Ok a' ∧ coreInv p a' ((λ g, mkGroup g.1 (cellsOf g.2)) <$> groupsWith idAt rs).
Proof.
  intros Hl E [Hc _ _ _ _]. unfold closeGroups, groupsWith. assert (nGroups a = 0 ↔ rs = []) as Hn.
  { rewrite (ci_n _ _ _ Hc). unfold refGroups. rewrite len_fmap, <- (firstsBy_nil idAt rs). unfold len. rewrite <- length_zero_iff_nil. lia. }
  destruct (decide (nGroups a = 0 ∧ len (GroupIdx p) = 0)) as [[D1 D2]|D].
  - rewrite decide_True by tauto. apply Hn in D1 as ->. rewrite (E eq_refl). destruct (wl_keys Hl) as [Lk _].
    destruct (appendGroup_ok p dpk emptyAggregator [] [] (coreInv_new p)) as (a' & -> & H & _); [done|split; [unfold len in *; cbn; lia|constructor]|]. by exists a'.
  - rewrite decide_False by tauto. exists a. split; [done|]. by rewrite <- list_fmap_compose.
Qed.

Section finalized.
Context (a : aggregator) (l : Datatypes.list (row * Datatypes.list row)).
Hypothesis Hp : wfPlan p.
Hypothesis Hl : wfLayout.
Hypothesis Ha : coreInv p a ((λ g, mkGroup g.1 (cellsOf g.2)) <$> l).
Hypothesis Hms : Forall (λ g, Forall (wfRow p) g.2 ∧ len g.2 < 2 ^ 63) l.

Abbreviation emit := (λ i, r ← emitGroup fe p a i (emptyRow p); slice r 0 (nCols p)).

Lemma emit_group i g : l !! i = Some g → emit (Z.of_nat i) = groupRow g.
Proof.
  intros Hg. rewrite Forall_lookup in Hms. destruct (Hms i g Hg) as [Hw L]. unfold groupRow. rewrite <- valuesOf_cells by done.
  change g.1 with (g_keys (mkGroup g.1 (cellsOf g.2))). apply (emitGroup_at a _ i (mkGroup g.1 (cellsOf g.2)) Hp Hl Ha). by rewrite list_lookup_fmap, Hg.
Qed.

Lemma nGroups_l : nGroups a = len l.
Proof. by rewrite (ci_n _ _ _ Ha), len_fmap. Qed.

Lemma emit_all : mapM emit (zseq (nGroups a)) = mapM groupRow l.
Proof. rewrite nGroups_l. apply mapM_positions. apply emit_group. Qed.

Section rows.
Context (rows : Datatypes.list row).
Hypothesis Hrows : mapM groupRow l = Ok rows.

Lemma rows_length : length rows = length l.
Proof. by apply mapM_Ok_Forall2, Forall2_length in Hrows. Qed.

Lemma emit_row i out : rows !! i = Some out → emit (Z.of_nat i) = Ok out.
Proof.
  intros Hi. pose proof (mapM_Ok_Forall2 _ _ _ Hrows) as HF. pose proof (Forall2_lookup_r _ _ _ _ _ HF Hi) as (g & Hg & Eg). by rewrite (emit_group i g Hg).
Qed.

Lemma nGroups_rows : nGroups a = len rows.
Proof. rewrite nGroups_l. unfold len. by rewrite rows_length. Qed.

Lemma topK_rows bnd : 0 ≤ bnd → ∃ t, foldM (offerGroup fe p a) (zseq (nGroups a)) (newTopKRows bnd (Desc (aproj p))) = Ok t ∧
    accInv bnd (Desc (aproj p)) t (numbered ((λ o, (orderKeys p o, o)) <$> rows)).
Proof.
  intros Hb. rewrite nGroups_rows.
  destruct (foldM_zseq (λ i t, accInv bnd (Desc (aproj p)) t (numbered ((λ o, (orderKeys p o, o)) <$> take (Z.to_nat i) rows)))
    (offerGroup fe p a) (len rows) (newTopKRows bnd (Desc (aproj p)))) as (t & E & Ht).
  - apply len_nonneg.
  - by apply accInv_new.
  - intros i t Hi Hacc. destruct (lookup_lt_is_Some_2 rows (Z.to_nat i)) as [out Ho]; [unfold len in Hi; lia|]. pose proof (emit_row _ _ Ho) as Er. rewrite Z2Nat.id in Er by lia.
    unfold offerGroup. destruct (emitGroup fe p a i (emptyRow p)) as [r| |]; cbn [mbind res_bind] in Er |- *; [|done..]. rewrite Er. cbn [mbind res_bind].
    replace (Z.to_nat (i + 1)) with (S (Z.to_nat i)) by lia. rewrite (take_S_r _ _ _ Ho), fmap_app. cbn [fmap list_fmap]. rewrite numbered_snoc.
    destruct (offer_ok _ _ Hb t _ (orderKeys p out) out Hacc) as (b & t' & E & Hacc' & _). destruct (wouldAccept t (orderKeys p out)) eqn:W; cbn [negb].
    + rewrite E. cbn [mbind res_bind]. by exists t'.
    + rewrite (offer_refused _ _ Hb t _ _ _ Hacc) in E by (done || apply numbered_seq). injection E as _ <-. by exists (bumpSeq t).
  - exists t. split; [done|]. by rewrite to_nat_len, take_ge in Ht by done.
Qed.

End rows.

(** One group offered: where its row fails, so does the accumulator's fold. *)
Lemma offerGroup_step bnd i t : 0 ≤ bnd → i ∈ zseq (nGroups a) → (∃ ks, accInv bnd (Desc (aproj p)) t (numbered ks)) →
  match emit i with Ok _ => ∃ t', offerGroup fe p a t i = Ok t' ∧ ∃ ks, accInv bnd (Desc (aproj p)) t' (numbered ks) | Err e => offerGroup fe p a t i = Err e | Panic => offerGroup fe p a t i = Panic end.
Proof.
  intros Hb _ (ks & Hacc). unfold offerGroup. destruct (emitGroup fe p a i (emptyRow p)) as [r| |]; cbn [mbind res_bind]; [|done..]. destruct (slice r 0 (nCols p)) as [out| |]; cbn [mbind res_bind]; [|done..].
  destruct (offer_ok _ _ Hb t _ (orderKeys p out) out Hacc) as (b & t' & E & Hacc' & _). rewrite <- numbered_snoc in Hacc'. destruct (wouldAccept t (orderKeys p out)) eqn:W; cbn [negb].
  - rewrite E. cbn [mbind res_bind]. eauto.
  - rewrite (offer_refused _ _ Hb t _ _ _ Hacc) in E by (done || apply numbered_seq). injection E as _ <-. eauto.
Qed.

Lemma aggFinalize_ok dtk a0 : wfCounts (aproj p) → (∀ rows, mapM groupRow l = Ok rows → wfKeys (aproj p) (orderKeys p <$> rows)) → closeGroups p a0 = Ok a →
  aggFinalize fe p dtk a0 = rows ← mapM groupRow l; Ok (page (Skip (aproj p)) (Limit (aproj p)) (inOrder (Desc (aproj p)) (orderKeys p <$> rows) rows)).
Proof.
  intros Hc Hk E. unfold aggFinalize. rewrite E. cbn [mbind res_bind].
  assert (∀ l : Datatypes.list row, paginate l (Skip (aproj p)) (Limit (aproj p)) = Ok (page (Skip (aproj p)) (Limit (aproj p)) l)) as Hpg.
  { intros k. destruct Hc as [H1 H2]. apply paginate_ok; [done|]. intros n Hn. destruct (H2 n Hn). lia. }
  case_decide as D.
  - unfold finalizeTopK. pose proof emit_all as Hem. destruct (mapM groupRow l) as [rows|e|] eqn:Er; cbn [mbind res_bind]; cycle 1.
    1,2: assert (∃ ks, accInv (orderBound (aproj p)) (Desc (aproj p)) (newTopKRows (orderBound (aproj p)) (Desc (aproj p))) (numbered ks)) as H0 by (exists []; apply accInv_new, D);
      pose proof (foldM_fails _ _ _ _ (λ i t, offerGroup_step (orderBound (aproj p)) i t (proj1 (proj1 D))) _ H0) as Hf; rewrite Hem in Hf; by rewrite Hf.
    destruct (topK_rows rows Er (orderBound (aproj p))) as (t & Et & Ht); [tauto|]. rewrite Et. cbn [mbind res_bind]. rewrite Hpg, (sorted_ok _ _ _ _ (proj1 (proj1 D)) Ht), page_kept by done.
    rewrite <- !list_fmap_compose. unfold compose. cbn. by rewrite list_fmap_id.
  - rewrite emit_all. destruct (mapM groupRow l) as [rows|e|] eqn:Er; cbn [mbind res_bind]; [|done..]. destruct (decide (0 < len (Desc (aproj p)))) as [D'|D'].
    + rewrite sortRowsByOrder_ok by (by apply Hk || by rewrite length_fmap). cbn [mbind res_bind]. by rewrite Hpg, page_kept.
    + cbn [mbind res_bind]. rewrite Hpg. assert (Desc (aproj p) = []) as -> by (destruct (Desc (aproj p)); [done|rewrite len_cons in D'; pose proof (len_nonneg l0); lia]). by rewrite inOrder_nil.
Qed.
End finalized.

(** ** The theorem *)

Abbreviation keyTuple := (λ m, Key <$> keysAt p m).

(** Rows with equal keys are packed alike: no integer key meets an equal float key. *)
Definition packsByKey (rs : Datatypes.list row) : Prop :=
  ∀ m m', m ∈ rs → m' ∈ rs → keyTuple m = keyTuple m' → packs (keysAt p m) = packs (keysAt p m').

Lemma groupsWith_keys rs : Forall (wfRow p) rs → packsByKey rs → groupsWith idAt rs = groupsWith keyTuple rs.
Proof.
  intros Hr Hk. rewrite Forall_forall in Hr. unfold groupsWith. case_decide; [done|].
  destruct (groupBy_ext idAt keyTuple rs) as [E1 E2].
  { intros x y Hx Hy. cbn. pose proof (wr_keys _ _ (Hr x Hx)) as Wx. pose proof (wr_keys _ _ (Hr y Hy)) as Wy.
    rewrite groupId_keys by (done || unfold keysAt; by rewrite !length_fmap). split; [by intros [? _]|]. intros E. split; [done|by apply Hk]. }
  rewrite <- E1. apply list_fmap_ext. intros i m Hm. f_equal. apply E2. eapply firstsBy_sub, list_elem_of_lookup_2, Hm.
Qed.

Lemma groupsWith_members {K} `{EqDecision K} (key : row → K) rs : Forall (wfRow p) rs → len rs < 2 ^ 63 → Forall (λ g, Forall (wfRow p) g.2 ∧ len g.2 < 2 ^ 63) (groupsWith key rs).
Proof.
  intros Hr L. unfold groupsWith. case_decide; [repeat constructor|]. apply Forall_fmap, Forall_forall. intros m _. cbn. split; [apply Forall_forall; intros x Hx%list_elem_of_filter; rewrite Forall_forall in Hr; apply Hr, Hx|].
  unfold membersBy. pose proof (length_filter (λ r, key r = key m) rs). unfold len in *. lia.
Qed.

(** Plans and inputs as the binder and the matcher produce them. *)
Record aggregable (ins : Datatypes.list aggInput) : Prop := {
  ab_plan : wfPlan p;
  ab_layout : wfLayout;
  ab_inputs : Forall wfInput ins;
  ab_rows : Forall (wfRow p) (concat (rowsIn <$> ins));
  ab_few : len (concat (rowsIn <$> ins)) < 2 ^ 63;
  ab_counts : wfCounts (aproj p);
  ab_order : ∀ g out, g ∈ groupsWith idAt (concat (rowsIn <$> ins)) → groupRow g = Ok out →
    length (orderKeys p out) = length (Desc (aproj p)) ∧ Forall (λ v, wfValue v = true) (orderKeys p out);
}.

Lemma aggregate_ok dtk ins : aggregable ins → aggregate fe p dpk dtk ins =
  rows ← mapM groupRow (groupsWith idAt (concat (rowsIn <$> ins)));
  Ok (page (Skip (aproj p)) (Limit (aproj p)) (inOrder (Desc (aproj p)) (orderKeys p <$> rows) rows)).
Proof.
  intros [Hp Hl Hi Hr Hf Hc Ho]. unfold aggregate. destruct (aggregate_groups ins Hp Hi Hr) as (a & E & Ha). rewrite E. cbn [mbind res_bind].
  destruct (closeGroups_ok (concat (rowsIn <$> ins)) a Hl) as (a' & E' & Ha'); [|done|].
  { intros E0. assert (ins = []) as ->; [|by injection E]. destruct Hi as [|i ins H1]; [done|]. cbn in E0. apply app_eq_nil in E0 as [E0 _]. destruct i as [m|m slot cands]; [done|]. destruct H1 as [_ H1]. by apply fmap_nil_inv in E0. }
  apply (aggFinalize_ok a' _ Hp Hl Ha'); try done; [by apply groupsWith_members|]. intros rows Hm. apply Forall_fmap, Forall_lookup. intros i out Hio. pose proof (Forall2_lookup_r _ _ _ _ _ (mapM_Ok_Forall2 _ _ _ Hm) Hio) as (g & Hg & Eg). eapply Ho; [by eapply list_elem_of_lookup_2|exact Eg].
Qed.

Lemma groupId_at rs m m' : Forall (wfRow p) rs → m ∈ rs → m' ∈ rs → idAt m = idAt m' ↔ keyTuple m = keyTuple m' ∧ packs (keysAt p m) = packs (keysAt p m').
Proof.
  intros Hr Hm Hm'. rewrite Forall_forall in Hr. apply groupId_keys; [unfold keysAt; by rewrite !length_fmap|apply (wr_keys _ _ (Hr m Hm))|apply (wr_keys _ _ (Hr m' Hm'))].
Qed.

(** Without percentiles the reference always has its rows. *)
Lemma groupRows_total {K} `{EqDecision K} (key : row → K) rs : Forall (λ c, Kind c ≠ AggPercentileCont ∧ Kind c ≠ AggPercentileDisc) (Aggs p) →
  ∃ rows, mapM groupRow (groupsWith key rs) = Ok rows.
Proof.
  intros Hk. generalize (groupsWith key rs) as l. induction l as [|g l [rows IH]]; [by eexists|]. cbn [mapM].
  assert (∃ vals, groupValues g.2 = Ok vals) as [vals Hv].
  { unfold groupValues. assert (∀ (es : Datatypes.list (Z * AggCol)), Forall (λ e, Kind e.2 ≠ AggPercentileCont ∧ Kind e.2 ≠ AggPercentileDisc) es →
      ∃ vals, mapM (λ e, aggregateOf fe (Kind e.2) (pctAt (Z.to_nat e.1)) (seenArgs (CDistinct e.2) ((λ m, argAt p m (Z.to_nat e.1)) <$> g.2))) es = Ok vals) as H.
    { induction 1 as [|e es He _ [vals IHe]]; [by eexists|]. cbn [mapM]. destruct e as [z c]. cbn [fst snd] in *.
      assert (∃ v, aggregateOf fe (Kind c) (pctAt (Z.to_nat z)) (seenArgs (CDistinct c) ((λ m, argAt p m (Z.to_nat z)) <$> g.2)) = Ok v) as [v ->].
      { destruct (Kind c); try (by eexists); tauto. }
      cbn [mbind res_bind]. rewrite IHe. by eexists. }
    apply H. apply Forall_forall. intros [z c] Hx%in_enum. cbn. eapply (proj1 (Forall_forall _ _) Hk). by eapply list_elem_of_lookup_2, Hx. }
  assert (groupRow g = Ok (assemble g.1 vals)) as -> by (unfold groupRow; by rewrite Hv). cbn [mbind res_bind]. rewrite IH. by eexists.
Qed.
End spec.

(** C21: The aggregator is GROUP BY: for every bound plan whose OFFSET and OFFSET + LIMIT do not overflow and any sequence of fewer than 2^63 rows and candidate batches on which bare variables evaluate to their slots, whatever the packed keys, the demotion to boxed keys, the slab chunks, the DISTINCT sets, the bulk counting of batches and the bounded heap do on the way, the aggregator's outcome is that of the reference: one row per group in order of first sight, each aggregate computed over the group's arguments (without duplicates under DISTINCT; integer sums exact with overflow as null), sorted by the ORDER BY keys with ties in group order, skipped and limited, and a panic exactly when computing one of those rows panics, which only a percentile can; two rows are in one group exactly when their key tuples have one canonical key and both or neither of them pack; so when no packable integer key meets an equal float key, the groups are the distinct key tuples. *)
Theorem aggregation_is_group_by (fe : FloatEnv) (p : AggPlan) (dpk dtk : bool) (ins : Datatypes.list aggInput) : aggregable fe p ins →
  let rs := concat (rowsIn <$> ins) in
  aggregate fe p dpk dtk ins =
    (rows ← mapM (groupRow fe p) (groupsWith p (λ m, groupId (keysAt p m)) rs);
     Ok (page (Skip (aproj p)) (Limit (aproj p)) (inOrder (Desc (aproj p)) (orderKeys p <$> rows) rows))) ∧
  (∀ m m', m ∈ rs → m' ∈ rs → groupId (keysAt p m) = groupId (keysAt p m') ↔
    Key <$> keysAt p m = Key <$> keysAt p m' ∧ packs (keysAt p m) = packs (keysAt p m')) ∧
  (packsByKey p rs → groupsWith p (λ m, groupId (keysAt p m)) rs = groupsWith p (λ m, Key <$> keysAt p m) rs) ∧
  (Forall (λ c, Kind c ≠ AggPercentileCont ∧ Kind c ≠ AggPercentileDisc) (Aggs p) →
    ∃ rows, mapM (groupRow fe p) (groupsWith p (λ m, groupId (keysAt p m)) rs) = Ok rows).
Proof.
  intros Ha rs. pose proof (ab_rows _ _ _ Ha) as Hr. split_and!.
  - by apply aggregate_ok.
  - intros m m'. by apply groupId_at.
  - by apply groupsWith_keys.
  - apply groupRows_total.
Qed.

(** Rows of a node and a number, grouped by the node: its row count and the sum of the distinct numbers,
    ordered by the sum downwards, the first two. *)
Definition ieee : FloatEnv := mkFloatEnv (λ _ _, nanBits) false (λ _, - 2 ^ 63).
Definition slotEval (i : nat) : RowEval := λ m, m !!! i.
Definition demoPlan : AggPlan :=
  mkAggPlan [slotEval 0] (Some [0]) [None; Some (slotEval 1)] [-1; 1] [None; None] [mkAggCol AggCount false 1; mkAggCol AggSum true 2] [0] [] 3 0
    (λ out, [out !!! 2%nat]) (mkProj [true] None (Some 2)) false.
Definition demoRows : Datatypes.list row := [[Node 7; Int 5]; [Node 8; Int 1]; [Node 7; Int 5]; [Str []; Int 2]; [Node 7; Int 4]].
Definition demoIns : Datatypes.list aggInput := PushRow <$> demoRows.
Definition demoOut : Datatypes.list row := [[Node 7; Int 3; Int 9]; [Node 8; Int 1; Int 1]; [Str []; Int 1; Int 2]].

Lemma demo_row v x : wfValue v = true → wfValue x = true → wfRow demoPlan [v; x].
Proof.
  intros Hv Hx. split.
  - repeat constructor. exact Hv.
  - intros [|[|j]]; done.
  - intros [|[|j]] s e; cbn; try done. intros [= <-] [= <-] _. done.
  - intros ss [= <-]. split; [repeat constructor|done]. done.
Qed.
Lemma demo_aggregable : aggregable ieee demoPlan demoIns.
Proof.
  split.
  - split; try done. intros ss [= <-]. split; [done|by left].
  - split; [done|split; [done|]|..]; repeat (apply Forall_cons; split; [unfold width; cbn; lia|]); constructor.
  - repeat constructor.
  - change (Forall (wfRow demoPlan) demoRows). unfold demoRows. repeat (apply Forall_cons; split; [by apply demo_row|]). constructor.
  - done.
  - split; [done|]. intros k [= <-]. cbn. lia.
  - intros g out Hg E. assert (groupsWith demoPlan (λ m, groupId (keysAt demoPlan m)) (concat (rowsIn <$> demoIns)) =
      [([Node 7], [[Node 7; Int 5]; [Node 7; Int 5]; [Node 7; Int 4]]); ([Node 8], [[Node 8; Int 1]]); ([Str []], [[Str []; Int 2]])]) as Eg by (by vm_compute).
    rewrite Eg in Hg. repeat (apply elem_of_cons in Hg as [->|Hg]; [vm_compute in E; injection E as <-; by repeat constructor|]). by apply not_elem_of_nil in Hg.
Qed.

Lemma aggregation_is_group_by_witness : aggregate ieee demoPlan false false demoIns =
  Ok (page None (Some 2) (inOrder [true] (orderKeys demoPlan <$> demoOut) demoOut)).
Proof.
  destruct (aggregation_is_group_by ieee demoPlan false false demoIns demo_aggregable) as [E _]. rewrite E.
  assert (mapM (groupRow ieee demoPlan) (groupsWith demoPlan (λ m, groupId (keysAt demoPlan m)) (concat (rowsIn <$> demoIns))) = Ok demoOut) as -> by (by vm_compute). reflexivity.
Defined.

(** ** Where the aggregator departs from its documentation *)

Definition mixedRows : Datatypes.list row := [[Int 1; Int 5]; [Float one64F; Int 6]].

(** C40: Packed keys split a group: an integer key within 62 bits and the float key of equal value have the same canonical key, by which DISTINCT and the reference treat them as one, but the integer is routed through the packed index and the float through the byte index, so that grouping by 1 and 1.0 returns two groups where the canonical encoding has one. *)
Theorem packed_keys_split_groups :
  (∀ i f, - 2 ^ 61 ≤ i < 2 ^ 61 → is_u64 f → isNaN f = false → fval f = i * f64one → Key (Int i) = Key (Float f) ∧ groupId [Int i] ≠ groupId [Float f]) ∧
  aggregate ieee demoPlan false false (PushRow <$> mixedRows) = Ok [[Float one64F; Int 1; Int 6]; [Int 1; Int 1; Int 5]] ∧
  mapM (groupRow ieee demoPlan) (groupsWith demoPlan (λ m, Key <$> keysAt demoPlan m) mixedRows) = Ok [[Int 1; Int 2; Int 11]].
Proof.
  split; [|split; by vm_compute]. intros i f Hi Hf Hn Ev. split.
  - assert (integralInRange f = true) as Hr by (apply integralInRange_spec; [done|]; split; [done|]; exists i; split; [lia|done]).
    apply Key_canon; [cbn; apply bool_decide_true; lia|cbn; by apply bool_decide_true|]. cbn. rewrite Hr. by rewrite (truncInt_integral f i Ev).
  - unfold groupId. cbn. by rewrite decide_False by lia.
Qed.

(** A NaN percentile escapes the range check: where int64 of NaN is the least int64, as on amd64, percentile_cont with a NaN percentile panics on every group that collected a number, although a percentile outside [0,1] is documented to give null. *)
Theorem nan_percentile_panics (fe : FloatEnv) (vals : Datatypes.list gvalue) (nan : Z) :
  (∀ x y, isNaN (nanOf fe x y) = true) → (∀ b, isNaN b = true → outOfRange fe b = - 2 ^ 63) → is_u64 nan → isNaN nan = true → vals ≠ [] →
  percentileOf fe (Some (Float nan)) vals true = Panic.
Proof.
  intros Hn Ho Hu Hnan Hv. unfold percentileOf. rewrite decide_False by (destruct vals; [done|rewrite len_cons; pose proof (len_nonneg vals); lia]). cbn [asNum].
  assert (flt nan 0 || flt one64F nan = false) as -> by (unfold flt; rewrite Hnan; by rewrite andb_false_r).
  assert (decode nan = SpecFloat.S754_nan) as Ed.
  { pose proof (encode_decode (2 ^ 64) nan Hu) as E. rewrite Hnan in E. pose proof (encode_decode (2 ^ 65) nan Hu) as E'. rewrite Hnan in E'. destruct (decode nan); try done; cbn [encode] in E, E'; rewrite E in E'; discriminate. }
  set (l := SortFunc _ vals). assert (intF fe (floorF fe (fmul fe nan (ofInt (len l - 1)))) = - 2 ^ 63) as ->.
  { assert (isNaN (fmul fe nan (ofInt (len l - 1))) = true) as Hm by (unfold fmul; rewrite Ed; apply Hn). unfold floorF. rewrite Hm, orb_true_r. cbn [orb]. unfold intF, toInt. rewrite Hm. by apply Ho. }
  assert (idx l (- 2 ^ 63) = Panic) as -> by (unfold idx; by rewrite decide_True by lia). done.
Qed.

Lemma nan_percentile_panics_witness : percentileOf ieee (Some (Float nanBits)) [Int 1; Int 2] true = Panic.
Proof. apply (nan_percentile_panics ieee [Int 1; Int 2] nanBits); try done. Defined.
